(* ===== verification/_CoqProject ===== *)
-Q . S2P
Prelude.v
Cap.v
Handoff.v
Bump.v
Pmm.v
Boot.v
Slab.v
HeapSpec.v
HeapUse.v
Vm.v
Ring.v
Bytes.v
Fs.v
Cache.v
Journal.v
Reader.v
Volume.v
Crash.v
Staging.v
Files.v
Directory.v
Segment.v
SegmentTrip.v
Tcp.v
TcpStep.v
TcpDiagram.v
TcpSend.v
TcpStream.v
TcpDefects.v
Sched.v
SchedPolicy.v
SchedFair.v
Ipc.v
Exchange.v
Sha.v
Slh.v
SlhTrip.v
SlhTotal.v
BootSig.v
Slots.v
SlotsLaws.v
Rollback.v
RollbackLaws.v
Loader.v
SecureBoot.v
Elf.v
ElfLaws.v
AuditLog.v
AuditLaws.v
AuditLedger.v
AuditKeeper.v
