(* ===== verification/Prelude.v ===== *)
(** * Bhaskix in Rocq

    A verification library for the core of the Bhaskix operating system.  The
    sources (src/) are Rust; each part modelled here is translated function by
    function into executable Rocq definitions that keep the source's names, and
    the theorems are about those definitions.

    ** How the program is translated

    The root workspace, with the kernel and its libraries, is built with
    [panic = "abort"] and overflow checks on in every profile, so an overflow, an
    underflow and an index out of range stop the machine: computations return
    [outcome], with [Panic] for that and [OutOfFuel] for a loop whose iteration
    budget ran out.  Theorems say that a call is [Done]; neither of the other two
    outcomes satisfies them.  The services under user/ are workspaces of their own
    and build the same libraries (fs, net, auditlog, telemetry ...) into their
    release images without overflow checks: a computation that is [Done] has not
    overflowed, so it is the same there, while what is a [Panic] for an overflow
    would wrap.  A Rust
    [Result] is [result]; a method on [&mut self] that can fail is a [prog], which
    hands back the object as it was left on an error too.  A w-bit integer is a [Z]
    in [0, 2^w): plain arithmetic is checked ([add_checked] ...), [wrapping_*],
    [saturating_*] and [as] are what they are called.  Bytes are [Z]s below 256.
    The boot loader, too, is a workspace whose release profile has no overflow checks:
    where its arithmetic can overflow it wraps, and is written so.

    ** The parts, and the files that model them

    - Authority.  Cap.v: the capability arena and capability spaces
      (kernel/src/cap.rs).
    - Memory.  Handoff.v (boot/handoff): the memory map the loader hands over and
      its validation.  Bump.v (mm/src/bump.rs): the allocator of early boot.  Pmm.v
      (mm/src/pmm.rs): the buddy allocator, its free lists as index-linked lists in
      the frame array.  Boot.v (kernel/src/memory.rs): the hand-over from the one to
      the other, over Handoff, Bump and Pmm.  Slab.v (mm/src/slab.rs): the kernel
      heap over Pmm, with its object lists threaded through memory; HeapSpec.v: its
      invariant and the abstract heap; HeapUse.v: its theorems.  Vm.v
      (mm/src/vm.rs): the map of virtual regions.
    - Communication.  Ring.v (abi/src/ring.rs): the shared-memory rings.
    - Storage.  Bytes.v and Fs.v (fs/src/lib.rs): the on-disk format and the
      formatter.  Cache.v (fs/src/cache.rs, and the failing device of the kernel's
      test): devices behind the class [StoreLaws], and the write-back block cache.
      Journal.v (fs/src/journal.rs).  Reader.v (the [Filesystem] of fs/src/lib.rs):
      reading, over any [PagesLaws] source of pages.  Volume.v (fs/src/volume.rs):
      transactions and every operation of a mounted volume.  Crash.v: a commit on a
      device that may stop at any write.  Staging.v: what the operations stage in a
      transaction, as a relation [does] that composes.  Files.v: create, truncate
      and remove as one atomic step each.  Directory.v: what a reader then sees.
    - Network.  Segment.v (net/src/tcp.rs, net/src/tcp/segment.rs, the checksum of
      net/src/lib.rs): TCP segments on the wire; SegmentTrip.v: its theorems.  Tcp.v
      (net/src/tcp/state.rs): the connection machine.  TcpStep.v, TcpDiagram.v,
      TcpSend.v, TcpStream.v and TcpDefects.v: its theorems; TcpStream.v joins two
      machines by a network.
    - Threads.  Sched.v (kernel/src/sched.rs): runqueues, virtual time and what a
      tick, a wake and a creation do to them; SchedPolicy.v and SchedFair.v: its
      theorems.  Ipc.v (kernel/src/ipc.rs): the endpoint table.  Exchange.v: calls,
      receives, replies and exits over both, cut where the source releases a lock,
      as a step relation on the whole kernel.
    - Secure update.  Sha.v (sha256): the streaming hash, and the standard's.  Slh.v
      (bootsig/src/slh_dsa.rs and slh_dsa/sign.rs): SLH-DSA-SHA2-128s, verifier, signer
      and key generation; SlhTrip.v and SlhTotal.v: its theorems.  BootSig.v
      (bootsig/src/statement.rs and the signing tool): the statement that names a boot
      set.  Slots.v (slotdisk, boot/bhaskixboot/src/slots.rs): the disk with a record
      and two slots, over the firmware's Block I/O, the class [BlockIoLaws];
      SlotsLaws.v: its theorems.  Rollback.v (rollback, boot/bhaskixboot/src/counter.rs):
      the counter in the TPM, the class [Tcg2Laws]; RollbackLaws.v: its theorems.
      Loader.v (boot/bhaskixboot/src/main.rs): the choice of what boots, over all of
      these; SecureBoot.v: its theorems, over any number of boots.
    - Programs.  Elf.v (elf): the parser of program and kernel images and the walk over
      their relocations; ElfLaws.v: its theorems.
    - Audit.  AuditLog.v: the records and the ledger of operations (telemetry/src/audit.rs,
      over the arithmetic of telemetry/src/ring.rs), the kernel's side with the ring
      (kernel/src/audit.rs), the chain of hashes and its check (auditlog, over Sha.v), and
      the keeper that drains the ring into a file (user/auditd).  AuditLaws.v: the chain;
      AuditLedger.v: the ledger and the ring, over any run of the kernel; AuditKeeper.v:
      the kernel and the keeper together.

    ** What the theorems show

    - Cap.v: revocation kills exactly the descendants of a capability; authority
      never grows along derivation; a reference that stopped resolving does not
      resolve again until a 32-bit generation can have come round; no operation
      panics while serial numbers last (they are 64 bits wide and one is used per
      insertion).
    - Pmm.v: allocation and freeing refine an abstract allocator whose state is the
      set of free frames and the held blocks; held blocks are disjoint.  Boot.v: it
      starts with the usable memory handed to nobody, all of it but the page other
      processors start on, unless the bump allocator's sixteen ranges are full.
      HeapUse.v: the heap refines a set of disjoint held blocks, every frame of it
      being free or holding somebody's byte, and what an owner writes in its block
      stays there until it gives the block back.
    - Vm.v: protection changes exactly the pages asked for; the search for a free
      range finds the lowest.
    - Fs.v, Reader.v: the structures on disk read back as written and a file reads
      as the bytes its table names.  Cache.v: reads see the last write, a flush
      makes the device agree, whatever the device answers.
    - Crash.v, Files.v, Directory.v: on a device that stops anywhere, and after any
      number of interrupted recoveries, a mount shows all of an operation or
      nothing of it, and all of it if it reported success; an operation that
      answers an error was refused for a stated reason, had fewer than two frames
      of the cache to use, or has a device that can fail.  Creation and truncation
      are in Files.v; what a reader sees of a creation, and removal, in
      Directory.v.
    - TcpStep.v, TcpDiagram.v, TcpStream.v: the connection machine answers every
      event, moves along the edges of RFC 793's diagram that bear the event's label,
      and over a network that loses, repeats and reorders segments hands each program
      a prefix of what the other wrote, while streams stay below 2^31 bytes and the
      programs write and shut down when they may.  SegmentTrip.v: what is written
      parses back, the ACK flag as it was sent, and a changed byte is caught.
    - SchedPolicy.v: the choice of the next thread is the documented policy, and a
      tick neither loses nor copies a thread.  SchedFair.v: a fair thread that can
      run is dispatched within a computed number of ticks, under a condition on
      weights without which it may never be.
    - Ipc.v, Exchange.v: a sender and a receiver never both wait and a rendezvous
      hands over what was sent; in every interleaving nobody is left asleep with
      news nobody is about to deliver, and nobody is answered more often than it
      was heard.
    - Sha.v: fed in any pieces the hash is the standard's.  SlhTrip.v, SlhTotal.v,
      BootSig.v: what is signed verifies, verification answers on any bytes, the check
      of a boot set accepts exactly what it should, and it accepts what the tool makes.
      SlotsLaws.v: a damaged record is refused, and the reads of a slot stay in it.
      SecureBoot.v: under Secure Boot only signed sets boot, with a TPM or without; a
      trial gets its tries and no more; after a good set of version at most 64 has
      booted, no older one does, whatever is done to the disks and whatever the running
      system asks of the counter, provided the TPM was there and answered at both
      boots: without it the loader has no floor to go by.  That a signature
      cannot be forged is not a theorem: the theorems say that one was checked.
    - ElfLaws.v: the parser accepts exactly the images the rules allow and answers on any
      bytes; relocating an accepted image stays inside it.
    - AuditLaws.v: two logs under one head are one log, or an entry of each shows a
      collision of SHA-256.  AuditLedger.v: a record the reader has not claimed is not
      overwritten, and every operation is in the log, in a stated gap or in the count of
      those before it, but for those under way when the keeper attached.  AuditKeeper.v:
      in every interleaving the file verifies and tells what happened, in that sense.

    Some theorems state a defect the model exhibits; the ones named "... leaks",
    "... accepted", "... panics_at_the_wrap", "... kills", "... strands_data",
    "... starves", "... lose_...", "... forsakes_...", "stale_...", "... parks",
    "active_slot_...", "slot_a_beyond_...", "refused_image_...", "... is_lost" and
    "lying_tail_..." are of that kind.

    ** Fuel and bounds

    Loops are structural where the source iterates over a range.  Where it loops
    until a condition holds, the definition takes fuel and a theorem shows what it
    is given is enough: the revocation sweep gets one pass per slot of the arena,
    the buddy loops one per order, [Filesystem.read] one iteration per byte
    wanted, the option walk of a segment one per byte of the header, folding the
    carries of a checksum three.  [room n] in the storage files says that [n] more
    ticks of the cache's 64-bit counters fit; an operation needs at most 2^35.  The
    padding of the hash has 64 bytes at most to write, a digit of a signature no
    more bytes to fetch than it has bits, the read of a file one iteration per
    block, the loader three sources to try, and the dynamic table of an image one
    pair per sixteen bytes.  The theorems about runs of the audit log are for fewer
    than 2^30 steps: a gap record's count is 32 bits wide, and the check of a log is
    shown for logs of less than 2^38 bytes.

    ** Not modelled

    Locks (what runs under one lock is one step here), page tables, register
    contexts and other hardware state, sleep timers and wait queues of the
    scheduler, system-call dispatch, drivers, the Linux personality, user programs
    other than the audit keeper, and third-party code; of the boot loader the
    measurements and their log, the placement of the kernel, its page tables and the
    handoff block.  The firmware and
    the TPM are parameters with their documented behaviour as laws; of the TPM's
    commands only the six the loader knows are considered (an owner may remove the
    index with others).  The file server behind the audit keeper is a parameter: it takes
    a write or leaves any file.  Text output ([Debug], [Display]) is left
    out everywhere.  The operations [write], [write_run] and [empty] of Volume.v
    are modelled but only their building blocks have theorems. *)
From stdpp Require Import prelude numbers list.

(** ** Outcomes

    The kernel is built with [panic = "abort"] and with overflow checks on in
    every profile (src/Cargo.toml), so an arithmetic overflow, an underflow or
    an index out of bounds stops the machine.  [Panic] is that outcome;
    [OutOfFuel] is the outcome of a loop whose iteration budget ran out, and
    every theorem about a loop shows that it does not occur. *)
Inductive outcome (A : Type) : Type :=
| Done (a : A)
| Panic
| OutOfFuel.
Arguments Done {A} a.
Arguments Panic {A}.
Arguments OutOfFuel {A}.

#[global] Instance outcome_ret : MRet outcome := fun A a => Done a.
#[global] Instance outcome_bind : MBind outcome := fun A B f m =>
  match m with
  | Done a => f a
  | Panic => Panic
  | OutOfFuel => OutOfFuel
  end.

(** Rust's [Result]. *)
Inductive result (A E : Type) : Type :=
| Ok (a : A)
| Err (e : E).
Arguments Ok {A E} a.
Arguments Err {A E} e.

#[global] Instance outcome_eq_dec {A} `{EqDecision A} : EqDecision (outcome A).
Proof. solve_decision. Defined.
#[global] Instance result_eq_dec {A E} `{EqDecision A, EqDecision E} :
  EqDecision (result A E).
Proof. solve_decision. Defined.

Lemma outcome_bind_done {A B} (m : outcome A) (f : A → outcome B) b :
  m ≫= f = Done b → ∃ a, m = Done a ∧ f a = Done b.
Proof. destruct m; [eauto | done | done]. Qed.

Lemma outcome_bind_assoc {A B C} (m : outcome A) (f : A → outcome B) (g : B → outcome C) :
  (m ≫= f) ≫= g = m ≫= (fun a => f a ≫= g).
Proof. by destruct m. Qed.

Lemma outcome_bind_ext {A B} (m : outcome A) (f g : A → outcome B) : (∀ a, f a = g a) → m ≫= f = m ≫= g.
Proof. intros H. destruct m; cbn; [apply H|done|done]. Qed.

Definition is_Err {A E} (r : result A E) : Prop := match r with Ok _ => False | Err _ => True end.

(** Rust's [?] on a [Result], and [Option::ok_or]. *)
Definition rbind {A B E} (m : result A E) (f : A → result B E) : result B E :=
  match m with Ok a => f a | Err e => Err e end.
Definition ok_or {A E} (o : option A) (e : E) : result A E :=
  match o with Some a => Ok a | None => Err e end.

Declare Scope bhaskix_scope.
Notation "x ←? m ; k" := (rbind m (fun x => k))
  (at level 20, m at level 100, k at level 200, right associativity) : bhaskix_scope.
Open Scope bhaskix_scope.

(** ** Effectful programs

    A method taking [&mut self] and returning a [Result]: the object as it was
    left is part of every answer, an error's included. *)
Definition prog (St E A : Type) : Type := St → outcome (result A E * St).
Definition pret {St E A} (a : A) : prog St E A := fun s => Done (Ok a, s).
Definition pfail {St E A} (e : E) : prog St E A := fun s => Done (Err e, s).
Definition pbind {St E A B} (m : prog St E A) (k : A → prog St E B) : prog St E B := fun s =>
  '(r, s') ← m s;
  match r with Ok a => k a s' | Err e => Done (Err e, s') end.
Definition plift {St E A} (r : result A E) : prog St E A := fun s => Done (r, s).
(** A computation that may panic, inside a method. *)
Definition pout {St E A} (m : outcome A) : prog St E A := fun s => a ← m; Done (Ok a, s).
Notation "x ←! m ; k" := (pbind m (fun x => k))
  (at level 20, m at level 100, k at level 200, right associativity) : bhaskix_scope.

(** A [for] loop whose body may fail. *)
Fixpoint pfor {St E Ix} (body : Ix → prog St E unit) (ixs : list Ix) : prog St E unit :=
  match ixs with
  | [] => pret ()
  | i :: ixs' => _ ←! body i; pfor body ixs'
  end.

(** Sequencing is associative. *)
Lemma pbind_regroup {St E A B C D} (m1 : prog St E A) (m2 : A → prog St E B) (m3 : prog St E C) (k : C → prog St E D) s :
  (a ←! m1; _ ←! m2 a; c ←! m3; k c) s = (c ←! (a ←! m1; _ ←! m2 a; m3); k c) s.
Proof.
  unfold pbind. destruct (m1 s) as [[[a|e] s1]| |]; try done. cbn [mbind outcome_bind].
  by destruct (m2 a s1) as [[[b|e] s2]| |].
Qed.

Lemma pbind_assoc {St E A B C} (m : prog St E A) (f : A → prog St E B) (g : B → prog St E C) s :
  (a ←! m; b ←! f a; g b) s = (b ←! (a ←! m; f a); g b) s.
Proof. unfold pbind. by destruct (m s) as [[[a|e] s1]| |]. Qed.

Lemma pfor_fmap {St E Ix Jx} (body : Jx → prog St E unit) (f : Ix → Jx) ixs s :
  pfor body (f <$> ixs) s = pfor (fun i => body (f i)) ixs s.
Proof.
  revert s. induction ixs as [|i ixs IH]; intros s; [done|]. cbn [fmap list_fmap pfor]. unfold pbind.
  destruct (body (f i) s) as [[[[]|e] s']| |]; cbn [mbind outcome_bind]; [apply IH|done|done|done].
Qed.

(** ** Machine integers

    A value of a [w]-bit unsigned type is a [Z] in [0, 2^w).  Plain [+], [-]
    and [*] of the source are the checked operations; [as] casts and
    [wrapping_*] calls are the reducing ones; [saturating_*] calls clamp. *)
Definition in_width (w x : Z) : Prop := (0 ≤ x < 2 ^ w)%Z.
#[global] Instance in_width_dec w x : Decision (in_width w x).
Proof. unfold in_width. apply _. Defined.

Definition checked (w x : Z) : outcome Z :=
  if (0 <=? x)%Z && (x <? 2 ^ w)%Z then Done x else Panic.
Definition add_checked (w x y : Z) : outcome Z := checked w (x + y).
Definition sub_checked (w x y : Z) : outcome Z := checked w (x - y).
Definition mul_checked (w x y : Z) : outcome Z := checked w (x * y).
Definition trunc (w x : Z) : Z := (x mod 2 ^ w)%Z.
Definition wrapping_add (w x y : Z) : Z := trunc w (x + y).
Definition wrapping_sub (w x y : Z) : Z := trunc w (x - y).
Definition saturating_add (w x y : Z) : Z := Z.min (x + y) (2 ^ w - 1).
Definition saturating_sub (x y : Z) : Z := Z.max 0 (x - y).

Lemma checked_done w x y : checked w x = Done y ↔ y = x ∧ in_width w x.
Proof.
  unfold checked, in_width.
  destruct (Z.leb_spec 0 x), (Z.ltb_spec x (2 ^ w)); simpl; split;
    intros; simplify_eq; try done; try lia; destruct_and!; simplify_eq; try done; lia.
Qed.

Lemma checked_ok w x : in_width w x → checked w x = Done x.
Proof. intros H. by apply checked_done. Qed.

Lemma trunc_small w x : in_width w x → trunc w x = x.
Proof. unfold trunc, in_width. intros. by apply Z.mod_small. Qed.

Lemma trunc_range w x : (0 ≤ w)%Z → in_width w (trunc w x).
Proof. unfold trunc, in_width. intros. apply Z.mod_pos_bound. lia. Qed.

(** [Iterator::take_while]. *)
Fixpoint take_while {A} (p : A → bool) (l : list A) : list A :=
  match l with
  | [] => []
  | x :: l' => if p x then x :: take_while p l' else []
  end.

Lemma take_while_prefix {A} (p : A → bool) l : take_while p l `prefix_of` l.
Proof.
  induction l as [|x l IH]; simpl; [done|]. destruct (p x); [by apply prefix_cons|apply prefix_nil].
Qed.

(** ** Arrays

    A fixed array or a [Vec] is a list; indexing out of range panics. *)
Definition at_index {A} (l : list A) (i : nat) : outcome A :=
  match l !! i with
  | Some x => Done x
  | None => Panic
  end.

Lemma at_index_done {A} (l : list A) i x : at_index l i = Done x ↔ l !! i = Some x.
Proof. unfold at_index. destruct (l !! i); split; intros; by simplify_eq. Qed.

Lemma at_index_ok {A} (l : list A) i x : l !! i = Some x → at_index l i = Done x.
Proof. apply at_index_done. Qed.

(** The entries of an array of optional slots ([iter().flatten()]). *)
Definition occupied {A} (l : list (option A)) : list A := omap (fun e => e) l.

(** Filling or emptying one slot. *)
Lemma occupied_insert {A} (l : list (option A)) slot e e' : l !! slot = Some e →
  Permutation (occupied l) (option_list e ++ occupied (<[slot := None]> l)) ∧
  Permutation (occupied (<[slot := e']> l)) (option_list e' ++ occupied (<[slot := None]> l)).
Proof.
  intros H. unfold occupied. pose proof (lookup_lt_Some _ _ _ H) as Hlt.
  assert (Hins : ∀ x, <[slot := x]> l = take slot l ++ x :: drop (S slot) l) by (intros x; by apply insert_take_drop).
  assert (Hall : ∀ x, Permutation (omap (fun s => s) (take slot l ++ x :: drop (S slot) l))
    (option_list x ++ omap (fun s => s) (take slot l ++ None :: drop (S slot) l))).
  { intros x. rewrite !omap_app. destruct x as [t|]; csimpl; [|done]. by rewrite Permutation_middle. }
  rewrite !Hins. split; [|apply Hall]. rewrite <- (take_drop_middle l slot e H) at 1. apply Hall.
Qed.

Lemma occupied_nil {A} (l : list (option A)) : occupied l = [] ↔ ∀ i e, l !! i = Some e → e = None.
Proof.
  unfold occupied. induction l as [|[a|] l IH]; csimpl.
  - split; [by intros _ [|i] e|done].
  - split; [done|]. intros H. by specialize (H 0 _ eq_refl).
  - rewrite IH. split; intros H; [intros [|i] e Hi; [by simplify_eq/=|by apply (H i)]|intros i e Hi; by apply (H (S i))].
Qed.

(** [Iterator::position]: the index of the first element satisfying [p]. *)
Fixpoint position {A} (p : A → bool) (l : list A) : option nat :=
  match l with
  | [] => None
  | x :: l' => if p x then Some 0 else S <$> position p l'
  end.

Lemma position_some {A} (p : A → bool) l i :
  position p l = Some i ↔
  (∃ x, l !! i = Some x ∧ p x = true) ∧
  (∀ j x, j < i → l !! j = Some x → p x = false).
Proof.
  revert i; induction l as [|y l IH]; intros i; simpl.
  { split; [done|]. intros [(x & Hx & _) _]. by destruct i. }
  destruct (p y) eqn:Hy.
  - split.
    + intros [= <-]. split; [by exists y|]. intros; lia.
    + intros [_ Hmin]. destruct i as [|i]; [done|].
      rewrite (Hmin 0 y) in Hy; [done|lia|done].
  - destruct (position p l) as [k|] eqn:Hk; simpl.
    + split.
      * intros [= <-]. destruct (proj1 (IH k) eq_refl) as [Hx Hmin].
        split; [done|]. intros [|j] x Hj Hx'; [simplify_eq/=; congruence|].
        apply (Hmin j); [lia|done].
      * intros [(x & Hx & Hpx) Hmin]. destruct i as [|i]; [simplify_eq/=; congruence|].
        enough (Some k = Some i) as [= ->] by done.
        apply IH. split; [by exists x|]. intros j z Hj Hz.
        apply (Hmin (S j)); [lia|done].
    + split; [done|]. intros [(x & Hx & Hpx) Hmin].
      destruct i as [|i]; [simplify_eq/=; congruence|].
      enough (None = Some i) by done. apply IH. split; [by exists x|].
      intros j z Hj Hz. apply (Hmin (S j)); [lia|done].
Qed.

Lemma position_none {A} (p : A → bool) l :
  position p l = None ↔ ∀ i x, l !! i = Some x → p x = false.
Proof.
  induction l as [|y l IH]; simpl; [by split|].
  destruct (p y) eqn:Hy.
  - split; [done|]. intros H. by rewrite (H 0 y) in Hy.
  - destruct (position p l) as [k|]; simpl.
    + split; [done|]. intros H. enough (Some k = None) by done.
      apply IH. intros i x Hi. by apply (H (S i)).
    + split; [|done]. intros _ [|i] x Hi; [simplify_eq/=; congruence|].
      by apply (proj1 IH eq_refl i).
Qed.

(** A [for] loop over a list of indices, threading a state. *)
Fixpoint for_each {St Ix} (step : St → Ix → outcome St) (ixs : list Ix) (s : St)
    : outcome St :=
  match ixs with
  | [] => Done s
  | i :: ixs' => s' ← step s i; for_each step ixs' s'
  end.

Lemma for_each_app {St Ix} (step : St → Ix → outcome St) l1 l2 s :
  for_each step (l1 ++ l2) s = s' ← for_each step l1 s; for_each step l2 s'.
Proof.
  revert s; induction l1 as [|i l1 IH]; intros s; simpl; [done|].
  destruct (step s i); simpl; [apply IH|done|done].
Qed.

(** The loop rule: an invariant indexed by the number of completed iterations,
    re-established by every iteration without a panic. *)
Lemma for_each_seq_inv {St} (step : St → nat → outcome St) (Inv : nat → St → Prop) lo n s :
  Inv lo s →
  (∀ i s, lo ≤ i < lo + n → Inv i s → ∃ s', step s i = Done s' ∧ Inv (S i) s') →
  ∃ s', for_each step (seq lo n) s = Done s' ∧ Inv (lo + n) s'.
Proof.
  revert lo s; induction n as [|n IH]; intros lo s H0 Hstep; simpl.
  { exists s. split; [done|]. by replace (lo + 0) with lo by lia. }
  destruct (Hstep lo s) as (s1 & -> & H1); [lia|done|]. simpl.
  destruct (IH (S lo) s1) as (s' & Hs' & H'); [done| |].
  { intros i t Hi Ht. apply Hstep; [lia|done]. }
  exists s'. split; [done|]. by replace (lo + S n) with (S lo + n) by lia.
Qed.

(** ** Counting *)
Definition count {A} (p : A → bool) (l : list A) : nat := length (List.filter p l).

Lemma count_insert {A} (p : A → bool) (l : list A) i x y :
  l !! i = Some x →
  count p (<[i:=y]> l) + (if p x then 1 else 0) = count p l + (if p y then 1 else 0).
Proof.
  revert i; induction l as [|z l IH]; intros [|i] Hi; simplify_eq/=.
  - unfold count. simpl. destruct (p x), (p y); simpl; lia.
  - specialize (IH i Hi). unfold count in *. simpl. destruct (p z); simpl; lia.
Qed.

Lemma count_pos {A} (p : A → bool) (l : list A) i x :
  l !! i = Some x → p x = true → 0 < count p l.
Proof.
  revert i; induction l as [|z l IH]; intros [|i] Hi Hp; simplify_eq/=;
    unfold count in *; simpl.
  - rewrite Hp. simpl. lia.
  - specialize (IH i Hi Hp). destruct (p z); simpl; lia.
Qed.

Lemma count_le {A} (p : A → bool) (l : list A) : count p l ≤ length l.
Proof. unfold count. induction l as [|z l IH]; simpl; [lia|]. destruct (p z); simpl; lia. Qed.

(** Counts follow a pointwise implication, strictly when one element changes. *)
Lemma count_mono {A} (p q : A → bool) (l l' : list A) :
  length l' = length l →
  (∀ j y y', l !! j = Some y → l' !! j = Some y' → q y' = true → p y = true) →
  count q l' ≤ count p l.
Proof.
  revert l'; induction l as [|y l IH]; intros [|y' l'] Hlen H; simplify_eq/=; [done|].
  specialize (IH l' Hlen (fun j => H (S j))). specialize (H 0 y y' eq_refl eq_refl).
  unfold count in *. simpl. destruct (q y'), (p y); simpl; try lia; by specialize (H eq_refl).
Qed.

Lemma count_lt {A} (p q : A → bool) (l l' : list A) i x x' :
  length l' = length l →
  (∀ j y y', l !! j = Some y → l' !! j = Some y' → q y' = true → p y = true) →
  l !! i = Some x → l' !! i = Some x' → p x = true → q x' = false →
  count q l' < count p l.
Proof.
  revert l' i; induction l as [|y l IH]; intros [|y' l'] [|i] Hlen H Hx Hx' Hp Hq; simplify_eq/=.
  - pose proof (count_mono p q l l' Hlen (fun j => H (S j))).
    unfold count in *. simpl. rewrite Hp, Hq. simpl. lia.
  - specialize (IH l' i Hlen (fun j => H (S j)) Hx Hx' Hp Hq).
    specialize (H 0 y y' eq_refl eq_refl).
    unfold count in *. simpl. destruct (q y'), (p y); simpl; try lia; by specialize (H eq_refl).
Qed.

(** ** Automation *)
Create HintDb bhaskix.
#[export] Hint Resolve checked_ok at_index_ok trunc_small : bhaskix.

(** Runs the next step of a computation in [outcome] when its head is known. *)
Ltac run_step :=
  match goal with
  | |- context [mbind ?f (Done ?a)] => change (mbind f (Done a)) with (f a); cbv beta
  | H : ?l !! ?i = Some _ |- context [at_index ?l ?i] => rewrite (at_index_ok _ _ _ H)
  end.
Ltac run := repeat (run_step; simpl).

(** Splits every bind in a hypothesis that a computation is [Done]. *)
Ltac inv_done :=
  repeat match goal with
  | H : mbind _ ?m = Done _ |- _ =>
      let a := fresh "v" in let Ha := fresh "Hv" in
      apply outcome_bind_done in H as (a & Ha & H)
  | H : at_index _ _ = Done _ |- _ => apply at_index_done in H
  | H : checked _ _ = Done _ |- _ => apply checked_done in H as [-> ?]
  | H : add_checked _ _ _ = Done _ |- _ => unfold add_checked in H
  | H : sub_checked _ _ _ = Done _ |- _ => unfold sub_checked in H
  | H : mul_checked _ _ _ = Done _ |- _ => unfold mul_checked in H
  | H : Done _ = Done _ |- _ => injection H as H
  | H : Panic = Done _ |- _ => discriminate H
  | H : OutOfFuel = Done _ |- _ => discriminate H
  end; subst.
