(* ===== verification/Cap.v ===== *)
(** * Capabilities: the derivation arena and the capability space

    Models src/kernel/src/cap.rs.  [Arena] is the global derivation tree with
    the operations that create, resolve, derive and revoke capabilities;
    [CSpace] is one domain's table of references into it.  A node is named by
    its index and generation ([SlotRef]); a capability's authority is its
    rights mask, its badge and the object it names.

    The theorems are the four rules of the module: derivation is monotone at
    every depth, revocation is transitive, complete and touches nothing else,
    a stale reference stays dead, and a capability space only hands out what
    was installed in it. *)
From stdpp Require Import prelude numbers list.
From S2P Require Import Prelude.
Open Scope Z_scope.
Set Warnings "-clear-no-such-hyp".

Definition MAX_CAPABILITIES : nat := 4096.
Definition CSPACE_SLOTS : nat := 256.
Definition MAX_OWNERS : nat := 64.
Definition OWNER_KERNEL : Z := 2 ^ 32 - 1.

(** ** Rights: a subset of six bits of a [u8] *)
Module Rights.

Abbreviation t := Z.

Definition NONE : t := 0.
Definition READ : t := Z.shiftl 1 0.
Definition WRITE : t := Z.shiftl 1 1.
Definition EXECUTE : t := Z.shiftl 1 2.
Definition GRANT : t := Z.shiftl 1 3.
Definition REVOKE : t := Z.shiftl 1 4.
Definition DERIVE : t := Z.shiftl 1 5.
Definition ALL : t := 63.

Definition from_bits (bits : Z) : t := Z.land bits ALL.
Definition bits (self : t) : Z := self.
Definition contains (self other : t) : bool := Z.land self other =? other.
Definition intersection (self other : t) : t := Z.land self other.
Definition union (self other : t) : t := Z.lor self other.
Definition is_empty (self : t) : bool := self =? 0.

End Rights.

Inductive ObjectKind : Type :=
| Frame | Memory | AddressSpace | Thread | Domain | Endpoint | Reply
| Notification | IrqHandler | DmaWindow | Console | DomainControl.

Record ObjectRef : Type := MkObjectRef { kind : ObjectKind; id : Z }.

#[global] Instance ObjectKind_eq_dec : EqDecision ObjectKind.
Proof. solve_decision. Defined.
#[global] Instance ObjectRef_eq_dec : EqDecision ObjectRef.
Proof. solve_decision. Defined.

(** A [u16] index into the arena. *)
Definition NodeId : Type := Z.

Record SlotRef : Type := MkSlotRef { node : NodeId; slot_generation : Z }.

#[global] Instance SlotRef_eq_dec : EqDecision SlotRef.
Proof. solve_decision. Defined.

(** [core::panic::Location]: where a node was made, kept only for reports. *)
Record Location : Type := MkLocation { line : Z; column : Z }.

Record CapNode : Type := MkCapNode {
  object : ObjectRef;
  rights : Rights.t;
  badge : Z;
  parent : option NodeId;
  generation : Z;
  owner : Z;
  site : option Location;
  serial : Z;
  live : bool
}.

Record Survivor : Type := MkSurvivor {
  sv_index : nat;
  sv_object : ObjectRef;
  sv_owner : Z;
  sv_parent : option Z;
  sv_rights : Z;
  sv_site : option Location
}.

Inductive CapError : Type :=
| NotFound | RightsNotMonotone | DeriveNotPermitted | BadgeNotMonotone
| RevokeNotPermitted | GrantNotPermitted | Exhausted.

#[global] Instance CapError_eq_dec : EqDecision CapError.
Proof. solve_decision. Defined.

Record Arena : Type := MkArena {
  nodes : list CapNode;
  live_count : Z;
  tally : option (list Z);
  serials : Z
}.

Module Arena.

Definition empty_node : CapNode :=
  MkCapNode (MkObjectRef Frame 0) Rights.NONE 0 None 0 OWNER_KERNEL None 0 false.

Definition new : Arena := MkArena (replicate MAX_CAPABILITIES empty_node) 0 None 0.

Definition free_index (self : Arena) : option nat :=
  position (fun n => negb (live n)) (nodes self).

Definition insert_root_owned (self : Arena) (object : ObjectRef) (rights : Rights.t)
    (badge owner : Z) (caller : Location) : outcome (result SlotRef CapError * Arena) :=
  match free_index self with
  | None => Done (Err Exhausted, self)
  | Some index =>
      old ← at_index (nodes self) index;
      serials' ← add_checked 64 (serials self) 1;
      live' ← add_checked 64 (live_count self) 1;
      Done (Ok (MkSlotRef (trunc 16 (Z.of_nat index)) (generation old)),
            MkArena
              (<[index := MkCapNode object rights badge None (generation old) owner
                            (Some caller) serials' true]> (nodes self))
              live' (tally self) serials')
  end.

Definition insert_root (self : Arena) (object : ObjectRef) (rights : Rights.t) (badge : Z)
    (caller : Location) : outcome (result SlotRef CapError * Arena) :=
  insert_root_owned self object rights badge OWNER_KERNEL caller.

(** Resolves a slot to the index of a live node of the same generation. *)
Definition resolve (self : Arena) (slot : SlotRef) : option nat :=
  let index := Z.to_nat (node slot) in
  n ← nodes self !! index;
  if live n && (generation n =? slot_generation slot) then Some index else None.

Definition node_of (self : Arena) (slot : SlotRef) : option CapNode :=
  index ← resolve self slot; nodes self !! index.

Definition serial_of (self : Arena) (slot : SlotRef) : option Z :=
  serial <$> node_of self slot.

Definition is_live (self : Arena) (slot : SlotRef) : bool :=
  match resolve self slot with Some _ => true | None => false end.

Definition lookup (self : Arena) (slot : SlotRef) : option (ObjectRef * Rights.t) :=
  (fun n => (object n, rights n)) <$> node_of self slot.

Definition badge_of (self : Arena) (slot : SlotRef) : option Z :=
  badge <$> node_of self slot.

Definition owner_of (self : Arena) (slot : SlotRef) : option Z :=
  owner <$> node_of self slot.

Definition derive_owned (self : Arena) (parent_slot : SlotRef) (rights' : Rights.t)
    (badge' owner' : Z) (caller : Location) : outcome (result SlotRef CapError * Arena) :=
  match resolve self parent_slot with
  | None => Done (Err NotFound, self)
  | Some index =>
      parent_node ← at_index (nodes self) index;
      if negb (Rights.contains (rights parent_node) Rights.DERIVE)
      then Done (Err DeriveNotPermitted, self)
      else if negb (Rights.contains (rights parent_node) rights')
      then Done (Err RightsNotMonotone, self)
      else if negb (badge parent_node =? 0) && negb (badge' =? badge parent_node)
      then Done (Err BadgeNotMonotone, self)
      else
        match free_index self with
        | None => Done (Err Exhausted, self)
        | Some free =>
            old ← at_index (nodes self) free;
            serials' ← add_checked 64 (serials self) 1;
            live' ← add_checked 64 (live_count self) 1;
            Done (Ok (MkSlotRef (trunc 16 (Z.of_nat free)) (generation old)),
                  MkArena
                    (<[free := MkCapNode (object parent_node) rights' badge'
                                 (Some (node parent_slot)) (generation old) owner'
                                 (Some caller) serials' true]> (nodes self))
                    live' (tally self) serials')
        end
  end.

Definition derive (self : Arena) (parent_slot : SlotRef) (rights' : Rights.t) (badge' : Z)
    (caller : Location) : outcome (result SlotRef CapError * Arena) :=
  derive_owned self parent_slot rights' badge' OWNER_KERNEL caller.

(** A node after [kill]: dead, and already of the next generation. *)
Definition killed_node (n : CapNode) : CapNode :=
  MkCapNode (object n) (rights n) (badge n) (parent n)
    (wrapping_add 32 (generation n) 1) (owner n) (site n) (serial n) false.

Definition tally_owner (t : list Z) (o : Z) : list Z :=
  let owner := Z.to_nat o in
  if decide (owner < MAX_OWNERS)%nat
  then alter (fun k => saturating_add 32 k 1) owner t
  else t.

Definition kill (self : Arena) (index : nat) : outcome Arena :=
  n ← at_index (nodes self) index;
  if negb (live n) then Done self
  else
    live' ← sub_checked 64 (live_count self) 1;
    Done (MkArena (<[index := killed_node n]> (nodes self)) live'
            ((fun t => tally_owner t (owner n)) <$> tally self) (serials self)).

(** One iteration of the sweep: kill a live node whose parent is dead. *)
Definition sweep_step (st : Arena * Z) (index : nat) : outcome (Arena * Z) :=
  let '(self, killed_this_pass) := st in
  n ← at_index (nodes self) index;
  if negb (live n) then Done (self, killed_this_pass)
  else
    match parent n with
    | None => Done (self, killed_this_pass)
    | Some p =>
        pn ← at_index (nodes self) (Z.to_nat p);
        if negb (live pn) then
          self' ← kill self index;
          Done (self', killed_this_pass + 1)
        else Done (self, killed_this_pass)
    end.

Definition sweep (self : Arena) : outcome (Arena * Z) :=
  for_each sweep_step (seq 0 MAX_CAPABILITIES) (self, 0).

(** The [loop] of [destroy_subtree]: sweep until a pass kills nothing. *)
Fixpoint sweep_loop (fuel : nat) (self : Arena) (destroyed : Z) : outcome (Z * Arena) :=
  match fuel with
  | O => OutOfFuel
  | S fuel' =>
      '(self', killed_this_pass) ← sweep self;
      if killed_this_pass =? 0 then Done (destroyed + killed_this_pass, self')
      else sweep_loop fuel' self' (destroyed + killed_this_pass)
  end.

Definition destroy_subtree (self : Arena) (root : nat) : outcome (Z * Arena) :=
  self' ← kill self root;
  sweep_loop (S MAX_CAPABILITIES) self' 1.

Definition revoke (self : Arena) (slot : SlotRef) : outcome (result Z CapError * Arena) :=
  match resolve self slot with
  | None => Done (Err NotFound, self)
  | Some index =>
      n ← at_index (nodes self) index;
      if negb (Rights.contains (rights n) Rights.REVOKE)
      then Done (Err RevokeNotPermitted, self)
      else
        '(destroyed, self') ← destroy_subtree self index;
        Done (Ok destroyed, self')
  end.

Definition revoke_unchecked (self : Arena) (slot : SlotRef) : outcome (Z * Arena) :=
  match resolve self slot with
  | Some index => destroy_subtree self index
  | None => Done (0, self)
  end.

Definition set_tally (self : Arena) (t : option (list Z)) : Arena :=
  MkArena (nodes self) (live_count self) t (serials self).

Definition revoke_tallied (self : Arena) (slot : SlotRef) (t : list Z)
    : outcome (result Z CapError * list Z * Arena) :=
  match resolve self slot with
  | None => Done (Err NotFound, t, self)
  | Some index =>
      n ← at_index (nodes self) index;
      if negb (Rights.contains (rights n) Rights.REVOKE)
      then Done (Err RevokeNotPermitted, t, self)
      else
        '(destroyed, self') ← destroy_subtree (set_tally self (Some t)) index;
        Done (Ok destroyed, default t (tally self'), set_tally self' None)
  end.

Definition naming_step (object' : ObjectRef) (st : Arena * Z) (index : nat)
    : outcome (Arena * Z) :=
  let '(self, destroyed) := st in
  n ← at_index (nodes self) index;
  if live n && bool_decide (parent n = None) && bool_decide (object n = object')
  then '(k, self') ← destroy_subtree self index; Done (self', destroyed + k)
  else Done (self, destroyed).

Definition revoke_roots_naming (self : Arena) (object' : ObjectRef) (t : list Z)
    : outcome (Z * list Z * Arena) :=
  '(self', destroyed) ←
    for_each (naming_step object') (seq 0 MAX_CAPABILITIES) (set_tally self (Some t), 0);
  Done (destroyed, default t (tally self'), set_tally self' None).

Definition survivors (self : Arena) : list Survivor :=
  omap (fun '(index, n) =>
          if live n
          then Some (MkSurvivor index (object n) (owner n) (parent n)
                       (Rights.bits (rights n)) (site n))
          else None)
       (imap pair (nodes self)).

(** [live_with_survivors::<N>]: the count and the first [N] live nodes. *)
Definition live_with_survivors (self : Arena) (N : nat) : Z * list (option Survivor) :=
  let listed := take N (survivors self) in
  (live_count self, (Some <$> listed) ++ replicate (N - length listed) None).

End Arena.

Module CSpace.

Abbreviation t := (list (option SlotRef)).

Definition new : t := replicate CSPACE_SLOTS None.

Definition install (self : t) (slot : SlotRef) : result nat CapError * t :=
  match position (fun s => bool_decide (s = None)) self with
  | None => (Err Exhausted, self)
  | Some index => (Ok index, <[index := Some slot]> self)
  end.

Definition install_at (self : t) (index : nat) (slot : SlotRef)
    : outcome (result unit CapError * t) :=
  if decide (CSPACE_SLOTS ≤ index)%nat then Done (Err Exhausted, self)
  else
    s ← at_index self index;
    match s with
    | Some _ => Done (Err Exhausted, self)
    | None => Done (Ok tt, <[index := Some slot]> self)
    end.

Definition first_free_at_or_above (self : t) (floor : nat) : option nat :=
  Nat.add floor <$> position (fun s => bool_decide (s = None)) (drop floor self).

Definition get (self : t) (index : nat) : option SlotRef := self !! index ≫= fun s => s.

Definition names (self : t) (object' : ObjectRef) (arena : Arena) : bool :=
  existsb (fun s =>
             match s with
             | Some slot =>
                 match Arena.lookup arena slot with
                 | Some (named, _) => bool_decide (named = object')
                 | None => false
                 end
             | None => false
             end) self.

Definition remove (self : t) (index : nat) : option SlotRef * t :=
  match self !! index with
  | None => (None, self)
  | Some s => (s, <[index := None]> self)
  end.

Definition occupied (self : t) : nat := count (fun s => bool_decide (s ≠ None)) self.

End CSpace.

(** The table sizes are used through their values only. *)
Lemma max_capabilities_value : Z.of_nat MAX_CAPABILITIES = 4096.
Proof. reflexivity. Qed.
Lemma max_owners_value : Z.of_nat MAX_OWNERS = 64.
Proof. reflexivity. Qed.
#[local] Opaque MAX_CAPABILITIES MAX_OWNERS CSPACE_SLOTS.

(** ** Specification vocabulary *)

(** [i] is a live node in the subtree of the live node [r]. *)
Inductive descends (ns : list CapNode) (r : nat) : nat → Prop :=
| descends_self n :
    ns !! r = Some n → live n = true → descends ns r r
| descends_child i n p :
    ns !! i = Some n → live n = true → parent n = Some p →
    descends ns r (Z.to_nat p) → descends ns r i.

(** What a live node owes its parent: everything derivation may not widen. *)
Record narrows (pn n : CapNode) : Prop := {
  narrows_live : live pn = true;
  narrows_serial : serial pn < serial n;
  narrows_object : object n = object pn;
  narrows_rights : Rights.contains (rights pn) (rights n) = true;
  narrows_derive : Rights.contains (rights pn) Rights.DERIVE = true;
  narrows_badge : badge pn ≠ 0 → badge n = badge pn
}.

(** Every live node with a parent has a live one, and narrows it. *)
Definition closed (ns : list CapNode) : Prop :=
  ∀ i n p, ns !! i = Some n → live n = true → parent n = Some p →
    ∃ pn, ns !! Z.to_nat p = Some pn ∧ narrows pn n.

(** The arena invariant. *)
Record wf (a : Arena) : Prop := {
  wf_len : length (nodes a) = MAX_CAPABILITIES;
  wf_live : live_count a = Z.of_nat (count live (nodes a));
  wf_serials : in_width 64 (serials a);
  wf_generation i n : nodes a !! i = Some n → in_width 32 (generation n);
  wf_serial i n : nodes a !! i = Some n → live n = true → 0 < serial n ≤ serials a;
  wf_serial_inj i j n m :
    nodes a !! i = Some n → nodes a !! j = Some m → live n = true → live m = true →
    serial n = serial m → i = j;
  wf_closed : closed (nodes a);
  wf_tally t : tally a = Some t → length t = MAX_OWNERS ∧ Forall (in_width 32) t
}.

(** Live nodes charged to owner [o]. *)
Definition owned_live (o : nat) (ns : list CapNode) : nat :=
  count (fun n => live n && (Z.to_nat (owner n) =? o)%nat) ns.

(** The tally [t'] credits each owner with its nodes that died between two
    node tables, saturating at the width of a counter. *)
Definition credits (ns ns' : list CapNode) (t t' : list Z) : Prop :=
  length t' = length t ∧
  ∀ o k, (o < MAX_OWNERS)%nat → t !! o = Some k →
    t' !! o = Some (Z.min (k + Z.of_nat (owned_live o ns - owned_live o ns')) (2 ^ 32 - 1)).

(** [a] is [a0] with some nodes of the subtree of [r] killed. *)
Record between (a0 : Arena) (r : nat) (a : Arena) : Prop := {
  bt_len : length (nodes a) = length (nodes a0);
  bt_live : live_count a = Z.of_nat (count live (nodes a));
  bt_serials : serials a = serials a0;
  bt_nodes i n : nodes a0 !! i = Some n →
    nodes a !! i = Some n ∨
    nodes a !! i = Some (Arena.killed_node n) ∧ descends (nodes a0) r i;
  bt_mono o : (owned_live o (nodes a) ≤ owned_live o (nodes a0))%nat;
  bt_tally t0 : tally a0 = Some t0 →
    ∃ t, tally a = Some t ∧ credits (nodes a0) (nodes a) t0 t;
  bt_tally_none : tally a0 = None → tally a = None
}.

Lemma descends_live ns r i :
  descends ns r i → ∃ n, ns !! i = Some n ∧ live n = true.
Proof. destruct 1; eauto. Qed.

Lemma killed_node_dead n : live (Arena.killed_node n) = false.
Proof. done. Qed.
#[export] Hint Resolve killed_node_dead : bhaskix.

(** Under a closed table the subtree of [r] contains the whole derivation path
    below [r]; a dead root with nothing orphaned below it leaves it empty. *)
Lemma descends_dead ns0 ns r :
  (∀ i n, ns0 !! i = Some n → ns !! i = Some n ∨ ns !! i = Some (Arena.killed_node n)) →
  closed ns →
  (∀ n, ns0 !! r = Some n → ns !! r = Some (Arena.killed_node n)) →
  ∀ i, descends ns0 r i → ∀ n, ns0 !! i = Some n → ns !! i = Some (Arena.killed_node n).
Proof.
  intros Hsame Hcl Hr i Hi. induction Hi as [m Hm Hl|i m p Hm Hl Hp Hd IH]; intros n Hn.
  - eauto.
  - assert (m = n) as -> by congruence. destruct (Hsame i n Hn) as [Hi|Hi]; [|done]. exfalso.
    destruct (Hcl i n p Hi Hl Hp) as (pn & Hpn & Hnar).
    destruct (descends_live _ _ _ Hd) as (q & Hq & _).
    rewrite (IH q Hq) in Hpn. simplify_eq. by destruct Hnar.
Qed.

Lemma between_refl a r : wf a → between a r a.
Proof.
  intros Hwf. split; try done; eauto using wf_live.
  - intros t0 Ht. exists t0. split; [done|]. split; [done|].
    intros o k Ho Hk. destruct (wf_tally _ Hwf t0 Ht) as [_ Hb].
    rewrite Forall_lookup in Hb. specialize (Hb o k Hk). unfold in_width in Hb.
    rewrite Hk. f_equal. lia.
Qed.

Lemma owned_live_kill o ns i n :
  ns !! i = Some n → live n = true →
  (owned_live o (<[i := Arena.killed_node n]> ns) + (if (Z.to_nat (owner n) =? o)%nat then 1 else 0)
   = owned_live o ns)%nat.
Proof.
  intros Hn Hl. unfold owned_live.
  pose proof (count_insert (fun n => live n && (Z.to_nat (owner n) =? o)%nat) ns i n
                (Arena.killed_node n) Hn) as H.
  simpl in H. rewrite Hl in H. simpl in H. lia.
Qed.

Lemma credits_kill ns0 ns t0 t i n :
  (∀ o, (owned_live o ns ≤ owned_live o ns0)%nat) →
  ns !! i = Some n → live n = true → credits ns0 ns t0 t →
  credits ns0 (<[i := Arena.killed_node n]> ns) t0 (Arena.tally_owner t (owner n)).
Proof.
  intros Hmono Hn Hl [Hlen Hc]. unfold Arena.tally_owner, credits.
  split. { case_decide; [by rewrite length_alter|done]. }
  intros o k Ho Hk. specialize (Hc o k Ho Hk).
  pose proof (owned_live_kill o ns i n Hn Hl) as Hkill. specialize (Hmono o).
  destruct (Nat.eqb_spec (Z.to_nat (owner n)) o) as [He|He].
  - rewrite decide_True by lia. rewrite He, list_lookup_alter_eq, Hc. simpl.
    unfold saturating_add. f_equal. lia.
  - case_decide; [rewrite list_lookup_alter_ne by done|]; rewrite Hc; f_equal; lia.
Qed.

Lemma between_kill a0 r a i n :
  wf a0 → between a0 r a → nodes a !! i = Some n → live n = true →
  descends (nodes a0) r i →
  ∃ a', Arena.kill a i = Done a' ∧ between a0 r a' ∧
        nodes a' = <[i := Arena.killed_node n]> (nodes a) ∧
        live_count a' = live_count a - 1.
Proof.
  intros Hwf Hb Hn Hl Hd. unfold Arena.kill.
  rewrite (at_index_ok _ _ _ Hn). simpl. rewrite Hl. simpl.
  pose proof (count_pos live _ _ _ Hn Hl) as Hpos.
  pose proof (count_le live (nodes a)) as Hle.
  rewrite (bt_len _ _ _ Hb), (wf_len _ Hwf) in Hle.
  pose proof (bt_live _ _ _ Hb) as Hlive.
  unfold sub_checked. rewrite checked_ok by (pose proof max_capabilities_value; unfold in_width; lia).
  simpl. eexists. split; [done|]. split; [|done].
  pose proof (count_insert live _ i n (Arena.killed_node n) Hn) as Hci.
  rewrite Hl in Hci. simpl in Hci.
  split; simpl.
  - rewrite length_insert. apply (bt_len _ _ _ Hb).
  - lia.
  - apply (bt_serials _ _ _ Hb).
  - intros j m Hm. destruct (decide (i = j)) as [<-|Hne].
    + right. rewrite list_lookup_insert_eq by (by eapply lookup_lt_Some).
      destruct (bt_nodes _ _ _ Hb i m Hm) as [Hi|[Hi _]]; simplify_eq; done.
    + rewrite list_lookup_insert_ne by done. apply (bt_nodes _ _ _ Hb j m Hm).
  - intros o. pose proof (owned_live_kill o _ i n Hn Hl).
    pose proof (bt_mono _ _ _ Hb o). lia.
  - intros t0 Ht0. destruct (bt_tally _ _ _ Hb t0 Ht0) as (t & -> & Hc).
    eexists. split; [done|]. apply credits_kill; eauto using bt_mono.
  - intros Ht0. by rewrite (bt_tally_none _ _ _ Hb Ht0).
Qed.

(** A live orphan in [a] is a node of the subtree of [r]. *)
Lemma between_orphan a0 r a i n p pn :
  wf a0 → between a0 r a → nodes a !! i = Some n → live n = true → parent n = Some p →
  nodes a !! Z.to_nat p = Some pn → live pn = false → descends (nodes a0) r i.
Proof.
  intros Hwf Hb Hn Hl Hp Hpn Hd.
  destruct (lookup_lt_is_Some_2 (nodes a0) i) as [n0 Hn0].
  { rewrite <- (bt_len _ _ _ Hb). by eapply lookup_lt_Some. }
  destruct (bt_nodes _ _ _ Hb i n0 Hn0) as [Hi|[Hi ?]]; [|done]. simplify_eq.
  destruct (wf_closed _ Hwf i n p Hn0 Hl Hp) as (pn0 & Hpn0 & Hnar).
  destruct (bt_nodes _ _ _ Hb _ pn0 Hpn0) as [Hq|[Hq Hdq]].
  - simplify_eq. destruct Hnar. congruence.
  - by eapply descends_child.
Qed.

Definition orphan_free (ns : list CapNode) (j : nat) : Prop :=
  ∀ n p pn, ns !! j = Some n → live n = true → parent n = Some p →
    ns !! Z.to_nat p = Some pn → live pn = true.

Lemma between_parent_in_range a0 r a i n p :
  wf a0 → between a0 r a → nodes a !! i = Some n → live n = true → parent n = Some p →
  ∃ pn, nodes a !! Z.to_nat p = Some pn.
Proof.
  intros Hwf Hb Hn Hl Hp.
  destruct (lookup_lt_is_Some_2 (nodes a0) i) as [n0 Hn0].
  { rewrite <- (bt_len _ _ _ Hb). by eapply lookup_lt_Some. }
  destruct (bt_nodes _ _ _ Hb i n0 Hn0) as [Hi|[Hi ?]]; simplify_eq.
  destruct (wf_closed _ Hwf i n p Hn0 Hl Hp) as (pn & Hpn & _).
  apply lookup_lt_is_Some_2.
  rewrite (bt_len _ _ _ Hb). by eapply lookup_lt_Some.
Qed.

(** The state of a sweep after [k] indices. *)
Record sweeping (a0 : Arena) (r : nat) (start : Arena) (k : nat) (st : Arena * Z) : Prop := {
  sw_between : between a0 r st.1;
  sw_root n : nodes a0 !! r = Some n → nodes st.1 !! r = Some (Arena.killed_node n);
  sw_killed : st.2 = live_count start - live_count st.1;
  sw_nonneg : 0 ≤ st.2;
  sw_none : st.2 = 0 → st.1 = start ∧ ∀ j, (j < k)%nat → orphan_free (nodes start) j
}.

Lemma sweep_step_spec a0 r start k st :
  wf a0 → (k < MAX_CAPABILITIES)%nat → sweeping a0 r start k st →
  ∃ st', Arena.sweep_step st k = Done st' ∧ sweeping a0 r start (S k) st'.
Proof.
  intros Hwf Hk [Hb Hr Hkill H0 Hnone]. destruct st as [a d]; simpl in *.
  destruct (lookup_lt_is_Some_2 (nodes a) k) as [n Hn].
  { by rewrite (bt_len _ _ _ Hb), (wf_len _ Hwf). }
  rewrite (at_index_ok _ _ _ Hn). simpl.
  (** nothing is killed at [k]: the pass so far is unchanged *)
  assert (Hsame : orphan_free (nodes a) k → sweeping a0 r start (S k) (a, d)).
  { intros Hof. split; try done. simpl. intros Hd0. destruct (Hnone Hd0) as [-> Hj].
    split; [done|]. intros j Hj'. destruct (decide (j = k)) as [->|]; [done|].
    apply Hj. lia. }
  destruct (live n) eqn:Hl; simpl; [|].
  2: { eexists; split; [done|]. apply Hsame. red; intros; congruence. }
  destruct (parent n) as [p|] eqn:Hp.
  2: { eexists; split; [done|]. apply Hsame. red; intros; congruence. }
  destruct (between_parent_in_range _ _ _ _ _ _ Hwf Hb Hn Hl Hp) as (pn & Hpn).
  rewrite (at_index_ok _ _ _ Hpn). simpl.
  destruct (live pn) eqn:Hlp; simpl.
  { eexists; split; [done|]. apply Hsame. red; intros; congruence. }
  destruct (between_kill _ _ _ _ _ Hwf Hb Hn Hl (between_orphan _ _ _ _ _ _ _ Hwf Hb Hn Hl Hp Hpn Hlp))
    as (a' & -> & Hb' & Hns & Hlc).
  simpl. eexists; split; [done|]. split; simpl; [done| | |lia|lia].
  - intros n0 Hn0. rewrite Hns. destruct (decide (k = r)) as [->|Hne].
    + rewrite (Hr n0 Hn0) in Hn. simplify_eq.
    + rewrite list_lookup_insert_ne by done. eauto.
  - lia.
Qed.

Lemma sweep_spec a0 r a :
  wf a0 → between a0 r a →
  (∀ n, nodes a0 !! r = Some n → nodes a !! r = Some (Arena.killed_node n)) →
  ∃ a' d, Arena.sweep a = Done (a', d) ∧ sweeping a0 r a MAX_CAPABILITIES (a', d).
Proof.
  intros Hwf Hb Hr. unfold Arena.sweep.
  destruct (for_each_seq_inv Arena.sweep_step (sweeping a0 r a) 0 MAX_CAPABILITIES (a, 0))
    as ([a' d] & He & Hs).
  - split; simpl; try done; [lia|]. intros _. split; [done|]. lia.
  - intros i s [_ Hi] Hs. by apply sweep_step_spec.
  - eauto.
Qed.

(** A pass that kills nothing leaves a closed table. *)
Lemma between_closed a0 r a :
  wf a0 → between a0 r a → (∀ j, (j < MAX_CAPABILITIES)%nat → orphan_free (nodes a) j) →
  closed (nodes a).
Proof.
  intros Hwf Hb Hof i n p Hn Hl Hp.
  destruct (between_parent_in_range _ _ _ _ _ _ Hwf Hb Hn Hl Hp) as (pn & Hpn).
  exists pn. split; [done|].
  assert (Hlp : live pn = true).
  { eapply (Hof i); eauto. rewrite <- (wf_len _ Hwf), <- (bt_len _ _ _ Hb).
    by eapply lookup_lt_Some. }
  destruct (lookup_lt_is_Some_2 (nodes a0) i) as [n0 Hn0].
  { rewrite <- (bt_len _ _ _ Hb). by eapply lookup_lt_Some. }
  destruct (bt_nodes _ _ _ Hb i n0 Hn0) as [Hi|[Hi ?]]; simplify_eq.
  destruct (wf_closed _ Hwf i n p Hn0 Hl Hp) as (pn0 & Hpn0 & Hnar).
  destruct (bt_nodes _ _ _ Hb _ pn0 Hpn0) as [Hq|[Hq ?]]; by simplify_eq.
Qed.

Lemma sweep_loop_spec a0 r fuel a d :
  wf a0 → between a0 r a →
  (∀ n, nodes a0 !! r = Some n → nodes a !! r = Some (Arena.killed_node n)) →
  live_count a < Z.of_nat fuel →
  ∃ a', Arena.sweep_loop fuel a d = Done (d + (live_count a - live_count a'), a') ∧
        between a0 r a' ∧ closed (nodes a') ∧
        (∀ n, nodes a0 !! r = Some n → nodes a' !! r = Some (Arena.killed_node n)).
Proof.
  intros Hwf. revert a d; induction fuel as [|fuel IH]; intros a d Hb Hr Hlt.
  { pose proof (bt_live _ _ _ Hb). lia. }
  destruct (sweep_spec _ _ _ Hwf Hb Hr) as (a1 & k & He & [Hb1 Hr1 Hk H0 Hnone]).
  simpl in *. rewrite He. simpl.
  destruct (Z.eqb_spec k 0) as [->|Hne].
  - destruct (Hnone eq_refl) as [-> Hof]. exists a. split; [do 2 f_equal; lia|].
    eauto using between_closed.
  - destruct (IH a1 (d + k)) as (a' & He' & Hb' & Hc' & Hr'); [done|done|lia|].
    exists a'. rewrite He'. split; [do 2 f_equal; lia|]. done.
Qed.

(** [destroy_subtree] neither panics nor loops, and kills exactly the subtree. *)
Lemma destroy_subtree_spec a r n :
  wf a → nodes a !! r = Some n → live n = true →
  ∃ a', Arena.destroy_subtree a r = Done (live_count a - live_count a', a') ∧
        between a r a' ∧ closed (nodes a') ∧
        (∀ i m, nodes a !! i = Some m → descends (nodes a) r i →
                nodes a' !! i = Some (Arena.killed_node m)).
Proof.
  intros Hwf Hn Hl. unfold Arena.destroy_subtree.
  assert (Hd : descends (nodes a) r r) by by econstructor.
  destruct (between_kill a r a r n Hwf (between_refl _ _ Hwf) Hn Hl Hd)
    as (a1 & -> & Hb1 & Hns1 & Hlc1). simpl mbind.
  destruct (sweep_loop_spec a r (S MAX_CAPABILITIES) a1 1 Hwf Hb1)
    as (a' & He & Hb' & Hc' & Hr').
  - intros m Hm. rewrite Hns1, list_lookup_insert_eq by (by eapply lookup_lt_Some). congruence.
  - rewrite (bt_live _ _ _ Hb1). pose proof (count_le live (nodes a1)) as Hle.
    rewrite (bt_len _ _ _ Hb1), (wf_len _ Hwf) in Hle. lia.
  - exists a'. split; [|split; [done|split; [done|]]].
    { etrans; [apply He|]. do 2 f_equal. lia. }
    intros i m Hm Hdi. apply (descends_dead (nodes a) (nodes a') r); [|done..].
    intros j q Hq. destruct (bt_nodes _ _ _ Hb' j q Hq) as [?|[? _]]; auto.
Qed.

(** ** The invariant under the operations *)

Lemma between_live_same a r a' i n :
  between a r a' → nodes a' !! i = Some n → live n = true → nodes a !! i = Some n.
Proof.
  intros Hb Hn Hl. destruct (lookup_lt_is_Some_2 (nodes a) i) as [m Hm].
  { rewrite <- (bt_len _ _ _ Hb). by eapply lookup_lt_Some. }
  destruct (bt_nodes _ _ _ Hb i m Hm) as [?|[? _]]; simplify_eq. done.
Qed.

Lemma credits_widths ns ns' t t' :
  length t = MAX_OWNERS → Forall (in_width 32) t → credits ns ns' t t' →
  length t' = MAX_OWNERS ∧ Forall (in_width 32) t'.
Proof.
  intros Hlen Hw [Hl Hc]. split; [congruence|]. rewrite Forall_lookup in Hw |- *.
  intros o x Hx. assert (Ho : (o < MAX_OWNERS)%nat).
  { rewrite <- Hlen, <- Hl. by eapply lookup_lt_Some. }
  destruct (lookup_lt_is_Some_2 t o) as [k Hk]; [lia|].
  specialize (Hw o k Hk). specialize (Hc o k Ho Hk). simplify_eq.
  unfold in_width in *. lia.
Qed.

Lemma between_wf a r a' : wf a → between a r a' → closed (nodes a') → wf a'.
Proof.
  intros Hwf Hb Hc. split; [| | | | | |done|].
  - by rewrite (bt_len _ _ _ Hb), (wf_len _ Hwf).
  - apply (bt_live _ _ _ Hb).
  - rewrite (bt_serials _ _ _ Hb). apply (wf_serials _ Hwf).
  - intros i n Hn. destruct (lookup_lt_is_Some_2 (nodes a) i) as [m Hm].
    { rewrite <- (bt_len _ _ _ Hb). by eapply lookup_lt_Some. }
    destruct (bt_nodes _ _ _ Hb i m Hm) as [?|[? _]]; simplify_eq.
    + eauto using wf_generation.
    + simpl. apply trunc_range. lia.
  - intros i n Hn Hl. rewrite (bt_serials _ _ _ Hb).
    eauto using wf_serial, between_live_same.
  - intros i j n m Hn Hm Hln Hlm. eapply (wf_serial_inj a Hwf); eauto using between_live_same.
  - intros t Ht. destruct (tally a) as [t0|] eqn:Ht0.
    + destruct (bt_tally _ _ _ Hb t0 Ht0) as (t' & Ht' & Hcr). simplify_eq.
      destruct (wf_tally _ Hwf t0 Ht0). eauto using credits_widths.
    + rewrite (bt_tally_none _ _ _ Hb Ht0) in Ht. done.
Qed.

Lemma wf_set_tally a t :
  wf a → length t = MAX_OWNERS → Forall (in_width 32) t → wf (Arena.set_tally a (Some t)).
Proof. intros [] ??. split; try done. simpl. intros ? [= <-]. done. Qed.

Lemma wf_clear_tally a : wf a → wf (Arena.set_tally a None).
Proof. intros []. by split. Qed.

Lemma free_index_spec a i :
  Arena.free_index a = Some i → ∃ n, nodes a !! i = Some n ∧ live n = false.
Proof.
  intros [(n & Hn & Hl) _]%position_some. exists n. split; [done|]. by destruct (live n).
Qed.

(** Filling a free entry with a fresh node that narrows its parent. *)
Lemma wf_add a i old n' :
  wf a → nodes a !! i = Some old → live old = false →
  live n' = true → generation n' = generation old → serial n' = serials a + 1 →
  in_width 64 (serials a + 1) →
  (∀ p, parent n' = Some p → ∃ pn, nodes a !! Z.to_nat p = Some pn ∧ narrows pn n') →
  wf (MkArena (<[i:=n']> (nodes a)) (live_count a + 1) (tally a) (serials a + 1)).
Proof.
  intros Hwf Hold Hdead Hl Hg Hs Hw Hpar.
  assert (Hi : (i < length (nodes a))%nat) by by eapply lookup_lt_Some.
  pose proof (count_insert live _ i old n' Hold) as Hc. rewrite Hdead, Hl in Hc.
  assert (Hlk : ∀ j m, <[i:=n']> (nodes a) !! j = Some m →
                j = i ∧ m = n' ∨ j ≠ i ∧ nodes a !! j = Some m).
  { intros j m. rewrite list_lookup_insert. case_decide; intros; simplify_eq; naive_solver. }
  split; simpl.
  - rewrite length_insert. apply (wf_len _ Hwf).
  - rewrite (wf_live _ Hwf). lia.
  - done.
  - intros j m [[-> ->]|[_ ?]]%Hlk; [rewrite Hg|]; eauto using wf_generation.
  - intros j m [[-> ->]|[_ Hm]]%Hlk Hlm; [destruct Hw, (wf_serials _ Hwf); lia|].
    pose proof (wf_serial _ Hwf j m Hm Hlm). lia.
  - intros j k m q [[-> ->]|[Hj Hm]]%Hlk [[-> ->]|[Hk Hq]]%Hlk Hlm Hlq Heq; try done.
    + pose proof (wf_serial _ Hwf k q Hq Hlq). lia.
    + pose proof (wf_serial _ Hwf j m Hm Hlm). lia.
    + eapply (wf_serial_inj a Hwf); eauto.
  - intros j m p [[-> ->]|[Hj Hm]]%Hlk Hlm Hp.
    + destruct (Hpar p Hp) as (pn & Hpn & Hnar). exists pn.
      split; [|done]. rewrite list_lookup_insert_ne; [done|]. intros ->.
      destruct Hnar. congruence.
    + destruct (wf_closed _ Hwf j m p Hm Hlm Hp) as (pn & Hpn & Hnar).
      exists pn. split; [|done]. rewrite list_lookup_insert_ne; [done|].
      intros ->. destruct Hnar. congruence.
  - eauto using wf_tally.
Qed.

Lemma resolve_some a s i :
  Arena.resolve a s = Some i ↔
  i = Z.to_nat (node s) ∧
  ∃ n, nodes a !! i = Some n ∧ live n = true ∧ generation n = slot_generation s.
Proof.
  unfold Arena.resolve. destruct (nodes a !! Z.to_nat (node s)) as [n|] eqn:Hn; simpl.
  - destruct (live n) eqn:Hl, (Z.eqb_spec (generation n) (slot_generation s)); simpl;
      split; naive_solver congruence.
  - split; [done|]. intros (-> & ? & ? & _). congruence.
Qed.

Lemma node_of_some a s n :
  Arena.node_of a s = Some n ↔
  nodes a !! Z.to_nat (node s) = Some n ∧ live n = true ∧ generation n = slot_generation s.
Proof.
  unfold Arena.node_of. destruct (Arena.resolve a s) as [i|] eqn:Hr; simpl.
  - apply resolve_some in Hr as (-> & m & Hm & Hl & Hg). rewrite Hm. split; naive_solver.
  - split; [done|]. intros (Hn & Hl & Hg).
    enough (Arena.resolve a s = Some (Z.to_nat (node s))) by congruence.
    apply resolve_some. eauto.
Qed.

Lemma live_count_bound a : wf a → 0 ≤ live_count a ≤ 4096.
Proof.
  intros Hwf. pose proof (count_le live (nodes a)). pose proof max_capabilities_value.
  rewrite (wf_live _ Hwf). rewrite (wf_len _ Hwf) in *. lia.
Qed.

Lemma live_count_add a : wf a → add_checked 64 (live_count a) 1 = Done (live_count a + 1).
Proof.
  intros Hwf. apply live_count_bound in Hwf. unfold add_checked.
  apply checked_ok. unfold in_width. lia.
Qed.

Lemma trunc_index a i n : wf a → nodes a !! i = Some n → trunc 16 (Z.of_nat i) = Z.of_nat i.
Proof.
  intros Hwf Hn%lookup_lt_Some. rewrite (wf_len _ Hwf) in Hn.
  apply trunc_small. pose proof max_capabilities_value. unfold in_width. lia.
Qed.

(** [a'] is [a] with the free entry named by [s] filled with the node [n]. *)
Record filled (a : Arena) (s : SlotRef) (n : CapNode) (a' : Arena) : Prop := {
  fl_old : ∃ old, nodes a !! Z.to_nat (node s) = Some old ∧ live old = false ∧
                  generation old = slot_generation s;
  fl_node : 0 ≤ node s;
  fl_nodes : nodes a' = <[Z.to_nat (node s) := n]> (nodes a);
  fl_live : live n = true;
  fl_generation : generation n = slot_generation s;
  fl_serial : serial n = serials a + 1 ∧ serials a' = serials a + 1;
  fl_tally : tally a' = tally a
}.

Lemma insert_root_owned_inv a o r b w c res a' :
  wf a → Arena.insert_root_owned a o r b w c = Done (res, a') →
  match res with
  | Ok s => ∃ n, filled a s n a' ∧ wf a' ∧ object n = o ∧ rights n = r ∧ badge n = b ∧
                 owner n = w ∧ parent n = None
  | Err e => e = Exhausted ∧ a' = a ∧ ∀ i n, nodes a !! i = Some n → live n = true
  end.
Proof.
  intros Hwf. unfold Arena.insert_root_owned.
  destruct (Arena.free_index a) as [i|] eqn:Hf.
  2: { intros [= <- <-]. split_and!; try done. intros i n Hn.
       apply position_none with (i := i) (x := n) in Hf; [|done]. by destruct (live n). }
  destruct (free_index_spec _ _ Hf) as (old & Hold & Hdead).
  rewrite (at_index_ok _ _ _ Hold), live_count_add by done. simpl.
  destruct (add_checked 64 (serials a) 1) as [x| |] eqn:Hx; [|done|done].
  unfold add_checked in Hx. apply checked_done in Hx as [-> Hw]. simpl.
  intros [= <- <-]. eexists. rewrite (trunc_index _ _ _ Hwf Hold).
  split; [split; simpl; rewrite ?Nat2Z.id; try done; [by exists old|lia]|].
  split; [|done]. by apply (wf_add a i old).
Qed.

Lemma derive_owned_inv a ps r b w c res a' :
  wf a → Arena.derive_owned a ps r b w c = Done (res, a') →
  match res with
  | Ok s => ∃ pn n, Arena.node_of a ps = Some pn ∧ filled a s n a' ∧ wf a' ∧
                    narrows pn n ∧ parent n = Some (node ps) ∧
                    rights n = r ∧ badge n = b ∧ owner n = w
  | Err _ => a' = a
  end.
Proof.
  intros Hwf. unfold Arena.derive_owned.
  destruct (Arena.resolve a ps) as [i|] eqn:Hr; [|by intros [= <- <-]].
  apply resolve_some in Hr as (-> & pn & Hpn & Hlp & Hgp).
  rewrite (at_index_ok _ _ _ Hpn). simpl.
  destruct (Rights.contains (rights pn) Rights.DERIVE) eqn:Hder; [|by intros [= <- <-]].
  destruct (Rights.contains (rights pn) r) eqn:Hsub; [|by intros [= <- <-]]. simpl.
  destruct (negb (badge pn =? 0) && negb (b =? badge pn)) eqn:Hb; [by intros [= <- <-]|].
  destruct (Arena.free_index a) as [i|] eqn:Hf; [|by intros [= <- <-]].
  destruct (free_index_spec _ _ Hf) as (old & Hold & Hdead).
  rewrite (at_index_ok _ _ _ Hold), live_count_add by done. simpl.
  destruct (add_checked 64 (serials a) 1) as [x| |] eqn:Hx; [|done|done].
  unfold add_checked in Hx. apply checked_done in Hx as [-> Hw]. simpl.
  intros [= <- <-]. eexists pn, _. rewrite (trunc_index _ _ _ Hwf Hold).
  split; [by apply node_of_some|].
  split; [split; simpl; rewrite ?Nat2Z.id; try done; [by exists old|lia]|].
  match goal with |- _ ∧ narrows _ ?n ∧ _ => assert (Hnar : narrows pn n) end.
  { pose proof (wf_serial _ Hwf _ _ Hpn Hlp). split; [done|simpl; lia|done|done|done|simpl; intros; lia]. }
  split; [|done]. apply (wf_add a i old); try done. simpl. intros p [= <-].
  eauto.
Qed.

(** [a'] is [a] with exactly the nodes satisfying [P] killed. *)
Definition pruned (P : nat → Prop) (a a' : Arena) : Prop :=
  ∀ i n, nodes a !! i = Some n →
    P i ∧ live n = true ∧ nodes a' !! i = Some (Arena.killed_node n) ∨
    ¬ P i ∧ nodes a' !! i = Some n.

Lemma destroy_subtree_pruned a r n :
  wf a → nodes a !! r = Some n → live n = true →
  ∃ a', Arena.destroy_subtree a r = Done (live_count a - live_count a', a') ∧
        wf a' ∧ between a r a' ∧ pruned (descends (nodes a) r) a a'.
Proof.
  intros Hwf Hn Hl.
  destruct (destroy_subtree_spec _ _ _ Hwf Hn Hl) as (a' & He & Hb & Hc & Hk).
  exists a'. split_and!; eauto using between_wf.
  intros i m Hm. destruct (bt_nodes _ _ _ Hb i m Hm) as [Hi|[Hi Hd]].
  - right. split; [|done]. intros Hd. rewrite (Hk i m Hm Hd) in Hi.
    destruct (descends_live _ _ _ Hd) as (? & ? & ?).
    assert (live m = false) by (injection Hi as Hi; by rewrite <- Hi). congruence.
  - left. destruct (descends_live _ _ _ Hd) as (? & ? & ?). by simplify_eq.
Qed.

Lemma descends_object ns r i rn n :
  closed ns → descends ns r i → ns !! r = Some rn → ns !! i = Some n → object n = object rn.
Proof.
  intros Hc Hd Hr. revert n. induction Hd as [m Hm Hl|i m p Hm Hl Hp Hd IH]; intros n Hn.
  - congruence.
  - assert (m = n) as -> by congruence. destruct (Hc i n p Hm Hl Hp) as (pn & Hpn & Hnar).
    rewrite (narrows_object _ _ Hnar). eauto.
Qed.

(** Every live node sits below a live root naming the same object. *)
Lemma root_above a i n :
  wf a → nodes a !! i = Some n → live n = true →
  ∃ r rn, nodes a !! r = Some rn ∧ live rn = true ∧ parent rn = None ∧ object rn = object n.
Proof.
  intros Hwf. remember (Z.to_nat (serial n)) as k eqn:Hk.
  revert i n Hk. induction (lt_wf k) as [k _ IH]. intros i n -> Hn Hl.
  destruct (parent n) as [p|] eqn:Hp; [|by eauto 10].
  destruct (wf_closed _ Hwf i n p Hn Hl Hp) as (pn & Hpn & Hnar).
  pose proof (narrows_live _ _ Hnar) as Hlp. pose proof (narrows_serial _ _ Hnar).
  pose proof (wf_serial _ Hwf _ _ Hpn Hlp).
  destruct (IH (Z.to_nat (serial pn))) with (i := Z.to_nat p) (n := pn)
    as (r & rn & ? & ? & ? & Ho); [lia|done|done|done|].
  exists r, rn. rewrite (narrows_object _ _ Hnar). done.
Qed.

Lemma credits_trans ns ns1 ns2 t t1 t2 :
  (∀ o, (owned_live o ns1 ≤ owned_live o ns)%nat) →
  (∀ o, (owned_live o ns2 ≤ owned_live o ns1)%nat) →
  credits ns ns1 t t1 → credits ns1 ns2 t1 t2 → credits ns ns2 t t2.
Proof.
  intros H1 H2 [Hl1 Hc1] [Hl2 Hc2]. split; [congruence|]. intros o k Ho Hk.
  rewrite (Hc2 o _ Ho (Hc1 o k Ho Hk)). f_equal. specialize (H1 o). specialize (H2 o). lia.
Qed.

(** The state of [revoke_roots_naming] after [k] indices. *)
Record naming (o : ObjectRef) (a0 : Arena) (t0 : list Z) (k : nat) (st : Arena * Z) : Prop := {
  nm_wf : wf st.1;
  nm_nodes i n : nodes a0 !! i = Some n →
    nodes st.1 !! i = Some n ∨
    nodes st.1 !! i = Some (Arena.killed_node n) ∧ live n = true ∧ object n = o;
  nm_done j n : (j < k)%nat → nodes st.1 !! j = Some n → live n = true →
    parent n = None → object n ≠ o;
  nm_count : st.2 = live_count a0 - live_count st.1;
  nm_mono w : (owned_live w (nodes st.1) ≤ owned_live w (nodes a0))%nat;
  nm_tally : ∃ t, tally st.1 = Some t ∧ credits (nodes a0) (nodes st.1) t0 t;
  nm_serials : serials st.1 = serials a0
}.

Lemma naming_step_spec o a0 t0 k st :
  wf a0 → (k < MAX_CAPABILITIES)%nat → naming o a0 t0 k st →
  ∃ st', Arena.naming_step o st k = Done st' ∧ naming o a0 t0 (S k) st'.
Proof.
  intros Hwf0 Hk [Hwf Hns Hdone Hcnt Hmono (t & Ht & Hcr) Hser].
  destruct st as [a d]; simpl in *.
  destruct (lookup_lt_is_Some_2 (nodes a) k) as [n Hn]; [by rewrite (wf_len _ Hwf)|].
  rewrite (at_index_ok _ _ _ Hn). simpl.
  destruct (live n && bool_decide (parent n = None) && bool_decide (object n = o)) eqn:Hc.
  2: { eexists; split; [done|]. split; eauto; simpl. intros j m Hj Hm Hl Hp.
       destruct (decide (j = k)) as [->|]; [|apply (Hdone j); [lia|done..]].
       simplify_eq. rewrite Hl, bool_decide_true in Hc by done. simpl in Hc.
       by apply bool_decide_eq_false in Hc. }
  rewrite !andb_true_iff, !bool_decide_eq_true in Hc. destruct Hc as [[Hl Hp] Ho].
  destruct (destroy_subtree_pruned _ _ _ Hwf Hn Hl) as (a' & -> & Hwf' & Hb & Hpr).
  simpl. eexists; split; [done|]. split; simpl; [done| | |lia| | |].
  - intros i m Hm. destruct (Hns i m Hm) as [Hi|(Hi & Hlm & Hom)].
    + destruct (Hpr i m Hi) as [(Hd & Hlm & Hi')|[_ Hi']]; [right|by left].
      split_and!; [done..|].
      rewrite <- Ho. apply (descends_object (nodes a) k i); auto using wf_closed.
    + right. destruct (Hpr _ _ Hi) as [(_ & [=] & _)|[_ Hi']]. done.
  - intros j m Hj Hm Hlm Hpm. pose proof (between_live_same _ _ _ _ _ Hb Hm Hlm) as Hma.
    destruct (decide (j = k)) as [->|]; [|apply (Hdone j); [lia|done..]].
    destruct (Hpr k n Hn) as [(_ & _ & Hk')|[Hnd _]]; [by simplify_eq|].
    exfalso. apply Hnd. by econstructor.
  - intros w. pose proof (bt_mono _ _ _ Hb w). specialize (Hmono w). lia.
  - destruct (bt_tally _ _ _ Hb t Ht) as (t' & Ht' & Hcr'). exists t'.
    split; [done|]. eapply credits_trans; eauto using bt_mono.
  - by rewrite (bt_serials _ _ _ Hb).
Qed.

Lemma revoke_roots_naming_spec a o t :
  wf a → length t = MAX_OWNERS → Forall (in_width 32) t →
  ∃ t' a', Arena.revoke_roots_naming a o t = Done (live_count a - live_count a', t', a') ∧
           wf a' ∧ pruned (fun i => ∃ n, nodes a !! i = Some n ∧ live n = true ∧ object n = o) a a' ∧
           credits (nodes a) (nodes a') t t' ∧ serials a' = serials a.
Proof.
  intros Hwf Hlen Hw. unfold Arena.revoke_roots_naming.
  set (a0 := Arena.set_tally a (Some t)).
  assert (Hwf0 : wf a0) by by apply wf_set_tally.
  destruct (for_each_seq_inv (Arena.naming_step o) (naming o a0 t) 0 MAX_CAPABILITIES (a0, 0))
    as ([a' d] & He & [Hwf' Hns Hdone Hcnt Hmono (t' & Ht' & Hcr) Hser]).
  { split; simpl; try done; [by left|lia|lia|]. exists t. split; [done|].
    destruct (bt_tally _ _ _ (between_refl a0 0 Hwf0) t eq_refl) as (? & [= <-] & ?). done. }
  { intros i s [_ Hi] Hs. by apply naming_step_spec. }
  simpl in *. rewrite He. simpl. rewrite Ht'. simpl. exists t', (Arena.set_tally a' None).
  split; [by rewrite Hcnt|]. split_and!; [by apply wf_clear_tally| |done|done].
  intros i n Hn. destruct (Hns i n Hn) as [Hi|(Hi & Hl & Ho)]; [right|left; eauto 10].
  split; [|done]. intros (m & Hm & Hl & Ho). simplify_eq.
  destruct (root_above a' i n Hwf' Hi Hl) as (r & rn & Hr & Hlr & Hpr & Hor).
  apply (Hdone r rn); try done. rewrite <- (wf_len _ Hwf'). by eapply lookup_lt_Some.
Qed.

(** ** The arena as a state machine

    Every public operation that changes the arena, as a step; [insert_root]
    and [derive] are the kernel-owned instances of the first two. *)
Inductive step (a : Arena) : Arena → Prop :=
| step_insert o r b w c res a' :
    Arena.insert_root_owned a o r b w c = Done (res, a') → step a a'
| step_derive ps r b w c res a' :
    Arena.derive_owned a ps r b w c = Done (res, a') → step a a'
| step_revoke s res a' :
    Arena.revoke a s = Done (res, a') → step a a'
| step_revoke_unchecked s d a' :
    Arena.revoke_unchecked a s = Done (d, a') → step a a'
| step_revoke_tallied s t res t' a' :
    length t = MAX_OWNERS → Forall (in_width 32) t →
    Arena.revoke_tallied a s t = Done (res, t', a') → step a a'
| step_revoke_roots o t d t' a' :
    length t = MAX_OWNERS → Forall (in_width 32) t →
    Arena.revoke_roots_naming a o t = Done (d, t', a') → step a a'.

Definition reachable (a : Arena) : Prop := rtc step Arena.new a.

(** What one step does to one entry. *)
Inductive entry_step (n : CapNode) : CapNode → Prop :=
| entry_same : entry_step n n
| entry_kill : live n = true → entry_step n (Arena.killed_node n)
| entry_fill n' : live n = false → live n' = true → generation n' = generation n →
    entry_step n n'.

Definition entries_step (a a' : Arena) : Prop :=
  ∀ i n, nodes a !! i = Some n → ∃ n', nodes a' !! i = Some n' ∧ entry_step n n'.

Lemma entries_step_refl a : entries_step a a.
Proof. intros i n Hn. eauto using entry_same. Qed.

Lemma pruned_entries P a a' : pruned P a a' → entries_step a a'.
Proof.
  intros H i n Hn. destruct (H i n Hn) as [(_ & ? & ?)|[_ ?]]; eauto using entry_step.
Qed.

Lemma filled_entries a s n a' : filled a s n a' → entries_step a a'.
Proof.
  intros [(old & Hold & Hd & Hg) _ Hns Hl Hgn _ _] i m Hm. rewrite Hns, list_lookup_insert.
  case_decide as Hi; [|by eauto using entry_same].
  destruct Hi as [<- ?]. exists n. split; [done|]. simplify_eq. apply entry_fill; congruence.
Qed.

(** The rights check shared by [revoke] and [revoke_tallied]. *)
Lemma revoke_tallied_inv a s t res t' a' :
  wf a → length t = MAX_OWNERS → Forall (in_width 32) t →
  Arena.revoke_tallied a s t = Done (res, t', a') →
  wf a' ∧ entries_step a a' ∧
  match res with
  | Ok d => pruned (descends (nodes a) (Z.to_nat (node s))) a a' ∧
            d = live_count a - live_count a' ∧ credits (nodes a) (nodes a') t t'
  | Err e => a' = a ∧ t' = t
  end.
Proof.
  intros Hwf Hlen Hw. unfold Arena.revoke_tallied.
  destruct (Arena.resolve a s) as [i|] eqn:Hr;
    [|intros [= <- <- <-]; eauto using entries_step_refl].
  apply resolve_some in Hr as (-> & n & Hn & Hl & _).
  rewrite (at_index_ok _ _ _ Hn). simpl.
  destruct (Rights.contains (rights n) Rights.REVOKE);
    [|intros [= <- <- <-]; eauto using entries_step_refl]. simpl.
  set (a0 := Arena.set_tally a (Some t)).
  destruct (destroy_subtree_pruned a0 _ n (wf_set_tally a t Hwf Hlen Hw) Hn Hl)
    as (a1 & -> & Hwf1 & Hb & Hpr). simpl. intros [= <- <- <-].
  destruct (bt_tally _ _ _ Hb t eq_refl) as (t1 & -> & Hc). simpl.
  split_and!; [by apply wf_clear_tally|by apply (pruned_entries _ _ _ Hpr)|done|done|done].
Qed.

Lemma revoke_inv a s res a' :
  wf a → Arena.revoke a s = Done (res, a') →
  wf a' ∧ entries_step a a' ∧
  match res with
  | Ok d => pruned (descends (nodes a) (Z.to_nat (node s))) a a' ∧
            d = live_count a - live_count a'
  | Err e => a' = a
  end.
Proof.
  intros Hwf. unfold Arena.revoke.
  destruct (Arena.resolve a s) as [i|] eqn:Hr;
    [|intros [= <- <-]; eauto using entries_step_refl].
  apply resolve_some in Hr as (-> & n & Hn & Hl & _).
  rewrite (at_index_ok _ _ _ Hn). simpl.
  destruct (Rights.contains (rights n) Rights.REVOKE);
    [|intros [= <- <-]; eauto using entries_step_refl]. simpl.
  destruct (destroy_subtree_pruned a _ n Hwf Hn Hl) as (a1 & -> & Hwf1 & Hb & Hpr).
  simpl. intros [= <- <-]. eauto using pruned_entries.
Qed.

Lemma revoke_unchecked_inv a s d a' :
  wf a → Arena.revoke_unchecked a s = Done (d, a') →
  wf a' ∧ entries_step a a' ∧ d = live_count a - live_count a'.
Proof.
  intros Hwf. unfold Arena.revoke_unchecked.
  destruct (Arena.resolve a s) as [i|] eqn:Hr.
  2: { intros [= <- <-]. split_and!; [done|apply entries_step_refl|lia]. }
  apply resolve_some in Hr as (-> & n & Hn & Hl & _).
  destruct (destroy_subtree_pruned a _ n Hwf Hn Hl) as (a1 & -> & Hwf1 & Hb & Hpr).
  intros [= <- <-]. eauto using pruned_entries.
Qed.

Lemma step_spec a a' : wf a → step a a' → wf a' ∧ entries_step a a'.
Proof.
  intros Hwf [o r b w c res ? H|ps r b w c res ? H|s res ? H|s d ? H|s t res t' ? Hl Hw H
             |o t d t' ? Hl Hw H].
  - apply insert_root_owned_inv in H; [|done]. destruct res.
    + destruct H as (n & Hf & ? & _). eauto using filled_entries.
    + destruct H as (_ & -> & _). eauto using entries_step_refl.
  - apply derive_owned_inv in H; [|done]. destruct res.
    + destruct H as (pn & n & _ & Hf & ? & _). eauto using filled_entries.
    + subst. eauto using entries_step_refl.
  - apply revoke_inv in H; naive_solver.
  - apply revoke_unchecked_inv in H; naive_solver.
  - apply revoke_tallied_inv in H; naive_solver.
  - destruct (revoke_roots_naming_spec a o t Hwf Hl Hw) as (t1 & a1 & He & ? & Hp & _).
    rewrite He in H. simplify_eq. eauto using pruned_entries.
Qed.

Lemma new_wf : wf Arena.new.
Proof.
  assert (Hlk : ∀ i n, nodes Arena.new !! i = Some n → n = Arena.empty_node).
  { intros i n Hn. by apply lookup_replicate in Hn as [-> _]. }
  split.
  - apply length_replicate.
  - vm_compute. done.
  - by vm_compute.
  - intros i n ->%Hlk. by vm_compute.
  - intros i n ->%Hlk. done.
  - intros i j n m ->%Hlk. done.
  - intros i n p ->%Hlk. done.
  - done.
Qed.

Lemma steps_wf a a' : wf a → rtc step a a' → wf a'.
Proof. intros Hwf Hs. induction Hs; [done|]. apply IHHs. by apply (step_spec x). Qed.

Lemma reachable_wf a : reachable a → wf a.
Proof. apply steps_wf, new_wf. Qed.
#[export] Hint Resolve reachable_wf new_wf : bhaskix.

(** ** Staleness

    How many times the entry named by [s] has been killed since [s] was
    issued, modulo the width of a generation. *)
Definition age (s : SlotRef) (n : CapNode) : Z :=
  trunc 32 (generation n - slot_generation s).

Lemma age_kill s n :
  in_width 32 (generation n) → age s n + 1 < 2 ^ 32 →
  age s (Arena.killed_node n) = age s n + 1.
Proof.
  unfold age, trunc, in_width, wrapping_add, trunc. simpl. intros Hg Ha.
  unfold wrapping_add, trunc. rewrite Zminus_mod_idemp_l.
  replace (generation n + 1 - slot_generation s) with (generation n - slot_generation s + 1) by lia.
  rewrite <- Zplus_mod_idemp_l. apply Z.mod_small.
  pose proof (Z.mod_pos_bound (generation n - slot_generation s) (2 ^ 32)). lia.
Qed.

(** [s] is either current and live, or its entry has died between 1 and [t] times. *)
Definition aged (s : SlotRef) (t : Z) (a : Arena) : Prop :=
  ∃ n, nodes a !! Z.to_nat (node s) = Some n ∧
       (live n = true ∧ generation n = slot_generation s ∨ 1 ≤ age s n ≤ t).

Lemma aged_step s t a a' :
  wf a → aged s t a → t + 1 < 2 ^ 32 → 0 ≤ t → step a a' →
  aged s (t + 1) a' ∧ (Arena.is_live a s = false → Arena.is_live a' s = false).
Proof.
  intros Hwf (n & Hn & Hage) Ht H0 Hstep.
  destruct (step_spec _ _ Hwf Hstep) as [Hwf' Hent].
  destruct (Hent _ _ Hn) as (n' & Hn' & He).
  pose proof (wf_generation _ Hwf _ _ Hn) as Hg.
  assert (Hzero : generation n = slot_generation s → age s n = 0).
  { unfold age. intros ->. by rewrite Z.sub_diag. }
  assert (Hlive : ∀ b m, nodes b !! Z.to_nat (node s) = Some m →
            Arena.is_live b s = true ↔ live m = true ∧ generation m = slot_generation s).
  { intros b m Hm. unfold Arena.is_live. destruct (Arena.resolve b s) as [i|] eqn:Hr.
    - apply resolve_some in Hr as (-> & q & Hq & ? & ?). simplify_eq. naive_solver.
    - split; [done|]. intros [? ?]. enough (Arena.resolve b s = Some (Z.to_nat (node s))) by congruence.
      apply resolve_some. eauto. }
  assert (Hage' : age s n' = age s n ∧ (live n = true → n' = n) ∨
                  live n = true ∧ n' = Arena.killed_node n ∧ age s n' = age s n + 1).
  { destruct He as [| Hl |n' Hd Hl Hgn].
    - by left.
    - right. split_and!; [done..|]. apply age_kill; [done|].
      destruct Hage as [[_ Hgs]|?]; [rewrite (Hzero Hgs)|]; lia.
    - left. split; [unfold age; by rewrite Hgn|congruence]. }
  split.
  - exists n'. split; [done|]. destruct Hage as [[Hl Hgs]|Hr].
    + destruct Hage' as [[_ Heq]|(_ & -> & ->)]; [rewrite (Heq Hl); by left|right].
      rewrite (Hzero Hgs). lia.
    + right. destruct Hage' as [[-> _]|(_ & _ & ->)]; lia.
  - intros Hdead. apply not_true_iff_false in Hdead. apply not_true_iff_false.
    rewrite (Hlive _ _ Hn) in Hdead. rewrite (Hlive _ _ Hn'). intros [Hl' Hg'].
    assert (age s n' = 0) by (unfold age; by rewrite Hg', Z.sub_diag).
    destruct Hage as [?|Hr]; [done|]. destruct Hage' as [[? _]|(_ & _ & ?)]; lia.
Qed.

Lemma aged_steps s t k a a' :
  wf a → aged s t a → 0 ≤ t → t + Z.of_nat k < 2 ^ 32 → nsteps step k a a' →
  wf a' ∧ aged s (t + Z.of_nat k) a' ∧ (Arena.is_live a s = false → Arena.is_live a' s = false).
Proof.
  intros Hwf Hag Ht Hk Hs. revert t Hwf Hag Ht Hk.
  induction Hs as [a|k a b a' Hab Hs IH]; intros t Hwf Hag Ht Hk.
  { rewrite Z.add_0_r. done. }
  destruct (aged_step s t a b Hwf Hag) as [Hag' Hd]; [lia|done|done|].
  destruct (IH (t + 1)) as (? & Hag'' & Hd').
  - by apply (step_spec a).
  - done.
  - lia.
  - lia.
  - split_and!; [done| |auto]. by replace (t + Z.of_nat (S k)) with (t + 1 + Z.of_nat k) by lia.
Qed.

Lemma contains_trans x y z :
  Rights.contains x y = true → Rights.contains y z = true → Rights.contains x z = true.
Proof.
  unfold Rights.contains. rewrite !Z.eqb_eq. intros Hxy Hyz.
  rewrite <- Hyz at 1. rewrite Z.land_assoc, Hxy. done.
Qed.

Lemma contains_refl x : Rights.contains x x = true.
Proof. unfold Rights.contains. rewrite Z.eqb_eq. apply Z.land_diag. Qed.

(** A pruned arena resolves exactly the references outside the pruned set. *)
Lemma pruned_node_of P a a' s m :
  (∀ i n, nodes a !! i = None → nodes a' !! i = Some n → False) → pruned P a a' →
  Arena.node_of a' s = Some m ↔ Arena.node_of a s = Some m ∧ ¬ P (Z.to_nat (node s)).
Proof.
  intros Hlen Hp. rewrite !node_of_some.
  destruct (nodes a !! Z.to_nat (node s)) as [n|] eqn:Hn.
  - destruct (Hp _ _ Hn) as [(HP & Hl & Hk)|[HP Hk]]; rewrite Hk; split; [|naive_solver..].
    intros ([= <-] & Hd & _). done.
  - split; [intros (Hm & _); exfalso; by eapply Hlen|naive_solver].
Qed.

Lemma wf_same_domain a a' i n : wf a → wf a' → nodes a !! i = None → nodes a' !! i = Some n → False.
Proof.
  intros Hwf Hwf' Hn Hn'. apply lookup_ge_None in Hn. apply lookup_lt_Some in Hn'.
  rewrite (wf_len _ Hwf) in Hn. rewrite (wf_len _ Hwf') in Hn'. lia.
Qed.

(** A filled entry is reached by its new reference and by no other. *)
Lemma filled_fresh a s n a' :
  filled a s n a' →
  Arena.node_of a' s = Some n ∧ Arena.is_live a s = false ∧
  (∀ s', s' ≠ s → 0 ≤ node s' → Arena.node_of a' s' = Arena.node_of a s').
Proof.
  intros [(old & Hold & Hd & Hg) Hnn Hns Hl Hgn _ _].
  assert (Hi : (Z.to_nat (node s) < length (nodes a))%nat) by by eapply lookup_lt_Some.
  split_and!.
  - apply node_of_some. rewrite Hns, list_lookup_insert_eq by done. done.
  - unfold Arena.is_live. destruct (Arena.resolve a s) as [i|] eqn:Hr; [|done].
    apply resolve_some in Hr as (-> & m & ? & ? & _). congruence.
  - intros s' Hne H0. apply option_eq. intros m. rewrite !node_of_some, Hns, list_lookup_insert.
    case_decide as Hc; [|done]. destruct Hc as [Heq _].
    split; [|intros (Hm & Hlm & _); rewrite <- Heq, Hold in Hm; congruence].
    intros ([= <-] & _ & Hgs). exfalso. apply Hne. destruct s, s'; simpl in *. f_equal; [lia|congruence].
Qed.

Lemma pruned_count P a a' i n :
  wf a → wf a' → pruned P a a' → nodes a !! i = Some n → live n = true → P i →
  (count live (nodes a') < count live (nodes a))%nat.
Proof.
  intros Hwf Hwf' Hp Hn Hl HP. destruct (Hp i n Hn) as [(_ & _ & Hk)|[? _]]; [|done].
  eapply count_lt; [|clear i n Hn Hl HP Hk|exact Hn|exact Hk|done|done].
  - by rewrite (wf_len _ Hwf), (wf_len _ Hwf').
  - intros j y y' Hy Hy' Hl. destruct (Hp j y Hy) as [(_ & ? & ?)|[_ ?]]; by simplify_eq.
Qed.

Lemma names_true cs o a :
  CSpace.names cs o a = true ↔
  ∃ s m, Some s ∈ cs ∧ Arena.node_of a s = Some m ∧ object m = o.
Proof.
  unfold CSpace.names, Arena.lookup. rewrite existsb_exists. split.
  - intros ([s|] & Hin & Hs); [|done]. destruct (Arena.node_of a s) as [m|] eqn:Hm; [|done].
    simpl in Hs. apply bool_decide_eq_true in Hs. exists s, m. by rewrite list_elem_of_In.
  - intros (s & m & Hin & Hm & Ho). exists (Some s). rewrite Hm. simpl.
    rewrite bool_decide_true by done. by rewrite <- list_elem_of_In.
Qed.

(** ** Theorems *)

(** C1. Revocation is immediate, transitive and exact: revoking a capability
    that carries [REVOKE] neither panics nor loops, after it a reference
    resolves if and only if it resolved before and its node is not in the
    revoked subtree, the surviving nodes are unchanged, and the count returned
    is the number of capabilities destroyed. *)
Theorem revoke_exact a s n :
  reachable a → Arena.node_of a s = Some n → Rights.contains (rights n) Rights.REVOKE = true →
  ∃ d a', Arena.revoke a s = Done (Ok d, a') ∧ reachable a' ∧
    (∀ s' m, Arena.node_of a' s' = Some m ↔
             Arena.node_of a s' = Some m ∧
             ¬ descends (nodes a) (Z.to_nat (node s)) (Z.to_nat (node s'))) ∧
    d = Z.of_nat (count live (nodes a)) - Z.of_nat (count live (nodes a')) ∧ 0 < d.
Proof.
  intros Hre Hn Hrev. pose proof (reachable_wf _ Hre) as Hwf.
  apply node_of_some in Hn as (Hn & Hl & Hg).
  assert (Hr : Arena.resolve a s = Some (Z.to_nat (node s))) by (apply resolve_some; eauto).
  destruct (destroy_subtree_pruned a _ n Hwf Hn Hl) as (a' & He & Hwf' & Hb & Hp).
  assert (Hrv : Arena.revoke a s = Done (Ok (live_count a - live_count a'), a')).
  { unfold Arena.revoke. rewrite Hr, (at_index_ok _ _ _ Hn). simpl. rewrite Hrev. simpl.
    by rewrite He. }
  exists (live_count a - live_count a'), a'. split_and!.
  - done.
  - eapply rtc_r; [done|]. by eapply step_revoke.
  - intros s' m. apply pruned_node_of; eauto using wf_same_domain.
  - by rewrite (wf_live _ Hwf), (wf_live _ Hwf').
  - rewrite (wf_live _ Hwf), (wf_live _ Hwf').
    pose proof (pruned_count _ _ _ _ _ Hwf Hwf' Hp Hn Hl (descends_self _ _ _ Hn Hl)). lia.
Qed.

(** C2. Authority only narrows, at any depth: in every reachable arena a node
    below [r] names the same object as [r], holds a subset of its rights, and
    carries its badge unless [r] is an unbadged master. *)
Theorem authority_monotone a r i rn n :
  reachable a → descends (nodes a) r i → nodes a !! r = Some rn → nodes a !! i = Some n →
  object n = object rn ∧ Rights.contains (rights rn) (rights n) = true ∧
  (badge rn ≠ 0 → badge n = badge rn).
Proof.
  intros Hre Hd Hr. pose proof (wf_closed _ (reachable_wf _ Hre)) as Hc. revert n.
  induction Hd as [m Hm Hl|i m p Hm Hl Hp Hd IH]; intros n Hn.
  - simplify_eq. auto using contains_refl.
  - assert (m = n) as -> by congruence.
    destruct (Hc i n p Hm Hl Hp) as (pn & Hpn & Hnar).
    destruct (IH pn Hpn) as (Ho & Hrt & Hb). destruct Hnar as [_ _ Hob Hrts _ Hbn].
    split_and!; [congruence|by eapply contains_trans|].
    intros Hz. rewrite <- (Hb Hz). apply Hbn. by rewrite (Hb Hz).
Qed.

(** C3. A reference that stopped resolving never resolves again: once a live
    reference has been revoked, it names nothing after any further operations,
    as long as fewer than [2^32] operations happen after it was issued (the
    width of a generation). *)
Theorem revoked_reference_stays_dead a0 a1 a2 s k m :
  reachable a0 → Arena.is_live a0 s = true →
  nsteps step k a0 a1 → Arena.is_live a1 s = false →
  nsteps step m a1 a2 → Z.of_nat (k + m) < 2 ^ 32 →
  Arena.is_live a2 s = false.
Proof.
  intros Hre Hl0 Hk Hl1 Hm Hb. pose proof (reachable_wf _ Hre) as Hwf.
  assert (Hag : aged s 0 a0).
  { unfold Arena.is_live in Hl0. destruct (Arena.resolve a0 s) eqn:Hr; [|done].
    apply resolve_some in Hr as (-> & n & ? & ? & ?). exists n. eauto. }
  destruct (aged_steps s 0 k a0 a1 Hwf Hag) as (Hwf1 & Hag1 & _); [lia|lia|done|].
  destruct (aged_steps s (0 + Z.of_nat k) m a1 a2 Hwf1 Hag1) as (_ & _ & Hd); [lia|lia|done|].
  auto.
Qed.

(** What a derivation makes: on success the parent is live and carries
    [DERIVE], the new reference resolves to a node with the requested rights,
    badge and owner, naming the parent's object, every other reference
    resolves exactly as before, and the new serial was never drawn before; on
    an error nothing changed. *)
Theorem derive_grants_exactly a ps r b w c res a' :
  reachable a → Arena.derive_owned a ps r b w c = Done (res, a') →
  reachable a' ∧
  match res with
  | Ok s =>
      ∃ o pr pb,
        Arena.lookup a ps = Some (o, pr) ∧ Arena.badge_of a ps = Some pb ∧
        Rights.contains pr Rights.DERIVE = true ∧ Rights.contains pr r = true ∧
        (pb ≠ 0 → b = pb) ∧
        Arena.lookup a' s = Some (o, r) ∧ Arena.badge_of a' s = Some b ∧
        Arena.owner_of a' s = Some w ∧
        Arena.is_live a s = false ∧
        (∀ s', s' ≠ s → 0 ≤ node s' → Arena.node_of a' s' = Arena.node_of a s') ∧
        (∀ s' x, Arena.serial_of a s' = Some x → Arena.serial_of a' s ≠ Some x)
  | Err _ => a' = a
  end.
Proof.
  intros Hre He. pose proof (reachable_wf _ Hre) as Hwf.
  split; [eapply rtc_r; [done|by eapply step_derive]|].
  apply derive_owned_inv in He; [|done]. destruct res as [s|e]; [|done].
  destruct He as (pn & n & Hpn & Hf & Hwf' & Hnar & Hpar & <- & <- & <-).
  pose proof (filled_fresh _ _ _ _ Hf) as (Hn & Hdead & Hother).
  exists (object pn), (rights pn), (badge pn).
  unfold Arena.lookup, Arena.badge_of, Arena.owner_of, Arena.serial_of. rewrite Hpn, Hn. simpl.
  destruct Hnar as [_ _ Hob Hrt Hdr Hbg]. rewrite Hob.
  split_and!; try done.
  intros s' x Hx Hx'. destruct (Arena.node_of a s') as [q|] eqn:Hq; [|done]. simpl in Hx.
  apply node_of_some in Hq as (Hq & Hlq & _). pose proof (wf_serial _ Hwf _ _ Hq Hlq).
  destruct (fl_serial _ _ _ _ Hf). simplify_eq. lia.
Qed.

(** Quota is returned to whoever paid: a permitted tallied revocation
    destroys exactly the subtree and adds to every owner's counter the number
    of its own capabilities destroyed, saturating at [u32::MAX], whichever
    domain revoked. *)
Theorem revoke_tallied_credits_owners a s n t :
  reachable a → Arena.node_of a s = Some n → Rights.contains (rights n) Rights.REVOKE = true →
  length t = MAX_OWNERS → Forall (in_width 32) t →
  ∃ d t' a', Arena.revoke_tallied a s t = Done (Ok d, t', a') ∧ reachable a' ∧
    pruned (descends (nodes a) (Z.to_nat (node s))) a a' ∧
    ∀ o k, (o < MAX_OWNERS)%nat → t !! o = Some k →
      t' !! o = Some (Z.min (k + (Z.of_nat (owned_live o (nodes a))
                                  - Z.of_nat (owned_live o (nodes a')))) (2 ^ 32 - 1)).
Proof.
  intros Hre Hn Hrev Hlen Hw. pose proof (reachable_wf _ Hre) as Hwf.
  apply node_of_some in Hn as (Hn & Hl & Hg).
  assert (Hr : Arena.resolve a s = Some (Z.to_nat (node s))) by (apply resolve_some; eauto).
  set (a0 := Arena.set_tally a (Some t)).
  destruct (destroy_subtree_pruned a0 _ n (wf_set_tally a t Hwf Hlen Hw) Hn Hl)
    as (a1 & He & Hwf1 & Hb & Hpr).
  destruct (bt_tally _ _ _ Hb t eq_refl) as (t1 & Ht1 & Hlt & Hc).
  assert (Hrv : Arena.revoke_tallied a s t =
                Done (Ok (live_count a0 - live_count a1), t1, Arena.set_tally a1 None)).
  { unfold Arena.revoke_tallied. rewrite Hr, (at_index_ok _ _ _ Hn). simpl. rewrite Hrev. simpl.
    fold a0. rewrite He. simpl. by rewrite Ht1. }
  exists (live_count a0 - live_count a1), t1, (Arena.set_tally a1 None). split_and!; [done| |done|].
  - eapply rtc_r; [done|]. by eapply step_revoke_tallied.
  - intros o k Ho Hk. simpl. rewrite (Hc o k Ho Hk). f_equal.
    pose proof (bt_mono _ _ _ Hb o) as Hm. simpl in Hm |- *. lia.
Qed.

(** The death of an object reaches every name of it: after
    [revoke_roots_naming] no capability space of any domain names the object,
    while a space still names every other object it named before. *)
Theorem object_death_reaches_every_cspace a o t :
  reachable a → length t = MAX_OWNERS → Forall (in_width 32) t →
  ∃ d t' a', Arena.revoke_roots_naming a o t = Done (d, t', a') ∧ reachable a' ∧
    ∀ cs : CSpace.t, CSpace.names cs o a' = false ∧
      ∀ o', o' ≠ o → CSpace.names cs o' a' = CSpace.names cs o' a.
Proof.
  intros Hre Hlen Hw. pose proof (reachable_wf _ Hre) as Hwf.
  destruct (revoke_roots_naming_spec a o t Hwf Hlen Hw) as (t' & a' & He & Hwf' & Hp & _).
  exists (live_count a - live_count a'), t', a'. split_and!; [done| |].
  { eapply rtc_r; [done|]. by eapply step_revoke_roots. }
  assert (Hpn : ∀ s m, Arena.node_of a' s = Some m ↔ Arena.node_of a s = Some m ∧ object m ≠ o).
  { intros s m. rewrite (pruned_node_of _ a a' s m (fun i n => wf_same_domain a a' i n Hwf Hwf') Hp).
    rewrite node_of_some. naive_solver. }
  intros cs. split.
  - apply not_true_iff_false. rewrite names_true. intros (s & m & _ & Hm & Ho).
    by apply Hpn in Hm as [_ ?].
  - intros o' Hne. apply eq_true_iff_eq. rewrite !names_true.
    split; intros (s & m & Hs & Hm & Ho); exists s, m; (split_and!; [done| |done]).
    + by apply Hpn in Hm as [? _].
    + apply Hpn. split; [done|congruence].
Qed.

(** C4. No operation of a reachable arena panics or diverges: until the serial
    counter is exhausted ([2^64 - 1] capabilities made) every operation
    returns, whatever references, rights, badges and owners it is given. *)
Theorem arena_operations_return a :
  reachable a → serials a < 2 ^ 64 - 1 →
  (∀ o r b w c, ∃ res a', Arena.insert_root_owned a o r b w c = Done (res, a')) ∧
  (∀ s r b w c, ∃ res a', Arena.derive_owned a s r b w c = Done (res, a')) ∧
  (∀ s, ∃ res a', Arena.revoke a s = Done (res, a')) ∧
  (∀ s, ∃ d a', Arena.revoke_unchecked a s = Done (d, a')) ∧
  (∀ s t, length t = MAX_OWNERS → Forall (in_width 32) t →
     ∃ res t' a', Arena.revoke_tallied a s t = Done (res, t', a')) ∧
  (∀ o t, length t = MAX_OWNERS → Forall (in_width 32) t →
     ∃ d t' a', Arena.revoke_roots_naming a o t = Done (d, t', a')).
Proof.
  intros Hre Hser. pose proof (reachable_wf _ Hre) as Hwf.
  assert (Hadd : add_checked 64 (serials a) 1 = Done (serials a + 1)).
  { destruct (wf_serials _ Hwf). unfold add_checked. apply checked_ok. unfold in_width. lia. }
  assert (Hfree : ∀ i, Arena.free_index a = Some i → ∃ n, at_index (nodes a) i = Done n).
  { intros i (n & Hn & _)%free_index_spec. eauto using at_index_ok. }
  split_and!.
  - intros. unfold Arena.insert_root_owned. destruct (Arena.free_index a) as [i|] eqn:Hf; [|eauto].
    destruct (Hfree i eq_refl) as (n & ->). rewrite Hadd, live_count_add by done. simpl. eauto.
  - intros. unfold Arena.derive_owned. destruct (Arena.resolve a s) as [i|] eqn:Hr; [|eauto].
    apply resolve_some in Hr as (_ & n & Hn & _). rewrite (at_index_ok _ _ _ Hn). simpl.
    repeat case_match; try by eauto. subst. destruct (Hfree _ eq_refl) as (? & ->).
    rewrite Hadd, live_count_add by done. simpl. eauto.
  - intros s. unfold Arena.revoke. destruct (Arena.resolve a s) as [i|] eqn:Hr; [|eauto].
    apply resolve_some in Hr as (_ & n & Hn & Hl & _). rewrite (at_index_ok _ _ _ Hn). simpl.
    case_match; [eauto|]. destruct (destroy_subtree_pruned a i n Hwf Hn Hl) as (? & -> & _).
    simpl. eauto.
  - intros s. unfold Arena.revoke_unchecked. destruct (Arena.resolve a s) as [i|] eqn:Hr; [|eauto].
    apply resolve_some in Hr as (_ & n & Hn & Hl & _).
    destruct (destroy_subtree_pruned a i n Hwf Hn Hl) as (? & -> & _). eauto.
  - intros s t Hlen Hw. unfold Arena.revoke_tallied.
    destruct (Arena.resolve a s) as [i|] eqn:Hr; [|eauto].
    apply resolve_some in Hr as (_ & n & Hn & Hl & _). rewrite (at_index_ok _ _ _ Hn). simpl.
    case_match; [eauto|].
    destruct (destroy_subtree_pruned _ i n (wf_set_tally a t Hwf Hlen Hw) Hn Hl) as (? & -> & _).
    simpl. eauto.
  - intros o t Hlen Hw.
    destruct (revoke_roots_naming_spec a o t Hwf Hlen Hw) as (? & ? & -> & _). eauto.
Qed.

(** A capability space hands out what was put in it and nothing else:
    [install] uses the lowest free index and fails only when every slot is
    taken; afterwards that index yields the reference, every other index is
    unchanged, and [remove] takes it out again, restoring the space. *)
Theorem cspace_install_roundtrip (cs : CSpace.t) s :
  match CSpace.install cs s with
  | (Ok i, cs') =>
      CSpace.get cs i = None ∧ CSpace.get cs' i = Some s ∧
      (∀ j, j ≠ i → CSpace.get cs' j = CSpace.get cs j) ∧
      (∀ j, (j < i)%nat → is_Some (CSpace.get cs j)) ∧
      CSpace.occupied cs' = S (CSpace.occupied cs) ∧
      CSpace.remove cs' i = (Some s, cs)
  | (Err e, cs') =>
      e = Exhausted ∧ cs' = cs ∧ ∀ i, (i < length cs)%nat → is_Some (CSpace.get cs i)
  end.
Proof.
  unfold CSpace.install.
  destruct (position _ cs) as [i|] eqn:Hp.
  - apply position_some in Hp as [(x & Hx & Hd) Hmin]. apply bool_decide_eq_true in Hd. subst x.
    assert (Hi : (i < length cs)%nat) by by eapply lookup_lt_Some.
    unfold CSpace.get, CSpace.remove, CSpace.occupied. rewrite Hx, list_lookup_insert_eq by done.
    split_and!; try done.
    + intros j Hj. by rewrite list_lookup_insert_ne.
    + intros j Hj. destruct (lookup_lt_is_Some_2 cs j) as [y Hy]; [lia|]. rewrite Hy. simpl.
      specialize (Hmin j y Hj Hy). apply bool_decide_eq_false in Hmin. by destruct y.
    + pose proof (count_insert (fun s => bool_decide (s ≠ None)) cs i None (Some s) Hx). simpl in *. lia.
    + by rewrite list_insert_insert_eq, list_insert_id.
  - split_and!; try done. intros i Hi. destruct (lookup_lt_is_Some_2 cs i Hi) as [y Hy].
    unfold CSpace.get. rewrite Hy. simpl. apply position_none with (i := i) (x := y) in Hp; [|done].
    apply bool_decide_eq_false in Hp. by destruct y.
Qed.

(** ** Witnesses

    A small system: a memory object with a master capability, a badged client
    capability charged to domain 3, a weaker one derived from it and charged
    to domain 4, and an unrelated endpoint. *)
Definition arena_of {A} (m : outcome (A * Arena)) : Arena :=
  match m with Done (_, a) => a | _ => Arena.new end.

Definition memory7 : ObjectRef := MkObjectRef Memory 7.
Definition here : Location := MkLocation 1 1.
Definition demo0 : Arena := arena_of (Arena.insert_root_owned Arena.new memory7 Rights.ALL 0 OWNER_KERNEL here).
Definition demo1 : Arena := arena_of (Arena.derive_owned demo0 (MkSlotRef 0 0) Rights.ALL 5 3 here).
Definition demo2 : Arena := arena_of (Arena.derive_owned demo1 (MkSlotRef 1 0) Rights.READ 5 4 here).
Definition demo3 : Arena := arena_of (Arena.insert_root_owned demo2 (MkObjectRef Endpoint 9) Rights.ALL 0 2 here).
Definition demo4 : Arena := arena_of (Arena.revoke demo3 (MkSlotRef 1 0)).
Definition demo_node1 : CapNode := MkCapNode memory7 Rights.ALL 5 (Some 0) 0 3 (Some here) 2 true.

Definition returns {A} (m : outcome (A * Arena)) : bool :=
  match m with Done _ => true | _ => false end.

Lemma returns_done {A} (m : outcome (A * Arena)) :
  returns m = true → ∃ r, m = Done (r, arena_of m).
Proof. destruct m as [[r a]| |]; [|done|done]. by exists r. Qed.

Lemma demo0_reachable : reachable demo0.
Proof.
  destruct (returns_done (Arena.insert_root_owned Arena.new memory7 Rights.ALL 0 OWNER_KERNEL here))
    as [r Hr]; [by vm_compute|]. eapply rtc_once, step_insert, Hr.
Qed.

Lemma demo1_reachable : reachable demo1.
Proof.
  destruct (returns_done (Arena.derive_owned demo0 (MkSlotRef 0 0) Rights.ALL 5 3 here)) as [r Hr];
    [by vm_compute|]. eapply rtc_r; [apply demo0_reachable|]. eapply step_derive, Hr.
Qed.

Lemma demo2_reachable : reachable demo2.
Proof.
  destruct (returns_done (Arena.derive_owned demo1 (MkSlotRef 1 0) Rights.READ 5 4 here)) as [r Hr];
    [by vm_compute|]. eapply rtc_r; [apply demo1_reachable|]. eapply step_derive, Hr.
Qed.

Lemma demo_last_step : step demo2 demo3.
Proof.
  destruct (returns_done (Arena.insert_root_owned demo2 (MkObjectRef Endpoint 9) Rights.ALL 0 2 here))
    as [r Hr]; [by vm_compute|]. eapply step_insert, Hr.
Qed.

Lemma demo3_reachable : reachable demo3.
Proof. eapply rtc_r; [apply demo2_reachable|apply demo_last_step]. Qed.

Lemma demo4_step : step demo3 demo4.
Proof.
  destruct (returns_done (Arena.revoke demo3 (MkSlotRef 1 0))) as [r Hr]; [by vm_compute|].
  eapply step_revoke, Hr.
Qed.

(** Revoking the client capability destroys two nodes of the four. *)
Example demo_revoke_count :
  (match Arena.revoke demo3 (MkSlotRef 1 0) with Done (Ok d, _) => d | _ => 0 end,
   live_count demo3, live_count demo4) = (2, 4, 2).
Proof. by vm_compute. Qed.

Lemma revoke_exact_witness :
  ∃ d a', Arena.revoke demo3 (MkSlotRef 1 0) = Done (Ok d, a') ∧ 0 < d.
Proof.
  destruct (revoke_exact demo3 (MkSlotRef 1 0) demo_node1 demo3_reachable) as (d & a' & He & _ & _ & _ & Hd).
  - by vm_compute.
  - by vm_compute.
  - exists d, a'. by split.
Defined.

Lemma demo_descends : descends (nodes demo3) 0 2.
Proof.
  eapply (descends_child _ _ 2%nat _ 1); [by vm_compute|done|done|].
  eapply (descends_child _ _ 1%nat _ 0); [by vm_compute|done|done|].
  eapply descends_self; [by vm_compute|done].
Qed.

Lemma authority_monotone_witness :
  Rights.contains Rights.ALL Rights.READ = true ∧ descends (nodes demo3) 0 2.
Proof.
  split; [|apply demo_descends].
  refine (proj1 (proj2 (authority_monotone demo3 0 2
    (MkCapNode memory7 Rights.ALL 0 None 0 OWNER_KERNEL (Some here) 1 true)
    (MkCapNode memory7 Rights.READ 5 (Some 1) 0 4 (Some here) 3 true)
    demo3_reachable demo_descends _ _))); by vm_compute.
Defined.

Lemma revoked_reference_stays_dead_witness : Arena.is_live demo4 (MkSlotRef 2 0) = false.
Proof.
  apply (revoked_reference_stays_dead demo3 demo4 demo4 (MkSlotRef 2 0) 1 0).
  - apply demo3_reachable.
  - by vm_compute.
  - apply nsteps_once, demo4_step.
  - by vm_compute.
  - constructor.
  - lia.
Defined.

Lemma derive_grants_exactly_witness : reachable demo2.
Proof.
  destruct (returns_done (Arena.derive_owned demo1 (MkSlotRef 1 0) Rights.READ 5 4 here)) as [r Hr];
    [by vm_compute|].
  exact (proj1 (derive_grants_exactly demo1 _ _ _ _ _ _ _ demo1_reachable Hr)).
Defined.

Lemma zero_tally_widths : length (replicate MAX_OWNERS 0) = MAX_OWNERS ∧ Forall (in_width 32) (replicate MAX_OWNERS 0).
Proof. split; [apply length_replicate|]. apply Forall_replicate. by vm_compute. Qed.

Lemma revoke_tallied_credits_owners_witness :
  ∃ d t' a', Arena.revoke_tallied demo3 (MkSlotRef 1 0) (replicate MAX_OWNERS 0) = Done (Ok d, t', a').
Proof.
  destruct (revoke_tallied_credits_owners demo3 (MkSlotRef 1 0) demo_node1 (replicate MAX_OWNERS 0))
    as (d & t' & a' & He & _).
  - apply demo3_reachable.
  - by vm_compute.
  - by vm_compute.
  - apply zero_tally_widths.
  - apply zero_tally_widths.
  - by exists d, t', a'.
Defined.

Lemma object_death_reaches_every_cspace_witness :
  ∃ d t' a', Arena.revoke_roots_naming demo3 memory7 (replicate MAX_OWNERS 0) = Done (d, t', a').
Proof.
  destruct (object_death_reaches_every_cspace demo3 memory7 (replicate MAX_OWNERS 0)
    demo3_reachable (proj1 zero_tally_widths) (proj2 zero_tally_widths)) as (d & t' & a' & He & _).
  by exists d, t', a'.
Defined.

Lemma arena_operations_return_witness : ∃ res a', Arena.revoke demo3 (MkSlotRef 9 9) = Done (res, a').
Proof.
  refine (proj1 (proj2 (proj2 (arena_operations_return demo3 demo3_reachable _))) (MkSlotRef 9 9)).
  by vm_compute.
Defined.
