(* ===== verification/Handoff.v ===== *)
(** * The boot handoff

    Models the memory map of src/boot/handoff/src/lib.rs and
    [Handoff::validate], which the kernel runs once at entry.  What it accepts
    is what the physical allocators rely on: bases ascend and usable regions do
    not overlap. *)
From stdpp Require Import prelude numbers list.
From S2P Require Import Prelude.
Open Scope Z_scope.
Set Warnings "-clear-no-such-hyp".

Definition HANDOFF_VERSION : Z := 4.

Inductive MemoryKind : Type :=
| Usable | Reserved | AcpiReclaimable | AcpiNvs | BadMemory | BootloaderReclaimable
| KernelAndModules | Framebuffer.

#[global] Instance MemoryKind_eq_dec : EqDecision MemoryKind.
Proof. solve_decision. Defined.

Record MemoryRegion : Type := MkMemoryRegion { base : Z; length_ : Z; kind : MemoryKind }.

(** [MemoryRegion::end]: one past the last byte; a sum past [u64] panics. *)
Definition end_ (r : MemoryRegion) : outcome Z := add_checked 64 (base r) (length_ r).

Definition is_usable_now (k : MemoryKind) : bool := bool_decide (k = Usable).

(** The fields of the handoff that [validate] reads. *)
Record Handoff : Type := MkHandoff {
  version : Z;
  memory_map : list MemoryRegion;
  hhdm_base : Z
}.

Inductive HandoffError : Type :=
| UnsupportedVersion (v : Z)
| EmptyMemoryMap
| MissingHhdm
| Unsorted (i : nat)
| OverlappingUsable (i : nat)
| NoUsableMemory.

Module Handoff.

Definition is_supported (self : Handoff) : bool := version self =? HANDOFF_VERSION.

Fixpoint usable_loop (map : list MemoryRegion) (total : Z) : outcome Z :=
  match map with
  | [] => Done total
  | r :: map' =>
      if is_usable_now (kind r)
      then total ← add_checked 64 total (length_ r); usable_loop map' total
      else usable_loop map' total
  end.

Definition usable_bytes (self : Handoff) : outcome Z := usable_loop (memory_map self) 0.

Fixpoint highest_loop (map : list MemoryRegion) (highest : Z) : outcome Z :=
  match map with
  | [] => Done highest
  | r :: map' => e ← end_ r; highest_loop map' (if highest <? e then e else highest)
  end.

Definition highest_address (self : Handoff) : outcome Z := highest_loop (memory_map self) 0.

(** The ordering loop of [validate], from index [i]. *)
Fixpoint order_loop (map : list MemoryRegion) (i : nat) (previous_base previous_usable_end : Z)
    : outcome (result unit HandoffError) :=
  match map with
  | [] => Done (Ok tt)
  | r :: map' =>
      if base r <? previous_base then Done (Err (Unsorted i))
      else if is_usable_now (kind r) then
        if base r <? previous_usable_end then Done (Err (OverlappingUsable i))
        else e ← end_ r; order_loop map' (S i) (base r) e
      else order_loop map' (S i) (base r) previous_usable_end
  end.

Definition validate (self : Handoff) : outcome (result unit HandoffError) :=
  if negb (is_supported self) then Done (Err (UnsupportedVersion (version self)))
  else if bool_decide (memory_map self = []) then Done (Err EmptyMemoryMap)
  else if hhdm_base self =? 0 then Done (Err MissingHhdm)
  else
    r ← order_loop (memory_map self) 0 0 0;
    match r with
    | Err e => Done (Err e)
    | Ok _ =>
        total ← usable_bytes self;
        if total =? 0 then Done (Err NoUsableMemory) else Done (Ok tt)
    end.

(** [overlaps_non_reserved]: whether a device page touches described memory. *)
Definition overlaps_non_reserved (map : list MemoryRegion) (base' length' : Z) : bool :=
  if 2 ^ 64 <=? base' + length' then true
  else
    let end' := base' + length' in
    existsb (fun r => negb (bool_decide (kind r = Reserved)) && (base r <? end')
                      && (base' <? saturating_add 64 (base r) (length_ r))) map.

End Handoff.

(** ** What [validate] establishes *)

(** Regions hold [u64] values and end inside the address space. *)
Definition region_ok (r : MemoryRegion) : Prop :=
  0 ≤ base r ∧ 0 ≤ length_ r ∧ base r + length_ r < 2 ^ 64.

Definition map_sorted (map : list MemoryRegion) : Prop :=
  ∀ i j r r', (i < j)%nat → map !! i = Some r → map !! j = Some r' → base r ≤ base r'.

Definition usable_disjoint (map : list MemoryRegion) : Prop :=
  ∀ i j r r', (i < j)%nat → map !! i = Some r → map !! j = Some r' →
    kind r = Usable → kind r' = Usable → base r + length_ r ≤ base r'.

Lemma end_ok r : region_ok r → end_ r = Done (base r + length_ r).
Proof. intros (? & ? & ?). unfold end_, add_checked. apply checked_ok. unfold in_width. lia. Qed.

(** One region of the loop: the bounds carried past [x] say of the rest what
    the whole list says. *)
Definition bounded_below (pb pe : Z) (map : list MemoryRegion) : Prop :=
  ∀ j r, map !! j = Some r → pb ≤ base r ∧ (kind r = Usable → pe ≤ base r).

Lemma order_cons x map pb pe pe' :
  region_ok x → pb ≤ base x → (kind x = Usable → pe' = base x + length_ x ∧ pe ≤ base x) →
  (kind x ≠ Usable → pe' = pe) →
  (bounded_below (base x) pe' map ∧ map_sorted map ∧ usable_disjoint map) ↔
  (bounded_below pb pe (x :: map) ∧ map_sorted (x :: map) ∧ usable_disjoint (x :: map)).
Proof.
  intros (Hx1 & Hx2 & Hx3) Hpb Hu Hn. split.
  - intros (H & Hs & Hd). split_and!.
    + intros [|j] r Hr; simpl in Hr; [simplify_eq; split; [lia|]; intros ?; by apply Hu|].
      destruct (H j r Hr) as [? Hpe]. split; [lia|]. intros Hk. specialize (Hpe Hk).
      destruct (decide (kind x = Usable)) as [Hkx|Hkx]; [destruct (Hu Hkx); lia|rewrite <- (Hn Hkx); done].
    + intros [|a] [|b] r r' Hab Hr Hr'; simpl in *; try lia; simplify_eq; [by destruct (H b r' Hr')|].
      by apply (Hs a b); [lia|..].
    + intros [|a] [|b] r r' Hab Hr Hr' Hk Hk'; simpl in *; try lia; simplify_eq.
      * destruct (H b r' Hr') as [_ Hpe]. destruct (Hu Hk) as [<- _]. by apply Hpe.
      * by apply (Hd a b); [lia|..].
  - intros (H & Hs & Hd). split_and!.
    + intros j r Hr. split; [by apply (Hs 0%nat (S j)); [lia|..]|]. intros Hk.
      destruct (decide (kind x = Usable)) as [Hkx|Hkx].
      * destruct (Hu Hkx) as [-> _]. by apply (Hd 0%nat (S j)); [lia|..].
      * rewrite (Hn Hkx). by apply (H (S j)).
    + intros a b r r' Hab Hr Hr'. by apply (Hs (S a) (S b)); [lia|..].
    + intros a b r r' Hab Hr Hr'. by apply (Hd (S a) (S b)); [lia|..].
Qed.

Lemma order_loop_spec map : ∀ i pb pe,
  Forall region_ok map →
  ∃ r, Handoff.order_loop map i pb pe = Done r ∧
    (r = Ok tt ↔
      bounded_below pb pe map ∧ map_sorted map ∧ usable_disjoint map).
Proof.
  induction map as [|x map IH]; intros i pb pe Hok; simpl.
  { exists (Ok tt). split; [done|]. split; [|done]. intros _. split_and!; [done|intros ? ? ? ? _ ?; done..]. }
  apply Forall_cons in Hok as [Hx Hok].
  destruct (Z.ltb_spec (base x) pb) as [Hlt|Hge].
  { eexists. split; [done|]. split; [done|]. intros [H _]. destruct (H 0%nat x eq_refl). lia. }
  unfold is_usable_now. destruct (decide (kind x = Usable)) as [Hk|Hk].
  - rewrite bool_decide_true by done. destruct (Z.ltb_spec (base x) pe) as [Hlt|Hge'].
    { eexists. split; [done|]. split; [done|]. intros [H _]. destruct (H 0%nat x eq_refl) as [_ H']. specialize (H' Hk). lia. }
    rewrite end_ok by done. cbn [mbind outcome_bind].
    destruct (IH (S i) (base x) (base x + length_ x) Hok) as (r & -> & Hr).
    exists r. split; [done|]. rewrite Hr. by apply order_cons.
  - rewrite bool_decide_false by done. destruct (IH (S i) (base x) pe Hok) as (r & -> & Hr).
    exists r. split; [done|]. rewrite Hr. by apply order_cons.
Qed.

Lemma usable_loop_spec map : ∀ total,
  Forall region_ok map → usable_disjoint map → 0 ≤ total < 2 ^ 64 →
  (∀ j r, map !! j = Some r → kind r = Usable → total ≤ base r) →
  ∃ t, Handoff.usable_loop map total = Done t ∧ total ≤ t ∧
    (t = total ↔ ∀ j r, map !! j = Some r → kind r = Usable → length_ r = 0).
Proof.
  induction map as [|x map IH]; intros total Hok Hd Ht Hb; simpl.
  { exists total. split_and!; [done|lia|]. by split. }
  apply Forall_cons in Hok as [(Hx1 & Hx2 & Hx3) Hok].
  assert (Hd' : usable_disjoint map) by (intros a b r r' Hab; apply (Hd (S a) (S b)); lia).
  unfold is_usable_now. destruct (decide (kind x = Usable)) as [Hk|Hk].
  - rewrite bool_decide_true by done. pose proof (Hb 0%nat x eq_refl Hk) as Hb0.
    unfold add_checked. rewrite checked_ok by (unfold in_width; lia). cbn [mbind outcome_bind].
    destruct (IH (total + length_ x)) as (t & -> & Hle & Hz); [done|done|lia| |].
    { intros j r Hr Hk'. pose proof (Hd 0%nat (S j) x r ltac:(lia) eq_refl Hr Hk Hk'). lia. }
    exists t. split_and!; [done|lia|]. split.
    + intros ->. assert (length_ x = 0) by lia. intros [|j] r Hr Hk'; simpl in Hr; [by simplify_eq|].
      apply (proj1 Hz ltac:(lia) j r Hr Hk').
    + intros Hall. assert (length_ x = 0) by by apply (Hall 0%nat x). rewrite (proj2 Hz); [lia|].
      intros j r Hr. by apply (Hall (S j)).
  - rewrite bool_decide_false by done.
    destruct (IH total) as (t & -> & Hle & Hz); [done|done|lia|intros j r; apply (Hb (S j))|].
    exists t. split_and!; [done|lia|]. rewrite Hz. split.
    + intros Hall [|j] r Hr Hk'; simpl in Hr; [by simplify_eq|by apply (Hall j)].
    + intros Hall j r. apply (Hall (S j)).
Qed.

Lemma validate_spec h :
  Forall region_ok (memory_map h) →
  ∃ r, Handoff.validate h = Done r ∧
    (r = Ok tt ↔ version h = HANDOFF_VERSION ∧ memory_map h ≠ [] ∧ hhdm_base h ≠ 0 ∧
       map_sorted (memory_map h) ∧ usable_disjoint (memory_map h) ∧
       ∃ r, r ∈ memory_map h ∧ kind r = Usable ∧ length_ r ≠ 0).
Proof.
  intros Hok. unfold Handoff.validate, Handoff.is_supported.
  destruct (Z.eqb_spec (version h) HANDOFF_VERSION); simpl; [|eexists; split; [done|]; naive_solver].
  destruct (decide (memory_map h = [])) as [He|He];
    [rewrite bool_decide_true by done; eexists; split; [done|]; naive_solver|rewrite bool_decide_false by done].
  destruct (Z.eqb_spec (hhdm_base h) 0); [eexists; split; [done|]; naive_solver|].
  destruct (order_loop_spec (memory_map h) 0 0 0 Hok) as (r & -> & Hr). cbn [mbind outcome_bind].
  assert (H0 : bounded_below 0 0 (memory_map h)).
  { intros j x Hx. rewrite Forall_lookup in Hok. destruct (Hok j x Hx). tauto. }
  destruct r as [[]|err]; [|eexists; split; [done|]; naive_solver].
  destruct (proj1 Hr eq_refl) as (_ & Hs & Hd).
  destruct (usable_loop_spec (memory_map h) 0 Hok Hd) as (t & Ht & Hle & Hz); [lia| |].
  { intros j x Hx _. by destruct (H0 j x Hx). }
  unfold Handoff.usable_bytes. rewrite Ht. cbn [mbind outcome_bind]. destruct (Z.eqb_spec t 0) as [E|E].
  - eexists; split; [done|]. split; [done|]. intros (_ & _ & _ & _ & _ & x & [j Hx]%list_elem_of_lookup & Hk & Hn).
    destruct Hn. by apply (proj1 Hz E j x).
  - eexists; split; [done|]. split; [|done]. intros _. split_and!; try done.
    destruct (decide (Exists (fun r => kind r = Usable ∧ length_ r ≠ 0) (memory_map h))) as [Hex|Hno];
      [by apply Exists_exists|].
    exfalso. apply E, Hz. intros j x Hx Hk. apply dec_stable. intros Hn.
    apply Hno, Exists_exists. exists x. split; [by eapply list_elem_of_lookup_2|done].
Qed.

(** [validate] accepts exactly the well formed handoffs: right version, a
    direct map, a memory map sorted by base whose usable regions do not overlap
    and hold at least one byte. On any map of in-range regions it returns
    without an arithmetic panic. *)
Theorem validate_exact h :
  Forall region_ok (memory_map h) →
  ∃ r, Handoff.validate h = Done r ∧
    (r = Ok tt ↔ version h = HANDOFF_VERSION ∧ memory_map h ≠ [] ∧ hhdm_base h ≠ 0 ∧
       map_sorted (memory_map h) ∧ usable_disjoint (memory_map h) ∧
       ∃ r, r ∈ memory_map h ∧ kind r = Usable ∧ length_ r ≠ 0).
Proof. apply validate_spec. Qed.

Definition two_regions : Handoff :=
  MkHandoff 4 [MkMemoryRegion 4096 8192 Usable; MkMemoryRegion 65536 4096 BootloaderReclaimable;
               MkMemoryRegion 1048576 40960 Usable] (2 ^ 63).

Lemma two_regions_ok : Forall region_ok (memory_map two_regions).
Proof. repeat constructor; simpl; lia. Qed.

Lemma validate_exact_witness :
  ∃ r, Handoff.validate two_regions = Done r ∧
    (r = Ok tt ↔ version two_regions = HANDOFF_VERSION ∧ memory_map two_regions ≠ [] ∧
       hhdm_base two_regions ≠ 0 ∧ map_sorted (memory_map two_regions) ∧
       usable_disjoint (memory_map two_regions) ∧
       ∃ r, r ∈ memory_map two_regions ∧ kind r = Usable ∧ length_ r ≠ 0).
Proof. exact (validate_exact two_regions two_regions_ok). Defined.
