(* ===== verification/Bump.v ===== *)
(** * The boot-time bump allocator

    Models src/mm/src/bump.rs over the memory map of
    src/boot/handoff/src/lib.rs.  The allocator walks forward through the
    usable regions and never reuses; [consumed] records what it handed out,
    for the buddy allocator to exclude. *)
From stdpp Require Import prelude numbers list sorting.
From S2P Require Import Prelude Handoff.
Open Scope Z_scope.
Set Warnings "-clear-no-such-hyp".

Definition FRAME_SIZE : Z := 4096.
Definition MAX_CONSUMED_RANGES : nat := 16.

Record BumpAllocator : Type := MkBump {
  regions : list MemoryRegion;
  region : nat;
  next : Z;
  allocated : Z;
  consumed : list (Z * Z);
  consumed_count : nat
}.

Inductive BumpError : Type := BumpOutOfMemory.

Module Bump.

(** [!(alignment - 1)] on [u64]. *)
Definition align_mask (alignment : Z) : Z := Z.lxor (2 ^ 64 - 1) (alignment - 1).

Definition align_up (value alignment : Z) : outcome Z :=
  s ← add_checked 64 value alignment;
  t ← sub_checked 64 s 1;
  Done (Z.land t (align_mask alignment)).

Definition align_down (value alignment : Z) : Z := Z.land value (align_mask alignment).

Definition new (memory_map : list MemoryRegion) : BumpAllocator :=
  MkBump memory_map 0 0 0 (replicate MAX_CONSUMED_RANGES (0, 0)) 0.

(** The [while] loop of [advance_to_usable], one region per unit of fuel. *)
Fixpoint advance_loop (fuel : nat) (self : BumpAllocator) : outcome BumpAllocator :=
  match fuel with
  | O => OutOfFuel
  | S fuel' =>
      match regions self !! region self with
      | None => Done self
      | Some r =>
          let skip :=
            advance_loop fuel' (MkBump (regions self) (S (region self)) 0 (allocated self)
                                  (consumed self) (consumed_count self)) in
          if bool_decide (kind r = Usable) then
            start ← align_up (base r) FRAME_SIZE;
            let next' := if next self <? start then start else next self in
            fits ← add_checked 64 next' FRAME_SIZE;
            e ← end_ r;
            if fits <=? e
            then Done (MkBump (regions self) (region self) next' (allocated self)
                         (consumed self) (consumed_count self))
            else skip
          else skip
      end
  end.

Definition advance_to_usable (self : BumpAllocator) : outcome BumpAllocator :=
  advance_loop (S (length (regions self))) self.

Definition record_consumed (self : BumpAllocator) (start end' : Z) : outcome BumpAllocator :=
  let put consumed' count' :=
    MkBump (regions self) (region self) (next self) (allocated self) consumed' count' in
  let push :=
    if decide (consumed_count self < MAX_CONSUMED_RANGES)%nat
    then Done (put (<[consumed_count self := (start, end')]> (consumed self))
                   (S (consumed_count self)))
    else
      last ← at_index (consumed self) (MAX_CONSUMED_RANGES - 1);
      Done (put (<[(MAX_CONSUMED_RANGES - 1)%nat := (last.1, end')]> (consumed self))
                (consumed_count self)) in
  if decide (0 < consumed_count self)%nat
  then
    last ← at_index (consumed self) (consumed_count self - 1);
    if last.2 =? start
    then Done (put (<[(consumed_count self - 1)%nat := (last.1, end')]> (consumed self))
                   (consumed_count self))
    else push
  else push.

(** The [loop] of [allocate_contiguous]; the region index strictly increases. *)
Fixpoint contiguous_loop (fuel : nat) (count bytes : Z) (self : BumpAllocator)
    : outcome (result Z BumpError * BumpAllocator) :=
  match fuel with
  | O => OutOfFuel
  | S fuel' =>
      self1 ← advance_to_usable self;
      match regions self1 !! region self1 with
      | None => Done (Err BumpOutOfMemory, self1)
      | Some r =>
          stop ← add_checked 64 (next self1) bytes;
          e ← end_ r;
          if stop <=? e then
            allocated' ← add_checked 64 (allocated self1) count;
            let base' := next self1 in
            self2 ← record_consumed
              (MkBump (regions self1) (region self1) stop allocated'
                 (consumed self1) (consumed_count self1)) base' stop;
            Done (Ok base', self2)
          else
            contiguous_loop fuel' count bytes
              (MkBump (regions self1) (S (region self1)) 0 (allocated self1)
                 (consumed self1) (consumed_count self1))
      end
  end.

Definition allocate_contiguous (self : BumpAllocator) (count : Z)
    : outcome (result Z BumpError * BumpAllocator) :=
  if count =? 0 then Done (Err BumpOutOfMemory, self)
  else
    bytes ← mul_checked 64 count FRAME_SIZE;
    contiguous_loop (S (S (length (regions self)))) count bytes self.

Definition allocate_frame (self : BumpAllocator) : outcome (result Z BumpError * BumpAllocator) :=
  allocate_contiguous self 1.

Definition consumed_ranges (self : BumpAllocator) : list (Z * Z) :=
  take (consumed_count self) (consumed self).

Definition allocated_frames (self : BumpAllocator) : Z := allocated self.

Definition allocated_bytes (self : BumpAllocator) : outcome Z :=
  mul_checked 64 (allocated self) FRAME_SIZE.

End Bump.

(** ** Rounding *)

Lemma land_align_mask k t :
  0 ≤ k ≤ 64 → 0 ≤ t < 2 ^ 64 → Z.land t (Bump.align_mask (2 ^ k)) = 2 ^ k * (t / 2 ^ k).
Proof.
  intros Hk Ht. unfold Bump.align_mask.
  replace (2 ^ 64 - 1) with (Z.ones 64) by reflexivity.
  replace (2 ^ k - 1) with (Z.ones k) by (rewrite Z.ones_equiv; lia).
  rewrite (Z.mul_comm (2 ^ k)), <- Z.shiftr_div_pow2, <- Z.shiftl_mul_pow2 by lia.
  apply Z.bits_inj'. intros n Hn. rewrite Z.land_spec, Z.lxor_spec, Z.shiftl_spec by lia.
  rewrite !Z.testbit_ones_nonneg by lia.
  destruct (Z.ltb_spec n k) as [Hlt|Hge].
  - rewrite (Z.testbit_neg_r _ (n - k)) by lia. destruct (Z.ltb_spec n 64); [|lia]. apply andb_false_r.
  - rewrite Z.shiftr_spec by lia. replace (n - k + k) with n by lia.
    destruct (Z.ltb_spec n 64); [apply andb_true_r|].
    rewrite (Z.bits_above_log2 t n); [done|lia|].
    destruct (decide (t = 0)) as [->|]; [simpl; lia|].
    apply (Z.lt_le_trans _ 64); [|lia]. apply Z.log2_lt_pow2; lia.
Qed.

(** [align_up] is the least multiple at or above its argument. *)
Lemma align_up_spec k v :
  0 ≤ k ≤ 63 → 0 ≤ v → v + 2 ^ k < 2 ^ 64 →
  ∃ u, Bump.align_up v (2 ^ k) = Done u ∧ u mod 2 ^ k = 0 ∧ v ≤ u < v + 2 ^ k.
Proof.
  intros Hk Hv Hb. unfold Bump.align_up, add_checked, sub_checked.
  assert (0 < 2 ^ k) by (apply Z.pow_pos_nonneg; lia).
  rewrite !checked_ok by (unfold in_width; lia). cbn [mbind outcome_bind].
  rewrite checked_ok by (unfold in_width; lia). cbn [mbind outcome_bind].
  rewrite land_align_mask by lia. eexists. split; [done|].
  split; [rewrite Z.mul_comm; apply Z.mod_mul; lia|].
  pose proof (Z.div_mod (v + 2 ^ k - 1) (2 ^ k)). pose proof (Z.mod_pos_bound (v + 2 ^ k - 1) (2 ^ k)). lia.
Qed.

(** ** The record of consumed ranges *)

Definition before (a b : Z * Z) : Prop := a.2 ≤ b.1.
Definition ascending (l : list (Z * Z)) : Prop := StronglySorted before l ∧ Forall (fun r => r.1 < r.2) l.
Definition inside (x : Z) (r : Z * Z) : Prop := r.1 ≤ x < r.2.

Lemma ascending_snoc l x :
  ascending (l ++ [x]) ↔ ascending l ∧ x.1 < x.2 ∧ ∀ y, y ∈ l → before y x.
Proof.
  unfold ascending. rewrite StronglySorted_app, Forall_app, Forall_singleton.
  setoid_rewrite list_elem_of_singleton. split.
  - intros ((Hb & ? & ?) & ? & ?). split_and!; try done. intros y Hy. by apply Hb.
  - intros ((? & ?) & ? & Hb). split_and!; try done; [intros ? ? ? ->; by apply Hb|repeat constructor].
Qed.

Record consumed_ok (b : BumpAllocator) : Prop := {
  co_len : length (consumed b) = MAX_CONSUMED_RANGES;
  co_count : (consumed_count b ≤ MAX_CONSUMED_RANGES)%nat;
  co_asc : ascending (Bump.consumed_ranges b)
}.

Definition with_consumed (b : BumpAllocator) (c : list (Z * Z)) (n : nat) : BumpAllocator :=
  MkBump (regions b) (region b) (next b) (allocated b) c n.

(** Stretching the last recorded range to a later end. *)
Lemma stretch_last b k l e :
  consumed_ok b → consumed_count b = S k → consumed b !! k = Some l → l.2 ≤ e →
  let b' := with_consumed b (<[k := (l.1, e)]> (consumed b)) (S k) in
  consumed_ok b' ∧ Bump.consumed_ranges b = take k (consumed b) ++ [l] ∧
  Bump.consumed_ranges b' = take k (consumed b) ++ [(l.1, e)].
Proof.
  intros [Hlen Hcnt Hasc] Hk Hl He b'. pose proof (lookup_lt_Some _ _ _ Hl) as Hlt.
  assert (H1 : Bump.consumed_ranges b = take k (consumed b) ++ [l])
    by (unfold Bump.consumed_ranges; rewrite Hk; by apply take_S_r).
  assert (H2 : Bump.consumed_ranges b' = take k (consumed b) ++ [(l.1, e)]).
  { unfold Bump.consumed_ranges, b'. simpl. rewrite (take_S_r _ k (l.1, e)) by by rewrite list_lookup_insert_eq.
    by rewrite take_insert_ge by lia. }
  split; [|done]. split; [unfold b'; simpl; by rewrite length_insert|unfold b'; simpl; lia|].
  rewrite H2. rewrite H1 in Hasc. apply ascending_snoc in Hasc as (? & ? & Hb).
  apply ascending_snoc. split_and!; [done|simpl; lia|done].
Qed.

(** What recording [s, e) yields: the range is appended, or the last range is
    stretched over it, which takes in nothing else unless the table is full. *)
Definition recorded (b : BumpAllocator) (s e : Z) (b' : BumpAllocator) : Prop :=
  (∃ c n, b' = with_consumed b c n) ∧ consumed_ok b' ∧
  (Bump.consumed_ranges b' = Bump.consumed_ranges b ++ [(s, e)] ∨
   ∃ c l, Bump.consumed_ranges b = c ++ [l] ∧ Bump.consumed_ranges b' = c ++ [(l.1, e)] ∧
     (l.2 = s ∨ consumed_count b' = MAX_CONSUMED_RANGES)) ∧
  (consumed_count b ≤ consumed_count b')%nat.

Lemma recorded_stretch b k l s e :
  consumed_ok b → consumed_count b = S k → consumed b !! k = Some l → s < e →
  l.2 = s ∨ consumed_count b = MAX_CONSUMED_RANGES →
  (∀ y, y ∈ Bump.consumed_ranges b → y.2 ≤ s) →
  recorded b s e (with_consumed b (<[k := (l.1, e)]> (consumed b)) (consumed_count b)).
Proof.
  intros Hok Hk Hl Hse Hor Hle. assert (Hl2 : l.2 ≤ s).
  { apply Hle. unfold Bump.consumed_ranges. rewrite Hk, (take_S_r _ _ _ Hl). set_solver. }
  destruct (stretch_last b k l e Hok Hk Hl) as (? & ? & ?); [lia|].
  rewrite Hk in Hor |- *. split_and!; [by eauto|done|right; by eauto 10|simpl; lia].
Qed.

Lemma recorded_push b s e :
  consumed_ok b → (consumed_count b < MAX_CONSUMED_RANGES)%nat → s < e →
  (∀ y, y ∈ Bump.consumed_ranges b → y.2 ≤ s) →
  recorded b s e (with_consumed b (<[consumed_count b := (s, e)]> (consumed b)) (S (consumed_count b))).
Proof.
  intros [Hlen Hcnt Hasc] Hc Hse Hle. split; [by eauto|]. set (b' := with_consumed _ _ _).
  assert (H2 : Bump.consumed_ranges b' = Bump.consumed_ranges b ++ [(s, e)]).
  { unfold Bump.consumed_ranges. simpl. rewrite (take_S_r _ _ (s, e)) by (rewrite list_lookup_insert_eq; [done|lia]).
    by rewrite take_insert_ge by lia. }
  split; [|split; [by left|simpl; lia]]. split; [simpl; by rewrite length_insert|simpl; lia|].
  rewrite H2. by apply ascending_snoc.
Qed.

Lemma record_consumed_spec b s e :
  consumed_ok b → s < e → (∀ y, y ∈ Bump.consumed_ranges b → y.2 ≤ s) →
  ∃ b', Bump.record_consumed b s e = Done b' ∧ recorded b s e b'.
Proof.
  intros Hok Hse Hle. pose proof Hok as [Hlen Hcnt Hasc]. unfold Bump.record_consumed. fold (with_consumed b).
  set (push := if decide (consumed_count b < _)%nat then _ else _).
  assert (Hpush : ∃ b', push = Done b' ∧ recorded b s e b').
  { unfold push. case_decide as Hc; [by eauto using recorded_push|].
    assert (Hk : consumed_count b = S (MAX_CONSUMED_RANGES - 1)) by (unfold MAX_CONSUMED_RANGES in *; lia).
    destruct (lookup_lt_is_Some_2 (consumed b) (MAX_CONSUMED_RANGES - 1)) as [l Hl];
      [rewrite Hlen; unfold MAX_CONSUMED_RANGES; lia|].
    rewrite (at_index_ok _ _ _ Hl). cbn [mbind outcome_bind]. eexists. split; [done|].
    apply recorded_stretch; try done. right. unfold MAX_CONSUMED_RANGES in *. lia. }
  case_decide as H0; [|done].
  destruct (lookup_lt_is_Some_2 (consumed b) (consumed_count b - 1)) as [l Hl]; [lia|].
  rewrite (at_index_ok _ _ _ Hl). cbn [mbind outcome_bind]. destruct (Z.eqb_spec (l.2) s) as [Hl2|]; [|done].
  eexists. split; [done|]. apply recorded_stretch; (done || lia || by left).
Qed.

Lemma record_consumed_regions b s e b' : Bump.record_consumed b s e = Done b' → regions b' = regions b.
Proof.
  unfold Bump.record_consumed. intros H.
  repeat (case_decide || case_match || inv_done); by simplify_eq/=.
Qed.

Lemma recorded_covers b s e b' x :
  recorded b s e b' → s < e → (∀ y, y ∈ Bump.consumed_ranges b → y.1 < y.2 ∧ y.2 ≤ s) →
  (∃ c, c ∈ Bump.consumed_ranges b ∧ inside x c) ∨ inside x (s, e) →
  ∃ c, c ∈ Bump.consumed_ranges b' ∧ inside x c.
Proof.
  intros (_ & _ & Hcr & _) Hse Hle Hx. destruct Hcr as [Hcr|(c & l & Hcr1 & Hcr2 & _)].
  - rewrite Hcr. destruct Hx as [(y & ? & ?)|?]; [exists y|exists (s, e)]; (split; [set_solver|done]).
  - rewrite Hcr1 in Hx, Hle. rewrite Hcr2. destruct (Hle l) as [Hl1 Hl2]; [set_solver|].
    destruct Hx as [(y & [Hy| ->%list_elem_of_singleton]%elem_of_app & Hin)|Hin]; [exists y|exists (l.1, e)..];
      (split; [set_solver|]); unfold inside in *; simpl in *; [done|lia|lia].
Qed.

(** What recording [s, e) adds: that range, and when the table is full the gap before it. *)
Lemma recorded_adds b s e b' x c :
  recorded b s e b' → c ∈ Bump.consumed_ranges b' → inside x c →
  (∃ c, c ∈ Bump.consumed_ranges b ∧ inside x c) ∨ inside x (s, e) ∨
  consumed_count b' = MAX_CONSUMED_RANGES ∧ ∃ l, l ∈ Bump.consumed_ranges b ∧ l.2 ≤ x < s.
Proof.
  intros (_ & _ & Hcr & _) Hc Hx. destruct Hcr as [Hcr|(c' & l & Hcr1 & Hcr2 & Hor)].
  - rewrite Hcr in Hc. apply elem_of_app in Hc as [Hc| ->%list_elem_of_singleton]; [left|right; by left]. by exists c.
  - rewrite Hcr2 in Hc. rewrite Hcr1. apply elem_of_app in Hc as [Hc| ->%list_elem_of_singleton]; [left; exists c; split; [set_solver|done]|].
    unfold inside in *. simpl in *. destruct (decide (x < l.2)); [left; exists l; split; [set_solver|lia]|]. destruct (decide (s ≤ x)); [right; left; lia|].
    right. right. split; [destruct Hor; [lia|done]|]. exists l. split; [set_solver|lia].
Qed.

(** ** The allocator's invariant *)

Definition PHYS_LIMIT : Z := 2 ^ 52.

(** The map [Handoff::validate] accepts, below the architectural limit. *)
Record map_ok (map : list MemoryRegion) : Prop := {
  mo_region r : r ∈ map → 0 ≤ base r ∧ 0 ≤ length_ r ∧ base r + length_ r ≤ PHYS_LIMIT;
  mo_disjoint : usable_disjoint map
}.

(** Everything still to be handed out lies at or above [x]. *)
Definition clear (b : BumpAllocator) (x : Z) : Prop :=
  (next b ≠ 0 → x ≤ next b) ∧
  ∀ j r, regions b !! j = Some r → kind r = Usable →
    (region b < j)%nat ∨ j = region b ∧ next b = 0 → x ≤ base r.

Definition bytes_of (H : list (Z * Z)) : Z := foldr (fun r acc => r.2 - r.1 + acc) 0 H.

(** [H] lists the ranges handed out so far, oldest first. *)
Record bump_inv (b : BumpAllocator) (H : list (Z * Z)) : Prop := {
  bi_map : map_ok (regions b);
  bi_next : 0 ≤ next b ≤ PHYS_LIMIT ∧ next b mod FRAME_SIZE = 0;
  bi_asc : ascending H;
  bi_clear r : r ∈ H → clear b r.2;
  bi_consumed : consumed_ok b;
  bi_consumed_clear r : r ∈ Bump.consumed_ranges b → clear b r.2;
  bi_covers x r : r ∈ H → inside x r → ∃ c, c ∈ Bump.consumed_ranges b ∧ inside x c;
  bi_gap x c : c ∈ Bump.consumed_ranges b → inside x c → (∃ r, r ∈ H ∧ inside x r) ∨
    consumed_count b = MAX_CONSUMED_RANGES ∧ ∃ r r', r ∈ H ∧ r' ∈ H ∧ r.2 ≤ x < r'.1;
  bi_total : ∃ top, clear b top ∧ 0 ≤ bytes_of H ≤ top ∧ top ≤ PHYS_LIMIT;
  bi_count : allocated b * FRAME_SIZE = bytes_of H
}.

(** Moving forward: the position changes, nothing else, and what was clear
    stays clear. *)
Definition moved (b b' : BumpAllocator) : Prop :=
  ∃ k n, b' = MkBump (regions b) k n (allocated b) (consumed b) (consumed_count b) ∧
    0 ≤ n ≤ PHYS_LIMIT ∧ n mod FRAME_SIZE = 0 ∧ (region b ≤ k)%nat ∧ (∀ x, clear b x → clear b' x).

Lemma moved_inv b b' H : moved b b' → bump_inv b H → bump_inv b' H.
Proof.
  intros (k & n & -> & Hn & Hm & Hk & Hc) [Hmap Hnext Hasc Hcl [Hc1 Hc2 Hc3] Hcc Hcov Hgap (top & Ht & Htb) Hcnt].
  split; simpl; eauto. by split.
Qed.

Lemma moved_trans b1 b2 b3 : moved b1 b2 → moved b2 b3 → moved b1 b3.
Proof.
  intros (k & n & -> & Hn & Hm & Hk & Hc) (k' & n' & -> & Hn' & Hm' & Hk' & Hc').
  exists k', n'. simpl in *. split_and!; [done|lia|lia|done|lia|]. eauto.
Qed.

Lemma moved_refl b : 0 ≤ next b ≤ PHYS_LIMIT ∧ next b mod FRAME_SIZE = 0 → moved b b.
Proof. intros [? ?]. exists (region b), (next b). split_and!; try done; try lia. by destruct b. Qed.

(** Skipping the rest of a region. *)
Lemma moved_skip b :
  moved b (MkBump (regions b) (S (region b)) 0 (allocated b) (consumed b) (consumed_count b)).
Proof.
  exists (S (region b)), 0. unfold PHYS_LIMIT. split_and!; try done; try lia.
  intros x [_ Hx]. split; simpl; [done|]. intros j r Hr Hk Hj. apply (Hx j r Hr Hk). lia.
Qed.

(** Entering a usable region at [n]. *)
Lemma moved_enter b r n :
  regions b !! region b = Some r → kind r = Usable → base r ≤ n → 0 ≤ next b ≤ n →
  0 ≤ n ≤ PHYS_LIMIT → n mod FRAME_SIZE = 0 →
  moved b (MkBump (regions b) (region b) n (allocated b) (consumed b) (consumed_count b)).
Proof.
  intros Hr Hk Hb Hn Hl Hm. exists (region b), n. split_and!; try done; try lia.
  intros x [Hx1 Hx2]. split; simpl.
  - intros _. destruct (decide (next b = 0)) as [H0|H0]; [|specialize (Hx1 H0); lia].
    specialize (Hx2 _ _ Hr Hk). lia.
  - intros j r' Hr' Hk' Hj. apply (Hx2 j r' Hr' Hk'). destruct Hj as [?|[-> ->]]; [by left|].
    right. split; [done|]. destruct (decide (next b = 0)); lia.
Qed.

(** A position from which at least one frame can be handed out. *)
Definition positioned (b : BumpAllocator) (r : MemoryRegion) : Prop :=
  regions b !! region b = Some r ∧ kind r = Usable ∧ base r ≤ next b ∧
  next b + FRAME_SIZE ≤ base r + length_ r.

(** A run of [n] bytes at [u] the allocator has not passed yet. *)
Definition available (b : BumpAllocator) (u n : Z) : Prop :=
  ∃ j r, regions b !! j = Some r ∧ kind r = Usable ∧ (region b ≤ j)%nat ∧
    u mod FRAME_SIZE = 0 ∧ base r ≤ u ∧ (j = region b → next b ≤ u) ∧ u + n ≤ base r + length_ r.

Lemma available_skip b u n :
  (∀ r, regions b !! region b = Some r → kind r = Usable → u mod FRAME_SIZE = 0 → base r ≤ u → next b ≤ u →
    base r + length_ r < u + n) →
  (∀ r, r ∈ regions b → 0 ≤ base r) →
  available b u n →
  available (MkBump (regions b) (S (region b)) 0 (allocated b) (consumed b) (consumed_count b)) u n.
Proof.
  intros Hno Hpos (j & r & Hr & Hk & Hj & Hu & Hb & Hn & He).
  destruct (decide (j = region b)) as [->|Hne]; [specialize (Hno r Hr Hk Hu Hb (Hn eq_refl)); lia|].
  exists j, r. split_and!; simpl; try done; try lia. intros _.
  specialize (Hpos r (list_elem_of_lookup_2 _ _ _ Hr)). lia.
Qed.

(** A multiple of the frame size at or above [v] is at or above [v] rounded up. *)
Lemma aligned_above v u w :
  u mod FRAME_SIZE = 0 → w mod FRAME_SIZE = 0 → u < v + FRAME_SIZE → v ≤ w → u ≤ w.
Proof.
  intros Hu Hw Hlt Hle. unfold FRAME_SIZE in *.
  pose proof (Z.div_mod u 4096). pose proof (Z.div_mod w 4096). lia.
Qed.

Lemma advance_loop_spec fuel : ∀ b,
  map_ok (regions b) → 0 ≤ next b ≤ PHYS_LIMIT ∧ next b mod FRAME_SIZE = 0 →
  (length (regions b) - region b < fuel)%nat →
  ∃ b', Bump.advance_loop fuel b = Done b' ∧ moved b b' ∧
    (regions b' !! region b' = None ∨ ∃ r, positioned b' r) ∧
    (∀ u n, FRAME_SIZE ≤ n → available b u n → available b' u n).
Proof.
  induction fuel as [|fuel IH]; intros b Hmap Hn Hf; [lia|]. simpl.
  destruct (regions b !! region b) as [r|] eqn:Hr; [|eexists; split; [done|]; split_and!; [by apply moved_refl|by left|done]].
  set (b1 := MkBump _ (S (region b)) 0 _ _ _).
  assert (Hskip : (∀ u n, FRAME_SIZE ≤ n → available b u n → available b1 u n) →
    ∃ b', Bump.advance_loop fuel b1 = Done b' ∧ moved b b' ∧
    (regions b' !! region b' = None ∨ ∃ r, positioned b' r) ∧
    (∀ u n, FRAME_SIZE ≤ n → available b u n → available b' u n)).
  { intros Hav. destruct (IH b1) as (b' & He & Hm & Hp & Ha); simpl; [done|done| |].
    - apply lookup_lt_Some in Hr. lia.
    - exists b'. split_and!; try done; [|by eauto]. eapply moved_trans; [apply moved_skip|done]. }
  assert (Hpos : ∀ x, x ∈ regions b → 0 ≤ base x) by (intros x Hx; by apply (mo_region _ Hmap)).
  destruct (decide (kind r = Usable)) as [Hk|Hk]; [rewrite bool_decide_true by done|rewrite bool_decide_false by done].
  2: { apply Hskip. intros u n Hn1. apply available_skip; [|done]. intros r' Hr' Hk'. by simplify_eq. }
  destruct (mo_region _ Hmap r) as (Hb & Hl & He); [by eapply list_elem_of_lookup_2|]. unfold PHYS_LIMIT in *.
  destruct (align_up_spec 12 (base r)) as (u & Hu & Hum & Hur); [lia|done|lia|].
  change (2 ^ 12) with FRAME_SIZE in *. rewrite Hu. cbn [mbind outcome_bind].
  set (n := if next b <? u then u else next b).
  assert (Hnb : next b ≤ n ∧ u ≤ n ∧ n < 2 ^ 53 ∧ n mod FRAME_SIZE = 0).
  { unfold n, FRAME_SIZE in *. destruct (Z.ltb_spec (next b) u); lia. }
  unfold add_checked. rewrite checked_ok by (unfold in_width, FRAME_SIZE in *; lia). cbn [mbind outcome_bind].
  rewrite end_ok by (split_and!; lia). cbn [mbind outcome_bind].
  destruct (Z.leb_spec (n + FRAME_SIZE) (base r + length_ r)) as [Hfit|Hnofit].
  2: { apply Hskip. intros w m Hm1. apply available_skip; [|done]. intros r' Hr' _ Hw1 Hw2 Hw3. assert (r' = r) as -> by congruence.
    pose proof (aligned_above (base r) u w Hum Hw1 (proj2 Hur) Hw2).
    assert (n ≤ w) by (unfold n; destruct (Z.ltb_spec (next b) u); lia). lia. }
  eexists. split; [done|]. split_and!.
  - apply (moved_enter b r); try done; unfold PHYS_LIMIT, FRAME_SIZE in *; lia.
  - right. exists r. split_and!; simpl; (done || lia).
  - intros w m Hm1 (j & r' & Hr' & Hk' & Hj & Hw1 & Hw2 & Hw3 & Hw4).
    exists j, r'. split_and!; simpl; try done. intros ->. assert (r' = r) as -> by congruence.
    pose proof (aligned_above (base r) u w Hum Hw1 (proj2 Hur) Hw2).
    unfold n. specialize (Hw3 eq_refl). destruct (Z.ltb_spec (next b) u); lia.
Qed.

Lemma advance_spec b H :
  bump_inv b H →
  ∃ b', Bump.advance_to_usable b = Done b' ∧ moved b b' ∧
    (regions b' !! region b' = None ∨ ∃ r, positioned b' r) ∧
    (∀ u n, FRAME_SIZE ≤ n → available b u n → available b' u n).
Proof.
  intros Hi. apply advance_loop_spec; [apply Hi|apply Hi|lia].
Qed.

Lemma bytes_of_snoc H r : bytes_of (H ++ [r]) = bytes_of H + (r.2 - r.1).
Proof. induction H as [|x H IH]; simpl; lia. Qed.

(** The gap of the invariant, once [s, e) is handed out too. *)
Lemma gap_grows b b' H s e x : s < e →
  (∀ x c, c ∈ Bump.consumed_ranges b → inside x c → (∃ r, r ∈ H ∧ inside x r) ∨ consumed_count b = MAX_CONSUMED_RANGES ∧ ∃ r r', r ∈ H ∧ r' ∈ H ∧ r.2 ≤ x < r'.1) →
  ascending (Bump.consumed_ranges b) → (consumed_count b ≤ consumed_count b')%nat → (consumed_count b' ≤ MAX_CONSUMED_RANGES)%nat →
  (∃ c, c ∈ Bump.consumed_ranges b ∧ inside x c) ∨ inside x (s, e) ∨ consumed_count b' = MAX_CONSUMED_RANGES ∧ (∃ l, l ∈ Bump.consumed_ranges b ∧ l.2 ≤ x < s) →
  (∃ r, r ∈ H ++ [(s, e)] ∧ inside x r) ∨ consumed_count b' = MAX_CONSUMED_RANGES ∧ ∃ r r', r ∈ H ++ [(s, e)] ∧ r' ∈ H ++ [(s, e)] ∧ r.2 ≤ x < r'.1.
Proof.
  intros Hse Hgap [_ Hpos] Hle Hmax [(c & Hc & Hx)|[Hx|(Hfull & l & Hl & Hx)]].
  - destruct (Hgap x c Hc Hx) as [(r & Hr & Hin)|(Hf & r & r' & Hr & Hr' & Hin)]; [left; exists r; split; [set_solver|done]|].
    right. split; [lia|]. exists r, r'. split_and!; [set_solver|set_solver|lia..].
  - left. exists (s, e). split; [set_solver|done].
  - rewrite Forall_forall in Hpos. specialize (Hpos l Hl). assert (Hnew : (s, e) ∈ H ++ [(s, e)]) by set_solver.
    destruct (Hgap (l.2 - 1) l Hl ltac:(unfold inside; lia)) as [(r & Hr & Hin)|(_ & r & r' & Hr & _ & Hin)].
    + destruct (decide (x < r.2)); [left; exists r; split; [set_solver|unfold inside in *; lia]|]. right. split; [done|]. exists r, (s, e). split_and!; [set_solver|done|lia|simpl; lia].
    + right. split; [done|]. exists r, (s, e). split_and!; [set_solver|done|lia|simpl; lia].
Qed.

(** Taking [n] bytes at the current position. *)
Lemma take_inv b H r n :
  bump_inv b H → positioned b r → 0 < n → n mod FRAME_SIZE = 0 →
  next b + n ≤ base r + length_ r →
  let b1 := MkBump (regions b) (region b) (next b + n) (allocated b + n / FRAME_SIZE)
              (consumed b) (consumed_count b) in
  ∃ b', Bump.record_consumed b1 (next b) (next b + n) = Done b' ∧
    bump_inv b' (H ++ [(next b, next b + n)]) ∧ (∀ h, h ∈ H → h.2 ≤ next b).
Proof.
  intros [Hmap Hnext Hasc Hcl Hco Hcc Hcov Hgap (top & Ht & Htb) Hcnt] (Hr & Hk & Hbr & Hfit) Hn Hnm Hend b1.
  destruct (mo_region _ Hmap r) as (Hb & Hl & He); [by eapply list_elem_of_lookup_2|].
  assert (Hle : ∀ x, clear b x → x ≤ next b).
  { intros x [Hx1 Hx2]. destruct (decide (next b = 0)) as [H0|H0]; [|by apply Hx1].
    specialize (Hx2 _ _ Hr Hk). lia. }
  assert (Hclr : ∀ x, x ≤ next b + n → clear b1 x).
  { intros x Hx. split; simpl; [done|]. intros j r' Hr' Hk' Hj.
    assert (Hlt : (region b < j)%nat) by lia.
    pose proof (mo_disjoint _ Hmap (region b) j r r' Hlt Hr Hr' Hk Hk'). lia. }
  destruct (record_consumed_spec b1 (next b) (next b + n)) as (b' & Hrec & Hrd).
  { destruct Hco. by split. } { lia. } { intros y Hy. by apply Hle, Hcc. }
  eexists. split; [done|]. split; [|intros h Hh; by apply Hle, Hcl].
  assert (Hcov' := fun x => recorded_covers b1 _ _ b' x Hrd).
  assert (Hadds := fun x c => recorded_adds b1 _ _ b' x c Hrd).
  destruct Hrd as ((c & m & ->) & Hco' & Hcr & Hcount).
  change (Bump.consumed_ranges b1) with (Bump.consumed_ranges b) in Hcr.
  split; simpl; try done.
  - split; [unfold PHYS_LIMIT in *; lia|]. rewrite Zplus_mod, Hnm. destruct Hnext as [_ ->]. done.
  - apply ascending_snoc. split_and!; [done|simpl; lia|]. intros h Hh. by apply Hle, Hcl.
  - intros h [Hh| ->%list_elem_of_singleton]%elem_of_app; apply Hclr; simpl; [|lia].
    specialize (Hle _ (Hcl _ Hh)). lia.
  - intros h Hh. apply Hclr. destruct Hcr as [Hcr|(c' & l & Hcr1 & Hcr2 & _)].
    + rewrite Hcr in Hh. apply elem_of_app in Hh as [Hh| ->%list_elem_of_singleton]; simpl; [|lia].
      specialize (Hle _ (Hcc _ Hh)). lia.
    + rewrite Hcr2 in Hh. apply elem_of_app in Hh as [Hh| ->%list_elem_of_singleton]; simpl; [|lia].
      assert (Hh' : h ∈ Bump.consumed_ranges b) by (rewrite Hcr1; set_solver).
      specialize (Hle _ (Hcc _ Hh')). lia.
  - intros x h [Hh| ->%list_elem_of_singleton]%elem_of_app Hin; apply Hcov'; try lia.
    + intros y Hy. split; [|by apply Hle, Hcc]. destruct Hco as [_ _ [_ Hf]]. rewrite Forall_forall in Hf. by apply Hf.
    + left. by eapply Hcov.
    + intros y Hy. split; [|by apply Hle, Hcc]. destruct Hco as [_ _ [_ Hf]]. rewrite Forall_forall in Hf. by apply Hf.
    + by right.
  - intros x k Hin Hx. apply (gap_grows b (with_consumed b1 c m) H (next b) (next b + n) x); [lia|exact Hgap|exact (co_asc _ Hco)|exact Hcount|exact (co_count _ Hco')|by eapply Hadds].
  - exists (next b + n). split; [by apply Hclr|]. rewrite bytes_of_snoc. simpl.
    specialize (Hle _ Ht). lia.
  - rewrite bytes_of_snoc. simpl. unfold FRAME_SIZE in *. pose proof (Z.div_mod n 4096). lia.
Qed.

Lemma contiguous_loop_spec fuel count : ∀ b H,
  bump_inv b H → 0 < count ≤ 2 ^ 40 → (length (regions b) - region b < fuel)%nat →
  ∃ r b', Bump.contiguous_loop fuel count (count * FRAME_SIZE) b = Done (r, b') ∧
    match r with
    | Ok p => p mod FRAME_SIZE = 0 ∧
        (∃ rg, rg ∈ regions b ∧ kind rg = Usable ∧ base rg ≤ p ∧ p + count * FRAME_SIZE ≤ base rg + length_ rg) ∧
        (∀ h, h ∈ H → h.2 ≤ p) ∧ bump_inv b' (H ++ [(p, p + count * FRAME_SIZE)])
    | Err e => (∀ u, ¬ available b u (count * FRAME_SIZE)) ∧ bump_inv b' H
    end ∧ regions b' = regions b.
Proof.
  induction fuel as [|fuel IH]; intros b H Hi Hc Hf; [lia|]. cbn [Bump.contiguous_loop].
  destruct (advance_spec b H Hi) as (b1 & -> & Hm & Hp & Hav). cbn [mbind outcome_bind].
  pose proof (moved_inv _ _ _ Hm Hi) as Hi1.
  assert (Hreg : regions b1 = regions b ∧ (region b ≤ region b1)%nat)
    by (destruct Hm as (k & n & -> & _ & _ & ? & _); done).
  destruct Hreg as [Hreg Hge]. assert (Hbytes : FRAME_SIZE ≤ count * FRAME_SIZE) by (unfold FRAME_SIZE; lia).
  destruct Hp as [Hnone|(rg & Hpos)].
  { rewrite Hnone. eexists _, _. split; [done|]. split_and!; [|done|done].
    intros u (j & r & Hr & _ & Hj & _)%Hav; [|done].
    apply lookup_ge_None in Hnone. apply lookup_lt_Some in Hr. lia. }
  pose proof Hpos as (Hr & Hk & Hb & _). rewrite Hr.
  destruct (mo_region _ (bi_map _ _ Hi1) rg) as (Hb0 & Hl & He); [by eapply list_elem_of_lookup_2|].
  destruct (bi_next _ _ Hi1) as [Hn1 Hn2]. unfold PHYS_LIMIT in *.
  unfold add_checked. rewrite (checked_ok 64 (next b1 + _)) by (unfold in_width, FRAME_SIZE; lia). cbn [mbind outcome_bind].
  rewrite end_ok by (split_and!; lia). cbn [mbind outcome_bind].
  destruct (Z.leb_spec (next b1 + count * FRAME_SIZE) (base rg + length_ rg)) as [Hfit|Hno].
  - assert (Hdiv : count * FRAME_SIZE / FRAME_SIZE = count) by (apply Z.div_mul; done).
    destruct (take_inv b1 H rg (count * FRAME_SIZE) Hi1 Hpos) as (b2 & Hrec & Hi2 & Hh);
      [unfold FRAME_SIZE; lia|by apply Z.mod_mul|done|]. rewrite Hdiv in Hrec.
    destruct (bi_total _ _ Hi1) as (top & _ & Htb & Htop). pose proof (bi_count _ _ Hi1). unfold PHYS_LIMIT in *.
    unfold add_checked. rewrite checked_ok by (unfold in_width, FRAME_SIZE in *; lia). cbn [mbind outcome_bind].
    rewrite Hrec. cbn [mbind outcome_bind]. eexists _, _. split; [done|].
    assert (Hreg2 : regions b2 = regions b).
    { apply record_consumed_regions in Hrec. by rewrite Hrec. }
    split_and!; try done. exists rg. split_and!; try done. rewrite <- Hreg. by eapply list_elem_of_lookup_2.
  - set (b2 := MkBump _ _ _ _ _ _).
    destruct (IH b2 H) as (r & b' & He' & Hres & Hreg'); [by eapply moved_inv; [apply moved_skip|]|done| |].
    { apply lookup_lt_Some in Hr. simpl. rewrite Hreg in *. lia. }
    exists r, b'. split; [done|]. simpl in Hreg', Hres. rewrite Hreg in *. split; [|done].
    destruct r as [p|e]; [done|]. destruct Hres as [Hna Hinv]. split; [|done]. intros u Hu. apply (Hna u).
    apply available_skip; [| |by apply Hav].
    + intros r' Hr' _ _ _ Hu'. assert (r' = rg) as -> by congruence. lia.
    + intros x Hx. by apply (mo_region _ (bi_map _ _ Hi1)).
Qed.

Lemma allocate_contiguous_spec b H count :
  bump_inv b H → 0 ≤ count ≤ 2 ^ 40 →
  ∃ r b', Bump.allocate_contiguous b count = Done (r, b') ∧
    match r with
    | Ok p => p mod FRAME_SIZE = 0 ∧
        (∃ rg, rg ∈ regions b ∧ kind rg = Usable ∧ base rg ≤ p ∧ p + count * FRAME_SIZE ≤ base rg + length_ rg) ∧
        (∀ h, h ∈ H → h.2 ≤ p) ∧ bump_inv b' (H ++ [(p, p + count * FRAME_SIZE)])
    | Err e => (count ≠ 0 → ∀ u, ¬ available b u (count * FRAME_SIZE)) ∧ bump_inv b' H
    end ∧ regions b' = regions b.
Proof.
  intros Hi Hc. unfold Bump.allocate_contiguous. destruct (Z.eqb_spec count 0) as [->|Hn].
  { eexists _, _. split; [done|]. split; [|done]. split; [done|done]. }
  unfold mul_checked. rewrite checked_ok by (unfold in_width, FRAME_SIZE; lia). cbn [mbind outcome_bind].
  destruct (contiguous_loop_spec (S (S (length (regions b)))) count b H Hi) as (r & b' & He & Hr & Hreg); [lia|lia|].
  exists r, b'. split; [done|]. split; [|done]. destruct r; [done|]. naive_solver.
Qed.

Lemma new_bump_inv map : map_ok map → bump_inv (Bump.new map) [].
Proof.
  intros Hm. split; simpl; try done; try (by intros ? ?%elem_of_nil); try (by intros ? ? ?%elem_of_nil).
  - split; constructor.
  - split; [apply length_replicate|simpl; lia|split; constructor].
  - exists 0. unfold PHYS_LIMIT. split; [|lia]. split; [done|]. intros j r Hr _ _.
    by apply (mo_region _ Hm), list_elem_of_lookup_2 with j.
Qed.

(** A sequence of requests, collecting the ranges handed out. *)
Fixpoint requests (b : BumpAllocator) (counts : list Z) : outcome (list (Z * Z) * BumpAllocator) :=
  match counts with
  | [] => Done ([], b)
  | n :: counts' =>
      '(r, b) ← Bump.allocate_contiguous b n;
      '(l, b) ← requests b counts';
      match r with
      | Ok p => Done ((p, p + n * FRAME_SIZE) :: l, b)
      | Err _ => Done (l, b)
      end
  end.

(** A whole number of frames inside a usable region. *)
Definition usable_frames (map : list MemoryRegion) (r : Z * Z) : Prop :=
  r.1 mod FRAME_SIZE = 0 ∧ r.2 mod FRAME_SIZE = 0 ∧
  ∃ rg, rg ∈ map ∧ kind rg = Usable ∧ base rg ≤ r.1 ∧ r.2 ≤ base rg + length_ rg.

Lemma requests_spec counts : ∀ b H,
  bump_inv b H → Forall (fun n => 0 ≤ n ≤ 2 ^ 40) counts →
  ∃ l b', requests b counts = Done (l, b') ∧ bump_inv b' (H ++ l) ∧
    Forall (usable_frames (regions b)) l ∧ regions b' = regions b.
Proof.
  induction counts as [|n counts IH]; intros b H Hi Hn; simpl.
  { exists [], b. by rewrite app_nil_r. }
  apply Forall_cons in Hn as [Hn Hns].
  destruct (allocate_contiguous_spec b H n Hi Hn) as (r & b1 & -> & Hr & Hreg). cbn [mbind outcome_bind].
  destruct r as [p|e].
  - destruct Hr as (Hp & Hrg & _ & Hi1).
    destruct (IH b1 _ Hi1 Hns) as (l & b' & -> & Hi' & Hl & Hreg'). cbn [mbind outcome_bind].
    eexists _, _. split; [done|]. rewrite <- app_assoc in Hi'. rewrite Hreg in *.
    split_and!; [done| |done]. constructor; [|done]. split; [done|]. split; [|done].
    simpl. by rewrite Z.mod_add.
  - destruct Hr as [_ Hi1]. destruct (IH b1 _ Hi1 Hns) as (l & b' & -> & Hi' & Hl & Hreg').
    cbn [mbind outcome_bind]. exists l, b'. rewrite Hreg in *. by split_and!.
Qed.

(** The boot allocator never reuses and never strays: whatever the sequence
    of requests on a map the handoff accepts, it runs without a panic, and the
    ranges it returns are whole frames inside usable regions, in ascending
    order and therefore pairwise disjoint. *)
Theorem bump_ranges_disjoint_and_usable map counts :
  map_ok map → Forall (fun n => 0 ≤ n ≤ 2 ^ 40) counts →
  ∃ l b', requests (Bump.new map) counts = Done (l, b') ∧
    ascending l ∧ Forall (usable_frames map) l.
Proof.
  intros Hm Hn. destruct (requests_spec counts _ [] (new_bump_inv map Hm) Hn) as (l & b' & He & Hi & Hl & _).
  exists l, b'. split_and!; [done|apply Hi|done].
Qed.

(** The record handed to the buddy allocator is complete: after any
    sequence of requests, [consumed_ranges] is ascending and contains every
    byte handed out, also once its sixteen entries are full, and
    [allocated_bytes] is their exact total. *)
Theorem bump_consumed_covers map counts :
  map_ok map → Forall (fun n => 0 ≤ n ≤ 2 ^ 40) counts →
  ∃ l b', requests (Bump.new map) counts = Done (l, b') ∧
    ascending (Bump.consumed_ranges b') ∧
    (∀ x r, r ∈ l → inside x r → ∃ c, c ∈ Bump.consumed_ranges b' ∧ inside x c) ∧
    Bump.allocated_bytes b' = Done (bytes_of l).
Proof.
  intros Hm Hn. destruct (requests_spec counts _ [] (new_bump_inv map Hm) Hn) as (l & b' & He & Hi & Hl & _).
  exists l, b'. simpl in Hi. split_and!; [done|apply Hi|apply Hi|].
  unfold Bump.allocated_bytes, mul_checked. rewrite (bi_count _ _ Hi).
  destruct (bi_total _ _ Hi) as (top & _ & ? & ?). apply checked_ok. unfold in_width, PHYS_LIMIT in *. lia.
Qed.

(** A refusal is honest: on any reachable state, [allocate_contiguous]
    answers [OutOfMemory] for a non-empty request only if no frame-aligned run
    of that size is left in the usable memory it has not passed. *)
Theorem bump_out_of_memory_complete b H count b' e :
  bump_inv b H → 0 < count ≤ 2 ^ 40 →
  Bump.allocate_contiguous b count = Done (Err e, b') →
  e = BumpOutOfMemory ∧ ∀ u, ¬ available b u (count * FRAME_SIZE).
Proof.
  intros Hi Hc He. destruct (allocate_contiguous_spec b H count Hi) as (r & b1 & He1 & Hr & _); [lia|].
  rewrite He in He1. injection He1 as <- <-. destruct e. split; [done|]. exact (proj1 Hr ltac:(lia)).
Qed.

Lemma two_regions_map_ok : map_ok (memory_map two_regions).
Proof.
  split.
  - intros r Hr. repeat (apply elem_of_cons in Hr as [->|Hr]; [unfold PHYS_LIMIT; simpl; lia|]).
    by apply elem_of_nil in Hr.
  - intros [|[|[|i]]] [|[|[|j]]] r r' Hij Hr Hr'; simpl in *; simplify_eq/=; try lia; try done.
Qed.

Lemma bump_ranges_disjoint_and_usable_witness :
  ∃ l b', requests (Bump.new (memory_map two_regions)) [1; 3; 1] = Done (l, b') ∧
    ascending l ∧ Forall (usable_frames (memory_map two_regions)) l.
Proof.
  apply (bump_ranges_disjoint_and_usable (memory_map two_regions) [1; 3; 1] two_regions_map_ok).
  repeat constructor; lia.
Defined.

Lemma bump_consumed_covers_witness :
  ∃ l b', requests (Bump.new (memory_map two_regions)) [1; 1; 3] = Done (l, b') ∧
    ascending (Bump.consumed_ranges b') ∧
    (∀ x r, r ∈ l → inside x r → ∃ c, c ∈ Bump.consumed_ranges b' ∧ inside x c) ∧
    Bump.allocated_bytes b' = Done (bytes_of l).
Proof.
  apply (bump_consumed_covers (memory_map two_regions) [1; 1; 3] two_regions_map_ok).
  repeat constructor; lia.
Defined.

Lemma bump_out_of_memory_complete_witness :
  BumpOutOfMemory = BumpOutOfMemory ∧
  ∀ u, ¬ available (Bump.new (memory_map two_regions)) u (11 * FRAME_SIZE).
Proof.
  eapply (bump_out_of_memory_complete (Bump.new (memory_map two_regions)) [] 11);
    [apply new_bump_inv, two_regions_map_ok|lia|vm_compute; reflexivity].
Defined.
