(* ===== verification/Pmm.v ===== *)
(** * The physical memory manager: a buddy allocator over a frame database

    Models src/mm/src/pmm.rs.  The free lists are doubly linked through the
    [next] and [prev] fields of the frame database itself, one list per order
    and zone. *)
From stdpp Require Import prelude numbers list gmap.
From S2P Require Import Prelude Bump.
Open Scope Z_scope.
Set Warnings "-clear-no-such-hyp".

Definition MAX_ORDER : nat := 10.
Definition ORDER_COUNT : nat := S MAX_ORDER.

(** The null of the free lists, [u32::MAX]. *)
Definition NONE : Z := 2 ^ 32 - 1.
Definition NO_OWNER : Z := 2 ^ 32 - 1.
Definition NO_OFFSET : Z := 2 ^ 16 - 1.
Definition NO_FRAME : Z := NONE.

Inductive FrameState : Type := FReserved | FFree | FAllocated.

#[global] Instance FrameState_eq_dec : EqDecision FrameState.
Proof. solve_decision. Defined.

Record SlabInfo : Type := MkSlabInfo {
  free_head : Z;
  in_use : Z;
  class : Z;
  slab_next : Z;
  slab_prev : Z
}.

Definition slab_empty : SlabInfo := MkSlabInfo NO_OFFSET 0 0 NO_FRAME NO_FRAME.

Record Frame : Type := MkFrame {
  state : FrameState;
  order : nat;
  is_head : bool;
  refcount : Z;
  owner : Z;
  next : Z;
  prev : Z;
  slab : SlabInfo
}.

Definition reserved : Frame := MkFrame FReserved 0 false 0 NO_OWNER NONE NONE slab_empty.

Inductive Zone : Type := Dma32 | Normal.

#[global] Instance Zone_eq_dec : EqDecision Zone.
Proof. solve_decision. Defined.

Definition DMA32_LIMIT_PFN : Z := 2 ^ 32 / FRAME_SIZE.

Record ZoneState : Type := MkZoneState {
  free_lists : list Z;
  free_frames_ : Z;
  managed_frames_ : Z
}.

Definition zone_new : ZoneState := MkZoneState (replicate ORDER_COUNT NONE) 0 0.

Inductive PmmError : Type :=
| OutOfMemory
| OrderTooLarge (order : nat)
| OutOfRange (pfn : Z)
| NotAllocated (pfn : Z)
| Misaligned (pfn : Z) (order : nat).

#[global] Instance PmmError_eq_dec : EqDecision PmmError.
Proof. solve_decision. Defined.

Record Pmm : Type := MkPmm { frames : list Frame; zones : list ZoneState }.

(** [1 << order], in frames. *)
Definition size_of (order : nat) : Z := 2 ^ Z.of_nat order.

(** Field updates of one frame and of one zone. *)
Definition set_frame (self : Pmm) (pfn : Z) (f : Frame) : Pmm :=
  MkPmm (<[Z.to_nat pfn := f]> (frames self)) (zones self).
Definition get_frame (self : Pmm) (pfn : Z) : outcome Frame :=
  at_index (frames self) (Z.to_nat pfn).
Definition with_state (f : Frame) (s : FrameState) : Frame :=
  MkFrame s (order f) (is_head f) (refcount f) (owner f) (next f) (prev f) (slab f).
Definition with_next (f : Frame) (n : Z) : Frame :=
  MkFrame (state f) (order f) (is_head f) (refcount f) (owner f) n (prev f) (slab f).
Definition with_prev (f : Frame) (p : Z) : Frame :=
  MkFrame (state f) (order f) (is_head f) (refcount f) (owner f) (next f) p (slab f).
Definition set_zone (self : Pmm) (z : nat) (zs : ZoneState) : Pmm :=
  MkPmm (frames self) (<[z := zs]> (zones self)).

Definition zone_of (pfn : Z) : Zone := if pfn <? DMA32_LIMIT_PFN then Dma32 else Normal.
Definition zone_index (z : Zone) : nat := match z with Dma32 => 0 | Normal => 1 end.

Module Pmm.

Definition new (frames' : list Frame) : Pmm :=
  MkPmm (replicate (length frames') reserved) (replicate 2 zone_new).

Definition total_frames (self : Pmm) : Z := Z.of_nat (length (frames self)).

Definition free_frames (self : Pmm) : outcome Z :=
  z0 ← at_index (zones self) 0; z1 ← at_index (zones self) 1;
  add_checked 64 (free_frames_ z0) (free_frames_ z1).

Definition managed_frames (self : Pmm) : outcome Z :=
  z0 ← at_index (zones self) 0; z1 ← at_index (zones self) 1;
  add_checked 64 (managed_frames_ z0) (managed_frames_ z1).

(** Links a free block of [order'] starting at [pfn] onto its free list. *)
Definition push_block (self : Pmm) (pfn : Z) (order' : nat) : outcome Pmm :=
  let zone := zone_index (zone_of pfn) in
  zs ← at_index (zones self) zone;
  head ← at_index (free_lists zs) order';
  f ← get_frame self pfn;
  let self := set_frame self pfn
    (MkFrame FFree order' true (refcount f) (owner f) head NONE (slab f)) in
  self ← (if head =? NONE then Done self
          else h ← get_frame self head; Done (set_frame self head (with_prev h pfn)));
  free' ← add_checked 64 (free_frames_ zs) (size_of order');
  Done (set_zone self zone
          (MkZoneState (<[order' := pfn]> (free_lists zs)) free' (managed_frames_ zs))).

(** Unlinks a free block from its list. *)
Definition remove_block (self : Pmm) (pfn : Z) (order' : nat) : outcome Pmm :=
  let zone := zone_index (zone_of pfn) in
  f ← get_frame self pfn;
  let n := next f in
  let p := prev f in
  self ← (if p =? NONE then
            zs ← at_index (zones self) zone;
            _ ← at_index (free_lists zs) order';
            Done (set_zone self zone
                    (MkZoneState (<[order' := n]> (free_lists zs)) (free_frames_ zs)
                       (managed_frames_ zs)))
          else g ← get_frame self p; Done (set_frame self p (with_next g n)));
  self ← (if n =? NONE then Done self
          else h ← get_frame self n; Done (set_frame self n (with_prev h p)));
  f ← get_frame self pfn;
  let self := set_frame self pfn
    (MkFrame (state f) (order f) false (refcount f) (owner f) NONE NONE (slab f)) in
  zs ← at_index (zones self) zone;
  free' ← sub_checked 64 (free_frames_ zs) (size_of order');
  Done (set_zone self zone (MkZoneState (free_lists zs) free' (managed_frames_ zs))).

(** The first non-empty list at or above [found]: the search loop. *)
Fixpoint find_order (fuel : nat) (lists : list Z) (found : nat) : outcome (option nat) :=
  match fuel with
  | O => OutOfFuel
  | S fuel' =>
      if decide (MAX_ORDER < found)%nat then Done None
      else
        h ← at_index lists found;
        if h =? NONE then find_order fuel' lists (S found) else Done (Some found)
  end.

(** The splitting loop: [n] halvings from order [target + n] down to [target]. *)
Fixpoint split_loop (n : nat) (self : Pmm) (pfn : Z) (target : nat) : outcome Pmm :=
  match n with
  | O => Done self
  | S n' =>
      let current := (target + n')%nat in
      buddy ← add_checked 32 pfn (size_of current);
      self ← push_block self buddy current;
      split_loop n' self pfn target
  end.

Definition allocate_from (self : Pmm) (order' : nat) (zone : Zone) : outcome (option Z * Pmm) :=
  let index := zone_index zone in
  zs ← at_index (zones self) index;
  found ← find_order (S ORDER_COUNT) (free_lists zs) order';
  match found with
  | None => Done (None, self)
  | Some found =>
      pfn ← at_index (free_lists zs) found;
      self ← remove_block self pfn found;
      self ← split_loop (found - order') self pfn order';
      f ← get_frame self pfn;
      Done (Some pfn,
            set_frame self pfn
              (MkFrame FAllocated order' false 1 (owner f) (next f) (prev f) (slab f)))
  end.

Definition allocate (self : Pmm) (order' : nat) (zone : Zone) : outcome (result Z PmmError * Pmm) :=
  if decide (MAX_ORDER < order')%nat then Done (Err (OrderTooLarge order'), self)
  else
    '(r, self) ← allocate_from self order' zone;
    match r with
    | Some pfn => Done (Ok pfn, self)
    | None =>
        if decide (zone = Normal) then
          '(r, self) ← allocate_from self order' Dma32;
          match r with
          | Some pfn => Done (Ok pfn, self)
          | None => Done (Err OutOfMemory, self)
          end
        else Done (Err OutOfMemory, self)
    end.

(** The coalescing loop of [free]. *)
Fixpoint coalesce (fuel : nat) (self : Pmm) (pfn : Z) (order' : nat)
    : outcome (Pmm * Z * nat) :=
  match fuel with
  | O => OutOfFuel
  | S fuel' =>
      if decide (order' < MAX_ORDER)%nat then
        let buddy := Z.lxor pfn (size_of order') in
        if Z.of_nat (length (frames self)) <=? buddy then Done (self, pfn, order')
        else
          frame ← get_frame self buddy;
          if negb (bool_decide (state frame = FFree) && is_head frame
                   && (order frame =? order')%nat)
          then Done (self, pfn, order')
          else
            let merged := Z.min pfn buddy in
            if (merged <? DMA32_LIMIT_PFN)
               && (DMA32_LIMIT_PFN <? merged + 2 * size_of order')
            then Done (self, pfn, order')
            else
              self ← remove_block self buddy order';
              coalesce fuel' self merged (S order')
      else Done (self, pfn, order')
  end.

Definition free (self : Pmm) (pfn : Z) (order' : nat) : outcome (result unit PmmError * Pmm) :=
  if decide (MAX_ORDER < order')%nat then Done (Err (OrderTooLarge order'), self)
  else if Z.of_nat (length (frames self)) <? pfn + size_of order'
  then Done (Err (OutOfRange pfn), self)
  else if negb (pfn mod size_of order' =? 0)
  then Done (Err (Misaligned pfn order'), self)
  else
    f ← get_frame self pfn;
    if negb (bool_decide (state f = FAllocated))
    then Done (Err (NotAllocated pfn), self)
    else
      let self := set_frame self pfn
        (MkFrame (state f) (order f) (is_head f) 0 NO_OWNER (next f) (prev f) (slab f)) in
      '(self, pfn, order') ← coalesce (S MAX_ORDER) self pfn order';
      self ← push_block self pfn order';
      Done (Ok tt, self).

(** One frame of the first loop of [add_free_range]. *)
Definition release_frame (self : Pmm) (pfn : Z) : outcome Pmm :=
  f ← get_frame self pfn;
  let self := set_frame self pfn
    (MkFrame FFree (order f) (is_head f) 0 (owner f) (next f) (prev f) (slab f)) in
  let zone := zone_index (zone_of pfn) in
  zs ← at_index (zones self) zone;
  m ← add_checked 64 (managed_frames_ zs) 1;
  Done (set_zone self zone (MkZoneState (free_lists zs) (free_frames_ zs) m)).

(** The largest order naturally aligned at [pfn] that fits before [end']. *)
Fixpoint fit_order (order' : nat) (pfn end' : Z) : outcome nat :=
  match order' with
  | O => Done O
  | S o =>
      if pfn mod size_of order' =? 0 then
        stop ← add_checked 32 pfn (size_of order');
        if stop <=? end' then Done order' else fit_order o pfn end'
      else fit_order o pfn end'
  end.

(** Shrinks the order until the block does not straddle the DMA32 boundary. *)
Fixpoint clip_order (order' : nat) (pfn : Z) : outcome nat :=
  match order' with
  | O => Done O
  | S o =>
      if pfn <? DMA32_LIMIT_PFN then
        stop ← add_checked 32 pfn (size_of order');
        if DMA32_LIMIT_PFN <? stop then clip_order o pfn else Done order'
      else Done order'
  end.

Fixpoint release_blocks (fuel : nat) (self : Pmm) (pfn end' : Z) : outcome Pmm :=
  match fuel with
  | O => OutOfFuel
  | S fuel' =>
      if pfn <? end' then
        order' ← fit_order MAX_ORDER pfn end';
        order' ← clip_order order' pfn;
        self ← push_block self pfn order';
        pfn ← add_checked 32 pfn (size_of order');
        release_blocks fuel' self pfn end'
      else Done self
  end.

Definition range (start end' : Z) : list Z := seqZ start (end' - start).

Definition add_free_range (self : Pmm) (start end' : Z) : outcome Pmm :=
  let end' := Z.min end' (trunc 32 (Z.of_nat (length (frames self)))) in
  if end' <=? start then Done self
  else
    self ← for_each release_frame (range start end') self;
    release_blocks (S (Z.to_nat (end' - start))) self start end'.

Definition reserve_frame (self : Pmm) (pfn : Z) : outcome Pmm :=
  f ← get_frame self pfn; Done (set_frame self pfn (with_state f FReserved)).

Definition reserve_range (self : Pmm) (start end' : Z) : outcome Pmm :=
  let end' := Z.min end' (trunc 32 (Z.of_nat (length (frames self)))) in
  for_each reserve_frame (range start end') self.

Definition frame (self : Pmm) (pfn : Z) : option Frame := frames self !! Z.to_nat pfn.

Definition slab_of (self : Pmm) (pfn : Z) : option SlabInfo := slab <$> frame self pfn.

(** A write through [slab_mut]. *)
Definition set_slab (self : Pmm) (pfn : Z) (s : SlabInfo) : Pmm :=
  match frame self pfn with
  | Some f => set_frame self pfn
      (MkFrame (state f) (order f) (is_head f) (refcount f) (owner f) (next f) (prev f) s)
  | None => self
  end.

Definition set_owner (self : Pmm) (pfn owner' : Z) : result unit PmmError * Pmm :=
  match frame self pfn with
  | Some f => (Ok tt, set_frame self pfn
      (MkFrame (state f) (order f) (is_head f) (refcount f) owner' (next f) (prev f) (slab f)))
  | None => (Err (OutOfRange pfn), self)
  end.

Inductive InvariantError : Type :=
| NotFree | NotAHead | WrongOrder | NotAligned | BadBackLink | HasCycle | CountMismatch.

(** The walk of one free list in [check_invariants]. *)
Fixpoint walk (fuel : nat) (self : Pmm) (order' : nat) (pfn previous counted : Z) (seen : nat)
    : outcome (result Z InvariantError) :=
  match fuel with
  | O => OutOfFuel
  | S fuel' =>
      if pfn =? NONE then Done (Ok counted)
      else
        f ← get_frame self pfn;
        if negb (bool_decide (state f = FFree)) then Done (Err NotFree)
        else if negb (is_head f) then Done (Err NotAHead)
        else if negb (order f =? order')%nat then Done (Err WrongOrder)
        else if negb (pfn mod size_of order' =? 0) then Done (Err NotAligned)
        else if negb (prev f =? previous) then Done (Err BadBackLink)
        else
          counted' ← add_checked 64 counted (size_of order');
          if decide (length (frames self) < S seen)%nat then Done (Err HasCycle)
          else walk fuel' self order' (next f) pfn counted' (S seen)
  end.

Fixpoint check_orders (self : Pmm) (zs : ZoneState) (orders : list nat) (counted : Z)
    : outcome (result Z InvariantError) :=
  match orders with
  | [] => Done (Ok counted)
  | o :: orders' =>
      head ← at_index (free_lists zs) o;
      r ← walk (S (S (length (frames self)))) self o head NONE counted 0;
      match r with
      | Ok counted' => check_orders self zs orders' counted'
      | Err e => Done (Err e)
      end
  end.

Definition check_zone (self : Pmm) (zone : nat) : outcome (result unit InvariantError) :=
  zs ← at_index (zones self) zone;
  r ← check_orders self zs (seq 0 ORDER_COUNT) 0;
  match r with
  | Err e => Done (Err e)
  | Ok counted =>
      if counted =? free_frames_ zs then Done (Ok tt) else Done (Err CountMismatch)
  end.

Definition check_invariants (self : Pmm) : outcome (result unit InvariantError) :=
  r ← check_zone self 0;
  match r with
  | Err e => Done (Err e)
  | Ok _ => check_zone self 1
  end.

End Pmm.

#[local] Opaque MAX_ORDER ORDER_COUNT.

(** ** Doubly linked lists

    [links nx pv p h l]: starting at [h], whose predecessor is [p], the
    forward links [nx] visit exactly [l] and end in [NONE], and the back links
    [pv] agree. *)
Fixpoint links (nx pv : Z → Z) (p h : Z) (l : list Z) : Prop :=
  match l with
  | [] => h = NONE
  | x :: l' => h = x ∧ pv x = p ∧ links nx pv x (nx x) l'
  end.

Lemma links_ext nx pv nx' pv' p h l :
  (∀ y, y ∈ l → nx' y = nx y ∧ pv' y = pv y) → links nx pv p h l → links nx' pv' p h l.
Proof.
  revert p h; induction l as [|x l IH]; intros p h He; simpl; [done|].
  intros (-> & Hp & Hl). destruct (He x) as [-> ->]; [left|].
  split_and!; try done. apply IH; [|done]. intros y Hy. apply He. by right.
Qed.

Lemma links_push nx pv nx' pv' h l x :
  links nx pv NONE h l → x ∉ l →
  nx' x = h → pv' x = NONE → (∀ y, y ∈ l → nx' y = nx y) →
  (∀ y, y ∈ l → pv' y = if decide (y = h) then x else pv y) → NoDup l →
  links nx' pv' NONE x (x :: l).
Proof.
  intros Hl Hx Hnx Hpv Hn Hp Hnd. simpl. split_and!; try done. rewrite Hnx.
  destruct l as [|y l]; [done|]. destruct Hl as (-> & _ & Hl). apply NoDup_cons in Hnd as [Hy _].
  simpl. split_and!; [done| |].
  - rewrite Hp by left. by rewrite decide_True.
  - rewrite Hn by left. eapply links_ext; [|done]. intros z Hz. split.
    + apply Hn. by right.
    + rewrite Hp by by right. rewrite decide_False; [done|]. by intros ->.
Qed.

(** The neighbours of an element of a list. *)
Lemma links_neighbours nx pv p h l1 x l2 :
  links nx pv p h (l1 ++ x :: l2) →
  (l1 = [] ∧ pv x = p ∧ h = x ∨ l1 ≠ [] ∧ pv x ∈ l1) ∧
  (l2 = [] ∧ nx x = NONE ∨ l2 ≠ [] ∧ nx x ∈ l2).
Proof.
  revert p h; induction l1 as [|a l1 IH]; intros p h; simpl.
  - intros (-> & Hp & Hl). split; [by left|]. destruct l2 as [|y l2]; [by left|].
    destruct Hl as (Hn & _). right. split; [done|]. rewrite Hn. left.
  - intros (-> & Hp & Hl). destruct (IH _ _ Hl) as [[(-> & Hpv & Hh)|[Hne Hin]] Hr].
    + split; [|done]. right. split; [done|]. rewrite Hpv. left.
    + split; [|done]. right. split; [done|]. by right.
Qed.

Lemma links_remove nx pv nx' pv' p h l1 x l2 :
  links nx pv p h (l1 ++ x :: l2) → NoDup (l1 ++ x :: l2) →
  p ∉ (l1 ++ x :: l2) → NONE ∉ (l1 ++ x :: l2) →
  (∀ y, y ∈ l1 ++ l2 → nx' y = if decide (y = pv x) then nx x else nx y) →
  (∀ y, y ∈ l1 ++ l2 → pv' y = if decide (y = nx x) then pv x else pv y) →
  links nx' pv' p (match l1 with [] => nx x | _ => h end) (l1 ++ l2).
Proof.
  revert p h; induction l1 as [|a l1 IH]; intros p h Hl Hnd Hp Hnone Hn Hv; simpl in *.
  - destruct Hl as (-> & Hpx & Hl).
    destruct l2 as [|y l2]; [done|]. destruct Hl as (Hy & Hpy & Hl).
    rewrite !NoDup_cons in Hnd. destruct Hnd as (_ & Hyl & _).
    assert (Hne : ∀ z, z ∈ y :: l2 → z ≠ pv x).
    { intros z Hz ->. apply Hp. rewrite <- Hpx. by right. }
    split_and!; [done| |].
    + rewrite Hv by left. by rewrite decide_True.
    + rewrite Hn, decide_False by (try apply Hne; left).
      eapply links_ext; [|done]. intros z Hz. split.
      * rewrite Hn, decide_False by (try apply Hne; by right). done.
      * rewrite Hv by by right. rewrite decide_False; [done|]. rewrite Hy. by intros ->.
  - destruct Hl as (-> & Hpa & Hl).
    apply NoDup_cons in Hnd as [Ha Hnd]. apply not_elem_of_cons in Hnone as [Hna Hnone].
    destruct (links_neighbours _ _ _ _ _ _ _ Hl) as [Hprev Hnext].
    split_and!; [done| |].
    + rewrite Hv by left. rewrite decide_False; [done|]. intros ->.
      destruct Hnext as [[_ He]|[_ Hin]]; [done|].
      apply Ha. apply elem_of_app. right. by right.
    + rewrite Hn by left.
      specialize (IH a (nx a) Hl Hnd Ha Hnone (fun y Hy => Hn y (list_elem_of_further _ _ _ Hy))
                    (fun y Hy => Hv y (list_elem_of_further _ _ _ Hy))).
      destruct Hprev as [(-> & Hpx & Hh)|[Hne Hin]].
      * by rewrite decide_True.
      * rewrite decide_False; [by destruct l1|]. intros ->. apply Ha. apply elem_of_app. by left.
Qed.

(** ** The linked structure

    [G z o] is the sequence of block heads on the free list of order [o] in
    zone [z]. *)
Abbreviation lists := (nat → nat → list Z).

Definition upd (G : lists) (z o : nat) (l : list Z) : lists :=
  fun z' o' => if decide (z' = z ∧ o' = o) then l else G z' o'.

Definition zix (p : Z) : nat := zone_index (zone_of p).
Definition fr (s : Pmm) (p : Z) : option Frame := frames s !! Z.to_nat p.
Definition nx (s : Pmm) (p : Z) : Z := default NONE (next <$> fr s p).
Definition pv (s : Pmm) (p : Z) : Z := default NONE (prev <$> fr s p).

(** Everything in a frame but its links. *)
Definition core (f : Frame) : FrameState * nat * bool * Z * Z * SlabInfo :=
  (state f, order f, is_head f, refcount f, owner f, slab f).

Definition list_frames (G : lists) (z : nat) (o : nat) : Z :=
  Z.of_nat (length (G z o)) * size_of o.
Definition free_total (G : lists) (z : nat) : Z :=
  foldr (fun o acc => list_frames G z o + acc) 0 (seq 0 ORDER_COUNT).

Record linked (s : Pmm) (G : lists) : Prop := {
  lk_zones : length (zones s) = 2%nat;
  lk_len : Z.of_nat (length (frames s)) ≤ 2 ^ 32 - 1024;
  lk_zone z : (z < 2)%nat → ∃ zs, zones s !! z = Some zs ∧
    length (free_lists zs) = ORDER_COUNT ∧ free_frames_ zs = free_total G z ∧
    ∀ o h, (o ≤ MAX_ORDER)%nat → free_lists zs !! o = Some h →
      links (nx s) (pv s) NONE h (G z o);
  lk_nodup z o : (z < 2)%nat → (o ≤ MAX_ORDER)%nat → NoDup (G z o);
  lk_in z o p : (z < 2)%nat → (o ≤ MAX_ORDER)%nat → p ∈ G z o →
    0 ≤ p ∧ zix p = z ∧
    ∃ f, fr s p = Some f ∧ state f = FFree ∧ is_head f = true ∧ order f = o;
  lk_head p f : 0 ≤ p → fr s p = Some f → is_head f = true →
    (order f ≤ MAX_ORDER)%nat ∧ p ∈ G (zix p) (order f)
}.

Lemma order_count_max : ORDER_COUNT = S MAX_ORDER.
Proof. reflexivity. Qed.
Lemma max_order_value : MAX_ORDER = 10%nat.
Proof. reflexivity. Qed.

Lemma size_of_pos o : 0 < size_of o.
Proof. unfold size_of. lia. Qed.
Lemma size_of_S o : size_of (S o) = 2 * size_of o.
Proof. unfold size_of. rewrite Nat2Z.inj_succ, Z.pow_succ_r; lia. Qed.
Lemma size_of_max o : (o ≤ MAX_ORDER)%nat → size_of o ≤ 1024.
Proof.
  intros Ho. rewrite max_order_value in Ho. unfold size_of.
  change 1024 with (2 ^ 10). apply Z.pow_le_mono_r; lia.
Qed.
#[local] Opaque size_of.

Lemma zix_lt p : (zix p < 2)%nat.
Proof. unfold zix. destruct (zone_of p); simpl; lia. Qed.
#[export] Hint Resolve size_of_pos zix_lt : bhaskix.

Lemma upd_same G z o l : upd G z o l z o = l.
Proof. unfold upd. by rewrite decide_True. Qed.
Lemma upd_other G z o l z' o' : (z', o') ≠ (z, o) → upd G z o l z' o' = G z' o'.
Proof. unfold upd. intros. rewrite decide_False; [done|naive_solver]. Qed.

Lemma free_total_upd_list G z o l z' os :
  NoDup os →
  foldr (fun k acc => list_frames (upd G z o l) z' k + acc) 0 os
  = foldr (fun k acc => list_frames G z' k + acc) 0 os
    + if decide (z' = z ∧ o ∈ os)
      then (Z.of_nat (length l) - Z.of_nat (length (G z o))) * size_of o else 0.
Proof.
  induction os as [|k os IH]; intros Hnd; simpl.
  { rewrite decide_False; [lia|]. intros [_ Hin]. by apply elem_of_nil in Hin. }
  apply NoDup_cons in Hnd as [Hk Hnd]. rewrite IH by done.
  unfold list_frames at 1 3. destruct (decide (z' = z)) as [->|Hz].
  - destruct (decide (o = k)) as [->|Hne].
    + rewrite upd_same, (decide_False (P := z = z ∧ k ∈ os)) by naive_solver.
      rewrite decide_True by (split; [done|left]). lia.
    + rewrite upd_other by naive_solver.
      destruct (decide (o ∈ os)) as [Hin|Hin].
      * rewrite !decide_True by (split; [done|]; first [done|by right]). lia.
      * rewrite !decide_False; [lia| |naive_solver]. intros [_ [?|?]%elem_of_cons]; done.
  - rewrite upd_other by naive_solver. rewrite !decide_False by naive_solver. lia.
Qed.

Lemma free_total_upd G z o l z' :
  (o ≤ MAX_ORDER)%nat →
  free_total (upd G z o l) z' =
  free_total G z' + if decide (z' = z)
                    then (Z.of_nat (length l) - Z.of_nat (length (G z o))) * size_of o else 0.
Proof.
  intros Ho. unfold free_total. rewrite free_total_upd_list by apply NoDup_seq. f_equal.
  destruct (decide (z' = z)).
  - rewrite decide_True; [done|]. split; [done|]. apply elem_of_seq. rewrite order_count_max. lia.
  - rewrite decide_False; [done|naive_solver].
Qed.

Lemma fr_set s p f q :
  0 ≤ p → 0 ≤ q → is_Some (fr s p) →
  fr (set_frame s p f) q = if decide (q = p) then Some f else fr s q.
Proof.
  intros Hp Hq [g Hg%lookup_lt_Some]. unfold fr, set_frame. simpl.
  rewrite list_lookup_insert. case_decide as H1; case_decide as H2; try done; lia.
Qed.

Lemma get_frame_ok s p f : fr s p = Some f → get_frame s p = Done f.
Proof. apply at_index_ok. Qed.

Lemma length_set_frame s p f : length (frames (set_frame s p f)) = length (frames s).
Proof. apply length_insert. Qed.

(** The whole of a zone's free lists fits a [u64] counter with room to spare. *)
Lemma list_length_bound s G z o :
  linked s G → (z < 2)%nat → (o ≤ MAX_ORDER)%nat → (length (G z o) ≤ length (frames s))%nat.
Proof.
  intros Hl Hz Ho.
  pose proof (@NoDup_incl_length _ (map Z.to_nat (G z o)) (seq 0 (length (frames s)))) as Hi.
  rewrite length_map, length_seq in Hi. apply Hi.
  - rewrite <- NoDup_ListNoDup. apply NoDup_fmap_2_strong; [|by apply (lk_nodup s)].
    intros x y Hx Hy Hxy. destruct (lk_in s G Hl z o x) as [? _]; try done.
    destruct (lk_in s G Hl z o y) as [? _]; try done. lia.
  - intros k. rewrite in_map_iff. intros (x & <- & Hx). apply list_elem_of_In in Hx.
    destruct (lk_in s G Hl z o x) as (_ & _ & f & Hf & _); try done.
    apply lookup_lt_Some in Hf. apply in_seq. lia.
Qed.

Lemma list_frames_bound s G z o :
  linked s G → (z < 2)%nat → (o ≤ MAX_ORDER)%nat → 0 ≤ list_frames G z o ≤ 2 ^ 42.
Proof.
  intros Hl Hz Ho. unfold list_frames. pose proof (size_of_pos o). pose proof (size_of_max o Ho).
  pose proof (list_length_bound s G z o Hl Hz Ho). pose proof (lk_len _ _ Hl). nia.
Qed.

Lemma free_total_bound s G z : linked s G → (z < 2)%nat → 0 ≤ free_total G z ≤ 2 ^ 46.
Proof.
  intros Hl Hz. unfold free_total.
  assert (Hgen : ∀ os, (∀ o, o ∈ os → o ≤ MAX_ORDER)%nat →
    0 ≤ foldr (fun o acc => list_frames G z o + acc) 0 os ≤ Z.of_nat (length os) * 2 ^ 42).
  { induction os as [|o os IH]; intros Hos; simpl; [lia|].
    pose proof (list_frames_bound s G z o Hl Hz (Hos o ltac:(left))).
    specialize (IH (fun k Hk => Hos k (list_elem_of_further _ _ _ Hk))). lia. }
  pose proof (Hgen (seq 0 ORDER_COUNT)) as H. rewrite length_seq in H.
  rewrite order_count_max, max_order_value in *.
  destruct H as [? ?]; [|lia]. intros o Ho%elem_of_seq. lia.
Qed.

Lemma list_frames_le_total s G z o :
  linked s G → (z < 2)%nat → (o ≤ MAX_ORDER)%nat → list_frames G z o ≤ free_total G z.
Proof.
  intros Hl Hz Ho. unfold free_total.
  assert (Hgen : ∀ os, (∀ k, k ∈ os → k ≤ MAX_ORDER)%nat →
    0 ≤ foldr (fun o acc => list_frames G z o + acc) 0 os ∧
    (o ∈ os → list_frames G z o ≤ foldr (fun o acc => list_frames G z o + acc) 0 os)).
  { induction os as [|k os IH]; intros Hos; simpl; [split; [lia|by intros ?%elem_of_nil]|].
    pose proof (list_frames_bound s G z k Hl Hz (Hos k ltac:(left))).
    destruct (IH (fun k' Hk' => Hos k' (list_elem_of_further _ _ _ Hk'))) as [? IH'].
    split; [lia|]. intros [->|Hin]%elem_of_cons; [lia|]. specialize (IH' Hin). lia. }
  apply Hgen; [intros k Hk%elem_of_seq|apply elem_of_seq]; rewrite order_count_max in *; lia.
Qed.

(** A list element is a frame of the database, and not the null. *)
Lemma lk_elem s G z o p :
  linked s G → (z < 2)%nat → (o ≤ MAX_ORDER)%nat → p ∈ G z o →
  0 ≤ p < NONE ∧ is_Some (fr s p).
Proof.
  intros Hl Hz Ho Hp. destruct (lk_in s G Hl z o p Hz Ho Hp) as (H0 & _ & f & Hf & _).
  split; [|by eauto]. apply lookup_lt_Some in Hf. pose proof (lk_len _ _ Hl). unfold NONE. lia.
Qed.

(** Two lists share no element. *)
Lemma lk_disjoint s G z o z' o' p :
  linked s G → (z < 2)%nat → (z' < 2)%nat → (o ≤ MAX_ORDER)%nat → (o' ≤ MAX_ORDER)%nat →
  p ∈ G z o → p ∈ G z' o' → z = z' ∧ o = o'.
Proof.
  intros Hl Hz Hz' Ho Ho' Hp Hp'.
  destruct (lk_in s G Hl z o p Hz Ho Hp) as (_ & <- & f & Hf & _ & _ & <-).
  destruct (lk_in s G Hl z' o' p Hz' Ho' Hp') as (_ & <- & f' & Hf' & _ & _ & <-).
  by simplify_eq.
Qed.

(** Links after an update of one frame. *)
Lemma nx_set s p f q :
  0 ≤ p → 0 ≤ q → is_Some (fr s p) → nx (set_frame s p f) q = if decide (q = p) then next f else nx s q.
Proof. intros. unfold nx. rewrite fr_set by done. by case_decide. Qed.
Lemma pv_set s p f q :
  0 ≤ p → 0 ≤ q → is_Some (fr s p) → pv (set_frame s p f) q = if decide (q = p) then prev f else pv s q.
Proof. intros. unfold pv. rewrite fr_set by done. by case_decide. Qed.

(** What one free-list operation does to the frame database, besides links. *)
Record relinks (s s' : Pmm) (p : Z) : Prop := {
  rl_len : length (frames s') = length (frames s);
  rl_core q : 0 ≤ q → q ≠ p → core <$> fr s' q = core <$> fr s q;
  rl_managed z : managed_frames_ <$> zones s' !! z = managed_frames_ <$> zones s !! z
}.

Lemma core_inv s s' q f :
  core <$> fr s' q = core <$> fr s q → fr s' q = Some f →
  ∃ g, fr s q = Some g ∧ core g = core f.
Proof. intros He Hf. rewrite Hf in He. destruct (fr s q) as [g|]; [|done]. exists g. simpl in He. split; congruence. Qed.

(** The state invariant is re-established from the links, the heads and the
    zone table separately. *)
Lemma linked_head_elem s G z o h zs :
  linked s G → (z < 2)%nat → (o ≤ MAX_ORDER)%nat → zones s !! z = Some zs →
  free_lists zs !! o = Some h →
  links (nx s) (pv s) NONE h (G z o) ∧ (h = NONE ∧ G z o = [] ∨ h ∈ G z o ∧ h ≠ NONE).
Proof.
  intros Hl Hz Ho Hzs Hh. destruct (lk_zone s G Hl z Hz) as (zs' & Hzs' & _ & _ & Hlk).
  simplify_eq. specialize (Hlk o h Ho Hh). split; [done|].
  destruct (G z o) as [|x l] eqn:HG; [by left|]. destruct Hlk as (-> & _).
  right. split; [left|]. destruct (lk_elem s G z o x Hl Hz Ho) as [? _]; [rewrite HG; left|lia].
Qed.

(** Rebuilds [linked] after a change of the lists at [(z, o)] only. *)
Lemma linked_rebuild s s' G z o l zs' :
  linked s G → (z < 2)%nat → (o ≤ MAX_ORDER)%nat →
  length (frames s') = length (frames s) →
  zones s' = <[z := zs']> (zones s) →
  length (free_lists zs') = ORDER_COUNT →
  (∃ zs, zones s !! z = Some zs ∧ ∀ k, k ≠ o → free_lists zs' !! k = free_lists zs !! k) →
  free_frames_ zs' = free_total (upd G z o l) z →
  (∀ h, free_lists zs' !! o = Some h → links (nx s') (pv s') NONE h l) →
  (∀ z' k y, (z' < 2)%nat → (k ≤ MAX_ORDER)%nat → (z', k) ≠ (z, o) → y ∈ G z' k →
     nx s' y = nx s y ∧ pv s' y = pv s y) →
  NoDup l →
  (∀ p, p ∈ l → 0 ≤ p ∧ zix p = z ∧
     ∃ f, fr s' p = Some f ∧ state f = FFree ∧ is_head f = true ∧ order f = o) →
  (∀ z' k p, (z' < 2)%nat → (k ≤ MAX_ORDER)%nat → (z', k) ≠ (z, o) → p ∈ G z' k →
     ∃ f, fr s' p = Some f ∧ state f = FFree ∧ is_head f = true ∧ order f = k) →
  (∀ p f, 0 ≤ p → fr s' p = Some f → is_head f = true →
     (order f ≤ MAX_ORDER)%nat ∧ p ∈ upd G z o l (zix p) (order f)) →
  linked s' (upd G z o l).
Proof.
  intros Hl Hz Ho Hlen Hzs Hfl (zs0 & Hzs0 & Hsame) Hfree Hlinks Hext Hnd Hin Hin' Hhead.
  split.
  - rewrite Hzs, length_insert. apply (lk_zones _ _ Hl).
  - rewrite Hlen. apply (lk_len _ _ Hl).
  - intros z' Hz'. destruct (decide (z' = z)) as [->|Hne].
    + exists zs'. rewrite Hzs, list_lookup_insert_eq by (rewrite (lk_zones _ _ Hl); lia).
      split_and!; try done. intros k h Hk Hh. destruct (decide (k = o)) as [->|Hko].
      * rewrite upd_same. by apply Hlinks.
      * rewrite upd_other by naive_solver. rewrite Hsame in Hh by done.
        destruct (linked_head_elem s G z k h zs0 Hl Hz Hk Hzs0 Hh) as [Hlk _].
        eapply links_ext; [|done]. intros y Hy. apply (Hext z k); naive_solver.
    + destruct (lk_zone s G Hl z' Hz') as (zs1 & Hzs1 & Hlen1 & Hfree1 & Hlk1).
      exists zs1. rewrite Hzs, list_lookup_insert_ne by done.
      rewrite free_total_upd, decide_False, Z.add_0_r by done.
      split_and!; try done. intros k h Hk Hh. rewrite upd_other by naive_solver.
      eapply links_ext; [|by apply (Hlk1 k h)]. intros y Hy. apply (Hext z' k); naive_solver.
  - intros z' k Hz' Hk. unfold upd. case_decide; [done|by apply (lk_nodup s)].
  - intros z' k p Hz' Hk. unfold upd. case_decide as Hc; [destruct Hc as [-> ->]; by apply Hin|].
    intros Hp. destruct (lk_in s G Hl z' k p Hz' Hk Hp) as (? & ? & _).
    split_and!; try done. apply (Hin' z'); naive_solver.
  - done.
Qed.

Lemma not_head_not_listed s G p f z o :
  linked s G → (z < 2)%nat → (o ≤ MAX_ORDER)%nat → fr s p = Some f → is_head f = false →
  p ∉ G z o.
Proof.
  intros Hl Hz Ho Hf Hh Hin. destruct (lk_in s G Hl z o p Hz Ho Hin) as (_ & _ & g & Hg & _ & Hgh & _).
  congruence.
Qed.

(** Fields recovered from an equality of cores. *)
Lemma core_fields f g :
  core f = core g → state f = state g ∧ order f = order g ∧ is_head f = is_head g ∧
  refcount f = refcount g ∧ owner f = owner g ∧ slab f = slab g.
Proof. unfold core. intros. by simplify_eq. Qed.

Definition listed_as (s : Pmm) (o : nat) (p : Z) : Prop :=
  ∃ f, fr s p = Some f ∧ state f = FFree ∧ is_head f = true ∧ order f = o.

Lemma listed_as_core s s' o p :
  core <$> fr s' p = core <$> fr s p → listed_as s o p → listed_as s' o p.
Proof.
  intros He (f & Hf & Hs & Hh & Ho). rewrite Hf in He. destruct (fr s' p) as [g|] eqn:Hg; [|done].
  simpl in He. assert (Hc : core g = core f) by congruence.
  apply core_fields in Hc as (? & ? & ? & _). exists g. split_and!; congruence.
Qed.

(** The two frame writes of [push_block]. *)
Definition pushed_frames (s : Pmm) (p : Z) (o : nat) (h : Z) (f : Frame) : outcome Pmm :=
  let s1 := set_frame s p (MkFrame FFree o true (refcount f) (owner f) h NONE (slab f)) in
  if h =? NONE then Done s1
  else g ← get_frame s1 h; Done (set_frame s1 h (with_prev g p)).

Lemma pushed_frames_spec s p o h f :
  0 ≤ p → fr s p = Some f →
  (h = NONE ∨ h ≠ NONE ∧ 0 ≤ h ∧ h ≠ p ∧ is_Some (fr s h)) →
  ∃ s2, pushed_frames s p o h f = Done s2 ∧ zones s2 = zones s ∧
    length (frames s2) = length (frames s) ∧
    (∀ q, 0 ≤ q → q ≠ p → core <$> fr s2 q = core <$> fr s q ∧ nx s2 q = nx s q ∧
       (pv s2 q = if decide (q = h ∧ h ≠ NONE) then p else pv s q)) ∧
    core <$> fr s2 p = Some (FFree, o, true, refcount f, owner f, slab f) ∧
    nx s2 p = h ∧ pv s2 p = NONE.
Proof.
  intros Hp Hf Hh. unfold pushed_frames.
  set (f1 := MkFrame FFree o true (refcount f) (owner f) h NONE (slab f)).
  assert (Hs : is_Some (fr s p)) by eauto.
  destruct Hh as [->|(Hnone & Hh0 & Hne & [g Hg])].
  - rewrite Z.eqb_refl. eexists. split; [done|]. split; [done|].
    split; [apply length_set_frame|]. split; [|split].
    + intros q Hq Hqp. rewrite fr_set, nx_set, pv_set by done.
      rewrite !(decide_False (P := q = p)) by done. rewrite decide_False by naive_solver. done.
    + rewrite fr_set by done. by rewrite decide_True.
    + rewrite nx_set, pv_set by done. by rewrite !decide_True.
  - rewrite (proj2 (Z.eqb_neq _ _)) by done.
    assert (Hg1 : fr (set_frame s p f1) h = Some g) by (rewrite fr_set, decide_False by done; done).
    rewrite (get_frame_ok _ _ _ Hg1). simpl. eexists. split; [done|]. split; [done|].
    split; [rewrite !length_set_frame; done|].
    assert (Hs1 : is_Some (fr (set_frame s p f1) h)) by eauto.
    split; [|split].
    + intros q Hq Hqp. rewrite fr_set, nx_set, pv_set by done.
      rewrite fr_set, nx_set, pv_set by done. rewrite !(decide_False (P := q = p)) by done.
      destruct (decide (q = h)) as [->|Hqh].
      * rewrite Hg, decide_True by done. split_and!; try done. unfold nx. by rewrite Hg.
      * rewrite decide_False by naive_solver. done.
    + rewrite !fr_set by done. rewrite (decide_False (P := p = h)) by done. by rewrite decide_True.
    + rewrite !nx_set, !pv_set by done. rewrite !(decide_False (P := p = h)) by done.
      by rewrite !decide_True.
Qed.

Lemma linked_push s G p o f :
  linked s G → 0 ≤ p → fr s p = Some f → is_head f = false → (o ≤ MAX_ORDER)%nat →
  ∃ s', Pmm.push_block s p o = Done s' ∧
    linked s' (upd G (zix p) o (p :: G (zix p) o)) ∧ relinks s s' p ∧
    core <$> fr s' p = Some (FFree, o, true, refcount f, owner f, slab f).
Proof.
  intros Hl Hp Hf Hnh Ho. set (z := zix p). assert (Hz : (z < 2)%nat) by apply zix_lt.
  destruct (lk_zone s G Hl z Hz) as (zs & Hzs & Hlen & Hfree & Hlk).
  destruct (lookup_lt_is_Some_2 (free_lists zs) o) as [h Hh]; [rewrite Hlen, order_count_max; lia|].
  destruct (linked_head_elem s G z o h zs Hl Hz Ho Hzs Hh) as [Hlinks Hhd].
  assert (Hpn : ∀ z' o', (z' < 2)%nat → (o' ≤ MAX_ORDER)%nat → p ∉ G z' o').
  { intros z' o' Hz' Ho'. eapply not_head_not_listed; eauto. }
  assert (Hhok : h = NONE ∨ h ≠ NONE ∧ 0 ≤ h ∧ h ≠ p ∧ is_Some (fr s h)).
  { destruct Hhd as [[-> _]|[Hin Hne]]; [by left|right].
    destruct (lk_elem s G z o h Hl Hz Ho Hin) as [[? ?] ?]. split_and!; try done.
    intros ->. by apply (Hpn z o). }
  destruct (pushed_frames_spec s p o h f Hp Hf Hhok) as (s2 & He2 & Hz2 & Hlen2 & Hq & Hcore & Hnx & Hpv).
  unfold Pmm.push_block. fold (zix p). fold z. rewrite (at_index_ok _ _ _ Hzs). simpl.
  rewrite (at_index_ok _ _ _ Hh). simpl. rewrite (get_frame_ok _ _ _ Hf). simpl.
  unfold pushed_frames in He2. simpl in He2. rewrite He2. simpl.
  pose proof (free_total_bound s G z Hl Hz) as Hft. pose proof (size_of_pos o) as Hsp.
  pose proof (size_of_max o Ho) as Hsm. unfold add_checked. rewrite checked_ok by (unfold in_width; lia). simpl.
  eexists. split; [done|]. split; [|split].
  2: { split.
       - done.
       - intros q H0 Hne. by destruct (Hq q H0 Hne).
       - intros z'. simpl. rewrite Hz2, list_lookup_insert.
         destruct (decide (z = z' ∧ _)) as [[<- _]|]; [by rewrite Hzs|done]. }
  2: done.
  apply (linked_rebuild s _ G z o _
           (MkZoneState (<[o:=p]> (free_lists zs)) (free_frames_ zs + size_of o) (managed_frames_ zs))
           Hl Hz Ho); [done| | | | | | | | | |].
  - simpl. by rewrite Hz2.
  - simpl. by rewrite length_insert.
  - exists zs. split; [done|]. intros k Hk. simpl. by rewrite list_lookup_insert_ne.
  - simpl. rewrite free_total_upd, decide_True by done. simpl. lia.
  - intros h'. simpl. rewrite list_lookup_insert_eq by (rewrite Hlen, order_count_max; lia).
    intros [= <-]. eapply (links_push (nx s) (pv s)); eauto using lk_nodup.
    + intros y Hy. apply Hq; [|by intros ->; apply (Hpn z o)]. by apply (lk_elem s G z o).
    + intros y Hy. destruct (Hq y) as (_ & _ & Hy'); [by apply (lk_elem s G z o)|by intros ->; apply (Hpn z o)|].
      change (pv (set_zone s2 z _) y) with (pv s2 y). rewrite Hy'.
      destruct (lk_elem s G z o y Hl Hz Ho Hy) as [? _].
      destruct (decide (y = h)) as [->|]; [rewrite decide_True by (split; [done|lia])|rewrite decide_False by naive_solver]; done.
  - intros z' k y Hz' Hk Hne Hy.
    destruct (Hq y) as (_ & Hn & Hv); [by apply (lk_elem s G z' k)|by intros ->; apply (Hpn z' k)|].
    split; [exact Hn|]. change (pv (set_zone s2 z _) y) with (pv s2 y). rewrite Hv, decide_False; [done|].
    intros [-> Hnone]. destruct Hhd as [[? _]|[Hin _]]; [done|].
    destruct (lk_disjoint s G z o z' k h) as [-> ->]; done.
  - apply NoDup_cons. split; [by apply Hpn|]. by apply (lk_nodup s).
  - intros q [->|Hin]%elem_of_cons.
    + split_and!; try done. change (listed_as s2 o p). unfold listed_as.
      destruct (fr s2 p) as [g|]; [|done]. exists g. unfold core in Hcore. simpl in Hcore. by simplify_eq.
    + destruct (lk_in s G Hl z o q Hz Ho Hin) as (H0 & Hzq & Has). split_and!; try done.
      apply (listed_as_core s); [|exact Has]. apply Hq; [done|]. intros ->. by apply (Hpn z o).
  - intros z' k q Hz' Hk Hne Hin. destruct (lk_in s G Hl z' k q Hz' Hk Hin) as (H0 & Hzq & Has).
    apply (listed_as_core s); [|exact Has]. apply Hq; [done|]. intros ->. by apply (Hpn z' k).
  - intros q g H0. change (fr (set_zone s2 z _) q) with (fr s2 q). intros Hg Hgh.
    destruct (decide (q = p)) as [->|Hne].
    + rewrite Hg in Hcore. unfold core in Hcore. simpl in Hcore. simplify_eq.
      split; [done|]. fold z. rewrite upd_same. left.
    + destruct (Hq q H0 Hne) as (Hc & _). destruct (core_inv s s2 q g Hc Hg) as (g0 & Hg0 & Hcg).
      apply core_fields in Hcg as (_ & Hog & Hhg & _).
      destruct (lk_head s G Hl q g0 H0 Hg0) as [Hok Hin]; [congruence|].
      rewrite Hog in *. split; [done|]. unfold upd.
      destruct (decide (_ ∧ _)) as [[Hz0 Ho0]|]; [|done]. rewrite Hz0, Ho0 in Hin. by right.
Qed.

(** A neighbour of [x]: the null, or another frame of the database. *)
Definition neighbour (s : Pmm) (x q : Z) : Prop :=
  q = NONE ∨ q ≠ NONE ∧ 0 ≤ q ∧ q ≠ x ∧ is_Some (fr s q).

(** Writing one link of a neighbour, when there is one. *)
Definition link_write (w : Frame → Frame) (s : Pmm) (q : Z) : outcome Pmm :=
  if q =? NONE then Done s else g ← get_frame s q; Done (set_frame s q (w g)).

Lemma link_write_spec w s x q :
  neighbour s x q → (∀ g, core (w g) = core g) →
  ∃ s', link_write w s q = Done s' ∧ zones s' = zones s ∧
    length (frames s') = length (frames s) ∧
    (∀ y, 0 ≤ y → fr s' y = if decide (y = q ∧ q ≠ NONE) then w <$> fr s y else fr s y) ∧
    (∀ y, 0 ≤ y → core <$> fr s' y = core <$> fr s y).
Proof.
  intros Hn Hw. unfold link_write. destruct Hn as [->|(Hne & H0 & _ & [g Hg])].
  - rewrite Z.eqb_refl. exists s. split_and!; try done. intros y _.
    rewrite decide_False; [done|naive_solver].
  - rewrite (proj2 (Z.eqb_neq _ _)) by done. rewrite (get_frame_ok _ _ _ Hg). simpl.
    eexists. split; [done|]. split; [done|]. split; [apply length_set_frame|].
    assert (Hfr : ∀ y, 0 ≤ y → fr (set_frame s q (w g)) y =
                  if decide (y = q ∧ q ≠ NONE) then w <$> fr s y else fr s y).
    { intros y Hy. rewrite fr_set by eauto. destruct (decide (y = q)) as [->|].
      - rewrite decide_True by done. by rewrite Hg.
      - by rewrite decide_False by naive_solver. }
    split; [done|]. intros y Hy. rewrite Hfr by done.
    destruct (decide (y = q ∧ q ≠ NONE)) as [[-> _]|]; [|done]. rewrite Hg. simpl. by rewrite Hw.
Qed.

(** [remove_block] as its writes: the predecessor's forward link (or the list
    head), the successor's back link, and the frame itself. *)
Definition unlinked_frames (s : Pmm) (x n p : Z) : outcome Pmm :=
  s1 ← link_write (fun g => with_next g n) s p;
  s2 ← link_write (fun h => with_prev h p) s1 n;
  f ← get_frame s2 x;
  Done (set_frame s2 x
          (MkFrame (state f) (order f) false (refcount f) (owner f) NONE NONE (slab f))).

Lemma unlinked_frames_spec s x f n p :
  0 ≤ x → fr s x = Some f → neighbour s x p → neighbour s x n →
  ∃ s', unlinked_frames s x n p = Done s' ∧ zones s' = zones s ∧
    length (frames s') = length (frames s) ∧
    (∀ q, 0 ≤ q → q ≠ x → core <$> fr s' q = core <$> fr s q ∧
       (is_Some (fr s q) → nx s' q = (if decide (q = p ∧ p ≠ NONE) then n else nx s q) ∧
       pv s' q = (if decide (q = n ∧ n ≠ NONE) then p else pv s q))) ∧
    core <$> fr s' x = Some (state f, order f, false, refcount f, owner f, slab f).
Proof.
  intros Hx Hf Hp Hn. unfold unlinked_frames.
  destruct (link_write_spec (fun g => with_next g n) s x p Hp) as (s1 & -> & Hz1 & Hl1 & Hf1 & Hc1); [done|].
  assert (Hn1 : neighbour s1 x n).
  { destruct Hn as [->|(? & ? & ? & [g Hg])]; [by left|right]. split_and!; try done.
    rewrite Hf1 by done. destruct (decide _); rewrite Hg; eauto. }
  simpl. destruct (link_write_spec (fun h => with_prev h p) s1 x n Hn1) as (s2 & -> & Hz2 & Hl2 & Hf2 & Hc2); [done|].
  simpl. assert (Hx2 : fr s2 x = Some f).
  { rewrite Hf2, decide_False, Hf1, decide_False; try done.
    - intros [-> ?]. destruct Hp as [|(_ & _ & ? & _)]; done.
    - intros [-> ?]. destruct Hn as [|(_ & _ & ? & _)]; done. }
  rewrite (get_frame_ok _ _ _ Hx2). simpl. eexists. split; [done|].
  split; [simpl; congruence|]. split; [rewrite length_set_frame; congruence|]. split.
  - intros q Hq Hqx. rewrite fr_set, decide_False by eauto. rewrite Hc2, Hc1 by done.
    split; [done|]. intros [g Hg]. rewrite nx_set, pv_set by eauto.
    rewrite !(decide_False (P := q = x)) by done. unfold nx, pv. rewrite Hf2, Hf1 by done.
    destruct (decide (q = n ∧ n ≠ NONE)), (decide (q = p ∧ p ≠ NONE)); by rewrite Hg.
  - rewrite fr_set, decide_True by eauto. done.
Qed.

(** The order of the zone write and the frame writes does not matter. *)
Lemma remove_block_unfold s x o f zs s' :
  fr s x = Some f → zones s !! zix x = Some zs → is_Some (free_lists zs !! o) →
  unlinked_frames s x (next f) (prev f) = Done s' → zones s' = zones s →
  in_width 64 (free_frames_ zs - size_of o) →
  Pmm.remove_block s x o =
  Done (set_zone s' (zix x)
          (MkZoneState (if prev f =? NONE then <[o := next f]> (free_lists zs) else free_lists zs)
             (free_frames_ zs - size_of o) (managed_frames_ zs))).
Proof.
  intros Hf Hzs [h Hh] Hu Hz Hw. unfold Pmm.remove_block. fold (zix x).
  rewrite (get_frame_ok _ _ _ Hf). simpl. unfold unlinked_frames, link_write in Hu.
  assert (Hzl : (zix x < length (zones s))%nat) by by eapply lookup_lt_Some.
  destruct (prev f =? NONE) eqn:Hp; simpl in Hu |- *.
  - rewrite (at_index_ok _ _ _ Hzs). simpl. rewrite (at_index_ok _ _ _ Hh). simpl.
    destruct (next f =? NONE) eqn:Hn; simpl in Hu |- *.
    + rewrite (get_frame_ok _ _ _ Hf) in Hu. simpl in Hu. injection Hu as <-.
      change (get_frame (set_zone s (zix x) _) x) with (get_frame s x).
      rewrite (get_frame_ok _ _ _ Hf). simpl. unfold at_index at 1. simpl.
      rewrite list_lookup_insert_eq by done. simpl. unfold sub_checked. rewrite checked_ok by done.
      simpl. unfold set_zone. simpl. by rewrite list_insert_insert_eq.
    + change (get_frame (set_zone s (zix x) _) (next f)) with (get_frame s (next f)).
      destruct (get_frame s (next f)) as [g| |] eqn:Hg; [|done|done]. simpl in Hu |- *.
      change (get_frame (set_frame (set_zone s (zix x) _) (next f) _) x)
        with (get_frame (set_frame s (next f) (with_prev g (prev f))) x).
      destruct (get_frame _ x) as [f'| |]; [|done|done]. simpl in Hu |- *. injection Hu as <-.
      unfold at_index at 1. simpl. rewrite list_lookup_insert_eq by done. simpl.
      unfold sub_checked. rewrite checked_ok by done. simpl.
      unfold set_zone, set_frame. simpl. by rewrite list_insert_insert_eq.
  - destruct (get_frame s (prev f)) as [g| |]; [|done|done]. simpl in Hu |- *.
    destruct (next f =? NONE); simpl in Hu |- *.
    + destruct (get_frame _ x) as [f'| |]; [|done|done]. simpl in Hu |- *. injection Hu as <-.
      rewrite (at_index_ok _ _ _ Hzs). simpl. unfold sub_checked. by rewrite checked_ok.
    + destruct (get_frame _ (next f)) as [h'| |]; [|done|done]. simpl in Hu |- *.
      destruct (get_frame _ x) as [f'| |]; [|done|done]. simpl in Hu |- *. injection Hu as <-.
      rewrite (at_index_ok _ _ _ Hzs). simpl. unfold sub_checked. by rewrite checked_ok.
Qed.

Lemma listed_neighbours s G z o l1 x l2 :
  linked s G → (z < 2)%nat → (o ≤ MAX_ORDER)%nat → G z o = l1 ++ x :: l2 →
  NoDup (l1 ++ x :: l2) ∧ (NONE ∉ (l1 ++ x :: l2)) ∧
  neighbour s x (pv s x) ∧ neighbour s x (nx s x) ∧
  (l1 = [] ↔ pv s x = NONE) ∧ (pv s x ≠ NONE → pv s x ∈ G z o) ∧ (nx s x ≠ NONE → nx s x ∈ G z o).
Proof.
  intros Hl Hz Ho HG.
  destruct (lk_zone s G Hl z Hz) as (zs & Hzs & Hlen & _ & Hlk).
  destruct (lookup_lt_is_Some_2 (free_lists zs) o) as [h Hh]; [rewrite Hlen, order_count_max; lia|].
  specialize (Hlk o h Ho Hh). pose proof (lk_nodup s G Hl z o Hz Ho) as Hnd.
  assert (Hel : ∀ q, q ∈ G z o → 0 ≤ q < NONE ∧ is_Some (fr s q)) by (intros; by apply (lk_elem s G z o)).
  rewrite HG in *. destruct (links_neighbours _ _ _ _ _ _ _ Hlk) as [Hp Hn].
  pose proof Hnd as Hnd'. apply NoDup_app in Hnd' as (_ & Hx1 & Hnd2). apply NoDup_cons in Hnd2 as [Hx2 _].
  assert (Hside : ∀ (l : list Z) q, q ∈ l → x ∉ l → (∀ y, y ∈ l → y ∈ l1 ++ x :: l2) → neighbour s x q ∧ q ≠ NONE).
  { intros l q Hq Hxl Hsub. destruct (Hel q (Hsub q Hq)) as [[? ?] ?].
    assert (q ≠ NONE) by lia. split; [right|done]. split_and!; try done. by intros ->. }
  assert (Hin1 : ∀ y, y ∈ l1 → y ∈ l1 ++ x :: l2) by (intros; apply elem_of_app; by left).
  assert (Hin2 : ∀ y, y ∈ l2 → y ∈ l1 ++ x :: l2) by (intros; apply elem_of_app; right; by right).
  assert (Hxl1 : x ∉ l1) by (intros Hin; apply (Hx1 x Hin); left).
  split_and!; [done| | | | | |].
  - intros Hin. destruct (Hel NONE Hin). lia.
  - destruct Hp as [(_ & -> & _)|[_ Hin]]; [by left|]. by apply (Hside l1).
  - destruct Hn as [(_ & ->)|[_ Hin]]; [by left|]. by apply (Hside l2).
  - destruct Hp as [(-> & -> & _)|[Hne Hin]]; [done|]. destruct (Hside l1 _ Hin Hxl1 Hin1). done.
  - destruct Hp as [(_ & -> & _)|[_ Hin]]; [done|auto].
  - destruct Hn as [(_ & ->)|[_ Hin]]; [done|auto].
Qed.

Lemma nx_frame s x f : fr s x = Some f → nx s x = next f.
Proof. unfold nx. by intros ->. Qed.
Lemma pv_frame s x f : fr s x = Some f → pv s x = prev f.
Proof. unfold pv. by intros ->. Qed.

Lemma linked_remove s G x o :
  linked s G → (o ≤ MAX_ORDER)%nat → x ∈ G (zix x) o →
  ∃ s' l1 l2 f, G (zix x) o = l1 ++ x :: l2 ∧ fr s x = Some f ∧
    Pmm.remove_block s x o = Done s' ∧ linked s' (upd G (zix x) o (l1 ++ l2)) ∧ relinks s s' x ∧
    core <$> fr s' x = Some (state f, order f, false, refcount f, owner f, slab f).
Proof.
  intros Hl Ho Hin. set (z := zix x) in *. assert (Hz : (z < 2)%nat) by apply zix_lt.
  destruct (lk_in s G Hl z o x Hz Ho Hin) as (Hx & _ & f & Hf & _).
  apply list_elem_of_split in Hin as (l1 & l2 & HG).
  destruct (listed_neighbours s G z o l1 x l2 Hl Hz Ho HG) as (Hnd & Hnone & Hp & Hn & Hl1 & Hpin & Hnin).
  destruct (lk_zone s G Hl z Hz) as (zs & Hzs & Hlen & Hfree & Hlk).
  destruct (lookup_lt_is_Some_2 (free_lists zs) o) as [h Hh]; [rewrite Hlen, order_count_max; lia|].
  specialize (Hlk o h Ho Hh).
  rewrite (nx_frame _ _ _ Hf), (pv_frame _ _ _ Hf) in *.
  destruct (unlinked_frames_spec s x f (next f) (prev f) Hx Hf Hp Hn) as (s' & Hu & Hz' & Hlen' & Hq & Hcore).
  pose proof (free_total_bound s G z Hl Hz) as Hft. pose proof (size_of_pos o) as Hsp.
  assert (Htot : free_total (upd G z o (l1 ++ l2)) z = free_total G z - size_of o).
  { rewrite free_total_upd, decide_True, HG by done. rewrite !length_app. simpl. lia. }
  assert (Hnn : 0 ≤ free_total G z - size_of o).
  { assert (Hex : size_of o ≤ list_frames G z o).
    { unfold list_frames. rewrite HG, length_app. simpl. nia. }
    pose proof (list_frames_le_total s G z o Hl Hz Ho). lia. }
  eexists _, l1, l2, f. split; [done|]. split; [done|]. split.
  { eapply remove_block_unfold; eauto. unfold in_width. lia. }
  fold z. split; [|split].
  2: { split; [done| |].
       - intros q H0 Hne. by apply Hq.
       - intros z'. simpl. rewrite Hz', list_lookup_insert.
         destruct (decide (z = z' ∧ _)) as [[<- _]|]; [by rewrite Hzs|done]. }
  2: done.
  assert (Helem : ∀ z' k q, (z' < 2)%nat → (k ≤ MAX_ORDER)%nat → q ∈ G z' k → q ≠ x →
            0 ≤ q ∧ zix q = z' ∧ core <$> fr s' q = core <$> fr s q ∧ listed_as s' k q).
  { intros z' k q Hz2 Hk Hqin Hne. destruct (lk_in s G Hl z' k q Hz2 Hk Hqin) as (H0 & Hzq & Has).
    destruct (Hq q H0 Hne) as [Hc _]. split_and!; try done. by apply (listed_as_core s). }
  assert (Hsub : ∀ y, y ∈ l1 ++ l2 → y ∈ G z o ∧ y ≠ x).
  { intros y Hy. rewrite HG. apply NoDup_app in Hnd as (_ & Hd & Hnd2). apply NoDup_cons in Hnd2 as [Hx2 _].
    apply elem_of_app in Hy as [Hy|Hy]; (split; [apply elem_of_app|intros ->]);
      [by left|apply (Hd x Hy); left|right; by right|done]. }
  apply (linked_rebuild s _ G z o _
    (MkZoneState (if prev f =? NONE then <[o := next f]> (free_lists zs) else free_lists zs)
       (free_frames_ zs - size_of o) (managed_frames_ zs)) Hl Hz Ho); simpl.
  - done.
  - by rewrite Hz'.
  - destruct (prev f =? NONE); [by rewrite length_insert|done].
  - exists zs. split; [done|]. intros k Hk. destruct (prev f =? NONE); [by rewrite list_lookup_insert_ne|done].
  - by rewrite Htot, Hfree.
  - intros h' Hh'.
    replace h' with (match l1 with [] => next f | _ => h end).
    2: { destruct (Z.eqb_spec (prev f) NONE) as [Hpn|Hpn].
         - apply Hl1 in Hpn as ->. rewrite list_lookup_insert_eq in Hh' by (by eapply lookup_lt_Some). congruence.
         - destruct l1; [by destruct Hpn; apply Hl1|]. congruence. }
    rewrite <- (nx_frame _ _ _ Hf), <- (pv_frame _ _ _ Hf) in *.
    apply (links_remove (nx s) (pv s)); try done; [by rewrite <- HG|..].
    + intros y Hy. destruct (Hsub y Hy) as [Hyin Hyx]. destruct (lk_elem s G z o y Hl Hz Ho Hyin) as [? Hys].
      destruct (Hq y ltac:(lia) Hyx) as [_ Hlk']. destruct (Hlk' Hys) as [Hn1 _]. etrans; [exact Hn1|].
      destruct (decide (y = pv s x)) as [->|]; [rewrite decide_True by (split; [done|lia])|rewrite decide_False by naive_solver]; done.
    + intros y Hy. destruct (Hsub y Hy) as [Hyin Hyx]. destruct (lk_elem s G z o y Hl Hz Ho Hyin) as [? Hys].
      destruct (Hq y ltac:(lia) Hyx) as [_ Hlk']. destruct (Hlk' Hys) as [_ Hv1]. etrans; [exact Hv1|].
      destruct (decide (y = nx s x)) as [->|]; [rewrite decide_True by (split; [done|lia])|rewrite decide_False by naive_solver]; done.
  - intros z' k y Hz2 Hk Hne Hy.
    assert (Hother : ∀ q, q ∈ G z o → y ≠ q).
    { intros q Hqin ->. destruct (lk_disjoint s G z o z' k q) as [-> ->]; done. }
    destruct (lk_elem s G z' k y Hl Hz2 Hk Hy) as [? Hys].
    assert (Hyx : y ≠ x). { apply Hother. rewrite HG. apply elem_of_app. right. left. }
    destruct (Hq y ltac:(lia) Hyx) as [_ Hlk']. destruct (Hlk' Hys) as [Hn1 Hv1].
    split; [etrans; [exact Hn1|]|etrans; [exact Hv1|]]; (rewrite decide_False; [done|]); intros [-> Hnn'];
      [by apply (Hother (prev f)); auto|by apply (Hother (next f)); auto].
  - rewrite NoDup_app in Hnd |- *. rewrite NoDup_cons in Hnd. naive_solver set_solver.
  - intros q [Hqin Hqx]%Hsub. destruct (Helem z o q Hz Ho Hqin Hqx) as (? & ? & _ & ?). done.
  - intros z' k q Hz2 Hk Hne Hqin. apply (Helem z' k q); try done. intros ->.
    destruct (lk_disjoint s G z' k z o x) as [-> ->]; try done. rewrite HG. apply elem_of_app. right. left.
  - intros q g H0 Hg Hgh. change (fr (set_zone s' z _) q) with (fr s' q) in Hg.
    destruct (decide (q = x)) as [->|Hne].
    { rewrite Hg in Hcore. unfold core in Hcore. simpl in Hcore. simplify_eq. congruence. }
    destruct (Hq q H0 Hne) as [Hc _]. destruct (core_inv s s' q g Hc Hg) as (g0 & Hg0 & Hcg).
    apply core_fields in Hcg as (_ & Hog & Hhg & _).
    destruct (lk_head s G Hl q g0 H0 Hg0) as [Hok Hqin]; [congruence|]. rewrite Hog in *.
    split; [done|]. unfold upd. destruct (decide (_ ∧ _)) as [[Hz0 Ho0]|]; [|done].
    rewrite Hz0, Ho0, HG in Hqin. apply elem_of_app in Hqin as [?|[?|?]%elem_of_cons]; [|done|]; apply elem_of_app; auto.
Qed.

(** ** Geometry of blocks *)

(** A block of [2^o] frames at [p]: naturally aligned, inside the database, on
    one side of the DMA32 boundary. *)
Record fits (N p : Z) (o : nat) : Prop := {
  ft_order : (o ≤ MAX_ORDER)%nat;
  ft_nonneg : 0 ≤ p;
  ft_aligned : p mod size_of o = 0;
  ft_inside : p + size_of o ≤ N;
  ft_zone : p < DMA32_LIMIT_PFN → p + size_of o ≤ DMA32_LIMIT_PFN
}.

Definition covers (p : Z) (o : nat) (f : Z) : Prop := p ≤ f < p + size_of o.

(** A set of well placed blocks, no two of which share a frame. *)
Record geo (N : Z) (B : Z → nat → Prop) : Prop := {
  geo_fits p o : B p o → fits N p o;
  geo_disjoint p o q k f : B p o → B q k → covers p o f → covers q k f → p = q ∧ o = k
}.

Lemma geo_mono N (B B' : Z → nat → Prop) : (∀ p o, B' p o → B p o) → geo N B → geo N B'.
Proof. intros Hs [Hf Hd]. split; eauto. Qed.

Definition with_block (B : Z → nat → Prop) (p : Z) (o : nat) : Z → nat → Prop :=
  fun q k => B q k ∨ q = p ∧ k = o.

Lemma covers_self p o : covers p o p.
Proof. unfold covers. pose proof (size_of_pos o). lia. Qed.

Lemma covers_halves p c f :
  covers p (S c) f ↔ covers p c f ∨ covers (p + size_of c) c f.
Proof. unfold covers. rewrite size_of_S. pose proof (size_of_pos c). lia. Qed.

(** A block disjoint from everything else can be added. *)
Lemma geo_add N B p o :
  geo N B → fits N p o → (∀ q k f, B q k → covers q k f → covers p o f → False) →
  geo N (with_block B p o).
Proof.
  intros [Hf Hd] Hfit Hdis. split.
  - intros q k [?|[-> ->]]; auto.
  - intros q k q' k' f [HB|[-> ->]] [HB'|[-> ->]] Hc Hc'; [eauto|exfalso|exfalso|done]; eauto.
Qed.

(** A hole of the database: a block position disjoint from every block. *)
Definition hole (N : Z) (B : Z → nat → Prop) (p : Z) (o : nat) : Prop :=
  fits N p o ∧ ∀ q k f, B q k → covers q k f → covers p o f → False.

Lemma hole_of_geo N B p o : geo N (with_block B p o) → ¬ B p o → hole N B p o.
Proof.
  intros [Hf Hd] Hn. split; [apply Hf; by right|]. intros q k f HB Hc Hc'.
  destruct (Hd q k p o f) as [-> ->]; [by left|by right|done..].
Qed.

Lemma fits_lower N p c : fits N p (S c) → fits N p c ∧ fits N (p + size_of c) c.
Proof.
  intros [Ho H0 Ha Hi Hz]. rewrite size_of_S in *. pose proof (size_of_pos c) as Hp.
  assert (Hac : p mod size_of c = 0).
  { apply Z.mod_divide in Ha; [|lia]. destruct Ha as [x ->].
    replace (x * (2 * size_of c)) with (x * 2 * size_of c) by lia. apply Z.mod_mul. lia. }
  split; split; try lia.
  rewrite <- (Z.mul_1_l (size_of c)) at 1. rewrite Z.mod_add by lia. done.
Qed.

Lemma hole_split N B p c :
  hole N B p (S c) → hole N B p c ∧ hole N B (p + size_of c) c ∧
  (∀ f, covers p c f → covers (p + size_of c) c f → False).
Proof.
  intros [Hfit Hd]. destruct (fits_lower _ _ _ Hfit) as [H1 H2].
  split_and!; [split; [done|]|split; [done|]|].
  - intros q k f HB Hc Hc'. apply (Hd q k f); try done. apply covers_halves. by left.
  - intros q k f HB Hc Hc'. apply (Hd q k f); try done. apply covers_halves. by right.
  - unfold covers. lia.
Qed.

(** The buddy of an aligned block is its neighbour in the next larger one. *)
Lemma buddy_cases p o :
  0 ≤ p → p mod size_of o = 0 →
  Z.lxor p (size_of o) = p + size_of o ∧ p mod size_of (S o) = 0 ∨
  Z.lxor p (size_of o) = p - size_of o ∧ (p - size_of o) mod size_of (S o) = 0 ∧ size_of o ≤ p.
Proof.
  intros H0 Ha. pose proof (size_of_pos o) as Hpos. rewrite size_of_S.
  set (m := size_of o) in *.
  assert (Hm : m = 2 ^ Z.of_nat o) by reflexivity.
  apply Z.mod_divide in Ha as [x Hx]; [|lia].
  assert (Hx0 : 0 ≤ x) by nia.
  assert (Hsh : p = Z.shiftl x (Z.of_nat o)) by (rewrite Z.shiftl_mul_pow2 by lia; lia).
  assert (Hm' : m = Z.shiftl 1 (Z.of_nat o)) by (rewrite Z.shiftl_mul_pow2 by lia; lia).
  assert (Hxor : Z.lxor p m = Z.shiftl (Z.lxor x 1) (Z.of_nat o)).
  { rewrite Hsh, Hm', Z.shiftl_lxor. done. }
  rewrite Hxor, Z.shiftl_mul_pow2, <- Hm by lia.
  destruct (Z.Even_or_Odd x) as [[y ->]|[y ->]].
  - left. assert (Z.lxor (2 * y) 1 = 2 * y + 1) as -> by (destruct y as [|[| |]|[| |]]; done).
    split; [lia|]. rewrite Hx. replace (2 * y * m) with (y * (2 * m)) by lia. apply Z.mod_mul. lia.
  - right. assert (Z.lxor (2 * y + 1) 1 = 2 * y) as ->.
    { assert (0 ≤ y) by lia. destruct y as [|y|]; [done| |lia]. done. }
    split; [lia|]. split; [|nia]. rewrite Hx. replace ((2 * y + 1) * m - m) with (y * (2 * m)) by lia.
    apply Z.mod_mul. lia.
Qed.

(** Merging a hole with its free buddy gives the hole one order up. *)
Lemma merge_buddies N p q o :
  fits N p o → fits N q o → q = Z.lxor p (size_of o) → (o < MAX_ORDER)%nat →
  (Z.min p q < DMA32_LIMIT_PFN → Z.min p q + 2 * size_of o ≤ DMA32_LIMIT_PFN) →
  fits N (Z.min p q) (S o) ∧
  (∀ f, covers (Z.min p q) (S o) f ↔ covers p o f ∨ covers q o f).
Proof.
  intros Hp Hq Hb Ho Hz. pose proof (size_of_pos o) as Hpos.
  destruct (buddy_cases p o (ft_nonneg _ _ _ Hp) (ft_aligned _ _ _ Hp)) as [[He Ha]|(He & Ha & Hle)];
    rewrite He in Hb; subst q.
  - rewrite Z.min_l in * by lia. split.
    + split; try lia; try done; [apply Hp|rewrite size_of_S; destruct Hq; lia|rewrite size_of_S; lia].
    + intros f. by rewrite covers_halves.
  - rewrite Z.min_r in * by lia. split.
    + split; try lia; try done; [rewrite size_of_S; destruct Hp; lia|rewrite size_of_S; lia].
    + intros f. rewrite covers_halves. replace (p - size_of o + size_of o) with p by lia. tauto.
Qed.

(** ** The allocator invariant

    [A] is the set of blocks callers hold. *)
Definition free_block (G : lists) (p : Z) (o : nat) : Prop :=
  (o ≤ MAX_ORDER)%nat ∧ p ∈ G (zix p) o.
Definition blocks (G : lists) (A : gset (Z * nat)) : Z → nat → Prop :=
  fun p o => free_block G p o ∨ (p, o) ∈ A.

Definition held (s : Pmm) (A : gset (Z * nat)) : Prop :=
  ∀ p o, (p, o) ∈ A → ∃ f, fr s p = Some f ∧ state f = FAllocated ∧ order f = o ∧ refcount f = 1.

Definition frames_len (s : Pmm) : Z := Z.of_nat (length (frames s)).

Record inv (s : Pmm) (G : lists) (A : gset (Z * nat)) : Prop := {
  iv_linked : linked s G;
  iv_geo : geo (frames_len s) (blocks G A);
  iv_held : held s A
}.

(** The frames on the free lists. *)
Definition free_set (G : lists) (f : Z) : Prop := ∃ p o, free_block G p o ∧ covers p o f.

Lemma free_block_push G q c p o :
  (c ≤ MAX_ORDER)%nat →
  free_block (upd G (zix q) c (q :: G (zix q) c)) p o ↔ free_block G p o ∨ p = q ∧ o = c.
Proof.
  intros Hc. unfold free_block, upd. destruct (decide (zix p = zix q ∧ o = c)) as [[Hz ->]|Hne].
  - rewrite elem_of_cons, Hz. naive_solver.
  - naive_solver.
Qed.

Lemma free_block_remove G x c l1 l2 p o :
  G (zix x) c = l1 ++ x :: l2 → NoDup (G (zix x) c) →
  free_block (upd G (zix x) c (l1 ++ l2)) p o ↔ free_block G p o ∧ ¬ (p = x ∧ o = c).
Proof.
  intros HG Hnd. unfold free_block, upd. destruct (decide (zix p = zix x ∧ o = c)) as [[Hz ->]|Hne].
  - rewrite Hz, HG. rewrite HG in Hnd. apply NoDup_app in Hnd as (_ & Hd & Hnd2).
    apply NoDup_cons in Hnd2 as [Hx _]. rewrite !elem_of_app, elem_of_cons. split.
    + intros [Hc [Hp|Hp]]; (split; [tauto|]); intros [-> _]; [|done]. apply (Hd x Hp). left.
    + intros [[Hc [Hp|[->|Hp]]] Hn]; [tauto| |tauto]. naive_solver.
  - naive_solver.
Qed.

Lemma blocks_free_or_held s G A p o :
  linked s G → held s A → free_block G p o → (p, o) ∉ A.
Proof.
  intros Hl Hh [Ho Hin] HA. destruct (lk_in s G Hl _ _ _ (zix_lt p) Ho Hin) as (_ & _ & f & Hf & Hs & _).
  destruct (Hh p o HA) as (g & Hg & Hs' & _). congruence.
Qed.

(** A frame covered by a hole is on no list. *)
Lemma hole_not_head s G A p o q f :
  inv s G A → hole (frames_len s) (blocks G A) p o → covers p o q → fr s q = Some f →
  is_head f = false.
Proof.
  intros Hi [Hfit Hd] Hc Hf. destruct (is_head f) eqn:Hh; [|done]. exfalso.
  assert (0 ≤ q) by (destruct Hfit; unfold covers in Hc; lia).
  destruct (lk_head s G (iv_linked _ _ _ Hi) q f) as [Ho Hin]; try done.
  apply (Hd q (order f) q); [|apply covers_self|done]. left. by split.
Qed.

Lemma hole_frame s G A p o q :
  inv s G A → hole (frames_len s) (blocks G A) p o → covers p o q →
  0 ≤ q ∧ ∃ f, fr s q = Some f ∧ is_head f = false.
Proof.
  intros Hi Hho Hc. pose proof Hho as [Hfit _]. destruct Hfit as [_ H0 _ Hin _].
  unfold covers in Hc. unfold frames_len in Hin.
  destruct (lookup_lt_is_Some_2 (frames s) (Z.to_nat q)) as [f Hf]; [lia|].
  split; [lia|]. exists f. split; [done|]. by eapply hole_not_head.
Qed.

Lemma held_core s s' A x :
  held s A → (∀ o, (x, o) ∉ A) → (∀ q, 0 ≤ q → q ≠ x → core <$> fr s' q = core <$> fr s q) →
  (∀ p o, (p, o) ∈ A → 0 ≤ p) → held s' A.
Proof.
  intros Hh Hx Hc H0 p o HA. destruct (Hh p o HA) as (f & Hf & Hs & Ho & Hr).
  assert (Hpx : p ≠ x) by (intros ->; by apply (Hx o)).
  specialize (Hc p (H0 p o HA) Hpx). rewrite Hf in Hc.
  destruct (fr s' p) as [g|] eqn:Hg; [|done]. simpl in Hc.
  assert (Hcg : core g = core f) by congruence. apply core_fields in Hcg as (? & ? & _ & ? & _).
  exists g. split_and!; congruence.
Qed.

Lemma inv_held_nonneg s G A p o : inv s G A → (p, o) ∈ A → 0 ≤ p.
Proof. intros Hi HA. apply (geo_fits _ _ (iv_geo _ _ _ Hi) p o). by right. Qed.

(** Freeing a hole onto its list. *)
Lemma inv_push s G A p o :
  inv s G A → hole (frames_len s) (blocks G A) p o →
  ∃ s', Pmm.push_block s p o = Done s' ∧
    inv s' (upd G (zix p) o (p :: G (zix p) o)) A ∧ frames_len s' = frames_len s.
Proof.
  intros Hi Hho. pose proof Hho as [Hfit Hd].
  destruct (hole_frame s G A p o p Hi Hho (covers_self p o)) as (H0 & f & Hf & Hnh).
  destruct (linked_push s G p o f (iv_linked _ _ _ Hi) H0 Hf Hnh (ft_order _ _ _ Hfit))
    as (s' & He & Hl' & Hrl & Hcore).
  assert (Hlen : frames_len s' = frames_len s) by (unfold frames_len; by rewrite (rl_len _ _ _ Hrl)).
  exists s'. split_and!; try done. split; [done| |].
  - rewrite Hlen. eapply geo_mono; [|apply (geo_add _ _ p o (iv_geo _ _ _ Hi) Hfit Hd)].
    intros q k. unfold blocks, with_block. rewrite free_block_push by apply Hfit. tauto.
  - apply (held_core s s' A p); eauto using iv_held, rl_core, inv_held_nonneg.
    intros k HA. apply (Hd p k p); [by right|apply covers_self..].
Qed.

(** Taking a free block off its list leaves a hole. *)
Lemma inv_remove s G A x o :
  inv s G A → free_block G x o →
  ∃ s' G', Pmm.remove_block s x o = Done s' ∧ inv s' G' A ∧ frames_len s' = frames_len s ∧
    hole (frames_len s) (blocks G' A) x o ∧
    (∀ p k, free_block G' p k ↔ free_block G p k ∧ ¬ (p = x ∧ k = o)).
Proof.
  intros Hi [Ho Hin]. pose proof (iv_linked _ _ _ Hi) as Hl.
  destruct (linked_remove s G x o Hl Ho Hin) as (s' & l1 & l2 & f & HG & Hf & He & Hl' & Hrl & Hcore).
  assert (Hlen : frames_len s' = frames_len s) by (unfold frames_len; by rewrite (rl_len _ _ _ Hrl)).
  pose proof (free_block_remove G x o l1 l2) as Hfb.
  assert (HxA : (x, o) ∉ A) by (apply (blocks_free_or_held s G); [done|apply Hi|by split]).
  exists s', (upd G (zix x) o (l1 ++ l2)).
  assert (Hfb' : ∀ p k, free_block (upd G (zix x) o (l1 ++ l2)) p k ↔ free_block G p k ∧ ¬ (p = x ∧ k = o)).
  { intros p k. apply Hfb; [done|]. apply (lk_nodup s); eauto with bhaskix. }
  assert (Hgeo : geo (frames_len s) (with_block (blocks (upd G (zix x) o (l1 ++ l2)) A) x o)).
  { eapply geo_mono; [|apply Hi]. intros p k. unfold with_block, blocks. rewrite Hfb'.
    intros [[[? _]|?]|[-> ->]]; [by left|by right|left; by split]. }
  split_and!; try done.
  - split; [done| |].
    + rewrite Hlen. eapply geo_mono; [|apply Hgeo]. intros; by left.
    + assert (HxA' : ∀ k, (x, k) ∉ A).
      { intros k HA. destruct (geo_disjoint _ _ (iv_geo _ _ _ Hi) x o x k x) as [_ ->];
          [left; by split|by right|apply covers_self..|done]. }
      apply (held_core s s' A x); eauto using iv_held, rl_core, inv_held_nonneg.
  - apply hole_of_geo; [done|]. unfold blocks. rewrite Hfb'. naive_solver.
Qed.

(** ** Allocation *)

Lemma hole_with_block N G A G' p o q c :
  (∀ a k, free_block G' a k ↔ free_block G a k ∨ a = q ∧ k = c) →
  hole N (blocks G A) p o → (∀ f, covers p o f → covers q c f → False) →
  hole N (blocks G' A) p o.
Proof.
  intros HG [Hfit Hd] Hne. split; [done|]. intros a k f HB Hc Hc'.
  unfold blocks in HB. rewrite HG in HB. destruct HB as [[HB|[-> ->]]|HB]; eauto.
  - eapply (Hd a k); eauto. by left.
  - eapply (Hd a k); eauto. by right.
Qed.

Lemma split_loop_spec n s G A p target :
  inv s G A → hole (frames_len s) (blocks G A) p (target + n) →
  ∃ s' G', Pmm.split_loop n s p target = Done s' ∧ inv s' G' A ∧ frames_len s' = frames_len s ∧
    hole (frames_len s) (blocks G' A) p target ∧
    (∀ f, free_set G' f ∨ covers p target f ↔ free_set G f ∨ covers p (target + n) f).
Proof.
  revert s G; induction n as [|n IH]; intros s G Hi Hho.
  { exists s, G. rewrite Nat.add_0_r in *. simpl. split_and!; try done. }
  rewrite Nat.add_succ_r in Hho. destruct (hole_split _ _ _ _ Hho) as (Hlo & Hhi & Hdis).
  simpl. pose proof Hhi as [Hfh _]. pose proof (size_of_pos (target + n)) as Hpos.
  pose proof (lk_len _ _ (iv_linked _ _ _ Hi)) as Hlen. unfold frames_len in Hfh.
  unfold add_checked at 1. rewrite checked_ok by (destruct Hfh; unfold in_width; lia). simpl.
  destruct (inv_push s G A _ _ Hi Hhi) as (s1 & -> & Hi1 & Hlen1). simpl.
  set (G1 := upd _ _ _ _) in Hi1.
  assert (HG1 : ∀ a k, free_block G1 a k ↔ free_block G a k ∨ a = p + size_of (target + n) ∧ k = (target + n)%nat).
  { intros a k. apply free_block_push, Hfh. }
  destruct (IH s1 G1 Hi1) as (s' & G' & He & Hi' & Hlen' & Hho' & Hset).
  { rewrite Hlen1. eapply hole_with_block; eauto. }
  exists s', G'. rewrite Hlen1 in *. split_and!; try done. intros f. rewrite Hset.
  rewrite Nat.add_succ_r, covers_halves. unfold free_set. split.
  - intros [(a & k & [HB|[-> ->]]%HG1 & Hc)|?]; eauto 10.
  - intros [(a & k & HB & Hc)|[?|?]]; [left; exists a, k; rewrite HG1; tauto|by right|].
    left. eexists _, _. rewrite HG1. eauto.
Qed.

Lemma find_order_spec fuel fl o :
  length fl = ORDER_COUNT → (o ≤ ORDER_COUNT < fuel + o)%nat →
  ∃ r, Pmm.find_order fuel fl o = Done r ∧
    match r with
    | Some k => (o ≤ k ≤ MAX_ORDER)%nat ∧ ∃ h, fl !! k = Some h ∧ h ≠ NONE
    | None => ∀ k h, (o ≤ k ≤ MAX_ORDER)%nat → fl !! k = Some h → h = NONE
    end.
Proof.
  intros Hlen. revert o; induction fuel as [|fuel IH]; intros o Hf; simpl.
  { lia. }
  destruct (decide (MAX_ORDER < o)%nat).
  { exists None. split; [done|]. intros; lia. }
  destruct (lookup_lt_is_Some_2 fl o) as [h Hh]; [rewrite Hlen, order_count_max; lia|].
  rewrite (at_index_ok _ _ _ Hh). simpl. destruct (Z.eqb_spec h NONE) as [->|Hne].
  - destruct (IH (S o)) as (r & He & Hr); [rewrite order_count_max in *; lia|]. exists r. split; [done|].
    destruct r as [k|]; [destruct Hr as [? ?]; split; [lia|done]|].
    intros k h Hk Hlk. destruct (decide (k = o)) as [->|]; [congruence|]. apply (Hr k); [lia|done].
  - exists (Some o). split; [done|]. split; [lia|eauto].
Qed.

(** The last write of [allocate_from]: a hole becomes a held block. *)
Definition mark_allocated (f : Frame) (o : nat) : Frame :=
  MkFrame FAllocated o false 1 (owner f) (next f) (prev f) (slab f).

Lemma linked_unlisted_write s G x f g :
  linked s G → 0 ≤ x → fr s x = Some f → is_head f = false → is_head g = false →
  linked (set_frame s x g) G.
Proof.
  intros Hl Hx Hf Hh Hg.
  assert (Hne : ∀ z o q, (z < 2)%nat → (o ≤ MAX_ORDER)%nat → q ∈ G z o → 0 ≤ q ∧ q ≠ x).
  { intros z o q Hz Ho Hq. split; [by apply (lk_elem s G z o)|]. intros ->.
    by apply (not_head_not_listed s G x f z o). }
  assert (Hsx : is_Some (fr s x)) by eauto.
  split.
  - apply (lk_zones _ _ Hl).
  - rewrite length_set_frame. apply (lk_len _ _ Hl).
  - intros z Hz. destruct (lk_zone s G Hl z Hz) as (zs & Hzs & Hlen & Hfree & Hlk).
    exists zs. split_and!; try done. intros o h Ho Hh'. eapply links_ext; [|by apply Hlk].
    intros y Hy. destruct (Hne z o y Hz Ho Hy). rewrite nx_set, pv_set by done.
    by rewrite !(decide_False (P := y = x)).
  - apply (lk_nodup _ _ Hl).
  - intros z o q Hz Ho Hq. destruct (lk_in s G Hl z o q Hz Ho Hq) as (H0 & Hzq & Has).
    destruct (Hne z o q Hz Ho Hq). split_and!; try done. rewrite fr_set by done.
    by rewrite decide_False.
  - intros q h Hq. rewrite fr_set by done. destruct (decide (q = x)); [congruence|].
    by apply (lk_head s G Hl).
Qed.

Lemma inv_hold s G A p o f :
  inv s G A → hole (frames_len s) (blocks G A) p o → fr s p = Some f →
  inv (set_frame s p (mark_allocated f o)) G ({[(p, o)]} ∪ A).
Proof.
  intros Hi Hho Hf. destruct (hole_frame s G A p o p Hi Hho (covers_self p o)) as (H0 & f' & Hf' & Hnh).
  simplify_eq. pose proof Hho as [Hfit Hd]. split.
  - by eapply linked_unlisted_write; [apply Hi| | | |].
  - unfold frames_len. rewrite length_set_frame.
    eapply geo_mono; [|apply (geo_add _ _ p o (iv_geo _ _ _ Hi) Hfit Hd)].
    intros q k [?|[Heq%elem_of_singleton|?]%elem_of_union]; unfold with_block, blocks; [tauto| |tauto].
    right. by simplify_eq.
  - intros q k [Heq%elem_of_singleton|HA]%elem_of_union.
    + simplify_eq. rewrite fr_set, decide_True by eauto. eauto.
    + rewrite fr_set by eauto using inv_held_nonneg. destruct (decide (q = p)) as [->|].
      * exfalso. apply (Hd p k p); [by right|apply covers_self..].
      * by apply (iv_held _ _ _ Hi).
Qed.

Lemma zone_list_head s G z k zs h :
  linked s G → (z < 2)%nat → (k ≤ MAX_ORDER)%nat → zones s !! z = Some zs →
  free_lists zs !! k = Some h → h ≠ NONE → free_block G h k ∧ zix h = z.
Proof.
  intros Hl Hz Hk Hzs Hh Hne.
  destruct (linked_head_elem s G z k h zs Hl Hz Hk Hzs Hh) as [_ [[? _]|[Hin _]]]; [done|].
  destruct (lk_in s G Hl z k h Hz Hk Hin) as (_ & <- & _). split; [|done]. by split.
Qed.

Lemma allocate_from_spec s G A o zn :
  inv s G A → (o ≤ MAX_ORDER)%nat →
  ∃ r s', Pmm.allocate_from s o zn = Done (r, s') ∧
    match r with
    | Some p => ∃ G', inv s' G' ({[(p, o)]} ∪ A) ∧ frames_len s' = frames_len s ∧
        zix p = zone_index zn ∧ fits (frames_len s) p o ∧ hole (frames_len s) (blocks G' A) p o ∧
        (∀ f, free_set G' f ∨ covers p o f ↔ free_set G f)
    | None => s' = s ∧ ∀ k, (o ≤ k ≤ MAX_ORDER)%nat → G (zone_index zn) k = []
    end.
Proof.
  intros Hi Ho. pose proof (iv_linked _ _ _ Hi) as Hl. unfold Pmm.allocate_from.
  assert (Hz : (zone_index zn < 2)%nat) by (destruct zn; simpl; lia).
  destruct (lk_zone s G Hl _ Hz) as (zs & Hzs & Hlen & _ & _).
  rewrite (at_index_ok _ _ _ Hzs). cbn [mbind outcome_bind].
  destruct (find_order_spec (S ORDER_COUNT) (free_lists zs) o Hlen) as (r & -> & Hr);
    [rewrite order_count_max; lia|]. simpl.
  destruct r as [k|].
  2: { exists None, s. split_and!; try done. intros k Hk.
       destruct (lookup_lt_is_Some_2 (free_lists zs) k) as [h Hh]; [rewrite Hlen, order_count_max; lia|].
       destruct (linked_head_elem s G _ k h zs Hl Hz) as [_ [[_ ?]|[_ Hne]]]; try done; [lia|].
       by specialize (Hr k h Hk Hh). }
  destruct Hr as (Hk & h & Hh & Hne).
  destruct (zone_list_head s G _ k zs h Hl Hz) as [Hfb Hzh]; try done; [lia|].
  rewrite (at_index_ok _ _ _ Hh). simpl.
  destruct (inv_remove s G A h k Hi Hfb) as (s1 & G1 & -> & Hi1 & Hlen1 & Hho1 & HG1). simpl.
  destruct (split_loop_spec (k - o) s1 G1 A h o Hi1) as (s2 & G2 & -> & Hi2 & Hlen2 & Hho2 & Hset2).
  { rewrite Hlen1. by replace (o + (k - o))%nat with k by lia. }
  simpl. rewrite Hlen1 in *.
  assert (Hho2' : hole (frames_len s2) (blocks G2 A) h o) by by rewrite Hlen2.
  destruct (hole_frame s2 G2 A h o h Hi2 Hho2' (covers_self h o)) as (_ & f & Hf & _).
  rewrite (get_frame_ok _ _ _ Hf). simpl. eexists (Some h), _. split; [done|].
  exists G2. split; [by apply inv_hold|].
  split; [unfold frames_len in *; rewrite length_set_frame; congruence|].
  split_and!; [done|apply Hho2|done|].
  intros f'. rewrite Hset2. replace (o + (k - o))%nat with k by lia.
  unfold free_set. split.
  - intros [(a & j & [HB _]%HG1 & Hc)|Hc]; eauto.
  - intros (a & j & HB & Hc). destruct (decide (a = h ∧ j = k)) as [[-> ->]|Hn]; [by right|].
    left. exists a, j. rewrite HG1. done.
Qed.

(** ** Freeing *)

Lemma inv_release s G A p o f :
  inv s G A → (p, o) ∈ A → fr s p = Some f →
  let g := MkFrame (state f) (order f) (is_head f) 0 NO_OWNER (next f) (prev f) (slab f) in
  inv (set_frame s p g) G (A ∖ {[(p, o)]}) ∧
  hole (frames_len s) (blocks G (A ∖ {[(p, o)]})) p o.
Proof.
  intros Hi HA Hf g. pose proof (inv_held_nonneg _ _ _ _ _ Hi HA) as H0.
  destruct (iv_held _ _ _ Hi p o HA) as (f' & Hf' & Hs & _).
  assert (f' = f) as -> by congruence.
  assert (Hnh : is_head f = false).
  { destruct (is_head f) eqn:Hh; [|done]. destruct (lk_head s G (iv_linked _ _ _ Hi) p f) as [Ho Hin]; try done.
    destruct (lk_in s G (iv_linked _ _ _ Hi) _ _ _ (zix_lt p) Ho Hin) as (_ & _ & h & ? & ? & _). congruence. }
  assert (Hsub : ∀ q k, blocks G (A ∖ {[(p, o)]}) q k → blocks G A q k ∧ ¬ (q = p ∧ k = o)).
  { intros q k [HB|HB].
    - split; [by left|]. intros [-> ->]. by apply (blocks_free_or_held s G A p o (iv_linked _ _ _ Hi) (iv_held _ _ _ Hi)).
    - apply elem_of_difference in HB as [? Hn]. split; [by right|]. intros [-> ->]. by apply Hn, elem_of_singleton. }
  split; [split|].
  - by eapply linked_unlisted_write; [apply Hi| | | |].
  - unfold frames_len. rewrite length_set_frame. eapply geo_mono; [|apply Hi]. intros q k HB. by apply Hsub.
  - intros q k Hq. destruct (Hsub q k (or_intror Hq)) as [_ Hn].
    apply elem_of_difference in Hq as [Hq _]. rewrite fr_set by eauto using inv_held_nonneg.
    destruct (decide (q = p)) as [->|]; [|by apply (iv_held _ _ _ Hi)].
    destruct (geo_disjoint _ _ (iv_geo _ _ _ Hi) p o p k p) as [_ ->]; try apply covers_self; [by right..|].
    by destruct Hn.
  - split; [apply (geo_fits _ _ (iv_geo _ _ _ Hi)); by right|]. intros q k x [HB Hn]%Hsub Hc Hc'.
    apply Hn. destruct (geo_disjoint _ _ (iv_geo _ _ _ Hi) q k p o x) as [-> ->]; try done. by right.
Qed.

Lemma coalesce_spec fuel s G A p o :
  inv s G A → hole (frames_len s) (blocks G A) p o → (MAX_ORDER < fuel + o)%nat →
  ∃ s' G' p' o', Pmm.coalesce fuel s p o = Done (s', p', o') ∧ inv s' G' A ∧
    frames_len s' = frames_len s ∧ hole (frames_len s) (blocks G' A) p' o' ∧
    (∀ f, free_set G' f ∨ covers p' o' f ↔ free_set G f ∨ covers p o f).
Proof.
  revert s G p o; induction fuel as [|fuel IH]; intros s G p o Hi Hho Hf.
  { destruct Hho as [[] _]. lia. }
  assert (Hstop : ∃ s' G' p' o', Done (s, p, o) = Done (s', p', o') ∧ inv s' G' A ∧
    frames_len s' = frames_len s ∧ hole (frames_len s) (blocks G' A) p' o' ∧
    (∀ f, free_set G' f ∨ covers p' o' f ↔ free_set G f ∨ covers p o f)) by eauto 10.
  simpl. destruct (decide (o < MAX_ORDER)%nat) as [Ho|]; [|done].
  set (q := Z.lxor p (size_of o)). pose proof Hho as [Hfit Hd].
  destruct (Z.leb_spec (Z.of_nat (length (frames s))) q) as [|Hq]; [done|].
  assert (Hq0 : 0 ≤ q).
  { unfold q. apply Z.lxor_nonneg. pose proof (size_of_pos o). destruct Hfit. lia. }
  destruct (lookup_lt_is_Some_2 (frames s) (Z.to_nat q)) as [g Hg]; [lia|].
  rewrite (get_frame_ok s q g Hg). cbn [mbind outcome_bind].
  destruct (bool_decide (state g = FFree) && is_head g && (order g =? o)%nat) eqn:Hm; [|done].
  simpl negb. cbn [negb].
  destruct ((Z.min p q <? DMA32_LIMIT_PFN) && (DMA32_LIMIT_PFN <? Z.min p q + 2 * size_of o)) eqn:Hcross; [done|].
  rewrite !andb_true_iff, Nat.eqb_eq in Hm. destruct Hm as [[_ Hhead] <-].
  destruct (lk_head s G (iv_linked _ _ _ Hi) q g Hq0 Hg Hhead) as [Hok Hin].
  destruct (inv_remove s G A q (order g) Hi) as (s1 & G1 & -> & Hi1 & Hlen1 & Hho1 & HG1); [by split|].
  cbn [mbind outcome_bind].
  pose proof Hho1 as [Hfitq Hdq].
  destruct (merge_buddies (frames_len s) p q (order g) Hfit Hfitq eq_refl Ho) as [Hfitm Hcov]; [lia|].
  destruct (IH s1 G1 (Z.min p q) (S (order g)) Hi1) as (s' & G' & p' & o' & He & Hi' & Hlen' & Hho' & Hset).
  - rewrite Hlen1. split; [done|]. intros a k f HB Hc [Hc'|Hc']%Hcov; [|by apply (Hdq a k f)].
    apply (Hd a k f); try done. destruct HB as [[HB _]%HG1|HB]; [by left|by right].
  - lia.
  - exists s', G', p', o'. rewrite Hlen1 in *. split_and!; try done. intros f. rewrite Hset, Hcov.
    unfold free_set. split.
    + intros [(a & k & [HB _]%HG1 & Hc)|[?|?]]; [by eauto|by right|]. left. exists q, (order g).
      split; [by split|done].
    + intros [(a & k & HB & Hc)|?]; [|tauto]. destruct (decide (a = q ∧ k = order g)) as [[-> ->]|Hn]; [tauto|].
      left. exists a, k. rewrite HG1. done.
Qed.

(** ** Adding memory *)

Lemma fit_order_spec o p e :
  (o ≤ MAX_ORDER)%nat → 0 ≤ p → p < e → e ≤ 2 ^ 32 - 1024 →
  ∃ k, Pmm.fit_order o p e = Done k ∧ (k ≤ o)%nat ∧ p mod size_of k = 0 ∧ p + size_of k ≤ e.
Proof.
  intros Ho H0 He Hb. induction o as [|o IH]; simpl.
  { exists O. change (size_of 0) with 1. split_and!; [done|lia|apply Z.mod_1_r|lia]. }
  destruct IH as (k & Hk & Hle & Hm & Hi); [lia|].
  assert (Hrest : ∃ k, Pmm.fit_order o p e = Done k ∧ (k ≤ S o)%nat ∧ p mod size_of k = 0 ∧ p + size_of k ≤ e).
  { exists k. split_and!; try done. lia. }
  destruct (Z.eqb_spec (p mod size_of (S o)) 0) as [Hz|]; [|done].
  pose proof (size_of_max (S o) Ho). pose proof (size_of_pos (S o)).
  unfold add_checked. rewrite checked_ok by (unfold in_width; lia). cbn [mbind outcome_bind].
  destruct (Z.leb_spec (p + size_of (S o)) e); [|done]. exists (S o). done.
Qed.

Lemma aligned_lower p k : p mod size_of (S k) = 0 → p mod size_of k = 0.
Proof.
  rewrite size_of_S. pose proof (size_of_pos k). intros Ha. apply Z.mod_divide in Ha as [x ->]; [|lia].
  replace (x * (2 * size_of k)) with (x * 2 * size_of k) by lia. apply Z.mod_mul. lia.
Qed.

Lemma clip_order_spec o p N :
  (o ≤ MAX_ORDER)%nat → 0 ≤ p → p mod size_of o = 0 → p + size_of o ≤ N → N ≤ 2 ^ 32 - 1024 →
  ∃ k, Pmm.clip_order o p = Done k ∧ fits N p k ∧ size_of k ≤ size_of o.
Proof.
  intros Ho H0 Ha Hi HN. induction o as [|o IH]; simpl.
  { exists O. change (size_of 0) with 1 in *. split_and!; try done. split; try done.
    change (size_of 0) with 1. lia. }
  pose proof (size_of_S o) as HS. pose proof (size_of_pos o).
  destruct (Z.ltb_spec p DMA32_LIMIT_PFN) as [Hp|Hp].
  2: { exists (S o). split_and!; try done. split; try done. lia. }
  pose proof (size_of_max (S o) Ho).
  unfold add_checked. rewrite checked_ok by (unfold in_width; lia). cbn [mbind outcome_bind].
  destruct (Z.ltb_spec DMA32_LIMIT_PFN (p + size_of (S o))) as [|Hz].
  - destruct IH as (k & -> & Hk & Hle); [lia|by apply aligned_lower|lia|]. exists k. split_and!; try done. lia.
  - exists (S o). by split_and!.
Qed.

(** A range of frames no block touches. *)
Definition untouched (B : Z → nat → Prop) (lo hi : Z) : Prop :=
  ∀ q k f, B q k → covers q k f → ¬ (lo ≤ f < hi).

Lemma release_blocks_spec fuel s G A p e :
  inv s G A → 0 ≤ p ≤ e → e ≤ frames_len s → untouched (blocks G A) p e →
  (Z.to_nat (e - p) < fuel)%nat →
  ∃ s' G', Pmm.release_blocks fuel s p e = Done s' ∧ inv s' G' A ∧ frames_len s' = frames_len s ∧
    (∀ f, free_set G' f ↔ free_set G f ∨ p ≤ f < e).
Proof.
  revert s G p; induction fuel as [|fuel IH]; intros s G p Hi Hp He Hun Hf; [lia|].
  simpl. destruct (Z.ltb_spec p e) as [Hlt|Hge].
  2: { exists s, G. split_and!; try done. intros f. split; [tauto|]. intros [?|?]; [done|lia]. }
  pose proof (lk_len _ _ (iv_linked _ _ _ Hi)) as Hlen. fold (frames_len s) in Hlen.
  destruct (fit_order_spec MAX_ORDER p e) as (o & -> & Ho & Ha & Hie); [lia..|]. cbn [mbind outcome_bind].
  destruct (clip_order_spec o p (frames_len s)) as (k & -> & Hfit & Hle); [lia..|]. cbn [mbind outcome_bind].
  assert (Hho : hole (frames_len s) (blocks G A) p k).
  { split; [done|]. intros q j f HB Hc Hc'. apply (Hun q j f HB Hc). unfold covers in Hc'. lia. }
  destruct (inv_push s G A p k Hi Hho) as (s1 & -> & Hi1 & Hlen1). cbn [mbind outcome_bind].
  set (G1 := upd _ _ _ _) in Hi1. pose proof (size_of_pos k) as Hpos.
  assert (HG1 : ∀ a j, free_block G1 a j ↔ free_block G a j ∨ a = p ∧ j = k).
  { intros a j. apply free_block_push, Hfit. }
  unfold add_checked. rewrite checked_ok by (unfold in_width; lia). cbn [mbind outcome_bind].
  destruct (IH s1 G1 (p + size_of k) Hi1) as (s' & G' & He' & Hi' & Hlen' & Hset); [lia|lia| |lia|].
  { intros q j f HB Hc Hr. unfold blocks in HB. rewrite HG1 in HB. destruct HB as [[HB|[-> ->]]|HB].
    - apply (Hun q j f); [by left|done|lia].
    - unfold covers in Hc. lia.
    - apply (Hun q j f); [by right|done|lia]. }
  exists s', G'. rewrite Hlen1 in *. split_and!; try done. intros f. rewrite Hset. unfold free_set. split.
  - intros [(a & j & [HB|[-> ->]]%HG1 & Hc)|?]; [left; by eauto|right; unfold covers in Hc; lia|right; lia].
  - intros [(a & j & HB & Hc)|Hr]; [left; exists a, j; rewrite HG1; tauto|].
    destruct (decide (f < p + size_of k)); [left; exists p, k; rewrite HG1; unfold covers; split; [tauto|lia]|right; lia].
Qed.

(** The first loop: every frame of the range becomes free and is counted. *)
Lemma inv_managed s G A z m zs :
  inv s G A → zones s !! z = Some zs →
  inv (set_zone s z (MkZoneState (free_lists zs) (free_frames_ zs) m)) G A.
Proof.
  intros [Hl Hg Hh] Hzs. split; [|done|done]. destruct Hl as [Hz Hlen Hzone Hnd Hin Hhead].
  assert (Hzl : (z < length (zones s))%nat) by by eapply lookup_lt_Some.
  split; try done.
  - simpl. by rewrite length_insert.
  - intros z' Hz'. destruct (Hzone z' Hz') as (zs' & Hzs' & Hl' & Hf' & Hlk'). simpl.
    rewrite list_lookup_insert. destruct (decide (z = z' ∧ _)) as [[<- _]|]; [|by eauto].
    simplify_eq. eexists. split; [done|]. simpl. done.
Qed.

Lemma release_frame_spec s G A p :
  inv s G A → 0 ≤ p < frames_len s → untouched (blocks G A) p (p + 1) →
  (∀ z zs, zones s !! z = Some zs → in_width 64 (managed_frames_ zs + 1)) →
  ∃ s', Pmm.release_frame s p = Done s' ∧ inv s' G A ∧ frames_len s' = frames_len s ∧
    (∀ z zs, zones s' !! z = Some zs → ∃ zs0, zones s !! z = Some zs0 ∧
       managed_frames_ zs0 ≤ managed_frames_ zs ≤ managed_frames_ zs0 + 1).
Proof.
  intros Hi Hp Hun Hm. unfold Pmm.release_frame. fold (zix p). unfold frames_len in Hp.
  destruct (lookup_lt_is_Some_2 (frames s) (Z.to_nat p)) as [f Hf]; [lia|].
  rewrite (get_frame_ok s p f Hf). cbn [mbind outcome_bind].
  assert (Hnh : is_head f = false).
  { destruct (is_head f) eqn:Hh; [|done]. exfalso.
    destruct (lk_head s G (iv_linked _ _ _ Hi) p f) as [Ho Hin]; [lia|done|done|].
    apply (Hun p (order f) p); [left; by split|apply covers_self|lia]. }
  set (g := MkFrame FFree _ _ _ _ _ _ _).
  destruct (lk_zone s G (iv_linked _ _ _ Hi) (zix p) (zix_lt p)) as (zs & Hzs & _).
  change (zones (set_frame s p g)) with (zones s). rewrite (at_index_ok _ _ _ Hzs). cbn [mbind outcome_bind].
  unfold add_checked. rewrite checked_ok by eauto. cbn [mbind outcome_bind].
  assert (Hi1 : inv (set_frame s p g) G A).
  { split.
    - by eapply linked_unlisted_write; [apply Hi|lia| | |].
    - unfold frames_len. rewrite length_set_frame. apply Hi.
    - intros q k HA. rewrite fr_set by (eauto using inv_held_nonneg; lia). destruct (decide (q = p)) as [->|].
      + exfalso. apply (Hun p k p); [by right|apply covers_self|lia].
      + by apply (iv_held _ _ _ Hi). }
  eexists. split; [done|]. split; [by apply inv_managed|].
  split; [unfold frames_len; simpl; by rewrite length_insert|].
  intros z zs'. simpl. rewrite list_lookup_insert.
  destruct (decide (zix p = z ∧ _)) as [[<- _]|]; [intros [= <-]; simpl; exists zs; split; [done|lia]|].
  intros Hz'. exists zs'. split; [done|lia].
Qed.

Definition managed_room (s : Pmm) (n : Z) : Prop :=
  ∀ z zs, zones s !! z = Some zs → 0 ≤ managed_frames_ zs ∧ managed_frames_ zs + n < 2 ^ 64.

Lemma release_frames_spec n s G A p :
  inv s G A → 0 ≤ p → p + Z.of_nat n ≤ frames_len s →
  untouched (blocks G A) p (p + Z.of_nat n) → managed_room s (Z.of_nat n) →
  ∃ s', for_each Pmm.release_frame (seqZ p (Z.of_nat n)) s = Done s' ∧
    inv s' G A ∧ frames_len s' = frames_len s.
Proof.
  revert s p; induction n as [|n IH]; intros s p Hi Hp Hn Hun Hm; [by exists s|].
  rewrite seqZ_cons by lia. simpl.
  destruct (release_frame_spec s G A p Hi) as (s1 & -> & Hi1 & Hlen1 & Hm1); [lia| | |].
  { intros q k f HB Hc Hr. apply (Hun q k f); try done. lia. }
  { intros z zs Hzs. destruct (Hm z zs Hzs). unfold in_width. lia. }
  cbn [mbind outcome_bind]. replace (Z.succ p) with (p + 1) by lia.
  replace (Z.pred (Z.of_nat (S n))) with (Z.of_nat n) by lia.
  destruct (IH s1 (p + 1)) as (s' & -> & Hi' & Hlen'); [done|lia|lia| | |].
  - intros q k f HB Hc Hr. apply (Hun q k f); try done. lia.
  - intros z zs Hzs. destruct (Hm1 z zs Hzs) as (zs0 & Hzs0 & Hle). destruct (Hm z zs0 Hzs0). lia.
  - exists s'. rewrite Hlen1 in *. done.
Qed.

Lemma add_free_range_spec s G A lo hi :
  inv s G A → 0 ≤ lo → untouched (blocks G A) lo hi → managed_room s (frames_len s) →
  ∃ s' G', Pmm.add_free_range s lo hi = Done s' ∧ inv s' G' A ∧ frames_len s' = frames_len s ∧
    (∀ f, free_set G' f ↔ free_set G f ∨ lo ≤ f < Z.min hi (frames_len s)).
Proof.
  intros Hi Hlo Hun Hm. pose proof (lk_len _ _ (iv_linked _ _ _ Hi)) as Hlen.
  unfold Pmm.add_free_range. fold (frames_len s) in *.
  rewrite trunc_small by (unfold in_width, frames_len in *; lia).
  set (e := Z.min hi (frames_len s)). destruct (Z.leb_spec e lo) as [|Hlt].
  { exists s, G. split_and!; try done. intros f. split; [tauto|]. intros [?|?]; [done|lia]. }
  unfold Pmm.range. replace (e - lo) with (Z.of_nat (Z.to_nat (e - lo))) by lia.
  destruct (release_frames_spec (Z.to_nat (e - lo)) s G A lo) as (s1 & -> & Hi1 & Hlen1); try done; [lia| | |].
  { intros q k f HB Hc Hr. apply (Hun q k f); try done. lia. }
  { intros z zs Hzs. destruct (Hm z zs Hzs). lia. }
  cbn [mbind outcome_bind]. rewrite Nat2Z.id.
  destruct (release_blocks_spec (S (Z.to_nat (e - lo))) s1 G A lo e Hi1) as (s' & G' & He & Hi' & Hlen' & Hset);
    [lia|lia| |lia|].
  { intros q k f HB Hc Hr. apply (Hun q k f); try done. lia. }
  exists s', G'. rewrite Hlen1 in *. done.
Qed.

(** The managed counters only move by the frames a range adds. *)
Definition managed_le (s : Pmm) (m : Z) : Prop :=
  ∀ z zs, zones s !! z = Some zs → 0 ≤ managed_frames_ zs ≤ m.

Lemma managed_le_set s z zs zs' m :
  managed_le s m → zones s !! z = Some zs → managed_frames_ zs' = managed_frames_ zs →
  managed_le (set_zone s z zs') m.
Proof.
  intros Hm Hz He z' y. simpl. rewrite list_lookup_insert. case_decide; [|apply Hm].
  intros [= <-]. rewrite He. by apply (Hm z).
Qed.

Lemma push_block_managed s p o s' m : Pmm.push_block s p o = Done s' → managed_le s m → managed_le s' m.
Proof.
  unfold Pmm.push_block. intros H Hm. cbv zeta in H. inv_done. case_match; inv_done;
    by eapply managed_le_set.
Qed.

Lemma release_blocks_managed fuel : ∀ s p e s' m,
  Pmm.release_blocks fuel s p e = Done s' → managed_le s m → managed_le s' m.
Proof.
  induction fuel as [|fuel IH]; intros s p e s' m H Hm; simpl in H; [done|].
  case_match; inv_done; [|done]. eauto using push_block_managed.
Qed.

Lemma release_frames_managed l : ∀ s s' m,
  for_each Pmm.release_frame l s = Done s' → managed_le s m → managed_le s' (m + Z.of_nat (length l)).
Proof.
  induction l as [|p l IH]; intros s s' m H Hm; simpl in H; [simplify_eq; by rewrite Z.add_0_r|].
  inv_done. replace (m + _) with (m + 1 + Z.of_nat (length l)) by (simpl; lia). eapply IH; [done|].
  unfold Pmm.release_frame in Hv. cbv zeta in Hv. inv_done. intros z zs. simpl.
  rewrite list_lookup_insert. case_decide as Hc.
  - intros [= <-]. simpl. specialize (Hm _ _ Hv1). lia.
  - intros Hz. specialize (Hm _ _ Hz). lia.
Qed.

Lemma add_free_range_managed s lo hi s' m :
  Pmm.add_free_range s lo hi = Done s' → 0 ≤ lo → managed_le s m → managed_le s' (m + 2 ^ 32).
Proof.
  unfold Pmm.add_free_range. intros H Hlo Hm. pose proof (trunc_range 32 (Z.of_nat (length (frames s)))) as Ht.
  unfold in_width in Ht. cbv zeta in H. case_match.
  - simplify_eq. intros z zs Hz. specialize (Hm z zs Hz). lia.
  - inv_done. eapply release_blocks_managed; [done|]. intros z zs Hz.
    destruct (release_frames_managed _ _ _ _ Hv Hm z zs Hz) as [? Hle]. split; [done|].
    unfold Pmm.range in Hle. rewrite length_seqZ in Hle. lia.
Qed.

Lemma managed_le_room s m n : managed_le s m → m + n < 2 ^ 64 → managed_room s n.
Proof. intros Hm Hn z zs Hz. specialize (Hm z zs Hz). lia. Qed.

(** A fresh allocator: everything reserved, every list empty. *)
Lemma new_inv fs : Z.of_nat (length fs) ≤ 2 ^ 32 - 1024 → inv (Pmm.new fs) (fun _ _ => []) ∅.
Proof.
  intros Hlen.
  assert (Hfr : ∀ p f, fr (Pmm.new fs) p = Some f → f = reserved).
  { intros p f Hf. by apply lookup_replicate in Hf as [-> _]. }
  assert (Hnil : ∀ p o, ¬ free_block (fun _ _ => []) p o) by (intros p o [_ ?%elem_of_nil]; done).
  split; [split| |].
  - done.
  - simpl. by rewrite length_replicate.
  - intros z Hz. exists zone_new. split_and!.
    + by destruct z as [|[|z]]; [done|done|lia].
    + apply length_replicate.
    + reflexivity.
    + intros o h _ Hh. by apply lookup_replicate in Hh as [-> _].
  - intros. apply NoDup_nil_2.
  - by intros z o p _ _ ?%elem_of_nil.
  - intros p f _ ->%Hfr. done.
  - split; [intros p o [?%Hnil|?]|intros p o q k f [?%Hnil|?]]; try done; by set_solver.
  - intros p o ?. set_solver.
Qed.

(** ** The abstract allocator

    [F] is the set of free frames and [A] the set of blocks held by callers;
    [represents] hides the free lists that realise them. *)
Definition represents (s : Pmm) (F : Z → Prop) (A : gset (Z * nat)) : Prop :=
  ∃ G, inv s G A ∧ ∀ f, F f ↔ free_set G f.

Lemma represents_ext s F F' A : (∀ f, F f ↔ F' f) → represents s F A → represents s F' A.
Proof. intros He (G & Hi & HF). exists G. split; [done|]. intros f. by rewrite <- He. Qed.

Lemma free_set_hole N G A p o f :
  hole N (blocks G A) p o → free_set G f → covers p o f → False.
Proof. intros [_ Hd] (q & k & HB & Hc) Hc'. apply (Hd q k f); try done. by left. Qed.

(** No head of a free block in zone [zn] is large enough for order [o]. *)
Definition exhausted (s : Pmm) (zn : Zone) (o : nat) : Prop :=
  ∀ p f, 0 ≤ p → fr s p = Some f → is_head f = true → zone_of p = zn → (order f < o)%nat.

Lemma zone_index_inj z z' : zone_index z = zone_index z' → z = z'.
Proof. by destruct z, z'. Qed.

Lemma allocate_from_refines s F A o zn :
  represents s F A → (o ≤ MAX_ORDER)%nat →
  ∃ r s', Pmm.allocate_from s o zn = Done (r, s') ∧
    match r with
    | Some p => zone_of p = zn ∧ fits (frames_len s) p o ∧ (∀ f, covers p o f → F f) ∧
        ¬ (p, o) ∈ A ∧ frames_len s' = frames_len s ∧
        represents s' (fun f => F f ∧ ¬ covers p o f) ({[(p, o)]} ∪ A)
    | None => s' = s ∧ exhausted s zn o
    end.
Proof.
  intros (G & Hi & HF) Ho.
  destruct (allocate_from_spec s G A o zn Hi Ho) as (r & s' & He & Hr).
  exists r, s'. split; [done|]. destruct r as [p|].
  - destruct Hr as (G' & Hi' & Hlen & Hz & Hfit & Hho & Hset). split_and!; try done.
    + by apply zone_index_inj.
    + intros f Hc. apply HF, Hset. by right.
    + intros HA. destruct Hho as [_ Hd]. apply (Hd p o p); [by right|apply covers_self..].
    + exists G'. split; [done|]. intros f. rewrite HF, <- Hset. split.
      * intros [[?|?] ?]; done.
      * intros Hf. split; [by left|]. intros Hc. by eapply free_set_hole.
  - destruct Hr as [-> Hnil]. split; [done|]. intros p f Hp Hf Hh Hz.
    destruct (lk_head s G (iv_linked _ _ _ Hi) p f Hp Hf Hh) as [Hle Hin].
    destruct (decide (order f < o)%nat) as [|Hn]; [done|]. exfalso.
    unfold zix in Hin. rewrite Hz, (Hnil (order f)) in Hin by lia. by apply elem_of_nil in Hin.
Qed.

(** ** Accounting and the self check *)

(** Every block on a free list, with its order. *)
Definition all_blocks (G : lists) : list (nat * nat * Z) :=
  z ← seq 0 2; o ← seq 0 ORDER_COUNT; p ← G z o; [(z, o, p)].

Lemma elem_all_blocks s G z o p :
  linked s G → (z, o, p) ∈ all_blocks G ↔ z = zix p ∧ free_block G p o.
Proof.
  intros Hl. unfold all_blocks, free_block.
  rewrite list_elem_of_bind. setoid_rewrite list_elem_of_bind. setoid_rewrite list_elem_of_bind.
  setoid_rewrite list_elem_of_singleton. setoid_rewrite elem_of_seq. rewrite order_count_max. split.
  - intros (z' & (o' & (p' & [= -> -> ->] & Hp) & Ho) & Hz).
    destruct (lk_in s G Hl z' o' p') as (_ & <- & _); [lia|lia|done|]. split; [done|]. split; [lia|done].
  - intros [-> [Ho Hp]]. pose proof (zix_lt p).
    exists (zix p). split; [|lia]. exists o. split; [|lia]. by exists p.
Qed.

Lemma NoDup_all_blocks s G : linked s G → NoDup (all_blocks G).
Proof.
  intros Hl. unfold all_blocks. apply NoDup_bind; [| |apply NoDup_seq].
  - intros z z' [[a b] c] _ _ (o & (p & E%list_elem_of_singleton & _)%list_elem_of_bind & _)%list_elem_of_bind.
    intros (o' & (p' & E'%list_elem_of_singleton & _)%list_elem_of_bind & _)%list_elem_of_bind. by simplify_eq.
  - intros z Hz%elem_of_seq. apply NoDup_bind; [| |apply NoDup_seq].
    + intros o o' x _ _ (p & ->%list_elem_of_singleton & _)%list_elem_of_bind.
      intros (p' & E'%list_elem_of_singleton & _)%list_elem_of_bind. by simplify_eq.
    + intros o Ho%elem_of_seq. rewrite order_count_max in Ho. apply NoDup_bind.
      * intros p p' x _ _ ->%list_elem_of_singleton E'%list_elem_of_singleton. by simplify_eq.
      * intros p _. apply NoDup_singleton.
      * apply (lk_nodup s G Hl); lia.
Qed.

(** The free frames, listed block by block. *)
Definition block_frames (b : nat * nat * Z) : list Z := seqZ b.2 (size_of b.1.2).
Definition free_frame_list (G : lists) : list Z := all_blocks G ≫= block_frames.

Lemma elem_free_frame_list s G f : linked s G → f ∈ free_frame_list G ↔ free_set G f.
Proof.
  intros Hl. unfold free_frame_list, free_set, covers. rewrite list_elem_of_bind. split.
  - intros ([[z o] p] & Hf%elem_of_seqZ & [_ HB]%(elem_all_blocks s)); [by exists p, o|done].
  - intros (p & o & HB & Hc). exists (zix p, o, p). rewrite (elem_all_blocks s) by done. split; [by apply elem_of_seqZ|done].
Qed.

Lemma NoDup_free_frame_list s G A : inv s G A → NoDup (free_frame_list G).
Proof.
  intros Hi. pose proof (iv_linked _ _ _ Hi) as Hl. apply NoDup_bind.
  - intros [[z o] p] [[z' o'] p'] f [-> HB]%(elem_all_blocks s) [-> HB']%(elem_all_blocks s) Hf%elem_of_seqZ Hf'%elem_of_seqZ; try done.
    destruct (geo_disjoint _ _ (iv_geo _ _ _ Hi) p o p' o' f) as [-> ->]; try done; by left.
  - intros [[z o] p] _. apply NoDup_seqZ.
  - by eapply NoDup_all_blocks.
Qed.

Lemma length_free_frame_list G :
  Z.of_nat (length (free_frame_list G)) = free_total G 0 + free_total G 1.
Proof.
  unfold free_frame_list, all_blocks, free_total, list_frames.
  assert (Hp : ∀ (z o : nat) (l : list Z), Z.of_nat (length ((p ← l; [(z, o, p)]) ≫= block_frames))
    = Z.of_nat (length l) * size_of o).
  { intros z o l. pose proof (size_of_pos o). induction l as [|p l IH]; [done|]. csimpl.
    rewrite length_app. unfold block_frames at 1. simpl. rewrite length_seqZ. lia. }
  assert (Ho : ∀ z os, Z.of_nat (length ((o ← os; p ← G z o; [(z, o, p)]) ≫= block_frames))
    = foldr (fun o acc => Z.of_nat (length (G z o)) * size_of o + acc) 0 os).
  { intros z os. induction os as [|o os IH]; [done|]. csimpl.
    rewrite bind_app, length_app, Nat2Z.inj_add, IH, Hp. done. }
  csimpl. rewrite !bind_app, !length_app, !Nat2Z.inj_add, !Ho. csimpl. lia.
Qed.

(** What the self check verifies of each list element. *)
Definition checked_block (s : Pmm) (o : nat) (p : Z) : Prop :=
  p ≠ NONE ∧ p mod size_of o = 0 ∧
  ∃ f, fr s p = Some f ∧ state f = FFree ∧ is_head f = true ∧ order f = o.

Lemma walk_spec l : ∀ fuel s o h p c seen,
  links (nx s) (pv s) p h l → (∀ x, x ∈ l → checked_block s o x) →
  (length l < fuel)%nat → (seen + length l ≤ length (frames s))%nat →
  0 ≤ c → c + Z.of_nat (length l) * size_of o < 2 ^ 64 →
  Pmm.walk fuel s o h p c seen = Done (Ok (c + Z.of_nat (length l) * size_of o)).
Proof.
  induction l as [|x l IH]; intros [|fuel] s o h p c seen Hl Hc Hf Hs H0 H64; simpl in Hf; try lia.
  - simpl in *. subst h. rewrite Z.eqb_refl. do 2 f_equal. lia.
  - destruct Hl as (-> & Hp & Hl). destruct (Hc x) as (Hx & Hal & f & Hfr & Hst & Hh & Ho); [left|].
    simpl. rewrite (proj2 (Z.eqb_neq _ _) Hx), (get_frame_ok s x f Hfr). cbn [mbind outcome_bind].
    rewrite bool_decide_true by done. rewrite Hh, Ho, Nat.eqb_refl, Hal.
    unfold pv in Hp. rewrite Hfr in Hp. simpl in Hp. rewrite Hp, !Z.eqb_refl. cbn [negb].
    pose proof (size_of_pos o). simpl length in *.
    unfold add_checked. rewrite checked_ok by (unfold in_width; nia). cbn [mbind outcome_bind].
    rewrite decide_False by lia. rewrite (nx_frame s x f Hfr) in Hl.
    rewrite IH; try done; [do 2 f_equal; lia|intros y Hy; apply Hc; by right|lia|lia|lia|nia].
Qed.

Lemma inv_checked_block s G A z o p :
  inv s G A → (z < 2)%nat → (o ≤ MAX_ORDER)%nat → p ∈ G z o → checked_block s o p.
Proof.
  intros Hi Hz Ho Hp. pose proof (iv_linked _ _ _ Hi) as Hl.
  destruct (lk_elem s G z o p Hl Hz Ho Hp) as [Hb _].
  destruct (lk_in s G Hl z o p Hz Ho Hp) as (_ & Hzp & f & Hf). split; [lia|]. split; [|by exists f].
  apply (geo_fits _ _ (iv_geo _ _ _ Hi)). left. split; [done|]. by rewrite Hzp.
Qed.

Lemma check_orders_spec s G A z zs os c :
  inv s G A → (z < 2)%nat → zones s !! z = Some zs → (∀ o, o ∈ os → (o ≤ MAX_ORDER)%nat) → 0 ≤ c →
  c + foldr (fun o acc => list_frames G z o + acc) 0 os < 2 ^ 64 →
  Pmm.check_orders s zs os c
  = Done (Ok (c + foldr (fun o acc => list_frames G z o + acc) 0 os)).
Proof.
  intros Hi Hz Hzs. pose proof (iv_linked _ _ _ Hi) as Hl.
  destruct (lk_zone s G Hl z Hz) as (zs' & Hzs' & Hlen & _ & Hlk). simplify_eq.
  assert (Hsum : ∀ os, (∀ o, o ∈ os → (o ≤ MAX_ORDER)%nat) →
    0 ≤ foldr (fun o acc => list_frames G z o + acc) 0 os).
  { induction os0 as [|o os0 IH]; intros Hos; simpl; [lia|].
    pose proof (list_frames_bound s G z o Hl Hz (Hos o ltac:(left))).
    specialize (IH (fun k Hk => Hos k (list_elem_of_further _ _ _ Hk))). lia. }
  revert c; induction os as [|o os IH]; intros c Hos H0 H64; [simpl; do 2 f_equal; lia|].
  cbn [Pmm.check_orders foldr] in *.
  assert (Ho : (o ≤ MAX_ORDER)%nat) by (apply Hos; left).
  assert (Hos' : ∀ k, k ∈ os → (k ≤ MAX_ORDER)%nat) by (intros k Hk; apply Hos; by right).
  destruct (lookup_lt_is_Some_2 (free_lists zs) o) as [h Hh]; [rewrite Hlen, order_count_max; lia|].
  pose proof (Hsum os Hos'). pose proof (list_frames_bound s G z o Hl Hz Ho).
  pose proof (list_length_bound s G z o Hl Hz Ho). unfold list_frames at 1 in H64.
  rewrite (at_index_ok _ _ _ Hh). cbn [mbind outcome_bind].
  rewrite (walk_spec (G z o)) by
    first [by apply Hlk|by eauto using inv_checked_block|lia]. cbn [mbind outcome_bind].
  unfold list_frames in *. rewrite IH by (done || lia). do 2 f_equal. lia.
Qed.

Lemma check_zone_spec s G A z : inv s G A → (z < 2)%nat → Pmm.check_zone s z = Done (Ok tt).
Proof.
  intros Hi Hz. destruct (lk_zone s G (iv_linked _ _ _ Hi) z Hz) as (zs & Hzs & _ & Hc & _).
  pose proof (free_total_bound s G z (iv_linked _ _ _ Hi) Hz) as Hb. unfold free_total in *.
  unfold Pmm.check_zone. rewrite (at_index_ok _ _ _ Hzs). cbn [mbind outcome_bind].
  rewrite (check_orders_spec s G A z zs _ 0 Hi Hz Hzs); [| |lia|lia].
  - cbn [mbind outcome_bind]. rewrite Hc, Z.add_0_l, Z.eqb_refl. done.
  - intros o Ho%elem_of_seq. rewrite order_count_max in Ho. lia.
Qed.

(** ** The allocator's theorems *)

Lemma allocate_spec s F A o zn :
  represents s F A → (o ≤ MAX_ORDER)%nat →
  ∃ r s', Pmm.allocate s o zn = Done (r, s') ∧
    match r with
    | Ok p => fits (frames_len s) p o ∧ (zn = Dma32 → p + size_of o ≤ DMA32_LIMIT_PFN) ∧
        (∀ f, covers p o f → F f) ∧ ¬ (p, o) ∈ A ∧
        represents s' (fun f => F f ∧ ¬ covers p o f) ({[(p, o)]} ∪ A)
    | Err e => e = OutOfMemory ∧ s' = s ∧ exhausted s Dma32 o ∧ (zn = Normal → exhausted s Normal o)
    end.
Proof.
  intros Hr Ho. unfold Pmm.allocate. rewrite decide_False by lia.
  destruct (allocate_from_refines s F A o zn Hr Ho) as (r & s1 & -> & Hs1). cbn [mbind outcome_bind].
  destruct r as [p|].
  { destruct Hs1 as (Hz & Hfit & HF & HA & _ & Hs1). eexists _, _. split; [done|]. split_and!; try done.
    intros ->. apply (ft_zone _ _ _ Hfit). revert Hz. unfold zone_of. by destruct (Z.ltb_spec p DMA32_LIMIT_PFN). }
  destruct Hs1 as [-> Hx]. destruct (decide (zn = Normal)) as [->|Hn].
  - destruct (allocate_from_refines s F A o Dma32 Hr Ho) as (r & s2 & -> & Hs2). cbn [mbind outcome_bind].
    destruct r as [p|]; eexists _, _; (split; [done|]); [by destruct Hs2 as (?&?&?&?&?&?)|by destruct Hs2 as [-> ?]].
  - eexists _, _. split; [done|]. by destruct zn.
Qed.

(** C5. Allocation refines the abstract allocator: on any state that represents
    free set [F] and held blocks [A], a request of a supported order returns. A
    success is a naturally aligned block, entirely free before and held
    afterwards, wholly below 4 GiB when the DMA32 zone was asked for; a failure
    is [OutOfMemory], changes nothing, and happens only when no free block of
    that order or above is left in any zone the request may use. *)
Theorem allocate_refines s F A o zn :
  represents s F A → (o ≤ MAX_ORDER)%nat →
  ∃ r s', Pmm.allocate s o zn = Done (r, s') ∧
    match r with
    | Ok p => fits (frames_len s) p o ∧ (zn = Dma32 → p + size_of o ≤ DMA32_LIMIT_PFN) ∧
        (∀ f, covers p o f → F f) ∧ ¬ (p, o) ∈ A ∧
        represents s' (fun f => F f ∧ ¬ covers p o f) ({[(p, o)]} ∪ A)
    | Err e => e = OutOfMemory ∧ s' = s ∧ exhausted s Dma32 o ∧ (zn = Normal → exhausted s Normal o)
    end.
Proof. apply allocate_spec. Qed.

Lemma free_spec s F A p o :
  represents s F A → (p, o) ∈ A →
  ∃ s', Pmm.free s p o = Done (Ok tt, s') ∧
    represents s' (fun f => F f ∨ covers p o f) (A ∖ {[(p, o)]}).
Proof.
  intros (G & Hi & HF) HA. destruct (iv_held _ _ _ Hi p o HA) as (f & Hf & Hst & _).
  pose proof (geo_fits _ _ (iv_geo _ _ _ Hi) p o (or_intror HA)) as [Ho H0 Hal Hin _].
  unfold Pmm.free. rewrite decide_False by lia. unfold frames_len in Hin.
  rewrite (proj2 (Z.ltb_ge _ _)) by lia. rewrite Hal. simpl negb. cbn [negb].
  rewrite (get_frame_ok s p f Hf). cbn [mbind outcome_bind]. rewrite bool_decide_true by done. cbn [negb].
  destruct (inv_release s G A p o f Hi HA Hf) as [Hi1 Hho]. set (s1 := set_frame s p _) in *.
  assert (Hlen : frames_len s1 = frames_len s) by (unfold s1, frames_len; by rewrite length_set_frame).
  rewrite <- Hlen in Hho.
  destruct (coalesce_spec (S MAX_ORDER) s1 G _ p o Hi1 Hho) as (s2 & G2 & q & k & -> & Hi2 & Hlen2 & Hho2 & Hset); [lia|].
  cbn [mbind outcome_bind]. rewrite <- Hlen2 in Hho2.
  destruct (inv_push s2 G2 _ q k Hi2 Hho2) as (s3 & -> & Hi3 & _). cbn [mbind outcome_bind].
  assert (HG3 := fun a j => free_block_push G2 q k a j (ft_order _ _ _ (proj1 Hho2))). set (G3 := upd G2 _ _ _) in *.
  eexists. split; [done|]. exists G3. split; [done|]. intros x. rewrite HF, <- Hset. unfold free_set. split.
  - intros [(a & j & HB & Hc)|Hc]; [exists a, j|exists q, k]; rewrite HG3; tauto.
  - intros (a & j & [HB|[-> ->]]%HG3 & Hc); [left; by eauto|by right].
Qed.

(** C6. Freeing a held block succeeds: the block's frames join the free set and
    the block leaves the held set, whatever merging happens on the way. *)
Theorem free_refines s F A p o :
  represents s F A → (p, o) ∈ A →
  ∃ s', Pmm.free s p o = Done (Ok tt, s') ∧
    represents s' (fun f => F f ∨ covers p o f) (A ∖ {[(p, o)]}).
Proof. apply free_spec. Qed.

(** Blocks held by callers never overlap: two different held blocks share
    no frame, no held frame is free, and every block lies inside the frame
    database, naturally aligned and on one side of the 4 GiB boundary. *)
Theorem held_blocks_disjoint s F A p o :
  represents s F A → (p, o) ∈ A →
  fits (frames_len s) p o ∧ (∀ f, covers p o f → ¬ F f) ∧
  (∀ q k f, (q, k) ∈ A → covers p o f → covers q k f → q = p ∧ k = o).
Proof.
  intros (G & Hi & HF) HA. pose proof (iv_geo _ _ _ Hi) as [Hfit Hd]. split_and!.
  - apply Hfit. by right.
  - intros f Hc (q & k & HB & Hc')%HF.
    destruct (Hd p o q k f) as [-> ->]; [by right|by left|done|done|].
    by apply (blocks_free_or_held s G A q k (iv_linked _ _ _ Hi) (iv_held _ _ _ Hi)).
  - intros q k f HA' Hc Hc'. destruct (Hd q k p o f) as [-> ->]; try done; by right.
Qed.

Lemma add_range_spec s F A lo hi :
  represents s F A → 0 ≤ lo →
  (∀ f, lo ≤ f < hi → ¬ F f ∧ ∀ p o, (p, o) ∈ A → ¬ covers p o f) →
  managed_room s (frames_len s) →
  ∃ s', Pmm.add_free_range s lo hi = Done s' ∧ frames_len s' = frames_len s ∧
    represents s' (fun f => F f ∨ lo ≤ f < Z.min hi (frames_len s)) A.
Proof.
  intros (G & Hi & HF) Hlo Hun Hm.
  destruct (add_free_range_spec s G A lo hi Hi Hlo) as (s' & G' & He & Hi' & Hlen & Hset); [|done|].
  - intros q k f [HB|HB] Hc Hr; destruct (Hun f Hr) as [HnF HnA]; [|by eapply HnA].
    apply HnF, HF. by exists q, k.
  - exists s'. split_and!; [done|done|].
    exists G'. split; [done|]. intros f. by rewrite Hset, HF.
Qed.

Lemma new_represents fs : Z.of_nat (length fs) ≤ 2 ^ 32 - 1024 → represents (Pmm.new fs) (fun _ => False) ∅.
Proof.
  intros Hfs. eexists. split; [by apply new_inv|]. intros f. split; [done|].
  by intros (p & o & [_ ?%elem_of_nil] & _).
Qed.

(** Handing a range to the allocator adds exactly that range, clipped to
    the frame database, to the free set and leaves held blocks alone; the range
    must not be in use, and a fresh database starts with nothing free. *)
Theorem add_free_range_refines s F A lo hi :
  represents s F A → 0 ≤ lo →
  (∀ f, lo ≤ f < hi → ¬ F f ∧ ∀ p o, (p, o) ∈ A → ¬ covers p o f) →
  managed_room s (frames_len s) →
  ∃ s', Pmm.add_free_range s lo hi = Done s' ∧
    represents s' (fun f => F f ∨ lo ≤ f < Z.min hi (frames_len s)) A ∧
    (∀ fs, Z.of_nat (length fs) ≤ 2 ^ 32 - 1024 → represents (Pmm.new fs) (fun _ => False) ∅).
Proof.
  intros Hr Hlo Hun Hm. destruct (add_range_spec s F A lo hi Hr Hlo Hun Hm) as (s' & ? & _ & ?).
  eauto using new_represents.
Qed.

Lemma free_frames_spec s F A :
  represents s F A →
  ∃ l, NoDup l ∧ (∀ f, f ∈ l ↔ F f) ∧ Pmm.free_frames s = Done (Z.of_nat (length l)).
Proof.
  intros (G & Hi & HF). pose proof (iv_linked _ _ _ Hi) as Hl. exists (free_frame_list G). split_and!.
  - by eapply NoDup_free_frame_list.
  - intros f. by rewrite HF, (elem_free_frame_list s).
  - destruct (lk_zone s G Hl 0) as (z0 & Hz0 & _ & Hc0 & _); [lia|].
    destruct (lk_zone s G Hl 1) as (z1 & Hz1 & _ & Hc1 & _); [lia|].
    unfold Pmm.free_frames. rewrite (at_index_ok _ _ _ Hz0), (at_index_ok _ _ _ Hz1). cbn [mbind outcome_bind].
    rewrite length_free_frame_list, Hc0, Hc1. unfold add_checked. apply checked_ok.
    pose proof (free_total_bound s G 0 Hl). pose proof (free_total_bound s G 1 Hl). unfold in_width. lia.
Qed.

(** The accounting is exact: [free_frames] is the number of distinct
    frames in the free set. *)
Theorem free_frames_exact s F A :
  represents s F A →
  ∃ l, NoDup l ∧ (∀ f, f ∈ l ↔ F f) ∧ Pmm.free_frames s = Done (Z.of_nat (length l)).
Proof. apply free_frames_spec. Qed.

Lemma check_invariants_spec s F A :
  represents s F A → Pmm.check_invariants s = Done (Ok tt).
Proof.
  intros (G & Hi & _). unfold Pmm.check_invariants.
  rewrite (check_zone_spec s G A 0 Hi) by lia. cbn [mbind outcome_bind].
  by rewrite (check_zone_spec s G A 1 Hi) by lia.
Qed.

(** The self check has no false alarms: every state the allocator's
    operations produce passes [check_invariants], which always terminates on
    such a state. *)
Theorem check_invariants_accepts s F A :
  represents s F A → Pmm.check_invariants s = Done (Ok tt).
Proof. apply check_invariants_spec. Qed.

(** ** A machine of four frames *)

Definition four_frames : Pmm := Pmm.new (replicate 4 reserved).
Definition four_free : Pmm := match Pmm.add_free_range four_frames 0 4 with Done s => s | _ => four_frames end.
Definition four_one_held : Pmm := match Pmm.allocate_from four_free 0 Dma32 with Done (_, s) => s | _ => four_free end.

Lemma four_frames_represents : represents four_frames (fun _ => False) ∅.
Proof.
  eexists. split; [by apply new_inv|]. intros f. split; [done|]. by intros (p & o & [_ ?%elem_of_nil] & _).
Qed.

Lemma four_managed_room : managed_room four_frames (frames_len four_frames).
Proof. intros [|[|[|z]]] zs; [intros [= <-]..|done|done]; split; vm_compute; congruence. Qed.

Lemma four_free_represents : represents four_free (fun f => 0 ≤ f < 4) ∅.
Proof.
  assert (Hnil : ∀ q k, ¬ blocks (fun _ _ => []) ∅ q k) by (intros q k [[_ ?%elem_of_nil]|?]; set_solver).
  destruct (add_free_range_spec four_frames (fun _ _ => []) ∅ 0 4) as (s & G & He & Hi & _ & Hset).
  - by apply new_inv.
  - done.
  - by intros q k f ?%Hnil.
  - apply four_managed_room.
  - unfold four_free. rewrite He. exists G. split; [done|]. intros f. rewrite Hset.
    change (Z.min 4 (frames_len four_frames)) with 4. split; [by right|]. intros [(?&?&[_ ?%elem_of_nil]&_)|?]; done.
Qed.

Lemma four_one_held_represents :
  represents four_one_held (fun f => 0 ≤ f < 4 ∧ ¬ covers 0 0 f) ({[(0, 0%nat)]} ∪ ∅).
Proof.
  destruct (allocate_from_refines four_free _ ∅ 0 Dma32 four_free_represents) as (r & s & He & Hr); [lia|].
  unfold four_one_held. assert (Hc : (match Pmm.allocate_from four_free 0 Dma32 with Done (r, _) => r | _ => None end) = Some 0)
    by (vm_compute; reflexivity).
  rewrite He in Hc |- *. subst r. by destruct Hr as (_ & _ & _ & _ & _ & ?).
Qed.

Lemma allocate_refines_witness :
  ∃ r s', Pmm.allocate four_free 1 Normal = Done (r, s') ∧
    match r with
    | Ok p => fits (frames_len four_free) p 1 ∧ (Normal = Dma32 → p + size_of 1 ≤ DMA32_LIMIT_PFN) ∧
        (∀ f, covers p 1 f → 0 ≤ f < 4) ∧ ¬ (p, 1%nat) ∈ (∅ : gset (Z * nat)) ∧
        represents s' (fun f => 0 ≤ f < 4 ∧ ¬ covers p 1 f) ({[(p, 1%nat)]} ∪ ∅)
    | Err e => e = OutOfMemory ∧ s' = four_free ∧ exhausted four_free Dma32 1 ∧
        (Normal = Normal → exhausted four_free Normal 1)
    end.
Proof. apply (allocate_refines four_free _ ∅ 1 Normal four_free_represents). rewrite max_order_value. lia. Defined.

Lemma free_refines_witness :
  ∃ s', Pmm.free four_one_held 0 0 = Done (Ok tt, s') ∧
    represents s' (fun f => (0 ≤ f < 4 ∧ ¬ covers 0 0 f) ∨ covers 0 0 f) (({[(0, 0%nat)]} ∪ ∅) ∖ {[(0, 0%nat)]}).
Proof. apply (free_refines four_one_held _ _ 0 0 four_one_held_represents). set_solver. Defined.

Lemma held_blocks_disjoint_witness :
  fits (frames_len four_one_held) 0 0 ∧ (∀ f, covers 0 0 f → ¬ (0 ≤ f < 4 ∧ ¬ covers 0 0 f)) ∧
  (∀ q k f, (q, k) ∈ ({[(0, 0%nat)]} ∪ ∅ : gset (Z * nat)) → covers 0 0 f → covers q k f → q = 0 ∧ k = 0%nat).
Proof. apply (held_blocks_disjoint four_one_held _ _ 0 0 four_one_held_represents). set_solver. Defined.

Lemma add_free_range_refines_witness :
  ∃ s', Pmm.add_free_range four_frames 1 9 = Done s' ∧
    represents s' (fun f => False ∨ 1 ≤ f < Z.min 9 (frames_len four_frames)) ∅ ∧
    (∀ fs, Z.of_nat (length fs) ≤ 2 ^ 32 - 1024 → represents (Pmm.new fs) (fun _ => False) ∅).
Proof.
  apply (add_free_range_refines four_frames _ ∅ 1 9 four_frames_represents); [lia|set_solver|].
  apply four_managed_room.
Defined.

Lemma free_frames_exact_witness :
  ∃ l, NoDup l ∧ (∀ f, f ∈ l ↔ 0 ≤ f < 4) ∧ Pmm.free_frames four_free = Done (Z.of_nat (length l)).
Proof. exact (free_frames_exact four_free _ ∅ four_free_represents). Defined.

Lemma check_invariants_accepts_witness : Pmm.check_invariants four_one_held = Done (Ok tt).
Proof. exact (check_invariants_accepts four_one_held _ _ four_one_held_represents). Defined.

(** ** A double free that is not caught

    Merging with the buddy below makes that buddy the head of the merged block
    and leaves the freed frame's own entry saying [Allocated]. *)
Definition twice_freed : outcome Pmm :=
  '(_, s) ← Pmm.allocate four_free 0 Dma32;
  '(_, s) ← Pmm.allocate s 0 Dma32;
  '(_, s) ← Pmm.free s 0 0;
  '(_, s) ← Pmm.free s 1 0;
  '(r, s) ← Pmm.free s 1 0;
  match r with Ok _ => Done s | Err _ => Panic end.

(** Freeing the upper of two buddies twice is not rejected. On a
    machine of four frames, [allocate] twice, free 0, free 1, then free 1 again:
    the last call answers [Ok], the accounting reports five free frames of four
    and the self check still passes; frame 1 is then handed out twice over, on
    its own and inside a block of four. *)
Theorem upper_buddy_double_free_accepted :
  ∃ s s1 s2, twice_freed = Done s ∧ Pmm.total_frames s = 4 ∧ Pmm.free_frames s = Done 5 ∧
    Pmm.check_invariants s = Done (Ok tt) ∧
    Pmm.allocate s 0 Dma32 = Done (Ok 1, s1) ∧ Pmm.allocate s1 2 Dma32 = Done (Ok 0, s2) ∧
    covers 1 0 1 ∧ covers 0 2 1.
Proof.
  eexists _, _, _. split_and!; [vm_compute; reflexivity..| |]; unfold covers; vm_compute; split; congruence.
Qed.
