(* ===== verification/Boot.v ===== *)
(** * Physical memory bring-up

    Models src/kernel/src/memory.rs, where the two allocators meet: the bump
    allocator supplies the frame database, and every usable region less what it
    handed out goes to the buddy allocator.  The theorems show that the frames
    on the free lists are the ones handed to nobody, and that the boot-time
    self-test cannot fail on a sound allocator. *)
From stdpp Require Import prelude numbers list gmap sorting.
From S2P Require Import Prelude Handoff Bump Pmm.
Open Scope Z_scope.
Set Warnings "-clear-no-such-hyp".

Inductive MemoryError : Type :=
| FrameDatabaseTooLarge (needed : Z)
| NoUsableMemoryAtAll.

(** [smp::TRAMPOLINE_FRAME], the page a released processor starts in. *)
Definition TRAMPOLINE_FRAME : Z := 32768.
Definition TRAMPOLINE_END : Z := TRAMPOLINE_FRAME + FRAME_SIZE.

(** Rust's unsigned [div_ceil]. *)
Definition div_ceil (x y : Z) : Z := if x mod y =? 0 then x / y else x / y + 1.

Module Memory.

(** Adds the whole frames within [start, end'). *)
Definition add_frames (pmm : Pmm) (start end' : Z) : outcome Pmm :=
  let first := trunc 32 (div_ceil start FRAME_SIZE) in
  let last := trunc 32 (end' / FRAME_SIZE) in
  if first <? last then Pmm.add_free_range pmm first last else Done pmm.

(** The loop over the consumed ranges, with the tail that follows it; the early
    return skips the tail. *)
Fixpoint exclude_loop (pmm : Pmm) (cursor end' : Z) (consumed' : list (Z * Z)) : outcome Pmm :=
  match consumed' with
  | [] => if cursor <? end' then add_frames pmm cursor end' else Done pmm
  | (used_start, used_end) :: rest =>
      if (used_end <=? cursor) || (end' <=? used_start) then exclude_loop pmm cursor end' rest
      else
        pmm ← (if cursor <? used_start then add_frames pmm cursor (Z.min used_start end') else Done pmm);
        let cursor := Z.max cursor used_end in
        if end' <=? cursor then Done pmm else exclude_loop pmm cursor end' rest
  end.

Definition add_region_excluding (pmm : Pmm) (start end' : Z) (consumed' : list (Z * Z)) : outcome Pmm :=
  exclude_loop pmm start end' consumed'.

(** One region of the handover; the boolean records [note_trampoline_reserved]. *)
Definition add_region (consumed' : list (Z * Z)) (st : Pmm * bool) (rg : MemoryRegion)
    : outcome (Pmm * bool) :=
  let '(pmm, noted) := st in
  if negb (bool_decide (kind rg = Usable)) then Done (pmm, noted)
  else
    end' ← end_ rg;
    if (base rg <=? TRAMPOLINE_FRAME) && (TRAMPOLINE_END <=? end') then
      pmm ← add_region_excluding pmm (base rg) TRAMPOLINE_FRAME consumed';
      pmm ← add_region_excluding pmm TRAMPOLINE_END end' consumed';
      Done (pmm, true)
    else
      pmm ← add_region_excluding pmm (base rg) end' consumed';
      Done (pmm, noted).

(** The highest end of the regions the frame database must describe. *)
Fixpoint highest_usable (map : list MemoryRegion) : outcome (option Z) :=
  match map with
  | [] => Done None
  | rg :: map' =>
      if bool_decide (kind rg = Usable) || bool_decide (kind rg = BootloaderReclaimable) then
        e ← end_ rg;
        m ← highest_usable map';
        Done (Some (match m with Some x => Z.max e x | None => e end))
      else highest_usable map'
  end.

(** [init]; [frame_bytes] is [size_of::<Frame>()], chosen by the compiler. *)
Definition init (frame_bytes : Z) (handoff : Handoff) (bump : BumpAllocator)
    : outcome (result (Pmm * bool) MemoryError * BumpAllocator) :=
  highest ← highest_usable (memory_map handoff);
  match highest with
  | None => Done (Err NoUsableMemoryAtAll, bump)
  | Some highest =>
      let frame_count := highest / FRAME_SIZE in
      database_bytes ← mul_checked 64 frame_count frame_bytes;
      let database_frames := div_ceil database_bytes FRAME_SIZE in
      '(r, bump) ← Bump.allocate_contiguous bump database_frames;
      match r with
      | Err _ => Done (Err (FrameDatabaseTooLarge database_bytes), bump)
      | Ok first =>
          _ ← add_checked 64 (hhdm_base handoff) first;
          let pmm := Pmm.new (replicate (Z.to_nat frame_count) reserved) in
          st ← for_each (add_region (Bump.consumed_ranges bump)) (memory_map handoff) (pmm, false);
          Done (Ok st, bump)
      end
  end.

(** The two loops of [self_test]: allocate until a failure, free in reverse. *)
Fixpoint allocate_loop (indices : list nat) (pmm : Pmm) (live : list (Z * nat))
    : outcome (list (Z * nat) * Pmm) :=
  match indices with
  | [] => Done (live, pmm)
  | index :: rest =>
      let order' := (index mod 5)%nat in
      '(r, pmm) ← Pmm.allocate pmm order' Normal;
      match r with
      | Ok pfn => allocate_loop rest pmm (live ++ [(pfn, order')])
      | Err _ => Done (live, pmm)
      end
  end.

Fixpoint free_loop (blocks' : list (Z * nat)) (pmm : Pmm) : outcome (bool * Pmm) :=
  match blocks' with
  | [] => Done (true, pmm)
  | (pfn, order') :: rest =>
      '(r, pmm) ← Pmm.free pmm pfn order';
      match r with
      | Ok _ => free_loop rest pmm
      | Err _ => Done (false, pmm)
      end
  end.

Definition self_test (pmm : Pmm) : outcome (bool * Pmm) :=
  baseline ← Pmm.free_frames pmm;
  '(live, pmm) ← allocate_loop (seq 0 64) pmm [];
  '(freed, pmm) ← free_loop (reverse live) pmm;
  if negb freed then Done (false, pmm)
  else
    now ← Pmm.free_frames pmm;
    check ← Pmm.check_invariants pmm;
    let recovered := now =? baseline in
    let consistent := match check with Ok _ => true | Err _ => false end in
    Done (recovered && consistent, pmm).

End Memory.

(** ** Whole frames *)

(** Frame [f] lies entirely within [lo, hi). *)
Definition frame_within (lo hi f : Z) : Prop := lo ≤ f * FRAME_SIZE ∧ (f + 1) * FRAME_SIZE ≤ hi.

(** Frame [f] has a byte in the range [r]. *)
Definition touches (r : Z * Z) (f : Z) : Prop := f * FRAME_SIZE < r.2 ∧ r.1 < (f + 1) * FRAME_SIZE.

Lemma div_ceil_spec x f : 0 ≤ x → div_ceil x FRAME_SIZE ≤ f ↔ x ≤ f * FRAME_SIZE.
Proof.
  intros Hx. unfold div_ceil, FRAME_SIZE. pose proof (Z.div_mod x 4096). pose proof (Z.mod_pos_bound x 4096).
  destruct (Z.eqb_spec (x mod 4096) 0); lia.
Qed.

Lemma div_floor_spec x f : f < x / FRAME_SIZE ↔ (f + 1) * FRAME_SIZE ≤ x.
Proof. unfold FRAME_SIZE. pose proof (Z.div_mod x 4096). pose proof (Z.mod_pos_bound x 4096). lia. Qed.

Definition ADDRESS_LIMIT : Z := (2 ^ 32 - 1024) * FRAME_SIZE.

(** The allocator gains [added] and nothing else; counters grow by at most
    [n] ranges. *)
Definition grows (pmm pmm' : Pmm) (F : Z → Prop) (added : Z → Prop) (m n : Z) : Prop :=
  frames_len pmm' = frames_len pmm ∧ managed_le pmm' (m + n * 2 ^ 32) ∧
  represents pmm' (fun f => F f ∨ added f) ∅.

Lemma managed_le_mono s m m' : m ≤ m' → managed_le s m → managed_le s m'.
Proof. intros Hle Hm z zs Hz. specialize (Hm z zs Hz). lia. Qed.

Lemma add_frames_spec pmm F m lo hi :
  represents pmm F ∅ → managed_le pmm m → m < 2 ^ 63 →
  0 ≤ lo < hi → hi ≤ ADDRESS_LIMIT → hi ≤ (frames_len pmm + 1) * FRAME_SIZE - 1 →
  (∀ f, frame_within lo hi f → ¬ F f) →
  ∃ pmm', Memory.add_frames pmm lo hi = Done pmm' ∧ grows pmm pmm' F (frame_within lo hi) m 1.
Proof.
  intros Hr Hm Hm63 Hlo Hhi Hlen Hun. unfold Memory.add_frames, ADDRESS_LIMIT in *.
  pose proof (div_ceil_spec lo) as Hc. pose proof (div_floor_spec hi) as Hd.
  assert (Hfl : 0 ≤ hi / FRAME_SIZE < 2 ^ 32 ∧ hi / FRAME_SIZE ≤ frames_len pmm).
  { unfold FRAME_SIZE in *. pose proof (Z.div_mod hi 4096). pose proof (Z.mod_pos_bound hi 4096). lia. }
  assert (Hce : 0 ≤ div_ceil lo FRAME_SIZE < 2 ^ 32).
  { unfold div_ceil, FRAME_SIZE in *. pose proof (Z.div_mod lo 4096). pose proof (Z.mod_pos_bound lo 4096).
    destruct (Z.eqb_spec (lo mod 4096) 0); lia. }
  rewrite !trunc_small by (unfold in_width; lia).
  destruct (Z.ltb_spec (div_ceil lo FRAME_SIZE) (hi / FRAME_SIZE)) as [Hcf|Hcf].
  - destruct (add_range_spec pmm F ∅ (div_ceil lo FRAME_SIZE) (hi / FRAME_SIZE) Hr) as (pmm' & He & Hl & Hr');
      [lia| | |].
    + intros f [H1 H2]. split; [|set_solver]. apply Hun. split; [apply Hc; [lia|done]|by apply Hd].
    + destruct Hr as (G & Hi & _). pose proof (lk_len _ _ (iv_linked _ _ _ Hi)).
      eapply managed_le_room; [done|]. unfold frames_len. lia.
    + exists pmm'. split; [done|]. split_and!; [done| |].
      { eapply managed_le_mono; [|eapply add_free_range_managed; [done|lia|done]]. lia. }
      eapply represents_ext; [|done]. intros f. simpl. unfold frame_within.
      rewrite <- Hc, <- Hd by lia. rewrite Z.min_l by lia. done.
  - exists pmm. split; [done|]. split_and!; [done|eapply managed_le_mono; [|done]; lia|].
    eapply represents_ext; [|done]. intros f. split; [by left|]. intros [?|[H1 H2]]; [done|].
    apply Hc in H1; [|lia]. apply Hd in H2. lia.
Qed.

(** ** Excluding the consumed ranges *)

(** The frames of [lo, hi) that no consumed range touches. *)
Definition spared (lo hi : Z) (c : list (Z * Z)) (f : Z) : Prop :=
  frame_within lo hi f ∧ ∀ r, r ∈ c → ¬ touches r f.

Lemma grows_trans p1 p2 p3 F (a1 a2 : Z → Prop) m n k :
  grows p1 p2 F a1 m n → grows p2 p3 (fun f => F f ∨ a1 f) a2 (m + n * 2 ^ 32) k →
  grows p1 p3 F (fun f => a1 f ∨ a2 f) m (n + k).
Proof.
  intros (Hl1 & Hm1 & _) (Hl2 & Hm2 & Hr2). split_and!; [congruence| |].
  - eapply managed_le_mono; [|done]. lia.
  - eapply represents_ext; [|done]. intros f. simpl. tauto.
Qed.

Lemma grows_nothing p F (a : Z → Prop) m n :
  represents p F ∅ → managed_le p m → 0 ≤ n → (∀ f, ¬ a f) → grows p p F a m n.
Proof.
  intros Hr Hm Hn Ha. split_and!; [done|eapply managed_le_mono; [|done]; lia|].
  eapply represents_ext; [|done]. intros f. specialize (Ha f). tauto.
Qed.

Lemma grows_weaken p p' F (a a' : Z → Prop) m n n' :
  grows p p' F a m n → n ≤ n' → (∀ f, a f ↔ a' f) → grows p p' F a' m n'.
Proof.
  intros (? & ? & ?) Hn Ha. split_and!; [done|eapply managed_le_mono; [|done]; lia|].
  eapply represents_ext; [|done]. intros f. simpl. by rewrite Ha.
Qed.

(** Splitting around the first consumed range. *)
Lemma spared_cons us ue c cursor hi :
  us < ue → (∀ r, r ∈ c → before (us, ue) r) → us < hi →
  ∀ f, spared cursor hi ((us, ue) :: c) f ↔
    frame_within cursor us f ∨ spared (Z.max cursor ue) hi c f.
Proof.
  intros Hp Hbef Hus f. unfold spared, frame_within, touches. split.
  - intros [Hw Ht]. pose proof (Ht (us, ue) ltac:(left)) as H1. simpl in H1.
    destruct (decide ((f + 1) * FRAME_SIZE ≤ us)); [left; lia|right].
    split; [lia|]. intros r Hin. apply Ht. by right.
  - intros [Hw|[Hw Ht]]; (split; [unfold FRAME_SIZE in *; lia|]);
      intros r [->|Hin]%elem_of_cons; simpl; try lia; [|by apply Ht].
    specialize (Hbef r Hin). unfold before in Hbef. simpl in Hbef. lia.
Qed.

Lemma exclude_loop_spec c : ∀ pmm F m cursor hi,
  ascending c → represents pmm F ∅ → managed_le pmm m →
  m + (Z.of_nat (length c) + 1) * 2 ^ 32 < 2 ^ 63 → 0 ≤ cursor → hi ≤ ADDRESS_LIMIT →
  hi ≤ (frames_len pmm + 1) * FRAME_SIZE - 1 → (∀ f, frame_within cursor hi f → ¬ F f) →
  ∃ pmm', Memory.exclude_loop pmm cursor hi c = Done pmm' ∧
    grows pmm pmm' F (spared cursor hi c) m (Z.of_nat (length c) + 1).
Proof.
  induction c as [|[us ue] c IH]; intros pmm F m cursor hi Hasc Hr Hm Hb Hc Hh Hl Hun; cbn [Memory.exclude_loop].
  { destruct (Z.ltb_spec cursor hi) as [Hlt|Hge].
    - destruct (add_frames_spec pmm F m cursor hi Hr Hm) as (pmm' & -> & Hg); try done.
      { simpl in Hb. lia. }
      exists pmm'. split; [done|]. eapply grows_weaken; [done|simpl; lia|].
      intros f. unfold spared. split; [intros ?; split; [done|by intros ? ?%elem_of_nil]|by intros [? _]].
    - exists pmm. split; [done|]. apply grows_nothing; try done.
      intros f [[? ?] _]. unfold FRAME_SIZE in *. lia. }
  destruct Hasc as [Hss Hpos]. apply StronglySorted_inv in Hss as [Hss Hbef].
  apply Forall_cons in Hpos as [Hp Hpos]. rewrite Forall_forall in Hbef. simpl in Hp.
  assert (Hasc' : ascending c) by done. simpl length in *.
  destruct ((ue <=? cursor) || (hi <=? us)) eqn:Hskip.
  { destruct (IH pmm F m cursor hi) as (pmm' & -> & Hg); try done; [lia|]. exists pmm'. split; [done|].
    eapply grows_weaken; [done|lia|]. intros f. unfold spared.
    split; intros [Hw Ht]; (split; [done|]); intros r Hin; [|apply Ht; by right].
    apply elem_of_cons in Hin as [->|Hin]; [|by apply Ht]. unfold touches, frame_within in *. simpl. lia. }
  set (hi1 := Z.min us hi).
  assert (Hstep : ∃ p1, (if cursor <? us then Memory.add_frames pmm cursor hi1 else Done pmm) = Done p1 ∧
    grows pmm p1 F (frame_within cursor us) m 1).
  { unfold hi1. rewrite Z.min_l by lia. destruct (Z.ltb_spec cursor us) as [Hlt|Hge].
    - apply add_frames_spec; try done; try lia. intros f [? ?]. apply Hun. split; lia.
    - exists pmm. split; [done|]. apply grows_nothing; try done. intros f [? ?]. unfold FRAME_SIZE in *. lia. }
  destruct Hstep as (p1 & -> & Hg1). cbn [mbind outcome_bind].
  pose proof (spared_cons us ue c cursor hi Hp Hbef ltac:(lia)) as Hsplit.
  pose proof Hg1 as (Hl1 & Hm1 & Hr1).
  destruct (Z.leb_spec hi (Z.max cursor ue)) as [Hdone|Hmore].
  { exists p1. split; [done|]. eapply grows_weaken; [done|lia|]. intros f. rewrite Hsplit. split; [by left|].
    intros [?|[[? ?] _]]; [done|]. unfold FRAME_SIZE in *. lia. }
  destruct (IH p1 (fun f => F f ∨ frame_within cursor us f) (m + 1 * 2 ^ 32) (Z.max cursor ue) hi)
    as (pmm' & -> & Hg2); try done; [lia|lia|by rewrite Hl1| |].
  { intros f [Hf1 Hf2] [HF|[Hw1 Hw2]]; [|unfold FRAME_SIZE in *; lia].
    apply (Hun f); [split; lia|done]. }
  exists pmm'. split; [done|]. eapply grows_weaken; [by eapply grows_trans|lia|]. intros f. by rewrite Hsplit.
Qed.

(** ** The handover *)

(** The frames one usable region contributes. *)
Definition region_frames (c : list (Z * Z)) (rg : MemoryRegion) (f : Z) : Prop :=
  kind rg = Usable ∧ spared (base rg) (base rg + length_ rg) c f ∧ f ≠ TRAMPOLINE_FRAME / FRAME_SIZE.

(** What the regions of the map offer: in range, below 16 TiB. *)
Definition addressable (N : Z) (rg : MemoryRegion) : Prop :=
  region_ok rg ∧ (kind rg = Usable → base rg + length_ rg ≤ ADDRESS_LIMIT ∧
                                      base rg + length_ rg ≤ (N + 1) * FRAME_SIZE - 1).

Lemma trampoline_split lo hi c f :
  lo ≤ TRAMPOLINE_FRAME → TRAMPOLINE_END ≤ hi →
  spared lo hi c f ∧ f ≠ TRAMPOLINE_FRAME / FRAME_SIZE ↔
  spared lo TRAMPOLINE_FRAME c f ∨ spared TRAMPOLINE_END hi c f.
Proof.
  intros Hlo Hhi. unfold spared, frame_within, TRAMPOLINE_END, TRAMPOLINE_FRAME, FRAME_SIZE in *.
  change (32768 / 4096) with 8. split.
  - intros [[Hw Ht] Hf]. destruct (decide (f < 8)); [left|right]; (split; [lia|done]).
  - intros [[Hw Ht]|[Hw Ht]]; (split; [split; [lia|done]|lia]).
Qed.

Lemma add_region_spec c pmm noted F m rg :
  ascending c → (length c ≤ 16)%nat → represents pmm F ∅ → managed_le pmm m → 0 ≤ m → m + 2 ^ 40 < 2 ^ 63 →
  addressable (frames_len pmm) rg →
  (∀ f, kind rg = Usable → frame_within (base rg) (base rg + length_ rg) f → ¬ F f) →
  ∃ pmm' noted', Memory.add_region c (pmm, noted) rg = Done (pmm', noted') ∧
    grows pmm pmm' F (region_frames c rg) m 34.
Proof.
  intros Hasc Hlc Hr Hm H0 Hb [Hok Hlim] Hun. unfold Memory.add_region.
  destruct (decide (kind rg = Usable)) as [Hk|Hk].
  2: { rewrite bool_decide_false by done. eexists _, _. split; [done|].
       apply grows_nothing; try done. by intros f [? _]. }
  rewrite bool_decide_true by done. rewrite end_ok by done. cbn [mbind outcome_bind negb].
  destruct (Hlim Hk) as [Hl1 Hl2]. pose proof Hok as (Hb0 & Hl0 & _). unfold Memory.add_region_excluding.
  set (hi := base rg + length_ rg) in *.
  destruct ((base rg <=? TRAMPOLINE_FRAME) && (TRAMPOLINE_END <=? hi)) eqn:Ht.
  - apply andb_true_iff in Ht as [Ht1%Z.leb_le Ht2%Z.leb_le].
    assert (Htr : TRAMPOLINE_FRAME ≤ hi) by (unfold TRAMPOLINE_END, FRAME_SIZE in *; lia).
    destruct (exclude_loop_spec c pmm F m (base rg) TRAMPOLINE_FRAME) as (p1 & -> & Hg1); try done; try lia.
    { intros f [? ?]. apply Hun; [done|split; lia]. }
    cbn [mbind outcome_bind]. pose proof Hg1 as (Hlen1 & Hm1 & Hr1).
    destruct (exclude_loop_spec c p1 _ _ TRAMPOLINE_END hi Hasc Hr1 Hm1) as (p2 & -> & Hg2);
      try done; try (unfold TRAMPOLINE_END, TRAMPOLINE_FRAME, FRAME_SIZE; lia); [by rewrite Hlen1| |].
    { intros f [? ?] [HF|[[? ?] _]]; unfold TRAMPOLINE_END, TRAMPOLINE_FRAME, FRAME_SIZE in *; [|lia].
      apply (Hun f); [done|split; unfold FRAME_SIZE; lia|done]. }
    cbn [mbind outcome_bind]. eexists _, _. split; [done|].
    eapply grows_weaken; [exact (grows_trans _ _ _ _ _ _ _ _ _ Hg1 Hg2)|lia|].
    intros f. simpl. rewrite <- trampoline_split by done. unfold region_frames. fold hi. tauto.
  - destruct (exclude_loop_spec c pmm F m (base rg) hi) as (p1 & -> & Hg1); try done; try lia.
    { intros f ?. by apply Hun. }
    cbn [mbind outcome_bind]. eexists _, _. split; [done|]. eapply grows_weaken; [done|lia|].
    intros f. unfold region_frames. fold hi. split; [|tauto]. intros Hs. split_and!; try done. intros ->.
    destruct Hs as [[? ?] _]. unfold TRAMPOLINE_END, TRAMPOLINE_FRAME, FRAME_SIZE in *.
    change (32768 / 4096) with 8 in *. lia.
Qed.

(** All the regions of a list. *)
Definition map_frames (c : list (Z * Z)) (map : list MemoryRegion) (f : Z) : Prop :=
  ∃ rg, rg ∈ map ∧ region_frames c rg f.

Lemma add_regions_spec c map : ∀ pmm noted F m,
  ascending c → (length c ≤ 16)%nat → represents pmm F ∅ → managed_le pmm m → 0 ≤ m →
  m + Z.of_nat (length map) * (34 * 2 ^ 32) + 2 ^ 40 < 2 ^ 63 →
  Forall (addressable (frames_len pmm)) map → usable_disjoint map →
  (∀ f rg, rg ∈ map → kind rg = Usable → frame_within (base rg) (base rg + length_ rg) f → ¬ F f) →
  ∃ pmm' noted', for_each (Memory.add_region c) map (pmm, noted) = Done (pmm', noted') ∧
    frames_len pmm' = frames_len pmm ∧ represents pmm' (fun f => F f ∨ map_frames c map f) ∅.
Proof.
  induction map as [|rg map IH]; intros pmm noted F m Hasc Hlc Hr Hm H0 Hb Had Hd Hun.
  { exists pmm, noted. split; [done|]. split; [done|]. eapply represents_ext; [|done]. intros f. split; [by left|].
    intros [?|(? & ?%elem_of_nil & _)]; done. }
  cbn [for_each]. apply Forall_cons in Had as [Hrg Had]. simpl length in Hb.
  destruct (add_region_spec c pmm noted F m rg) as (p1 & noted1 & -> & Hl1 & Hm1 & Hr1); try done; try lia.
  { intros f Hk Hw. apply (Hun f rg); try done. left. }
  cbn [mbind outcome_bind]. rewrite <- Hl1 in Had.
  destruct (IH p1 noted1 _ _ Hasc Hlc Hr1 Hm1) as (p2 & noted2 & He & Hl2 & Hr2); try done; try lia.
  - intros a b r r' Hab. apply (Hd (S a) (S b)). lia.
  - intros f rg' Hin Hk' [Hw1 Hw2] [HF|(Hk & [[Hw3 Hw4] _] & _)].
    + apply (Hun f rg'); try done. by right.
    + apply list_elem_of_lookup in Hin as [j Hj].
      pose proof (Hd 0%nat (S j) rg rg' ltac:(lia) eq_refl Hj Hk Hk'). unfold FRAME_SIZE in *. lia.
  - exists p2, noted2. split; [done|]. split; [congruence|]. eapply represents_ext; [|done]. intros f. simpl. unfold map_frames. split.
    + intros [[?|?]|(x & ? & ?)]; [by left|right; exists rg; split; [left|done]|right; exists x; split; [by right|done]].
    + intros [?|(x & [->|?]%elem_of_cons & ?)]; [tauto|tauto|]. right. by exists x.
Qed.

Lemma highest_usable_spec map :
  Forall region_ok map →
  ∃ h, Memory.highest_usable map = Done h ∧
    (∀ rg, rg ∈ map → kind rg = Usable ∨ kind rg = BootloaderReclaimable →
      ∃ x, h = Some x ∧ base rg + length_ rg ≤ x) ∧
    (∀ x, h = Some x → ∃ rg, rg ∈ map ∧ (kind rg = Usable ∨ kind rg = BootloaderReclaimable) ∧
      x = base rg + length_ rg).
Proof.
  induction map as [|rg map IH]; intros Hok; cbn [Memory.highest_usable].
  { eexists. split; [done|]. split; [by intros ? ?%elem_of_nil|done]. }
  apply Forall_cons in Hok as [Hrg Hok]. destruct (IH Hok) as (h & -> & Hh & Hx).
  destruct (bool_decide (kind rg = Usable) || bool_decide (kind rg = BootloaderReclaimable)) eqn:Hk.
  - apply orb_true_iff in Hk. rewrite !bool_decide_eq_true in Hk.
    rewrite end_ok by done. cbn [mbind outcome_bind]. eexists. split; [done|]. split.
    + intros rg' [->|Hin]%elem_of_cons Hk'; (eexists; split; [done|]).
      * destruct h; lia.
      * destruct (Hh rg' Hin Hk') as (x & -> & Hle). lia.
    + intros x [= <-]. assert (Hhd : rg ∈ rg :: map) by left. destruct h as [y|]; [|by eauto].
      destruct (Z.max_spec (base rg + length_ rg) y) as [[_ ->]|[_ ->]]; [|by eauto].
      destruct (Hx y eq_refl) as (r & ? & ? & ?). exists r. split; [by right|done].
  - eexists. split; [done|]. apply orb_false_iff in Hk as [H1%bool_decide_eq_false H2%bool_decide_eq_false]. split.
    + intros rg' [->|Hin]%elem_of_cons Hk'; [|by apply Hh]. tauto.
    + intros x Hhx. destruct (Hx x Hhx) as (r & ? & ?). exists r. split; [by right|done].
Qed.

(** What [init] may rely on: a validated map below 16 TiB with at most 65,536
    regions, a direct map that fits the address space, and a database entry no
    larger than a page. *)
Record boot_ready (frame_bytes : Z) (h : Handoff) : Prop := {
  br_map : map_ok (memory_map h);
  br_entry : 0 < frame_bytes ≤ FRAME_SIZE;
  br_hhdm : 0 ≤ hhdm_base h ∧ hhdm_base h + PHYS_LIMIT < 2 ^ 64;
  br_count : Z.of_nat (length (memory_map h)) ≤ 2 ^ 16;
  br_top rg : rg ∈ memory_map h → kind rg = Usable ∨ kind rg = BootloaderReclaimable →
    base rg + length_ rg ≤ ADDRESS_LIMIT
}.

(** The frames the hand-over frees: those the record of consumed ranges leaves. *)
Definition boot_free (h : Handoff) (b : BumpAllocator) : Z → Prop :=
  map_frames (Bump.consumed_ranges b) (memory_map h).

(** The frames nothing uses: whole frames of usable regions, the processor start-up page
    apart, with no byte in a range that was handed out. *)
Definition unused (h : Handoff) (used : list (Z * Z)) (f : Z) : Prop :=
  ∃ rg, rg ∈ memory_map h ∧ kind rg = Usable ∧ frame_within (base rg) (base rg + length_ rg) f ∧
    f ≠ TRAMPOLINE_FRAME / FRAME_SIZE ∧ ∀ r, r ∈ used → ¬ touches r f.

(** Frame [f] lies between two ranges that were handed out, and the record of consumed
    ranges is full. *)
Definition swallowed (b : BumpAllocator) (used : list (Z * Z)) (f : Z) : Prop :=
  consumed_count b = MAX_CONSUMED_RANGES ∧ ∃ r r', r ∈ used ∧ r' ∈ used ∧ r.2 ≤ f * FRAME_SIZE ∧ (f + 1) * FRAME_SIZE ≤ r'.1.

#[global] Instance touches_dec r f : Decision (touches r f).
Proof. unfold touches. apply _. Defined.

Lemma boot_free_unused h b used f : bump_inv b used → boot_free h b f → unused h used f.
Proof.
  intros Hi (rg & Hin & Hk & [Hw Hs] & Ht). exists rg. split_and!; try done. intros r Hr [Ht1 Ht2].
  destruct (bi_asc _ _ Hi) as [_ Hpos]. rewrite Forall_forall in Hpos. specialize (Hpos r Hr).
  assert (Hx : inside (Z.max r.1 (f * FRAME_SIZE)) r) by (unfold inside; lia).
  destruct (bi_covers _ _ Hi _ _ Hr Hx) as (c & Hc & Hin'). apply (Hs c Hc).
  unfold touches, inside, FRAME_SIZE in *. lia.
Qed.

Lemma unused_boot_free h b used f : bump_inv b used → unused h used f → boot_free h b f ∨ swallowed b used f.
Proof.
  intros Hi (rg & Hin & Hk & Hw & Ht & Hu). destruct (decide (Exists (fun c => touches c f) (Bump.consumed_ranges b))) as [Hex|Hno].
  - right. apply Exists_exists in Hex as (c & Hc & [Ht1 Ht2]). destruct (bi_asc _ _ Hi) as [_ Hpos]. rewrite Forall_forall in Hpos.
    destruct (co_asc _ (bi_consumed _ _ Hi)) as [_ Hcp]. rewrite Forall_forall in Hcp. specialize (Hcp c Hc). set (x := Z.max c.1 (f * FRAME_SIZE)).
    assert (Hx : inside x c) by (unfold inside; lia). assert (Hxf : f * FRAME_SIZE ≤ x < (f + 1) * FRAME_SIZE) by (unfold x, FRAME_SIZE in *; lia).
    destruct (bi_gap _ _ Hi x c Hc Hx) as [(r & Hr & Hxr)|(Hfull & r & r' & Hr & Hr' & Hxr)].
    + destruct (Hu r Hr). unfold touches, inside in *. lia.
    + split; [done|]. exists r, r'. pose proof (Hu r Hr) as H1. pose proof (Hu r' Hr') as H2. pose proof (Hpos r Hr). pose proof (Hpos r' Hr'). unfold touches in *. split_and!; [done|done|lia|lia].
  - left. exists rg. split; [done|]. split; [done|]. split; [split; [done|]|done]. intros c Hc Htc. apply Hno, Exists_exists. by exists c.
Qed.

Lemma consumed_short b H : bump_inv b H → (length (Bump.consumed_ranges b) ≤ 16)%nat.
Proof.
  intros Hi. destruct (bi_consumed _ _ Hi) as [_ Hc _]. unfold Bump.consumed_ranges, MAX_CONSUMED_RANGES in *.
  rewrite length_take. lia.
Qed.

Lemma handover_spec h b H N :
  map_ok (memory_map h) → bump_inv b H → Z.of_nat (length (memory_map h)) ≤ 2 ^ 16 →
  0 ≤ N ≤ 2 ^ 32 - 1024 → Forall (addressable N) (memory_map h) →
  ∃ pmm noted,
    for_each (Memory.add_region (Bump.consumed_ranges b)) (memory_map h)
      (Pmm.new (replicate (Z.to_nat N) reserved), false) = Done (pmm, noted) ∧
    frames_len pmm = N ∧ represents pmm (boot_free h b) ∅.
Proof.
  intros Hm Hi Hlen HN Had. set (p0 := Pmm.new _).
  assert (Hl0 : frames_len p0 = N) by (unfold frames_len; simpl; rewrite !length_replicate; lia).
  assert (Hr0 : represents p0 (fun _ => False) ∅) by (apply new_represents; rewrite length_replicate; lia).
  assert (Hm0 : managed_le p0 0).
  { intros z zs Hz. unfold p0 in Hz. simpl in Hz. destruct z as [|[|z]]; by simplify_eq/=. }
  destruct (add_regions_spec (Bump.consumed_ranges b) (memory_map h) p0 false (fun _ => False) 0
    (co_asc _ (bi_consumed _ _ Hi)) (consumed_short _ _ Hi) Hr0 Hm0)
    as (pmm & noted & He & Hl & Hr); [lia|lia|by rewrite Hl0|apply Hm|tauto|].
  exists pmm, noted. rewrite Hl0 in Hl. split; [done|]. split; [done|]. eapply represents_ext; [|done]. intros f. simpl. unfold boot_free. tauto.
Qed.


(** ** The self-test *)

(** The blocks borrowed so far, most recent first, on top of [F] and [A]. *)
Inductive borrowed (F : Z → Prop) (A : gset (Z * nat)) : list (Z * nat) → (Z → Prop) → gset (Z * nat) → Prop :=
| borrowed_none F' : (∀ f, F' f ↔ F f) → borrowed F A [] F' A
| borrowed_one p o live F1 A1 F2 :
    borrowed F A live F1 A1 → (∀ f, covers p o f → F1 f) → ¬ (p, o) ∈ A1 →
    (∀ f, F2 f ↔ F1 f ∧ ¬ covers p o f) → borrowed F A ((p, o) :: live) F2 ({[(p, o)]} ∪ A1).

Lemma allocate_loop_spec F A indices : ∀ pmm live F' A',
  represents pmm F' A' → borrowed F A (reverse live) F' A' →
  ∃ live' pmm' F'' A'', Memory.allocate_loop indices pmm live = Done (live', pmm') ∧
    represents pmm' F'' A'' ∧ borrowed F A (reverse live') F'' A''.
Proof.
  induction indices as [|i indices IH]; intros pmm live F' A' Hr Hb; cbn [Memory.allocate_loop]; [by eauto 10|].
  assert (Ho : (i mod 5 ≤ MAX_ORDER)%nat) by (rewrite max_order_value; pose proof (Nat.mod_upper_bound i 5); lia).
  destruct (allocate_spec pmm F' A' (i mod 5) Normal Hr Ho) as (r & pmm1 & -> & Hr1). cbn [mbind outcome_bind].
  destruct r as [p|e]; [|destruct Hr1 as (_ & -> & _); by eauto 10].
  destruct Hr1 as (_ & _ & HF & HA & Hr1). eapply IH; [done|].
  rewrite reverse_snoc. by eapply borrowed_one.
Qed.

Lemma free_loop_spec F A live F' A' pmm :
  borrowed F A live F' A' → represents pmm F' A' →
  ∃ pmm', Memory.free_loop live pmm = Done (true, pmm') ∧ represents pmm' F A.
Proof.
  intros Hb. revert pmm. induction Hb as [F' HF|p o live F1 A1 F2 Hb IH HF HA HF2]; intros pmm Hr; cbn [Memory.free_loop].
  { exists pmm. split; [done|]. by eapply represents_ext. }
  destruct (free_spec pmm F2 _ p o Hr) as (pmm1 & -> & Hr1); [set_solver|]. cbn [mbind outcome_bind].
  apply IH. replace A1 with (({[(p, o)]} ∪ A1) ∖ {[(p, o)]}) by set_solver.
  eapply represents_ext; [|done]. intros f. simpl. rewrite HF2. split.
  - intros [[? _]|?]; [done|by apply HF].
  - intros Hf. destruct (decide (p ≤ f < p + size_of o)); [by right|by left].
Qed.

Lemma free_frames_determined s s' F A :
  represents s F A → represents s' F A → Pmm.free_frames s = Pmm.free_frames s'.
Proof.
  intros H H'. destruct (free_frames_spec s F A H) as (l & Hnd & Hl & ->).
  destruct (free_frames_spec s' F A H') as (l' & Hnd' & Hl' & ->). do 2 f_equal.
  apply Permutation_length, NoDup_Permutation; [done|done|]. intros f. by rewrite Hl, Hl'.
Qed.

(** The boot self-test has no false alarms and no side effects: on any
    sound allocator its mix of up to 64 allocations and frees returns [true],
    and leaves exactly the free frames and the held blocks it started with. *)
Theorem self_test_passes pmm F A :
  represents pmm F A →
  ∃ pmm', Memory.self_test pmm = Done (true, pmm') ∧ represents pmm' F A.
Proof.
  intros Hr. unfold Memory.self_test.
  destruct (free_frames_spec pmm F A Hr) as (l & _ & _ & Hfree). rewrite Hfree. cbn [mbind outcome_bind].
  destruct (allocate_loop_spec F A (seq 0 64) pmm [] F A Hr) as (live & p1 & F1 & A1 & -> & Hr1 & Hb);
    [by apply borrowed_none|]. cbn [mbind outcome_bind].
  destruct (free_loop_spec F A _ F1 A1 p1 Hb Hr1) as (p2 & -> & Hr2). cbn [mbind outcome_bind negb].
  rewrite <- (free_frames_determined pmm p2 F A Hr Hr2), Hfree. cbn [mbind outcome_bind].
  rewrite (check_invariants_spec p2 F A Hr2). cbn [mbind outcome_bind]. rewrite Z.eqb_refl. eauto.
Qed.

Lemma self_test_passes_witness :
  ∃ pmm', Memory.self_test four_one_held = Done (true, pmm') ∧
    represents pmm' (fun f => 0 ≤ f < 4 ∧ ¬ covers 0 0 f) ({[(0, 0%nat)]} ∪ ∅).
Proof. exact (self_test_passes four_one_held _ _ four_one_held_represents). Defined.

Lemma two_regions_ready : boot_ready 56 two_regions.
Proof.
  split; try done.
  - apply two_regions_map_ok.
  - intros rg Hin _. repeat (apply elem_of_cons in Hin as [->|Hin]; [unfold ADDRESS_LIMIT, FRAME_SIZE; simpl; lia|]).
    by apply elem_of_nil in Hin.
Qed.

