(* ===== verification/Slab.v ===== *)
(** * The kernel heap

    Models src/mm/src/slab.rs: size classes, the slabs of one frame each, whose free
    objects are chained through the objects themselves, the lists of slabs that still
    have a free object, linked through the frame database, and whole pages for what is
    larger; over the buddy allocator of Pmm.v.  Memory is a function from addresses to
    bytes: the heap's links lie in it beside what the heap's callers write. *)
From stdpp Require Import prelude numbers list gmap.
From S2P Require Import Prelude Bump Pmm.
Open Scope Z_scope.
Set Warnings "-clear-no-such-hyp".

Definition CLASS_SIZES : list Z := [16; 32; 64; 128; 256; 512; 1024; 2048].
Definition CLASS_COUNT : nat := length CLASS_SIZES.
Definition MAX_SLAB_SIZE : Z := 2048.

Inductive HeapError : Type :=
| HOutOfMemory
| UnsupportedAlignment (align : Z)
| HNotAllocated
| TooLarge (size : Z).

Record Cache : Type := MkCache { object_size : Z; partial : Z }.

Record Heap : Type := MkHeap {
  pmm : Pmm;
  hhdm_base : Z;
  caches : list Cache;
  live_objects : Z;
  slab_frames : Z
}.

(** ** Memory *)
Definition Memory : Type := Z → Z.
Definition store (m : Memory) (a b : Z) : Memory := fun x => if x =? a then b else m x.
(** A [u16], little-endian. *)
Definition read16 (m : Memory) (a : Z) : Z := m a + 256 * m (a + 1).
Definition write16 (m : Memory) (a v : Z) : Memory := store (store m a (v mod 256)) (a + 1) (v / 256).

(** ** Sizes *)
Fixpoint class_loop (sizes : list Z) (index : nat) (size : Z) : option nat :=
  match sizes with
  | [] => None
  | s :: sizes' => if size <=? s then Some index else class_loop sizes' (S index) size
  end.
Definition class_for (size : Z) : option nat :=
  if MAX_SLAB_SIZE <? size then None else class_loop CLASS_SIZES 0 size.

Fixpoint order_loop (fuel order' : nat) (frames' : Z) : outcome nat :=
  match fuel with
  | O => OutOfFuel
  | S fuel' => if size_of order' <? frames' then order_loop fuel' (S order') frames' else Done order'
  end.
(** The 64-bit sizes stop the loop within 53 rounds. *)
Definition order_for (bytes : Z) : outcome nat := order_loop 54 0 ((bytes + FRAME_SIZE - 1) / FRAME_SIZE).

Definition set_pmm (self : Heap) (p : Pmm) : Heap := MkHeap p (hhdm_base self) (caches self) (live_objects self) (slab_frames self).
Definition set_live (self : Heap) (n : Z) : Heap := MkHeap (pmm self) (hhdm_base self) (caches self) n (slab_frames self).
Definition set_slab_frames (self : Heap) (n : Z) : Heap := MkHeap (pmm self) (hhdm_base self) (caches self) (live_objects self) n.
Definition set_partial (self : Heap) (class' : nat) (pfn : Z) : Heap :=
  MkHeap (pmm self) (hhdm_base self) (alter (fun c => MkCache (object_size c) pfn) class' (caches self)) (live_objects self) (slab_frames self).
(** A write through [slab_mut], where the frame exists. *)
Definition on_slab (self : Heap) (pfn : Z) (f : SlabInfo → SlabInfo) : Heap :=
  match Pmm.slab_of (pmm self) pfn with Some s => set_pmm self (Pmm.set_slab (pmm self) pfn (f s)) | None => self end.
Definition with_links (n p : Z) (s : SlabInfo) : SlabInfo := MkSlabInfo (free_head s) (in_use s) (class s) n p.
Definition with_free (h u : Z) (s : SlabInfo) : SlabInfo := MkSlabInfo h u (class s) (slab_next s) (slab_prev s).

Module Heap.
Definition new (pmm' : Pmm) (base : Z) : Heap := MkHeap pmm' base ((fun s => MkCache s NO_FRAME) <$> CLASS_SIZES) 0 0.

Definition page_address (self : Heap) (pfn : Z) : outcome Z :=
  a ← mul_checked 64 pfn FRAME_SIZE; add_checked 64 (hhdm_base self) a.
Definition pfn_of (self : Heap) (address : Z) : outcome Z :=
  a ← sub_checked 64 address (hhdm_base self); Done (trunc 32 (a / FRAME_SIZE)).

Definition link_partial (self : Heap) (class' : nat) (pfn : Z) : outcome Heap :=
  cache ← at_index (caches self) class';
  let head := partial cache in
  let self := on_slab self pfn (with_links head NO_FRAME) in
  let self := if head =? NO_FRAME then self else on_slab self head (fun old => with_links (slab_next old) pfn old) in
  Done (set_partial self class' pfn).

Definition unlink_partial (self : Heap) (class' : nat) (pfn : Z) : outcome Heap :=
  match Pmm.slab_of (pmm self) pfn with
  | None => Done self
  | Some s =>
      let n := slab_next s in
      let p := slab_prev s in
      self ← (if p =? NO_FRAME then _ ← at_index (caches self) class'; Done (set_partial self class' n)
              else Done (on_slab self p (fun s => with_links n (slab_prev s) s)));
      let self := if n =? NO_FRAME then self else on_slab self n (fun s => with_links (slab_next s) p s) in
      Done (on_slab self pfn (with_links NO_FRAME NO_FRAME))
  end.

(** One object of a new slab put on its chain. *)
Definition thread_object (base size : Z) (count : nat) (m : Memory) (index : nat) : outcome Memory :=
  let offset := Z.of_nat index * size in
  let next := if (index + 1 =? count)%nat then NO_OFFSET else trunc 16 (offset + size) in
  a ← add_checked 64 base offset; Done (write16 m a next).

Definition grow (class' : nat) : prog (Heap * Memory) HeapError Z := fun '(self, m) =>
  cache ← at_index (caches self) class';
  let size := object_size cache in
  '(r, p) ← Pmm.allocate (pmm self) 0 Normal;
  let self := set_pmm self p in
  match r with
  | Err _ => Done (Err HOutOfMemory, (self, m))
  | Ok pfn =>
      base ← page_address self pfn;
      let count := Z.to_nat (FRAME_SIZE / size) in
      m ← for_each (thread_object base size count) (seq 0 count) m;
      let self := on_slab self pfn (fun _ => MkSlabInfo 0 0 (trunc 8 (Z.of_nat class')) NO_FRAME NO_FRAME) in
      n ← add_checked 64 (slab_frames self) 1;
      self ← link_partial (set_slab_frames self n) class' pfn;
      Done (Ok pfn, (self, m))
  end.

(** The object at the head of a slab's chain. *)
Definition pop_object (class' : nat) (pfn : Z) : prog (Heap * Memory) HeapError Z := fun '(self, m) =>
  match Pmm.slab_of (pmm self) pfn with
  | None => Done (Err HNotAllocated, (self, m))
  | Some slab' =>
      let offset := free_head slab' in
      if offset =? NO_OFFSET then Done (Err HNotAllocated, (self, m))
      else
        u ← add_checked 16 (in_use slab') 1;
        page ← page_address self pfn;
        address ← add_checked 64 page offset;
        let next := read16 m address in
        let self := on_slab self pfn (with_free next u) in
        self ← (if next =? NO_OFFSET then unlink_partial self class' pfn else Done self);
        l ← add_checked 64 (live_objects self) 1;
        Done (Ok address, (set_live self l, m))
  end.

Definition allocate_from_slab (class' : nat) : prog (Heap * Memory) HeapError Z := fun '(self, m) =>
  cache ← at_index (caches self) class';
  (pfn ←! (if partial cache =? NO_FRAME then grow class' else pret (partial cache)); pop_object class' pfn) (self, m).

Definition allocate_pages (size : Z) : prog (Heap * Memory) HeapError Z := fun '(self, m) =>
  order' ← order_for size;
  '(r, p) ← Pmm.allocate (pmm self) order' Normal;
  let self := set_pmm self p in
  match r with
  | Ok pfn => a ← page_address self pfn; Done (Ok a, (self, m))
  | Err (OrderTooLarge _) => Done (Err (TooLarge size), (self, m))
  | Err _ => Done (Err HOutOfMemory, (self, m))
  end.

(** The size that decides where a request is served from. *)
Definition effective (size align : Z) : Z := Z.max (Z.max size align) 1.

Definition allocate (size align : Z) : prog (Heap * Memory) HeapError Z :=
  if FRAME_SIZE <? align then pfail (UnsupportedAlignment align)
  else
    match class_for (effective size align) with
    | Some class' => allocate_from_slab class'
    | None => allocate_pages (effective size align)
    end.

(** A slab nothing of which is used goes back to the buddy allocator. *)
Definition release_slab (class' : nat) (pfn : Z) : prog (Heap * Memory) HeapError unit := fun '(self, m) =>
  self ← unlink_partial self class' pfn;
  let self := on_slab self pfn (fun _ => slab_empty) in
  n ← sub_checked 64 (slab_frames self) 1;
  '(r, p) ← Pmm.free (pmm self) pfn 0;
  let self := set_pmm (set_slab_frames self n) p in
  Done (match r with Ok _ => Ok tt | Err _ => Err HNotAllocated end, (self, m)).

Definition free_object (class' : nat) (address : Z) : prog (Heap * Memory) HeapError unit := fun '(self, m) =>
  pfn ← pfn_of self address;
  _ ← at_index (caches self) class';
  page_base ← page_address self pfn;
  offset ← sub_checked 64 address page_base;
  let offset := trunc 16 offset in
  match Pmm.slab_of (pmm self) pfn with
  | None => Done (Err HNotAllocated, (self, m))
  | Some s =>
      if negb (class s =? Z.of_nat class') then Done (Err HNotAllocated, (self, m))
      else
        let was_full := free_head s =? NO_OFFSET in
        let used := saturating_sub (in_use s) 1 in
        let m := write16 m address (free_head s) in
        let self := on_slab self pfn (with_free offset used) in
        self ← (if was_full then link_partial self class' pfn else Done self);
        let self := set_live self (saturating_sub (live_objects self) 1) in
        (if used =? 0 then release_slab class' pfn else pret tt) (self, m)
  end.

Definition free_pages (size address : Z) : prog (Heap * Memory) HeapError unit := fun '(self, m) =>
  order' ← order_for size;
  pfn ← pfn_of self address;
  '(r, p) ← Pmm.free (pmm self) pfn order';
  Done (match r with Ok _ => Ok tt | Err _ => Err HNotAllocated end, (set_pmm self p, m)).

Definition free (address size align : Z) : prog (Heap * Memory) HeapError unit :=
  match class_for (effective size align) with
  | Some class' => free_object class' address
  | None => free_pages (effective size align) address
  end.
End Heap.

Lemma add_checked_ok w x y : in_width w (x + y) → add_checked w x y = Done (x + y).
Proof. apply checked_ok. Qed.
Lemma sub_checked_ok w x y : in_width w (x - y) → sub_checked w x y = Done (x - y).
Proof. apply checked_ok. Qed.

(** ** What the buddy allocator leaves alone *)
Definition slabs (s : Pmm) : list SlabInfo := slab <$> frames s.

Lemma slab_of_slabs s p : Pmm.slab_of s p = slabs s !! Z.to_nat p.
Proof. unfold Pmm.slab_of, Pmm.frame, slabs. by rewrite list_lookup_fmap. Qed.

Lemma slabs_set_frame s p g f : get_frame s p = Done g → slab f = slab g → slabs (set_frame s p f) = slabs s.
Proof.
  intros Hg Hf. apply at_index_done in Hg. unfold slabs, set_frame. cbn [frames]. rewrite list_fmap_insert, Hf.
  apply list_insert_id. by rewrite list_lookup_fmap, Hg.
Qed.
Lemma slabs_set_zone s z zs : slabs (set_zone s z zs) = slabs s.
Proof. done. Qed.

Ltac slabs_step :=
  repeat (inv_done; try case_match; simplify_eq/=);
  repeat (rewrite slabs_set_zone || (erewrite slabs_set_frame by (try eassumption; done))); try done.

Lemma push_block_slabs s p o s' : Pmm.push_block s p o = Done s' → slabs s' = slabs s.
Proof. unfold Pmm.push_block. intros H. slabs_step. Qed.
Lemma remove_block_slabs s p o s' : Pmm.remove_block s p o = Done s' → slabs s' = slabs s.
Proof. unfold Pmm.remove_block. intros H. slabs_step. Qed.
Lemma split_loop_slabs n : ∀ s p t s', Pmm.split_loop n s p t = Done s' → slabs s' = slabs s.
Proof.
  induction n as [|n IH]; cbn [Pmm.split_loop]; intros s p t s' H; inv_done; [done|].
  rewrite (IH _ _ _ _ H). by eapply push_block_slabs.
Qed.
Lemma allocate_from_slabs s o z r s' : Pmm.allocate_from s o z = Done (r, s') → slabs s' = slabs s.
Proof.
  unfold Pmm.allocate_from. intros H. inv_done. case_match; inv_done; [|by simplify_eq]. simplify_eq.
  erewrite slabs_set_frame by (eassumption || done).
  match goal with H : Pmm.split_loop _ _ _ _ = _ |- _ => rewrite (split_loop_slabs _ _ _ _ _ H) end. by eapply remove_block_slabs.
Qed.
Lemma allocate_slabs s o z r s' : Pmm.allocate s o z = Done (r, s') → slabs s' = slabs s.
Proof.
  unfold Pmm.allocate. intros H. case_decide; [by simplify_eq|]. inv_done. destruct v as [[p|] s1]; inv_done; simplify_eq; [by eapply allocate_from_slabs|].
  case_decide; inv_done; simplify_eq; [|by eapply allocate_from_slabs]. destruct v as [[p|] s2]; simplify_eq;
    (etrans; [eapply allocate_from_slabs|eapply allocate_from_slabs]; eassumption).
Qed.
Lemma coalesce_slabs fuel : ∀ s p o s' p' o', Pmm.coalesce fuel s p o = Done (s', p', o') → slabs s' = slabs s.
Proof.
  induction fuel as [|fuel IH]; cbn [Pmm.coalesce]; intros s p o s' p' o' H; [done|]. case_decide; [|by simplify_eq].
  case_match; [by simplify_eq|]. inv_done. case_match; [by simplify_eq|]. case_match; [by simplify_eq|]. inv_done.
  rewrite (IH _ _ _ _ _ _ H). by eapply remove_block_slabs.
Qed.
Lemma free_slabs s p o r s' : Pmm.free s p o = Done (r, s') → slabs s' = slabs s.
Proof.
  unfold Pmm.free. intros H. case_decide; [by simplify_eq|]. case_match; [by simplify_eq|]. case_match; [by simplify_eq|].
  inv_done. case_match; [by simplify_eq|]. inv_done. destruct v0 as [[s1 q] k]. inv_done. simplify_eq.
  rewrite (push_block_slabs _ _ _ _ Hv1), (coalesce_slabs _ _ _ _ _ _ _ Hv0). by erewrite slabs_set_frame.
Qed.

Lemma length_slabs s : Z.of_nat (length (slabs s)) = frames_len s.
Proof. unfold slabs, frames_len. by rewrite length_fmap. Qed.
Lemma slabs_frames_len s s' : slabs s' = slabs s → frames_len s' = frames_len s.
Proof. intros H. by rewrite <- !length_slabs, H. Qed.

(** A frame that is held is on no free list, so that its slab fields can be written. *)
Lemma set_slab_represents s F A p o x : represents s F A → (p, o) ∈ A →
  represents (Pmm.set_slab s p x) F A ∧ slabs (Pmm.set_slab s p x) = <[Z.to_nat p := x]> (slabs s).
Proof.
  intros (G & Hi & HF) HA. destruct (iv_held _ _ _ Hi p o HA) as (f & Hf & Hst & Hor & Hrc).
  pose proof (inv_held_nonneg _ _ _ _ _ Hi HA) as H0. unfold Pmm.set_slab, Pmm.frame. fold (fr s p). rewrite Hf.
  assert (Hh : is_head f = false).
  { destruct (is_head f) eqn:Hh; [|done]. destruct (lk_head _ _ (iv_linked _ _ _ Hi) p f H0 Hf Hh) as [Ho Hin].
    destruct (lk_in _ _ (iv_linked _ _ _ Hi) _ _ _ (zix_lt p) Ho Hin) as (_ & _ & g & Hg & Hs & _). congruence. }
  set (g := MkFrame _ _ _ _ _ _ _ x). split.
  - exists G. split; [|done]. split.
    + by apply (linked_unlisted_write s G p f g (iv_linked _ _ _ Hi)).
    + unfold frames_len. rewrite length_set_frame. apply Hi.
    + intros q k HA'. rewrite fr_set by eauto using inv_held_nonneg. case_decide; [|by apply (iv_held _ _ _ Hi)]. subst q.
      destruct (iv_held _ _ _ Hi p k HA') as (f' & Hf' & Hst' & Hor' & Hrc'). exists g. cbn. rewrite Hf in Hf'. injection Hf' as <-. done.
  - unfold slabs, set_frame. cbn [frames]. by rewrite list_fmap_insert.
Qed.

(** Two held blocks that share a frame are one. *)
Lemma held_meet s F A p o q k f : represents s F A → (p, o) ∈ A → (q, k) ∈ A → covers p o f → covers q k f → q = p ∧ k = o.
Proof. intros (G & Hi & _) H1 H2 C1 C2. destruct (geo_disjoint _ _ (iv_geo _ _ _ Hi) q k p o f) as [-> ->]; try done; by right. Qed.
Lemma held_fits s F A p o : represents s F A → (p, o) ∈ A → fits (frames_len s) p o.
Proof. intros (G & Hi & _) H. apply (geo_fits _ _ (iv_geo _ _ _ Hi)). by right. Qed.
Lemma held_not_free s F A p o f : represents s F A → (p, o) ∈ A → covers p o f → ¬ F f.
Proof.
  intros (G & Hi & HF) HA Hc (q & k & HB & Hc')%HF. destruct (geo_disjoint _ _ (iv_geo _ _ _ Hi) p o q k f) as [-> ->]; [by right|by left|done|done|].
  by apply (blocks_free_or_held s G A q k (iv_linked _ _ _ Hi) (iv_held _ _ _ Hi)).
Qed.
Lemma represents_len s F A : represents s F A → frames_len s ≤ 2 ^ 32 - 1024.
Proof. intros (G & Hi & _). apply Hi. Qed.

(** ** Writing one frame's slab fields *)
Definition snx (s : Pmm) (p : Z) : Z := default NONE (slab_next <$> slabs s !! Z.to_nat p).
Definition spv (s : Pmm) (p : Z) : Z := default NONE (slab_prev <$> slabs s !! Z.to_nat p).
(** Everything in a slab's fields but its links. *)
Definition plain (s : SlabInfo) : Z * Z * Z := (free_head s, in_use s, class s).

Lemma held_slab s F A p o : represents s F A → (p, o) ∈ A → 0 ≤ p < frames_len s ∧ ∃ i, slabs s !! Z.to_nat p = Some i.
Proof.
  intros Hr HA. destruct (held_fits _ _ _ _ _ Hr HA) as [_ H0 _ Hin _]. pose proof (size_of_pos o). split; [lia|].
  apply lookup_lt_is_Some_2. pose proof (length_slabs s). lia.
Qed.

Lemma on_slab_ok h F A p o f : represents (pmm h) F A → (p, o) ∈ A →
  ∃ i s', slabs (pmm h) !! Z.to_nat p = Some i ∧ on_slab h p f = set_pmm h s' ∧ represents s' F A ∧ slabs s' = <[Z.to_nat p := f i]> (slabs (pmm h)).
Proof.
  intros Hr HA. destruct (held_slab _ _ _ _ _ Hr HA) as [_ [i Hi]]. unfold on_slab. rewrite slab_of_slabs, Hi.
  destruct (set_slab_represents _ _ _ _ _ (f i) Hr HA) as [H1 H2]. eauto 10.
Qed.

Lemma snx_insert s s' p i q : slabs s' = <[Z.to_nat p := i]> (slabs s) → 0 ≤ p < frames_len s → 0 ≤ q →
  snx s' q = if decide (q = p) then slab_next i else snx s q.
Proof.
  intros Hs Hp Hq. pose proof (length_slabs s). unfold snx. rewrite Hs. case_decide as E.
  - subst q. by rewrite list_lookup_insert_eq by lia.
  - by rewrite list_lookup_insert_ne by lia.
Qed.
Lemma spv_insert s s' p i q : slabs s' = <[Z.to_nat p := i]> (slabs s) → 0 ≤ p < frames_len s → 0 ≤ q →
  spv s' q = if decide (q = p) then slab_prev i else spv s q.
Proof.
  intros Hs Hp Hq. pose proof (length_slabs s). unfold spv. rewrite Hs. case_decide as E.
  - subst q. by rewrite list_lookup_insert_eq by lia.
  - by rewrite list_lookup_insert_ne by lia.
Qed.
Lemma plain_insert s s' p i j : slabs s' = <[Z.to_nat p := j]> (slabs s) → slabs s !! Z.to_nat p = Some i → plain j = plain i →
  plain <$> slabs s' = plain <$> slabs s.
Proof. intros Hs Hi Hp. rewrite Hs, list_fmap_insert, Hp. apply list_insert_id. by rewrite list_lookup_fmap, Hi. Qed.

(** ** The lists of slabs with a free object *)
Definition osize (c : nat) : Z := 16 * 2 ^ Z.of_nat c.

Record lists_ok (h : Heap) (Q : nat → list Z) : Prop := {
  lo_length : length (caches h) = CLASS_COUNT;
  lo_cache c cache : caches h !! c = Some cache → object_size cache = osize c ∧ links (snx (pmm h)) (spv (pmm h)) NONE (partial cache) (Q c);
  lo_nodup c : NoDup (Q c);
  lo_apart c c' p : p ∈ Q c → p ∈ Q c' → c = c';
  lo_range c p : p ∈ Q c → 0 ≤ p < frames_len (pmm h)
}.
Definition upd_list (Q : nat → list Z) (c : nat) (l : list Z) : nat → list Z := fun c' => if decide (c' = c) then l else Q c'.

(** What relinking leaves as it is. *)
Record relinked (h h' : Heap) : Prop := {
  rk_base : hhdm_base h' = hhdm_base h;
  rk_live : live_objects h' = live_objects h;
  rk_frames : slab_frames h' = slab_frames h;
  rk_plain : plain <$> slabs (pmm h') = plain <$> slabs (pmm h)
}.

Lemma relinked_len h h' : relinked h h' → frames_len (pmm h') = frames_len (pmm h).
Proof. intros H. rewrite <- !length_slabs. f_equal. rewrite <- (length_fmap plain), (rk_plain _ _ H). by rewrite length_fmap. Qed.

Lemma lists_rebuild h h' Q c l cache pt : lists_ok h Q → (c < CLASS_COUNT)%nat → caches h !! c = Some cache →
  caches h' = <[c := MkCache (object_size cache) pt]> (caches h) → frames_len (pmm h') = frames_len (pmm h) →
  links (snx (pmm h')) (spv (pmm h')) NONE pt l → NoDup l → (∀ q, q ∈ l → 0 ≤ q < frames_len (pmm h) ∧ ∀ c', q ∈ Q c' → c' = c) →
  (∀ c' q, c' ≠ c → q ∈ Q c' → snx (pmm h') q = snx (pmm h) q ∧ spv (pmm h') q = spv (pmm h) q) → lists_ok h' (upd_list Q c l).
Proof.
  intros [L1 L2 L3 L4 L5] Hc Hcache Hcs Hlen Hlk Hnd Hin Hext. unfold upd_list. split.
  - by rewrite Hcs, length_insert.
  - intros c' k. rewrite Hcs. case_decide as E.
    + subst c'. rewrite list_lookup_insert_eq by lia. intros [= <-]. split; [apply (L2 _ _ Hcache)|done].
    + rewrite list_lookup_insert_ne by done. intros Hk. destruct (L2 _ _ Hk) as [? Hl]. split; [done|]. eapply links_ext; [|done]. intros q Hq. by apply (Hext c').
  - intros c'. by case_decide.
  - intros c1 c2 q. repeat case_decide; subst; try done; intros H1 H2; [symmetry; by apply (proj2 (Hin q H1))|by apply (proj2 (Hin q H2))|by eapply L4].
  - intros c' q. rewrite Hlen. case_decide; [intros Hq; apply (proj1 (Hin q Hq))|apply L5].
Qed.

Lemma alter_insert {A} (f : A → A) (l : list A) i x : l !! i = Some x → alter f i l = <[i := f x]> l.
Proof.
  intros H. apply list_eq. intros j. destruct (decide (j = i)) as [->|E].
  - rewrite list_lookup_alter_eq, H, list_lookup_insert_eq; [done|]. by eapply lookup_lt_Some.
  - by rewrite list_lookup_alter_ne, list_lookup_insert_ne by done.
Qed.

Lemma none_not_listed h Q c F A : lists_ok h Q → represents (pmm h) F A → NONE ∉ Q c.
Proof. intros Hl Hr Hin. pose proof (represents_len _ _ _ Hr). pose proof (lo_range _ _ Hl _ _ Hin). unfold NONE in *. lia. Qed.

Lemma link_ok h Q F A c p : lists_ok h Q → represents (pmm h) F A → (∀ c q, q ∈ Q c → (q, 0%nat) ∈ A) →
  (p, 0%nat) ∈ A → (∀ c', p ∉ Q c') → (c < CLASS_COUNT)%nat →
  ∃ h', Heap.link_partial h c p = Done h' ∧ lists_ok h' (upd_list Q c (p :: Q c)) ∧ represents (pmm h') F A ∧ relinked h h'.
Proof.
  intros Hl Hr HA Hp Hnot Hc. destruct (lookup_lt_is_Some_2 (caches h) c) as [cache Hcache]; [rewrite (lo_length _ _ Hl); done|].
  destruct (lo_cache _ _ Hl _ _ Hcache) as [Hsz Hlk]. pose proof (none_not_listed _ _ c _ _ Hl Hr) as Hnone.
  destruct (held_slab _ _ _ _ _ Hr Hp) as [Hp0 _].
  unfold Heap.link_partial. rewrite (at_index_ok _ _ _ Hcache). cbn [mbind outcome_bind].
  destruct (on_slab_ok h F A p 0 (with_links (partial cache) NO_FRAME) Hr Hp) as (i & s1 & Hi & -> & Hr1 & Hs1).
  assert (Hlen1 : frames_len s1 = frames_len (pmm h)) by (rewrite <- !length_slabs, Hs1, length_insert; done).
  assert (Hpl1 : plain <$> slabs s1 = plain <$> slabs (pmm h)) by by eapply plain_insert.
  assert (Hhead : partial cache = NONE ∧ Q c = [] ∨ partial cache ∈ Q c ∧ partial cache ≠ NONE).
  { destruct (Q c) as [|x l] eqn:HQ; [by left|]. destruct Hlk as (E & _). rewrite E. right. split; [left|]. intros ->. apply Hnone. left. }
  set (h1 := set_pmm h s1).
  assert (Hstep : ∃ s2, (if partial cache =? NO_FRAME then h1 else on_slab h1 (partial cache) (fun old => with_links (slab_next old) p old)) = set_pmm h s2 ∧
    represents s2 F A ∧ frames_len s2 = frames_len (pmm h) ∧ plain <$> slabs s2 = plain <$> slabs (pmm h) ∧
    ∀ q, 0 ≤ q < frames_len (pmm h) → snx s2 q = (if decide (q = p) then partial cache else snx (pmm h) q) ∧
                 spv s2 q = (if decide (q = p) then NONE else if decide (q = partial cache) then p else spv (pmm h) q)).
  { destruct Hhead as [[E HQ]|[Hin Hne]].
    - rewrite E. change (NONE =? NO_FRAME) with true. exists s1. split_and!; try done. intros q Hq.
      rewrite (snx_insert _ _ _ _ _ Hs1), (spv_insert _ _ _ _ _ Hs1) by lia. cbn. rewrite E. split; [done|].
      destruct (decide (q = p)); [done|]. rewrite decide_False; [done|]. pose proof (represents_len _ _ _ Hr). unfold NONE. lia.
    - rewrite (proj2 (Z.eqb_neq _ _)) by done. pose proof (lo_range _ _ Hl _ _ Hin). assert (partial cache ≠ p) by (intros E; apply (Hnot c); by rewrite <- E).
      destruct (on_slab_ok h1 F A (partial cache) 0 (fun old => with_links (slab_next old) p old) Hr1) as (j & s2 & Hj & -> & Hr2 & Hs2); [by eapply HA|].
      exists s2. split_and!; [done|done| | |].
      + rewrite <- !length_slabs, Hs2, length_insert. cbn. rewrite Hs1, length_insert. done.
      + rewrite <- Hpl1. by eapply plain_insert.
      + cbn [pmm h1 set_pmm] in *. intros q Hq. rewrite (snx_insert _ _ _ _ q Hs2), (spv_insert _ _ _ _ q Hs2) by lia.
        rewrite (snx_insert _ _ _ _ q Hs1), (spv_insert _ _ _ _ q Hs1) by lia. cbn.
        assert (Hjn : slab_next j = snx (pmm h) (partial cache)).
        { unfold snx. rewrite Hs1, list_lookup_insert_ne in Hj by lia. by rewrite Hj. }
        rewrite Hjn. destruct (decide (q = partial cache)) as [->|]; [by rewrite !decide_False by done|done]. }
  destruct Hstep as (s2 & -> & Hr2 & Hlen2 & Hpl2 & Hlinks). eexists. split; [done|]. unfold set_partial. cbn [pmm hhdm_base caches live_objects slab_frames set_pmm].
  split_and!; [|done|by split].
  eapply lists_rebuild; [done|done|done| |done|..]; cbn [caches pmm].
  - exact (alter_insert _ _ _ _ Hcache).
  - eapply links_push; [exact Hlk|apply Hnot|..|apply Hl].
    + destruct (Hlinks p Hp0) as [-> _]. by rewrite decide_True.
    + destruct (Hlinks p Hp0) as [_ ->]. by rewrite decide_True.
    + intros y Hy. destruct (Hlinks y (lo_range _ _ Hl _ _ Hy)) as [-> _]. rewrite decide_False; [done|]. intros ->. by apply (Hnot c).
    + intros y Hy. destruct (Hlinks y (lo_range _ _ Hl _ _ Hy)) as [_ ->]. rewrite decide_False; [done|]. intros ->. by apply (Hnot c).
  - apply NoDup_cons. split; [apply Hnot|apply Hl].
  - intros q [->|Hq]%elem_of_cons.
    + split; [done|]. intros c' Hc'. by destruct (Hnot c').
    + split; [by eapply lo_range|]. intros c' Hc'. by eapply (lo_apart _ _ Hl).
  - intros c' q Hne Hq. destruct (Hlinks q (lo_range _ _ Hl _ _ Hq)) as [-> ->]. assert (q ≠ p) by (intros ->; by apply (Hnot c')).
    assert (q ≠ partial cache); [|by rewrite !decide_False by done].
    intros E. destruct Hhead as [[E' _]|[Hin _]]; [|apply Hne; subst q; by eapply (lo_apart _ _ Hl)].
    pose proof (lo_range _ _ Hl _ _ Hq). pose proof (represents_len _ _ _ Hr). unfold NONE in *. lia.
Qed.

(** Links written one after another. *)
Definition wired (h : Heap) (F : Z → Prop) (A : gset (Z * nat)) (s : Pmm) (fn fp : Z → Z) : Prop :=
  represents s F A ∧ frames_len s = frames_len (pmm h) ∧ plain <$> slabs s = plain <$> slabs (pmm h) ∧
  ∀ q, 0 ≤ q < frames_len (pmm h) → snx s q = fn q ∧ spv s q = fp q.

Lemma wired_write h F A k fn fp q f : wired h F A (pmm k) fn fp → (q, 0%nat) ∈ A → (∀ i, plain (f i) = plain i) →
  ∃ i s', on_slab k q f = set_pmm k s' ∧ slab_next i = fn q ∧ slab_prev i = fp q ∧
    wired h F A s' (fun x => if decide (x = q) then slab_next (f i) else fn x) (fun x => if decide (x = q) then slab_prev (f i) else fp x).
Proof.
  intros (Hr & Hlen & Hpl & Hw) Hq Hf. destruct (held_slab _ _ _ _ _ Hr Hq) as [Hq0 _].
  destruct (on_slab_ok k F A q 0 f Hr Hq) as (i & s' & Hi & -> & Hr' & Hs'). exists i, s'. rewrite Hlen in Hq0. destruct (Hw q Hq0) as [Hn Hp].
  split_and!; [done|..].
  - rewrite <- Hn. unfold snx. by rewrite Hi.
  - rewrite <- Hp. unfold spv. by rewrite Hi.
  - split_and!; [done| | |].
    + rewrite <- !length_slabs, Hs', length_insert, !length_slabs. done.
    + rewrite <- Hpl. by eapply plain_insert.
    + intros x Hx. rewrite (snx_insert _ _ _ _ x Hs'), (spv_insert _ _ _ _ x Hs') by lia. destruct (Hw x Hx) as [-> ->]. done.
Qed.

Lemma unlink_ok h Q F A c l1 p l2 : lists_ok h Q → represents (pmm h) F A → (∀ c q, q ∈ Q c → (q, 0%nat) ∈ A) →
  Q c = l1 ++ p :: l2 → (c < CLASS_COUNT)%nat →
  ∃ h', Heap.unlink_partial h c p = Done h' ∧ lists_ok h' (upd_list Q c (l1 ++ l2)) ∧ represents (pmm h') F A ∧ relinked h h'.
Proof.
  intros Hl Hr HA HQ Hc. destruct (lookup_lt_is_Some_2 (caches h) c) as [cache Hcache]; [rewrite (lo_length _ _ Hl); done|].
  destruct (lo_cache _ _ Hl _ _ Hcache) as [Hsz Hlk]. pose proof (none_not_listed _ _ c _ _ Hl Hr) as Hnone. pose proof (lo_nodup _ _ Hl c) as Hnd.
  rewrite HQ in Hlk, Hnone, Hnd. destruct (links_neighbours _ _ _ _ _ _ _ Hlk) as [Hprev Hnext].
  assert (Hin : ∀ q, q ∈ l1 ++ p :: l2 → (q, 0%nat) ∈ A ∧ 0 ≤ q < frames_len (pmm h) ∧ q ≠ NONE).
  { intros q Hq. split_and!; [apply (HA c); by rewrite HQ|apply (lo_range _ _ Hl c); by rewrite HQ..|intros ->; done]. }
  assert (Hp : p ∈ l1 ++ p :: l2) by set_solver. destruct (Hin p Hp) as (HpA & Hp0 & _).
  set (n := snx (pmm h) p) in *. set (v := spv (pmm h) p) in *.
  assert (Hv : v = NONE ∧ l1 = [] ∨ v ∈ l1) by (destruct Hprev as [(? & ? & _)|[_ ?]]; auto).
  assert (Hn : n = NONE ∧ l2 = [] ∨ n ∈ l2) by (destruct Hnext as [[? ?]|[_ ?]]; auto).
  assert (Hvp : v ≠ p) by (destruct Hv as [[-> _]|Hv]; [apply not_eq_sym, Hin, Hp|intros ->; apply NoDup_app in Hnd as (_ & Hd & _); apply (Hd p Hv); left]).
  assert (Hnp : n ≠ p).
  { destruct Hn as [[-> _]|Hn]; [apply not_eq_sym, Hin, Hp|]. intros E. apply NoDup_app in Hnd as (_ & _ & [Hd _]%NoDup_cons). by rewrite E in Hn. }
  destruct (held_slab _ _ _ _ _ Hr HpA) as [_ [i Hi]]. unfold Heap.unlink_partial. rewrite slab_of_slabs, Hi.
  assert (Hin1 : slab_next i = n) by (unfold n, snx; by rewrite Hi). assert (Hip : slab_prev i = v) by (unfold v, spv; by rewrite Hi). rewrite Hin1, Hip.
  assert (Hw : wired h F A (pmm h) (snx (pmm h)) (spv (pmm h))) by (split_and!; done).
  assert (Hs1 : ∃ k s1, (if v =? NO_FRAME then _ ← at_index (caches h) c; Done (set_partial h c n)
                      else Done (on_slab h v (fun s => with_links n (slab_prev s) s))) = Done (set_pmm k s1) ∧
    caches k = <[c := MkCache (object_size cache) (match l1 with [] => n | _ => partial cache end)]> (caches h) ∧
    hhdm_base k = hhdm_base h ∧ live_objects k = live_objects h ∧ slab_frames k = slab_frames h ∧
    wired h F A s1 (fun x => if decide (x = v) then n else snx (pmm h) x) (spv (pmm h))).
  { destruct Hv as [[E ->]|Hv].
    - exists (set_partial h c n), (pmm h). rewrite E. change (NONE =? NO_FRAME) with true. rewrite (at_index_ok _ _ _ Hcache). split_and!; try done.
      + exact (alter_insert _ _ _ _ Hcache).
      + split_and!; try done. intros q Hq. pose proof (represents_len _ _ _ Hr). rewrite decide_False by (unfold NONE; lia). done.
    - exists h. assert (Hvin : v ∈ l1 ++ p :: l2) by set_solver. destruct (Hin v Hvin) as (HvA & Hv0 & Hvn). rewrite (proj2 (Z.eqb_neq _ _)) by done.
      destruct (wired_write h F A h _ _ v (fun s => with_links n (slab_prev s) s) Hw HvA) as (j & s1 & -> & Hj1 & Hj2 & Hw1); [done|].
      exists s1. split_and!; try done.
      + rewrite list_insert_id; [done|]. destruct l1; [by apply elem_of_nil in Hv|]. rewrite Hcache. by destruct cache.
      + destruct Hw1 as (W1 & W2 & W3 & W4). split_and!; try done. intros q Hq. destruct (W4 q Hq) as [-> ->]. cbn. split; [done|]. case_decide; [by subst|done]. }
  destruct Hs1 as (k & s1 & -> & Hk1 & Hk2 & Hk3 & Hk4 & Hw1). cbn [mbind outcome_bind].
  assert (Hs2 : ∃ s2, (if n =? NO_FRAME then set_pmm k s1 else on_slab (set_pmm k s1) n (fun s => with_links (slab_next s) v s)) = set_pmm k s2 ∧
    wired h F A s2 (fun x => if decide (x = v) then n else snx (pmm h) x) (fun x => if decide (x = n) then v else spv (pmm h) x)).
  { destruct Hn as [[E ->]|Hn].
    - exists s1. rewrite E. change (NONE =? NO_FRAME) with true. split; [done|]. destruct Hw1 as (W1 & W2 & W3 & W4). split_and!; try done.
      intros q Hq. destruct (W4 q Hq) as [-> ->]. pose proof (represents_len _ _ _ Hr). rewrite E, (decide_False (P := q = NONE)) by (unfold NONE; lia). done.
    - assert (Hnin : n ∈ l1 ++ p :: l2) by set_solver. destruct (Hin n Hnin) as (HnA & Hn0 & Hnn). rewrite (proj2 (Z.eqb_neq _ _)) by done.
      destruct (wired_write h F A (set_pmm k s1) _ _ n (fun s => with_links (slab_next s) v s) Hw1 HnA) as (j & s2 & -> & Hj1 & Hj2 & Hw2); [done|].
      exists s2. split; [done|]. destruct Hw2 as (W1 & W2 & W3 & W4). split_and!; try done. intros q Hq. destruct (W4 q Hq) as [-> ->]. cbn. split; [|done].
      destruct (decide (q = n)) as [->|]; [done|done]. }
  destruct Hs2 as (s2 & -> & Hw2).
  destruct (wired_write h F A (set_pmm k s2) _ _ p (with_links NO_FRAME NO_FRAME) Hw2 HpA) as (j & s3 & -> & _ & _ & W1 & W2 & W3 & W4); [done|].
  eexists. split; [done|]. split_and!; [|done|by split]. cbn in W4.
  assert (Hrest : ∀ y, y ∈ l1 ++ l2 → y ≠ p ∧ 0 ≤ y < frames_len (pmm h) ∧ y ∈ Q c).
  { intros y Hy. assert (Hy' : y ∈ l1 ++ p :: l2) by (rewrite <- Permutation_middle; by right). split_and!; [|by apply Hin..|by rewrite HQ].
    intros ->. by rewrite <- Permutation_middle, NoDup_cons in Hnd; destruct Hnd. }
  eapply lists_rebuild; [done|done|exact Hcache|exact Hk1|exact W2|..]; cbn [pmm set_pmm].
  - eapply links_remove; [exact Hlk|exact Hnd|exact Hnone|exact Hnone|..].
    + intros y Hy. destruct (Hrest y Hy) as (Hyp & Hy0 & _). destruct (W4 y Hy0) as [-> _]. by rewrite decide_False.
    + intros y Hy. destruct (Hrest y Hy) as (Hyp & Hy0 & _). destruct (W4 y Hy0) as [_ ->]. by rewrite decide_False.
  - rewrite <- Permutation_middle, NoDup_cons in Hnd. apply Hnd.
  - intros q Hq. destruct (Hrest q Hq) as (_ & Hq0 & HqQ). split; [done|]. intros c' Hc'. by eapply (lo_apart _ _ Hl).
  - intros c' q Hne Hq. assert (Hout : ∀ x, x ∈ l1 ++ p :: l2 → q ≠ x) by (intros x Hx ->; apply Hne; eapply (lo_apart _ _ Hl); [exact Hq|by rewrite HQ]).
    pose proof (lo_range _ _ Hl _ _ Hq) as Hq0. pose proof (represents_len _ _ _ Hr). destruct (W4 q Hq0) as [-> ->].
    assert (q ≠ v) by (destruct Hv as [[-> _]|Hv]; [unfold NONE; lia|apply Hout, elem_of_app; by left]).
    assert (q ≠ n) by (destruct Hn as [[-> _]|Hn]; [unfold NONE; lia|apply Hout, elem_of_app; right; by right]).
    rewrite !decide_False by (done || by apply Hout). done.
Qed.
