(* ===== verification/HeapSpec.v ===== *)
(** * What the kernel heap promises

    The heap of Slab.v refines an abstract one whose state is the set of address
    ranges its callers hold: every allocation is a fresh range, large enough and
    aligned, and every range can be given back; the heap never writes where a caller
    may, and keeps working whatever callers write there. *)
From stdpp Require Import prelude numbers list gmap fin_maps.
From S2P Require Import Prelude Bump Pmm Slab.
Open Scope Z_scope.
Set Warnings "-clear-no-such-hyp".

(** ** Places *)
Definition addr (base p : Z) : Z := base + p * FRAME_SIZE.
Definition objects (c : nat) : Z := FRAME_SIZE / osize c.
Definition valid_offset (c : nat) (o : Z) : Prop := ∃ i, 0 ≤ i < objects c ∧ o = i * osize c.
Definition all_offsets (c : nat) : list Z := (fun i => i * osize c) <$> seqZ 0 (objects c).

Ltac each_class c H := do 8 (destruct c as [|c]; [vm_compute; try (repeat split; congruence) |]); cbn in H; lia.

Lemma class_geometry c : (c < CLASS_COUNT)%nat → 16 ≤ osize c ≤ 2048 ∧ 2 ≤ objects c ≤ 256 ∧ objects c * osize c = FRAME_SIZE.
Proof. intros H. each_class c H. Qed.
Lemma class_size c : (c < CLASS_COUNT)%nat → CLASS_SIZES !! c = Some (osize c).
Proof. intros H. do 8 (destruct c as [|c]; [reflexivity|]). cbn in H; lia. Qed.

Lemma valid_range c o : (c < CLASS_COUNT)%nat → valid_offset c o → 0 ≤ o ∧ o + osize c ≤ FRAME_SIZE.
Proof. intros Hc (i & Hi & ->). destruct (class_geometry c Hc) as (? & ? & E). nia. Qed.
Lemma valid_apart c o o' x y : (c < CLASS_COUNT)%nat → valid_offset c o → valid_offset c o' → 0 ≤ x < osize c → 0 ≤ y < osize c → o + x = o' + y → o = o'.
Proof. intros Hc (i & Hi & ->) (j & Hj & ->) Hx Hy E. assert (i = j) by nia. by subst. Qed.

Lemma elem_all_offsets c o : o ∈ all_offsets c ↔ valid_offset c o.
Proof.
  unfold all_offsets, valid_offset. rewrite list_elem_of_fmap. setoid_rewrite elem_of_seqZ. split; intros (i & H); exists i; [|split; [tauto|lia]]. destruct H as [-> H]. split; [lia|done].
Qed.
Lemma length_all_offsets c : Z.of_nat (length (all_offsets c)) = Z.max 0 (objects c).
Proof. unfold all_offsets. rewrite length_fmap, length_seqZ. lia. Qed.
Lemma NoDup_all_offsets c : (c < CLASS_COUNT)%nat → NoDup (all_offsets c).
Proof.
  intros Hc. destruct (class_geometry c Hc) as (? & ? & _). apply NoDup_fmap_2_strong; [|apply NoDup_seqZ]. intros i j _ _ E. nia.
Qed.

(** A slab with no free object missing has them all. *)
Lemma full_chain c L o : (c < CLASS_COUNT)%nat → NoDup L → Forall (valid_offset c) L → objects c ≤ Z.of_nat (length L) → valid_offset c o → o ∈ L.
Proof.
  intros Hc Hnd Hv Hlen Ho. assert (Hsub : L ⊆+ all_offsets c).
  { apply NoDup_submseteq; [done|]. intros x Hx. apply elem_all_offsets. by eapply Forall_forall in Hv. }
  assert (Hperm : L ≡ₚ all_offsets c).
  { apply submseteq_length_Permutation; [done|]. pose proof (length_all_offsets c). destruct (class_geometry c Hc). lia. }
  rewrite Hperm. by apply elem_all_offsets.
Qed.
Lemma chain_length c L : (c < CLASS_COUNT)%nat → NoDup L → Forall (valid_offset c) L → Z.of_nat (length L) ≤ objects c.
Proof.
  intros Hc Hnd Hv. assert (Hsub : L ⊆+ all_offsets c).
  { apply NoDup_submseteq; [done|]. intros x Hx. apply elem_all_offsets. by eapply Forall_forall in Hv. }
  apply submseteq_length in Hsub. pose proof (length_all_offsets c). destruct (class_geometry c Hc). lia.
Qed.
Lemma chain_room c L o : (c < CLASS_COUNT)%nat → NoDup L → Forall (valid_offset c) L → valid_offset c o → o ∉ L → Z.of_nat (length L) < objects c.
Proof.
  intros Hc Hnd Hv Ho Hn. pose proof (chain_length c (o :: L) Hc) as H. cbn [length] in H.
  enough (Z.of_nat (S (length L)) ≤ objects c) by lia. apply H; [by apply NoDup_cons|by constructor].
Qed.

(** The frame an address lies in. *)
Definition frame_at (base x : Z) : Z := (x - base) / FRAME_SIZE.
Lemma frame_at_slab base p y : 0 ≤ y < FRAME_SIZE → frame_at base (addr base p + y) = p.
Proof. unfold frame_at, addr, FRAME_SIZE. intros. replace (base + p * 4096 + y - base) with (y + p * 4096) by lia. rewrite Z.div_add, Z.div_small by lia. lia. Qed.
Lemma frame_at_pages base p k x : addr base p ≤ x < addr base p + FRAME_SIZE * size_of k → covers p k (frame_at base x).
Proof.
  unfold frame_at, addr, covers, FRAME_SIZE. intros H. pose proof (Z.div_mod (x - base) 4096). pose proof (Z.mod_pos_bound (x - base) 4096). lia.
Qed.

(** ** The chain of free objects, in memory *)
Fixpoint chain (m : Memory) (page head : Z) (L : list Z) : Prop :=
  match L with
  | [] => head = NO_OFFSET
  | o :: L' => head = o ∧ chain m page (read16 m (page + o)) L'
  end.

Lemma chain_ext m m' page L : ∀ head, (∀ o x, o ∈ L → 0 ≤ x < 2 → m' (page + o + x) = m (page + o + x)) → chain m page head L → chain m' page head L.
Proof.
  induction L as [|o L IH]; cbn; intros head He; [done|]. intros [-> H]. split; [done|].
  assert (E : read16 m' (page + o) = read16 m (page + o)).
  { unfold read16. pose proof (He o 0 (list_elem_of_here _ _)) as H0. pose proof (He o 1 (list_elem_of_here _ _)) as H1.
    rewrite Z.add_0_r in H0. rewrite H0, H1 by lia. done. }
  rewrite E. apply IH; [|done]. intros o' x Ho'. apply He. by right.
Qed.

Lemma write16_other m a v x : x ≠ a → x ≠ a + 1 → write16 m a v x = m x.
Proof. intros. unfold write16, store. by rewrite !(proj2 (Z.eqb_neq _ _)) by done. Qed.
Lemma read_write16 m a v : 0 ≤ v < 2 ^ 16 → read16 (write16 m a v) a = v.
Proof.
  intros H. unfold read16, write16, store. rewrite (proj2 (Z.eqb_neq a (a + 1))) by lia. rewrite !Z.eqb_refl.
  pose proof (Z.div_mod v 256). lia.
Qed.

(** ** The state of a heap

    [S] maps the frame of each slab to its class and the offsets of its free objects,
    in the order of the chain; [P] are the whole pages handed out; [Q c] the slabs of
    class [c] that have a free object, in the order of the cache's list. *)
Abbreviation slabmap := (gmap Z (nat * list Z)).
Definition slab_blocks (S : slabmap) : gset (Z * nat) := set_map (fun p => (p, 0%nat)) (dom S).
Definition used_in (e : nat * list Z) : Z := objects e.1 - Z.of_nat (length e.2).
Definition used (S : slabmap) : Z := map_fold (fun _ e n => used_in e + n) 0 S.

Record chain_ok (e : nat * list Z) : Prop := {
  ch_class : (e.1 < CLASS_COUNT)%nat;
  ch_nodup : NoDup e.2;
  ch_valid : Forall (valid_offset e.1) e.2
}.
(** A slab as the frame database and memory have it. *)
Definition slab_ok (infos : list (Z * Z * Z)) (m : Memory) (base p : Z) (e : nat * list Z) : Prop :=
  chain_ok e ∧ ∃ head, infos !! Z.to_nat p = Some (head, used_in e, Z.of_nat e.1) ∧ chain m (addr base p) head e.2.

Definition infos (h : Heap) : list (Z * Z * Z) := plain <$> slabs (pmm h).
Definition listed (Q : nat → list Z) (S : slabmap) : Prop := ∀ c p, p ∈ Q c ↔ ∃ L, S !! p = Some (c, L) ∧ L ≠ [].

Record heap_ok (h : Heap) (m : Memory) (F : Z → Prop) (S : slabmap) (P : gset (Z * nat)) (Q : nat → list Z) : Prop := {
  ho_pmm : represents (pmm h) F (slab_blocks S ∪ P);
  ho_sep : slab_blocks S ## P;
  ho_base : 0 ≤ hhdm_base h ∧ hhdm_base h mod FRAME_SIZE = 0 ∧ hhdm_base h + frames_len (pmm h) * FRAME_SIZE ≤ 2 ^ 64;
  ho_lists : lists_ok h Q;
  ho_listed : listed Q S;
  ho_slab p e : S !! p = Some e → slab_ok (infos h) m (hhdm_base h) p e;
  ho_live : live_objects h = used S;
  ho_frames : slab_frames h = Z.of_nat (size S)
}.

(** What callers hold. *)
Definition holds (base : Z) (S : slabmap) (P : gset (Z * nat)) (a len : Z) : Prop :=
  (∃ p c L o, S !! p = Some (c, L) ∧ valid_offset c o ∧ (o ∉ L) ∧ a = addr base p + o ∧ len = osize c) ∨
  (∃ p k, (p, k) ∈ P ∧ a = addr base p ∧ len = FRAME_SIZE * size_of k).

(** The frames the heap answers for: those the frame allocator has free, its slabs, and
    the pages it gave out. *)
Definition managed (F : Z → Prop) (S : slabmap) (P : gset (Z * nat)) (f : Z) : Prop := F f ∨ is_Some (S !! f) ∨ ∃ p k, (p, k) ∈ P ∧ covers p k f.
(** No slab is kept that has nothing in use. *)
Definition busy (S : slabmap) : Prop := ∀ p e, S !! p = Some e → 0 < used_in e.

Lemma covers_frame p f : covers p 0 f ↔ f = p.
Proof. unfold covers. change (size_of 0) with 1. lia. Qed.
Lemma managed_update F S P p e e' f : S !! p = Some e → managed F (<[p := e']> S) P f ↔ managed F S P f.
Proof. intros Hp. unfold managed. destruct (decide (f = p)) as [->|]; [rewrite lookup_insert_eq, Hp|by rewrite lookup_insert_ne]. split; intros; right; left; eauto. Qed.
Lemma managed_slab F S P p e f : F p → managed (fun f => F f ∧ ¬ covers p 0 f) (<[p := e]> S) P f ↔ managed F S P f.
Proof.
  intros Hp. unfold managed. rewrite covers_frame. destruct (decide (f = p)) as [->|]; [rewrite lookup_insert_eq; split; [by left|right; left; eauto]|]. rewrite lookup_insert_ne by done. tauto.
Qed.
Lemma managed_release F S P p e f : S !! p = Some e → managed (fun f => F f ∨ covers p 0 f) (delete p S) P f ↔ managed F S P f.
Proof.
  intros Hp. unfold managed. rewrite covers_frame. destruct (decide (f = p)) as [->|]; [rewrite Hp; split; [right; left; eauto|by left; right]|]. rewrite lookup_delete_ne by done. tauto.
Qed.
Lemma managed_pages F S P p k f : (∀ f, covers p k f → F f) → managed (fun f => F f ∧ ¬ covers p k f) S ({[(p, k)]} ∪ P) f ↔ managed F S P f.
Proof.
  intros Hc. unfold managed. setoid_rewrite elem_of_union. setoid_rewrite elem_of_singleton. split.
  - intros [[H _]|[H|(q & j & [[= -> ->]|H] & Hf)]]; [by left|by right; left|left; by apply Hc|right; right; eauto].
  - intros [H|[H|(q & j & H & Hf)]]; [|by right; left|right; right; eauto 10]. destruct (decide (p ≤ f < p + size_of k)); [right; right; eauto 10|by left].
Qed.
Lemma managed_give F S P p k f : (p, k) ∈ P → managed (fun f => F f ∨ covers p k f) S (P ∖ {[(p, k)]}) f ↔ managed F S P f.
Proof.
  intros Hp. unfold managed. split.
  - intros [[H|H]|[H|(q & j & H & Hf)]]; [by left|right; right; eauto|by right; left|right; right; exists q, j; set_solver].
  - intros [H|[H|(q & j & H & Hf)]]; [by left; left|by right; left|]. destruct (decide ((q, j) = (p, k))) as [[= -> ->]|Hne]; [by left; right|]. right. right. exists q, j. set_solver.
Qed.

Lemma elem_slab_blocks S p k : (p, k) ∈ slab_blocks S ↔ k = 0%nat ∧ is_Some (S !! p).
Proof. unfold slab_blocks. rewrite elem_of_map. setoid_rewrite elem_of_dom. split; [intros (x & [= -> ->] & H); done|intros [-> H]; by exists p]. Qed.

Lemma used_insert S p e : S !! p = None → used (<[p := e]> S) = used_in e + used S.
Proof. intros H. unfold used. rewrite map_fold_insert_L; [done|intros; lia|done]. Qed.
Lemma used_delete S p e : S !! p = Some e → used S = used_in e + used (delete p S).
Proof. intros H. unfold used. rewrite (map_fold_delete_L _ _ p e); [done|intros; lia|done]. Qed.
Lemma used_update S p e e' : S !! p = Some e → used (<[p := e']> S) = used S - used_in e + used_in e'.
Proof.
  intros H. rewrite (used_delete S p e H). rewrite <- insert_delete_eq, used_insert by apply lookup_delete_eq. lia.
Qed.

Lemma used_in_bounds e : chain_ok e → 0 ≤ used_in e ≤ 256.
Proof. intros [H1 H2 H3]. unfold used_in. pose proof (chain_length _ _ H1 H2 H3). destruct (class_geometry _ H1) as (_ & ? & _). lia. Qed.
Lemma used_bounds S : (∀ p e, S !! p = Some e → chain_ok e) → 0 ≤ used S ≤ 256 * Z.of_nat (size S).
Proof.
  induction S as [|p e S Hp IH] using map_ind; intros H; [vm_compute; split; congruence|]. rewrite used_insert, map_size_insert_None by done.
  assert (He : chain_ok e) by (apply (H p); by rewrite lookup_insert_eq). pose proof (used_in_bounds e He).
  enough (0 ≤ used S ≤ 256 * Z.of_nat (size S)) by lia. apply IH. intros q e' Hq. apply (H q). rewrite lookup_insert_ne; [done|congruence].
Qed.
Lemma size_bound (S : slabmap) n : (∀ p e, S !! p = Some e → 0 ≤ p < n) → Z.of_nat (size S) ≤ Z.max 0 n.
Proof.
  intros H. rewrite <- (size_dom S). assert (Hsub : dom S ⊆ (list_to_set (seqZ 0 n) : gset Z)).
  { intros p. rewrite elem_of_dom, elem_of_list_to_set, elem_of_seqZ. intros [e He]. specialize (H p e He). lia. }
  apply subseteq_size in Hsub. rewrite size_list_to_set, length_seqZ in Hsub by apply NoDup_seqZ. lia.
Qed.

Section Ok.
Context {h : Heap} {m : Memory} {F : Z → Prop} {S : slabmap} {P : gset (Z * nat)} {Q : nat → list Z}.
Hypothesis Hok : heap_ok h m F S P Q.
Abbreviation base := (hhdm_base h).

Lemma slab_held p e : S !! p = Some e → (p, 0%nat) ∈ slab_blocks S ∪ P.
Proof. intros H. apply elem_of_union. left. apply elem_slab_blocks. eauto. Qed.
Lemma slab_frame p e : S !! p = Some e → 0 ≤ p < frames_len (pmm h).
Proof. intros H. by destruct (held_slab _ _ _ _ _ (ho_pmm _ _ _ _ _ _ Hok) (slab_held p e H)). Qed.
Lemma pages_fit p k : (p, k) ∈ P → fits (frames_len (pmm h)) p k.
Proof. intros H. eapply held_fits; [apply Hok|]. apply elem_of_union. by right. Qed.
Lemma slabs_few : Z.of_nat (size S) ≤ frames_len (pmm h).
Proof. pose proof (size_bound S (frames_len (pmm h)) slab_frame). pose proof (length_slabs (pmm h)). lia. Qed.
Lemma live_few : 0 ≤ live_objects h ≤ 2 ^ 40.
Proof.
  rewrite (ho_live _ _ _ _ _ _ Hok). pose proof slabs_few. pose proof (represents_len _ _ _ (ho_pmm _ _ _ _ _ _ Hok)).
  enough (0 ≤ used S ≤ 256 * Z.of_nat (size S)) by lia. apply used_bounds. intros p e He. by destruct (ho_slab _ _ _ _ _ _ Hok p e He).
Qed.
Lemma queue_held c q : q ∈ Q c → (q, 0%nat) ∈ slab_blocks S ∪ P.
Proof. intros H. apply (ho_listed _ _ _ _ _ _ Hok) in H as (L & H & _). by eapply slab_held. Qed.

(** *** Addresses *)
Lemma page_address_ok p : 0 ≤ p < frames_len (pmm h) → Heap.page_address h p = Done (addr base p).
Proof.
  intros Hp. destruct (ho_base _ _ _ _ _ _ Hok) as (H0 & _ & H1). unfold Heap.page_address, mul_checked, add_checked, addr, FRAME_SIZE in *.
  rewrite checked_ok by (unfold in_width; lia). cbn [mbind outcome_bind]. apply checked_ok. unfold in_width. lia.
Qed.
Lemma pfn_of_ok p x : 0 ≤ p < frames_len (pmm h) → 0 ≤ x < FRAME_SIZE → Heap.pfn_of h (addr base p + x) = Done p.
Proof.
  intros Hp Hx. destruct (ho_base _ _ _ _ _ _ Hok) as (H0 & _ & H1). pose proof (represents_len _ _ _ (ho_pmm _ _ _ _ _ _ Hok)).
  unfold Heap.pfn_of, sub_checked, addr, FRAME_SIZE in *. rewrite checked_ok by (unfold in_width; lia). cbn [mbind outcome_bind]. f_equal.
  replace (base + p * 4096 + x - base) with (x + p * 4096) by lia. rewrite Z.div_add, Z.div_small by lia. rewrite trunc_small; [lia|unfold in_width; lia].
Qed.

(** *** Nothing overlaps *)
Lemma slab_not_pages p e q k : S !! p = Some e → (q, k) ∈ P → ¬ covers q k p.
Proof.
  intros Hp Hq Hc. assert (Hm : q = p ∧ k = 0%nat).
  { eapply held_meet; [apply Hok|by eapply slab_held|apply elem_of_union; by right| |exact Hc]. apply covers_self. }
  destruct Hm as [-> ->]. apply (ho_sep _ _ _ _ _ _ Hok (p, 0%nat)); [|done]. apply elem_slab_blocks. eauto.
Qed.
Lemma chain_at p c L : S !! p = Some (c, L) → chain_ok (c, L).
Proof. intros H. by destruct (ho_slab _ _ _ _ _ _ Hok _ _ H). Qed.

(** An object that is not on its slab's chain, and any place on it. *)
Lemma place_apart p c L o y a len : S !! p = Some (c, L) → valid_offset c o → 0 ≤ y < osize c → holds base S P a len →
  a ≤ addr base p + o + y < a + len → (o ∉ L) ∧ a = addr base p + o ∧ len = osize c.
Proof.
  intros Hp Ho Hy Hh Hx. destruct (chain_at _ _ _ Hp) as [Hc _ _]. cbn in Hc. destruct (valid_range c o Hc Ho).
  assert (Hf : frame_at base (addr base p + o + y) = p) by (rewrite <- Z.add_assoc; apply frame_at_slab; lia).
  destruct Hh as [(q & c' & L' & o' & Hq & Ho' & Hn & -> & ->)|(q & k & Hq & -> & ->)].
  - destruct (chain_at _ _ _ Hq) as [Hc' _ _]. cbn in Hc'. destruct (valid_range c' o' Hc' Ho').
    assert (q = p).
    { rewrite <- Hf. replace (addr base p + o + y) with (addr base q + (addr base p + o + y - addr base q)) by lia. symmetry. apply frame_at_slab. lia. }
    subst q. rewrite Hp in Hq. injection Hq as <- <-. assert (o' = o); [|by subst].
    apply (valid_apart c o' o (addr base p + o + y - (addr base p + o')) y Hc Ho' Ho); lia.
  - exfalso. apply (slab_not_pages p _ q k Hp Hq). rewrite <- Hf. apply frame_at_pages. lia.
Qed.
Lemma pages_apart p k x a len : (p, k) ∈ P → addr base p ≤ x < addr base p + FRAME_SIZE * size_of k → holds base S P a len → a ≤ x < a + len →
  a = addr base p ∧ len = FRAME_SIZE * size_of k.
Proof.
  intros Hp Hx Hh Hx'. pose proof (frame_at_pages _ _ _ _ Hx) as Hf. destruct Hh as [(q & c' & L' & o' & Hq & Ho' & Hn & -> & ->)|(q & j & Hq & -> & ->)].
  - exfalso. apply (slab_not_pages q _ p k Hq Hp). destruct (chain_at _ _ _ Hq) as [Hc' _ _]. cbn in Hc'. destruct (valid_range c' o' Hc' Ho').
    replace q with (frame_at base x); [done|]. replace x with (addr base q + (x - addr base q)) by lia. apply frame_at_slab. lia.
  - destruct (held_meet _ _ _ p k q j (frame_at base x) (ho_pmm _ _ _ _ _ _ Hok)) as [-> ->]; [apply elem_of_union; by right..|done|by apply frame_at_pages|done].
Qed.
Lemma held_apart a len a' len' x : holds base S P a len → holds base S P a' len' → a ≤ x < a + len → a' ≤ x < a' + len' → a' = a ∧ len' = len.
Proof.
  intros [(p & c & L & o & Hp & Ho & Hn & -> & ->)|(p & k & Hp & -> & ->)] H' Hx Hx'; [|by eapply pages_apart].
  destruct (place_apart p c L o (x - (addr base p + o)) a' len' Hp Ho) as (_ & ? & ?); try done; lia.
Qed.

(** Callers may write where they hold something. *)
Lemma callers_write m' : (∀ x, (∀ a len, holds base S P a len → ¬ a ≤ x < a + len) → m' x = m x) → heap_ok h m' F S P Q.
Proof.
  intros Hm. destruct Hok as [H1 H2 H3 H4 H5 H6 H7 H8]. split; try done. intros p e Hp. destruct (H6 p e Hp) as [Hch (head & Hi & Hc)].
  split; [done|]. exists head. split; [done|]. eapply chain_ext; [|exact Hc]. intros o x Ho Hx. apply Hm. intros a len Hh Hin.
  destruct e as [c L]. pose proof (ch_valid _ Hch) as Hv. cbn in *. rewrite Forall_forall in Hv. destruct (class_geometry c (ch_class _ Hch)) as (? & _).
  by destruct (place_apart p c L o x a len Hp (Hv o Ho) ltac:(lia) Hh Hin).
Qed.
End Ok.

(** ** One slab changes *)
Lemma infos_len h h' : length (infos h') = length (infos h) → frames_len (pmm h') = frames_len (pmm h).
Proof. unfold infos. rewrite !length_fmap, <- !length_slabs. lia. Qed.

Lemma slab_blocks_update S p e e' : S !! p = Some e → slab_blocks (<[p := e']> S) = slab_blocks S.
Proof.
  intros H. apply set_eq. intros [q k]. rewrite !elem_slab_blocks. destruct (decide (q = p)) as [->|]; [|by rewrite lookup_insert_ne].
  rewrite lookup_insert_eq, H. split; intros [-> _]; eauto.
Qed.

Lemma slabs_after h m F S P Q h' m' p e' head' : heap_ok h m F S P Q → 0 ≤ p < frames_len (pmm h) → chain_ok e' → hhdm_base h' = hhdm_base h →
  infos h' = <[Z.to_nat p := (head', used_in e', Z.of_nat e'.1)]> (infos h) → chain m' (addr (hhdm_base h) p) head' e'.2 →
  (∀ x, frame_at (hhdm_base h) x ≠ p → m' x = m x) → ∀ q x, <[p := e']> S !! q = Some x → slab_ok (infos h') m' (hhdm_base h') q x.
Proof.
  intros Hok Hp0 He' Hb Hi Hc Hm q x Hq. rewrite Hb. destruct (decide (q = p)) as [->|Hne].
  - rewrite lookup_insert_eq in Hq. injection Hq as <-. split; [done|]. exists head'. split; [|done]. rewrite Hi. apply list_lookup_insert_eq.
    unfold infos. rewrite length_fmap. pose proof (length_slabs (pmm h)). lia.
  - rewrite lookup_insert_ne in Hq by done. destruct (ho_slab _ _ _ _ _ _ Hok q x Hq) as [Hx (hd & Hhd & Hcx)]. split; [done|].
    pose proof (slab_frame Hok q x Hq). exists hd. split; [by rewrite Hi, list_lookup_insert_ne by lia|].
    eapply chain_ext; [|exact Hcx]. intros o y Ho Hy. apply Hm. destruct x as [c L]. pose proof (ch_valid _ Hx) as Hv. cbn in *. rewrite Forall_forall in Hv.
    destruct (class_geometry c (ch_class _ Hx)) as (? & _). destruct (valid_range c o (ch_class _ Hx) (Hv o Ho)).
    rewrite <- Z.add_assoc, frame_at_slab by lia. done.
Qed.

Lemma heap_update h m F S P Q h' m' p e e' head' Q' : heap_ok h m F S P Q → S !! p = Some e → chain_ok e' →
  represents (pmm h') F (slab_blocks S ∪ P) → hhdm_base h' = hhdm_base h →
  infos h' = <[Z.to_nat p := (head', used_in e', Z.of_nat e'.1)]> (infos h) → chain m' (addr (hhdm_base h) p) head' e'.2 →
  (∀ x, frame_at (hhdm_base h) x ≠ p → m' x = m x) →
  lists_ok h' Q' → listed Q' (<[p := e']> S) → live_objects h' = live_objects h - used_in e + used_in e' → slab_frames h' = slab_frames h →
  heap_ok h' m' F (<[p := e']> S) P Q'.
Proof.
  intros Hok Hp He' Hr Hb Hi Hc Hm Hl Hls Hlive Hfr.
  split; [| | |done|done|by eapply slabs_after; eauto using slab_frame| |].
  - by rewrite (slab_blocks_update S p e e' Hp).
  - rewrite (slab_blocks_update S p e e' Hp). apply Hok.
  - rewrite Hb, (infos_len h h') by (by rewrite Hi, length_insert). apply Hok.
  - rewrite Hlive, (ho_live _ _ _ _ _ _ Hok). by rewrite (used_update S p e e' Hp).
  - rewrite Hfr, (ho_frames _ _ _ _ _ _ Hok), map_size_insert_Some; eauto.
Qed.

(** A slab more. *)
Lemma slab_blocks_insert S p e : slab_blocks (<[p := e]> S) = {[(p, 0%nat)]} ∪ slab_blocks S.
Proof.
  apply set_eq. intros [q k]. rewrite elem_of_union, elem_of_singleton, !elem_slab_blocks. destruct (decide (q = p)) as [->|].
  - rewrite lookup_insert_eq. split; [intros [-> _]; by left|intros [[= ->]|[-> _]]; eauto].
  - rewrite lookup_insert_ne by done. split; [intros ?; by right|intros [[= -> _]|?]; done].
Qed.
Lemma heap_insert h m F S P Q h' m' p e' head' F' Q' : heap_ok h m F S P Q → S !! p = None → (p, 0%nat) ∉ P → 0 ≤ p < frames_len (pmm h) → chain_ok e' →
  represents (pmm h') F' ({[(p, 0%nat)]} ∪ (slab_blocks S ∪ P)) → hhdm_base h' = hhdm_base h →
  infos h' = <[Z.to_nat p := (head', used_in e', Z.of_nat e'.1)]> (infos h) → chain m' (addr (hhdm_base h) p) head' e'.2 →
  (∀ x, frame_at (hhdm_base h) x ≠ p → m' x = m x) →
  lists_ok h' Q' → listed Q' (<[p := e']> S) → live_objects h' = live_objects h + used_in e' → slab_frames h' = slab_frames h + 1 →
  heap_ok h' m' F' (<[p := e']> S) P Q'.
Proof.
  intros Hok Hp HpP Hp0 He' Hr Hb Hi Hc Hm Hl Hls Hlive Hfr.
  split; [| | |done|done|by eapply slabs_after; eauto using slab_frame| |].
  - by rewrite slab_blocks_insert, <- (assoc_L (∪)).
  - rewrite slab_blocks_insert. pose proof (ho_sep _ _ _ _ _ _ Hok). set_solver.
  - rewrite Hb, (infos_len h h') by (by rewrite Hi, length_insert). apply Hok.
  - rewrite Hlive, (ho_live _ _ _ _ _ _ Hok), used_insert by done. lia.
  - rewrite Hfr, (ho_frames _ _ _ _ _ _ Hok), map_size_insert_None by done. lia.
Qed.

Lemma lists_same h h' Q : lists_ok h Q → caches h' = caches h → frames_len (pmm h') = frames_len (pmm h) →
  (∀ c q, q ∈ Q c → snx (pmm h') q = snx (pmm h) q ∧ spv (pmm h') q = spv (pmm h) q) → lists_ok h' Q.
Proof.
  intros [L1 L2 L3 L4 L5] Hc Hlen Hs. split; [by rewrite Hc| |done|done|by rewrite Hlen]. intros c k. rewrite Hc. intros Hk. destruct (L2 c k Hk) as [? H].
  split; [done|]. eapply links_ext; [|exact H]. intros y Hy. by apply (Hs c).
Qed.

(** A write to a slab's fields that leaves its links. *)
Lemma on_slab_free h m F S P Q p c L nh u : heap_ok h m F S P Q → S !! p = Some (c, L) →
  ∃ i s', Pmm.slab_of (pmm h) p = Some i ∧ in_use i = used_in (c, L) ∧ class i = Z.of_nat c ∧ chain m (addr (hhdm_base h) p) (free_head i) L ∧
    on_slab h p (with_free nh u) = set_pmm h s' ∧ represents s' F (slab_blocks S ∪ P) ∧
    infos (set_pmm h s') = <[Z.to_nat p := (nh, u, Z.of_nat c)]> (infos h) ∧ lists_ok (set_pmm h s') Q.
Proof.
  intros Hok Hp. destruct (on_slab_ok h F _ p 0 (with_free nh u) (ho_pmm _ _ _ _ _ _ Hok) (slab_held p _ Hp)) as (i & s' & Hi & -> & Hr & Hs).
  destruct (ho_slab _ _ _ _ _ _ Hok p _ Hp) as [_ (hd & Hhd & Hc)]. unfold infos in Hhd. rewrite list_lookup_fmap, Hi in Hhd. injection Hhd as E1 E2 E3. cbn in *.
  exists i, s'. rewrite slab_of_slabs, Hi. subst hd. split_and!; try done.
  - unfold infos. cbn [pmm set_pmm]. rewrite Hs, list_fmap_insert. unfold plain at 1. cbn. by rewrite E3.
  - apply (lists_same h); cbn [pmm set_pmm]; [apply Hok|done| |].
    + rewrite <- !length_slabs, Hs, length_insert. done.
    + intros c' q Hq. pose proof (slab_frame Hok p _ Hp). pose proof (lo_range _ _ (ho_lists _ _ _ _ _ _ Hok) _ _ Hq). rewrite (snx_insert _ _ _ _ q Hs), (spv_insert _ _ _ _ q Hs) by lia. cbn.
      split; (case_decide as E; [|done]); subst q; unfold snx, spv; by rewrite Hi.
Qed.

Lemma listed_keep Q S p c L L' : listed Q S → S !! p = Some (c, L) → L ≠ [] → L' ≠ [] → listed Q (<[p := (c, L')]> S).
Proof.
  intros H Hp HL HL' c' q. rewrite (H c' q). destruct (decide (q = p)) as [->|]; [|by rewrite lookup_insert_ne].
  rewrite lookup_insert_eq, Hp. split; intros (L0 & E & _); injection E as -> <-; eauto.
Qed.
Lemma listed_drop Q S p c L l1 l2 : listed Q S → S !! p = Some (c, L) → Q c = l1 ++ p :: l2 → NoDup (Q c) → listed (upd_list Q c (l1 ++ l2)) (<[p := (c, [])]> S).
Proof.
  intros H Hp HQ Hnd c' q. unfold upd_list. rewrite HQ, <- Permutation_middle, NoDup_cons in Hnd. destruct Hnd as [Hout _].
  destruct (decide (q = p)) as [->|Hne].
  - rewrite lookup_insert_eq. split.
    + case_decide as E; [by intros ?%Hout|]. rewrite (H c' p), Hp. intros (L0 & [= -> ->] & _). done.
    + intros (L0 & [= -> <-] & ?). done.
  - rewrite lookup_insert_ne by done. rewrite <- (H c' q). case_decide as E; [|done]. subst c'. rewrite HQ, !elem_of_app, elem_of_cons. naive_solver.
Qed.
Lemma listed_delete Q S p c L l1 l2 : listed Q S → S !! p = Some (c, L) → Q c = l1 ++ p :: l2 → NoDup (Q c) → listed (upd_list Q c (l1 ++ l2)) (delete p S).
Proof.
  intros H Hp HQ Hnd c' q. rewrite (listed_drop Q S p c L l1 l2 H Hp HQ Hnd c' q). destruct (decide (q = p)) as [->|].
  - rewrite lookup_insert_eq, lookup_delete_eq. split; intros (L0 & E & HL); [|done]. injection E as _ <-. done.
  - by rewrite lookup_insert_ne, lookup_delete_ne.
Qed.
Lemma listed_add Q S p c L : listed Q S → (∀ c', p ∉ Q c') → L ≠ [] → listed (upd_list Q c (p :: Q c)) (<[p := (c, L)]> S).
Proof.
  intros H Hp HL c' q. unfold upd_list. destruct (decide (q = p)) as [->|Hne].
  - rewrite lookup_insert_eq. split; [|intros (L0 & [= -> <-] & _); rewrite decide_True by done; left].
    case_decide as E; [subst; eauto|]. by intros ?%Hp.
  - rewrite lookup_insert_ne by done. rewrite <- (H c' q). case_decide as E; [|done]. subst c'. rewrite elem_of_cons. naive_solver.
Qed.

Lemma relinked_infos h h' : relinked h h' → infos h' = infos h.
Proof. intros H. apply H. Qed.

Lemma chain_head m page head L : (∀ o, o ∈ L → 0 ≤ o < FRAME_SIZE) → chain m page head L → (head =? NO_OFFSET) = bool_decide (L = []).
Proof.
  intros Hv. destruct L as [|o L]; cbn [chain]; [by intros ->|]. intros [-> _]. specialize (Hv o (list_elem_of_here _ _)). rewrite bool_decide_false by done.
  apply Z.eqb_neq. unfold FRAME_SIZE, NO_OFFSET in *. lia.
Qed.
Lemma chain_ok_range c L o : chain_ok (c, L) → o ∈ L → 0 ≤ o < FRAME_SIZE ∧ valid_offset c o.
Proof.
  intros [Hc _ Hv] Ho. cbn in *. rewrite Forall_forall in Hv. specialize (Hv o Ho). destruct (valid_range c o Hc Hv). destruct (class_geometry c Hc) as (? & _). split; [lia|done].
Qed.

Lemma pop_ok h m F S P Q p c o L : heap_ok h m F S P Q → S !! p = Some (c, o :: L) →
  ∃ h' Q', Heap.pop_object c p (h, m) = Done (Ok (addr (hhdm_base h) p + o), (h', m)) ∧ heap_ok h' m F (<[p := (c, L)]> S) P Q' ∧ hhdm_base h' = hhdm_base h.
Proof.
  intros Hok Hp. pose proof (chain_at Hok _ _ _ Hp) as Hch. pose proof Hch as [Hc Hnd Hv]. cbn [fst snd] in Hc, Hnd, Hv.
  apply NoDup_cons in Hnd as [Hno Hnd]. apply Forall_cons in Hv as [Hvo Hv]. assert (Hch' : chain_ok (c, L)) by by split.
  destruct (on_slab_free h m F S P Q p c (o :: L) (read16 m (addr (hhdm_base h) p + o)) (used_in (c, L)) Hok Hp) as (i & s' & Hi & Hu & _ & Hchain & Hon & Hr & Hinf & Hl).
  destruct Hchain as [Hhd Hchain]. pose proof (slab_frame Hok _ _ Hp) as Hp0. destruct (valid_range c o Hc Hvo). destruct (class_geometry c Hc) as (? & ? & _).
  pose proof (used_in_bounds _ Hch'). destruct (ho_base _ _ _ _ _ _ Hok) as (Hb0 & _ & Hb1).
  assert (Hu' : used_in (c, o :: L) + 1 = used_in (c, L)) by (unfold used_in; cbn [fst snd length]; lia).
  unfold Heap.pop_object. rewrite Hi, Hhd, Hu. rewrite (proj2 (Z.eqb_neq _ _)) by (unfold FRAME_SIZE, NO_OFFSET in *; lia).
  rewrite add_checked_ok, Hu' by (unfold in_width; lia). cbn [mbind outcome_bind].
  rewrite (page_address_ok Hok p Hp0). cbn [mbind outcome_bind]. rewrite add_checked_ok by (unfold in_width, addr, FRAME_SIZE in *; lia). cbn [mbind outcome_bind]. rewrite Hon.
  rewrite (chain_head _ _ _ L) by (try exact Hchain; intros x Hx; by apply (chain_ok_range c L)).
  pose proof (live_few Hok) as Hlive.
  assert (Hend : ∀ h1 Q1, lists_ok h1 Q1 → listed Q1 (<[p := (c, L)]> S) → represents (pmm h1) F (slab_blocks S ∪ P) → infos h1 = infos (set_pmm h s') →
    hhdm_base h1 = hhdm_base h → live_objects h1 = live_objects h → slab_frames h1 = slab_frames h →
    ∃ h' Q', (l ← add_checked 64 (live_objects h1) 1; Done (Ok (E := HeapError) (addr (hhdm_base h) p + o), (set_live h1 l, m))) = Done (Ok (addr (hhdm_base h) p + o), (h', m)) ∧
      heap_ok h' m F (<[p := (c, L)]> S) P Q' ∧ hhdm_base h' = hhdm_base h).
  { intros h1 Q1 A1 A2 A3 A4 A5 A6 A7. rewrite add_checked_ok by (unfold in_width; lia). cbn [mbind outcome_bind]. exists (set_live h1 (live_objects h1 + 1)), Q1.
    split_and!; [done| |done]. eapply (heap_update h m F S P Q _ m p (c, o :: L)); try done; cbn [set_live pmm hhdm_base live_objects slab_frames].
    - unfold infos in *. cbn [set_live pmm]. by rewrite A4, Hinf.
    - by apply (lists_same h1).
    - lia. }
  destruct (decide (L = [])) as [->|HL].
  - rewrite bool_decide_true by done. assert (Hin : p ∈ Q c) by (apply (ho_listed _ _ _ _ _ _ Hok); eauto).
    apply list_elem_of_split in Hin as (l1 & l2 & HQ).
    destruct (unlink_ok (set_pmm h s') Q F _ c l1 p l2 Hl Hr (queue_held Hok) HQ Hc) as (h1 & -> & Hl1 & Hr1 & Hrk). cbn [mbind outcome_bind].
    eapply Hend; [exact Hl1|by eapply listed_drop; [apply Hok|exact Hp|done|apply Hok]|exact Hr1|by apply relinked_infos|..]; by destruct Hrk.
  - rewrite bool_decide_false by done. cbn [mbind outcome_bind]. eapply Hend; try done. by eapply listed_keep; [apply Hok|exact Hp|done|done].
Qed.

(** ** A new slab *)
Definition next_offset (c : nat) (j : Z) : Z := if j + 1 =? objects c then NO_OFFSET else (j + 1) * osize c.

Lemma chain_of_cells c m page n : ∀ i, 0 ≤ i → i + Z.of_nat n = objects c → (∀ j, i ≤ j < objects c → read16 m (page + j * osize c) = next_offset c j) →
  chain m page (if i =? objects c then NO_OFFSET else i * osize c) ((fun j => j * osize c) <$> seqZ i (Z.of_nat n)).
Proof.
  induction n as [|n IH]; intros i Hi Hn Hc.
  - cbn. rewrite (proj2 (Z.eqb_eq _ _)) by lia. done.
  - rewrite seqZ_cons by lia. cbn [fmap list_fmap chain]. rewrite (proj2 (Z.eqb_neq _ _)) by lia. split; [done|]. rewrite Hc by lia.
    replace (Z.pred (Z.of_nat (S n))) with (Z.of_nat n) by lia. unfold next_offset. rewrite Z.add_1_r. apply IH; [lia|lia|]. intros j Hj. apply Hc. lia.
Qed.

Lemma thread_ok c m page : (c < CLASS_COUNT)%nat → 0 ≤ page → page + FRAME_SIZE ≤ 2 ^ 64 →
  ∃ m', for_each (Heap.thread_object page (osize c) (Z.to_nat (objects c))) (seq 0 (Z.to_nat (objects c))) m = Done m' ∧
    chain m' page 0 (all_offsets c) ∧ ∀ x, ¬ page ≤ x < page + FRAME_SIZE → m' x = m x.
Proof.
  intros Hc Hp0 Hp1. destruct (class_geometry c Hc) as (Hs & Ho & Hg).
  set (Inv := fun (k : nat) (m' : Memory) => (∀ j, 0 ≤ j < Z.of_nat k → read16 m' (page + j * osize c) = next_offset c j) ∧
    ∀ x, ¬ page ≤ x < page + FRAME_SIZE → m' x = m x).
  destruct (for_each_seq_inv (Heap.thread_object page (osize c) (Z.to_nat (objects c))) Inv 0 (Z.to_nat (objects c)) m) as (m' & -> & Hcells & Hout).
  - split; [intros; lia|done].
  - intros i m1 Hi [H1 H2]. unfold Heap.thread_object. assert (Hi' : 0 ≤ Z.of_nat i < objects c) by lia.
    rewrite add_checked_ok by (unfold in_width; nia). cbn [mbind outcome_bind]. eexists. split; [done|].
    assert (Hnext : (if (i + 1 =? Z.to_nat (objects c))%nat then NO_OFFSET else trunc 16 (Z.of_nat i * osize c + osize c)) = next_offset c (Z.of_nat i)).
    { unfold next_offset. destruct (Nat.eqb_spec (i + 1) (Z.to_nat (objects c))), (Z.eqb_spec (Z.of_nat i + 1) (objects c)); try lia.
      rewrite trunc_small; [lia|]. unfold in_width, FRAME_SIZE in *. nia. }
    rewrite Hnext. split.
    + intros j Hj. destruct (decide (j = Z.of_nat i)) as [->|Hne].
      * apply read_write16. unfold next_offset. destruct (Z.eqb_spec (Z.of_nat i + 1) (objects c)); [done|]. unfold FRAME_SIZE in *. nia.
      * rewrite <- (H1 j) by lia. assert (j * osize c + 16 ≤ Z.of_nat i * osize c) by nia. unfold read16. by rewrite !write16_other by lia.
    + intros x Hx. rewrite <- H2 by done. apply write16_other; nia.
  - exists m'. split_and!; [done| |done]. pose proof (chain_of_cells c m' page (Z.to_nat (objects c)) 0) as H. rewrite Z2Nat.id in H by lia.
    rewrite (proj2 (Z.eqb_neq _ _)) in H by lia. apply H; [lia|lia|]. intros j Hj. apply Hcells. lia.
Qed.

Lemma all_offsets_ok c : (c < CLASS_COUNT)%nat → chain_ok (c, all_offsets c) ∧ used_in (c, all_offsets c) = 0 ∧ ∃ L, all_offsets c = 0 :: L.
Proof.
  intros Hc. destruct (class_geometry c Hc) as (Hs & Ho & Hg). split_and!.
  - split; [done|by apply NoDup_all_offsets|]. apply Forall_forall. intros o. apply elem_all_offsets.
  - unfold used_in. cbn [fst snd]. rewrite length_all_offsets. lia.
  - unfold all_offsets. rewrite seqZ_cons by lia. eexists. reflexivity.
Qed.

Lemma grow_ok h m F S P Q c : heap_ok h m F S P Q → (c < CLASS_COUNT)%nat →
  ∃ r h' m', Heap.grow c (h, m) = Done (r, (h', m')) ∧ hhdm_base h' = hhdm_base h ∧
    match r with
    | Ok p => S !! p = None ∧ (∀ q k, (q, k) ∈ P → ¬ covers q k p) ∧ (∀ x, frame_at (hhdm_base h) x ≠ p → m' x = m x) ∧
        ∃ F' Q', (∀ f, managed F' (<[p := (c, all_offsets c)]> S) P f ↔ managed F S P f) ∧ heap_ok h' m' F' (<[p := (c, all_offsets c)]> S) P Q'
    | Err e => e = HOutOfMemory ∧ h' = h ∧ m' = m ∧ exhausted (pmm h) Dma32 0 ∧ exhausted (pmm h) Normal 0
    end.
Proof.
  intros Hok Hc. pose proof (ho_lists _ _ _ _ _ _ Hok) as Hl. pose proof (ho_pmm _ _ _ _ _ _ Hok) as Hr.
  destruct (lookup_lt_is_Some_2 (caches h) c) as [cache Hcache]; [rewrite (lo_length _ _ Hl); done|]. destruct (lo_cache _ _ Hl _ _ Hcache) as [Hsz _].
  unfold Heap.grow. rewrite (at_index_ok _ _ _ Hcache). cbn [mbind outcome_bind]. rewrite Hsz.
  destruct (allocate_spec (pmm h) F _ 0 Normal Hr) as (r & s1 & Ha & Hs1); [vm_compute; lia|]. rewrite Ha. cbn [mbind outcome_bind].
  pose proof (allocate_slabs _ _ _ _ _ Ha) as Hsl. destruct r as [p|e].
  2: { destruct Hs1 as (_ & -> & H1 & H2). exists (Err HOutOfMemory), h, m. split_and!; try done; [by destruct h|by apply H2]. }
  destruct Hs1 as ([_ Hp0 _ Hp1 _] & _ & Hfree & Hnew & Hr1). change (size_of 0) with 1 in Hp1. assert (Hpr : 0 ≤ p < frames_len (pmm h)) by lia.
  set (h1 := set_pmm h s1). pose proof (slabs_frames_len _ _ Hsl) as Hlen1.
  assert (HSp : S !! p = None). { destruct (S !! p) as [e|] eqn:E; [|done]. destruct Hnew. by eapply slab_held. }
  assert (HPp : ∀ q k, (q, k) ∈ P → ¬ covers q k p).
  { intros q k Hq Hcov. apply (held_not_free _ _ _ q k p Hr); [apply elem_of_union; by right|done|]. apply Hfree, covers_self. }
  destruct (ho_base _ _ _ _ _ _ Hok) as (Hb0 & _ & Hb1).
  assert (Hpa : Heap.page_address h1 p = Done (addr (hhdm_base h) p)) by exact (page_address_ok Hok p Hpr). rewrite Hpa. cbn [mbind outcome_bind].
  destruct (thread_ok c m (addr (hhdm_base h) p) Hc) as (m' & Hth & Hchain & Hout); [unfold addr, FRAME_SIZE in *; nia..|]. fold (objects c). rewrite Hth. cbn [mbind outcome_bind].
  destruct (on_slab_ok h1 _ _ p 0 (fun _ => MkSlabInfo 0 0 (trunc 8 (Z.of_nat c)) NO_FRAME NO_FRAME) Hr1) as (i & s2 & Hi & -> & Hr2 & Hs2); [set_solver|].
  cbn [h1 pmm set_pmm slab_frames] in *. pose proof (slabs_few Hok) as Hfew. pose proof (represents_len _ _ _ Hr). rewrite (ho_frames _ _ _ _ _ _ Hok).
  rewrite add_checked_ok by (unfold in_width; lia). cbn [mbind outcome_bind].
  assert (Hnq : ∀ c', p ∉ Q c') by (intros c' Hin; apply (ho_listed _ _ _ _ _ _ Hok) in Hin as (L & E & _); congruence).
  set (h2 := set_slab_frames _ _). assert (Hl2 : lists_ok h2 Q).
  { apply (lists_same h); cbn; [done|done| |].
    - rewrite <- !length_slabs, Hs2, length_insert, Hsl. done.
    - intros c' q Hq. pose proof (lo_range _ _ Hl _ _ Hq). rewrite (snx_insert s1 s2 p _ q Hs2), (spv_insert s1 s2 p _ q Hs2) by lia.
      rewrite !decide_False by (intros ->; by apply (Hnq c')). unfold snx, spv. by rewrite Hsl. }
  destruct (link_ok h2 Q _ _ c p Hl2 Hr2) as (h3 & -> & Hl3 & Hr3 & Hrk); [|set_solver|done|done|].
  { intros c' q Hq. apply elem_of_union. right. by eapply queue_held. }
  cbn [mbind outcome_bind]. exists (Ok p), h3, m'. destruct (all_offsets_ok c Hc) as (Hch & Hu & L & HL).
  assert (Hmem : ∀ x, frame_at (hhdm_base h) x ≠ p → m' x = m x).
  { intros x Hx. apply Hout. intros Hin. apply Hx. replace x with (addr (hhdm_base h) p + (x - addr (hhdm_base h) p)) by lia. apply frame_at_slab. lia. }
  split_and!; [done|by destruct Hrk|done|done|done|]. eexists _, _.
  split; [intros f; apply managed_slab, Hfree, covers_self|]. eapply (heap_insert h m F S P Q h3 m' p (c, all_offsets c) 0); [done|done| |done|done|exact Hr3|by destruct Hrk| |done|done|exact Hl3| |..].
  - intros HpP. apply (HPp p 0%nat HpP). apply covers_self.
  - rewrite (relinked_infos _ _ Hrk), Hu. unfold infos, h2. cbn. rewrite Hs2, list_fmap_insert, Hsl. unfold plain at 1. cbn [free_head in_use class fst snd]. rewrite trunc_small; [done|]. unfold in_width. unfold CLASS_COUNT in Hc. cbn in Hc. lia.
  - apply listed_add; [apply Hok|done|by rewrite HL].
  - rewrite (rk_live _ _ Hrk), Hu. cbn. lia.
  - rewrite (rk_frames _ _ Hrk). cbn. by rewrite (ho_frames _ _ _ _ _ _ Hok).
Qed.

(** ** What callers hold, as slabs change *)
Section Holds.
Context (base : Z) (S : slabmap) (P : gset (Z * nat)).

Lemma holds_take p c o L a len : S !! p = Some (c, o :: L) → valid_offset c o → o ∉ L →
  holds base (<[p := (c, L)]> S) P a len ↔ holds base S P a len ∨ a = addr base p + o ∧ len = osize c.
Proof.
  intros Hp Ho Hn. unfold holds. split.
  - intros [(q & c' & L' & o' & Hq & Hv & Hn' & -> & ->)|H]; [|by left; right]. destruct (decide (q = p)) as [->|].
    + rewrite lookup_insert_eq in Hq. injection Hq as <- <-. destruct (decide (o' = o)) as [->|]; [by right|].
      left. left. exists p, c, (o :: L), o'. rewrite elem_of_cons. naive_solver.
    + rewrite lookup_insert_ne in Hq by done. left. left. by exists q, c', L', o'.
  - intros [[(q & c' & L' & o' & Hq & Hv & Hn' & -> & ->)|H]|[-> ->]]; [left|by right|left].
    + destruct (decide (q = p)) as [->|]; [|exists q, c', L', o'; by rewrite lookup_insert_ne].
      rewrite Hp in Hq. injection Hq as <- <-. exists p, c, L, o'. rewrite lookup_insert_eq, not_elem_of_cons in *. naive_solver.
    + exists p, c, L, o. by rewrite lookup_insert_eq.
Qed.
Lemma holds_idle p c a len : S !! p = None → holds base (<[p := (c, all_offsets c)]> S) P a len ↔ holds base S P a len.
Proof.
  intros Hp. unfold holds. split; (intros [(q & c' & L' & o' & Hq & Hv & Hn' & -> & ->)|H]; [left|by right]).
  - destruct (decide (q = p)) as [->|]; [|rewrite lookup_insert_ne in Hq by done; by exists q, c', L', o'].
    rewrite lookup_insert_eq in Hq. injection Hq as <- <-. by rewrite elem_all_offsets in Hn'.
  - exists q, c', L', o'. rewrite lookup_insert_ne; [done|]. congruence.
Qed.
Lemma holds_delete p c L a len : S !! p = Some (c, L) → (∀ o, valid_offset c o → o ∈ L) → holds base (delete p S) P a len ↔ holds base S P a len.
Proof.
  intros Hp Hall. unfold holds. split; (intros [(q & c' & L' & o' & Hq & Hv & Hn' & -> & ->)|H]; [left|by right]).
  - rewrite lookup_delete_Some in Hq. destruct Hq as [_ Hq]. by exists q, c', L', o'.
  - exists q, c', L', o'. rewrite lookup_delete_ne; [done|]. intros ->. rewrite Hp in Hq. injection Hq as <- <-. by apply Hn', Hall.
Qed.
End Holds.

Lemma addr_aligned base p c o : (c < CLASS_COUNT)%nat → base mod FRAME_SIZE = 0 → valid_offset c o → (addr base p + o) mod osize c = 0.
Proof.
  intros Hc Hb (i & _ & ->). destruct (class_geometry c Hc) as (? & ? & Hg). unfold addr. apply Z.mod_divide in Hb as [b ->]; [|done].
  rewrite <- Hg. replace (b * (objects c * osize c) + p * (objects c * osize c) + i * osize c) with ((b * objects c + p * objects c + i) * osize c) by ring.
  apply Z_mod_mult.
Qed.

(** What an allocation of [len] bytes at [a] means to the callers: nothing they hold
    is part of it, and nothing they hold has been written to. *)
Definition grants (base : Z) (S S' : slabmap) (P P' : gset (Z * nat)) (m m' : Memory) (a len : Z) : Prop :=
  (∀ a' len', holds base S' P' a' len' ↔ holds base S P a' len' ∨ a' = a ∧ len' = len) ∧
  (∀ x a' len', a ≤ x < a + len → holds base S P a' len' → ¬ a' ≤ x < a' + len') ∧
  (∀ x a' len', holds base S P a' len' → a' ≤ x < a' + len' → m' x = m x).

Lemma pop_grants h m F S P Q p c o L : heap_ok h m F S P Q → S !! p = Some (c, o :: L) →
  ∃ h' Q', Heap.pop_object c p (h, m) = Done (Ok (addr (hhdm_base h) p + o), (h', m)) ∧ heap_ok h' m F (<[p := (c, L)]> S) P Q' ∧ hhdm_base h' = hhdm_base h ∧
    grants (hhdm_base h) S (<[p := (c, L)]> S) P P m m (addr (hhdm_base h) p + o) (osize c) ∧ (addr (hhdm_base h) p + o) mod osize c = 0 ∧
    0 ≤ addr (hhdm_base h) p + o ∧ addr (hhdm_base h) p + o + osize c ≤ 2 ^ 64.
Proof.
  intros Hok Hp. destruct (pop_ok h m F S P Q p c o L Hok Hp) as (h' & Q' & H & Hok' & Hb). exists h', Q'. pose proof (chain_at Hok _ _ _ Hp) as [Hc Hnd Hv]. cbn [fst snd] in *.
  apply NoDup_cons in Hnd as [Hno Hnd]. apply Forall_cons in Hv as [Hvo Hv]. destruct (ho_base _ _ _ _ _ _ Hok) as (Hb0 & Hba & Hb1).
  pose proof (slab_frame Hok _ _ Hp). destruct (valid_range c o Hc Hvo).
  split_and!; try done; [|by apply addr_aligned|unfold addr, FRAME_SIZE in *; lia..].
  split_and!; [intros a' len'; by apply holds_take| |done]. intros x a' len' Hx Hh Hx'.
  destruct (place_apart Hok p c (o :: L) o (x - (addr (hhdm_base h) p + o)) a' len' Hp Hvo) as [Hn _]; [lia|done|lia|]. apply Hn. left.
Qed.

Definition exhausted_all (s : Pmm) (o : nat) : Prop := exhausted s Dma32 o ∧ exhausted s Normal o.

Lemma busy_insert S p e : busy S → 0 < used_in e → busy (<[p := e]> S).
Proof. intros Hb He q e' Hq. apply lookup_insert_Some in Hq as [[_ <-]|[_ Hq]]; [done|by apply (Hb q)]. Qed.
(** A slab an object has been taken from is in use. *)
Lemma pop_busy {h m F S P Q} (Hok : heap_ok h m F S P Q) p c o L : S !! p = Some (c, o :: L) → 0 < used_in (c, L).
Proof.
  intros Hp. destruct (chain_at Hok _ _ _ Hp) as [Hc Hnd Hv]. cbn [fst snd] in *. apply NoDup_cons in Hnd as [Hno Hnd]. apply Forall_cons in Hv as [Hvo Hv].
  pose proof (chain_room c L o Hc Hnd Hv Hvo Hno). unfold used_in. cbn [fst snd]. lia.
Qed.

Lemma from_slab_ok h m F S P Q c : heap_ok h m F S P Q → (c < CLASS_COUNT)%nat →
  ∃ r h' m', Heap.allocate_from_slab c (h, m) = Done (r, (h', m')) ∧ hhdm_base h' = hhdm_base h ∧
    match r with
    | Ok a => a mod osize c = 0 ∧ (0 ≤ a ∧ a + osize c ≤ 2 ^ 64) ∧ ∃ F' S' Q', heap_ok h' m' F' S' P Q' ∧ grants (hhdm_base h) S S' P P m m' a (osize c) ∧ (∀ f, managed F' S' P f ↔ managed F S P f) ∧ (busy S → busy S')
    | Err e => e = HOutOfMemory ∧ h' = h ∧ m' = m ∧ exhausted_all (pmm h) 0
    end.
Proof.
  intros Hok Hc. pose proof (ho_lists _ _ _ _ _ _ Hok) as Hl.
  destruct (lookup_lt_is_Some_2 (caches h) c) as [cache Hcache]; [rewrite (lo_length _ _ Hl); done|]. destruct (lo_cache _ _ Hl _ _ Hcache) as [_ Hlk].
  unfold Heap.allocate_from_slab. rewrite (at_index_ok _ _ _ Hcache). cbn [mbind outcome_bind]. unfold pbind.
  assert (Hhead : partial cache = NONE ∧ Q c = [] ∨ partial cache ≠ NONE ∧ partial cache ∈ Q c).
  { pose proof (none_not_listed _ _ c _ _ Hl (ho_pmm _ _ _ _ _ _ Hok)) as Hnone. destruct (Q c) as [|x l]; [by left|]. destruct Hlk as [-> _]. right. split; [|left]. intros ->. apply Hnone. left. }
  destruct Hhead as [[E _]|[Hne Hin]].
  - rewrite E. change (NONE =? NO_FRAME) with true. cbn [mbind outcome_bind]. destruct (grow_ok h m F S P Q c Hok Hc) as (r & h1 & m1 & -> & Hb1 & Hr). cbn [mbind outcome_bind].
    destruct r as [p|e]; [|destruct Hr as (-> & -> & -> & H1 & H2); by exists (Err HOutOfMemory), h, m].
    destruct Hr as (Hnew & Hpages & Hmem & F1 & Q1 & Hman & Hok1). destruct (all_offsets_ok c Hc) as (Hch & _ & L & HL). rewrite HL in Hok1, Hman.
    destruct (pop_grants h1 m1 F1 _ P Q1 p c 0 L Hok1) as (h2 & Q2 & -> & Hok2 & Hb2 & (G1 & G2 & G3) & Ha & Ha0 & Ha1); [apply lookup_insert_eq|].
    rewrite Hb1 in *. exists (Ok (addr (hhdm_base h) p + 0)), h2, m1. split_and!; [done|done|done|done|done|].
    assert (Hidle : ∀ a' len', holds (hhdm_base h) (<[p := (c, 0 :: L)]> S) P a' len' ↔ holds (hhdm_base h) S P a' len') by (intros a' len'; rewrite <- HL; by apply holds_idle).
    exists F1, (<[p := (c, L)]> (<[p := (c, 0 :: L)]> S)), Q2. split; [exact Hok2|]. split; [|split; [intros f; rewrite (managed_update F1 _ P p (c, 0 :: L)); [apply Hman|apply lookup_insert_eq]|]].
    2: { intros Hbusy. rewrite insert_insert_eq. apply busy_insert; [done|]. apply (pop_busy Hok1 p c 0 L). apply lookup_insert_eq. }
    split; [|split].
    + intros a' len'. by rewrite G1, Hidle.
    + intros x a' len' Hx Hh. apply (G2 x a' len' Hx). by apply Hidle.
    + intros x a' len' Hh Hx. apply Hmem. intros Hf. destruct Hh as [(q & c' & L' & o' & Hq & Hv & Hn' & -> & ->)|(q & k & Hq & -> & ->)].
      * destruct (chain_at Hok _ _ _ Hq) as [Hc' _ _]. cbn in Hc'. destruct (valid_range c' o' Hc' Hv).
        replace x with (addr (hhdm_base h) q + (x - addr (hhdm_base h) q)) in Hf by lia. rewrite frame_at_slab in Hf by lia. congruence.
      * apply (Hpages q k Hq). rewrite <- Hf. by apply frame_at_pages.
  - rewrite (proj2 (Z.eqb_neq _ _)) by done. unfold pret. cbn [mbind outcome_bind]. apply (ho_listed _ _ _ _ _ _ Hok) in Hin as (L & Hp & HL).
    destruct L as [|o L]; [done|]. destruct (pop_grants h m F S P Q _ c o L Hok Hp) as (h2 & Q2 & -> & Hok2 & Hb2 & HG & Ha & Ha0 & Ha1).
    exists (Ok (addr (hhdm_base h) (partial cache) + o)), h2, m. split_and!; [done..|]. exists F, (<[partial cache := (c, L)]> S), Q2. split_and!; [done|apply HG..| |].
    + intros f. by eapply managed_update.
    + intros Hbusy. apply busy_insert; [done|]. by apply (pop_busy Hok (partial cache) c o L).
Qed.

(** ** Whole pages *)
Lemma order_loop_ok fuel : ∀ o n, n ≤ size_of (o + fuel) →
  ∃ k, order_loop (Datatypes.S fuel) o n = Done k ∧ (o ≤ k ≤ o + fuel)%nat ∧ n ≤ size_of k ∧ ∀ j, (o ≤ j < k)%nat → size_of j < n.
Proof.
  induction fuel as [|fuel IH]; intros o n Hn; cbn [order_loop]; destruct (Z.ltb_spec (size_of o) n).
  - rewrite Nat.add_0_r in Hn. lia.
  - exists o. split_and!; [done|lia|lia|done|intros; lia].
  - destruct (IH (Datatypes.S o) n) as (k & Hk & H1 & H2 & H3); [by replace (Datatypes.S o + fuel)%nat with (o + Datatypes.S fuel)%nat by lia|].
    exists k. split_and!; [done|lia|lia|done|]. intros j Hj. destruct (decide (j = o)) as [->|]; [done|]. apply H3. lia.
  - exists o. split_and!; [done|lia|lia|done|intros; lia].
Qed.
(** The pages a request is rounded up to: enough, and no power of two less. *)
Lemma order_for_ok bytes : 0 ≤ bytes < 2 ^ 64 → ∃ k, order_for bytes = Done k ∧ bytes ≤ FRAME_SIZE * size_of k ∧ ∀ j, (j < k)%nat → FRAME_SIZE * size_of j < bytes.
Proof.
  intros H. unfold order_for. pose proof (Z.div_mod (bytes + FRAME_SIZE - 1) FRAME_SIZE) as D. pose proof (Z.mod_pos_bound (bytes + FRAME_SIZE - 1) FRAME_SIZE) as B.
  unfold FRAME_SIZE in *. set (n := (bytes + 4096 - 1) / 4096) in *. destruct (order_loop_ok 53 0 n) as (k & -> & _ & H2 & H3).
  { change (size_of (0 + 53)) with (2 ^ 53). lia. }
  exists k. split_and!; [done|lia|]. intros j Hj. specialize (H3 j). lia.
Qed.

Lemma class_for_ok e : 0 ≤ e → match class_for e with Some c => (c < CLASS_COUNT)%nat ∧ e ≤ osize c | None => MAX_SLAB_SIZE < e end.
Proof.
  intros He. unfold class_for. destruct (Z.ltb_spec MAX_SLAB_SIZE e); [done|]. unfold MAX_SLAB_SIZE in *. cbn [class_loop CLASS_SIZES].
  repeat match goal with |- context [e <=? ?s] => destruct (Z.leb_spec e s); [split; [vm_compute; lia|unfold osize; cbn; lia]|] end. lia.
Qed.

Lemma same_slabs_infos h s : slabs s = slabs (pmm h) → infos (set_pmm h s) = infos h.
Proof. intros E. unfold infos. cbn. by rewrite E. Qed.
Lemma same_slabs_lists h s Q : slabs s = slabs (pmm h) → lists_ok h Q → lists_ok (set_pmm h s) Q.
Proof. intros E Hl. apply (lists_same h); [done|done|by apply slabs_frames_len|]. intros c q _. unfold snx, spv. cbn. by rewrite E. Qed.

(** The pages handed out change, the slabs do not. *)
Lemma heap_pages h m F S P Q s F' P' : heap_ok h m F S P Q → slabs s = slabs (pmm h) → represents s F' (slab_blocks S ∪ P') → slab_blocks S ## P' →
  heap_ok (set_pmm h s) m F' S P' Q.
Proof.
  intros Hok E Hr Hs. split; [done|done| |by apply same_slabs_lists, Hok|apply Hok| |apply Hok|apply Hok].
  - cbn. rewrite (slabs_frames_len _ _ E). apply Hok.
  - intros p e Hp. rewrite (same_slabs_infos h s E). by apply (ho_slab _ _ _ _ _ _ Hok).
Qed.

Lemma allocate_pages_ok h m F S P Q size : heap_ok h m F S P Q → 0 ≤ size < 2 ^ 64 →
  ∃ r h' k, order_for size = Done k ∧ Heap.allocate_pages size (h, m) = Done (r, (h', m)) ∧ hhdm_base h' = hhdm_base h ∧
    match r with
    | Ok a => a mod FRAME_SIZE = 0 ∧ (0 ≤ a ∧ a + FRAME_SIZE * size_of k ≤ 2 ^ 64) ∧ ∃ F' P', (∀ f, managed F' S P' f ↔ managed F S P f) ∧ heap_ok h' m F' S P' Q ∧ grants (hhdm_base h) S S P P' m m a (FRAME_SIZE * size_of k)
    | Err e => h' = h ∧ (e = TooLarge size ∧ (MAX_ORDER < k)%nat ∨ e = HOutOfMemory ∧ exhausted_all (pmm h) k)
    end.
Proof.
  intros Hok Hsz. destruct (order_for_ok size Hsz) as (k & Hk & _ & _). unfold Heap.allocate_pages. rewrite Hk. cbn [mbind outcome_bind].
  destruct (decide (MAX_ORDER < k)%nat) as [Hbig|Hsmall].
  { unfold Pmm.allocate. rewrite decide_True by done. cbn [mbind outcome_bind]. exists (Err (TooLarge size)), h, k. split_and!; [done|by destruct h|done|done|by left]. }
  destruct (allocate_spec (pmm h) F _ k Normal (ho_pmm _ _ _ _ _ _ Hok)) as (r & s & Ha & Hs); [lia|]. rewrite Ha. cbn [mbind outcome_bind].
  pose proof (allocate_slabs _ _ _ _ _ Ha) as Hsl. destruct r as [p|e].
  2: { destruct Hs as (-> & -> & H1 & H2). exists (Err HOutOfMemory), h, k. split_and!; [done|by destruct h|done|done|right; split; [done|split; [done|by apply H2]]]. }
  destruct Hs as ([_ Hp0 _ Hp1 _] & _ & Hfree & Hnew & Hr). pose proof (size_of_pos k). destruct (ho_base _ _ _ _ _ _ Hok) as (Hb0 & Hba & Hb1).
  assert (Hpa : Heap.page_address (set_pmm h s) p = Done (addr (hhdm_base h) p)) by (apply (page_address_ok Hok); lia). rewrite Hpa. cbn [mbind outcome_bind].
  exists (Ok (addr (hhdm_base h) p)), (set_pmm h s), k. apply not_elem_of_union in Hnew as [Hn1 Hn2].
  split_and!; [done|done|done| |unfold addr, FRAME_SIZE in *; lia|unfold addr, FRAME_SIZE in *; nia|].
  - unfold addr. by rewrite Z.mod_add.
  - exists (fun f => F f ∧ ¬ covers p k f), ({[(p, k)]} ∪ P). split; [intros f; by apply managed_pages|]. split.
    + apply (heap_pages h m F S P Q s); [done|done| |pose proof (ho_sep _ _ _ _ _ _ Hok); set_solver].
      by replace (slab_blocks S ∪ ({[(p, k)]} ∪ P)) with ({[(p, k)]} ∪ (slab_blocks S ∪ P)) by set_solver.
    + split; [|split; [|done]].
      * intros a' len'. unfold holds. setoid_rewrite elem_of_union. setoid_rewrite elem_of_singleton. split.
        -- intros [H'|(q & j & [[= -> ->]|H'] & -> & ->)]; [by left; left|by right|left; right; eauto].
        -- intros [[H'|(q & j & H' & -> & ->)]|[-> ->]]; [by left|right; eauto 10|right; eauto 10].
      * intros x a' len' Hx Hh Hx'. pose proof (frame_at_pages _ _ _ _ Hx) as Hf. apply Hfree in Hf. revert Hf.
        destruct Hh as [(q & c' & L' & o' & Hq & Ho' & Hn & -> & ->)|(q & j & Hq & -> & ->)].
        -- destruct (chain_at Hok _ _ _ Hq) as [Hc' _ _]. cbn in Hc'. destruct (valid_range c' o' Hc' Ho').
           replace x with (addr (hhdm_base h) q + (x - addr (hhdm_base h) q)) by lia. rewrite frame_at_slab by lia.
           eapply held_not_free; [apply Hok|by eapply slab_held|apply covers_self].
        -- eapply held_not_free; [apply Hok|apply elem_of_union; right; exact Hq|by apply frame_at_pages].
Qed.

(** ** Giving back *)
Lemma slab_blocks_delete S p e : S !! p = Some e → slab_blocks (delete p S) = slab_blocks S ∖ {[(p, 0%nat)]}.
Proof.
  intros Hp. apply set_eq. intros [q k]. rewrite elem_of_difference, elem_of_singleton, !elem_slab_blocks. destruct (decide (q = p)) as [->|].
  - rewrite lookup_delete_eq, Hp. split; [intros [_ [? ?]]; done|intros [[-> _] []]; done].
  - rewrite lookup_delete_ne by done. naive_solver.
Qed.

Lemma release_ok h m F S P Q p c L : heap_ok h m F S P Q → S !! p = Some (c, L) → used_in (c, L) = 0 →
  ∃ h' F' Q', Heap.release_slab c p (h, m) = Done (Ok tt, (h', m)) ∧ (∀ f, managed F' (delete p S) P f ↔ managed F S P f) ∧ heap_ok h' m F' (delete p S) P Q' ∧ hhdm_base h' = hhdm_base h.
Proof.
  intros Hok Hp Hu. pose proof (chain_at Hok _ _ _ Hp) as [Hc Hnd Hv]. cbn [fst snd] in *. destruct (class_geometry c Hc) as (_ & Ho & _).
  assert (HL : L ≠ []) by (intros ->; unfold used_in in Hu; cbn in Hu; lia).
  assert (Hin : p ∈ Q c) by (apply (ho_listed _ _ _ _ _ _ Hok); eauto). apply list_elem_of_split in Hin as (l1 & l2 & HQ).
  pose proof (ho_lists _ _ _ _ _ _ Hok) as Hl. pose proof (slab_frame Hok _ _ Hp) as Hpr. pose proof (slab_held (P := P) p _ Hp) as HpA.
  unfold Heap.release_slab. destruct (unlink_ok h Q F _ c l1 p l2 Hl (ho_pmm _ _ _ _ _ _ Hok) (queue_held Hok) HQ Hc) as (h1 & -> & Hl1 & Hr1 & Hrk). cbn [mbind outcome_bind].
  destruct (on_slab_ok h1 F _ p 0 (fun _ => slab_empty) Hr1 HpA) as (i & s2 & Hi & -> & Hr2 & Hs2).
  pose proof (relinked_len _ _ Hrk) as Hlen1. cbn [set_pmm slab_frames pmm]. rewrite (rk_frames _ _ Hrk), (ho_frames _ _ _ _ _ _ Hok).
  assert (Hsz : Z.of_nat (size S) = Z.of_nat (size (delete p S)) + 1).
  { rewrite <- (insert_delete_id S p (c, L) Hp) at 1. rewrite map_size_insert_None by apply lookup_delete_eq. lia. }
  pose proof (slabs_few Hok). pose proof (represents_len _ _ _ (ho_pmm _ _ _ _ _ _ Hok)).
  rewrite sub_checked_ok by (unfold in_width; lia). cbn [mbind outcome_bind].
  destruct (free_spec s2 F _ p 0 Hr2 HpA) as (s3 & Hf & Hr3). rewrite Hf. cbn [mbind outcome_bind]. pose proof (free_slabs _ _ _ _ _ Hf) as Hsl3.
  eexists _, _, _. split; [done|]. split; [intros f; by eapply managed_release|]. split; [|apply (rk_base _ _ Hrk)].
  assert (Hsep : (p, 0%nat) ∉ P) by (intros HP; apply (ho_sep _ _ _ _ _ _ Hok (p, 0%nat)); [apply elem_slab_blocks; eauto|done]).
  assert (Hinf : ∀ q, 0 ≤ q → q ≠ p → (plain <$> slabs s3) !! Z.to_nat q = infos h !! Z.to_nat q).
  { intros q Hq Hne. rewrite Hsl3, Hs2, list_fmap_insert, list_lookup_insert_ne by lia. by rewrite (rk_plain _ _ Hrk). }
  split.
  - cbn [set_pmm set_slab_frames pmm]. rewrite (slab_blocks_delete S p _ Hp).
    by replace (slab_blocks S ∖ {[(p, 0%nat)]} ∪ P) with ((slab_blocks S ∪ P) ∖ {[(p, 0%nat)]}) by set_solver.
  - rewrite (slab_blocks_delete S p _ Hp). pose proof (ho_sep _ _ _ _ _ _ Hok). set_solver.
  - cbn [set_pmm set_slab_frames pmm hhdm_base]. rewrite (rk_base _ _ Hrk). replace (frames_len s3) with (frames_len (pmm h)); [apply Hok|].
    rewrite <- Hlen1, <- !length_slabs, Hsl3, Hs2, length_insert. done.
  - eapply (lists_same h1); cbn [set_pmm set_slab_frames pmm caches]; [exact Hl1|done| |].
    + rewrite <- !length_slabs, Hsl3, Hs2, length_insert. done.
    + intros c' q Hq. pose proof (lo_range _ _ Hl1 _ _ Hq). assert (q ≠ p).
      { intros ->. apply (listed_delete Q S p c L l1 l2 (ho_listed _ _ _ _ _ _ Hok) Hp HQ (lo_nodup _ _ Hl c)) in Hq as (L' & E & _). by rewrite lookup_delete_eq in E. }
      unfold snx, spv. rewrite Hsl3, Hs2, !list_lookup_insert_ne by lia. done.
  - eapply listed_delete; [apply Hok|exact Hp|exact HQ|apply Hl].
  - intros q e Hq. apply lookup_delete_Some in Hq as [Hne Hq]. destruct (ho_slab _ _ _ _ _ _ Hok q e Hq) as [He (hd & Hhd & Hch)].
    split; [done|]. exists hd. cbn [hhdm_base set_pmm set_slab_frames]. rewrite (rk_base _ _ Hrk). split; [|done]. rewrite <- Hhd. apply Hinf; [|done].
    pose proof (slab_frame Hok q e Hq). lia.
  - cbn [set_pmm set_slab_frames live_objects]. rewrite (rk_live _ _ Hrk), (ho_live _ _ _ _ _ _ Hok), (used_delete S p _ Hp), Hu. lia.
  - cbn [set_pmm set_slab_frames slab_frames]. lia.
Qed.

Lemma chain_head_width m page head L c : chain_ok (c, L) → chain m page head L → 0 ≤ head < 2 ^ 16.
Proof.
  intros Hch. destruct L as [|o L]; cbn [chain]; [intros ->; by vm_compute|]. intros [-> _]. destruct (chain_ok_range c (o :: L) o Hch); [left|]. unfold FRAME_SIZE in *. lia.
Qed.
Lemma chain_push m page head c o L : chain_ok (c, o :: L) → chain m page head L → chain (write16 m (page + o) head) page o (o :: L).
Proof.
  intros Hch Hchain. pose proof Hch as [Hc Hnd Hv]. cbn [fst snd] in *. apply NoDup_cons in Hnd as [Hno Hnd]. apply Forall_cons in Hv as [Hvo Hv].
  split; [done|]. rewrite read_write16 by (eapply chain_head_width; [|exact Hchain]; by split). eapply chain_ext; [|exact Hchain]. intros o' x Ho' Hx.
  rewrite Forall_forall in Hv. destruct (class_geometry c Hc) as (? & _).
  assert (Hap : ∀ y, 0 ≤ y < 2 → page + o' + x ≠ page + o + y).
  { intros y Hy E. apply Hno. replace o with o'; [done|]. apply (valid_apart c o' o x y Hc (Hv o' Ho') Hvo); lia. }
  apply write16_other; [rewrite <- (Z.add_0_r (page + o))|]; apply Hap; lia.
Qed.

Lemma push_ok h m F S P Q p c o L : heap_ok h m F S P Q → S !! p = Some (c, L) → valid_offset c o → o ∉ L →
  ∃ h1 Q1, heap_ok h1 (write16 m (addr (hhdm_base h) p + o) (default 0 (free_head <$> Pmm.slab_of (pmm h) p))) F (<[p := (c, o :: L)]> S) P Q1 ∧ hhdm_base h1 = hhdm_base h ∧
    Heap.free_object c (addr (hhdm_base h) p + o) (h, m) =
    (if used_in (c, o :: L) =? 0 then Heap.release_slab c p else pret tt)
      (h1, write16 m (addr (hhdm_base h) p + o) (default 0 (free_head <$> Pmm.slab_of (pmm h) p))).
Proof.
  intros Hok Hp Hvo Hno. pose proof (chain_at Hok _ _ _ Hp) as Hch. pose proof Hch as [Hc Hnd Hv]. cbn [fst snd] in *.
  assert (Hch' : chain_ok (c, o :: L)) by (split; cbn; [done|by apply NoDup_cons|by constructor]).
  destruct (on_slab_free h m F S P Q p c L o (used_in (c, o :: L)) Hok Hp) as (i & s' & Hi & Hu & Hcl & Hchain & Hon & Hr & Hinf & Hl).
  pose proof (slab_frame Hok _ _ Hp) as Hp0. destruct (valid_range c o Hc Hvo). destruct (class_geometry c Hc) as (? & ? & _).
  pose proof (chain_room c L o Hc Hnd Hv Hvo Hno) as Hroom. pose proof (ho_lists _ _ _ _ _ _ Hok) as Hl0.
  assert (Hu' : used_in (c, L) = used_in (c, o :: L) + 1) by (unfold used_in; cbn [fst snd length]; lia).
  assert (Hu0 : 0 ≤ used_in (c, o :: L)) by (unfold used_in; cbn [fst snd length]; lia).
  pose proof (live_few Hok) as Hlive. pose proof (ho_live _ _ _ _ _ _ Hok) as Hlv.
  assert (Hl1 : 1 ≤ live_objects h).
  { rewrite Hlv, (used_delete S p _ Hp). enough (0 ≤ used (delete p S)) by lia. apply used_bounds. intros q e Hq. apply lookup_delete_Some in Hq as [_ Hq].
    destruct e as [c' L']. by eapply chain_at. }
  rewrite Hi. cbn [default fmap option_fmap option_map]. set (m1 := write16 m _ _).
  unfold Heap.free_object. rewrite (pfn_of_ok Hok p o Hp0) by (unfold FRAME_SIZE in *; lia). cbn [mbind outcome_bind].
  destruct (lookup_lt_is_Some_2 (caches h) c) as [cache Hcache]; [rewrite (lo_length _ _ Hl0); done|]. rewrite (at_index_ok _ _ _ Hcache). cbn [mbind outcome_bind].
  rewrite (page_address_ok Hok p Hp0). cbn [mbind outcome_bind].
  rewrite sub_checked_ok by (unfold in_width, FRAME_SIZE in *; lia). cbn [mbind outcome_bind].
  replace (addr (hhdm_base h) p + o - addr (hhdm_base h) p) with o by lia. rewrite trunc_small by (unfold in_width, FRAME_SIZE in *; lia).
  rewrite Hi, Hcl, Z.eqb_refl, Hu, Hu'. cbn [negb]. replace (saturating_sub (used_in (c, o :: L) + 1) 1) with (used_in (c, o :: L)) by (unfold saturating_sub; lia).
  fold m1. rewrite Hon. rewrite (chain_head _ _ _ L) by (try exact Hchain; intros x Hx; by apply (chain_ok_range c L)).
  assert (Hmem : ∀ x, frame_at (hhdm_base h) x ≠ p → m1 x = m x).
  { intros x Hx. apply write16_other; intros ->; apply Hx; [apply frame_at_slab|rewrite <- Z.add_assoc; apply frame_at_slab]; lia. }
  assert (Hend : ∀ h1 Q1, lists_ok h1 Q1 → listed Q1 (<[p := (c, o :: L)]> S) → represents (pmm h1) F (slab_blocks S ∪ P) → infos h1 = infos (set_pmm h s') →
    hhdm_base h1 = hhdm_base h → live_objects h1 = live_objects h → slab_frames h1 = slab_frames h →
    heap_ok (set_live h1 (saturating_sub (live_objects h1) 1)) m1 F (<[p := (c, o :: L)]> S) P Q1 ∧ hhdm_base (set_live h1 (saturating_sub (live_objects h1) 1)) = hhdm_base h).
  { intros h1 Q1 A1 A2 A3 A4 A5 A6 A7. split; [|done].
    eapply (heap_update h m F S P Q _ m1 p (c, L)); try done; cbn [set_live pmm hhdm_base live_objects slab_frames].
    - unfold infos in *. cbn [set_live pmm]. by rewrite A4, Hinf.
    - by apply (chain_push m _ _ c).
    - by apply (lists_same h1).
    - unfold saturating_sub. lia. }
  destruct (decide (L = [])) as [->|HL].
  - rewrite bool_decide_true by done. assert (Hnq : ∀ c', p ∉ Q c').
    { intros c' Hin. apply (ho_listed _ _ _ _ _ _ Hok) in Hin as (L' & E & HL'). rewrite Hp in E. injection E as _ <-. done. }
    destruct (link_ok (set_pmm h s') Q F _ c p Hl Hr (queue_held Hok) (slab_held p _ Hp) Hnq Hc) as (h1 & -> & Hl2 & Hr2 & Hrk). cbn [mbind outcome_bind].
    destruct (Hend h1 (upd_list Q c (p :: Q c))) as [E1 E2]; [done|by apply listed_add; [apply Hok|done|done]|done|by apply relinked_infos|by destruct Hrk..|]. eauto.
  - rewrite bool_decide_false by done. cbn [mbind outcome_bind].
    destruct (Hend (set_pmm h s') Q) as [E1 E2]; try done; [by eapply listed_keep; [apply Hok|exact Hp|done|done]|]. eauto.
Qed.

(** What giving [len] bytes at [a] back means to the others. *)
Definition yields (base : Z) (S S' : slabmap) (P P' : gset (Z * nat)) (m m' : Memory) (a len : Z) : Prop :=
  (∀ a' len', holds base S' P' a' len' ↔ holds base S P a' len' ∧ ¬ (a' = a ∧ len' = len)) ∧
  (∀ x a' len', holds base S P a' len' → ¬ (a' = a ∧ len' = len) → a' ≤ x < a' + len' → m' x = m x).

Lemma free_object_ok h m F S P Q p c o L : heap_ok h m F S P Q → S !! p = Some (c, L) → valid_offset c o → o ∉ L →
  ∃ h' m' F' S' Q', Heap.free_object c (addr (hhdm_base h) p + o) (h, m) = Done (Ok tt, (h', m')) ∧ hhdm_base h' = hhdm_base h ∧
    heap_ok h' m' F' S' P Q' ∧ yields (hhdm_base h) S S' P P m m' (addr (hhdm_base h) p + o) (osize c) ∧ (∀ f, managed F' S' P f ↔ managed F S P f) ∧ (busy S → busy S').
Proof.
  intros Hok Hp Hvo Hno. pose proof (chain_at Hok _ _ _ Hp) as [Hc _ _]. cbn [fst] in Hc. destruct (class_geometry c Hc) as (? & _).
  destruct (push_ok h m F S P Q p c o L Hok Hp Hvo Hno) as (h1 & Q1 & Hok1 & Hb1 & ->). set (m1 := write16 _ _ _) in *. set (S1 := <[p := (c, o :: L)]> S) in *.
  assert (HS1 : S1 !! p = Some (c, o :: L)) by apply lookup_insert_eq.
  assert (Hy : yields (hhdm_base h) S S1 P P m m1 (addr (hhdm_base h) p + o) (osize c)).
  { split.
    - intros a' len'. pose proof (holds_take (hhdm_base h) S1 P p c o L a' len' HS1 Hvo Hno) as Ht. unfold S1 in Ht at 1. rewrite insert_insert_eq, insert_id in Ht by done.
      rewrite Ht. split; [|tauto]. intros Hh. split; [by left|]. intros [-> ->]. rewrite <- Hb1 in Hh.
      destruct (place_apart Hok1 p c (o :: L) o 0 _ _ HS1 Hvo ltac:(lia) Hh) as [Hn _]; [rewrite Hb1; lia|]. apply Hn. left.
    - intros x a' len' Hh Hne Hx. apply write16_other; intros ->; apply Hne.
      + destruct (place_apart Hok p c L o 0 _ _ Hp Hvo ltac:(lia) Hh) as [_ ?]; [lia|done].
      + destruct (place_apart Hok p c L o 1 _ _ Hp Hvo ltac:(lia) Hh) as [_ ?]; [lia|done]. }
  destruct (Z.eqb_spec (used_in (c, o :: L)) 0) as [Hu|].
  - destruct (release_ok h1 m1 F S1 P Q1 p c (o :: L) Hok1 HS1 Hu) as (h2 & F2 & Q2 & -> & Hman & Hok2 & Hb2).
    exists h2, m1, F2, (delete p S1), Q2. split; [done|]. split; [congruence|]. split; [done|]. split; [|split; [intros f; rewrite Hman; by eapply managed_update|]].
    2: { intros Hbusy q e Hq. apply lookup_delete_Some in Hq as [Hne Hq]. unfold S1 in Hq. rewrite lookup_insert_ne in Hq by done. by apply (Hbusy q). }
    destruct Hy as [Hy1 Hy2]. split; [|done]. intros a' len'. rewrite <- Hy1.
    apply (holds_delete _ S1 P p c (o :: L)); [done|]. intros o' Ho'. destruct (chain_at Hok1 _ _ _ HS1) as [_ Hnd Hv]. cbn [fst snd] in *.
    apply (full_chain c); try done. unfold used_in in Hu. cbn [fst snd] in Hu. lia.
  - exists h1, m1, F, S1, Q1. split; [done|]. split; [done|]. split; [done|]. split; [done|]. split; [intros f; by eapply managed_update|]. intros Hbusy. apply busy_insert; [done|].
    pose proof (used_in_bounds _ (chain_at Hok1 _ _ _ HS1)). lia.
Qed.

Lemma size_of_inj j k : size_of j = size_of k → j = k.
Proof. unfold size_of. intros E. apply Z.pow_inj_r in E; lia. Qed.

Lemma free_pages_ok h m F S P Q p k size : heap_ok h m F S P Q → (p, k) ∈ P → order_for size = Done k →
  ∃ h' F' P', Heap.free_pages size (addr (hhdm_base h) p) (h, m) = Done (Ok tt, (h', m)) ∧ hhdm_base h' = hhdm_base h ∧
    (∀ f, managed F' S P' f ↔ managed F S P f) ∧ heap_ok h' m F' S P' Q ∧ yields (hhdm_base h) S S P P' m m (addr (hhdm_base h) p) (FRAME_SIZE * size_of k).
Proof.
  intros Hok Hp Hk. destruct (pages_fit Hok p k Hp) as [_ Hp0 _ Hp1 _]. pose proof (size_of_pos k). unfold Heap.free_pages. rewrite Hk. cbn [mbind outcome_bind].
  assert (Hpf : Heap.pfn_of h (addr (hhdm_base h) p + 0) = Done p) by (apply (pfn_of_ok Hok); unfold FRAME_SIZE; lia).
  rewrite Z.add_0_r in Hpf. rewrite Hpf. cbn [mbind outcome_bind].
  destruct (free_spec (pmm h) F _ p k (ho_pmm _ _ _ _ _ _ Hok)) as (s & Hf & Hr); [apply elem_of_union; by right|]. rewrite Hf. cbn [mbind outcome_bind].
  pose proof (free_slabs _ _ _ _ _ Hf) as Hsl. pose proof (ho_sep _ _ _ _ _ _ Hok) as Hsep. assert (Hns : (p, k) ∉ slab_blocks S) by set_solver.
  eexists (set_pmm h s), (fun f => F f ∨ covers p k f), (P ∖ {[(p, k)]}). split; [done|]. split; [done|]. split; [intros f; by apply managed_give|]. split.
  - eapply (heap_pages h m F S P Q s); [done|done| |set_solver].
    replace (slab_blocks S ∪ P ∖ {[(p, k)]}) with ((slab_blocks S ∪ P) ∖ {[(p, k)]}) by set_solver. exact Hr.
  - split; [|done]. intros a' len'. split.
    + intros Hh. split.
      * destruct Hh as [H'|(q & j & H' & -> & ->)]; [by left|]. right. exists q, j. set_solver.
      * intros [-> ->]. destruct Hh as [(q & c' & L' & o' & Hq & Ho' & Hn & E1 & E2)|(q & j & H' & E1 & E2)].
        -- destruct (chain_at Hok _ _ _ Hq) as [Hc' _ _]. cbn in Hc'. destruct (class_geometry c' Hc') as (? & _). unfold FRAME_SIZE in *. lia.
        -- apply elem_of_difference in H' as [H' Hne]. apply Hne, elem_of_singleton. f_equal; [unfold addr, FRAME_SIZE in *; lia|].
           apply size_of_inj. unfold FRAME_SIZE in *. lia.
    + intros [[H'|(q & j & H' & -> & ->)] Hne]; [by left|]. right. exists q, j. split; [|done]. apply elem_of_difference. split; [done|].
      intros [= -> ->]%elem_of_singleton. by apply Hne.
Qed.

(** ** The abstract heap *)
Definition pages_order (size align : Z) : nat :=
  match class_for (Heap.effective size align) with
  | Some _ => 0
  | None => match order_for (Heap.effective size align) with Done k => k | _ => 0 end
  end.
(** The bytes a request is rounded up to. *)
Definition granted (size align : Z) : Z :=
  match class_for (Heap.effective size align) with Some c => osize c | None => FRAME_SIZE * size_of (pages_order size align) end.
Definition layout (size align : Z) : Prop := 0 ≤ size < 2 ^ 64 ∧ 0 < align < 2 ^ 64 ∧ 2 ^ Z.log2 align = align.

(** [U a len]: some caller holds the [len] bytes at [a]; [W]: the frames the heap was
    given to serve them from. *)
Definition heap_holds (h : Heap) (m : Memory) (W : Z → Prop) (U : Z → Z → Prop) : Prop :=
  ∃ F S P Q, heap_ok h m F S P Q ∧ (∀ f, W f ↔ managed F S P f) ∧ busy S ∧ ∀ a len, U a len ↔ holds (hhdm_base h) S P a len.
Definition held_at (U : Z → Z → Prop) (x : Z) : Prop := ∃ a len, U a len ∧ a ≤ x < a + len.

Lemma power_divides j n a : 0 ≤ j ≤ n → a mod 2 ^ n = 0 → a mod 2 ^ j = 0.
Proof.
  intros Hj Ha. apply Z.mod_divide in Ha as [q ->]; [|lia]. replace n with ((n - j) + j) by lia. rewrite Z.pow_add_r by lia. rewrite Z.mul_assoc. apply Z_mod_mult.
Qed.
Lemma aligned_to_class c align a : (c < CLASS_COUNT)%nat → 0 < align ≤ osize c → 2 ^ Z.log2 align = align → a mod osize c = 0 → a mod align = 0.
Proof.
  intros Hc Hal Hp Ha. rewrite <- Hp. assert (E : osize c = 2 ^ (4 + Z.of_nat c)) by (unfold osize; rewrite Z.pow_add_r by lia; done). rewrite E in *.
  eapply power_divides; [|exact Ha]. split; [apply Z.log2_nonneg|]. apply (Z.pow_le_mono_r_iff 2); [lia|lia|]. lia.
Qed.
Lemma aligned_to_frame align a : 0 < align ≤ FRAME_SIZE → 2 ^ Z.log2 align = align → a mod FRAME_SIZE = 0 → a mod align = 0.
Proof.
  intros Hal Hp Ha. rewrite <- Hp. change FRAME_SIZE with (2 ^ 12) in *. eapply power_divides; [|exact Ha].
  split; [apply Z.log2_nonneg|]. apply (Z.pow_le_mono_r_iff 2); lia.
Qed.

Lemma heap_allocate_spec h m W U size align : heap_holds h m W U → layout size align →
  ∃ r h' m', Heap.allocate size align (h, m) = Done (r, (h', m')) ∧
    match r with
    | Ok a => size ≤ granted size align ∧ a mod align = 0 ∧ (0 ≤ a ∧ a + granted size align ≤ 2 ^ 64) ∧
        (∀ x, a ≤ x < a + granted size align → ¬ held_at U x) ∧ (∀ x, held_at U x → m' x = m x) ∧
        heap_holds h' m' W (fun a' len' => U a' len' ∨ a' = a ∧ len' = granted size align)
    | Err e => h' = h ∧ m' = m ∧
        match e with
        | UnsupportedAlignment _ => FRAME_SIZE < align
        | TooLarge _ => (MAX_ORDER < pages_order size align)%nat
        | HOutOfMemory => exhausted_all (pmm h) (pages_order size align)
        | HNotAllocated => False
        end
    end.
Proof.
  intros (F & S & P & Q & Hok & HW & Hbusy & HU) (Hs & Ha & Hpow). unfold Heap.allocate, pfail. destruct (Z.ltb_spec FRAME_SIZE align) as [|Hal]; [by eexists (Err _), h, m|].
  assert (He : 0 ≤ Heap.effective size align < 2 ^ 64) by (unfold Heap.effective; lia). pose proof (class_for_ok (Heap.effective size align) ltac:(lia)) as Hcl.
  assert (Hse : size ≤ Heap.effective size align ∧ align ≤ Heap.effective size align) by (unfold Heap.effective; lia). unfold granted, pages_order.
  assert (Hgr : ∀ h' m' F' S' P' Q' a len, heap_ok h' m' F' S' P' Q' → (∀ f, managed F' S' P' f ↔ managed F S P f) → busy S' → hhdm_base h' = hhdm_base h → grants (hhdm_base h) S S' P P' m m' a len →
    (∀ x, a ≤ x < a + len → ¬ held_at U x) ∧ (∀ x, held_at U x → m' x = m x) ∧ heap_holds h' m' W (fun a' len' => U a' len' ∨ a' = a ∧ len' = len)).
  { intros h' m' F' S' P' Q' a len Hok' Hman Hbusy' Hb (G1 & G2 & G3). split_and!.
    - intros x Hx (a' & len' & Hh & Hx'). apply HU in Hh. by apply (G2 x a' len').
    - intros x (a' & len' & Hh & Hx'). apply HU in Hh. by apply (G3 x a' len').
    - exists F', S', P', Q'. split; [done|]. split; [intros f; by rewrite Hman, HW|]. split; [done|]. intros a' len'. by rewrite Hb, G1, HU. }
  destruct (class_for (Heap.effective size align)) as [c|].
  - destruct Hcl as [Hc Hle]. destruct (from_slab_ok h m F S P Q c Hok Hc) as (r & h' & m' & -> & Hb & Hr). exists r, h', m'. split; [done|]. destruct r as [a|e].
    + destruct Hr as (Hmod & Hrange & F' & S' & Q' & Hok' & HG & Hman & Hbusy'). destruct (Hgr _ _ _ _ _ _ _ _ Hok' Hman (Hbusy' Hbusy) Hb HG) as (G1 & G2 & G3).
      split_and!; try done; [lia|eapply aligned_to_class; eauto; lia|apply Hrange..].
    + by destruct Hr as (-> & -> & -> & Hx).
  - destruct (allocate_pages_ok h m F S P Q (Heap.effective size align) Hok He) as (r & h' & k & Hk & -> & Hb & Hr). rewrite Hk. destruct (order_for_ok _ He) as (k' & Hk' & Hle & _).
    rewrite Hk in Hk'. injection Hk' as <-. exists r, h', m. split; [done|]. destruct r as [a|e].
    + destruct Hr as (Hmod & Hrange & F' & P' & Hman & Hok' & HG). destruct (Hgr _ _ _ _ _ _ _ _ Hok' Hman Hbusy Hb HG) as (G1 & G2 & G3).
      split_and!; try done; [lia|eapply aligned_to_frame; eauto; lia|apply Hrange..].
    + by destruct Hr as (-> & [[-> Hx]|[-> Hx]]).
Qed.

Lemma osize_inj c c' : osize c = osize c' → c = c'.
Proof. unfold osize. intros E. assert (E' : 2 ^ Z.of_nat c = 2 ^ Z.of_nat c') by lia. apply Z.pow_inj_r in E'; lia. Qed.

Lemma heap_free_spec h m W U a size align : heap_holds h m W U → layout size align → align ≤ FRAME_SIZE → U a (granted size align) →
  ∃ h' m', Heap.free a size align (h, m) = Done (Ok tt, (h', m')) ∧
    heap_holds h' m' W (fun a' len' => U a' len' ∧ ¬ (a' = a ∧ len' = granted size align)) ∧
    ∀ x, held_at (fun a' len' => U a' len' ∧ ¬ (a' = a ∧ len' = granted size align)) x → m' x = m x.
Proof.
  intros (F & S & P & Q & Hok & HW & Hbusy & HU) (Hs & Ha & Hpow) Hal Hheld. apply HU in Hheld. unfold Heap.free, granted, pages_order in *.
  assert (He : 0 ≤ Heap.effective size align < 2 ^ 64) by (unfold Heap.effective; lia). pose proof (class_for_ok (Heap.effective size align) ltac:(lia)) as Hcl.
  assert (Hyi : ∀ h' m' F' S' P' Q' len, heap_ok h' m' F' S' P' Q' → (∀ f, managed F' S' P' f ↔ managed F S P f) → busy S' → hhdm_base h' = hhdm_base h → yields (hhdm_base h) S S' P P' m m' a len →
    heap_holds h' m' W (fun a' len' => U a' len' ∧ ¬ (a' = a ∧ len' = len)) ∧ ∀ x, held_at (fun a' len' => U a' len' ∧ ¬ (a' = a ∧ len' = len)) x → m' x = m x).
  { intros h' m' F' S' P' Q' len Hok' Hman Hbusy' Hb (Y1 & Y2). split.
    - exists F', S', P', Q'. split; [done|]. split; [intros f; by rewrite Hman, HW|]. split; [done|]. intros a' len'. by rewrite Hb, Y1, HU.
    - intros x (a' & len' & [Hh Hne] & Hx). apply HU in Hh. by apply (Y2 x a' len'). }
  destruct (class_for (Heap.effective size align)) as [c|].
  - destruct Hcl as [Hc Hle]. destruct Hheld as [(p & c' & L & o & Hp & Ho & Hn & -> & E)|(p & k & Hp & -> & E)].
    + apply osize_inj in E as <-. destruct (free_object_ok h m F S P Q p c o L Hok Hp Ho Hn) as (h' & m' & F' & S' & Q' & -> & Hb & Hok' & Hy & Hman & Hbusy').
      exists h', m'. split; [done|]. eapply Hyi; eauto.
    + pose proof (size_of_pos k). destruct (class_geometry c Hc) as (? & _). unfold FRAME_SIZE in *. lia.
  - destruct (order_for_ok _ He) as (k & Hk & Hle & _). rewrite Hk in *. destruct Hheld as [(p & c' & L & o & Hp & Ho & Hn & -> & E)|(p & k' & Hp & -> & E)].
    + pose proof (size_of_pos k). destruct (chain_at Hok _ _ _ Hp) as [Hc _ _]. cbn in Hc. destruct (class_geometry c' Hc) as (? & _). unfold FRAME_SIZE in *. lia.
    + assert (k' = k) as -> by (apply size_of_inj; unfold FRAME_SIZE in *; lia).
      destruct (free_pages_ok h m F S P Q p k _ Hok Hp Hk) as (h' & F' & P' & -> & Hb & Hman & Hok' & Hy). exists h', m. split; [done|]. eapply Hyi; eauto.
Qed.

Lemma heap_held_apart h m W U a len a' len' x : heap_holds h m W U → U a len → U a' len' → a ≤ x < a + len → a' ≤ x < a' + len' → a' = a ∧ len' = len.
Proof. intros (F & S & P & Q & Hok & HW & Hbusy & HU) H1%HU H2%HU. by apply (held_apart Hok). Qed.
Lemma heap_poke h m W U x b : heap_holds h m W U → held_at U x → heap_holds h (store m x b) W U.
Proof.
  intros (F & S & P & Q & Hok & HW & Hbusy & HU) (a & len & Hh%HU & Hx). exists F, S, P, Q. split; [|done]. apply (callers_write Hok). intros y Hy. unfold store.
  destruct (Z.eqb_spec y x) as [->|]; [|done]. by destruct (Hy a len Hh).
Qed.
Lemma heap_holds_ext h m W U U' : (∀ a len, U a len ↔ U' a len) → heap_holds h m W U → heap_holds h m W U'.
Proof. intros E (F & S & P & Q & Hok & HW & Hbusy & HU). exists F, S, P, Q. split; [done|]. split; [done|]. split; [done|]. intros a len. by rewrite <- E, HU. Qed.

(** A heap over an allocator that holds nothing for anybody. *)
Lemma heap_new_holds s F base m : represents s F ∅ → 0 ≤ base → base mod FRAME_SIZE = 0 → base + frames_len s * FRAME_SIZE ≤ 2 ^ 64 →
  heap_holds (Heap.new s base) m F (fun _ _ => False).
Proof.
  intros Hr H0 H1 H2. exists F, ∅, ∅, (fun _ => []). split; [split|split; [|split]].
  - cbn [pmm Heap.new]. replace (slab_blocks ∅ ∪ ∅) with (∅ : gset (Z * nat)); [done|]. apply set_eq. intros [q k]. rewrite elem_of_union, elem_slab_blocks, lookup_empty.
    split; [by intros ?%elem_of_empty|intros [[_ [? ?]]|?]; done].
  - done.
  - done.
  - split; cbn [caches Heap.new]; [done| |intros; apply NoDup_nil_2|by intros c c' p ?%elem_of_nil|by intros c p ?%elem_of_nil].
    intros c cache Hc. rewrite list_lookup_fmap in Hc. destruct (CLASS_SIZES !! c) as [sz|] eqn:E; [|done]. injection Hc as <-. split; [|done].
    pose proof (lookup_lt_Some _ _ _ E). rewrite class_size in E by done. by injection E as <-.
  - intros c p. split; [by intros ?%elem_of_nil|intros (L & E & _); by rewrite lookup_empty in E].
  - intros p e E. by rewrite lookup_empty in E.
  - done.
  - done.
  - intros f. unfold managed. rewrite lookup_empty. split; [by left|]. intros [?|[[? ?]|(p & k & ?%elem_of_empty & _)]]; done.
  - intros p e E. by rewrite lookup_empty in E.
  - intros a len. split; [done|]. intros [(p & c & L & o & E & _)|(p & k & E & _)]; [by rewrite lookup_empty in E|by apply elem_of_empty in E].
Qed.

(** ** No frame is lost *)

(** Every frame the heap was given is free in the frame allocator, or holds a byte some
    caller holds, and no frame is both. *)
Definition accounted (h : Heap) (W : Z → Prop) (U : Z → Z → Prop) : Prop :=
  ∃ F A, represents (pmm h) F A ∧ (∀ f, W f ↔ F f ∨ ∃ x, held_at U x ∧ frame_at (hhdm_base h) x = f) ∧
    ∀ x, held_at U x → ¬ F (frame_at (hhdm_base h) x).

Lemma used_object c L : chain_ok (c, L) → 0 < used_in (c, L) → ∃ o, valid_offset c o ∧ o ∉ L.
Proof.
  intros [Hc Hnd Hv] Hu. cbn [fst snd] in *. destruct (decide (Forall (fun o => o ∈ L) (all_offsets c))) as [Hall|Hn].
  - exfalso. assert (Hsub : all_offsets c ⊆+ L) by (apply NoDup_submseteq; [by apply NoDup_all_offsets|intros o Ho; by eapply Forall_forall in Hall]).
    apply submseteq_length in Hsub. pose proof (length_all_offsets c). unfold used_in in Hu. cbn [fst snd] in Hu. lia.
  - apply not_Forall_Exists in Hn; [|apply _]. apply Exists_exists in Hn as (o & Ho & Hn). exists o. split; [by apply elem_all_offsets|done].
Qed.

Lemma held_frame {h m F S P Q} (Hok : heap_ok h m F S P Q) a len x : holds (hhdm_base h) S P a len → a ≤ x < a + len →
  is_Some (S !! frame_at (hhdm_base h) x) ∨ ∃ p k, (p, k) ∈ P ∧ covers p k (frame_at (hhdm_base h) x).
Proof.
  intros [(p & c & L & o & Hp & Ho & Hn & -> & ->)|(p & k & Hp & -> & ->)] Hx; [left|right; exists p, k; split; [done|by apply frame_at_pages]].
  destruct (chain_at Hok _ _ _ Hp) as [Hc _ _]. cbn in Hc. destruct (valid_range c o Hc Ho).
  replace x with (addr (hhdm_base h) p + (x - addr (hhdm_base h) p)) by lia. rewrite frame_at_slab by lia. eauto.
Qed.

Lemma heap_accounted h m W U : heap_holds h m W U → accounted h W U.
Proof.
  intros (F & S & P & Q & Hok & HW & Hbusy & HU). exists F, (slab_blocks S ∪ P). split; [apply Hok|].
  assert (Hfr : ∀ x, held_at U x → is_Some (S !! frame_at (hhdm_base h) x) ∨ ∃ p k, (p, k) ∈ P ∧ covers p k (frame_at (hhdm_base h) x)).
  { intros x (a & len & Hh%HU & Hx). by eapply held_frame. }
  split.
  - intros f. rewrite HW. unfold managed. split; [|intros [H|(x & Hx & <-)]; [by left|right; by apply Hfr]]. intros [H|[[[c L] Hp]|(p & k & Hp & Hc)]]; [by left|right..].
    + destruct (used_object c L (chain_at Hok _ _ _ Hp) (Hbusy _ _ Hp)) as (o & Ho & Hn). destruct (chain_at Hok _ _ _ Hp) as [Hcl _ _]. cbn in Hcl. destruct (valid_range c o Hcl Ho). destruct (class_geometry c Hcl) as (? & _).
      exists (addr (hhdm_base h) f + o). split; [|apply frame_at_slab; lia]. exists (addr (hhdm_base h) f + o), (osize c). split; [apply HU; left; eauto 10|lia].
    + exists (addr (hhdm_base h) f + 0). split; [|apply frame_at_slab; unfold FRAME_SIZE; lia]. exists (addr (hhdm_base h) p), (FRAME_SIZE * size_of k). split; [apply HU; right; eauto|].
      unfold addr, covers, FRAME_SIZE in *. lia.
  - intros x Hx HF. destruct (Hfr x Hx) as [[e He]|(p & k & Hp & Hc)]; [eapply (held_not_free _ _ _ _ 0 _ (ho_pmm _ _ _ _ _ _ Hok)); [by eapply slab_held|apply covers_self|exact HF]|].
    eapply (held_not_free _ _ _ p k _ (ho_pmm _ _ _ _ _ _ Hok)); [apply elem_of_union; by right|exact Hc|exact HF].
Qed.
