(* ===== verification/HeapUse.v ===== *)
(** * The kernel heap and its callers

    The heap's theorems: allocation and freeing refine the abstract heap of
    HeapSpec.v and lose no frame, and any number of callers that keep to what they were given never see
    each other's memory, nor the heap's own links. *)
From stdpp Require Import prelude numbers list gmap fin_maps.
From S2P Require Import Prelude Bump Pmm Slab HeapSpec.
Open Scope Z_scope.
Set Warnings "-clear-no-such-hyp".

(** ** Callers *)
Inductive HeapOp : Type :=
| HAlloc (size align : Z)
| HFree (a size align : Z)
| HPoke (x b : Z).

(** [live] are the blocks callers were given and have not given back; [shadow] is what
    they last wrote to them. *)
Record Callers : Type := MkCallers { kheap : Heap; memory : Memory; live : list (Z * Z); shadow : gmap Z Z }.

Definition layout_b (size align : Z) : bool :=
  (0 <=? size) && (size <? 2 ^ 64) && (0 <? align) && (align <? 2 ^ 64) && (2 ^ Z.log2 align =? align).
(** What a caller may do: it frees what it was given, with the size and alignment it
    asked for, and writes to what it holds. *)
Definition allowed (w : Callers) (op : HeapOp) : bool :=
  match op with
  | HAlloc size align => layout_b size align
  | HFree a size align => layout_b size align && (align <=? FRAME_SIZE) && bool_decide ((a, granted size align) ∈ live w)
  | HPoke x b => existsb (fun '(a, len) => (a <=? x) && (x <? a + len)) (live w)
  end.
Definition act (w : Callers) (op : HeapOp) : outcome Callers :=
  if negb (allowed w op) then Done w
  else
    match op with
    | HAlloc size align =>
        '(r, (h, m)) ← Heap.allocate size align (kheap w, memory w);
        Done (MkCallers h m (match r with Ok a => (a, granted size align) :: live w | Err _ => live w end) (shadow w))
    | HFree a size align =>
        '(_, (h, m)) ← Heap.free a size align (kheap w, memory w);
        Done (MkCallers h m (filter (fun p => p ≠ (a, granted size align)) (live w))
                (filter (fun '(x, _) => ¬ (a ≤ x < a + granted size align)) (shadow w)))
    | HPoke x b => Done (MkCallers (kheap w) (store (memory w) x b) (live w) (<[x := b]> (shadow w)))
    end.
Fixpoint use (w : Callers) (ops : list HeapOp) : outcome Callers :=
  match ops with [] => Done w | op :: ops' => w ← act w op; use w ops' end.

(** ** What stays true *)
Section Sound.
Context (W : Z → Prop).
Definition given (w : Callers) : Z → Z → Prop := fun a len => (a, len) ∈ live w.
Record sound (w : Callers) : Prop := {
  sd_heap : heap_holds (kheap w) (memory w) W (given w);
  sd_nodup : NoDup (live w);
  sd_shadow x b : shadow w !! x = Some b → held_at (given w) x ∧ memory w x = b
}.

Lemma layout_b_sound size align : layout_b size align = true → layout size align.
Proof.
  unfold layout_b, layout. rewrite !andb_true_iff, !Z.leb_le, !Z.ltb_lt, Z.eqb_eq. tauto.
Qed.
Lemma granted_pos size align : layout size align → 0 < granted size align.
Proof.
  intros (H1 & H2 & _). unfold granted. pose proof (class_for_ok (Heap.effective size align)) as H. destruct (class_for _) as [c|].
  - destruct H as [Hc _]; [unfold Heap.effective; lia|]. destruct (class_geometry c Hc). lia.
  - pose proof (size_of_pos (pages_order size align)). unfold FRAME_SIZE. lia.
Qed.

Lemma act_sound w op : sound w → ∃ w', act w op = Done w' ∧ sound w'.
Proof.
  intros [Hh Hnd Hsh]. unfold act. destruct (allowed w op) eqn:Ha; cbn [negb]; [|by exists w]. destruct op as [size align|a size align|x b]; cbn [allowed] in Ha.
  - apply layout_b_sound in Ha. destruct (heap_allocate_spec _ _ _ _ size align Hh Ha) as (r & h & m & -> & Hr). cbn [mbind outcome_bind]. eexists. split; [done|]. destruct r as [a|e].
    + destruct Hr as (_ & _ & _ & Hfresh & Hkeep & Hh'). split; cbn [live kheap memory shadow].
      * eapply heap_holds_ext; [|exact Hh']. intros a' len'. unfold given. cbn [live]. rewrite elem_of_cons. naive_solver.
      * apply NoDup_cons. split; [|done]. intros Hin. pose proof (granted_pos size align Ha). apply (Hfresh a); [lia|]. exists a, (granted size align). split; [done|lia].
      * intros x b Hx. destruct (Hsh x b Hx) as [Hat Hm]. split; [|by rewrite Hkeep]. destruct Hat as (a' & len' & Hg & Hr'). exists a', len'. split; [|done]. by right.
    + destruct Hr as (-> & -> & _). by split.
  - apply andb_true_iff in Ha as [[Ha Hal]%andb_true_iff Hin%bool_decide_eq_true]. apply layout_b_sound in Ha. apply Z.leb_le in Hal.
    destruct (heap_free_spec _ _ _ _ a size align Hh Ha Hal Hin) as (h & m & -> & Hh' & Hkeep). cbn [mbind outcome_bind]. eexists. split; [done|]. split; cbn [live kheap memory shadow].
    + eapply heap_holds_ext; [|exact Hh']. intros a' len'. unfold given. cbn [live]. rewrite list_elem_of_filter. naive_solver.
    + by apply NoDup_filter.
    + intros x b Hx. apply map_lookup_filter_Some in Hx as [Hx Hout]. destruct (Hsh x b Hx) as [(a' & len' & Hg & Hr') Hm].
      assert (Hne : ¬ (a' = a ∧ len' = granted size align)) by (intros [-> ->]; done). split.
      * exists a', len'. split; [|done]. unfold given. cbn [live]. rewrite list_elem_of_filter. split; [|done]. intros [= -> ->]. by apply Hne.
      * rewrite Hkeep; [done|]. by exists a', len'.
  - apply existsb_exists in Ha as ([a len] & Hin & Hx). apply list_elem_of_In in Hin. apply andb_true_iff in Hx as [Hx1%Z.leb_le Hx2%Z.ltb_lt].
    assert (Hat : held_at (given w) x) by (by exists a, len). eexists. split; [done|]. split; cbn [live kheap memory shadow]; [by apply heap_poke|done|].
    intros y c. destruct (decide (y = x)) as [->|Hne].
    + rewrite lookup_insert_eq. intros [= <-]. unfold store. by rewrite Z.eqb_refl.
    + rewrite lookup_insert_ne by done. intros Hy. unfold store. rewrite (proj2 (Z.eqb_neq _ _)) by done. by apply Hsh.
Qed.

Lemma use_sound ops : ∀ w, sound w → ∃ w', use w ops = Done w' ∧ sound w'.
Proof.
  induction ops as [|op ops IH]; intros w Hw; [by exists w|]. destruct (act_sound w op Hw) as (w1 & H1 & Hw1). cbn [use]. rewrite H1. by apply IH.
Qed.
End Sound.

(** ** The theorems *)

(** The abstract heap is the set of held blocks; taking and giving back one. *)
Definition with_block (U : Z → Z → Prop) (a len : Z) : Z → Z → Prop := fun a' len' => U a' len' ∨ a' = a ∧ len' = len.
Definition without_block (U : Z → Z → Prop) (a len : Z) : Z → Z → Prop := fun a' len' => U a' len' ∧ ¬ (a' = a ∧ len' = len).

(** C7. Allocation refines the abstract heap: a request of any size and any power of two
    as alignment is answered; an answer is an aligned range of the bytes granted, at
    least as many as were asked for, none of which anybody holds; nothing anybody holds
    is written; every frame the heap was given is afterwards free in the frame allocator
    or holds a byte somebody holds, so none is lost; and a refusal changes nothing and has
    one of three reasons: an alignment above a page, a request beyond the largest block,
    or no block of the order needed left in either zone. *)
Theorem heap_allocate_refines h m W U size align : heap_holds h m W U → layout size align →
  ∃ r h' m', Heap.allocate size align (h, m) = Done (r, (h', m')) ∧
    match r with
    | Ok a => size ≤ granted size align ∧ a mod align = 0 ∧ (0 ≤ a ∧ a + granted size align ≤ 2 ^ 64) ∧
        (∀ x, a ≤ x < a + granted size align → ¬ held_at U x) ∧ (∀ x, held_at U x → m' x = m x) ∧
        heap_holds h' m' W (with_block U a (granted size align)) ∧ accounted h' W (with_block U a (granted size align))
    | Err e => h' = h ∧ m' = m ∧
        match e with
        | UnsupportedAlignment _ => FRAME_SIZE < align
        | TooLarge _ => (MAX_ORDER < pages_order size align)%nat
        | HOutOfMemory => exhausted_all (pmm h) (pages_order size align)
        | HNotAllocated => False
        end
    end.
Proof.
  intros Hh Hl. destruct (heap_allocate_spec h m W U size align Hh Hl) as (r & h' & m' & H & Hr). exists r, h', m'. split; [done|]. destruct r; [|done].
  destruct Hr as (H1 & H2 & H3 & H4 & H5 & H6). split_and!; try done; try apply H3. by eapply heap_accounted.
Qed.

(** C8. Freeing refines the abstract heap: what is held, given back with the size and
    alignment it was asked for, is accepted and no longer held; nothing that is still
    held is written; and every frame of the heap that no longer holds a byte of anybody,
    an emptied slab's included, is free in the frame allocator again. *)
Theorem heap_free_refines h m W U a size align : heap_holds h m W U → layout size align → align ≤ FRAME_SIZE → U a (granted size align) →
  ∃ h' m', Heap.free a size align (h, m) = Done (Ok tt, (h', m')) ∧
    heap_holds h' m' W (without_block U a (granted size align)) ∧ accounted h' W (without_block U a (granted size align)) ∧
    ∀ x, held_at (without_block U a (granted size align)) x → m' x = m x.
Proof.
  intros Hh Hl Hal Hu. destruct (heap_free_spec h m W U a size align Hh Hl Hal Hu) as (h' & m' & H & H1 & H2). exists h', m'. split_and!; try done. by eapply heap_accounted.
Qed.

(** C9. Memory from the heap is private. Whatever callers allocate, write and give back,
    in whatever order, the heap never panics, no block is given out twice, no two
    blocks share a byte, and every byte a caller has written to a block it holds is
    what it wrote, although the heap keeps its own links in the same pages. *)
Theorem heap_memory_is_private s F base m ops :
  represents s F ∅ → 0 ≤ base → base mod FRAME_SIZE = 0 → base + frames_len s * FRAME_SIZE ≤ 2 ^ 64 →
  ∃ w, use (MkCallers (Heap.new s base) m [] ∅) ops = Done w ∧ NoDup (live w) ∧
    (∀ a len a' len' x, (a, len) ∈ live w → (a', len') ∈ live w → a ≤ x < a + len → a' ≤ x < a' + len' → a' = a ∧ len' = len) ∧
    ∀ x b, shadow w !! x = Some b → memory w x = b.
Proof.
  intros Hr H0 H1 H2. destruct (use_sound F ops (MkCallers (Heap.new s base) m [] ∅)) as (w & Hw & [S1 S2 S3]).
  - split; cbn [live kheap memory shadow]; [|apply NoDup_nil_2|by intros x b E; rewrite lookup_empty in E].
    eapply heap_holds_ext; [|by eapply heap_new_holds]. intros a len. unfold given. cbn [live]. by rewrite elem_of_nil.
  - exists w. split_and!; [done|done| |intros x b Hx; by apply S3]. intros a len a' len' x Ha Ha'. by apply (heap_held_apart _ _ _ _ a len a' len' x S1).
Qed.

(** Four free frames, a page table's base at 1 MiB, and memory full of noise. *)
Definition demo_heap : Heap := Heap.new four_free (2 ^ 20).
Definition noise : Memory := fun x => x mod 251.

Lemma demo_heap_holds : heap_holds demo_heap noise (fun f => 0 ≤ f < 4) (fun _ _ => False).
Proof. apply (heap_new_holds four_free _ (2 ^ 20) noise four_free_represents); vm_compute; congruence. Qed.
Lemma demo_layout : layout 100 8.
Proof. unfold layout. cbn. lia. Qed.

Lemma heap_allocate_refines_witness : ∃ r h' m', Heap.allocate 100 8 (demo_heap, noise) = Done (r, (h', m')) ∧
  match r with Ok a => a = 2 ^ 20 ∧ heap_holds h' m' (fun f => 0 ≤ f < 4) (fun a' len' => False ∨ a' = a ∧ len' = 128) | Err _ => False end.
Proof.
  destruct (heap_allocate_refines demo_heap noise _ _ 100 8 demo_heap_holds demo_layout) as (r & h' & m' & H & Hr). exists r, h', m'. split; [exact H|].
  pose proof (f_equal (fun o => match o with Done (Ok a, _) => a | _ => 0 end) H) as E. vm_compute in E. destruct r as [a|e]; [|discriminate E].
  split; [symmetry; exact E|apply Hr].
Defined.

Lemma heap_free_refines_witness : ∃ h m, heap_holds h m (fun f => 0 ≤ f < 4) (fun a' len' => False ∨ a' = 2 ^ 20 ∧ len' = 128) ∧
  ∃ h' m', Heap.free (2 ^ 20) 100 8 (h, m) = Done (Ok tt, (h', m')) ∧ accounted h' (fun f => 0 ≤ f < 4) (without_block (fun a' len' => False ∨ a' = 2 ^ 20 ∧ len' = 128) (2 ^ 20) 128).
Proof.
  destruct (heap_allocate_spec demo_heap noise _ _ 100 8 demo_heap_holds demo_layout) as (r & h & m & H & Hr). exists h, m.
  assert (E : r = Ok (2 ^ 20)).
  { pose proof (f_equal (fun o => match o with Done (r, _) => r | _ => Err HNotAllocated end) H) as E. vm_compute in E |- *. symmetry. exact E. }
  subst r. destruct Hr as (_ & _ & _ & _ & _ & Hh). split; [exact Hh|].
  destruct (heap_free_refines h m _ _ (2 ^ 20) 100 8 Hh demo_layout) as (h' & m' & Hf & _ & Ha & _); [vm_compute; congruence|right; split; reflexivity|].
  exists h', m'. split; [exact Hf|exact Ha].
Defined.

Definition demo_uses : list HeapOp := [HAlloc 100 8; HAlloc 2000 16; HPoke (2 ^ 20) 7; HPoke (2 ^ 20 + 1) 9; HAlloc 5000 4096; HFree (2 ^ 20 + 4096) 2000 16].
Lemma heap_memory_is_private_witness : ∃ w, use (MkCallers demo_heap noise [] ∅) demo_uses = Done w ∧ memory w (2 ^ 20) = 7.
Proof.
  destruct (heap_memory_is_private four_free (fun f => 0 ≤ f < 4) (2 ^ 20) noise demo_uses) as (w & Hw & _ & _ & Hs);
    [exact four_free_represents|vm_compute; congruence|vm_compute; reflexivity|vm_compute; congruence|].
  exists w. split; [exact Hw|]. apply Hs.
  pose proof (f_equal (fun o => match o with Done w => shadow w !! (2 ^ 20) | _ => None end) Hw) as E. cbv beta iota in E. rewrite <- E. vm_compute. reflexivity.
Defined.

(** ** A pointer that is not from a slab *)

(** Freeing with a size of at most 16 bytes a pointer into whole pages is not refused
    as not belonging to a slab, because a frame that is no slab reads as one of the
    first class: the page goes back to the buddy allocator while its holder still
    holds it, and the next request for a page gets it too. *)
Theorem foreign_pointer_accepted :
  match (_ ←! Heap.allocate 16 1; a ←! Heap.allocate 4096 1; _ ←! Heap.free a 16 1; b ←! Heap.allocate 4096 1; pret (a, b)) (demo_heap, noise) with
  | Done (Ok (a, b), _) => a = b
  | _ => False
  end.
Proof. vm_compute. reflexivity. Qed.
