(* ===== verification/Vm.v ===== *)
(** * Virtual memory regions

    Models src/mm/src/vm.rs: the region map that decides whether a memory
    access is legal.  A [RangeMap] is a sorted vector of regions with binary
    search; growing the vector asks the allocator and may be refused.  The
    theorems read the map as a function from addresses to attributes. *)
From stdpp Require Import prelude numbers list sorting.
From S2P Require Import Prelude Handoff Bump.
Open Scope Z_scope.
Set Warnings "-clear-no-such-hyp".

Definition PAGE_SIZE : Z := 4096.

Inductive Protection : Type := PNone | ReadOnly | ReadWrite | ReadExecute.

#[global] Instance Protection_eq_dec : EqDecision Protection.
Proof. solve_decision. Defined.

Module Protection.
Definition readable (p : Protection) : bool := negb (bool_decide (p = PNone)).
Definition writable (p : Protection) : bool := bool_decide (p = ReadWrite).
Definition executable (p : Protection) : bool := bool_decide (p = ReadExecute).
Definition present (p : Protection) : bool := negb (bool_decide (p = PNone)).
End Protection.

Record VirtRange : Type := MkRange { start : Z; stop : Z }.

#[global] Instance VirtRange_eq_dec : EqDecision VirtRange.
Proof. solve_decision. Defined.

Module VirtRange.

Definition new (start' end' : Z) : option VirtRange :=
  if end' <=? start' then None
  else if negb (start' mod PAGE_SIZE =? 0) || negb (end' mod PAGE_SIZE =? 0) then None
  else Some (MkRange start' end').

(** [u64::checked_mul] and [u64::checked_add]: [None] when the result does not fit. *)
Definition checked_u64 (x : Z) : option Z := if x <? 2 ^ 64 then Some x else None.

Definition from_pages (start' pages : Z) : option VirtRange :=
  bytes ← checked_u64 (pages * PAGE_SIZE);
  end' ← checked_u64 (start' + bytes);
  new start' end'.

Definition len (r : VirtRange) : outcome Z := sub_checked 64 (stop r) (start r).
Definition is_empty (r : VirtRange) : outcome bool := n ← len r; Done (n =? 0).
Definition pages (r : VirtRange) : outcome Z := n ← len r; Done (n / PAGE_SIZE).
Definition contains (r : VirtRange) (address : Z) : bool := (start r <=? address) && (address <? stop r).
Definition overlaps (r other : VirtRange) : bool := (start r <? stop other) && (start other <? stop r).

End VirtRange.

Inductive Backing : Type :=
| Anonymous | Direct (physical : Z) | BReserved | Shared (object : Z).

#[global] Instance Backing_eq_dec : EqDecision Backing.
Proof. solve_decision. Defined.

Record RegionFlags : Type := MkFlags { copy_on_write : bool; locked : bool; populate : bool }.

Record VmRegion : Type := MkRegion {
  range : VirtRange; protection : Protection; backing : Backing; flags : RegionFlags
}.

Definition region_new (r : VirtRange) (p : Protection) (b : Backing) : VmRegion :=
  MkRegion r p b (MkFlags false false false).

Inductive RangeMapError : Type := Overlaps (i : nat) | NotFound | VmOutOfMemory.

#[global] Instance RangeMapError_eq_dec : EqDecision RangeMapError.
Proof. solve_decision. Defined.

(** The vector: its contents and its capacity. *)
Record RangeMap : Type := MkMap { vregions : list VmRegion; capacity : nat }.

Inductive MapInvariantError : Type := OutOfOrder | CoversNoPages.

Module RangeMap.
Section RangeMap.

(** The allocator behind [Vec::try_reserve]: given a capacity and the length
    needed, a new capacity or a refusal. *)
Context (grow : nat → nat → option nat).

Definition new : RangeMap := MkMap [] 0.

(** [Vec::try_reserve]: nothing to do when the spare capacity is enough. *)
Definition try_reserve (self : RangeMap) (extra : nat) : result RangeMap RangeMapError :=
  let needed := (length (vregions self) + extra)%nat in
  if decide (needed ≤ capacity self)%nat then Ok self
  else match grow (capacity self) needed with
       | Some cap => Ok (MkMap (vregions self) cap)
       | None => Err VmOutOfMemory
       end.

(** The binary search of [index_of]. *)
Fixpoint search (fuel : nat) (rs : list VmRegion) (address : Z) (low high : nat) : outcome nat :=
  match fuel with
  | O => OutOfFuel
  | S fuel' =>
      if decide (low < high)%nat then
        let mid := ((low + high) / 2)%nat in
        r ← at_index rs mid;
        if start (range r) <=? address then search fuel' rs address (S mid) high
        else search fuel' rs address low mid
      else Done low
  end.

Definition index_of (self : RangeMap) (address : Z) : outcome (option nat) :=
  let n := length (vregions self) in
  low ← search (S n) (vregions self) address 0 n;
  match low with
  | O => Done None
  | S candidate =>
      r ← at_index (vregions self) candidate;
      if VirtRange.contains (range r) address then Done (Some candidate) else Done None
  end.

Definition find (self : RangeMap) (address : Z) : outcome (option VmRegion) :=
  i ← index_of self address;
  match i with
  | None => Done None
  | Some i => r ← at_index (vregions self) i; Done (Some r)
  end.

(** [partition_point] on a vector sorted by start. *)
Definition partition_point (p : VmRegion → bool) (rs : list VmRegion) : nat :=
  match position (fun r => negb (p r)) rs with Some i => i | None => length rs end.

(** [Vec::insert]. *)
Definition vec_insert (i : nat) (x : VmRegion) (rs : list VmRegion) : list VmRegion :=
  take i rs ++ x :: drop i rs.

Definition overlaps_at (rs : list VmRegion) (i : nat) (r : VirtRange) : bool :=
  match rs !! i with Some e => VirtRange.overlaps (range e) r | None => false end.

Definition insert (self : RangeMap) (region : VmRegion) : result unit RangeMapError * RangeMap :=
  let rs := vregions self in
  let position' := partition_point (fun e => start (range e) <? start (range region)) rs in
  if bool_decide (0 < position')%nat && overlaps_at rs (position' - 1) (range region)
  then (Err (Overlaps (position' - 1)), self)
  else if bool_decide (position' < length rs)%nat && overlaps_at rs position' (range region)
  then (Err (Overlaps position'), self)
  else match try_reserve self 1 with
       | Err e => (Err e, self)
       | Ok self => (Ok tt, MkMap (vec_insert position' region (vregions self)) (capacity self))
       end.

Definition remove (self : RangeMap) (start' : Z) : result VmRegion RangeMapError * RangeMap :=
  match position (fun r => start (range r) =? start') (vregions self) with
  | None => (Err NotFound, self)
  | Some i =>
      match vregions self !! i with
      | None => (Err NotFound, self)
      | Some r => (Ok r, MkMap (delete i (vregions self)) (capacity self))
      end
  end.

Definition with_range (r : VmRegion) (v : VirtRange) : VmRegion :=
  MkRegion v (protection r) (backing r) (flags r).

(** [insert(piece)?] for an optional piece. *)
Definition insert_piece (self : RangeMap) (piece : option VmRegion) : result unit RangeMapError * RangeMap :=
  match piece with None => (Ok tt, self) | Some p => insert self p end.

Definition reprotect (self : RangeMap) (start' pages : Z) (protection' : Protection)
    : outcome (result VirtRange RangeMapError * RangeMap) :=
  match VirtRange.from_pages start' pages with
  | None => Done (Err NotFound, self)
  | Some wanted =>
      found ← find self start';
      match found with
      | None => Done (Err NotFound, self)
      | Some region =>
          if (start wanted <? start (range region)) || (stop (range region) <? stop wanted)
          then Done (Err NotFound, self)
          else
            let head := if start (range region) <? start wanted
              then VirtRange.from_pages (start (range region))
                     ((start wanted - start (range region)) / FRAME_SIZE) else None in
            let tail := if stop wanted <? stop (range region)
              then VirtRange.from_pages (stop wanted)
                     ((stop (range region) - stop wanted) / FRAME_SIZE) else None in
            let extra := ((if head is Some _ then 1 else 0) + (if tail is Some _ then 1 else 0))%nat in
            match try_reserve self extra with
            | Err e => Done (Err e, self)
            | Ok self =>
                match remove self (start (range region)) with
                | (Err e, self) => Done (Err e, self)
                | (Ok _, self) =>
                    match insert self (MkRegion wanted protection' (backing region) (flags region)) with
                    | (Err e, self) => Done (Err e, self)
                    | (Ok _, self) =>
                        match insert_piece self (with_range region <$> head) with
                        | (Err e, self) => Done (Err e, self)
                        | (Ok _, self) =>
                            match insert_piece self (with_range region <$> tail) with
                            | (Err e, self) => Done (Err e, self)
                            | (Ok _, self) => Done (Ok wanted, self)
                            end
                        end
                    end
                end
            end
      end
  end.

Definition len (self : RangeMap) : nat := length (vregions self).

Definition orphaned (r : VmRegion) : VmRegion :=
  MkRegion (range r) (protection r) Anonymous (MkFlags false (locked (flags r)) false).

Definition orphan_shared (self : RangeMap) (start' object : Z) : result VmRegion RangeMapError * RangeMap :=
  match position (fun r => start (range r) =? start') (vregions self) with
  | None => (Err NotFound, self)
  | Some i =>
      match vregions self !! i with
      | None => (Err NotFound, self)
      | Some r =>
          if negb (bool_decide (backing r = Shared object)) then (Err NotFound, self)
          else (Ok (orphaned r), MkMap (<[i := orphaned r]> (vregions self)) (capacity self))
      end
  end.

Definition drain (self : RangeMap) : list VmRegion * RangeMap := (vregions self, new).

(** The loop of [find_free] with the tail after it. *)
Fixpoint free_loop (rs : list VmRegion) (candidate high needed pages : Z) : option VirtRange :=
  match rs with
  | [] =>
      if needed <=? saturating_sub high candidate then VirtRange.from_pages candidate pages else None
  | r :: rs' =>
      if stop (range r) <=? candidate then free_loop rs' candidate high needed pages
      else if high <=? start (range r) then
        if needed <=? saturating_sub high candidate then VirtRange.from_pages candidate pages else None
      else if needed <=? saturating_sub (start (range r)) candidate
      then VirtRange.from_pages candidate pages
      else free_loop rs' (Z.max candidate (stop (range r))) high needed pages
  end.

Definition find_free (self : RangeMap) (low high pages : Z) : option VirtRange :=
  needed ← VirtRange.checked_u64 (pages * PAGE_SIZE);
  free_loop (vregions self) low high needed pages.

Fixpoint check_order (rs : list VmRegion) : bool :=
  match rs with
  | a :: ((b :: _) as rs') => negb (start (range b) <? stop (range a)) && check_order rs'
  | _ => true
  end.

Fixpoint check_nonempty (rs : list VmRegion) : outcome (result unit MapInvariantError) :=
  match rs with
  | [] => Done (Ok tt)
  | r :: rs' => e ← VirtRange.is_empty (range r);
                if (e : bool) then Done (Err CoversNoPages) else check_nonempty rs'
  end.

Definition check_invariants (self : RangeMap) : outcome (result unit MapInvariantError) :=
  if negb (check_order (vregions self)) then Done (Err OutOfOrder)
  else check_nonempty (vregions self).

End RangeMap.
End RangeMap.

(** ** Well formed maps, and the map as a function *)

Definition range_ok (r : VirtRange) : Prop :=
  0 ≤ start r < stop r ∧ stop r < 2 ^ 64 ∧ start r mod PAGE_SIZE = 0 ∧ stop r mod PAGE_SIZE = 0.

Definition precedes (a b : VmRegion) : Prop := stop (range a) ≤ start (range b).

Definition sorted_regions (rs : list VmRegion) : Prop :=
  StronglySorted precedes rs ∧ ∀ r, r ∈ rs → range_ok (range r).

Definition wf (m : RangeMap) : Prop := sorted_regions (vregions m).

Definition within (a : Z) (v : VirtRange) : Prop := start v ≤ a < stop v.

#[global] Instance within_dec a v : Decision (within a v).
Proof. unfold within. apply _. Defined.

(** The region at an address. *)
Fixpoint region_at (rs : list VmRegion) (a : Z) : option VmRegion :=
  match rs with
  | [] => None
  | r :: rs' => if decide (within a (range r)) then Some r else region_at rs' a
  end.

(** Its attributes: what the fault handler acts on. *)
Definition attrs (r : VmRegion) : Protection * Backing * RegionFlags := (protection r, backing r, flags r).
Definition attrs_at (m : RangeMap) (a : Z) : option (Protection * Backing * RegionFlags) :=
  attrs <$> region_at (vregions m) a.

Definition apart (u v : VirtRange) : Prop := stop u ≤ start v ∨ stop v ≤ start u.

Lemma contains_within v a : VirtRange.contains v a = bool_decide (within a v).
Proof.
  unfold VirtRange.contains, within. case_bool_decide as H; [apply andb_true_iff|apply andb_false_iff];
    rewrite ?Z.leb_le, ?Z.ltb_lt, ?Z.leb_gt, ?Z.ltb_ge; lia.
Qed.

Lemma overlaps_apart u v : VirtRange.overlaps u v = false ↔ apart u v.
Proof. unfold VirtRange.overlaps, apart. rewrite andb_false_iff, !Z.ltb_ge. lia. Qed.

Lemma sorted_app l1 l2 :
  sorted_regions (l1 ++ l2) ↔
  sorted_regions l1 ∧ sorted_regions l2 ∧ ∀ a b, a ∈ l1 → b ∈ l2 → precedes a b.
Proof.
  unfold sorted_regions. rewrite StronglySorted_app. setoid_rewrite elem_of_app. naive_solver.
Qed.

Lemma sorted_cons r l :
  sorted_regions (r :: l) ↔ range_ok (range r) ∧ sorted_regions l ∧ ∀ b, b ∈ l → precedes r b.
Proof.
  rewrite (sorted_app [r] l). unfold sorted_regions. setoid_rewrite list_elem_of_singleton.
  split; [naive_solver|]. intros (? & ? & ?). split_and!; try naive_solver. repeat constructor.
Qed.

(** Two regions of a well formed map that share an address are the same. *)
Lemma sorted_apart rs a b :
  sorted_regions rs → a ∈ rs → b ∈ rs → a = b ∨ apart (range a) (range b).
Proof.
  induction rs as [|r rs IH]; intros Hs Ha Hb; [by apply elem_of_nil in Ha|].
  apply sorted_cons in Hs as (_ & Hs & Hp). unfold apart.
  apply elem_of_cons in Ha as [->|Ha]; apply elem_of_cons in Hb as [->|Hb].
  - by left.
  - right. left. by apply Hp.
  - right. right. by apply Hp.
  - by apply IH.
Qed.

Lemma region_at_elem rs a r :
  sorted_regions rs → region_at rs a = Some r ↔ r ∈ rs ∧ within a (range r).
Proof.
  induction rs as [|x rs IH]; intros Hs; simpl.
  { split; [done|]. by intros [?%elem_of_nil _]. }
  pose proof Hs as (Hx & Hs' & Hp)%sorted_cons. case_decide as Hw.
  - split; [intros [= <-]; split; [left|done]|]. intros [Hr Hw'].
    destruct (sorted_apart _ x r Hs) as [->|Hap]; [left|done|done|]. unfold apart, within in *. lia.
  - rewrite IH by done. rewrite elem_of_cons. naive_solver.
Qed.

Lemma region_at_perm rs rs' a :
  sorted_regions rs → sorted_regions rs' → rs ≡ₚ rs' → region_at rs a = region_at rs' a.
Proof.
  intros Hs Hs' Hp. apply option_eq. intros r. rewrite !region_at_elem by done. by rewrite Hp.
Qed.

Lemma from_pages_spec s n v :
  0 ≤ s → 0 ≤ n → VirtRange.from_pages s n = Some v ↔
    v = MkRange s (s + n * PAGE_SIZE) ∧ 0 < n ∧ s mod PAGE_SIZE = 0 ∧ s + n * PAGE_SIZE < 2 ^ 64.
Proof.
  intros Hs Hn. unfold VirtRange.from_pages, VirtRange.checked_u64, VirtRange.new, PAGE_SIZE.
  destruct (Z.ltb_spec (n * 4096) (2 ^ 64)) as [H1|H1]; simpl; [|split; [done|lia]].
  destruct (Z.ltb_spec (s + n * 4096) (2 ^ 64)) as [H2|H2]; simpl; [|split; [done|lia]].
  destruct (Z.leb_spec (s + n * 4096) s) as [H3|H3]; [split; [done|lia]|].
  rewrite Z.mod_add by done. destruct (Z.eqb_spec (s mod 4096) 0); simpl; [|split; [done|lia]].
  split; [intros [= <-]; split; [done|lia]|]. by intros (-> & _).
Qed.

Lemma from_pages_ok s n v : 0 ≤ s → 0 ≤ n → VirtRange.from_pages s n = Some v → range_ok v ∧ start v = s.
Proof.
  intros Hs Hn (-> & H0 & Hm & Hlt)%from_pages_spec; try done. unfold range_ok. simpl.
  rewrite Z.mod_add by done. unfold PAGE_SIZE in *. split; [|done]. lia.
Qed.

(** ** Search *)

Lemma sorted_starts rs i j a b :
  sorted_regions rs → (i ≤ j)%nat → rs !! i = Some a → rs !! j = Some b → start (range a) ≤ start (range b).
Proof.
  revert i j; induction rs as [|r rs IH]; intros i j Hs Hij Ha Hb; [done|].
  apply sorted_cons in Hs as (Hr & Hs & Hp). destruct i as [|i], j as [|j]; simpl in *; try lia; simplify_eq.
  - lia.
  - apply list_elem_of_lookup_2 in Hb. specialize (Hp b Hb). unfold precedes, range_ok in *. lia.
  - apply (IH i j); try done. lia.
Qed.

Lemma search_spec fuel rs a : ∀ low high,
  sorted_regions rs → (low ≤ high ≤ length rs)%nat → (high - low < fuel)%nat →
  (∀ i r, (i < low)%nat → rs !! i = Some r → start (range r) ≤ a) →
  (∀ i r, (high ≤ i)%nat → rs !! i = Some r → a < start (range r)) →
  ∃ k, RangeMap.search fuel rs a low high = Done k ∧ (k ≤ length rs)%nat ∧
    (∀ i r, (i < k)%nat → rs !! i = Some r → start (range r) ≤ a) ∧
    (∀ i r, (k ≤ i)%nat → rs !! i = Some r → a < start (range r)).
Proof.
  induction fuel as [|fuel IH]; intros low high Hs Hb Hf Hlo Hhi; [lia|]. cbn [RangeMap.search].
  case_decide as Hlt.
  2: { exists low. split_and!; try done; [lia|]. intros i r Hi. apply Hhi. lia. }
  pose proof (Nat.div_mod (low + high) 2). pose proof (Nat.mod_upper_bound (low + high) 2).
  set (mid := ((low + high) / 2)%nat) in *.
  destruct (lookup_lt_is_Some_2 rs mid) as [r Hr]; [lia|]. rewrite (at_index_ok _ _ _ Hr). cbn [mbind outcome_bind].
  destruct (Z.leb_spec (start (range r)) a) as [Hle|Hgt].
  - apply IH; try done; try lia. intros i r' Hi Hr'.
    pose proof (sorted_starts rs i mid r' r Hs ltac:(lia) Hr' Hr). lia.
  - apply IH; try done; try lia. intros i r' Hi Hr'.
    pose proof (sorted_starts rs mid i r r' Hs ltac:(lia) Hr Hr'). lia.
Qed.

Lemma find_spec m a : wf m → RangeMap.find m a = Done (region_at (vregions m) a).
Proof.
  intros Hs. unfold RangeMap.find, RangeMap.index_of.
  destruct (search_spec (S (length (vregions m))) (vregions m) a 0 (length (vregions m)) Hs)
    as (k & -> & Hk & Hlo & Hhi); [lia|lia|lia| |].
  { intros i r Hi Hr. apply lookup_lt_Some in Hr. lia. }
  cbn [mbind outcome_bind]. destruct k as [|k].
  - cbn [mbind outcome_bind]. symmetry. f_equal. apply eq_None_not_Some. intros [r Hr].
    apply region_at_elem in Hr as [[i Hi]%list_elem_of_lookup Hw]; [|done].
    specialize (Hhi i r ltac:(lia) Hi). unfold within in Hw. lia.
  - destruct (lookup_lt_is_Some_2 (vregions m) k) as [r Hr]; [lia|].
    rewrite (at_index_ok _ _ _ Hr). cbn [mbind outcome_bind]. rewrite contains_within.
    case_bool_decide as Hw; cbn [mbind outcome_bind].
    + rewrite (at_index_ok _ _ _ Hr). cbn [mbind outcome_bind]. do 2 f_equal. symmetry.
      apply region_at_elem; [done|]. split; [by eapply list_elem_of_lookup_2|done].
    + f_equal. symmetry. apply eq_None_not_Some. intros [r' Hr'].
      apply region_at_elem in Hr' as [[i Hi]%list_elem_of_lookup Hw']; [|done]. unfold within in *.
      destruct (decide (i ≤ k)%nat) as [Hik|Hik]; [|specialize (Hhi i r' ltac:(lia) Hi); lia].
      destruct (decide (i = k)) as [->|Hne]; [by simplify_eq|].
      pose proof (Hlo k r ltac:(lia) Hr).
      destruct (sorted_apart _ r' r Hs) as [->|Hap]; [by eapply list_elem_of_lookup_2..|lia|].
      pose proof (sorted_starts _ i k r' r Hs ltac:(lia) Hi Hr). unfold apart in Hap.
      destruct Hs as [_ Hok]. destruct (Hok r (list_elem_of_lookup_2 _ _ _ Hr)) as [? _]. lia.
Qed.

Lemma sorted_NoDup rs : sorted_regions rs → NoDup rs.
Proof.
  induction rs as [|x l IH]; intros Hs; [constructor|]. apply sorted_cons in Hs as (Hx & Hl & Hp).
  constructor; [|by apply IH]. intros Hin. specialize (Hp x Hin). unfold precedes, range_ok in *. lia.
Qed.

(** What is left when a region is taken out is apart from it. *)
Lemma sorted_rest_apart rs x rest r :
  sorted_regions rs → rs ≡ₚ x :: rest → r ∈ rest → apart (range r) (range x).
Proof.
  intros Hs Hp Hr. pose proof (sorted_NoDup rs Hs) as Hnd. rewrite Hp in Hnd. apply NoDup_cons in Hnd as [Hn _].
  destruct (sorted_apart rs r x Hs) as [->|?]; [rewrite Hp; by right|rewrite Hp; left|done|done].
Qed.

(** ** Insertion and removal *)

Lemma partition_point_spec p rs :
  let k := RangeMap.partition_point p rs in
  (k ≤ length rs)%nat ∧ (∀ i r, (i < k)%nat → rs !! i = Some r → p r = true) ∧
  (∀ r, rs !! k = Some r → p r = false).
Proof.
  unfold RangeMap.partition_point. destruct (position _ rs) as [k|] eqn:Hp; simpl.
  - apply position_some in Hp as [(x & Hx & Hpx) Hmin]. split_and!.
    + apply lookup_lt_Some in Hx. lia.
    + intros i r Hi Hr. apply negb_false_iff. by apply (Hmin i).
    + intros r Hr. simplify_eq. by apply negb_true_iff.
  - rewrite position_none in Hp. split_and!; [done| |].
    + intros i r Hi Hr. apply negb_false_iff. by apply (Hp i).
    + intros r Hr. apply lookup_lt_Some in Hr. lia.
Qed.

Lemma vec_insert_perm i x rs : RangeMap.vec_insert i x rs ≡ₚ x :: rs.
Proof. unfold RangeMap.vec_insert. rewrite <- Permutation_middle, take_drop. done. Qed.

(** Inserting at the partition point keeps the vector sorted as soon as the two
    neighbours are clear. *)
Lemma insert_sorted rs x :
  let k := RangeMap.partition_point (fun e => start (range e) <? start (range x)) rs in
  sorted_regions rs → range_ok (range x) →
  (∀ r, (0 < k)%nat → rs !! (k - 1)%nat = Some r → apart (range r) (range x)) →
  (∀ r, rs !! k = Some r → apart (range r) (range x)) →
  sorted_regions (RangeMap.vec_insert k x rs).
Proof.
  intros k Hs Hx Hl Hr.
  destruct (partition_point_spec (fun e => start (range e) <? start (range x)) rs) as (Hk & Hlo & Hhi). fold k in Hk, Hlo, Hhi.
  assert (Hok : ∀ i r, rs !! i = Some r → range_ok (range r)).
  { intros i r Hi. apply Hs. by eapply list_elem_of_lookup_2. }
  pose proof Hs as Hs'. rewrite <- (take_drop k rs) in Hs'. apply sorted_app in Hs' as (H1 & H2 & H12).
  unfold RangeMap.vec_insert. apply sorted_app. split_and!; [done| |].
  - apply sorted_cons. split_and!; [done|done|]. intros b [j Hj]%list_elem_of_lookup. rewrite lookup_drop in Hj.
    destruct (lookup_lt_is_Some_2 rs k) as [r Hrk]; [apply lookup_lt_Some in Hj; lia|].
    specialize (Hr r Hrk). specialize (Hhi r Hrk). apply Z.ltb_ge in Hhi. pose proof (Hok _ _ Hrk) as [? _].
    pose proof (sorted_starts rs k (k + j) r b Hs ltac:(lia) Hrk Hj). unfold precedes, apart, range_ok in *. lia.
  - intros a b [i Hi]%list_elem_of_lookup Hb. apply lookup_take_Some in Hi as [Hi Hik].
    assert (Hax : precedes a x).
    { destruct (lookup_lt_is_Some_2 rs (k - 1)) as [r Hrk]; [lia|].
      specialize (Hl r ltac:(lia) Hrk). pose proof (Hlo (k - 1)%nat r ltac:(lia) Hrk) as Hlt. apply Z.ltb_lt in Hlt.
      pose proof (Hok _ _ Hi) as [? _]. pose proof (Hok _ _ Hrk) as [? _].
      destruct (decide (i = k - 1)%nat) as [->|]; [simplify_eq; unfold precedes, apart, range_ok in *; lia|].
      pose proof (sorted_starts rs i (k - 1) a r Hs ltac:(lia) Hi Hrk).
      destruct (sorted_apart rs a r Hs) as [->|Hap]; [by eapply list_elem_of_lookup_2..| |];
        unfold precedes, apart, range_ok in *; lia. }
    apply elem_of_cons in Hb as [->|Hb]; [done|]. apply H12; [|done].
    apply list_elem_of_lookup. exists i. rewrite lookup_take_Some. done.
Qed.

Lemma overlaps_at_false rs i r v :
  rs !! i = Some r → RangeMap.overlaps_at rs i v = false ↔ apart (range r) v.
Proof. intros Hr. unfold RangeMap.overlaps_at. rewrite Hr. apply overlaps_apart. Qed.

Lemma overlaps_at_true rs i v :
  RangeMap.overlaps_at rs i v = true → ∃ r, rs !! i = Some r ∧ ¬ apart (range r) v.
Proof.
  unfold RangeMap.overlaps_at. destruct (rs !! i) as [r|] eqn:Hr; [|done]. intros Ho. exists r.
  split; [done|]. rewrite <- overlaps_apart. by rewrite Ho.
Qed.

Section Growth.

Context (grow : nat → nat → option nat).

(** [Vec::try_reserve] promises room for what was asked when it succeeds. *)
Definition grow_enough : Prop := ∀ cap need cap', grow cap need = Some cap' → (need ≤ cap')%nat.

(** The three ways an insertion ends. *)
Lemma insert_spec m x :
  wf m → range_ok (range x) →
  match RangeMap.insert grow m x with
  | (Ok _, m') => wf m' ∧ vregions m' ≡ₚ x :: vregions m ∧ (∀ r, r ∈ vregions m → apart (range r) (range x))
  | (Err (Overlaps i), m') => m' = m ∧ ∃ r, vregions m !! i = Some r ∧ ¬ apart (range r) (range x)
  | (Err VmOutOfMemory, m') => m' = m ∧ (capacity m ≤ length (vregions m))%nat ∧
      grow (capacity m) (length (vregions m) + 1) = None
  | (Err NotFound, _) => False
  end.
Proof.
  intros Hs Hx. unfold RangeMap.insert. set (k := RangeMap.partition_point _ (vregions m)).
  destruct (partition_point_spec (fun e => start (range e) <? start (range x)) (vregions m)) as (Hk & _ & _). fold k in Hk.
  destruct (bool_decide (0 < k)%nat && RangeMap.overlaps_at (vregions m) (k - 1) (range x)) eqn:H1.
  { apply andb_true_iff in H1 as [_ H1]. split; [done|]. by apply overlaps_at_true. }
  destruct (bool_decide (k < length (vregions m))%nat && RangeMap.overlaps_at (vregions m) k (range x)) eqn:H2.
  { apply andb_true_iff in H2 as [_ H2]. split; [done|]. by apply overlaps_at_true. }
  assert (Hsorted : sorted_regions (RangeMap.vec_insert k x (vregions m))).
  { apply insert_sorted; try done.
    - intros r H0 Hr. rewrite bool_decide_true in H1 by done. by apply (overlaps_at_false _ _ _ _ Hr).
    - intros r Hr. rewrite bool_decide_true in H2 by (by eapply lookup_lt_Some).
      by apply (overlaps_at_false _ _ _ _ Hr). }
  assert (Happ : ∀ r, r ∈ vregions m → apart (range r) (range x)).
  { intros r Hr. unfold RangeMap.vec_insert in Hsorted. apply sorted_app in Hsorted as (_ & Hs2 & H12).
    apply sorted_cons in Hs2 as (_ & _ & Hp). rewrite <- (take_drop k (vregions m)) in Hr.
    apply elem_of_app in Hr as [Hr|Hr]; [left; apply H12; [done|left]|right; by apply Hp]. }
  unfold RangeMap.try_reserve. destruct (decide (length (vregions m) + 1 ≤ capacity m)%nat) as [Hc|Hc].
  - split; [done|]. split; [apply vec_insert_perm|done].
  - destruct (grow _ _) as [cap|] eqn:Hg.
    + split; [done|]. split; [apply vec_insert_perm|done].
    + split; [done|]. split; [lia|done].
Qed.

(** With room and no conflict an insertion succeeds. *)
Lemma insert_ok m x :
  wf m → range_ok (range x) → (∀ r, r ∈ vregions m → apart (range r) (range x)) →
  (length (vregions m) < capacity m)%nat →
  ∃ rs, RangeMap.insert grow m x = (Ok tt, MkMap rs (capacity m)) ∧ sorted_regions rs ∧ rs ≡ₚ x :: vregions m.
Proof.
  intros Hs Hx Hap Hc. pose proof (insert_spec m x Hs Hx) as Hi.
  destruct (RangeMap.insert grow m x) as [[[]|[i| |]] m'] eqn:He; [|exfalso..].
  - destruct Hi as (Hwf & Hp & _). unfold RangeMap.insert in He. repeat case_match; simplify_eq.
    match goal with H : RangeMap.try_reserve _ _ _ = _ |- _ =>
      unfold RangeMap.try_reserve in H; rewrite decide_True in H by lia; simplify_eq end.
    eexists. split; [done|]. done.
  - destruct Hi as (_ & r & Hr & Hn). apply Hn, Hap. by eapply list_elem_of_lookup_2.
  - done.
  - destruct Hi as (_ & ? & _). lia.
Qed.

Lemma position_start rs s :
  sorted_regions rs →
  match position (fun r => start (range r) =? s) rs with
  | Some i => ∃ r, rs !! i = Some r ∧ start (range r) = s
  | None => ∀ r, r ∈ rs → start (range r) ≠ s
  end.
Proof.
  intros Hs. destruct (position _ rs) as [i|] eqn:Hp.
  - apply position_some in Hp as [(r & Hr & He) _]. exists r. split; [done|]. lia.
  - rewrite position_none in Hp. intros r [i Hi]%list_elem_of_lookup. specialize (Hp i r Hi). lia.
Qed.

Lemma sorted_delete rs i r : sorted_regions rs → rs !! i = Some r → sorted_regions (delete i rs) ∧ rs ≡ₚ r :: delete i rs.
Proof.
  intros Hs Hr. split; [|by apply delete_Permutation].
  rewrite delete_take_drop. rewrite <- (take_drop_middle _ _ _ Hr) in Hs.
  apply sorted_app in Hs as (H1 & H2 & H12). apply sorted_cons in H2 as (_ & H2 & _).
  apply sorted_app. split_and!; try done. intros a b Ha Hb. apply H12; [done|by right].
Qed.

Lemma remove_spec m s :
  wf m →
  match RangeMap.remove m s with
  | (Ok r, m') => start (range r) = s ∧ wf m' ∧ vregions m ≡ₚ r :: vregions m' ∧ capacity m' = capacity m
  | (Err e, m') => e = NotFound ∧ m' = m ∧ ∀ r, r ∈ vregions m → start (range r) ≠ s
  end.
Proof.
  intros Hs. unfold RangeMap.remove. pose proof (position_start _ s Hs) as Hp.
  destruct (position _ _) as [i|]; [|done]. destruct Hp as (r & Hr & He). rewrite Hr.
  destruct (sorted_delete _ _ _ Hs Hr). done.
Qed.

(** Removing a region that is in the map finds that region. *)
Lemma remove_ok m r :
  wf m → r ∈ vregions m →
  ∃ rs, RangeMap.remove m (start (range r)) = (Ok r, MkMap rs (capacity m)) ∧ sorted_regions rs ∧ vregions m ≡ₚ r :: rs.
Proof.
  intros Hs Hr. pose proof (remove_spec m (start (range r)) Hs) as Hrm.
  destruct (RangeMap.remove m _) as [[r'|e] [rs cap]].
  - destruct Hrm as (He & Hwf & Hp & Hc). simpl in *. subst cap. exists rs. assert (r' = r) as ->; [|done].
    assert (Hr' : r' ∈ vregions m) by (rewrite Hp; left).
    destruct (sorted_apart _ r r' Hs Hr Hr') as [->|Hap]; [done|]. destruct Hs as [_ Hok].
    pose proof (Hok r Hr). pose proof (Hok r' Hr'). unfold range_ok, apart in *. lia.
  - destruct Hrm as (_ & _ & Hn). by destruct (Hn r Hr).
Qed.

(** ** Changing protection *)

Definition inside_range (w v : VirtRange) : Prop := start v ≤ start w ∧ stop w ≤ stop v.

Lemma apart_inside u v w : apart u v → inside_range w v → start w < stop w → apart u w.
Proof. unfold apart, inside_range. lia. Qed.

(** The piece of a region between two page boundaries. *)
Lemma piece_pages a b :
  0 ≤ a < b → b < 2 ^ 64 → a mod PAGE_SIZE = 0 → b mod PAGE_SIZE = 0 →
  VirtRange.from_pages a ((b - a) / FRAME_SIZE) = Some (MkRange a b).
Proof.
  intros Hab Hb Ha0 Hb0. unfold FRAME_SIZE, PAGE_SIZE in *.
  assert (Hdiv : (b - a) / 4096 * 4096 = b - a).
  { pose proof (Z.div_mod a 4096). pose proof (Z.div_mod b 4096). pose proof (Z.div_mod (b - a) 4096).
    pose proof (Z.mod_pos_bound (b - a) 4096). lia. }
  apply from_pages_spec; unfold PAGE_SIZE; [lia|apply Z.div_pos; lia|].
  rewrite Hdiv. split_and!; [f_equal; lia|lia|done|lia].
Qed.

Lemma insert_piece_ok m piece :
  wf m → (∀ x, piece = Some x → range_ok (range x) ∧ ∀ r, r ∈ vregions m → apart (range r) (range x)) →
  (length (vregions m) + (if piece is Some _ then 1 else 0) ≤ capacity m)%nat →
  ∃ rs, RangeMap.insert_piece grow m piece = (Ok tt, MkMap rs (capacity m)) ∧ sorted_regions rs ∧
    rs ≡ₚ option_list piece ++ vregions m.
Proof.
  intros Hs Hx Hc. destruct piece as [x|]; simpl in *.
  - destruct (Hx x eq_refl). apply insert_ok; try done. lia.
  - exists (vregions m). by destruct m.
Qed.

(** The rest of a region around [w], as optional pieces. *)
Definition head_of (region : VmRegion) (w : VirtRange) : option VmRegion :=
  if start (range region) <? start w
  then Some (RangeMap.with_range region (MkRange (start (range region)) (start w))) else None.
Definition tail_of (region : VmRegion) (w : VirtRange) : option VmRegion :=
  if stop w <? stop (range region)
  then Some (RangeMap.with_range region (MkRange (stop w) (stop (range region)))) else None.
Definition middle_of (region : VmRegion) (w : VirtRange) (p : Protection) : VmRegion :=
  MkRegion w p (backing region) (flags region).

(** The regions after a split. *)
Definition pieces (region : VmRegion) (w : VirtRange) (p : Protection) : list VmRegion :=
  option_list (tail_of region w) ++ option_list (head_of region w) ++ [middle_of region w p].

(** The removal and the three insertions, once the room is reserved. *)
Lemma split_insertions m region w p :
  wf m → region ∈ vregions m → range_ok w → inside_range w (range region) →
  (length (vregions m) + (if head_of region w is Some _ then 1 else 0)
     + (if tail_of region w is Some _ then 1 else 0) ≤ capacity m)%nat →
  ∃ rs0 rs1 rs2 rs3,
    RangeMap.remove m (start (range region)) = (Ok region, MkMap rs0 (capacity m)) ∧
    RangeMap.insert grow (MkMap rs0 (capacity m)) (middle_of region w p) = (Ok tt, MkMap rs1 (capacity m)) ∧
    RangeMap.insert_piece grow (MkMap rs1 (capacity m)) (head_of region w) = (Ok tt, MkMap rs2 (capacity m)) ∧
    RangeMap.insert_piece grow (MkMap rs2 (capacity m)) (tail_of region w) = (Ok tt, MkMap rs3 (capacity m)) ∧
    sorted_regions rs3 ∧ vregions m ≡ₚ region :: rs0 ∧ rs3 ≡ₚ pieces region w p ++ rs0.
Proof.
  intros Hs Hr Hw Hin Hc. pose proof (proj2 Hs region Hr) as Hreg.
  destruct (remove_ok m region Hs Hr) as (rs0 & Hrem & Hs0 & Hp0).
  assert (Hlen : length (vregions m) = S (length rs0)) by (by rewrite Hp0).
  assert (Hap := fun r => sorted_rest_apart _ region rs0 r Hs Hp0).
  unfold range_ok in Hw, Hreg. unfold inside_range in Hin.
  destruct (insert_ok (MkMap rs0 (capacity m)) (middle_of region w p)) as (rs1 & Hi1 & Hs1 & Hp1); simpl; [done|done| |lia|].
  { intros r Hr0. eapply apart_inside; [by apply Hap|done|lia]. }
  assert (Hl1 : length rs1 = S (length rs0)) by (by rewrite Hp1).
  destruct (insert_piece_ok (MkMap rs1 (capacity m)) (head_of region w)) as (rs2 & Hi2 & Hs2 & Hp2); simpl; [done| |lia|].
  { intros x Hx. unfold head_of in Hx. destruct (Z.ltb_spec (start (range region)) (start w)); [|done]. simplify_eq. simpl.
    split; [unfold range_ok; simpl; lia|]. intros r [->|Hr0]%(elem_of_Permutation_proper _ _ _ Hp1)%elem_of_cons; simpl.
    - right. simpl. lia.
    - eapply apart_inside; [by apply Hap|unfold inside_range; simpl; lia|simpl; lia]. }
  assert (Hl2 : length rs2 = ((if head_of region w is Some _ then 1 else 0) + S (length rs0))%nat)
    by (rewrite Hp2; simpl; rewrite <- Hl1; by destruct (head_of region w)).
  destruct (insert_piece_ok (MkMap rs2 (capacity m)) (tail_of region w)) as (rs3 & Hi3 & Hs3 & Hp3); simpl; [done| |lia|].
  { intros x Hx. unfold tail_of in Hx. destruct (Z.ltb_spec (stop w) (stop (range region))); [|done]. simplify_eq. simpl.
    split; [unfold range_ok; simpl; lia|]. intros r Hr2. rewrite Hp2 in Hr2. simpl in Hr2. rewrite Hp1 in Hr2.
    apply elem_of_app in Hr2 as [Hr2|[->|Hr0]%elem_of_cons]; simpl.
    - unfold head_of in Hr2. destruct (Z.ltb_spec (start (range region)) (start w)); [|by apply elem_of_nil in Hr2].
      apply list_elem_of_singleton in Hr2 as ->. left. simpl. lia.
    - left. simpl. lia.
    - eapply apart_inside; [by apply Hap|unfold inside_range; simpl; lia|simpl; lia]. }
  exists rs0, rs1, rs2, rs3. split_and!; try done.
  rewrite Hp3. simpl. rewrite Hp2. simpl. rewrite Hp1. unfold pieces. simpl. by rewrite <- !app_assoc.
Qed.

Lemma piece_within region w p x a :
  inside_range w (range region) → start w < stop w → x ∈ pieces region w p →
  within a (range x) → within a (range region) ∧
    (within a w ∧ x = middle_of region w p ∨ ¬ within a w ∧ attrs x = attrs region).
Proof.
  unfold pieces, inside_range, within. intros Hin Hw [Hx|[Hx|Hx]%elem_of_app]%elem_of_app Ha.
  - unfold tail_of in Hx. destruct (Z.ltb_spec (stop w) (stop (range region))); [|by apply elem_of_nil in Hx].
    apply list_elem_of_singleton in Hx as ->. simpl in Ha. split; [lia|]. right. split; [lia|done].
  - unfold head_of in Hx. destruct (Z.ltb_spec (start (range region)) (start w)); [|by apply elem_of_nil in Hx].
    apply list_elem_of_singleton in Hx as ->. simpl in Ha. split; [lia|]. right. split; [lia|done].
  - apply list_elem_of_singleton in Hx as ->. simpl in Ha. split; [lia|]. by left.
Qed.

Lemma pieces_cover region w p a :
  within a (range region) → ∃ x, x ∈ pieces region w p ∧ within a (range x).
Proof.
  unfold pieces, within, tail_of, head_of. intros Ha. setoid_rewrite elem_of_app. setoid_rewrite elem_of_app.
  destruct (decide (a < start w)) as [H1|H1].
  - rewrite (proj2 (Z.ltb_lt (start (range region)) (start w))) by lia. eexists.
    split; [right; left; by apply list_elem_of_singleton|]. simpl. lia.
  - destruct (decide (a < stop w)) as [H2|H2].
    + exists (middle_of region w p). split; [right; right; by apply list_elem_of_singleton|]. simpl. lia.
    + rewrite (proj2 (Z.ltb_lt (stop w) (stop (range region)))) by lia. eexists.
      split; [left; by apply list_elem_of_singleton|]. simpl. lia.
Qed.

(** The map as a function after a split. *)
Lemma split_attrs rs rs0 rs3 region w p a :
  sorted_regions rs → sorted_regions rs3 → rs ≡ₚ region :: rs0 → rs3 ≡ₚ pieces region w p ++ rs0 →
  inside_range w (range region) → start w < stop w →
  attrs <$> region_at rs3 a =
    if decide (within a w) then Some (p, backing region, flags region) else attrs <$> region_at rs a.
Proof.
  intros Hs Hs3 Hp0 Hp3 Hin Hw. destruct (decide (within a (range region))) as [Ha|Ha].
  - destruct (pieces_cover region w p a Ha) as (x & Hx & Hax).
    rewrite (proj2 (region_at_elem rs3 a x Hs3)) by (rewrite Hp3; split; [by apply elem_of_app; left|done]).
    rewrite (proj2 (region_at_elem rs a region Hs)) by (rewrite Hp0; split; [left|done]). simpl.
    destruct (piece_within region w p x a Hin Hw Hx Hax) as [_ [[Haw ->]|[Haw ->]]];
      [by rewrite decide_True|by rewrite decide_False].
  - rewrite decide_False by (unfold within, inside_range in *; lia). f_equal. apply option_eq. intros r.
    rewrite !region_at_elem, Hp0, Hp3, elem_of_app, elem_of_cons by done. split.
    + intros [[Hr|Hr] Har]; [|tauto]. by destruct (piece_within region w p r a Hin Hw Hr Har) as [? _].
    + intros [[->|Hr] Har]; tauto.
Qed.

Lemma try_reserve_spec m extra :
  grow_enough →
  match RangeMap.try_reserve grow m extra with
  | Ok m' => vregions m' = vregions m ∧ (length (vregions m) + extra ≤ capacity m')%nat
  | Err e => e = VmOutOfMemory ∧ grow (capacity m) (length (vregions m) + extra) = None
  end.
Proof.
  intros Hg. unfold RangeMap.try_reserve. case_decide; [done|].
  destruct (grow _ _) as [cap|] eqn:He; [|done]. simpl. split; [done|]. by eapply Hg.
Qed.

Lemma head_piece region w :
  range_ok (range region) → range_ok w →
  RangeMap.with_range region <$> (if start (range region) <? start w
    then VirtRange.from_pages (start (range region)) ((start w - start (range region)) / FRAME_SIZE) else None)
  = head_of region w.
Proof.
  unfold head_of, range_ok. intros H1 H2. destruct (Z.ltb_spec (start (range region)) (start w)); [|done].
  rewrite piece_pages by lia. done.
Qed.

Lemma tail_piece region w :
  range_ok (range region) → range_ok w →
  RangeMap.with_range region <$> (if stop w <? stop (range region)
    then VirtRange.from_pages (stop w) ((stop (range region) - stop w) / FRAME_SIZE) else None)
  = tail_of region w.
Proof.
  unfold tail_of, range_ok. intros H1 H2. destruct (Z.ltb_spec (stop w) (stop (range region))); [|done].
  rewrite piece_pages by lia. done.
Qed.

Lemma is_some_fmap {A B} (f : A → B) (o : option A) :
  (if f <$> o is Some _ then 1 else 0)%nat = (if o is Some _ then 1 else 0)%nat.
Proof. by destruct o. Qed.

(** Changing protection is exact and atomic. On a well formed map
    [reprotect] always returns. When it succeeds, every address of the range
    has the new protection with the backing and flags it had before, every
    other address is as it was, and the map is still well formed. When it
    fails, nothing has changed: [NotFound] means no single region holds the
    range, and [OutOfMemory] can only come from the reservation made while the
    map was whole. *)
Theorem reprotect_pointwise m start' pages p :
  grow_enough → wf m → 0 ≤ start' → 0 ≤ pages →
  ∃ r m', RangeMap.reprotect grow m start' pages p = Done (r, m') ∧
    match r with
    | Ok w => VirtRange.from_pages start' pages = Some w ∧ wf m' ∧
        ∃ region, region_at (vregions m) start' = Some region ∧ inside_range w (range region) ∧
          ∀ a, attrs_at m' a =
            if decide (within a w) then Some (p, backing region, flags region) else attrs_at m a
    | Err e => m' = m ∧ match e with
        | NotFound => ∀ w region, VirtRange.from_pages start' pages = Some w → region ∈ vregions m →
                        ¬ inside_range w (range region)
        | VmOutOfMemory => ∃ need, (length (vregions m) ≤ need)%nat ∧ grow (capacity m) need = None
        | Overlaps _ => False
        end
    end.
Proof.
  intros Hg Hs H0 Hp. unfold RangeMap.reprotect.
  destruct (VirtRange.from_pages start' pages) as [w|] eqn:Hw; [|eexists _, _; split; [done|]; naive_solver].
  destruct (from_pages_ok _ _ _ H0 Hp Hw) as [Hwok Hws].
  rewrite (find_spec m start' Hs). cbn [mbind outcome_bind].
  assert (Hsame : ∀ region x, x ∈ vregions m → inside_range w (range x) →
    region_at (vregions m) start' = Some region → x = region).
  { intros region x Hx Hin Hat. assert (region_at (vregions m) start' = Some x); [|congruence].
    apply region_at_elem; [done|]. split; [done|]. unfold within, inside_range, range_ok in *. lia. }
  destruct (region_at (vregions m) start') as [region|] eqn:Hat.
  2: { eexists _, _. split; [done|]. split; [done|]. intros w' x [= <-] Hx Hin.
       assert (region_at (vregions m) start' = Some x); [|congruence].
       apply region_at_elem; [done|]. split; [done|]. unfold within, inside_range, range_ok in *. lia. }
  pose proof Hat as [Hr Hwi]%region_at_elem; [|done]. pose proof (proj2 Hs region Hr) as Hrok.
  destruct ((start w <? start (range region)) || (stop (range region) <? stop w)) eqn:Hb.
  { eexists _, _. split; [done|]. split; [done|]. intros w' x [= <-] Hx Hin.
    rewrite (Hsame region x Hx Hin eq_refl) in Hin. unfold inside_range in Hin. lia. }
  assert (Hin : inside_range w (range region)) by (unfold inside_range; lia). cbv zeta.
  rewrite <- (is_some_fmap (RangeMap.with_range region) (if start (range region) <? start w then _ else _)).
  rewrite <- (is_some_fmap (RangeMap.with_range region) (if stop w <? stop (range region) then _ else _)).
  rewrite head_piece, tail_piece by done.
  set (extra := (_ + _)%nat). pose proof (try_reserve_spec m extra Hg) as Hres.
  destruct (RangeMap.try_reserve grow m extra) as [m1|e].
  2: { destruct Hres as [-> Hn]. eexists _, _. split; [done|]. split; [done|]. exists (length (vregions m) + extra)%nat. split; [lia|done]. }
  destruct Hres as [Hm1 Hcap]. unfold wf in Hs. rewrite <- Hm1 in Hs, Hr.
  destruct (split_insertions m1 region w p Hs Hr Hwok Hin) as (rs0 & rs1 & rs2 & rs3 & -> & He1 & He2 & He3 & Hs3 & Hp0 & Hp3).
  { rewrite Hm1. unfold extra in Hcap. lia. }
  unfold middle_of in He1. rewrite He1, He2, He3. eexists _, _. split; [done|]. split; [done|]. split; [done|].
  exists region. split_and!; [done|done|]. intros a. unfold attrs_at. simpl. rewrite <- Hm1.
  eapply split_attrs; try done. unfold range_ok in Hwok. lia.
Qed.

(** Insertion and removal keep the map well formed and change it exactly
    where they say: a region is inserted only if it overlaps nothing, an
    [Overlaps] answer names a region that really overlaps, every error leaves
    the map as it was, and removing a region just inserted gives back the map
    as a function. *)
Theorem insert_remove_exact m x :
  wf m → range_ok (range x) →
  match RangeMap.insert grow m x with
  | (Ok _, m') => wf m' ∧ (∀ r, r ∈ vregions m → apart (range r) (range x)) ∧
      (∀ a, region_at (vregions m') a =
              if decide (within a (range x)) then Some x else region_at (vregions m) a) ∧
      ∃ m'', RangeMap.remove m' (start (range x)) = (Ok x, m'') ∧ wf m'' ∧
        ∀ a, region_at (vregions m'') a = region_at (vregions m) a
  | (Err (Overlaps i), m') => m' = m ∧ ∃ r, vregions m !! i = Some r ∧ ¬ apart (range r) (range x)
  | (Err VmOutOfMemory, m') => m' = m ∧ grow (capacity m) (length (vregions m) + 1) = None
  | (Err NotFound, _) => False
  end.
Proof.
  intros Hs Hx. pose proof (insert_spec m x Hs Hx) as Hi.
  destruct (RangeMap.insert grow m x) as [[[]|[i| |]] m']; try naive_solver.
  destruct Hi as (Hs' & Hp & Hap). split_and!; try done.
  - intros a. apply option_eq. intros r. rewrite region_at_elem, Hp, elem_of_cons by done. case_decide as Ha.
    + split; [|intros [= <-]; split; [by left|done]]. intros [[->|Hr] Har]; [done|].
      specialize (Hap r Hr). unfold apart, within in *. lia.
    + rewrite region_at_elem by done. naive_solver.
  - destruct (remove_ok m' x Hs') as (rs & He & Hrs & Hp'); [rewrite Hp; left|].
    eexists. split; [done|]. split; [done|]. intros a. apply region_at_perm; [done|done|]. simpl.
    rewrite Hp in Hp'. by apply Permutation_cons_inv in Hp'.
Qed.

End Growth.

(** The binary search decides legality correctly: on a well formed map,
    [find] returns, without a panic, exactly the region that contains the
    address, or [None] when no region does. *)
Theorem find_is_the_region_containing m a r :
  wf m → RangeMap.find m a = Done r ↔
    match r with
    | Some region => region ∈ vregions m ∧ within a (range region)
    | None => ∀ region, region ∈ vregions m → ¬ within a (range region)
    end.
Proof.
  intros Hs. rewrite find_spec by done. destruct r as [r|].
  - rewrite <- region_at_elem by done. split; congruence.
  - split.
    + intros [= Hn] region Hr Hw. assert (region_at (vregions m) a = Some region); [|congruence].
      by apply region_at_elem.
    + intros Hn. f_equal. apply eq_None_not_Some. intros [r [Hr Hw]%region_at_elem]; [|done]. by eapply Hn.
Qed.

(** ** Orphaning shared memory *)

Lemma sorted_insert_same rs i r r' :
  sorted_regions rs → rs !! i = Some r → range r' = range r → sorted_regions (<[i := r']> rs).
Proof.
  intros Hs Hr He. rewrite insert_take_drop by (by eapply lookup_lt_Some).
  rewrite <- (take_drop_middle _ _ _ Hr) in Hs. apply sorted_app in Hs as (H1 & H2 & H12).
  apply sorted_cons in H2 as (Hok & H2 & Hp). unfold precedes in *. apply sorted_app. split_and!; [done| |].
  - apply sorted_cons. unfold precedes. rewrite He. done.
  - intros a b Ha [->|Hb]%elem_of_cons; unfold precedes; [rewrite He; apply H12; [done|left]|].
    apply H12; [done|by right].
Qed.

Lemma region_at_insert_same rs i r r' a :
  sorted_regions rs → rs !! i = Some r → range r' = range r →
  region_at (<[i := r']> rs) a = if decide (within a (range r)) then Some r' else region_at rs a.
Proof.
  intros Hs Hr He. pose proof (sorted_insert_same rs i r r' Hs Hr He) as Hs'.
  assert (Hlt : (i < length rs)%nat) by by eapply lookup_lt_Some.
  case_decide as Hw.
  - apply region_at_elem; [done|]. rewrite He. split; [|done]. by apply list_elem_of_insert.
  - apply option_eq. intros x. rewrite !region_at_elem by done. split; intros [[j Hj]%list_elem_of_lookup Hx].
    + apply list_lookup_insert_Some in Hj as [(-> & <- & _)|[Hne Hj]]; [by rewrite He in Hx|].
      split; [by eapply list_elem_of_lookup_2|done].
    + split; [|done]. destruct (decide (i = j)) as [->|Hne]; [simplify_eq; done|].
      apply list_elem_of_lookup. exists j. by rewrite list_lookup_insert_ne.
Qed.

(** Orphaning touches one object only: if it succeeds, the addresses of
    the region that starts at [s] keep their protection and become anonymous,
    not copy-on-write and not populated, every other address is unchanged, and
    the region had been backed by [object]; if it fails nothing changes, and no
    region starting there was backed by [object]. *)
Theorem orphan_shared_only_that_object m s object :
  wf m →
  match RangeMap.orphan_shared m s object with
  | (Ok r, m') => wf m' ∧ ∃ old, old ∈ vregions m ∧ start (range old) = s ∧ backing old = Shared object ∧
      r = RangeMap.orphaned old ∧
      ∀ a, region_at (vregions m') a = if decide (within a (range old)) then Some r else region_at (vregions m) a
  | (Err e, m') => e = NotFound ∧ m' = m ∧
      ∀ r, r ∈ vregions m → start (range r) = s → backing r ≠ Shared object
  end.
Proof.
  intros Hs. unfold RangeMap.orphan_shared. pose proof (position_start _ s Hs) as Hp.
  destruct (position _ _) as [i|]; [|naive_solver]. destruct Hp as (r & Hr & He). rewrite Hr.
  case_bool_decide as Hb; simpl.
  - split; [by eapply sorted_insert_same|]. exists r. split_and!; try done; [by eapply list_elem_of_lookup_2|].
    intros a. by apply region_at_insert_same.
  - split_and!; try done. intros x Hx Hxs. destruct (sorted_apart _ x r Hs Hx) as [->|Hap]; [by eapply list_elem_of_lookup_2|done|].
    pose proof (proj2 Hs x Hx). pose proof (proj2 Hs r (list_elem_of_lookup_2 _ _ _ Hr)). unfold apart, range_ok in *. lia.
Qed.

(** ** Searching for room *)

(** [n] bytes at [c] avoid every region. *)
Definition free_at (rs : list VmRegion) (c n : Z) : Prop :=
  ∀ r, r ∈ rs → c + n ≤ start (range r) ∨ stop (range r) ≤ c.

(** The least address at or above [lo] with [n] free bytes below [high]. *)
Definition least_free (rs : list VmRegion) (lo high n c : Z) : Prop :=
  lo ≤ c ∧ c + n ≤ high ∧ free_at rs c n ∧ ∀ c', lo ≤ c' < c → c' + n ≤ high → ¬ free_at rs c' n.

Lemma free_at_cons r rs c n : free_at (r :: rs) c n ↔ (c + n ≤ start (range r) ∨ stop (range r) ≤ c) ∧ free_at rs c n.
Proof. unfold free_at. setoid_rewrite elem_of_cons. naive_solver. Qed.

(** What the search answers, for a cursor at [cand]. *)
Definition free_answer (rs : list VmRegion) (cand high pages : Z) (o : option VirtRange) : Prop :=
  match o with
  | Some w => stop w = start w + pages * PAGE_SIZE ∧ start w mod PAGE_SIZE = 0 ∧
      least_free rs cand high (pages * PAGE_SIZE) (start w)
  | None => ∀ c, cand ≤ c → c + pages * PAGE_SIZE ≤ high → ¬ free_at rs c (pages * PAGE_SIZE)
  end.

Lemma free_here rs cand high pages :
  0 ≤ cand → cand mod PAGE_SIZE = 0 → high < 2 ^ 64 → 0 < pages →
  cand + pages * PAGE_SIZE ≤ high → free_at rs cand (pages * PAGE_SIZE) →
  free_answer rs cand high pages (VirtRange.from_pages cand pages).
Proof.
  intros Hc Hm Hh Hp Hle Hf.
  rewrite (proj2 (from_pages_spec cand pages (MkRange cand (cand + pages * PAGE_SIZE)) Hc ltac:(lia)))
    by (split_and!; (done || lia)).
  simpl. split; [done|]. split; [done|]. split; [lia|]. split; [lia|]. split; [done|]. intros c' ?. lia.
Qed.

Lemma find_free_loop_spec rs pages high : ∀ cand,
  sorted_regions rs → 0 ≤ cand → cand mod PAGE_SIZE = 0 → high < 2 ^ 64 → 0 < pages →
  free_answer rs cand high pages (RangeMap.free_loop rs cand high (pages * PAGE_SIZE) pages).
Proof.
  induction rs as [|r rs IH]; intros cand Hs Hc Hm Hh Hp; cbn [RangeMap.free_loop]; unfold saturating_sub.
  { assert (Hnil : ∀ c, free_at [] c (pages * PAGE_SIZE)) by by intros c r ?%elem_of_nil.
    destruct (Z.leb_spec (pages * PAGE_SIZE) (Z.max 0 (high - cand))) as [Hle|Hgt]; [apply free_here; try done; unfold PAGE_SIZE in *; lia|].
    intros c H1 H2. unfold PAGE_SIZE in *. lia. }
  pose proof Hs as (Hr & Hs' & Hpre)%sorted_cons. unfold range_ok in Hr. unfold precedes in Hpre.
  destruct (Z.leb_spec (stop (range r)) cand) as [H1|H1].
  { specialize (IH cand Hs' Hc Hm Hh Hp). destruct (RangeMap.free_loop _ _ _ _ _) as [w|].
    - destruct IH as (? & ? & Hl1 & Hl2 & Hl3 & Hl4). split; [done|]. split; [done|].
      split_and!; try done; [apply free_at_cons; split; [lia|done]|].
      intros c' Hc' Hh'. rewrite free_at_cons. intros [_ ?]. by apply (Hl4 c').
    - intros c Hc' Hh'. rewrite free_at_cons. intros [_ ?]. by apply (IH c). }
  destruct (Z.leb_spec high (start (range r))) as [H2|H2].
  { destruct (Z.leb_spec (pages * PAGE_SIZE) (Z.max 0 (high - cand))) as [Hle|Hgt].
    - apply free_here; try done; unfold PAGE_SIZE in *; try lia.
      intros x [->|Hx]%elem_of_cons; [lia|]. specialize (Hpre x Hx). lia.
    - intros c Hc' Hh'. unfold PAGE_SIZE in *. lia. }
  destruct (Z.leb_spec (pages * PAGE_SIZE) (Z.max 0 (start (range r) - cand))) as [H3|H3].
  { apply free_here; try done; unfold PAGE_SIZE in *; try lia.
    intros x [->|Hx]%elem_of_cons; [lia|]. specialize (Hpre x Hx). lia. }
  assert (Hpast : ∀ c, cand ≤ c → free_at (r :: rs) c (pages * PAGE_SIZE) → stop (range r) ≤ c).
  { intros c Hcc [Hor _]%free_at_cons. unfold PAGE_SIZE in *. lia. }
  rewrite Z.max_r by lia.
  specialize (IH (stop (range r)) Hs' ltac:(lia) ltac:(tauto) Hh Hp). destruct (RangeMap.free_loop _ _ _ _ _) as [w|].
  - destruct IH as (? & ? & Hl1 & Hl2 & Hl3 & Hl4). split; [done|]. split; [done|].
    split_and!; try done; [lia|apply free_at_cons; split; [lia|done]|].
    intros c' Hc' Hh' Hf. pose proof (Hpast c' ltac:(lia) Hf). apply free_at_cons in Hf as [_ Hf]. by apply (Hl4 c'); [lia|..].
  - intros c Hc' Hh' Hf. pose proof (Hpast c ltac:(lia) Hf). apply free_at_cons in Hf as [_ Hf]. by apply (IH c).
Qed.

(** [find_free] returns the lowest free range: given a page aligned lower
    bound, [Some w] is a page aligned range of the size asked for, inside the
    window, clear of every region, with no free range of that size below it;
    [None] means the window has no room at any address. A size that does not
    fit 64 bits is refused, not computed. *)
Theorem find_free_is_lowest m low high pages :
  wf m → 0 ≤ low → low mod PAGE_SIZE = 0 → high < 2 ^ 64 → 0 < pages →
  match RangeMap.find_free m low high pages with
  | Some w => stop w = start w + pages * PAGE_SIZE ∧ start w mod PAGE_SIZE = 0 ∧
      least_free (vregions m) low high (pages * PAGE_SIZE) (start w)
  | None => ∀ c, low ≤ c → c + pages * PAGE_SIZE ≤ high → ¬ free_at (vregions m) c (pages * PAGE_SIZE)
  end.
Proof.
  intros Hs Hl Hm Hh Hp. unfold RangeMap.find_free, VirtRange.checked_u64.
  destruct (Z.ltb_spec (pages * PAGE_SIZE) (2 ^ 64)) as [Hlt|Hge]; simpl.
  - exact (find_free_loop_spec (vregions m) pages high low Hs Hl Hm Hh Hp).
  - intros c Hc Hle. lia.
Qed.

(** ** The self check *)

Lemma check_order_spec rs :
  (∀ r, r ∈ rs → start (range r) < stop (range r)) →
  RangeMap.check_order rs = true ↔ StronglySorted precedes rs.
Proof.
  intros Hne. induction rs as [|a rs IH]; [split; [constructor|done]|].
  assert (Hrs : ∀ r, r ∈ rs → start (range r) < stop (range r)) by (intros r Hr; apply Hne; by right).
  specialize (IH Hrs). destruct rs as [|b rs]; [split; [repeat constructor|done]|].
  change (RangeMap.check_order (a :: b :: rs)) with
    (negb (start (range b) <? stop (range a)) && RangeMap.check_order (b :: rs)).
  rewrite andb_true_iff, IH, negb_true_iff, Z.ltb_ge. split.
  - intros [Hab Hss]. constructor; [done|]. constructor; [done|].
    apply StronglySorted_inv in Hss as [_ Hb]. eapply Forall_impl; [done|]. intros c Hc. unfold precedes in *.
    specialize (Hne b ltac:(right; left)). lia.
  - intros [Hss Hf]%StronglySorted_inv. apply Forall_cons in Hf as [Hab _]. done.
Qed.

Lemma check_nonempty_spec rs :
  (∀ r, r ∈ rs → 0 ≤ start (range r) ∧ stop (range r) < 2 ^ 64) →
  RangeMap.check_nonempty rs = Done (Ok tt) ↔ ∀ r, r ∈ rs → start (range r) < stop (range r).
Proof.
  induction rs as [|a rs IH]; intros Hw; simpl; [split; [by intros _ r ?%elem_of_nil|done]|].
  specialize (IH (fun r Hr => Hw r (list_elem_of_further _ _ _ Hr))). destruct (Hw a ltac:(left)) as [H0 H64].
  unfold VirtRange.is_empty, VirtRange.len, sub_checked.
  destruct (decide (start (range a) ≤ stop (range a))) as [Hle|Hgt].
  - rewrite checked_ok by (unfold in_width; lia). cbn [mbind outcome_bind].
    destruct (Z.eqb_spec (stop (range a) - start (range a)) 0) as [He|He].
    + split; [done|]. intros H. specialize (H a ltac:(left)). lia.
    + rewrite IH. split; [|intros H r Hr; apply H; by right].
      intros H r [->|Hr]%elem_of_cons; [lia|by apply H].
  - split; [|intros H; specialize (H a ltac:(left)); lia].
    intros Hd. inv_done. unfold in_width in *. lia.
Qed.

(** The map's self check is exact: on any map of 64-bit ranges,
    [check_invariants] passes if and only if the regions are in ascending order,
    pairwise disjoint and non-empty. *)
Theorem map_check_is_exact m :
  (∀ r, r ∈ vregions m → 0 ≤ start (range r) ∧ stop (range r) < 2 ^ 64) →
  RangeMap.check_invariants m = Done (Ok tt) ↔
  StronglySorted precedes (vregions m) ∧ ∀ r, r ∈ vregions m → start (range r) < stop (range r).
Proof.
  intros Hw. unfold RangeMap.check_invariants. destruct (RangeMap.check_order (vregions m)) eqn:Ho; simpl.
  - rewrite check_nonempty_spec by done. split; [|tauto]. intros H. split; [|done]. by apply check_order_spec.
  - split; [done|]. intros [Hss Hne]. apply check_order_spec in Hss; [|done]. congruence.
Qed.

(** ** A map of three regions *)

Definition double (cap need : nat) : option nat := Some (Nat.max (2 * cap) need).

Definition page_range (p n : Z) : VirtRange := MkRange (p * PAGE_SIZE) ((p + n) * PAGE_SIZE).
Definition small_map : RangeMap :=
  MkMap [region_new (page_range 1 2) ReadWrite Anonymous;
         region_new (page_range 16 4) ReadOnly (Shared 7);
         region_new (page_range 64 3) ReadWrite (Direct (100 * PAGE_SIZE))] 3.

Lemma double_enough : grow_enough double.
Proof. intros cap need cap' [= <-]. lia. Qed.

Lemma small_map_wf : wf small_map.
Proof.
  split; [repeat constructor; done|]. intros r Hr.
  repeat (apply elem_of_cons in Hr as [->|Hr]; [by vm_compute|]). by apply elem_of_nil in Hr.
Qed.

Lemma reprotect_pointwise_witness :
  ∃ r m', RangeMap.reprotect double small_map (65 * PAGE_SIZE) 1 ReadOnly = Done (r, m') ∧
    match r with
    | Ok w => VirtRange.from_pages (65 * PAGE_SIZE) 1 = Some w ∧ wf m' ∧
        ∃ region, region_at (vregions small_map) (65 * PAGE_SIZE) = Some region ∧ inside_range w (range region) ∧
          ∀ a, attrs_at m' a =
            if decide (within a w) then Some (ReadOnly, backing region, flags region) else attrs_at small_map a
    | Err e => m' = small_map ∧ match e with
        | NotFound => ∀ w region, VirtRange.from_pages (65 * PAGE_SIZE) 1 = Some w → region ∈ vregions small_map →
                        ¬ inside_range w (range region)
        | VmOutOfMemory => ∃ need, (length (vregions small_map) ≤ need)%nat ∧ double (capacity small_map) need = None
        | Overlaps _ => False
        end
    end.
Proof.
  apply (reprotect_pointwise double small_map (65 * PAGE_SIZE) 1 ReadOnly double_enough small_map_wf);
    unfold PAGE_SIZE; lia.
Defined.

Lemma insert_remove_exact_witness :
  let x := region_new (page_range 8 1) ReadExecute Anonymous in
  match RangeMap.insert double small_map x with
  | (Ok _, m') => wf m' ∧ (∀ r, r ∈ vregions small_map → apart (range r) (range x)) ∧
      (∀ a, region_at (vregions m') a =
              if decide (within a (range x)) then Some x else region_at (vregions small_map) a) ∧
      ∃ m'', RangeMap.remove m' (start (range x)) = (Ok x, m'') ∧ wf m'' ∧
        ∀ a, region_at (vregions m'') a = region_at (vregions small_map) a
  | (Err (Overlaps i), m') => m' = small_map ∧ ∃ r, vregions small_map !! i = Some r ∧ ¬ apart (range r) (range x)
  | (Err VmOutOfMemory, m') => m' = small_map ∧ double (capacity small_map) (length (vregions small_map) + 1) = None
  | (Err NotFound, _) => False
  end.
Proof.
  exact (insert_remove_exact double small_map (region_new (page_range 8 1) ReadExecute Anonymous)
    small_map_wf ltac:(by vm_compute)).
Defined.

Lemma find_is_the_region_containing_witness :
  RangeMap.find small_map (17 * PAGE_SIZE) = Done (Some (region_new (page_range 16 4) ReadOnly (Shared 7))) ↔
  region_new (page_range 16 4) ReadOnly (Shared 7) ∈ vregions small_map ∧
  within (17 * PAGE_SIZE) (page_range 16 4).
Proof.
  exact (find_is_the_region_containing small_map (17 * PAGE_SIZE)
    (Some (region_new (page_range 16 4) ReadOnly (Shared 7))) small_map_wf).
Defined.

Lemma orphan_shared_only_that_object_witness :
  match RangeMap.orphan_shared small_map (16 * PAGE_SIZE) 7 with
  | (Ok r, m') => wf m' ∧ ∃ old, old ∈ vregions small_map ∧ start (range old) = 16 * PAGE_SIZE ∧
      backing old = Shared 7 ∧ r = RangeMap.orphaned old ∧
      ∀ a, region_at (vregions m') a =
        if decide (within a (range old)) then Some r else region_at (vregions small_map) a
  | (Err e, m') => e = NotFound ∧ m' = small_map ∧
      ∀ r, r ∈ vregions small_map → start (range r) = 16 * PAGE_SIZE → backing r ≠ Shared 7
  end.
Proof. exact (orphan_shared_only_that_object small_map (16 * PAGE_SIZE) 7 small_map_wf). Defined.

Lemma find_free_is_lowest_witness :
  match RangeMap.find_free small_map 4096 (2 ^ 30) 20 with
  | Some w => stop w = start w + 20 * PAGE_SIZE ∧ start w mod PAGE_SIZE = 0 ∧
      least_free (vregions small_map) 4096 (2 ^ 30) (20 * PAGE_SIZE) (start w)
  | None => ∀ c, 4096 ≤ c → c + 20 * PAGE_SIZE ≤ 2 ^ 30 → ¬ free_at (vregions small_map) c (20 * PAGE_SIZE)
  end.
Proof. apply (find_free_is_lowest small_map 4096 (2 ^ 30) 20 small_map_wf); [lia|reflexivity|lia|lia]. Defined.

Lemma map_check_is_exact_witness :
  RangeMap.check_invariants small_map = Done (Ok tt) ↔
  StronglySorted precedes (vregions small_map) ∧
  ∀ r, r ∈ vregions small_map → start (range r) < stop (range r).
Proof.
  apply (map_check_is_exact small_map). intros r Hr. pose proof (proj2 small_map_wf r Hr). unfold range_ok in *. lia.
Defined.

(** Splitting a device mapping leaves its tail with the wrong physical
    base. [Direct]'s field is documented as the physical address the region
    starts at; after re-protecting the middle page of a three-page device
    region at frame 100, the last page is a region of its own whose recorded
    physical base is still frame 100, not 102. *)
Theorem reprotect_keeps_the_whole_regions_base :
  ∃ w m' tail, RangeMap.reprotect double small_map (65 * PAGE_SIZE) 1 ReadOnly = Done (Ok w, m') ∧
    region_at (vregions m') (66 * PAGE_SIZE) = Some tail ∧ range tail = page_range 66 1 ∧
    backing tail = Direct (100 * PAGE_SIZE).
Proof. eexists _, _, _. split; [vm_compute; reflexivity|]. split; [vm_compute; reflexivity|]. by vm_compute. Qed.
