(* ===== verification/Ring.v ===== *)
(** * Rings in shared memory

    Models src/abi/src/ring.rs: where the bytes of a transfer go, and whether a
    pair of free-running indices can be believed.  The module touches no
    memory; the theorems add a memory and show that what a producer writes
    through its runs is what the consumer reads through its own. *)
From stdpp Require Import prelude numbers list.
From S2P Require Import Prelude.
Open Scope Z_scope.
Set Warnings "-clear-no-such-hyp".

Definition HEADER_BYTES : Z := 64.
Definition HEAD_OFFSET : Z := 0.
Definition TAIL_OFFSET : Z := 32.
Definition DATA_OFFSET : Z := HEADER_BYTES.

Record Layout : Type := MkLayout { lcapacity : Z }.

(** [usize::leading_zeros]. *)
Definition leading_zeros (x : Z) : Z := if x =? 0 then 64 else 63 - Z.log2 x.

Module Layout.

Definition for_region (length' : Z) : option Layout :=
  if length' <=? HEADER_BYTES then None
  else
    let usable := length' - HEADER_BYTES in
    let capacity := trunc 64 (Z.shiftl 1 (64 - 1 - leading_zeros usable)) in
    if capacity =? 0 then None else Some (MkLayout capacity).

Definition data_offset (self : Layout) : Z := DATA_OFFSET.

Definition offset_of (self : Layout) (at' : Z) : Z := DATA_OFFSET + Z.land at' (lcapacity self - 1).

End Layout.

Record Cursor : Type := MkCursor { head : Z; tail : Z; ccapacity : Z }.

Module Cursor.

Definition new (layout : Layout) (head' tail' : Z) : option Cursor :=
  let used := wrapping_sub 64 head' tail' in
  if lcapacity layout <? used then None else Some (MkCursor head' tail' (lcapacity layout)).

Definition readable (self : Cursor) : Z := wrapping_sub 64 (head self) (tail self).
Definition writable (self : Cursor) : outcome Z := sub_checked 64 (ccapacity self) (readable self).
Definition is_empty (self : Cursor) : bool := readable self =? 0.

End Cursor.

Record Run : Type := MkRun { offset : Z; rlength : Z }.

Module Ring.

Definition runs_from (layout : Layout) (from count : Z) : outcome (Run * Run) :=
  let empty := MkRun DATA_OFFSET 0 in
  if count =? 0 then Done (empty, empty)
  else
    let start := Layout.offset_of layout from in
    to_end ← sub_checked 64 (DATA_OFFSET + lcapacity layout) start;
    let first := Z.min count to_end in
    rest ← sub_checked 64 count first;
    Done (MkRun start first, MkRun DATA_OFFSET rest).

Definition read_runs (layout : Layout) (cursor : Cursor) (count : Z) : outcome (Run * Run) :=
  runs_from layout (tail cursor) (Z.min count (Cursor.readable cursor)).

Definition write_runs (layout : Layout) (cursor : Cursor) (count : Z) : outcome (Run * Run) :=
  w ← Cursor.writable cursor;
  runs_from layout (head cursor) (Z.min count w).

Definition PREFIX : Z := 4.
Definition MEMBER_SHIFT : Z := 24.
Definition MEMBER_MASK : Z := trunc 32 (Z.shiftl 15 MEMBER_SHIFT).
Definition UPLINK : Z := Z.shiftl 1 28.
Definition LENGTH_MASK : Z := Z.shiftl 1 MEMBER_SHIFT - 1.

(** [(index as u32 + 1) << MEMBER_SHIFT] drops the bits shifted out of a [u32]. *)
Definition mark (length' : Z) (member : option Z) (uplink : bool) : Z :=
  let named := match member with
    | Some index => Z.lor (Z.land length' LENGTH_MASK) (trunc 32 (Z.shiftl (index + 1) MEMBER_SHIFT))
    | None => Z.land length' LENGTH_MASK
    end in
  if uplink then Z.lor named UPLINK else named.

Definition marked (prefix' : Z) : Z * option Z * bool :=
  let member := Z.shiftr (Z.land prefix' MEMBER_MASK) MEMBER_SHIFT in
  let which := if member =? 0 then None else Some (trunc 8 (member - 1)) in
  (Z.land prefix' LENGTH_MASK, which, negb (Z.land prefix' UPLINK =? 0)).

Record Framed : Type := MkFramed { prefix : Run * Run; payload : Run * Run; next : Z }.

(** [usize::checked_add]. *)
Definition checked_total (length' : Z) : option Z :=
  if PREFIX + length' <? 2 ^ 64 then Some (PREFIX + length') else None.

Definition frame_to_write (layout : Layout) (cursor : Cursor) (length' : Z) : outcome (option Framed) :=
  match checked_total length' with
  | None => Done None
  | Some total =>
      w ← Cursor.writable cursor;
      if (length' =? 0) || (w <? total) then Done None
      else
        prefix' ← write_runs layout cursor PREFIX;
        after ← add_checked 64 (head cursor) PREFIX;
        match Cursor.new layout after (tail cursor) with
        | None => Done None
        | Some after_prefix =>
            payload' ← write_runs layout after_prefix length';
            next' ← add_checked 64 (head cursor) total;
            Done (Some (MkFramed prefix' payload' next'))
        end
  end.

Definition length_to_read (layout : Layout) (cursor : Cursor) : outcome (option (Run * Run)) :=
  if PREFIX <=? Cursor.readable cursor
  then r ← read_runs layout cursor PREFIX; Done (Some r)
  else Done None.

Definition frame_to_read (layout : Layout) (cursor : Cursor) (length' : Z) : outcome (option Framed) :=
  match checked_total length' with
  | None => Done None
  | Some total =>
      if (length' =? 0) || (Cursor.readable cursor <? total) then Done None
      else
        prefix' ← read_runs layout cursor PREFIX;
        after ← add_checked 64 (tail cursor) PREFIX;
        match Cursor.new layout (head cursor) after with
        | None => Done None
        | Some after_prefix =>
            payload' ← read_runs layout after_prefix length';
            next' ← add_checked 64 (tail cursor) total;
            Done (Some (MkFramed prefix' payload' next'))
        end
  end.

End Ring.

(** ** Layouts and offsets *)

Definition layout_ok (l : Layout) : Prop := ∃ k, 0 ≤ k ≤ 62 ∧ lcapacity l = 2 ^ k.

Lemma layout_ok_bounds l : layout_ok l → 0 < lcapacity l ≤ 2 ^ 62.
Proof. intros (k & Hk & ->). split; [apply Z.pow_pos_nonneg; lia|apply Z.pow_le_mono_r; lia]. Qed.

Lemma for_region_spec n l :
  0 ≤ n < 2 ^ 63 → Layout.for_region n = Some l →
  layout_ok l ∧ lcapacity l ≤ n - HEADER_BYTES < 2 * lcapacity l.
Proof.
  intros Hn. unfold Layout.for_region, HEADER_BYTES. destruct (Z.leb_spec n 64) as [|Hlt]; [done|].
  unfold leading_zeros. destruct (Z.eqb_spec (n - 64) 0); [lia|].
  replace (64 - 1 - (63 - Z.log2 (n - 64))) with (Z.log2 (n - 64)) by lia. set (k := Z.log2 (n - 64)).
  pose proof (Z.log2_spec (n - 64) ltac:(lia)) as [Hlo Hhi]. fold k in Hlo, Hhi.
  assert (Hk : 0 ≤ k ≤ 62).
  { split; [apply Z.log2_nonneg|]. assert (k < 63); [|lia]. apply Z.log2_lt_pow2; lia. }
  rewrite Z.shiftl_1_l. rewrite trunc_small.
  2: { split; [apply Z.pow_nonneg; lia|apply Z.pow_lt_mono_r; lia]. }
  destruct (Z.eqb_spec (2 ^ k) 0) as [|_]; [done|]. intros [= <-]. simpl. rewrite Z.pow_succ_r in Hhi by lia.
  split; [by exists k|lia].
Qed.

Lemma offset_of_mod l at' : layout_ok l → Layout.offset_of l at' = DATA_OFFSET + at' mod lcapacity l.
Proof.
  intros (k & Hk & Hc). unfold Layout.offset_of. rewrite Hc. f_equal.
  rewrite <- Z.land_ones by lia. f_equal. rewrite Z.ones_equiv. lia.
Qed.

(** ** Runs *)

(** The offsets a pair of runs names, in order. *)
Definition run_offsets (r : Run * Run) : list Z :=
  seqZ (offset r.1) (rlength r.1) ++ seqZ (offset r.2) (rlength r.2).

(** The offsets of [n] consecutive indices. *)
Definition ring_offsets (l : Layout) (from n : Z) : list Z :=
  (fun i => Layout.offset_of l (from + i)) <$> seqZ 0 n.

Lemma offset_of_range l at' : layout_ok l → DATA_OFFSET ≤ Layout.offset_of l at' < DATA_OFFSET + lcapacity l.
Proof.
  intros Hl. rewrite offset_of_mod by done. pose proof (layout_ok_bounds l Hl).
  pose proof (Z.mod_pos_bound at' (lcapacity l)). lia.
Qed.

Lemma ring_offsets_segment l from a n :
  layout_ok l → 0 ≤ n → (∀ i, 0 ≤ i < n → Layout.offset_of l (from + i) = a + i) →
  ring_offsets l from n = seqZ a n.
Proof.
  intros Hl Hn He. unfold ring_offsets. replace a with (a + 0) by lia. rewrite <- fmap_add_seqZ.
  apply list_fmap_ext. intros k i Hi. apply lookup_seqZ in Hi as [-> Hi]. rewrite He by lia. lia.
Qed.

Lemma ring_offsets_app l from a b :
  0 ≤ a → 0 ≤ b → ring_offsets l from (a + b) = ring_offsets l from a ++ ring_offsets l (from + a) b.
Proof.
  intros Ha Hb. unfold ring_offsets. rewrite (seqZ_app 0 a b) by done. rewrite fmap_app. f_equal.
  assert (Hs : seqZ (0 + a) b = Z.add a <$> seqZ 0 b) by (rewrite fmap_add_seqZ; f_equal; lia).
  rewrite Hs, <- list_fmap_compose.
  apply list_fmap_ext. intros k i _. simpl. f_equal. lia.
Qed.

(** The runs name the offsets of the next [count] indices, in order. *)
Lemma runs_from_spec l from count :
  layout_ok l → 0 ≤ from → 0 ≤ count ≤ lcapacity l →
  ∃ r, Ring.runs_from l from count = Done r ∧ run_offsets r = ring_offsets l from count ∧
    0 ≤ rlength r.1 ∧ 0 ≤ rlength r.2 ∧ rlength r.1 + rlength r.2 = count.
Proof.
  intros Hl Hf Hc. pose proof (layout_ok_bounds l Hl) as Hb. unfold Ring.runs_from.
  destruct (Z.eqb_spec count 0) as [->|Hn]; [eexists; split; [done|]; done|].
  pose proof (offset_of_range l from Hl) as Hr. unfold DATA_OFFSET, HEADER_BYTES in *.
  set (start := Layout.offset_of l from) in *. set (C := lcapacity l) in *.
  unfold sub_checked. rewrite checked_ok by (unfold in_width; lia). cbn [mbind outcome_bind].
  rewrite checked_ok by (unfold in_width; lia). cbn [mbind outcome_bind].
  eexists. split; [done|]. split; [|simpl; lia]. unfold run_offsets. simpl.
  set (first := Z.min count (64 + C - start)).
  assert (Hmod : start = 64 + from mod C) by (unfold start; by rewrite offset_of_mod).
  assert (Hdm := Z.div_mod from C ltac:(lia)).
  replace count with (first + (count - first)) at 2 by lia. rewrite ring_offsets_app by lia. f_equal.
  - symmetry. apply ring_offsets_segment; [done|lia|]. intros i Hi. rewrite offset_of_mod by done. fold C.
    unfold DATA_OFFSET, HEADER_BYTES. replace (from + i) with (from mod C + i + (from / C) * C) by lia.
    rewrite Z.mod_add by lia. rewrite Z.mod_small by lia. lia.
  - symmetry. apply ring_offsets_segment; [done|lia|]. intros i Hi. rewrite offset_of_mod by done. fold C.
    unfold DATA_OFFSET, HEADER_BYTES. replace (from + first + i) with (i + (from / C + 1) * C) by lia.
    rewrite Z.mod_add by lia. rewrite Z.mod_small by lia. lia.
Qed.

(** ** Cursors *)

Record cursor_ok (l : Layout) (c : Cursor) : Prop := {
  ck_layout : layout_ok l;
  ck_cap : ccapacity c = lcapacity l;
  ck_head : in_width 64 (head c);
  ck_tail : in_width 64 (tail c);
  ck_used : Cursor.readable c ≤ lcapacity l
}.

Lemma cursor_new_ok l h t c :
  layout_ok l → in_width 64 h → in_width 64 t → Cursor.new l h t = Some c →
  cursor_ok l c ∧ head c = h ∧ tail c = t.
Proof.
  intros Hl Hh Ht. unfold Cursor.new. destruct (Z.ltb_spec (lcapacity l) (wrapping_sub 64 h t)); [done|].
  intros [= <-]. split; [|done]. by split.
Qed.

Lemma cursor_new_some l h t :
  wrapping_sub 64 h t ≤ lcapacity l → Cursor.new l h t = Some (MkCursor h t (lcapacity l)).
Proof. intros Hu. unfold Cursor.new. destruct (Z.ltb_spec (lcapacity l) (wrapping_sub 64 h t)); [lia|done]. Qed.

Lemma readable_range c : 0 ≤ Cursor.readable c < 2 ^ 64.
Proof. apply (trunc_range 64). lia. Qed.

Lemma writable_ok l c : cursor_ok l c → Cursor.writable c = Done (lcapacity l - Cursor.readable c).
Proof.
  intros [Hl Hc _ _ Hu]. unfold Cursor.writable, sub_checked. rewrite Hc. apply checked_ok.
  pose proof (readable_range c). pose proof (layout_ok_bounds l Hl). unfold in_width. lia.
Qed.

Lemma capacity_divides l : layout_ok l → (lcapacity l | 2 ^ 64).
Proof.
  intros (k & Hk & ->). exists (2 ^ (64 - k)). rewrite <- Z.pow_add_r by lia. f_equal. lia.
Qed.

(** Past the wrap of the indices the offsets still agree. *)
Lemma offset_of_head l c i :
  cursor_ok l c → Layout.offset_of l (head c + i) = Layout.offset_of l (tail c + (Cursor.readable c + i)).
Proof.
  intros [Hl _ _ _ _]. rewrite !offset_of_mod by done. f_equal. pose proof (layout_ok_bounds l Hl).
  destruct (capacity_divides l Hl) as [q Hq]. unfold Cursor.readable, wrapping_sub, trunc. rewrite Hq.
  pose proof (Z.div_mod (head c - tail c) (q * lcapacity l) ltac:(lia)) as Hd.
  set (D := (head c - tail c) / (q * lcapacity l)) in *. set (M := (head c - tail c) mod (q * lcapacity l)) in *.
  replace (head c + i) with (tail c + (M + i) + (q * D) * lcapacity l).
  2: { replace (head c) with (tail c + (head c - tail c)) by lia. rewrite Hd. ring. }
  apply Z.mod_add. lia.
Qed.

Lemma offset_inj l at' i j :
  layout_ok l → 0 ≤ i < lcapacity l → 0 ≤ j < lcapacity l →
  Layout.offset_of l (at' + i) = Layout.offset_of l (at' + j) → i = j.
Proof.
  intros Hl Hi Hj. rewrite !offset_of_mod by done. intros He. set (C := lcapacity l) in *.
  assert (Hm : (at' + i) mod C = (at' + j) mod C) by lia.
  pose proof (Z.div_mod (at' + i) C ltac:(lia)) as H1. pose proof (Z.div_mod (at' + j) C ltac:(lia)) as H2.
  rewrite Hm in H1. set (d1 := (at' + i) / C) in *. set (d2 := (at' + j) / C) in *.
  assert (Hd : i - j = C * (d1 - d2)) by lia.
  destruct (Z.lt_trichotomy d1 d2) as [Hlt|[->|Hlt]]; [|lia|]; exfalso; nia.
Qed.

Lemma ring_offsets_head l c n :
  cursor_ok l c → ring_offsets l (head c) n =
  (fun i => Layout.offset_of l (tail c + i)) <$> seqZ (Cursor.readable c) n.
Proof.
  intros Hc. unfold ring_offsets.
  assert (Hs : seqZ (Cursor.readable c) n = Z.add (Cursor.readable c) <$> seqZ 0 n)
    by (rewrite fmap_add_seqZ; f_equal; lia).
  rewrite Hs, <- list_fmap_compose. apply list_fmap_ext. intros k i _. simpl. by apply offset_of_head.
Qed.

(** What is readable and what is writable never share an offset. *)
Lemma read_write_disjoint l c r w :
  cursor_ok l c → 0 ≤ r ≤ Cursor.readable c → 0 ≤ w → Cursor.readable c + w ≤ lcapacity l →
  NoDup (ring_offsets l (tail c) r ++ ring_offsets l (head c) w).
Proof.
  intros Hc Hr Hw Hcap. rewrite ring_offsets_head by done. unfold ring_offsets. rewrite <- fmap_app.
  apply NoDup_fmap_2_strong.
  - intros i j. rewrite !elem_of_app, !elem_of_seqZ. intros Hi Hj He. eapply offset_inj; [apply Hc|lia|lia|done].
  - apply NoDup_app. split_and!; try apply NoDup_seqZ. intros i. rewrite !elem_of_seqZ. lia.
Qed.

Lemma read_runs_spec l c count :
  cursor_ok l c → 0 ≤ count →
  ∃ r, Ring.read_runs l c count = Done r ∧ run_offsets r = ring_offsets l (tail c) (Z.min count (Cursor.readable c)).
Proof.
  intros Hc Hn. pose proof (readable_range c). pose proof (ck_used _ _ Hc). pose proof (ck_tail _ _ Hc) as [? _].
  destruct (runs_from_spec l (tail c) (Z.min count (Cursor.readable c)) (ck_layout _ _ Hc)) as (r & He & Ho & _); [lia|lia|].
  by exists r.
Qed.

Lemma write_runs_spec l c count :
  cursor_ok l c → 0 ≤ count →
  ∃ r, Ring.write_runs l c count = Done r ∧
    run_offsets r = ring_offsets l (head c) (Z.min count (lcapacity l - Cursor.readable c)).
Proof.
  intros Hc Hn. pose proof (readable_range c). pose proof (ck_used _ _ Hc). pose proof (ck_head _ _ Hc) as [? _].
  unfold Ring.write_runs. rewrite (writable_ok l c Hc). cbn [mbind outcome_bind].
  destruct (runs_from_spec l (head c) (Z.min count (lcapacity l - Cursor.readable c)) (ck_layout _ _ Hc)) as (r & He & Ho & _); [lia|lia|].
  by exists r.
Qed.

(** A run never leaves the data area. For a ring laid out in a region of
    [n] bytes and any pair of indices the cursor accepts, however far they have
    run, [read_runs] and [write_runs] return; their runs name, in order, the
    bytes at the next indices, clamped to what is readable or free; every byte
    lies in the region past the header; and no readable byte is writable. *)
Theorem ring_runs_stay_inside n l h t c count :
  0 ≤ n < 2 ^ 63 → Layout.for_region n = Some l → in_width 64 h → in_width 64 t →
  Cursor.new l h t = Some c → 0 ≤ count →
  ∃ rr wr, Ring.read_runs l c count = Done rr ∧ Ring.write_runs l c count = Done wr ∧
    run_offsets rr = ring_offsets l t (Z.min count (Cursor.readable c)) ∧
    run_offsets wr = ring_offsets l h (Z.min count (lcapacity l - Cursor.readable c)) ∧
    (∀ o, o ∈ run_offsets rr ++ run_offsets wr → HEADER_BYTES ≤ o < n) ∧
    NoDup (run_offsets rr ++ run_offsets wr).
Proof.
  intros Hn Hl Hh Ht Hc Hcount. destruct (for_region_spec n l Hn Hl) as [Hlok Hcap].
  destruct (cursor_new_ok l h t c Hlok Hh Ht Hc) as (Hok & <- & <-).
  destruct (read_runs_spec l c count Hok Hcount) as (rr & Her & Hor).
  destruct (write_runs_spec l c count Hok Hcount) as (wr & Hew & How).
  exists rr, wr. rewrite Hor, How. pose proof (readable_range c). pose proof (ck_used _ _ Hok).
  split_and!; try done.
  - intros o [(i & -> & _)%list_elem_of_fmap|(i & -> & _)%list_elem_of_fmap]%elem_of_app;
      [pose proof (offset_of_range l (tail c + i) Hlok)|pose proof (offset_of_range l (head c + i) Hlok)];
      unfold DATA_OFFSET, HEADER_BYTES in *; lia.
  - apply read_write_disjoint; (done || lia).
Qed.

(** ** Frames *)

Lemma wrapping_sub_add h t n :
  in_width 64 h → in_width 64 t → 0 ≤ n → wrapping_sub 64 h t + n < 2 ^ 64 →
  wrapping_sub 64 (h + n) t = wrapping_sub 64 h t + n.
Proof.
  unfold wrapping_sub, trunc, in_width. intros Hh Ht Hn Hb.
  replace (h + n - t) with ((h - t) mod 2 ^ 64 + n + (h - t) / 2 ^ 64 * 2 ^ 64)
    by (pose proof (Z.div_mod (h - t) (2 ^ 64)); lia).
  rewrite Z.mod_add by lia. apply Z.mod_small. pose proof (Z.mod_pos_bound (h - t) (2 ^ 64)). lia.
Qed.

Lemma wrapping_sub_sub h t n :
  in_width 64 h → in_width 64 t → 0 ≤ n ≤ wrapping_sub 64 h t →
  wrapping_sub 64 h (t + n) = wrapping_sub 64 h t - n.
Proof.
  unfold wrapping_sub, trunc, in_width. intros Hh Ht Hn.
  replace (h - (t + n)) with ((h - t) mod 2 ^ 64 - n + (h - t) / 2 ^ 64 * 2 ^ 64)
    by (pose proof (Z.div_mod (h - t) (2 ^ 64)); lia).
  rewrite Z.mod_add by lia. apply Z.mod_small. pose proof (Z.mod_pos_bound (h - t) (2 ^ 64)). lia.
Qed.

(** What a frame of [n] bytes at index [at'] occupies. *)
Definition frame_at (l : Layout) (at' n : Z) (f : Ring.Framed) : Prop :=
  run_offsets (Ring.prefix f) = ring_offsets l at' Ring.PREFIX ∧
  run_offsets (Ring.payload f) = ring_offsets l (at' + Ring.PREFIX) n ∧
  Ring.next f = at' + Ring.PREFIX + n.

Lemma frame_to_write_spec l c n :
  cursor_ok l c → 0 ≤ n → head c + Ring.PREFIX + n < 2 ^ 64 →
  ∃ r, Ring.frame_to_write l c n = Done r ∧
    match r with
    | None => n = 0 ∨ lcapacity l < Cursor.readable c + Ring.PREFIX + n
    | Some f => 0 < n ∧ Cursor.readable c + Ring.PREFIX + n ≤ lcapacity l ∧ frame_at l (head c) n f
    end.
Proof.
  intros Hc Hn Hb. pose proof (layout_ok_bounds l (ck_layout _ _ Hc)). pose proof (readable_range c).
  pose proof (ck_head _ _ Hc) as Hh. pose proof (ck_tail _ _ Hc) as Ht.
  unfold Ring.frame_to_write, Ring.checked_total, Ring.PREFIX in *. unfold in_width in *.
  rewrite (proj2 (Z.ltb_lt _ _)) by lia. rewrite (writable_ok l c Hc). cbn [mbind outcome_bind].
  destruct (Z.eqb_spec n 0) as [->|Hn0]; cbn [orb]; [eexists; split; [done|by left]|].
  destruct (Z.ltb_spec (lcapacity l - Cursor.readable c) (4 + n)); [eexists; split; [done|right; lia]|].
  destruct (write_runs_spec l c 4 Hc) as (pr & -> & Hpr); [lia|]. cbn [mbind outcome_bind].
  unfold add_checked. rewrite !checked_ok by (unfold in_width; lia). cbn [mbind outcome_bind].
  assert (Hused : wrapping_sub 64 (head c + 4) (tail c) = Cursor.readable c + 4).
  { apply wrapping_sub_add; unfold in_width; try lia. fold (Cursor.readable c). lia. }
  rewrite cursor_new_some by lia. set (c1 := MkCursor _ _ _).
  assert (Hc1 : cursor_ok l c1).
  { split; [apply Hc|done|unfold in_width; simpl; lia|apply Hc|]. unfold Cursor.readable. simpl. lia. }
  assert (Hr1 : Cursor.readable c1 = Cursor.readable c + 4) by done.
  destruct (write_runs_spec l c1 n Hc1 Hn) as (pl & -> & Hpl). cbn [mbind outcome_bind].
  eexists. split; [done|]. split; [lia|]. split; [lia|]. unfold frame_at. simpl.
  rewrite Hpr, Hpl, Hr1. unfold Ring.PREFIX. split_and!; [f_equal; lia|f_equal; simpl; lia|lia].
Qed.

Lemma frame_to_read_spec l c n :
  cursor_ok l c → 0 ≤ n → tail c + Ring.PREFIX + n < 2 ^ 64 →
  ∃ r, Ring.frame_to_read l c n = Done r ∧
    match r with
    | None => n = 0 ∨ Cursor.readable c < Ring.PREFIX + n
    | Some f => 0 < n ∧ Ring.PREFIX + n ≤ Cursor.readable c ∧ frame_at l (tail c) n f
    end.
Proof.
  intros Hc Hn Hb. pose proof (layout_ok_bounds l (ck_layout _ _ Hc)). pose proof (readable_range c).
  pose proof (ck_head _ _ Hc) as Hh. pose proof (ck_tail _ _ Hc) as Ht. pose proof (ck_used _ _ Hc).
  unfold Ring.frame_to_read, Ring.checked_total, Ring.PREFIX in *. unfold in_width in *.
  rewrite (proj2 (Z.ltb_lt _ _)) by lia.
  destruct (Z.eqb_spec n 0) as [->|Hn0]; cbn [orb]; [eexists; split; [done|by left]|].
  destruct (Z.ltb_spec (Cursor.readable c) (4 + n)); [eexists; split; [done|right; lia]|].
  destruct (read_runs_spec l c 4 Hc) as (pr & -> & Hpr); [lia|]. cbn [mbind outcome_bind].
  unfold add_checked. rewrite !checked_ok by (unfold in_width; lia). cbn [mbind outcome_bind].
  assert (Hused : wrapping_sub 64 (head c) (tail c + 4) = Cursor.readable c - 4).
  { apply wrapping_sub_sub; unfold in_width; try lia. fold (Cursor.readable c). lia. }
  rewrite cursor_new_some by lia. set (c1 := MkCursor _ _ _).
  assert (Hc1 : cursor_ok l c1).
  { split; [apply Hc|done|apply Hc|unfold in_width; simpl; lia|]. unfold Cursor.readable. simpl. lia. }
  assert (Hr1 : Cursor.readable c1 = Cursor.readable c - 4) by done.
  destruct (read_runs_spec l c1 n Hc1 Hn) as (pl & -> & Hpl). cbn [mbind outcome_bind].
  eexists. split; [done|]. split; [lia|]. split; [lia|]. unfold frame_at. simpl.
  rewrite Hpr, Hpl, Hr1. unfold Ring.PREFIX. split_and!; [f_equal; lia|f_equal; simpl; lia|lia].
Qed.

(** ** The region's bytes *)

Fixpoint store (mem : Z → Z) (offs bytes : list Z) : Z → Z :=
  match offs, bytes with
  | o :: offs', b :: bytes' => store (fun x => if decide (x = o) then b else mem x) offs' bytes'
  | _, _ => mem
  end.

Definition load (mem : Z → Z) (offs : list Z) : list Z := mem <$> offs.

Lemma store_other offs : ∀ mem bytes x, ¬ x ∈ offs → store mem offs bytes x = mem x.
Proof.
  induction offs as [|o offs IH]; intros mem [|b bytes] x Hx; simpl; try done.
  rewrite IH by set_solver. rewrite decide_False by set_solver. done.
Qed.

Lemma load_store offs : ∀ mem bytes,
  NoDup offs → length offs = length bytes → load (store mem offs bytes) offs = bytes.
Proof.
  induction offs as [|o offs IH]; intros mem [|b bytes] Hnd Hlen; simpl in *; try done.
  apply NoDup_cons in Hnd as [Ho Hnd]. f_equal; [|by apply IH; [|lia]].
  rewrite store_other by done. by rewrite decide_True.
Qed.

Lemma load_store_other mem offs bytes offs' :
  (∀ x, x ∈ offs' → ¬ x ∈ offs) → load (store mem offs bytes) offs' = load mem offs'.
Proof.
  intros Hd. unfold load. apply list_fmap_ext. intros i x Hx. apply store_other, Hd. by eapply list_elem_of_lookup_2.
Qed.

(** A producer's whole step: the prefix, the frame, then the new head. *)
Definition produce (mem : Z → Z) (f : Ring.Framed) (prefix_bytes data : list Z) : Z → Z :=
  store (store mem (run_offsets (Ring.prefix f)) prefix_bytes) (run_offsets (Ring.payload f)) data.

Lemma length_ring_offsets l at' n : 0 ≤ n → Z.of_nat (length (ring_offsets l at' n)) = n.
Proof. intros Hn. unfold ring_offsets. rewrite length_fmap, length_seqZ. lia. Qed.

(** Frames survive the ring. If [frame_to_write] accepts a frame, then
    after its prefix and payload are stored and the new head published: the
    cursor is still valid, every byte that was readable before is unchanged, and
    a consumer that has caught up to the frame gets a [frame_to_read] whose
    runs hold exactly that prefix and payload and whose next index is the
    producer's. *)
Theorem ring_frame_roundtrip n l h t c len f mem prefix_bytes data :
  0 ≤ n < 2 ^ 63 → Layout.for_region n = Some l → in_width 64 h → in_width 64 t →
  Cursor.new l h t = Some c → h + Ring.PREFIX + len < 2 ^ 64 →
  Z.of_nat (length prefix_bytes) = Ring.PREFIX → Z.of_nat (length data) = len →
  Ring.frame_to_write l c len = Done (Some f) →
  let mem' := produce mem f prefix_bytes data in
  (∃ c', Cursor.new l (Ring.next f) t = Some c') ∧
  load mem' (ring_offsets l t (Cursor.readable c)) = load mem (ring_offsets l t (Cursor.readable c)) ∧
  ∃ c2 f2, Cursor.new l (Ring.next f) h = Some c2 ∧ Ring.frame_to_read l c2 len = Done (Some f2) ∧
    load mem' (run_offsets (Ring.prefix f2)) = prefix_bytes ∧
    load mem' (run_offsets (Ring.payload f2)) = data ∧ Ring.next f2 = Ring.next f.
Proof.
  intros Hn Hl Hh Ht Hc Hb Hpl Hdl Hw mem'. destruct (for_region_spec n l Hn Hl) as [Hlok _].
  destruct (cursor_new_ok l h t c Hlok Hh Ht Hc) as (Hok & <- & <-).
  pose proof (layout_ok_bounds l Hlok). pose proof (readable_range c) as Hrr.
  destruct (frame_to_write_spec l c len Hok ltac:(lia) Hb) as (r & Hr & Hs).
  rewrite Hw in Hr. injection Hr as <-. destruct Hs as (Hlen & Hroom & Hpre & Hpay & Hnext).
  unfold Ring.PREFIX in *.
  pose proof (read_write_disjoint l c (Cursor.readable c) (4 + len) Hok ltac:(lia) ltac:(lia) ltac:(lia)) as Hnd.
  rewrite ring_offsets_app in Hnd by lia. apply NoDup_app in Hnd as (_ & Hrd & Hnd).
  apply NoDup_app in Hnd as (Hnd1 & Hd12 & Hnd2).
  assert (Hpre' : load mem' (ring_offsets l (head c) 4) = prefix_bytes).
  { unfold mem', produce. rewrite Hpre, Hpay, load_store_other by done. apply load_store; [done|].
    apply Nat2Z.inj. rewrite length_ring_offsets; lia. }
  assert (Hpay' : load mem' (ring_offsets l (head c + 4) len) = data).
  { unfold mem', produce. rewrite Hpay. apply load_store; [done|]. apply Nat2Z.inj. rewrite length_ring_offsets; lia. }
  split_and!.
  - rewrite Hnext. eexists. apply cursor_new_some. rewrite <- Z.add_assoc, wrapping_sub_add; try done;
      fold (Cursor.readable c); lia.
  - unfold mem', produce. rewrite Hpre, Hpay. rewrite !load_store_other; [done| |];
      intros x Hx Hx'; apply (Hrd x Hx), elem_of_app; [by left|by right].
  - assert (Hself : wrapping_sub 64 (Ring.next f) (head c) = 4 + len).
    { rewrite Hnext. unfold wrapping_sub, trunc, in_width in *. rewrite Z.mod_small; lia. }
    exists (MkCursor (Ring.next f) (head c) (lcapacity l)). set (c2 := MkCursor _ _ _).
    assert (Hok2 : cursor_ok l c2).
    { split; [done|done|simpl; rewrite Hnext; unfold in_width in *; lia|done|]. unfold Cursor.readable. simpl. lia. }
    assert (Hr2 : Cursor.readable c2 = 4 + len) by done.
    destruct (frame_to_read_spec l c2 len Hok2 ltac:(lia)) as (r2 & He2 & Hs2); [unfold Ring.PREFIX; simpl; lia|].
    unfold Ring.PREFIX in Hs2. destruct r2 as [f2|]; [|lia]. destruct Hs2 as (_ & _ & Hp2 & Hq2 & Hn2).
    simpl in Hp2, Hq2, Hn2. unfold Ring.PREFIX in *. exists f2.
    split_and!; [apply cursor_new_some; lia|done|by rewrite Hp2|by rewrite Hq2|by rewrite Hn2, Hnext].
Qed.

(** ** Marks *)

(** Disjoint bit fields add up. *)
Lemma lor_disjoint a b k : 0 ≤ a < 2 ^ k → 0 ≤ k → 0 ≤ b → Z.lor a (Z.shiftl b k) = a + b * 2 ^ k.
Proof.
  intros Ha Hk Hb.
  assert (Hl : Z.land a (Z.shiftl b k) = 0).
  { apply Z.bits_inj'. intros i Hi. rewrite Z.land_spec, Z.bits_0, Z.shiftl_spec by lia.
    destruct (decide (i < k)) as [Hlt|Hge]; [rewrite (Z.testbit_neg_r b) by lia; apply andb_false_r|].
    destruct (decide (a = 0)) as [->|]; [by rewrite Z.bits_0|]. rewrite (Z.bits_above_log2 a i); [done|lia|].
    apply (Z.lt_le_trans _ k); [|lia]. apply Z.log2_lt_pow2; lia. }
  pose proof (Z.add_lor_land a (Z.shiftl b k)) as Hs. rewrite Hl in Hs.
  rewrite Z.shiftl_mul_pow2 in * by lia. lia.
Qed.

(** A mark written out as a sum of its three fields. *)
Lemma mark_sum len m (u : bool) :
  0 ≤ len < 2 ^ 24 → match m with Some i => 0 ≤ i < 15 | None => True end →
  Ring.mark len m u = len + (match m with Some i => i + 1 | None => 0 end) * 2 ^ 24 + (if u then 2 ^ 28 else 0).
Proof.
  intros Hl Hm. unfold Ring.mark, Ring.MEMBER_SHIFT, Ring.UPLINK.
  assert (Hland : Z.land len Ring.LENGTH_MASK = len).
  { change Ring.LENGTH_MASK with (Z.ones 24). rewrite Z.land_ones by lia. apply Z.mod_small. lia. }
  rewrite Hland. set (named := match m with Some i => Z.lor len _ | None => len end).
  assert (Hn : named = len + (match m with Some i => i + 1 | None => 0 end) * 2 ^ 24).
  { unfold named. destruct m as [i|]; [|lia]. rewrite trunc_small.
    - apply lor_disjoint; lia.
    - rewrite Z.shiftl_mul_pow2 by lia. unfold in_width. lia. }
  destruct u; [|lia].
  rewrite lor_disjoint; [lia| |lia|lia]. rewrite Hn. destruct m; lia.
Qed.

Lemma marked_fields len f (u : bool) :
  0 ≤ len < 2 ^ 24 → 0 ≤ f < 16 →
  Ring.marked (len + f * 2 ^ 24 + (if u then 2 ^ 28 else 0))
  = (len, if f =? 0 then None else Some (f - 1), u).
Proof.
  intros Hl Hf. unfold Ring.marked, Ring.MEMBER_SHIFT. set (x := len + f * 2 ^ 24 + _).
  assert (H1 : Z.land x Ring.LENGTH_MASK = len).
  { change Ring.LENGTH_MASK with (Z.ones 24). rewrite Z.land_ones by lia. symmetry.
    apply (Z.mod_unique _ _ (f + if u then 16 else 0)); unfold x; destruct u; lia. }
  assert (H2 : Z.shiftr (Z.land x Ring.MEMBER_MASK) 24 = f).
  { rewrite Z.shiftr_land. change (Z.shiftr Ring.MEMBER_MASK 24) with (Z.ones 4).
    rewrite Z.land_ones, Z.shiftr_div_pow2 by lia.
    rewrite <- (Z.div_unique x (2 ^ 24) (f + if u then 16 else 0) len); [|lia|unfold x; destruct u; lia].
    symmetry. apply (Z.mod_unique _ _ (if u then 1 else 0)); destruct u; lia. }
  assert (H3 : Z.land x Ring.UPLINK = if u then 2 ^ 28 else 0).
  { unfold Ring.UPLINK. rewrite Z.shiftl_1_l. apply Z.bits_inj'. intros i Hi. rewrite Z.land_spec, Z.pow2_bits_eqb by lia.
    destruct (Z.eqb_spec 28 i) as [<-|Hne].
    - rewrite andb_true_r. rewrite Z.testbit_eqb by lia.
      rewrite <- (Z.div_unique x (2 ^ 28) (if u then 1 else 0) (len + f * 2 ^ 24)); [|lia|unfold x; destruct u; lia].
      by destruct u.
    - rewrite andb_false_r. destruct u; [rewrite Z.pow2_bits_false by lia|rewrite Z.bits_0]; done. }
  rewrite H1, H2, H3. f_equal; [f_equal|by destruct u].
  destruct (Z.eqb_spec f 0); [done|]. f_equal. apply trunc_small. unfold in_width. lia.
Qed.

(** Marks round trip: for any length below 2^24, any of fifteen members or
    none, and either wire flag, [marked] reads back what [mark] wrote, and the
    prefix fits 32 bits. *)
Theorem mark_roundtrip len m u :
  0 ≤ len < 2 ^ 24 → match m with Some i => 0 ≤ i < 15 | None => True end →
  Ring.marked (Ring.mark len m u) = (len, m, u) ∧ in_width 32 (Ring.mark len m u).
Proof.
  intros Hl Hm. rewrite mark_sum by done. split.
  - rewrite marked_fields; [|done|destruct m; lia]. destruct m as [i|]; [|done].
    destruct (Z.eqb_spec (i + 1) 0); [lia|]. by replace (i + 1 - 1) with i by lia.
  - unfold in_width. destruct m, u; lia.
Qed.

(** Framing does not survive the wrap of the indices. They are documented
    to wrap at [u64], and the cursor accepts a pair that has; but an empty ring
    whose indices stand two bytes below 2^64 accepts a ten-byte transfer as
    runs, while [frame_to_write] stops the machine on [head + PREFIX]. *)
Theorem framing_panics_at_the_wrap :
  let l := MkLayout 4096 in
  let at' := 2 ^ 64 - 2 in
  Layout.for_region 8192 = Some l ∧
  ∃ c r, Cursor.new l at' at' = Some c ∧ Cursor.new l (wrapping_add 64 at' 10) at' ≠ None ∧
    Ring.write_runs l c 10 = Done r ∧ Ring.frame_to_write l c 10 = Panic.
Proof.
  split; [vm_compute; reflexivity|].
  exists (MkCursor (2 ^ 64 - 2) (2 ^ 64 - 2) 4096), (MkRun 4158 2, MkRun 64 8).
  split_and!; [vm_compute; reflexivity|vm_compute; discriminate|vm_compute; reflexivity..].
Qed.

Lemma ring_runs_stay_inside_witness :
  ∃ rr wr, Ring.read_runs (MkLayout 16) (MkCursor 5 (2 ^ 64 - 3) 16) 100 = Done rr ∧
    Ring.write_runs (MkLayout 16) (MkCursor 5 (2 ^ 64 - 3) 16) 100 = Done wr ∧
    run_offsets rr = ring_offsets (MkLayout 16) (2 ^ 64 - 3) (Z.min 100 (Cursor.readable (MkCursor 5 (2 ^ 64 - 3) 16))) ∧
    run_offsets wr = ring_offsets (MkLayout 16) 5 (Z.min 100 (lcapacity (MkLayout 16) - Cursor.readable (MkCursor 5 (2 ^ 64 - 3) 16))) ∧
    (∀ o, o ∈ run_offsets rr ++ run_offsets wr → HEADER_BYTES ≤ o < 80) ∧
    NoDup (run_offsets rr ++ run_offsets wr).
Proof.
  apply (ring_runs_stay_inside 80 (MkLayout 16) 5 (2 ^ 64 - 3) (MkCursor 5 (2 ^ 64 - 3) 16) 100);
    [lia|vm_compute; reflexivity|by vm_compute|by vm_compute|vm_compute; reflexivity|lia].
Defined.

Definition demo_frame : Ring.Framed :=
  Ring.MkFramed (MkRun 78 2, MkRun 64 2) (MkRun 66 3, MkRun 64 0) 37.

Lemma ring_frame_roundtrip_witness :
  let mem' := produce (fun _ => 0) demo_frame [3; 0; 0; 0] [7; 8; 9] in
  (∃ c', Cursor.new (MkLayout 16) (Ring.next demo_frame) 25 = Some c') ∧
  load mem' (ring_offsets (MkLayout 16) 25 (Cursor.readable (MkCursor 30 25 16)))
    = load (fun _ => 0) (ring_offsets (MkLayout 16) 25 (Cursor.readable (MkCursor 30 25 16))) ∧
  ∃ c2 f2, Cursor.new (MkLayout 16) (Ring.next demo_frame) 30 = Some c2 ∧
    Ring.frame_to_read (MkLayout 16) c2 3 = Done (Some f2) ∧
    load mem' (run_offsets (Ring.prefix f2)) = [3; 0; 0; 0] ∧
    load mem' (run_offsets (Ring.payload f2)) = [7; 8; 9] ∧ Ring.next f2 = Ring.next demo_frame.
Proof.
  apply (ring_frame_roundtrip 80 (MkLayout 16) 30 25 (MkCursor 30 25 16) 3 demo_frame (fun _ => 0) [3; 0; 0; 0] [7; 8; 9]);
    [lia|vm_compute; reflexivity|by vm_compute|by vm_compute|vm_compute; reflexivity|vm_compute; reflexivity|done|done|vm_compute; reflexivity].
Defined.

Lemma mark_roundtrip_witness :
  Ring.marked (Ring.mark 1514 (Some 14) true) = (1514, Some 14, true) ∧ in_width 32 (Ring.mark 1514 (Some 14) true).
Proof. apply (mark_roundtrip 1514 (Some 14) true); lia. Defined.
