(* ===== verification/Bytes.v ===== *)
(** * Byte strings and little-endian fields

    The byte-level vocabulary the on-disk formats share: slices, writes in
    place and little-endian integers, with the laws that a field reads back what
    was written and keeps what other fields hold.  Models the helpers of
    src/fs/src/lib.rs ([u16_at], [u32_at], [u64_at], [put]). *)
From stdpp Require Import prelude numbers list.
From S2P Require Import Prelude.
Open Scope Z_scope.
Set Warnings "-clear-no-such-hyp".

(** ** Slices *)

(** [bytes.get(at..at + n)]. *)
Definition get (bytes : list Z) (at' n : nat) : option (list Z) :=
  if decide (at' + n ≤ length bytes)%nat then Some (take n (drop at' bytes)) else None.

(** [bytes.get_mut(at..).copy_from_slice(value)]. *)
Definition splice (bytes : list Z) (at' : nat) (value : list Z) : list Z :=
  take at' bytes ++ value ++ drop (at' + length value) bytes.

(** Writes [value] at [at'], if it fits. *)
Definition put (bytes : list Z) (at' : nat) (value : list Z) : option (list Z) :=
  if decide (at' + length value ≤ length bytes)%nat then Some (splice bytes at' value) else None.

Lemma length_splice bytes at' value :
  (at' + length value ≤ length bytes)%nat → length (splice bytes at' value) = length bytes.
Proof. intros H. unfold splice. rewrite !length_app, length_take, length_drop. lia. Qed.

Lemma lookup_splice bytes at' value i :
  (at' + length value ≤ length bytes)%nat →
  splice bytes at' value !! i =
    if decide (at' ≤ i < at' + length value)%nat then value !! (i - at')%nat else bytes !! i.
Proof.
  intros H. unfold splice. assert (Ht : length (take at' bytes) = at') by (rewrite length_take; lia).
  case_decide as Hi.
  - rewrite lookup_app_r by lia. rewrite Ht, lookup_app_l by lia. done.
  - destruct (decide (i < at')%nat) as [Hlt|Hge].
    + rewrite lookup_app_l by lia. by rewrite lookup_take_lt by lia.
    + rewrite !lookup_app_r by lia. rewrite Ht, lookup_drop. f_equal. lia.
Qed.

Lemma get_spec bytes at' n v :
  get bytes at' n = Some v ↔
  (at' + n ≤ length bytes)%nat ∧ length v = n ∧ ∀ i, (i < n)%nat → v !! i = bytes !! (at' + i)%nat.
Proof.
  unfold get. case_decide as H; [|split; [done|intros [? _]; done]]. split.
  - intros [= <-]. split_and!; [done|rewrite length_take, length_drop; lia|].
    intros i Hi. by rewrite lookup_take_lt, lookup_drop by lia.
  - intros (_ & Hl & Hv). f_equal. apply list_eq. intros i. destruct (decide (i < n)%nat) as [Hi|Hi].
    + rewrite Hv by done. by rewrite lookup_take_lt, lookup_drop by lia.
    + rewrite !lookup_ge_None_2; [done|lia|rewrite length_take, length_drop; lia].
Qed.

Lemma get_some bytes at' n : (at' + n ≤ length bytes)%nat → ∃ v, get bytes at' n = Some v ∧ length v = n.
Proof. intros H. unfold get. rewrite decide_True by done. eexists. split; [done|]. rewrite length_take, length_drop. lia. Qed.

(** A write reads back. *)
Lemma get_splice_same bytes at' value :
  (at' + length value ≤ length bytes)%nat → get (splice bytes at' value) at' (length value) = Some value.
Proof.
  intros H. apply get_spec. rewrite length_splice by done. split_and!; [done|done|].
  intros i Hi. rewrite lookup_splice, decide_True by lia. f_equal. lia.
Qed.

(** A write leaves every other field alone. *)
Lemma get_splice_other bytes at' value at'' n :
  (at' + length value ≤ length bytes)%nat → (at'' + n ≤ at' ∨ at' + length value ≤ at'')%nat →
  get (splice bytes at' value) at'' n = get bytes at'' n.
Proof.
  intros H Hd. destruct (decide (at'' + n ≤ length bytes)%nat) as [Hb|Hb].
  - destruct (get_some bytes at'' n Hb) as (v & Hv & _). rewrite Hv. apply get_spec.
    apply get_spec in Hv as (_ & Hl & Hv). rewrite length_splice by done. split_and!; [done|done|].
    intros i Hi. rewrite Hv by done. rewrite lookup_splice by done. rewrite decide_False by lia. done.
  - unfold get. rewrite length_splice by done. by rewrite !decide_False.
Qed.

Lemma put_ok bytes at' value :
  (at' + length value ≤ length bytes)%nat → put bytes at' value = Some (splice bytes at' value).
Proof. intros H. unfold put. by rewrite decide_True. Qed.

(** A slice of a slice. *)
Lemma get_get bytes a n v b m :
  get bytes a n = Some v → (b + m ≤ n)%nat → get v b m = get bytes (a + b) m.
Proof.
  intros Hv Hbm. apply get_spec in Hv as (H1 & Hl & Hv).
  destruct (get_some bytes (a + b) m) as (w & Hw & Hlw); [lia|]. rewrite Hw. apply get_spec.
  apply get_spec in Hw as (_ & _ & Hw). split_and!; [lia|done|]. intros i Hi. rewrite Hw, Hv by lia. f_equal. lia.
Qed.

(** ** Little-endian integers *)

Fixpoint to_le (n : nat) (v : Z) : list Z :=
  match n with O => [] | S n' => v mod 256 :: to_le n' (v / 256) end.

Fixpoint from_le (bytes : list Z) : Z :=
  match bytes with [] => 0 | b :: bytes' => b + 256 * from_le bytes' end.

Lemma length_to_le n v : length (to_le n v) = n.
Proof. revert v. induction n as [|n IH]; intros v; simpl; [done|]. by rewrite IH. Qed.

Lemma from_to_le n v : 0 ≤ v < 256 ^ Z.of_nat n → from_le (to_le n v) = v.
Proof.
  revert v. induction n as [|n IH]; intros v Hv; [simpl in *; lia|].
  cbn [to_le from_le]. rewrite Nat2Z.inj_succ, Z.pow_succ_r in Hv by lia.
  rewrite IH by (split; [apply Z.div_pos; lia|apply Z.div_lt_upper_bound; lia]).
  pose proof (Z.div_mod v 256). lia.
Qed.

Definition is_byte (b : Z) : Prop := 0 ≤ b < 256.

Lemma from_le_range bytes : Forall is_byte bytes → 0 ≤ from_le bytes < 256 ^ Z.of_nat (length bytes).
Proof.
  induction bytes as [|b bytes IH]; intros Hb; [simpl; lia|]. apply Forall_cons in Hb as [Hb Hbs].
  specialize (IH Hbs). unfold is_byte in Hb. cbn [from_le length]. rewrite Nat2Z.inj_succ, Z.pow_succ_r by lia. lia.
Qed.

Definition le_at (bytes : list Z) (at' n : nat) : option Z := from_le <$> get bytes at' n.
Definition u16_at (bytes : list Z) (at' : nat) : option Z := le_at bytes at' 2.
Definition u32_at (bytes : list Z) (at' : nat) : option Z := le_at bytes at' 4.
Definition u64_at (bytes : list Z) (at' : nat) : option Z := le_at bytes at' 8.

Lemma le_at_same bytes at' n v :
  (at' + n ≤ length bytes)%nat → 0 ≤ v < 256 ^ Z.of_nat n →
  le_at (splice bytes at' (to_le n v)) at' n = Some v.
Proof.
  intros Hl Hv. unfold le_at. pose proof (get_splice_same bytes at' (to_le n v)) as Hg.
  rewrite length_to_le in Hg. rewrite Hg by done. simpl. by rewrite from_to_le.
Qed.

Lemma le_at_other bytes at' value at'' n :
  (at' + length value ≤ length bytes)%nat → (at'' + n ≤ at' ∨ at' + length value ≤ at'')%nat →
  le_at (splice bytes at' value) at'' n = le_at bytes at'' n.
Proof. intros H Hd. unfold le_at. by rewrite get_splice_other. Qed.

(** [le_at] through a slice. *)
Lemma le_at_get bytes a n v b m :
  get bytes a n = Some v → (b + m ≤ n)%nat → le_at v b m = le_at bytes (a + b) m.
Proof. intros Hv Hb. unfold le_at. by rewrite (get_get _ _ _ _ _ _ Hv Hb). Qed.

(** ** Writing a list of fields

    [write_fields b [(at, v); ...]] performs the writes in order. *)
Fixpoint write_fields (bytes : list Z) (fields : list (nat * list Z)) : option (list Z) :=
  match fields with
  | [] => Some bytes
  | (at', v) :: fields' => match put bytes at' v with
                           | Some bytes' => write_fields bytes' fields'
                           | None => None
                           end
  end.

(** Fields laid out one after another, the last ending at or before [stop]. *)
Fixpoint laid_out (from : nat) (fields : list (nat * list Z)) (stop : nat) : Prop :=
  match fields with
  | [] => (from ≤ stop)%nat
  | (at', v) :: fields' => (from ≤ at')%nat ∧ laid_out (at' + length v) fields' stop
  end.

Lemma laid_out_le from fields stop : laid_out from fields stop → (from ≤ stop)%nat.
Proof. revert from. induction fields as [|[a v] fields IH]; intros from H; simpl in H; [done|]. destruct H as [? H%IH]. lia. Qed.

Lemma write_fields_spec fields : ∀ bytes from stop,
  laid_out from fields stop → (stop ≤ length bytes)%nat →
  ∃ out, write_fields bytes fields = Some out ∧ length out = length bytes ∧
    (∀ at' v, (at', v) ∈ fields → get out at' (length v) = Some v) ∧
    (∀ a n, (a + n ≤ from ∨ stop ≤ a)%nat → get out a n = get bytes a n).
Proof.
  induction fields as [|[at' v] fields IH]; intros bytes from stop Hl Hs; simpl in *.
  { exists bytes. split_and!; try done. by intros a v ?%elem_of_nil. }
  destruct Hl as [Hfrom Hl]. pose proof (laid_out_le _ _ _ Hl) as Hle.
  rewrite put_ok by lia. destruct (IH (splice bytes at' v) (at' + length v)%nat stop Hl) as (out & He & Hlen & Hin & Hout);
    [rewrite length_splice; lia|]. rewrite length_splice in Hlen by lia.
  exists out. split_and!; try done.
  - intros a w [[= -> ->]|Hw]%elem_of_cons; [|by apply Hin]. rewrite Hout by lia. apply get_splice_same. lia.
  - intros a n Han. rewrite Hout by lia. apply get_splice_other; lia.
Qed.

(** A field holding a little-endian integer reads back as that integer. *)
Lemma le_at_field out at' n v :
  get out at' (length (to_le n v)) = Some (to_le n v) → 0 ≤ v < 256 ^ Z.of_nat n → le_at out at' n = Some v.
Proof. intros Hg Hv. rewrite length_to_le in Hg. unfold le_at. rewrite Hg. simpl. by rewrite from_to_le. Qed.

(** Fields of a byte string are in range. *)
Lemma get_bytes bytes a n v : Forall is_byte bytes → get bytes a n = Some v → Forall is_byte v.
Proof. unfold get. intros Hb. case_decide; [|done]. intros [= <-]. by apply Forall_take, Forall_drop. Qed.

Lemma le_at_range bytes a n v : Forall is_byte bytes → le_at bytes a n = Some v → 0 ≤ v < 256 ^ Z.of_nat n.
Proof.
  unfold le_at. intros Hb. destruct (get bytes a n) as [w|] eqn:Hg; [|done]. intros [= <-].
  pose proof (from_le_range w (get_bytes _ _ _ _ Hb Hg)) as Hr. apply get_spec in Hg as (_ & <- & _). done.
Qed.

Lemma u16_range bytes a v : Forall is_byte bytes → u16_at bytes a = Some v → in_width 16 v.
Proof. apply (le_at_range bytes a 2 v). Qed.
Lemma u32_range bytes a v : Forall is_byte bytes → u32_at bytes a = Some v → in_width 32 v.
Proof. apply (le_at_range bytes a 4 v). Qed.
Lemma u64_range bytes a v : Forall is_byte bytes → u64_at bytes a = Some v → in_width 64 v.
Proof. apply (le_at_range bytes a 8 v). Qed.

Lemma to_le_bytes n v : Forall is_byte (to_le n v).
Proof.
  revert v. induction n as [|n IH]; intros v; simpl; [constructor|]. constructor; [|apply IH].
  unfold is_byte. apply Z.mod_pos_bound. lia.
Qed.

Lemma splice_bytes bytes a w : Forall is_byte bytes → Forall is_byte w → Forall is_byte (splice bytes a w).
Proof. intros. unfold splice. rewrite !Forall_app. split_and!; [by apply Forall_take|done|by apply Forall_drop]. Qed.

Lemma write_fields_bytes fields : ∀ bytes out,
  Forall is_byte bytes → Forall (fun f => Forall is_byte f.2) fields → write_fields bytes fields = Some out → Forall is_byte out.
Proof.
  induction fields as [|[a w] fields IH]; intros bytes out Hb Hf; simpl; [by intros [= <-]|].
  apply Forall_cons in Hf as [Hw Hf]. destruct (put bytes a w) as [bytes'|] eqn:Hp; [|done].
  apply IH; [|done]. unfold put in Hp. case_decide; [|done]. simplify_eq. by apply splice_bytes.
Qed.

Lemma write_fields_length fields : ∀ bytes out, write_fields bytes fields = Some out → length out = length bytes.
Proof.
  induction fields as [|[a w] fields IH]; intros bytes out; simpl; [by intros [= <-]|].
  destruct (put bytes a w) as [bytes'|] eqn:Hp; [|done]. intros ->%IH. unfold put in Hp. case_decide; [|done].
  simplify_eq. by rewrite length_splice.
Qed.

(** ** Big-endian integers *)
Definition to_be (n : nat) (v : Z) : list Z := reverse (to_le n v).
Definition from_be (bytes : list Z) : Z := from_le (reverse bytes).

Lemma length_to_be n v : length (to_be n v) = n.
Proof. unfold to_be. by rewrite length_reverse, length_to_le. Qed.
Lemma to_be_bytes n v : Forall is_byte (to_be n v).
Proof. unfold to_be. apply Forall_reverse, to_le_bytes. Qed.
Lemma from_to_be n v : 0 ≤ v < 256 ^ Z.of_nat n → from_be (to_be n v) = v.
Proof. intros H. unfold from_be, to_be. by rewrite reverse_involutive, from_to_le. Qed.

(** ** Slices that panic

    [bytes[at..at + value.len()].copy_from_slice(value)] and [&bytes[from..to]]. *)
Definition put_at (bytes : list Z) (at' : nat) (value : list Z) : outcome (list Z) :=
  match put bytes at' value with Some bytes' => Done bytes' | None => Panic end.
Definition slice (bytes : list Z) (from to : nat) : outcome (list Z) :=
  if decide (from ≤ to ∧ to ≤ length bytes)%nat then Done (take (to - from) (drop from bytes)) else Panic.

Lemma put_at_ok bytes a v : (a + length v ≤ length bytes)%nat → put_at bytes a v = Done (splice bytes a v).
Proof. intros H. unfold put_at. by rewrite put_ok. Qed.
Lemma slice_ok bytes from to : (from ≤ to)%nat → (to ≤ length bytes)%nat →
  slice bytes from to = Done (take (to - from) (drop from bytes)).
Proof. intros. unfold slice. by rewrite decide_True. Qed.
