(* ===== verification/Fs.v ===== *)
(** * The on-disk file system format

    Models src/fs/src/lib.rs up to the mounted reader: checksums, the
    superblock, inodes, the block bitmap, directory entries and the formatter.
    Everything is arithmetic over untrusted bytes; an image is a list of bytes,
    and a slice outside it is an error. *)
From stdpp Require Import prelude numbers list.
From S2P Require Import Prelude Bytes.
Open Scope Z_scope.
Set Warnings "-clear-no-such-hyp".

Definition BLOCK : nat := 4096.
Definition BLOCKz : Z := 4096.
Definition INODE : nat := 64.
Definition ENTRY : nat := 32.
Definition MAX_NAME : nat := 27.

(** [u64::from_le_bytes] of the magic strings "BHASKIXF" and "BHASKIXJ". *)
Definition MAGIC : Z := from_le [66; 72; 65; 83; 75; 73; 88; 70].
Definition JOURNAL_MAGIC : Z := from_le [66; 72; 65; 83; 75; 73; 88; 74].
Definition VERSION : Z := 2.
Definition JOURNAL_BLOCKS : Z := 9.

Inductive FsError : Type :=
| NotAFilesystem | OutOfRange | Full | BadName | NotFound | WrongKind | Interrupted | NeedsRecovery.

#[global] Instance FsError_eq_dec : EqDecision FsError.
Proof. solve_decision. Defined.

Inductive Kind : Type := KFree | KFile | KDirectory.

#[global] Instance Kind_eq_dec : EqDecision Kind.
Proof. solve_decision. Defined.

Module Kind.
Definition to_bits (k : Kind) : Z := match k with KFree => 0 | KFile => 1 | KDirectory => 2 end.
Definition from_bits (bits : Z) : Kind :=
  if bits =? 1 then KFile else if bits =? 2 then KDirectory else KFree.
End Kind.

(** FNV-1a, continued from [hash]. *)
Fixpoint checksum_of (hash : Z) (bytes : list Z) : Z :=
  match bytes with
  | [] => hash
  | b :: bytes' => checksum_of (trunc 32 (Z.lxor hash b * 16777619)) bytes'
  end.

Definition FNV_SEED : Z := 2166136261.

(** The final fix-up: a checksum is never zero. *)
Definition nonzero (hash : Z) : Z := if hash =? 0 then 1 else hash.

Definition checksum (bytes : list Z) : Z := nonzero (checksum_of FNV_SEED bytes).

(** [u64::checked_add] and [u64::checked_mul]. *)
Definition fits_u64 (x : Z) : option Z := if x <? 2 ^ 64 then Some x else None.

Record Superblock : Type := MkSuper {
  blocks : Z; inodes : Z; bitmap_start : Z; inode_start : Z;
  journal_start : Z; journal_blocks : Z; data_start : Z; root : Z
}.

Module Superblock.

Definition COVERED : nat := 76.

(** Where inode [index] starts, in bytes. *)
Definition inode_byte (self : Superblock) (index : Z) : option Z :=
  start ← fits_u64 (inode_start self * BLOCKz);
  fits_u64 (start + index * Z.of_nat INODE).

Definition inode_at (self : Superblock) (index : Z) : result (Z * nat) FsError :=
  if inodes self <=? index then Err OutOfRange
  else
    byte ←? ok_or (inode_byte self index) OutOfRange;
    if byte / BLOCKz <? 2 ^ 32 then Ok (byte / BLOCKz, Z.to_nat (byte mod BLOCKz)) else Err OutOfRange.

(** The conditions of the last guard of [read_head], as one boolean. *)
Definition plausible (found : Superblock) (device_blocks : Z) : bool :=
  negb ((blocks found =? 0)
        || (bitmap_start found =? 0)
        || (inode_start found <=? bitmap_start found)
        || (journal_start found <=? inode_start found)
        || (journal_blocks found <? 2)
        || (data_start found <=? journal_start found)
        || negb (data_start found - journal_start found =? journal_blocks found)
        || (blocks found <=? data_start found)
        || (device_blocks <? blocks found)
        || (inodes found <=? root found)).

Definition read_head (head : list Z) (device_blocks : Z) : result Superblock FsError :=
  head ←? ok_or (get head 0 BLOCK) NotAFilesystem;
  if negb (bool_decide (u64_at head 0 = Some MAGIC)) || negb (bool_decide (u32_at head 8 = Some VERSION))
  then Err NotAFilesystem
  else if negb (bool_decide (u32_at head 12 = Some BLOCKz)) then Err NotAFilesystem
  else
    stored ←? ok_or (u32_at head COVERED) NotAFilesystem;
    if negb (stored =? checksum (take COVERED head)) then Err NotAFilesystem
    else
      blocks' ←? ok_or (u64_at head 16) NotAFilesystem;
      inodes' ←? ok_or (u64_at head 24) NotAFilesystem;
      bitmap' ←? ok_or (u64_at head 32) NotAFilesystem;
      inode' ←? ok_or (u64_at head 40) NotAFilesystem;
      journal' ←? ok_or (u64_at head 48) NotAFilesystem;
      jblocks' ←? ok_or (u64_at head 56) NotAFilesystem;
      data' ←? ok_or (u64_at head 64) NotAFilesystem;
      root' ←? ok_or (u32_at head 72) NotAFilesystem;
      let found := MkSuper blocks' inodes' bitmap' inode' journal' jblocks' data' root' in
      if plausible found device_blocks then Ok found else Err OutOfRange.

Definition read (bytes : list Z) : result Superblock FsError :=
  head ←? ok_or (get bytes 0 BLOCK) NotAFilesystem;
  read_head head (Z.of_nat (length bytes) / BLOCKz).

(** The fields of [write], in the order they are put. *)
Definition fields (self : Superblock) : list (nat * list Z) :=
  [(0%nat, to_le 8 MAGIC); (8%nat, to_le 4 VERSION); (12%nat, to_le 4 BLOCKz);
   (16%nat, to_le 8 (blocks self)); (24%nat, to_le 8 (inodes self));
   (32%nat, to_le 8 (bitmap_start self)); (40%nat, to_le 8 (inode_start self));
   (48%nat, to_le 8 (journal_start self)); (56%nat, to_le 8 (journal_blocks self));
   (64%nat, to_le 8 (data_start self)); (72%nat, to_le 4 (root self))].

Definition write (self : Superblock) (bytes : list Z) : result (list Z) FsError :=
  if decide (length bytes < BLOCK)%nat then Err OutOfRange
  else
    head ←? ok_or (write_fields (replicate BLOCK 0) (fields self)) OutOfRange;
    let sum := checksum (take COVERED head) in
    head ←? ok_or (put head COVERED (to_le 4 sum)) OutOfRange;
    Ok (head ++ drop BLOCK bytes).

End Superblock.

Record Inode : Type := MkInode {
  kind : Kind; links : Z; generation : Z; size : Z; direct : list Z; indirect : Z
}.

Module Inode.

Definition COVERED : nat := 60.
Definition free_inode : Inode := MkInode KFree 0 0 0 (replicate 10 0) 0.

(** The loop over the ten direct blocks, from index [which]. *)
Fixpoint read_direct (slot : list Z) (which n : nat) : result (list Z) FsError :=
  match n with
  | O => Ok []
  | S n' =>
      b ←? ok_or (u32_at slot (16 + which * 4)) OutOfRange;
      rest ←? read_direct slot (S which) n';
      Ok (b :: rest)
  end.

Definition decode (slot : list Z) : result Inode FsError :=
  slot ←? ok_or (get slot 0 INODE) OutOfRange;
  stored ←? ok_or (u32_at slot COVERED) OutOfRange;
  if stored =? 0 then Ok free_inode
  else if negb (stored =? checksum (take COVERED slot)) then Err NotAFilesystem
  else
    direct' ←? read_direct slot 0 10;
    kind' ←? ok_or (u16_at slot 0) OutOfRange;
    links' ←? ok_or (u16_at slot 2) OutOfRange;
    generation' ←? ok_or (u32_at slot 4) OutOfRange;
    size' ←? ok_or (u64_at slot 8) OutOfRange;
    indirect' ←? ok_or (u32_at slot 56) OutOfRange;
    Ok (MkInode (Kind.from_bits kind') links' generation' size' direct' indirect').

Definition fields (self : Inode) : list (nat * list Z) :=
  [(0%nat, to_le 2 (Kind.to_bits (kind self))); (2%nat, to_le 2 (links self));
   (4%nat, to_le 4 (generation self)); (8%nat, to_le 8 (size self))]
  ++ imap (fun which block => ((16 + which * 4)%nat, to_le 4 block)) (direct self)
  ++ [(56%nat, to_le 4 (indirect self))].

Definition encode (self : Inode) (slot : list Z) : result (list Z) FsError :=
  if decide (length slot < INODE)%nat then Err OutOfRange
  else
    s ←? ok_or (write_fields (replicate INODE 0) (fields self)) OutOfRange;
    let sum := checksum (take COVERED s) in
    s ←? ok_or (put s COVERED (to_le 4 sum)) OutOfRange;
    Ok (s ++ drop INODE slot).

Definition read (bytes : list Z) (superblock : Superblock) (index : Z) : result Inode FsError :=
  if inodes superblock <=? index then Err OutOfRange
  else
    at' ←? ok_or (Superblock.inode_byte superblock index) OutOfRange;
    slot ←? ok_or (get bytes (Z.to_nat at') INODE) OutOfRange;
    decode slot.

Definition write (self : Inode) (bytes : list Z) (superblock : Superblock) (index : Z)
    : result (list Z) FsError :=
  if inodes superblock <=? index then Err OutOfRange
  else
    at' ←? ok_or (Superblock.inode_byte superblock index) OutOfRange;
    slot ←? ok_or (get bytes (Z.to_nat at') INODE) OutOfRange;
    slot ←? encode self slot;
    Ok (splice bytes (Z.to_nat at') slot).

End Inode.

(** The bitmap's slice of an image, and the blocks it describes. *)
Record Bitmap : Type := MkBitmap { bits : list Z; bm_blocks : Z; first_data : Z }.

Module Bitmap.

(** The region of the image that holds the bitmap: start and length in bytes. *)
Definition extent (superblock : Superblock) : outcome (Z * Z) :=
  start ← mul_checked 64 (bitmap_start superblock) BLOCKz;
  n ← sub_checked 64 (inode_start superblock) (bitmap_start superblock);
  length' ← mul_checked 64 n BLOCKz;
  Done (start, length').

Definition of_image (bytes : list Z) (superblock : Superblock) : outcome (result Bitmap FsError) :=
  '(start, length') ← extent superblock;
  match fits_u64 (start + length') with
  | None => Done (Err OutOfRange)
  | Some _ =>
      bits' ← mul_checked 64 length' 8;
      if bits' <? blocks superblock then Done (Err OutOfRange)
      else Done (match get bytes (Z.to_nat start) (Z.to_nat length') with
                 | Some b => Ok (MkBitmap b (blocks superblock) (data_start superblock))
                 | None => Err OutOfRange
                 end)
  end.

(** A bitmap written through its borrow of the image. *)
Definition store (bytes : list Z) (superblock : Superblock) (self : Bitmap) : outcome (list Z) :=
  '(start, _) ← extent superblock; Done (splice bytes (Z.to_nat start) (bits self)).

Definition used (self : Bitmap) (block : Z) : bool :=
  match bits self !! Z.to_nat (block / 8) with
  | Some byte => negb (Z.land byte (Z.shiftl 1 (block mod 8)) =? 0)
  | None => false
  end.

Definition set (self : Bitmap) (block : Z) (used' : bool) : Bitmap :=
  match bits self !! Z.to_nat (block / 8) with
  | Some byte =>
      let bit := Z.shiftl 1 (block mod 8) in
      let byte' := if used' then Z.lor byte bit else Z.land byte (Z.lxor 255 bit) in
      MkBitmap (<[Z.to_nat (block / 8) := byte']> (bits self)) (bm_blocks self) (first_data self)
  | None => self
  end.

(** [self.first_data..self.blocks]. *)
Definition data_range (self : Bitmap) : list Z := seqZ (first_data self) (bm_blocks self - first_data self).

Definition allocate (self : Bitmap) : result Z FsError * Bitmap :=
  match List.find (fun block => negb (used self block)) (data_range self) with
  | Some block => (Ok block, set self block true)
  | None => (Err Full, self)
  end.

Definition free (self : Bitmap) (block : Z) : result unit FsError * Bitmap :=
  if (block <? first_data self) || (bm_blocks self <=? block) then (Err OutOfRange, self)
  else (Ok tt, set self block false).

(** [Free::first] and [Bitmap::first_free]. *)
Definition first_free (self : Bitmap) : option Z :=
  match List.find (fun block => negb (used self block)) (data_range self) with
  | Some block => if block <? 2 ^ 32 then Some block else None
  | None => None
  end.

Definition in_use (self : Bitmap) : Z :=
  Z.of_nat (length (List.filter (used self) (data_range self))).

End Bitmap.

Record Entry : Type := MkEntry { einode : Z; ename : list Z; elength : Z }.

Module Entry.

Definition new (inode : Z) (name : list Z) : result Entry FsError :=
  if bool_decide (name = []) || bool_decide (MAX_NAME < length name)%nat then Err BadName
  else if existsb (fun byte => (byte =? 47) || (byte =? 0)) name then Err BadName
  else Ok (MkEntry inode (name ++ replicate (MAX_NAME - length name) 0) (Z.of_nat (length name))).

Definition name (self : Entry) : list Z :=
  take (Nat.min (Z.to_nat (elength self)) MAX_NAME) (ename self).

Definition read (bytes : list Z) (at' : nat) : result Entry FsError :=
  slot ←? ok_or (get bytes at' ENTRY) OutOfRange;
  name' ←? ok_or (get slot 5 MAX_NAME) OutOfRange;
  inode' ←? ok_or (u32_at slot 0) OutOfRange;
  length' ←? ok_or (slot !! 4%nat) OutOfRange;
  Ok (MkEntry inode' name' (Z.min length' (Z.of_nat MAX_NAME))).

Definition write (self : Entry) (bytes : list Z) (at' : nat) : result (list Z) FsError :=
  if decide (length bytes < at' + ENTRY)%nat then Err OutOfRange
  else
    slot ←? ok_or (write_fields (replicate ENTRY 0)
      [(0%nat, to_le 4 (einode self)); (4%nat, [elength self]); (5%nat, ename self)]) OutOfRange;
    Ok (splice bytes at' slot).

End Entry.

(** ** The formatter

    [format_sized] zeroes the caller's buffer before it can fail; the model
    returns the image on success and the error alone otherwise. *)
Module Format.

(** Rust's [div_ceil] on [u64]. *)
Definition div_ceil (x y : Z) : Z := if x mod y =? 0 then x / y else x / y + 1.

(** The layout [format_sized] computes; the sums and products are checked. *)
Definition layout (inodes' blocks' : Z) : outcome Superblock :=
  let bitmap_blocks := Z.max (div_ceil blocks' (BLOCKz * 8)) 1 in
  inode_bytes ← mul_checked 64 inodes' (Z.of_nat INODE);
  let inode_blocks := Z.max (div_ceil inode_bytes BLOCKz) 1 in
  inode_start' ← add_checked 64 1 bitmap_blocks;
  journal_start' ← add_checked 64 inode_start' inode_blocks;
  data_start' ← add_checked 64 journal_start' JOURNAL_BLOCKS;
  Done (MkSuper blocks' inodes' 1 inode_start' journal_start' JOURNAL_BLOCKS data_start' 0).

Definition root_inode : Inode := MkInode KDirectory 1 1 0 (replicate 10 0) 0.

(** The last three writes: superblock, bitmap, root inode. *)
Definition fill (bytes : list Z) (superblock : Superblock) : outcome (result (list Z) FsError) :=
  match Superblock.write superblock bytes with
  | Err e => Done (Err e)
  | Ok bytes =>
      bitmap ← Bitmap.of_image bytes superblock;
      match bitmap with
      | Err e => Done (Err e)
      | Ok bitmap =>
          let bitmap := foldl (fun b block => Bitmap.set b block true) bitmap
                          (seqZ 0 (data_start superblock)) in
          bytes ← Bitmap.store bytes superblock bitmap;
          Done (Inode.write root_inode bytes superblock (root superblock))
      end
  end.

Definition format_sized (bytes : list Z) (inodes' blocks' : Z)
    : outcome (result (Superblock * list Z) FsError) :=
  if (blocks' <? 4 + JOURNAL_BLOCKS) || (inodes' =? 0) then Done (Err OutOfRange)
  else
    superblock ← layout inodes' blocks';
    if blocks' <=? data_start superblock then Done (Err OutOfRange)
    else if Z.of_nat (length bytes) / BLOCKz <? data_start superblock then Done (Err OutOfRange)
    else
      r ← fill (replicate (length bytes) 0) superblock;
      Done (bytes ←? r; Ok (superblock, bytes)).

Definition format (bytes : list Z) (inodes' : Z) : outcome (result (Superblock * list Z) FsError) :=
  format_sized bytes inodes' (Z.of_nat (length bytes) / BLOCKz).

End Format.

#[local] Opaque BLOCK.

(** ** Checksums *)

Lemma checksum_of_range bytes : ∀ hash, in_width 32 hash → in_width 32 (checksum_of hash bytes).
Proof. induction bytes as [|b bytes IH]; intros hash Hh; simpl; [done|]. apply IH, trunc_range. lia. Qed.

Lemma nonzero_range h : in_width 32 h → 0 < nonzero h < 2 ^ 32.
Proof. unfold nonzero, in_width. intros H. destruct (Z.eqb_spec h 0); lia. Qed.

Lemma checksum_range bytes : 0 < checksum bytes < 2 ^ 32.
Proof. apply nonzero_range, checksum_of_range. unfold FNV_SEED, in_width. lia. Qed.

(** A checksummed record: fields below [covered], then the sum. *)
Lemma sealed_spec (n covered : nat) flds :
  laid_out 0 flds covered → (covered + 4 ≤ n)%nat →
  ∃ body out, write_fields (replicate n 0) flds = Some body ∧
    put body covered (to_le 4 (checksum (take covered body))) = Some out ∧ length out = n ∧
    (∀ at' v, (at', v) ∈ flds → get out at' (length v) = Some v) ∧
    u32_at out covered = Some (checksum (take covered out)) ∧ take covered out = take covered body.
Proof.
  intros Hl Hn. destruct (write_fields_spec flds (replicate n 0) 0 covered Hl) as (body & He & Hlen & Hin & Hout);
    [rewrite length_replicate; lia|]. rewrite length_replicate in Hlen.
  set (sum := checksum (take covered body)).
  assert (Hsl : length (to_le 4 sum) = 4%nat) by apply length_to_le.
  assert (Htake : take covered (splice body covered (to_le 4 sum)) = take covered body).
  { unfold splice. rewrite take_app_le by (rewrite length_take; lia). rewrite take_take. f_equal. lia. }
  exists body, (splice body covered (to_le 4 sum)). split_and!; try done.
  - apply put_ok. lia.
  - rewrite length_splice; lia.
  - intros at' v Hv. rewrite get_splice_other; [by apply Hin|lia|]. left.
    clear -Hl Hv. revert Hl. generalize 0%nat. induction flds as [|[a w] flds IH]; intros k Hl; [by apply elem_of_nil in Hv|].
    simpl in Hl. destruct Hl as [Hk Hl]. apply elem_of_cons in Hv as [[= -> ->]|Hv].
    + by apply laid_out_le in Hl.
    + by apply (IH Hv (a + length w)%nat).
  - rewrite Htake. apply le_at_same; [lia|]. pose proof (checksum_range (take covered body)). unfold sum.
    change (256 ^ Z.of_nat 4) with (2 ^ 32). lia.
Qed.

(** ** The superblock *)

Record super_ok (s : Superblock) : Prop := {
  so_blocks : in_width 64 (blocks s); so_inodes : in_width 64 (inodes s);
  so_bitmap : in_width 64 (bitmap_start s); so_inode : in_width 64 (inode_start s);
  so_journal : in_width 64 (journal_start s); so_jblocks : in_width 64 (journal_blocks s);
  so_data : in_width 64 (data_start s); so_root : in_width 32 (root s)
}.

Lemma super_laid_out s : laid_out 0 (Superblock.fields s) Superblock.COVERED.
Proof. unfold Superblock.fields, Superblock.COVERED. simpl. lia. Qed.

(** Reads field number [k] of a sealed record. *)
Definition holds_fields (out : list Z) (flds : list (nat * list Z)) : Prop :=
  ∀ a w, (a, w) ∈ flds → get out a (length w) = Some w.

Lemma field_le out flds k at' n v :
  holds_fields out flds → flds !! k = Some (at', to_le n v) → 0 ≤ v < 256 ^ Z.of_nat n → le_at out at' n = Some v.
Proof. intros Hin Hk Hv. apply le_at_field; [|done]. apply Hin. by eapply list_elem_of_lookup_2. Qed.

Lemma field_u64 out flds k at' v :
  holds_fields out flds → flds !! k = Some (at', to_le 8 v) → in_width 64 v → u64_at out at' = Some v.
Proof. intros Hin Hk Hv. by eapply field_le. Qed.
Lemma field_u32 out flds k at' v :
  holds_fields out flds → flds !! k = Some (at', to_le 4 v) → in_width 32 v → u32_at out at' = Some v.
Proof. intros Hin Hk Hv. by eapply field_le. Qed.
Lemma field_u16 out flds k at' v :
  holds_fields out flds → flds !! k = Some (at', to_le 2 v) → in_width 16 v → u16_at out at' = Some v.
Proof. intros Hin Hk Hv. by eapply field_le. Qed.

Lemma get_whole bytes n : length bytes = n → get bytes 0 n = Some bytes.
Proof. intros Hl. apply get_spec. split_and!; [lia|done|]. intros i _. done. Qed.

Lemma read_sealed_super s out dev :
  super_ok s → length out = BLOCK → holds_fields out (Superblock.fields s) →
  u32_at out Superblock.COVERED = Some (checksum (take Superblock.COVERED out)) →
  Superblock.read_head out dev = if Superblock.plausible s dev then Ok s else Err OutOfRange.
Proof.
  intros [] Hlen Hin Hsum. unfold Superblock.read_head. rewrite get_whole by done. cbn [ok_or rbind].
  rewrite (field_u64 _ _ 0 0 MAGIC Hin) by done.
  rewrite (field_u32 _ _ 1 8 VERSION Hin) by done.
  rewrite (field_u32 _ _ 2 12 BLOCKz Hin) by done.
  rewrite !bool_decide_true by done. cbn [negb orb]. rewrite Hsum. cbn [ok_or rbind]. rewrite Z.eqb_refl. cbn [negb].
  rewrite (field_u64 _ _ 3 16 (blocks s) Hin), (field_u64 _ _ 4 24 (inodes s) Hin),
    (field_u64 _ _ 5 32 (bitmap_start s) Hin), (field_u64 _ _ 6 40 (inode_start s) Hin),
    (field_u64 _ _ 7 48 (journal_start s) Hin), (field_u64 _ _ 8 56 (journal_blocks s) Hin),
    (field_u64 _ _ 9 64 (data_start s) Hin), (field_u32 _ _ 10 72 (root s) Hin) by done.
  cbn [ok_or rbind]. by destruct s.
Qed.

Lemma block_value : BLOCK = 4096%nat.
Proof. reflexivity. Qed.

Lemma super_write_spec s bytes :
  (BLOCK ≤ length bytes)%nat →
  ∃ head, Superblock.write s bytes = Ok (head ++ drop BLOCK bytes) ∧ length head = BLOCK ∧
    holds_fields head (Superblock.fields s) ∧
    u32_at head Superblock.COVERED = Some (checksum (take Superblock.COVERED head)).
Proof.
  intros Hl. unfold Superblock.write. rewrite decide_False by lia.
  destruct (sealed_spec BLOCK Superblock.COVERED (Superblock.fields s) (super_laid_out s))
    as (body & out & -> & Hp & Hlen & Hin & Hsum & _); [rewrite block_value; unfold Superblock.COVERED; lia|].
  cbn [ok_or rbind]. rewrite Hp. cbn [ok_or rbind]. by exists out.
Qed.

(** What a believable superblock says: the regions follow one another inside
    the device, the journal has a commit block and room, the root exists. *)
Definition plausible_layout (s : Superblock) (dev : Z) : Prop :=
  0 < bitmap_start s ∧ bitmap_start s < inode_start s ∧ inode_start s < journal_start s ∧
  2 ≤ journal_blocks s ∧ data_start s = journal_start s + journal_blocks s ∧
  data_start s < blocks s ∧ blocks s ≤ dev ∧ root s < inodes s.

Lemma plausible_spec s dev :
  super_ok s → Superblock.plausible s dev = true ↔ plausible_layout s dev.
Proof.
  intros []. unfold Superblock.plausible, plausible_layout, in_width in *.
  rewrite negb_true_iff, !orb_false_iff, negb_false_iff, !Z.eqb_neq, !Z.eqb_eq, !Z.leb_gt, !Z.ltb_ge. lia.
Qed.

(** The superblock round trips, and only a believable one is believed: after
    [write] into an image of at least a block, the rest of the image is
    untouched and [read_head] gives back the same superblock if its regions
    follow one another inside the device, and [OutOfRange] otherwise. *)
Theorem superblock_roundtrip s bytes dev :
  super_ok s → (BLOCK ≤ length bytes)%nat →
  ∃ head, Superblock.write s bytes = Ok (head ++ drop BLOCK bytes) ∧ length head = BLOCK ∧
    (plausible_layout s dev → Superblock.read_head head dev = Ok s) ∧
    (¬ plausible_layout s dev → Superblock.read_head head dev = Err OutOfRange).
Proof.
  intros Hs Hl. destruct (super_write_spec s bytes Hl) as (head & Hw & Hlen & Hin & Hsum).
  exists head. split; [done|]. split; [done|]. rewrite (read_sealed_super s head dev) by done.
  rewrite <- plausible_spec by done. destruct (Superblock.plausible s dev); split; intros; done.
Qed.

(** ** Inodes *)

Record inode_ok (i : Inode) : Prop := {
  io_links : in_width 16 (links i); io_generation : in_width 32 (generation i);
  io_size : in_width 64 (size i); io_direct : length (direct i) = 10%nat;
  io_blocks b : b ∈ direct i → in_width 32 b; io_indirect : in_width 32 (indirect i)
}.

Lemma inode_fields i :
  inode_ok i → ∃ b0 b1 b2 b3 b4 b5 b6 b7 b8 b9, direct i = [b0; b1; b2; b3; b4; b5; b6; b7; b8; b9] ∧
    Inode.fields i =
      [(0%nat, to_le 2 (Kind.to_bits (kind i))); (2%nat, to_le 2 (links i));
       (4%nat, to_le 4 (generation i)); (8%nat, to_le 8 (size i));
       (16%nat, to_le 4 b0); (20%nat, to_le 4 b1); (24%nat, to_le 4 b2); (28%nat, to_le 4 b3);
       (32%nat, to_le 4 b4); (36%nat, to_le 4 b5); (40%nat, to_le 4 b6); (44%nat, to_le 4 b7);
       (48%nat, to_le 4 b8); (52%nat, to_le 4 b9); (56%nat, to_le 4 (indirect i))].
Proof.
  intros [_ _ _ Hd _ _]. unfold Inode.fields. destruct (direct i) as [|b0 l]; [done|]. revert Hd.
  do 9 (destruct l as [|? l]; [done|]). destruct l; [|done]. intros _. repeat eexists.
Qed.

Lemma kind_roundtrip k : Kind.from_bits (Kind.to_bits k) = k.
Proof. by destruct k. Qed.

Lemma inode_encode_spec i slot :
  inode_ok i → (INODE ≤ length slot)%nat →
  ∃ out, Inode.encode i slot = Ok (out ++ drop INODE slot) ∧ length out = INODE ∧ Inode.decode out = Ok i.
Proof.
  intros Hi Hl. unfold Inode.encode. rewrite decide_False by lia.
  destruct (inode_fields i Hi) as (b0 & b1 & b2 & b3 & b4 & b5 & b6 & b7 & b8 & b9 & Hd & Hf).
  assert (Hlaid : laid_out 0 (Inode.fields i) Inode.COVERED) by (rewrite Hf; unfold Inode.COVERED; simpl; lia).
  destruct (sealed_spec INODE Inode.COVERED (Inode.fields i) Hlaid) as (body & out & -> & Hp & Hlen & Hin & Hsum & _);
    [unfold INODE, Inode.COVERED; lia|].
  cbn [ok_or rbind]. rewrite Hp. cbn [ok_or rbind]. exists out. split_and!; [done|done|].
  unfold Inode.decode. rewrite get_whole by done. cbn [ok_or rbind]. rewrite Hsum. cbn [ok_or rbind].
  pose proof (checksum_range (take Inode.COVERED out)). destruct (Z.eqb_spec (checksum (take Inode.COVERED out)) 0); [lia|].
  rewrite Z.eqb_refl. cbn [negb]. fold (holds_fields out (Inode.fields i)) in Hin. rewrite Hf in Hin.
  destruct Hi as [H1 H2 H3 _ Hb H4]. rewrite Hd in Hb.
  assert (Hk : in_width 16 (Kind.to_bits (kind i))) by (unfold in_width; destruct (kind i); simpl; lia).
  cbn [Inode.read_direct Nat.add Nat.mul].
  rewrite (field_u32 _ _ 4 16 b0 Hin), (field_u32 _ _ 5 20 b1 Hin), (field_u32 _ _ 6 24 b2 Hin),
    (field_u32 _ _ 7 28 b3 Hin), (field_u32 _ _ 8 32 b4 Hin), (field_u32 _ _ 9 36 b5 Hin),
    (field_u32 _ _ 10 40 b6 Hin), (field_u32 _ _ 11 44 b7 Hin), (field_u32 _ _ 12 48 b8 Hin),
    (field_u32 _ _ 13 52 b9 Hin) by (done || (apply Hb; rewrite !elem_of_cons; tauto)).
  cbn [ok_or rbind].
  rewrite (field_u16 _ _ 0 0 (Kind.to_bits (kind i)) Hin), (field_u16 _ _ 1 2 (links i) Hin),
    (field_u32 _ _ 2 4 (generation i) Hin), (field_u64 _ _ 3 8 (size i) Hin),
    (field_u32 _ _ 14 56 (indirect i) Hin) by done.
  cbn [ok_or rbind]. rewrite kind_roundtrip, <- Hd. by destruct i.
Qed.

Lemma inode_byte_spec s index at' :
  super_ok s → 0 ≤ index → Superblock.inode_byte s index = Some at' →
  at' = inode_start s * BLOCKz + index * 64 ∧ 0 ≤ at'.
Proof.
  intros [] Hi. unfold Superblock.inode_byte, fits_u64, in_width, BLOCKz in *.
  destruct (inode_start s * 4096 <? 2 ^ 64); simpl; [|done].
  destruct (_ <? _); [|done]. intros [= <-]. change (Z.of_nat INODE) with 64. lia.
Qed.

(** A successful write is one splice of a decodable slot. *)
Lemma inode_write_spec i bytes s index at' :
  inode_ok i → super_ok s → 0 ≤ index < inodes s → Superblock.inode_byte s index = Some at' →
  (Z.to_nat at' + INODE ≤ length bytes)%nat →
  ∃ enc, Inode.write i bytes s index = Ok (splice bytes (Z.to_nat at') enc) ∧ length enc = INODE ∧
    Inode.decode enc = Ok i.
Proof.
  intros Hi Hs H0 Hat Hin. unfold Inode.write. rewrite (proj2 (Z.leb_gt _ _)), Hat by lia. cbn [ok_or rbind].
  destruct (get_some bytes (Z.to_nat at') INODE Hin) as (slot & -> & Hlen). cbn [ok_or rbind].
  destruct (inode_encode_spec i slot Hi) as (enc & -> & Hle & Hdec); [lia|]. cbn [rbind].
  rewrite drop_ge by lia. rewrite app_nil_r. by exists enc.
Qed.

Lemma inode_write_some i bytes s index out :
  Inode.write i bytes s index = Ok out →
  index < inodes s ∧ ∃ at', Superblock.inode_byte s index = Some at' ∧ (Z.to_nat at' + INODE ≤ length bytes)%nat.
Proof.
  unfold Inode.write. destruct (Z.leb_spec (inodes s) index); [done|]. intros Hw. split; [done|].
  destruct (Superblock.inode_byte s index) as [at'|]; [|done]. exists at'. split; [done|]. cbn [ok_or rbind] in Hw.
  destruct (get bytes (Z.to_nat at') INODE) eqn:Hg; [|done]. by apply get_spec in Hg as [? _].
Qed.

Lemma inode_read_spliced bytes s index at' enc i :
  0 ≤ index < inodes s → Superblock.inode_byte s index = Some at' → (Z.to_nat at' + INODE ≤ length bytes)%nat →
  length enc = INODE → Inode.decode enc = Ok i → Inode.read (splice bytes (Z.to_nat at') enc) s index = Ok i.
Proof.
  intros H0 Hat Hin Hle Hdec. unfold Inode.read. rewrite (proj2 (Z.leb_gt _ _)), Hat by lia. cbn [ok_or rbind].
  pose proof (get_splice_same bytes (Z.to_nat at') enc ltac:(lia)) as Hg. rewrite Hle in Hg. rewrite Hg. done.
Qed.

(** What decodes is in range, whatever the bytes. *)
Lemma read_direct_ok slot n : ∀ which l, Forall is_byte slot → Inode.read_direct slot which n = Ok l →
  length l = n ∧ Forall (in_width 32) l.
Proof.
  induction n as [|n IH]; intros which l Hb; simpl; [by intros [= <-]|].
  destruct (u32_at slot _) as [b|] eqn:Hu; cbn [ok_or rbind]; [|done].
  destruct (Inode.read_direct slot (S which) n) as [rest|] eqn:Hr; cbn [rbind]; [|done]. intros [= <-].
  destruct (IH _ _ Hb Hr) as [<- Hf]. split; [done|]. constructor; [by eapply u32_range|done].
Qed.

Lemma decode_ok slot i : Forall is_byte slot → Inode.decode slot = Ok i → inode_ok i.
Proof.
  intros Hb. unfold Inode.decode. destruct (get slot 0 INODE) as [s'|] eqn:Hg; cbn [ok_or rbind]; [|done].
  apply (get_bytes _ _ _ _ Hb) in Hg. destruct (u32_at s' _) as [sum|]; cbn [ok_or rbind]; [|done].
  destruct (sum =? 0).
  { intros [= <-]. split; simpl; try (unfold in_width; lia). intros b Hin.
    apply (Forall_forall (in_width 32) (replicate 10 0)); [apply Forall_replicate; unfold in_width; lia|done]. }
  destruct (negb _); [done|]. destruct (Inode.read_direct s' 0 10) as [d|] eqn:Hd; cbn [rbind]; [|done].
  destruct (read_direct_ok _ _ _ _ Hg Hd) as [Hl Hf].
  destruct (u16_at s' 0) as [k|]; cbn [ok_or rbind]; [|done].
  destruct (u16_at s' 2) as [l|] eqn:Hlk; cbn [ok_or rbind]; [|done].
  destruct (u32_at s' 4) as [g|] eqn:Hgn; cbn [ok_or rbind]; [|done].
  destruct (u64_at s' 8) as [z|] eqn:Hz; cbn [ok_or rbind]; [|done].
  destruct (u32_at s' 56) as [n|] eqn:Hn; cbn [ok_or rbind]; [|done]. intros [= <-].
  split; simpl; eauto using u16_range, u32_range, u64_range. intros b Hin. by eapply Forall_forall in Hf.
Qed.

(** An encoded inode is bytes. *)
Lemma encode_bytes i slot out : Forall is_byte slot → Inode.encode i slot = Ok out → Forall is_byte out.
Proof.
  intros Hb. unfold Inode.encode. case_decide; [done|].
  destruct (write_fields _ _) as [s'|] eqn:Hw; cbn [ok_or rbind]; [|done].
  assert (Hs : Forall is_byte s').
  { eapply write_fields_bytes, Hw; [apply Forall_replicate; unfold is_byte; lia|]. unfold Inode.fields.
    rewrite !Forall_app. rewrite !Forall_cons, !Forall_nil. cbn [snd].
    split_and!; try apply to_le_bytes; try done.
    apply Forall_lookup_2. intros k f. rewrite list_lookup_imap. destruct (direct i !! k) as [x|]; [|done].
    intros [= <-]. exact (to_le_bytes 4 x). }
  destruct (put s' _ _) as [o|] eqn:Hp; cbn [ok_or rbind]; [|done]. intros [= <-]. apply Forall_app. split; [|by apply Forall_drop].
  unfold put in Hp. case_decide; [|done]. simplify_eq. apply splice_bytes; [done|apply to_le_bytes].
Qed.

Lemma encode_length i slot out : length slot = INODE → Inode.encode i slot = Ok out → length out = INODE.
Proof.
  intros Hl. unfold Inode.encode. case_decide; [done|].
  destruct (write_fields _ _) as [b|] eqn:Hw; cbn [ok_or rbind]; [|done]. apply write_fields_length in Hw.
  destruct (put b _ _) as [o|] eqn:Hp; cbn [ok_or rbind]; [|done]. intros [= <-].
  rewrite length_app, length_drop, Hl. unfold put in Hp. case_decide; [|done]. simplify_eq.
  rewrite length_splice, Hw, length_replicate by done. lia.
Qed.

(** The inode table round trips: writing inode [index] reads back as
    written, leaves every other inode of the table, and the length of the
    image, exactly as they were. *)
Theorem inode_table_roundtrip i bytes s index out :
  inode_ok i → super_ok s → 0 ≤ index → Inode.write i bytes s index = Ok out →
  Inode.read out s index = Ok i ∧ length out = length bytes ∧
  ∀ other, 0 ≤ other → other ≠ index → Inode.read out s other = Inode.read bytes s other.
Proof.
  intros Hi Hs H0 Hw. destruct (inode_write_some _ _ _ _ _ Hw) as (Hlt & at' & Hat & Hin).
  destruct (inode_write_spec i bytes s index at' Hi Hs) as (enc & He & Hle & Hdec); [lia|done|done|].
  rewrite Hw in He. injection He as ->. destruct (inode_byte_spec s index at' Hs H0 Hat) as [Hat' Hpos]. split_and!.
  - by eapply inode_read_spliced.
  - apply length_splice. lia.
  - intros other Ho Hne. unfold Inode.read. destruct (Z.leb_spec (inodes s) other); [done|].
    destruct (Superblock.inode_byte s other) as [at''|] eqn:Hat2; cbn [ok_or rbind]; [|done].
    destruct (inode_byte_spec s other at'' Hs Ho Hat2) as [Hat'' Hpos2].
    rewrite get_splice_other; [done|lia|]. rewrite Hle. unfold INODE in *. lia.
Qed.

(** ** Directory entries *)

(** An entry whose fields fit. *)
Definition entry_fits (e : Entry) : Prop :=
  in_width 32 (einode e) ∧ 0 ≤ elength e ≤ Z.of_nat MAX_NAME ∧ length (ename e) = MAX_NAME.

Lemma entry_new_fits inode nm e :
  in_width 32 inode → Entry.new inode nm = Ok e →
  entry_fits e ∧ Entry.name e = nm ∧ einode e = inode ∧ nm ≠ [] ∧ (length nm ≤ MAX_NAME)%nat ∧ ¬ 47 ∈ nm ∧ ¬ 0 ∈ nm.
Proof.
  intros Hi Hnew. unfold Entry.new in Hnew.
  destruct (bool_decide (nm = []) || bool_decide (MAX_NAME < length nm)%nat) eqn:Hb; [done|].
  apply orb_false_iff in Hb as [Hne%bool_decide_eq_false Hmax%bool_decide_eq_false].
  destruct (existsb _ nm) eqn:Hex; [done|]. injection Hnew as <-.
  assert (Hbytes : ¬ 47 ∈ nm ∧ ¬ 0 ∈ nm).
  { split; intros Hin; apply not_true_iff_false in Hex; apply Hex, existsb_exists; eexists; (split; [by apply list_elem_of_In|done]). }
  split_and!; try done; try apply Hbytes; simpl.
  - split_and!; simpl; try lia; [done|]. rewrite length_app, length_replicate. lia.
  - unfold Entry.name. simpl. rewrite Nat2Z.id, Nat.min_l by lia. apply take_app_length.
  - lia.
Qed.

(** What is written reads back, and entries elsewhere in the block are kept. *)
Lemma entry_write_spec e bytes at' :
  entry_fits e → (at' + ENTRY ≤ length bytes)%nat →
  ∃ out, Entry.write e bytes at' = Ok out ∧ length out = length bytes ∧ Entry.read out at' = Ok e ∧
    ∀ other, (other + ENTRY ≤ at' ∨ at' + ENTRY ≤ other)%nat → Entry.read out other = Entry.read bytes other.
Proof.
  intros (Hi & Hlen & Hst) Hl. unfold Entry.write. rewrite decide_False by lia.
  set (flds := [(0%nat, to_le 4 (einode e)); (4%nat, [elength e]); (5%nat, ename e)]).
  assert (Hlaid : laid_out 0 flds ENTRY) by (unfold flds, ENTRY, MAX_NAME in *; simpl in *; lia).
  destruct (write_fields_spec flds (replicate ENTRY 0) 0 ENTRY Hlaid) as (enc & -> & Hle & Hin & _);
    [by rewrite length_replicate|]. rewrite length_replicate in Hle. cbn [ok_or rbind].
  exists (splice bytes at' enc). split; [done|]. split; [apply length_splice; lia|]. split.
  - unfold Entry.read. pose proof (get_splice_same bytes at' enc ltac:(lia)) as Hg.
    rewrite Hle in Hg. rewrite Hg. cbn [ok_or rbind].
    assert (Hname : get enc 5 MAX_NAME = Some (ename e)) by (rewrite <- Hst; apply Hin; set_solver).
    assert (Hlb : get enc 4 1 = Some [elength e]) by (apply (Hin 4%nat [_]); set_solver).
    rewrite Hname. cbn [ok_or rbind]. rewrite (field_u32 enc flds 0 0 (einode e)) by done. cbn [ok_or rbind].
    apply get_spec in Hlb as (_ & _ & Hlb). specialize (Hlb 0%nat ltac:(lia)).
    symmetry in Hlb. simpl in Hlb. rewrite Hlb. cbn [ok_or rbind]. rewrite Z.min_l by lia. by destruct e.
  - intros other Ho. unfold Entry.read. rewrite get_splice_other; [done|lia|]. rewrite Hle. lia.
Qed.

(** Directory entries round trip: a name [Entry::new] accepts has no
    separator, no NUL and at most 27 bytes; written into a directory block and
    read back it is the same name and inode, and no other entry of the block
    changes. *)
Theorem entry_roundtrip inode nm e bytes (slot other : nat) :
  in_width 32 inode → Entry.new inode nm = Ok e → (slot * ENTRY + ENTRY ≤ length bytes)%nat →
  ∃ out, Entry.write e bytes (slot * ENTRY) = Ok out ∧ length out = length bytes ∧
    Entry.read out (slot * ENTRY) = Ok e ∧ Entry.name e = nm ∧ einode e = inode ∧
    (nm ≠ [] ∧ (length nm ≤ MAX_NAME)%nat ∧ ¬ 47 ∈ nm ∧ ¬ 0 ∈ nm) ∧
    (other ≠ slot → Entry.read out (other * ENTRY) = Entry.read bytes (other * ENTRY)).
Proof.
  intros Hi Hnew Hl. destruct (entry_new_fits inode nm e Hi Hnew) as (Hfit & Hname & Hinode & Hnm).
  destruct (entry_write_spec e bytes (slot * ENTRY) Hfit Hl) as (out & Hw & Hlen & Hr & Hother).
  exists out. split_and!; try done; try apply Hnm. intros Hne. apply Hother. unfold ENTRY. lia.
Qed.

(** ** The bitmap *)

Lemma land_pow2 x k : 0 ≤ k → (Z.land x (Z.shiftl 1 k) =? 0) = negb (Z.testbit x k).
Proof.
  intros Hk. rewrite Z.shiftl_1_l. destruct (Z.testbit x k) eqn:Ht.
  - apply Z.eqb_neq. intros H0. assert (Hb : Z.testbit (Z.land x (2 ^ k)) k = false) by (rewrite H0; apply Z.bits_0).
    rewrite Z.land_spec, Ht, Z.pow2_bits_true in Hb by done. done.
  - apply Z.eqb_eq, Z.bits_inj'. intros i Hi. rewrite Z.land_spec, Z.bits_0, Z.pow2_bits_eqb by lia.
    destruct (Z.eqb_spec k i) as [<-|_]; [by rewrite Ht|apply andb_false_r].
Qed.

Record bitmap_ok (b : Bitmap) : Prop := {
  bo_covers : bm_blocks b ≤ 8 * Z.of_nat (length (bits b));
  bo_data : 0 ≤ first_data b
}.

Lemma used_testbit b block :
  0 ≤ block → Bitmap.used b block =
    match bits b !! Z.to_nat (block / 8) with Some byte => Z.testbit byte (block mod 8) | None => false end.
Proof.
  intros H0. unfold Bitmap.used. destruct (bits b !! Z.to_nat (block / 8)); [|done].
  rewrite land_pow2 by (apply Z.mod_pos_bound; lia). by rewrite negb_involutive.
Qed.

Lemma set_used b block v block' :
  0 ≤ block < 8 * Z.of_nat (length (bits b)) → 0 ≤ block' →
  Bitmap.used (Bitmap.set b block v) block' = if decide (block' = block) then v else Bitmap.used b block'.
Proof.
  intros Hb H0. rewrite !used_testbit by done. unfold Bitmap.set.
  pose proof (Z.div_mod block 8 ltac:(lia)) as Hd. pose proof (Z.mod_pos_bound block 8 ltac:(lia)) as Hm.
  pose proof (Z.div_mod block' 8 ltac:(lia)) as Hd'. pose proof (Z.mod_pos_bound block' 8 ltac:(lia)) as Hm'.
  destruct (lookup_lt_is_Some_2 (bits b) (Z.to_nat (block / 8))) as [byte Hbyte]; [lia|]. rewrite Hbyte. simpl.
  rewrite list_lookup_insert. destruct (decide (Z.to_nat (block / 8) = Z.to_nat (block' / 8) ∧ _)) as [[He _]|He].
  - assert (Hq : block / 8 = block' / 8) by lia. rewrite <- He, Hbyte.
    assert (Hbit : ∀ k, 0 ≤ k < 8 → Z.testbit (if v then Z.lor byte (Z.shiftl 1 (block mod 8))
        else Z.land byte (Z.lxor 255 (Z.shiftl 1 (block mod 8)))) k
      = if decide (k = block mod 8) then v else Z.testbit byte k).
    { intros k Hk. rewrite Z.shiftl_1_l. change 255 with (Z.ones 8).
      destruct v; rewrite ?Z.lor_spec, ?Z.land_spec, ?Z.lxor_spec, Z.pow2_bits_eqb by lia;
        rewrite ?(Z.testbit_ones_nonneg 8 k) by lia; destruct (Z.eqb_spec (block mod 8) k) as [<-|Hne];
        rewrite ?decide_True by done; rewrite ?decide_False by lia; rewrite ?orb_true_r, ?orb_false_r; try done;
        rewrite (proj2 (Z.ltb_lt _ _)) by lia; simpl; [apply andb_false_r|apply andb_true_r]. }
    rewrite Hbit by lia. destruct (decide (block' = block)) as [->|Hne]; [by rewrite decide_True|].
    rewrite decide_False by lia. done.
  - rewrite decide_False; [done|]. intros ->. apply He. split; [done|]. by apply lookup_lt_Some in Hbyte.
Qed.

Lemma set_fields b block v :
  bm_blocks (Bitmap.set b block v) = bm_blocks b ∧ first_data (Bitmap.set b block v) = first_data b ∧
  length (bits (Bitmap.set b block v)) = length (bits b).
Proof. unfold Bitmap.set. case_match; simpl; [|done]. by rewrite length_insert. Qed.

(** The number of marked blocks in a list of distinct blocks, after marking one. *)
Lemma filter_mark (p q : Z → bool) x l :
  NoDup l → x ∈ l → p x = false → (∀ y, y ∈ l → q y = if decide (y = x) then true else p y) →
  length (List.filter q l) = S (length (List.filter p l)).
Proof.
  intros Hnd Hx Hp Hq. induction Hnd as [|y l Hy Hnd IH]; [by apply elem_of_nil in Hx|]. simpl.
  rewrite (Hq y) by left. apply elem_of_cons in Hx as [->|Hx].
  - rewrite decide_True, Hp by done. simpl. f_equal.
    rewrite (List.filter_ext_in q p); [done|]. intros z Hz%list_elem_of_In. rewrite (Hq z) by by right.
    rewrite decide_False; [done|]. by intros ->.
  - rewrite decide_False by (by intros ->). rewrite <- Nat.add_1_r in *.
    assert (IH' := IH Hx (fun z Hz => Hq z (list_elem_of_further _ _ _ Hz))). destruct (p y); simpl; lia.
Qed.

(** [Iterator::find] over a range returns the lowest. *)
Lemma find_lowest (p : Z → bool) a n x :
  List.find p (seqZ a n) = Some x → a ≤ x < a + n ∧ p x = true ∧ ∀ y, a ≤ y < x → p y = false.
Proof.
  intros Hf. destruct (List.find_some _ _ Hf) as [Hin%list_elem_of_In Hp]. apply elem_of_seqZ in Hin.
  split; [lia|]. split; [done|]. assert (Hn : n = Z.of_nat (Z.to_nat n)) by lia. rewrite Hn in Hf. clear Hn Hin Hp.
  revert a Hf. generalize (Z.to_nat n) as k. induction k as [|k IH]; intros a Hf; [done|].
  rewrite seqZ_cons in Hf by lia. simpl in Hf. destruct (p a) eqn:Hpa; [injection Hf as <-; lia|].
  replace (Z.pred (Z.of_nat (S k))) with (Z.of_nat k) in Hf by lia. intros y Hy.
  destruct (decide (y = a)) as [->|]; [done|]. apply (IH (Z.succ a) Hf). lia.
Qed.

(** The block bitmap is an exact set. [allocate] marks the lowest free data
    block, never one below [data_start], changes no other block and raises
    [in_use] by one; it answers [Full] only when every data block is in use, and
    then changes nothing. [free] refuses any block that is not data and
    otherwise clears exactly that block. *)
Theorem bitmap_allocate_free b :
  bitmap_ok b →
  match Bitmap.allocate b with
  | (Ok x, b') => first_data b ≤ x < bm_blocks b ∧ Bitmap.used b x = false ∧
      (∀ y, first_data b ≤ y < x → Bitmap.used b y = true) ∧
      (∀ y, 0 ≤ y → Bitmap.used b' y = if decide (y = x) then true else Bitmap.used b y) ∧
      Bitmap.in_use b' = Bitmap.in_use b + 1 ∧ bitmap_ok b'
  | (Err e, b') => e = Full ∧ b' = b ∧ ∀ y, first_data b ≤ y < bm_blocks b → Bitmap.used b y = true
  end ∧
  ∀ x, match Bitmap.free b x with
       | (Ok _, b') => first_data b ≤ x < bm_blocks b ∧ bitmap_ok b' ∧
           ∀ y, 0 ≤ y → Bitmap.used b' y = if decide (y = x) then false else Bitmap.used b y
       | (Err e, b') => e = OutOfRange ∧ b' = b ∧ ¬ first_data b ≤ x < bm_blocks b
       end.
Proof.
  intros [Hc H0].
  assert (Hok : ∀ x v, bitmap_ok (Bitmap.set b x v)).
  { intros x v. destruct (set_fields b x v) as (E1 & E2 & E3). split; [by rewrite E1, E3|by rewrite E2]. }
  split.
  - unfold Bitmap.allocate. destruct (List.find _ _) as [x|] eqn:Hf.
    + destruct (find_lowest _ _ _ _ Hf) as (Hx & Hfree & Hlow). apply negb_true_iff in Hfree.
      assert (Hset : ∀ y, 0 ≤ y → Bitmap.used (Bitmap.set b x true) y = if decide (y = x) then true else Bitmap.used b y)
        by (intros y Hy; apply set_used; lia).
      split_and!; try done; try lia.
      * intros y Hy. apply negb_false_iff, Hlow. lia.
      * unfold Bitmap.in_use, Bitmap.data_range. destruct (set_fields b x true) as (-> & -> & _).
        erewrite (filter_mark (Bitmap.used b)); [|apply NoDup_seqZ|apply elem_of_seqZ; instantiate (1 := x); lia|done|]; [lia|].
        intros y Hy%elem_of_seqZ. apply Hset. lia.
    + split_and!; try done. intros y Hy. apply negb_false_iff.
      apply (List.find_none _ _ Hf), list_elem_of_In, elem_of_seqZ. lia.
  - intros x. unfold Bitmap.free. destruct (Z.ltb_spec x (first_data b)); simpl; [split_and!; try done; lia|].
    destruct (Z.leb_spec (bm_blocks b) x); [split_and!; try done; lia|].
    split_and!; [lia|lia|done|]. intros y Hy. apply set_used; lia.
Qed.

(** ** A fresh file system *)

Lemma mark_range_spec n : ∀ b from,
  0 ≤ from → from + Z.of_nat n ≤ 8 * Z.of_nat (length (bits b)) →
  let b' := foldl (fun b block => Bitmap.set b block true) b (seqZ from (Z.of_nat n)) in
  bm_blocks b' = bm_blocks b ∧ first_data b' = first_data b ∧ length (bits b') = length (bits b) ∧
  ∀ x, 0 ≤ x → Bitmap.used b' x = if decide (from ≤ x < from + Z.of_nat n) then true else Bitmap.used b x.
Proof.
  induction n as [|n IH]; intros b from Hf Hn.
  { simpl. split_and!; try done. intros x Hx. rewrite decide_False by lia. done. }
  rewrite seqZ_cons by lia. cbn [foldl]. replace (Z.pred (Z.of_nat (S n))) with (Z.of_nat n) by lia.
  destruct (set_fields b from true) as (E1 & E2 & E3).
  destruct (IH (Bitmap.set b from true) (Z.succ from)) as (H1 & H2 & H3 & H4); [lia|rewrite E3; lia|].
  rewrite E1 in H1. rewrite E2 in H2. rewrite E3 in H3. split_and!; try done.
  intros x Hx. rewrite H4, set_used by lia.
  repeat case_decide; try done; lia.
Qed.

Lemma zero_bitmap_unused k n d x : 0 ≤ x → Bitmap.used (MkBitmap (replicate k 0) n d) x = false.
Proof.
  intros Hx. unfold Bitmap.used. simpl. destruct (replicate k 0 !! _) as [byte|] eqn:Hb; [|done].
  apply lookup_replicate in Hb as [-> _]. rewrite Z.land_0_l. done.
Qed.

(** The layout of a fresh file system. *)
Lemma div_ceil_bound x y : 0 ≤ x → 0 < y → x ≤ Format.div_ceil x y * y < x + y.
Proof.
  intros Hx Hy. unfold Format.div_ceil. pose proof (Z.div_mod x y ltac:(lia)). pose proof (Z.mod_pos_bound x y Hy).
  destruct (Z.eqb_spec (x mod y) 0); nia.
Qed.

Lemma layout_spec n bl :
  0 < n ≤ 2 ^ 40 → 13 ≤ bl ≤ 2 ^ 40 →
  ∃ s, Format.layout n bl = Done s ∧ super_ok s ∧ blocks s = bl ∧ inodes s = n ∧ bitmap_start s = 1 ∧
    1 < inode_start s ≤ 2 ^ 26 ∧ bl ≤ (inode_start s - 1) * 32768 ∧
    inode_start s < journal_start s ∧ n * 64 ≤ (journal_start s - inode_start s) * 4096 ∧
    journal_blocks s = 9 ∧ data_start s = journal_start s + 9 ∧ root s = 0.
Proof.
  intros Hn Hb. unfold Format.layout, mul_checked, add_checked. change (Z.of_nat INODE) with 64. unfold BLOCKz, JOURNAL_BLOCKS.
  pose proof (div_ceil_bound bl (4096 * 8) ltac:(lia) ltac:(lia)) as H1.
  pose proof (div_ceil_bound (n * 64) 4096 ltac:(lia) ltac:(lia)) as H2.
  set (bb := Format.div_ceil bl (4096 * 8)) in *. set (ib := Format.div_ceil (n * 64) 4096) in *.
  rewrite checked_ok by (unfold in_width; lia). cbn [mbind outcome_bind].
  rewrite checked_ok by (unfold in_width; lia). cbn [mbind outcome_bind].
  rewrite checked_ok by (unfold in_width; lia). cbn [mbind outcome_bind].
  rewrite checked_ok by (unfold in_width; lia). cbn [mbind outcome_bind].
  eexists. split; [done|]. split; [split; unfold in_width; simpl; lia|]. simpl. lia.
Qed.

Lemma get_zeros head L a n :
  length head = BLOCK → (BLOCK ≤ a)%nat → (a + n ≤ L)%nat →
  get (head ++ drop BLOCK (replicate L 0)) a n = Some (replicate n 0).
Proof.
  intros Hh Ha Hn. apply get_spec. rewrite length_app, length_drop, !length_replicate. split_and!; [lia|done|].
  intros i Hi. rewrite lookup_app_r by lia. rewrite lookup_drop, !lookup_replicate_2 by lia. done.
Qed.

(** [read_head] looks at the first block only. *)
Lemma read_head_first out head dev :
  get out 0 BLOCK = Some head → Superblock.read_head out dev = Superblock.read_head head dev.
Proof.
  intros Hg. unfold Superblock.read_head. rewrite Hg. pose proof Hg as (_ & Hl & _)%get_spec.
  by rewrite (get_whole head BLOCK Hl).
Qed.

Lemma root_inode_ok : inode_ok Format.root_inode.
Proof.
  split; unfold in_width; simpl; try lia. intros b. rewrite !elem_of_cons, elem_of_nil.
  intros Hb. assert (b = 0) as -> by tauto. lia.
Qed.

(** An empty file system: it mounts, its root is an empty directory, and the
    blocks in use are exactly its metadata. *)
Definition fresh (s : Superblock) (out : list Z) : Prop :=
  Superblock.read_head out (blocks s) = Ok s ∧ Inode.read out s (root s) = Ok Format.root_inode ∧
  ∃ bm, Bitmap.of_image out s = Done (Ok bm) ∧ bitmap_ok bm ∧
    ∀ x, 0 ≤ x < blocks s → Bitmap.used bm x = bool_decide (x < data_start s).

(** The layouts [format_sized] computes. *)
Record fresh_layout (s : Superblock) : Prop := {
  fl_super : super_ok s;
  fl_plausible : plausible_layout s (blocks s);
  fl_bitmap : bitmap_start s = 1;
  fl_inode : 1 < inode_start s ≤ 2 ^ 26;
  fl_covers : blocks s ≤ (inode_start s - 1) * 32768;
  fl_root : root s = 0
}.

Lemma bitmap_extent s : fresh_layout s → Bitmap.extent s = Done (4096, (inode_start s - 1) * 4096).
Proof.
  intros [_ _ Hb Hi _ _]. unfold Bitmap.extent, mul_checked, sub_checked, BLOCKz. rewrite Hb.
  rewrite checked_ok by (unfold in_width; lia). cbn [mbind outcome_bind].
  rewrite checked_ok by (unfold in_width; lia). cbn [mbind outcome_bind].
  rewrite checked_ok by (unfold in_width; lia). done.
Qed.

Lemma of_image_ok s bytes b :
  fresh_layout s → get bytes 4096 (Z.to_nat ((inode_start s - 1) * 4096)) = Some b →
  Bitmap.of_image bytes s = Done (Ok (MkBitmap b (blocks s) (data_start s))).
Proof.
  intros Hf Hg. unfold Bitmap.of_image. rewrite bitmap_extent by done. destruct Hf as [_ _ _ Hi Hc _].
  cbn [mbind outcome_bind].
  unfold fits_u64. rewrite (proj2 (Z.ltb_lt _ _)) by lia. unfold mul_checked.
  rewrite checked_ok by (unfold in_width; lia). cbn [mbind outcome_bind].
  rewrite (proj2 (Z.ltb_ge _ _)) by lia. change (Z.to_nat 4096) with 4096%nat. by rewrite Hg.
Qed.

(** Marking the metadata of an all-zero bitmap. *)
Lemma metadata_marked s k :
  fresh_layout s → k = Z.to_nat ((inode_start s - 1) * 4096) →
  let b1 := foldl (fun b block => Bitmap.set b block true)
              (MkBitmap (replicate k 0) (blocks s) (data_start s)) (seqZ 0 (data_start s)) in
  length (bits b1) = k ∧ b1 = MkBitmap (bits b1) (blocks s) (data_start s) ∧ bitmap_ok b1 ∧
  ∀ x, 0 ≤ x < blocks s → Bitmap.used b1 x = bool_decide (x < data_start s).
Proof.
  intros [_ (_ & _ & ? & ? & ? & ? & _ & _) _ Hi Hc _] Hk b1.
  assert (Hd : Z.of_nat (Z.to_nat (data_start s)) = data_start s) by lia.
  pose proof (mark_range_spec (Z.to_nat (data_start s)) (MkBitmap (replicate k 0) (blocks s) (data_start s)) 0) as Hmark.
  rewrite Hd in Hmark. destruct Hmark as (E1 & E2 & E3 & Hu); [lia|simpl; rewrite length_replicate; lia|].
  fold b1 in E1, E2, E3, Hu. simpl in E1, E2, E3. rewrite length_replicate in E3.
  split_and!; [done|rewrite <- E1, <- E2 at 1; by destruct b1|split; [rewrite E1, E3; lia|rewrite E2; lia]|].
  intros x Hx. rewrite Hu by lia. rewrite zero_bitmap_unused by lia.
  case_decide; [rewrite bool_decide_true by lia|rewrite bool_decide_false by lia]; done.
Qed.

Lemma fill_spec s L :
  fresh_layout s → data_start s * 4096 ≤ Z.of_nat L →
  ∃ out, Format.fill (replicate L 0) s = Done (Ok out) ∧ length out = L ∧ fresh s out.
Proof.
  intros Hfl HL. pose proof Hfl as [Hs Hpl Hb Hi Hbl Hroot].
  pose proof Hpl as (_ & _ & Hij & Hjb & Hdj & Hdb & _ & Hri). unfold Format.fill.
  destruct (super_write_spec s (replicate L 0)) as (head & -> & Hlh & Hin & Hsum); [rewrite length_replicate, block_value; lia|].
  set (img := head ++ drop BLOCK (replicate L 0)). set (k := Z.to_nat ((inode_start s - 1) * 4096)).
  assert (Hli : length img = L) by (unfold img; rewrite length_app, length_drop, length_replicate, Hlh, block_value; lia).
  rewrite (of_image_ok s img (replicate k 0)) by first [exact Hfl | apply get_zeros; [done|rewrite block_value; lia|unfold k; lia]].
  cbn [mbind outcome_bind]. destruct (metadata_marked s k Hfl eq_refl) as (Hlb & Hb1 & Hbok & Hused).
  set (b1 := foldl _ _ _) in *.
  unfold Bitmap.store. rewrite bitmap_extent by done. cbn [mbind outcome_bind]. change (Z.to_nat 4096) with 4096%nat.
  set (img2 := splice img 4096 (bits b1)).
  assert (Hl2 : length img2 = L) by (unfold img2; rewrite length_splice; [done|unfold k in *; lia]).
  assert (Hib : Superblock.inode_byte s (root s) = Some (inode_start s * 4096)).
  { unfold Superblock.inode_byte, fits_u64, BLOCKz. rewrite Hroot.
    rewrite (proj2 (Z.ltb_lt _ _)) by lia. simpl. rewrite (proj2 (Z.ltb_lt _ _)) by lia. f_equal. lia. }
  destruct (inode_write_spec Format.root_inode img2 s (root s) _ root_inode_ok Hs ltac:(lia) Hib) as (enc & -> & Hle & Hdec);
    [unfold INODE; lia|]. set (at' := Z.to_nat (inode_start s * 4096)).
  exists (splice img2 at' enc). split; [done|]. split; [rewrite length_splice; unfold at', INODE in *; lia|].
  assert (Hfirst : get (splice img2 at' enc) 0 BLOCK = Some head).
  { rewrite get_splice_other by (rewrite ?block_value; unfold at', INODE in *; lia). unfold img2.
    rewrite get_splice_other by (rewrite ?block_value; unfold k in *; lia). apply get_spec. rewrite Hli.
    split_and!; [rewrite block_value; lia|done|]. intros i Hi'. unfold img. by rewrite lookup_app_l by lia. }
  split_and!.
  - rewrite (read_head_first _ _ _ Hfirst), (read_sealed_super s head) by done.
    by rewrite (proj2 (plausible_spec s (blocks s) Hs)).
  - apply inode_read_spliced; try done; [lia|unfold INODE; lia].
  - exists b1. split; [|done]. rewrite Hb1. apply of_image_ok; [done|].
    rewrite get_splice_other by (unfold at', INODE, k in *; lia). fold k. rewrite <- Hlb. apply get_splice_same. unfold k in *. lia.
Qed.

(** A formatted image is a mountable, empty file system. Whenever the
    device has room for the metadata, [format_sized] returns an image of the
    same length whose superblock reads back as the one returned, whose root is
    an empty directory, and in which a block is in use exactly when it lies
    below [data_start]; it refuses rather than write a layout that does not
    fit. *)
Theorem format_gives_fresh_filesystem bytes n bl :
  0 < n ≤ 2 ^ 40 → 0 ≤ bl ≤ 2 ^ 40 →
  ∃ r, Format.format_sized bytes n bl = Done r ∧
    match r with
    | Ok (s, out) => blocks s = bl ∧ inodes s = n ∧ length out = length bytes ∧ fresh s out ∧
        n * 64 ≤ (journal_start s - inode_start s) * 4096
    | Err e => e = OutOfRange ∧ (bl < 13 ∨ ∃ s, Format.layout n bl = Done s ∧
        (bl ≤ data_start s ∨ Z.of_nat (length bytes) < data_start s * 4096))
    end.
Proof.
  intros Hn Hb. unfold Format.format_sized, JOURNAL_BLOCKS.
  destruct (Z.ltb_spec bl (4 + 9)); simpl; [eexists; split; [done|]; split; [done|by left]|].
  destruct (Z.eqb_spec n 0); [lia|].
  destruct (layout_spec n bl Hn ltac:(lia)) as (s & -> & Hs & H1 & H2 & H3 & H4 & H5 & H6 & H7 & H8 & H9 & H10).
  cbn [mbind outcome_bind]. destruct (Z.leb_spec bl (data_start s)).
  { eexists. split; [done|]. split; [done|]. right. exists s. split; [done|by left]. }
  unfold BLOCKz. destruct (Z.ltb_spec (Z.of_nat (length bytes) / 4096) (data_start s)) as [Hlt|Hge].
  { eexists. split; [done|]. split; [done|]. right. exists s. split; [done|]. right.
    pose proof (Z.div_mod (Z.of_nat (length bytes)) 4096). pose proof (Z.mod_pos_bound (Z.of_nat (length bytes)) 4096). lia. }
  destruct (fill_spec s (length bytes)) as (out & -> & Hlo & Hfr).
  - split; try done; [|lia]. unfold plausible_layout. lia.
  - pose proof (Z.div_mod (Z.of_nat (length bytes)) 4096). pose proof (Z.mod_pos_bound (Z.of_nat (length bytes)) 4096). lia.
  - cbn [mbind outcome_bind rbind]. eexists. split; [done|]. split_and!; try done; lia.
Qed.

(** ** A small image *)

Definition demo_super : Superblock := MkSuper 20 128 1 2 4 9 13 0.
Definition demo_inode : Inode := MkInode KFile 1 3 5000 [14; 15; 0; 0; 0; 0; 0; 0; 0; 0] 0.

Lemma demo_super_ok : super_ok demo_super.
Proof. split; unfold in_width; simpl; lia. Qed.

Lemma demo_inode_ok : inode_ok demo_inode.
Proof.
  split; unfold in_width; simpl; try lia. intros b. rewrite !elem_of_cons, elem_of_nil.
  intros Hb. assert (b = 14 ∨ b = 15 ∨ b = 0) by tauto. lia.
Qed.

Lemma superblock_roundtrip_witness :
  ∃ head, Superblock.write demo_super (replicate BLOCK 7) = Ok (head ++ drop BLOCK (replicate BLOCK 7)) ∧
    length head = BLOCK ∧
    (plausible_layout demo_super 20 → Superblock.read_head head 20 = Ok demo_super) ∧
    (¬ plausible_layout demo_super 20 → Superblock.read_head head 20 = Err OutOfRange).
Proof.
  apply (superblock_roundtrip demo_super (replicate BLOCK 7) 20 demo_super_ok). rewrite length_replicate. lia.
Defined.

(** One slot of an inode table that starts the image. *)
Definition demo_table : Superblock := MkSuper 20 2 0 0 4 9 13 0.

Lemma demo_table_ok : super_ok demo_table.
Proof. split; unfold in_width; simpl; lia. Qed.

Definition demo_written : list Z :=
  match Inode.write demo_inode (replicate 128 0) demo_table 1 with Ok out => out | Err _ => [] end.

Lemma inode_table_roundtrip_witness :
  Inode.read demo_written demo_table 1 = Ok demo_inode ∧ length demo_written = length (replicate 128 0) ∧
  ∀ other, 0 ≤ other → other ≠ 1 → Inode.read demo_written demo_table other = Inode.read (replicate 128 0) demo_table other.
Proof.
  apply (inode_table_roundtrip demo_inode (replicate 128 0) demo_table 1 demo_written demo_inode_ok demo_table_ok);
    [lia|vm_compute; reflexivity].
Defined.

Definition demo_entry : Entry := MkEntry 9 ([104; 105] ++ replicate 25 0) 2.

Lemma entry_roundtrip_witness :
  ∃ out, Entry.write demo_entry (replicate 96 1) (1 * ENTRY) = Ok out ∧ length out = length (replicate 96 1) ∧
    Entry.read out (1 * ENTRY) = Ok demo_entry ∧ Entry.name demo_entry = [104; 105] ∧ einode demo_entry = 9 ∧
    ([104; 105] ≠ [] ∧ (length [104; 105] ≤ MAX_NAME)%nat ∧ ¬ 47 ∈ [104; 105] ∧ ¬ 0 ∈ [104; 105]) ∧
    (2%nat ≠ 1%nat → Entry.read out (2 * ENTRY) = Entry.read (replicate 96 1) (2 * ENTRY)).
Proof.
  apply (entry_roundtrip 9 [104; 105] demo_entry (replicate 96 1) 1 2); [by vm_compute|vm_compute; reflexivity|].
  rewrite length_replicate. unfold ENTRY. lia.
Defined.

Definition demo_bitmap : Bitmap := MkBitmap [7; 0] 12 3.

Lemma bitmap_allocate_free_witness :
  match Bitmap.allocate demo_bitmap with
  | (Ok x, b') => first_data demo_bitmap ≤ x < bm_blocks demo_bitmap ∧ Bitmap.used demo_bitmap x = false ∧
      (∀ y, first_data demo_bitmap ≤ y < x → Bitmap.used demo_bitmap y = true) ∧
      (∀ y, 0 ≤ y → Bitmap.used b' y = if decide (y = x) then true else Bitmap.used demo_bitmap y) ∧
      Bitmap.in_use b' = Bitmap.in_use demo_bitmap + 1 ∧ bitmap_ok b'
  | (Err e, b') => e = Full ∧ b' = demo_bitmap ∧
      ∀ y, first_data demo_bitmap ≤ y < bm_blocks demo_bitmap → Bitmap.used demo_bitmap y = true
  end ∧
  ∀ x, match Bitmap.free demo_bitmap x with
       | (Ok _, b') => first_data demo_bitmap ≤ x < bm_blocks demo_bitmap ∧ bitmap_ok b' ∧
           ∀ y, 0 ≤ y → Bitmap.used b' y = if decide (y = x) then false else Bitmap.used demo_bitmap y
       | (Err e, b') => e = OutOfRange ∧ b' = demo_bitmap ∧ ¬ first_data demo_bitmap ≤ x < bm_blocks demo_bitmap
       end.
Proof. apply (bitmap_allocate_free demo_bitmap). split; simpl; lia. Defined.

Lemma format_gives_fresh_filesystem_witness :
  ∃ r, Format.format_sized (replicate (16 * BLOCK) 0) 16 20 = Done r ∧
    match r with
    | Ok (s, out) => blocks s = 20 ∧ inodes s = 16 ∧ length out = length (replicate (16 * BLOCK) 0) ∧ fresh s out ∧
        16 * 64 ≤ (journal_start s - inode_start s) * 4096
    | Err e => e = OutOfRange ∧ (20 < 13 ∨ ∃ s, Format.layout 16 20 = Done s ∧
        (20 ≤ data_start s ∨ Z.of_nat (length (replicate (16 * BLOCK) 0)) < data_start s * 4096))
    end.
Proof. apply (format_gives_fresh_filesystem (replicate (16 * BLOCK) 0) 16 20); lia. Defined.

(** [Free::used] is documented to read a block outside the bitmap as taken; the
    slice lookup answers [false]. *)
Example used_outside_the_bitmap_is_free : Bitmap.used (MkBitmap [255] 8 0) 8 = false.
Proof. reflexivity. Qed.

(** The inode count of a superblock is not checked against its inode table: one
    with a table of two blocks and 100,000 inodes is believed, and [inode_at]
    then names a block past the end of the device. *)
Example inode_count_is_not_bounded_by_the_table :
  let s := MkSuper 20 100000 1 2 4 9 13 0 in
  Superblock.plausible s 20 = true ∧ Superblock.inode_at s 99999 = Ok (1564, 1984%nat) ∧ blocks s < 1564.
Proof. vm_compute. done. Qed.
