(* ===== verification/Cache.v ===== *)
(** * The block cache

    Models src/fs/src/cache.rs: the [Store] and [Pages] traits, an image and a
    device in memory, and the write-back cache with its pins.  [Watched] is the
    interrupted device of src/kernel/src/lib.rs. *)
From stdpp Require Import prelude numbers list.
From S2P Require Import Prelude Bytes Fs.
Open Scope Z_scope.
Set Warnings "-clear-no-such-hyp".

Definition MAX_FRAMES : nat := 64.
Definition MIN_FRAMES : nat := 2.

(** A block device.  [st_read] is handed the buffer and answers with what it
    left there. *)
Class Store (S : Type) : Type := {
  st_blocks : S → Z;
  st_read : S → Z → list Z → result unit FsError * list Z * S;
  st_write : S → Z → list Z → result unit FsError * S
}.

(** Where a block is, as bytes, right now. *)
Class Pages (P : Type) : Type := {
  pg_blocks : P → Z;
  page : Z → prog P FsError (list Z)
}.

(** [(block as usize).checked_mul(BLOCK)] on a 64-bit machine. *)
Definition block_at (block : Z) : nat := Z.to_nat block * BLOCK.

(** [u32::try_from(bytes.len() / BLOCK).unwrap_or(u32::MAX)]. *)
Definition whole_blocks (bytes : list Z) : Z :=
  Z.min (Z.of_nat (length bytes) / BLOCKz) (2 ^ 32 - 1).

(** A whole image in memory, as a reader of pages and as a device. *)
Record Image : Type := MkImage { image_bytes : list Z }.
Record Memory : Type := MkMemory { memory_bytes : list Z }.

Definition image_page (block : Z) : prog Image FsError (list Z) := fun self =>
  Done (ok_or (get (image_bytes self) (block_at block) BLOCK) OutOfRange, self).

#[global] Instance image_pages : Pages Image := {
  pg_blocks := fun self => whole_blocks (image_bytes self);
  page := image_page
}.

(** [into.get_mut(..BLOCK).ok_or(..)?.copy_from_slice(from)]. *)
Definition copy_block (into from : list Z) : option (list Z) :=
  if decide (BLOCK ≤ length into)%nat then Some (splice into 0 from) else None.

Definition read_bytes (bytes : list Z) (block : Z) (into : list Z) : result unit FsError * list Z :=
  match get bytes (block_at block) BLOCK with
  | Some from =>
      match copy_block into from with
      | Some out => (Ok (), out)
      | None => (Err OutOfRange, into)
      end
  | None => (Err OutOfRange, into)
  end.

Definition write_bytes (bytes : list Z) (block : Z) (from : list Z) : result (list Z) FsError :=
  match get bytes (block_at block) BLOCK with
  | Some _ =>
      match get from 0 BLOCK with
      | Some data => Ok (splice bytes (block_at block) data)
      | None => Err OutOfRange
      end
  | None => Err OutOfRange
  end.

Definition memory_read (self : Memory) (block : Z) (into : list Z)
    : result unit FsError * list Z * Memory :=
  (read_bytes (memory_bytes self) block into, self).

Definition memory_write (self : Memory) (block : Z) (from : list Z)
    : result unit FsError * Memory :=
  match write_bytes (memory_bytes self) block from with
  | Ok bytes' => (Ok (), MkMemory bytes')
  | Err e => (Err e, self)
  end.

#[global] Instance memory_store : Store Memory := {
  st_blocks := fun self => whole_blocks (memory_bytes self);
  st_read := memory_read;
  st_write := memory_write
}.

(** A device that stops after [wlimit] writes. *)
Record Watched : Type := MkWatched {
  wbytes : list Z; seen : Z; wlimit : Z; commit_block : Z; commit_at : option Z
}.

Definition watched_read (self : Watched) (block : Z) (into : list Z)
    : result unit FsError * list Z * Watched :=
  (read_bytes (wbytes self) block into, self).

Definition watched_write (self : Watched) (block : Z) (from : list Z)
    : result unit FsError * Watched :=
  if wlimit self <=? seen self then (Err Interrupted, self)
  else
    match write_bytes (wbytes self) block from with
    | Ok bytes' =>
        (Ok (), MkWatched bytes' (seen self + 1) (wlimit self) (commit_block self)
                  (if (block =? commit_block self) && bool_decide (commit_at self = None)
                   then Some (seen self) else commit_at self))
    | Err e => (Err e, self)
    end.

#[global] Instance watched_store : Store Watched := {
  st_blocks := fun self => whole_blocks (wbytes self);
  st_read := watched_read;
  st_write := watched_write
}.

(** What one frame is holding. *)
Record Slot : Type := MkSlot { sblock : option Z; dirty : bool; used : Z; pinned : bool }.

#[global] Instance Slot_eq_dec : EqDecision Slot.
Proof. solve_decision. Defined.

Definition empty_slot : Slot := MkSlot None false 0 false.
Definition set_dirty (s : Slot) (d : bool) : Slot := MkSlot (sblock s) d (used s) (pinned s).
Definition set_used (s : Slot) (t : Z) : Slot := MkSlot (sblock s) (dirty s) t (pinned s).
Definition set_pinned (s : Slot) (p : bool) : Slot := MkSlot (sblock s) (dirty s) (used s) p.

Record Cache (S : Type) : Type := MkCache {
  frames : list Z; slots : list Slot; count : nat; clock : Z; store : S;
  hits : Z; misses : Z; written : Z
}.
Arguments MkCache {S}.
Arguments frames {S}.
Arguments slots {S}.
Arguments count {S}.
Arguments clock {S}.
Arguments store {S}.
Arguments hits {S}.
Arguments misses {S}.
Arguments written {S}.

Module Cache.
Section Cache.
Context {S : Type} `{!Store S}.
Implicit Types self : Cache S.

Definition new (frames' : list Z) (store' : S) : result (Cache S) FsError :=
  let count' := Nat.min (length frames' / BLOCK) MAX_FRAMES in
  if (count' <? MIN_FRAMES)%nat then Err OutOfRange
  else Ok (MkCache frames' (replicate MAX_FRAMES empty_slot) count' 0 store' 0 0 0).

(** Assignments to one field or one slot. *)
Definition with_slot self (i : nat) (s : Slot) : Cache S :=
  MkCache (frames self) (<[i := s]> (slots self)) (count self) (clock self) (store self)
    (hits self) (misses self) (written self).
Definition with_frames self (f : list Z) : Cache S :=
  MkCache f (slots self) (count self) (clock self) (store self) (hits self) (misses self) (written self).
Definition with_store self (st : S) : Cache S :=
  MkCache (frames self) (slots self) (count self) (clock self) st (hits self) (misses self) (written self).
Definition with_counters self (c h m w : Z) : Cache S :=
  MkCache (frames self) (slots self) (count self) c (store self) h m w.

(** The bytes of one frame; out of the buffer's range it panics. *)
Definition frame self (slot : nat) : outcome (list Z) :=
  match get (frames self) (slot * BLOCK) BLOCK with Some f => Done f | None => Panic end.

(** A write through [frame_mut]. *)
Definition put_frame self (slot : nat) (bytes : list Z) : outcome (Cache S) :=
  match put (frames self) (slot * BLOCK) bytes with
  | Some f => Done (with_frames self f)
  | None => Panic
  end.

Definition counted self : Z * Z * Z := (hits self, misses self, written self).

(** Which frame holds [block], if any. *)
Definition resident self (block : Z) : option nat :=
  position (fun s => bool_decide (sblock s = Some block)) (take (count self) (slots self)).

(** The scan for the least recently wanted unpinned frame; [oldest] is the best
    so far, with the slot it names. *)
Fixpoint oldest_loop (index : nat) (rest : list Slot) (oldest : option (nat * Slot))
    : option (nat * Slot) :=
  match rest with
  | [] => oldest
  | slot :: rest' =>
      if pinned slot then oldest_loop (index + 1) rest' oldest
      else
        let oldest' :=
          match oldest with
          | Some (best, bslot) => if used bslot <=? used slot then oldest else Some (index, slot)
          | None => Some (index, slot)
          end in
        oldest_loop (index + 1) rest' oldest'
  end.

(** The frame to use next: an empty one, or the least recently wanted, never a
    pinned one. *)
Definition victim self : option nat :=
  match position (fun s => bool_decide (sblock s = None)) (take (count self) (slots self)) with
  | Some free => Some free
  | None => fst <$> oldest_loop 0 (take (count self) (slots self)) None
  end.

(** Writes one frame back, if it needs it. *)
Definition write_back (slot : nat) : prog (Cache S) FsError unit := fun self =>
  s ← at_index (slots self) slot;
  if negb (dirty s) then Done (Ok (), self)
  else
    match sblock s with
    | None => Done (Ok (), self)
    | Some block =>
        bytes ← frame self slot;
        let '(r, st) := st_write (store self) block bytes in
        let self := with_store self st in
        match r with
        | Err e => Done (Err e, self)
        | Ok _ =>
            w ← add_checked 64 (written self) 1;
            Done (Ok (), with_counters (with_slot self slot (set_dirty s false))
                           (clock self) (hits self) (misses self) w)
        end
    end.

(** Finds a frame for [block], reading it in if it is not there. *)
Definition admit_hit (slot : nat) : prog (Cache S) FsError nat := fun self =>
  h ← add_checked 64 (hits self) 1;
  c ← add_checked 64 (clock self) 1;
  s ← at_index (slots self) slot;
  Done (Ok slot, with_counters (with_slot self slot (set_used s c)) c h (misses self) (written self)).

Definition admit_fill (block : Z) (slot : nat) : prog (Cache S) FsError nat := fun self =>
  into ← frame self slot;
  let '(r, out, st) := st_read (store self) block into in
  self ← put_frame (with_store self st) slot out;
  match r with
  | Err e => Done (Err e, self)
  | Ok _ =>
      m ← add_checked 64 (misses self) 1;
      c ← add_checked 64 (clock self) 1;
      Done (Ok slot, with_counters (with_slot self slot (MkSlot (Some block) false c false))
                       c (hits self) m (written self))
  end.

Definition admit_block (block : Z) : prog (Cache S) FsError nat := fun self =>
  if st_blocks (store self) <=? block then Done (Err OutOfRange, self)
  else
    match resident self block with
    | Some slot => admit_hit slot self
    | None =>
        match victim self with
        | None => Done (Err Full, self)
        | Some slot => (_ ←! write_back slot; admit_fill block slot) self
        end
    end.

Definition pin (block : Z) : prog (Cache S) FsError nat :=
  slot ←! admit_block block;
  fun self =>
    s ← at_index (slots self) slot;
    Done (Ok slot, with_slot self slot (set_pinned s true)).

Definition unpin self (slot : nat) : Cache S :=
  match slots self !! slot with
  | Some held => with_slot self slot (set_pinned held false)
  | None => self
  end.

Definition is_pinned self (slot : nat) : bool :=
  match slots self !! slot with Some held => pinned held | None => false end.

Definition block_in self (slot : nat) : option Z := slots self !! slot ≫= sblock.

(** The frame a [put] writes: the one holding the block, or one made free. *)
Definition put_slot (block : Z) : prog (Cache S) FsError nat := fun self =>
  match resident self block with
  | Some slot =>
      h ← add_checked 64 (hits self) 1;
      Done (Ok slot, with_counters self (clock self) h (misses self) (written self))
  | None =>
      match victim self with
      | None => Done (Err Full, self)
      | Some slot => (_ ←! write_back slot; pret slot) self
      end
  end.

(** Replaces [block] entirely, without reading it first. *)
Definition put_block (block : Z) (from : list Z) : prog (Cache S) FsError unit := fun self =>
  if st_blocks (store self) <=? block then Done (Err OutOfRange, self)
  else
    match get from 0 BLOCK with
    | None => Done (Err OutOfRange, self)
    | Some from =>
        (slot ←! put_slot block;
         fun self =>
           self ← put_frame self slot from;
           c ← add_checked 64 (clock self) 1;
           s ← at_index (slots self) slot;
           Done (Ok (), with_counters (with_slot self slot (MkSlot (Some block) true c (pinned s)))
                          c (hits self) (misses self) (written self))) self
    end.

(** Marks the page dirty and answers with the frame the caller may change. *)
Definition edit (block : Z) : prog (Cache S) FsError nat :=
  slot ←! admit_block block;
  fun self =>
    s ← at_index (slots self) slot;
    Done (Ok slot, with_slot self slot (set_dirty s true)).

(** A store of a whole page through the reference [edit] gave out. *)
Definition set_page (slot : nat) (bytes : list Z) : prog (Cache S) FsError unit := fun self =>
  self ← put_frame self slot bytes; Done (Ok (), self).

(** Marks a frame wanted now. *)
Definition want (slot : nat) : prog (Cache S) FsError unit := fun self =>
  c ← add_checked 64 (clock self) 1;
  s ← at_index (slots self) slot;
  Done (Ok (), with_counters (with_slot self slot (set_used s c))
                 c (hits self) (misses self) (written self)).

(** The byte copy between two frames and the mark on the destination. *)
Definition copy_frame (source destination : nat) : prog (Cache S) FsError unit := fun self =>
  bytes ← frame self source;
  self ← put_frame self destination bytes;
  s ← at_index (slots self) destination;
  Done (Ok (), with_slot self destination (set_dirty s true)).

Definition copy (from to : Z) : prog (Cache S) FsError unit := fun self =>
  if from =? to then Done (Ok (), self)
  else
    (source ←! admit_block from;
     _ ←! want source;
     destination ←! admit_block to;
     if decide (source = destination) then pfail OutOfRange
     else copy_frame source destination) self.

(** One iteration of [flush]. *)
Definition flush_slot (slot : nat) : prog (Cache S) FsError bool := fun self =>
  s ← at_index (slots self) slot;
  if dirty s then (_ ←! write_back slot; pret true) self else Done (Ok false, self).

Fixpoint flush_loop (slots' : list nat) (went : Z) : prog (Cache S) FsError Z :=
  match slots' with
  | [] => pret went
  | slot :: slots'' =>
      did ←! flush_slot slot;
      if did then
        fun self => went' ← add_checked 32 went 1; flush_loop slots'' went' self
      else flush_loop slots'' went
  end.

(** Writes every dirty page back; answers how many went. *)
Definition flush : prog (Cache S) FsError Z := fun self =>
  flush_loop (seq 0 (count self)) 0 self.

Definition is_dirty self : bool := existsb dirty (take (count self) (slots self)).

(** Forgets everything that is not lent out, writing nothing. *)
Definition forget self : Cache S :=
  MkCache (frames self) ((fun s => if pinned s then s else empty_slot) <$> slots self)
    (count self) (clock self) (store self) (hits self) (misses self) (written self).

Definition cache_page (block : Z) : prog (Cache S) FsError (list Z) :=
  slot ←! admit_block block;
  fun self => f ← frame self slot; Done (Ok f, self).

End Cache.
End Cache.

#[global] Instance cache_pages {S} `{!Store S} : Pages (Cache S) := {
  pg_blocks := fun self => st_blocks (store self);
  page := Cache.cache_page
}.

(** ** What a device promises

    [disk] is what the device holds.  A failed write may have reached the
    device or not; a failed read leaves the buffer alone, as every device of
    the sources does (src/user/fsd/src/main.rs, src/kernel/src/lib.rs). *)
Class StoreLaws (S : Type) `{!Store S} : Type := {
  disk : S → Z → list Z;
  st_blocks_range s : 0 ≤ st_blocks s < 2 ^ 32;
  disk_length s b : 0 ≤ b < st_blocks s → length (disk s b) = BLOCK;
  st_read_law s b into r out s' :
    0 ≤ b < st_blocks s → length into = BLOCK → st_read s b into = (r, out, s') →
    st_blocks s' = st_blocks s ∧ (∀ x, disk s' x = disk s x) ∧
    match r with Ok _ => out = disk s b | Err _ => out = into end;
  st_write_law s b data r s' :
    0 ≤ b < st_blocks s → length data = BLOCK → st_write s b data = (r, s') →
    st_blocks s' = st_blocks s ∧ (∀ x, x ≠ b → disk s' x = disk s x) ∧
    (disk s' b = data ∨ is_Err r ∧ disk s' b = disk s b)
}.

(** One request of a device, answered either way; a device that never fails one
    from here on. *)
Inductive asked {S : Type} `{!Store S} (s s' : S) : Prop :=
| AskedRead b into : 0 ≤ b < st_blocks s → length into = BLOCK → (st_read s b into).2 = s' → asked s s'
| AskedWrite b data : 0 ≤ b < st_blocks s → length data = BLOCK → (st_write s b data).2 = s' → asked s s'.
Definition dependable {S : Type} `{!Store S} (s : S) : Prop :=
  ∀ s', rtc asked s s' → ∀ b bytes, 0 ≤ b < st_blocks s' → length bytes = BLOCK →
    (st_read s' b bytes).1.1 = Ok () ∧ (st_write s' b bytes).1 = Ok ().

Lemma dependable_after {S : Type} `{!Store S} (s s' : S) : rtc asked s s' → dependable s → dependable s'.
Proof. intros Hs Hd s2 H2. apply Hd. by etrans. Qed.

Lemma after_read {S : Type} `{!Store S} (s : S) b into r out s' :
  0 ≤ b < st_blocks s → length into = BLOCK → st_read s b into = (r, out, s') → rtc asked s s'.
Proof. intros Hb Hl Hr. apply rtc_once, (AskedRead _ _ b into Hb Hl). by rewrite Hr. Qed.

Lemma after_write {S : Type} `{!Store S} (s : S) b data r s' :
  0 ≤ b < st_blocks s → length data = BLOCK → st_write s b data = (r, s') → rtc asked s s'.
Proof. intros Hb Hl Hw. apply rtc_once, (AskedWrite _ _ b data Hb Hl). by rewrite Hw. Qed.

Lemma read_failed {S : Type} `{!Store S} (s : S) b into e :
  0 ≤ b < st_blocks s → length into = BLOCK → (st_read s b into).1.1 = Err e → ¬ dependable s.
Proof. intros Hb Hl He Hd. destruct (Hd s (rtc_refl _ _) b into Hb Hl) as [H _]. congruence. Qed.

Lemma write_failed {S : Type} `{!Store S} (s : S) b data e :
  0 ≤ b < st_blocks s → length data = BLOCK → (st_write s b data).1 = Err e → ¬ dependable s.
Proof. intros Hb Hl He Hd. destruct (Hd s (rtc_refl _ _) b data Hb Hl) as [_ H]. congruence. Qed.

Lemma BLOCK_nonzero : BLOCK ≠ 0%nat.
Proof. done. Qed.

#[local] Opaque BLOCK.

Section Coherence.
Context {S : Type} `{!Store S} `{!StoreLaws S}.
Implicit Types c : Cache S.

Abbreviation nblocks c := (st_blocks (store c)).
Abbreviation ondisk c := (disk (store c)).

(** The bytes frame [i] holds, and the slot describing it. *)
Definition fb c (i : nat) : list Z := default [] (get (frames c) (i * BLOCK) BLOCK).
Definition held c (i : nat) (s : Slot) : Prop := (i < count c)%nat ∧ slots c !! i = Some s.

(** What a slot says about its frame. *)
Definition cell_ok (D : Z → list Z) (nb clk : Z) (s : Slot) (bytes : list Z) : Prop :=
  used s ≤ clk ∧
  match sblock s with
  | None => dirty s = false ∧ pinned s = false
  | Some b => 0 ≤ b < nb ∧ (dirty s = false → bytes = D b)
  end.

(** The counters can tick [n] more times. *)
Definition room (n : Z) c : Prop :=
  0 ≤ clock c ∧ 0 ≤ hits c ∧ 0 ≤ misses c ∧ 0 ≤ written c ∧
  clock c + n < 2 ^ 64 ∧ hits c + n < 2 ^ 64 ∧ misses c + n < 2 ^ 64 ∧ written c + n < 2 ^ 64.

Record shape_ok c : Prop := {
  ok_slots : length (slots c) = MAX_FRAMES;
  ok_count : (MIN_FRAMES ≤ count c ≤ MAX_FRAMES)%nat;
  ok_frames : (count c * BLOCK ≤ length (frames c))%nat
}.

Record cache_ok c : Prop := {
  ok_shape : shape_ok c;
  ok_cells i s : held c i s → cell_ok (ondisk c) (nblocks c) (clock c) s (fb c i);
  ok_inj i j s t b : held c i s → held c j t → sblock s = Some b → sblock t = Some b → i = j
}.

(** What a reader of the cache sees: the frame holding the block, or the disk. *)
Definition view c (b : Z) : list Z :=
  match Cache.resident c b with Some i => fb c i | None => ondisk c b end.
Definition dirty_in c (b : Z) : Prop := ∃ i s, held c i s ∧ sblock s = Some b ∧ dirty s = true.
Definition pinned_at c (i : nat) (b : Z) : Prop :=
  ∃ s, held c i s ∧ sblock s = Some b ∧ pinned s = true.

Lemma held_slot c i : shape_ok c → (i < count c)%nat → ∃ s, held c i s.
Proof.
  intros [Hs Hc _] Hi. destruct (lookup_lt_is_Some_2 (slots c) i) as [s Hl]; [lia|]. by exists s.
Qed.

Lemma resident_some c b i : Cache.resident c b = Some i → ∃ s, held c i s ∧ sblock s = Some b.
Proof.
  intros H. apply position_some in H as [(s & Hs & Hb) _]. apply lookup_take_Some in Hs as [Hs Hi].
  apply bool_decide_eq_true in Hb. by exists s.
Qed.

Lemma resident_none c b : Cache.resident c b = None → ∀ i s, held c i s → sblock s ≠ Some b.
Proof.
  intros H i s [Hi Hs] Hb. pose proof (proj1 (position_none _ _) H i s) as Hn.
  rewrite lookup_take_lt in Hn by done. specialize (Hn Hs). by apply bool_decide_eq_false in Hn.
Qed.

Lemma view_held c i s b : cache_ok c → held c i s → sblock s = Some b → view c b = fb c i.
Proof.
  intros Hok Hi Hb. unfold view. destruct (Cache.resident c b) as [j|] eqn:Hr.
  - destruct (resident_some _ _ _ Hr) as (t & Hj & Ht). by rewrite (ok_inj _ Hok i j s t b).
  - by destruct (resident_none _ _ Hr i s Hi).
Qed.

Lemma view_absent c b : (∀ i s, held c i s → sblock s ≠ Some b) → view c b = ondisk c b.
Proof.
  intros H. unfold view. destruct (Cache.resident c b) as [j|] eqn:Hr; [|done].
  destruct (resident_some _ _ _ Hr) as (t & Hj & Ht). by destruct (H j t Hj).
Qed.

Lemma view_clean c b : cache_ok c → ¬ dirty_in c b → view c b = ondisk c b.
Proof.
  intros Hok Hd. unfold view. destruct (Cache.resident c b) as [j|] eqn:Hr; [|done].
  destruct (resident_some _ _ _ Hr) as (t & Hj & Ht).
  destruct (ok_cells _ Hok j t Hj) as [_ Hcell]. rewrite Ht in Hcell. apply Hcell.
  destruct (dirty t) eqn:Hdt; [|done]. destruct Hd. by exists j, t.
Qed.

Lemma frame_offset c i : shape_ok c → (i < count c)%nat → (i * BLOCK + BLOCK ≤ length (frames c))%nat.
Proof. intros Hs Hi. pose proof (ok_frames _ Hs). nia. Qed.

Lemma frame_done c i : shape_ok c → (i < count c)%nat →
  Cache.frame c i = Done (fb c i) ∧ length (fb c i) = BLOCK.
Proof.
  intros Hs Hi. unfold Cache.frame, fb.
  destruct (get_some (frames c) (i * BLOCK) BLOCK) as (v & -> & Hl); [by apply frame_offset|]. done.
Qed.

(** One cell of the cache is replaced: slot [i] becomes [s'] and its frame
    becomes [bytes]. *)
Record replaces c (i : nat) (s' : Slot) (bytes : list Z) c' : Prop := {
  rep_shape : shape_ok c';
  rep_count : count c' = count c;
  rep_slots : slots c' = <[i := s']> (slots c);
  rep_same : fb c' i = bytes;
  rep_other j : (j < count c)%nat → j ≠ i → fb c' j = fb c j
}.

Lemma held_insert c i s0 s' c' j t :
  held c i s0 → count c' = count c → slots c' = <[i := s']> (slots c) →
  held c' j t ↔ (j = i ∧ t = s') ∨ (j ≠ i ∧ held c j t).
Proof.
  intros [Hi Hs] Hc Hsl. unfold held. rewrite Hc, Hsl.
  destruct (decide (j = i)) as [->|Hne].
  - rewrite list_lookup_insert_eq by (by eapply lookup_lt_Some). naive_solver.
  - rewrite list_lookup_insert_ne by done. naive_solver.
Qed.

Lemma replaces_held c i s0 s' bytes c' j t :
  held c i s0 → replaces c i s' bytes c' →
  held c' j t ↔ (j = i ∧ t = s') ∨ (j ≠ i ∧ held c j t).
Proof. intros Hi Hr. by eapply held_insert, Hr; [|apply Hr]. Qed.

Lemma put_frame_done c i bytes : shape_ok c → (i < count c)%nat → length bytes = BLOCK →
  ∃ f, Cache.put_frame c i bytes = Done (Cache.with_frames c f) ∧ length f = length (frames c) ∧
    default [] (get f (i * BLOCK) BLOCK) = bytes ∧
    ∀ j, j ≠ i → get f (j * BLOCK) BLOCK = get (frames c) (j * BLOCK) BLOCK.
Proof.
  intros Hs Hi Hl. pose proof (frame_offset _ _ Hs Hi). unfold Cache.put_frame.
  rewrite put_ok by lia. eexists. split_and!; [done|apply length_splice; lia| |].
  - pose proof (get_splice_same (frames c) (i * BLOCK) bytes) as Hg. rewrite Hl in Hg.
    by rewrite Hg.
  - intros j Hj. apply get_splice_other; [lia|]. rewrite Hl. nia.
Qed.

(** Replacing a cell keeps the cache sound, if the new cell is sound, no other
    cell names its block, and the disk moved under no other cell. *)
Lemma replaces_ok c i s s' bytes c' :
  cache_ok c → held c i s → replaces c i s' bytes c' →
  nblocks c' = nblocks c → clock c ≤ clock c' →
  (∀ x, sblock s ≠ Some x → ondisk c' x = ondisk c x) →
  cell_ok (ondisk c') (nblocks c') (clock c') s' bytes →
  (sblock s' = sblock s ∨ ∀ j t, held c j t → sblock t = sblock s' → False) →
  cache_ok c'.
Proof.
  intros Hok Hi Hr Hnb Hclk Hdisk Hcell Hnew.
  assert (Hother : ∀ j t b, j ≠ i → held c j t → sblock t = Some b → sblock s' ≠ Some b).
  { intros j t b Hj Ht Hb Hb'. destruct Hnew as [Hsame|Habs].
    - apply Hj. apply (ok_inj _ Hok j i t s b); [done|done|done|congruence].
    - apply (Habs j t Ht). congruence. }
  split; [apply Hr| |].
  - intros j t Ht. apply (replaces_held _ _ s _ _ _ _ _ Hi Hr) in Ht as [[-> ->]|[Hj Ht]].
    { by rewrite (rep_same _ _ _ _ _ Hr). }
    rewrite (rep_other _ _ _ _ _ Hr j) by (try done; apply Ht).
    destruct (ok_cells _ Hok j t Ht) as [Hu Hb]. split; [lia|]. destruct (sblock t) as [b|] eqn:Htb; [|done].
    rewrite Hnb. split; [apply Hb|]. intros Hd. rewrite Hdisk; [by apply Hb|]. intros Hsb.
    apply Hj. by apply (ok_inj _ Hok j i t s b).
  - intros j k t u b Ht Hu Htb Hub.
    apply (replaces_held _ _ s _ _ _ _ _ Hi Hr) in Ht as [[-> ->]|[Hj Ht]];
      apply (replaces_held _ _ s _ _ _ _ _ Hi Hr) in Hu as [[-> ->]|[Hk Hu]]; try done.
    + by destruct (Hother k u b Hk Hu Hub).
    + by destruct (Hother j t b Hj Ht Htb).
    + by apply (ok_inj _ Hok j k t u b).
Qed.

Lemma replaces_view c i s s' bytes c' x :
  cache_ok c → cache_ok c' → held c i s → replaces c i s' bytes c' →
  (∀ x, sblock s ≠ Some x → ondisk c' x = ondisk c x) →
  view c' x = if decide (sblock s' = Some x) then bytes
              else if decide (sblock s = Some x) then ondisk c' x else view c x.
Proof.
  intros Hok Hok' Hi Hr Hdisk.
  pose proof (replaces_held _ _ s _ _ _ i s' Hi Hr) as Hi'.
  destruct (decide (sblock s' = Some x)) as [Hx|Hx].
  { rewrite (view_held c' i s' x); [apply Hr|done|naive_solver|done]. }
  destruct (decide (sblock s = Some x)) as [Hx0|Hx0].
  { apply view_absent. intros j t Ht Htx.
    apply (replaces_held _ _ s _ _ _ _ _ Hi Hr) in Ht as [[-> ->]|[Hj Ht]]; [done|].
    apply Hj. by apply (ok_inj _ Hok j i t s x). }
  destruct (Cache.resident c x) as [j|] eqn:Hres.
  - destruct (resident_some _ _ _ Hres) as (t & Ht & Htx). assert (j ≠ i).
    { intros ->. apply Hx0. destruct Ht as [_ Ht], Hi as [_ Hi]. congruence. }
    rewrite (view_held c j t x), (view_held c' j t x) by (try done; apply (replaces_held _ _ s _ _ _ _ _ Hi Hr); auto).
    apply Hr; [apply Ht|done].
  - rewrite (view_absent c x) by (by apply resident_none). rewrite <- Hdisk by done. apply view_absent.
    intros j t Ht Htx. apply (replaces_held _ _ s _ _ _ _ _ Hi Hr) in Ht as [[-> ->]|[Hj Ht]]; [done|].
    by apply (resident_none _ _ Hres j t).
Qed.

Lemma make_replaces c i s' bytes c' :
  shape_ok c → count c' = count c → slots c' = <[i := s']> (slots c) →
  length (frames c') = length (frames c) →
  default [] (get (frames c') (i * BLOCK) BLOCK) = bytes →
  (∀ j, j ≠ i → get (frames c') (j * BLOCK) BLOCK = get (frames c) (j * BLOCK) BLOCK) →
  replaces c i s' bytes c'.
Proof.
  intros [H1 H2 H3] Hc Hs Hl Hb Ho. split; [split|done|done|done|].
  - by rewrite Hs, length_insert.
  - by rewrite Hc.
  - by rewrite Hc, Hl.
  - intros j _ Hj. unfold fb. by rewrite Ho.
Qed.

(** Only the slot changes. *)
Lemma slot_replaces c i s' c' :
  shape_ok c → count c' = count c → slots c' = <[i := s']> (slots c) → frames c' = frames c →
  replaces c i s' (fb c i) c'.
Proof. intros Hs Hc Hsl Hf. apply make_replaces; rewrite ?Hf; done. Qed.

(** Pages already changed may reach the disk; nothing else does. *)
Record drains c c' : Prop := {
  dr_blocks : nblocks c' = nblocks c;
  dr_count : count c' = count c;
  dr_disk x : ondisk c' x = ondisk c x ∨ dirty_in c x ∧ ondisk c' x = view c x;
  dr_pins i b : pinned_at c' i b ↔ pinned_at c i b;
  dr_store : rtc asked (store c) (store c')
}.

(** The cache moved pages about, and nobody can tell. *)
Record settles c c' : Prop := {
  se_drains : drains c c';
  se_view x : view c' x = view c x;
  se_dirty x : dirty_in c' x → dirty_in c x
}.

(** The cache wrote [v] to block [b], and pages may have moved. *)
Record writes c (b : Z) (v : list Z) c' : Prop := {
  wr_drains : drains c c';
  wr_view x : view c' x = if decide (x = b) then v else view c x;
  wr_dirty x : dirty_in c' x → dirty_in c x ∨ x = b
}.

Lemma settles_drains c c1 c2 : settles c c1 → drains c1 c2 → drains c c2.
Proof.
  intros [[Hb Hc Hd Hp Hs] Hv Hy] [Hb' Hc' Hd' Hp' Hs']. split; [congruence|congruence| | |by etrans].
  - intros x. destruct (Hd' x) as [->|[H1 ->]]; [done|]. rewrite Hv. auto.
  - intros i b. rewrite Hp'. apply Hp.
Qed.

#[export] Instance settles_preorder : PreOrder settles.
Proof.
  split.
  - intros c. split; [split|..]; auto. reflexivity.
  - intros c1 c2 c3 H1 H2. split; [by eapply settles_drains, H2|..].
    + intros x. by rewrite (se_view _ _ H2), (se_view _ _ H1).
    + intros x Hx. apply H1. by apply H2.
Qed.

Lemma settles_writes c c1 b v c2 : settles c c1 → writes c1 b v c2 → writes c b v c2.
Proof.
  intros H1 H2. split; [by eapply settles_drains, H2|..].
  - intros x. rewrite (wr_view _ _ _ _ H2). case_decide; [done|apply H1].
  - intros x Hx. destruct (wr_dirty _ _ _ _ H2 x Hx); [left; by apply H1|by right].
Qed.

Lemma replaces_pins c i s s' bytes c' j b :
  held c i s → replaces c i s' bytes c' → (sblock s' = sblock s ∧ pinned s' = pinned s ∨
    pinned s = false ∧ pinned s' = false) → pinned_at c' j b ↔ pinned_at c j b.
Proof.
  intros Hi Hr Hp. unfold pinned_at. split.
  - intros (t & Ht & Htb & Htp).
    apply (replaces_held _ _ s _ _ _ _ _ Hi Hr) in Ht as [[-> ->]|[Hj Ht]]; [|by exists t].
    destruct Hp as [[H1 H2]|[H1 H2]]; [|congruence]. exists s. split_and!; [done|congruence|congruence].
  - intros (t & Ht & Htb & Htp). destruct (decide (j = i)) as [->|Hj].
    + assert (t = s) as -> by (destruct Ht, Hi; congruence). exists s'.
      destruct Hp as [[H1 H2]|[H1 H2]]; [|congruence].
      split_and!; [apply (replaces_held _ _ s _ _ _ _ _ Hi Hr); auto|congruence|congruence].
    + exists t. split_and!; [apply (replaces_held _ _ s _ _ _ _ _ Hi Hr); auto|done|done].
Qed.

Lemma dirty_held c i s b : held c i s → sblock s = Some b → dirty s = true → dirty_in c b.
Proof. intros. by exists i, s. Qed.

Lemma replaces_dirty c i s s' bytes c' x :
  held c i s → replaces c i s' bytes c' → dirty_in c' x →
  (sblock s' = Some x ∧ dirty s' = true) ∨ dirty_in c x.
Proof.
  intros Hi Hr (j & t & Ht & Htx & Htd).
  apply (replaces_held _ _ s _ _ _ _ _ Hi Hr) in Ht as [[-> ->]|[Hj Ht]]; [by left|right].
  by exists j, t.
Qed.

(** A slot's bookkeeping changes, or its frame is written back. *)
Lemma replaces_settles c i s s' c' :
  cache_ok c → held c i s → replaces c i s' (fb c i) c' → rtc asked (store c) (store c') →
  nblocks c' = nblocks c → clock c ≤ clock c' →
  (∀ x, sblock s ≠ Some x → ondisk c' x = ondisk c x) →
  (∀ x, sblock s = Some x → ondisk c' x = ondisk c x ∨ dirty s = true ∧ ondisk c' x = fb c i) →
  sblock s' = sblock s → pinned s' = pinned s → used s' ≤ clock c' →
  (dirty s' = true → dirty s = true) →
  (∀ x, dirty s' = false → sblock s = Some x → fb c i = ondisk c' x) →
  cache_ok c' ∧ settles c c'.
Proof.
  intros Hok Hi Hr Hask Hnb Hclk Hd1 Hd2 Hb Hp Hu Hdirty Hclean.
  destruct (ok_cells _ Hok i s Hi) as [Hu0 Hcell].
  assert (Hok' : cache_ok c').
  { eapply replaces_ok; [done..| |by left]. split; [done|]. rewrite Hb.
    destruct (sblock s) as [b|] eqn:Hsb; rewrite ?Hp.
    - split; [rewrite Hnb; apply Hcell|]. intros Hd. by apply Hclean.
    - split; [|apply Hcell]. destruct (dirty s'); [|done]. by rewrite <- (proj1 Hcell), Hdirty. }
  split; [done|]. split; [split; [done|apply Hr| | |done]| |].
  - intros x. destruct (decide (sblock s = Some x)) as [Hx|Hx]; [|by left; apply Hd1].
    destruct (Hd2 x Hx) as [->|[Hds ->]]; [by left|right]. split; [by eapply dirty_held|].
    symmetry. by eapply view_held.
  - intros j b. eapply replaces_pins; [done..|by left].
  - intros x. rewrite (replaces_view _ _ _ _ _ _ x Hok Hok' Hi Hr Hd1), Hb.
    destruct (decide (sblock s = Some x)); [|done]. symmetry. by eapply view_held.
  - intros x Hx. apply (replaces_dirty _ _ _ _ _ _ _ Hi Hr) in Hx as [[Hx Hds]|Hx]; [|done].
    eapply dirty_held; [done|congruence|by apply Hdirty].
Qed.

(** A clean unpinned frame is given to a block no frame holds. *)
Lemma replaces_evict c i s s' bytes b c' :
  cache_ok c → held c i s → dirty s = false → pinned s = false → replaces c i s' bytes c' →
  rtc asked (store c) (store c') → nblocks c' = nblocks c → clock c ≤ clock c' → (∀ x, ondisk c' x = ondisk c x) →
  0 ≤ b < nblocks c → (∀ j t, held c j t → sblock t ≠ Some b) →
  sblock s' = Some b → pinned s' = false → used s' ≤ clock c' →
  (dirty s' = false → bytes = ondisk c b) →
  cache_ok c' ∧ writes c b bytes c' ∧ (dirty s' = false → settles c c').
Proof.
  intros Hok Hi Hds Hps Hr Hask Hnb Hclk Hd Hb Habs Hsb Hp Hu Hclean.
  assert (Hok' : cache_ok c').
  { eapply replaces_ok; [done..|auto| |right; rewrite Hsb; by eauto].
    split; [done|]. rewrite Hsb, Hnb. split; [done|]. intros. rewrite Hd. auto. }
  assert (Hview : ∀ x, view c' x = if decide (x = b) then bytes else view c x).
  { intros x. rewrite (replaces_view _ _ _ _ _ _ x Hok Hok' Hi Hr) by auto. rewrite Hsb, Hd.
    destruct (decide (x = b)) as [->|Hx]; [by rewrite decide_True|]. rewrite decide_False by congruence.
    destruct (decide (sblock s = Some x)) as [Hx'|Hx']; [|done].
    rewrite (view_held c i s x) by done. destruct (ok_cells _ Hok i s Hi) as [_ Hcell]. rewrite Hx' in Hcell.
    symmetry. by apply Hcell. }
  assert (Hdr : drains c c').
  { split; [done|apply Hr|by left| |done]. intros j x. eapply replaces_pins; [done..|by right]. }
  split_and!; [done| |].
  - split; [done|done|]. intros x Hx. apply (replaces_dirty _ _ _ _ _ _ _ Hi Hr) in Hx as [[Hx _]|Hx]; [|by left].
    right. congruence.
  - intros Hd'. split; [done| |].
    + intros x. rewrite Hview. case_decide as Hx; [|done]. subst. rewrite Hclean by done.
      symmetry. by apply view_absent.
    + intros x Hx. apply (replaces_dirty _ _ _ _ _ _ _ Hi Hr) in Hx as [[_ Hx]|Hx]; [congruence|done].
Qed.

(** ... in particular to the block the disk holds. *)
Lemma replaces_evict_clean c i s t bytes b c' :
  cache_ok c → held c i s → dirty s = false → pinned s = false →
  replaces c i (MkSlot (Some b) false t false) bytes c' →
  rtc asked (store c) (store c') → nblocks c' = nblocks c → clock c ≤ clock c' → (∀ x, ondisk c' x = ondisk c x) →
  0 ≤ b < nblocks c → (∀ j u, held c j u → sblock u ≠ Some b) →
  t ≤ clock c' → bytes = ondisk c b → cache_ok c' ∧ settles c c'.
Proof.
  intros. edestruct (replaces_evict c i s (MkSlot (Some b) false t false) bytes b c') as (? & _ & Hs); auto.
Qed.

(** ** The victim *)
Lemma oldest_loop_spec (rest : list Slot) : ∀ index best,
  match Cache.oldest_loop index rest best with
  | Some (i, s) =>
      (best = Some (i, s) ∨ (index ≤ i)%nat ∧ rest !! (i - index)%nat = Some s ∧ pinned s = false) ∧
      (∀ j t, rest !! j = Some t → pinned t = false → used s ≤ used t) ∧
      (∀ k t, best = Some (k, t) → used s ≤ used t)
  | None => best = None ∧ ∀ j t, rest !! j = Some t → pinned t = true
  end.
Proof.
  induction rest as [|u rest IH]; intros index best; simpl.
  { destruct best as [[i s]|]; [|done]. split_and!; [by left|done|by intros ?? [= _ ->]]. }
  assert (Hshift : ∀ i s, (index + 1 ≤ i)%nat → rest !! (i - (index + 1))%nat = Some s →
    (index ≤ i)%nat ∧ (u :: rest) !! (i - index)%nat = Some s).
  { intros i s Hi Hs. split; [lia|]. by replace (i - index)%nat with (Datatypes.S (i - (index + 1))) by lia. }
  destruct (pinned u) eqn:Hu.
  - specialize (IH (index + 1)%nat best). destruct (Cache.oldest_loop _ _ _) as [[i s]|].
    + destruct IH as (H1 & H2 & H3). split_and!; [|intros [|j] t Ht Hp; simplify_eq/=; eauto; congruence|done].
      destruct H1 as [H1|(Hi & Hs & Hp)]; [by left|right]. destruct (Hshift i s Hi Hs). auto.
    + destruct IH as [H1 H2]. split; [done|]. intros [|j] t Ht; simplify_eq/=; eauto.
  - set (best' := match best with Some (_, b) => if used b <=? used u then best else Some (index, u)
                  | None => Some (index, u) end).
    specialize (IH (index + 1)%nat best').
    assert (Hb : ∃ i s, best' = Some (i, s) ∧ used s ≤ used u ∧ (best = Some (i, s) ∨ i = index ∧ s = u) ∧
      (∀ k t, best = Some (k, t) → used s ≤ used t)).
    { subst best'. destruct best as [[k b]|]; [destruct (Z.leb_spec (used b) (used u))|].
      - exists k, b. split_and!; [done|done|by left|by intros ?? [= _ ->]].
      - exists index, u. split_and!; [done|lia|by right|intros ?? [= _ <-]; lia].
      - exists index, u. split_and!; [done|lia|by right|done]. }
    destruct Hb as (i0 & s0 & Hb0 & Hu0 & Hb1 & Hb2).
    destruct (Cache.oldest_loop _ _ _) as [[i s]|]; [|destruct IH; congruence].
    destruct IH as (H1 & H2 & H3). pose proof (H3 _ _ Hb0). split_and!.
    + destruct H1 as [H1|(Hi & Hs & Hp)].
      * rewrite Hb0 in H1. injection H1 as <- <-. destruct Hb1 as [?|[-> ->]]; [by left|right].
        split_and!; [done|by rewrite Nat.sub_diag|done].
      * right. destruct (Hshift i s Hi Hs). auto.
    + intros [|j] t Ht Hp; simplify_eq/=; [lia|eauto].
    + intros k t Ht. specialize (Hb2 _ _ Ht). lia.
Qed.

(** The victim is a frame of the cache, never a pinned one. *)
Lemma victim_some c i : cache_ok c → Cache.victim c = Some i → ∃ s, held c i s ∧ pinned s = false.
Proof.
  intros Hok. unfold Cache.victim. destruct (position _ _) as [k|] eqn:Hp.
  - intros [= ->]. apply position_some in Hp as [(s & Hs & Hb) _].
    apply lookup_take_Some in Hs as [Hs Hi]. apply bool_decide_eq_true in Hb.
    exists s. split; [done|]. destruct (ok_cells _ Hok i s (conj Hi Hs)) as [_ Hc]. rewrite Hb in Hc. apply Hc.
  - intros Hv. pose proof (oldest_loop_spec (take (count c) (slots c)) 0 None) as Ho.
    destruct (Cache.oldest_loop _ _ _) as [[k s]|]; [|done]. injection Hv as ->.
    destruct Ho as ([?|(_ & Hs & Hp')] & _); [done|]. rewrite Nat.sub_0_r in Hs.
    apply lookup_take_Some in Hs as [Hs Hi]. by exists s.
Qed.

Lemma victim_none c : Cache.victim c = None → ∀ i s, held c i s → pinned s = true.
Proof.
  unfold Cache.victim. destruct (position _ _) as [k|] eqn:Hp; [done|].
  intros Hv i s [Hi Hs]. pose proof (oldest_loop_spec (take (count c) (slots c)) 0 None) as Ho.
  destruct (Cache.oldest_loop _ _ _) as [[k t]|]; [done|]. destruct Ho as [_ Ho]. apply (Ho i).
  by rewrite lookup_take_lt.
Qed.

(** The most recently wanted block is evicted only if every other frame is lent
    out. *)
Lemma victim_latest c i s b :
  held c i s → sblock s = Some b → Cache.victim c = Some i →
  (∀ j t, held c j t → j ≠ i → used t < used s) → ∀ j t, held c j t → j ≠ i → pinned t = true.
Proof.
  intros Hi Hb Hv Hlru j t Hj Hne. unfold Cache.victim in Hv. destruct (position _ _) as [k|] eqn:Hp.
  - injection Hv as ->. apply position_some in Hp as [(s' & Hs & Hb') _].
    apply lookup_take_Some in Hs as [Hs _]. apply bool_decide_eq_true in Hb'. destruct Hi. congruence.
  - pose proof (oldest_loop_spec (take (count c) (slots c)) 0 None) as Ho.
    destruct (Cache.oldest_loop _ _ _) as [[k s']|]; [|done]. injection Hv as ->.
    destruct Ho as ([?|(_ & Hs & Hp')] & Hmin & _); [done|]. rewrite Nat.sub_0_r in Hs.
    apply lookup_take_Some in Hs as [Hs _]. assert (s' = s) as -> by (destruct Hi; congruence).
    destruct (pinned t) eqn:Ht; [done|]. specialize (Hlru j t Hj Hne). destruct Hj as [Hj Hjt].
    specialize (Hmin j t). rewrite lookup_take_lt in Hmin by done. specialize (Hmin Hjt Ht). lia.
Qed.

(** ** The operations *)
Lemma room_weaken m n c : n ≤ m → room m c → room n c.
Proof. unfold room. lia. Qed.

(** Every operation returns: a state that can tick [n] more times, sound. *)
Definition returns {A} (n : Z) (m : prog (Cache S) FsError A) c (Q : result A FsError → Cache S → Prop) : Prop :=
  ∃ r c', m c = Done (r, c') ∧ cache_ok c' ∧ room n c' ∧ Q r c'.

Lemma returns_bind {A B} n k (m : prog (Cache S) FsError A) (f : A → prog (Cache S) FsError B) c
    (Q : result A FsError → Cache S → Prop) (R : result B FsError → Cache S → Prop) :
  returns n m c Q →
  (∀ e c', Q (Err e) c' → cache_ok c' → room n c' → room k c' ∧ R (Err e) c') →
  (∀ a c', Q (Ok a) c' → cache_ok c' → room n c' → returns k (f a) c' R) →
  returns k (pbind m f) c R.
Proof.
  intros (r & c' & Hm & Hok & Hroom & HQ) Herr Hnext. destruct r as [a|e].
  - destruct (Hnext a c' HQ Hok Hroom) as (r & c'' & Hf & H). exists r, c''. split; [|done].
    unfold pbind. by rewrite Hm.
  - destruct (Herr e c' HQ Hok Hroom) as [Hroom' HR]. exists (Err e), c'. split; [|done].
    unfold pbind. by rewrite Hm.
Qed.

Lemma tick x n : 0 ≤ x → 0 ≤ n → x + (n + 1) < 2 ^ 64 → add_checked 64 x 1 = Done (x + 1).
Proof. intros. apply checked_ok. unfold in_width. lia. Qed.

(** Reduces a sound next state to its being settled. *)
Ltac settled c :=
  match goal with
  | |- cache_ok ?c' ∧ _ =>
      enough (cache_ok c' ∧ settles c c') as [Hok' Hse];
      [split_and!; [exact Hok'|unfold room in *; simpl; lia|exact Hse|..]|]
  end.

Lemma set_dirty_false_id s : dirty s = false → set_dirty s false = s.
Proof. destruct s. simpl. by intros ->. Qed.

Lemma write_back_spec n c i s :
  cache_ok c → 0 ≤ n → room (n + 1) c → held c i s →
  returns n (Cache.write_back i) c (fun r c' =>
    settles c c' ∧ clock c' = clock c ∧
    match r with
    | Ok _ => slots c' = <[i := set_dirty s false]> (slots c)
    | Err _ => slots c' = slots c ∧ ¬ dependable (store c)
    end).
Proof.
  intros Hok Hn Hroom Hi. destruct (ok_cells _ Hok i s Hi) as [Hu Hcell]. pose proof (ok_shape _ Hok) as Hsh.
  unfold returns, Cache.write_back. rewrite (at_index_ok _ _ _ (proj2 Hi)). cbn [mbind outcome_bind].
  destruct (dirty s) eqn:Hd; cbn [negb]; [destruct (sblock s) as [b|] eqn:Hb; [|by destruct Hcell]|].
  - destruct (frame_done c i Hsh (proj1 Hi)) as [-> Hl]. cbn [mbind outcome_bind].
    destruct (st_write (store c) b (fb c i)) as [r st] eqn:Hw. destruct Hcell as [Hbr _].
    pose proof (st_write_law _ _ _ _ _ Hbr Hl Hw) as (Hnb & Hother & Hat).
    destruct r as [[]|e].
    + simpl. rewrite (tick _ n) by (unfold room in Hroom; lia). cbn [mbind outcome_bind].
      do 2 eexists. split; [done|]. settled c; [done|done|].
      apply (replaces_settles c i s (set_dirty s false)); simpl; try done.
      * by apply slot_replaces.
      * by eapply after_write.
      * intros x Hx. apply Hother. congruence.
      * intros x Hx. assert (x = b) as -> by congruence. destruct Hat as [->|[[] _]]; by auto.
      * intros x _ Hx. assert (x = b) as -> by congruence. by destruct Hat as [->|[[] _]].
    + do 2 eexists. split; [done|]. settled c; [done|done| |].
      { apply (write_failed _ b (fb c i) e Hbr Hl). by rewrite Hw. }
      apply (replaces_settles c i s s); simpl; try done.
      * apply slot_replaces; [done|done| |done]. symmetry. by apply list_insert_id, Hi.
      * by eapply after_write.
      * intros x Hx. apply Hother. congruence.
      * intros x Hx. assert (x = b) as -> by congruence. destruct Hat as [->|[_ ->]]; by auto.
      * congruence.
  - do 2 eexists. split; [done|]. split_and!; [done|apply (room_weaken (n + 1)); [lia|done]|done|done|].
    by rewrite set_dirty_false_id, list_insert_id by (done || apply Hi).
Qed.

(** A slot is wanted now. *)
Lemma touch_spec c i s c' :
  cache_ok c → held c i s → count c' = count c → slots c' = <[i := set_used s (clock c')]> (slots c) →
  frames c' = frames c → store c' = store c → clock c ≤ clock c' → cache_ok c' ∧ settles c c'.
Proof.
  intros Hok Hi Hc Hs Hf Hst Hclk. apply (replaces_settles c i s (set_used s (clock c'))); rewrite ?Hst; try done.
  - apply slot_replaces; [apply Hok|done..].
  - by left.
  - simpl. intros x Hd Hx. destruct (ok_cells _ Hok i s Hi) as [_ Hcell]. rewrite Hx in Hcell. by apply Hcell.
Qed.

Lemma admit_hit_spec n c i s :
  cache_ok c → 0 ≤ n → room (n + 1) c → held c i s →
  returns n (Cache.admit_hit i) c (fun r c' =>
    settles c c' ∧ clock c' = clock c + 1 ∧ r = Ok i ∧ slots c' = <[i := set_used s (clock c')]> (slots c)).
Proof.
  intros Hok Hn Hroom Hi. unfold returns, Cache.admit_hit. pose proof Hroom as Hroom'. unfold room in Hroom.
  rewrite (tick _ n), (tick _ n) by lia. cbn [mbind outcome_bind].
  rewrite (at_index_ok _ _ _ (proj2 Hi)). cbn [mbind outcome_bind]. do 2 eexists. split; [done|].
  settled c; [done|done|done|]. apply (touch_spec c i s); simpl; try done. lia.
Qed.

Lemma admit_fill_spec n c i s b :
  cache_ok c → 0 ≤ n → room (n + 1) c → held c i s → dirty s = false → pinned s = false →
  0 ≤ b < nblocks c → (∀ j t, held c j t → sblock t ≠ Some b) →
  returns n (Cache.admit_fill b i) c (fun r c' =>
    settles c c' ∧
    match r with
    | Ok k => k = i ∧ clock c' = clock c + 1 ∧ slots c' = <[i := MkSlot (Some b) false (clock c') false]> (slots c)
    | Err _ => ¬ dependable (store c)
    end).
Proof.
  intros Hok Hn Hroom Hi Hd Hp Hb Habs. pose proof (ok_shape _ Hok) as Hsh.
  unfold returns, Cache.admit_fill. destruct (frame_done c i Hsh (proj1 Hi)) as [-> Hl].
  cbn [mbind outcome_bind]. destruct (st_read (store c) b (fb c i)) as [[r out] st] eqn:Hrd.
  pose proof (st_read_law _ _ _ _ _ _ Hb Hl Hrd) as (Hnb & Hsame & Hr).
  assert (Hlo : length out = BLOCK) by (destruct r; subst; [by apply disk_length|done]).
  destruct (put_frame_done (Cache.with_store c st) i out) as (f & -> & Hlf & Hfi & Hfo);
    [by destruct Hsh|apply Hi|done|]. cbn [mbind outcome_bind]. destruct r as [[]|e].
  - unfold room in Hroom. simpl. rewrite (tick _ n), (tick _ n) by lia. cbn [mbind outcome_bind].
    do 2 eexists. split; [done|]. settled c; [done|done|done|].
    apply (replaces_evict_clean c i s (clock c + 1) out b); simpl; try done; [by apply make_replaces|exact (after_read _ _ _ _ _ _ Hb Hl Hrd)|lia].
  - do 2 eexists. split; [done|]. settled c.
    { apply (read_failed _ b (fb c i) e Hb Hl). by rewrite Hrd. }
    apply (replaces_settles c i s s); simpl; try done.
    + apply make_replaces; [done|done|symmetry; by apply list_insert_id, Hi|done|by rewrite <- Hr|done].
    + exact (after_read _ _ _ _ _ _ Hb Hl Hrd).
    + by left; apply Hsame.
    + apply (ok_cells _ Hok i s Hi).
    + intros x _ Hx. rewrite Hsame. destruct (ok_cells _ Hok i s Hi) as [_ Hc]. rewrite Hx in Hc. by apply Hc.
Qed.

(** Why a request failed, when it did: no such block, every frame lent out, or
    the device. *)
Definition all_pinned c : Prop := ∀ i, (i < count c)%nat → ∃ x, pinned_at c i x.
Definition excused c (b : Z) : Prop := nblocks c ≤ b ∨ all_pinned c ∨ ¬ dependable (store c).

Lemma all_pinned_intro c : cache_ok c → (∀ i s, held c i s → pinned s = true) → all_pinned c.
Proof.
  intros Hok Hall i Hi. destruct (held_slot c i (ok_shape _ Hok) Hi) as [s Hs]. specialize (Hall i s Hs).
  destruct (ok_cells _ Hok i s Hs) as [_ Hc]. destruct (sblock s) as [b|] eqn:Hb; [by exists b, s|].
  destruct Hc. congruence.
Qed.

Lemma settles_failed c c' : settles c c' → ¬ dependable (store c') → ¬ dependable (store c).
Proof. intros Hse Hf Hd. by eapply Hf, dependable_after, Hd; apply Hse. Qed.

Lemma settles_excused c c' b : settles c c' → excused c' b → excused c b.
Proof.
  intros Hse [H|[H|H]]; [left|right; left|right; right; by eapply settles_failed].
  - by rewrite <- (dr_blocks _ _ (se_drains _ _ Hse)).
  - intros i Hi. rewrite <- (dr_count _ _ (se_drains _ _ Hse)) in Hi. destruct (H i Hi) as [x Hx].
    exists x. by apply Hse.
Qed.

(** Frame [i] holds block [b], and was wanted after every other. *)
Definition fetched c (i : nat) (b : Z) : Prop :=
  ∃ s, held c i s ∧ sblock s = Some b ∧ used s = clock c ∧
    ∀ j t, held c j t → j ≠ i → used t < clock c.

(** Every frame but [i] is lent out. *)
Definition only_free c (i : nat) : Prop := ∀ j t, held c j t → j ≠ i → pinned t = true.

Lemma fetched_insert c i s0 s' c' b :
  cache_ok c → held c i s0 → count c' = count c → clock c' = clock c + 1 →
  slots c' = <[i := s']> (slots c) → sblock s' = Some b → used s' = clock c' → fetched c' i b.
Proof.
  intros Hok Hi Hc Hclk Hs Hb Hu. exists s'. split_and!; [|done|done|].
  - apply (held_insert _ _ _ _ _ _ _ Hi Hc Hs). auto.
  - intros j t Ht Hj. apply (held_insert _ _ _ _ _ _ _ Hi Hc Hs) in Ht as [[? _]|[_ Ht]]; [done|].
    destruct (ok_cells _ Hok j t Ht). lia.
Qed.

(** What asking for a block does: nothing anyone can see, and on success some
    frame holds it.  The frame wanted last is not reused while another can be. *)
Lemma admit_spec n c b :
  cache_ok c → 0 ≤ n → room (n + 2) c → 0 ≤ b →
  returns n (Cache.admit_block b) c (fun r c' =>
    settles c c' ∧
    match r with
    | Ok i => b < nblocks c ∧ fetched c' i b ∧ (∀ j t, held c j t → j ≠ i → held c' j t) ∧
        (∀ a, fetched c i a → a ≠ b → only_free c i)
    | Err _ => excused c b
    end).
Proof.
  intros Hok Hn Hroom Hb0. unfold Cache.admit_block.
  assert (Hstay : room n c) by (apply (room_weaken (n + 2)); [lia|done]).
  destruct (Z.leb_spec (nblocks c) b) as [Hge|Hlt].
  { exists (Err OutOfRange), c. rewrite (proj2 (Z.leb_le _ _) Hge). split_and!; try done. by left. }
  destruct (Cache.resident c b) as [i|] eqn:Hr.
  - destruct (resident_some _ _ _ Hr) as (s & Hi & Hs).
    destruct (admit_hit_spec n c i s) as (r & c' & Hc' & Hok' & Hroom' & Hse & Hclk & -> & Hsl);
      [done|done|by apply (room_weaken (n + 2)); [lia|]|done|].
    exists (Ok i), c'. rewrite (proj2 (Z.leb_gt _ _) Hlt), Hr. split_and!; try done.
    + by eapply (fetched_insert c i s); [..|apply Hse| | | |].
    + intros j t Ht Hj. eapply held_insert; [exact Hi|apply Hse|done|by right].
    + intros a (t & Ht & Hta & _) Hab. destruct Ht, Hi. congruence.
  - destruct (Cache.victim c) as [i|] eqn:Hv.
    2:{ exists (Err Full), c. rewrite (proj2 (Z.leb_gt _ _) Hlt), Hr, Hv. split_and!; try done.
        right; left. by apply all_pinned_intro, victim_none. }
    destruct (victim_some c i Hok Hv) as (s & Hi & Hp).
    enough (returns n (_ ←! Cache.write_back i; Cache.admit_fill b i) c (fun r c' => settles c c' ∧
      match r with
      | Ok k => k = i ∧ fetched c' i b ∧ (∀ j t, held c j t → j ≠ i → held c' j t)
      | Err _ => ¬ dependable (store c) end)) as
      (r & c' & Hc' & Hok' & Hroom' & Hse & Hpost).
    { exists r, c'. rewrite (proj2 (Z.leb_gt _ _) Hlt), Hr, Hv. split_and!; try done.
      destruct r as [k|e]; [|by right; right]. destruct Hpost as (-> & Hf & Ho). split_and!; [done|done|done|].
      intros a (t & Ht & Hta & Hut & Hlru) Hab. intros j u. apply (victim_latest c i t a); try done. by rewrite Hut. }
    eapply returns_bind; [apply (write_back_spec (n + 1) c i s); [done|lia| |done]| |].
    { by replace (n + 1 + 1) with (n + 2) by lia. }
    { intros e c' (Hse & _ & _ & Hrel) _ Hroom'. split; [|done]. apply (room_weaken (n + 1)); [lia|done]. }
    intros [] c1 (Hse1 & Hclk1 & Hsl1) Hok1 Hroom1.
    pose proof (dr_count _ _ (se_drains _ _ Hse1)) as Hcount.
    assert (Hi1 : held c1 i (set_dirty s false)) by (apply (held_insert _ _ _ _ _ _ _ Hi Hcount Hsl1); auto).
    destruct (admit_fill_spec n c1 i (set_dirty s false) b) as (r & c' & Hc' & Hok' & Hroom' & Hse & Hpost); try done.
    { rewrite (dr_blocks _ _ (se_drains _ _ Hse1)). lia. }
    { intros j t Ht Htb. apply (held_insert _ _ _ _ _ _ _ Hi Hcount Hsl1) in Ht as [[-> ->]|[_ Ht]];
        by eapply (resident_none _ _ Hr). }
    exists r, c'. split_and!; [done|done|done|by etrans|]. destruct r as [k|e]; [|by eapply settles_failed].
    destruct Hpost as (-> & Hclk & Hsl). split_and!; [done| |].
    + by eapply (fetched_insert c1 i (set_dirty s false)); [..|apply Hse| | | |].
    + intros j t Ht Hj. eapply held_insert; [exact Hi1|apply Hse|done|right; split; [done|]].
      eapply held_insert; [exact Hi|done|done|by right].
Qed.

(** The page behind a frame is changed. *)
Lemma replaces_writes c i s s' bytes b c' :
  cache_ok c → held c i s → sblock s = Some b → replaces c i s' bytes c' → store c' = store c →
  clock c ≤ clock c' → sblock s' = Some b → dirty s' = true → pinned s' = pinned s → used s' ≤ clock c' →
  cache_ok c' ∧ writes c b bytes c'.
Proof.
  intros Hok Hi Hb Hr Hst Hclk Hb' Hd Hp Hu. destruct (ok_cells _ Hok i s Hi) as [_ Hcell]. rewrite Hb in Hcell.
  assert (Hdisk : ∀ x, ondisk c' x = ondisk c x) by (by rewrite Hst).
  assert (Hok' : cache_ok c').
  { eapply replaces_ok; [done..|by rewrite Hst|done|auto| |left; congruence].
    split; [done|]. rewrite Hb', Hst, Hd. split; [apply Hcell|done]. }
  split; [done|]. split; [split; [by rewrite Hst|apply Hr|by left| |by rewrite Hst]| |].
  - intros j x. eapply replaces_pins; [done..|left; split; congruence].
  - intros x. rewrite (replaces_view _ _ _ _ _ _ x Hok Hok' Hi Hr) by auto. rewrite Hb', Hb.
    destruct (decide (x = b)) as [->|Hx]; [by rewrite decide_True|]. by rewrite !decide_False by congruence.
  - intros x Hx. apply (replaces_dirty _ _ _ _ _ _ _ Hi Hr) in Hx as [[Hx _]|Hx]; [right; congruence|by left].
Qed.

Lemma writes_over c b v c1 w c2 :
  writes c b v c1 → (∀ x, ondisk c2 x = ondisk c1 x) → writes c1 b w c2 → writes c b w c2.
Proof.
  intros [[Hb Hc Hd Hp Hs] Hv Hy] Hsame [[Hb' Hc' _ Hp' Hs'] Hv' Hy']. split; [split; [congruence|congruence| | |by etrans]| |].
  - intros x. by rewrite Hsame.
  - intros i x. rewrite Hp'. apply Hp.
  - intros x. rewrite Hv', Hv. by case_decide.
  - intros x Hx. apply Hy' in Hx as [Hx|Hx]; [by apply Hy|by right].
Qed.

Lemma page_spec n c b :
  cache_ok c → 0 ≤ n → room (n + 2) c → 0 ≤ b →
  returns n (Cache.cache_page b) c (fun r c' =>
    settles c c' ∧ match r with Ok bytes => b < nblocks c ∧ bytes = view c b | Err _ => excused c b end).
Proof.
  intros Hok Hn Hroom Hb. eapply returns_bind; [by apply (admit_spec n)|by intros e c' [? ?] _ ?|].
  intros i c1 (Hse & Hlt & (s & Hi & Hs & _) & _) Hok1 Hroom1.
  destruct (frame_done c1 i (ok_shape _ Hok1) (proj1 Hi)) as [Hf _].
  eexists (Ok (fb c1 i)), c1. rewrite Hf. split_and!; try done.
  rewrite <- (se_view _ _ Hse). symmetry. by eapply view_held.
Qed.

(** Editing a page and storing its new bytes. *)
Lemma edit_spec n c b :
  cache_ok c → 0 ≤ n → room (n + 2) c → 0 ≤ b →
  returns n (Cache.edit b) c (fun r c' =>
    match r with
    | Ok i => b < nblocks c ∧ writes c b (view c b) c' ∧
        ∃ s, held c' i s ∧ sblock s = Some b ∧ dirty s = true
    | Err _ => settles c c' ∧ excused c b
    end).
Proof.
  intros Hok Hn Hroom Hb. eapply returns_bind; [by apply (admit_spec n)|by intros e c' [? ?] _ ?|].
  intros i c1 (Hse & Hlt & (s & Hi & Hs & Hu & _) & _) Hok1 Hroom1.
  eexists (Ok i), _. rewrite (at_index_ok _ _ _ (proj2 Hi)). split; [done|].
  destruct (replaces_writes c1 i s (set_dirty s true) (fb c1 i) b (Cache.with_slot c1 i (set_dirty s true)))
    as [Hok2 Hw]; simpl; try done; [apply slot_replaces; [apply Hok1|done..]|lia|].
  split_and!; [done|done|done| |].
  - eapply settles_writes; [done|]. rewrite <- (se_view _ _ Hse), (view_held c1 i s) by done. done.
  - exists (set_dirty s true). split_and!; [|done|done]. eapply held_insert; [exact Hi|done|done|by left].
Qed.

Lemma set_page_spec n c i s b bytes :
  cache_ok c → room n c → held c i s → sblock s = Some b → dirty s = true → length bytes = BLOCK →
  returns n (Cache.set_page i bytes) c (fun r c' => r = Ok () ∧ store c' = store c ∧ writes c b bytes c').
Proof.
  intros Hok Hroom Hi Hb Hd Hl. unfold returns, Cache.set_page.
  destruct (put_frame_done c i bytes (ok_shape _ Hok) (proj1 Hi) Hl) as (f & -> & Hlf & Hfi & Hfo).
  cbn [mbind outcome_bind]. eexists _, _. split; [done|].
  destruct (replaces_writes c i s s bytes b (Cache.with_frames c f)) as [Hok' Hw]; try done.
  - apply make_replaces; try done; [apply Hok|]. symmetry. by apply list_insert_id, Hi.
  - by apply (ok_cells _ Hok i s Hi).
Qed.

(** Only counters change. *)
Lemma counters_settle c h m w :
  cache_ok c → cache_ok (Cache.with_counters c (clock c) h m w) ∧ settles c (Cache.with_counters c (clock c) h m w).
Proof.
  intros Hok. destruct (held_slot c 0 (ok_shape _ Hok)) as [s Hi].
  { pose proof (ok_count _ (ok_shape _ Hok)). unfold MIN_FRAMES in *. lia. }
  apply (replaces_settles c 0 s s); simpl; try done.
  - apply slot_replaces; [apply Hok|done| |done]. symmetry. by apply list_insert_id, Hi.
  - by left.
  - apply (ok_cells _ Hok 0 s Hi).
  - intros x Hd Hx. destruct (ok_cells _ Hok 0%nat s Hi) as [_ Hcell]. rewrite Hx in Hcell. by apply Hcell.
Qed.

Lemma put_slot_spec n c b :
  cache_ok c → 0 ≤ n → room (n + 1) c → 0 ≤ b < nblocks c →
  returns n (Cache.put_slot b) c (fun r c' =>
    settles c c' ∧
    match r with
    | Ok i => ∃ s, held c' i s ∧
        (sblock s = Some b ∨
         dirty s = false ∧ pinned s = false ∧ ∀ j t, held c' j t → sblock t ≠ Some b)
    | Err _ => excused c b
    end).
Proof.
  intros Hok Hn Hroom Hb. unfold returns, Cache.put_slot. destruct (Cache.resident c b) as [i|] eqn:Hr.
  - rewrite (tick _ n) by (unfold room in Hroom; lia). cbn [mbind outcome_bind]. do 2 eexists. split; [done|].
    settled c; [|apply counters_settle; done]. destruct (resident_some _ _ _ Hr) as (s & Hi & Hs). exists s. auto.
  - destruct (Cache.victim c) as [i|] eqn:Hv.
    2:{ exists (Err Full), c. split_and!; try done; [by apply (room_weaken (n + 1)); [lia|]|].
        right; left. by apply all_pinned_intro, victim_none. }
    destruct (victim_some c i Hok Hv) as (s & Hi & Hp).
    eapply returns_bind; [by apply (write_back_spec n c i s)| |].
    { intros e c' (Hse & _ & _ & Hrel) _ Hroom'. split_and!; [done|done|by right; right]. }
    intros [] c1 (Hse1 & Hclk1 & Hsl1) Hok1 Hroom1. exists (Ok i), c1. split_and!; try done.
    pose proof (fun j t => held_insert _ _ _ _ _ j t Hi (dr_count _ _ (se_drains _ _ Hse1)) Hsl1) as Hh.
    exists (set_dirty s false). split; [apply Hh; auto|]. right. split_and!; [done|done|].
    intros j t Ht Htb. apply Hh in Ht as [[-> ->]|[_ Ht]]; by eapply (resident_none _ _ Hr).
Qed.


Lemma put_block_spec n c b bytes :
  cache_ok c → 0 ≤ n → room (n + 2) c → 0 ≤ b → length bytes = BLOCK →
  returns n (Cache.put_block b bytes) c (fun r c' =>
    match r with
    | Ok _ => b < nblocks c ∧ writes c b bytes c'
    | Err _ => settles c c' ∧ excused c b
    end).
Proof.
  intros Hok Hn Hroom Hb0 Hl. unfold Cache.put_block.
  destruct (Z.leb_spec (nblocks c) b) as [Hge|Hlt].
  { exists (Err OutOfRange), c. rewrite (proj2 (Z.leb_le _ _) Hge).
    split_and!; try done; [by apply (room_weaken (n + 2)); [lia|]|by left]. }
  enough (returns n (slot ←! Cache.put_slot b; fun self =>
      self ← Cache.put_frame self slot bytes;
      k ← add_checked 64 (clock self) 1;
      s ← at_index (slots self) slot;
      Done (Ok (), Cache.with_counters (Cache.with_slot self slot (MkSlot (Some b) true k (pinned s)))
                          k (hits self) (misses self) (written self))) c (fun r c' =>
      match r with Ok _ => writes c b bytes c' | Err _ => settles c c' ∧ excused c b end)) as
    (r & c' & Hc' & Hok' & Hroom' & Hpost).
  { exists r, c'. rewrite (proj2 (Z.leb_gt _ _) Hlt), (get_whole bytes BLOCK Hl).
    split_and!; [exact Hc'|done|done|]. by destruct r. }
  eapply returns_bind; [apply (put_slot_spec (n + 1)); [done|lia| |done]| |].
  { by replace (n + 1 + 1) with (n + 2) by lia. }
  { intros e c' [Hse Hex] _ Hroom'. split; [by apply (room_weaken (n + 1)); [lia|]|done]. }
  intros i c1 (Hse & s & Hi & Hcase) Hok1 Hroom1. pose proof (ok_shape _ Hok1) as Hsh.
  destruct (put_frame_done c1 i bytes Hsh (proj1 Hi) Hl) as (f & Hf & Hlf & Hfi & Hfo).
  unfold returns. rewrite Hf. cbn [mbind outcome_bind]. simpl. unfold room in Hroom1.
  rewrite (tick _ n) by lia. cbn [mbind outcome_bind]. rewrite (at_index_ok _ _ _ (proj2 Hi)).
  cbn [mbind outcome_bind]. do 2 eexists. split; [done|].
  match goal with |- cache_ok ?c' ∧ _ => enough (cache_ok c' ∧ writes c1 b bytes c') as [Hok2 Hw] end.
  { split_and!; [done|unfold room; simpl; lia|by eapply settles_writes]. }
  assert (Hrep : ∀ c', count c' = count c1 → slots c' = <[i := MkSlot (Some b) true (clock c1 + 1) (pinned s)]> (slots c1) →
    frames c' = f → replaces c1 i (MkSlot (Some b) true (clock c1 + 1) (pinned s)) bytes c').
  { intros c' H1 H2 H3. apply make_replaces; rewrite ?H3; try done. }
  destruct Hcase as [Hs|(Hd & Hp & Habs)].
  - apply (replaces_writes c1 i s (MkSlot (Some b) true (clock c1 + 1) (pinned s))); simpl; try done;
      [by apply Hrep|lia].
  - match goal with |- cache_ok ?c' ∧ _ =>
      destruct (replaces_evict c1 i s (MkSlot (Some b) true (clock c1 + 1) (pinned s)) bytes b c')
        as (? & ? & _) end; simpl; try done; [by apply Hrep|lia|].
    rewrite (dr_blocks _ _ (se_drains _ _ Hse)). lia.
Qed.

Lemma want_spec n c i b :
  cache_ok c → 0 ≤ n → room (n + 1) c → fetched c i b →
  returns n (Cache.want i) c (fun r c' => r = Ok () ∧ settles c c' ∧ fetched c' i b).
Proof.
  intros Hok Hn Hroom (s & Hi & Hs & _). unfold returns, Cache.want. unfold room in Hroom.
  rewrite (tick _ n) by lia. cbn [mbind outcome_bind]. rewrite (at_index_ok _ _ _ (proj2 Hi)).
  cbn [mbind outcome_bind]. do 2 eexists. split; [done|].
  match goal with |- cache_ok ?c' ∧ _ => assert (cache_ok c' ∧ settles c c') as [Hok' Hse] end.
  { apply (touch_spec c i s); simpl; try done. lia. }
  split_and!; [done|unfold room; simpl; lia|done|done|].
  by eapply (fetched_insert c i s (set_used s (clock c + 1))).
Qed.

Lemma copy_frame_spec n c i j s t a b :
  cache_ok c → room n c → held c i s → sblock s = Some a → held c j t → sblock t = Some b → i ≠ j →
  returns n (Cache.copy_frame i j) c (fun r c' => r = Ok () ∧ writes c b (view c a) c').
Proof.
  intros Hok Hroom Hi Hs Hj Ht Hij. unfold returns, Cache.copy_frame. pose proof (ok_shape _ Hok) as Hsh.
  destruct (frame_done c i Hsh (proj1 Hi)) as [-> Hl]. cbn [mbind outcome_bind].
  destruct (put_frame_done c j (fb c i) Hsh (proj1 Hj) Hl) as (f & -> & Hlf & Hfi & Hfo).
  cbn [mbind outcome_bind]. simpl. rewrite (at_index_ok _ _ _ (proj2 Hj)). cbn [mbind outcome_bind].
  do 2 eexists. split; [done|]. rewrite (view_held c i s a) by done.
  match goal with |- cache_ok ?c' ∧ _ => enough (cache_ok c' ∧ writes c b (fb c i) c') as [Hok' Hw] end.
  { by split_and!. }
  apply (replaces_writes c j t (set_dirty t true)); simpl; try done; [by apply make_replaces|].
  apply (ok_cells _ Hok j t Hj).
Qed.

(** Two frames can be reused. *)
Definition two_free c : Prop := ∀ i, ∃ j s, j ≠ i ∧ held c j s ∧ pinned s = false.

Lemma two_free_drains c c' : cache_ok c' → drains c c' → two_free c → two_free c'.
Proof.
  intros Hok' Hdr Hfree i. destruct (Hfree i) as (j & s & Hj & Hs & Hp).
  destruct (held_slot c' j (ok_shape _ Hok')) as [t Ht].
  { rewrite (dr_count _ _ Hdr). apply Hs. }
  exists j, t. split_and!; [done|done|]. destruct (pinned t) eqn:Hpt; [|done].
  destruct (sblock t) as [b|] eqn:Htb.
  - destruct (proj1 (dr_pins _ _ Hdr j b)) as (u & Hu & _ & Hpu); [by exists t|].
    destruct Hu, Hs. congruence.
  - destruct (ok_cells _ Hok' j t Ht) as [_ Hc]. rewrite Htb in Hc. destruct Hc. congruence.
Qed.

Lemma two_free_not_all c : two_free c → ¬ all_pinned c.
Proof.
  intros Hf Hall. destruct (Hf 0%nat) as (j & s & _ & Hs & Hp). destruct (Hall j (proj1 Hs)) as (x & t & Ht & _ & Hpt).
  destruct Ht, Hs. congruence.
Qed.

(** The cache can serve any block: two frames to use, and a device that works. *)
Definition able c : Prop := two_free c ∧ dependable (store c).

Lemma drains_able c c' : cache_ok c' → drains c c' → able c → able c'.
Proof.
  intros Hok Hdr [Hf Hd]. split; [by eapply two_free_drains|]. by eapply dependable_after, Hd; apply Hdr.
Qed.

Lemma excused_able c b : b < nblocks c → excused c b → ¬ able c.
Proof. intros Hb [?|[Hall|Hf]] [Hfree Hd]; [lia|by apply (two_free_not_all c)|done]. Qed.

(** Copying a block over another.  When the cache is able it succeeds on every
    pair of blocks the device has. *)
Lemma copy_spec n c from to :
  cache_ok c → 0 ≤ n → room (n + 5) c → 0 ≤ from → 0 ≤ to → from ≠ to →
  returns n (Cache.copy from to) c (fun r c' =>
    match r with
    | Ok _ => from < nblocks c ∧ to < nblocks c ∧ writes c to (view c from) c'
    | Err _ => settles c c' ∧ (from < nblocks c → to < nblocks c → ¬ able c)
    end).
Proof.
  intros Hok Hn Hroom Hf Ht Hne. unfold Cache.copy.
  enough (returns n (source ←! Cache.admit_block from; _ ←! Cache.want source;
      destination ←! Cache.admit_block to;
      if decide (source = destination) then pfail OutOfRange else Cache.copy_frame source destination) c
    (fun r c' => match r with
      | Ok _ => from < nblocks c ∧ to < nblocks c ∧ writes c to (view c from) c'
      | Err _ => settles c c' ∧ (from < nblocks c → to < nblocks c → ¬ able c)
      end)) as (r & c' & Hc' & H).
  { exists r, c'. split; [|done]. by rewrite (proj2 (Z.eqb_neq _ _) Hne). }
  eapply returns_bind; [apply (admit_spec (n + 3)); [done|lia|by replace (n + 3 + 2) with (n + 5) by lia|done]| |].
  { intros e c' [Hse Hex] _ Hroom'. split_and!; [by apply (room_weaken (n + 3)); [lia|]|done|].
    intros ? _. by eapply excused_able. }
  intros i c1 (Hse1 & Hlf & Hfet & _) Hok1 Hroom1.
  eapply returns_bind; [apply (want_spec (n + 2) c1 i from); [done|lia|by replace (n + 2 + 1) with (n + 3) by lia|done]| |].
  { intros e c' [? _]. done. }
  intros [] c2 (_ & Hse2 & Hfet2) Hok2 Hroom2.
  assert (Hse12 : settles c c2) by by etrans.
  assert (Hnb2 : nblocks c2 = nblocks c) by apply Hse12.
  eapply returns_bind; [apply (admit_spec n c2 to); [done|lia|done|done]| |].
  { intros e c' [Hse Hex] _ Hroom'. split_and!; [done|by etrans|]. intros _ ? Hable.
    eapply (excused_able c2); [|done|by apply (drains_able c), Hable; [|apply Hse12]]. lia. }
  intros j c3 (Hse3 & Hlt & (t & Hj & Htb & _) & Hkeep & Honly) Hok3 Hroom3.
  assert (Hse : settles c c3) by by etrans. case_decide as Hij.
  - subst j. exists (Err OutOfRange), c3. split_and!; try done. intros _ _ [Hfree _].
    destruct (two_free_drains c c2 Hok2 (se_drains _ _ Hse12) Hfree i) as (k & u & Hk & Hu & Hp).
    by rewrite (Honly from Hfet2 Hne k u Hu Hk) in Hp.
  - destruct Hfet2 as (s & Hi & Hs & _).
    destruct (copy_frame_spec n c3 i j s t from to) as (r & c' & Hc' & Hok' & Hroom' & -> & Hw); try done.
    { by apply Hkeep. }
    exists (Ok ()), c'. split_and!; try done; [lia|]. eapply settles_writes; [done|].
    by rewrite <- (se_view _ _ Hse).
Qed.

(** ** Flushing *)
Lemma flush_loop_spec m : ∀ n c k went,
  cache_ok c → 0 ≤ n → room (n + Z.of_nat m) c → (k + m = count c)%nat →
  (∀ i s, held c i s → (i < k)%nat → dirty s = false) → 0 ≤ went ≤ Z.of_nat k →
  returns n (Cache.flush_loop (seq k m) went) c (fun r c' =>
    settles c c' ∧ match r with Ok _ => ∀ i s, held c' i s → dirty s = false | Err _ => ¬ dependable (store c) end).
Proof.
  induction m as [|m IH]; intros n c k went Hok Hn Hroom Hkm Hclean Hwent; simpl.
  { exists (Ok went), c. split_and!; try done; [by apply (room_weaken (n + Z.of_nat 0)); [lia|]|].
    intros i s Hi. apply (Hclean i s Hi). destruct Hi. lia. }
  destruct (held_slot c k (ok_shape _ Hok)) as [s Hk]; [lia|].
  assert (Hmax : (count c ≤ 64)%nat) by apply (ok_count _ (ok_shape _ Hok)).
  enough (returns (n + Z.of_nat m) (Cache.flush_slot k) c (fun r c' => settles c c' ∧
    match r with Ok _ => ∀ i s, held c' i s → (i < Datatypes.S k)%nat → dirty s = false | Err _ => ¬ dependable (store c) end)) as Hstep.
  { eapply returns_bind; [exact Hstep| |].
    { intros e c' [Hse Hrel] _ Hroom'. split_and!; try done. by apply (room_weaken (n + Z.of_nat m)); [lia|]. }
    intros did c1 [Hse1 Hclean1] Hok1 Hroom1. pose proof (dr_count _ _ (se_drains _ _ Hse1)) as Hc1.
    destruct did.
    - destruct (IH n c1 (Datatypes.S k) (went + 1)) as (r & c' & Hc' & Hok' & Hroom' & Hse & Hpost); try done; [lia|lia|].
      exists r, c'. unfold add_checked. rewrite checked_ok by (unfold in_width; lia). split_and!; try done; [by etrans|]. destruct r; [done|by eapply settles_failed].
    - destruct (IH n c1 (Datatypes.S k) went) as (r & c' & Hc' & Hok' & Hroom' & Hse & Hpost); try done; [lia|lia|].
      exists r, c'. split_and!; try done; [by etrans|]. destruct r; [done|by eapply settles_failed]. }
  unfold returns, Cache.flush_slot. rewrite (at_index_ok _ _ _ (proj2 Hk)). cbn [mbind outcome_bind].
  destruct (dirty s) eqn:Hd.
  - eapply returns_bind; [apply (write_back_spec (n + Z.of_nat m) c k s); [done|lia| |done]| |].
    { apply (room_weaken (n + Z.of_nat (Datatypes.S m))); [lia|done]. }
    { by intros e c' (Hse & _ & _ & Hrel) _ Hroom'. }
    intros [] c1 (Hse1 & _ & Hsl) Hok1 Hroom1. exists (Ok true), c1. split_and!; try done.
    intros i t Ht Hi. 
    apply (held_insert _ _ _ _ _ _ _ Hk (dr_count _ _ (se_drains _ _ Hse1)) Hsl) in Ht as [[_ ->]|[Hne Ht]]; [done|].
    apply (Hclean i t Ht). lia.
  - exists (Ok false), c. split_and!; try done; [by apply (room_weaken (n + Z.of_nat (Datatypes.S m))); [lia|]|].
    intros i t Ht Hi. destruct (decide (i = k)) as [->|Hne]; [|apply (Hclean i t Ht); lia].
    destruct Ht, Hk. congruence.
Qed.

Lemma flush_spec n c :
  cache_ok c → 0 ≤ n → room (n + 64) c →
  returns n Cache.flush c (fun r c' =>
    settles c c' ∧ match r with Ok _ => ∀ x, ¬ dirty_in c' x | Err _ => ¬ dependable (store c) end).
Proof.
  intros Hok Hn Hroom. assert (Hmax : (count c ≤ 64)%nat) by apply (ok_count _ (ok_shape _ Hok)).
  destruct (flush_loop_spec (count c) n c 0 0) as (r & c' & Hc' & Hok' & Hroom' & Hse & Hpost); try done; try lia.
  { apply (room_weaken (n + 64)); [lia|done]. }
  exists r, c'. split_and!; try done. destruct r as [w|e]; [|done].
  intros x (i & s & Hi & _ & Hd). rewrite (Hpost i s Hi) in Hd. done.
Qed.

(** ** Pins *)
Lemma pin_spec n c b :
  cache_ok c → 0 ≤ n → room (n + 2) c → 0 ≤ b →
  returns n (Cache.pin b) c (fun r c' =>
    (∀ x, view c' x = view c x) ∧ (∀ i x, pinned_at c i x → pinned_at c' i x) ∧
    match r with Ok i => pinned_at c' i b | Err _ => excused c b end).
Proof.
  intros Hok Hn Hroom Hb. eapply returns_bind; [by apply (admit_spec n)| |].
  { intros e c' [Hse Hex] _ ?. split_and!; try done; [apply Hse|]. intros i x. apply Hse. }
  intros i c1 (Hse & Hlt & (s & Hi & Hs & Hu & _) & _) Hok1 Hroom1.
  exists (Ok i), (Cache.with_slot c1 i (set_pinned s true)). rewrite (at_index_ok _ _ _ (proj2 Hi)).
  set (c' := Cache.with_slot c1 i (set_pinned s true)).
  assert (Hr : replaces c1 i (set_pinned s true) (fb c1 i) c') by (apply slot_replaces; [apply Hok1|done..]).
  destruct (ok_cells _ Hok1 i s Hi) as [_ Hcell].
  assert (Hok' : cache_ok c').
  { eapply replaces_ok; [done..| |by left]. split; [simpl; lia|]. simpl. by rewrite Hs in *. }
  pose proof (fun j t => replaces_held _ _ _ _ _ _ j t Hi Hr) as Hh.
  assert (Hnew : pinned_at c' i b) by (exists (set_pinned s true); split_and!; [apply Hh; auto|done|done]).
  split_and!; try done.
  - intros x. rewrite (replaces_view _ _ _ _ _ _ x Hok1 Hok' Hi Hr) by done. simpl.
    destruct (decide (sblock s = Some x)); [|apply Hse]. rewrite <- (se_view _ _ Hse). symmetry. by eapply view_held.
  - intros j x Hjx. apply (dr_pins _ _ (se_drains _ _ Hse)) in Hjx as (t & Ht & Htx & Htp).
    destruct (decide (j = i)) as [->|Hj]; [|exists t; split_and!; [apply Hh; auto|done|done]].
    assert (t = s) as -> by (destruct Ht, Hi; congruence). assert (x = b) as -> by congruence. done.
Qed.

(** Letting go of a frame, whatever number is given for it. *)
Lemma unpin_held c i j t :
  held (Cache.unpin c i) j t ↔ ∃ s, held c j s ∧ t = if decide (j = i) then set_pinned s false else s.
Proof.
  unfold Cache.unpin, held. destruct (slots c !! i) as [s|] eqn:Hs; cbn [count slots Cache.with_slot].
  - pose proof (lookup_lt_Some _ _ _ Hs). destruct (decide (j = i)) as [->|Hj].
    + rewrite list_lookup_insert_eq by done. split; [intros [? [= <-]]; by exists s|].
      intros (t' & [? ?] & ->). split; congruence.
    + rewrite list_lookup_insert_ne by done. split; [by exists t|by intros (t' & ? & ->)].
  - split; [|intros (t' & [? ?] & ->); by rewrite decide_False by congruence].
    intros [? ?]. exists t. by rewrite decide_False by congruence.
Qed.

Lemma unpin_spec n c i :
  cache_ok c → room n c →
  cache_ok (Cache.unpin c i) ∧ room n (Cache.unpin c i) ∧ (∀ x, view (Cache.unpin c i) x = view c x) ∧
  (∀ j x, pinned_at (Cache.unpin c i) j x ↔ j ≠ i ∧ pinned_at c j x).
Proof.
  intros Hok Hroom. set (c' := Cache.unpin c i).
  assert (Hf : ∀ j t, held c' j t ↔ ∃ s, held c j s ∧ t = if decide (j = i) then set_pinned s false else s) by apply unpin_held.
  assert (Hsame : frames c' = frames c ∧ count c' = count c ∧ store c' = store c ∧ clock c' = clock c ∧
    length (slots c') = length (slots c) ∧ room n c').
  { subst c'. unfold Cache.unpin. destruct (slots c !! i); simpl; rewrite ?length_insert; done. }
  destruct Hsame as (Hfr & Hc & Hst & Hcl & Hl & Hroom').
  assert (Hfb : ∀ j, fb c' j = fb c j) by (intros j; unfold fb; by rewrite Hfr).
  assert (Hod : ondisk c' = ondisk c) by (unfold ondisk; by rewrite Hst).
  assert (Hblk : ∀ j t, held c' j t → ∃ s, held c j s ∧ sblock t = sblock s ∧ dirty t = dirty s ∧ used t = used s).
  { intros j t (s & Hs & ->)%Hf. exists s. by case_decide. }
  assert (Hok' : cache_ok c').
  { split.
    - destruct (ok_shape _ Hok). split; congruence.
    - intros j t Ht. pose proof (Hf j t) as [Hfj _]. destruct (Hfj Ht) as (s & Hs & ->).
      pose proof (ok_cells _ Hok j s Hs) as Hcell. unfold nblocks. rewrite Hod, Hst, Hcl, Hfb. unfold cell_ok in *.
      case_decide; [|done]. simpl. destruct (sblock s); [done|]. by destruct Hcell as (? & ? & _).
    - intros j k t u b (s & Hs & -> & _)%Hblk (s' & Hs' & -> & _)%Hblk. by apply (ok_inj _ Hok). }
  split_and!; [done|done| |].
  - intros x. destruct (Cache.resident c x) as [j|] eqn:Hr.
    + destruct (resident_some _ _ _ Hr) as (s & Hj & Hs). rewrite (view_held c j s x), <- Hfb by done.
      eapply view_held; [done|apply Hf; eauto|]. by case_decide.
    + rewrite !view_absent; [by rewrite Hod| |]; [by apply resident_none|].
      intros j t (s & Hs & -> & _)%Hblk. by apply (resident_none _ _ Hr j s).
  - intros j x. split.
    + intros (t & (s & Hs & ->)%Hf & Hb & Hp). case_decide; [done|]. split; [done|by exists s].
    + intros (Hj & s & Hs & Hb & Hp). exists s. split_and!; [|done|done]. apply Hf. exists s. by rewrite decide_False.
Qed.

(** ** Sequences of requests *)

(** A request of the cache's user, and its answer.  [Cache::forget] is not one of
    them: it drops changed pages unwritten, so that a test can look at the device. *)
Inductive request : Type :=
| ReadPage (b : Z) | PutBlock (b : Z) (bytes : list Z) | StorePage (b : Z) (bytes : list Z)
| CopyBlock (from to : Z) | FlushAll | PinBlock (b : Z) | UnpinFrame (i : nat).
Inductive answer : Type := ABytes (bytes : list Z) | AFrame (i : nat) | ADone.

Definition serve (q : request) : prog (Cache S) FsError answer :=
  match q with
  | ReadPage b => v ←! Cache.cache_page b; pret (ABytes v)
  | PutBlock b v => _ ←! Cache.put_block b v; pret ADone
  | StorePage b v => i ←! Cache.edit b; _ ←! Cache.set_page i v; pret ADone
  | CopyBlock f t => _ ←! Cache.copy f t; pret ADone
  | FlushAll => _ ←! Cache.flush; pret ADone
  | PinBlock b => i ←! Cache.pin b; pret (AFrame i)
  | UnpinFrame i => fun c => Done (Ok ADone, Cache.unpin c i)
  end.

(** Requests one after another, whatever the earlier ones answered. *)
Fixpoint serve_all (qs : list request) c : outcome (list (result answer FsError) * Cache S) :=
  match qs with
  | [] => Done ([], c)
  | q :: qs' => '(r, c) ← serve q c; '(rs, c) ← serve_all qs' c; Done (r :: rs, c)
  end.

Definition valid (q : request) : Prop :=
  match q with
  | ReadPage b | PinBlock b => 0 ≤ b
  | PutBlock b v | StorePage b v => 0 ≤ b ∧ length v = BLOCK
  | CopyBlock f t => 0 ≤ f ∧ 0 ≤ t
  | FlushAll | UnpinFrame _ => True
  end.

(** What a request does to the blocks, if it succeeds. *)
Definition effect (q : request) (M : Z → list Z) : Z → list Z :=
  match q with
  | PutBlock b v | StorePage b v => fun x => if decide (x = b) then v else M x
  | CopyBlock f t => fun x => if decide (x = t) then M f else M x
  | ReadPage _ | FlushAll | PinBlock _ | UnpinFrame _ => M
  end.
Fixpoint replay (qs : list request) (rs : list (result answer FsError)) (M : Z → list Z) : Z → list Z :=
  match qs, rs with
  | q :: qs', Ok _ :: rs' => replay qs' rs' (effect q M)
  | _ :: qs', Err _ :: rs' => replay qs' rs' M
  | _, _ => M
  end.

(** One request's answer is right and its effect is what it should be. *)
Definition served (q : request) c (r : result answer FsError) c' : Prop :=
  (∀ x, view c' x = match r with Ok _ => effect q (view c) x | Err _ => view c x end) ∧
  (∀ i x, pinned_at c i x → q ≠ UnpinFrame i → pinned_at c' i x) ∧
  match r, q with
  | Ok a, ReadPage b => a = ABytes (view c b)
  | Ok a, PinBlock b => ∃ i, a = AFrame i ∧ pinned_at c' i b
  | _, _ => True
  end.

Lemma settles_served c c' r q :
  settles c c' → is_Err r ∨ q = FlushAll → served q c r c'.
Proof.
  intros Hse Hc. split_and!.
  - intros x. rewrite (se_view _ _ Hse). destruct r as [a|e]; [|done]. destruct Hc as [[]| ->]; done.
  - intros i x Hp _. by apply Hse.
  - destruct r as [a|e]; [|done]. destruct Hc as [[]| ->]; done.
Qed.

Lemma writes_served c c' q b v :
  writes c b v c' → (∀ x, effect q (view c) x = if decide (x = b) then v else view c x) →
  match q with ReadPage _ | PinBlock _ => False | _ => True end → served q c (Ok ADone) c'.
Proof.
  intros Hw He Hq. split_and!; [|intros i x Hp _; by apply Hw|by destruct q].
  intros x. by rewrite (wr_view _ _ _ _ Hw), He.
Qed.

Lemma serve_spec n c q :
  cache_ok c → 0 ≤ n → room (n + 64) c → valid q → returns n (serve q) c (served q c).
Proof.
  intros Hok Hn Hroom Hq.
  assert (Hroom' : ∀ k, k ≤ 64 → room (n + k) c) by (intros; apply (room_weaken (n + 64)); [lia|done]).
  destruct q as [b|b v|b v|f t| |b|i]; simpl in *.
  - eapply returns_bind; [apply (page_spec n); auto with lia| |].
    { intros e c' [Hse _] _ ?. split; [done|]. apply settles_served; [done|by left]. }
    intros v c' (Hse & Hlt & ->) Hok1 Hr. exists (Ok (ABytes (view c b))), c'.
    split_and!; [done|done|done|]. split_and!; [apply Hse|intros i x Hp _; by apply Hse|done].
  - eapply returns_bind; [apply (put_block_spec n c b v); [done|done|apply Hroom'; lia|apply Hq|apply Hq]| |].
    { intros e c' [Hse _] _ ?. split; [done|]. apply settles_served; [done|by left]. }
    intros [] c' (Hlt & Hw) Hok1 Hr. exists (Ok ADone), c'. split_and!; try done. by eapply writes_served.
  - eapply returns_bind; [apply (edit_spec n c b); [done|done|apply Hroom'; lia|apply Hq]| |].
    { intros e c' [Hse _] _ ?. split; [done|]. apply settles_served; [done|by left]. }
    intros i c1 (Hlt & Hw1 & s & Hi & Hs & Hd) Hok1 Hr1.
    eapply returns_bind; [by apply (set_page_spec n c1 i s b v); [..|apply Hq]|by intros e c' [? _]|].
    intros [] c' (_ & Hst & Hw) Hok2 Hr2. exists (Ok ADone), c'. split_and!; try done.
    eapply writes_served; [eapply writes_over; [done| |done]|done|done]. by rewrite Hst.
  - destruct (decide (f = t)) as [->|Hne].
    { exists (Ok ADone), c. split_and!; [|done|by replace n with (n + 0) by lia; apply Hroom'|].
      - unfold pbind, Cache.copy. by rewrite Z.eqb_refl.
      - split_and!; try done. intros x. simpl. case_decide; congruence. }
    eapply returns_bind; [apply (copy_spec n c f t); [done|done|apply Hroom'; lia|apply Hq|apply Hq|done]| |].
    { intros e c' [Hse _] _ ?. split; [done|]. apply settles_served; [done|by left]. }
    intros [] c' (_ & _ & Hw) Hok1 Hr. exists (Ok ADone), c'. split_and!; try done. by eapply writes_served.
  - eapply returns_bind; [by apply (flush_spec n c)| |].
    { intros e c' [Hse _] _ ?. split; [done|]. apply settles_served; [done|by left]. }
    intros w c' (Hse & _) Hok1 Hr. exists (Ok ADone), c'. split_and!; try done. apply settles_served; [done|by right].
  - eapply returns_bind; [apply (pin_spec n c b); [done|done|apply Hroom'; lia|done]| |].
    { intros e c' (Hv & Hp & _) _ ?. split; [done|]. split_and!; auto. }
    intros i c' (Hv & Hp & Hi) Hok1 Hr. exists (Ok (AFrame i)), c'. split_and!; try done. split_and!; eauto.
  - destruct (unpin_spec n c i) as (Hok' & Hr & Hv & Hp); [done|by replace n with (n + 0) by lia; apply Hroom'|].
    exists (Ok ADone), (Cache.unpin c i). split_and!; try done. split_and!; [done| |done].
    intros j x Hj Hne. apply Hp. split; [congruence|done].
Qed.

Lemma replay_ext qs : ∀ rs M N, (∀ x, M x = N x) → ∀ x, replay qs rs M x = replay qs rs N x.
Proof.
  induction qs as [|q qs IH]; intros [|[a|e] rs] M N H x; simpl; auto. apply IH. intros y.
  destruct q; simpl; auto; case_decide; auto.
Qed.

Lemma serve_all_spec qs : ∀ n c,
  cache_ok c → 0 ≤ n → room (n + 64 * Z.of_nat (length qs)) c → Forall valid qs →
  ∃ rs c', serve_all qs c = Done (rs, c') ∧ cache_ok c' ∧ room n c' ∧
    (∀ x, view c' x = replay qs rs (view c) x) ∧
    (∀ i x, pinned_at c i x → UnpinFrame i ∉ qs → pinned_at c' i x) ∧
    (∀ k b a, qs !! k = Some (ReadPage b) → rs !! k = Some (Ok a) →
       a = ABytes (replay (take k qs) (take k rs) (view c) b)) ∧
    (∀ k b a, qs !! k = Some (PinBlock b) → rs !! k = Some (Ok a) →
       ∃ i, a = AFrame i ∧ (UnpinFrame i ∉ drop (k + 1) qs → pinned_at c' i b)).
Proof.
  induction qs as [|q qs IH]; intros n c Hok Hn Hroom Hv.
  { exists [], c. split_and!; try done. by apply (room_weaken (n + 64 * Z.of_nat (@length request []))); [simpl; lia|]. }
  apply Forall_cons in Hv as [Hq Hqs].
  destruct (serve_spec (n + 64 * Z.of_nat (length qs)) c q) as (r & c1 & Hc1 & Hok1 & Hr1 & Hview & Hpins & Hans);
    [done|lia| |done|].
  { apply (room_weaken (n + 64 * Z.of_nat (length (q :: qs)))); [simpl; lia|done]. }
  destruct (IH n c1) as (rs & c' & Hc' & Hok' & Hr' & Hview' & Hpins' & Hread & Hpin); [done..|].
  set (M1 := match r with Ok _ => effect q (view c) | Err _ => view c end).
  assert (HM : ∀ x, view c1 x = M1 x) by (intros x; rewrite Hview; by destruct r).
  assert (Hstep : ∀ qs' rs' x, replay (q :: qs') (r :: rs') (view c) x = replay qs' rs' (view c1) x).
  { intros qs' rs' x. rewrite (replay_ext qs' rs' (view c1) M1) by done. by destruct r. }
  exists (r :: rs), c'. split_and!; try done.
  - simpl. rewrite Hc1. simpl. by rewrite Hc'.
  - intros x. by rewrite Hstep, Hview'.
  - intros i x Hp [Hne Hni]%not_elem_of_cons. auto.
  - intros [|k] b a Hk Ha; [|cbn [take]; rewrite Hstep; by apply Hread]. simplify_eq/=. done.
  - intros [|k] b a Hk Ha; [|by apply (Hpin k)]. simplify_eq/=. destruct Hans as (i & -> & Hi). eauto.
Qed.

(** A new cache over any device shows what the device holds. *)
Lemma new_spec fr st c :
  Cache.new fr st = Ok c →
  cache_ok c ∧ room (2 ^ 64 - 1) c ∧ two_free c ∧ store c = st ∧ (∀ x, ¬ dirty_in c x) ∧ (∀ i x, ¬ pinned_at c i x).
Proof.
  unfold Cache.new. destruct (_ <? _)%nat eqn:Hcnt; [done|]. intros [= <-]. apply Nat.ltb_ge in Hcnt.
  set (cnt := Nat.min (length fr / BLOCK) MAX_FRAMES) in *.
  assert (Hheld : ∀ i s, held (MkCache fr (replicate MAX_FRAMES empty_slot) cnt 0 st 0 0 0) i s → s = empty_slot).
  { intros i s [_ Hs]. by apply lookup_replicate in Hs as [-> _]. }
  split_and!.
  - split.
    + split; [exact (length_replicate MAX_FRAMES empty_slot)|cbn [count]; lia|cbn [count frames]].
      pose proof (Nat.Div0.mul_div_le (length fr) BLOCK). subst cnt. nia.
    + intros i s Hs. by rewrite (Hheld i s Hs).
    + intros i j s t b Hs _ Hb _. by rewrite (Hheld i s Hs) in Hb.
  - unfold room. simpl. lia.
  - intros i. exists (if decide (i = 0%nat) then 1%nat else 0%nat), empty_slot. unfold MIN_FRAMES in *.
    split_and!; [case_decide; lia| |done]. split; [cbn [count]; case_decide; lia|].
    case_decide; reflexivity.
  - done.
  - intros x (i & s & Hs & Hb & _). by rewrite (Hheld i s Hs) in Hb.
  - intros i x (s & Hs & Hb & _). by rewrite (Hheld i s Hs) in Hb.
Qed.

(** C24. The cache is coherent over any device, failing ones included.  Serve
    any sequence of valid requests through a new cache: every one of them
    returns; a page read answers the bytes of the last successful write or copy
    to that block (what the device held, if there was none), a failed request
    changing nothing; a frame that was pinned, and not let go of since, still holds its block
    and shows the block's current bytes; and if a final flush succeeds, the device holds
    exactly the result of the successful requests. *)
Theorem cache_coherent frames0 dev c0 qs :
  Cache.new frames0 dev = Ok c0 → Forall valid qs → 64 * Z.of_nat (length qs) + 64 < 2 ^ 64 →
  ∃ rs c1 w c2,
    serve_all qs c0 = Done (rs, c1) ∧ Cache.flush c1 = Done (w, c2) ∧
    (∀ k b a, qs !! k = Some (ReadPage b) → rs !! k = Some (Ok a) →
       a = ABytes (replay (take k qs) (take k rs) (disk dev) b)) ∧
    (∀ k b a, qs !! k = Some (PinBlock b) → rs !! k = Some (Ok a) →
       ∃ i, a = AFrame i ∧ (UnpinFrame i ∉ drop (k + 1) qs →
         Cache.is_pinned c1 i = true ∧ Cache.block_in c1 i = Some b ∧
         Cache.frame c1 i = Done (replay qs rs (disk dev) b))) ∧
    (∀ n, w = Ok n → ∀ b, disk (store c2) b = replay qs rs (disk dev) b).
Proof.
  intros Hnew Hv Hlen. destruct (new_spec _ _ _ Hnew) as (Hok & Hroom & _ & Hst & Hclean & _).
  assert (Hv0 : ∀ x, view c0 x = disk dev x) by (intros x; by rewrite view_clean, Hst).
  destruct (serve_all_spec qs 64 c0) as (rs & c1 & Hc1 & Hok1 & Hroom1 & Hview & _ & Hread & Hpin); [done|lia| |done|].
  { apply (room_weaken (2 ^ 64 - 1)); [lia|done]. }
  destruct (flush_spec 0 c1) as (w & c2 & Hc2 & Hok2 & _ & Hse & Hw); [done|lia|done|].
  exists rs, c1, w, c2. split_and!; try done.
  - intros k b a Hk Ha. rewrite (Hread k b a Hk Ha). f_equal. by apply replay_ext.
  - intros k b a Hk Ha. destruct (Hpin k b a Hk Ha) as (i & -> & Hkept). exists i.
    split; [done|]. intros Hno. destruct (Hkept Hno) as (s & Hi & Hs & Hp).
    unfold Cache.is_pinned, Cache.block_in. rewrite (proj2 Hi). split_and!; try done.
    destruct (frame_done c1 i (ok_shape _ Hok1) (proj1 Hi)) as [-> _]. f_equal.
    rewrite <- (view_held c1 i s b), Hview by done. by apply replay_ext.
  - intros n -> b. rewrite <- (view_clean c2 b Hok2 (Hw b)), (se_view _ _ Hse), Hview. by apply replay_ext.
Qed.

End Coherence.

(** ** The devices of the sources keep the promise *)
Section Devices.

Lemma blocks_fit (bytes : list Z) b :
  0 ≤ b < whole_blocks bytes → (block_at b + BLOCK ≤ length bytes)%nat.
Proof.
  intros [H0 H1]. unfold whole_blocks in H1. unfold block_at.
  assert (Z.of_nat BLOCK = BLOCKz) as HB by reflexivity.
  assert (b < Z.of_nat (length bytes) / BLOCKz) as Hb by lia.
  pose proof (Z.mul_div_le (Z.of_nat (length bytes)) BLOCKz ltac:(done)). unfold BLOCKz in *. lia.
Qed.

(** The contents of a device that keeps its blocks in one byte string. *)
Definition bytes_disk (bytes : list Z) (b : Z) : list Z :=
  if (0 <=? b) && (b <? whole_blocks bytes) then default [] (get bytes (block_at b) BLOCK) else [].

Lemma bytes_disk_get bytes b :
  0 ≤ b < whole_blocks bytes → get bytes (block_at b) BLOCK = Some (bytes_disk bytes b) ∧
    length (bytes_disk bytes b) = BLOCK.
Proof.
  intros Hb. destruct (get_some bytes (block_at b) BLOCK (blocks_fit _ _ Hb)) as (v & Hv & Hl).
  unfold bytes_disk. rewrite (proj2 (Z.leb_le 0 b)), (proj2 (Z.ltb_lt b _)) by lia. by rewrite Hv.
Qed.

Lemma whole_blocks_range bytes : 0 ≤ whole_blocks bytes < 2 ^ 32.
Proof.
  unfold whole_blocks. assert (0 ≤ Z.of_nat (length bytes) / BLOCKz) by (apply Z.div_pos; done || lia). lia.
Qed.

Lemma read_bytes_spec bytes b into :
  0 ≤ b < whole_blocks bytes → length into = BLOCK → read_bytes bytes b into = (Ok (), bytes_disk bytes b).
Proof.
  intros Hb Hl. unfold read_bytes, copy_block. destruct (bytes_disk_get _ _ Hb) as [-> Hd].
  rewrite decide_True by lia. unfold splice. rewrite take_0, Hd, drop_ge by lia. by rewrite app_nil_r.
Qed.

Lemma write_bytes_spec bytes b data :
  0 ≤ b < whole_blocks bytes → length data = BLOCK →
  write_bytes bytes b data = Ok (splice bytes (block_at b) data) ∧
  whole_blocks (splice bytes (block_at b) data) = whole_blocks bytes ∧
  (∀ x, bytes_disk (splice bytes (block_at b) data) x = if decide (x = b) then data else bytes_disk bytes x).
Proof.
  intros Hb Hl. pose proof (blocks_fit _ _ Hb) as Hfit. unfold write_bytes.
  destruct (bytes_disk_get _ _ Hb) as [-> _]. rewrite (get_whole data BLOCK Hl).
  assert (Hw : whole_blocks (splice bytes (block_at b) data) = whole_blocks bytes).
  { unfold whole_blocks. by rewrite length_splice by lia. }
  split_and!; [done|done|]. intros x. unfold bytes_disk. rewrite Hw.
  destruct (decide (x = b)) as [->|Hx].
  - rewrite (proj2 (Z.leb_le 0 b)), (proj2 (Z.ltb_lt b _)) by lia. simpl.
    pose proof (get_splice_same bytes (block_at b) data) as Hg. rewrite Hl in Hg. by rewrite Hg.
  - destruct (Z.leb_spec 0 x); [|done]. destruct (x <? _); [|done]. simpl.
    rewrite get_splice_other; [done|lia|]. rewrite Hl. unfold block_at. nia.
Qed.

#[refine, global] Instance memory_laws : StoreLaws Memory := {| disk := fun s => bytes_disk (memory_bytes s) |}.
Proof.
  - intros s. apply whole_blocks_range.
  - intros s b Hb. by apply bytes_disk_get.
  - intros s b into r out s' Hb Hl. simpl. unfold memory_read. rewrite read_bytes_spec by done. by intros [= <- <- <-].
  - intros s b data r s' Hb Hl. simpl. unfold memory_write.
    destruct (write_bytes_spec _ _ _ Hb Hl) as (-> & Hw & Hd). intros [= <- <-]. split_and!; [done| |left]; simpl.
    + intros x Hx. rewrite Hd. by rewrite decide_False.
    + rewrite Hd. by rewrite decide_True.
Defined.

Lemma memory_dependable (s : Memory) : dependable s.
Proof.
  intros s' _ b bytes Hb Hl. split; simpl.
  - by rewrite read_bytes_spec.
  - unfold memory_write. by destruct (write_bytes_spec _ _ _ Hb Hl) as (-> & _).
Qed.

#[refine, global] Instance watched_laws : StoreLaws Watched := {| disk := fun s => bytes_disk (wbytes s) |}.
Proof.
  - intros s. apply whole_blocks_range.
  - intros s b Hb. by apply bytes_disk_get.
  - intros s b into r out s' Hb Hl. simpl. unfold watched_read. rewrite read_bytes_spec by done. by intros [= <- <- <-].
  - intros s b data r s' Hb Hl. simpl. unfold watched_write. destruct (wlimit s <=? seen s).
    { intros [= <- <-]. split_and!; [done|done|by right]. }
    destruct (write_bytes_spec _ _ _ Hb Hl) as (-> & Hw & Hd). intros [= <- <-]. split_and!; [done| |left]; simpl.
    + intros x Hx. rewrite Hd. by rewrite decide_False.
    + rewrite Hd. by rewrite decide_True.
Defined.

End Devices.

(** ** What a source of pages promises

    Asking for pages shows [contents] and changes nothing a reader can see
    ([moves]); [ready n] says that the source can serve [n] more counter ticks,
    and [blocked] why a page may be refused. *)
Class PagesLaws (P : Type) `{!Pages P} : Type := {
  contents : P → Z → list Z;
  ready : Z → P → Prop;
  moves : P → P → Prop;
  blocked : P → Z → Prop;
  moves_preorder :: PreOrder moves;
  moves_contents p p' x : moves p p' → contents p' x = contents p x;
  moves_blocks p p' : moves p p' → pg_blocks p' = pg_blocks p;
  moves_blocked p p' b : moves p p' → blocked p' b → blocked p b;
  ready_weaken m n p : n ≤ m → ready m p → ready n p;
  page_law n p b : ready (n + 2) p → 0 ≤ n → 0 ≤ b →
    ∃ r p', page b p = Done (r, p') ∧ ready n p' ∧ moves p p' ∧
      match r with
      | Ok bytes => b < pg_blocks p ∧ bytes = contents p b ∧ length bytes = BLOCK
      | Err _ => blocked p b
      end
}.

Section CachePages.
Context {S : Type} `{!Store S} `{!StoreLaws S}.
Implicit Types c : Cache S.

Lemma view_length c b : cache_ok c → 0 ≤ b < st_blocks (store c) → length (view c b) = BLOCK.
Proof.
  intros Hok Hb. unfold view. destruct (Cache.resident c b) as [i|] eqn:Hr; [|by apply disk_length].
  destruct (resident_some _ _ _ Hr) as (s & Hi & _). by destruct (frame_done c i (ok_shape _ Hok) (proj1 Hi)).
Qed.

#[refine, global] Instance cache_pages_laws : PagesLaws (Cache S) := {|
  contents := view; ready := fun n c => cache_ok c ∧ room n c; moves := settles; blocked := excused
|}.
Proof.
  - intros c c' x Hse. apply Hse.
  - intros c c' Hse. apply Hse.
  - intros c c' b. apply settles_excused.
  - intros m n c Hmn [Hok Hr]. split; [done|]. by eapply room_weaken.
  - intros n c b [Hok Hr] Hn Hb. destruct (page_spec n c b Hok Hn Hr Hb) as (r & c' & Hc' & Hok' & Hr' & Hse & Hpost).
    exists r, c'. split_and!; try done. destruct r as [bytes|e]; [|done]. destruct Hpost as [Hlt ->].
    split_and!; [done|done|]. by apply view_length.
Defined.

End CachePages.

(** An image answers from its bytes; only a block it does not have is refused. *)
#[refine, global] Instance image_pages_laws : PagesLaws Image := {|
  contents := fun p b => bytes_disk (image_bytes p) b; ready := fun _ p => Z.of_nat (length (image_bytes p)) < 2 ^ 44;
  moves := eq; blocked := fun p b => whole_blocks (image_bytes p) ≤ b
|}.
Proof.
  - intros p p' x ->. done.
  - intros p p' ->. done.
  - intros p p' b -> H. done.
  - done.
  - intros n p b Hp Hn Hb. simpl. unfold image_page.
    assert (Hw : whole_blocks (image_bytes p) = Z.of_nat (length (image_bytes p)) / BLOCKz).
    { unfold whole_blocks. apply Z.min_l.
      assert (Z.of_nat (length (image_bytes p)) / BLOCKz < 2 ^ 32) by (apply Z.div_lt_upper_bound; unfold BLOCKz; lia). lia. }
    destruct (Z.ltb_spec b (whole_blocks (image_bytes p))) as [Hlt|Hge].
    + destruct (bytes_disk_get (image_bytes p) b) as [-> Hl]; [lia|]. eexists (Ok _), p. by split_and!.
    + exists (Err OutOfRange), p. split_and!; try done. unfold get. rewrite decide_False; [done|].
      unfold block_at. rewrite Hw in Hge. assert (Z.of_nat BLOCK = BLOCKz) as HB by reflexivity.
      pose proof (Z.mul_succ_div_gt (Z.of_nat (length (image_bytes p))) BLOCKz ltac:(done)).
      unfold BLOCKz in *. nia.
Defined.

(** A two-frame cache over a three-block device that stops after two writes. *)
Definition demo_device : Watched := MkWatched (replicate (3 * BLOCK) 0) 0 2 0 None.
Definition demo_cache : Cache Watched :=
  MkCache (replicate (2 * BLOCK) 7) (replicate MAX_FRAMES empty_slot) 2 0 demo_device 0 0 0.
Definition demo_requests : list request :=
  [PutBlock 0 (replicate BLOCK 5); CopyBlock 0 1; PinBlock 1; ReadPage 2; UnpinFrame 1; FlushAll].

Lemma cache_coherent_witness :
  ∃ rs c1 w c2, serve_all demo_requests demo_cache = Done (rs, c1) ∧ Cache.flush c1 = Done (w, c2) ∧
    (∀ n, w = Ok n → ∀ b, disk (store c2) b = replay demo_requests rs (disk demo_device) b).
Proof.
  destruct (cache_coherent (replicate (2 * BLOCK) 7) demo_device demo_cache demo_requests)
    as (rs & c1 & w & c2 & H1 & H2 & _ & _ & H3).
  - unfold Cache.new. rewrite length_replicate, Nat.div_mul by apply BLOCK_nonzero. reflexivity.
  - repeat constructor; simpl; try lia; apply length_replicate.
  - simpl. lia.
  - exists rs, c1, w, c2. exact (conj H1 (conj H2 H3)).
Defined.
