(* ===== verification/Journal.v ===== *)
(** * The journal

    Models src/fs/src/journal.rs: the commit block, its checksum over the
    header, the table of destinations and the logged blocks, and where a logged
    block belongs.  The functions are written against the [Pages] interface, as
    in the source, and proved against its laws. *)
From stdpp Require Import prelude numbers list.
From S2P Require Import Prelude Bytes Fs Cache.
Open Scope Z_scope.
Set Warnings "-clear-no-such-hyp".

Definition MAX_STAGED : nat := 8.

(** Where the home-block table starts in the commit block. *)
Definition TABLE : nat := 24.

(** How many bytes of a commit block say anything. *)
Definition HEAD : nat := TABLE + MAX_STAGED * 4.

Record Commit : Type := MkCommit { sequence : Z; ccount : Z }.

#[global] Instance Commit_eq_dec : EqDecision Commit.
Proof. solve_decision. Defined.

(** [u32::try_from(superblock.journal_start).map_err(..)]. *)
Definition journal_at (superblock : Superblock) : result Z FsError :=
  if journal_start superblock <? 2 ^ 32 then Ok (journal_start superblock) else Err OutOfRange.

Module Journal.
Section Journal.
Context {P : Type} `{!Pages P}.

(** Folds the logged blocks [index ..] into the running hash. *)
Fixpoint hash_logged (n : nat) (index start hash : Z) : prog P FsError Z :=
  match n with
  | 0%nat => pret hash
  | S n' =>
      at' ←! pout (x ← add_checked 32 start 1; add_checked 32 x index);
      logged ←! page at';
      hash_logged n' (index + 1) start (checksum_of hash logged)
  end.

(** The checksum a commit block should carry. *)
Definition transaction_checksum (superblock : Superblock) (count : Z) : prog P FsError Z :=
  start ←! plift (journal_at superblock);
  head ←! page start;
  first ←! plift (ok_or (get head 0 20) OutOfRange);
  table ←! plift (ok_or (get head TABLE (Z.to_nat count * 4)) OutOfRange);
  hash ←! hash_logged (Z.to_nat count) 0 start (checksum_of (checksum_of FNV_SEED first) table);
  pret (nonzero hash).

(** Reads the commit block, if it holds a committed transaction. *)
Definition committed (superblock : Superblock) : prog P FsError (option Commit) :=
  start ←! plift (journal_at superblock);
  head ←! page start;
  match u64_at head 0, u64_at head 8, u32_at head 16 with
  | Some magic, Some sequence', Some count' =>
      if negb (magic =? JOURNAL_MAGIC) || (sequence' =? 0) || (count' =? 0)
         || (Z.of_nat MAX_STAGED <? count') || (journal_blocks superblock <=? count')
      then pret None
      else
        expected ←! transaction_checksum superblock count';
        head ←! page start;
        if bool_decide (u32_at head 20 = Some expected)
        then pret (Some (MkCommit sequence' count')) else pret None
  | _, _, _ => pret None
  end.

(** Whether a committed transaction is waiting. *)
Definition pending (superblock : Superblock) : prog P FsError bool :=
  c ←! committed superblock; pret (bool_decide (c ≠ None)).

(** The table of destinations, one [put] each. *)
Fixpoint put_table (head : list Z) (index : nat) (homes : list Z) : option (list Z) :=
  match homes with
  | [] => Some head
  | block :: homes' => head ← put head (TABLE + index * 4) (to_le 4 block); put_table head (index + 1) homes'
  end.

(** The header and the table, before the checksum. *)
Definition commit_fields (sequence' : Z) (homes : list Z) : option (list Z) :=
  head ← put (replicate HEAD 0) 0 (to_le 8 JOURNAL_MAGIC);
  head ← put head 8 (to_le 8 sequence');
  head ← put head 16 (to_le 4 (Z.of_nat (length homes)));
  put_table head 0 homes.

(** Builds the commit block for a transaction whose payload is in place. *)
Definition build_commit (superblock : Superblock) (sequence' : Z) (homes : list Z)
    : prog P FsError (list Z) :=
  if bool_decide (homes = []) || (MAX_STAGED <? length homes)%nat then pfail Full
  else if journal_blocks superblock <=? Z.of_nat (length homes) then pfail Full
  else
    head ←! plift (ok_or (commit_fields sequence' homes) OutOfRange);
    start ←! plift (journal_at superblock);
    first ←! pout (match get head 0 20 with Some x => Done x | None => Panic end);
    table ←! pout (match get head TABLE (length homes * 4) with Some x => Done x | None => Panic end);
    hash ←! hash_logged (length homes) 0 start (checksum_of (checksum_of FNV_SEED first) table);
    plift (ok_or (put head 20 (to_le 4 (nonzero hash))) OutOfRange).

(** Where the [index]th logged block belongs. *)
Definition home (superblock : Superblock) (index : Z) : prog P FsError Z :=
  start ←! plift (journal_at superblock);
  head ←! page start;
  destination ←! plift (ok_or (u32_at head (TABLE + Z.to_nat index * 4)) OutOfRange);
  if (destination =? 0) || (blocks superblock <=? destination) then pfail OutOfRange
  else pret destination.

End Journal.
End Journal.

#[local] Opaque BLOCK.

(** ** Reading pages through the interface *)
Section Reading.
Context {P : Type} `{!Pages P} `{!PagesLaws P}.
Implicit Types p : P.

(** [m] returns, having changed nothing a reader can see, with an answer in [Q]
    or an error for which [E] accounts. *)
Definition answers {A} (n : Z) (m : prog P FsError A) p (E : Prop) (Q : A → Prop) : Prop :=
  ∃ r p', m p = Done (r, p') ∧ ready n p' ∧ moves p p' ∧ match r with Ok a => Q a | Err _ => E end.

Lemma answers_bind {A B} n k (m : prog P FsError A) (f : A → prog P FsError B) p E Q R :
  answers n m p E Q → k ≤ n →
  (∀ a p', Q a → ready n p' → moves p p' → answers k (f a) p' E R) → answers k (pbind m f) p E R.
Proof.
  intros (r & p1 & Hm & Hr & Hmv & HQ) Hk Hf. unfold answers, pbind. rewrite Hm. cbn [mbind outcome_bind].
  destruct r as [a|e].
  - destruct (Hf a p1 HQ Hr Hmv) as (r & p2 & H2 & Hr2 & Hmv2 & HR). exists r, p2.
    split_and!; [done|done|by etrans|done].
  - exists (Err e), p1. split_and!; [done|by eapply ready_weaken|done|done].
Qed.

Lemma answers_ret {A} n (a : A) p E Q : ready n p → (Q a : Prop) → answers n (pret a) p E Q.
Proof. intros Hr HQ. exists (Ok a), p. by split_and!. Qed.

Lemma answers_fail {A} n e p (E : Prop) (Q : A → Prop) : ready n p → E → answers n (pfail e) p E Q.
Proof. intros Hr HE. exists (Err e), p. by split_and!. Qed.

Lemma answers_lift {A} n (r : result A FsError) a p E : ready n p → r = Ok a → answers n (plift r) p E (fun x => x = a).
Proof. intros Hr ->. by apply answers_ret. Qed.

Lemma answers_pout {A} n (m : outcome A) a p E : ready n p → m = Done a → answers n (pout m) p E (fun x => x = a).
Proof. intros Hr ->. exists (Ok a), p. by split_and!. Qed.

Lemma answers_page n p b (E : Prop) :
  ready (n + 2) p → 0 ≤ n → 0 ≤ b → (blocked p b → E) →
  answers n (page b) p E (fun bytes => b < pg_blocks p ∧ bytes = contents p b ∧ length bytes = BLOCK).
Proof.
  intros Hr Hn Hb HE. destruct (page_law n p b Hr Hn Hb) as (r & p' & Hp & Hr' & Hmv & Hpost).
  exists r, p'. split_and!; try done. destruct r; auto.
Qed.

(** ** The checksum *)

(** The hash of a transaction of [count] blocks whose commit block reads [head]. *)
Definition tx_sum (V : Z → list Z) (start : Z) (count : nat) (head : list Z) : Z :=
  nonzero (foldl checksum_of
    (checksum_of (checksum_of FNV_SEED (take 20 head)) (take (count * 4) (drop TABLE head)))
    (V <$> seqZ (start + 1) (Z.of_nat count))).

Lemma hash_logged_spec m : ∀ n index start hash p E,
  ready (n + 2 * Z.of_nat m) p → 0 ≤ n → 0 ≤ start → 0 ≤ index → start + 1 + index + Z.of_nat m ≤ 2 ^ 32 →
  (∀ b, start + 1 + index ≤ b < start + 1 + index + Z.of_nat m → blocked p b → E) →
  answers n (Journal.hash_logged m index start hash) p E (fun h =>
    h = foldl checksum_of hash (contents p <$> seqZ (start + 1 + index) (Z.of_nat m))).
Proof.
  induction m as [|m IH]; intros n index start hash p E Hr Hn Hs Hi Hmax HE; simpl Journal.hash_logged.
  { apply answers_ret; [|done]. by eapply ready_weaken, Hr; lia. }
  eapply (answers_bind (n + 2 * Z.of_nat (S m))); [eapply answers_pout; [done|]|lia|].
  { unfold add_checked. rewrite checked_ok by (unfold in_width; lia). cbn [mbind outcome_bind].
    apply checked_ok. unfold in_width. lia. }
  intros at' p1 -> Hr1 Hmv1.
  eapply (answers_bind (n + 2 * Z.of_nat m)); [apply answers_page; [|lia|lia|]|lia|].
  { by eapply ready_weaken, Hr1; lia. }
  { intros Hb. apply (HE (start + 1 + index)); [lia|]. by eapply moves_blocked. }
  intros logged p2 (_ & -> & _) Hr2 Hmv2. assert (Hmv : moves p p2) by by etrans.
  destruct (IH n (index + 1) start (checksum_of hash (contents p1 (start + 1 + index))) p2 E)
    as (r & p3 & H3 & Hr3 & Hmv3 & Hpost); try done; try lia.
  { intros b Hb Hbl. apply (HE b); [lia|]. by eapply moves_blocked. }
  exists r, p3. split_and!; try done. destruct r as [h|e]; [|done]. rewrite Hpost.
  rewrite (seqZ_cons (start + 1 + index)) by lia. cbn [fmap list_fmap foldl].
  rewrite (moves_contents p p1) by done. f_equal.
  replace (Z.pred (Z.of_nat (S m))) with (Z.of_nat m) by lia.
  replace (Z.succ (start + 1 + index)) with (start + 1 + (index + 1)) by lia.
  apply list_fmap_ext. intros k b _. by apply moves_contents.
Qed.

(** Where the journal lies on the device: after the superblock, inside 32-bit
    block numbers. *)
Definition journal_fits (sb : Superblock) : Prop :=
  0 < journal_start sb ∧ 0 ≤ journal_blocks sb ∧ journal_start sb + journal_blocks sb ≤ 2 ^ 32.
Definition in_journal (sb : Superblock) (b : Z) : Prop :=
  journal_start sb ≤ b < journal_start sb + journal_blocks sb.

Lemma journal_at_ok sb : journal_fits sb → 0 < journal_blocks sb → journal_at sb = Ok (journal_start sb).
Proof. intros (? & ? & ?) ?. unfold journal_at. by rewrite (proj2 (Z.ltb_lt _ _)) by lia. Qed.

(** What a reader of the log at [V] concludes. *)
Definition commit_of (V : Z → list Z) (sb : Superblock) : option Commit :=
  let head := V (journal_start sb) in
  match u64_at head 0, u64_at head 8, u32_at head 16 with
  | Some magic, Some seq, Some cnt =>
      if negb (magic =? JOURNAL_MAGIC) || (seq =? 0) || (cnt =? 0)
         || (Z.of_nat MAX_STAGED <? cnt) || (journal_blocks sb <=? cnt) then None
      else if bool_decide (u32_at head 20 = Some (tx_sum V (journal_start sb) (Z.to_nat cnt) head))
      then Some (MkCommit seq cnt) else None
  | _, _, _ => None
  end.

Lemma get_take bytes a n : (a + n ≤ length bytes)%nat → get bytes a n = Some (take n (drop a bytes)).
Proof. intros H. unfold get. by rewrite decide_True. Qed.

Lemma table_in_block (n : nat) : (n ≤ MAX_STAGED)%nat → (TABLE + n * 4 ≤ BLOCK)%nat.
Proof. rewrite block_value. unfold MAX_STAGED, TABLE. lia. Qed.

Lemma transaction_checksum_spec n p sb cnt (E : Prop) :
  journal_fits sb → ready (n + 18) p → 0 ≤ n → cnt ≤ Z.of_nat MAX_STAGED → cnt < journal_blocks sb → 0 < journal_blocks sb →
  (∀ b, in_journal sb b → blocked p b → E) →
  answers n (Journal.transaction_checksum sb cnt) p E (fun h =>
    h = tx_sum (contents p) (journal_start sb) (Z.to_nat cnt) (contents p (journal_start sb))).
Proof.
  intros Hfit Hr Hn Hc Hj Hj0 HE. pose proof Hfit as (Hs & _ & Hmax). unfold Journal.transaction_checksum.
  eapply (answers_bind (n + 18)); [by eapply answers_lift; [|by apply journal_at_ok]|lia|]. intros start p1 -> Hr1 Hm1.
  eapply (answers_bind (n + 16)); [apply answers_page; [by eapply ready_weaken, Hr1; lia|lia|lia|]|lia|].
  { intros Hb. eapply HE; [split; [reflexivity|lia]|by eapply moves_blocked]. }
  intros head p2 (_ & -> & Hl) Hr2 Hm2. rewrite (moves_contents p p1) in * by done.
  assert (Hm : moves p p2) by by etrans. set (head := contents p (journal_start sb)) in *.
  assert (Hcn : (Z.to_nat cnt ≤ MAX_STAGED)%nat) by (unfold MAX_STAGED in *; lia).
  pose proof (table_in_block _ Hcn) as Ht.
  eapply (answers_bind (n + 16)); [eapply answers_lift; [done|]|lia|].
  { rewrite get_take by (unfold TABLE in Ht; lia). done. }
  intros first p3 -> Hr3 Hm3.
  eapply (answers_bind (n + 16)); [eapply answers_lift; [done|]|lia|].
  { rewrite get_take by lia. done. }
  intros table p4 -> Hr4 Hm4. assert (Hm' : moves p p4) by (etrans; [exact Hm|by etrans]).
  eapply (answers_bind n); [apply hash_logged_spec; try lia|lia|].
  { eapply ready_weaken, Hr4. unfold MAX_STAGED in *. lia. }
  { intros b Hb Hbl. apply (HE b); [split; lia|by eapply moves_blocked]. }
  intros hash p5 -> Hr5 _. apply answers_ret; [done|]. unfold tx_sum. rewrite drop_0. f_equal.
  replace (journal_start sb + 1 + 0) with (journal_start sb + 1) by lia. f_equal.
  apply list_fmap_ext. intros k b _. by apply moves_contents.
Qed.

(** Reading the commit block reports exactly what [commit_of] says of the pages. *)
Lemma committed_spec n p sb (E : Prop) :
  journal_fits sb → 0 < journal_blocks sb → ready (n + 22) p → 0 ≤ n →
  (∀ b, in_journal sb b → blocked p b → E) →
  answers n (Journal.committed sb) p E (fun c => c = commit_of (contents p) sb).
Proof.
  intros Hfit Hj Hr Hn HE. pose proof Hfit as (Hs & _ & Hmax). unfold Journal.committed.
  eapply (answers_bind (n + 22)); [by eapply answers_lift; [|by apply journal_at_ok]|lia|]. intros start p1 -> Hr1 Hm1.
  assert (Hstart : ∀ p', moves p p' → blocked p' (journal_start sb) → E).
  { intros p' Hm Hb. eapply HE; [split; [reflexivity|lia]|by eapply moves_blocked]. }
  eapply (answers_bind (n + 20)); [apply answers_page; [by eapply ready_weaken, Hr1; lia|lia|lia|by apply Hstart]|lia|].
  intros head p2 (_ & -> & Hl) Hr2 Hm2. rewrite (moves_contents p p1) in * by done.
  assert (Hm : moves p p2) by by etrans. unfold commit_of.
  destruct (u64_at _ 0) as [magic|]; [|apply answers_ret; [by eapply ready_weaken, Hr2; lia|done]].
  destruct (u64_at _ 8) as [seq|]; [|apply answers_ret; [by eapply ready_weaken, Hr2; lia|done]].
  destruct (u32_at _ 16) as [cnt|]; [|apply answers_ret; [by eapply ready_weaken, Hr2; lia|done]].
  destruct (_ || _) eqn:Hg; [apply answers_ret; [by eapply ready_weaken, Hr2; lia|done]|].
  rewrite !orb_false_iff, Z.ltb_ge, Z.leb_gt in Hg.
  eapply (answers_bind (n + 2)); [apply transaction_checksum_spec; [done|by eapply ready_weaken, Hr2; lia|lia|apply Hg|apply Hg|done|]|lia|].
  { intros b Hb Hbl. eapply HE; [done|by eapply moves_blocked]. }
  intros expected p3 -> Hr3 Hm3. assert (Hm' : moves p p3) by by etrans.
  eapply (answers_bind n); [apply answers_page; [done|done|lia|by apply Hstart]|lia|].
  intros head p4 (_ & -> & _) Hr4 _. rewrite (moves_contents p p3) by done.
  assert (Hsum : tx_sum (contents p2) (journal_start sb) (Z.to_nat cnt) (contents p2 (journal_start sb)) =
    tx_sum (contents p) (journal_start sb) (Z.to_nat cnt) (contents p (journal_start sb))).
  { rewrite (moves_contents p p2) by done. unfold tx_sum. do 2 f_equal. apply list_fmap_ext. intros. by apply moves_contents. }
  rewrite Hsum. case_bool_decide; by apply answers_ret.
Qed.

Lemma pending_spec n p sb (E : Prop) :
  journal_fits sb → 0 < journal_blocks sb → ready (n + 22) p → 0 ≤ n →
  (∀ b, in_journal sb b → blocked p b → E) →
  answers n (Journal.pending sb) p E (fun b => b = bool_decide (commit_of (contents p) sb ≠ None)).
Proof.
  intros Hfit Hj Hr Hn HE. eapply (answers_bind n); [by apply committed_spec|lia|].
  intros c p' -> Hr' _. by apply answers_ret.
Qed.

(** ** Building a commit block *)
Fixpoint table_fields (k : nat) (homes : list Z) : list (nat * list Z) :=
  match homes with
  | [] => []
  | h :: homes' => ((TABLE + k * 4)%nat, to_le 4 h) :: table_fields (k + 1) homes'
  end.
Definition header_fields (seq : Z) (homes : list Z) : list (nat * list Z) :=
  [(0%nat, to_le 8 JOURNAL_MAGIC); (8%nat, to_le 8 seq); (16%nat, to_le 4 (Z.of_nat (length homes)))].

Lemma put_table_fields homes : ∀ head k, Journal.put_table head k homes = write_fields head (table_fields k homes).
Proof. induction homes as [|h homes IH]; intros head k; simpl; [done|]. destruct (put head _ _); simpl; auto. Qed.

Lemma commit_fields_fields seq homes :
  Journal.commit_fields seq homes = write_fields (replicate HEAD 0) (header_fields seq homes ++ table_fields 0 homes).
Proof.
  unfold Journal.commit_fields, header_fields. cbn [app write_fields].
  destruct (put _ 0 _) as [h0|]; cbn [mbind option_bind]; [|done].
  destruct (put h0 8 _) as [h1|]; cbn [mbind option_bind]; [|done].
  destruct (put h1 16 _) as [h2|]; cbn [mbind option_bind]; [|done]. apply put_table_fields.
Qed.

Lemma table_laid_out homes : ∀ k, laid_out (TABLE + k * 4) (table_fields k homes) (TABLE + (k + length homes) * 4).
Proof.
  induction homes as [|h homes IH]; intros k; cbn [table_fields laid_out length]; [lia|]. split; [lia|].
  specialize (IH (k + 1)%nat). rewrite length_to_le. replace (TABLE + k * 4 + 4)%nat with (TABLE + (k + 1) * 4)%nat by lia.
  by replace (k + S (length homes))%nat with (k + 1 + length homes)%nat by lia.
Qed.

Lemma laid_out_weaken fields : ∀ from from' stop, (from' ≤ from)%nat → laid_out from fields stop → laid_out from' fields stop.
Proof. destruct fields as [|[a v] fields]; simpl; intros; [lia|]. destruct_and!. split; [lia|done]. Qed.

Lemma table_field homes : ∀ k i h,
  homes !! i = Some h → ((TABLE + (k + i) * 4)%nat, to_le 4 h) ∈ table_fields k homes.
Proof.
  induction homes as [|h0 homes IH]; intros k [|i] h Hi; simplify_eq/=.
  - apply elem_of_cons. left. by rewrite Nat.add_0_r.
  - apply elem_of_cons. right. replace (k + S i)%nat with (k + 1 + i)%nat by lia. by apply IH.
Qed.

(** A commit block with the header and table in place and some checksum. *)
Record commit_block (seq : Z) (homes : list Z) (sum : Z) (head : list Z) : Prop := {
  cb_length : length head = HEAD;
  cb_magic : u64_at head 0 = Some JOURNAL_MAGIC;
  cb_sequence : u64_at head 8 = Some seq;
  cb_count : u32_at head 16 = Some (Z.of_nat (length homes));
  cb_sum : u32_at head 20 = Some sum;
  cb_home i h : homes !! i = Some h → u32_at head (TABLE + i * 4) = Some h
}.

Lemma commit_fields_spec seq homes sum :
  in_width 64 seq → in_width 32 sum → Forall (in_width 32) homes → (length homes ≤ MAX_STAGED)%nat →
  ∃ body out, Journal.commit_fields seq homes = Some body ∧ length body = HEAD ∧
    put body 20 (to_le 4 sum) = Some out ∧ commit_block seq homes sum out ∧
    take 20 out = take 20 body ∧ take (length homes * 4) (drop TABLE out) = take (length homes * 4) (drop TABLE body).
Proof.
  intros Hseq Hsum Hh Hl. rewrite commit_fields_fields.
  destruct (write_fields_spec (header_fields seq homes ++ table_fields 0 homes) (replicate HEAD 0) 0 HEAD)
    as (body & Hb & Hlen & Hin & _).
  { unfold header_fields. cbn [app laid_out]. rewrite !length_to_le. split_and!; [lia|lia|lia|].
    apply (laid_out_weaken _ (TABLE + 0 * 4)); [unfold TABLE; lia|].
    pose proof (table_laid_out homes 0) as Ht. revert Ht. generalize (table_fields 0 homes).
    assert (Hstop : (TABLE + (0 + length homes) * 4 ≤ HEAD)%nat) by (unfold HEAD; lia).
    revert Hstop. generalize (TABLE + (0 + length homes) * 4)%nat. intros stop Hstop.
    assert (Hw : ∀ fs a, laid_out a fs stop → laid_out a fs HEAD).
    { induction fs as [|[x v] fs IH]; cbn [laid_out]; intros a; [lia|intros [? ?]; auto]. }
    intros fs. apply Hw. }
  { by rewrite length_replicate. }
  rewrite length_replicate in Hlen. exists body, (splice body 20 (to_le 4 sum)).
  assert (H24 : (20 + length (to_le 4 sum) ≤ length body)%nat) by (rewrite length_to_le, Hlen; unfold HEAD, TABLE; lia).
  assert (Hfield : ∀ a v n x, (a, to_le n x) ∈ header_fields seq homes ++ table_fields 0 homes → v = x →
    0 ≤ x < 256 ^ Z.of_nat n → (a + n ≤ 20 ∨ 24 ≤ a)%nat → le_at (splice body 20 (to_le 4 sum)) a n = Some v).
  { intros a v n x Hax -> Hx Ha. rewrite le_at_other by (rewrite ?length_to_le in *; lia).
    apply le_at_field; [by apply Hin|done]. }
  assert (Hn : Z.of_nat (length homes) ≤ 8) by (unfold MAX_STAGED in Hl; lia).
  split_and!; [done|done|by apply put_ok| | |].
  - split.
    + by rewrite length_splice.
    + eapply Hfield; [apply elem_of_app; left; apply list_elem_of_here|done|done|lia].
    + eapply Hfield; [apply elem_of_app; left; apply list_elem_of_further, list_elem_of_here|done|exact Hseq|lia].
    + eapply Hfield; [apply elem_of_app; left; do 2 apply list_elem_of_further; apply list_elem_of_here|done|simpl; lia|lia].
    + apply le_at_same; [by rewrite length_to_le in H24|exact Hsum].
    + intros i h Hi. eapply Hfield; [apply elem_of_app; right; by apply (table_field _ 0)|done| |unfold TABLE; lia].
      by eapply (Forall_lookup_1 _ _ _ _ Hh).
  - apply list_eq. intros i. destruct (decide (i < 20)%nat) as [Hi|Hi].
    + rewrite !lookup_take_lt, lookup_splice, decide_False by lia. done.
    + rewrite !lookup_take_ge by lia. done.
  - apply list_eq. intros i. destruct (decide (i < length homes * 4)%nat) as [Hi|Hi].
    + rewrite !lookup_take_lt, !lookup_drop, lookup_splice, decide_False by (rewrite ?length_to_le in *; unfold TABLE in *; lia). done.
    + rewrite !lookup_take_ge by lia. done.
Qed.

(** The page a commit head is copied into. *)
Definition commit_page (head : list Z) : list Z := head ++ replicate (BLOCK - HEAD) 0.

Lemma head_in_block : (HEAD ≤ BLOCK)%nat.
Proof. rewrite block_value. unfold HEAD, TABLE, MAX_STAGED. lia. Qed.

Lemma get_app_l (l k : list Z) a n : (a + n ≤ length l)%nat → get (l ++ k) a n = get l a n.
Proof.
  intros H. rewrite !get_take by (rewrite ?length_app; lia). f_equal.
  rewrite drop_app_le by lia. rewrite take_app_le by (rewrite length_drop; lia). done.
Qed.

Lemma le_at_page head a n : length head = HEAD → (a + n ≤ HEAD)%nat → le_at (commit_page head) a n = le_at head a n.
Proof. intros Hl Ha. unfold le_at, commit_page. by rewrite get_app_l by lia. Qed.

(** [head] commits transaction [seq] of the payload at [V] to [homes]: whatever
    else the device holds, reading the log finds it. *)
Definition sealed (V : Z → list Z) (sb : Superblock) (seq : Z) (homes : list Z) (head : list Z) : Prop :=
  length head = HEAD ∧
  ∀ V', (∀ b, journal_start sb < b < journal_start sb + 1 + Z.of_nat (length homes) → V' b = V b) →
    V' (journal_start sb) = commit_page head →
    commit_of V' sb = Some (MkCommit seq (Z.of_nat (length homes))) ∧
    ∀ i h, homes !! i = Some h → u32_at (V' (journal_start sb)) (TABLE + i * 4) = Some h.

Lemma foldl_checksum_range hash ls : in_width 32 hash → in_width 32 (foldl checksum_of hash ls).
Proof. revert hash. induction ls as [|l ls IH]; intros hash Hh; simpl; [done|]. apply IH. by apply checksum_of_range. Qed.

Lemma tx_sum_range V start count head : in_width 32 (tx_sum V start count head).
Proof.
  unfold tx_sum. set (h := foldl _ _ _). assert (Hh : in_width 32 h) by by apply foldl_checksum_range, checksum_of_range, checksum_of_range.
  apply nonzero_range in Hh. unfold in_width. lia.
Qed.

Lemma build_commit_spec n p sb seq homes (E : Prop) :
  journal_fits sb → homes ≠ [] → (length homes ≤ MAX_STAGED)%nat → Z.of_nat (length homes) < journal_blocks sb →
  0 < seq < 2 ^ 64 → Forall (in_width 32) homes → ready (n + 16) p → 0 ≤ n →
  (∀ b, in_journal sb b → blocked p b → E) →
  answers n (Journal.build_commit sb seq homes) p E (sealed (contents p) sb seq homes).
Proof.
  intros Hfit Hne Hlen Hj Hseq Hh Hr Hn HE. pose proof Hfit as (Hs & _ & Hmax). unfold Journal.build_commit.
  rewrite bool_decide_false by done. rewrite (proj2 (Nat.ltb_ge _ _) Hlen), (proj2 (Z.leb_gt _ _) Hj). cbn [orb].
  set (sum := fun body => tx_sum (contents p) (journal_start sb) (length homes) body).
  destruct (commit_fields_spec seq homes 0) as (body & _ & Hbody & Hbl & _); [unfold in_width; lia|done|done|done|].
  destruct (commit_fields_spec seq homes (sum body)) as (body' & out & Hbody' & _ & Hput & Hcb & Ht20 & Httab);
    [unfold in_width; lia|apply tx_sum_range|done|done|].
  assert (body' = body) as -> by congruence.
  assert (Htab : (TABLE + length homes * 4 ≤ HEAD)%nat) by (unfold HEAD; lia).
  eapply (answers_bind (n + 16)); [eapply answers_lift; [done|by rewrite Hbody]|lia|]. intros head p1 -> Hr1 Hm1.
  eapply (answers_bind (n + 16)); [by eapply answers_lift; [|apply journal_at_ok; [|lia]]|lia|]. intros start p2 -> Hr2 Hm2.
  eapply (answers_bind (n + 16)); [eapply answers_pout; [done|]|lia|].
  { rewrite get_take by (rewrite Hbl; unfold HEAD, TABLE; lia). done. }
  intros first p3 -> Hr3 Hm3.
  eapply (answers_bind (n + 16)); [eapply answers_pout; [done|]|lia|].
  { rewrite get_take by lia. done. }
  intros table p4 -> Hr4 Hm4.
  assert (Hm : moves p p4) by (etrans; [exact Hm1|]; etrans; [exact Hm2|]; by etrans).
  eapply (answers_bind n); [apply hash_logged_spec; try lia|lia|].
  { eapply ready_weaken, Hr4. unfold MAX_STAGED in *. lia. }
  { intros b Hb Hbl'. apply (HE b); [split; lia|by eapply moves_blocked]. }
  intros hash p5 -> Hr5 _.
  replace (journal_start sb + 1 + 0) with (journal_start sb + 1) by lia. rewrite drop_0.
  assert (Hsum : nonzero (foldl checksum_of (checksum_of (checksum_of FNV_SEED (take 20 body))
    (take (length homes * 4) (drop TABLE body))) (contents p4 <$> seqZ (journal_start sb + 1) (Z.of_nat (length homes)))) = sum body).
  { unfold sum, tx_sum. do 2 f_equal. apply list_fmap_ext. intros. by apply moves_contents. }
  rewrite Hsum, Hput. apply answers_ret; [done|]. destruct Hcb as [Hol Hmg Hsq Hct Hsm Hhm]. split; [done|].
  intros V' HV Hpage. assert (Hat : ∀ a n, (a + n ≤ HEAD)%nat → le_at (V' (journal_start sb)) a n = le_at out a n).
  { intros a m Ha. rewrite Hpage. by apply le_at_page. }
  assert (H24 : (24 ≤ HEAD)%nat) by (unfold HEAD, TABLE; lia). split.
  - unfold commit_of, u64_at, u32_at. rewrite !Hat by lia. fold (u64_at out 0) (u64_at out 8) (u32_at out 16) (u32_at out 20).
    rewrite Hmg, Hsq, Hct, Hsm, Z.eqb_refl, (proj2 (Z.eqb_neq seq 0)) by lia.
    rewrite (proj2 (Z.eqb_neq (Z.of_nat (length homes)) 0)) by (destruct homes; simpl; [done|lia]).
    rewrite (proj2 (Z.ltb_ge _ _)), (proj2 (Z.leb_gt _ _)) by lia. cbn [negb orb].
    rewrite bool_decide_true; [done|]. f_equal. rewrite Nat2Z.id. unfold sum, tx_sum. do 2 f_equal.
    + rewrite Hpage. unfold commit_page. rewrite take_app_le by lia. rewrite drop_app_le by (unfold TABLE in *; lia).
      rewrite take_app_le by (rewrite length_drop; lia). by rewrite Ht20, Httab.
    + apply list_fmap_ext. intros k b Hb. apply list_elem_of_lookup_2, elem_of_seqZ in Hb. symmetry. apply HV. lia.
  - intros i h Hi. unfold u32_at. rewrite Hat; [by apply Hhm|].
    apply lookup_lt_Some in Hi. unfold HEAD. lia.
Qed.

Lemma home_spec n p sb i h (E : Prop) :
  journal_fits sb → 0 < journal_blocks sb → ready (n + 2) p → 0 ≤ n →
  u32_at (contents p (journal_start sb)) (TABLE + i * 4) = Some h → 0 < h < blocks sb →
  (∀ b, in_journal sb b → blocked p b → E) →
  answers n (Journal.home sb (Z.of_nat i)) p E (fun d => d = h).
Proof.
  intros Hfit Hj Hr Hn Hh Hrange HE. pose proof Hfit as (Hs & _ & Hmax). unfold Journal.home.
  eapply (answers_bind (n + 2)); [by eapply answers_lift; [|by apply journal_at_ok]|lia|]. intros start p1 -> Hr1 Hm1.
  eapply (answers_bind n); [apply answers_page; [done|done|lia|]|lia|].
  { intros Hb. eapply HE; [split; [reflexivity|lia]|by eapply moves_blocked]. }
  intros head p2 (_ & -> & _) Hr2 Hm2. rewrite (moves_contents p p1) by done.
  eapply (answers_bind n); [eapply answers_lift; [done|by rewrite Nat2Z.id, Hh]|lia|].
  intros d p3 -> Hr3 _. rewrite (proj2 (Z.eqb_neq h 0)), (proj2 (Z.leb_gt _ _)) by lia. by apply answers_ret.
Qed.

End Reading.
