(* ===== verification/Reader.v ===== *)
(** * The mounted reader

    Models the read-only [Filesystem] of src/fs/src/lib.rs, over any source of
    pages: mounting, inodes, the blocks of a file, reading a file, listing a
    directory and finding a name in it. *)
From stdpp Require Import prelude numbers list.
From S2P Require Import Prelude Bytes Fs Cache Journal.
Open Scope Z_scope.
Set Warnings "-clear-no-such-hyp".

Module Filesystem.
Section Filesystem.
Context {P : Type} `{!Pages P}.

(** Reads the superblock and refuses a log that holds a committed transaction. *)
Definition mount : prog P FsError Superblock := fun pages =>
  (head ←! page 0;
   superblock ←! plift (Superblock.read_head head (pg_blocks pages));
   waiting ←! Journal.pending superblock;
   if waiting : bool then pfail NeedsRecovery else pret superblock) pages.

Definition inode (superblock : Superblock) (index : Z) : prog P FsError Inode :=
  at' ←! plift (Superblock.inode_at superblock index);
  bytes ←! page at'.1;
  slot ←! plift (ok_or (get bytes at'.2 INODE) OutOfRange);
  plift (Inode.decode slot).

(** The last test of [block_of]: the number names a block of the file system. *)
Definition valid_number (superblock : Superblock) (number : Z) : option Z :=
  if (number =? 0) || (blocks superblock <=? number) then None else Some number.

(** Which block of the device holds block [which] of an inode's contents. *)
Definition block_of (superblock : Superblock) (inode' : Inode) (which : nat) (pages : P)
    : outcome (option Z * P) :=
  match direct inode' !! which with
  | Some number => Done (valid_number superblock number, pages)
  | None =>
      if (indirect inode' =? 0) || (blocks superblock <=? indirect inode') then Done (None, pages)
      else
        '(r, pages) ← page (indirect inode') pages;
        match r with
        | Err _ => Done (None, pages)
        | Ok table =>
            Done (u32_at table ((which - length (direct inode')) * 4) ≫= valid_number superblock, pages)
        end
  end.

(** The copy loop of [read]: [fuel] bounds the iterations, each of which copies
    at least a byte. *)
Fixpoint read_loop (fuel : nat) (superblock : Superblock) (inode' : Inode) (offset want : Z)
    (done' : Z) (into : list Z) (pages : P) : outcome (Z * list Z * P) :=
  if want <=? done' then Done (done', into, pages)
  else
    match fuel with
    | 0%nat => OutOfFuel
    | S fuel' =>
        at' ← add_checked 64 offset done';
        '(number, pages) ← block_of superblock inode' (Z.to_nat (at' / BLOCKz)) pages;
        match number with
        | None => Done (done', into, pages)
        | Some number =>
            '(r, pages) ← page number pages;
            match r with
            | Err _ => Done (done', into, pages)
            | Ok block =>
                let within := at' mod BLOCKz in
                let take' := Z.min (BLOCKz - within) (want - done') in
                match get block (Z.to_nat within) (Z.to_nat take') with
                | None => Done (done', into, pages)
                | Some source =>
                    into ← (match put into (Z.to_nat done') source with Some x => Done x | None => Panic end);
                    read_loop fuel' superblock inode' offset want (done' + take') into pages
                end
            end
        end
    end.

(** Copies [into] from [offset], never past the size the inode declares. *)
Definition read (superblock : Superblock) (inode' : Inode) (offset : Z) (into : list Z) (pages : P)
    : outcome (Z * list Z * P) :=
  if negb (bool_decide (kind inode' = KFile)) || (size inode' <=? offset) then Done (0, into, pages)
  else
    let left := size inode' - offset in
    let want := Z.min (Z.of_nat (length into)) left in
    read_loop (Z.to_nat want) superblock inode' offset want 0 into pages.

(** The entries [list] hands to its callback, in order, from the [which]th on. *)
Fixpoint list_loop (n : nat) (superblock : Superblock) (inode' : Inode) (which : nat) (pages : P)
    : outcome (list Entry * P) :=
  match n with
  | 0%nat => Done ([], pages)
  | S n' =>
      '(number, pages) ← block_of superblock inode' (which * ENTRY / BLOCK) pages;
      match number with
      | None => Done ([], pages)
      | Some number =>
          '(r, pages) ← page number pages;
          match r with
          | Err _ => Done ([], pages)
          | Ok block =>
              match Entry.read block ((which * ENTRY) mod BLOCK) with
              | Err _ => Done ([], pages)
              | Ok entry =>
                  '(rest, pages) ← list_loop n' superblock inode' (which + 1) pages;
                  Done (if negb (einode entry =? 0) || negb (bool_decide (elength entry = 0)) then entry :: rest
                        else rest, pages)
              end
          end
      end
  end.

Definition list' (superblock : Superblock) (inode' : Inode) (pages : P) : outcome (list Entry * P) :=
  if negb (bool_decide (kind inode' = KDirectory)) then Done ([], pages)
  else list_loop (Z.to_nat (size inode' / Z.of_nat ENTRY)) superblock inode' 0 pages.

(** Finds a name in a directory. *)
Definition lookup (superblock : Superblock) (directory : Inode) (name : list Z)
    : prog P FsError (Z * Inode) := fun pages =>
  if negb (bool_decide (kind directory = KDirectory)) then Done (Err WrongKind, pages)
  else
    '(entries, pages) ← list' superblock directory pages;
    match List.find (fun entry => bool_decide (Entry.name entry = name)) entries with
    | None => Done (Err NotFound, pages)
    | Some entry =>
        (found ←! inode superblock (einode entry); pret (einode entry, found)) pages
    end.

Definition root_inode (superblock : Superblock) : prog P FsError Inode :=
  root' ←! inode superblock (root superblock);
  if negb (bool_decide (kind root' = KDirectory)) then pfail WrongKind else pret root'.

End Filesystem.
End Filesystem.

#[local] Opaque BLOCK.

Section Reads.
Context {P : Type} `{!Pages P} `{!PagesLaws P}.
Implicit Types (p : P) (V : Z → list Z).

(** The block number the inode gives for block [which] of its contents, on a
    device showing [V]. *)
Definition number_of V (sb : Superblock) (i : Inode) (which : nat) : option Z :=
  match direct i !! which with
  | Some number => Filesystem.valid_number sb number
  | None =>
      if (indirect i =? 0) || (blocks sb <=? indirect i) then None
      else u32_at (V (indirect i)) ((which - length (direct i)) * 4) ≫= Filesystem.valid_number sb
  end.

(** Byte [k] of the file. *)
Definition byte_of V (sb : Superblock) (i : Inode) (k : Z) : option Z :=
  b ← number_of V sb i (Z.to_nat (k / BLOCKz)); V b !! Z.to_nat (k mod BLOCKz).

(** The numbers an inode and the device hold are unsigned. *)
Definition unsigned V (i : Inode) : Prop :=
  Forall (Z.le 0) (direct i) ∧ 0 ≤ indirect i ∧ ∀ b, Forall is_byte (V b).

Lemma u32_at_nonneg bytes a v : Forall is_byte bytes → u32_at bytes a = Some v → 0 ≤ v.
Proof.
  unfold u32_at, le_at, get. intros Hb Hv. case_decide; [|done]. simplify_eq/=.
  eapply from_le_range. by apply Forall_take, Forall_drop.
Qed.

Lemma valid_number_some sb number b : Filesystem.valid_number sb number = Some b → b = number.
Proof. unfold Filesystem.valid_number. by destruct (_ || _); intros [= <-]. Qed.

Lemma valid_number_range sb number b : Filesystem.valid_number sb number = Some b → b < blocks sb.
Proof.
  unfold Filesystem.valid_number. intros H. destruct ((number =? 0) || (blocks sb <=? number)) eqn:Hg; [discriminate|].
  apply orb_false_iff in Hg as [_ Hg%Z.leb_gt]. congruence.
Qed.

Lemma number_of_nonneg V sb i which b : unsigned V i → number_of V sb i which = Some b → 0 ≤ b.
Proof.
  intros (Hd & Hi & HV). unfold number_of. destruct (direct i !! which) as [x|] eqn:Hx.
  - intros ->%valid_number_some. by eapply (Forall_lookup_1 _ _ _ _ Hd).
  - destruct (_ || _); [done|]. destruct (u32_at _ _) as [x|] eqn:Hu; [|done].
    intros ->%valid_number_some. by eapply u32_at_nonneg.
Qed.

(** A refused page of the file. *)
Definition file_blocked p (sb : Superblock) (i : Inode) (which : nat) : Prop :=
  blocked p (indirect i) ∨ ∃ b, number_of (contents p) sb i which = Some b ∧ blocked p b.

Lemma block_of_spec n p sb i which :
  ready (n + 2) p → 0 ≤ n → unsigned (contents p) i →
  ∃ o p', Filesystem.block_of sb i which p = Done (o, p') ∧ ready n p' ∧ moves p p' ∧
    (o = number_of (contents p) sb i which ∨ o = None ∧ indirect i < blocks sb ∧ blocked p (indirect i)).
Proof.
  intros Hr Hn (Hd & Hi & HV). unfold Filesystem.block_of, number_of.
  assert (Hr' : ready n p) by (eapply ready_weaken, Hr; lia).
  destruct (direct i !! which) as [x|] eqn:Hx; [eexists _, p; split_and!; [done|done|reflexivity|by left]|].
  destruct (_ || _) eqn:Hg; [eexists _, p; split_and!; [done|done|reflexivity|by left]|].
  apply orb_false_iff in Hg as [_ Hg%Z.leb_gt].
  destruct (page_law n p (indirect i) Hr Hn Hi) as (r & p' & -> & Hr2 & Hm & Hpost). cbn [mbind outcome_bind].
  destruct r as [table|e].
  - destruct Hpost as (_ & -> & _). eexists _, p'. split_and!; [done|done|done|by left].
  - exists None, p'. split_and!; [done|done|done|by right].
Qed.

Lemma unsigned_moves p p' i : moves p p' → unsigned (contents p) i → unsigned (contents p') i.
Proof. intros Hm (? & ? & HV). split_and!; [done|done|]. intros b. rewrite (moves_contents p p' b Hm). apply HV. Qed.

Lemma number_of_ext V V' sb i which : (∀ b, V b = V' b) → number_of V sb i which = number_of V' sb i which.
Proof. intros H. unfold number_of. destruct (direct i !! which); [done|]. by rewrite H. Qed.

Lemma byte_of_ext V V' sb i k : (∀ b, V b = V' b) → byte_of V sb i k = byte_of V' sb i k.
Proof.
  intros H. unfold byte_of. rewrite (number_of_ext V V') by done. destruct (number_of _ _ _ _); [|done]. simpl. by rewrite H.
Qed.

Lemma file_blocked_moves p p' sb i which : moves p p' → file_blocked p' sb i which → file_blocked p sb i which.
Proof.
  intros Hm [H|(b & Hb & H)]; [left; by eapply moves_blocked|right]. exists b. split; [|by eapply moves_blocked].
  rewrite <- Hb. apply number_of_ext. intros x. symmetry. by apply moves_contents.
Qed.

(** One block's worth of the copy. *)
Lemma read_loop_spec fuel : ∀ n p sb i offset want done' into,
  ready (n + 4 * (want - done')) p → 0 ≤ n → unsigned (contents p) i →
  0 ≤ offset → offset + want < 2 ^ 64 → 0 ≤ done' ≤ want → want - done' ≤ Z.of_nat fuel → want ≤ Z.of_nat (length into) →
  ∃ got out p', Filesystem.read_loop fuel sb i offset want done' into p = Done (got, out, p') ∧
    ready n p' ∧ moves p p' ∧ done' ≤ got ≤ want ∧ length out = length into ∧
    (∀ k, out !! k = if decide (done' ≤ Z.of_nat k < got) then byte_of (contents p) sb i (offset + Z.of_nat k) else into !! k) ∧
    (∀ k, done' ≤ k < got → is_Some (byte_of (contents p) sb i (offset + k))) ∧
    (got < want → number_of (contents p) sb i (Z.to_nat ((offset + got) / BLOCKz)) = None ∨
      file_blocked p sb i (Z.to_nat ((offset + got) / BLOCKz))).
Proof.
  induction fuel as [|fuel IH]; intros n p sb i offset want done' into Hr Hn Hu Ho Hmax Hd Hfuel Hl; simpl.
  all: destruct (Z.leb_spec want done') as [Hge|Hlt].
  1,3: exists done', into, p; split_and!; try done; try lia; [by eapply ready_weaken, Hr; lia|
    intros k; by rewrite decide_False by lia].
  { lia. }
  assert (Hstop : ∀ p', ready n p' → moves p p' →
    (number_of (contents p) sb i (Z.to_nat ((offset + done') / BLOCKz)) = None ∨
      file_blocked p sb i (Z.to_nat ((offset + done') / BLOCKz))) →
    ∃ got out q, Done (done', into, p') = Done (got, out, q) ∧
      ready n q ∧ moves p q ∧ done' ≤ got ≤ want ∧ length out = length into ∧
      (∀ k, out !! k = if decide (done' ≤ Z.of_nat k < got) then byte_of (contents p) sb i (offset + Z.of_nat k) else into !! k) ∧
      (∀ k, done' ≤ k < got → is_Some (byte_of (contents p) sb i (offset + k))) ∧
      (got < want → number_of (contents p) sb i (Z.to_nat ((offset + got) / BLOCKz)) = None ∨
        file_blocked p sb i (Z.to_nat ((offset + got) / BLOCKz)))).
  { intros p' Hr' Hm Hwhy. exists done', into, p'. split_and!; try done; try lia. intros k. by rewrite decide_False by lia. }
  unfold add_checked. rewrite checked_ok by (unfold in_width; lia). cbn [mbind outcome_bind].
  set (at' := offset + done') in *. set (which := Z.to_nat (at' / BLOCKz)) in *.
  destruct (block_of_spec (n + 4 * (want - done') - 2) p sb i which) as (o & p1 & -> & Hr1 & Hm1 & Hnum); [by eapply ready_weaken, Hr; lia|lia|done|].
  cbn [mbind outcome_bind]. destruct o as [b|]; [|apply Hstop; [by eapply ready_weaken, Hr1; lia|done|
    destruct Hnum as [<-|(_ & _ & ?)]; [by left|by right; left]]].
  destruct Hnum as [Hnum|(? & _)]; [|done]. symmetry in Hnum.
  pose proof (number_of_nonneg _ _ _ _ _ Hu Hnum) as Hb.
  destruct (page_law (n + 4 * (want - done') - 4) p1 b) as (r & p2 & -> & Hr2 & Hm2 & Hpost); [by eapply ready_weaken, Hr1; lia|lia|done|].
  assert (Hm : moves p p2) by by etrans. cbn [mbind outcome_bind].
  destruct r as [block|e]; [|apply Hstop; [by eapply ready_weaken, Hr2; lia|done|]].
  2:{ right; right. exists b. split; [done|]. by apply (moves_blocked p p1). }
  destruct Hpost as (_ & Hblock & Hlen). rewrite (moves_contents p p1 b Hm1) in Hblock.
  assert (HB : Z.of_nat BLOCK = BLOCKz) by reflexivity.
  assert (Hw : 0 ≤ at' mod BLOCKz < BLOCKz) by (apply Z.mod_pos_bound; done).
  set (within := at' mod BLOCKz) in *. set (t := Z.min (BLOCKz - within) (want - done')).
  assert (Ht : 0 < t ≤ want - done' ∧ within + t ≤ BLOCKz) by lia.
  rewrite get_take by lia. set (source := take (Z.to_nat t) (drop (Z.to_nat within) block)).
  assert (Hsl : length source = Z.to_nat t) by (subst source; rewrite length_take, length_drop; lia).
  rewrite put_ok by lia. cbn [mbind outcome_bind].
  destruct (IH n p2 sb i offset want (done' + t) (splice into (Z.to_nat done') source))
    as (got & out & p3 & -> & Hr3 & Hm3 & Hgot & Hlo & Hout & Hsome & Hwhy); try lia.
  { by eapply ready_weaken, Hr2; lia. } { by apply (unsigned_moves p). } { rewrite length_splice by lia. lia. }
  assert (Hbyte : ∀ j, 0 ≤ j < t → byte_of (contents p) sb i (at' + j) = source !! Z.to_nat j ∧ is_Some (source !! Z.to_nat j)).
  { intros j Hj. split; [|apply lookup_lt_is_Some; lia]. unfold byte_of.
    pose proof (Z.div_mod at' BLOCKz ltac:(done)) as Hdm. fold within in Hdm.
    assert (Hq : (at' + j) / BLOCKz = at' / BLOCKz).
    { symmetry. apply (Z.div_unique (at' + j) BLOCKz (at' / BLOCKz) (within + j)); [left; lia|lia]. }
    assert (Hmod : (at' + j) mod BLOCKz = within + j).
    { symmetry. apply (Z.mod_unique (at' + j) BLOCKz (at' / BLOCKz) (within + j)); [left; lia|lia]. }
    rewrite Hq, Hmod. fold which. rewrite Hnum. simpl. rewrite <- Hblock. subst source.
    rewrite lookup_take_lt, lookup_drop by lia. f_equal. lia. }
  rewrite length_splice in Hlo by lia.
  exists got, out, p3. split_and!; try done; try lia; [by etrans|..].
  - intros k. rewrite Hout. assert (Hext : ∀ x, byte_of (contents p2) sb i x = byte_of (contents p) sb i x).
    { intros x. apply byte_of_ext. intros y. by apply moves_contents. }
    rewrite Hext, lookup_splice by lia. rewrite Hsl.
    destruct (decide (done' + t ≤ Z.of_nat k < got)); [by rewrite decide_True by lia|].
    destruct (decide (Z.to_nat done' ≤ k < Z.to_nat done' + Z.to_nat t)%nat) as [Hk|Hk].
    + rewrite decide_True by lia. destruct (Hbyte (Z.of_nat k - done')) as [Hj _]; [lia|].
      replace (at' + (Z.of_nat k - done')) with (offset + Z.of_nat k) in Hj by lia. rewrite Hj. f_equal. lia.
    + by rewrite decide_False by lia.
  - intros k Hk. destruct (decide (done' + t ≤ k)) as [Hk'|Hk'].
    + erewrite byte_of_ext; [apply Hsome; lia|]. intros y. symmetry. by apply moves_contents.
    + destruct (Hbyte (k - done')) as [Hj Hs]; [lia|]. replace (at' + (k - done')) with (offset + k) in Hj by lia. by rewrite Hj.
  - intros Hgw. destruct (Hwhy Hgw) as [Hnone|Hbl]; [left|right; by apply (file_blocked_moves p p2)].
    rewrite <- Hnone. apply number_of_ext. intros y. symmetry. by apply moves_contents.
Qed.

(** C26. Reading a file gives the file's bytes and nothing else.  Over any source
    of pages, [read] returns without changing what the source shows; it fills
    the buffer from the front with the bytes the inode's block table names at
    [offset], never past the size the inode declares nor past the buffer, and
    leaves the rest of the buffer alone; it stops early only where the file has
    no valid block or the source refused the page; and it reads nothing from
    what is not a file. *)
Theorem read_file_exact p sb i offset into :
  ready (4 * Z.of_nat (length into)) p → unsigned (contents p) i → 0 ≤ offset → size i < 2 ^ 64 →
  ∃ got out p', Filesystem.read sb i offset into p = Done (got, out, p') ∧
    (∀ b, contents p' b = contents p b) ∧ length out = length into ∧
    0 ≤ got ≤ Z.of_nat (length into) ∧ (0 < got → kind i = KFile ∧ offset + got ≤ size i) ∧
    (∀ k, out !! k = if decide (Z.of_nat k < got) then byte_of (contents p) sb i (offset + Z.of_nat k) else into !! k) ∧
    (∀ k, 0 ≤ k < got → is_Some (byte_of (contents p) sb i (offset + k))) ∧
    (kind i = KFile → got < Z.min (Z.of_nat (length into)) (size i - offset) →
      number_of (contents p) sb i (Z.to_nat ((offset + got) / BLOCKz)) = None ∨
      file_blocked p sb i (Z.to_nat ((offset + got) / BLOCKz))).
Proof.
  intros Hr Hu Ho Hsize. unfold Filesystem.read. destruct (_ || _) eqn:Hg.
  { exists 0, into, p. apply orb_true_iff in Hg. split_and!; try done; try lia.
    - intros k. by rewrite decide_False by lia.
    - intros Hk Hlt. rewrite bool_decide_true in Hg by done. destruct Hg as [?|Hg]; [done|]. apply Z.leb_le in Hg. lia. }
  apply orb_false_iff in Hg as [Hk Hs]. apply negb_false_iff, bool_decide_eq_true in Hk. apply Z.leb_gt in Hs.
  set (want := Z.min (Z.of_nat (length into)) (size i - offset)).
  destruct (read_loop_spec (Z.to_nat want) 0 p sb i offset want 0 into)
    as (got & out & p' & -> & Hr' & Hm & Hgot & Hl & Hout & Hsome & Hwhy); try done; try lia.
  { by eapply ready_weaken, Hr; lia. }
  exists got, out, p'. split_and!; try done; try lia.
  - intros b. by apply moves_contents.
  - intros _. split; [done|lia].
  - intros k. rewrite Hout. destruct (decide (Z.of_nat k < got)); [by rewrite decide_True by lia|by rewrite decide_False by lia].
Qed.

(** ** Directories *)

(** A page the file system may want was refused. *)
Definition refused p (sb : Superblock) : Prop := ∃ b, 0 ≤ b < blocks sb ∧ blocked p b.

Lemma refused_moves p p' sb : moves p p' → refused p' sb → refused p sb.
Proof. intros Hm (b & Hb & H). exists b. split; [done|]. by eapply moves_blocked. Qed.

(** The entries of a directory from the [which]th on. *)
Fixpoint entries_from (m : nat) V (sb : Superblock) (i : Inode) (which : nat) : list Entry :=
  match m with
  | 0%nat => []
  | S m' =>
      match number_of V sb i (which * ENTRY / BLOCK) with
      | None => []
      | Some b =>
          match Entry.read (V b) ((which * ENTRY) mod BLOCK) with
          | Err _ => []
          | Ok entry =>
              let rest := entries_from m' V sb i (which + 1) in
              if negb (einode entry =? 0) || negb (bool_decide (elength entry = 0)) then entry :: rest else rest
          end
      end
  end.

Lemma entries_ext m : ∀ V V' sb i which, (∀ b, V b = V' b) → entries_from m V sb i which = entries_from m V' sb i which.
Proof.
  induction m as [|m IH]; intros V V' sb i which Hext; simpl; [done|]. rewrite (number_of_ext V V') by done.
  destruct (number_of _ _ _ _) as [b|]; [|done]. rewrite Hext. destruct (Entry.read _ _); [|done]. by rewrite (IH V V').
Qed.

Lemma number_of_range V sb i which b : number_of V sb i which = Some b → b < blocks sb.
Proof.
  unfold number_of. destruct (direct i !! which) as [x|]; [by apply valid_number_range|].
  destruct (_ || _); [done|]. destruct (u32_at _ _) as [x|]; [by apply valid_number_range|done].
Qed.

(** Listing hands out the directory's entries; a refused page cuts it short. *)
Lemma list_loop_spec m : ∀ n p sb i which,
  ready (n + 4 * Z.of_nat m) p → 0 ≤ n → unsigned (contents p) i →
  ∃ es p', Filesystem.list_loop m sb i which p = Done (es, p') ∧ ready n p' ∧ moves p p' ∧
    es `prefix_of` entries_from m (contents p) sb i which ∧
    (es = entries_from m (contents p) sb i which ∨ refused p sb).
Proof.
  induction m as [|m IH]; intros n p sb i which Hr Hn Hu; cbn [Filesystem.list_loop entries_from].
  { exists [], p. split_and!; [done|by eapply ready_weaken, Hr; lia|reflexivity|done|by left]. }
  destruct (block_of_spec (n + 4 * Z.of_nat m + 2) p sb i (which * ENTRY / BLOCK)) as (o & p1 & -> & Hr1 & Hm1 & Hnum);
    [by eapply ready_weaken, Hr; lia|lia|done|]. cbn [mbind outcome_bind].
  destruct o as [b|].
  2:{ exists [], p1. split_and!; [done|by eapply ready_weaken, Hr1; lia|done|apply prefix_nil|].
      destruct Hnum as [<-|(_ & Hlt & Hbl)]; [by left|right]. exists (indirect i). destruct Hu as (_ & ? & _). done. }
  destruct Hnum as [Hnum|(? & _)]; [|done]. rewrite <- Hnum. symmetry in Hnum.
  pose proof (number_of_nonneg _ _ _ _ _ Hu Hnum) as Hb. pose proof (number_of_range _ _ _ _ _ Hnum) as Hlt.
  destruct (page_law (n + 4 * Z.of_nat m) p1 b) as (r & p2 & -> & Hr2 & Hm2 & Hpost); [by eapply ready_weaken, Hr1; lia|lia|done|].
  assert (Hm : moves p p2) by by etrans. cbn [mbind outcome_bind].
  destruct r as [block|e].
  2:{ exists [], p2. split_and!; [done|by eapply ready_weaken, Hr2; lia|done|apply prefix_nil|right].
      exists b. split; [done|]. by apply (moves_blocked p p1). }
  destruct Hpost as (_ & -> & _). rewrite (moves_contents p p1) by done.
  destruct (Entry.read _ _) as [entry|e];
    [|exists [], p2; split_and!; [done|by eapply ready_weaken, Hr2; lia|done|apply prefix_nil|by left]].
  destruct (IH n p2 sb i (which + 1)%nat) as (rest & p3 & -> & Hr3 & Hm3 & Hpre & Hid); [done|done|by apply (unsigned_moves p)|].
  rewrite (entries_ext m (contents p2) (contents p)) in Hpre, Hid by (intros x; by apply moves_contents).
  cbn [mbind outcome_bind]. eexists _, p3. split_and!; [done|done|by etrans| |].
  - by destruct (_ || _); [apply prefix_cons|].
  - destruct Hid as [->|Href]; [by left|right; by apply (refused_moves p p2)].
Qed.

Definition entries_in V (sb : Superblock) (i : Inode) : list Entry :=
  entries_from (Z.to_nat (size i / Z.of_nat ENTRY)) V sb i 0.

(** ** Answers of the reader

    What a block map says an inode or a name is. *)
Definition inode_in V (sb : Superblock) (index : Z) : result Inode FsError :=
  at' ←? Superblock.inode_at sb index;
  slot ←? ok_or (get (V at'.1) at'.2 INODE) OutOfRange;
  Inode.decode slot.

Definition lookup_in V (sb : Superblock) (directory : Inode) (name : list Z) : result (Z * Inode) FsError :=
  if negb (bool_decide (kind directory = KDirectory)) then Err WrongKind
  else
    match List.find (fun entry => bool_decide (Entry.name entry = name)) (entries_in V sb directory) with
    | None => Err NotFound
    | Some entry => found ←? inode_in V sb (einode entry); Ok (einode entry, found)
    end.

(** The inode table lies before the journal. *)
Definition table_fits (sb : Superblock) : Prop :=
  0 < inode_start sb < journal_start sb ∧ journal_start sb ≤ blocks sb ∧
  inodes sb * Z.of_nat INODE ≤ (journal_start sb - inode_start sb) * BLOCKz.

(** [m] answers [want], or fails because a page was refused. *)
Definition reads {A} (n : Z) (m : prog P FsError A) p (sb : Superblock) (want : result A FsError) : Prop :=
  ∃ r p', m p = Done (r, p') ∧ ready n p' ∧ moves p p' ∧
    match r with Ok a => want = Ok a | Err e => want = Err e ∨ refused p sb end.

Lemma inode_at_spec sb index b off :
  table_fits sb → 0 ≤ index → Superblock.inode_at sb index = Ok (b, off) →
  index < inodes sb ∧ inode_start sb ≤ b < journal_start sb ∧ (off + INODE ≤ BLOCK)%nat ∧
  b * BLOCKz + Z.of_nat off = inode_start sb * BLOCKz + index * Z.of_nat INODE.
Proof.
  intros (Hs & Hj & Hfit) Hi. unfold Superblock.inode_at. destruct (Z.leb_spec (inodes sb) index) as [|Hlt]; [done|].
  unfold Superblock.inode_byte, fits_u64. change (Z.of_nat INODE) with 64 in *. unfold BLOCKz in *.
  destruct (inode_start sb * 4096 <? 2 ^ 64); cbn [mbind option_bind ok_or rbind]; [|done].
  destruct (_ <? 2 ^ 64); cbn [ok_or rbind]; [|done]. set (byte := inode_start sb * 4096 + index * 64).
  pose proof (Z.div_mod byte 4096 ltac:(lia)) as Hdm. pose proof (Z.mod_pos_bound byte 4096 ltac:(lia)) as Hm.
  destruct (byte / 4096 <? 2 ^ 32); [|done]. intros [= <- <-]. subst byte. unfold INODE. rewrite block_value.
  set (q := (inode_start sb * 4096 + index * 64) / 4096) in *. set (r := (inode_start sb * 4096 + index * 64) mod 4096) in *.
  split_and!; try lia.
Qed.

Lemma inode_spec n p sb index :
  table_fits sb → ready (n + 2) p → 0 ≤ n → 0 ≤ index →
  reads n (Filesystem.inode sb index) p sb (inode_in (contents p) sb index).
Proof.
  intros Hfit Hr Hn Hi. assert (Hr' : ready n p) by (by eapply ready_weaken, Hr; lia).
  unfold reads, Filesystem.inode, pbind, plift, inode_in. cbn [mbind outcome_bind].
  destruct (Superblock.inode_at sb index) as [[b off]|e] eqn:Hat; cbn [rbind fst snd].
  2:{ exists (Err e), p. split_and!; [done|done|reflexivity|by left]. }
  destruct (inode_at_spec _ _ _ _ Hfit Hi Hat) as (_ & Hb & _ & _). destruct Hfit as (Hs & Hj & _).
  destruct (page_law n p b Hr Hn) as (r & p1 & -> & Hr1 & Hm1 & Hpost); [lia|]. cbn [mbind outcome_bind].
  destruct r as [bytes|e].
  2:{ exists (Err e), p1. split_and!; [done|done|done|right]. exists b. split; [lia|done]. }
  destruct Hpost as (_ & -> & _).
  destruct (ok_or _ _) as [slot|e]; cbn [rbind].
  - destruct (Inode.decode slot) as [i|e]; eexists _, p1; (split_and!; [done|done|done|]); [done|by left].
  - eexists _, p1. split_and!; [done|done|done|by left].
Qed.

Lemma find_prefix {A} (f : A → bool) l l' x : l `prefix_of` l' → List.find f l = Some x → List.find f l' = Some x.
Proof.
  intros [k ->]. induction l as [|y l IH]; simpl; [done|]. destruct (f y); [done|]. apply IH.
Qed.

Lemma inode_in_ext V V' sb index : (∀ b, V b = V' b) → inode_in V sb index = inode_in V' sb index.
Proof. intros H. unfold inode_in. destruct (Superblock.inode_at sb index); cbn [rbind]; [by rewrite H|done]. Qed.

Lemma entry_read_inode bytes at' e : Forall is_byte bytes → Entry.read bytes at' = Ok e → 0 ≤ einode e.
Proof.
  intros Hb. unfold Entry.read. destruct (get bytes at' ENTRY) as [slot|] eqn:Hs; cbn [ok_or rbind]; [|done].
  assert (Hsl : Forall is_byte slot).
  { unfold get in Hs. case_decide; [|done]. simplify_eq. by apply Forall_take, Forall_drop. }
  destruct (get slot 5 MAX_NAME); cbn [ok_or rbind]; [|done]. destruct (u32_at slot 0) as [x|] eqn:Hx; cbn [ok_or rbind]; [|done].
  destruct (slot !! 4%nat); cbn [ok_or rbind]; [|done]. intros [= <-]. by eapply u32_at_nonneg.
Qed.

Lemma entries_inodes m : ∀ V sb i which, (∀ b, Forall is_byte (V b)) → Forall (fun e => 0 ≤ einode e) (entries_from m V sb i which).
Proof.
  induction m as [|m IH]; intros V sb i which HV; simpl; [constructor|].
  destruct (number_of _ _ _ _) as [b|]; [|constructor]. destruct (Entry.read _ _) as [e|] eqn:He; [|constructor].
  destruct (_ || _); [|by apply IH]. constructor; [|by apply IH]. by eapply entry_read_inode.
Qed.

Lemma lookup_spec n p sb directory name :
  table_fits sb → unsigned (contents p) directory → 0 ≤ n →
  ready (n + 2 + 4 * (size directory / Z.of_nat ENTRY)) p → 0 ≤ size directory →
  reads n (Filesystem.lookup sb directory name) p sb (lookup_in (contents p) sb directory name).
Proof.
  intros Hfit Hu Hn Hr Hsz. unfold reads, Filesystem.lookup, lookup_in.
  assert (Hd : 0 ≤ size directory / Z.of_nat ENTRY) by (apply Z.div_pos; done).
  assert (Hr' : ready n p) by (by eapply ready_weaken, Hr; lia).
  destruct (negb (bool_decide (kind directory = KDirectory))) eqn:Hk; [exists (Err WrongKind), p; split_and!; [done|done|reflexivity|by left]|].
  unfold Filesystem.list'. rewrite Hk. unfold entries_in.
  destruct (list_loop_spec (Z.to_nat (size directory / Z.of_nat ENTRY)) (n + 2) p sb directory 0)
    as (es & p1 & -> & Hr1 & Hm1 & Hpre & Hid); [by eapply ready_weaken, Hr; lia|lia|done|]. cbn [mbind outcome_bind].
  destruct (List.find _ es) as [entry|] eqn:Hf.
  - rewrite (find_prefix _ _ _ _ Hpre Hf).
    assert (He : 0 ≤ einode entry).
    { eapply (Forall_forall (fun e => 0 ≤ einode e)); [apply entries_inodes, Hu|]. apply list_elem_of_In.
      apply (find_some _ _ (find_prefix _ _ _ _ Hpre Hf)). }
    destruct (inode_spec n p1 sb (einode entry)) as (r & p2 & Hi & Hr2 & Hm2 & Hpost); [done|done|done|done|].
    rewrite (inode_in_ext _ (contents p)) in Hpost by (intros x; by apply moves_contents).
    unfold pbind. rewrite Hi. cbn [mbind outcome_bind]. destruct r as [i|e].
    + rewrite Hpost. cbn [rbind]. eexists _, p2. split_and!; [done|done|by etrans|done].
    + eexists _, p2. split_and!; [done|done|by etrans|]. destruct Hpost as [->|Href]; [by left|right].
      by apply (refused_moves p p1).
  - eexists _, p1. split_and!; [done|by eapply ready_weaken, Hr1; lia|done|]. destruct Hid as [Hid|Href]; [left|by right].
    by rewrite <- Hid, Hf.
Qed.

End Reads.

(** A one-block file on a three-block image. *)
Definition demo_file : Inode := MkInode KFile 1 1 10 [2; 0; 0; 0; 0; 0; 0; 0; 0; 0] 0.
Definition demo_sb : Superblock := MkSuper 3 1 1 1 1 1 2 0.
Definition demo_image : Image := MkImage (replicate (2 * BLOCK) 0 ++ replicate BLOCK 9).

Lemma demo_image_unsigned : unsigned (contents demo_image) demo_file.
Proof.
  split_and!; [repeat constructor; lia|done|]. intros b.
  assert (H : Forall is_byte (image_bytes demo_image)).
  { apply Forall_app. split; apply Forall_replicate; unfold is_byte; lia. }
  unfold contents, image_pages_laws, bytes_disk, get. destruct (_ && _); [|done].
  case_decide; simpl; [|done]. by apply Forall_take, Forall_drop.
Qed.

Lemma read_file_exact_witness :
  ∃ got out p', Filesystem.read demo_sb demo_file 2 (replicate 4 7) demo_image = Done (got, out, p') ∧
    length out = length (replicate 4 7) ∧ 0 ≤ got ≤ Z.of_nat (length (replicate 4 7)).
Proof.
  destruct (read_file_exact demo_image demo_sb demo_file 2 (replicate 4 7)) as (got & out & p' & H1 & _ & H2 & H3 & _).
  - unfold ready, image_pages_laws, demo_image. cbn [image_bytes]. rewrite length_app, !length_replicate. rewrite block_value. lia.
  - exact demo_image_unsigned.
  - lia.
  - simpl. lia.
  - exists got, out, p'. exact (conj H1 (conj H2 H3)).
Defined.
