(* ===== verification/Volume.v ===== *)
(** * Writing through the journal

    Models src/fs/src/volume.rs: mounting with recovery, transactions (begin,
    stage, commit), and the operations made of them.  The device is any
    [Store]; a machine that stops is a device that fails. *)
From stdpp Require Import prelude numbers list.
From S2P Require Import Prelude Bytes Fs Cache Journal Reader.
Open Scope Z_scope.
Set Warnings "-clear-no-such-hyp".

Record Volume (S : Type) : Type := MkVolume {
  vcache : Cache S; vsuper : Superblock; vsequence : Z; staged : list Z; vcount : nat
}.
Arguments MkVolume {S}.
Arguments vcache {S}.
Arguments vsuper {S}.
Arguments vsequence {S}.
Arguments staged {S}.
Arguments vcount {S}.

Module Volume.
Section Volume.
Context {S : Type} `{!Store S}.

Definition with_cache (v : Volume S) (c : Cache S) : Volume S :=
  MkVolume c (vsuper v) (vsequence v) (staged v) (vcount v).

(** A method of the cache, called on [self.cache]. *)
Definition on_cache {A} (m : prog (Cache S) FsError A) : prog (Volume S) FsError A := fun v =>
  '(r, c) ← m (vcache v); Done (r, with_cache v c).

(** The part of a method that only reads [self.superblock]. *)
Definition with_super {A} (f : Superblock → prog (Volume S) FsError A) : prog (Volume S) FsError A :=
  fun v => f (vsuper v) v.

(** Changes the page behind frame [slot], if [f] accepts what is there. *)
Definition update_page (slot : nat) (f : list Z → result (list Z) FsError) : prog (Volume S) FsError unit :=
  on_cache (fun self =>
    bytes ← Cache.frame self slot;
    match f bytes with
    | Ok bytes' => Cache.set_page slot bytes' self
    | Err e => Done (Err e, self)
    end).

(** Zeroes the commit block, so that nothing is pending. *)
Definition clear_commit : prog (Volume S) FsError unit :=
  with_super (fun sb =>
    block ←! plift (journal_at sb);
    _ ←! on_cache (Cache.put_block block (replicate BLOCK 0));
    _ ←! on_cache Cache.flush;
    pret ()).

(** One logged block to its home. *)
Definition replay_block (sb : Superblock) (start index : Z) : prog (Volume S) FsError unit :=
  home ←! on_cache (Journal.home sb index);
  from ←! pout (x ← add_checked 32 start 1; add_checked 32 x index);
  on_cache (Cache.copy from home).

(** Replays a committed transaction, if there is one, and clears it. *)
Definition recover : prog (Volume S) FsError Z :=
  with_super (fun sb =>
    found ←! on_cache (Journal.committed sb);
    match found with
    | None => pret 0
    | Some commit =>
        _ ←! (fun v => Done (Ok (), MkVolume (vcache v) (vsuper v) (sequence commit) (staged v) (vcount v)));
        start ←! plift (journal_at sb);
        _ ←! pfor (replay_block sb start) (seqZ 0 (ccount commit));
        _ ←! on_cache Cache.flush;
        _ ←! clear_commit;
        pret (ccount commit)
    end).

(** Mounts what [cache] holds.  The last component is the device as it is left,
    whether the mount succeeded or not. *)
Definition mount (cache : Cache S) : outcome (result (Volume S * Z) FsError * S) :=
  let blocks' := st_blocks (store cache) in
  '(r, cache) ← Cache.cache_page 0 cache;
  match r with
  | Err e => Done (Err e, store cache)
  | Ok head =>
      match Superblock.read_head head blocks' with
      | Err e => Done (Err e, store cache)
      | Ok sb =>
          '(r, v) ← recover (MkVolume cache sb 0 (replicate MAX_STAGED 0) 0);
          Done (match r with Ok n => Ok (v, n) | Err e => Err e end, store (vcache v))
      end
  end.

(** Begins a transaction, unless one is committed and not yet applied. *)
Definition begin : prog (Volume S) FsError unit :=
  with_super (fun sb =>
    waiting ←! on_cache (Journal.pending sb);
    if waiting : bool then pfail NeedsRecovery
    else fun v => Done (Ok (), MkVolume (vcache v) (vsuper v) (Z.max (wrapping_add 64 (vsequence v) 1) 1) (staged v) 0)).

(** The journal block a staged slot lives in. *)
Definition slot_block (slot : nat) : prog (Volume S) FsError Z :=
  with_super (fun sb =>
    x ←! pout (x ← add_checked 64 (journal_start sb) 1; add_checked 64 x (Z.of_nat slot));
    if x <? 2 ^ 32 then pret x else pfail OutOfRange).

(** Copies [home] into the journal's payload, to be changed there; a block
    staged before keeps its slot. *)
Definition stage (home : Z) : prog (Volume S) FsError nat := fun v =>
  match position (fun at' => at' =? home) (take (vcount v) (staged v)) with
  | Some slot => Done (Ok slot, v)
  | None =>
      if decide (vcount v = MAX_STAGED) then Done (Err Full, v)
      else
        let slot := vcount v in
        (block ←! slot_block slot;
         _ ←! on_cache (Cache.copy home block);
         fun v => Done (Ok slot, MkVolume (vcache v) (vsuper v) (vsequence v)
                                   (<[slot := home]> (staged v)) (slot + 1))) v
  end.

(** The staged copy of a block, to be changed before it is committed. *)
Definition staged_mut (slot : nat) : prog (Volume S) FsError nat :=
  block ←! slot_block slot; on_cache (Cache.edit block).

(** One staged block to its home. *)
Definition apply_block (slot : nat) : prog (Volume S) FsError unit := fun v =>
  home ← at_index (staged v) slot;
  (from ←! slot_block slot; on_cache (Cache.copy from home)) v.

(** The order of the home writes: the caller's, if it has one for each block. *)
Definition apply_order (order : list nat) (n : nat) : list nat :=
  if decide (length order = n) then order else seq 0 n.

(** Puts the payload on the device, commits, applies, and clears. *)
Definition commit (order : list nat) : prog (Volume S) FsError unit := fun v =>
  if decide (vcount v = 0%nat) then Done (Ok (), v)
  else
    let sb := vsuper v in
    (_ ←! on_cache Cache.flush;
     head ←! on_cache (Journal.build_commit sb (vsequence v) (take (vcount v) (staged v)));
     block ←! plift (journal_at sb);
     page' ←! on_cache (Cache.edit block);
     _ ←! update_page page' (fun bytes =>
            let bytes := replicate (length bytes) 0 in
            ok_or (put bytes 0 head) OutOfRange);
     _ ←! on_cache Cache.flush;
     _ ←! pfor apply_block (apply_order order (vcount v));
     _ ←! on_cache Cache.flush;
     _ ←! clear_commit;
     fun v => Done (Ok (), MkVolume (vcache v) (vsuper v) (vsequence v) (staged v) 0)) v.

Definition into_cache (v : Volume S) : Cache S := vcache v.

(** The reader over the same cache. *)
Definition inode (index : Z) : prog (Volume S) FsError Inode :=
  with_super (fun sb => on_cache (Filesystem.inode sb index)).

Definition lookup (directory : Z) (name : list Z) : prog (Volume S) FsError (Z * Inode) :=
  with_super (fun sb =>
    found ←! on_cache (Filesystem.inode sb directory);
    on_cache (Filesystem.lookup sb found name)).

(** Puts [inode'] into the transaction being built. *)
Definition stage_inode (index : Z) (inode' : Inode) : prog (Volume S) FsError unit :=
  with_super (fun sb =>
    at' ←! plift (Superblock.inode_at sb index);
    slot ←! stage at'.1;
    page' ←! staged_mut slot;
    update_page page' (fun bytes =>
      old ←? ok_or (get bytes at'.2 INODE) OutOfRange;
      new ←? Inode.encode inode' old;
      Ok (splice bytes at'.2 new))).

(** Marks a block used or free in the transaction being built. *)
Definition stage_bitmap (block : Z) (used' : bool) : prog (Volume S) FsError unit :=
  with_super (fun sb =>
    let byte := block / 8 in
    holding ←! pout (add_checked 64 (bitmap_start sb) (byte / BLOCKz));
    if inode_start sb <=? holding then pfail OutOfRange
    else if 2 ^ 32 <=? holding then pfail OutOfRange
    else
      slot ←! stage holding;
      page' ←! staged_mut slot;
      let within := Z.to_nat (byte mod BLOCKz) in
      let mask := Z.shiftl 1 (block mod 8) in
      update_page page' (fun bytes =>
        cell ←? ok_or (bytes !! within) OutOfRange;
        Ok (<[within := if used' then Z.lor cell mask else Z.land cell (Z.lxor 255 mask)]> bytes))).

(** Whether the cached bitmap calls [block] free. *)
Definition reads_free (sb : Superblock) (block : Z) : prog (Volume S) FsError bool :=
  let byte := block / 8 in
  holding ←! pout (add_checked 64 (bitmap_start sb) (byte / BLOCKz));
  if 2 ^ 32 <=? holding then pfail OutOfRange
  else
    bytes ←! on_cache (Cache.cache_page holding);
    cell ←! plift (ok_or (bytes !! Z.to_nat (byte mod BLOCKz)) OutOfRange);
    pret (Z.land cell (Z.shiftl 1 (block mod 8)) =? 0).

(** [u32::try_from(block).map_err(..)]. *)
Definition as_u32 (block : Z) : prog (Volume S) FsError Z :=
  if block <? 2 ^ 32 then pret block else pfail OutOfRange.

(** Collects up to [want] free blocks in one scan of the bitmap. *)
Fixpoint free_blocks_loop (sb : Superblock) (range : list Z) (want : nat) : prog (Volume S) FsError (list Z) :=
  match range, want with
  | [], _ | _, 0%nat => pret []
  | block :: range', Datatypes.S want' =>
      is_free ←! reads_free sb block;
      if is_free : bool then
        b ←! as_u32 block;
        rest ←! free_blocks_loop sb range' want';
        pret (b :: rest)
      else free_blocks_loop sb range' want
  end.

Definition data_blocks (sb : Superblock) : list Z := seqZ (data_start sb) (blocks sb - data_start sb).

Definition free_blocks (want : nat) : prog (Volume S) FsError (list Z) :=
  with_super (fun sb => free_blocks_loop sb (data_blocks sb) want).

Fixpoint free_block_loop (sb : Superblock) (taken : Z) (range : list Z) : prog (Volume S) FsError Z :=
  match range with
  | [] => pfail Full
  | block :: range' =>
      if block =? taken then free_block_loop sb taken range'
      else
        is_free ←! reads_free sb block;
        if is_free : bool then as_u32 block else free_block_loop sb taken range'
  end.

Definition free_block_excluding (taken : Z) : prog (Volume S) FsError Z :=
  with_super (fun sb => free_block_loop sb taken (data_blocks sb)).

Definition free_block : prog (Volume S) FsError Z := free_block_excluding (2 ^ 32 - 1).

(** The first free inode; an inode that cannot be read is passed over. *)
Fixpoint free_inode_loop (n : nat) (index : Z) : prog (Volume S) FsError Z := fun v =>
  match n with
  | 0%nat => Done (Err Full, v)
  | Datatypes.S n' =>
      '(r, v) ← inode index v;
      match r with
      | Ok i => if bool_decide (kind i = KFree) then Done (Ok index, v) else free_inode_loop n' (index + 1) v
      | Err _ => free_inode_loop n' (index + 1) v
      end
  end.

Definition free_inode : prog (Volume S) FsError Z :=
  with_super (fun sb => free_inode_loop (Z.to_nat (Z.min (inodes sb) (2 ^ 32 - 1))) 0).

(** A [Result] looked at rather than propagated. *)
Definition tried {A} (m : prog (Volume S) FsError A) : prog (Volume S) FsError (result A FsError) := fun v =>
  '(r, v) ← m v; Done (Ok r, v).

(** The page behind frame [slot], and zeroes over it. *)
Definition read_page (slot : nat) : prog (Volume S) FsError (list Z) :=
  on_cache (fun self => bytes ← Cache.frame self slot; Done (Ok bytes, self)).
Definition zero_page (slot : nat) : prog (Volume S) FsError unit :=
  update_page slot (fun bytes => Ok (replicate (length bytes) 0)).

(** How many entries a directory block holds. *)
Definition PER : Z := BLOCKz / Z.of_nat ENTRY.

Definition with_block (i : Inode) (at' : nat) (block : Z) : Inode :=
  MkInode (kind i) (links i) (generation i) (size i) (<[at' := block]> (direct i)) (indirect i).
Definition with_size (i : Inode) (size' : Z) : Inode :=
  MkInode (kind i) (links i) (generation i) size' (direct i) (indirect i).
Definition with_indirect (i : Inode) (table : Z) : Inode :=
  MkInode (kind i) (links i) (generation i) (size i) (direct i) table.

(** The inode a new name gets: never of generation zero, and of a generation its
    slot has not had before. *)
Definition new_inode (kind' : Kind) (generation' : Z) : Inode :=
  MkInode kind' 1 (Z.max (wrapping_add 32 generation' 1) 1) 0 (replicate 10 0) 0.

(** A new block for a directory, zeroed, if its next entry starts one. *)
Definition grow_directory (parent : Inode) (block_index : nat) (fresh : option Z)
    : prog (Volume S) FsError Inode :=
  match fresh with
  | None => pret parent
  | Some block =>
      _ ←! stage_bitmap block true;
      slot ←! stage block;
      page' ←! staged_mut slot;
      _ ←! zero_page page';
      if decide (block_index < length (direct parent))%nat
      then pret (with_block parent block_index block) else pout Panic
  end.

(** Creates [name] in [directory], with the home writes in the given order. *)
Definition create_ordered (directory : Z) (name : list Z) (kind' : Kind) (order : list nat)
    : prog (Volume S) FsError Z :=
  if bool_decide (name = []) || bool_decide (MAX_NAME < length name)%nat then pfail BadName
  else if bool_decide (kind' = KFree) then pfail WrongKind
  else with_super (fun sb =>
    parent ←! inode directory;
    if negb (bool_decide (kind parent = KDirectory)) then pfail WrongKind
    else
      there ←! tried (lookup directory name);
      match there with
      | Ok _ => pfail BadName
      | Err _ =>
          index ←! free_inode;
          old ←! tried (inode index);
          let generation' := match old with Ok old => generation old | Err _ => 0 end in
          let entries := size parent / Z.of_nat ENTRY in
          let which := entries mod PER in
          let block_index := entries / PER in
          if Z.of_nat (length (direct parent)) <=? block_index then pfail Full
          else
            fresh ←! (if which =? 0 then block ←! free_block; pret (Some block) else pret None);
            _ ←! begin;
            parent ←! grow_directory parent (Z.to_nat block_index) fresh;
            block ←! pout (at_index (direct parent) (Z.to_nat block_index));
            if (block =? 0) || (blocks sb <=? block) then pfail OutOfRange
            else
              slot ←! stage block;
              entry ←! plift (Entry.new index name);
              page' ←! staged_mut slot;
              _ ←! update_page page' (fun bytes => Entry.write entry bytes (Z.to_nat which * ENTRY));
              size' ←! pout (add_checked 64 (size parent) (Z.of_nat ENTRY));
              _ ←! stage_inode directory (with_size parent size');
              _ ←! stage_inode index (new_inode kind' generation');
              _ ←! commit order;
              pret index
      end).

Definition create (directory : Z) (name : list Z) (kind' : Kind) : prog (Volume S) FsError Z :=
  create_ordered directory name kind' [].

(** Frees every block a file holds: the direct ones, what the indirect table
    names, and the table. *)
Definition free_all (blocks' : list Z) : prog (Volume S) FsError unit :=
  pfor (fun block => stage_bitmap block false) blocks'.

(** The numbers of an indirect table, each four bytes. *)
Definition table_numbers (table : list Z) : result (list Z) FsError :=
  ok_or (mapM (fun slot => u32_at table (slot * 4)) (seq 0 (BLOCK / 4))) OutOfRange.

Definition free_contents (file : Inode) : prog (Volume S) FsError unit :=
  _ ←! free_all (take_while (fun block => negb (block =? 0)) (direct file));
  if indirect file =? 0 then pret ()
  else
    page' ←! on_cache (Cache.edit (indirect file));
    table ←! read_page page';
    numbers ←! plift (table_numbers table);
    _ ←! free_all (take_while (fun number => negb (number =? 0)) numbers);
    stage_bitmap (indirect file) false.

(** An inode with its contents gone and its identity kept. *)
Definition emptied (i : Inode) : Inode := MkInode (kind i) (links i) (generation i) 0 (replicate 10 0) 0.

(** Sets a file back to zero bytes, keeping the inode. *)
Definition truncate (index : Z) : prog (Volume S) FsError unit :=
  file ←! inode index;
  if negb (bool_decide (kind file = KFile)) then pfail WrongKind
  else
    first ←! pout (at_index (direct file) 0);
    if (size file =? 0) && (indirect file =? 0) && (first =? 0) then pret ()
    else
      _ ←! begin;
      _ ←! free_contents file;
      _ ←! stage_inode index (emptied file);
      commit [].

(** Which entry of a directory carries [name], from entry [at'] on. *)
Fixpoint find_entry (n : nat) (parent : Inode) (name : list Z) (at' : Z) : prog (Volume S) FsError (option Z) :=
  match n with
  | 0%nat => pret None
  | Datatypes.S n' =>
      block ←! pout (at_index (direct parent) (Z.to_nat (at' / PER)));
      bytes ←! on_cache (Cache.cache_page block);
      match Entry.read bytes (Z.to_nat (at' mod PER) * ENTRY) with
      | Ok entry =>
          if bool_decide (Entry.name entry = name) then pret (Some at') else find_entry n' parent name (at' + 1)
      | Err _ => find_entry n' parent name (at' + 1)
      end
  end.

(** What is left of a removed inode: the generation, for the next use of its slot. *)
Definition dead_inode (victim : Inode) : Inode := MkInode KFree 0 (generation victim) 0 (replicate 10 0) 0.

(** Removes [name] from [directory], freeing what it named; the last entry moves
    into the hole. *)
Definition remove (directory : Z) (name : list Z) : prog (Volume S) FsError unit :=
  parent ←! inode directory;
  if negb (bool_decide (kind parent = KDirectory)) then pfail WrongKind
  else
    found ←! lookup directory name;
    let '(index, victim) := found in
    if bool_decide (kind victim = KDirectory) && negb (size victim =? 0) then pfail WrongKind
    else
      let entries := size parent / Z.of_nat ENTRY in
      at' ←! find_entry (Z.to_nat entries) parent name 0;
      at' ←! plift (ok_or at' NotFound);
      let last := entries - 1 in
      last_block ←! pout (at_index (direct parent) (Z.to_nat (last / PER)));
      bytes ←! on_cache (Cache.cache_page last_block);
      moving ←! plift (Entry.read bytes (Z.to_nat (last mod PER) * ENTRY));
      _ ←! begin;
      block ←! pout (at_index (direct parent) (Z.to_nat (at' / PER)));
      slot ←! stage block;
      page' ←! staged_mut slot;
      _ ←! update_page page' (fun bytes => Entry.write moving bytes (Z.to_nat (at' mod PER) * ENTRY));
      size' ←! pout (sub_checked 64 (size parent) (Z.of_nat ENTRY));
      _ ←! stage_inode directory (with_size parent size');
      _ ←! stage_inode index (dead_inode victim);
      _ ←! free_contents victim;
      commit [].

(** Empties a directory, entry by entry; [below] empties a directory inside it. *)
Fixpoint empty_loop (fuel : nat) (below : option (Z → prog (Volume S) FsError Z)) (directory removed : Z)
    : prog (Volume S) FsError Z :=
  match fuel with
  | 0%nat => pout OutOfFuel
  | Datatypes.S fuel' => with_super (fun sb =>
      i ←! inode directory;
      if negb (bool_decide (kind i = KDirectory)) then pfail WrongKind
      else
        entries ←! on_cache (fun self => '(entries, self) ← Filesystem.list' sb i self; Done (Ok entries, self));
        match entries with
        | [] => pret removed
        | entry :: _ =>
            victim ←! inode (einode entry);
            removed ←! (if bool_decide (kind victim = KDirectory) && negb (size victim =? 0) then
                          match below with
                          | None => pfail WrongKind
                          | Some below =>
                              more ←! below (einode entry);
                              pout (add_checked 32 removed more)
                          end
                        else pret removed);
            _ ←! remove directory (Entry.name entry);
            removed ←! pout (add_checked 32 removed 1);
            empty_loop fuel' below directory removed
        end)
  end.

(** Removes everything inside [directory], at most [depth] levels below it;
    [fuel] bounds the entries of each directory. *)
Fixpoint empty (fuel depth : nat) (directory : Z) : prog (Volume S) FsError Z :=
  empty_loop fuel (match depth with 0%nat => None | Datatypes.S depth' => Some (empty fuel depth') end) directory 0.

(** How many blocks an indirect table names. *)
Definition SLOTS : Z := BLOCKz / 4.

(** The number at [at'] of the table at block [table]. *)
Definition table_entry (table : Z) (at' : nat) : prog (Volume S) FsError Z :=
  page' ←! on_cache (Cache.edit table);
  bytes ←! read_page page';
  plift (ok_or (u32_at bytes at') OutOfRange).

(** The block an inode has at [which], or zero. *)
Definition block_number (i : Inode) (which : nat) : prog (Volume S) FsError Z :=
  match direct i !! which with
  | Some number => pret number
  | None =>
      if indirect i =? 0 then pret 0
      else table_entry (indirect i) ((which - length (direct i)) * 4)
  end.

(** A number that names a block of the data region. *)
Definition data_block (sb : Superblock) (block : Z) : prog (Volume S) FsError unit :=
  if (blocks sb <=? block) || (block <? data_start sb) then pfail OutOfRange else pret ().

(** Puts [block] at [which] of the file: in the inode, or in the table in place. *)
Definition link_block (i : Inode) (which : nat) (block : Z) : prog (Volume S) FsError Inode :=
  if decide (which < length (direct i))%nat then pret (with_block i which block)
  else
    page' ←! on_cache (Cache.edit (indirect i));
    _ ←! update_page page' (fun bytes =>
           ok_or (put bytes ((which - length (direct i)) * 4) (to_le 4 block)) OutOfRange);
    pret i.

(** A table claimed in this transaction is marked used and zeroed in place. *)
Definition claim_table (table_fresh : bool) (table : Z) : prog (Volume S) FsError unit :=
  if table_fresh then
    _ ←! stage_bitmap table true;
    page' ←! on_cache (Cache.edit table);
    zero_page page'
  else pret ().

(** Writes within one block of a file, and answers how many bytes went. *)
Definition write_ordered (index offset : Z) (data : list Z) (order : list nat) : prog (Volume S) FsError Z :=
  with_super (fun sb =>
    i ←! inode index;
    if negb (bool_decide (kind i = KFile)) then pfail WrongKind
    else
      let within := Z.to_nat (offset mod BLOCKz) in
      let taking := Nat.min (length data) (BLOCK - within) in
      let block_index := offset / BLOCKz in
      let direct_count := Z.of_nat (length (direct i)) in
      if direct_count + SLOTS <=? block_index then pfail Full
      else
        let which := Z.to_nat block_index in
        let via_indirect := direct_count <=? block_index in
        let table_fresh := via_indirect && (indirect i =? 0) in
        i ←! (if table_fresh then
                table ←! free_block;
                _ ←! data_block sb table;
                pret (with_indirect i table)
              else pret i);
        existing ←! (if table_fresh then pret 0 else block_number i which);
        let fresh := existing =? 0 in
        block ←! (if fresh then free_block_excluding (if table_fresh then indirect i else 2 ^ 32 - 1)
                  else pret existing);
        _ ←! data_block sb block;
        _ ←! begin;
        _ ←! claim_table table_fresh (indirect i);
        i ←! (if fresh then _ ←! stage_bitmap block true; link_block i which block else pret i);
        page' ←! on_cache (Cache.edit block);
        _ ←! update_page page' (fun bytes =>
               let bytes := if fresh then replicate (length bytes) 0 else bytes in
               ok_or (put bytes within (take taking data)) OutOfRange);
        _ ←! on_cache Cache.flush;
        end' ←! pout (add_checked 64 offset (Z.of_nat taking));
        _ ←! stage_inode index (if size i <? end' then with_size i end' else i);
        _ ←! commit order;
        pret (Z.of_nat taking)).

Definition write (index offset : Z) (data : list Z) : prog (Volume S) FsError Z :=
  write_ordered index offset data [].

Definition RUN_BLOCKS : nat := 64.

(** The numbers of the blocks [first ..], zero for those the file lacks. *)
Fixpoint existing_blocks (n : nat) (i : Inode) (at' : nat) : prog (Volume S) FsError (list Z) :=
  match n with
  | 0%nat => pret []
  | Datatypes.S n' =>
      number ←! block_number i at';
      rest ←! existing_blocks n' i (at' + 1);
      pret (number :: rest)
  end.

(** How long a run [found] new blocks allow. *)
Fixpoint allowed_run (existing : list Z) (found used' allowed : nat) : nat :=
  match existing with
  | [] => allowed
  | number :: rest =>
      if number =? 0 then
        if decide (used' = found) then allowed else allowed_run rest found (used' + 1) (allowed + 1)
      else allowed_run rest found used' (allowed + 1)
  end.

(** The blocks of the run, to their homes: a missing one is taken from [fresh],
    marked used and linked. *)
Fixpoint run_blocks (sb : Superblock) (existing fresh data : list Z) (i : Inode) (at' taken from : nat)
    : prog (Volume S) FsError Inode :=
  match existing with
  | [] => pret i
  | number :: rest =>
      placed ←! (if number =? 0 then
                   block ←! pout (at_index fresh taken);
                   _ ←! data_block sb block;
                   _ ←! stage_bitmap block true;
                   i ←! link_block i at' block;
                   pret (block, i, (taken + 1)%nat)
                 else pret (number, i, taken));
      let '(block, i, taken) := placed in
      page' ←! on_cache (Cache.edit block);
      source ←! pout (match get data from BLOCK with Some source => Done source | None => Panic end);
      _ ←! update_page page' (fun _ => Ok source);
      run_blocks sb rest fresh data i (at' + 1) taken (from + BLOCK)
  end.

(** Writes whole blocks of [data] in one transaction, and answers how many bytes
    went. *)
Definition write_run (index offset : Z) (data : list Z) : prog (Volume S) FsError Z :=
  with_super (fun sb =>
    i ←! inode index;
    if negb (bool_decide (kind i = KFile)) then pfail WrongKind
    else if negb (offset mod BLOCKz =? 0) then pfail OutOfRange
    else
      let direct_count := Z.of_nat (length (direct i)) in
      let first := offset / BLOCKz in
      if direct_count + SLOTS <=? first then pfail OutOfRange
      else
        let whole := Nat.min (length data / BLOCK) RUN_BLOCKS in
        if decide (whole = 0%nat) then write index offset data
        else
          let whole := Nat.min whole (Z.to_nat (direct_count + SLOTS - first)) in
          let first := Z.to_nat first in
          existing ←! existing_blocks whole i first;
          let wanted := length (List.filter (fun number => number =? 0) existing) in
          let needs_table := bool_decide (length (direct i) < first + whole)%nat && (indirect i =? 0) in
          got ←! free_blocks (wanted + if needs_table then 1 else 0);
          let fresh := got ++ replicate (RUN_BLOCKS + 1 - length got) 0 in
          if needs_table && bool_decide (length got = 0%nat) then pfail Full
          else
            let found := (length got - if needs_table then 1 else 0)%nat in
            table ←! (if needs_table then pout (at_index fresh found) else pret 0);
            if bool_decide (found = 0%nat) && bool_decide (0 < wanted)%nat then pfail Full
            else
              let whole := if decide (found < wanted)%nat then allowed_run existing found 0 0 else whole in
              if decide (whole = 0%nat) then pfail Full
              else
                i ←! (if needs_table then _ ←! data_block sb table; pret (with_indirect i table) else pret i);
                _ ←! begin;
                _ ←! claim_table needs_table (indirect i);
                i ←! run_blocks sb (take whole existing) fresh data i first 0 0;
                _ ←! on_cache Cache.flush;
                let bytes := Z.of_nat (whole * BLOCK) in
                end' ←! pout (add_checked 64 offset bytes);
                _ ←! stage_inode index (if size i <? end' then with_size i end' else i);
                _ ←! commit [];
                pret bytes).

End Volume.
End Volume.
