(* ===== verification/Crash.v ===== *)
(** * Crash consistency

    What src/fs/src/journal.rs and src/fs/src/volume.rs promise together: a
    transaction reaches the device whole or not at all, wherever the device
    stops, and however often the recovery is itself interrupted. *)
From stdpp Require Import prelude numbers list.
From S2P Require Import Prelude Bytes Fs Cache Journal Reader Volume.
Open Scope Z_scope.
Set Warnings "-clear-no-such-hyp".

#[local] Opaque BLOCK.

Section Crash.
Context {S : Type} `{!Store S} `{!StoreLaws S}.
Implicit Types (c : Cache S) (v : Volume S).

Abbreviation nblocks c := (st_blocks (store c)).
Abbreviation ondisk c := (disk (store c)).

(** ** Methods of the volume *)

(** A method returns: the cache stays sound and can tick [n] more times; the
    fields other than the cache and the transaction's do not change. *)
Definition vreturns {A} (n : Z) (m : prog (Volume S) FsError A) v (Q : result A FsError → Volume S → Prop) : Prop :=
  ∃ r v', m v = Done (r, v') ∧ cache_ok (vcache v') ∧ room n (vcache v') ∧ Q r v'.

Lemma vreturns_bind {A B} n k (m : prog (Volume S) FsError A) (f : A → prog (Volume S) FsError B) v
    (Q : result A FsError → Volume S → Prop) (R : result B FsError → Volume S → Prop) :
  vreturns n m v Q → k ≤ n →
  (∀ e v', Q (Err e) v' → cache_ok (vcache v') → R (Err e) v') →
  (∀ a v', Q (Ok a) v' → cache_ok (vcache v') → room n (vcache v') → vreturns k (f a) v' R) →
  vreturns k (pbind m f) v R.
Proof.
  intros (r & v' & Hm & Hok & Hroom & HQ) Hk Herr Hnext. unfold vreturns, pbind. rewrite Hm. cbn [mbind outcome_bind].
  destruct r as [a|e]; [by apply Hnext|]. exists (Err e), v'. split_and!; [done|done|by eapply room_weaken|auto].
Qed.

Lemma vreturns_mono {A} n (m : prog (Volume S) FsError A) v (Q R : result A FsError → Volume S → Prop) :
  vreturns n m v Q → (∀ r v', Q r v' → cache_ok (vcache v') → R r v') → vreturns n m v R.
Proof. intros (r & v' & Hm & Hok & Hroom & HQ) HR. exists r, v'. auto. Qed.

Lemma vreturns_ret {A} n (a : A) v (Q : result A FsError → Volume S → Prop) :
  cache_ok (vcache v) → room n (vcache v) → Q (Ok a) v → vreturns n (pret a) v Q.
Proof. intros. exists (Ok a), v. auto. Qed.

Lemma vreturns_lift {A B} n (r : result A FsError) a (f : A → prog (Volume S) FsError B) v R :
  r = Ok a → vreturns n (f a) v R → vreturns n (pbind (plift r) f) v R.
Proof. by intros ->. Qed.

Lemma vreturns_pout {A B} n (m : outcome A) a (f : A → prog (Volume S) FsError B) v R :
  m = Done a → vreturns n (f a) v R → vreturns n (pbind (pout m) f) v R.
Proof. by intros ->. Qed.

Lemma vreturns_ext {A} n (m m' : prog (Volume S) FsError A) v R : m' v = m v → vreturns n m v R → vreturns n m' v R.
Proof. unfold vreturns. by intros ->. Qed.

Lemma vreturns_super {A} n (f : Superblock → prog (Volume S) FsError A) v R :
  vreturns n (f (vsuper v)) v R → vreturns n (Volume.with_super f) v R.
Proof. done. Qed.

Lemma vreturns_cache {A} n (m : prog (Cache S) FsError A) v Q :
  returns n m (vcache v) Q →
  vreturns n (Volume.on_cache m) v (fun r v' => v' = Volume.with_cache v (vcache v') ∧ Q r (vcache v')).
Proof.
  intros (r & c' & Hm & Hok & Hroom & HQ). exists r, (Volume.with_cache v c').
  unfold Volume.on_cache. rewrite Hm. by split_and!.
Qed.

Lemma slot_block_ok v (i : nat) :
  0 ≤ journal_start (vsuper v) → journal_start (vsuper v) + 1 + Z.of_nat i < 2 ^ 32 →
  Volume.slot_block i v = Done (Ok (journal_start (vsuper v) + 1 + Z.of_nat i), v).
Proof.
  intros Hj Hi. unfold Volume.slot_block, Volume.with_super, pbind, pout, add_checked.
  rewrite checked_ok by (unfold in_width; lia). cbn [mbind outcome_bind].
  rewrite checked_ok by (unfold in_width; lia). cbn [mbind outcome_bind].
  by rewrite (proj2 (Z.ltb_lt _ _)) by lia.
Qed.

(** A journal reader, run on the cache. *)
Lemma answers_returns {A} n (m : prog (Cache S) FsError A) c E Q :
  answers n m c E Q → returns n m c (fun r c' => settles c c' ∧ match r with Ok a => Q a | Err _ => E end).
Proof. intros (r & c' & Hm & [Hok Hroom] & Hse & HQ). by exists r, c'. Qed.

(** ** Two states of the device

    [Old] is what the device shows with the transaction logged and nothing
    applied, [New] what it shows with every block at its home. *)
Definition between (Old New : Z → list Z) (D : Z → list Z) : Prop := ∀ b, D b = Old b ∨ D b = New b.

Record between_cache (Old New : Z → list Z) c : Prop := {
  bc_disk : between Old New (ondisk c);
  bc_view : between Old New (view c)
}.

Lemma between_settles Old New c c' : settles c c' → between_cache Old New c → between_cache Old New c'.
Proof.
  intros Hse [Hd Hv]. split; intros b.
  - destruct (dr_disk _ _ (se_drains _ _ Hse) b) as [->|[_ ->]]; auto.
  - rewrite (se_view _ _ Hse). auto.
Qed.

(** Writing a block's new value. *)
Lemma between_writes Old New c b w c' :
  writes c b w c' → w = New b → between_cache Old New c → between_cache Old New c'.
Proof.
  intros Hw -> [Hd Hv]. split; intros x.
  - destruct (dr_disk _ _ (wr_drains _ _ _ _ Hw) x) as [->|[_ ->]]; auto.
  - rewrite (wr_view _ _ _ _ Hw). case_decide as Hx; [subst; auto|auto].
Qed.

Lemma clean_between Old New c :
  cache_ok c → between Old New (ondisk c) → (∀ x, ¬ dirty_in c x) → between_cache Old New c.
Proof. intros Hok Hd Hc. split; [done|]. intros b. rewrite view_clean by auto. auto. Qed.

(** ** Logged transactions *)

(** The device shows transaction [seq], moving the payload to [homes]. *)
Record logged (sb : Superblock) (seq : Z) (homes : list Z) (Old : Z → list Z) : Prop := {
  lg_commit : commit_of Old sb = Some (MkCommit seq (Z.of_nat (length homes)));
  lg_home i h : homes !! i = Some h → u32_at (Old (journal_start sb)) (TABLE + i * 4) = Some h
}.

(** [New] is [Old] with the payload of [homes] applied. *)
Record applied (sb : Superblock) (homes : list Z) (Old New : Z → list Z) : Prop := {
  apd_home i h : homes !! i = Some h → New h = Old (journal_start sb + 1 + Z.of_nat i);
  apd_other b : b ∉ homes → New b = Old b
}.

Definition homes_ok (sb : Superblock) (homes : list Z) : Prop :=
  (length homes ≤ MAX_STAGED)%nat ∧ Z.of_nat (length homes) < journal_blocks sb ∧
  Forall (fun h => 0 < h < blocks sb ∧ ¬ in_journal sb h) homes.

Lemma layout_fits sb nb : plausible_layout sb nb → nb < 2 ^ 32 → journal_fits sb ∧ 0 < journal_blocks sb.
Proof. unfold plausible_layout, journal_fits. lia. Qed.

Lemma log_untouched sb homes Old New D b :
  homes_ok sb homes → applied sb homes Old New → between Old New D → in_journal sb b → D b = Old b.
Proof.
  intros (_ & _ & Hh) Ha HD Hb. destruct (HD b) as [?| ->]; [done|]. apply Ha. intros Hin.
  rewrite Forall_forall in Hh. by destruct (Hh b Hin).
Qed.

Lemma commit_of_ext V V' sb seq cnt :
  commit_of V sb = Some (MkCommit seq cnt) → (∀ b, in_journal sb b → V' b = V b) → 0 < journal_blocks sb →
  commit_of V' sb = Some (MkCommit seq cnt).
Proof.
  intros Hc HV Hj. unfold commit_of in *. rewrite (HV (journal_start sb)) by (split; lia).
  destruct (u64_at _ 0) as [mg|]; [|done]. destruct (u64_at _ 8) as [sq|]; [|done]. destruct (u32_at _ 16) as [ct|]; [|done].
  destruct (_ || _) eqn:Hg; [done|]. rewrite !orb_false_iff, Z.leb_gt in Hg.
  assert (Hs : tx_sum V' (journal_start sb) (Z.to_nat ct) (V (journal_start sb)) =
    tx_sum V (journal_start sb) (Z.to_nat ct) (V (journal_start sb))); [|by rewrite Hs].
  unfold tx_sum. do 2 f_equal. apply list_fmap_ext. intros k b Hb.
  apply list_elem_of_lookup_2, elem_of_seqZ in Hb. apply HV. split; lia.
Qed.

(** Nothing is waiting: the commit block does not carry the magic number. *)
Definition idle (sb : Superblock) (V : Z → list Z) : Prop := u64_at (V (journal_start sb)) 0 ≠ Some JOURNAL_MAGIC.

Lemma idle_commit sb V : idle sb V → commit_of V sb = None.
Proof.
  unfold idle, commit_of. intros Hi. destruct (u64_at _ 0) as [mg|]; [|done].
  destruct (u64_at _ 8); [|done]. destruct (u32_at _ 16); [|done].
  rewrite (proj2 (Z.eqb_neq mg JOURNAL_MAGIC)) by congruence. done.
Qed.

(** ** Moving the payload home *)

(** The device behind the cache is the same one, and as free. *)
Definition same_room c c' : Prop := nblocks c' = nblocks c ∧ (able c → able c').

Lemma drains_room c c' : cache_ok c' → drains c c' → same_room c c'.
Proof. intros Hok Hdr. split; [apply Hdr|]. by apply drains_able. Qed.

#[export] Instance same_room_preorder : PreOrder same_room.
Proof.
  split; [by intros c|]. intros c1 c2 c3 [H1 H2] [H3 H4]. split; [congruence|auto].
Qed.

Lemma room_failed c c' : same_room c c' → ¬ able c' → ¬ able c.
Proof. intros [_ H] Hf Ha. auto. Qed.

Lemma failed_able c : ¬ dependable (store c) → ¬ able c.
Proof. by intros Hf [_ Hd]. Qed.

(** A step towards [New]: the device stays between the two states, and what is
    already new stays new. *)
Record advances (Old New : Z → list Z) c c' : Prop := {
  adv_room : same_room c c';
  adv_between : between_cache Old New c';
  adv_keeps b : view c b = New b → view c' b = New b
}.

Lemma advances_refl Old New c : between_cache Old New c → advances Old New c c.
Proof. intros H. split; [reflexivity|done|done]. Qed.

Lemma advances_trans Old New c1 c2 c3 : advances Old New c1 c2 → advances Old New c2 c3 → advances Old New c1 c3.
Proof. intros [H1 H2 H3] [H4 H5 H6]. split; [by etrans|done|auto]. Qed.

Lemma advances_settles Old New c c' : cache_ok c' → settles c c' → between_cache Old New c → advances Old New c c'.
Proof.
  intros Hok Hse Hb. split; [by apply drains_room, Hse|by eapply between_settles|].
  intros b. by rewrite (se_view _ _ Hse).
Qed.

Context (sb : Superblock) (homes : list Z) (Old New : Z → list Z).
Context (Hhomes : homes_ok sb homes) (Hnew : applied sb homes Old New).

Lemma log_block_in (i : nat) : (i < length homes)%nat → in_journal sb (journal_start sb + 1 + Z.of_nat i).
Proof. destruct Hhomes as (_ & Hj & _). intros Hi. split; lia. Qed.

Lemma home_copy_spec n c i h :
  plausible_layout sb (nblocks c) → cache_ok c → 0 ≤ n → room (n + 5) c → homes !! i = Some h → between_cache Old New c →
  returns n (Cache.copy (journal_start sb + 1 + Z.of_nat i) h) c (fun r c' =>
    advances Old New c c' ∧
    match r with Ok _ => view c' h = New h | Err _ => ¬ able c end).
Proof.
  intros Hlay Hok Hn Hroom Hi Hb. destruct Hhomes as (_ & _ & Hf).
  pose proof (Forall_lookup_1 _ _ _ _ Hf Hi) as [Hh Hnj]. pose proof (lookup_lt_Some _ _ _ Hi) as Hlt.
  pose proof (log_block_in i Hlt) as Hlog. unfold plausible_layout in Hlay.
  assert (Hfrom : 0 ≤ journal_start sb + 1 + Z.of_nat i < nblocks c) by (unfold in_journal in Hlog; lia).
  destruct (copy_spec n c (journal_start sb + 1 + Z.of_nat i) h) as (r & c' & Hc & Hok' & Hr' & Hpost);
    [done|done|done|lia|lia| |].
  { intros <-. done. }
  exists r, c'. do 3 (split; [done|]). destruct r as [[]|e].
  - destruct Hpost as (_ & _ & Hw).
    assert (Hv : view c (journal_start sb + 1 + Z.of_nat i) = New h).
    { rewrite (apd_home _ _ _ _ Hnew i h Hi). by eapply (log_untouched _ homes _ New), Hlog; [|done|apply Hb]. }
    rewrite Hv in Hw. split; [|rewrite (wr_view _ _ _ _ Hw); by rewrite decide_True].
    split; [by apply drains_room, Hw|by eapply between_writes|].
    intros b Hvb. rewrite (wr_view _ _ _ _ Hw). by case_decide; subst.
  - destruct Hpost as [Hse Hrel]. split; [by apply advances_settles|]. intros Hfree. apply Hrel; [lia|lia|done].
Qed.

(** A loop of such steps over the indices [ixs]. *)
Lemma homes_loop_spec (I : Volume S → Prop) (body : nat → prog (Volume S) FsError unit) ixs : ∀ n v,
  (∀ v c, I v → I (Volume.with_cache v c)) →
  (∀ i h n v, homes !! i = Some h → 0 ≤ n → cache_ok (vcache v) → room (n + 7) (vcache v) →
     plausible_layout sb (nblocks (vcache v)) → between_cache Old New (vcache v) →
     I v → vreturns n (body i) v (fun r v' => v' = Volume.with_cache v (vcache v') ∧
       advances Old New (vcache v) (vcache v') ∧
       match r with Ok _ => view (vcache v') h = New h | Err _ => ¬ able (vcache v) end)) →
  Forall (fun i => (i < length homes)%nat) ixs →
  cache_ok (vcache v) → 0 ≤ n → room (n + 7 * Z.of_nat (length ixs)) (vcache v) →
  plausible_layout sb (nblocks (vcache v)) → between_cache Old New (vcache v) → I v →
  vreturns n (pfor body ixs) v (fun r v' => v' = Volume.with_cache v (vcache v') ∧
    advances Old New (vcache v) (vcache v') ∧
    match r with
    | Ok _ => ∀ i h, i ∈ ixs → homes !! i = Some h → view (vcache v') h = New h
    | Err _ => ¬ able (vcache v)
    end).
Proof.
  induction ixs as [|i ixs IH]; intros n v HI Hbody Hix Hok Hn Hroom Hlay Hb Hst; cbn [pfor].
  { apply vreturns_ret; [done|by eapply room_weaken, Hroom; simpl; lia|].
    split_and!; [by destruct v|by apply advances_refl|by intros i h ?%elem_of_nil]. }
  apply Forall_cons in Hix as [Hi Hix]. destruct (lookup_lt_is_Some_2 _ _ Hi) as [h Hh].
  eapply (vreturns_bind (n + 7 * Z.of_nat (length ixs))).
  { apply (Hbody i h); try done; [lia|]. eapply room_weaken, Hroom. cbn [length]. lia. }
  { lia. }
  { intros e v' (Hv & Ha & Hrel) _. by split_and!. }
  intros [] v1 (Hv1 & Ha1 & Hh1) Hok1 Hroom1.
  eapply vreturns_mono; [apply (IH n v1 HI Hbody Hix Hok1 Hn Hroom1)|].
  { by rewrite (proj1 (adv_room _ _ _ _ Ha1)). } { apply Ha1. } { rewrite Hv1. by apply HI. }
  intros r v' (Hv' & Ha' & Hpost) _. split_and!; [by rewrite Hv', Hv1|by eapply advances_trans|].
  destruct r as [[]|e].
  - intros j k [->|Hj]%elem_of_cons Hk; [|by eapply Hpost]. apply Ha'. congruence.
  - intros Hfree. apply Hpost. by apply Ha1.
Qed.

Lemma replay_block_spec sq i h n v :
  homes !! i = Some h → 0 ≤ n → cache_ok (vcache v) → room (n + 7) (vcache v) →
  plausible_layout sb (nblocks (vcache v)) → between_cache Old New (vcache v) → logged sb sq homes Old →
  vreturns n (Volume.replay_block sb (journal_start sb) (Z.of_nat i)) v (fun r v' =>
    v' = Volume.with_cache v (vcache v') ∧ advances Old New (vcache v) (vcache v') ∧
    match r with Ok _ => view (vcache v') h = New h | Err _ => ¬ able (vcache v) end).
Proof.
  intros Hi Hn Hok Hroom Hlay Hb Hlog. set (c := vcache v) in *.
  destruct (layout_fits sb (nblocks c)) as [Hfit Hj]; [done|by apply st_blocks_range|].
  pose proof (lookup_lt_Some _ _ _ Hi) as Hlt. pose proof (log_block_in i Hlt) as Hin.
  pose proof (st_blocks_range (store c)) as Hnb.
  destruct Hhomes as (_ & _ & Hf). pose proof (Forall_lookup_1 _ _ _ _ Hf Hi) as [Hh _].
  eapply (vreturns_bind (n + 5)); [apply vreturns_cache, answers_returns, (home_spec (n + 5) c sb i h (¬ able c))|lia| |].
  - done.
  - done.
  - split; [done|]. by eapply room_weaken, Hroom; lia.
  - lia.
  - rewrite <- (lg_home _ _ _ _ Hlog i h Hi). f_equal. eapply (log_untouched _ homes _ New); [done|done|apply Hb|split; lia].
  - done.
  - intros b Hbj. apply excused_able. unfold plausible_layout, in_journal in *. lia.
  - intros e v' (Hv & Hse & HE) Hok'. split_and!; [done|by apply advances_settles|done].
  - intros d v1 (Hv1 & Hse1 & ->) Hok1 Hroom1.
    assert (Ha1 : advances Old New c (vcache v1)) by by apply advances_settles.
    eapply vreturns_pout.
    { unfold add_checked. unfold in_journal, plausible_layout in *.
      rewrite checked_ok by (unfold in_width; lia). cbn [mbind outcome_bind].
      rewrite checked_ok by (unfold in_width; lia). done. }
    eapply vreturns_mono; [apply vreturns_cache, (home_copy_spec n (vcache v1) i h); try done|].
    { by rewrite (proj1 (adv_room _ _ _ _ Ha1)). } { apply Ha1. }
    intros r v' (Hv' & Ha' & Hpost) _. split_and!; [by rewrite Hv', Hv1|by eapply advances_trans|].
    destruct r as [[]|e]; [done|]. intros Hfree. apply Hpost. by apply Ha1.
Qed.

Lemma apply_block_spec i h n v :
  homes !! i = Some h → 0 ≤ n → cache_ok (vcache v) → room (n + 7) (vcache v) →
  plausible_layout sb (nblocks (vcache v)) → between_cache Old New (vcache v) →
  vsuper v = sb → take (vcount v) (staged v) = homes →
  vreturns n (Volume.apply_block i) v (fun r v' =>
    v' = Volume.with_cache v (vcache v') ∧ advances Old New (vcache v) (vcache v') ∧
    match r with Ok _ => view (vcache v') h = New h | Err _ => ¬ able (vcache v) end).
Proof.
  intros Hi Hn Hok Hroom Hlay Hb Hsb Hst.
  pose proof (lookup_lt_Some _ _ _ Hi) as Hlt. pose proof (log_block_in i Hlt) as Hin.
  pose proof (st_blocks_range (store (vcache v))) as Hnb. unfold in_journal in Hin.
  assert (Hstg : staged v !! i = Some h).
  { rewrite <- Hst in Hi. by apply lookup_take_Some in Hi as [Hi _]. }
  unfold vreturns, Volume.apply_block. rewrite (at_index_ok _ _ _ Hstg). cbn [mbind outcome_bind].
  enough (vreturns n (from ←! Volume.slot_block i; Volume.on_cache (Cache.copy from h)) v (fun r v' =>
    v' = Volume.with_cache v (vcache v') ∧ advances Old New (vcache v) (vcache v') ∧
    match r with Ok _ => view (vcache v') h = New h | Err _ => ¬ able (vcache v) end)) by done.
  assert (Hlay' := Hlay). unfold plausible_layout in Hlay'.
  assert (Hsl : Volume.slot_block i v = Done (Ok (journal_start sb + 1 + Z.of_nat i), v)).
  { rewrite <- Hsb. apply slot_block_ok; rewrite Hsb; lia. }
  unfold pbind, vreturns. rewrite Hsl. cbn [mbind outcome_bind].
  eapply vreturns_mono; [apply vreturns_cache, (home_copy_spec n (vcache v) i h); try done|].
  - by eapply room_weaken, Hroom; lia.
  - intros r v' (Hv' & Ha' & Hpost) _. by split_and!.
Qed.

(** ** Clearing the log *)

(** The log is empty and everything else is new. *)
Definition cleared (D : Z → list Z) : Prop :=
  D (journal_start sb) = replicate BLOCK 0 ∧ ∀ b, b ≠ journal_start sb → D b = New b.

Lemma clear_commit_spec n v :
  0 ≤ n → cache_ok (vcache v) → room (n + 66) (vcache v) → plausible_layout sb (nblocks (vcache v)) → vsuper v = sb →
  (∀ x, ¬ dirty_in (vcache v) x) → (∀ b, ondisk (vcache v) b = New b) →
  vreturns n Volume.clear_commit v (fun r v' =>
    v' = Volume.with_cache v (vcache v') ∧ same_room (vcache v) (vcache v') ∧
    ((∀ b, ondisk (vcache v') b = New b) ∨ cleared (ondisk (vcache v'))) ∧
    match r with
    | Ok _ => cleared (ondisk (vcache v')) ∧ ∀ x, ¬ dirty_in (vcache v') x
    | Err _ => ¬ able (vcache v)
    end).
Proof.
  intros Hn Hok Hroom Hlay Hsb Hclean Hdisk. set (c := vcache v) in *.
  destruct (layout_fits sb (nblocks c)) as [Hfit Hj]; [done|by apply st_blocks_range|].
  assert (Hjs : 0 ≤ journal_start sb < nblocks c) by (unfold plausible_layout in Hlay; lia).
  apply vreturns_super. rewrite Hsb.
  eapply vreturns_lift; [by apply journal_at_ok|].
  eapply (vreturns_bind (n + 64)); [apply vreturns_cache, (put_block_spec (n + 64) c (journal_start sb) (replicate BLOCK 0))|lia| |].
  - done.
  - lia.
  - by replace (n + 64 + 2) with (n + 66) by lia.
  - lia.
  - apply length_replicate.
  - intros e v' (Hv & Hse & Hex) Hok'. split_and!; [done|by apply drains_room, Hse| |].
    + left. intros b. destruct (dr_disk _ _ (se_drains _ _ Hse) b) as [->|[Hd _]]; [done|by destruct (Hclean b)].
    + eapply excused_able, Hex. lia.
  - intros [] v1 (Hv1 & _ & Hw) Hok1 Hroom1. set (c1 := vcache v1) in *.
    assert (Hr1 : same_room c c1) by (apply drains_room; [done|apply Hw]).
    assert (Hd1 : ∀ b, ondisk c1 b = New b).
    { intros b. destruct (dr_disk _ _ (wr_drains _ _ _ _ Hw) b) as [->|[Hd _]]; [done|by destruct (Hclean b)]. }
    assert (Hv : ∀ b, view c1 b = if decide (b = journal_start sb) then replicate BLOCK 0 else New b).
    { intros b. rewrite (wr_view _ _ _ _ Hw). case_decide; [done|]. rewrite view_clean by auto. apply Hdisk. }
    assert (Hdone : ∀ c2, settles c1 c2 → (∀ b, ondisk c2 b = New b) ∨ cleared (ondisk c2)).
    { intros c2 Hse. pose proof (dr_disk _ _ (se_drains _ _ Hse)) as Hd.
      assert (Hother : ∀ b, b ≠ journal_start sb → ondisk c2 b = New b).
      { intros b Hb. destruct (Hd b) as [->|[_ ->]]; [done|]. by rewrite Hv, decide_False. }
      destruct (Hd (journal_start sb)) as [Hjd|[_ Hjd]].
      - left. intros b. destruct (decide (b = journal_start sb)) as [->|Hb]; [by rewrite Hjd|auto].
      - right. split; [|done]. by rewrite Hjd, Hv, decide_True. }
    eapply (vreturns_bind n); [apply vreturns_cache, (flush_spec n c1); [done|done|done]|lia| |].
    + intros e v2 (Hv2 & Hse & Hrel) Hok2. split_and!; [by rewrite Hv2, Hv1|etrans; [done|by apply drains_room, Hse]|auto|].
      by eapply room_failed, failed_able.
    + intros w v2 (Hv2 & Hse & Hcl) Hok2 Hroom2. apply vreturns_ret; [done|done|].
      split_and!; [by rewrite Hv2, Hv1|etrans; [done|by apply drains_room, Hse]|auto| |done].
      split.
      * rewrite <- view_clean by auto. by rewrite (se_view _ _ Hse), Hv, decide_True.
      * intros b Hb. rewrite <- view_clean by auto. by rewrite (se_view _ _ Hse), Hv, decide_False.
Qed.

(** Flushing once every page is new. *)
Lemma flush_new_spec n v :
  0 ≤ n → cache_ok (vcache v) → room (n + 64) (vcache v) → between_cache Old New (vcache v) →
  (∀ b, view (vcache v) b = New b) →
  vreturns n (Volume.on_cache Cache.flush) v (fun r v' =>
    v' = Volume.with_cache v (vcache v') ∧ same_room (vcache v) (vcache v') ∧
    between Old New (ondisk (vcache v')) ∧
    match r with
    | Ok _ => (∀ x, ¬ dirty_in (vcache v') x) ∧ ∀ b, ondisk (vcache v') b = New b
    | Err _ => ¬ able (vcache v)
    end).
Proof.
  intros Hn Hok Hroom Hb Hview. eapply vreturns_mono; [apply vreturns_cache, (flush_spec n); done|].
  intros r v' (Hv & Hse & Hpost) Hok'. split_and!; [done|by apply drains_room, Hse|by eapply between_settles|].
  destruct r as [w|e]; [|by apply failed_able]. split; [done|]. intros b. rewrite <- view_clean by auto. by rewrite (se_view _ _ Hse).
Qed.

(** Every home new makes every block new. *)
Lemma all_homes_new c : between_cache Old New c → (∀ i h, homes !! i = Some h → view c h = New h) → ∀ b, view c b = New b.
Proof.
  intros Hb Hh b. destruct (decide (b ∈ homes)) as [Hin|Hout].
  - apply list_elem_of_lookup_1 in Hin as [i Hi]. by eapply Hh.
  - destruct (bc_view _ _ _ Hb b) as [->| ->]; [|done]. symmetry. by apply Hnew.
Qed.

(** ** Recovery *)
Lemma seqZ_seq (m : nat) : seqZ 0 (Z.of_nat m) = Z.of_nat <$> seq 0 m.
Proof. unfold seqZ. rewrite Nat2Z.id. apply list_fmap_ext. intros. lia. Qed.

Lemma recover_logged_spec n v sq :
  0 ≤ n → cache_ok (vcache v) → room (n + 208) (vcache v) → plausible_layout sb (nblocks (vcache v)) → vsuper v = sb →
  logged sb sq homes Old → between_cache Old New (vcache v) →
  vreturns n Volume.recover v (fun r v' =>
    same_room (vcache v) (vcache v') ∧
    (between Old New (ondisk (vcache v')) ∨ cleared (ondisk (vcache v'))) ∧
    match r with
    | Ok k => k = Z.of_nat (length homes) ∧ cleared (ondisk (vcache v'))
    | Err _ => ¬ able (vcache v)
    end).
Proof.
  intros Hn Hok Hroom Hlay Hsb Hlog Hb. set (c := vcache v) in *.
  destruct (layout_fits sb (nblocks c)) as [Hfit Hj]; [done|by apply st_blocks_range|].
  assert (Hlogv : ∀ c, between_cache Old New c → ∀ b, in_journal sb b → view c b = Old b).
  { intros c' Hb' b. eapply log_untouched; [done|done|apply Hb']. }
  apply vreturns_super. rewrite Hsb.
  eapply (vreturns_bind (n + 186)); [apply vreturns_cache, answers_returns, (committed_spec (n + 186) c sb (¬ able c))|lia| |].
  - done.
  - done.
  - split; [done|]. by eapply room_weaken, Hroom; lia.
  - lia.
  - intros b Hbj. apply excused_able. unfold plausible_layout, in_journal in *. lia.
  - intros e v' (Hv & Hse & HE) Hok'. split_and!; [by apply drains_room, Hse|left; by eapply between_settles|done].
  - intros found v1 (Hv1 & Hse1 & ->) Hok1 Hroom1.
    assert (Ha1 : advances Old New c (vcache v1)) by by apply advances_settles.
    assert (Hco : commit_of (contents c) sb = Some (MkCommit sq (Z.of_nat (length homes)))).
    { eapply commit_of_ext; [apply Hlog|by apply Hlogv|done]. }
    rewrite Hco. cbn [ccount sequence].
    set (v2 := MkVolume (vcache v1) (vsuper v1) sq (staged v1) (vcount v1)).
    eapply (vreturns_bind (n + 186) n _ _ _ (fun r v' => r = Ok () ∧ v' = v2)); [by exists (Ok ()), v2|lia|by intros e v' [? _]|].
    intros [] v' [_ ->] Hok2 Hroom2. eapply vreturns_lift; [by apply journal_at_ok|].
    assert (Hlay1 : plausible_layout sb (nblocks (vcache v1))) by (by rewrite (proj1 (adv_room _ _ _ _ Ha1))).
    assert (Hsz : Z.of_nat (length homes) ≤ 8) by (destruct Hhomes as (Hl & _); unfold MAX_STAGED in Hl; lia).
    eapply (vreturns_bind (n + 130)).
    { eapply vreturns_ext; [by rewrite seqZ_seq; apply pfor_fmap|].
      apply (homes_loop_spec (fun _ => True) _ _ (n + 130) v2); try done; [| |lia| |apply Ha1].
      - intros i h m w Hi Hm Hokw Hrw Hlw Hbw _. by apply (replay_block_spec sq).
      - apply Forall_seq. lia.
      - rewrite length_seq. eapply room_weaken, Hroom2. lia. }
    { lia. }
    { intros e v3 (Hv3 & Ha3 & Hrel) _. split_and!; [etrans; [apply Ha1|apply Ha3]|left; apply Ha3|].
      intros Hfree. apply Hrel. by apply Ha1. }
    intros [] v3 (Hv3 & Ha3 & Hall) Hok3 Hroom3.
    assert (Hsr3 : same_room c (vcache v3)) by (etrans; [apply Ha1|apply Ha3]).
    eapply (vreturns_bind (n + 66)); [apply (flush_new_spec (n + 66) v3); [lia|done|by eapply room_weaken, Hroom3; lia|apply Ha3|]|lia| |].
    { apply all_homes_new; [apply Ha3|]. intros i h Hi. apply (Hall i h); [|done].
      apply elem_of_seq. apply lookup_lt_Some in Hi. lia. }
    { intros e v4 (Hv4 & Hr4 & Hb4 & Hrel) _. split_and!; [by etrans|by left|by eapply room_failed]. }
    intros w v4 (Hv4 & Hr4 & _ & Hclean & Hdisk) Hok4 Hroom4.
    assert (Hsr4 : same_room c (vcache v4)) by by etrans.
    eapply (vreturns_bind n); [apply (clear_commit_spec n v4); try done|lia| |].
    { by rewrite (proj1 Hsr4). } { rewrite Hv4, Hv3. simpl. by rewrite Hv1. }
    { intros e v5 (Hv5 & Hr5 & Hcases & Hrel) _. split_and!; [by etrans| |].
      - destruct Hcases as [Hd|?]; [left|by right]. intros b. right. apply Hd.
      - intros Hfree. apply Hrel. by apply Hsr4. }
    intros [] v5 (Hv5 & Hr5 & _ & Hcl & _) Hok5 Hroom5. apply vreturns_ret; [done|done|].
    split_and!; [by etrans|by right|done|done].
Qed.

Lemma recover_idle_spec n v :
  0 ≤ n → cache_ok (vcache v) → room (n + 22) (vcache v) → plausible_layout sb (nblocks (vcache v)) → vsuper v = sb →
  idle sb (view (vcache v)) →
  vreturns n Volume.recover v (fun r v' => settles (vcache v) (vcache v') ∧
    match r with Ok k => k = 0 | Err _ => ¬ able (vcache v) end).
Proof.
  intros Hn Hok Hroom Hlay Hsb Hidle. set (c := vcache v) in *.
  destruct (layout_fits sb (nblocks c)) as [Hfit Hj]; [done|by apply st_blocks_range|].
  apply vreturns_super. rewrite Hsb.
  eapply (vreturns_bind n); [apply vreturns_cache, answers_returns, (committed_spec n c sb (¬ able c)); try done|lia| |].
  - intros b Hbj. apply excused_able. unfold plausible_layout, in_journal in *. lia.
  - by intros e v' (_ & Hse & HE) _.
  - intros found v1 (Hv1 & Hse1 & ->) Hok1 Hroom1. simpl contents. rewrite (idle_commit sb) by done.
    by apply vreturns_ret.
Qed.

(** What mounting does to the device, from a fresh cache: [Q] is what the
    recovery leaves, and with a device that works the mount succeeds and leaves
    [R]. *)
Lemma mount_spec c (Q R : (Z → list Z) → Prop) (k : Z) :
  cache_ok c → room 210 c → two_free c → (∀ x, ¬ dirty_in c x) →
  Superblock.read_head (ondisk c 0) (nblocks c) = Ok sb → 0 < nblocks c →
  (∀ c', cache_ok c' → room 208 c' → settles c c' →
     vreturns 0 Volume.recover (MkVolume c' sb 0 (replicate MAX_STAGED 0) 0) (fun r v' =>
       same_room c' (vcache v') ∧ Q (ondisk (vcache v')) ∧
       match r with Ok j => j = k ∧ R (ondisk (vcache v')) | Err _ => ¬ able c' end)) →
  (∀ D', (∀ b, D' b = ondisk c b) → Q D') →
  ∃ r dev, Volume.mount c = Done (r, dev) ∧ st_blocks dev = nblocks c ∧ Q (disk dev) ∧
    (dependable (store c) → ∃ v, r = Ok (v, k) ∧ R (disk dev)).
Proof.
  intros Hok Hroom Hfree Hclean Hsuper Hnb Hrec HQ.
  destruct (page_spec 208 c 0 Hok) as (r & c1 & Hc1 & Hok1 & Hr1 & Hse & Hpost); [lia|done|lia|].
  unfold Volume.mount. rewrite Hc1. cbn [mbind outcome_bind]. destruct r as [head|e].
  - destruct Hpost as [_ ->]. rewrite view_clean by auto. rewrite Hsuper.
    destruct (Hrec c1 Hok1 Hr1 Hse) as (r & v & Hv & Hok2 & _ & Hsr & HQ' & Hres). rewrite Hv. cbn [mbind outcome_bind].
    assert (Hsr1 : same_room c c1) by (apply drains_room; [done|apply Hse]).
    eexists _, _. split; [done|]. split; [|split; [done|]].
    { rewrite (proj1 Hsr). apply Hsr1. }
    intros Hrel. destruct r as [j|e]; [destruct Hres as [-> ?]; eauto|]. destruct Hres. by apply Hsr1.
  - eexists _, _. split; [done|]. split; [apply Hse|]. split.
    + apply HQ. intros b. destruct (dr_disk _ _ (se_drains _ _ Hse) b) as [->|[Hd _]]; [done|by destruct (Hclean b)].
    + intros Hrel. by destruct (excused_able c 0 Hnb Hpost).
Qed.

End Crash.

(** ** Committing *)
Section Commit.
Context {S : Type} `{!Store S} `{!StoreLaws S}.
Implicit Types (c : Cache S) (v : Volume S).

Abbreviation nblocks c := (st_blocks (store c)).
Abbreviation ondisk c := (disk (store c)).

(** The blocks a transaction is about to change. *)
Definition homes_of v : list Z := take (vcount v) (staged v).

(** A volume with a transaction staged: the log is idle, the staged blocks have
    homes of their own outside the journal, and neither the superblock nor the
    commit block has been changed in place. *)
Record staged_ok v : Prop := {
  sg_cache : cache_ok (vcache v);
  sg_layout : plausible_layout (vsuper v) (nblocks (vcache v));
  sg_idle : idle (vsuper v) (ondisk (vcache v));
  sg_sequence : 0 < vsequence v < 2 ^ 64;
  sg_staged : length (staged v) = MAX_STAGED;
  sg_count : (0 < vcount v ≤ MAX_STAGED)%nat;
  sg_homes : homes_ok (vsuper v) (homes_of v);
  sg_distinct : NoDup (homes_of v);
  sg_settled b : b = 0 ∨ b = journal_start (vsuper v) → view (vcache v) b = ondisk (vcache v) b
}.

(** An order the caller may ask for: any permutation of the staged blocks, or a
    list of another length, which is ignored. *)
Definition order_ok (order : list nat) (n : nat) : Prop := length order = n → order ≡ₚ seq 0 n.

(** The device with the transaction logged and nothing applied, and with every
    block at its home. *)
Definition log_state v (head : list Z) : Z → list Z := fun b =>
  if decide (b = journal_start (vsuper v)) then commit_page head else view (vcache v) b.
Definition new_state v (head : list Z) : Z → list Z := fun b =>
  match position (Z.eqb b) (homes_of v) with
  | Some i => view (vcache v) (journal_start (vsuper v) + 1 + Z.of_nat i)
  | None => log_state v head b
  end.

(** The device before the commit: pages that had been changed in place may have
    reached it. *)
Definition untouched v (D : Z → list Z) : Prop :=
  ∀ b, D b = ondisk (vcache v) b ∨ dirty_in (vcache v) b ∧ D b = view (vcache v) b.

(** Where a commit can leave the device. *)
Definition commit_leaves v (D : Z → list Z) : Prop :=
  untouched v D ∨
  ∃ head, logged (vsuper v) (vsequence v) (homes_of v) (log_state v head) ∧
    (between (log_state v head) (new_state v head) D ∨ cleared (vsuper v) (new_state v head) D).

Lemma length_homes v : staged_ok v → length (homes_of v) = vcount v.
Proof. intros Hs. unfold homes_of. rewrite length_take, (sg_staged _ Hs). pose proof (sg_count _ Hs). lia. Qed.

Lemma new_state_applied v head : staged_ok v → applied (vsuper v) (homes_of v) (log_state v head) (new_state v head).
Proof.
  intros Hs. split.
  - intros i h Hi. unfold new_state.
    assert (Hpos : position (Z.eqb h) (homes_of v) = Some i).
    { apply position_some. split; [exists h; split; [done|apply Z.eqb_refl]|].
      intros j x Hj Hx. apply Z.eqb_neq. intros <-. pose proof (NoDup_lookup _ _ _ _ (sg_distinct _ Hs) Hi Hx). lia. }
    rewrite Hpos. unfold log_state. rewrite decide_False by lia. done.
  - intros b Hb. unfold new_state. destruct (position _ _) as [i|] eqn:Hp; [|done].
    apply position_some in Hp as [(x & Hx & Hbx) _]. apply Z.eqb_eq in Hbx. subst x.
    destruct Hb. by eapply list_elem_of_lookup_2.
Qed.

Lemma untouched_settles v c' : settles (vcache v) c' → untouched v (ondisk c').
Proof. intros Hse b. apply (dr_disk _ _ (se_drains _ _ Hse) b). Qed.

Lemma apply_order_ok order v :
  order_ok order (vcount v) → Volume.apply_order order (vcount v) ≡ₚ seq 0 (vcount v).
Proof. intros Ho. unfold Volume.apply_order. case_decide; auto. Qed.

(** The pages as they are after the first flush, viewed from the start. *)
Record flushed v c : Prop := {
  fl_room : same_room (vcache v) c;
  fl_clean x : ¬ dirty_in c x;
  fl_view b : view c b = view (vcache v) b
}.

Lemma flushed_disk v c b : cache_ok c → flushed v c → ondisk c b = view (vcache v) b.
Proof. intros Hok [_ Hc Hv]. by rewrite <- view_clean, Hv. Qed.

Lemma flushed_settles v c c' : cache_ok c' → settles c c' → flushed v c → flushed v c'.
Proof.
  intros Hok' Hse [Hr Hc Hv]. split.
  - etrans; [done|]. by apply drains_room, Hse.
  - intros x Hx. by apply (Hc x), Hse.
  - intros b. by rewrite (se_view _ _ Hse).
Qed.

Lemma view_or_dirty c b : cache_ok c → view c b = ondisk c b ∨ dirty_in c b.
Proof.
  intros Hok. unfold view. destruct (Cache.resident c b) as [i|] eqn:Hr; [|by left].
  destruct (resident_some _ _ _ Hr) as (s & Hi & Hb). destruct (dirty s) eqn:Hd; [right; by exists i, s|left].
  destruct (ok_cells _ Hok i s Hi) as [_ Hc]. rewrite Hb in Hc. by apply Hc.
Qed.

Lemma all_flushed_untouched v D : staged_ok v → (∀ b, D b = view (vcache v) b) → untouched v D.
Proof.
  intros Hs HD b. rewrite HD. destruct (view_or_dirty (vcache v) b (sg_cache _ Hs)) as [->|Hd]; [by left|by right].
Qed.

(** Phase two: the commit block.  The device is untouched until the flush, and
    after it the transaction is logged. *)
Lemma commit_page_spec n v w head :
  staged_ok v → flushed v (vcache w) → cache_ok (vcache w) → 0 ≤ n → room (n + 66) (vcache w) →
  sealed (view (vcache w)) (vsuper v) (vsequence v) (homes_of v) head →
  vreturns n (page' ←! Volume.on_cache (Cache.edit (journal_start (vsuper v)));
              _ ←! Volume.update_page page' (fun bytes =>
                ok_or (put (replicate (length bytes) 0) 0 head) OutOfRange);
              Volume.on_cache Cache.flush) w (fun r w' =>
    w' = Volume.with_cache w (vcache w') ∧ same_room (vcache w) (vcache w') ∧
    (untouched v (ondisk (vcache w')) ∨ ∀ b, ondisk (vcache w') b = log_state v head b) ∧
    match r with
    | Ok _ => (∀ x, ¬ dirty_in (vcache w') x) ∧ ∀ b, ondisk (vcache w') b = log_state v head b
    | Err _ => ¬ able (vcache w)
    end).
Proof.
  intros Hs Hfl Hok Hn Hroom [Hhl _]. set (js := journal_start (vsuper v)). set (c := vcache w) in *.
  assert (Hjs : 0 ≤ js < nblocks c).
  { rewrite (proj1 (fl_room _ _ Hfl)). pose proof (sg_layout _ Hs) as Hl. unfold plausible_layout in Hl. lia. }
  assert (Hun : ∀ c', settles c c' → untouched v (ondisk c')).
  { intros c' Hse. apply all_flushed_untouched; [done|]. intros b.
    destruct (dr_disk _ _ (se_drains _ _ Hse) b) as [->|[Hd _]]; [by apply flushed_disk|by destruct (fl_clean _ _ Hfl b)]. }
  eapply (vreturns_bind (n + 64)); [apply vreturns_cache, (edit_spec (n + 64) c js); [done|lia|by replace (n + 64 + 2) with (n + 66) by lia|lia]|lia| |].
  { intros e w' (Hw & Hse & Hex) Hok'. split_and!; [done|by apply drains_room, Hse|left; by apply Hun|].
    eapply excused_able, Hex. lia. }
  intros i w1 (Hw1 & _ & Hwr & s & Hi & Hsb & Hsd) Hok1 Hroom1. set (c1 := vcache w1) in *.
  destruct (frame_done c1 i (ok_shape _ Hok1) (proj1 Hi)) as [Hfr Hfl1].
  assert (Hput : put (replicate BLOCK 0) 0 head = Some (commit_page head)).
  { pose proof head_in_block. rewrite put_ok by (rewrite length_replicate; lia). unfold splice, commit_page.
    rewrite take_0, Nat.add_0_l, Hhl, drop_replicate. done. }
  assert (Hcl : length (commit_page head) = BLOCK).
  { unfold commit_page. rewrite length_app, length_replicate, Hhl. pose proof head_in_block. lia. }
  eapply (vreturns_bind (n + 64) _ _ _ _ (fun r w2 => r = Ok () ∧ w2 = Volume.with_cache w (vcache w2) ∧
      store (vcache w2) = store c1 ∧ writes c1 js (commit_page head) (vcache w2))).
  { destruct (set_page_spec (n + 64) c1 i s js (commit_page head)) as (r & c2 & Hc2 & Hok2 & Hr2 & -> & Hst & Hw2); try done.
    exists (Ok ()), (Volume.with_cache w1 c2). unfold Volume.update_page, Volume.on_cache. fold c1. rewrite Hfr. cbn [mbind outcome_bind].
    rewrite Hfl1, Hput. cbn [ok_or]. rewrite Hc2. split_and!; try done. by rewrite Hw1. }
  { lia. } { by intros e w2 [? _]. }
  intros [] w2 (_ & Hw2 & Hst2 & Hwr2) Hok2 Hroom2. set (c2 := vcache w2) in *.
  assert (Hd1 : ∀ b, ondisk c1 b = view (vcache v) b).
  { intros b. destruct (dr_disk _ _ (wr_drains _ _ _ _ Hwr) b) as [->|[Hd _]]; [by apply flushed_disk|by destruct (fl_clean _ _ Hfl b)]. }
  assert (Hd2 : ∀ b, ondisk c2 b = view (vcache v) b) by (intros b; by rewrite Hst2).
  assert (Hv2 : ∀ b, view c2 b = log_state v head b).
  { intros b. rewrite (wr_view _ _ _ _ Hwr2). unfold log_state. fold js. case_decide; [done|].
    rewrite (wr_view _ _ _ _ Hwr), decide_False by done. apply Hfl. }
  assert (Hdirty : ∀ x, dirty_in c2 x → x = js).
  { intros x Hx. apply (wr_dirty _ _ _ _ Hwr2) in Hx as [Hx|?]; [|done].
    apply (wr_dirty _ _ _ _ Hwr) in Hx as [Hx|?]; [by destruct (fl_clean _ _ Hfl x)|done]. }
  assert (Hsr2 : same_room c c2).
  { etrans; [apply (drains_room c c1); [done|apply Hwr]|]. by apply drains_room, Hwr2. }
  eapply vreturns_mono; [apply vreturns_cache, (flush_spec n c2); done|].
  intros r w3 (Hw3 & Hse & Hpost) Hok3. split_and!; [by rewrite Hw3, Hw2|etrans; [done|by apply drains_room, Hse]| |].
  - destruct (dr_disk _ _ (se_drains _ _ Hse) js) as [Hj|[_ Hj]].
    + left. apply all_flushed_untouched; [done|]. intros b. destruct (decide (b = js)) as [->|Hb]; [by rewrite Hj|].
      destruct (dr_disk _ _ (se_drains _ _ Hse) b) as [->|[Hx _]]; [done|by destruct Hb; apply Hdirty].
    + right. intros b. destruct (decide (b = js)) as [->|Hb]; [by rewrite Hj, Hv2|].
      destruct (dr_disk _ _ (se_drains _ _ Hse) b) as [->|[_ ->]]; [|by rewrite Hv2].
      rewrite Hd2. unfold log_state. by rewrite decide_False.
  - destruct r as [k|e]; [|by eapply room_failed, failed_able]. split; [done|]. intros b. rewrite <- view_clean by auto. by rewrite (se_view _ _ Hse), Hv2.
Qed.

(** Phases three to five: home, flush, clear. *)
Lemma apply_spec n v w head order :
  staged_ok v → order_ok order (vcount v) → cache_ok (vcache w) → 0 ≤ n → room (n + 186) (vcache w) →
  vsuper w = vsuper v → homes_of w = homes_of v → plausible_layout (vsuper v) (nblocks (vcache w)) →
  between_cache (log_state v head) (new_state v head) (vcache w) →
  vreturns n (_ ←! pfor Volume.apply_block (Volume.apply_order order (vcount v));
              _ ←! Volume.on_cache Cache.flush; Volume.clear_commit) w (fun r w' =>
    w' = Volume.with_cache w (vcache w') ∧
    (between (log_state v head) (new_state v head) (ondisk (vcache w')) ∨ cleared (vsuper v) (new_state v head) (ondisk (vcache w'))) ∧
    match r with
    | Ok _ => same_room (vcache w) (vcache w') ∧ cleared (vsuper v) (new_state v head) (ondisk (vcache w')) ∧
        ∀ x, ¬ dirty_in (vcache w') x
    | Err _ => ¬ able (vcache w)
    end).
Proof.
  intros Hs Ho Hok Hn Hroom Hsup Hhm Hlay Hb.
  pose proof (new_state_applied v head Hs) as Hnew. pose proof (sg_homes _ Hs) as Hhomes.
  pose proof (apply_order_ok _ _ Ho) as Hperm. pose proof (length_homes v Hs) as Hlen.
  assert (Hol : Z.of_nat (length (Volume.apply_order order (vcount v))) ≤ 8).
  { rewrite Hperm, length_seq. pose proof (sg_count _ Hs). unfold MAX_STAGED in *. lia. }
  eapply (vreturns_bind (n + 130)).
  { apply (homes_loop_spec (vsuper v) (homes_of v) (log_state v head) (new_state v head)
      (fun u => vsuper u = vsuper v ∧ take (vcount u) (staged u) = homes_of v)); try done; [| |lia|].
    - intros i h m u Hi Hm Hoku Hru Hlu Hbu [Hsu Htu]. by apply (apply_block_spec (vsuper v) (homes_of v)).
    - rewrite Hperm, Hlen. apply Forall_seq. lia.
    - eapply room_weaken, Hroom. lia. }
  { lia. }
  { intros e w1 (Hw1 & Ha1 & Hrel) _. split_and!; [done|left; apply Ha1|done]. }
  intros [] w1 (Hw1 & Ha1 & Hall) Hok1 Hroom1.
  eapply (vreturns_bind (n + 66)); [apply (flush_new_spec (log_state v head) (new_state v head) (n + 66) w1); [lia|done|by eapply room_weaken, Hroom1; lia|apply Ha1|]|lia| |].
  { apply (all_homes_new (vsuper v) (homes_of v) (log_state v head)); [done|apply Ha1|]. intros i h Hi. apply (Hall i h); [|done].
    rewrite Hperm. apply elem_of_seq. apply lookup_lt_Some in Hi. lia. }
  { intros e w2 (Hw2 & Hr2 & Hb2 & Hrel) _. split_and!; [by rewrite Hw2, Hw1|by left|]. eapply room_failed, Hrel. apply Ha1. }
  intros k w2 (Hw2 & Hr2 & _ & Hclean & Hdisk) Hok2 Hroom2.
  assert (Hsr : same_room (vcache w) (vcache w2)) by (etrans; [apply Ha1|done]).
  eapply vreturns_mono; [apply (clear_commit_spec (vsuper v) (new_state v head) n w2); try done|].
  { by rewrite (proj1 Hsr). } { by rewrite Hw2, Hw1. }
  intros r w3 (Hw3 & Hr3 & Hcases & Hpost) _. split_and!; [by rewrite Hw3, Hw2, Hw1| |].
  - destruct Hcases as [Hd|?]; [left|by right]. intros b. right. apply Hd.
  - destruct r as [[]|e]; [split; [by etrans|done]|]. intros Hfree. apply Hpost. by apply Hsr.
Qed.

(** What a commit does, wherever the device stops. *)
Lemma commit_spec n v order :
  staged_ok v → order_ok order (vcount v) → 0 ≤ n → room (n + 332) (vcache v) →
  vreturns n (Volume.commit order) v (fun r v' =>
    commit_leaves v (ondisk (vcache v')) ∧
    match r with
    | Ok _ => (∃ head, cleared (vsuper v) (new_state v head) (ondisk (vcache v'))) ∧
        (∀ x, ¬ dirty_in (vcache v') x) ∧ same_room (vcache v) (vcache v') ∧
        vsuper v' = vsuper v ∧ staged v' = staged v
    | Err _ => ¬ able (vcache v)
    end).
Proof.
  intros Hs Ho Hn Hroom. set (c := vcache v) in *. pose proof (sg_cache _ Hs) as Hok.
  pose proof (sg_layout _ Hs) as Hlay. fold c in Hlay.
  destruct (layout_fits (vsuper v) (nblocks c)) as [Hfit Hj]; [done|by apply st_blocks_range|].
  pose proof (length_homes v Hs) as Hlen. pose proof (sg_count _ Hs) as Hcnt.
  pose proof (sg_homes _ Hs) as (Hhl & Hhj & Hhf).
  unfold vreturns, Volume.commit. rewrite decide_False by lia. fold (vreturns (A:=unit)).
  eapply (vreturns_bind (n + 268)); [apply vreturns_cache, (flush_spec (n + 268) c); [done|lia|by replace (n + 268 + 64) with (n + 332) by lia]|lia| |].
  { intros e v1 (Hv1 & Hse & Hrel) _. split; [left; by apply untouched_settles|by apply failed_able]. }
  intros k v1 (Hv1 & Hse1 & Hclean1) Hok1 Hroom1.
  assert (Hfl1 : flushed v (vcache v1)).
  { split; [by apply drains_room, Hse1|done|apply Hse1]. }
  eapply (vreturns_bind (n + 252)); [apply vreturns_cache, answers_returns,
    (build_commit_spec (n + 252) (vcache v1) (vsuper v) (vsequence v) (homes_of v) (¬ able c)); try done|lia| |].
  { intros Hnil. rewrite Hnil in Hlen. simpl in Hlen. lia. }
  { apply sg_sequence, Hs. }
  { eapply Forall_impl; [exact Hhf|]. intros h [Hh _]. unfold in_width, plausible_layout in *. pose proof (st_blocks_range (store c)). lia. }
  { split; [done|]. by eapply room_weaken, Hroom1; lia. }
  { lia. }
  { intros b Hbj Hex. eapply room_failed, excused_able, Hex; [by apply (fl_room _ _ Hfl1)|].
    rewrite (proj1 (fl_room _ _ Hfl1)). fold c. unfold plausible_layout, in_journal in *. lia. }
  { intros e v2 (Hv2 & Hse & HE) Hok2. split; [|done]. left. apply all_flushed_untouched; [done|].
    intros b. apply flushed_disk; [done|]. by eapply flushed_settles. }
  intros head v2 (Hv2 & Hse2 & Hseal) Hok2 Hroom2.
  assert (Hfl2 : flushed v (vcache v2)) by by eapply flushed_settles.
  eapply vreturns_lift; [by apply journal_at_ok|].
  eapply vreturns_ext; [apply pbind_regroup|].
  assert (Hseal2 : sealed (view (vcache v2)) (vsuper v) (vsequence v) (homes_of v) head).
  { destruct Hseal as [Hh Hall]. split; [done|]. intros V' HV. apply Hall. intros b Hb. rewrite HV by done.
    apply (se_view _ _ Hse2). }
  eapply (vreturns_bind (n + 186)); [apply (commit_page_spec (n + 186) v v2 head); try done; [lia|by eapply room_weaken, Hroom2; lia]|lia| |].
  all: assert (Hlog : logged (vsuper v) (vsequence v) (homes_of v) (log_state v head)).
  1,3: destruct (proj2 Hseal2 (log_state v head)) as [Hco Hho]; [
    intros b Hb; unfold log_state; rewrite decide_False by lia; symmetry; apply Hfl2
    |unfold log_state; by rewrite decide_True|by split].
  { intros e v3 (Hv3 & Hr3 & Hcases & Hrel) _. split.
    - destruct Hcases as [?|Hd]; [by left|right]. exists head. split; [done|left]. intros b. left. apply Hd.
    - intros Hfree. apply Hrel. by apply (fl_room _ _ Hfl2). }
  intros k3 v3 (Hv3 & Hr3 & _ & Hclean3 & Hd3) Hok3 Hroom3.
  assert (Hsr3 : same_room c (vcache v3)) by (etrans; [apply Hfl2|done]).
  assert (Hfields : vsuper v3 = vsuper v ∧ homes_of v3 = homes_of v).
  { rewrite Hv3, Hv2, Hv1. done. }
  eapply vreturns_ext; [apply pbind_regroup|].
  eapply (vreturns_bind n); [apply (apply_spec n v v3 head order); try done; [apply Hfields|apply Hfields|by rewrite (proj1 Hsr3)|]|lia| |].
  { apply clean_between; [done| |done]. intros b. left. apply Hd3. }
  { intros e v4 (Hv4 & Hcases & Hrel) _. split; [right; by exists head|]. intros Hfree. apply Hrel. by apply Hsr3. }
  intros [] v4 (Hv4 & Hcases & Hr4 & Hcl & Hclean4) Hok4 Hroom4.
  exists (Ok ()), (MkVolume (vcache v4) (vsuper v4) (vsequence v4) (staged v4) 0).
  split_and!; try done; [right; by exists head|by exists head|by etrans|..]; simpl; by rewrite Hv4, Hv3, Hv2, Hv1.
Qed.

End Commit.

(** ** Crash, recovery, and recovery again *)

(** A mount of a device showing [D], succeeding or stopped anywhere, leaves it
    showing [D']. *)
Inductive remount (nb : Z) (D D' : Z → list Z) : Prop :=
| Remount (T : Type) (Hst : Store T) (Hlaws : StoreLaws T) (dev dev' : T) fr c r :
    st_blocks dev = nb → (∀ b, disk dev b = D b) → Cache.new fr dev = Ok c →
    Volume.mount c = Done (r, dev') → (∀ b, disk dev' b = D' b) → remount nb D D'.

(** Wherever the device was left, and however often the recovery is itself
    interrupted, a mount on a device that works succeeds and shows [Q]. *)
Definition recovers_to (nb : Z) (D : Z → list Z) (Q : (Z → list Z) → Prop) : Prop :=
  ∀ D', rtc (remount nb) D D' →
  ∀ (T : Type) (HT : Store T) (HL : StoreLaws T) (dev : T) fr c,
    dependable dev → st_blocks dev = nb → (∀ b, disk dev b = D' b) → Cache.new fr dev = Ok c →
    ∃ w k dev', Volume.mount c = Done (Ok (w, k), dev') ∧ Q (disk dev').

Lemma recovers_mono nb D (Q R : (Z → list Z) → Prop) : recovers_to nb D Q → (∀ D', Q D' → R D') → recovers_to nb D R.
Proof.
  intros H HQR D' Hrt T HT HL dev fr c HR Hnb HD Hnew.
  destruct (H D' Hrt T HT HL dev fr c HR Hnb HD Hnew) as (w & k & dev' & Hm & HQ). exists w, k, dev'. auto.
Qed.

(** A condition every mount keeps, and a mount on a working device turns into
    [Q], recovers to [Q]. *)
Lemma recovers_by (I Q : (Z → list Z) → Prop) nb :
  (∀ D D', (∀ b, D' b = D b) → I D → I D') →
  (∀ (T : Type) (HT : Store T) (HL : StoreLaws T) (dev : T) fr c,
     st_blocks dev = nb → I (disk dev) → Cache.new fr dev = Ok c →
     ∃ r dev', Volume.mount c = Done (r, dev') ∧ I (disk dev') ∧
       (dependable dev → ∃ w k, r = Ok (w, k) ∧ Q (disk dev'))) →
  ∀ D, I D → recovers_to nb D Q.
Proof.
  intros Hext Hmount D HI D' Hrt. induction Hrt as [D|D D1 D' H1 _ IH].
  - intros T HT HL dev fr c HR Hnb HD Hnew.
    destruct (Hmount T HT HL dev fr c Hnb) as (r & dev' & Hm & _ & Hrel); [by eapply Hext, HI; intros b|done|].
    destruct (Hrel HR) as (w & k & -> & HQ). by exists w, k, dev'.
  - apply IH. destruct H1 as [T HT HL dev dev' fr c r Hnb HD Hnew Hm HD1].
    destruct (Hmount T HT HL dev fr c Hnb) as (r' & dev2 & Hm' & HI' & _); [by eapply Hext, HI; intros b|done|].
    assert (dev2 = dev') as -> by congruence. eapply Hext, HI'. intros b. by rewrite HD1.
Qed.

(** A volume with an idle log mounts without a write. *)
Lemma mount_idle {T : Type} `{!Store T} `{!StoreLaws T} sb (dev : T) fr c :
  plausible_layout sb (st_blocks dev) → Superblock.read_head (disk dev 0) (st_blocks dev) = Ok sb →
  idle sb (disk dev) → Cache.new fr dev = Ok c →
  ∃ r dev', Volume.mount c = Done (r, dev') ∧ (∀ b, disk dev' b = disk dev b) ∧ (dependable dev → ∃ w, r = Ok (w, 0)).
Proof.
  intros Hlay Hsuper Hi Hnew. destruct (new_spec _ _ _ Hnew) as (Hok & Hroom & Hfree & Hst & Hclean & _).
  assert (Hv : ∀ b, view c b = disk dev b) by (intros b; by rewrite view_clean, Hst by auto).
  destruct (mount_spec sb c (fun D => ∀ b, D b = disk dev b) (fun _ => True) 0) as (r & dev' & Hm & _ & HD & Hrel); try done.
  - by eapply room_weaken, Hroom; lia.
  - by rewrite Hst.
  - rewrite Hst. unfold plausible_layout in Hlay. lia.
  - intros c' Hok' Hr' Hse. assert (Hd' : ∀ b, disk (store c') b = disk dev b).
    { intros b. destruct (dr_disk _ _ (se_drains _ _ Hse) b) as [->|[Hd _]]; [by rewrite Hst|by destruct (Hclean b)]. }
    eapply vreturns_mono; [apply (recover_idle_spec sb 0); try done|].
    + by eapply room_weaken, Hr'; lia.
    + simpl. by rewrite (dr_blocks _ _ (se_drains _ _ Hse)), Hst.
    + unfold idle. simpl. by rewrite (se_view _ _ Hse), Hv.
    + intros r w (Hsw & Hk) Hokw. split; [by apply drains_room, Hsw|]. split; [|by destruct r].
      intros b. simpl in Hsw. destruct (dr_disk _ _ (se_drains _ _ Hsw) b) as [->|[Hd _]]; [done|].
      apply (se_dirty _ _ Hse) in Hd. by destruct (Hclean b).
  - intros D' HD' b. by rewrite HD', Hst.
  - exists r, dev'. split_and!; [done|done|]. intros HR. destruct Hrel as (w & -> & _); [by rewrite Hst|]. by exists w.
Qed.

Lemma idle_ext sb D D' : D' (journal_start sb) = D (journal_start sb) → idle sb D → idle sb D'.
Proof. unfold idle. by intros ->. Qed.

(** With an idle log every block keeps what it holds. *)
Lemma idle_recovers sb nb D :
  plausible_layout sb nb → Superblock.read_head (D 0) nb = Ok sb → idle sb D →
  recovers_to nb D (fun D' => ∀ b, D' b = D b).
Proof.
  intros Hlay Hsuper Hi. apply (recovers_by (fun D' => ∀ b, D' b = D b)); [|..|done].
  - intros D1 D2 H12 H1 b. by rewrite H12.
  - intros T HT HL dev fr c <- HD Hnew.
    destruct (mount_idle sb dev fr c) as (r & dev' & Hm & Hsame & Hrel); [done|by rewrite HD|by apply (idle_ext sb D)|done|].
    exists r, dev'. split_and!; [done|intros b; by rewrite Hsame|]. intros HR. destruct Hrel as (w & ->); [done|].
    exists w, 0. split; [done|]. intros b. by rewrite Hsame.
Qed.

Section Atomicity.
Context {S : Type} `{!Store S} `{!StoreLaws S}.
Implicit Types (v : Volume S) (D : Z → list Z).

(** What every block holds once the transaction has happened. *)
Definition new_blocks v : Z → list Z := fun b =>
  match position (Z.eqb b) (homes_of v) with
  | Some i => view (vcache v) (journal_start (vsuper v) + 1 + Z.of_nat i)
  | None => view (vcache v) b
  end.

(** The transaction is on the device: logged and partly applied, or applied and
    the log cleared. *)
Inductive durable_state v D : Prop :=
| DLogged head : logged (vsuper v) (vsequence v) (homes_of v) (log_state v head) →
    between (log_state v head) (new_state v head) D → durable_state v D
| DAfter head : cleared (vsuper v) (new_state v head) D → durable_state v D.

Lemma zeros_idle sb D : D (journal_start sb) = replicate BLOCK 0 → idle sb D.
Proof.
  intros HD. unfold idle. rewrite HD. unfold u64_at, le_at. rewrite get_take.
  - rewrite drop_0, take_replicate. rewrite Nat.min_l by (rewrite block_value; lia). done.
  - rewrite length_replicate, block_value. lia.
Qed.

Lemma settled_block v b D :
  staged_ok v → b = 0 ∨ b = journal_start (vsuper v) → untouched v D → D b = disk (store (vcache v)) b.
Proof.
  intros Hs Hb HD. destruct (HD b) as [?|[_ ->]]; [done|]. by apply (sg_settled _ Hs).
Qed.

Lemma layout_start v : staged_ok v → 0 < journal_start (vsuper v) ∧ 0 < st_blocks (store (vcache v)).
Proof. intros Hs. pose proof (sg_layout _ Hs) as Hl. unfold plausible_layout in Hl. lia. Qed.

Lemma block_zero_states v head :
  staged_ok v → log_state v head 0 = disk (store (vcache v)) 0 ∧ new_state v head 0 = disk (store (vcache v)) 0.
Proof.
  intros Hs. pose proof (layout_start v Hs) as [Hj _].
  assert (Hl : log_state v head 0 = disk (store (vcache v)) 0).
  { unfold log_state. rewrite decide_False by lia. apply (sg_settled _ Hs). by left. }
  split; [done|]. rewrite (apd_other _ _ _ _ (new_state_applied v head Hs)); [done|].
  intros Hin. destruct (sg_homes _ Hs) as (_ & _ & Hf). rewrite Forall_forall in Hf. destruct (Hf 0 Hin). lia.
Qed.

Lemma new_state_blocks v head b : b ≠ journal_start (vsuper v) → new_state v head b = new_blocks v b.
Proof.
  intros Hb. unfold new_state, new_blocks, log_state. destruct (position _ _); [done|]. by rewrite decide_False.
Qed.

(** A volume whose superblock is the device's. *)
Definition super_on_disk v : Prop :=
  Superblock.read_head (disk (store (vcache v)) 0) (st_blocks (store (vcache v))) = Ok (vsuper v).

(** Without a committed log the device stays as it was, pages changed in place
    apart. *)
Lemma untouched_recovers v D :
  staged_ok v → super_on_disk v → untouched v D → recovers_to (st_blocks (store (vcache v))) D (untouched v).
Proof.
  intros Hs Hsuper Hun. pose proof (settled_block v 0 D Hs (or_introl eq_refl) Hun) as H0.
  eapply recovers_mono; [apply (idle_recovers (vsuper v)); [apply Hs|by rewrite H0|]|].
  - eapply (idle_ext _ (disk (store (vcache v)))); [|apply Hs]. by apply settled_block; auto.
  - intros D' HD' b. rewrite HD'. apply Hun.
Qed.

Lemma durable_ext v D D' : (∀ b, D' b = D b) → durable_state v D → durable_state v D'.
Proof.
  intros HDD [head Hl Hb|head [Hc1 Hc2]]; [apply (DLogged _ _ head); [done|]|apply (DAfter _ _ head)].
  - intros b. rewrite HDD. apply Hb.
  - split; [by rewrite HDD|]. intros b Hb. rewrite HDD. auto.
Qed.

(** Mounting a device with the transaction logged: it stays there, and a device
    that works ends with every block at its home. *)
Lemma mount_logged {T : Type} `{!Store T} `{!StoreLaws T} v (dev : T) fr c head :
  staged_ok v → super_on_disk v → st_blocks dev = st_blocks (store (vcache v)) → Cache.new fr dev = Ok c →
  logged (vsuper v) (vsequence v) (homes_of v) (log_state v head) → between (log_state v head) (new_state v head) (disk dev) →
  ∃ r dev', Volume.mount c = Done (r, dev') ∧ durable_state v (disk dev') ∧
    (dependable dev → ∃ w k, r = Ok (w, k) ∧ cleared (vsuper v) (new_state v head) (disk dev')).
Proof.
  intros Hs Hsuper Hnb Hnew Hlog Hbt. destruct (new_spec _ _ _ Hnew) as (Hok & Hroom & Hfree & Hst & Hclean & _).
  pose proof (layout_start v Hs) as [Hj Hb0]. pose proof (sg_layout _ Hs) as Hlay. unfold super_on_disk in Hsuper.
  rewrite <- Hnb in Hsuper, Hlay, Hb0.
  pose proof (new_state_applied v head Hs) as Hap. destruct (block_zero_states v head Hs) as [Hz1 Hz2].
  set (Bt := between (log_state v head) (new_state v head)). set (Cl := cleared (vsuper v) (new_state v head)).
  destruct (mount_spec (vsuper v) c (fun D => Bt D ∨ Cl D) Cl (Z.of_nat (length (homes_of v))))
    as (r & dev' & Hm & _ & HD & Hrel); try done.
  - by eapply room_weaken, Hroom; lia.
  - rewrite Hst, <- Hsuper. f_equal. destruct (Hbt 0); congruence.
  - by rewrite Hst.
  - intros c' Hok' Hr' Hse. eapply vreturns_mono; [apply (recover_logged_spec (vsuper v) (homes_of v)
      (log_state v head) (new_state v head) (sg_homes _ Hs) Hap 0 _ (vsequence v)); try done|].
    { simpl. by rewrite (dr_blocks _ _ (se_drains _ _ Hse)), Hst. }
    { simpl. eapply between_settles; [exact Hse|]. apply clean_between; [done|by rewrite Hst|done]. }
    intros r w (Hsr & Hcases & Hpost) _. split_and!; [done|done|]. by destruct r.
  - intros D' HD'. left. intros b. rewrite HD', Hst. apply Hbt.
  - exists r, dev'. split_and!; [done|destruct HD; [by eapply DLogged|by eapply DAfter]|].
    intros HR. destruct Hrel as (w & -> & HC); [by rewrite Hst|]. by eexists w, _.
Qed.

(** With the transaction on the device it ends wholly there. *)
Lemma durable_recovers v D :
  staged_ok v → super_on_disk v → durable_state v D →
  recovers_to (st_blocks (store (vcache v))) D (fun D' => ∀ b, b ≠ journal_start (vsuper v) → D' b = new_blocks v b).
Proof.
  intros Hs Hsuper. apply recovers_by; [intros D1 D2; apply durable_ext|].
  intros T HT HL dev fr c Hnb [head Hlog Hbt|head Hcl] Hnew.
  - destruct (mount_logged v dev fr c head) as (r & dev' & Hm & Hdur & Hrel); try done.
    exists r, dev'. split_and!; [done|done|]. intros HR. destruct Hrel as (w & k & -> & [_ Hcl]); [done|]. exists w, k.
    split; [done|]. intros b Hb. rewrite Hcl by done. by apply new_state_blocks.
  - pose proof (layout_start v Hs) as [Hj _]. destruct (block_zero_states v head Hs) as [_ Hz2]. unfold super_on_disk in Hsuper.
    destruct (mount_idle (vsuper v) dev fr c) as (r & dev' & Hm & Hsame & Hrel).
    + rewrite Hnb. apply Hs.
    + rewrite Hnb, <- Hsuper, <- Hz2. f_equal. apply Hcl. lia.
    + by apply zeros_idle, Hcl.
    + done.
    + exists r, dev'. split_and!; [done|apply (durable_ext v (disk dev)); [done|by eapply DAfter]|].
      intros HR. destruct Hrel as (w & ->); [done|]. exists w, 0. split; [done|]. intros b Hb. rewrite Hsame.
      destruct Hcl as [_ Hcl]. rewrite Hcl by done. by apply new_state_blocks.
Qed.

(** What a commit leaves recovers to all or nothing. *)
Lemma leaves_recovers v D :
  staged_ok v → super_on_disk v → commit_leaves v D →
  recovers_to (st_blocks (store (vcache v))) D (fun D' =>
    untouched v D' ∨ ∀ b, b ≠ journal_start (vsuper v) → D' b = new_blocks v b).
Proof.
  intros Hs Hsuper [Hun|(head & Hlog & Hst)].
  - eapply recovers_mono; [by apply untouched_recovers|auto].
  - eapply recovers_mono; [apply durable_recovers; [done|done|]|auto].
    destruct Hst; [by eapply DLogged|by eapply DAfter].
Qed.

(** C25. A transaction is atomic and durable.  Commit a staged transaction on any
    device, one that stops at any write included; then mount what is left any
    number of times, on devices that may stop during the recovery; then mount it
    once on a device that works.  The commit returns, that last mount succeeds,
    and every block of the device holds either what it held before the commit
    (pages changed in place apart) or, in all places, what the transaction was
    to make it; and if the commit reported success, it is the latter. *)
Theorem commit_is_atomic v order :
  staged_ok v → order_ok order (vcount v) → room 332 (vcache v) → super_on_disk v →
  ∃ r v', Volume.commit order v = Done (r, v') ∧
    recovers_to (st_blocks (store (vcache v))) (disk (store (vcache v'))) (fun D =>
      is_Err r ∧ untouched v D ∨ ∀ b, b ≠ journal_start (vsuper v) → D b = new_blocks v b).
Proof.
  intros Hs Ho Hroom Hsuper. destruct (commit_spec 0 v order) as (r & v' & Hc & _ & _ & Hleaves & Hres); [done|done|lia|done|].
  exists r, v'. split; [done|]. destruct r as [[]|e].
  - destruct Hres as ((head & Hcl) & _). eapply recovers_mono; [apply durable_recovers; [done|done|by eapply DAfter]|auto].
  - eapply recovers_mono; [by apply leaves_recovers|]. intros D' [?|?]; [left; by split|by right].
Qed.

End Atomicity.

(** A device of sixteen blocks that stops after three writes, with one data
    block staged. *)
Definition demo_layout : Superblock := MkSuper 16 64 1 2 3 9 12 0.
Definition demo_bytes : list Z :=
  match Superblock.write demo_layout (replicate (16 * BLOCK) 0) with Ok bytes => bytes | Err _ => [] end.
Definition demo_disk : Watched := MkWatched demo_bytes 0 3 3 None.
Definition demo_volume : Volume Watched :=
  MkVolume (MkCache (replicate (4 * BLOCK) 0) (replicate MAX_FRAMES empty_slot) 4 0 demo_disk 0 0 0)
    demo_layout 1 [12; 0; 0; 0; 0; 0; 0; 0] 1.

Lemma demo_new : Cache.new (replicate (4 * BLOCK) 0) demo_disk = Ok (vcache demo_volume).
Proof. unfold Cache.new. rewrite length_replicate, Nat.div_mul by apply BLOCK_nonzero. reflexivity. Qed.

Lemma demo_contents :
  whole_blocks demo_bytes = 16 ∧ Superblock.read_head (bytes_disk demo_bytes 0) 16 = Ok demo_layout ∧
  bytes_disk demo_bytes 3 = replicate BLOCK 0.
Proof.
  assert (HB : Z.of_nat BLOCK = BLOCKz) by reflexivity.
  destruct (super_write_spec demo_layout (replicate (16 * BLOCK) 0)) as (head & Hw & Hl & Hin & Hsum).
  { rewrite length_replicate. lia. }
  assert (Hok : super_ok demo_layout) by (split; unfold in_width; simpl; lia).
  unfold demo_bytes. rewrite Hw, drop_replicate.
  replace (16 * BLOCK - BLOCK)%nat with (15 * BLOCK)%nat by lia.
  assert (Hwb : whole_blocks (head ++ replicate (15 * BLOCK) 0) = 16).
  { unfold whole_blocks. rewrite length_app, length_replicate, Hl. replace (BLOCK + 15 * BLOCK)%nat with (16 * BLOCK)%nat by lia.
    rewrite Nat2Z.inj_mul, HB, Z.div_mul by done. done. }
  split_and!; [done| |].
  - unfold bytes_disk. rewrite Hwb. simpl. rewrite get_app_l by (rewrite Hl; unfold block_at; simpl; lia).
    unfold block_at. simpl. rewrite (get_whole head BLOCK Hl). simpl.
    rewrite (read_sealed_super demo_layout head 16) by done.
    by rewrite (proj2 (plausible_spec demo_layout 16 Hok)) by (unfold plausible_layout; simpl; lia).
  - destruct (bytes_disk_get (head ++ replicate (15 * BLOCK) 0) 3) as [Hg _]; [lia|].
    rewrite get_take in Hg by (rewrite length_app, length_replicate, Hl; unfold block_at; lia).
    assert (E : bytes_disk (head ++ replicate (15 * BLOCK) 0) 3 =
      take BLOCK (drop (block_at 3) (head ++ replicate (15 * BLOCK) 0))) by congruence.
    rewrite E. unfold block_at. rewrite drop_app_ge by lia.
    rewrite drop_replicate, take_replicate. f_equal. lia.
Qed.

Lemma demo_staged : staged_ok demo_volume.
Proof.
  destruct (new_spec _ _ _ demo_new) as (Hok & _ & _ & _ & Hclean & _). destruct demo_contents as (Hwb & _ & Hz).
  assert (Hlay : plausible_layout demo_layout 16) by (unfold plausible_layout; simpl; lia).
  assert (Hh : homes_of demo_volume = [12]) by reflexivity.
  split.
  - exact Hok.
  - cbn [vsuper vcache demo_volume store st_blocks watched_store demo_disk wbytes]. rewrite Hwb. exact Hlay.
  - apply zeros_idle. exact Hz.
  - cbn [vsequence demo_volume]. lia.
  - reflexivity.
  - cbn [vcount demo_volume]. unfold MAX_STAGED. lia.
  - rewrite Hh. split_and!; [cbn [length]; unfold MAX_STAGED; lia|cbn; lia|].
    apply Forall_singleton. unfold in_journal. cbn. lia.
  - rewrite Hh. apply NoDup_singleton.
  - intros b _. apply view_clean; [exact Hok|]. exact (Hclean b).
Qed.

Lemma commit_is_atomic_witness : ∃ r v', Volume.commit [] demo_volume = Done (r, v').
Proof.
  destruct (commit_is_atomic demo_volume []) as (r & v' & H & _).
  - exact demo_staged.
  - by intros ?.
  - destruct (new_spec _ _ _ demo_new) as (_ & Hroom & _). apply (room_weaken (2 ^ 64 - 1)); [lia|exact Hroom].
  - destruct demo_contents as (Hwb & Hr & _). unfold super_on_disk.
    cbn [vsuper vcache demo_volume store st_blocks watched_store demo_disk wbytes disk watched_laws].
    rewrite Hwb. exact Hr.
  - exact (ex_intro _ r (ex_intro _ v' H)).
Defined.
