(* ===== verification/Staging.v ===== *)
(** * The transaction being built

    Between [begin] and [commit] the operations of src/fs/src/volume.rs change
    copies of blocks in the journal's payload, and, for file data, pages in
    place.  This file says what such a volume shows and keeps ([calm], [tx]),
    what each staging step does to the blocks the transaction is about to make,
    and what reading the volume answers meanwhile. *)
From stdpp Require Import prelude numbers list.
From S2P Require Import Prelude Bytes Fs Cache Journal Reader Volume Crash.
Open Scope Z_scope.
Set Warnings "-clear-no-such-hyp".

#[local] Opaque BLOCK.

(** A block map with one block replaced. *)
Definition upd (M : Z → list Z) (h : Z) (w : list Z) : Z → list Z := fun b => if decide (b = h) then w else M b.

Lemma upd_here M h w : upd M h w h = w.
Proof. unfold upd. by rewrite decide_True. Qed.
Lemma upd_elsewhere M h w b : b ≠ h → upd M h w b = M b.
Proof. intros. unfold upd. by rewrite decide_False. Qed.

(** The blocks staged copies live in. *)
Definition payload (sb : Superblock) (b : Z) : Prop := journal_start sb < b < data_start sb.

(** A block a transaction may replace. *)
Definition homely (sb : Superblock) (h : Z) : Prop := 0 < h < blocks sb ∧ ¬ in_journal sb h.

(** The journal holds a full transaction, as the formatter's does. *)
Definition roomy (sb : Superblock) : Prop := Z.of_nat MAX_STAGED < journal_blocks sb.

Section Staging.
Context {S : Type} `{!Store S} `{!StoreLaws S}.
Implicit Types (c : Cache S) (v : Volume S) (V New : Z → list Z).

Abbreviation nblocks c := (st_blocks (store c)).
Abbreviation ondisk c := (disk (store c)).

(** The volume's cache at the start of the operation, its superblock, the blocks
    the operation changes in place, and what the volume showed at the start. *)
Context (c0 : Cache S) (sb : Superblock) (X : list Z) (V0 : Z → list Z).

(** A sound volume, at rest: what an operation may rely on. *)
Class setting : Prop := {
  set_layout : plausible_layout sb (nblocks c0);
  set_roomy : roomy sb;
  set_table : table_fits sb;
  set_bitmap : blocks sb ≤ (inode_start sb - bitmap_start sb) * (BLOCKz * 8);
  set_place : Forall (fun b => data_start sb ≤ b < blocks sb) X;
  set_super : Superblock.read_head (V0 0) (nblocks c0) = Ok sb;
  set_idle : idle sb V0
}.
Context {Hset : setting}.
Let Hlayout : plausible_layout sb (nblocks c0) := set_layout.
Let Hroomy : roomy sb := set_roomy.
Let Htable : table_fits sb := set_table.
Let Hbitmap : blocks sb ≤ (inode_start sb - bitmap_start sb) * (BLOCKz * 8) := set_bitmap.
Let HX : Forall (fun b => data_start sb ≤ b < blocks sb) X := set_place.
Let Hsuper : Superblock.read_head (V0 0) (nblocks c0) = Ok sb := set_super.
Let Hidle : idle sb V0 := set_idle.

(** The excuse for an error of the device: at the start of the operation fewer than
    two frames of the cache could be reused, or the device is one that, asked on,
    fails a request for a block it has. *)
Definition broken : Prop := ¬ able c0.

(** The volume shows [V] outside the journal's payload; the device does too,
    blocks changed in place apart, and those are the only difference from the
    start. *)
Record calm V v : Prop := {
  cm_cache : cache_ok (vcache v);
  cm_room : same_room c0 (vcache v);
  cm_super : vsuper v = sb;
  cm_bytes b : Forall is_byte (view (vcache v) b);
  cm_view b : ¬ payload sb b → view (vcache v) b = V b;
  cm_disk b : ¬ payload sb b → b ∉ X → ondisk (vcache v) b = V b;
  cm_base b : b ∉ X → V b = V0 b
}.

(** A transaction that would make the blocks [New]. *)
Record tx V New v : Prop := {
  tx_calm : calm V v;
  tx_sequence : 0 < vsequence v < 2 ^ 64;
  tx_staged : length (staged v) = MAX_STAGED;
  tx_count : (vcount v ≤ MAX_STAGED)%nat;
  tx_homes : Forall (homely sb) (homes_of v);
  tx_distinct : NoDup (homes_of v);
  tx_new b : ¬ in_journal sb b → new_blocks v b = New b
}.

(** A method ends: an answer in [Q], or an error in [G]. *)
Definition does {A} (n : Z) (m : prog (Volume S) FsError A) v
    (G : FsError → Volume S → Prop) (Q : A → Volume S → Prop) : Prop :=
  ∃ r v', m v = Done (r, v') ∧ room n (vcache v') ∧ match r with Ok a => Q a v' | Err e => G e v' end.

Lemma does_bind {A B} n k (m : prog (Volume S) FsError A) (f : A → prog (Volume S) FsError B) v G Q R :
  does n m v G Q → k ≤ n →
  (∀ a v', Q a v' → room n (vcache v') → does k (f a) v' G R) → does k (pbind m f) v G R.
Proof.
  intros (r & v1 & Hm & Hr & HQ) Hk Hf. unfold does, pbind. rewrite Hm. cbn [mbind outcome_bind].
  destruct r as [a|e]; [by apply Hf|]. exists (Err e), v1. split_and!; [done|by eapply room_weaken|done].
Qed.

Lemma does_mono {A} n k (m : prog (Volume S) FsError A) v (G G' : FsError → Volume S → Prop) (Q Q' : A → Volume S → Prop) :
  does n m v G Q → k ≤ n → (∀ e v', G e v' → G' e v') → (∀ a v', Q a v' → Q' a v') → does k m v G' Q'.
Proof.
  intros (r & v1 & Hm & Hr & HQ) Hk HG HQ'. exists r, v1. split_and!; [done|by eapply room_weaken|]. destruct r; auto.
Qed.

(** The same, for a step whose errors are better known. *)
Lemma does_then {A B} n k (m : prog (Volume S) FsError A) (f : A → prog (Volume S) FsError B) v
    (G G' : FsError → Volume S → Prop) Q R :
  does n m v G' Q → k ≤ n → (∀ e v', G' e v' → G e v') →
  (∀ a v', Q a v' → room n (vcache v') → does k (f a) v' G R) → does k (pbind m f) v G R.
Proof. intros Hm Hk HG Hf. apply (does_bind n k m f v G Q R); [|done|done]. by apply (does_mono n n m v G' G Q Q). Qed.

Lemma does_ret {A} n (a : A) v G (Q : A → Volume S → Prop) : room n (vcache v) → Q a v → does n (pret a) v G Q.
Proof. intros. by exists (Ok a), v. Qed.
Lemma does_fail {A} n e v (G : FsError → Volume S → Prop) (Q : A → Volume S → Prop) :
  room n (vcache v) → G e v → does n (pfail e) v G Q.
Proof. intros. by exists (Err e), v. Qed.
Lemma does_pout {A B} n (m : outcome A) a (f : A → prog (Volume S) FsError B) v G Q :
  m = Done a → does n (f a) v G Q → does n (pbind (pout m) f) v G Q.
Proof. by intros ->. Qed.
Lemma does_super {A} n (f : Superblock → prog (Volume S) FsError A) v G Q :
  vsuper v = sb → does n (f sb) v G Q → does n (Volume.with_super f) v G Q.
Proof. intros H. unfold does, Volume.with_super. by rewrite H. Qed.

Lemma does_assoc {A B C} n (m : prog (Volume S) FsError A) (f : A → prog (Volume S) FsError B)
    (g : B → prog (Volume S) FsError C) v G Q :
  does n (b ←! (a ←! m; f a); g b) v G Q → does n (a ←! m; b ←! f a; g b) v G Q.
Proof. unfold does. by rewrite pbind_assoc. Qed.
Lemma does_tried {A} n (m : prog (Volume S) FsError A) v G (E : FsError → Volume S → Prop) (Q : A → Volume S → Prop) :
  does n m v E Q → does n (Volume.tried m) v G (fun r v' => match r with Ok a => Q a v' | Err e => E e v' end).
Proof.
  intros (r & v' & Hm & Hr & Hpost). exists (Ok r), v'. unfold Volume.tried. by rewrite Hm.
Qed.

(** A lifted result. *)
Lemma does_lift {A} n (r : result A FsError) v (G : FsError → Volume S → Prop) (Q : A → Volume S → Prop) :
  room n (vcache v) → match r with Ok a => Q a v | Err e => G e v end → does n (plift r) v G Q.
Proof. intros. by exists r, v. Qed.

(** A method of the cache. *)
Lemma does_cache {A} n (m : prog (Cache S) FsError A) v Q (G : FsError → Volume S → Prop) (R : A → Volume S → Prop) :
  returns n m (vcache v) Q →
  (∀ e c', cache_ok c' → Q (Err e) c' → G e (Volume.with_cache v c')) →
  (∀ a c', cache_ok c' → Q (Ok a) c' → R a (Volume.with_cache v c')) →
  does n (Volume.on_cache m) v G R.
Proof.
  intros (r & c' & Hm & Hok & Hroom & HQ) HG HR. exists r, (Volume.with_cache v c').
  unfold Volume.on_cache. rewrite Hm. split_and!; [done|done|]. destruct r; auto.
Qed.

(** ** What moving pages about keeps *)
Lemma calm_blocks V v : calm V v → nblocks (vcache v) = nblocks c0.
Proof. intros H. apply (cm_room _ _ H). Qed.

Lemma calm_layout V v : calm V v → plausible_layout sb (nblocks (vcache v)).
Proof. intros H. by rewrite (calm_blocks V v). Qed.

Lemma calm_drains V v c' :
  calm V v → cache_ok c' → drains (vcache v) c' → (∀ b, Forall is_byte (view c' b)) →
  (∀ b, ¬ payload sb b → view c' b = V b) → calm V (Volume.with_cache v c').
Proof.
  intros [Hok Hr Hs _ Hv Hd Hb] Hok' Hdr Hby Hv'. split; simpl; try done.
  - etrans; [exact Hr|]. by apply drains_room.
  - intros b Hp Hx. destruct (dr_disk _ _ Hdr b) as [->|[_ ->]]; auto.
Qed.

Lemma calm_settles V v c' : calm V v → cache_ok c' → settles (vcache v) c' → calm V (Volume.with_cache v c').
Proof.
  intros Hc Hok Hse. apply (calm_drains V v); [done|done|apply Hse|..];
    intros b; rewrite (se_view _ _ Hse); by apply Hc.
Qed.

(** [New] depends only on what the volume shows. *)
Lemma new_blocks_ext v c' b : (∀ x, view c' x = view (vcache v) x) → new_blocks (Volume.with_cache v c') b = new_blocks v b.
Proof.
  intros H. unfold new_blocks, homes_of. cbn [Volume.with_cache vcache vsuper staged vcount].
  by destruct (position _ _); rewrite H.
Qed.

Lemma tx_settles V New v c' : tx V New v → cache_ok c' → settles (vcache v) c' → tx V New (Volume.with_cache v c').
Proof.
  intros [Hc Hq Hs Hn Hh Hd Hnew] Hok Hse. split; try done; [by apply calm_settles|].
  intros b Hb. rewrite new_blocks_ext by apply Hse. by apply Hnew.
Qed.

Lemma tx_same_view V New v c' :
  tx V New v → cache_ok c' → drains (vcache v) c' → (∀ x, view c' x = view (vcache v) x) → tx V New (Volume.with_cache v c').
Proof.
  intros [Hc Hq Hs Hn Hh Hd Hnew] Hok Hdr Hv. split; try done.
  - apply calm_drains; [done|done|done|..]; intros b; rewrite Hv; by apply Hc.
  - intros b Hb. rewrite new_blocks_ext by done. by apply Hnew.
Qed.

(** A device request failed though nothing was wrong with it. *)
Lemma excused_broken V v b : calm V v → 0 ≤ b < nblocks c0 → excused (vcache v) b → broken.
Proof.
  intros Hc Hb Hex. eapply room_failed, excused_able, Hex; [by apply (cm_room _ _ Hc)|].
  rewrite (calm_blocks V v Hc). lia.
Qed.

(** ** Staging a block *)
Lemma payload_slot (i : nat) : (i < MAX_STAGED)%nat → payload sb (journal_start sb + 1 + Z.of_nat i).
Proof. intros Hi. unfold payload, plausible_layout, roomy in *. lia. Qed.

Lemma homely_not_payload h : homely sb h → ¬ payload sb h.
Proof. intros [_ Hj] Hp. apply Hj. unfold payload, in_journal, plausible_layout in *. lia. Qed.

Lemma homely_range h : homely sb h → 0 ≤ h < nblocks c0.
Proof. intros [Hh _]. unfold plausible_layout in Hlayout. lia. Qed.

Lemma slot_in_range (i : nat) : (i < MAX_STAGED)%nat →
  0 ≤ journal_start sb ∧ journal_start sb + 1 + Z.of_nat i < nblocks c0 ∧ nblocks c0 < 2 ^ 32.
Proof. intros Hi. pose proof (st_blocks_range (store c0)). unfold plausible_layout, roomy in *. lia. Qed.

(** The staged copy of a home shows what the transaction makes of it. *)
Lemma tx_slot V New v slot h :
  tx V New v → homes_of v !! slot = Some h →
  (slot < MAX_STAGED)%nat ∧ homely sb h ∧ view (vcache v) (journal_start sb + 1 + Z.of_nat slot) = New h.
Proof.
  intros Ht Hs. assert (Hlt : (slot < MAX_STAGED)%nat).
  { apply lookup_lt_Some in Hs. unfold homes_of in Hs. rewrite length_take, (tx_staged _ _ _ Ht) in Hs. lia. }
  pose proof (Forall_lookup_1 _ _ _ _ (tx_homes _ _ _ Ht) Hs) as Hh. split_and!; [done|done|].
  rewrite <- (tx_new _ _ _ Ht) by apply Hh. unfold new_blocks.
  assert (position (Z.eqb h) (homes_of v) = Some slot) as ->.
  { apply position_some. split; [exists h; split; [done|apply Z.eqb_refl]|].
    intros j x Hj Hx. apply Z.eqb_neq. intros <-. pose proof (NoDup_lookup _ _ _ _ (tx_distinct _ _ _ Ht) Hs Hx). lia. }
  by rewrite (cm_super _ _ (tx_calm _ _ _ Ht)).
Qed.

Lemma position_app_none {A} (p : A → bool) l x :
  position p l = None → position p (l ++ [x]) = if p x then Some (length l) else None.
Proof.
  induction l as [|y l IH]; simpl; [by destruct (p x)|]. destruct (p y); [done|].
  destruct (position p l) eqn:Hl; [done|]. intros _. rewrite IH by done. by destruct (p x).
Qed.

Lemma position_app_some {A} (p : A → bool) l x i : position p l = Some i → position p (l ++ [x]) = Some i.
Proof.
  revert i. induction l as [|y l IH]; intros i; simpl; [done|]. destruct (p y); [done|].
  destruct (position p l) eqn:Hl; [|done]. intros [= <-]. by rewrite (IH _ eq_refl).
Qed.

Lemma homes_length V New v : tx V New v → length (homes_of v) = vcount v.
Proof. intros Ht. unfold homes_of. rewrite length_take, (tx_staged _ _ _ Ht). pose proof (tx_count _ _ _ Ht). lia. Qed.

(** A volume whose next slot has been given to [h]. *)
Definition with_home v c' (h : Z) : Volume S :=
  MkVolume c' (vsuper v) (vsequence v) (<[vcount v := h]> (staged v)) (vcount v + 1).

Lemma homes_with_home V New v c' h :
  tx V New v → (vcount v < MAX_STAGED)%nat → homes_of (with_home v c' h) = homes_of v ++ [h].
Proof.
  intros Ht Hc. unfold homes_of, with_home. simpl. rewrite Nat.add_1_r.
  rewrite (take_S_r _ _ h) by (apply list_lookup_insert_eq; rewrite (tx_staged _ _ _ Ht); lia).
  by rewrite take_insert_ge by lia.
Qed.

Lemma tx_with_home V New v c' h :
  tx V New v → (vcount v < MAX_STAGED)%nat → homely sb h → h ∉ homes_of v → cache_ok c' →
  writes (vcache v) (journal_start sb + 1 + Z.of_nat (vcount v)) (view (vcache v) h) c' →
  tx V New (with_home v c' h).
Proof.
  intros Ht Hc Hh Hnew Hok Hw. pose proof (tx_calm _ _ _ Ht) as Hcm. pose proof (homes_length _ _ _ Ht) as Hl.
  pose proof (payload_slot _ Hc) as Hpl. pose proof (homes_with_home V New v c' h Ht Hc) as Hhs.
  assert (Hjn : ∀ b, ¬ in_journal sb b → ¬ payload sb b).
  { intros b Hb Hp. apply Hb. unfold payload, in_journal, plausible_layout in *. lia. }
  assert (Hout : ∀ b, ¬ payload sb b → view c' b = view (vcache v) b).
  { intros b Hb. rewrite (wr_view _ _ _ _ Hw). rewrite decide_False; [done|]. by intros ->. }
  split; rewrite ?Hhs; simpl.
  - destruct (calm_drains V v c' Hcm Hok) as [H1 H2 H3 H4 H5 H6 H7]; [apply Hw|..|by split].
    + intros b. rewrite (wr_view _ _ _ _ Hw). case_decide; apply Hcm.
    + intros b Hb. rewrite Hout by done. by apply Hcm.
  - apply Ht.
  - rewrite length_insert. apply Ht.
  - lia.
  - apply Forall_app. split; [apply Ht|by apply Forall_singleton].
  - apply NoDup_app. split_and!; [apply Ht| |apply NoDup_singleton]. intros x Hx ->%list_elem_of_singleton. done.
  - intros b Hb. rewrite <- (tx_new _ _ _ Ht b Hb). unfold new_blocks at 1. rewrite Hhs. cbn [with_home vcache vsuper].
    unfold new_blocks. rewrite (cm_super _ _ Hcm).
    destruct (position (Z.eqb b) (homes_of v)) as [i|] eqn:Hp.
    + rewrite (position_app_some _ _ _ _ Hp), (wr_view _ _ _ _ Hw). rewrite decide_False; [done|].
      apply position_some in Hp as [(x & Hx & _) _]. apply lookup_lt_Some in Hx. lia.
    + rewrite (position_app_none _ _ _ Hp). destruct (Z.eqb_spec b h) as [->|Hne].
      * rewrite Hl, (wr_view _ _ _ _ Hw). by rewrite decide_True.
      * apply Hout. by apply Hjn.
Qed.

(** The transaction's homes grew by some of [hs], at least by one. *)
Definition gains v (hs : list Z) v' : Prop :=
  (vcount v ≤ vcount v' ≤ vcount v + length hs ∧ 0 < vcount v')%nat ∧
  ∀ x, x ∈ homes_of v' → x ∈ hs ∨ x ∈ homes_of v.

(** Staging a block keeps what the transaction makes and gives the block a slot;
    it fails only for want of a slot, or of a device. *)
Lemma stage_spec n V New v h :
  tx V New v → homely sb h → 0 ≤ n → room (n + 5) (vcache v) →
  does n (Volume.stage h) v
    (fun e v' => calm V v' ∧ (e = Full ∧ vcount v = MAX_STAGED ∨ broken))
    (fun slot v' => tx V New v' ∧ homes_of v' !! slot = Some h ∧ gains v [h] v').
Proof.
  intros Ht Hh Hn Hroom. pose proof (tx_calm _ _ _ Ht) as Hcm. unfold does, Volume.stage. fold (homes_of v).
  assert (Hr0 : room n (vcache v)) by (eapply room_weaken, Hroom; lia).
  destruct (position _ (homes_of v)) as [slot|] eqn:Hp.
  { apply position_some in Hp as [(x & Hx & ->%Z.eqb_eq) _]. exists (Ok slot), v. split_and!; try done.
    split; [|auto]. apply lookup_lt_Some in Hx. rewrite (homes_length _ _ _ Ht) in Hx. simpl. lia. }
  case_decide as Hfull.
  { exists (Err Full), v. split_and!; try done. by left. }
  pose proof (tx_count _ _ _ Ht) as Hc. assert (Hlt : (vcount v < MAX_STAGED)%nat) by lia.
  destruct (slot_in_range _ Hlt) as (Hj0 & Hsl & Hnb). pose proof (homely_range _ Hh) as Hhr.
  unfold pbind at 1. rewrite slot_block_ok by (rewrite (cm_super _ _ Hcm); lia). cbn [mbind outcome_bind].
  rewrite (cm_super _ _ Hcm). set (pl := journal_start sb + 1 + Z.of_nat (vcount v)) in *.
  assert (Hne : h ≠ pl) by (intros ->; by apply (homely_not_payload _ Hh), payload_slot).
  pose proof (calm_blocks _ _ Hcm) as Hb.
  destruct (copy_spec n (vcache v) h pl) as (r & c' & Hcp & Hok & Hr & Hpost); [apply Hcm|done|done|lia|lia|done|].
  unfold pbind, Volume.on_cache. rewrite Hcp. cbn [mbind outcome_bind]. destruct r as [[]|e].
  - destruct Hpost as (_ & _ & Hw). assert (Hnin : h ∉ homes_of v).
    { intros [i Hi]%list_elem_of_lookup_1. rewrite position_none in Hp. specialize (Hp i h Hi). by rewrite Z.eqb_refl in Hp. }
    eexists (Ok (vcount v)), (with_home v c' h). split_and!; [done|done|by apply tx_with_home|..].
    + rewrite (homes_with_home V New) by done.
      by rewrite lookup_app_r, (homes_length _ _ _ Ht), Nat.sub_diag by (rewrite (homes_length _ _ _ Ht); lia).
    + split; [simpl; lia|]. rewrite (homes_with_home V New) by done. intros x [Hx|Hx]%elem_of_app; auto.
  - destruct Hpost as [Hse Hrel]. exists (Err e), (Volume.with_cache v c'). split_and!; [done|done|by apply calm_settles|].
    right. intros Hfree. apply Hrel; [lia|lia|]. by apply (cm_room _ _ Hcm).
Qed.

(** ** Editing a page *)

(** An edit that makes a page of a page. *)
Definition sized (f : list Z → result (list Z) FsError) : Prop :=
  ∀ bytes w, length bytes = BLOCK → Forall is_byte bytes → f bytes = Ok w → length w = BLOCK ∧ Forall is_byte w.

Lemma edit_page_spec n v b f :
  cache_ok (vcache v) → 0 ≤ b → 0 ≤ n → room (n + 2) (vcache v) → sized f → Forall is_byte (view (vcache v) b) →
  does n (page' ←! Volume.on_cache (Cache.edit b); Volume.update_page page' f) v
    (fun e v' => ∃ c', v' = Volume.with_cache v c' ∧ cache_ok c' ∧ drains (vcache v) c' ∧
       (∀ x, view c' x = view (vcache v) x) ∧ (excused (vcache v) b ∨ f (view (vcache v) b) = Err e))
    (fun _ v' => ∃ c' w, v' = Volume.with_cache v c' ∧ cache_ok c' ∧ b < nblocks (vcache v) ∧
       f (view (vcache v) b) = Ok w ∧ Forall is_byte w ∧ writes (vcache v) b w c').
Proof.
  intros Hok Hb Hn Hroom Hf Hby.
  destruct (edit_spec n (vcache v) b Hok Hn Hroom Hb) as (r & c1 & He & Hok1 & Hr1 & Hpost).
  unfold does, pbind, Volume.on_cache at 1. rewrite He. cbn [mbind outcome_bind]. destruct r as [i|e].
  - destruct Hpost as (Hlt & Hw & s & Hi & Hsb & Hd). unfold Volume.update_page, Volume.on_cache. cbn [Volume.with_cache vcache].
    destruct (frame_done c1 i (ok_shape _ Hok1) (proj1 Hi)) as [Hfr Hfl]. rewrite Hfr. cbn [mbind outcome_bind].
    assert (Hv1 : fb c1 i = view (vcache v) b).
    { rewrite <- (view_held c1 i s b) by done. rewrite (wr_view _ _ _ _ Hw). by rewrite decide_True. }
    rewrite Hv1. destruct (f (view (vcache v) b)) as [w|e] eqn:Hfv.
    + destruct (Hf (view (vcache v) b) w) as [Hwl Hwb]; [by rewrite <- Hv1|done|done|].
      destruct (set_page_spec n c1 i s b w) as (r & c2 & Hc2 & Hok2 & Hr2 & -> & Hst & Hw2); try done.
      exists (Ok ()), (Volume.with_cache v c2). rewrite Hc2. split_and!; [done|done|].
      exists c2, w. split_and!; try done. eapply writes_over; [exact Hw| |exact Hw2]. intros x. by rewrite Hst.
    + exists (Err e), (Volume.with_cache v c1). split_and!; [done|done|]. exists c1. split_and!; [done|done|apply Hw| |by right].
      intros x. rewrite (wr_view _ _ _ _ Hw). case_decide; [by subst|done].
  - destruct Hpost as [Hse Hex]. exists (Err e), (Volume.with_cache v c1). split_and!; [done|done|].
    exists c1. split_and!; [done|done|apply Hse|apply Hse|by left].
Qed.

Lemma tx_rewrite V New v c' slot h w :
  tx V New v → homes_of v !! slot = Some h → cache_ok c' → Forall is_byte w →
  writes (vcache v) (journal_start sb + 1 + Z.of_nat slot) w c' →
  tx V (upd New h w) (Volume.with_cache v c').
Proof.
  intros Ht Hs Hok Hby Hw. pose proof (tx_calm _ _ _ Ht) as Hcm. destruct (tx_slot _ _ _ _ _ Ht Hs) as (Hlt & Hh & _).
  pose proof (payload_slot _ Hlt) as Hpl.
  assert (Hout : ∀ b, ¬ payload sb b → view c' b = view (vcache v) b).
  { intros b Hb. rewrite (wr_view _ _ _ _ Hw). rewrite decide_False; [done|]. by intros ->. }
  split; try apply Ht.
  - apply calm_drains; [done|done|apply Hw|..].
    + intros b. rewrite (wr_view _ _ _ _ Hw). case_decide; [done|apply Hcm].
    + intros b Hb. rewrite Hout by done. by apply Hcm.
  - intros b Hb. unfold new_blocks, upd. change (homes_of (Volume.with_cache v c')) with (homes_of v).
    cbn [Volume.with_cache vcache vsuper]. pose proof (tx_new _ _ _ Ht b Hb) as Hnew. unfold new_blocks in Hnew.
    rewrite (cm_super _ _ Hcm) in *. destruct (position (Z.eqb b) (homes_of v)) as [i|] eqn:Hp.
    + apply position_some in Hp as [(x & Hx & ->%Z.eqb_eq) _]. rewrite (wr_view _ _ _ _ Hw).
      case_decide as Hi; case_decide as Hxh; [done| | |done].
      * assert (i = slot) as -> by lia. by rewrite Hs in Hx; simplify_eq.
      * subst x. destruct Hi. pose proof (NoDup_lookup _ _ _ _ (tx_distinct _ _ _ Ht) Hs Hx). lia.
    + case_decide as Hbh.
      * subst b. rewrite position_none in Hp. specialize (Hp _ _ Hs). by rewrite Z.eqb_refl in Hp.
      * rewrite Hout; [done|]. intros Hpb. apply Hb. unfold payload, in_journal, plausible_layout in *. lia.
Qed.

(** Editing a staged copy changes what the transaction makes of that block. *)
Lemma edit_staged_spec n V New v slot h f :
  tx V New v → homes_of v !! slot = Some h → 0 ≤ n → room (n + 2) (vcache v) → sized f →
  does n (page' ←! Volume.staged_mut slot; Volume.update_page page' f) v
    (fun e v' => calm V v' ∧ (f (New h) = Err e ∨ broken))
    (fun _ v' => ∃ w, f (New h) = Ok w ∧ tx V (upd New h w) v' ∧ vcount v' = vcount v ∧ homes_of v' = homes_of v).
Proof.
  intros Ht Hs Hn Hroom Hf. pose proof (tx_calm _ _ _ Ht) as Hcm.
  destruct (tx_slot _ _ _ _ _ Ht Hs) as (Hlt & Hh & Hv). destruct (slot_in_range _ Hlt) as (Hj0 & Hsl & Hnb).
  set (pl := journal_start sb + 1 + Z.of_nat slot) in *.
  destruct (edit_page_spec n v pl f) as (r & v' & Hm & Hr & Hpost); [apply Hcm|lia|done|done|done|apply Hcm|].
  exists r, v'. split; [|split; [done|]].
  { unfold Volume.staged_mut, pbind at 2. unfold pbind at 1. rewrite slot_block_ok by (rewrite (cm_super _ _ Hcm); lia).
    cbn [mbind outcome_bind]. rewrite (cm_super _ _ Hcm). exact Hm. }
  rewrite Hv in Hpost. destruct r as [[]|e].
  - destruct Hpost as (c' & w & -> & Hok & _ & Hfw & Hwb & Hw). exists w. split_and!; [done| |done|done]. by apply (tx_rewrite V New v c' slot).
  - destruct Hpost as (c' & -> & Hok & Hdr & Hvw & Hwhy). split.
    + apply (calm_drains V v); [done|done|done|..]; intros b; rewrite Hvw; by apply Hcm.
    + destruct Hwhy as [Hex|?]; [right|by left]. apply (excused_broken V v pl); [done|lia|done].
Qed.

(** Staging a block and editing its copy. *)
Lemma stage_edit_spec n V New v h f :
  tx V New v → homely sb h → 0 ≤ n → room (n + 7) (vcache v) → sized f →
  does n (slot ←! Volume.stage h; page' ←! Volume.staged_mut slot; Volume.update_page page' f) v
    (fun e v' => calm V v' ∧ (f (New h) = Err e ∨ e = Full ∧ vcount v = MAX_STAGED ∨ broken))
    (fun _ v' => ∃ w, f (New h) = Ok w ∧ tx V (upd New h w) v' ∧ gains v [h] v').
Proof.
  intros Ht Hh Hn Hroom Hf. eapply (does_bind (n + 2)).
  - eapply does_mono; [apply (stage_spec (n + 2) V New v h); [done|done|lia|]|lia| |].
    + by replace (n + 2 + 5) with (n + 7) by lia.
    + intros e v' [Hc Hwhy]. split; [done|]. right. exact Hwhy.
    + intros slot v' H. exact H.
  - lia.
  - intros slot v1 (Ht1 & Hs1 & Hc1) Hr1. eapply does_mono; [by apply (edit_staged_spec n V New v1 slot h f)|lia| |].
    + intros e v' [Hc Hwhy]. split; [done|]. tauto.
    + intros [] v' (w & Hw & Ht' & Hc' & Hh'). exists w. split_and!; [done|done|]. unfold gains in *. by rewrite Hc', Hh'.
Qed.

(** ** Reading the volume *)

(** Only pages moved. *)
Definition moved v v' : Prop := ∃ c', v' = Volume.with_cache v c' ∧ cache_ok c' ∧ settles (vcache v) c'.

Lemma moved_along v1 v2 v3 : moved v1 v2 → moved v2 v3 → moved v1 v3.
Proof. intros (c1 & -> & _ & H1) (c2 & -> & Hok & H2). exists c2. split_and!; [done|done|by etrans]. Qed.

Lemma calm_moved V v v' : calm V v → moved v v' → calm V v'.
Proof. intros Hc (c' & -> & Hok & Hse). by apply calm_settles. Qed.

(** A volume between operations: nothing is logged. *)
Record resting V v : Prop := {
  rs_calm : calm V v;
  rs_idle : idle sb V;
  rs_staged : length (staged v) = MAX_STAGED
}.

Lemma resting_moved V v v' : resting V v → moved v v' → resting V v'.
Proof. intros [Hc Hi Hs] Hm. split; [by eapply calm_moved|done|]. by destruct Hm as (c' & -> & _). Qed.

(** A reader of the file system, run on the volume: it reads [V]. *)
Lemma does_reads {A} n (m : prog (Cache S) FsError A) V v want
    (G : FsError → Volume S → Prop) (Q : A → Volume S → Prop) :
  resting V v → reads n m (vcache v) sb want →
  (∀ e v', resting V v' → want = Err e ∨ broken → G e v') →
  (∀ a v', resting V v' → want = Ok a → Q a v') →
  does n (Volume.on_cache m) v G Q.
Proof.
  intros Hv (r & c' & Hm & [Hok Hroom] & Hse & Hpost) HG HQ. exists r, (Volume.with_cache v c').
  assert (Hv' : resting V (Volume.with_cache v c')) by (apply (resting_moved V v); [done|by exists c']).
  split_and!; [by unfold Volume.on_cache; rewrite Hm|done|]. destruct r as [a|e]; [by apply HQ|]. apply HG; [done|].
  destruct Hpost as [?|(b & Hb & Hbl)]; [by left|right]. apply (excused_broken V v b); [apply Hv| |done].
  unfold plausible_layout in Hlayout. lia.
Qed.

(** Outside the payload the cache's pages are [V]'s. *)
Definition shown V c : Prop := ∀ b, ¬ payload sb b → view c b = V b.

Lemma inode_block_not_payload index b off :
  0 ≤ index → Superblock.inode_at sb index = Ok (b, off) → ¬ payload sb b ∧ homely sb b.
Proof.
  intros Hi Hat. destruct (inode_at_spec _ _ _ _ Htable Hi Hat) as (_ & Hb & _ & _).
  unfold payload, homely, in_journal, plausible_layout, table_fits in *. lia.
Qed.

Lemma inode_in_shown V c index : shown V c → 0 ≤ index → inode_in (view c) sb index = inode_in V sb index.
Proof.
  intros Hs Hi. unfold inode_in. destruct (Superblock.inode_at sb index) as [[b off]|e] eqn:Hat; cbn [rbind]; [|done].
  simpl. rewrite Hs; [done|]. by apply (inode_block_not_payload index b off).
Qed.

Lemma volume_inode_spec n V v index G Q :
  resting V v → 0 ≤ n → 0 ≤ index → room (n + 2) (vcache v) →
  (∀ e v', resting V v' → inode_in V sb index = Err e ∨ broken → G e v') →
  (∀ i v', resting V v' → inode_in V sb index = Ok i → Q i v') →
  does n (Volume.inode index) v G Q.
Proof.
  intros Hv Hn Hi Hroom HG HQ. apply does_super; [apply Hv|].
  rewrite <- (inode_in_shown V (vcache v)) in HG, HQ by first [exact (cm_view _ _ (rs_calm _ _ Hv))|done].
  apply (does_reads n _ V v (inode_in (view (vcache v)) sb index)); [done| |done|done].
  pose proof (inode_spec n (vcache v) sb index Htable) as H. exact (H (conj (cm_cache _ _ (rs_calm _ _ Hv)) Hroom) Hn Hi).
Qed.

(** What is read decodes into range. *)
Lemma inode_in_ok V v index i : calm V v → 0 ≤ index → inode_in V sb index = Ok i → inode_ok i.
Proof.
  intros Hc Hi. rewrite <- (inode_in_shown V (vcache v)) by first [exact (cm_view _ _ Hc)|done]. unfold inode_in.
  destruct (Superblock.inode_at sb index) as [[b off]|]; cbn [rbind fst snd]; [|done].
  destruct (get _ _ _) as [slot|] eqn:Hg; cbn [ok_or rbind]; [|done]. apply decode_ok.
  eapply get_bytes, Hg. apply Hc.
Qed.

(** A directory as the operations make them: no larger than its direct blocks,
    which are missing or data blocks. *)
Definition dir_ok (i : Inode) : Prop :=
  size i ≤ 10 * BLOCKz ∧ Forall (fun b => b = 0 ∨ data_start sb ≤ b < blocks sb) (direct i).

Lemma data_not_payload b : data_start sb ≤ b → ¬ payload sb b.
Proof. unfold payload. lia. Qed.

Lemma entries_shown m : ∀ V c i which,
  shown V c → dir_ok i → length (direct i) = 10%nat → (which + m ≤ 1280)%nat →
  entries_from m (view c) sb i which = entries_from m V sb i which.
Proof.
  induction m as [|m IH]; intros V c i which Hs [Hsz Hd] Hl Hw; simpl; [done|]. unfold number_of.
  assert (Hlt : (which * ENTRY / BLOCK < length (direct i))%nat).
  { rewrite Hl, block_value. unfold ENTRY. apply Nat.Div0.div_lt_upper_bound. lia. }
  destruct (lookup_lt_is_Some_2 _ _ Hlt) as [b Hb]. rewrite Hb.
  destruct (Filesystem.valid_number sb b) as [b'|] eqn:Hv; [|done]. pose proof (valid_number_some _ _ _ Hv) as ->.
  assert (Hr : data_start sb ≤ b).
  { pose proof (Forall_lookup_1 _ _ _ _ Hd Hb) as [->|?]; [done|lia]. }
  rewrite Hs by by apply data_not_payload. destruct (Entry.read _ _) as [e|]; [|done].
  rewrite (IH V c); [done|done|by split|done|lia].
Qed.

Lemma dir_entries i : 0 ≤ size i → dir_ok i → 0 ≤ size i / Z.of_nat ENTRY ≤ 1280.
Proof.
  intros H0 [Hs _]. change (Z.of_nat ENTRY) with 32. unfold BLOCKz in *. split; [apply Z.div_pos; lia|].
  apply Z.div_le_upper_bound; lia.
Qed.

Lemma lookup_in_shown V v i name :
  calm V v → inode_ok i → dir_ok i → lookup_in (view (vcache v)) sb i name = lookup_in V sb i name.
Proof.
  intros Hc Hi Hd. unfold lookup_in, entries_in. pose proof (io_size _ Hi) as Hsz. unfold in_width in Hsz.
  pose proof (dir_entries i ltac:(lia) Hd) as Hn.
  rewrite (entries_shown _ V) by first [exact (cm_view _ _ Hc)|done|apply Hi|lia].
  destruct (negb _); [done|]. destruct (List.find _ _) as [e|] eqn:Hf; [|done].
  rewrite (inode_in_shown V); [done|exact (cm_view _ _ Hc)|].
  rewrite <- (entries_shown _ V (vcache v)) in Hf by first [exact (cm_view _ _ Hc)|done|apply Hi|lia].
  apply find_some in Hf as [Hin _]. apply list_elem_of_In in Hin.
  eapply (Forall_forall (fun e => 0 ≤ einode e)); [apply entries_inodes; intros b; apply Hc|exact Hin].
Qed.

(** Finding a name in a directory that is one. *)
Lemma volume_lookup_spec n V v directory name G Q :
  resting V v → 0 ≤ n → 0 ≤ directory → room (n + 5124) (vcache v) →
  (∀ i, inode_in V sb directory = Ok i → dir_ok i) →
  (∀ e v', resting V v' → (i ←? inode_in V sb directory; lookup_in V sb i name) = Err e ∨ broken → G e v') →
  (∀ a v', resting V v' → (i ←? inode_in V sb directory; lookup_in V sb i name) = Ok a → Q a v') →
  does n (Volume.lookup directory name) v G Q.
Proof.
  intros Hv Hn Hi Hroom Hdir HG HQ. apply does_super; [apply Hv|].
  eapply (does_bind (n + 5122)); [|lia|].
  - pose proof (volume_inode_spec (n + 5122) V v directory G (fun i v' => resting V v' ∧ inode_in V sb directory = Ok i)) as H.
    unfold Volume.inode, does, Volume.with_super in H. rewrite (cm_super _ _ (rs_calm _ _ Hv)) in H. apply H; [done|lia|done| | |done].
    + by replace (n + 5122 + 2) with (n + 5124) by lia.
    + intros e v' Hv' Hwhy. apply HG; [done|]. destruct Hwhy as [->|?]; [by left|by right].
  - intros i v1 [Hv1 Hin] Hr1. rewrite Hin in HG, HQ. cbn [rbind] in HG, HQ. pose proof (rs_calm _ _ Hv1) as Hc1.
    pose proof (inode_in_ok V v1 directory i Hc1 Hi Hin) as Hiok. specialize (Hdir i Hin).
    rewrite <- (lookup_in_shown V v1) in HG, HQ by done. pose proof (io_size _ Hiok) as Hsz. unfold in_width in Hsz.
    pose proof (dir_entries i ltac:(lia) Hdir) as Hne.
    apply (does_reads n _ V v1 (lookup_in (view (vcache v1)) sb i name)); [done| |done|done].
    refine (lookup_spec n (vcache v1) sb i name Htable _ Hn (conj (cm_cache _ _ Hc1) _) _); [|eapply room_weaken, Hr1; lia|lia].
    split_and!; [|apply (io_indirect _ Hiok)|intros b; apply Hc1].
    apply Forall_forall. intros b Hb. by apply (io_blocks _ Hiok).
Qed.

(** ** Looking for something free *)

(** A block map's word on a block. *)
Definition free_in V (block : Z) : Prop :=
  ∃ cell, V (bitmap_start sb + block / 8 / BLOCKz) !! Z.to_nat (block / 8 mod BLOCKz) = Some cell ∧
    Z.testbit cell (block mod 8) = false.

Lemma bitmap_block block :
  0 ≤ block < blocks sb →
  bitmap_start sb ≤ bitmap_start sb + block / 8 / BLOCKz < inode_start sb ∧
  homely sb (bitmap_start sb + block / 8 / BLOCKz) ∧ 0 ≤ block / 8 mod BLOCKz < BLOCKz.
Proof.
  intros Hb. assert (0 ≤ block / 8 / BLOCKz) by (unfold BLOCKz; apply Z.div_pos; [apply Z.div_pos|]; lia).
  assert (block / 8 / BLOCKz < inode_start sb - bitmap_start sb).
  { rewrite Z.div_div by done. apply Z.div_lt_upper_bound; [done|]. unfold BLOCKz in *. lia. }
  pose proof (Z.mod_pos_bound (block / 8) BLOCKz ltac:(done)).
  unfold homely, in_journal, plausible_layout in *. lia.
Qed.

Lemma reads_free_spec n V v block :
  resting V v → 0 ≤ n → 0 ≤ block < blocks sb → room (n + 2) (vcache v) →
  does n (Volume.reads_free sb block) v
    (fun _ v' => resting V v' ∧ broken)
    (fun is_free v' => resting V v' ∧ (is_free = true ↔ free_in V block)).
Proof.
  intros Hv Hn Hb Hroom. destruct (bitmap_block block Hb) as (Hrange & Hh & Hw). pose proof (rs_calm _ _ Hv) as Hc.
  pose proof (homely_range _ Hh) as Hhr. pose proof (st_blocks_range (store c0)) as Hnb.
  unfold Volume.reads_free. set (holding := bitmap_start sb + block / 8 / BLOCKz) in *.
  eapply does_pout; [apply checked_ok; unfold in_width; fold holding; lia|]. fold holding.
  rewrite (proj2 (Z.leb_gt _ _)) by lia.
  eapply (does_bind n); [|lia|].
  - eapply does_cache; [apply (page_spec n (vcache v) holding); [apply Hc|done|done|lia]|..].
    + intros e c' Hok [Hse Hex]. split; [apply (resting_moved V v); [done|by exists c']|].
      by apply (excused_broken V v holding).
    + intros bytes c' Hok (Hse & _ & Hbytes).
      instantiate (1 := fun bytes v' => resting V v' ∧ bytes = V holding). simpl. split; [apply (resting_moved V v); [done|by exists c']|].
      rewrite Hbytes. apply (cm_view _ _ Hc). by apply homely_not_payload.
  - intros bytes v1 [Hv1 ->] Hr1. unfold free_in. fold holding.
    assert (Hlen : length (V holding) = BLOCK).
    { rewrite <- (cm_view _ _ Hc) by by apply homely_not_payload. apply view_length; [apply Hc|]. rewrite (calm_blocks V v); [lia|done]. }
    destruct (lookup_lt_is_Some_2 (V holding) (Z.to_nat (block / 8 mod BLOCKz))) as [cell Hcell].
    { rewrite Hlen, block_value. unfold BLOCKz in *. lia. }
    rewrite Hcell. cbn [ok_or]. apply does_ret; [done|]. split; [done|].
    rewrite land_pow2 by (apply Z.mod_pos_bound; lia). rewrite negb_true_iff. split; [by exists cell|].
    intros (x & [= ->] & Hx). done.
Qed.

Lemma free_block_loop_spec n V taken range : ∀ v,
  resting V v → 0 ≤ n → Forall (fun b => data_start sb ≤ b < blocks sb) range →
  room (n + 2 * Z.of_nat (length range)) (vcache v) →
  does n (Volume.free_block_loop sb taken range) v
    (fun e v' => resting V v' ∧ ((∀ b, b ∈ range → b ≠ taken → ¬ free_in V b) ∨ broken))
    (fun b v' => resting V v' ∧ b ∈ range ∧ b ≠ taken ∧ free_in V b).
Proof.
  induction range as [|block range IH]; intros v Hv Hn Hf Hroom; cbn [Volume.free_block_loop].
  { apply does_fail; [by eapply room_weaken, Hroom; simpl; lia|]. split; [done|]. left. by intros b ?%elem_of_nil. }
  apply Forall_cons in Hf as [Hb Hf]. cbn [length] in Hroom.
  pose proof (st_blocks_range (store c0)) as Hnb. assert (Hlay := Hlayout). unfold plausible_layout in Hlay.
  assert (Hskip : ∀ v', resting V v' → room (n + 2 * Z.of_nat (length range)) (vcache v') → block = taken ∨ ¬ free_in V block →
    does n (Volume.free_block_loop sb taken range) v'
      (fun e v' => resting V v' ∧ ((∀ b, b ∈ block :: range → b ≠ taken → ¬ free_in V b) ∨ broken))
      (fun b v' => resting V v' ∧ b ∈ block :: range ∧ b ≠ taken ∧ free_in V b)).
  { intros v' Hv' Hr' Hno. eapply does_mono; [by apply IH|lia|..].
    - intros e w [Hw [Hall|?]]; [|by split; [|right]]. split; [done|left]. intros b [->|Hin]%elem_of_cons Hne; [|by apply Hall].
      by destruct Hno.
    - intros b w (Hw & Hin & Hrest). split_and!; [done|by apply elem_of_cons; right|apply Hrest|apply Hrest]. }
  destruct (Z.eqb_spec block taken) as [->|Hne].
  { apply Hskip; [done|by eapply room_weaken, Hroom; lia|by left]. }
  eapply (does_bind (n + 2 * Z.of_nat (length range))); [|lia|].
  - eapply does_mono; [apply (reads_free_spec (n + 2 * Z.of_nat (length range)) V v block); [done|lia|lia|]|lia|..].
    + by eapply room_weaken, Hroom; lia.
    + intros e v' [Hv' ?]. split; [done|by right].
    + intros a v' H. exact H.
  - intros is_free v1 [Hv1 Hfree] Hr1. destruct is_free.
    + unfold Volume.as_u32. rewrite (proj2 (Z.ltb_lt _ _)) by lia. apply does_ret; [by eapply room_weaken, Hr1; lia|].
      split_and!; [done|by apply elem_of_cons; left|done|by apply Hfree].
    + apply Hskip; [done|done|]. right. intros Hx. by apply Hfree in Hx.
Qed.

Lemma free_block_excluding_spec n V v taken :
  resting V v → 0 ≤ n → room (n + 2 * blocks sb) (vcache v) →
  does n (Volume.free_block_excluding taken) v
    (fun e v' => resting V v' ∧ ((∀ b, data_start sb ≤ b < blocks sb → b ≠ taken → ¬ free_in V b) ∨ broken))
    (fun b v' => resting V v' ∧ data_start sb ≤ b < blocks sb ∧ b ≠ taken ∧ free_in V b).
Proof.
  intros Hv Hn Hroom. apply does_super; [apply Hv|]. assert (Hlay := Hlayout). unfold plausible_layout in Hlay.
  assert (Hin : ∀ b, b ∈ Volume.data_blocks sb ↔ data_start sb ≤ b < blocks sb).
  { intros b. unfold Volume.data_blocks. rewrite elem_of_seqZ. lia. }
  eapply does_mono; [apply (free_block_loop_spec n V taken (Volume.data_blocks sb)); [done|done| |]|lia|..].
  - apply Forall_forall. intros b. apply Hin.
  - eapply room_weaken, Hroom. unfold Volume.data_blocks. rewrite length_seqZ. lia.
  - intros e v' [Hv' [Hall|?]]; [|by split; [|right]]. split; [done|left]. intros b Hb. apply Hall. by apply Hin.
  - intros b v' (Hv' & Hb & Hrest). split; [done|]. split; [by apply Hin|done].
Qed.

(** The first free inode: a slot that decodes as free. *)
Lemma free_inode_loop_spec V m : ∀ n v index,
  resting V v → 0 ≤ n → 0 ≤ index → room (n + 2 * Z.of_nat m) (vcache v) →
  does n (Volume.free_inode_loop m index) v
    (fun e v' => resting V v' ∧ ((∀ k i, index ≤ k < index + Z.of_nat m → inode_in V sb k = Ok i → kind i ≠ KFree) ∨ broken))
    (fun k v' => resting V v' ∧ index ≤ k < index + Z.of_nat m ∧ ∃ i, inode_in V sb k = Ok i ∧ kind i = KFree).
Proof.
  induction m as [|m IH]; intros n v index Hv Hn Hi Hroom; cbn [Volume.free_inode_loop].
  { exists (Err Full), v. split_and!; [done|by eapply room_weaken, Hroom; lia|done|]. left. lia. }
  destruct (volume_inode_spec (n + 2 * Z.of_nat m) V v index
    (fun e v' => resting V v' ∧ (inode_in V sb index = Err e ∨ broken))
    (fun i v' => resting V v' ∧ inode_in V sb index = Ok i)) as (r & v1 & Hin & Hr1 & Hpost); try done; [lia| |].
  { eapply room_weaken, Hroom. lia. }
  unfold does. rewrite Hin. cbn [mbind outcome_bind].
  assert (Hskip : resting V v1 → (∀ i, inode_in V sb index = Ok i → kind i ≠ KFree) ∨ broken →
    does n (Volume.free_inode_loop m (index + 1)) v1
    (fun e v' => resting V v' ∧ ((∀ k i, index ≤ k < index + Z.of_nat (Datatypes.S m) → inode_in V sb k = Ok i → kind i ≠ KFree) ∨ broken))
    (fun k v' => resting V v' ∧ index ≤ k < index + Z.of_nat (Datatypes.S m) ∧ ∃ i, inode_in V sb k = Ok i ∧ kind i = KFree)).
  { intros Hv1 Hno. eapply does_mono; [apply (IH n v1 (index + 1)); [done|done|lia|done]|lia|..].
    - intros e v' [Hv' Hwhy]. split; [done|]. destruct Hno as [Hno|?]; [|by right]. destruct Hwhy as [Hall|?]; [left|by right].
      intros k i Hk Hki. destruct (decide (k = index)) as [->|]; [by apply Hno|]. apply (Hall k); [lia|done].
    - intros k v' (Hv' & Hk & Hfree). split_and!; [done|lia|lia|done]. }
  destruct r as [i|e]; destruct Hpost as [Hv1 Hi1].
  - case_bool_decide as Hk.
    + exists (Ok index), v1. split_and!; [done|by eapply room_weaken, Hr1; lia|done|lia|lia|by exists i].
    + apply Hskip; [done|]. left. intros j Hj. rewrite Hi1 in Hj. by simplify_eq.
  - apply Hskip; [done|]. destruct Hi1 as [Hi1|?]; [left|by right]. intros j Hj. rewrite Hi1 in Hj. done.
Qed.

Lemma free_inode_spec n V v :
  resting V v → 0 ≤ n → room (n + 2 * 2 ^ 32) (vcache v) → 0 ≤ inodes sb →
  does n Volume.free_inode v
    (fun e v' => resting V v' ∧ ((∀ k i, 0 ≤ k < Z.min (inodes sb) (2 ^ 32 - 1) → inode_in V sb k = Ok i → kind i ≠ KFree) ∨ broken))
    (fun k v' => resting V v' ∧ 0 ≤ k < Z.min (inodes sb) (2 ^ 32 - 1) ∧ ∃ i, inode_in V sb k = Ok i ∧ kind i = KFree).
Proof.
  intros Hv Hn Hroom Hin. apply does_super; [apply Hv|].
  eapply does_mono; [apply (free_inode_loop_spec V _ n v 0); [done|done|done|]|lia|..].
  - eapply room_weaken, Hroom. lia.
  - intros e v' [Hv' Hwhy]. split; [done|]. destruct Hwhy as [Hall|?]; [left|by right]. intros k i Hk. apply Hall. lia.
  - intros k v' (Hv' & Hk & Hrest). split_and!; [done|lia|lia|done].
Qed.

(** ** Beginning, and the metadata steps *)
Lemma begin_spec n V v :
  resting V v → 0 ≤ n → room (n + 22) (vcache v) →
  does n Volume.begin v (fun _ v' => resting V v' ∧ broken) (fun _ v' => tx V V v' ∧ vcount v' = 0%nat).
Proof.
  intros Hv Hn Hroom. pose proof (rs_calm _ _ Hv) as Hc. apply does_super; [apply Hv|].
  destruct (layout_fits sb (nblocks c0) Hlayout) as [Hfit Hj]; [apply st_blocks_range|].
  assert (Hlay := Hlayout). unfold plausible_layout in Hlay.
  eapply (does_bind n); [|lia|].
  - eapply does_cache; [apply answers_returns, (pending_spec n (vcache v) sb broken); [done|done|split; [apply Hc|done]|done|]|..].
    + intros b Hb Hbl. apply (excused_broken V v b); [done| |done]. unfold in_journal in Hb. lia.
    + intros e c' Hok [Hse HE]. split; [|done]. apply (resting_moved V v); [done|by exists c'].
    + intros waiting c' Hok [Hse Hw]. instantiate (1 := fun waiting v' => resting V v' ∧ waiting = false). simpl. split.
      * apply (resting_moved V v); [done|by exists c'].
      * rewrite Hw. apply bool_decide_eq_false. intros Hne. apply Hne, idle_commit. unfold idle. simpl.
        rewrite (cm_view _ _ Hc); [apply Hv|]. unfold payload. lia.
  - intros waiting v1 [Hv1 ->] Hr1. pose proof (rs_calm _ _ Hv1) as Hc1. eexists (Ok ()), _. split_and!; [done|done| |done].
    split; simpl.
    + destruct Hc1. by split.
    + assert (Hseq : in_width 64 (wrapping_add 64 (vsequence v1) 1)) by (by apply trunc_range). unfold in_width in Hseq. lia.
    + apply Hv1.
    + lia.
    + constructor.
    + constructor.
    + intros b Hb. unfold new_blocks, homes_of. simpl. apply (cm_view _ _ Hc1). intros Hp. apply Hb.
      unfold payload, in_journal in *. lia.
Qed.

Lemma tx_length V New v h : tx V New v → homely sb h → length (New h) = BLOCK.
Proof.
  intros Ht Hh. rewrite <- (tx_new _ _ _ Ht) by apply Hh. pose proof (tx_calm _ _ _ Ht) as Hc. unfold new_blocks.
  destruct (position _ _) as [i|] eqn:Hp; (apply view_length; [apply Hc|]); rewrite (calm_blocks V v) by done.
  - apply position_some in Hp as [(x & Hx & _) _]. destruct (tx_slot _ _ _ _ _ Ht Hx) as (Hlt & _ & _).
    destruct (slot_in_range _ Hlt) as (Hj0 & Hsl & Hnb). rewrite (cm_super _ _ Hc). lia.
  - by apply homely_range.
Qed.

Lemma tx_bytes V New v h : tx V New v → homely sb h → Forall is_byte (New h).
Proof.
  intros Ht Hh. rewrite <- (tx_new _ _ _ Ht) by apply Hh. pose proof (tx_calm _ _ _ Ht) as Hc. unfold new_blocks.
  destruct (position _ _); apply Hc.
Qed.

(** The block map with one inode written, and with one bit of the bitmap set. *)
Definition edit_inode (i : Inode) (off : nat) (bytes : list Z) : result (list Z) FsError :=
  old ←? ok_or (get bytes off INODE) OutOfRange; new ←? Inode.encode i old; Ok (splice bytes off new).
Definition edit_bit (block : Z) (used' : bool) (bytes : list Z) : result (list Z) FsError :=
  cell ←? ok_or (bytes !! Z.to_nat (block / 8 mod BLOCKz)) OutOfRange;
  Ok (<[Z.to_nat (block / 8 mod BLOCKz) :=
          if used' then Z.lor cell (Z.shiftl 1 (block mod 8)) else Z.land cell (Z.lxor 255 (Z.shiftl 1 (block mod 8)))]> bytes).

(** One block changed by an edit, if the edit accepts it. *)
Definition edited (h : Z) (f : list Z → result (list Z) FsError) (M : Z → list Z) : Z → list Z :=
  match f (M h) with Ok w => upd M h w | Err _ => M end.
Definition put_inode (index : Z) (i : Inode) (M : Z → list Z) : Z → list Z :=
  match Superblock.inode_at sb index with Ok at' => edited at'.1 (edit_inode i at'.2) M | Err _ => M end.
Definition put_bit (block : Z) (used' : bool) (M : Z → list Z) : Z → list Z :=
  edited (bitmap_start sb + block / 8 / BLOCKz) (edit_bit block used') M.

Lemma edit_inode_sized i off : sized (edit_inode i off).
Proof.
  intros bytes w Hl Hb. unfold edit_inode. destruct (get bytes off INODE) as [old|] eqn:Hg; cbn [ok_or rbind]; [|done].
  destruct (Inode.encode i old) as [new|] eqn:He; cbn [rbind]; [|done]. intros [= <-].
  pose proof (get_bytes _ _ _ _ Hb Hg) as Hob. apply get_spec in Hg as (Hoff & Hol & _). split.
  - rewrite length_splice; [done|]. by rewrite (encode_length i old new).
  - apply splice_bytes; [done|]. by eapply encode_bytes.
Qed.

Lemma edit_inode_accepts i off bytes : inode_ok i → (off + INODE ≤ length bytes)%nat → ∃ w, edit_inode i off bytes = Ok w.
Proof.
  intros Hi Hl. unfold edit_inode. destruct (get_some bytes off INODE Hl) as (old & -> & Hol). cbn [ok_or rbind].
  destruct (inode_encode_spec i old Hi) as (out & -> & _ & _); [lia|]. by eexists.
Qed.

(** Putting an inode into the transaction. *)
Lemma stage_inode_spec n V New v index i :
  tx V New v → inode_ok i → 0 ≤ index → 0 ≤ n → room (n + 7) (vcache v) →
  does n (Volume.stage_inode index i) v
    (fun e v' => calm V v' ∧ (Superblock.inode_at sb index = Err e ∨ e = Full ∧ vcount v = MAX_STAGED ∨ broken))
    (fun _ v' => tx V (put_inode index i New) v' ∧ ∃ h off, Superblock.inode_at sb index = Ok (h, off) ∧ gains v [h] v').
Proof.
  intros Ht Hi Hx Hn Hroom. pose proof (tx_calm _ _ _ Ht) as Hc. apply does_super; [apply Hc|]. unfold put_inode.
  unfold does, pbind at 1, plift at 1. cbn [mbind outcome_bind].
  destruct (Superblock.inode_at sb index) as [[h off]|e] eqn:Hat.
  2:{ exists (Err e), v. split_and!; [done|by eapply room_weaken, Hroom; lia|done|by left]. }
  destruct (inode_block_not_payload index h off Hx Hat) as [Hp Hh].
  destruct (inode_at_spec _ _ _ _ Htable Hx Hat) as (_ & _ & Hoff & _). cbn [fst snd].
  destruct (edit_inode_accepts i off (New h)) as [w Hw]; [done|by rewrite (tx_length V New v h)|].
  eapply does_mono; [apply (stage_edit_spec n V New v h (edit_inode i off)); [done|done|done|done|apply edit_inode_sized]|lia|..].
  - intros e v' [Hcv [Hbad|Hwhy]]; [congruence|]. split; [done|]. by right.
  - intros [] v' (w' & Hw' & Ht' & Hcnt). split; [unfold edited; by rewrite Hw'|by exists h, off].
Qed.

Lemma edit_bit_sized block used' : sized (edit_bit block used').
Proof.
  intros bytes w Hl Hb. unfold edit_bit. destruct (bytes !! _) as [cell|] eqn:Hcell; cbn [ok_or rbind]; [|done].
  intros [= <-]. split; [by rewrite length_insert|]. apply Forall_insert; [done|].
  pose proof (Forall_lookup_1 _ _ _ _ Hb Hcell) as Hbyte. unfold is_byte in *.
  pose proof (Z.mod_pos_bound block 8 ltac:(lia)) as Hm. set (k := block mod 8) in *.
  change 256 with (2 ^ 8) in *. assert (Hc8 := proj1 (Z.bounded_iff_bits_nonneg 8 cell ltac:(lia) ltac:(lia)) ltac:(lia)).
  destruct used'.
  - assert (H0 : 0 ≤ Z.lor cell (Z.shiftl 1 k)) by (apply Z.lor_nonneg; split; [lia|apply Z.shiftl_nonneg; lia]).
    split; [done|]. apply Z.bounded_iff_bits_nonneg; [lia|done|]. intros l Hl8. rewrite Z.lor_spec, Hc8 by done.
    rewrite Z.shiftl_spec by lia. simpl. destruct (Z.testbit 1 (l - k)) eqn:Hbit; [|done].
    destruct (decide (l - k = 0)); [lia|]. by rewrite Z.bits_above_log2 in Hbit by (simpl; lia).
  - assert (H0 : 0 ≤ Z.land cell (Z.lxor 255 (Z.shiftl 1 k))) by (apply Z.land_nonneg; lia).
    split; [done|]. apply Z.bounded_iff_bits_nonneg; [lia|done|]. intros l Hl8. by rewrite Z.land_spec, Hc8.
Qed.

(** Marking a block in the transaction. *)
Lemma stage_bitmap_spec n V New v block used' :
  tx V New v → 0 ≤ block < blocks sb → 0 ≤ n → room (n + 7) (vcache v) →
  does n (Volume.stage_bitmap block used') v
    (fun e v' => calm V v' ∧ (e = Full ∧ vcount v = MAX_STAGED ∨ broken))
    (fun _ v' => tx V (put_bit block used' New) v' ∧ gains v [bitmap_start sb + block / 8 / BLOCKz] v').
Proof.
  intros Ht Hb Hn Hroom. pose proof (tx_calm _ _ _ Ht) as Hc. apply does_super; [apply Hc|]. unfold put_bit.
  destruct (bitmap_block block Hb) as (Hr & Hh & Hw). set (holding := bitmap_start sb + block / 8 / BLOCKz) in *.
  pose proof (homely_range _ Hh) as Hhr. pose proof (st_blocks_range (store c0)) as Hnb.
  eapply does_pout; [apply checked_ok; unfold in_width; fold holding; lia|]. fold holding.
  rewrite (proj2 (Z.leb_gt _ _)) by lia. rewrite (proj2 (Z.leb_gt _ _)) by lia.
  destruct (lookup_lt_is_Some_2 (New holding) (Z.to_nat (block / 8 mod BLOCKz))) as [cell Hcell].
  { rewrite (tx_length V New v), block_value by done. unfold BLOCKz in *. lia. }
  eapply does_mono; [apply (stage_edit_spec n V New v holding (edit_bit block used')); [done|done|done|done|apply edit_bit_sized]|lia|..].
  - intros e v' [Hcv [Hbad|Hwhy]]; [|by split]. unfold edit_bit in Hbad. by rewrite Hcell in Hbad.
  - intros [] v' (w' & Hw' & Ht' & Hcnt). split; [unfold edited; by rewrite Hw'|done].
Qed.

(** ** Ending an operation *)

(** Blocks outside the journal, and outside those changed in place. *)
Definition as_before (D : Z → list Z) : Prop := ∀ b, ¬ in_journal sb b → b ∉ X → D b = V0 b.
Definition as_made New (D : Z → list Z) : Prop := ∀ b, ¬ in_journal sb b → D b = New b.

Lemma low_not_in_place b : b ≤ journal_start sb → b ∉ X.
Proof.
  intros Hb Hin. rewrite Forall_forall in HX. specialize (HX b Hin). unfold plausible_layout in Hlayout. lia.
Qed.

Lemma low_not_payload b : b ≤ journal_start sb → ¬ payload sb b.
Proof. unfold payload. lia. Qed.

Lemma calm_low V v b : calm V v → b ≤ journal_start sb → ondisk (vcache v) b = V0 b ∧ view (vcache v) b = V0 b.
Proof.
  intros Hc Hb. pose proof (low_not_in_place b Hb). pose proof (low_not_payload b Hb).
  rewrite (cm_disk _ _ Hc), (cm_view _ _ Hc) by done. split; by apply (cm_base _ _ Hc).
Qed.

(** An operation that stopped before its commit left the device as it was. *)
Lemma calm_recovers V v : calm V v → recovers_to (nblocks c0) (ondisk (vcache v)) as_before.
Proof.
  intros Hc. assert (Hlay := Hlayout). unfold plausible_layout in Hlay.
  eapply recovers_mono; [apply (idle_recovers sb); [done| |]|].
  - rewrite (proj1 (calm_low V v 0 Hc ltac:(lia))). done.
  - apply (idle_ext sb V0); [|done]. apply (calm_low V v); [done|lia].
  - intros D HD b Hj Hx. rewrite HD, (cm_disk _ _ Hc); [by apply (cm_base _ _ Hc)| |done].
    intros Hp. apply Hj. unfold payload, in_journal in *. lia.
Qed.

Lemma tx_staged_ok V New v : tx V New v → (0 < vcount v)%nat → staged_ok v ∧ super_on_disk v.
Proof.
  intros Ht Hn. pose proof (tx_calm _ _ _ Ht) as Hc. pose proof (cm_super _ _ Hc) as Hsb. assert (Hlay := Hlayout).
  unfold plausible_layout in Hlay. split.
  - split; rewrite ?Hsb.
    + apply Hc.
    + by apply (calm_layout V v).
    + apply (idle_ext sb V0); [|done]. apply (calm_low V v); [done|lia].
    + apply Ht.
    + apply Ht.
    + split; [done|apply Ht].
    + pose proof (tx_count _ _ _ Ht) as Hcnt. assert (Hrm := Hroomy). unfold roomy in Hrm. unfold homes_ok.
      rewrite (homes_length V New v Ht). split_and!; [done|lia|apply Ht].
    + apply Ht.
    + intros b Hb. destruct (calm_low V v b Hc) as [-> ->]; [|done]. destruct Hb; lia.
  - unfold super_on_disk. rewrite Hsb, (calm_blocks V v Hc), (proj1 (calm_low V v 0 Hc ltac:(lia))). done.
Qed.

(** Committing: all or nothing, and at rest again on success. *)
Lemma commit_tx_spec n V New v order :
  tx V New v → (0 < vcount v)%nat → order_ok order (vcount v) → 0 ≤ n → room (n + 332) (vcache v) →
  does n (Volume.commit order) v
    (fun _ v' => recovers_to (nblocks c0) (ondisk (vcache v')) (fun D => as_before D ∨ as_made New D) ∧ broken)
    (fun _ v' => recovers_to (nblocks c0) (ondisk (vcache v')) (as_made New) ∧
       cache_ok (vcache v') ∧ same_room c0 (vcache v') ∧ vsuper v' = sb ∧ length (staged v') = MAX_STAGED ∧
       (∀ b, ondisk (vcache v') b = view (vcache v') b) ∧ idle sb (view (vcache v')) ∧
       (∀ b, Forall is_byte (view (vcache v') b)) ∧ as_made New (view (vcache v')) ∧ view (vcache v') 0 = V0 0).
Proof.
  intros Ht Hn Ho Hn0 Hroom. destruct (tx_staged_ok V New v Ht Hn) as [Hs Hsup]. pose proof (tx_calm _ _ _ Ht) as Hc.
  assert (Hlay := Hlayout). unfold plausible_layout in Hlay.
  destruct (commit_spec n v order Hs Ho Hn0 Hroom) as (r & v' & Hm & Hok & Hr & Hleaves & Hres).
  exists r, v'. split_and!; [done|done|]. pose proof (cm_super _ _ Hc) as Hsb.
  assert (Hmade : ∀ D, (∀ b, b ≠ journal_start (vsuper v) → D b = new_blocks v b) → as_made New D).
  { intros D HD b Hb. rewrite HD; [by apply Ht|]. rewrite Hsb. intros ->. apply Hb. unfold in_journal. lia. }
  rewrite <- (calm_blocks V v Hc). destruct r as [[]|e].
  - destruct Hres as ((head & Hcl) & Hclean & Hroom' & Hsup' & Hst').
    assert (Hdv : ∀ b, ondisk (vcache v') b = view (vcache v') b) by (intros b; by rewrite view_clean).
    assert (Hnew : ∀ b, b ≠ journal_start sb → view (vcache v') b = new_blocks v b).
    { intros b Hb. rewrite <- Hdv. destruct Hcl as [_ Hcl]. rewrite Hcl by by rewrite Hsb. apply new_state_blocks. by rewrite Hsb. }
    assert (Hjs : view (vcache v') (journal_start sb) = replicate BLOCK 0).
    { rewrite <- Hdv. destruct Hcl as [Hcl _]. by rewrite Hsb in Hcl. }
    split_and!; try done.
    + eapply recovers_mono; [apply durable_recovers; [done|done|by eapply DAfter]|auto].
    + etrans; [apply (cm_room _ _ Hc)|done].
    + by rewrite Hsup'.
    + rewrite Hst'. apply Ht.
    + by apply zeros_idle.
    + intros b. destruct (decide (b = journal_start sb)) as [->|Hb].
      * rewrite Hjs. apply Forall_replicate. unfold is_byte. lia.
      * rewrite Hnew by done. unfold new_blocks. destruct (position _ _); apply Hc.
    + intros b Hb. rewrite Hnew; [by apply Ht|]. intros ->. apply Hb. unfold in_journal. lia.
    + rewrite Hnew by lia. rewrite (tx_new _ _ _ Ht) by (unfold in_journal; lia).
      rewrite <- (tx_new _ _ _ Ht) by (unfold in_journal; lia). unfold new_blocks.
      destruct (position _ _) as [i|] eqn:Hp; [|apply (calm_low V v); [done|lia]].
      apply position_some in Hp as [(x & Hx & Heq%Z.eqb_eq) _].
      pose proof (Forall_lookup_1 _ _ _ _ (tx_homes _ _ _ Ht) Hx) as [? _]. lia.
  - split.
    + eapply recovers_mono; [by apply leaves_recovers|]. intros D [Hun|HD]; [left|right; by apply Hmade].
      intros b Hj Hx. assert (Hp : ¬ payload sb b) by (intros Hp; apply Hj; unfold payload, in_journal in *; lia).
      destruct (Hun b) as [->|[_ ->]]; [rewrite (cm_disk _ _ Hc)|rewrite (cm_view _ _ Hc)]; try done; by apply (cm_base _ _ Hc).
    + intros Hfree. apply Hres. by apply (cm_room _ _ Hc).
Qed.

End Staging.
