(* ===== verification/Files.v ===== *)
(** * Creating, truncating and removing files

    The metadata operations of src/fs/src/volume.rs, whole: [create_ordered],
    [truncate] and [remove].  Each is one transaction.  The theorems say what
    blocks the operation makes of the blocks there were, as a function of them,
    and that a machine which stops anywhere comes back with all of it or with
    none; the theorem on removal is in Directory.v, over [remove_file_spec]. *)
From stdpp Require Import prelude numbers list.
From S2P Require Import Prelude Bytes Fs Cache Journal Reader Volume Crash Staging.
Open Scope Z_scope.
Set Warnings "-clear-no-such-hyp".

#[local] Opaque BLOCK.

(** What the operations rely on of a file system's layout. *)
Record sound (sb : Superblock) : Prop := {
  snd_roomy : roomy sb;
  snd_table : table_fits sb;
  snd_bitmap : blocks sb ≤ (inode_start sb - bitmap_start sb) * (BLOCKz * 8);
  snd_inodes : 0 ≤ inodes sb
}.

(** A mounted volume between operations, its log empty: outside the journal's
    payload the device holds what the volume shows. *)
Record at_rest {S} `{!Store S} `{!StoreLaws S} (v : Volume S) : Prop := {
  ar_cache : cache_ok (vcache v);
  ar_layout : plausible_layout (vsuper v) (st_blocks (store (vcache v)));
  ar_super : Superblock.read_head (view (vcache v) 0) (st_blocks (store (vcache v))) = Ok (vsuper v);
  ar_idle : idle (vsuper v) (view (vcache v));
  ar_bytes b : Forall is_byte (view (vcache v) b);
  ar_disk b : ¬ payload (vsuper v) b → disk (store (vcache v)) b = view (vcache v) b;
  ar_staged : length (staged v) = MAX_STAGED
}.

Section Operations.
Context {S : Type} `{!Store S} `{!StoreLaws S}.
Implicit Types (v : Volume S) (V New : Z → list Z).

Abbreviation nblocks c := (st_blocks (store c)).
Abbreviation ondisk c := (disk (store c)).

Lemma at_rest_setting v X :
  at_rest v → sound (vsuper v) → Forall (fun b => data_start (vsuper v) ≤ b < blocks (vsuper v)) X →
  setting (vcache v) (vsuper v) X (view (vcache v)) ∧
  resting (vcache v) (vsuper v) X (view (vcache v)) (view (vcache v)) v.
Proof.
  intros [Hok Hl Hs Hi Hb Hd Hst] [Hr Ht Hbm _] HX. split; [by split|]. split; [|done|done].
  split; try done. intros b Hp _. by apply Hd.
Qed.

(** How an operation ends.  On success the volume is at rest again, showing what
    the operation [made], and so does the device, however often it stops
    afterwards.  On failure the device holds all of it or none. *)
Definition ends {A} (sb : Superblock) (nb : Z) (X : list Z) V (made : A → (Z → list Z) → Prop) (r : result A FsError) v : Prop :=
  match r with
  | Ok a => ∃ New, made a New ∧ at_rest v ∧ vsuper v = sb ∧ as_made sb New (view (vcache v)) ∧
      recovers_to nb (ondisk (vcache v)) (as_made sb New)
  | Err _ => recovers_to nb (ondisk (vcache v)) (fun D =>
      as_before sb X V D ∨ ∃ a New, made a New ∧ as_made sb New D)
  end.

(** Asking for no order is always allowed. *)
Lemma no_order n : order_ok [] n.
Proof. by intros <-. Qed.

Section Ending.
Context (c0 : Cache S) (sb : Superblock) (X : list Z) (V0 : Z → list Z) {Hset : setting c0 sb X V0}.

(** A failure before the commit. *)
Lemma ends_early {A} (made : A → (Z → list Z) → Prop) V v e :
  calm c0 sb X V0 V v → ends sb (nblocks c0) X V0 made (Err e) v.
Proof. intros Hc. eapply recovers_mono; [by apply (calm_recovers c0 sb X V0 V v)|]. auto. Qed.

(** The commit, and the answer after it. *)
Lemma commit_ends {A} (made : A → (Z → list Z) → Prop) (why : FsError → Prop) n V New v order a :
  tx c0 sb X V0 V New v → (0 < vcount v)%nat → order_ok order (vcount v) → 0 ≤ n → room (n + 332) (vcache v) → made a New →
  does n (_ ←! Volume.commit order; pret a) v
    (fun e v' => ends sb (nblocks c0) X V0 made (Err e) v' ∧ (why e ∨ broken c0))
    (fun a' v' => a' = a ∧ ends sb (nblocks c0) X V0 made (Ok a') v').
Proof.
  intros Ht Hc Ho Hn Hroom Hmade. eapply (does_then n); [by apply (commit_tx_spec c0 sb X V0 n V New v order)|lia|..].
  - intros e v' [Hrec Hbr]. split; [|by right]. eapply recovers_mono; [exact Hrec|].
    intros D [?|?]; [by left|right; by exists a, New].
  - intros [] v' (Hrec & Hok & Hsr & Hsb & Hst & Hdv & Hidle & Hby & Hmd & H0) Hr. apply does_ret; [done|]. split; [done|].
    exists New. split_and!; try done. split; rewrite ?Hsb, ?(proj1 Hsr); try done.
    + apply (set_layout c0 sb X V0).
    + rewrite H0. apply (set_super c0 sb X V0).
Qed.

Lemma commit_ends_unit (made : unit → (Z → list Z) → Prop) (why : FsError → Prop) n V New v order :
  tx c0 sb X V0 V New v → (0 < vcount v)%nat → order_ok order (vcount v) → 0 ≤ n → room (n + 332) (vcache v) → made () New →
  does n (Volume.commit order) v
    (fun e v' => ends sb (nblocks c0) X V0 made (Err e) v' ∧ (why e ∨ broken c0))
    (fun a v' => ends sb (nblocks c0) X V0 made (Ok a) v').
Proof.
  intros Ht Hc Ho Hn Hroom Hmade.
  destruct (commit_ends made why n V New v order () Ht Hc Ho Hn Hroom Hmade) as (r & v' & Hm & Hr & Hpost).
  exists r, v'. split; [|split; [done|by destruct r as [a|e]; [destruct Hpost|]]].
  revert Hm. unfold pbind, pret. by destruct (Volume.commit order v) as [[[[]|e] w]| |].
Qed.

(** An operation with nothing to do. *)
Lemma rest_ends {A} (made : A → (Z → list Z) → Prop) v a :
  X = [] → resting c0 sb X V0 V0 v → made a V0 → ends sb (nblocks c0) X V0 made (Ok a) v.
Proof.
  intros HX [Hc Hi Hs] Hm. pose proof (set_layout c0 sb X V0) as Hl. unfold plausible_layout in Hl.
  assert (Hlow : view (vcache v) 0 = V0 0) by (apply (cm_view _ _ _ _ _ _ Hc); unfold payload; lia).
  exists V0. split_and!; [done| |apply Hc| |].
  - assert (Hsb := cm_super _ _ _ _ _ _ Hc). split; rewrite ?Hsb, ?(calm_blocks c0 sb X V0 V0 v Hc).
    + apply Hc.
    + apply (set_layout c0 sb X V0).
    + rewrite Hlow. apply (set_super c0 sb X V0).
    + apply (idle_ext sb V0); [|done]. apply (cm_view _ _ _ _ _ _ Hc). unfold payload. lia.
    + apply Hc.
    + intros b Hb. rewrite (cm_disk _ _ _ _ _ _ Hc), (cm_view _ _ _ _ _ _ Hc) by (done || rewrite HX; apply not_elem_of_nil). done.
    + done.
  - intros b Hb. apply (cm_view _ _ _ _ _ _ Hc). intros Hp. apply Hb. unfold payload, in_journal in *. lia.
  - eapply recovers_mono; [by apply (calm_recovers c0 sb X V0 V0 v)|]. intros D HD b Hb. apply HD; [done|].
    rewrite HX. apply not_elem_of_nil.
Qed.

End Ending.

(** ** Directory entries as edits of a page *)
Definition zeroes (bytes : list Z) : result (list Z) FsError := Ok (replicate (length bytes) 0).

Lemma zeroes_sized : sized zeroes.
Proof.
  intros bytes w Hl _ [= <-]. rewrite length_replicate. split; [done|]. apply Forall_replicate. unfold is_byte. lia.
Qed.

(** An entry whose fields are bytes. *)
Definition entry_bytes (e : Entry) : Prop := is_byte (elength e) ∧ Forall is_byte (ename e) ∧ length (ename e) = MAX_NAME.

Lemma entry_write_sized e at' : entry_bytes e → sized (fun bytes => Entry.write e bytes at').
Proof.
  intros (Hl & Hn & Hlen) bytes w Hb Hby. unfold Entry.write. case_decide as Hat; [done|].
  destruct (write_fields _ _) as [slot|] eqn:Hw; cbn [ok_or rbind]; [|done]. intros [= <-].
  pose proof (write_fields_length _ _ _ Hw) as Hsl. rewrite length_replicate in Hsl. split.
  - rewrite length_splice; lia.
  - apply splice_bytes; [done|]. eapply write_fields_bytes, Hw; [apply Forall_replicate; unfold is_byte; lia|].
    rewrite !Forall_cons, Forall_nil. split_and!; [apply (to_le_bytes 4)|by apply Forall_singleton|done|done].
Qed.

Lemma entry_write_accepts e bytes at' :
  entry_bytes e → (at' + ENTRY ≤ length bytes)%nat → ∃ w, Entry.write e bytes at' = Ok w.
Proof.
  intros (_ & _ & Hlen) Hl. unfold Entry.write. rewrite decide_False by lia.
  destruct (write_fields_spec [(0%nat, to_le 4 (einode e)); (4%nat, [elength e]); (5%nat, ename e)] (replicate ENTRY 0) 0 ENTRY)
    as (out & -> & _); [unfold ENTRY, MAX_NAME in *; simpl; lia|by rewrite length_replicate|]. cbn [ok_or rbind]. by eexists.
Qed.

Lemma entry_new_bytes index name e : Forall is_byte name → Entry.new index name = Ok e → entry_bytes e.
Proof.
  intros Hb. unfold Entry.new. destruct (_ || _) eqn:Hg; [done|]. destruct (existsb _ _); [done|]. intros [= <-].
  apply orb_false_iff in Hg as [_ Hmax%bool_decide_eq_false]. unfold entry_bytes, is_byte. simpl. unfold MAX_NAME in *. split_and!; [lia|lia| |].
  - apply Forall_app. split; [done|]. apply Forall_replicate. unfold is_byte. lia.
  - rewrite length_app, length_replicate. lia.
Qed.

Lemma entry_read_bytes bytes at' e : Forall is_byte bytes → Entry.read bytes at' = Ok e → entry_bytes e.
Proof.
  intros Hb. unfold Entry.read. destruct (get bytes at' ENTRY) as [slot|] eqn:Hs; cbn [ok_or rbind]; [|done].
  apply (get_bytes _ _ _ _ Hb) in Hs. destruct (get slot 5 MAX_NAME) as [nm|] eqn:Hn; cbn [ok_or rbind]; [|done].
  destruct (u32_at slot 0); cbn [ok_or rbind]; [|done]. destruct (slot !! 4%nat) as [l|] eqn:Hl; cbn [ok_or rbind]; [|done].
  intros [= <-]. pose proof (Forall_lookup_1 _ _ _ _ Hs Hl) as Hlb. unfold entry_bytes, is_byte in *. simpl. unfold MAX_NAME.
  split_and!; [lia|lia|by eapply get_bytes|]. by apply get_spec in Hn as (_ & ? & _).
Qed.

(** ** Creating *)

(** Where a directory's next entry goes. *)
Definition next_which (parent : Inode) : nat := Z.to_nat (size parent / Z.of_nat ENTRY mod Volume.PER).
Definition next_block (parent : Inode) : nat := Z.to_nat (size parent / Z.of_nat ENTRY / Volume.PER).

(** The directory, with a block more if the entry starts one. *)
Definition grown (parent : Inode) (fresh : option Z) : Inode :=
  match fresh with Some b => Volume.with_block parent (next_block parent) b | None => parent end.
Definition grown_blocks (sb : Superblock) (fresh : option Z) V : Z → list Z :=
  match fresh with Some b => edited b zeroes (put_bit sb b true V) | None => V end.

(** What creating [name] makes of the blocks [V]: a zeroed block for the directory
    if it needs one, the entry, the directory's size, the new inode. *)
Definition create_blocks (sb : Superblock) (directory : Z) (name : list Z) (kind' : Kind)
    (parent : Inode) (index generation' : Z) (fresh : option Z) V : Z → list Z :=
  let parent' := grown parent fresh in
  let block := default 0 (direct parent' !! next_block parent) in
  let V := grown_blocks sb fresh V in
  let V := match Entry.new index name with
           | Ok e => edited block (fun bytes => Entry.write e bytes (next_which parent * ENTRY)) V
           | Err _ => V
           end in
  put_inode sb index (MkInode kind' 1 (Z.max (wrapping_add 32 generation' 1) 1) 0 (replicate 10 0) 0)
    (put_inode sb directory (Volume.with_size parent' (size parent + Z.of_nat ENTRY)) V).

(** The inode, the generation and the block a creation may pick.  With a device
    that fails reads ([broken]) the name may be there unseen and the old
    generation unread. *)
Record create_choice (sb : Superblock) (bad : Prop) (directory : Z) (name : list Z) V
    (parent : Inode) (index generation' : Z) (fresh : option Z) : Prop := {
  cc_parent : inode_in V sb directory = Ok parent;
  cc_directory : kind parent = KDirectory;
  cc_absent : is_Err (lookup_in V sb parent name) ∨ bad;
  cc_index : 0 ≤ index < Z.min (inodes sb) (2 ^ 32 - 1);
  cc_free : ∃ old, inode_in V sb index = Ok old ∧ kind old = KFree ∧ (generation' = generation old ∨ generation' = 0 ∧ bad);
  cc_room : (next_block parent < 10)%nat;
  cc_fresh : match fresh with
             | Some b => next_which parent = 0%nat ∧ data_start sb ≤ b < blocks sb ∧ free_in sb V b
             | None => next_which parent ≠ 0%nat
             end
}.

Definition created (sb : Superblock) (bad : Prop) (directory : Z) (name : list Z) (kind' : Kind) V (index : Z) New : Prop :=
  ∃ parent generation' fresh, create_choice sb bad directory name V parent index generation' fresh ∧
    (∃ e, Entry.new index name = Ok e) ∧ New = create_blocks sb directory name kind' parent index generation' fresh V.

(** Why a creation is refused. *)
Inductive create_refused (sb : Superblock) (directory : Z) (name : list Z) (kind' : Kind) V : Prop :=
| refuse_name : (∀ index, is_Err (Entry.new index name)) → create_refused sb directory name kind' V
| refuse_kind : kind' = KFree → create_refused sb directory name kind' V
| refuse_unread e : inode_in V sb directory = Err e → create_refused sb directory name kind' V
| refuse_parent parent : inode_in V sb directory = Ok parent → kind parent ≠ KDirectory → create_refused sb directory name kind' V
| refuse_there parent x : inode_in V sb directory = Ok parent → lookup_in V sb parent name = Ok x → create_refused sb directory name kind' V
| refuse_inodes : (∀ k i, 0 ≤ k < Z.min (inodes sb) (2 ^ 32 - 1) → inode_in V sb k = Ok i → kind i ≠ KFree) →
    create_refused sb directory name kind' V
| refuse_large parent : inode_in V sb directory = Ok parent → (10 ≤ next_block parent)%nat → create_refused sb directory name kind' V
| refuse_blocks : (∀ b, data_start sb ≤ b < blocks sb → b ≠ 2 ^ 32 - 1 → ¬ free_in sb V b) → create_refused sb directory name kind' V
| refuse_hole parent : inode_in V sb directory = Ok parent → direct parent !! next_block parent = Some 0 →
    create_refused sb directory name kind' V.

Section Create.
Context (c0 : Cache S) (sb : Superblock) (V0 : Z → list Z) {Hset : setting c0 sb [] V0}.

Abbreviation calm0 := (calm c0 sb [] V0 V0).
Abbreviation rest0 := (resting c0 sb [] V0 V0).
Abbreviation tx0 := (tx c0 sb [] V0 V0).

Lemma data_homely b : data_start sb ≤ b < blocks sb → homely sb b ∧ 0 ≤ b < blocks sb.
Proof.
  pose proof (set_layout c0 sb [] V0) as Hl. unfold plausible_layout, homely, in_journal in *. lia.
Qed.

Lemma grow_directory_spec n v parent fresh :
  tx0 V0 v → vcount v = 0%nat → (next_block parent < length (direct parent))%nat → 0 ≤ n → room (n + 14) (vcache v) →
  (∀ b, fresh = Some b → data_start sb ≤ b < blocks sb) →
  does n (Volume.grow_directory parent (next_block parent) fresh) v
    (fun _ v' => calm0 v' ∧ broken c0)
    (fun p v' => p = grown parent fresh ∧ tx0 (grown_blocks sb fresh V0) v' ∧ (vcount v' ≤ 2)%nat).
Proof.
  intros Ht Hc Hnb Hn Hroom Hf. destruct fresh as [b|]; simpl.
  2:{ apply does_ret; [by eapply room_weaken, Hroom; lia|]. split_and!; [done|done|lia]. }
  destruct (data_homely b (Hf b eq_refl)) as [Hh Hb].
  eapply (does_then (n + 7)); [apply (stage_bitmap_spec c0 sb [] V0 (n + 7) V0 V0 v b true); [done|done|lia|]|lia|..].
  { by eapply room_weaken, Hroom; lia. }
  { intros e v' [? [[_ ?]|?]]; [unfold MAX_STAGED in *; lia|done]. }
  intros [] v1 [Ht1 [Hc1 _]] Hr1. simpl in Hc1. eapply (does_then (n + 2)); [eapply (stage_spec c0 sb [] V0 (n + 2) V0 _ v1 b); [exact Ht1|done|lia|]|lia|..].
  { by eapply room_weaken, Hr1; lia. }
  { intros e v' [? [[_ ?]|?]]; [unfold MAX_STAGED in *; lia|done]. }
  intros slot v2 (Ht2 & Hs2 & [Hc2 _]) Hr2. simpl in Hc2. apply does_assoc.
  eapply (does_then n); [eapply (edit_staged_spec c0 sb [] V0 n V0 _ v2 slot b zeroes); [exact Ht2|done|done|done|exact zeroes_sized]|lia|..].
  { intros e v' [? [?|?]]; [done|done]. }
  intros [] v3 (w & Hw & Ht3 & Hc3 & _) Hr3. rewrite decide_True by done. apply does_ret; [done|].
  split_and!; [done| |lia]. unfold edited. by rewrite Hw.
Qed.

Lemma with_size_ok i z : inode_ok i → in_width 64 z → inode_ok (Volume.with_size i z).
Proof. intros [] Hz. by split. Qed.

Lemma with_block_ok i k b : inode_ok i → in_width 32 b → inode_ok (Volume.with_block i k b).
Proof.
  intros [] Hb. split; simpl; try done; [by rewrite length_insert|]. intros x Hx.
  apply list_elem_of_lookup_1 in Hx as [j Hj]. apply list_lookup_insert_Some in Hj as [(_ & <- & _)|[_ Hj]]; [done|].
  apply io_blocks. by eapply list_elem_of_lookup_2.
Qed.

Lemma new_inode_ok k g : inode_ok (Volume.new_inode k g).
Proof.
  assert (Hg : in_width 32 (wrapping_add 32 g 1)) by (by apply trunc_range). unfold in_width in Hg.
  split; simpl; unfold in_width; try lia. intros b Hb.
  apply (Forall_forall (in_width 32) (replicate 10 0)); [apply Forall_replicate; unfold in_width; lia|done].
Qed.

Lemma entry_new_index index index' name : is_Err (Entry.new index name) → is_Err (Entry.new index' name).
Proof. unfold Entry.new. destruct (_ || _); [done|]. by destruct (existsb _ _). Qed.

Lemma grown_ok parent fresh :
  inode_ok parent → (∀ b, fresh = Some b → data_start sb ≤ b < blocks sb) → inode_ok (grown parent fresh).
Proof.
  intros Hi Hf. destruct fresh as [b|]; [|done]. apply with_block_ok; [done|].
  pose proof (set_layout c0 sb [] V0) as Hl. pose proof (st_blocks_range (store c0)) as Hr. specialize (Hf b eq_refl).
  unfold plausible_layout, in_width in *. lia.
Qed.

Lemma next_which_range parent : 0 ≤ size parent → (next_which parent * ENTRY + ENTRY ≤ BLOCK)%nat.
Proof.
  intros Hs. unfold next_which. change Volume.PER with 128. rewrite block_value. unfold ENTRY.
  pose proof (Z.mod_pos_bound (size parent / Z.of_nat 32) 128 ltac:(lia)). lia.
Qed.

(** The transaction of a creation. *)
Lemma create_body_spec n v directory name kind' order parent index g fresh :
  rest0 v → create_choice sb (broken c0) directory name V0 parent index g fresh → 0 ≤ directory →
  Forall is_byte name → dir_ok sb parent → (∀ k, order_ok order k) → 0 ≤ n → room (n + 500) (vcache v) →
  does n (_ ←! Volume.begin;
          parent' ←! Volume.grow_directory parent (next_block parent) fresh;
          block ←! pout (at_index (direct parent') (next_block parent));
          if (block =? 0) || (blocks sb <=? block) then pfail OutOfRange
          else
            slot ←! Volume.stage block;
            entry ←! plift (Entry.new index name);
            page' ←! Volume.staged_mut slot;
            _ ←! Volume.update_page page' (fun bytes => Entry.write entry bytes (next_which parent * ENTRY));
            size' ←! pout (add_checked 64 (size parent') (Z.of_nat ENTRY));
            _ ←! Volume.stage_inode directory (Volume.with_size parent' size');
            _ ←! Volume.stage_inode index (Volume.new_inode kind' g);
            _ ←! Volume.commit order;
            pret index) v
    (fun e v' => ends sb (nblocks c0) [] V0 (created sb (broken c0) directory name kind' V0) (Err e) v' ∧
       (create_refused sb directory name kind' V0 ∨ broken c0))
    (fun a v' => a = index ∧ ends sb (nblocks c0) [] V0 (created sb (broken c0) directory name kind' V0) (Ok a) v').
Proof.
  intros Hv Hch Hdir Hname Hdok Hord Hn Hroom. pose proof (rs_calm _ _ _ _ _ _ Hv) as Hcv.
  pose proof (inode_in_ok c0 sb [] V0 V0 v directory parent Hcv Hdir (cc_parent _ _ _ _ _ _ _ _ _ Hch)) as Hpok.
  pose proof (set_layout c0 sb [] V0) as Hlay. pose proof (st_blocks_range (store c0)) as Hnb32. unfold plausible_layout in Hlay.
  assert (Hfresh : ∀ b, fresh = Some b → data_start sb ≤ b < blocks sb).
  { intros b ->. by destruct (cc_fresh _ _ _ _ _ _ _ _ _ Hch) as (_ & ? & _). }
  pose proof (grown_ok parent fresh Hpok Hfresh) as Hgok. pose proof (io_size _ Hpok) as Hsz. unfold in_width in Hsz.
  assert (Hnxt : (next_block parent < length (direct parent))%nat).
  { rewrite (io_direct _ Hpok). apply Hch. }
  assert (Hsame : size (grown parent fresh) = size parent) by by destruct fresh.
  eapply (does_then (n + 478)); [apply (begin_spec c0 sb [] V0 (n + 478) V0 v); [done|lia|by eapply room_weaken, Hroom; lia]|lia|..].
  { intros e v' [Hv' Hbr]. split; [|by right]. by eapply ends_early, rs_calm. }
  intros [] v1 [Ht1 Hc1] Hr1.
  eapply (does_then (n + 464)); [apply (grow_directory_spec (n + 464)); [done|done|done|lia|by eapply room_weaken, Hr1; lia|done]|lia|..].
  { intros e v' [Hc' Hbr]. split; [by eapply ends_early|by right]. }
  intros parent' v2 (-> & Ht2 & Hc2) Hr2.
  destruct (lookup_lt_is_Some_2 (direct (grown parent fresh)) (next_block parent)) as [block Hblock].
  { by rewrite (io_direct _ Hgok), <- (io_direct _ Hpok). }
  eapply does_pout; [by apply at_index_ok|].
  assert (Hearly : ∀ v', calm0 v' → ∀ e, ends sb (nblocks c0) [] V0 (created sb (broken c0) directory name kind' V0) (Err e) v').
  { intros v' Hv' e. by eapply ends_early. }
  assert (Hcase : block = 0 ∧ direct parent !! next_block parent = Some 0 ∨ data_start sb ≤ block < blocks sb).
  { destruct fresh as [b|]; simpl in Hblock.
    - rewrite list_lookup_insert_eq in Hblock by done. simplify_eq. right. by apply Hfresh.
    - destruct (Forall_lookup_1 _ _ _ _ (proj2 Hdok) Hblock) as [->|?]; [by left|by right]. }
  destruct Hcase as [[-> Hhole]|Hdata].
  { cbn [Z.eqb orb]. apply does_fail; [by eapply room_weaken, Hr2; lia|]. split; [apply Hearly, Ht2|left].
    eapply refuse_hole; [apply Hch|done]. }
  rewrite (proj2 (Z.eqb_neq block 0)), (proj2 (Z.leb_gt (blocks sb) block)) by lia. cbn [orb].
  destruct (data_homely block Hdata) as [Hh _].
  eapply (does_then (n + 400)); [eapply (stage_spec c0 sb [] V0 (n + 400) V0 _ v2 block); [exact Ht2|done|lia|by eapply room_weaken, Hr2; lia]|lia|..].
  { intros e v' [? [[_ ?]|?]]; [unfold MAX_STAGED in *; lia|]. split; [by apply Hearly|by right]. }
  intros slot v3 (Ht3 & Hs3 & [Hc3 _]) Hr3. simpl in Hc3.
  destruct (Entry.new index name) as [entry|e] eqn:Hentry.
  2:{ exists (Err e), v3. split_and!; [done|by eapply room_weaken, Hr3; lia|apply Hearly, Ht3|left].
      apply refuse_name. intros k. apply (entry_new_index index). by rewrite Hentry. }
  pose proof (entry_new_bytes _ _ _ Hname Hentry) as Heb.
  set (M2 := grown_blocks sb fresh V0) in *. set (f := fun bytes => Entry.write entry bytes (next_which parent * ENTRY)).
  destruct (entry_write_accepts entry (M2 block) (next_which parent * ENTRY)) as [page2 Hpage2]; [done| |].
  { rewrite (tx_length c0 sb [] V0 V0 M2 v2 block Ht2 Hh). apply next_which_range. lia. }
  eapply (does_bind (n + 400) n _ _ _ _ (fun e v' => e = entry ∧ v' = v3)); [apply does_lift; [done|done]|lia|].
  intros ? ? [-> ->] _. apply does_assoc.
  eapply (does_then (n + 398)); [eapply (edit_staged_spec c0 sb [] V0 (n + 398) V0 M2 v3 slot block f); [done|done|lia| |by apply entry_write_sized]|lia|..].
  { by eapply room_weaken, Hr3; lia. }
  { intros e v' [? [Hbad|?]]; [unfold f in Hbad; congruence|]. split; [by apply Hearly|by right]. }
  intros [] v4 (w & Hw & Ht4 & Hc4 & _) Hr4. rewrite Hsame.
  destruct Hdok as [Hd10 _]. unfold BLOCKz in Hd10.
  eapply does_pout; [apply checked_ok; unfold in_width; change (Z.of_nat ENTRY) with 32; lia|].
  eapply (does_then (n + 391)); [eapply (stage_inode_spec c0 sb [] V0 (n + 391) V0 _ v4 directory); [exact Ht4| |done|lia|by eapply room_weaken, Hr4; lia]|lia|..].
  { apply with_size_ok; [done|]. unfold in_width. change (Z.of_nat ENTRY) with 32. lia. }
  { intros e v' [? [Hat|[[_ ?]|?]]]; [|unfold MAX_STAGED in *; lia|].
    - pose proof (cc_parent _ _ _ _ _ _ _ _ _ Hch) as Hin. unfold inode_in in Hin. by rewrite Hat in Hin.
    - split; [by apply Hearly|by right]. }
  intros [] v5 (Ht5 & h5 & o5 & _ & [Hc5 _]) Hr5. simpl in Hc5.
  eapply (does_then (n + 384)); [eapply (stage_inode_spec c0 sb [] V0 (n + 384) V0 _ v5 index); [exact Ht5|apply new_inode_ok|apply Hch|lia|by eapply room_weaken, Hr5; lia]|lia|..].
  { intros e v' [? [Hat|[[_ ?]|?]]]; [|unfold MAX_STAGED in *; lia|].
    - destruct (cc_free _ _ _ _ _ _ _ _ _ Hch) as (old & Hin & _). unfold inode_in in Hin. by rewrite Hat in Hin.
    - split; [by apply Hearly|by right]. }
  intros [] v6 (Ht6 & h6 & o6 & _ & [Hc6 _]) Hr6.
  assert (Hn0 : (0 < vcount v6)%nat) by lia.
  eapply does_mono; [apply (commit_ends c0 sb [] V0 (created sb (broken c0) directory name kind' V0)
    (fun _ => create_refused sb directory name kind' V0) n V0 _ v6 order index Ht6 Hn0 (Hord _) Hn)|lia|done|done].
  { by eapply room_weaken, Hr6; lia. }
  exists parent, g, fresh. split; [done|]. split; [by exists entry|]. unfold create_blocks. rewrite Hentry, Hblock. cbn [default].
  fold M2 f. change (id block) with block. assert (edited block f M2 = upd M2 block w) as ->; [|done]. unfold edited. by rewrite Hw.
Qed.

Lemma free_choice n v parent :
  rest0 v → 0 ≤ n → room (n + 2 * blocks sb) (vcache v) → 0 ≤ size parent →
  does n (if size parent / Z.of_nat ENTRY mod Volume.PER =? 0 then block ←! Volume.free_block; pret (Some block) else pret None) v
    (fun _ v' => rest0 v' ∧ ((∀ b, data_start sb ≤ b < blocks sb → b ≠ 2 ^ 32 - 1 → ¬ free_in sb V0 b) ∨ broken c0))
    (fun fresh v' => rest0 v' ∧
       match fresh with
       | Some b => next_which parent = 0%nat ∧ data_start sb ≤ b < blocks sb ∧ free_in sb V0 b
       | None => next_which parent ≠ 0%nat
       end).
Proof.
  intros Hv Hn Hroom Hs. unfold next_which.
  pose proof (Z.mod_pos_bound (size parent / Z.of_nat ENTRY) Volume.PER ltac:(done)) as Hm.
  pose proof (set_layout c0 sb [] V0) as Hl. unfold plausible_layout in Hl.
  destruct (Z.eqb_spec (size parent / Z.of_nat ENTRY mod Volume.PER) 0) as [->|Hne].
  - eapply (does_bind n); [by apply (free_block_excluding_spec c0 sb [] V0 n V0 v (2 ^ 32 - 1))|lia|].
    intros b v1 (Hv1 & [? ?] & _ & Hf) Hr1. apply does_ret; [done|]. by split_and!.
  - apply does_ret; [by eapply room_weaken, Hroom; lia|]. split; [done|]. lia.
Qed.

(** The whole of [create_ordered]. *)
Lemma create_spec v directory name kind' order :
  rest0 v → 0 ≤ directory → Forall is_byte name → (∀ k, order_ok order k) → 0 ≤ inodes sb →
  (∀ i, inode_in V0 sb directory = Ok i → dir_ok sb i) → room (2 ^ 35) (vcache v) →
  does 0 (Volume.create_ordered directory name kind' order) v
    (fun e v' => ends sb (nblocks c0) [] V0 (created sb (broken c0) directory name kind' V0) (Err e) v' ∧
       (create_refused sb directory name kind' V0 ∨ broken c0))
    (fun a v' => ends sb (nblocks c0) [] V0 (created sb (broken c0) directory name kind' V0) (Ok a) v').
Proof.
  intros Hv Hdir Hname Hord Hin Hdok Hroom.
  assert (Hr0 : room 0 (vcache v)) by (by eapply room_weaken, Hroom; lia).
  assert (Hearly : ∀ v', rest0 v' → ∀ e, ends sb (nblocks c0) [] V0 (created sb (broken c0) directory name kind' V0) (Err e) v').
  { intros v' Hv' e. by eapply ends_early, rs_calm. }
  pose proof (set_layout c0 sb [] V0) as Hlay. pose proof (st_blocks_range (store c0)) as Hnb32. unfold plausible_layout in Hlay.
  unfold Volume.create_ordered. destruct (_ || _) eqn:Hbad.
  { apply does_fail; [done|]. split; [by apply Hearly|left]. apply refuse_name. intros k. unfold Entry.new. by rewrite Hbad. }
  clear Hbad. case_bool_decide as Hk; [apply does_fail; [done|]; split; [by apply Hearly|left; by apply refuse_kind]|].
  apply (does_super sb); [apply Hv|].
  eapply (does_bind (2 ^ 35 - 2)); [|lia|].
  { apply (volume_inode_spec c0 sb [] V0 (2 ^ 35 - 2) V0 v directory _ (fun i v' => rest0 v' ∧ inode_in V0 sb directory = Ok i));
      [done|lia|done|by eapply room_weaken, Hroom; lia| |done].
    intros e v' Hv' [He|?]; (split; [by apply Hearly|]); [left; by eapply refuse_unread|by right]. }
  intros parent v1 [Hv1 Hp] Hr1. case_bool_decide as Hkd; cbn [negb].
  2:{ apply does_fail; [by eapply room_weaken, Hr1; lia|]. split; [by apply Hearly|left]. by eapply refuse_parent. }
  pose proof (inode_in_ok c0 sb [] V0 V0 v1 directory parent (rs_calm _ _ _ _ _ _ Hv1) Hdir Hp) as Hpok.
  pose proof (io_size _ Hpok) as Hsz. unfold in_width in Hsz.
  eapply (does_bind (2 ^ 35 - 5126)); [|lia|].
  { apply does_tried, (volume_lookup_spec c0 sb [] V0 (2 ^ 35 - 5126) V0 v1 directory name
      (fun e v' => rest0 v' ∧ (lookup_in V0 sb parent name = Err e ∨ broken c0))
      (fun x v' => rest0 v' ∧ lookup_in V0 sb parent name = Ok x));
      [done|lia|done|by eapply room_weaken, Hr1; lia|done|..]; by rewrite Hp. }
  intros there v2 Hthere Hr2. destruct there as [x|e]; destruct Hthere as [Hv2 Hlk].
  { apply does_fail; [by eapply room_weaken, Hr2; lia|]. split; [by apply Hearly|left]. by eapply refuse_there. }
  eapply (does_then (2 ^ 34)); [apply (free_inode_spec c0 sb [] V0 (2 ^ 34) V0 v2); [done|lia|by eapply room_weaken, Hr2; lia|done]|lia|..].
  { intros e' v' [Hv' [Hno|?]]; (split; [by apply Hearly|]); [left; by apply refuse_inodes|by right]. }
  intros index v3 (Hv3 & Hidx & old & Hold & Hkf) Hr3.
  eapply (does_bind (2 ^ 34 - 2)); [|lia|].
  { apply does_tried, (volume_inode_spec c0 sb [] V0 (2 ^ 34 - 2) V0 v3 index
      (fun e v' => rest0 v' ∧ broken c0) (fun i v' => rest0 v' ∧ i = old)); [done|lia|lia|by eapply room_weaken, Hr3; lia|..].
    - intros e' v' Hv' [He|?]; [congruence|done].
    - intros i v' Hv' Hi. split; [done|congruence]. }
  intros r4 v4 Hr4' Hr4. assert (Hg : rest0 v4 ∧
    (match r4 with Ok o => generation o | Err _ => 0 end = generation old ∨
     match r4 with Ok o => generation o | Err _ => 0 end = 0 ∧ broken c0)).
  { destruct r4 as [o|e']; destruct Hr4' as [? Ho]; (split; [done|]); [left; by rewrite Ho|by right]. }
  clear Hr4'. destruct Hg as [Hv4 Hg]. set (g := match r4 with Ok o => generation o | Err _ => 0 end) in *.
  fold (next_block parent). rewrite (io_direct _ Hpok).
  assert (Hd : 0 ≤ size parent / Z.of_nat ENTRY / Volume.PER) by (apply Z.div_pos; [apply Z.div_pos; [lia|done]|done]).
  destruct (Z.leb_spec (Z.of_nat 10) (size parent / Z.of_nat ENTRY / Volume.PER)) as [Hlarge|Hsmall].
  { apply does_fail; [by eapply room_weaken, Hr4; lia|]. split; [by apply Hearly|left]. eapply refuse_large; [done|].
    unfold next_block. lia. }
  eapply (does_then 500); [apply (free_choice 500 v4 parent); [done|lia|by eapply room_weaken, Hr4; lia|lia]|lia|..].
  { intros e' v' [Hv' [Hno|?]]; (split; [by apply Hearly|]); [left; by apply refuse_blocks|by right]. }
  intros fresh v5 [Hv5 Hfresh] Hr5.
  eapply does_mono; [apply (create_body_spec 0 v5 directory name kind' order parent index g fresh); try done|lia|done|by intros a v' [_ ?]].
  - split; try done.
    + destruct Hlk as [->|?]; [by left|by right].
    + by exists old.
    + unfold next_block. lia.
  - by apply Hdok.
Qed.

End Create.

(** ** Freeing what a file holds *)

(** The blocks a file's inode and table name, up to the first that is missing,
    and the table. *)
Definition nonzero_prefix : list Z → list Z := take_while (fun b => negb (b =? 0)).
Definition held_blocks V (file : Inode) : list Z :=
  nonzero_prefix (direct file) ++
  (if indirect file =? 0 then []
   else match Volume.table_numbers (V (indirect file)) with
        | Ok numbers => nonzero_prefix numbers ++ [indirect file]
        | Err _ => []
        end).

(** The bitmap with every block of a list free. *)
Definition free_bits (sb : Superblock) (blocks' : list Z) V : Z → list Z :=
  foldl (fun M b => put_bit sb b false M) V blocks'.

(** A file whose blocks are data blocks. *)
Definition file_ok (sb : Superblock) V (file : Inode) : Prop :=
  Forall (fun b => data_start sb ≤ b < blocks sb) (held_blocks V file) ∧
  (indirect file = 0 ∨ data_start sb ≤ indirect file < blocks sb).

(** More blocks of bitmap than a transaction with [k] other homes can hold. *)
Definition crowded (sb : Superblock) (k : nat) : Prop :=
  Z.of_nat MAX_STAGED ≤ Z.of_nat k + (inode_start sb - bitmap_start sb).

Lemma NoDup_range_length (l k : list Z) a b :
  NoDup l → a ≤ b → (∀ x, x ∈ l → a ≤ x < b ∨ x ∈ k) → Z.of_nat (length l) ≤ (b - a) + Z.of_nat (length k).
Proof.
  intros Hnd Hab Hin. assert (Hsub : l ⊆+ seqZ a (b - a) ++ k).
  { apply NoDup_submseteq; [done|]. intros x Hx. rewrite elem_of_app, elem_of_seqZ. destruct (Hin x Hx); [left; lia|by right]. }
  apply submseteq_length in Hsub. rewrite length_app, length_seqZ in Hsub. lia.
Qed.

Section Free.
Context (c0 : Cache S) (sb : Superblock) (V0 : Z → list Z) {Hset : setting c0 sb [] V0}.

Abbreviation calm0 := (calm c0 sb [] V0 V0).
Abbreviation tx0 := (tx c0 sb [] V0 V0).

(** Only bitmap blocks have joined the transaction. *)
Definition bitmap_gains v v' : Prop :=
  (vcount v ≤ vcount v')%nat ∧
  ∀ x, x ∈ homes_of v' → bitmap_start sb ≤ x < inode_start sb ∨ x ∈ homes_of v.

Lemma full_crowded New v v' : tx0 New v → bitmap_gains v v' → (∃ New', tx0 New' v') → vcount v' = MAX_STAGED → crowded sb (vcount v).
Proof.
  intros Ht [_ Hg] [New' Ht'] Hfull. unfold crowded. rewrite <- Hfull, <- (homes_length c0 sb [] V0 V0 New' v') by done.
  rewrite <- (homes_length c0 sb [] V0 V0 New v) by done.
  pose proof (set_layout c0 sb [] V0) as Hl. unfold plausible_layout in Hl.
  rewrite Z.add_comm. apply NoDup_range_length; [apply Ht'|lia|exact Hg].
Qed.

Lemma free_all_spec n New0 v0 bs : ∀ New v,
  tx0 New0 v0 → tx0 New v → bitmap_gains v0 v → Forall (fun b => data_start sb ≤ b < blocks sb) bs →
  0 ≤ n → room (n + 7 * Z.of_nat (length bs)) (vcache v) →
  does n (Volume.free_all bs) v
    (fun e v' => calm0 v' ∧ (crowded sb (vcount v0) ∨ broken c0))
    (fun _ v' => tx0 (free_bits sb bs New) v' ∧ bitmap_gains v0 v').
Proof.
  induction bs as [|b bs IH]; intros New v Ht0 Ht Hg Hf Hn Hroom.
  { apply does_ret; [by eapply room_weaken, Hroom; simpl; lia|]. done. }
  apply Forall_cons in Hf as [Hb Hf]. destruct (data_homely c0 sb V0 b Hb) as [_ Hbr]. cbn [length] in Hroom.
  eapply (does_then (n + 7 * Z.of_nat (length bs)));
    [apply (stage_bitmap_spec c0 sb [] V0 (n + 7 * Z.of_nat (length bs)) V0 New v b false); [done|done|lia|by eapply room_weaken, Hroom; lia]|lia|..].
  - intros e v' [Hc [[_ Hfull]|?]]; (split; [done|]); [left|by right]. eapply (full_crowded New0 v0 v); eauto.
  - intros [] v1 [Ht1 [Hc1 Hh1]] Hr1. destruct (bitmap_block c0 sb [] V0 b Hbr) as (Hr & _ & _).
    apply (IH (put_bit sb b false New) v1); try done. destruct Hg as [Hcv Hg]. split; [lia|].
    intros x Hx. destruct (Hh1 x Hx) as [->%list_elem_of_singleton|Hx']; [by left|by apply Hg].
Qed.

(** The numbers of a whole page can be read. *)
Lemma table_numbers_ok table : length table = BLOCK → ∃ numbers, Volume.table_numbers table = Ok numbers ∧ length numbers = 1024%nat.
Proof.
  intros Hl. unfold Volume.table_numbers. replace (BLOCK / 4)%nat with 1024%nat by (rewrite block_value; vm_compute; reflexivity).
  destruct (mapM _ _) as [numbers|] eqn:Hm; cbn [ok_or].
  - exists numbers. split; [done|]. apply length_mapM in Hm. by rewrite <- Hm, length_seq.
  - exfalso. apply mapM_None in Hm. apply Exists_exists in Hm as (k & Hk%elem_of_seq & Hnone).
    unfold u32_at, le_at in Hnone. rewrite get_take in Hnone by (rewrite Hl, block_value; lia). done.
Qed.

Lemma take_while_length {A} (p : A → bool) l : (length (take_while p l) ≤ length l)%nat.
Proof. apply prefix_length, take_while_prefix. Qed.

Lemma free_contents_spec n New v file :
  tx0 New v → file_ok sb V0 file → (length (direct file) ≤ 10)%nat → 0 ≤ n → room (n + 7300) (vcache v) →
  does n (Volume.free_contents file) v
    (fun e v' => calm0 v' ∧ (crowded sb (vcount v) ∨ broken c0))
    (fun _ v' => tx0 (free_bits sb (held_blocks V0 file) New) v' ∧ bitmap_gains v v').
Proof.
  intros Ht [Hheld Hind] Hlen Hn Hroom. unfold Volume.free_contents, held_blocks in *. fold nonzero_prefix.
  apply Forall_app in Hheld as [Hdir Htab].
  assert (Hg0 : bitmap_gains v v) by (split; [lia|intros x Hx; by right]).
  pose proof (take_while_length (fun b => negb (b =? 0)) (direct file)) as Hdl. fold nonzero_prefix in Hdl.
  eapply (does_then (n + 7200)); [apply (free_all_spec (n + 7200) New v _ New v); try done; [lia|by eapply room_weaken, Hroom; lia]|lia|done|].
  intros [] v1 [Ht1 Hg1] Hr1. unfold free_bits. rewrite foldl_app. fold (free_bits sb (nonzero_prefix (direct file)) New).
  destruct (Z.eqb_spec (indirect file) 0) as [Hz|Hnz].
  { apply does_ret; [by eapply room_weaken, Hr1; lia|]. done. }
  destruct Hind as [?|Hind]; [done|]. destruct (data_homely c0 sb V0 _ Hind) as [Hh Hbr].
  pose proof (tx_calm _ _ _ _ _ _ _ Ht1) as Hc1. pose proof (homely_range c0 sb [] V0 _ Hh) as Hhr.
  destruct (edit_spec (n + 7198) (vcache v1) (indirect file)) as (r & c' & He & Hok & Hr' & Hpost); [apply Hc1|lia|by eapply room_weaken, Hr1; lia|lia|].
  unfold does, pbind at 1, Volume.on_cache at 1. rewrite He. cbn [mbind outcome_bind]. destruct r as [i|e].
  2:{ destruct Hpost as [Hse Hex]. exists (Err e), (Volume.with_cache v1 c').
      split_and!; [done|by eapply room_weaken, Hr'; lia|by apply calm_settles|right].
      by apply (excused_broken c0 sb [] V0 V0 v1 (indirect file)). }
  destruct Hpost as (_ & Hw & s & Hi & Hsb & _).
  assert (Hv : ∀ x, view c' x = view (vcache v1) x) by (intros x; rewrite (wr_view _ _ _ _ Hw); case_decide; by subst).
  pose proof (tx_same_view c0 sb [] V0 V0 _ v1 c' Ht1 Hok (wr_drains _ _ _ _ Hw) Hv) as Ht2.
  destruct (frame_done c' i (ok_shape _ Hok) (proj1 Hi)) as [Hfr Hfl].
  assert (Htable : fb c' i = V0 (indirect file)).
  { rewrite <- (view_held c' i s (indirect file)) by done. rewrite Hv. apply (cm_view _ _ _ _ _ _ Hc1). apply data_not_payload. lia. }
  unfold pbind at 1, Volume.read_page, Volume.on_cache at 1. cbn [Volume.with_cache vcache]. rewrite Hfr, Htable. cbn [mbind outcome_bind].
  rewrite Htable in Hfl. destruct (table_numbers_ok _ Hfl) as (numbers & Hnum & Hnl). unfold pbind at 1, plift at 1.
  rewrite Hnum in *. cbn [mbind outcome_bind]. apply Forall_app in Htab as [Hnf _].
  pose proof (take_while_length (fun b => negb (b =? 0)) numbers) as Hnpl. fold nonzero_prefix in Hnpl |- *.
  rewrite foldl_app. cbn [foldl].
  eapply (does_then (n + 7)); [apply (free_all_spec (n + 7) New v _ (free_bits sb (nonzero_prefix (direct file)) New) (Volume.with_cache v1 c')); try done; [lia|by eapply room_weaken, Hr'; lia]|lia|done|].
  intros [] v3 [Ht3 Hg3] Hr3.
  eapply does_mono; [eapply (stage_bitmap_spec c0 sb [] V0 n V0 _ v3 (indirect file) false); [exact Ht3|done|done|done]|lia|..].
  - intros e v' [Hc [[_ Hfull]|?]]; (split; [done|]); [left|by right]. eapply (full_crowded New v v3); eauto.
  - intros [] v4 [Ht4 [Hc4 Hh4]]. split; [exact Ht4|]. destruct Hg3 as [Hc3 Hg3]. split; [lia|]. intros x Hx.
    destruct (Hh4 x Hx) as [->%list_elem_of_singleton|Hx']; [left|by apply Hg3].
    by destruct (bitmap_block c0 sb [] V0 _ Hbr) as (Hr & _ & _).
Qed.

End Free.

(** ** Truncating *)
Definition already_empty (file : Inode) : bool :=
  (size file =? 0) && (indirect file =? 0) && (default 0 (direct file !! 0%nat) =? 0).

(** What truncating file [index] makes of the blocks [V]. *)
Definition truncate_blocks (sb : Superblock) (index : Z) (file : Inode) V : Z → list Z :=
  if already_empty file then V
  else put_inode sb index (MkInode (kind file) (links file) (generation file) 0 (replicate 10 0) 0) (free_bits sb (held_blocks V file) V).

Definition truncated (sb : Superblock) (index : Z) V (_ : unit) New : Prop :=
  ∃ file, inode_in V sb index = Ok file ∧ kind file = KFile ∧ New = truncate_blocks sb index file V.

Inductive truncate_refused (sb : Superblock) (index : Z) V : Prop :=
| truncate_unread e : inode_in V sb index = Err e → truncate_refused sb index V
| truncate_kind file : inode_in V sb index = Ok file → kind file ≠ KFile → truncate_refused sb index V
| truncate_crowded : crowded sb 0 → truncate_refused sb index V.

Section Truncate.
Context (c0 : Cache S) (sb : Superblock) (V0 : Z → list Z) {Hset : setting c0 sb [] V0}.

Abbreviation rest0 := (resting c0 sb [] V0 V0).
Abbreviation tx0 := (tx c0 sb [] V0 V0).

Lemma emptied_ok i : inode_ok i → inode_ok (Volume.emptied i).
Proof.
  intros []. split; simpl; try done; unfold in_width; try lia. intros b Hb.
  apply (Forall_forall (in_width 32) (replicate 10 0)); [apply Forall_replicate; unfold in_width; lia|done].
Qed.

Lemma truncate_spec v index :
  rest0 v → 0 ≤ index → (∀ i, inode_in V0 sb index = Ok i → kind i = KFile → file_ok sb V0 i) → room 8000 (vcache v) →
  does 0 (Volume.truncate index) v
    (fun e v' => ends sb (nblocks c0) [] V0 (truncated sb index V0) (Err e) v' ∧ (truncate_refused sb index V0 ∨ broken c0))
    (fun a v' => ends sb (nblocks c0) [] V0 (truncated sb index V0) (Ok a) v').
Proof.
  intros Hv Hi Hfile Hroom. unfold Volume.truncate.
  assert (Hearly : ∀ V v', calm c0 sb [] V0 V v' → ∀ e, ends sb (nblocks c0) [] V0 (truncated sb index V0) (Err e) v').
  { intros V v' Hv' e. by eapply ends_early. }
  eapply (does_bind 7998); [|lia|].
  { apply (volume_inode_spec c0 sb [] V0 7998 V0 v index _ (fun i v' => rest0 v' ∧ inode_in V0 sb index = Ok i));
      [done|lia|done|by eapply room_weaken, Hroom; lia| |done].
    intros e v' Hv' [He|?]; (split; [by eapply Hearly, rs_calm|]); [left; by eapply truncate_unread|by right]. }
  intros file v1 [Hv1 Hin] Hr1. case_bool_decide as Hk; cbn [negb].
  2:{ apply does_fail; [by eapply room_weaken, Hr1; lia|]. split; [by eapply Hearly, rs_calm|left]. by eapply truncate_kind. }
  pose proof (inode_in_ok c0 sb [] V0 V0 v1 index file (rs_calm _ _ _ _ _ _ Hv1) Hi Hin) as Hfok.
  destruct (lookup_lt_is_Some_2 (direct file) 0%nat) as [first Hfirst]; [rewrite (io_direct _ Hfok); lia|].
  eapply does_pout; [by apply at_index_ok|].
  assert (Hempty : already_empty file = (size file =? 0) && (indirect file =? 0) && (first =? 0)) by (unfold already_empty; by rewrite Hfirst).
  rewrite <- Hempty. destruct (already_empty file) eqn:Hae.
  { apply does_ret; [by eapply room_weaken, Hr1; lia|]. apply (rest_ends c0 sb [] V0); [done|done|]. exists file.
    split_and!; [done|done|]. unfold truncate_blocks. by rewrite Hae. }
  eapply (does_then 7900); [apply (begin_spec c0 sb [] V0 7900 V0 v1); [done|lia|by eapply room_weaken, Hr1; lia]|lia|..].
  { intros e v' [Hv' Hbr]. split; [by eapply Hearly, rs_calm|by right]. }
  intros [] v2 [Ht2 Hc2] Hr2.
  eapply (does_then 400); [apply (free_contents_spec c0 sb V0 400 V0 v2 file); [done|by apply Hfile|rewrite (io_direct _ Hfok); lia|lia|by eapply room_weaken, Hr2; lia]|lia|..].
  { intros e v' [Hc' Hwhy]. split; [by eapply Hearly|]. rewrite Hc2 in Hwhy. destruct Hwhy; [left; by apply truncate_crowded|by right]. }
  intros [] v3 [Ht3 Hg3] Hr3.
  eapply (does_then 350); [eapply (stage_inode_spec c0 sb [] V0 350 V0 _ v3 index); [exact Ht3|by apply emptied_ok|done|lia|by eapply room_weaken, Hr3; lia]|lia|..].
  { intros e v' [Hc' [Hat|[[_ Hfull]|?]]].
    - unfold inode_in in Hin. by rewrite Hat in Hin.
    - split; [by eapply Hearly|left]. apply truncate_crowded. rewrite <- Hc2. eapply (full_crowded c0 sb V0 V0 v2 v3); eauto.
    - split; [by eapply Hearly|by right]. }
  intros [] v4 (Ht4 & h & off & _ & [Hc4 _]) Hr4.
  assert (Hn0 : (0 < vcount v4)%nat) by lia.
  apply (commit_ends_unit c0 sb [] V0 (truncated sb index V0) (fun _ => truncate_refused sb index V0) 0 V0 _ v4 [] Ht4 Hn0 (no_order _));
    [lia|by eapply room_weaken, Hr4; lia|].
  exists file. split_and!; [done|done|]. unfold truncate_blocks. by rewrite Hae.
Qed.

End Truncate.

(** ** Removing *)

(** Entry [k] of a directory. *)
Definition entry_block (parent : Inode) (k : Z) : Z := default 0 (direct parent !! Z.to_nat (k / Volume.PER)).
Definition entry_slot (k : Z) : nat := Z.to_nat (k mod Volume.PER) * ENTRY.
Definition entry_at V (parent : Inode) (k : Z) : result Entry FsError :=
  Entry.read (V (entry_block parent k)) (entry_slot k).
Definition entry_count (parent : Inode) : Z := size parent / Z.of_nat ENTRY.

(** Every block a directory's size says it has is a data block. *)
Definition dir_full (sb : Superblock) (parent : Inode) : Prop :=
  ∀ k, 0 ≤ k < entry_count parent → data_start sb ≤ entry_block parent k < blocks sb.

(** What removing entry [k] of a directory, which names inode [index], makes of
    the blocks [V]: the last entry over it, the directory shorter, the inode dead,
    its blocks free. *)
Definition remove_blocks (sb : Superblock) (directory : Z) (parent : Inode) (k index : Z) (victim : Inode) (moving : Entry)
    V : Z → list Z :=
  let M := edited (entry_block parent k) (fun bytes => Entry.write moving bytes (entry_slot k)) V in
  let M := put_inode sb directory (Volume.with_size parent (size parent - Z.of_nat ENTRY)) M in
  free_bits sb (held_blocks V victim) (put_inode sb index (MkInode KFree 0 (generation victim) 0 (replicate 10 0) 0) M).

Record remove_choice (sb : Superblock) (directory : Z) (name : list Z) V
    (parent : Inode) (k index : Z) (victim : Inode) (moving : Entry) : Prop := {
  rc_parent : inode_in V sb directory = Ok parent;
  rc_directory : kind parent = KDirectory;
  rc_named : lookup_in V sb parent name = Ok (index, victim);
  rc_empty : ¬ (kind victim = KDirectory ∧ size victim ≠ 0);
  rc_entry : 0 ≤ k < entry_count parent ∧ ∃ e, entry_at V parent k = Ok e ∧ Entry.name e = name;
  rc_first j e : 0 ≤ j < k → entry_at V parent j = Ok e → Entry.name e ≠ name;
  rc_last : entry_at V parent (entry_count parent - 1) = Ok moving
}.

Definition removed (sb : Superblock) (directory : Z) (name : list Z) V (_ : unit) New : Prop :=
  ∃ parent k index victim moving, remove_choice sb directory name V parent k index victim moving ∧
    New = remove_blocks sb directory parent k index victim moving V.

Inductive remove_refused (sb : Superblock) (directory : Z) (name : list Z) V : Prop :=
| remove_unread e : inode_in V sb directory = Err e → remove_refused sb directory name V
| remove_kind parent : inode_in V sb directory = Ok parent → kind parent ≠ KDirectory → remove_refused sb directory name V
| remove_missing parent e : inode_in V sb directory = Ok parent → lookup_in V sb parent name = Err e → remove_refused sb directory name V
| remove_unlisted parent : inode_in V sb directory = Ok parent →
    (∀ j e, 0 ≤ j < entry_count parent → entry_at V parent j = Ok e → Entry.name e ≠ name) → remove_refused sb directory name V
| remove_filled parent index victim : inode_in V sb directory = Ok parent → lookup_in V sb parent name = Ok (index, victim) →
    kind victim = KDirectory → size victim ≠ 0 → remove_refused sb directory name V
| remove_crowded : crowded sb 3 → remove_refused sb directory name V.

Section Remove.
Context (c0 : Cache S) (sb : Superblock) (V0 : Z → list Z) {Hset : setting c0 sb [] V0}.

Abbreviation calm0 := (calm c0 sb [] V0 V0).
Abbreviation rest0 := (resting c0 sb [] V0 V0).
Abbreviation tx0 := (tx c0 sb [] V0 V0).

Lemma entry_slot_range k : (entry_slot k + ENTRY ≤ BLOCK)%nat.
Proof.
  unfold entry_slot. change Volume.PER with 128. rewrite block_value. unfold ENTRY.
  pose proof (Z.mod_pos_bound k 128 ltac:(lia)). lia.
Qed.

Lemma entry_read_ok bytes at' : length bytes = BLOCK → (at' + ENTRY ≤ BLOCK)%nat → ∃ e, Entry.read bytes at' = Ok e.
Proof.
  intros Hl Hat. unfold Entry.read. destruct (get_some bytes at' ENTRY ltac:(lia)) as (slot & -> & Hsl). cbn [ok_or rbind].
  destruct (get_some slot 5 MAX_NAME) as (nm & -> & _); [unfold ENTRY, MAX_NAME in *; lia|]. cbn [ok_or rbind].
  unfold u32_at, le_at. destruct (get_some slot 0 4) as (x & -> & _); [unfold ENTRY in *; lia|]. cbn [fmap option_fmap option_map ok_or rbind].
  destruct (lookup_lt_is_Some_2 slot 4%nat) as [l ->]; [unfold ENTRY in *; lia|]. cbn [ok_or rbind]. by eexists.
Qed.

(** The block of an entry can be read. *)
Lemma entry_page_spec n v parent k (G : FsError → Volume S → Prop) :
  rest0 v → 0 ≤ n → room (n + 2) (vcache v) → data_start sb ≤ entry_block parent k < blocks sb →
  (∀ e v', rest0 v' → broken c0 → G e v') →
  does n (Volume.on_cache (Cache.cache_page (entry_block parent k))) v G
    (fun bytes v' => rest0 v' ∧ bytes = V0 (entry_block parent k) ∧ length bytes = BLOCK).
Proof.
  intros Hv Hn Hroom Hb HG. destruct (data_homely c0 sb V0 _ Hb) as [Hh _]. pose proof (rs_calm _ _ _ _ _ _ Hv) as Hc.
  pose proof (homely_range c0 sb [] V0 _ Hh) as Hhr.
  eapply does_cache; [apply (page_spec n (vcache v) (entry_block parent k)); [apply Hc|done|done|lia]|..].
  - intros e c' Hok [Hse Hex]. apply HG; [apply (resting_moved c0 sb [] V0 V0 v); [done|by exists c']|].
    by apply (excused_broken c0 sb [] V0 V0 v (entry_block parent k)).
  - intros bytes c' Hok (Hse & Hlt & Hbytes). split; [apply (resting_moved c0 sb [] V0 V0 v); [done|by exists c']|].
    assert (Hvw : view (vcache v) (entry_block parent k) = V0 (entry_block parent k)).
    { apply (cm_view _ _ _ _ _ _ Hc). apply data_not_payload. lia. }
    split; [congruence|]. rewrite Hbytes. apply view_length; [apply Hc|lia].
Qed.

Lemma find_entry_spec parent name m : ∀ n v k (G : FsError → Volume S → Prop),
  rest0 v → 0 ≤ n → room (n + 2 * Z.of_nat m) (vcache v) → dir_full sb parent → dir_ok sb parent → inode_ok parent →
  0 ≤ k → k + Z.of_nat m = entry_count parent →
  (∀ e v', rest0 v' → broken c0 → G e v') →
  does n (Volume.find_entry m parent name k) v G
    (fun r v' => rest0 v' ∧
       match r with
       | Some j => k ≤ j < entry_count parent ∧ (∃ e, entry_at V0 parent j = Ok e ∧ Entry.name e = name) ∧
           ∀ i e, k ≤ i < j → entry_at V0 parent i = Ok e → Entry.name e ≠ name
       | None => ∀ i e, k ≤ i < entry_count parent → entry_at V0 parent i = Ok e → Entry.name e ≠ name
       end).
Proof.
  induction m as [|m IH]; intros n v k G Hv Hn Hroom Hfull Hdok Hpok Hk Hkm HG; cbn [Volume.find_entry].
  { apply does_ret; [by eapply room_weaken, Hroom; lia|]. split; [done|]. lia. }
  assert (Hkr : 0 ≤ k < entry_count parent) by lia. specialize (Hfull k Hkr) as Hb.
  pose proof (io_size _ Hpok) as Hsz. unfold in_width in Hsz.
  pose proof (dir_entries sb parent ltac:(lia) Hdok) as Hent. fold (entry_count parent) in Hent.
  destruct (lookup_lt_is_Some_2 (direct parent) (Z.to_nat (k / Volume.PER))) as [b Hbk].
  { rewrite (io_direct _ Hpok). change Volume.PER with 128.
    assert (k / 128 < 10) by (apply Z.div_lt_upper_bound; lia). lia. }
  assert (Hbe : entry_block parent k = b) by (unfold entry_block; by rewrite Hbk).
  eapply does_pout; [by apply at_index_ok|]. rewrite <- Hbe.
  eapply (does_bind (n + 2 * Z.of_nat m)); [apply (entry_page_spec (n + 2 * Z.of_nat m)); [done|lia|by eapply room_weaken, Hroom; lia|done|done]|lia|].
  intros bytes v1 (Hv1 & -> & Hl) Hr1. fold (entry_slot k). fold (entry_at V0 parent k).
  assert (Hskip : (∀ e, entry_at V0 parent k = Ok e → Entry.name e ≠ name) →
    does n (Volume.find_entry m parent name (k + 1)) v1 G (fun r v' => rest0 v' ∧
       match r with
       | Some j => k ≤ j < entry_count parent ∧ (∃ e, entry_at V0 parent j = Ok e ∧ Entry.name e = name) ∧
           ∀ i e, k ≤ i < j → entry_at V0 parent i = Ok e → Entry.name e ≠ name
       | None => ∀ i e, k ≤ i < entry_count parent → entry_at V0 parent i = Ok e → Entry.name e ≠ name
       end)).
  { intros Hno. eapply does_mono; [apply (IH n v1 (k + 1) G); try done; lia|lia|done|].
    intros [j|] v' [Hv' Hj]; (split; [done|]).
    - destruct Hj as (Hj & He & Hbefore). split_and!; [lia|lia|done|]. intros i e Hi.
      destruct (decide (i = k)) as [->|]; [apply Hno|apply Hbefore; lia].
    - intros i e Hi. destruct (decide (i = k)) as [->|]; [apply Hno|apply Hj; lia]. }
  destruct (entry_at V0 parent k) as [e|e] eqn:He; [|by apply Hskip].
  case_bool_decide as Hnm; [|apply Hskip; by intros ? [= <-]].
  apply does_ret; [by eapply room_weaken, Hr1; lia|]. split_and!; [done|lia|lia|by exists e|lia].
Qed.

Lemma dead_inode_ok i : inode_ok i → inode_ok (Volume.dead_inode i).
Proof.
  intros []. split; simpl; try done; unfold in_width; try lia. intros b Hb.
  apply (Forall_forall (in_width 32) (replicate 10 0)); [apply Forall_replicate; unfold in_width; lia|done].
Qed.

Lemma lookup_in_named V parent name index victim :
  lookup_in V sb parent name = Ok (index, victim) → inode_in V sb index = Ok victim.
Proof.
  unfold lookup_in. destruct (negb _); [done|]. destruct (List.find _ _) as [e|]; [|done].
  destruct (inode_in V sb (einode e)) as [i|] eqn:Hi; cbn [rbind]; [|done]. by intros [= <- <-].
Qed.

Lemma lookup_in_index V v parent name index victim :
  calm c0 sb [] V0 V v → inode_ok parent → dir_ok sb parent → lookup_in V sb parent name = Ok (index, victim) → 0 ≤ index.
Proof.
  intros Hc Hp Hd. pose proof (io_size _ Hp) as Hsz. unfold in_width in Hsz.
  pose proof (dir_entries sb parent ltac:(lia) Hd) as Hn.
  unfold lookup_in, entries_in. destruct (negb _); [done|]. destruct (List.find _ _) as [e|] eqn:Hf; [|done].
  destruct (inode_in V sb (einode e)) as [i|]; cbn [rbind]; [|done]. intros [= <- _].
  rewrite <- (entries_shown sb _ V (vcache v)) in Hf by first [exact (cm_view _ _ _ _ _ _ Hc)|done|apply Hp|lia].
  apply find_some in Hf as [Hin _]. apply list_elem_of_In in Hin.
  eapply (Forall_forall (fun e => 0 ≤ einode e)); [apply entries_inodes; intros b; apply (cm_bytes _ _ _ _ _ _ Hc)|exact Hin].
Qed.

Lemma crowded_mono j k : (j ≤ k)%nat → crowded sb j → crowded sb k.
Proof. unfold crowded. lia. Qed.

(** The transaction of a removal. *)
Lemma remove_body_spec n v directory name parent k index victim moving :
  rest0 v → remove_choice sb directory name V0 parent k index victim moving → 0 ≤ directory →
  dir_ok sb parent → dir_full sb parent → file_ok sb V0 victim → 0 ≤ n → room (n + 7700) (vcache v) →
  does n (_ ←! Volume.begin;
          block ←! pout (at_index (direct parent) (Z.to_nat (k / Volume.PER)));
          slot ←! Volume.stage block;
          page' ←! Volume.staged_mut slot;
          _ ←! Volume.update_page page' (fun bytes => Entry.write moving bytes (entry_slot k));
          size' ←! pout (sub_checked 64 (size parent) (Z.of_nat ENTRY));
          _ ←! Volume.stage_inode directory (Volume.with_size parent size');
          _ ←! Volume.stage_inode index (Volume.dead_inode victim);
          _ ←! Volume.free_contents victim;
          Volume.commit []) v
    (fun e v' => ends sb (nblocks c0) [] V0 (removed sb directory name V0) (Err e) v' ∧
       (remove_refused sb directory name V0 ∨ broken c0))
    (fun a v' => ends sb (nblocks c0) [] V0 (removed sb directory name V0) (Ok a) v').
Proof.
  intros Hv Hch Hdir Hdok Hfull Hfile Hn Hroom. pose proof (rs_calm _ _ _ _ _ _ Hv) as Hcv.
  pose proof (inode_in_ok c0 sb [] V0 V0 v directory parent Hcv Hdir (rc_parent _ _ _ _ _ _ _ _ _ Hch)) as Hpok.
  pose proof (lookup_in_index V0 v parent name index victim Hcv Hpok Hdok (rc_named _ _ _ _ _ _ _ _ _ Hch)) as Hidx.
  pose proof (lookup_in_named V0 parent name index victim (rc_named _ _ _ _ _ _ _ _ _ Hch)) as Hvin.
  pose proof (inode_in_ok c0 sb [] V0 V0 v index victim Hcv Hidx Hvin) as Hvok.
  destruct (rc_entry _ _ _ _ _ _ _ _ _ Hch) as [Hk _]. specialize (Hfull k Hk) as Hb.
  pose proof (io_size _ Hpok) as Hsz. unfold in_width in Hsz.
  pose proof (dir_entries sb parent ltac:(lia) Hdok) as Hent. fold (entry_count parent) in Hent.
  assert (Hlast : data_start sb ≤ entry_block parent (entry_count parent - 1) < blocks sb) by (apply Hfull; lia).
  assert (Hmb : entry_bytes moving).
  { eapply entry_read_bytes, (rc_last _ _ _ _ _ _ _ _ _ Hch).
    rewrite <- (cm_view _ _ _ _ _ _ Hcv) by (apply data_not_payload; lia). apply (cm_bytes _ _ _ _ _ _ Hcv). }
  assert (Hsize : 32 ≤ size parent).
  { unfold entry_count in Hk. change (Z.of_nat ENTRY) with 32 in Hk. pose proof (Z.mul_div_le (size parent) 32 ltac:(lia)). lia. }
  assert (Hearly : ∀ V v', calm c0 sb [] V0 V v' → ∀ e, ends sb (nblocks c0) [] V0 (removed sb directory name V0) (Err e) v').
  { intros V v' Hv' e. by eapply ends_early. }
  destruct (data_homely c0 sb V0 _ Hb) as [Hh _].
  destruct (lookup_lt_is_Some_2 (direct parent) (Z.to_nat (k / Volume.PER))) as [b Hbk].
  { rewrite (io_direct _ Hpok). change Volume.PER with 128.
    assert (k / 128 < 10) by (apply Z.div_lt_upper_bound; lia). lia. }
  assert (Hbe : entry_block parent k = b) by (unfold entry_block; by rewrite Hbk).
  set (f := fun bytes => Entry.write moving bytes (entry_slot k)).
  eapply (does_then (n + 7670)); [apply (begin_spec c0 sb [] V0 (n + 7670) V0 v); [done|lia|by eapply room_weaken, Hroom; lia]|lia|..].
  { intros e v' [Hv' Hbr]. split; [by eapply Hearly, rs_calm|by right]. }
  intros [] v1 [Ht1 Hc1] Hr1. eapply does_pout; [by apply at_index_ok|]. rewrite <- Hbe.
  destruct (entry_write_accepts moving (V0 (entry_block parent k)) (entry_slot k)) as [w Hw]; [done| |].
  { rewrite (tx_length c0 sb [] V0 V0 V0 v1 _ Ht1 Hh). apply entry_slot_range. }
  eapply (does_then (n + 7665)); [apply (stage_spec c0 sb [] V0 (n + 7665) V0 V0 v1 (entry_block parent k)); [done|done|lia|by eapply room_weaken, Hr1; lia]|lia|..].
  { intros e v' [? [[_ ?]|?]]; [unfold MAX_STAGED in *; lia|]. split; [by eapply Hearly|by right]. }
  intros slot v2 (Ht2 & Hs2 & [Hc2 _]) Hr2. simpl in Hc2. apply does_assoc.
  eapply (does_then (n + 7663)); [apply (edit_staged_spec c0 sb [] V0 (n + 7663) V0 V0 v2 slot (entry_block parent k) f); [done|done|lia|by eapply room_weaken, Hr2; lia|by apply entry_write_sized]|lia|..].
  { intros e v' [? [Hbad|?]]; [unfold f in Hbad; congruence|]. split; [by eapply Hearly|by right]. }
  intros [] v3 (w' & Hw' & Ht3 & Hc3 & _) Hr3.
  eapply does_pout; [apply checked_ok; unfold in_width; change (Z.of_nat ENTRY) with 32; lia|].
  eapply (does_then (n + 7656)); [eapply (stage_inode_spec c0 sb [] V0 (n + 7656) V0 _ v3 directory); [exact Ht3| |done|lia|by eapply room_weaken, Hr3; lia]|lia|..].
  { apply with_size_ok; [done|]. unfold in_width. change (Z.of_nat ENTRY) with 32. lia. }
  { intros e v' [? [Hat|[[_ ?]|?]]]; [|unfold MAX_STAGED in *; lia|].
    - pose proof (rc_parent _ _ _ _ _ _ _ _ _ Hch) as Hin. unfold inode_in in Hin. by rewrite Hat in Hin.
    - split; [by eapply Hearly|by right]. }
  intros [] v4 (Ht4 & h4 & o4 & _ & [Hc4 _]) Hr4. simpl in Hc4.
  eapply (does_then (n + 7649)); [eapply (stage_inode_spec c0 sb [] V0 (n + 7649) V0 _ v4 index); [exact Ht4|by apply dead_inode_ok|done|lia|by eapply room_weaken, Hr4; lia]|lia|..].
  { intros e v' [? [Hat|[[_ ?]|?]]]; [|unfold MAX_STAGED in *; lia|].
    - unfold inode_in in Hvin. by rewrite Hat in Hvin.
    - split; [by eapply Hearly|by right]. }
  intros [] v5 (Ht5 & h5 & o5 & _ & [Hc5 _]) Hr5. simpl in Hc5.
  eapply (does_then (n + 340)); [eapply (free_contents_spec c0 sb V0 (n + 340) _ v5 victim); [exact Ht5|done|rewrite (io_direct _ Hvok); lia|lia|by eapply room_weaken, Hr5; lia]|lia|..].
  { intros e v' [? [Hcr|?]]; (split; [by eapply Hearly|]); [left|by right]. apply remove_crowded. apply (crowded_mono (vcount v5)); [lia|done]. }
  intros [] v6 [Ht6 [Hc6 _]] Hr6. assert (Hn0 : (0 < vcount v6)%nat) by lia.
  apply (commit_ends_unit c0 sb [] V0 (removed sb directory name V0) (fun _ => remove_refused sb directory name V0) n V0 _ v6 [] Ht6 Hn0 (no_order _));
    [done|by eapply room_weaken, Hr6; lia|].
  exists parent, k, index, victim, moving. split; [done|]. unfold remove_blocks. fold f.
  assert (edited (entry_block parent k) f V0 = upd V0 (entry_block parent k) w') as ->; [|done]. unfold edited. by rewrite Hw'.
Qed.

(** The whole of [remove]. *)
Lemma remove_file_spec v directory name :
  rest0 v → 0 ≤ directory →
  (∀ i, inode_in V0 sb directory = Ok i → dir_ok sb i ∧ dir_full sb i) →
  (∀ i x, inode_in V0 sb directory = Ok i → lookup_in V0 sb i name = Ok x → file_ok sb V0 x.2) →
  room 16000 (vcache v) →
  does 0 (Volume.remove directory name) v
    (fun e v' => ends sb (nblocks c0) [] V0 (removed sb directory name V0) (Err e) v' ∧
       (remove_refused sb directory name V0 ∨ broken c0))
    (fun a v' => ends sb (nblocks c0) [] V0 (removed sb directory name V0) (Ok a) v').
Proof.
  intros Hv Hdir Hdok Hfile Hroom. unfold Volume.remove.
  assert (Hearly : ∀ v', rest0 v' → ∀ e, ends sb (nblocks c0) [] V0 (removed sb directory name V0) (Err e) v').
  { intros v' Hv' e. by eapply ends_early, rs_calm. }
  eapply (does_bind 15998); [|lia|].
  { apply (volume_inode_spec c0 sb [] V0 15998 V0 v directory _ (fun i v' => rest0 v' ∧ inode_in V0 sb directory = Ok i));
      [done|lia|done|by eapply room_weaken, Hroom; lia| |done].
    intros e v' Hv' [He|?]; (split; [by apply Hearly|]); [left; by eapply remove_unread|by right]. }
  intros parent v1 [Hv1 Hp] Hr1. case_bool_decide as Hkd; cbn [negb].
  2:{ apply does_fail; [by eapply room_weaken, Hr1; lia|]. split; [by apply Hearly|left]. by eapply remove_kind. }
  destruct (Hdok parent Hp) as [Hd Hfull].
  pose proof (inode_in_ok c0 sb [] V0 V0 v1 directory parent (rs_calm _ _ _ _ _ _ Hv1) Hdir Hp) as Hpok.
  pose proof (io_size _ Hpok) as Hsz. unfold in_width in Hsz.
  pose proof (dir_entries sb parent ltac:(lia) Hd) as Hent. fold (entry_count parent) in Hent.
  eapply (does_bind 10800); [|lia|].
  { apply (volume_lookup_spec c0 sb [] V0 10800 V0 v1 directory name _
      (fun x v' => rest0 v' ∧ lookup_in V0 sb parent name = Ok x));
      [done|lia|done|by eapply room_weaken, Hr1; lia|by intros i Hi; apply Hdok|..]; rewrite Hp; [|done].
    intros e v' Hv' [He|?]; (split; [by apply Hearly|]); [left; by eapply remove_missing|by right]. }
  intros [index victim] v2 [Hv2 Hlk] Hr2.
  destruct (bool_decide (kind victim = KDirectory) && negb (size victim =? 0)) eqn:Hfilled.
  { apply andb_true_iff in Hfilled as [Hvk%bool_decide_eq_true Hvs%negb_true_iff%Z.eqb_neq].
    apply does_fail; [by eapply room_weaken, Hr2; lia|]. split; [by apply Hearly|left]. by eapply remove_filled. }
  fold (entry_count parent).
  eapply (does_bind 8000); [apply (find_entry_spec parent name (Z.to_nat (entry_count parent)) 8000 v2 0); try done; try lia|lia|].
  { by eapply room_weaken, Hr2; lia. }
  { intros e v' Hv' Hbr. split; [by apply Hearly|by right]. }
  intros found v3 [Hv3 Hfound] Hr3. destruct found as [k|].
  2:{ apply does_fail; [by eapply room_weaken, Hr3; lia|]. split; [by apply Hearly|left]. by eapply remove_unlisted. }
  destruct Hfound as (Hk & Hke & Hfirst).
  eapply (does_bind 8000 0 _ _ _ _ (fun a v' => a = k ∧ v' = v3)); [by apply does_lift|lia|]. intros ? ? [-> ->] _.
  assert (Hlast : data_start sb ≤ entry_block parent (entry_count parent - 1) < blocks sb) by (apply Hfull; lia).
  destruct (lookup_lt_is_Some_2 (direct parent) (Z.to_nat ((entry_count parent - 1) / Volume.PER))) as [b Hbk].
  { rewrite (io_direct _ Hpok). change Volume.PER with 128.
    assert ((entry_count parent - 1) / 128 < 10) by (apply Z.div_lt_upper_bound; lia). lia. }
  assert (Hbe : entry_block parent (entry_count parent - 1) = b) by (unfold entry_block; by rewrite Hbk).
  eapply does_pout; [by apply at_index_ok|]. rewrite <- Hbe.
  eapply (does_bind 7998); [apply (entry_page_spec 7998 v3 parent (entry_count parent - 1)); try done; try lia|lia|].
  { intros e v' Hv' Hbr. split; [by apply Hearly|by right]. }
  intros bytes v4 (Hv4 & -> & Hl) Hr4. fold (entry_slot (entry_count parent - 1)). fold (entry_at V0 parent (entry_count parent - 1)).
  destruct (entry_at V0 parent (entry_count parent - 1)) as [moving|e] eqn:Hmv.
  2:{ destruct (entry_read_ok _ (entry_slot (entry_count parent - 1)) Hl (entry_slot_range _)) as [e' He'].
      unfold entry_at in Hmv. congruence. }
  eapply (does_bind 7998 0 _ _ _ _ (fun a v' => a = moving ∧ v' = v4)); [by apply does_lift|lia|]. intros ? ? [-> ->] _.
  apply (remove_body_spec 0 v4 directory name parent k index victim moving); try done; try lia.
  - split; try done.
    intros [Hvk Hvs]. rewrite bool_decide_true in Hfilled by done. by rewrite (proj2 (Z.eqb_neq _ _) Hvs) in Hfilled.
  - by apply (Hfile parent (index, victim)).
  - by eapply room_weaken, Hr4; lia.
Qed.

End Remove.

(** ** The operations on a volume at rest *)
Abbreviation shows v := (view (vcache v)).

(** C27. Creating a name is one atomic, durable step.  On any volume at rest,
    over any device, one that stops anywhere included, [create_ordered] returns.
    If it succeeds, the volume and the device show exactly the blocks
    [create_blocks] makes of the old ones, with an inode that was free and, if the
    directory needed one, a block that was free; that is what any later mount
    shows, and the volume is at rest again.  If it fails, then after any number of
    interrupted mounts the device shows all of that or, outside the journal,
    nothing of it.  And it fails only for one of the reasons listed, or because
    the device failed. *)
Theorem create_is_atomic v directory name kind' order :
  at_rest v → sound (vsuper v) → 0 ≤ directory → Forall is_byte name → (∀ k, order_ok order k) →
  (∀ i, inode_in (shows v) (vsuper v) directory = Ok i → dir_ok (vsuper v) i) → room (2 ^ 35) (vcache v) →
  ∃ r v', Volume.create_ordered directory name kind' order v = Done (r, v') ∧
    ends (vsuper v) (nblocks (vcache v)) [] (shows v)
      (created (vsuper v) (broken (vcache v)) directory name kind' (shows v)) r v' ∧
    (is_Err r → create_refused (vsuper v) directory name kind' (shows v) ∨ broken (vcache v)).
Proof.
  intros Hv Hs Hd Hn Ho Hdir Hroom. destruct (at_rest_setting v [] Hv Hs (Forall_nil_2 _)) as [Hset Hrest].
  destruct (create_spec (vcache v) (vsuper v) (shows v) v directory name kind' order Hrest Hd Hn Ho (snd_inodes _ Hs) Hdir Hroom)
    as (r & v' & Hm & _ & Hpost).
  exists r, v'. split; [done|]. destruct r as [a|e]; [by split|]. destruct Hpost. by split.
Qed.

(** Truncating a file is one atomic, durable step, in the same sense: the
    file's blocks are free and its inode is empty with its identity kept, or
    nothing has changed; an already empty file costs nothing. *)
Theorem truncate_is_atomic v index :
  at_rest v → sound (vsuper v) → 0 ≤ index →
  (∀ i, inode_in (shows v) (vsuper v) index = Ok i → kind i = KFile → file_ok (vsuper v) (shows v) i) → room 8000 (vcache v) →
  ∃ r v', Volume.truncate index v = Done (r, v') ∧
    ends (vsuper v) (nblocks (vcache v)) [] (shows v) (truncated (vsuper v) index (shows v)) r v' ∧
    (is_Err r → truncate_refused (vsuper v) index (shows v) ∨ broken (vcache v)).
Proof.
  intros Hv Hs Hi Hf Hroom. destruct (at_rest_setting v [] Hv Hs (Forall_nil_2 _)) as [Hset Hrest].
  destruct (truncate_spec (vcache v) (vsuper v) (shows v) v index Hrest Hi Hf Hroom) as (r & v' & Hm & _ & Hpost).
  exists r, v'. split; [done|]. destruct r as [a|e]; [by split|]. destruct Hpost. by split.
Qed.

End Operations.

(** ** A volume with a file in it

    Sixteen blocks as the formatter leaves them, with a file of three bytes
    written through the model itself, on a device that stops after a thousand writes. *)
Definition formatted : list Z :=
  match Format.format_sized (replicate (16 * BLOCK) 0) 64 16 with Done (Ok (_, bytes)) => bytes | _ => [] end.
Definition in_memory (bytes : list Z) : Volume Memory :=
  MkVolume (MkCache (replicate (4 * BLOCK) 0) (replicate MAX_FRAMES empty_slot) 4 0 (MkMemory bytes) 0 0 0)
    demo_layout 1 (replicate MAX_STAGED 0) 0.
Definition after {A} (m : prog (Volume Memory) FsError A) (v : Volume Memory) : Volume Memory :=
  match m v with Done (_, v') => v' | _ => v end.
Definition with_file : Volume Memory :=
  after (Volume.write 1 0 [1; 2; 3]) (after (Volume.create 0 [97] KFile) (in_memory formatted)).
Definition stored : list Z := memory_bytes (store (vcache with_file)).
Definition stored_volume : Volume Watched :=
  MkVolume (MkCache (replicate (4 * BLOCK) 0) (replicate MAX_FRAMES empty_slot) 4 0 (MkWatched stored 0 1000 3 None) 0 0 0)
    demo_layout 1 (replicate MAX_STAGED 0) 0.
Definition stored_root : Inode := MkInode KDirectory 1 1 32 [12; 0; 0; 0; 0; 0; 0; 0; 0; 0] 0.
Definition stored_file : Inode := MkInode KFile 1 1 3 [13; 0; 0; 0; 0; 0; 0; 0; 0; 0] 0.

Definition no_inode : Inode := MkInode KFree 0 0 0 (replicate 10 0) 0.

Lemma stored_facts :
  forallb (fun b => (0 <=? b) && (b <? 256)) stored = true ∧ whole_blocks stored = 16 ∧
  Superblock.read_head (bytes_disk stored 0) 16 = Ok demo_layout ∧ u64_at (bytes_disk stored 3) 0 = Some 0 ∧
  inode_in (bytes_disk stored) demo_layout 0 = Ok stored_root ∧
  inode_in (bytes_disk stored) demo_layout 1 = Ok stored_file ∧
  lookup_in (bytes_disk stored) demo_layout stored_root [97] = Ok (1, stored_file) ∧
  lookup_in (bytes_disk stored) demo_layout stored_root [98] = Err NotFound ∧
  inode_in (bytes_disk stored) demo_layout 2 = Ok no_inode ∧ bytes_disk stored 1 !! 1%nat = Some 63.
Proof. vm_compute. done. Qed.

Lemma stored_bytes b : Forall is_byte (bytes_disk stored b).
Proof.
  destruct stored_facts as (Hbytes & _). assert (H : Forall is_byte stored).
  { rewrite forallb_forall in Hbytes. apply Forall_forall. intros x Hx%list_elem_of_In.
    specialize (Hbytes x Hx). unfold is_byte. lia. }
  unfold bytes_disk. destruct (_ && _); [|constructor]. destruct (get _ _ _) as [w|] eqn:Hg; [|constructor]. by eapply get_bytes, Hg.
Qed.

Lemma stored_sound : sound demo_layout.
Proof.
  split; [unfold roomy, MAX_STAGED; simpl; lia|unfold table_fits; simpl; change (Z.of_nat INODE) with 64; unfold BLOCKz; lia
    |unfold BLOCKz; simpl; lia|simpl; lia].
Qed.

Lemma stored_new : Cache.new (replicate (4 * BLOCK) 0) (MkWatched stored 0 1000 3 None) = Ok (vcache stored_volume).
Proof. unfold Cache.new. rewrite length_replicate, Nat.div_mul by apply BLOCK_nonzero. reflexivity. Qed.

Lemma stored_view b : view (vcache stored_volume) b = bytes_disk stored b.
Proof.
  destruct (new_spec _ _ _ stored_new) as (Hok & _ & _ & Hst & Hclean & _). rewrite view_clean by auto. rewrite Hst. reflexivity.
Qed.

Lemma stored_room n : n < 2 ^ 64 → room n (vcache stored_volume).
Proof. destruct (new_spec _ _ _ stored_new) as (_ & Hroom & _). intros Hn. eapply room_weaken, Hroom. lia. Qed.

Lemma stored_at_rest : at_rest stored_volume.
Proof.
  destruct stored_facts as (_ & Hwb & Hhead & Hmagic & _). destruct (new_spec _ _ _ stored_new) as (Hok & _).
  split.
  - exact Hok.
  - change (st_blocks (store (vcache stored_volume))) with (whole_blocks stored). rewrite Hwb.
    unfold plausible_layout. simpl. lia.
  - rewrite stored_view. change (st_blocks (store (vcache stored_volume))) with (whole_blocks stored). rewrite Hwb. exact Hhead.
  - unfold idle. rewrite stored_view. change (journal_start (vsuper stored_volume)) with 3. rewrite Hmagic. intros H. discriminate H.
  - intros b. rewrite stored_view. apply stored_bytes.
  - intros b _. rewrite stored_view. reflexivity.
  - reflexivity.
Qed.

Lemma stored_inode index : inode_in (view (vcache stored_volume)) (vsuper stored_volume) index = inode_in (bytes_disk stored) demo_layout index.
Proof. apply inode_in_ext. exact stored_view. Qed.

Lemma stored_lookup i name :
  lookup_in (view (vcache stored_volume)) (vsuper stored_volume) i name = lookup_in (bytes_disk stored) demo_layout i name.
Proof.
  change (vsuper stored_volume) with demo_layout. unfold lookup_in, entries_in.
  rewrite (entries_ext _ _ (bytes_disk stored)) by exact stored_view.
  destruct (negb _); [reflexivity|]. destruct (List.find _ _); [|reflexivity].
  rewrite (inode_in_ext _ (bytes_disk stored)) by exact stored_view. reflexivity.
Qed.

Lemma stored_root_ok : dir_ok demo_layout stored_root ∧ dir_full demo_layout stored_root.
Proof.
  split; [split|].
  - unfold BLOCKz. simpl. lia.
  - repeat (constructor; [simpl; lia|]). constructor.
  - intros k Hk. change (entry_count stored_root) with 1 in Hk. assert (k = 0) as -> by lia. change (entry_block stored_root 0) with 12. simpl. lia.
Qed.

Lemma stored_file_ok V : file_ok demo_layout V stored_file.
Proof. split; [|by left]. cbn. repeat (constructor; [simpl; lia|]). constructor. Qed.

(** What an operation answers, without the volume it leaves. *)
Definition answer {A} (o : outcome (result A FsError * Volume Watched)) : option A := match o with Done (Ok a, _) => Some a | _ => None end.

Lemma create_is_atomic_witness : ∃ v' New, Volume.create_ordered 0 [98] KFile [] stored_volume = Done (Ok 2, v') ∧
  created demo_layout (broken (vcache stored_volume)) 0 [98] KFile (view (vcache stored_volume)) 2 New ∧ at_rest v' ∧ as_made demo_layout New (view (vcache v')).
Proof.
  assert (Ha : answer (Volume.create_ordered 0 [98] KFile [] stored_volume) = Some 2) by (vm_compute; reflexivity).
  destruct (create_is_atomic stored_volume 0 [98] KFile []) as (r & v' & H & Hends & _).
  - exact stored_at_rest.
  - exact stored_sound.
  - lia.
  - apply Forall_singleton. unfold is_byte. lia.
  - exact no_order.
  - intros i Hi. rewrite stored_inode in Hi. destruct stored_facts as (_ & _ & _ & _ & Hroot & _).
    rewrite Hroot in Hi. injection Hi as <-. exact (proj1 stored_root_ok).
  - apply stored_room. lia.
  - rewrite H in Ha. destruct r as [a|e]; [|discriminate Ha]. injection Ha as ->. destruct Hends as (New & Hmade & Hrest & _ & Hview & _).
    exists v', New. split; [exact H|]. split; [exact Hmade|]. split; [exact Hrest|exact Hview].
Defined.

Lemma truncate_is_atomic_witness : ∃ r v', Volume.truncate 1 stored_volume = Done (r, v').
Proof.
  destruct (truncate_is_atomic stored_volume 1) as (r & v' & H & _).
  - exact stored_at_rest.
  - exact stored_sound.
  - lia.
  - intros i Hi _. rewrite stored_inode in Hi. destruct stored_facts as (_ & _ & _ & _ & _ & Hfile & _).
    rewrite Hfile in Hi. injection Hi as <-. apply stored_file_ok.
  - apply stored_room. lia.
  - exact (ex_intro _ r (ex_intro _ v' H)).
Defined.

(** A file with a hole leaks: a write past a hole puts a block in the tenth
    place of the inode, and [free_contents] stops at the first missing one.
    After creating a file, writing ten bytes at its end and removing it, block 13
    is still marked used in the bitmap and nothing names it. *)
Theorem removing_a_file_with_a_hole_leaks :
  ∃ v v', Volume.write 1 40950 (replicate 10 7) (after (Volume.create 0 [97] KFile) (in_memory formatted)) = Done (Ok 10, v) ∧
    Volume.remove 0 [97] v = Done (Ok tt, v') ∧
    inode_in (view (vcache v)) demo_layout 1 = Ok (MkInode KFile 1 1 40960 [0; 0; 0; 0; 0; 0; 0; 0; 0; 13] 0) ∧
    inode_in (view (vcache v')) demo_layout 1 = Ok (MkInode KFree 0 1 0 (replicate 10 0) 0) ∧
    view (vcache v') 1 !! 1%nat = Some 63 ∧ Z.testbit 63 (13 mod 8) = true.
Proof.
  assert (H : (match Volume.write 1 40950 (replicate 10 7) (after (Volume.create 0 [97] KFile) (in_memory formatted)) with
    | Done (Ok n, v) =>
        match Volume.remove 0 [97] v with
        | Done (Ok _, v') => Some (n, inode_in (view (vcache v)) demo_layout 1, inode_in (view (vcache v')) demo_layout 1, view (vcache v') 1 !! 1%nat)
        | _ => None
        end
    | _ => None
    end) = Some (10, Ok (MkInode KFile 1 1 40960 [0; 0; 0; 0; 0; 0; 0; 0; 0; 13] 0), Ok (MkInode KFree 0 1 0 (replicate 10 0) 0), Some 63))
    by (vm_compute; reflexivity).
  destruct (Volume.write _ _ _ _) as [[[n|e] v]| |]; try discriminate H.
  destruct (Volume.remove 0 [97] v) as [[[[]|e] v']| |] eqn:Hr; try discriminate H.
  injection H as -> H1 H2 H3. exists v, v'. split; [reflexivity|]. split; [exact Hr|]. by split_and!.
Qed.
