(* ===== verification/Directory.v ===== *)
(** * What the operations mean to a reader

    The block maps that [create_blocks] and [remove_blocks] of Files.v make, read
    back through the inode table and the directory: which inodes change, which
    entries a directory then lists, and what a lookup finds; with them what
    [create_ordered] and [remove] do, as a reader sees it. *)
From stdpp Require Import prelude numbers list.
From S2P Require Import Prelude Bytes Fs Cache Journal Reader Volume Crash Staging Files.
Open Scope Z_scope.
Set Warnings "-clear-no-such-hyp".

#[local] Opaque BLOCK.

Lemma edited_other h f M b : b ≠ h → edited h f M b = M b.
Proof. intros Hb. unfold edited. destruct (f (M h)); [by apply upd_elsewhere|done]. Qed.

Section Maps.
Context (sb : Superblock) (nb : Z) (Hlay : plausible_layout sb nb) (Hnb : nb < 2 ^ 32) (Hsound : sound sb).
Implicit Types V M : Z → list Z.

(** Every block of the file system is a page. *)
Definition paged M : Prop := ∀ b, 0 ≤ b < blocks sb → length (M b) = BLOCK.

Definition keeps_length (f : list Z → result (list Z) FsError) : Prop :=
  ∀ bytes w, length bytes = BLOCK → f bytes = Ok w → length w = BLOCK.

Lemma edited_paged h f M : keeps_length f → paged M → paged (edited h f M).
Proof.
  intros Hf HM b Hb. destruct (decide (b = h)) as [->|Hne]; [|rewrite edited_other by done; by apply HM].
  unfold edited. destruct (f (M h)) as [w|] eqn:Hw; [rewrite upd_here; eapply Hf, Hw|]; by apply HM.
Qed.

(** ** The inode table *)
Lemma inode_block_range index h off :
  0 ≤ index → Superblock.inode_at sb index = Ok (h, off) → inode_start sb ≤ h < journal_start sb ∧ 0 ≤ h < blocks sb.
Proof.
  intros Hi Hat. destruct (inode_at_spec _ _ _ _ (snd_table _ Hsound) Hi Hat) as (_ & Hb & _ & _).
  destruct (snd_table _ Hsound). lia.
Qed.

Lemma edit_inode_keeps i off : keeps_length (edit_inode i off).
Proof.
  intros bytes w Hl. unfold edit_inode. destruct (get bytes off INODE) as [old|] eqn:Hg; cbn [ok_or rbind]; [|done].
  destruct (Inode.encode i old) as [new|] eqn:He; cbn [rbind]; [|done]. intros [= <-].
  apply get_spec in Hg as (Hoff & Hol & _). rewrite length_splice; [done|]. by rewrite (encode_length i old new).
Qed.

Lemma put_inode_paged index i M : paged M → paged (put_inode sb index i M).
Proof.
  intros HM. unfold put_inode. destruct (Superblock.inode_at sb index); [|done]. apply edited_paged; [apply edit_inode_keeps|done].
Qed.

(** Writing an inode touches only the inode table. *)
Lemma put_inode_other index i M b :
  0 ≤ index → ¬ inode_start sb ≤ b < journal_start sb → put_inode sb index i M b = M b.
Proof.
  intros Hi Hb. unfold put_inode. destruct (Superblock.inode_at sb index) as [[h off]|] eqn:Hat; [|done].
  apply edited_other. intros ->. apply Hb. by apply (inode_block_range index h off).
Qed.

Lemma inode_in_local V M index :
  0 ≤ index → (∀ b, inode_start sb ≤ b < journal_start sb → M b = V b) → inode_in M sb index = inode_in V sb index.
Proof.
  intros Hi HM. unfold inode_in. destruct (Superblock.inode_at sb index) as [[h off]|] eqn:Hat; cbn [rbind fst snd]; [|done].
  rewrite HM; [done|]. by apply (inode_block_range index h off).
Qed.

(** It reads back, and every other inode is kept. *)
Lemma inode_in_put M index i h off other :
  paged M → inode_ok i → 0 ≤ index → Superblock.inode_at sb index = Ok (h, off) → 0 ≤ other →
  inode_in (put_inode sb index i M) sb other = if decide (other = index) then Ok i else inode_in M sb other.
Proof.
  intros HM Hi H0 Hat Ho. destruct (inode_block_range index h off H0 Hat) as [_ Hh].
  destruct (inode_at_spec _ _ _ _ (snd_table _ Hsound) H0 Hat) as (_ & _ & Hoff & Hpos).
  assert (Hedit : ∃ enc, edit_inode i off (M h) = Ok (splice (M h) off enc) ∧ length enc = INODE ∧ Inode.decode enc = Ok i).
  { unfold edit_inode. destruct (get_some (M h) off INODE) as (old & -> & Hol); [by rewrite HM|]. cbn [ok_or rbind].
    destruct (inode_encode_spec i old Hi) as (out & -> & Hle & Hdec); [lia|]. cbn [rbind].
    rewrite drop_ge, app_nil_r by lia. by exists out. }
  destruct Hedit as (enc & Hed & Hle & Hdec). unfold inode_in, put_inode. rewrite Hat. unfold edited. cbn [fst snd]. rewrite Hed.
  assert (Hfits : (off + length enc ≤ length (M h))%nat) by (rewrite Hle, HM by done; done).
  destruct (decide (other = index)) as [->|Hne].
  - rewrite Hat. cbn [rbind fst snd]. rewrite upd_here. pose proof (get_splice_same (M h) off enc Hfits) as Hg.
    rewrite Hle in Hg. rewrite Hg. done.
  - destruct (Superblock.inode_at sb other) as [[h' off']|] eqn:Hat'; cbn [rbind fst snd]; [|done].
    destruct (decide (h' = h)) as [->|Hh']; [|by rewrite upd_elsewhere]. rewrite upd_here.
    destruct (inode_at_spec _ _ _ _ (snd_table _ Hsound) Ho Hat') as (_ & _ & _ & Hpos').
    rewrite get_splice_other; [done|done|]. rewrite Hle. unfold INODE in *. lia.
Qed.

(** ** Bitmap and data *)
Lemma edit_bit_keeps block used' : keeps_length (edit_bit block used').
Proof.
  intros bytes w Hl. unfold edit_bit. destruct (bytes !! _); cbn [ok_or rbind]; [|done]. intros [= <-]. by rewrite length_insert.
Qed.

Lemma put_bit_paged block used' M : paged M → paged (put_bit sb block used' M).
Proof. apply edited_paged, edit_bit_keeps. Qed.

Lemma put_bit_other block used' M b :
  0 ≤ block < blocks sb → ¬ bitmap_start sb ≤ b < inode_start sb → put_bit sb block used' M b = M b.
Proof.
  intros Hbl Hb. apply edited_other. intros ->. apply Hb. pose proof (snd_bitmap _ Hsound) as Hbm.
  assert (0 ≤ block / 8 / BLOCKz) by (unfold BLOCKz; apply Z.div_pos; [apply Z.div_pos|]; lia).
  assert (block / 8 / BLOCKz < inode_start sb - bitmap_start sb); [|lia].
  rewrite Z.div_div by done. apply Z.div_lt_upper_bound; [done|]. unfold BLOCKz in *. lia.
Qed.

Lemma entry_write_keeps e at' : keeps_length (fun bytes => Entry.write e bytes at').
Proof.
  intros bytes w Hl. unfold Entry.write. case_decide; [done|].
  destruct (write_fields _ _) as [slot|] eqn:Hw; cbn [ok_or rbind]; [|done]. intros [= <-].
  apply write_fields_length in Hw. rewrite length_replicate in Hw. rewrite length_splice; lia.
Qed.

Lemma zeroes_keeps : keeps_length zeroes.
Proof. intros bytes w Hl [= <-]. by rewrite length_replicate. Qed.

(** ** Listings *)
Definition listed_entry (e : Entry) : bool := negb (einode e =? 0) || negb (bool_decide (elength e = 0)).
Definition entry_here V (parent : Inode) (k : Z) : option Entry :=
  match entry_at V parent k with Ok e => if listed_entry e then Some e else None | Err _ => None end.

Lemma slot_arith (w : nat) :
  (w * ENTRY / BLOCK)%nat = Z.to_nat (Z.of_nat w / Volume.PER) ∧ (w * ENTRY mod BLOCK)%nat = entry_slot (Z.of_nat w).
Proof.
  rewrite block_value. unfold entry_slot. change Volume.PER with (Z.of_nat 128). rewrite <- Nat2Z.inj_div, <- Nat2Z.inj_mod, !Nat2Z.id.
  change 4096%nat with (128 * ENTRY)%nat. split; [by rewrite Nat.Div0.div_mul_cancel_r|by rewrite Nat.Div0.mul_mod_distr_r].
Qed.

(** A directory all of whose blocks are data blocks lists its entries in order. *)
Lemma entries_listing m : ∀ V (parent : Inode) (w : nat),
  paged V → 0 ≤ data_start sb →
  (∀ k, Z.of_nat w ≤ k < Z.of_nat (w + m) → (Z.to_nat (k / Volume.PER) < length (direct parent))%nat ∧
     0 < entry_block parent k < blocks sb) →
  entries_from m V sb parent w = omap (entry_here V parent) (seqZ (Z.of_nat w) (Z.of_nat m)).
Proof.
  induction m as [|m IH]; intros V parent w HV Hd Hk; [done|]. cbn [entries_from].
  destruct (Hk (Z.of_nat w) ltac:(lia)) as [Hlt Hb]. destruct (slot_arith w) as [-> ->].
  destruct (lookup_lt_is_Some_2 _ _ Hlt) as [b Hbk]. unfold number_of. rewrite Hbk.
  assert (Hbe : entry_block parent (Z.of_nat w) = b) by (unfold entry_block; by rewrite Hbk). rewrite Hbe in Hb.
  unfold Filesystem.valid_number. rewrite (proj2 (Z.eqb_neq b 0)), (proj2 (Z.leb_gt _ _)) by lia. cbn [orb].
  rewrite (seqZ_cons (Z.of_nat w)) by lia. cbn [omap list_omap].
  replace (Z.succ (Z.of_nat w)) with (Z.of_nat (w + 1)) by lia. replace (Z.pred (Z.of_nat (S m))) with (Z.of_nat m) by lia.
  rewrite <- (IH V parent (w + 1)%nat) by (done || (intros k Hk'; apply Hk; lia)).
  unfold entry_here, entry_at. rewrite Hbe.
  destruct (entry_read_ok (V b) (entry_slot (Z.of_nat w))) as [e He]; [apply HV; lia|apply entry_slot_range|].
  rewrite He. unfold listed_entry. by destruct (_ || _).
Qed.

(** A directory in good order: its blocks are data blocks in use, each of them
    once. *)
Record dir_sound V (parent : Inode) : Prop := {
  ds_ok : dir_ok sb parent;
  ds_full : dir_full sb parent;
  ds_used k : 0 ≤ k < entry_count parent → ¬ free_in sb V (entry_block parent k);
  ds_distinct j k : 0 ≤ j < entry_count parent → 0 ≤ k < entry_count parent →
    entry_block parent j = entry_block parent k → j / Volume.PER = k / Volume.PER
}.

Lemma dir_listing V (parent : Inode) :
  paged V → inode_ok parent → entry_count parent ≤ 1280 → dir_full sb parent →
  entries_in V sb parent = omap (entry_here V parent) (seqZ 0 (entry_count parent)).
Proof.
  intros HV Hp Hmax Hf. pose proof (io_size _ Hp) as Hsz. unfold in_width in Hsz. unfold plausible_layout in Hlay.
  assert (Hn : 0 ≤ entry_count parent ≤ 1280) by (split; [apply Z.div_pos; [lia|done]|done]).
  unfold entries_in. fold (entry_count parent). rewrite entries_listing; [rewrite Z2Nat.id by lia; done|done|lia|].
  intros k Hk. rewrite Nat.add_0_l, Z2Nat.id in Hk by lia. split; [|specialize (Hf k ltac:(lia)); lia].
  rewrite (io_direct _ Hp). change Volume.PER with 128. assert (k / 128 < 10) by (apply Z.div_lt_upper_bound; lia). lia.
Qed.

Section Created.
Context (V : Z → list Z) (HV : paged V) (Hbytes : ∀ b, Forall is_byte (V b)).
Context (bad : Prop) (directory : Z) (name : list Z) (kind' : Kind) (parent : Inode) (index g : Z) (fresh : option Z).
Context (Hdir0 : 0 ≤ directory) (Hch : create_choice sb bad directory name V parent index g fresh).
Context (Hds : dir_sound V parent) (e : Entry) (He : Entry.new index name = Ok e).

Abbreviation n := (entry_count parent).
Abbreviation parent' := (Volume.with_size (grown parent fresh) (size parent + Z.of_nat ENTRY)).
Abbreviation New := (create_blocks sb directory name kind' parent index g fresh V).

Lemma decoded index' i : inode_in V sb index' = Ok i → inode_ok i.
Proof.
  unfold inode_in. destruct (Superblock.inode_at sb index') as [[b off]|]; cbn [rbind fst snd]; [|done].
  destruct (get _ _ _) as [slot|] eqn:Hg; cbn [ok_or rbind]; [|done]. apply decode_ok. eapply get_bytes, Hg. apply Hbytes.
Qed.

Lemma created_parent_ok : inode_ok parent ∧ 0 ≤ n < 1280 ∧ inode_ok parent'.
Proof.
  pose proof (decoded _ _ (cc_parent _ _ _ _ _ _ _ _ _ Hch)) as Hp. pose proof (io_size _ Hp) as Hsz. unfold in_width in Hsz.
  pose proof (dir_entries sb parent ltac:(lia) (ds_ok _ _ Hds)) as Hn. fold n in Hn. unfold plausible_layout in Hlay.
  assert (Hroom := cc_room _ _ _ _ _ _ _ _ _ Hch). unfold next_block in Hroom. fold n in Hroom.
  change Volume.PER with 128 in Hroom. pose proof (Z.mul_succ_div_gt n 128 ltac:(lia)) as Hgt.
  assert (Hdiv : 0 ≤ n / 128) by (apply Z.div_pos; lia).
  destruct (ds_ok _ _ Hds) as [Hd10 _]. unfold BLOCKz in Hd10. split_and!; [done|lia|lia|].
  apply with_size_ok; [|unfold in_width; change (Z.of_nat ENTRY) with 32; lia].
  destruct fresh as [b|] eqn:Hf; [|done]. apply with_block_ok; [done|].
  destruct (cc_fresh _ _ _ _ _ _ _ _ _ Hch) as (_ & Hb & _). unfold in_width. lia.
Qed.

(** Where the new entry goes, as an entry number. *)
Lemma next_position : next_block parent = Z.to_nat (n / Volume.PER) ∧ (next_which parent * ENTRY)%nat = entry_slot n.
Proof. done. Qed.

Lemma created_block : ∃ block, direct parent' !! next_block parent = Some block ∧ data_start sb ≤ block < blocks sb ∧
  match fresh with
  | Some b => block = b ∧ n mod Volume.PER = 0
  | None => 0 < n ∧ entry_block parent (n - 1) = block ∧ (n - 1) / Volume.PER = n / Volume.PER
  end.
Proof.
  destruct created_parent_ok as (Hp & Hn & Hp'). pose proof (cc_fresh _ _ _ _ _ _ _ _ _ Hch) as Hf.
  pose proof (cc_room _ _ _ _ _ _ _ _ _ Hch) as Hr. unfold next_which in Hf. fold n in Hf.
  pose proof (Z.mod_pos_bound n Volume.PER ltac:(done)) as Hm. destruct fresh as [b|]; simpl.
  - destruct Hf as (Hw & Hb & _). exists b. split_and!; try lia.
    apply list_lookup_insert_eq. by rewrite (io_direct _ Hp).
  - destruct (lookup_lt_is_Some_2 (direct parent) (next_block parent)) as [block Hblock]; [by rewrite (io_direct _ Hp)|].
    assert (Hpos : 0 < n) by (destruct (decide (n = 0)) as [E|]; [rewrite E in Hf; done|lia]).
    assert (Hdiv : (n - 1) / Volume.PER = n / Volume.PER).
    { change Volume.PER with 128 in *. pose proof (Z.div_mod n 128 ltac:(lia)) as Hdm.
      symmetry. apply (Z.div_unique (n - 1) 128 (n / 128) (n mod 128 - 1)); [left|]; lia. }
    assert (Hbe : entry_block parent (n - 1) = block) by (unfold entry_block; rewrite Hdiv; unfold next_block in Hblock; fold n in Hblock; by rewrite Hblock).
    exists block. split_and!; try done; rewrite <- Hbe; by apply (ds_full _ _ Hds); lia.
Qed.

(** The directory's old blocks stay where they were. *)
Lemma created_entry_block k : 0 ≤ k < n → entry_block parent' k = entry_block parent k.
Proof.
  intros Hk. destruct created_block as (block & _ & _ & Hf). destruct fresh as [b|]; [|done]. destruct Hf as [-> Hm].
  unfold entry_block. simpl. rewrite list_lookup_insert_ne; [done|]. unfold next_block. fold n.
  change Volume.PER with 128 in *. pose proof (Z.div_mod n 128 ltac:(lia)). assert (k / 128 < n / 128); [|lia].
  apply Z.div_lt_upper_bound; lia.
Qed.

(** Data blocks other than the entry's hold what they held. *)
Lemma created_data block d :
  direct parent' !! next_block parent = Some block → data_start sb ≤ d < blocks sb →
  New d = edited block (fun bytes => Entry.write e bytes (entry_slot n)) (grown_blocks sb fresh V) d ∧
  (fresh ≠ Some d → grown_blocks sb fresh V d = V d).
Proof.
  intros Hblock Hd. unfold plausible_layout in Hlay. unfold create_blocks. rewrite He. simpl in Hblock. rewrite Hblock.
  rewrite !put_inode_other by (lia || apply Hch). split; [done|]. intros Hne.
  pose proof (cc_fresh _ _ _ _ _ _ _ _ _ Hch) as Hf. destruct fresh as [b|]; [|done]. simpl. destruct Hf as (_ & Hb & _).
  rewrite edited_other by congruence. apply put_bit_other; lia.
Qed.

Lemma created_grown_paged : paged (grown_blocks sb fresh V).
Proof. destruct fresh as [b|]; [|done]. apply edited_paged; [apply zeroes_keeps|]. by apply put_bit_paged. Qed.

Lemma created_entry_fits : entry_fits e ∧ Entry.name e = name ∧ einode e = index ∧ listed_entry e = true.
Proof.
  pose proof (cc_index _ _ _ _ _ _ _ _ _ Hch) as Hi. unfold Entry.new in He.
  destruct (entry_new_fits index name e) as (Hfit & Hnm & Hin & Hne & _); [unfold in_width; lia|done|].
  split_and!; [done|done|done|]. unfold listed_entry. apply orb_true_iff. right. apply negb_true_iff, bool_decide_eq_false.
  intros H0. apply Hne. rewrite <- Hnm. unfold Entry.name. by rewrite H0.
Qed.

(** The old entries read as before, and the new one is there. *)
Lemma created_entries :
  (∀ k, 0 ≤ k < n → entry_at New parent' k = entry_at V parent k) ∧ entry_at New parent' n = Ok e ∧
  data_start sb ≤ entry_block parent' n < blocks sb.
Proof.
  destruct created_block as (block & Hblock & Hdata & Hf). destruct created_entry_fits as (Hfit & _).
  unfold plausible_layout in Hlay.
  destruct (entry_write_spec e (grown_blocks sb fresh V block) (entry_slot n) Hfit) as (out & Hw & Hlo & Hr & Hother).
  { rewrite created_grown_paged by lia. apply entry_slot_range. }
  assert (Hnew : New block = out).
  { rewrite (proj1 (created_data block block Hblock Hdata)). unfold edited. rewrite Hw. apply upd_here. }
  assert (Hbn : entry_block parent' n = block) by (unfold entry_block; simpl in *; unfold next_block in Hblock; fold n in Hblock; by rewrite Hblock).
  split_and!; [|by unfold entry_at; rewrite Hbn, Hnew|lia|lia]. intros k Hk. unfold entry_at. rewrite created_entry_block by done.
  pose proof (ds_full _ _ Hds k Hk) as Hdk. destruct (created_data block _ Hblock Hdk) as [Hnk Hgk].
  assert (Hnfresh : fresh ≠ Some (entry_block parent k)).
  { intros E. pose proof (cc_fresh _ _ _ _ _ _ _ _ _ Hch) as Hfr. rewrite E in Hfr. apply (ds_used _ _ Hds k Hk), Hfr. }
  specialize (Hgk Hnfresh). destruct (decide (entry_block parent k = block)) as [Hkb|Hkb].
  - rewrite Hkb in *. rewrite Hnew, <- Hgk. apply Hother. assert (Hf' : 0 < n ∧ entry_block parent (n - 1) = block ∧ (n - 1) / Volume.PER = n / Volume.PER).
    { clear -Hf Hnfresh. destruct fresh as [b|]; [|done]. destruct Hf; congruence. }
    destruct Hf' as (Hn0 & Hlast & Hdiv). rewrite <- Hlast in Hkb.
    pose proof (ds_distinct _ _ Hds k (n - 1) Hk ltac:(lia) Hkb) as Hsame. rewrite Hdiv in Hsame.
    unfold entry_slot. change Volume.PER with 128 in *. pose proof (Z.div_mod k 128 ltac:(lia)). pose proof (Z.div_mod n 128 ltac:(lia)).
    pose proof (Z.mod_pos_bound k 128 ltac:(lia)). pose proof (Z.mod_pos_bound n 128 ltac:(lia)). unfold ENTRY. lia.
  - by rewrite Hnk, edited_other, Hgk.
Qed.

(** Three inodes' worth of change: the new one, the directory, no other. *)
Lemma created_inodes other : 0 ≤ other →
  inode_in New sb other =
    if decide (other = index) then Ok (Volume.new_inode kind' g)
    else if decide (other = directory) then Ok parent' else inode_in V sb other.
Proof.
  intros Ho. destruct created_block as (block & Hblock & Hdata & _). destruct created_parent_ok as (Hp & _ & Hp').
  assert (Hat : ∀ j i, inode_in V sb j = Ok i → ∃ h off, Superblock.inode_at sb j = Ok (h, off)).
  { intros j i. unfold inode_in. destruct (Superblock.inode_at sb j) as [[h off]|]; [by exists h, off|done]. }
  destruct (Hat _ _ (cc_parent _ _ _ _ _ _ _ _ _ Hch)) as (h1 & o1 & Hat1).
  destruct (cc_free _ _ _ _ _ _ _ _ _ Hch) as (old & Hold & _). destruct (Hat _ _ Hold) as (h2 & o2 & Hat2).
  pose proof (cc_index _ _ _ _ _ _ _ _ _ Hch) as Hi. unfold create_blocks. rewrite He. simpl in Hblock. rewrite Hblock.
  set (M2 := edited _ _ (grown_blocks sb fresh V)).
  assert (HM2 : paged M2) by (apply edited_paged; [apply entry_write_keeps|apply created_grown_paged]).
  rewrite (inode_in_put _ index _ h2 o2) by first [apply new_inode_ok|by apply put_inode_paged|lia|done].
  case_decide; [done|]. rewrite (inode_in_put _ directory _ h1 o1) by done. case_decide; [done|].
  apply inode_in_local; [done|]. intros b Hb. unfold plausible_layout in Hlay. unfold M2. simpl.
  rewrite edited_other by lia. pose proof (cc_fresh _ _ _ _ _ _ _ _ _ Hch) as Hf. destruct fresh as [x|]; [|done]. simpl.
  destruct Hf as (_ & Hx & _). rewrite edited_other by lia. apply put_bit_other; lia.
Qed.

Lemma created_paged : paged New.
Proof.
  unfold create_blocks. rewrite He. apply put_inode_paged, put_inode_paged, edited_paged; [apply entry_write_keeps|apply created_grown_paged].
Qed.

Lemma created_full : inode_ok parent' ∧ entry_count parent' = n + 1 ∧ n < 1280 ∧ dir_full sb parent'.
Proof.
  destruct created_entries as (_ & _ & Hblock). destruct created_parent_ok as (Hp & Hn & Hp').
  assert (Hcount : entry_count parent' = n + 1).
  { unfold entry_count, parent', Volume.with_size. cbn [size]. rewrite <- (Z.mul_1_l (Z.of_nat ENTRY)) at 1. by rewrite Z.div_add by done. }
  split_and!; [done|done|lia|]. intros k Hk. rewrite Hcount in Hk. destruct (decide (k = n)) as [->|]; [done|]. rewrite created_entry_block by lia.
  apply (ds_full _ _ Hds). lia.
Qed.

(** The directory lists what it listed, and then the new entry. *)
Lemma created_listing : entries_in New sb parent' = entries_in V sb parent ++ [e].
Proof.
  destruct created_entries as (Hold & Hnew & _). destruct created_full as (Hp' & Hcount & Hn & Hfull). destruct created_parent_ok as (Hp & Hn0 & _).
  destruct created_entry_fits as (_ & _ & _ & Hlisted).
  rewrite (dir_listing V parent HV Hp ltac:(lia) (ds_full _ _ Hds)), (dir_listing New parent' created_paged Hp' ltac:(lia) Hfull).
  rewrite Hcount, seqZ_app by lia. rewrite omap_app. f_equal.
  - apply list_omap_ext, Forall_Forall2_diag, Forall_forall. intros k Hk%elem_of_seqZ. unfold entry_here. by rewrite Hold by lia.
  - rewrite Z.add_0_l. rewrite seqZ_cons, seqZ_nil by lia. cbn [omap list_omap]. unfold entry_here. by rewrite Hnew, Hlisted.
Qed.

End Created.

Lemma find_last {A} (f : A → bool) l x : (∀ y, y ∈ l → f y = false) → f x = true → List.find f (l ++ [x]) = Some x.
Proof.
  intros Hl Hx. induction l as [|y l IH]; simpl; [by rewrite Hx|]. rewrite Hl by apply list_elem_of_here.
  apply IH. intros z Hz. apply Hl. by apply list_elem_of_further.
Qed.

(** What a reader of the blocks [D] sees of a name added to the blocks [V]: the directory
    lists what it listed before and then an entry naming the new inode, which is empty, of
    the kind asked for and of a generation that is not zero; looking the name up finds it,
    if nothing had that name; and every other inode but the directory's reads as before. *)
Definition name_added (directory : Z) (name : list Z) (kind' : Kind) V (index : Z) (D : Z → list Z) : Prop :=
  ∃ parent parent' made e,
    inode_in V sb directory = Ok parent ∧ inode_in D sb directory = Ok parent' ∧ inode_in D sb index = Ok made ∧
    kind made = kind' ∧ size made = 0 ∧ 0 < generation made ∧
    entries_in D sb parent' = entries_in V sb parent ++ [e] ∧ Entry.name e = name ∧ einode e = index ∧
    ((∀ x, x ∈ entries_in V sb parent → Entry.name x ≠ name) → lookup_in D sb parent' name = Ok (index, made)) ∧
    ∀ other, 0 ≤ other → other ≠ index → other ≠ directory → inode_in D sb other = inode_in V sb other.

(** A directory all of whose blocks are data blocks reads the same off blocks that differ
    only elsewhere. *)
Lemma entries_local m V M (parent : Inode) : ∀ w : nat,
  (∀ k, Z.of_nat w ≤ k < Z.of_nat (w + m) → (Z.to_nat (k / Volume.PER) < length (direct parent))%nat ∧ data_start sb ≤ entry_block parent k < blocks sb) →
  (∀ b, data_start sb ≤ b < blocks sb → M b = V b) → entries_from m M sb parent w = entries_from m V sb parent w.
Proof.
  induction m as [|m IH]; intros w Hk HM; [done|]. cbn [entries_from]. destruct (Hk (Z.of_nat w) ltac:(lia)) as [Hlt Hb]. destruct (slot_arith w) as [-> _].
  destruct (lookup_lt_is_Some_2 _ _ Hlt) as [b Hbk]. unfold number_of. rewrite Hbk. assert (Hbe : entry_block parent (Z.of_nat w) = b) by (unfold entry_block; by rewrite Hbk). rewrite Hbe in Hb.
  destruct (Filesystem.valid_number sb b) as [b'|] eqn:Hv; [|done]. assert (b' = b) as -> by (unfold Filesystem.valid_number in Hv; destruct (_ || _); by simplify_eq).
  rewrite HM by done. destruct (Entry.read _ _); [|done]. rewrite (IH (w + 1)%nat); [done|intros k Hk'; apply Hk; lia|done].
Qed.

Lemma created_reads V bad directory name kind' index New D :
  paged V → (∀ b, Forall is_byte (V b)) → 0 ≤ directory → created sb bad directory name kind' V index New →
  (∀ parent, inode_in V sb directory = Ok parent → dir_sound V parent) → as_made sb New D → name_added directory name kind' V index D.
Proof.
  intros HV Hb Hd (parent & g & fresh & Hch & [e He] & ->) Hdir HD. pose proof (cc_parent _ _ _ _ _ _ _ _ _ Hch) as Hp.
  pose proof (Hdir parent Hp) as Hds. pose proof (cc_index _ _ _ _ _ _ _ _ _ Hch) as Hi.
  pose proof (created_inodes V HV Hb bad directory name kind' parent index g fresh Hd Hch Hds e He) as Hinodes.
  pose proof (created_listing V HV Hb bad directory name kind' parent index g fresh Hd Hch Hds e He) as Hlist.
  destruct (created_full V HV Hb bad directory name kind' parent index g fresh Hd Hch Hds e He) as (Hok' & Hcount & Hmax & Hfull).
  destruct (created_entry_fits V bad directory name parent index g fresh Hch e He) as (_ & Hnm & Hein & _).
  set (New := create_blocks _ _ _ _ _ _ _ _ _) in *. set (parent' := Volume.with_size _ _) in *. unfold plausible_layout in Hlay.
  assert (HDi : ∀ other, 0 ≤ other → inode_in D sb other = inode_in New sb other).
  { intros other Ho. apply inode_in_local; [done|]. intros b Hbi. apply HD. unfold in_journal. lia. }
  assert (HDe : entries_in D sb parent' = entries_in New sb parent').
  { unfold entries_in. apply entries_local; [|intros b Hbd; apply HD; unfold in_journal; lia]. intros k Hk. pose proof (io_size _ Hok') as Hsz. unfold in_width in Hsz.
    assert (0 ≤ entry_count parent') by (apply Z.div_pos; [lia|done]). fold (entry_count parent') in Hk. rewrite Nat.add_0_l, Z2Nat.id in Hk by done. split; [|apply Hfull; lia].
    rewrite (io_direct _ Hok'). change Volume.PER with 128. assert (k / 128 < 10) by (apply Z.div_lt_upper_bound; lia). lia. }
  assert (Hne : directory ≠ index).
  { intros ->. destruct (cc_free _ _ _ _ _ _ _ _ _ Hch) as (old & Hold & Hk & _). rewrite Hp in Hold. injection Hold as <-.
    rewrite (cc_directory _ _ _ _ _ _ _ _ _ Hch) in Hk. done. }
  assert (Hnew : inode_in D sb index = Ok (Volume.new_inode kind' g)) by (rewrite HDi, Hinodes by lia; by rewrite decide_True).
  exists parent, parent', (Volume.new_inode kind' g), e. split; [done|]. split; [by rewrite HDi, Hinodes, decide_False, decide_True by done|]. split; [exact Hnew|].
  split_and!; try done; [simpl; lia|by rewrite HDe| |].
  - intros Habs. unfold lookup_in. rewrite HDe, Hlist.
    assert (kind (grown parent fresh) = KDirectory) as Hk by (rewrite <- (cc_directory _ _ _ _ _ _ _ _ _ Hch); by destruct fresh).
    unfold parent'. simpl kind. rewrite Hk. rewrite bool_decide_true by done. cbn [negb].
    rewrite (find_last _ _ e); [|by intros y Hy; apply bool_decide_eq_false, Habs|by apply bool_decide_eq_true].
    rewrite Hein, Hnew. done.
  - intros other Ho Hn1 Hn2. rewrite HDi, Hinodes by done. by rewrite !decide_False.
Qed.

(** ** Freeing *)

(** Every block a file's inode and table name, and the table. *)
Definition named_blocks V (file : Inode) : list Z :=
  filter (fun b => b ≠ 0) (direct file) ++
  (if indirect file =? 0 then []
   else match Volume.table_numbers (V (indirect file)) with Ok numbers => filter (fun b => b ≠ 0) numbers | Err _ => [] end ++ [indirect file]).

(** No number is missing before one that is there. *)
Definition no_hole (numbers : list Z) : Prop := ∀ i j b, (i < j)%nat → numbers !! i = Some 0 → numbers !! j = Some b → b = 0.
Definition without_holes V (file : Inode) : Prop :=
  no_hole (direct file) ∧ (indirect file = 0 ∨ ∀ numbers, Volume.table_numbers (V (indirect file)) = Ok numbers → no_hole numbers).

Lemma prefix_all l : no_hole l → nonzero_prefix l = filter (fun b => b ≠ 0) l.
Proof.
  induction l as [|b l IH]; intros Hl; [done|]. unfold nonzero_prefix in *. cbn [take_while]. destruct (Z.eqb_spec b 0) as [->|Hb]; cbn [negb].
  - rewrite filter_cons_False by (intros H; by apply H). assert (Hz : Forall (fun b => b = 0) l) by (apply Forall_lookup_2; intros j b Hj; apply (Hl 0%nat (S j) b); [lia|done|done]).
    clear -Hz. induction Hz as [|b l -> _ IH]; [done|]. by rewrite filter_cons_False by (intros H; by apply H).
  - rewrite filter_cons_True by done. f_equal. apply IH. intros i j x Hij Hi Hj. apply (Hl (S i) (S j) x); [lia|done|done].
Qed.

Lemma held_all V file : paged V → file_ok sb V file → without_holes V file → held_blocks V file = named_blocks V file.
Proof.
  intros HV [_ Hind] [H1 H2]. unfold held_blocks, named_blocks. rewrite prefix_all by done. f_equal. destruct (Z.eqb_spec (indirect file) 0) as [|Hne]; [done|].
  destruct Hind as [|Hind]; [done|]. unfold plausible_layout in Hlay. destruct (table_numbers_ok (V (indirect file))) as (numbers & E & _); [apply HV; lia|]. rewrite E. destruct H2 as [|H2]; [done|]. by rewrite prefix_all by by apply H2.
Qed.

Lemma bit_freed M b : paged M → 0 ≤ b < blocks sb → free_in sb (put_bit sb b false M) b.
Proof.
  intros HM Hb. unfold plausible_layout in Hlay. pose proof (snd_bitmap _ Hsound) as Hbm. set (h := bitmap_start sb + b / 8 / BLOCKz).
  assert (Hh : 0 ≤ h < blocks sb).
  { assert (0 ≤ b / 8 / BLOCKz) by (unfold BLOCKz; apply Z.div_pos; [apply Z.div_pos|]; lia). unfold h. split; [lia|].
    assert (b / 8 / BLOCKz < inode_start sb - bitmap_start sb); [|lia]. rewrite Z.div_div by done. apply Z.div_lt_upper_bound; [done|]. unfold BLOCKz in *. lia. }
  pose proof (Z.mod_pos_bound (b / 8) BLOCKz ltac:(done)) as Hm. destruct (lookup_lt_is_Some_2 (M h) (Z.to_nat (b / 8 mod BLOCKz))) as [cell Hc]; [rewrite HM, block_value by done; unfold BLOCKz in *; lia|].
  unfold put_bit, edited, edit_bit. fold h. rewrite Hc. cbn [ok_or rbind]. eexists. fold h. rewrite upd_here, list_lookup_insert_eq by (by eapply lookup_lt_Some). split; [done|].
  pose proof (Z.mod_pos_bound b 8 ltac:(lia)). change 255 with (Z.ones 8). rewrite Z.land_spec, Z.lxor_spec, Z.testbit_ones_nonneg, Z.shiftl_spec, Z.sub_diag by lia.
  rewrite (proj2 (Z.ltb_lt _ _)) by lia. apply andb_false_r.
Qed.
Lemma bit_stays_free M b b' : free_in sb M b → free_in sb (put_bit sb b' false M) b.
Proof.
  intros (cell & Hc & Ht). unfold free_in, put_bit, edited, edit_bit. set (h := bitmap_start sb + b / 8 / BLOCKz) in *. set (h' := bitmap_start sb + b' / 8 / BLOCKz).
  destruct (M h' !! _) as [cell'|] eqn:Hc'; cbn [ok_or rbind]; [|by exists cell]. destruct (decide (h = h')) as [<-|Hne]; [|rewrite upd_elsewhere by done; by exists cell]. rewrite upd_here.
  destruct (decide (Z.to_nat (b / 8 mod BLOCKz) = Z.to_nat (b' / 8 mod BLOCKz))) as [E|E]; [|rewrite list_lookup_insert_ne by done; by exists cell].
  rewrite <- E in *. rewrite Hc in Hc'. injection Hc' as <-. rewrite list_lookup_insert_eq by (by eapply lookup_lt_Some). eexists. split; [done|]. by rewrite Z.land_spec, Ht.
Qed.

Lemma bits_freed l : ∀ M, paged M → Forall (fun b => 0 ≤ b < blocks sb) l → (∀ b, b ∈ l → free_in sb (free_bits sb l M) b) ∧ ∀ b, free_in sb M b → free_in sb (free_bits sb l M) b.
Proof.
  induction l as [|x l IH]; intros M HM Hl; [split; [by intros b ?%elem_of_nil|done]|]. apply Forall_cons in Hl as [Hx Hl]. unfold free_bits in *. cbn [foldl].
  destruct (IH (put_bit sb x false M) (put_bit_paged _ _ _ HM) Hl) as [H1 H2]. split; [|intros b Hb; by apply H2, bit_stays_free].
  intros b [->|Hb]%elem_of_cons; [by apply H2, bit_freed|by apply H1].
Qed.

(** What is removed has its blocks free. *)
Lemma removed_frees V directory name New D parent index victim : paged V → 0 ≤ directory → removed sb directory name V tt New → as_made sb New D →
  inode_in V sb directory = Ok parent → lookup_in V sb parent name = Ok (index, victim) → file_ok sb V victim → ∀ b, b ∈ held_blocks V victim → free_in sb D b.
Proof.
  intros HV Hd (parent0 & k & index0 & victim0 & moving & Hch & ->) HD Hp Hlk [Hheld _] b Hb. pose proof (rc_parent _ _ _ _ _ _ _ _ _ Hch) as Hp0. rewrite Hp in Hp0. injection Hp0 as <-.
  pose proof (rc_named _ _ _ _ _ _ _ _ _ Hch) as Hl0. rewrite Hlk in Hl0. injection Hl0 as <- <-. unfold plausible_layout in Hlay. pose proof (proj1 (Forall_forall _ _) Hheld b Hb) as Hbr. cbn beta in Hbr.
  assert (Hf : free_in sb (remove_blocks sb directory parent k index victim moving V) b).
  { unfold remove_blocks. refine (proj1 (bits_freed _ _ _ _) b Hb); [|eapply Forall_impl; [exact Hheld|intros x ?; cbn beta in *; lia]]. by apply put_inode_paged, put_inode_paged, edited_paged; [apply entry_write_keeps|]. }
  destruct Hf as (cell & Hc & Ht). exists cell. split; [|done]. rewrite HD; [done|]. unfold in_journal. pose proof (snd_bitmap _ Hsound) as Hbm.
  assert (b / 8 / BLOCKz < inode_start sb - bitmap_start sb); [|lia]. rewrite Z.div_div by done. apply Z.div_lt_upper_bound; [done|]. unfold BLOCKz in *. lia.
Qed.

End Maps.

(** ** The operations, as a reader sees them *)
Section Operations.
Context {S : Type} `{!Store S} `{!StoreLaws S}.
Implicit Types v : Volume S.
Abbreviation shows v := (view (vcache v)).

Lemma shows_paged v : at_rest v → paged (vsuper v) (shows v).
Proof. intros Hv b Hb. apply view_length; [apply Hv|]. pose proof (ar_layout _ Hv) as Hl. unfold plausible_layout in Hl. lia. Qed.


(** C28. Removing a name is one atomic, durable step, in the sense of [create_is_atomic]:
    the last entry stands in the name's place, the directory is one shorter, the inode is
    dead, and the blocks its inode and table name are marked free up to the first number
    that is missing, or nothing has changed.  So where no number is missing before one that
    is there, every block the file had is free; and it fails only for one of the reasons
    listed, or because the device failed. *)
Theorem remove_is_atomic v directory name :
  at_rest v → sound (vsuper v) → 0 ≤ directory →
  (∀ i, inode_in (shows v) (vsuper v) directory = Ok i → dir_ok (vsuper v) i ∧ dir_full (vsuper v) i) →
  (∀ i x, inode_in (shows v) (vsuper v) directory = Ok i → lookup_in (shows v) (vsuper v) i name = Ok x →
     file_ok (vsuper v) (shows v) x.2) →
  room 16000 (vcache v) →
  ∃ r v', Volume.remove directory name v = Done (r, v') ∧
    ends (vsuper v) (st_blocks (store (vcache v))) [] (shows v) (removed (vsuper v) directory name (shows v)) r v' ∧
    (∀ i index victim b, r = Ok tt → inode_in (shows v) (vsuper v) directory = Ok i → lookup_in (shows v) (vsuper v) i name = Ok (index, victim) →
       without_holes (shows v) victim → b ∈ named_blocks (shows v) victim → free_in (vsuper v) (shows v') b) ∧
    (is_Err r → remove_refused (vsuper v) directory name (shows v) ∨ broken (vcache v)).
Proof.
  intros Hv Hs Hd Hdir Hf Hroom. destruct (at_rest_setting v [] Hv Hs (Forall_nil_2 _)) as [Hset Hrest].
  destruct (remove_file_spec (vcache v) (vsuper v) (shows v) v directory name Hrest Hd Hdir Hf Hroom) as (r & v' & Hm & _ & Hpost).
  exists r, v'. split; [done|]. destruct r as [[]|e]; [|destruct Hpost; by split]. split; [done|]. split; [|by intros []].
  intros i index victim b _ Hi Hlk Hno Hb. destruct Hpost as (New & Hmade & _ & _ & Hview & _). pose proof (Hf i (index, victim) Hi Hlk) as Hok.
  rewrite <- (held_all (vsuper v) _ (ar_layout _ Hv) (shows v) victim (shows_paged v Hv) Hok Hno) in Hb.
  eapply (removed_frees (vsuper v) _ (ar_layout _ Hv) Hs); try done. by apply shows_paged.
Qed.
End Operations.

(** ** At a concrete volume *)
Lemma stored_paged : paged demo_layout (bytes_disk stored).
Proof. destruct stored_facts as (_ & Hwb & _). intros b Hb. apply bytes_disk_get. rewrite Hwb. exact Hb. Qed.

Lemma stored_dir_sound : dir_sound demo_layout (bytes_disk stored) stored_root.
Proof.
  destruct stored_facts as (_ & _ & _ & _ & _ & _ & _ & _ & _ & Hbit). split; [apply stored_root_ok..| |].
  - intros k Hk. change (entry_count stored_root) with 1 in Hk. assert (k = 0) as -> by lia.
    change (entry_block stored_root 0) with 12. intros (cell & Hc & Ht). change (bitmap_start demo_layout + _) with 1 in Hc.
    change (Z.to_nat _) with 1%nat in Hc. rewrite Hbit in Hc. injection Hc as <-. discriminate Ht.
  - intros j k Hj Hk. change (entry_count stored_root) with 1 in Hj, Hk. intros _. f_equal. lia.
Qed.

Lemma stored_directory i : inode_in (view (vcache stored_volume)) (vsuper stored_volume) 0 = Ok i → i = stored_root.
Proof. intros Hi. rewrite stored_inode in Hi. destruct stored_facts as (_ & _ & _ & _ & Hroot & _). rewrite Hroot in Hi. injection Hi as <-. reflexivity. Qed.
Lemma stored_dir_sound' : dir_sound demo_layout (view (vcache stored_volume)) stored_root.
Proof.
  destruct stored_dir_sound as [H1 H2 H3 H4]. split; [exact H1|exact H2| |exact H4]. intros k Hk (cell & Hc & Ht). rewrite stored_view in Hc. exact (H3 k Hk (ex_intro _ cell (conj Hc Ht))).
Qed.


Lemma stored_file_blocks : without_holes (view (vcache stored_volume)) stored_file ∧ 13 ∈ named_blocks (view (vcache stored_volume)) stored_file.
Proof.
  split; [split|].
  - intros i j b Hij Hi Hj. change (direct stored_file) with (13 :: replicate 9 0) in Hi, Hj. destruct i as [|i]; [discriminate Hi|]. destruct j as [|j]; [lia|]. by apply lookup_replicate in Hj as [-> _].
  - by left.
  - left.
Qed.

Lemma remove_is_atomic_witness : ∃ v', Volume.remove 0 [97] stored_volume = Done (Ok tt, v') ∧ free_in demo_layout (view (vcache v')) 13.
Proof.
  assert (Ha : answer (Volume.remove 0 [97] stored_volume) = Some tt) by (vm_compute; reflexivity).
  destruct stored_facts as (_ & _ & _ & _ & Hroot & _ & Hlook & _).
  destruct (remove_is_atomic stored_volume 0 [97]) as (r & v' & H & _ & Hfree & _).
  - exact stored_at_rest.
  - exact stored_sound.
  - lia.
  - intros i Hi. rewrite (stored_directory i Hi). exact stored_root_ok.
  - intros i x Hi Hx. rewrite (stored_directory i Hi) in Hx. rewrite stored_lookup, Hlook in Hx.
    injection Hx as <-. apply stored_file_ok.
  - apply stored_room. lia.
  - rewrite H in Ha. destruct r as [a|e]; [|discriminate Ha]. injection Ha as ->. exists v'. split; [exact H|].
    refine (Hfree stored_root 1 stored_file 13 eq_refl _ _ (proj1 stored_file_blocks) (proj2 stored_file_blocks)); [rewrite stored_inode; exact Hroot|rewrite stored_lookup; exact Hlook].
Defined.
