(* ===== verification/Segment.v ===== *)
(** * TCP segments

    The sequence numbers of src/net/src/tcp.rs, the one's-complement checksum and
    the big-endian readers of src/net/src/lib.rs, and the segment parser and
    writer of src/net/src/tcp/segment.rs.  The laws of the format are in
    SegmentTrip.v; the types here are those the connection machine of Tcp.v works
    on. *)
From stdpp Require Import prelude numbers list strings.
From S2P Require Import Prelude Bytes.
Open Scope Z_scope.
Set Warnings "-clear-no-such-hyp".

(** ** Sequence numbers *)
Module Sequence.

(** Reading a [u32] as an [i32]. *)
Definition as_i32 (x : Z) : Z := if x <? 2 ^ 31 then x else x - 2 ^ 32.
Definition wrapping_add (self n : Z) : Z := Prelude.wrapping_add 32 self n.
Definition precedes (self other : Z) : bool := as_i32 (wrapping_sub 32 self other) <? 0.
Definition follows (self other : Z) : bool := precedes other self.

End Sequence.

(** ** Addresses *)
Inductive Address : Type :=
| V4 (address : Z)
| V6 (octets : list Z).

Record FourTuple : Type := MkFourTuple {
  local : Address;
  local_port : Z;
  remote : Address;
  remote_port : Z
}.

#[global] Instance Address_eq_dec : EqDecision Address.
Proof. solve_decision. Defined.
#[global] Instance FourTuple_eq_dec : EqDecision FourTuple.
Proof. solve_decision. Defined.

Definition reversed (self : FourTuple) : FourTuple :=
  MkFourTuple (remote self) (remote_port self) (local self) (local_port self).

(** ** Errors *)
Inductive NetError : Type :=
| Truncated (need have : nat)
| LengthBeyondBuffer (stated have : nat)
| BadHeaderLength (words : Z) (total : nat)
| BadVersion (version : Z)
| BadChecksum (computed carried : Z)
| Unsupported (field : string) (value : Z)
| NetExhausted (table : string)
| BadOptionLength (kind length : Z).

(** ** Big-endian fields *)
Definition be16 (bytes : list Z) (offset : nat) : option Z := from_be <$> get bytes offset 2.
Definition be32 (bytes : list Z) (offset : nat) : option Z := from_be <$> get bytes offset 4.


(** ** The checksum *)
Module Checksum.

(** Adds the 16-bit words of a span; an odd byte is left pending. *)
Fixpoint sum_pairs (sum : Z) (bytes : list Z) : outcome (Z * option Z) :=
  match bytes with
  | [] => Done (sum, None)
  | [odd] => Done (sum, Some odd)
  | high :: low :: rest => sum ← add_checked 32 sum (high * 256 + low); sum_pairs sum rest
  end.

Definition sum_span (st : Z * option Z) (span : list Z) : outcome (Z * option Z) :=
  let '(sum, pending) := st in
  match pending, span with
  | Some high, low :: rest => sum ← add_checked 32 sum (high * 256 + low); sum_pairs sum rest
  | Some high, [] => Done (sum, Some high)
  | None, _ => sum_pairs sum span
  end.

Fixpoint fold_carries (fuel : nat) (sum : Z) : outcome Z :=
  if Z.shiftr sum 16 =? 0 then Done sum
  else
    match fuel with
    | O => OutOfFuel
    | S fuel' => sum ← add_checked 32 (Z.land sum 65535) (Z.shiftr sum 16); fold_carries fuel' sum
    end.

Definition checksum (spans : list (list Z)) : outcome Z :=
  '(sum, pending) ← for_each sum_span spans (0, None);
  sum ← (match pending with Some high => add_checked 32 sum (high * 256 + 0) | None => Done sum end);
  sum ← fold_carries 3 sum;
  Done (Z.lxor 65535 (trunc 16 sum)).

End Checksum.

(** ** Flags *)
Module Flags.
Definition FIN : Z := 1.
Definition SYN : Z := 2.
Definition RST : Z := 4.
Definition PSH : Z := 8.
Definition ACK : Z := 16.
Definition URG : Z := 32.
Definition none : Z := 0.
Definition contains (self other : Z) : bool := Z.land self other =? other.
Definition with_ (self other : Z) : Z := Z.lor self other.
Definition without (self other : Z) : Z := Z.land self (Z.lxor 255 other).
End Flags.

Record Options : Type := MkOptions { omss : option Z }.

Record Segment : Type := MkSegment {
  source : Z;
  destination : Z;
  sequence : Z;
  acknowledgement : option Z;
  flags : Z;
  window : Z;
  options : Options;
  payload : list Z
}.

(** ** Parsing and writing *)
Module Seg.
Definition HEADER : nat := 20.
Definition MAX_HEADER : nat := 60.
Definition END_OF_LIST : Z := 0.
Definition NO_OPERATION : Z := 1.
Definition MAXIMUM_SEGMENT_SIZE : Z := 2.
Definition TCP : Z := 6.
Definition U16_MAX : nat := Z.to_nat 65535.

(** The sequence space a segment occupies. *)
Definition sequence_length (self : Segment) : Z :=
  let length' := Z.of_nat (length (payload self)) in
  let payload' := if length' <? 2 ^ 32 then length' else 2 ^ 32 - 1 in
  let control := (if Flags.contains (flags self) Flags.SYN then 1 else 0)
               + (if Flags.contains (flags self) Flags.FIN then 1 else 0) in
  saturating_add 32 payload' control.

Definition octets (a : Z) : list Z := to_be 4 a.

(** [ipv6::pseudo_header]. *)
Definition pseudo_header (source' destination' : list Z) (next_header transport_length : Z) : outcome (list Z) :=
  pseudo ← put_at (replicate 40 0) 0 source';
  pseudo ← put_at pseudo 16 destination';
  pseudo ← put_at pseudo 32 (to_be 4 transport_length);
  put_at pseudo 39 [next_header].

(** The pseudo-header, and how much of it counts. *)
Definition pseudo_of (source' destination' : Address) (length' : Z) : outcome (result (list Z * nat) NetError) :=
  match source', destination' with
  | V4 source', V4 destination' =>
      pseudo ← put_at (replicate 40 0) 0 (octets source');
      pseudo ← put_at pseudo 4 (octets destination');
      pseudo ← put_at pseudo 9 [TCP];
      pseudo ← put_at pseudo 10 (to_be 2 (trunc 16 length'));
      Done (Ok (pseudo, 12%nat))
  | V6 source', V6 destination' =>
      pseudo ← pseudo_header source' destination' TCP length';
      Done (Ok (pseudo, 40%nat))
  | _, _ => Done (Err (Unsupported "pseudo-header family (mixed)" 0))
  end.

(** Walks the option list; [fuel] bounds the number of options. *)
Fixpoint parse_options (fuel : nat) (header : list Z) (options' : Options) (at' : nat) : outcome (result Options NetError) :=
  if decide (at' < length header)%nat then
    match fuel with
    | O => OutOfFuel
    | S fuel' =>
        match header !! at' with
        | None => Done (Err (Truncated (at' + 1) (length header)))
        | Some kind =>
            if kind =? END_OF_LIST then Done (Ok options')
            else if kind =? NO_OPERATION then parse_options fuel' header options' (at' + 1)
            else
              match header !! (at' + 1)%nat with
              | None => Done (Err (Truncated (at' + 2) (length header)))
              | Some length' =>
                  if length' <? 2 then Done (Err (BadOptionLength kind length'))
                  else
                    let end' := (at' + Z.to_nat length')%nat in
                    if decide (length header < end')%nat then Done (Err (LengthBeyondBuffer end' (length header)))
                    else if kind =? MAXIMUM_SEGMENT_SIZE then
                      if negb (length' =? 4) then Done (Err (BadOptionLength kind length'))
                      else parse_options fuel' header (MkOptions (be16 header (at' + 2))) end'
                    else parse_options fuel' header options' end'
              end
        end
    end
  else Done (Ok options').

Definition parse (bytes : list Z) (source_address destination_address : Address) : outcome (result Segment NetError) :=
  match get bytes 0 HEADER with
  | None => Done (Err (Truncated HEADER (length bytes)))
  | Some fixed =>
      offset ← at_index fixed 12;
      let words := Z.shiftr offset 4 in
      let header_length := (Z.to_nat words * 4)%nat in
      if decide (header_length < HEADER)%nat then Done (Err (BadHeaderLength words (length bytes)))
      else
        match get bytes 0 header_length with
        | None => Done (Err (BadHeaderLength words (length bytes)))
        | Some header =>
            let carried := default 0 (be16 fixed 16) in
            if 65535 <? Z.of_nat (length bytes) then Done (Err (LengthBeyondBuffer (length bytes) U16_MAX))
            else
              p ← pseudo_of source_address destination_address (Z.of_nat (length bytes));
              match p with
              | Err e => Done (Err e)
              | Ok (pseudo, pseudo_len) =>
                  computed ← Checksum.checksum
                    [take pseudo_len pseudo; default [] (get bytes 0 16); [0; 0]; drop 18 bytes];
                  if negb (computed =? carried) then Done (Err (BadChecksum computed carried))
                  else
                    flags' ← at_index fixed 13;
                    let acknowledgement' :=
                      if Flags.contains flags' Flags.ACK then Some (default 0 (be32 fixed 8)) else None in
                    o ← parse_options (length header) header (MkOptions None) HEADER;
                    match o with
                    | Err e => Done (Err e)
                    | Ok options' =>
                        Done (Ok (MkSegment (default 0 (be16 fixed 0)) (default 0 (be16 fixed 2))
                          (default 0 (be32 fixed 4)) acknowledgement' flags'
                          (default 0 (be16 fixed 14)) options' (drop header_length bytes)))
                    end
              end
        end
  end.

(** What the written segment's flags are: the acknowledgement decides [ACK]. *)
Definition written_flags (segment : Segment) : Z :=
  match acknowledgement segment with
  | Some _ => Flags.with_ (flags segment) Flags.ACK
  | None => Flags.without (flags segment) Flags.ACK
  end.

(** Fills in a header and a payload in [bytes], all zero, the checksum apart. *)
Definition write_fields (bytes : list Z) (segment : Segment) (header_length : nat) : outcome (list Z) :=
  bytes ← put_at bytes 0 (to_be 2 (source segment));
  bytes ← put_at bytes 2 (to_be 2 (destination segment));
  bytes ← put_at bytes 4 (to_be 4 (sequence segment));
  bytes ← (match acknowledgement segment with
           | Some ack => put_at bytes 8 (to_be 4 ack)
           | None => Done bytes
           end);
  bytes ← put_at bytes 12 [trunc 8 (Z.shiftl (Z.of_nat header_length / 4) 4)];
  bytes ← put_at bytes 13 [written_flags segment];
  bytes ← put_at bytes 14 (to_be 2 (window segment));
  bytes ← (match omss (options segment) with
           | Some mss =>
               bytes ← put_at bytes HEADER [MAXIMUM_SEGMENT_SIZE];
               bytes ← put_at bytes (HEADER + 1) [4];
               put_at bytes (HEADER + 2) (to_be 2 mss)
           | None => Done bytes
           end);
  put_at bytes header_length (payload segment).

(** Writes a segment into [out]; the buffer as it was left is part of the answer. *)
Definition write (out : list Z) (segment : Segment) (source_address destination_address : Address)
    : outcome (result nat NetError * list Z) :=
  let header_length := if omss (options segment) is Some _ then (HEADER + 4)%nat else HEADER in
  let total := (header_length + length (payload segment))%nat in
  if 2 ^ 64 <=? Z.of_nat total then Done (Err (LengthBeyondBuffer (length (payload segment)) U16_MAX), out)
  else if 65535 <? Z.of_nat total then Done (Err (LengthBeyondBuffer total U16_MAX), out)
  else if decide (length out < total)%nat then Done (Err (Truncated total (length out)), out)
  else
    bytes ← write_fields (replicate total 0) segment header_length;
    p ← pseudo_of source_address destination_address (Z.of_nat total);
    match p with
    | Err e => Done (Err e, bytes ++ drop total out)
    | Ok (pseudo, pseudo_len) =>
        sum ← Checksum.checksum [take pseudo_len pseudo; bytes];
        bytes ← put_at bytes 16 (to_be 2 sum);
        Done (Ok total, bytes ++ drop total out)
    end.

End Seg.
