(* ===== verification/SegmentTrip.v ===== *)
(** The laws of the TCP segment format of Segment.v: what the checksum depends on,
    that it always comes out, that it catches a corrupted byte; that the parser
    answers every string of bytes, and answers only with well-formed segments; and
    that what the writer writes, the parser reads back. *)
From stdpp Require Import prelude numbers list strings.
From S2P Require Import Prelude Bytes Segment.
Open Scope Z_scope.
Set Warnings "-clear-no-such-hyp".

(** ** The checksum *)
Module ChecksumLaws.
Import Checksum.

Definition pending_list (p : option Z) : list Z := match p with Some high => [high] | None => [] end.

(** A span continues the pairs from the byte left pending. *)
Lemma sum_span_pairs sum p span : sum_span (sum, p) span = sum_pairs sum (pending_list p ++ span).
Proof. destruct p as [high|]; [|done]. by destruct span. Qed.

Lemma sum_pairs_app a : ∀ sum b,
  sum_pairs sum (a ++ b) = '(sum', p) ← sum_pairs sum a; sum_pairs sum' (pending_list p ++ b).
Proof.
  induction (Nat.lt_wf_0_projected (@length Z) a) as [a _ IH]. intros sum b.
  destruct a as [|x [|y a]]; [done|done|]. cbn [app sum_pairs]. rewrite outcome_bind_assoc.
  apply outcome_bind_ext. intros sum'. apply IH. cbn. lia.
Qed.

Lemma sum_spans spans : ∀ sum p, for_each sum_span spans (sum, p) = sum_pairs sum (pending_list p ++ concat spans).
Proof.
  induction spans as [|span spans IH]; intros sum p; cbn [for_each concat].
  { rewrite app_nil_r. by destruct p. }
  rewrite sum_span_pairs, app_assoc, (sum_pairs_app (pending_list p ++ span)). apply outcome_bind_ext. intros [sum' p']. apply IH.
Qed.

(** The checksum sees the spans as one string of bytes. *)
Lemma checksum_concat spans : checksum spans = checksum [concat spans].
Proof. unfold checksum. rewrite !sum_spans. cbn [concat]. by rewrite !app_nil_r. Qed.

(** The sum of the 16-bit words, an odd byte padded with zero: what the loop adds
    up when nothing overflows. *)
Fixpoint word_sum (bytes : list Z) : Z :=
  match bytes with
  | [] => 0
  | [odd] => odd * 256
  | high :: low :: rest => high * 256 + low + word_sum rest
  end.

(** Induction two bytes at a time. *)
Lemma pair_ind (P : list Z → Prop) :
  P [] → (∀ x, P [x]) → (∀ x y l, P l → P (x :: y :: l)) → ∀ l, P l.
Proof.
  intros H0 H1 H2 l. induction (Nat.lt_wf_0_projected (@length Z) l) as [l _ IH].
  destruct l as [|x [|y l]]; [done|done|]. apply H2, IH. cbn. lia.
Qed.

Lemma word_sum_range bytes : Forall is_byte bytes → 0 ≤ word_sum bytes ≤ 32768 * (Z.of_nat (length bytes) + 1).
Proof.
  induction bytes as [|x|x y bytes IH] using pair_ind; intros Hb; cbn [word_sum length]; [lia| |];
    rewrite ?Forall_cons in Hb; unfold is_byte in Hb; [lia|]. destruct Hb as (? & ? & Hb%IH). lia.
Qed.

Lemma sum_pairs_done bytes : ∀ sum,
  Forall is_byte bytes → 0 ≤ sum → sum + word_sum bytes < 2 ^ 32 →
  ('(sum, pending) ← sum_pairs sum bytes;
   match pending with Some high => add_checked 32 sum (high * 256 + 0) | None => Done sum end) = Done (sum + word_sum bytes).
Proof.
  induction bytes as [|x|x y bytes IH] using pair_ind; intros sum Hb Hs Hlt; cbn [word_sum] in *.
  - cbn. f_equal. lia.
  - rewrite Forall_cons in Hb. unfold is_byte in Hb. cbn [sum_pairs mbind outcome_bind]. unfold add_checked.
    rewrite checked_ok by (unfold in_width; lia). f_equal. lia.
  - rewrite !Forall_cons in Hb. unfold is_byte in Hb. destruct Hb as (? & ? & Hb). pose proof (word_sum_range _ Hb).
    cbn [sum_pairs]. change (add_checked 32 sum (x * 256 + y)) with (checked 32 (sum + (x * 256 + y))).
    rewrite checked_ok by (unfold in_width; lia). cbn [mbind outcome_bind].
    rewrite IH by (done || lia). f_equal. lia.
Qed.

(** Two carries at most come out of a 32-bit sum, and folding keeps it modulo 65535. *)
Lemma fold_step sum : in_width 32 sum →
  in_width 32 (Z.land sum 65535 + Z.shiftr sum 16) ∧ Z.land sum 65535 = sum mod 65536 ∧ Z.shiftr sum 16 = sum / 65536.
Proof.
  intros H. assert (E1 : Z.land sum 65535 = sum mod 65536) by exact (Z.land_ones sum 16 ltac:(lia)).
  assert (E2 : Z.shiftr sum 16 = sum / 65536) by (rewrite Z.shiftr_div_pow2; [done|lia]).
  rewrite E1, E2. unfold in_width in *. split; [|done]. pose proof (Z.mod_pos_bound sum 65536). pose proof (Z.div_pos sum 65536).
  pose proof (Z.div_lt_upper_bound sum 65536 65536). lia.
Qed.

Lemma fold_carries_done fuel : ∀ sum, in_width 32 sum →
  (sum < 65536 ∨ (sum < 131071 ∧ (1 ≤ fuel)%nat) ∨ (2 ≤ fuel)%nat) →
  ∃ f, fold_carries fuel sum = Done f ∧ in_width 16 f ∧ f mod 65535 = sum mod 65535.
Proof.
  induction fuel as [|fuel IH]; intros sum Hw Hf; destruct (fold_step sum Hw) as (Hs & E1 & E2); rewrite E1, E2 in Hs;
    unfold in_width in *; cbn [fold_carries]; rewrite E2; destruct (Z.eqb_spec (sum / 65536) 0) as [Hz|Hz].
  1, 3: exists sum; split; [done|]; split; [|done]; pose proof (Z.div_mod sum 65536); pose proof (Z.mod_pos_bound sum 65536); lia.
  - assert (sum < 65536) as Hlt by lia. rewrite Z.div_small in Hz by lia. lia.
  - unfold add_checked. rewrite E1, checked_ok by done. cbn [mbind outcome_bind].
    pose proof (Z.div_mod sum 65536). pose proof (Z.mod_pos_bound sum 65536). pose proof (Z.div_pos sum 65536).
    pose proof (Z.div_lt_upper_bound sum 65536 65536).
    destruct (IH (sum mod 65536 + sum / 65536) Hs) as (f & Hd & Hr & Hm); [lia|].
    exists f. split_and!; try done; try lia. rewrite Hm.
    replace sum with (sum mod 65536 + sum / 65536 + (sum / 65536) * 65535) at 3 by lia. by rewrite Z.mod_add by lia.
Qed.

Lemma complement x : in_width 16 x → Z.lxor 65535 x = 65535 - x.
Proof.
  intros Hx. change 65535 with (Z.ones 16). rewrite Z.sub_nocarry_ldiff.
  - apply Z.bits_inj'. intros n Hn. rewrite Z.lxor_spec, Z.ldiff_spec. destruct (decide (n < 16)) as [Hl|Hl].
    + rewrite Z.ones_spec_low by lia. by destruct (Z.testbit x n).
    + rewrite Z.ones_spec_high by lia. rewrite <- (trunc_small _ _ Hx). unfold trunc. by rewrite Z.mod_pow2_bits_high by lia.
  - apply Z.bits_inj'. intros n Hn. rewrite Z.ldiff_spec, Z.bits_0. destruct (decide (n < 16)) as [Hl|Hl].
    + rewrite Z.ones_spec_low by lia. apply andb_false_r.
    + rewrite <- (trunc_small _ _ Hx). unfold trunc. by rewrite Z.mod_pow2_bits_high by lia.
Qed.

(** The checksum of fewer than 131071 bytes comes out, in 16 bits, and determines
    their sum modulo 65535. *)
Lemma checksum_done spans :
  Forall is_byte (concat spans) → Z.of_nat (length (concat spans)) < 131071 →
  ∃ c, checksum spans = Done c ∧ in_width 16 c ∧ (65535 - c) mod 65535 = word_sum (concat spans) mod 65535.
Proof.
  intros Hb Hl. pose proof (word_sum_range _ Hb) as Hr. unfold checksum. rewrite sum_spans. cbn [pending_list app].
  pose proof (sum_pairs_done (concat spans) 0 Hb ltac:(lia) ltac:(lia)) as Hsum.
  destruct (sum_pairs 0 (concat spans)) as [[sum pending]| |]; [|done|done]. cbn [mbind outcome_bind] in *. rewrite Hsum. cbn [mbind outcome_bind].
  destruct (fold_carries_done 3 (0 + word_sum (concat spans))) as (f & -> & Hf & Hm); [unfold in_width; lia|lia|].
  cbn [mbind outcome_bind]. rewrite trunc_small, complement by done. eexists. split; [done|].
  unfold in_width in *. split; [lia|]. replace (65535 - (65535 - f)) with f by lia. by rewrite Hm.
Qed.

(** One byte changed changes the sum, by less than 65535. *)
Lemma word_sum_insert bytes : ∀ i b b', bytes !! i = Some b →
  word_sum (<[i:=b']> bytes) = word_sum bytes + (b' - b) * (if Nat.even i then 256 else 1).
Proof.
  induction bytes as [|x|x y bytes IH] using pair_ind; intros [|[|i]] b b' H; simplify_eq/=; try lia.
  rewrite (IH _ _ _ H). lia.
Qed.

Lemma word_sum_corrupted bytes i b b' :
  bytes !! i = Some b → is_byte b → is_byte b' → b' ≠ b →
  word_sum (<[i:=b']> bytes) mod 65535 ≠ word_sum bytes mod 65535.
Proof.
  intros Hi Hb Hb' Hne E. rewrite (word_sum_insert _ _ _ _ Hi) in E. unfold is_byte in *.
  pose proof (Z.div_mod (word_sum bytes) 65535). pose proof (Z.div_mod (word_sum bytes + (b' - b) * (if Nat.even i then 256 else 1)) 65535).
  destruct (Nat.even i); lia.
Qed.
End ChecksumLaws.

(** ** What fields hold *)
Definition address_ok (a : Address) : Prop :=
  match a with V4 address => in_width 32 address | V6 octets => length octets = 16%nat ∧ Forall is_byte octets end.

Definition same_family (a b : Address) : Prop :=
  match a, b with V4 _, V4 _ | V6 _, V6 _ => True | _, _ => False end.

(** Every field of a segment in its width. *)
Record well_formed (segment : Segment) : Prop := {
  wf_source : in_width 16 (source segment);
  wf_destination : in_width 16 (destination segment);
  wf_sequence : in_width 32 (sequence segment);
  wf_acknowledgement : ∀ ack, acknowledgement segment = Some ack → in_width 32 ack;
  wf_flags : in_width 8 (flags segment);
  wf_window : in_width 16 (window segment);
  wf_mss : ∀ mss, omss (options segment) = Some mss → in_width 16 mss;
  wf_payload : Forall is_byte (payload segment)
}.

(** The ACK flag is set exactly when there is an acknowledgement. *)
Definition flags_agree (segment : Segment) : Prop := Flags.contains (flags segment) Flags.ACK = true ↔ is_Some (acknowledgement segment).

(** The segment as it is sent: the writer takes the ACK flag from the acknowledgement, and
    not from [flags]. *)
Definition as_sent (segment : Segment) : Segment :=
  MkSegment (source segment) (destination segment) (sequence segment) (acknowledgement segment)
    ((if acknowledgement segment is Some _ then Flags.with_ else Flags.without) (flags segment) Flags.ACK)
    (window segment) (options segment) (payload segment).

Lemma as_sent_agreeing segment : in_width 8 (flags segment) → flags_agree segment → as_sent segment = segment.
Proof.
  intros Hw Ha. assert (Hall : ∀ f, in_width 8 f → (if Flags.contains f Flags.ACK then Flags.with_ f Flags.ACK else Flags.without f Flags.ACK) = f).
  { intros f Hf. assert (E : Forall (fun f => (if Flags.contains f Flags.ACK then Flags.with_ f Flags.ACK else Flags.without f Flags.ACK) = f) (Z.of_nat <$> seq 0 256)) by by apply (bool_decide_unpack _).
    rewrite Forall_forall in E. apply E, list_elem_of_fmap. exists (Z.to_nat f). unfold in_width in Hf. rewrite elem_of_seq. lia. }
  specialize (Hall (flags segment) Hw). unfold as_sent, flags_agree in *. destruct segment as [sp dp sq [ack|] fl wi op pl]; cbn in *; f_equal.
  - by rewrite (proj2 Ha ltac:(done)) in Hall.
  - destruct (Flags.contains fl Flags.ACK); [by destruct (proj1 Ha eq_refl)|done].
Qed.


Lemma be_range n bytes a : Forall is_byte bytes → 0 ≤ default 0 (from_be <$> get bytes a n) < 256 ^ Z.of_nat n.
Proof.
  intros Hb. destruct (get bytes a n) as [v|] eqn:E; cbn; [|lia]. pose proof (get_bytes _ _ _ _ Hb E) as Hv.
  apply get_spec in E as (_ & <- & _). unfold from_be. rewrite <- length_reverse. by apply from_le_range, Forall_reverse.
Qed.

Lemma be_field n out a v : get out a (length (to_be n v)) = Some (to_be n v) → 0 ≤ v < 256 ^ Z.of_nat n →
  from_be <$> get out a n = Some v.
Proof. rewrite length_to_be. intros -> Hv. cbn. by rewrite from_to_be. Qed.


(** A [put_at] that fits keeps the length and the bytes. *)
Lemma put_at_step bytes a v n : length bytes = n → Forall is_byte bytes → (a + length v ≤ n)%nat → Forall is_byte v →
  ∃ bytes', put_at bytes a v = Done bytes' ∧ length bytes' = n ∧ Forall is_byte bytes'.
Proof.
  intros <- Hb Hl Hv. exists (splice bytes a v). split_and!; [by apply put_at_ok|by apply length_splice|by apply splice_bytes].
Qed.

Lemma byte_list v : is_byte v → Forall is_byte [v].
Proof. intros H. constructor; [exact H|constructor]. Qed.

Ltac put_next :=
  match goal with
  | Hl : length ?b = ?n, Hb : Forall is_byte ?b |- context [put_at ?b ?a ?v] =>
      let b' := fresh "b" in let Hp := fresh "Hp" in
      destruct (put_at_step b a v n Hl Hb) as (b' & Hp & ? & ?);
      [rewrite ?length_to_be; cbn; lia|first [apply to_be_bytes | apply byte_list; unfold is_byte; lia]|];
      rewrite Hp; cbn [mbind outcome_bind]; clear Hp Hl Hb
  end.

(** The pseudo-header comes out, or the two addresses are of different families. *)
Lemma pseudo_of_done src dst n : address_ok src → address_ok dst →
  ∃ r, Seg.pseudo_of src dst n = Done r ∧
    (same_family src dst → ∃ p k, r = Ok (p, k)) ∧
    (∀ p k, r = Ok (p, k) → (Forall is_byte p ∧ length p = 40%nat) ∧ (k = 12 ∨ k = 40)%nat).
Proof.
  assert (H0 : length (replicate 40 0) = 40%nat) by done.
  assert (Hb : Forall is_byte (replicate 40 0)) by (apply Forall_replicate; unfold is_byte; lia).
  intros Hs Hd. destruct src as [s|s], dst as [d|d]; cbn [Seg.pseudo_of same_family]; [|by eexists|by eexists|].
  - unfold Seg.octets, Seg.TCP. generalize dependent (replicate 40 0). intros b Hl Hb. repeat put_next.
    eexists. split; [done|]. split; [naive_solver|]. intros ? ? [= <- <-]. auto.
  - destruct Hs as [Hs1 Hs2], Hd as [Hd1 Hd2]. unfold Seg.pseudo_header, Seg.TCP. generalize dependent (replicate 40 0). intros b Hl Hb.
    destruct (put_at_step b 0 s 40 Hl Hb) as (b1 & -> & ? & ?); [lia|done|]. cbn [mbind outcome_bind].
    destruct (put_at_step b1 16 d 40) as (b2 & -> & ? & ?); [done|done|lia|done|]. cbn [mbind outcome_bind].
    repeat put_next. eexists. split; [done|]. split; [naive_solver|]. intros ? ? [= <- <-]. auto.
Qed.

(** ** Parsing *)

(** The option walk ends within the header's length, and an option it takes fits. *)
Lemma parse_options_done header : Forall is_byte header → ∀ fuel at' o,
  (length header ≤ fuel + at')%nat → (∀ mss, omss o = Some mss → in_width 16 mss) →
  ∃ r, Seg.parse_options fuel header o at' = Done r ∧ ∀ o', r = Ok o' → ∀ mss, omss o' = Some mss → in_width 16 mss.
Proof.
  intros Hb. induction fuel as [|fuel IH]; intros at' o Hf Ho; cbn [Seg.parse_options]; case_decide as Hd; try lia;
    try (eexists; split; [done|]; by intros o' [= <-]).
  destruct (header !! at') as [kind|]; [|eexists; split; [done|]; done].
  destruct (kind =? Seg.END_OF_LIST). { eexists; split; [done|]. by intros o' [= <-]. }
  destruct (kind =? Seg.NO_OPERATION). { apply IH; [lia|done]. }
  destruct (header !! (at' + 1)%nat) as [len|] eqn:Hlen; [|eexists; split; [done|]; done].
  destruct (Z.ltb_spec len 2) as [|Hge]; [eexists; split; [done|]; done|].
  case_decide; [eexists; split; [done|]; done|].
  destruct (kind =? Seg.MAXIMUM_SEGMENT_SIZE); [|apply IH; [lia|done]].
  destruct (negb (len =? 4)); [eexists; split; [done|]; done|]. apply IH; [lia|]. cbn. intros mss Hm.
  pose proof (be_range 2 header (at' + 2) Hb) as Hr. unfold be16 in Hm. by rewrite Hm in Hr.
Qed.

Lemma checked_spans_ok p k bytes : Forall is_byte p → length p = 40%nat → Forall is_byte bytes → Z.of_nat (length bytes) ≤ 65535 →
  let spans := [take k p; default [] (get bytes 0 16); [0; 0]; drop 18 bytes] in
  Forall is_byte (concat spans) ∧ Z.of_nat (length (concat spans)) < 131071.
Proof.
  intros Hp Hl Hb Hlen spans. unfold spans. cbn [concat]. rewrite app_nil_r. split.
  - rewrite !Forall_app. split_and!; [by apply Forall_take| | |by apply Forall_drop].
    + destruct (get bytes 0 16) as [v|] eqn:E; cbn; [by eapply get_bytes|constructor].
    + repeat (apply Forall_cons; split; [unfold is_byte; lia|]). constructor.
  - rewrite !length_app, length_take, length_drop.
    assert (length (default [] (get bytes 0 16)) ≤ 16)%nat; [|cbn [length]; lia].
    destruct (get bytes 0 16) as [v|] eqn:E; cbn; [|lia]. apply get_spec in E as (_ & -> & _). lia.
Qed.

(** The spans the parser sums: everything, with zeros for the checksum itself. *)
Definition summed (p : list Z) (k : nat) (bytes : list Z) : list (list Z) :=
  [take k p; default [] (get bytes 0 16); [0; 0]; drop 18 bytes].

(** The parser answers, and what it accepts is in its widths and carries the
    checksum of the rest. *)
Lemma parse_done bytes src dst : Forall is_byte bytes → address_ok src → address_ok dst →
  ∃ r, Seg.parse bytes src dst = Done r ∧ ∀ segment, r = Ok segment →
    (well_formed segment ∧ (Flags.contains (flags segment) Flags.ACK = true ↔ is_Some (acknowledgement segment))) ∧
    (20 ≤ length bytes)%nat ∧ Z.of_nat (length bytes) ≤ 65535 ∧
    ∃ p k, Seg.pseudo_of src dst (Z.of_nat (length bytes)) = Done (Ok (p, k)) ∧
      Checksum.checksum (summed p k bytes) = Done (default 0 (be16 bytes 16)).
Proof.
  intros Hb Hs Hd. unfold Seg.parse. destruct (get bytes 0 Seg.HEADER) as [fixed|] eqn:Hfix; [|eexists; split; done].
  pose proof (get_bytes _ _ _ _ Hb Hfix) as Hfb. pose proof (get_get _ _ _ _ 16 2 Hfix ltac:(unfold Seg.HEADER; lia)) as H16.
  pose proof Hfix as (Hge & Hfl & _)%get_spec. unfold Seg.HEADER in Hge, Hfl.
  destruct (lookup_lt_is_Some_2 fixed 12) as [offset Ho]; [lia|]. destruct (lookup_lt_is_Some_2 fixed 13) as [fl Hfl13]; [lia|].
  rewrite (at_index_ok _ _ _ Ho). cbn [mbind outcome_bind].
  case_decide; [eexists; split; done|].
  destruct (get bytes 0 (Z.to_nat (Z.shiftr offset 4) * 4)) as [header|] eqn:Hh; [|eexists; split; done].
  destruct (Z.ltb_spec 65535 (Z.of_nat (length bytes))) as [|Hlen]; [eexists; split; done|].
  destruct (pseudo_of_done src dst (Z.of_nat (length bytes)) Hs Hd) as (r & -> & _ & Hr). cbn [mbind outcome_bind].
  destruct r as [[p k]|]; [|eexists; split; done]. destruct (Hr p k eq_refl) as [[Hp Hpl] _].
  destruct (checked_spans_ok p k bytes Hp Hpl Hb Hlen) as [Hsp Hsl].
  destruct (ChecksumLaws.checksum_done _ Hsp Hsl) as (c & Hc & _). rewrite Hc. cbn [mbind outcome_bind].
  destruct (Z.eqb_spec c (default 0 (be16 fixed 16))) as [->|]; cbn [negb]; [|eexists; split; done].
  rewrite (at_index_ok _ _ _ Hfl13). cbn [mbind outcome_bind].
  destruct (parse_options_done header (get_bytes _ _ _ _ Hb Hh) (length header) Seg.HEADER (MkOptions None)) as (o & -> & Hoo);
    [unfold Seg.HEADER; lia|done|]. cbn [mbind outcome_bind].
  destruct o as [o|]; [|eexists; split; done]. eexists. split; [done|]. intros segment [= <-]. split; [|split_and!; [lia|lia|]].
  - split; [split; cbn [source destination sequence acknowledgement flags window options payload]|].
    + exact (be_range 2 fixed 0 Hfb).
    + exact (be_range 2 fixed 2 Hfb).
    + exact (be_range 4 fixed 4 Hfb).
    + intros ack. destruct (Flags.contains fl Flags.ACK); [|done]. intros [= <-]. exact (be_range 4 fixed 8 Hfb).
    + apply (proj1 (Forall_lookup _ _) Hfb _ _ Hfl13).
    + exact (be_range 2 fixed 14 Hfb).
    + by apply Hoo.
    + by apply Forall_drop.
    + cbn. destruct (Flags.contains fl Flags.ACK); split; done.
  - exists p, k. split; [done|]. unfold be16 in Hc |- *. rewrite H16 in Hc. exact Hc.
Qed.

(** Bytes 16 and 17 of a segment apart. *)
Lemma split_checksum bytes : (20 ≤ length bytes)%nat → ∃ a hi lo c,
  bytes = a ++ hi :: lo :: c ∧ length a = 16%nat ∧ get bytes 0 16 = Some a ∧ drop 18 bytes = c ∧ be16 bytes 16 = Some (hi * 256 + lo).
Proof.
  intros Hl. rewrite <- (take_drop 16 bytes). assert (Ha : length (take 16 bytes) = 16%nat) by (rewrite length_take; lia).
  assert (Hd : (4 ≤ length (drop 16 bytes))%nat) by (rewrite length_drop; lia).
  generalize dependent (take 16 bytes). generalize dependent (drop 16 bytes). intros [|hi [|lo c]] Hd a Ha; cbn in Hd; try lia.
  exists a, hi, lo, c. split_and!; try done.
  - unfold get. rewrite decide_True by (rewrite length_app; cbn; lia). rewrite drop_0. by rewrite take_app_length' by done.
  - rewrite drop_app, drop_ge by lia. by rewrite Ha.
  - unfold be16, get. rewrite decide_True by (rewrite length_app; cbn; lia). rewrite drop_app_length' by done. cbn [take fmap option_fmap option_map]. f_equal. unfold from_be, reverse. cbn. rewrite take_0. cbn. lia.
Qed.

Lemma word_sum_app a b : Nat.even (length a) = true →
  ChecksumLaws.word_sum (a ++ b) = ChecksumLaws.word_sum a + ChecksumLaws.word_sum b.
Proof.
  induction a as [|x|x y a IH] using ChecksumLaws.pair_ind; intros He; [done|done|].
  cbn [app ChecksumLaws.word_sum]. rewrite IH by done. lia.
Qed.

(** The pseudo-header and an accepted segment sum to zero, modulo 65535. *)
Lemma accepted_sum bytes src dst segment :
  Forall is_byte bytes → address_ok src → address_ok dst → Seg.parse bytes src dst = Done (Ok segment) →
  ∃ p k, Seg.pseudo_of src dst (Z.of_nat (length bytes)) = Done (Ok (p, k)) ∧ Forall is_byte (take k p) ∧
    ChecksumLaws.word_sum (take k p ++ bytes) mod 65535 = 0.
Proof.
  intros Hb Hs Hd H. destruct (parse_done bytes src dst Hb Hs Hd) as (r & Hr & Hok). rewrite H in Hr. injection Hr as <-.
  destruct (Hok segment eq_refl) as (_ & Hge & Hle & p & k & Hp & Hc). exists p, k. split; [done|].
  destruct (pseudo_of_done src dst (Z.of_nat (length bytes)) Hs Hd) as (r & Hr & _ & Hpk). rewrite Hp in Hr. injection Hr as <-.
  destruct (Hpk p k eq_refl) as [[Hpb Hpl] Hk]. split; [by apply Forall_take|].
  destruct (checked_spans_ok p k bytes Hpb Hpl Hb Hle) as [Hsp Hsl].
  destruct (ChecksumLaws.checksum_done _ Hsp Hsl) as (c & Hc' & Hcr & Hm). fold (summed p k bytes) in Hc', Hm. rewrite Hc in Hc'. injection Hc' as <-.
  destruct (split_checksum bytes Hge) as (a & hi & lo & t & -> & Ha & Hg & Hdr & Hbe). unfold summed in Hm. rewrite Hg, Hdr, Hbe in Hm. cbn [default concat id] in Hm.
  rewrite app_nil_r in Hm. assert (Hev : Nat.even (length (take k p)) = true) by (rewrite length_take, Hpl; by destruct Hk as [-> | ->]).
  assert (Hea : Nat.even (length a) = true) by by rewrite Ha.
  rewrite !word_sum_app in * by done. cbn [ChecksumLaws.word_sum app] in *.
  match type of Hm with _ = ?x mod _ => pose proof (Z.div_mod x 65535); pose proof (Z.div_mod (65535 - (hi * 256 + lo)) 65535) end.
  match goal with |- ?x mod _ = 0 => pose proof (Z.div_mod x 65535); pose proof (Z.mod_pos_bound x 65535) end. lia.
Qed.

(** The parser answers every string of bytes, with a segment or an error and
    never a panic, whatever the option list; and a segment it answers with has every
    field in its width and carries an acknowledgement exactly when it is flagged to. *)
Theorem parse_answers bytes src dst : Forall is_byte bytes → address_ok src → address_ok dst →
  ∃ r, Seg.parse bytes src dst = Done r ∧ ∀ segment, r = Ok segment →
    well_formed segment ∧ (Flags.contains (flags segment) Flags.ACK = true ↔ is_Some (acknowledgement segment)).
Proof. intros Hb Hs Hd. destruct (parse_done bytes src dst Hb Hs Hd) as (r & Hr & Hok). exists r. split; [done|]. intros s E. by apply Hok. Qed.

(** A corrupted byte is caught: a segment that is accepted is refused once any
    one of its bytes, in the header, the options, the payload or the checksum, has
    any other value. *)
Theorem corruption_is_caught bytes src dst segment i b b' :
  Forall is_byte bytes → address_ok src → address_ok dst →
  Seg.parse bytes src dst = Done (Ok segment) → bytes !! i = Some b → is_byte b' → b' ≠ b →
  ∃ e, Seg.parse (<[i := b']> bytes) src dst = Done (Err e).
Proof.
  intros Hb Hs Hd H Hi Hb' Hne. assert (Hb2 : Forall is_byte (<[i:=b']> bytes)) by by apply Forall_insert.
  destruct (parse_done (<[i:=b']> bytes) src dst Hb2 Hs Hd) as ([segment'|e] & Hr & _); [|by exists e]. exfalso.
  destruct (accepted_sum _ _ _ _ Hb Hs Hd H) as (p & k & Hp & Hpb & Hz). destruct (accepted_sum _ _ _ _ Hb2 Hs Hd Hr) as (p' & k' & Hp' & _ & Hz').
  rewrite length_insert, Hp in Hp'. injection Hp' as <- <-.
  rewrite <- insert_app_r in Hz'. eapply (ChecksumLaws.word_sum_corrupted (take k p ++ bytes)); [|exact (proj1 (Forall_lookup _ _) Hb _ _ Hi)|exact Hb'|exact Hne|by rewrite Hz'].
  rewrite lookup_app_r by lia. by replace (length (take k p) + i - length (take k p))%nat with i by lia.
Qed.

(** ** Writing *)
Definition header_of (segment : Segment) : nat :=
  match omss (options segment) with Some _ => 24%nat | None => 20%nat end.
Definition head_fields (segment : Segment) : list (nat * list Z) :=
  [(0%nat, to_be 2 (source segment)); (2%nat, to_be 2 (destination segment)); (4%nat, to_be 4 (sequence segment))]
  ++ match acknowledgement segment with Some ack => [(8%nat, to_be 4 ack)] | None => [] end
  ++ [(12%nat, [trunc 8 (Z.shiftl (Z.of_nat (header_of segment) / 4) 4)]); (13%nat, [Seg.written_flags segment]);
      (14%nat, to_be 2 (window segment))].
Definition tail_fields (segment : Segment) : list (nat * list Z) :=
  match omss (options segment) with Some mss => [(20%nat, [2]); (21%nat, [4]); (22%nat, to_be 2 mss)] | None => [] end
  ++ [(header_of segment, payload segment)].

Lemma write_fields_app f g : ∀ bytes, Bytes.write_fields bytes (f ++ g) = Bytes.write_fields bytes f ≫= fun b => Bytes.write_fields b g.
Proof. induction f as [|[a v] f IH]; intros bytes; [done|]. cbn. destruct (put bytes a v); [apply IH|done]. Qed.

(** Writing fields, panicking where one does not fit. *)
Definition lay (bytes : list Z) (fields : list (nat * list Z)) : outcome (list Z) :=
  match Bytes.write_fields bytes fields with Some b => Done b | None => Panic end.

Lemma lay_cons bytes a v fields : lay bytes ((a, v) :: fields) = b ← put_at bytes a v; lay b fields.
Proof. unfold lay, put_at. cbn [Bytes.write_fields]. by destruct (put bytes a v). Qed.

(** The writer lays the fields out. *)
Lemma segment_fields bytes segment :
  Seg.write_fields bytes segment (header_of segment) = lay bytes (head_fields segment ++ tail_fields segment).
Proof.
  unfold Seg.write_fields, head_fields, tail_fields. destruct (acknowledgement segment), (omss (options segment)); cbn [app];
    rewrite lay_cons; repeat (apply outcome_bind_ext; intros; cbn [mbind outcome_bind]; rewrite ?outcome_bind_assoc, ?lay_cons);
    match goal with |- ?m = _ => by destruct m end.
Qed.

Lemma written_flags_byte segment : in_width 8 (flags segment) → is_byte (Seg.written_flags segment).
Proof.
  intros H. unfold Seg.written_flags. unfold in_width in H.
  assert (Hw : ∀ x, (∀ n, 8 ≤ n → Z.testbit x n = false) → is_byte x).
  { intros x Hx. assert (E : x mod 2 ^ 8 = x).
    { apply Z.bits_inj'. intros n Hn. destruct (decide (n < 8)); [by rewrite Z.mod_pow2_bits_low by lia|].
      rewrite Z.mod_pow2_bits_high by lia. by rewrite Hx by lia. }
    pose proof (Z.mod_pos_bound x (2 ^ 8)). unfold is_byte. lia. }
  assert (Hf : ∀ n, 8 ≤ n → Z.testbit (flags segment) n = false).
  { intros n Hn. rewrite <- (Z.mod_small (flags segment) (2 ^ 8)) by lia. apply Z.mod_pow2_bits_high. lia. }
  assert (H16 : ∀ n, 8 ≤ n → Z.testbit 16 n = false).
  { intros n Hn. rewrite <- (Z.mod_small 16 (2 ^ 8)) by lia. apply Z.mod_pow2_bits_high. lia. }
  destruct (acknowledgement segment); apply Hw; intros n Hn; unfold Flags.with_, Flags.without, Flags.ACK;
    rewrite ?Z.lor_spec, ?Z.land_spec, Hf by done; [by rewrite H16|done].
Qed.

Lemma written_ack segment : Flags.contains (Seg.written_flags segment) Flags.ACK = bool_decide (is_Some (acknowledgement segment)).
Proof.
  unfold Seg.written_flags, Flags.contains, Flags.with_, Flags.without, Flags.ACK. destruct (acknowledgement segment); cbn.
  - apply Z.eqb_eq. rewrite Z.land_comm. apply Z.bits_inj'. intros n Hn. rewrite Z.land_spec, Z.lor_spec. by destruct (Z.testbit (flags segment) n), (Z.testbit 16 n).
  - rewrite <- Z.land_assoc. by rewrite Z.land_0_r.
Qed.

Lemma laid_out_in fields : ∀ from stop a v, laid_out from fields stop → (a, v) ∈ fields → (from ≤ a ∧ a + length v ≤ stop)%nat.
Proof.
  induction fields as [|[a w] fields IH]; intros from stop b v Hl Hin; [by apply elem_of_nil in Hin|]. cbn in Hl. destruct Hl as [Hf Hl].
  apply elem_of_cons in Hin as [[= -> ->]|Hin]; [pose proof (laid_out_le _ _ _ Hl); lia|]. destruct (IH _ _ _ _ Hl Hin). lia.
Qed.

Lemma head_laid_out segment : laid_out 0 (head_fields segment) 16.
Proof. unfold head_fields. destruct (acknowledgement segment); cbn [app laid_out]; rewrite ?length_to_be; cbn; lia. Qed.
Lemma tail_laid_out segment : laid_out 20 (tail_fields segment) (header_of segment + length (payload segment)).
Proof. unfold tail_fields, header_of. destruct (omss (options segment)); cbn [app laid_out]; rewrite ?length_to_be; cbn [length]; lia. Qed.

Lemma head_bytes segment : well_formed segment → Forall (fun f => Forall is_byte f.2) (head_fields segment).
Proof.
  intros [_ _ _ _ Hf _ _ _]. unfold head_fields. rewrite !Forall_app.
  assert (Hw : is_byte (trunc 8 (Z.shiftl (Z.of_nat (header_of segment) / 4) 4))) by (apply (trunc_range 8); lia).
  pose proof (written_flags_byte segment Hf). destruct (acknowledgement segment); rewrite !Forall_cons; cbn [snd];
    split_and!; auto using to_be_bytes, byte_list, Forall_nil_2.
Qed.
Lemma tail_bytes segment : well_formed segment → Forall (fun f => Forall is_byte f.2) (tail_fields segment).
Proof.
  intros [_ _ _ _ _ _ _ Hp]. unfold tail_fields. rewrite !Forall_app. assert (is_byte 2 ∧ is_byte 4) as [? ?] by (unfold is_byte; lia).
  destruct (omss (options segment)); rewrite !Forall_cons; cbn [snd]; split_and!; auto using to_be_bytes, byte_list, Forall_nil_2.
Qed.

(** The bytes laid out, the checksum still zero. *)
Lemma laid_segment segment : well_formed segment →
  let total := (header_of segment + length (payload segment))%nat in
  ∃ bytes, Seg.write_fields (replicate total 0) segment (header_of segment) = Done bytes ∧ length bytes = total ∧ Forall is_byte bytes ∧
    get bytes 16 2 = Some [0; 0] ∧ ∀ a v, (a, v) ∈ head_fields segment ++ tail_fields segment → get bytes a (length v) = Some v.
Proof.
  intros Hwf total. rewrite segment_fields. unfold lay. rewrite write_fields_app.
  assert (Ht : (20 ≤ total)%nat) by (unfold total, header_of; destruct (omss (options segment)); lia).
  destruct (write_fields_spec (head_fields segment) (replicate total 0) 0 16 (head_laid_out segment)) as (b1 & E1 & L1 & I1 & O1);
    [rewrite length_replicate; lia|]. rewrite length_replicate in L1.
  destruct (write_fields_spec (tail_fields segment) b1 20 total (tail_laid_out segment)) as (b2 & E2 & L2 & I2 & O2); [lia|].
  rewrite E1. cbn [mbind option_bind]. rewrite E2. exists b2. split_and!; [done|lia| | |].
  - eapply write_fields_bytes; [eapply write_fields_bytes; [|apply head_bytes|exact E1]|apply tail_bytes|exact E2]; try done.
    apply Forall_replicate. unfold is_byte. lia.
  - rewrite O2, O1 by lia. unfold get. rewrite length_replicate, decide_True by lia. rewrite drop_replicate, take_replicate.
    by replace (2 `min` (total - 16))%nat with 2%nat by lia.
  - intros a v [Hin|Hin]%elem_of_app; [|by apply I2]. rewrite O2; [by apply I1|]. left.
    destruct (laid_out_in _ _ _ _ _ (head_laid_out segment) Hin). lia.
Qed.

Lemma get_lookup bytes a x : get bytes a 1 = Some [x] → bytes !! a = Some x.
Proof. intros (_ & _ & H)%get_spec. specialize (H 0%nat ltac:(lia)). by rewrite Nat.add_0_r in H. Qed.

(** The options a segment of the writer's carries read back. *)
Lemma written_options header segment fuel : (0 < fuel)%nat → length header = header_of segment → well_formed segment →
  (∀ a v, (a, v) ∈ tail_fields segment → (a + length v ≤ header_of segment)%nat → get header a (length v) = Some v) →
  Seg.parse_options fuel header (MkOptions None) 20 = Done (Ok (options segment)).
Proof.
  destruct fuel as [|fuel]; [lia|]. intros _ Hl Hwf Hg. destruct segment as [? ? ? ? ? ? [[mss|]] pl]; unfold header_of, tail_fields in *; cbn in Hl, Hg |- *.
  - assert (H20 : header !! 20%nat = Some 2) by (apply get_lookup, (Hg 20%nat [2]); [set_solver|cbn; lia]).
    assert (H21 : header !! 21%nat = Some 4) by (apply get_lookup, (Hg 21%nat [4]); [set_solver|cbn; lia]).
    assert (H22 : be16 header 22 = Some mss).
    { apply (be_field 2); [apply Hg; [set_solver|rewrite length_to_be; lia]|]. by apply (wf_mss _ Hwf). }
    rewrite decide_True by lia. rewrite H20. cbn. rewrite H21. cbn. rewrite decide_False by lia. rewrite H22.
    destruct fuel; cbn; by rewrite decide_False by lia.
  - rewrite decide_False by lia. done.
Qed.

(** With the checksum in place every field but it is as it was, and the parser sums
    what the writer summed. *)
Lemma sealed p k bytes c : (20 ≤ length bytes)%nat → get bytes 16 2 = Some [0; 0] →
  concat (summed p k (splice bytes 16 (to_be 2 c))) = concat [take k p; bytes].
Proof.
  intros Hl H0. unfold summed. rewrite get_splice_other by (rewrite length_to_be; lia).
  assert (Hd : drop 18 (splice bytes 16 (to_be 2 c)) = drop 18 bytes).
  { apply list_eq. intros i. rewrite !lookup_drop, lookup_splice by (rewrite length_to_be; lia). rewrite length_to_be, decide_False by lia. done. }
  rewrite Hd. cbn [concat]. rewrite !app_nil_r. f_equal. unfold get in *.
  rewrite decide_True in H0 by lia. rewrite decide_True by lia. injection H0 as H0.
  cbn [default id]. rewrite drop_0. rewrite <- H0. rewrite <- (take_drop 16 bytes) at 4. f_equal.
  rewrite <- (take_drop 2 (drop 16 bytes)) at 2. by rewrite drop_drop.
Qed.

Lemma parse_written segment bytes c src dst p k :
  well_formed segment → (20 ≤ length bytes)%nat → Z.of_nat (length bytes) ≤ 65535 →
  length bytes = (header_of segment + length (payload segment))%nat → get bytes 16 2 = Some [0; 0] →
  (∀ a v, (a, v) ∈ head_fields segment ++ tail_fields segment → get bytes a (length v) = Some v) →
  Seg.pseudo_of src dst (Z.of_nat (length bytes)) = Done (Ok (p, k)) →
  Checksum.checksum [take k p; bytes] = Done c → in_width 16 c →
  Seg.parse (splice bytes 16 (to_be 2 c)) src dst =
  Done (Ok (MkSegment (source segment) (destination segment) (sequence segment) (acknowledgement segment) (Seg.written_flags segment)
              (window segment) (options segment) (payload segment))).
Proof.
  intros Hwf Hge Hle Hlen H0 Hin Hp Hc Hcw. set (sent := splice bytes 16 (to_be 2 c)).
  assert (Hsl : length sent = length bytes) by (apply length_splice; rewrite length_to_be; lia).
  assert (Hout : ∀ a n, (a + n ≤ 16 ∨ 18 ≤ a)%nat → get sent a n = get bytes a n).
  { intros a n Ha. apply get_splice_other; rewrite length_to_be; lia. }
  destruct (get_some sent 0 20) as (fixed & Hf & Hfl); [lia|].
  assert (Hfix : ∀ a v, (a, v) ∈ head_fields segment → get fixed a (length v) = Some v).
  { intros a v Ha. destruct (laid_out_in _ _ _ _ _ (head_laid_out segment) Ha).
    rewrite (get_get _ _ _ _ _ _ Hf) by lia. rewrite Hout by lia. apply Hin, elem_of_app. by left. }
  assert (H12 : fixed !! 12%nat = Some (trunc 8 (Z.shiftl (Z.of_nat (header_of segment) / 4) 4))).
  { apply get_lookup, (Hfix 12%nat [_]). unfold head_fields. destruct (acknowledgement segment); set_solver. }
  assert (H13 : fixed !! 13%nat = Some (Seg.written_flags segment)).
  { apply get_lookup, (Hfix 13%nat [_]). unfold head_fields. destruct (acknowledgement segment); set_solver. }
  assert (H16 : be16 fixed 16 = Some c).
  { unfold be16. rewrite (get_get _ _ _ _ _ _ Hf) by lia. apply be_field; [|exact Hcw]. apply get_splice_same. rewrite length_to_be. lia. }
  unfold Seg.parse, Seg.HEADER. rewrite Hf, (at_index_ok _ _ _ H12). cbn [mbind outcome_bind].
  replace (Z.to_nat (Z.shiftr (trunc 8 (Z.shiftl (Z.of_nat (header_of segment) / 4) 4)) 4) * 4)%nat with (header_of segment)
    by (unfold header_of; by destruct (omss (options segment))).
  assert (Hh : (20 ≤ header_of segment ≤ 24)%nat) by (unfold header_of; destruct (omss (options segment)); lia).
  rewrite decide_False by lia. destruct (get_some sent 0 (header_of segment)) as (header & Hg & Hhl); [lia|].
  rewrite Hg, H16, Hsl. replace (65535 <? Z.of_nat (length bytes)) with false by lia. rewrite Hp. cbn [mbind outcome_bind default id].
  assert (Hc' : Checksum.checksum (summed p k sent) = Done c).
  { rewrite ChecksumLaws.checksum_concat. unfold sent. rewrite sealed by done. by rewrite <- ChecksumLaws.checksum_concat. }
  unfold summed in Hc'. rewrite Hc'. cbn [mbind outcome_bind]. rewrite Z.eqb_refl. cbn [negb].
  rewrite (at_index_ok _ _ _ H13). cbn [mbind outcome_bind]. rewrite Hhl.
  rewrite (written_options header segment) ; [|lia|done|done|].
  2: { intros a v Ha Hb. destruct (laid_out_in _ _ _ _ _ (tail_laid_out segment) Ha). rewrite (get_get _ _ _ _ _ _ Hg) by lia.
       rewrite Hout by lia. apply Hin, elem_of_app. by right. }
  cbn [mbind outcome_bind]. do 2 f_equal. rewrite written_ack. destruct Hwf as [W1 W2 W3 W4 _ W6 _ _].
  assert (Hbe : ∀ n a v, (a, to_be n v) ∈ head_fields segment → 0 ≤ v < 256 ^ Z.of_nat n → from_be <$> get fixed a n = Some v).
  { intros n a v Ha Hv. apply be_field; [by apply Hfix|done]. }
  assert (Hpay : drop (header_of segment) sent = payload segment).
  { pose proof (Hin (header_of segment) (payload segment)) as Hq. rewrite <- Hout in Hq by lia.
    unfold get in Hq. rewrite decide_True in Hq by lia. enough (Some (drop (header_of segment) sent) = Some (payload segment)) by congruence.
    rewrite <- Hq; [f_equal; rewrite take_ge; [done|rewrite length_drop; lia]|]. apply elem_of_app. right. unfold tail_fields. set_solver. }
  unfold be16, be32. rewrite Hpay. unfold head_fields in Hbe.
  rewrite (Hbe 2%nat 0%nat (source segment)), (Hbe 2%nat 2%nat (destination segment)), (Hbe 4%nat 4%nat (sequence segment)), (Hbe 2%nat 14%nat (window segment));
    [|set_solver|done|set_solver|done|set_solver|done|set_solver|done].
  destruct (acknowledgement segment) as [ack|]; cbn [default id]; [|done].
  rewrite bool_decide_true by done. rewrite (Hbe 4%nat 8%nat ack); [done|set_solver|by apply W4].
Qed.

(** C33. What is written reads back. A segment with its fields in their widths, that
    fits in 65535 bytes and in the buffer, between two addresses of one family, is
    written without a panic at the front of the buffer, the rest of which is left
    alone; and parsing what was written gives the segment back, but for the ACK flag, which
    is set exactly when the segment carries an acknowledgement: so a segment whose ACK flag
    agrees with its acknowledgement comes back as it is. *)
Theorem segment_roundtrip out segment src dst :
  well_formed segment → address_ok src → address_ok dst → same_family src dst →
  Z.of_nat (header_of segment + length (payload segment)) ≤ 65535 → (header_of segment + length (payload segment) ≤ length out)%nat →
  ∃ bytes, Seg.write out segment src dst = Done (Ok (length bytes), bytes ++ drop (length bytes) out) ∧
    length bytes = (header_of segment + length (payload segment))%nat ∧
    Seg.parse bytes src dst = Done (Ok (as_sent segment)) ∧ (flags_agree segment → Seg.parse bytes src dst = Done (Ok segment)).
Proof.
  intros Hwf Hs Hd Hfam Hmax Hroom. destruct (laid_segment segment Hwf) as (bytes & Hw & Hlen & Hb & H0 & Hin).
  assert (Hh : (20 ≤ header_of segment)%nat) by (unfold header_of; destruct (omss (options segment)); lia).
  destruct (pseudo_of_done src dst (Z.of_nat (length bytes)) Hs Hd) as (r & Hp & Hok & Hr). destruct (Hok Hfam) as (p & k & ->).
  destruct (Hr p k eq_refl) as [[Hpb Hpl] _].
  destruct (ChecksumLaws.checksum_done [take k p; bytes]) as (c & Hc & Hcw & _).
  { cbn. rewrite app_nil_r. apply Forall_app. split; [by apply Forall_take|done]. }
  { cbn. rewrite app_nil_r, length_app, length_take. lia. }
  exists (splice bytes 16 (to_be 2 c)). rewrite length_splice by (rewrite length_to_be; lia).
  assert (Hparse : Seg.parse (splice bytes 16 (to_be 2 c)) src dst = Done (Ok (as_sent segment))).
  { replace (as_sent segment) with (MkSegment (source segment) (destination segment) (sequence segment) (acknowledgement segment) (Seg.written_flags segment)
      (window segment) (options segment) (payload segment)) by (unfold as_sent, Seg.written_flags; by destruct (acknowledgement segment)).
    apply (parse_written segment bytes c src dst p k); done || lia. }
  split_and!; [|done|done|intros Ha; by rewrite as_sent_agreeing in Hparse by (done || apply Hwf)].
  unfold Seg.write. change (if omss (options segment) is Some _ then (Seg.HEADER + 4)%nat else Seg.HEADER) with (header_of segment).
  rewrite <- Hlen in *. replace (2 ^ 64 <=? Z.of_nat (length bytes)) with false by lia. replace (65535 <? Z.of_nat (length bytes)) with false by lia.
  rewrite decide_False by lia. rewrite Hw. cbn [mbind outcome_bind]. rewrite Hp. cbn [mbind outcome_bind]. rewrite Hc. cbn [mbind outcome_bind].
  rewrite put_at_ok by (rewrite length_to_be; lia). done.
Qed.

(** A segment with data, of the handshake's last step. *)
Definition demo_segment : Segment := MkSegment 4000 80 500 (Some 101) (Flags.with_ Flags.PSH Flags.ACK) 4096 (MkOptions (Some 1460)) [104; 105; 33].

Lemma demo_segment_ok : well_formed demo_segment.
Proof. split; try (intros ? [= <-]); unfold is_byte; by apply (bool_decide_unpack _). Qed.

Lemma segment_roundtrip_witness : ∃ bytes, length bytes = 27%nat ∧ Seg.parse bytes (V4 1) (V4 2) = Done (Ok demo_segment).
Proof.
  destruct (segment_roundtrip (replicate 64 0) demo_segment (V4 1) (V4 2) demo_segment_ok) as (bytes & _ & Hl & _ & Hp);
    [cbn; unfold in_width; lia|cbn; unfold in_width; lia|done|cbn; lia|cbn; lia|].
  exists bytes. split; [exact Hl|]. apply Hp. split; [by eexists|reflexivity].
Defined.

(** The segment as it is sent from 0.0.0.1 to 0.0.0.2. *)
Definition demo_bytes : list Z := [15; 160; 0; 80; 0; 0; 1; 244; 0; 0; 0; 101; 96; 24; 16; 0; 236; 88; 0; 0; 2; 4; 5; 180; 104; 105; 33].

Lemma demo_bytes_ok : Forall is_byte demo_bytes.
Proof. unfold is_byte. by apply (bool_decide_unpack _). Qed.

Lemma parse_answers_witness : ∃ r, Seg.parse demo_bytes (V4 1) (V4 2) = Done r ∧ ∃ segment, r = Ok segment ∧ well_formed segment.
Proof.
  destruct (parse_answers demo_bytes (V4 1) (V4 2) demo_bytes_ok) as (r & Hr & Hok); [cbn; unfold in_width; lia|cbn; unfold in_width; lia|].
  exists r. split; [exact Hr|]. eexists. split; [|apply Hok]; vm_compute in Hr; injection Hr as <-; reflexivity.
Defined.

Lemma corruption_is_caught_witness : ∃ e, Seg.parse (<[24%nat := 72]> demo_bytes) (V4 1) (V4 2) = Done (Err e).
Proof.
  eapply (corruption_is_caught demo_bytes (V4 1) (V4 2) _ 24 104 72 demo_bytes_ok); try (cbn; unfold in_width, is_byte; lia);
    vm_compute; reflexivity.
Defined.
