(* ===== verification/Tcp.v ===== *)
(** * The TCP connection machine

    src/net/src/tcp/state.rs: the control block, the events that drive it and the
    actions it asks for, and [step], the whole machine as a function.  Sequence
    numbers, windows and times are integers at the source's widths; plain
    arithmetic is checked, [saturating_*] and [wrapping_*] calls are as named. *)
From stdpp Require Import prelude numbers list.
From S2P Require Import Prelude Segment.
Open Scope Z_scope.

Definition saturating_mul (w x y : Z) : Z := Z.min (x * y) (2 ^ w - 1).

Inductive State : Type :=
| Closed | Listen | SynSent | SynReceived | Established
| FinWait1 | FinWait2 | CloseWait | Closing | LastAck | TimeWait.

Inductive Timer : Type := Retransmit | DelayedAck | Probe | TimeWaitTimer.

Inductive Ended : Type := Orderly | Reset | Refused | Unreachable | Aborted.

#[global] Instance State_eq_dec : EqDecision State.
Proof. solve_decision. Defined.
#[global] Instance Timer_eq_dec : EqDecision Timer.
Proof. solve_decision. Defined.
#[global] Instance Ended_eq_dec : EqDecision Ended.
Proof. solve_decision. Defined.

Definition can_send (self : State) : bool :=
  match self with Established | CloseWait => true | _ => false end.
Definition can_receive (self : State) : bool :=
  match self with Established | FinWait1 | FinWait2 => true | _ => false end.

Definition code (self : Ended) : Z :=
  match self with Refused => 1 | Unreachable => 2 | Reset => 3 | Orderly => 4 | Aborted => 5 end.

Definition DEFAULT_MSS : Z := 1460.
Definition INITIAL_RTO_US : Z := 1000000.
Definition MIN_RTO_US : Z := 10000.
Definition MAX_RTO_US : Z := 60000000.
Definition DELAYED_ACK_US : Z := 200000.
Definition MSL_US : Z := 30000000.
Definition MAX_RETRANSMITS : Z := 8.
Definition MAX_SYNACK_RETRANSMITS : Z := 3.
Definition MAX_ACTIONS : nat := 16.

Inductive Event : Type :=
| EConnect (iss window : Z)
| EListen (iss window : Z)
| EWrote (bytes : Z)
| ERead (bytes : Z)
| EShutdown
| EAbort
| EArrived (segment : Segment)
| EExpired (timer : Timer).

Record Emit : Type := MkEmit {
  eflags : Z;
  esequence : Z;
  eacknowledgement : option Z;
  ewindow : Z;
  elength : Z;
  emss : option Z
}.

(** The segment an [Emit] describes, around the payload it names. *)
Definition segment_of (self : Emit) (connection : FourTuple) (payload' : list Z) : Segment :=
  MkSegment (local_port connection) (remote_port connection) (esequence self) (eacknowledgement self)
    (eflags self) (ewindow self) (MkOptions (emss self)) payload'.

Inductive Action : Type :=
| AEmit (emit : Emit)
| AArm (timer : Timer) (at' : Z)
| ACancel (timer : Timer)
| ADelivered (bytes : Z)
| AAcknowledged (bytes : Z)
| AClosed (ended : Ended).

(** ** The bounded list of actions *)
Record Actions : Type := MkActions {
  items : list (option Action);
  count : nat;
  overflowed : bool
}.

Definition timer_of (action : Action) : option Timer :=
  match action with AArm timer _ | ACancel timer => Some timer | _ => None end.

Module Actions.
Definition new : Actions := MkActions (replicate MAX_ACTIONS None) 0 false.

(** Whether a slot of the list instructs [timer]. *)
Definition instructs (timer : Timer) (slot : option Action) : bool :=
  bool_decide (slot ≫= timer_of = Some timer).

Definition append (self : Actions) (action : Action) : Actions :=
  match items self !! count self with
  | Some _ => MkActions (<[count self := Some action]> (items self)) (count self + 1) (overflowed self)
  | None => MkActions (items self) (count self) true
  end.

(** An instruction for a timer replaces the one already there. *)
Definition push (self : Actions) (action : Action) : Actions :=
  match timer_of action with
  | Some timer =>
      match position (instructs timer) (take (count self) (items self)) with
      | Some slot => MkActions (<[slot := Some action]> (items self)) (count self) (overflowed self)
      | None => append self action
      end
  | None => append self action
  end.

Definition iter (self : Actions) : list Action := omap id (take (count self) (items self)).
End Actions.

(** ** The control block *)
Record Tcb : Type := MkTcb {
  state : State;
  connection : FourTuple;
  snd_una : Z;
  snd_nxt : Z;
  snd_avail : Z;
  snd_wnd : Z;
  iss : Z;
  fin_seq : option Z;
  fin_queued : bool;
  rcv_nxt : Z;
  rcv_wnd : Z;
  rcv_capacity : Z;
  irs : Z;
  fin_received : bool;
  mss : Z;
  srtt_us : option Z;
  rttvar_us : Z;
  rto_us : Z;
  timing : option (Z * Z);
  retransmits : Z;
  since_ack : Z
}.

Definition set_state (t : Tcb) (x : State) : Tcb :=
  MkTcb x (connection t) (snd_una t) (snd_nxt t) (snd_avail t) (snd_wnd t) (iss t) (fin_seq t) (fin_queued t) (rcv_nxt
    t) (rcv_wnd t) (rcv_capacity t) (irs t) (fin_received t) (mss t) (srtt_us t) (rttvar_us t) (rto_us t) (timing t)
    (retransmits t) (since_ack t).
Definition set_snd_una (t : Tcb) (x : Z) : Tcb :=
  MkTcb (state t) (connection t) x (snd_nxt t) (snd_avail t) (snd_wnd t) (iss t) (fin_seq t) (fin_queued t) (rcv_nxt
    t) (rcv_wnd t) (rcv_capacity t) (irs t) (fin_received t) (mss t) (srtt_us t) (rttvar_us t) (rto_us t) (timing t)
    (retransmits t) (since_ack t).
Definition set_snd_nxt (t : Tcb) (x : Z) : Tcb :=
  MkTcb (state t) (connection t) (snd_una t) x (snd_avail t) (snd_wnd t) (iss t) (fin_seq t) (fin_queued t) (rcv_nxt
    t) (rcv_wnd t) (rcv_capacity t) (irs t) (fin_received t) (mss t) (srtt_us t) (rttvar_us t) (rto_us t) (timing t)
    (retransmits t) (since_ack t).
Definition set_snd_avail (t : Tcb) (x : Z) : Tcb :=
  MkTcb (state t) (connection t) (snd_una t) (snd_nxt t) x (snd_wnd t) (iss t) (fin_seq t) (fin_queued t) (rcv_nxt t)
    (rcv_wnd t) (rcv_capacity t) (irs t) (fin_received t) (mss t) (srtt_us t) (rttvar_us t) (rto_us t) (timing t)
    (retransmits t) (since_ack t).
Definition set_snd_wnd (t : Tcb) (x : Z) : Tcb :=
  MkTcb (state t) (connection t) (snd_una t) (snd_nxt t) (snd_avail t) x (iss t) (fin_seq t) (fin_queued t) (rcv_nxt
    t) (rcv_wnd t) (rcv_capacity t) (irs t) (fin_received t) (mss t) (srtt_us t) (rttvar_us t) (rto_us t) (timing t)
    (retransmits t) (since_ack t).
Definition set_iss (t : Tcb) (x : Z) : Tcb :=
  MkTcb (state t) (connection t) (snd_una t) (snd_nxt t) (snd_avail t) (snd_wnd t) x (fin_seq t) (fin_queued t)
    (rcv_nxt t) (rcv_wnd t) (rcv_capacity t) (irs t) (fin_received t) (mss t) (srtt_us t) (rttvar_us t) (rto_us t)
    (timing t) (retransmits t) (since_ack t).
Definition set_fin_seq (t : Tcb) (x : option Z) : Tcb :=
  MkTcb (state t) (connection t) (snd_una t) (snd_nxt t) (snd_avail t) (snd_wnd t) (iss t) x (fin_queued t) (rcv_nxt
    t) (rcv_wnd t) (rcv_capacity t) (irs t) (fin_received t) (mss t) (srtt_us t) (rttvar_us t) (rto_us t) (timing t)
    (retransmits t) (since_ack t).
Definition set_fin_queued (t : Tcb) (x : bool) : Tcb :=
  MkTcb (state t) (connection t) (snd_una t) (snd_nxt t) (snd_avail t) (snd_wnd t) (iss t) (fin_seq t) x (rcv_nxt t)
    (rcv_wnd t) (rcv_capacity t) (irs t) (fin_received t) (mss t) (srtt_us t) (rttvar_us t) (rto_us t) (timing t)
    (retransmits t) (since_ack t).
Definition set_rcv_nxt (t : Tcb) (x : Z) : Tcb :=
  MkTcb (state t) (connection t) (snd_una t) (snd_nxt t) (snd_avail t) (snd_wnd t) (iss t) (fin_seq t) (fin_queued t)
    x (rcv_wnd t) (rcv_capacity t) (irs t) (fin_received t) (mss t) (srtt_us t) (rttvar_us t) (rto_us t) (timing t)
    (retransmits t) (since_ack t).
Definition set_rcv_wnd (t : Tcb) (x : Z) : Tcb :=
  MkTcb (state t) (connection t) (snd_una t) (snd_nxt t) (snd_avail t) (snd_wnd t) (iss t) (fin_seq t) (fin_queued t)
    (rcv_nxt t) x (rcv_capacity t) (irs t) (fin_received t) (mss t) (srtt_us t) (rttvar_us t) (rto_us t) (timing t)
    (retransmits t) (since_ack t).
Definition set_rcv_capacity (t : Tcb) (x : Z) : Tcb :=
  MkTcb (state t) (connection t) (snd_una t) (snd_nxt t) (snd_avail t) (snd_wnd t) (iss t) (fin_seq t) (fin_queued t)
    (rcv_nxt t) (rcv_wnd t) x (irs t) (fin_received t) (mss t) (srtt_us t) (rttvar_us t) (rto_us t) (timing t)
    (retransmits t) (since_ack t).
Definition set_irs (t : Tcb) (x : Z) : Tcb :=
  MkTcb (state t) (connection t) (snd_una t) (snd_nxt t) (snd_avail t) (snd_wnd t) (iss t) (fin_seq t) (fin_queued t)
    (rcv_nxt t) (rcv_wnd t) (rcv_capacity t) x (fin_received t) (mss t) (srtt_us t) (rttvar_us t) (rto_us t) (timing
    t) (retransmits t) (since_ack t).
Definition set_fin_received (t : Tcb) (x : bool) : Tcb :=
  MkTcb (state t) (connection t) (snd_una t) (snd_nxt t) (snd_avail t) (snd_wnd t) (iss t) (fin_seq t) (fin_queued t)
    (rcv_nxt t) (rcv_wnd t) (rcv_capacity t) (irs t) x (mss t) (srtt_us t) (rttvar_us t) (rto_us t) (timing t)
    (retransmits t) (since_ack t).
Definition set_mss (t : Tcb) (x : Z) : Tcb :=
  MkTcb (state t) (connection t) (snd_una t) (snd_nxt t) (snd_avail t) (snd_wnd t) (iss t) (fin_seq t) (fin_queued t)
    (rcv_nxt t) (rcv_wnd t) (rcv_capacity t) (irs t) (fin_received t) x (srtt_us t) (rttvar_us t) (rto_us t) (timing
    t) (retransmits t) (since_ack t).
Definition set_srtt_us (t : Tcb) (x : option Z) : Tcb :=
  MkTcb (state t) (connection t) (snd_una t) (snd_nxt t) (snd_avail t) (snd_wnd t) (iss t) (fin_seq t) (fin_queued t)
    (rcv_nxt t) (rcv_wnd t) (rcv_capacity t) (irs t) (fin_received t) (mss t) x (rttvar_us t) (rto_us t) (timing t)
    (retransmits t) (since_ack t).
Definition set_rttvar_us (t : Tcb) (x : Z) : Tcb :=
  MkTcb (state t) (connection t) (snd_una t) (snd_nxt t) (snd_avail t) (snd_wnd t) (iss t) (fin_seq t) (fin_queued t)
    (rcv_nxt t) (rcv_wnd t) (rcv_capacity t) (irs t) (fin_received t) (mss t) (srtt_us t) x (rto_us t) (timing t)
    (retransmits t) (since_ack t).
Definition set_rto_us (t : Tcb) (x : Z) : Tcb :=
  MkTcb (state t) (connection t) (snd_una t) (snd_nxt t) (snd_avail t) (snd_wnd t) (iss t) (fin_seq t) (fin_queued t)
    (rcv_nxt t) (rcv_wnd t) (rcv_capacity t) (irs t) (fin_received t) (mss t) (srtt_us t) (rttvar_us t) x (timing t)
    (retransmits t) (since_ack t).
Definition set_timing (t : Tcb) (x : option (Z * Z)) : Tcb :=
  MkTcb (state t) (connection t) (snd_una t) (snd_nxt t) (snd_avail t) (snd_wnd t) (iss t) (fin_seq t) (fin_queued t)
    (rcv_nxt t) (rcv_wnd t) (rcv_capacity t) (irs t) (fin_received t) (mss t) (srtt_us t) (rttvar_us t) (rto_us t) x
    (retransmits t) (since_ack t).
Definition set_retransmits (t : Tcb) (x : Z) : Tcb :=
  MkTcb (state t) (connection t) (snd_una t) (snd_nxt t) (snd_avail t) (snd_wnd t) (iss t) (fin_seq t) (fin_queued t)
    (rcv_nxt t) (rcv_wnd t) (rcv_capacity t) (irs t) (fin_received t) (mss t) (srtt_us t) (rttvar_us t) (rto_us t)
    (timing t) x (since_ack t).
Definition set_since_ack (t : Tcb) (x : Z) : Tcb :=
  MkTcb (state t) (connection t) (snd_una t) (snd_nxt t) (snd_avail t) (snd_wnd t) (iss t) (fin_seq t) (fin_queued t)
    (rcv_nxt t) (rcv_wnd t) (rcv_capacity t) (irs t) (fin_received t) (mss t) (srtt_us t) (rttvar_us t) (rto_us t)
    (timing t) (retransmits t) x.

(** Runs a method that answers with the control block and the actions. *)
Definition St : Type := Tcb * Actions.

Module Tcb.
Definition new (connection' : FourTuple) : Tcb :=
  MkTcb Closed connection' 0 0 0 0 0 None false 0 0 0 0 false DEFAULT_MSS None 0 INITIAL_RTO_US None 0 0.

Definition from_cookie (connection' : FourTuple) (cookie irs' peer_window capacity mss' : Z) : Tcb :=
  let iss' := cookie in
  let next := Sequence.wrapping_add iss' 1 in
  MkTcb Established connection' next next next peer_window iss' None false
    (Sequence.wrapping_add irs' 1) capacity capacity irs' false mss' None 0 INITIAL_RTO_US None 0 0.

Definition unsent (self : Tcb) : Z :=
  if Sequence.follows (snd_avail self) (snd_nxt self)
  then wrapping_sub 32 (snd_avail self) (snd_nxt self) else 0.

Definition in_flight (self : Tcb) : Z :=
  if Sequence.follows (snd_nxt self) (snd_una self)
  then wrapping_sub 32 (snd_nxt self) (snd_una self) else 0.

Definition awaiting_ack (self : Tcb) : bool := negb (snd_una self =? snd_nxt self).
End Tcb.

(** ** The machine *)
Module Machine.

(** Nanoseconds [us] microseconds after [now], as every timer is armed. *)
Definition after_us (now us : Z) : Z := saturating_add 64 now (saturating_mul 64 us 1000).

Definition acknowledge_now (tcb : Tcb) (actions : Actions) : St :=
  let actions := Actions.push actions (AEmit (MkEmit Flags.none (snd_nxt tcb) (Some (rcv_nxt tcb)) (rcv_wnd tcb) 0 None)) in
  (set_since_ack tcb 0, Actions.push actions (ACancel DelayedAck)).

(** The sequence recorded is the last byte sent. *)
Definition start_timing (tcb : Tcb) (now : Z) : Tcb :=
  set_timing tcb (Some (Sequence.wrapping_add (snd_nxt tcb) (2 ^ 32 - 1), now)).

Definition arm_retransmit (tcb : Tcb) (actions : Actions) (now : Z) : Actions :=
  if Tcb.awaiting_ack tcb then Actions.push actions (AArm Retransmit (after_us now (rto_us tcb)))
  else Actions.push actions (ACancel Retransmit).

Definition arm_probe (tcb : Tcb) (actions : Actions) (now : Z) : Actions :=
  Actions.push actions (AArm Probe (after_us now (rto_us tcb))).

(** Folds a round-trip sample into the estimate. *)
Definition measure (tcb : Tcb) (sample_us : Z) : outcome Tcb :=
  tcb ← (match srtt_us tcb with
         | None => Done (set_rttvar_us (set_srtt_us tcb (Some sample_us)) (sample_us / 2))
         | Some srtt =>
             let difference := Z.abs (srtt - sample_us) in
             v ← mul_checked 64 (rttvar_us tcb) 3;
             v ← add_checked 64 v difference;
             s ← mul_checked 64 srtt 7;
             s ← add_checked 64 s sample_us;
             Done (set_srtt_us (set_rttvar_us tcb (v / 4)) (Some (s / 8)))
         end);
  let srtt := default sample_us (srtt_us tcb) in
  let rto := saturating_add 64 srtt (saturating_mul 64 (rttvar_us tcb) 4) in
  Done (set_rto_us tcb (Z.max MIN_RTO_US (Z.min MAX_RTO_US rto))).

Definition finish_timing (tcb : Tcb) (ack now : Z) : outcome Tcb :=
  match timing tcb with
  | None => Done tcb
  | Some (sequence', sent_at) =>
      if negb (Sequence.follows ack sequence') then Done tcb
      else measure (set_timing tcb None) (saturating_sub now sent_at / 1000)
  end.

Definition advance_close_state (tcb : Tcb) : Tcb :=
  set_state tcb (match state tcb with
                 | Established | SynReceived => FinWait1
                 | CloseWait => LastAck
                 | other => other
                 end).

(** One segment of data, a [FIN], or both; whether anything was sent. *)
Definition send_segment (tcb : Tcb) (actions : Actions) (retransmission : bool) : bool * St :=
  let window_end := Sequence.wrapping_add (snd_una tcb) (snd_wnd tcb) in
  let allowed := if Sequence.follows window_end (snd_nxt tcb) then wrapping_sub 32 window_end (snd_nxt tcb) else 0 in
  let available := Tcb.unsent tcb in
  let length' := Z.min (Z.min available allowed) (mss tcb) in
  let length' := if length' <? 2 ^ 16 then length' else 2 ^ 16 - 1 in
  let fin_now := fin_queued tcb && bool_decide (fin_seq tcb = None) && (length' =? available)
                 && (retransmission || (available <=? allowed)) in
  if (length' =? 0) && negb fin_now then (false, (tcb, actions))
  else
    let flags' := if 0 <? length' then Flags.with_ Flags.none Flags.PSH else Flags.none in
    let sequence' := snd_nxt tcb in
    let flags' := if fin_now then Flags.with_ flags' Flags.FIN else flags' in
    let actions := Actions.push actions (AEmit (MkEmit flags' sequence' (Some (rcv_nxt tcb)) (rcv_wnd tcb) length' None)) in
    let tcb := set_since_ack tcb 0 in
    let tcb := set_snd_nxt tcb (Sequence.wrapping_add (snd_nxt tcb) length') in
    let tcb := if fin_now
      then let tcb := set_fin_seq tcb (Some (snd_nxt tcb)) in
           let tcb := set_snd_nxt tcb (Sequence.wrapping_add (snd_nxt tcb) 1) in
           advance_close_state tcb
      else tcb in
    (true, (tcb, actions)).

(** [for _ in 0..n], stopping at the first segment that was not sent. *)
Fixpoint send_loop (n : nat) (sent_any : bool) (tcb : Tcb) (actions : Actions) : bool * St :=
  match n with
  | O => (sent_any, (tcb, actions))
  | S n' =>
      match send_segment tcb actions false with
      | (true, (tcb, actions)) => send_loop n' true tcb actions
      | (false, (tcb, actions)) => (sent_any, (tcb, actions))
      end
  end.

Definition send_what_we_can (tcb : Tcb) (actions : Actions) (now : Z) : St :=
  if negb (can_send (state tcb)) && negb (bool_decide (state tcb = SynReceived)) then (tcb, actions)
  else
    let '(sent_any, (tcb, actions)) := send_loop 2 false tcb actions in
    let actions := if (snd_wnd tcb =? 0) && (0 <? Tcb.unsent tcb) then arm_probe tcb actions now else actions in
    if sent_any then
      let tcb := if bool_decide (timing tcb = None) then start_timing tcb now else tcb in
      (tcb, arm_retransmit tcb actions now)
    else (tcb, actions).

(** [CONNECT] and [LISTEN]. *)
Definition open (tcb : Tcb) (actions : Actions) (iss' window' : Z) (passive : bool) (now : Z) : St :=
  if negb (bool_decide (state tcb = Closed)) then (tcb, actions)
  else
    let tcb := set_iss tcb iss' in
    let tcb := set_snd_una tcb iss' in
    let tcb := set_snd_nxt tcb iss' in
    let tcb := set_snd_avail tcb iss' in
    let tcb := set_rcv_wnd tcb window' in
    let tcb := set_rcv_capacity tcb window' in
    if passive then (set_state tcb Listen, actions)
    else
      let tcb := set_state tcb SynSent in
      let actions := Actions.push actions (AEmit (MkEmit Flags.SYN (snd_nxt tcb) None (rcv_wnd tcb) 0 (Some (mss tcb)))) in
      let tcb := set_snd_nxt tcb (Sequence.wrapping_add (snd_nxt tcb) 1) in
      let tcb := set_snd_avail tcb (snd_nxt tcb) in
      let tcb := start_timing tcb now in
      (tcb, arm_retransmit tcb actions now).

Definition reopen_window (tcb : Tcb) (actions : Actions) (bytes : Z) : St :=
  let opened := saturating_add 32 (rcv_wnd tcb) bytes in
  let capped := Z.min (rcv_capacity tcb) opened in
  let was := rcv_wnd tcb in
  let tcb := set_rcv_wnd tcb (if capped <? 2 ^ 16 then capped else rcv_capacity tcb) in
  if (was =? 0) && (0 <? rcv_wnd tcb) && can_receive (state tcb) then acknowledge_now tcb actions
  else (tcb, actions).

Definition shutdown (tcb : Tcb) (actions : Actions) (now : Z) : St :=
  match state tcb with
  | Established | CloseWait | SynReceived => send_what_we_can (set_fin_queued tcb true) actions now
  | Listen | SynSent => (set_state tcb Closed, Actions.push actions (AClosed Aborted))
  | _ => (tcb, actions)
  end.

Definition abort (tcb : Tcb) (actions : Actions) : St :=
  if bool_decide (state tcb = Closed) || bool_decide (state tcb = Listen)
  then (set_state tcb Closed, Actions.push actions (AClosed Aborted))
  else
    let actions := Actions.push actions (AEmit (MkEmit Flags.RST (snd_nxt tcb) None 0 0 None)) in
    (set_state tcb Closed, Actions.push actions (AClosed Aborted)).

(** The first unacknowledged thing again, whatever it was. *)
Definition resend (tcb : Tcb) (actions : Actions) : St :=
  match state tcb with
  | SynSent =>
      let actions := Actions.push actions (AEmit (MkEmit Flags.SYN (snd_una tcb) None (rcv_wnd tcb) 0 (Some (mss tcb)))) in
      (set_snd_nxt tcb (Sequence.wrapping_add (snd_una tcb) 1), actions)
  | SynReceived =>
      let actions := Actions.push actions
        (AEmit (MkEmit Flags.SYN (snd_una tcb) (Some (rcv_nxt tcb)) (rcv_wnd tcb) 0 (Some (mss tcb)))) in
      (set_snd_nxt tcb (Sequence.wrapping_add (snd_una tcb) 1), actions)
  | _ =>
      let '(_, (tcb, actions)) := send_segment tcb actions true in
      match fin_seq tcb with
      | Some fin =>
          if negb (Sequence.follows (snd_una tcb) fin) && (snd_nxt tcb =? fin)
          then
            let actions := Actions.push actions (AEmit (MkEmit Flags.FIN fin (Some (rcv_nxt tcb)) (rcv_wnd tcb) 0 None)) in
            (set_snd_nxt tcb (Sequence.wrapping_add fin 1), actions)
          else (tcb, actions)
      | None => (tcb, actions)
      end
  end.

Definition retransmit (tcb : Tcb) (actions : Actions) (now : Z) : outcome St :=
  if bool_decide (state tcb = Closed) || negb (Tcb.awaiting_ack tcb) then Done (tcb, actions)
  else
    let limit := if bool_decide (state tcb = SynReceived) then MAX_SYNACK_RETRANSMITS else MAX_RETRANSMITS in
    if limit <=? retransmits tcb then Done (set_state tcb Closed, Actions.push actions (AClosed Unreachable))
    else
      r ← add_checked 8 (retransmits tcb) 1;
      let tcb := set_retransmits tcb r in
      let tcb := set_rto_us tcb (Z.min (saturating_mul 64 (rto_us tcb) 2) MAX_RTO_US) in
      let tcb := set_timing tcb None in
      let tcb := set_snd_nxt tcb (snd_una tcb) in
      let '(tcb, actions) := resend tcb actions in
      Done (tcb, arm_retransmit tcb actions now).

(** The peer's window is closed: one byte past it. *)
Definition probe (tcb : Tcb) (actions : Actions) (now : Z) : St :=
  if negb (can_send (state tcb)) || negb (snd_wnd tcb =? 0) || (Tcb.unsent tcb =? 0) then (tcb, actions)
  else
    let actions := Actions.push actions
      (AEmit (MkEmit Flags.PSH (snd_nxt tcb) (Some (rcv_nxt tcb)) (rcv_wnd tcb) 1 None)) in
    let tcb := set_snd_nxt tcb (Sequence.wrapping_add (snd_nxt tcb) 1) in
    let actions := arm_probe tcb actions now in
    (tcb, arm_retransmit tcb actions now).

Definition expired (tcb : Tcb) (actions : Actions) (timer : Timer) (now : Z) : outcome St :=
  match timer with
  | Retransmit => retransmit tcb actions now
  | DelayedAck => Done (if bool_decide (state tcb = Closed) then (tcb, actions) else acknowledge_now tcb actions)
  | Probe => Done (probe tcb actions now)
  | TimeWaitTimer =>
      Done (if bool_decide (state tcb = TimeWait)
            then (set_state tcb Closed, Actions.push actions (AClosed Orderly)) else (tcb, actions))
  end.

(** ** Arrivals *)
Definition synack_for (segment : Segment) (cookie window' mss' : Z) : option Emit :=
  if negb (Flags.contains (flags segment) Flags.SYN) || Flags.contains (flags segment) Flags.RST
     || bool_decide (is_Some (acknowledgement segment))
  then None
  else Some (MkEmit Flags.SYN cookie (Some (Sequence.wrapping_add (sequence segment) 1)) window' 0 (Some mss')).

Definition reclaim_unclaimed (state' : State) (claimed : bool) : bool :=
  negb claimed && bool_decide (state' = CloseWait).

Definition retirable (state' : State) (claimed released : bool) : bool :=
  (bool_decide (state' = Closed) || bool_decide (state' = TimeWait)) && (negb claimed || released).

Definition reset_for (segment : Segment) : option Emit :=
  if Flags.contains (flags segment) Flags.RST then None
  else
    let '(sequence', acknowledgement') :=
      match acknowledgement segment with
      | Some ack => (ack, None)
      | None => (0, Some (Sequence.wrapping_add (sequence segment) (Seg.sequence_length segment)))
      end in
    Some (MkEmit Flags.RST sequence' acknowledgement' 0 0 None).

Definition closed_arrival (actions : Actions) (segment : Segment) : Actions :=
  match reset_for segment with Some emit => Actions.push actions (AEmit emit) | None => actions end.

(** What a [SYN] tells this end. *)
Definition learn_peer (tcb : Tcb) (segment : Segment) : Tcb :=
  let tcb := set_irs tcb (sequence segment) in
  let tcb := set_rcv_nxt tcb (Sequence.wrapping_add (sequence segment) 1) in
  let tcb := set_snd_wnd tcb (window segment) in
  set_mss tcb (match omss (options segment) with Some m => Z.min m DEFAULT_MSS | None => mss tcb end).

Definition listen_arrival (tcb : Tcb) (actions : Actions) (segment : Segment) (now : Z) : St :=
  if Flags.contains (flags segment) Flags.RST then (tcb, actions)
  else if bool_decide (is_Some (acknowledgement segment)) then (tcb, closed_arrival actions segment)
  else if negb (Flags.contains (flags segment) Flags.SYN) then (tcb, actions)
  else
    let tcb := learn_peer tcb segment in
    let tcb := set_state tcb SynReceived in
    let actions := Actions.push actions
      (AEmit (MkEmit Flags.SYN (iss tcb) (Some (rcv_nxt tcb)) (rcv_wnd tcb) 0 (Some (mss tcb)))) in
    let tcb := set_snd_nxt tcb (Sequence.wrapping_add (iss tcb) 1) in
    let tcb := set_snd_avail tcb (snd_nxt tcb) in
    let tcb := start_timing tcb now in
    (tcb, arm_retransmit tcb actions now).

(** An acknowledgement that is not of this end's [SYN]. *)
Definition bad_syn_ack (tcb : Tcb) (ack : option Z) : bool :=
  match ack with
  | Some ack => negb (Sequence.follows ack (iss tcb)) || Sequence.follows ack (snd_nxt tcb)
  | None => false
  end.

Definition syn_sent_arrival (tcb : Tcb) (actions : Actions) (segment : Segment) (now : Z) : outcome St :=
  if bad_syn_ack tcb (acknowledgement segment) then
    Done (tcb, if Flags.contains (flags segment) Flags.RST then actions
               else Actions.push actions
                 (AEmit (MkEmit Flags.RST (default 0 (acknowledgement segment)) None 0 0 None)))
  else if Flags.contains (flags segment) Flags.RST then
    Done (if bool_decide (is_Some (acknowledgement segment))
          then (set_state tcb Closed, Actions.push actions (AClosed Refused)) else (tcb, actions))
  else if negb (Flags.contains (flags segment) Flags.SYN) then Done (tcb, actions)
  else
    let tcb := learn_peer tcb segment in
    let tcb := match acknowledgement segment with Some ack => set_snd_una tcb ack | None => tcb end in
    if Sequence.follows (snd_una tcb) (iss tcb) then
      let tcb := set_state tcb Established in
      tcb ← finish_timing tcb (snd_una tcb) now;
      let '(tcb, actions) := acknowledge_now tcb actions in
      let actions := arm_retransmit tcb actions now in
      Done (send_what_we_can tcb actions now)
    else
      let tcb := set_state tcb SynReceived in
      let tcb := set_snd_nxt tcb (iss tcb) in
      let actions := Actions.push actions
        (AEmit (MkEmit Flags.SYN (iss tcb) (Some (rcv_nxt tcb)) (rcv_wnd tcb) 0 (Some (mss tcb)))) in
      let tcb := set_snd_nxt tcb (Sequence.wrapping_add (iss tcb) 1) in
      Done (tcb, arm_retransmit tcb actions now).

(** Whether a segment falls inside the receive window. *)
Definition acceptable (tcb : Tcb) (segment : Segment) : bool :=
  let length' := Seg.sequence_length segment in
  let window_end := Sequence.wrapping_add (rcv_nxt tcb) (rcv_wnd tcb) in
  let in_window sequence' := negb (Sequence.precedes sequence' (rcv_nxt tcb)) && Sequence.precedes sequence' window_end in
  if length' =? 0 then
    if rcv_wnd tcb =? 0 then sequence segment =? rcv_nxt tcb else in_window (sequence segment)
  else if rcv_wnd tcb =? 0 then false
  else in_window (sequence segment) || in_window (Sequence.wrapping_add (sequence segment) (saturating_sub length' 1)).

Definition enter_time_wait (tcb : Tcb) (actions : Actions) (now : Z) : St :=
  let tcb := set_state tcb TimeWait in
  let actions := Actions.push actions (ACancel Retransmit) in
  (tcb, Actions.push actions (AArm TimeWaitTimer (saturating_add 64 now (saturating_mul 64 MSL_US 2000)))).

(** This end's [FIN] is acknowledged. *)
Definition advance_after_ack (tcb : Tcb) (actions : Actions) (now : Z) : St :=
  let fin_acked := match fin_seq tcb with Some fin => Sequence.follows (snd_una tcb) fin | None => false end in
  if negb fin_acked then (tcb, actions)
  else
    match state tcb with
    | FinWait1 => (set_state tcb FinWait2, actions)
    | Closing => enter_time_wait tcb actions now
    | LastAck => (set_state tcb Closed, Actions.push actions (AClosed Orderly))
    | _ => (tcb, actions)
    end.

(** The part of [process_ack] for an acknowledgement of something new. *)
Definition take_ack (tcb : Tcb) (actions : Actions) (ack now : Z) : outcome St :=
  if negb (Sequence.follows ack (snd_una tcb)) then Done (tcb, actions)
  else
    let freed := wrapping_sub 32 ack (snd_una tcb) in
    let fin_included := match fin_seq tcb with
      | Some fin => negb (Sequence.precedes fin (snd_una tcb)) && Sequence.precedes fin ack
      | None => false
      end in
    let bytes := saturating_sub freed (if fin_included then 1 else 0) in
    let tcb := set_snd_una tcb ack in
    let tcb := set_retransmits tcb 0 in
    let actions := if 0 <? bytes then Actions.push actions (AAcknowledged bytes) else actions in
    tcb ← finish_timing tcb ack now;
    let actions := arm_retransmit tcb actions now in
    Done (advance_after_ack tcb actions now).

(** The handshake's last acknowledgement; [None] if it is not that. *)
Definition complete_handshake (tcb : Tcb) (actions : Actions) (ack now : Z) : outcome (option St) :=
  if negb (bool_decide (state tcb = SynReceived)) then Done (Some (tcb, actions))
  else if Sequence.follows ack (iss tcb) then
    let tcb := set_state tcb Established in
    let tcb := set_snd_una tcb ack in
    tcb ← finish_timing tcb ack now;
    Done (Some (tcb, arm_retransmit tcb actions now))
  else Done None.

(** The acknowledgement field; whether processing continues. *)
Definition process_ack (tcb : Tcb) (actions : Actions) (segment : Segment) (ack now : Z) : outcome (bool * St) :=
  if Sequence.follows ack (snd_nxt tcb) then Done (false, acknowledge_now tcb actions)
  else
    h ← complete_handshake tcb actions ack now;
    match h with
    | None => Done (false, (tcb, actions))
    | Some (tcb, actions) =>
        '(tcb, actions) ← take_ack tcb actions ack now;
        let was_closed := snd_wnd tcb =? 0 in
        let tcb := set_snd_wnd tcb (window segment) in
        let actions := if was_closed && (0 <? snd_wnd tcb) then Actions.push actions (ACancel Probe) else actions in
        Done (true, (tcb, actions))
    end.

(** The payload, if it is exactly what was expected; how much was taken. *)
Definition deliver (tcb : Tcb) (actions : Actions) (segment : Segment) : outcome (Z * St) :=
  if negb (can_receive (state tcb)) || bool_decide (payload segment = []) then Done (0, (tcb, actions))
  else if negb (sequence segment =? rcv_nxt tcb) then Done (0, (tcb, actions))
  else
    let length' := Z.of_nat (length (payload segment)) in
    let length' := if length' <? 2 ^ 16 then length' else 2 ^ 16 - 1 in
    let taken := Z.min length' (rcv_wnd tcb) in
    if taken =? 0 then Done (0, (tcb, actions))
    else
      let tcb := set_rcv_nxt tcb (Sequence.wrapping_add (rcv_nxt tcb) taken) in
      w ← sub_checked 16 (rcv_wnd tcb) taken;
      Done (taken, (set_rcv_wnd tcb w, Actions.push actions (ADelivered taken))).

Definition acknowledge_or_delay (tcb : Tcb) (actions : Actions) (now : Z) : St :=
  let tcb := set_since_ack tcb (saturating_add 8 (since_ack tcb) 1) in
  if (2 <=? since_ack tcb) || (rcv_wnd tcb =? 0) then acknowledge_now tcb actions
  else (tcb, Actions.push actions (AArm DelayedAck (after_us now DELAYED_ACK_US))).

Definition peer_closed (tcb : Tcb) (actions : Actions) (now : Z) : St :=
  let '(tcb, actions) := acknowledge_now tcb actions in
  match state tcb with
  | Established | SynReceived => (set_state tcb CloseWait, actions)
  | FinWait1 => (set_state tcb Closing, actions)
  | FinWait2 => enter_time_wait tcb actions now
  | _ => (tcb, actions)
  end.

(** Data, then the [FIN] behind it, then what this end has to say. *)
Definition take_segment (tcb : Tcb) (actions : Actions) (segment : Segment) (now : Z) : outcome St :=
  '(delivered, (tcb, actions)) ← deliver tcb actions segment;
  let whole_payload := delivered =? Z.of_nat (length (payload segment)) in
  let fin := Flags.contains (flags segment) Flags.FIN && whole_payload
             && (Sequence.wrapping_add (sequence segment) delivered =? rcv_nxt tcb) in
  let '(tcb, actions) :=
    if fin && negb (fin_received tcb) then
      let tcb := set_fin_received tcb true in
      let tcb := set_rcv_nxt tcb (Sequence.wrapping_add (rcv_nxt tcb) 1) in
      peer_closed tcb actions now
    else if 0 <? delivered then acknowledge_or_delay tcb actions now
    else (tcb, actions) in
  Done (send_what_we_can tcb actions now).

(** Every state from [SYN-RECEIVED] on: sequence, [RST], [SYN], [ACK], data, [FIN]. *)
Definition synchronised_arrival (tcb : Tcb) (actions : Actions) (segment : Segment) (now : Z) : outcome St :=
  if negb (acceptable tcb segment) then
    Done (if Flags.contains (flags segment) Flags.RST then (tcb, actions)
          else if Sequence.precedes (sequence segment) (rcv_nxt tcb) then acknowledge_now tcb actions
          else (tcb, actions))
  else if Flags.contains (flags segment) Flags.RST then
    let ended := if bool_decide (state tcb = SynReceived) then Refused else Reset in
    Done (set_state tcb Closed, Actions.push actions (AClosed ended))
  else if Flags.contains (flags segment) Flags.SYN && negb (sequence segment =? irs tcb) then
    Done (abort tcb actions)
  else
    match acknowledgement segment with
    | None => Done (tcb, actions)
    | Some ack =>
        '(continue, (tcb, actions)) ← process_ack tcb actions segment ack now;
        if negb continue then Done (tcb, actions) else take_segment tcb actions segment now
    end.

Definition arrived (tcb : Tcb) (actions : Actions) (segment : Segment) (now : Z) : outcome St :=
  match state tcb with
  | Closed => Done (tcb, closed_arrival actions segment)
  | Listen => Done (listen_arrival tcb actions segment now)
  | SynSent => syn_sent_arrival tcb actions segment now
  | _ => synchronised_arrival tcb actions segment now
  end.

Definition step (tcb : Tcb) (event : Event) (now : Z) : outcome (Tcb * Actions) :=
  let actions := Actions.new in
  match event with
  | EConnect iss' window' => Done (open tcb actions iss' window' false now)
  | EListen iss' window' => Done (open tcb actions iss' window' true now)
  | EWrote bytes =>
      let tcb := set_snd_avail tcb (Sequence.wrapping_add (snd_avail tcb) bytes) in
      Done (send_what_we_can tcb actions now)
  | ERead bytes => Done (reopen_window tcb actions bytes)
  | EShutdown => Done (shutdown tcb actions now)
  | EAbort => Done (abort tcb actions)
  | EArrived segment => arrived tcb actions segment now
  | EExpired timer => expired tcb actions timer now
  end.

End Machine.
