(* ===== verification/TcpStep.v ===== *)
(** * The connection machine never stops

    The widths and bounds the control block keeps under every event, whatever
    the peer sends, and the room the list of actions needs: [Machine.step]
    answers on every event, keeps every field in its type and its range, and never
    drops an action. *)
From stdpp Require Import prelude numbers list.
From S2P Require Import Prelude Segment Tcp.
Open Scope Z_scope.
Set Warnings "-clear-no-such-hyp".

(** ** Well-formed control blocks *)

(** Round-trip samples are microseconds of a 64-bit nanosecond clock. *)
Definition MAX_SAMPLE : Z := 2 ^ 64 / 1000.

Record tcb_ok (t : Tcb) : Prop := {
  ok_una : in_width 32 (snd_una t);
  ok_nxt : in_width 32 (snd_nxt t);
  ok_avail : in_width 32 (snd_avail t);
  ok_snd_wnd : in_width 16 (snd_wnd t);
  ok_iss : in_width 32 (iss t);
  ok_fin : from_option (in_width 32) True (fin_seq t);
  ok_rcv_nxt : in_width 32 (rcv_nxt t);
  ok_rcv_wnd : 0 ≤ rcv_wnd t ≤ rcv_capacity t;
  ok_capacity : in_width 16 (rcv_capacity t);
  ok_irs : in_width 32 (irs t);
  ok_mss : in_width 16 (mss t);
  ok_srtt : from_option (fun s => 0 ≤ s ≤ MAX_SAMPLE) True (srtt_us t);
  ok_rttvar : 0 ≤ rttvar_us t ≤ MAX_SAMPLE;
  ok_rto : MIN_RTO_US ≤ rto_us t ≤ MAX_RTO_US;
  ok_timing : from_option (fun p => in_width 32 p.1 ∧ in_width 64 p.2) True (timing t);
  ok_retransmits : 0 ≤ retransmits t ≤ MAX_RETRANSMITS;
  ok_since_ack : in_width 8 (since_ack t)
}.

(** A segment as the parser hands it over. *)
Record segment_ok (s : Segment) : Prop := {
  so_sequence : in_width 32 (sequence s);
  so_ack : from_option (in_width 32) True (acknowledgement s);
  so_window : in_width 16 (window s);
  so_mss : from_option (in_width 16) True (omss (options s))
}.

Definition event_ok (e : Event) : Prop :=
  match e with
  | EConnect iss' window' | EListen iss' window' => in_width 32 iss' ∧ in_width 16 window'
  | EWrote bytes | ERead bytes => in_width 32 bytes
  | EArrived segment => segment_ok segment
  | _ => True
  end.

Create HintDb tcp.

Lemma seq_width x n : in_width 32 (Sequence.wrapping_add x n).
Proof. by apply trunc_range. Qed.

Lemma zero_width w : 0 < w → in_width w 0.
Proof. intros. unfold in_width. split; [lia|]. apply Z.pow_pos_nonneg; lia. Qed.

Ltac keep_ok := intros [] ; split; simpl; try done.

Lemma ok_set_state t x : tcb_ok t → tcb_ok (set_state t x).
Proof. keep_ok. Qed.
Lemma ok_set_una t x : in_width 32 x → tcb_ok t → tcb_ok (set_snd_una t x).
Proof. intros ?. keep_ok. Qed.
Lemma ok_set_nxt t x : in_width 32 x → tcb_ok t → tcb_ok (set_snd_nxt t x).
Proof. intros ?. keep_ok. Qed.
Lemma ok_set_avail t x : in_width 32 x → tcb_ok t → tcb_ok (set_snd_avail t x).
Proof. intros ?. keep_ok. Qed.
Lemma ok_set_snd_wnd t x : in_width 16 x → tcb_ok t → tcb_ok (set_snd_wnd t x).
Proof. intros ?. keep_ok. Qed.
Lemma ok_set_fin_seq t x : in_width 32 x → tcb_ok t → tcb_ok (set_fin_seq t (Some x)).
Proof. intros ?. keep_ok. Qed.
Lemma ok_set_fin_queued t x : tcb_ok t → tcb_ok (set_fin_queued t x).
Proof. keep_ok. Qed.
Lemma ok_set_fin_received t x : tcb_ok t → tcb_ok (set_fin_received t x).
Proof. keep_ok. Qed.
Lemma ok_set_rcv_nxt t x : in_width 32 x → tcb_ok t → tcb_ok (set_rcv_nxt t x).
Proof. intros ?. keep_ok. Qed.
Lemma ok_set_rcv_wnd t x : 0 ≤ x ≤ rcv_capacity t → tcb_ok t → tcb_ok (set_rcv_wnd t x).
Proof. intros ?. keep_ok. Qed.
Lemma ok_set_irs t x : in_width 32 x → tcb_ok t → tcb_ok (set_irs t x).
Proof. intros ?. keep_ok. Qed.
Lemma ok_set_mss t x : in_width 16 x → tcb_ok t → tcb_ok (set_mss t x).
Proof. intros ?. keep_ok. Qed.
Lemma ok_set_timing t x : from_option (fun p => in_width 32 p.1 ∧ in_width 64 p.2) True x → tcb_ok t → tcb_ok (set_timing t x).
Proof. intros ?. keep_ok. Qed.
Lemma ok_set_retransmits t x : 0 ≤ x ≤ MAX_RETRANSMITS → tcb_ok t → tcb_ok (set_retransmits t x).
Proof. intros ?. keep_ok. Qed.
Lemma ok_set_since_ack t x : in_width 8 x → tcb_ok t → tcb_ok (set_since_ack t x).
Proof. intros ?. keep_ok. Qed.

#[local] Hint Resolve ok_set_state ok_set_una ok_set_nxt ok_set_avail ok_set_snd_wnd ok_set_fin_seq ok_set_fin_queued
  ok_set_fin_received ok_set_rcv_nxt ok_set_irs ok_set_mss ok_set_since_ack seq_width : tcp.
#[local] Hint Extern 1 (in_width _ 0) => (by apply zero_width) : tcp.

Ltac cases :=
  repeat match goal with
  | |- context [if ?b then _ else _] => destruct b eqn:?
  | |- context [match ?x with _ => _ end] => destruct x eqn:?
  end.

(** ** The operations keep them *)
Lemma ack_now_ok t a : tcb_ok t → tcb_ok (Machine.acknowledge_now t a).1.
Proof. intros. simpl. auto with tcp. Qed.

Lemma start_timing_ok t now : in_width 64 now → tcb_ok t → tcb_ok (Machine.start_timing t now).
Proof. intros Hn Ht. apply ok_set_timing; [|done]. simpl. auto with tcp. Qed.

Lemma advance_close_ok t : tcb_ok t → tcb_ok (Machine.advance_close_state t).
Proof. apply ok_set_state. Qed.
#[local] Hint Resolve ack_now_ok start_timing_ok advance_close_ok : tcp.

Lemma send_segment_ok t a r : tcb_ok t → tcb_ok (Machine.send_segment t a r).2.1.
Proof.
  intros Ht. unfold Machine.send_segment. destruct (_ && negb _); [done|]. cbn [snd fst].
  destruct (_ && (_ || _)); simpl; eauto 8 with tcp.
Qed.

Lemma send_loop_ok n any t a : tcb_ok t → tcb_ok (Machine.send_loop n any t a).2.1.
Proof.
  revert any t a. induction n as [|n IH]; intros any t a Ht; simpl; [done|].
  pose proof (send_segment_ok t a false Ht) as Hs. destruct (Machine.send_segment t a false) as [[] [t' a']]; [by apply IH|done].
Qed.

Lemma send_what_we_can_ok t a now : in_width 64 now → tcb_ok t → tcb_ok (Machine.send_what_we_can t a now).1.
Proof.
  intros Hn Ht. unfold Machine.send_what_we_can. destruct (_ && _); [done|].
  pose proof (send_loop_ok 2 false t a Ht) as Hs. destruct (Machine.send_loop 2 false t a) as [any [t' a']]. simpl in Hs.
  destruct any; simpl; [|done]. case_bool_decide; auto with tcp.
Qed.

Lemma open_ok t a iss' w passive now :
  in_width 32 iss' → in_width 16 w → in_width 64 now → tcb_ok t → tcb_ok (Machine.open t a iss' w passive now).1.
Proof.
  intros Hi Hw Hn Ht. unfold Machine.open. destruct (negb _); [done|].
  assert (tcb_ok (set_rcv_capacity (set_rcv_wnd (set_snd_avail (set_snd_nxt (set_snd_una (set_iss t iss') iss') iss') iss') w) w)) as H.
  { revert Ht. keep_ok. unfold in_width in *. lia. }
  destruct passive; cbn [fst]; [by apply ok_set_state|]. apply start_timing_ok; [done|].
  apply ok_set_avail; [apply seq_width|]. auto with tcp.
Qed.

(** The window after the program has read [bytes]. *)
Definition reopened (t : Tcb) (bytes : Z) : Z :=
  let capped := Z.min (rcv_capacity t) (saturating_add 32 (rcv_wnd t) bytes) in
  if capped <? 2 ^ 16 then capped else rcv_capacity t.

Lemma reopened_ok t bytes : in_width 32 bytes → tcb_ok t → tcb_ok (set_rcv_wnd t (reopened t bytes)).
Proof.
  intros Hb Ht. pose proof (ok_rcv_wnd _ Ht). pose proof (ok_capacity _ Ht). unfold in_width in *.
  apply ok_set_rcv_wnd; [|done]. unfold reopened, saturating_add. destruct (_ <? _) eqn:?; lia.
Qed.

Lemma reopen_window_ok t a bytes : in_width 32 bytes → tcb_ok t → tcb_ok (Machine.reopen_window t a bytes).1.
Proof.
  intros Hb Ht. pose proof (reopened_ok t bytes Hb Ht). unfold Machine.reopen_window. fold (reopened t bytes).
  destruct (_ && _); [by apply ack_now_ok|done].
Qed.

Lemma shutdown_ok t a now : in_width 64 now → tcb_ok t → tcb_ok (Machine.shutdown t a now).1.
Proof. intros Hn Ht. unfold Machine.shutdown. destruct (state t); simpl; auto using send_what_we_can_ok with tcp. Qed.

Lemma abort_ok t a : tcb_ok t → tcb_ok (Machine.abort t a).1.
Proof. intros Ht. unfold Machine.abort. destruct (_ || _); simpl; auto with tcp. Qed.

Lemma resend_ok t a : tcb_ok t → tcb_ok (Machine.resend t a).1.
Proof.
  intros Ht. unfold Machine.resend. pose proof (send_segment_ok t a true Ht) as Hs.
  destruct (Machine.send_segment t a true) as [any [t' a']]. simpl in Hs.
  destruct (state t); simpl; auto with tcp; destruct (fin_seq t'); simpl; auto with tcp; destruct (_ && _); simpl; auto with tcp.
Qed.

(** The timeout never leaves its bounds, so doubling it does not overflow. *)
Lemma retransmit_ok t a now : tcb_ok t → ∃ st, Machine.retransmit t a now = Done st ∧ tcb_ok st.1.
Proof.
  intros Ht. unfold Machine.retransmit. destruct (_ || _); [by eexists|]. set (limit := if bool_decide _ then _ else _).
  assert (0 ≤ limit ≤ MAX_RETRANSMITS) by (unfold limit; case_bool_decide; done). unfold MAX_RETRANSMITS in *.
  destruct (Z.leb_spec limit (retransmits t)); [eexists; split; [done|]; simpl; auto with tcp|].
  pose proof (ok_retransmits _ Ht). unfold add_checked. rewrite checked_ok by (unfold in_width; lia). cbn [mbind outcome_bind].
  set (t1 := set_snd_nxt _ _). assert (tcb_ok t1) as Hok1.
  { pose proof (ok_rto _ Ht) as Hr. destruct Ht. subst t1. split; simpl; try done.
    - unfold saturating_mul, MIN_RTO_US, MAX_RTO_US in *. lia.
    - unfold MAX_RETRANSMITS. lia. }
  pose proof (resend_ok t1 a Hok1) as Hok2. destruct (Machine.resend t1 a) as [t2 a2]. by eexists.
Qed.

Lemma probe_ok t a now : tcb_ok t → tcb_ok (Machine.probe t a now).1.
Proof. intros Ht. unfold Machine.probe. destruct (_ || _); simpl; auto with tcp. Qed.

Lemma expired_ok t a timer now : tcb_ok t → ∃ st, Machine.expired t a timer now = Done st ∧ tcb_ok st.1.
Proof.
  intros Ht. destruct timer; simpl; [by apply retransmit_ok|..]; eexists; (split; [done|]).
  - case_bool_decide; [done|by apply ack_now_ok].
  - by apply probe_ok.
  - case_bool_decide; simpl; auto with tcp.
Qed.

(** A sample is at most the whole clock, and so is what is made of samples. *)
Lemma measure_ok t sample : 0 ≤ sample ≤ MAX_SAMPLE → tcb_ok t → ∃ t', Machine.measure t sample = Done t' ∧ tcb_ok t'.
Proof.
  intros Hs Ht. pose proof (ok_rttvar _ Ht) as Hv. pose proof (ok_srtt _ Ht) as Hr. change MAX_SAMPLE with 18446744073709551 in *.
  unfold Machine.measure.
  match goal with |- ∃ t', mbind _ ?x = _ ∧ _ => set (m := x) end.
  assert (∃ t1, m = Done t1 ∧ tcb_ok t1) as (t1 & -> & H1).
  { subst m. destruct (srtt_us t) as [srtt|].
    - simpl in Hr. unfold mul_checked, add_checked.
      do 4 (rewrite checked_ok by (unfold in_width; lia); cbn [mbind outcome_bind]).
      eexists. split; [done|]. destruct Ht. split; simpl; try done; change MAX_SAMPLE with 18446744073709551.
      + split; [apply Z.div_pos; lia|apply Z.div_le_upper_bound; lia].
      + split; [apply Z.div_pos; lia|apply Z.div_le_upper_bound; lia].
    - eexists. split; [done|]. destruct Ht. split; simpl; try done; change MAX_SAMPLE with 18446744073709551.
      split; [apply Z.div_pos; lia|apply Z.div_le_upper_bound; lia]. }
  cbn [mbind outcome_bind]. eexists. split; [done|]. destruct H1. split; simpl; try done.
  unfold MIN_RTO_US, MAX_RTO_US. lia.
Qed.

Lemma finish_timing_ok t ack now :
  in_width 64 now → tcb_ok t → ∃ t', Machine.finish_timing t ack now = Done t' ∧ tcb_ok t'.
Proof.
  intros Hn Ht. unfold Machine.finish_timing. pose proof (ok_timing _ Ht) as Htm.
  destruct (timing t) as [[q sent]|]; [|by exists t]. destruct (negb _); [by exists t|]. simpl in Htm.
  apply measure_ok; [|by apply ok_set_timing]. unfold saturating_sub, MAX_SAMPLE, in_width in *.
  split; [apply Z.div_pos; lia|apply Z.div_le_mono; lia].
Qed.

(** ** Arrivals *)
Lemma learn_peer_ok t s : segment_ok s → tcb_ok t → tcb_ok (Machine.learn_peer t s).
Proof.
  intros [] Ht. unfold Machine.learn_peer. apply ok_set_mss; [|auto with tcp].
  destruct (omss (options s)); simpl in *; [|apply Ht]. unfold in_width, DEFAULT_MSS in *. lia.
Qed.

Lemma listen_arrival_ok t a s now : in_width 64 now → segment_ok s → tcb_ok t → tcb_ok (Machine.listen_arrival t a s now).1.
Proof.
  intros Hn Hs Ht. unfold Machine.listen_arrival. cases; cbn [fst]; try done.
  apply start_timing_ok; [done|]. apply ok_set_avail; [apply seq_width|]. auto using learn_peer_ok with tcp.
Qed.

Lemma syn_sent_arrival_ok t a s now :
  in_width 64 now → segment_ok s → tcb_ok t → ∃ st, Machine.syn_sent_arrival t a s now = Done st ∧ tcb_ok st.1.
Proof.
  intros Hn Hs Ht. unfold Machine.syn_sent_arrival. destruct (Machine.bad_syn_ack _ _); [by eexists|].
  destruct (Flags.contains _ Flags.RST); [eexists; split; [done|]; case_bool_decide; simpl; auto with tcp|].
  destruct (negb _); [by eexists|]. 
  set (t1 := match acknowledgement s with Some ack => set_snd_una (Machine.learn_peer t s) ack | None => Machine.learn_peer t s end).
  assert (tcb_ok t1) as H1.
  { subst t1. pose proof (so_ack _ Hs). destruct (acknowledgement s); [apply ok_set_una; [done|]|]; by apply learn_peer_ok. }
  destruct (Sequence.follows _ _).
  - destruct (finish_timing_ok (set_state t1 Established) (snd_una t1) now Hn) as (t2 & Hf & H2); [auto with tcp|].
    change (snd_una (set_state t1 Established)) with (snd_una t1). rewrite Hf. cbn [mbind outcome_bind].
    eexists. split; [done|]. apply send_what_we_can_ok; [done|]. by apply (ack_now_ok t2 a).
  - eexists. split; [done|]. cbn [fst]. apply ok_set_nxt; [apply seq_width|]. apply ok_set_nxt; [apply H1|]. by apply ok_set_state.
Qed.

Lemma enter_time_wait_ok t a now : tcb_ok t → tcb_ok (Machine.enter_time_wait t a now).1.
Proof. apply ok_set_state. Qed.

Lemma advance_after_ack_ok t a now : tcb_ok t → tcb_ok (Machine.advance_after_ack t a now).1.
Proof.
  intros Ht. unfold Machine.advance_after_ack. destruct (negb _); [done|]. destruct (state t); simpl; auto with tcp.
Qed.

Lemma take_ack_ok t a ack now :
  in_width 64 now → in_width 32 ack → tcb_ok t → ∃ st, Machine.take_ack t a ack now = Done st ∧ tcb_ok st.1.
Proof.
  intros Hn Ha Ht. unfold Machine.take_ack. destruct (negb (Sequence.follows _ _)); [by eexists|].
  destruct (finish_timing_ok (set_retransmits (set_snd_una t ack) 0) ack now Hn) as (t2 & -> & H2).
  { apply ok_set_retransmits; [done|]. auto with tcp. }
  cbn [mbind outcome_bind]. eexists. split; [done|]. by apply advance_after_ack_ok.
Qed.

Lemma complete_handshake_ok t a ack now :
  in_width 64 now → in_width 32 ack → tcb_ok t →
  ∃ h, Machine.complete_handshake t a ack now = Done h ∧ from_option (fun st => tcb_ok st.1) True h.
Proof.
  intros Hn Ha Ht. unfold Machine.complete_handshake. destruct (negb _); [by eexists|]. destruct (Sequence.follows _ _); [|by eexists].
  destruct (finish_timing_ok (set_snd_una (set_state t Established) ack) ack now Hn) as (t2 & -> & H2); [auto with tcp|].
  by eexists.
Qed.

Lemma process_ack_ok t a s ack now :
  in_width 64 now → segment_ok s → in_width 32 ack → tcb_ok t →
  ∃ r, Machine.process_ack t a s ack now = Done r ∧ tcb_ok r.2.1.
Proof.
  intros Hn Hs Ha Ht. unfold Machine.process_ack. destruct (Sequence.follows _ _); [eexists; split; [done|]; by apply (ack_now_ok t a)|].
  destruct (complete_handshake_ok t a ack now Hn Ha Ht) as ([[t1 a1]|] & -> & H1); cbn [mbind outcome_bind]; [|by eexists].
  destruct (take_ack_ok t1 a1 ack now Hn Ha H1) as ([t2 a2] & -> & H2). cbn [mbind outcome_bind].
  eexists. split; [done|]. simpl. destruct Hs. auto with tcp.
Qed.

Lemma deliver_ok t a s :
  tcb_ok t → ∃ k st, Machine.deliver t a s = Done (k, st) ∧ tcb_ok st.1 ∧ 0 ≤ k.
Proof.
  intros Ht. pose proof (ok_rcv_wnd _ Ht). pose proof (ok_capacity _ Ht) as Hc. unfold Machine.deliver, in_width in *.
  destruct (_ || _); [by eexists _, _|]. destruct (negb _); [by eexists _, _|].
  set (l := if Z.of_nat (length (payload s)) <? 2 ^ 16 then Z.of_nat (length (payload s)) else 2 ^ 16 - 1). assert (0 ≤ l) by (subst l; destruct (_ <? _); lia).
  destruct (_ =? 0) eqn:Hz; [by eexists _, _|]. unfold sub_checked. cbn [rcv_wnd set_rcv_nxt].
  rewrite checked_ok by (unfold in_width; lia). cbn [mbind outcome_bind]. eexists _, _. split; [done|]. split; [|lia].
  apply ok_set_rcv_wnd; [simpl; lia|]. auto with tcp.
Qed.

Lemma acknowledge_or_delay_ok t a now : tcb_ok t → tcb_ok (Machine.acknowledge_or_delay t a now).1.
Proof.
  intros Ht. pose proof (ok_since_ack _ Ht) as Hs. unfold Machine.acknowledge_or_delay.
  assert (tcb_ok (set_since_ack t (saturating_add 8 (since_ack t) 1))).
  { apply ok_set_since_ack; [|done]. unfold saturating_add, in_width in *. lia. }
  destruct (_ || _); [by apply ack_now_ok|done].
Qed.

Lemma peer_closed_ok t a now : tcb_ok t → tcb_ok (Machine.peer_closed t a now).1.
Proof. intros Ht. unfold Machine.peer_closed. simpl. destruct (state t); simpl; auto with tcp. Qed.

Lemma take_segment_ok t a s now :
  in_width 64 now → tcb_ok t → ∃ st, Machine.take_segment t a s now = Done st ∧ tcb_ok st.1.
Proof.
  intros Hn Ht. unfold Machine.take_segment. destruct (deliver_ok t a s Ht) as (k & [t1 a1] & -> & H1 & _). cbn [mbind outcome_bind].
  simpl in H1. match goal with |- ∃ _, (let '(_, _) := ?x in _) = _ ∧ _ => set (st := x) end. assert (tcb_ok st.1) as H2.
  { subst st. destruct (_ && negb _); [apply peer_closed_ok; auto with tcp|].
    destruct (_ <? _); [by apply acknowledge_or_delay_ok|done]. }
  destruct st as [t2 a2]. eexists. split; [done|]. by apply send_what_we_can_ok.
Qed.

Lemma synchronised_arrival_ok t a s now :
  in_width 64 now → segment_ok s → tcb_ok t → ∃ st, Machine.synchronised_arrival t a s now = Done st ∧ tcb_ok st.1.
Proof.
  intros Hn Hs Ht. unfold Machine.synchronised_arrival. destruct (negb (Machine.acceptable t s)).
  { eexists. split; [done|]. destruct (Flags.contains _ _); [done|]. destruct (Sequence.precedes _ _); [by apply ack_now_ok|done]. }
  destruct (Flags.contains _ Flags.RST); [eexists; split; [done|]; simpl; auto with tcp|].
  destruct (_ && negb _); [eexists; split; [done|]; by apply abort_ok|].
  pose proof (so_ack _ Hs). destruct (acknowledgement s) as [ack|]; [|by eexists].
  destruct (process_ack_ok t a s ack now Hn Hs) as ([k [t1 a1]] & -> & H1); [done..|]. cbn [mbind outcome_bind].
  destruct (negb k); [by eexists|]. by apply take_segment_ok.
Qed.

Lemma arrived_ok t a s now :
  in_width 64 now → segment_ok s → tcb_ok t → ∃ st, Machine.arrived t a s now = Done st ∧ tcb_ok st.1.
Proof.
  intros Hn Hs Ht. unfold Machine.arrived.
  destruct (state t); eauto using syn_sent_arrival_ok, synchronised_arrival_ok, listen_arrival_ok.
Qed.

Lemma step_ok t e now :
  in_width 64 now → event_ok e → tcb_ok t → ∃ st, Machine.step t e now = Done st ∧ tcb_ok st.1.
Proof.
  intros Hn He Ht. destruct e; simpl in *; destruct_and?; try (eexists; split; [done|]).
  - by apply open_ok.
  - by apply open_ok.
  - apply send_what_we_can_ok; [done|]. auto with tcp.
  - by apply reopen_window_ok.
  - by apply shutdown_ok.
  - by apply abort_ok.
  - by apply arrived_ok.
  - by apply expired_ok.
Qed.

(** ** Room for the actions

    What [Actions.push] makes of the list: an instruction for a timer replaces
    the one that is there. *)
Definition put_action (l : list Action) (x : Action) : list Action :=
  match timer_of x with
  | Some timer =>
      match position (fun y => bool_decide (timer_of y = Some timer)) l with
      | Some i => <[i := x]> l
      | None => l ++ [x]
      end
  | None => l ++ [x]
  end.

(** The array holds exactly [l]. *)
Record holds (a : Actions) (l : list Action) : Prop := {
  hd_array : length (items a) = MAX_ACTIONS;
  hd_count : count a = length l;
  hd_fits : (length l ≤ MAX_ACTIONS)%nat;
  hd_items : take (length l) (items a) = Some <$> l;
  hd_kept : overflowed a = false
}.

Lemma holds_new : holds Actions.new [].
Proof. split; try done. simpl. lia. Qed.

Lemma holds_iter a l : holds a l → Actions.iter a = l.
Proof.
  intros []. unfold Actions.iter. rewrite hd_count0, hd_items0. clear. induction l as [|x l IH]; [done|]. simpl. by f_equal.
Qed.

Lemma position_fmap {A B} (f : A → B) p l : position p (f <$> l) = position (p ∘ f) l.
Proof. induction l as [|x l IH]; [done|]. csimpl. destruct (p (f x)); [done|]. by rewrite IH. Qed.

Lemma position_ext {A} (p q : A → bool) l : (∀ x, p x = q x) → position p l = position q l.
Proof. intros H. induction l as [|x l IH]; [done|]. simpl. rewrite H, IH. done. Qed.

Lemma holds_append a l x : holds a l → (length l < MAX_ACTIONS)%nat → holds (Actions.append a x) (l ++ [x]).
Proof.
  intros [Ha Hc Hf Hi Ho] Hl. unfold Actions.append. rewrite Hc.
  destruct (lookup_lt_is_Some_2 (items a) (length l)) as [y Hy]; [lia|]. rewrite Hy.
  split; simpl; rewrite ?length_insert, ?length_app; simpl; try lia; try done.
  rewrite fmap_app, Nat.add_1_r, (take_S_r _ _ (Some x)) by (apply list_lookup_insert_eq; lia).
  rewrite take_insert_ge by lia. by rewrite Hi.
Qed.

Lemma holds_push a l x : holds a l → (length l < MAX_ACTIONS)%nat → holds (Actions.push a x) (put_action l x).
Proof.
  intros H Hl. pose proof (holds_append a l x H Hl) as Happ. unfold Actions.push, put_action. destruct (timer_of x) as [timer|] eqn:Hx; [|done].
  destruct H as [Ha Hc Hf Hi Ho]. rewrite Hc, Hi, position_fmap.
  rewrite (position_ext _ (fun y => bool_decide (timer_of y = Some timer))) by (intros y; unfold Actions.instructs; simpl; done).
  destruct (position _ l) as [i|] eqn:Hp; [|done]. apply position_some in Hp as [(y & Hy & _) _]. apply lookup_lt_Some in Hy.
  split; simpl; rewrite ?length_insert; try done. rewrite take_insert_lt by lia. rewrite Hi. by rewrite list_fmap_insert.
Qed.

(** At most [k] actions that are not instructions for a timer, and one
    instruction for each timer. *)
Definition load (k : nat) (a : Actions) : Prop :=
  ∃ l, holds a l ∧ NoDup (omap timer_of l) ∧ (length (List.filter (fun x => bool_decide (timer_of x = None)) l) ≤ k)%nat.

Lemma timers_four (l : list Timer) : NoDup l → (length l ≤ 4)%nat.
Proof.
  intros H. change 4%nat with (length [Retransmit; DelayedAck; Probe; TimeWaitTimer]).
  apply submseteq_length, NoDup_submseteq; [done|]. intros [] _; set_solver.
Qed.

Lemma load_length k l :
  NoDup (omap timer_of l) → (length (List.filter (fun x => bool_decide (timer_of x = None)) l) ≤ k)%nat → (length l ≤ k + 4)%nat.
Proof.
  intros Hn Hk. apply timers_four in Hn.
  assert (length l = length (omap timer_of l) + length (List.filter (fun x => bool_decide (timer_of x = None)) l))%nat; [|lia].
  clear. induction l as [|x l IH]; [done|]. csimpl.
  destruct (timer_of x); [rewrite bool_decide_false by done|rewrite bool_decide_true by done]; csimpl; lia.
Qed.

Lemma load_weaken j k a : load j a → (j ≤ k)%nat → load k a.
Proof. intros (l & Hh & Hn & Hk) Hjk. exists l. split_and!; [done..|lia]. Qed.

Lemma omap_replace (l : list Action) i x y :
  l !! i = Some y → timer_of x = timer_of y →
  omap timer_of (<[i := x]> l) = omap timer_of l ∧
  length (List.filter (fun x => bool_decide (timer_of x = None)) (<[i := x]> l)) =
    length (List.filter (fun x => bool_decide (timer_of x = None)) l).
Proof.
  revert i. induction l as [|z l IH]; intros i Hi Hx; [done|]. destruct i as [|i]; simpl in Hi; csimpl.
  { injection Hi as ->. rewrite Hx. split; [done|]. by case_bool_decide. }
  destruct (IH i Hi Hx) as [IH1 IH2]. rewrite IH1. split; [done|]. case_bool_decide; simpl; by rewrite IH2.
Qed.

Lemma load_push k a x : load k a → (k ≤ 11)%nat → load (k + (if timer_of x is Some _ then 0 else 1)) (Actions.push a x).
Proof.
  intros (l & Hh & Hn & Hk) H11. pose proof (load_length _ _ Hn Hk). exists (put_action l x).
  split; [apply holds_push; [done|unfold MAX_ACTIONS; lia]|]. unfold put_action. destruct (timer_of x) as [timer|] eqn:Hx.
  - destruct (position _ l) as [i|] eqn:Hp.
    + apply position_some in Hp as [(y & Hy & Ht%bool_decide_eq_true) _]. destruct (omap_replace l i x y Hy) as [-> ->]; [congruence|].
      split; [done|lia].
    + rewrite omap_app, List.filter_app, length_app. simpl. rewrite Hx, bool_decide_false by done. simpl. split; [|lia].
      apply NoDup_app. split_and!; [done| |apply NoDup_singleton].
      intros t (y & Hy & Hty)%list_elem_of_omap ->%list_elem_of_singleton.
      apply list_elem_of_lookup in Hy as [j Hj]. pose proof (proj1 (position_none _ _) Hp j y Hj) as Hf.
      by apply bool_decide_eq_false in Hf.
  - rewrite omap_app, List.filter_app, length_app. simpl. rewrite Hx, bool_decide_true by done. simpl. rewrite app_nil_r. split; [done|lia].
Qed.

Lemma load_timer k a x : is_Some (timer_of x) → load k a → (k ≤ 11)%nat → load k (Actions.push a x).
Proof. intros [t Ht] Hl Hk. apply (load_push k a x) in Hl; [|done]. rewrite Ht, Nat.add_0_r in Hl. done. Qed.

Lemma load_other k a x : timer_of x = None → load k a → (k ≤ 11)%nat → load (S k) (Actions.push a x).
Proof. intros Ht Hl Hk. apply (load_push k a x) in Hl; [|done]. rewrite Ht, Nat.add_1_r in Hl. done. Qed.

(** Finds the load of a list built by pushes. *)
Ltac weigh :=
  solve [repeat first
    [ eassumption
    | eapply load_timer; [by eexists| |lia]
    | eapply load_other; [done| |lia] ]].
Ltac weigh_at k := eapply (load_weaken k); [weigh|lia].

Lemma arm_retransmit_load k t a now : load k a → (k ≤ 11)%nat → load k (Machine.arm_retransmit t a now).
Proof. intros. unfold Machine.arm_retransmit. destruct (Tcb.awaiting_ack t); weigh. Qed.

Lemma send_segment_load k t a r : load k a → (k ≤ 11)%nat → load (S k) (Machine.send_segment t a r).2.2.
Proof. intros. unfold Machine.send_segment. destruct (_ && negb _); cbn [snd]; [weigh_at k|weigh]. Qed.

Lemma send_loop_load n k any t a : load k a → (k + n ≤ 12)%nat → load (k + n) (Machine.send_loop n any t a).2.2.
Proof.
  revert k any t a. induction n as [|n IH]; intros k any t a Hl Hk; simpl; [by rewrite Nat.add_0_r|].
  pose proof (send_segment_load k t a false Hl ltac:(lia)) as Hs.
  destruct (Machine.send_segment t a false) as [[] [t' a']]; simpl in *; [|weigh_at (S k)].
  rewrite <- Nat.add_succ_comm. apply IH; [done|lia].
Qed.

Lemma send_what_we_can_load k t a now : load k a → (k ≤ 9)%nat → load (k + 2) (Machine.send_what_we_can t a now).2.
Proof.
  intros Hl Hk. unfold Machine.send_what_we_can. destruct (_ && _); [weigh_at k|].
  pose proof (send_loop_load 2 k false t a Hl ltac:(lia)) as Hs. destruct (Machine.send_loop 2 false t a) as [any [t' a']]. simpl in Hs.
  assert (load (k + 2) (if (snd_wnd t' =? 0) && (0 <? Tcb.unsent t') then Machine.arm_probe t' a' now else a')).
  { destruct (_ && _); [|done]. weigh. }
  destruct any; simpl; [apply arm_retransmit_load; [done|lia]|done].
Qed.

Lemma ack_now_load k t a : load k a → (k ≤ 10)%nat → load (S k) (Machine.acknowledge_now t a).2.
Proof. intros. simpl. weigh. Qed.

Lemma abort_load k t a : load k a → (k ≤ 9)%nat → load (k + 2) (Machine.abort t a).2.
Proof. intros. unfold Machine.abort. destruct (_ || _); simpl; [weigh_at (S k)|weigh_at (S (S k))]. Qed.

Lemma resend_load k t a : load k a → (k ≤ 9)%nat → load (k + 2) (Machine.resend t a).2.
Proof.
  intros Hl Hk. unfold Machine.resend. pose proof (send_segment_load k t a true Hl ltac:(lia)) as Hs.
  destruct (Machine.send_segment t a true) as [any [t' a']]. simpl in Hs.
  destruct (state t); simpl; try weigh_at (S k);
    (destruct (fin_seq t'); [destruct (_ && _)|]; simpl; [weigh_at (S (S k))|weigh_at (S k)..]).
Qed.

Lemma enter_time_wait_load k t a now : load k a → (k ≤ 11)%nat → load k (Machine.enter_time_wait t a now).2.
Proof. intros. simpl. weigh. Qed.

Lemma advance_after_ack_load k t a now : load k a → (k ≤ 10)%nat → load (S k) (Machine.advance_after_ack t a now).2.
Proof.
  intros Hl Hk. unfold Machine.advance_after_ack. destruct (negb _); [weigh_at k|].
  destruct (state t); simpl; try weigh_at k; weigh.
Qed.

Lemma take_ack_load k t a ack now st :
  Machine.take_ack t a ack now = Done st → load k a → (k ≤ 9)%nat → load (k + 2) st.2.
Proof.
  unfold Machine.take_ack. intros H Hl Hk. destruct (negb (Sequence.follows _ _)); [injection H as <-; weigh_at k|].
  apply outcome_bind_done in H as (t2 & _ & [= <-]).
  match goal with |- context [Machine.arm_retransmit t2 ?x now] => set (a1 := x) end.
  assert (load (S k) a1) by (subst a1; destruct (_ <? _); [weigh|weigh_at k]).
  replace (k + 2)%nat with (S (S k)) by lia. apply advance_after_ack_load; [apply arm_retransmit_load; [done|lia]|lia].
Qed.

Lemma complete_handshake_load k t a ack now st :
  Machine.complete_handshake t a ack now = Done (Some st) → load k a → (k ≤ 11)%nat → load k st.2.
Proof.
  unfold Machine.complete_handshake. intros H Hl Hk. destruct (negb _); [by injection H as <-|].
  destruct (Sequence.follows _ _); [|done]. apply outcome_bind_done in H as (t2 & _ & [= <-]). by apply arm_retransmit_load.
Qed.

Lemma process_ack_load k t a s ack now r :
  Machine.process_ack t a s ack now = Done r → load k a → (k ≤ 9)%nat → load (k + 2) r.2.2.
Proof.
  unfold Machine.process_ack. intros H Hl Hk. destruct (Sequence.follows _ _); [injection H as <-; simpl; weigh_at (S k)|].
  apply outcome_bind_done in H as (h & Hh & H). destruct h as [[t1 a1]|]; [|injection H as <-; weigh_at k].
  apply (complete_handshake_load k) in Hh; [|done|lia]. simpl in Hh.
  apply outcome_bind_done in H as ([t2 a2] & Ht & [= <-]). apply (take_ack_load k) in Ht; [|done|lia]. simpl in *.
  destruct (_ && _); [weigh|done].
Qed.

Lemma deliver_load k t a s r : Machine.deliver t a s = Done r → load k a → (k ≤ 11)%nat → load (S k) r.2.2.
Proof.
  unfold Machine.deliver. intros H Hl Hk. destruct (_ || _); [injection H as <-; weigh_at k|].
  destruct (negb _); [injection H as <-; weigh_at k|]. destruct (_ =? 0); [injection H as <-; weigh_at k|].
  apply outcome_bind_done in H as (w & _ & [= <-]). simpl. weigh.
Qed.

Lemma acknowledge_or_delay_load k t a now : load k a → (k ≤ 10)%nat → load (S k) (Machine.acknowledge_or_delay t a now).2.
Proof. intros. unfold Machine.acknowledge_or_delay. destruct (_ || _); simpl; [weigh|weigh_at k]. Qed.

Lemma peer_closed_load k t a now : load k a → (k ≤ 10)%nat → load (S k) (Machine.peer_closed t a now).2.
Proof. intros. unfold Machine.peer_closed. simpl. destruct (state t); simpl; weigh. Qed.

Lemma take_segment_load k t a s now st :
  Machine.take_segment t a s now = Done st → load k a → (k ≤ 7)%nat → load (k + 4) st.2.
Proof.
  unfold Machine.take_segment. intros H Hl Hk. apply outcome_bind_done in H as ([d [t1 a1]] & Hd & H).
  apply (deliver_load k) in Hd; [|done|lia]. simpl in Hd.
  match type of H with (let '(_, _) := ?x in _) = _ => set (y := x) in H end.
  assert (load (S (S k)) y.2).
  { subst y. destruct (_ && negb _); [apply peer_closed_load; [done|lia]|].
    destruct (_ <? _); [apply acknowledge_or_delay_load; [done|lia]|simpl; weigh_at (S k)]. }
  destruct y as [t2 a2]. injection H as <-. replace (k + 4)%nat with (S (S k) + 2)%nat by lia. apply send_what_we_can_load; [done|lia].
Qed.

Lemma synchronised_arrival_load t a s now st :
  Machine.synchronised_arrival t a s now = Done st → load 0 a → load 6 st.2.
Proof.
  unfold Machine.synchronised_arrival. intros H Hl. destruct (negb (Machine.acceptable t s)).
  { injection H as <-. destruct (Flags.contains _ _); [weigh_at 0%nat|]. destruct (Sequence.precedes _ _); simpl; [weigh_at 1%nat|weigh_at 0%nat]. }
  destruct (Flags.contains _ Flags.RST); [injection H as <-; simpl; weigh_at 1%nat|].
  destruct (_ && negb _); [injection H as <-; eapply load_weaken; [apply (abort_load 0); [done|lia]|lia]|].
  destruct (acknowledgement s) as [ack|]; [|injection H as <-; weigh_at 0%nat].
  apply outcome_bind_done in H as ([c [t1 a1]] & Hp & H). apply (process_ack_load 0) in Hp; [|done|lia]. simpl in Hp.
  destruct (negb c); [injection H as <-; simpl; weigh_at 2%nat|]. by apply (take_segment_load 2) in H; [|done|lia].
Qed.

Lemma closed_arrival_load k a s : load k a → (k ≤ 11)%nat → load (S k) (Machine.closed_arrival a s).
Proof. intros. unfold Machine.closed_arrival. destruct (Machine.reset_for s); [weigh|weigh_at k]. Qed.

Lemma syn_sent_arrival_load t a s now st :
  Machine.syn_sent_arrival t a s now = Done st → load 0 a → load 6 st.2.
Proof.
  unfold Machine.syn_sent_arrival. intros H Hl.
  destruct (Machine.bad_syn_ack _ _); [injection H as <-; simpl; destruct (Flags.contains _ _); [weigh_at 0%nat|weigh_at 1%nat]|].
  destruct (Flags.contains _ Flags.RST); [injection H as <-; case_bool_decide; simpl; [weigh_at 1%nat|weigh_at 0%nat]|].
  destruct (negb _); [injection H as <-; weigh_at 0%nat|].
  destruct (Sequence.follows _ _).
  - apply outcome_bind_done in H as (t2 & _ & H). injection H as <-. apply (load_weaken 3); [|lia].
    apply (send_what_we_can_load 1); [apply arm_retransmit_load; [weigh|lia]|lia].
  - injection H as <-. eapply load_weaken; [apply (arm_retransmit_load 1); [weigh|lia]|lia].
Qed.

Lemma step_load t e now st : Machine.step t e now = Done st → load 6 st.2.
Proof.
  assert (Hnew : load 0 Actions.new) by (exists []; split_and!; [apply holds_new|constructor|simpl; lia]).
  assert (Hw : ∀ t a now, load 0 a → load 6 (Machine.send_what_we_can t a now).2).
  { intros t' a' now' Ha. eapply load_weaken; [apply (send_what_we_can_load 0); [done|lia]|lia]. }
  assert (Ho : ∀ i w p, load 6 (Machine.open t Actions.new i w p now).2).
  { intros i w p. unfold Machine.open. destruct (negb _); [weigh_at 0%nat|]. destruct p; cbn [snd]; [weigh_at 0%nat|].
    eapply load_weaken; [apply (arm_retransmit_load 1); [weigh|lia]|lia]. }
  intros H. destruct e; cbn [Machine.step] in H; try (injection H as <-); try done.
  - by apply Hw.
  - unfold Machine.reopen_window. destruct (_ && _); simpl; [weigh_at 1%nat|weigh_at 0%nat].
  - unfold Machine.shutdown. destruct (state t); simpl; try weigh_at 0%nat; try weigh_at 1%nat; by apply Hw.
  - eapply load_weaken; [apply (abort_load 0); [done|lia]|lia].
  - unfold Machine.arrived in H. destruct (state t); eauto using synchronised_arrival_load, syn_sent_arrival_load.
    + injection H as <-. simpl. eapply load_weaken; [apply (closed_arrival_load 0); [done|lia]|lia].
    + injection H as <-. unfold Machine.listen_arrival. cases; cbn [snd]; try weigh_at 0%nat.
      * eapply load_weaken; [apply (closed_arrival_load 0); [done|lia]|lia].
      * eapply load_weaken; [apply (arm_retransmit_load 1); [weigh|lia]|lia].
  - destruct timer; simpl in H.
    + unfold Machine.retransmit in H. destruct (_ || _); [injection H as <-; weigh_at 0%nat|].
      destruct (_ <=? _); [injection H as <-; simpl; weigh_at 1%nat|]. apply outcome_bind_done in H as (r & _ & H).
      match type of H with (let '(_, _) := Machine.resend ?x _ in _) = _ => set (t1 := x) in H end.
      pose proof (resend_load 0 t1 Actions.new Hnew ltac:(lia)) as Hr. destruct (Machine.resend t1 Actions.new) as [t2 a2].
      injection H as <-. eapply load_weaken; [apply (arm_retransmit_load 2); [done|lia]|lia].
    + injection H as <-. case_bool_decide; simpl; [weigh_at 0%nat|weigh_at 1%nat].
    + injection H as <-. unfold Machine.probe. destruct (_ || _); [weigh_at 0%nat|]. cbn [snd].
      eapply load_weaken; [apply (arm_retransmit_load 1); [weigh|lia]|lia].
    + injection H as <-. case_bool_decide; simpl; [weigh_at 1%nat|weigh_at 0%nat].
Qed.

(** ** Whole connections *)
Lemma new_ok connection' : tcb_ok (Tcb.new connection').
Proof. split; simpl; unfold in_width, MAX_SAMPLE, MIN_RTO_US, MAX_RTO_US, INITIAL_RTO_US, MAX_RETRANSMITS, DEFAULT_MSS; try done; lia. Qed.

Lemma from_cookie_ok connection' cookie irs' w c m :
  in_width 32 cookie → in_width 32 irs' → in_width 16 w → in_width 16 c → in_width 16 m →
  tcb_ok (Tcb.from_cookie connection' cookie irs' w c m).
Proof.
  intros. unfold in_width in *.
  split; simpl; try apply seq_width; unfold in_width, MAX_SAMPLE, MIN_RTO_US, MAX_RTO_US, INITIAL_RTO_US, MAX_RETRANSMITS; try done; lia.
Qed.

(** Drives a sequence of events, each at its time, and collects the actions. *)
Fixpoint drive (t : Tcb) (events : list (Event * Z)) : outcome (Tcb * list Actions) :=
  match events with
  | [] => Done (t, [])
  | (e, now) :: events' =>
      '(t', a) ← Machine.step t e now;
      '(t'', log) ← drive t' events';
      Done (t'', a :: log)
  end.

(** What a caller may rely on of the actions of one step. *)
Definition performable (a : Actions) : Prop :=
  overflowed a = false ∧ (length (Actions.iter a) ≤ 10)%nat ∧ NoDup (omap timer_of (Actions.iter a)).

Lemma load_performable a : load 6 a → performable a.
Proof.
  intros (l & Hh & Hn & Hk). unfold performable. rewrite (holds_iter _ _ Hh). split_and!; [apply Hh| |done].
  by apply (load_length 6).
Qed.

(** C30. Whatever events a connection sees, at whatever times and whatever the
    peer puts in its segments, the machine answers each of them: no arithmetic
    overflows, every field stays in its type, the advertised window never exceeds
    the program's ring, the timeout stays between its floor and its ceiling, and
    no step has more than ten actions, one at most for each timer, so none is ever
    dropped. *)
Theorem connection_never_stops t events :
  tcb_ok t → Forall (fun ev => event_ok ev.1 ∧ in_width 64 ev.2) events →
  ∃ t' log, drive t events = Done (t', log) ∧ tcb_ok t' ∧ length log = length events ∧ Forall performable log.
Proof.
  intros Ht Hev. revert t Ht. induction Hev as [|[e now] events [He Hn] _ IH]; intros t Ht; simpl; [by eexists _, []|].
  destruct (step_ok t e now Hn He Ht) as ([t1 a] & Hs & H1). pose proof (step_load _ _ _ _ Hs) as Hl. rewrite Hs. cbn [mbind outcome_bind].
  destruct (IH t1 H1) as (t' & log & -> & Ht' & Hlen & Hall). eexists _, _. split; [done|]. simpl. split_and!; [done|by f_equal|].
  constructor; [by apply load_performable|done].
Qed.

Definition demo_tuple : FourTuple := MkFourTuple (V4 16777343) 80 (V4 33554559) 4000.

Lemma connection_never_stops_witness :
  ∃ t' log, drive (Tcb.new demo_tuple) [(EConnect 7 4096, 0); (EExpired Retransmit, 1000000000)] = Done (t', log) ∧ length log = 2%nat.
Proof.
  destruct (connection_never_stops (Tcb.new demo_tuple) [(EConnect 7 4096, 0); (EExpired Retransmit, 1000000000)])
    as (t' & log & H & _ & Hl & _).
  - apply new_ok.
  - repeat constructor; unfold in_width; simpl; lia.
  - exists t', log. split; [exact H|exact Hl].
Defined.
