(* ===== verification/TcpDiagram.v ===== *)
(** * The connection machine follows RFC 793's diagram

    The states and edges of the diagram as a relation of their own, and the
    theorem that every step of [Machine.step] moves along it and reports the end
    of a connection exactly when it comes. *)
From stdpp Require Import prelude numbers list relations.
From S2P Require Import Prelude Segment Tcp TcpStep.
Open Scope Z_scope.
Set Warnings "-clear-no-such-hyp".

(** The edges of the diagram of RFC 793 section 3.2, each with what it takes: an open, a
    segment with the flag or the acknowledgement the edge names, or, for a [FIN] of this
    end, that the connection is [closing]; and the ends of a connection: by an abort, by a
    segment with RST or with a SYN that has no place, by a retransmission timer or a
    shutdown before there was a peer, by the acknowledgement of the last [FIN], and after
    the wait. *)
Inductive edge (closing : bool) : Event → State → State → Prop :=
| edge_active_open i w : edge closing (EConnect i w) Closed SynSent
| edge_passive_open i w : edge closing (EListen i w) Closed Listen
| edge_rcv_syn g : Flags.contains (flags g) Flags.SYN = true → edge closing (EArrived g) Listen SynReceived
| edge_simultaneous g : Flags.contains (flags g) Flags.SYN = true → edge closing (EArrived g) SynSent SynReceived
| edge_rcv_syn_ack g : Flags.contains (flags g) Flags.SYN = true → edge closing (EArrived g) SynSent Established
| edge_rcv_ack_of_syn g : is_Some (acknowledgement g) → edge closing (EArrived g) SynReceived Established
| edge_close_early e : closing = true → edge closing e SynReceived FinWait1
| edge_close e : closing = true → edge closing e Established FinWait1
| edge_rcv_fin g : Flags.contains (flags g) Flags.FIN = true → edge closing (EArrived g) Established CloseWait
| edge_rcv_ack_of_fin g : is_Some (acknowledgement g) → edge closing (EArrived g) FinWait1 FinWait2
| edge_rcv_fin_crossing g : Flags.contains (flags g) Flags.FIN = true → edge closing (EArrived g) FinWait1 Closing
| edge_rcv_fin_last g : Flags.contains (flags g) Flags.FIN = true → edge closing (EArrived g) FinWait2 TimeWait
| edge_rcv_ack_closing g : is_Some (acknowledgement g) → edge closing (EArrived g) Closing TimeWait
| edge_close_wait e : closing = true → edge closing e CloseWait LastAck
| edge_abort s : s ≠ Closed → edge closing EAbort s Closed
| edge_reset g s : s ≠ Closed → Flags.contains (flags g) Flags.RST = true ∨ Flags.contains (flags g) Flags.SYN = true → edge closing (EArrived g) s Closed
| edge_timed_out s : s ≠ Closed → edge closing (EExpired Retransmit) s Closed
| edge_given_up s : s = Listen ∨ s = SynSent → edge closing EShutdown s Closed
| edge_last_ack g : is_Some (acknowledgement g) → edge closing (EArrived g) LastAck Closed
| edge_waited : edge closing (EExpired TimeWaitTimer) TimeWait Closed.

(** A step so far, from state [s0.1]: the state is one the diagram leads to, the
    end of the connection is among the actions exactly if it has come, and [s0.2]
    bytes have been delivered. *)
Definition ends_connection (x : Action) : bool := match x with AClosed _ => true | _ => false end.
Definition told (a : Actions) : bool := existsb ends_connection (Actions.iter a).

(** How many bytes a list of actions says were delivered. *)
Definition delivery (x : Action) : nat := match x with ADelivered n => Z.to_nat n | _ => 0%nat end.
Definition delivered (actions : list Action) : nat := sum_list_with delivery actions.

(** [closing]: this end has asked to close; [ev] is the event of the step. *)
Section Diagram.
Context (closing : bool) (ev : Event).
Abbreviation arrow := (edge closing ev).

Record trail (s0 : State * nat) (k : nat) (st : St) : Prop := {
  tr_path : rtc arrow s0.1 (state st.1);
  tr_closing : fin_queued st.1 = true → closing = true;
  tr_told : s0.1 ≠ Closed → told st.2 = bool_decide (state st.1 = Closed);
  tr_delivered : delivered (Actions.iter st.2) = s0.2;
  tr_load : load k st.2
}.

Lemma told_put l x :
  existsb ends_connection (put_action l x) = existsb ends_connection l || ends_connection x.
Proof.
  unfold put_action. destruct (timer_of x) as [t|] eqn:Hx; [|rewrite existsb_app; simpl; by rewrite orb_false_r].
  destruct (position _ l) as [i|] eqn:Hp; [|rewrite existsb_app; simpl; by rewrite orb_false_r].
  apply position_some in Hp as [(y & Hy & Ht%bool_decide_eq_true) _].
  assert (ends_connection x = false) as -> by (by destruct x). assert (ends_connection y = false) as Hey by (by destruct y).
  assert (ends_connection x = false) as Hex by (by destruct x).
  rewrite orb_false_r. clear Ht. revert i Hy. induction l as [|z l IH]; intros [|i] Hy; simplify_eq/=; [by rewrite Hex, Hey|].
  by rewrite (IH i).
Qed.

Lemma told_push k a x : load k a → (k ≤ 11)%nat → told (Actions.push a x) = told a || ends_connection x.
Proof.
  intros (l & Hh & Hn & Hk) H11. pose proof (load_length _ _ Hn Hk). unfold told. rewrite (holds_iter _ _ Hh).
  rewrite (holds_iter _ (put_action l x)) by (apply holds_push; [done|unfold MAX_ACTIONS; lia]). apply told_put.
Qed.

Lemma delivered_put l x : delivered (put_action l x) = (delivered l + delivery x)%nat.
Proof.
  unfold put_action, delivered. destruct (timer_of x) as [t|] eqn:Hx; [|rewrite sum_list_with_app; simpl; lia].
  destruct (position _ l) as [i|] eqn:Hp; [|rewrite sum_list_with_app; simpl; lia].
  apply position_some in Hp as [(y & Hy & Ht%bool_decide_eq_true) _].
  assert (delivery x = 0%nat) as Hdx by (by destruct x). assert (delivery y = 0%nat) as Hdy by (by destruct y).
  rewrite Hdx, Nat.add_0_r. clear Ht. revert i Hy. induction l as [|z l IH]; intros [|i] Hy; simplify_eq/=; [lia|]. by rewrite (IH i).
Qed.

Lemma delivered_push k a x :
  load k a → (k ≤ 11)%nat → delivered (Actions.iter (Actions.push a x)) = (delivered (Actions.iter a) + delivery x)%nat.
Proof.
  intros (l & Hh & Hn & Hk) H11. pose proof (load_length _ _ Hn Hk). rewrite (holds_iter _ _ Hh).
  rewrite (holds_iter _ (put_action l x)) by (apply holds_push; [done|unfold MAX_ACTIONS; lia]). apply delivered_put.
Qed.

Lemma trail_start t : (fin_queued t = true → closing = true) → trail (state t, 0%nat) 0 (t, Actions.new).
Proof.
  intros Hq. split; simpl; [done|done| |done|].
  - intros Hc. rewrite bool_decide_false by done. done.
  - exists []. split_and!; [apply holds_new|constructor|simpl; lia].
Qed.

Lemma trail_weaken s0 j k st : trail s0 j st → (j ≤ k)%nat → trail s0 k st.
Proof. intros [] Hk. split; [done..|]. by eapply load_weaken. Qed.

(** Fields other than the state, and actions other than the end. *)
Lemma trail_same s0 k t t' a : state t' = state t → fin_queued t' = fin_queued t → trail s0 k (t, a) → trail s0 k (t', a).
Proof. intros Hs Hq []. split; simpl in *; rewrite ?Hs, ?Hq; done. Qed.

Lemma trail_push s0 k n t a x :
  ends_connection x = false → delivery x = 0%nat → trail s0 k (t, a) → (k ≤ 11)%nat → load n (Actions.push a x) →
  trail s0 n (t, Actions.push a x).
Proof.
  intros Hx Hd [Hp Hq Ht Hg Hl] Hk Hn. simpl in *. split; simpl; [done|done| | |done].
  - intros Hs. rewrite (told_push k), Ht, Hx by done. apply orb_false_r.
  - rewrite (delivered_push k), Hg, Hd by done. lia.
Qed.

Lemma trail_emit s0 k t a e : trail s0 k (t, a) → (k ≤ 11)%nat → trail s0 (S k) (t, Actions.push a (AEmit e)).
Proof. intros H Hk. apply (trail_push _ k); try done. apply load_other; [done|apply H|done]. Qed.

Lemma trail_acknowledged s0 k t a n : trail s0 k (t, a) → (k ≤ 11)%nat → trail s0 (S k) (t, Actions.push a (AAcknowledged n)).
Proof. intros H Hk. apply (trail_push _ k); try done. apply load_other; [done|apply H|done]. Qed.

Lemma trail_delivered s0 k t a n :
  trail (s0, 0%nat) k (t, a) → (k ≤ 11)%nat → trail (s0, Z.to_nat n) (S k) (t, Actions.push a (ADelivered n)).
Proof.
  intros [Hp Hq Ht Hg Hl] Hk. simpl in *. split; simpl; [done|done| | |by apply load_other].
  - intros Hs. rewrite (told_push k), Ht by done. apply orb_false_r.
  - rewrite (delivered_push k), Hg by done. done.
Qed.

Lemma trail_timer s0 k t a x : is_Some (timer_of x) → trail s0 k (t, a) → (k ≤ 11)%nat → trail s0 k (t, Actions.push a x).
Proof.
  intros Hx H Hk. apply (trail_push _ k); try done; [by destruct x, Hx|by destruct x, Hx|]. apply load_timer; [done|apply H|done].
Qed.

Lemma trail_move s0 k t a s : arrow (state t) s → s ≠ Closed → trail s0 k (t, a) → state t ≠ Closed → trail s0 k (set_state t s, a).
Proof.
  intros He Hs [Hp Hq Ht Hg Hl] Hc. simpl in *. split; simpl; [by eapply rtc_r|done| |done|done].
  intros Hs0. rewrite Ht by done. by rewrite !bool_decide_false.
Qed.

Lemma trail_end s0 k t a e : arrow (state t) Closed → trail s0 k (t, a) → state t ≠ Closed → (k ≤ 11)%nat →
  trail s0 (S k) (set_state t Closed, Actions.push a (AClosed e)).
Proof.
  intros He [Hp Hq Ht Hg Hl] Hc Hk. simpl in *. split; simpl; [by eapply rtc_r|done| | |by apply load_other].
  - intros Hs. rewrite (told_push k) by done. simpl. by rewrite orb_true_r.
  - rewrite (delivered_push k), Hg by done. simpl. lia.
Qed.

#[local] Hint Extern 2 (is_Some (timer_of _)) => (by eexists) : tcp.
#[local] Hint Extern 2 (_ ≤ _)%nat => lia : tcp.
Ltac same t := apply (trail_same _ _ t); [reflexivity|reflexivity|].

(** ** The operations, along the diagram *)
Section Trail.
Context (s0 : State * nat).
Implicit Types (t : Tcb) (a : Actions) (k : nat).

Lemma arm_retransmit_trail k t a now : trail s0 k (t, a) → (k ≤ 11)%nat → trail s0 k (t, Machine.arm_retransmit t a now).
Proof. intros. unfold Machine.arm_retransmit. destruct (Tcb.awaiting_ack t); apply trail_timer; auto with tcp. Qed.

Lemma ack_now_trail k t a : trail s0 k (t, a) → (k ≤ 11)%nat → (S k ≤ 11)%nat → trail s0 (S k) (Machine.acknowledge_now t a).
Proof. intros. apply trail_timer; [auto with tcp| |done]. same t. by apply trail_emit. Qed.

Lemma advance_close_trail k t a : fin_queued t = true → trail s0 k (t, a) → trail s0 k (Machine.advance_close_state t, a).
Proof.
  intros Hq H. assert (closing = true) as Hcl by (by apply (tr_closing _ _ _ H)). unfold Machine.advance_close_state. destruct (state t) eqn:Hs;
    first [ eapply trail_same; [| |exact H]; simpl; congruence | apply trail_move; rewrite ?Hs; first [done|by constructor] ].
Qed.

Lemma send_segment_trail k t a r : trail s0 k (t, a) → (k ≤ 11)%nat → trail s0 (S k) (Machine.send_segment t a r).2.
Proof.
  intros Hk H11. unfold Machine.send_segment. destruct (_ && negb _); cbn [snd]; [eapply trail_weaken; [done|lia]|].
  destruct (fin_queued t && _ && _ && _) eqn:Hf.
  - apply advance_close_trail; [by do 3 apply andb_true_iff in Hf as [Hf _]|]. same t. by apply trail_emit.
  - same t. by apply trail_emit.
Qed.

Lemma send_loop_trail n k any t a : trail s0 k (t, a) → (k + n ≤ 12)%nat → trail s0 (k + n) (Machine.send_loop n any t a).2.
Proof.
  revert k any t a. induction n as [|n IH]; intros k any t a Hl Hk; simpl; [by rewrite Nat.add_0_r|].
  pose proof (send_segment_trail k t a false Hl ltac:(lia)) as Hs.
  destruct (Machine.send_segment t a false) as [[] [t' a']]; simpl in *; [|eapply trail_weaken; [done|lia]].
  rewrite <- Nat.add_succ_comm. apply IH; [done|lia].
Qed.

Lemma send_what_we_can_trail k t a now : trail s0 k (t, a) → (k ≤ 9)%nat → trail s0 (k + 2) (Machine.send_what_we_can t a now).
Proof.
  intros Hl Hk. unfold Machine.send_what_we_can. destruct (_ && _); [eapply trail_weaken; [done|lia]|].
  pose proof (send_loop_trail 2 k false t a Hl ltac:(lia)) as Hs. destruct (Machine.send_loop 2 false t a) as [any [t' a']]. simpl in Hs.
  set (a2 := if _ && _ then _ else a'). assert (trail s0 (k + 2) (t', a2)) as H2.
  { subst a2. destruct (_ && _); [|done]. apply trail_timer; auto with tcp. }
  destruct any; [|done]. apply arm_retransmit_trail; [|lia]. case_bool_decide; [by same t'|done].
Qed.

Lemma open_trail t i w p now : s0 = (state t, 0%nat) → (fin_queued t = true → closing = true) → ev = (if p : bool then EListen i w else EConnect i w) →
  trail s0 6 (Machine.open t Actions.new i w p now).
Proof.
  intros Hs Hq Hev. assert (trail s0 0 (t, Actions.new)) as H by (rewrite Hs; by apply trail_start). unfold Machine.open. case_bool_decide as Hc; simpl; [|eapply trail_weaken; [done|lia]].
  assert (∀ s, arrow Closed s → trail s0 0 (set_state t s, Actions.new)) as Hm.
  { intros s He. destruct H as [Hp Hq' Ht Hg Hl]. split; [rewrite Hs; simpl; rewrite Hc; by apply rtc_once|done| |done|done].
    rewrite Hs. simpl. congruence. }
  destruct p.
  - same (set_state t Listen). eapply trail_weaken; [apply (Hm Listen); rewrite Hev; constructor|lia].
  - eapply (trail_weaken _ 1); [|lia]. apply arm_retransmit_trail; [|lia]. same (set_state t SynSent). apply trail_emit; [|lia]. apply (Hm SynSent). rewrite Hev. constructor.
Qed.

Lemma abort_trail k t a : (∀ s, s ≠ Closed → arrow s Closed) → trail s0 k (t, a) → (k ≤ 9)%nat → state t ≠ Closed → trail s0 (k + 2) (Machine.abort t a).
Proof.
  intros He H Hk Hc. unfold Machine.abort. rewrite bool_decide_false by done. cbn [orb]. case_bool_decide.
  - eapply (trail_weaken _ (S k)); [|lia]. apply trail_end; [by apply He|done|done|lia].
  - replace (k + 2)%nat with (S (S k)) by lia. apply trail_end; [by apply He| |done|lia]. apply trail_emit; [done|lia].
Qed.

Lemma resend_trail k t a : trail s0 k (t, a) → (k ≤ 9)%nat → trail s0 (k + 2) (Machine.resend t a).
Proof.
  intros H Hk. unfold Machine.resend. pose proof (send_segment_trail k t a true H ltac:(lia)) as Hs.
  destruct (Machine.send_segment t a true) as [any [t' a']]. simpl in Hs.
  assert (∀ e x, trail s0 (k + 2) (set_snd_nxt t x, Actions.push a (AEmit e))) as Hsyn.
  { intros e x. eapply (trail_weaken _ (S k)); [|lia]. same t. apply trail_emit; [done|lia]. }
  destruct (state t); try apply Hsyn;
    (destruct (fin_seq t'); [destruct (_ && _)|]; [|eapply trail_weaken; [done|lia]..];
     replace (k + 2)%nat with (S (S k)) by lia; same t'; apply trail_emit; [done|lia]).
Qed.

Lemma time_wait_trail k t a now :
  arrow (state t) TimeWait → state t ≠ Closed → trail s0 k (t, a) → (k ≤ 11)%nat → trail s0 k (Machine.enter_time_wait t a now).
Proof. intros. repeat (apply trail_timer; [auto with tcp| |done]). by apply trail_move. Qed.

(** A segment with an acknowledgement is being taken. *)
Definition acking : Prop := ∃ g, ev = EArrived g ∧ is_Some (acknowledgement g).

Lemma advance_after_ack_trail k t a now : acking → trail s0 k (t, a) → (k ≤ 10)%nat → trail s0 (S k) (Machine.advance_after_ack t a now).
Proof.
  intros (g & Hev & Hg) H Hk. assert (trail s0 (S k) (t, a)) by (eapply trail_weaken; [done|lia]).
  unfold Machine.advance_after_ack. destruct (negb _); [done|]. destruct (state t) eqn:Hs; try done.
  - apply trail_move; rewrite ?Hs, ?Hev; first [done|by constructor].
  - apply time_wait_trail; rewrite ?Hs, ?Hev; try done; [by constructor|lia].
  - apply trail_end; rewrite ?Hs, ?Hev; try done; [by constructor|lia].
Qed.
End Trail.

(** Round-trip measurement touches the estimate only. *)
Lemma measure_frame t sample t' :
  Machine.measure t sample = Done t' → ∃ a b c, t' = set_rto_us (set_rttvar_us (set_srtt_us t a) b) c.
Proof.
  unfold Machine.measure. intros H. destruct (srtt_us t) as [srtt|]; inv_done; by eexists _, _, _.
Qed.

Lemma finish_timing_frame t ack now t' :
  Machine.finish_timing t ack now = Done t' →
  ∃ a b c d, t' = set_timing (set_rto_us (set_rttvar_us (set_srtt_us t a) b) c) d.
Proof.
  unfold Machine.finish_timing. intros H. destruct (timing t) as [[q sent]|] eqn:Ht.
  - destruct (negb _).
    + injection H as <-. exists (srtt_us t), (rttvar_us t), (rto_us t), (timing t). by destruct t.
    + apply measure_frame in H as (x & y & z & ->). by exists x, y, z, None.
  - injection H as <-. exists (srtt_us t), (rttvar_us t), (rto_us t), (timing t). by destruct t.
Qed.

Section Arrivals.
Context (s0 : State * nat).
Implicit Types (t : Tcb) (a : Actions) (k : nat).

Lemma finish_timing_trail k t ack now a t' :
  Machine.finish_timing t ack now = Done t' → trail s0 k (t, a) → trail s0 k (t', a) ∧ state t' = state t.
Proof. intros (x & y & z & w & ->)%finish_timing_frame H. split; [|done]. by same t. Qed.

Lemma take_ack_trail k t a ack now st :
  acking → Machine.take_ack t a ack now = Done st → trail s0 k (t, a) → (k ≤ 9)%nat → trail s0 (k + 2) st.
Proof.
  unfold Machine.take_ack. intros Hack H Hl Hk. destruct (negb (Sequence.follows _ _)); [injection H as <-; eapply trail_weaken; [done|lia]|].
  apply outcome_bind_done in H as (t2 & Hf & [= <-]).
  match goal with |- context [Machine.arm_retransmit t2 ?x now] => set (a1 := x) end.
  assert (trail s0 (S k) (t, a1)) as H1.
  { subst a1. destruct (_ <? _); [apply trail_acknowledged; [done|lia]|eapply trail_weaken; [done|lia]]. }
  apply (trail_same _ _ _ (set_retransmits (set_snd_una t ack) 0)) in H1; [|done|done].
  destruct (finish_timing_trail _ _ _ _ _ _ Hf H1) as [H2 _].
  replace (k + 2)%nat with (S (S k)) by lia. apply advance_after_ack_trail; [done|apply arm_retransmit_trail; [done|lia]|lia].
Qed.

Lemma complete_handshake_trail k t a ack now st :
  acking → Machine.complete_handshake t a ack now = Done (Some st) → trail s0 k (t, a) → (k ≤ 11)%nat → trail s0 k st ∧ state st.1 ≠ SynReceived.
Proof.
  unfold Machine.complete_handshake. intros (g & Hev & Hg) H Hl Hk. case_bool_decide as Hs; simpl in H; [|by injection H as <-].
  destruct (Sequence.follows _ _); [|done]. apply outcome_bind_done in H as (t2 & Hf & [= <-]).
  destruct (finish_timing_trail k _ _ _ a _ Hf) as [H2 He].
  { same (set_state t Established). apply trail_move; rewrite ?Hs, ?Hev; first [done|by constructor]. }
  split; [by apply arm_retransmit_trail|]. cbn [fst]. by rewrite He.
Qed.

Lemma take_ack_state t a ack now st : Machine.take_ack t a ack now = Done st → state t ≠ SynReceived → state st.1 ≠ SynReceived.
Proof.
  unfold Machine.take_ack. intros H Hs. destruct (negb (Sequence.follows _ _)); [by injection H as <-|].
  apply outcome_bind_done in H as (t2 & (x & y & z & w & ->)%finish_timing_frame & [= <-]).
  unfold Machine.advance_after_ack. destruct (negb _); [done|]. simpl. destruct (state t) eqn:E; simpl; congruence.
Qed.

Lemma process_ack_trail k t a s ack now r :
  acking → Machine.process_ack t a s ack now = Done r → trail s0 k (t, a) → (k ≤ 9)%nat →
  trail s0 (k + 2) r.2 ∧ (r.1 = true → state r.2.1 ≠ SynReceived).
Proof.
  unfold Machine.process_ack. intros Hack H Hl Hk. destruct (Sequence.follows _ _).
  { injection H as <-. split; [|done]. eapply (trail_weaken _ (S k)); [apply ack_now_trail; [done|lia..]|lia]. }
  apply outcome_bind_done in H as (h & Hh & H).
  destruct h as [[t1 a1]|]; [|injection H as <-; split; [eapply trail_weaken; [done|lia]|done]].
  apply (complete_handshake_trail k) in Hh as [Hh Hs]; [|done|done|lia].
  apply outcome_bind_done in H as ([t2 a2] & Ht & [= <-]). pose proof (take_ack_state _ _ _ _ _ Ht Hs) as Hs2.
  apply (take_ack_trail k) in Ht; [|done|done|lia]. split; [|done]. cbn [snd].
  destruct (_ && _); [apply trail_timer; [auto with tcp| |lia]|]; by same t2.
Qed.

Lemma peer_closed_trail k t a g now :
  ev = EArrived g → Flags.contains (flags g) Flags.FIN = true → trail s0 k (t, a) → (k ≤ 10)%nat → state t ≠ SynReceived → trail s0 (S k) (Machine.peer_closed t a now).
Proof.
  intros Hev Hg H Hk Hs. pose proof (ack_now_trail s0 k t a H ltac:(lia) ltac:(lia)) as Ha. unfold Machine.peer_closed.
  destruct (Machine.acknowledge_now t a) as [t1 a1] eqn:Hn. assert (state t1 = state t) as Hs1 by (by injection Hn as <- <-).
  destruct (state t1) eqn:Hs2; try done.
  - apply trail_move; rewrite ?Hs2, ?Hev; first [done|by constructor].
  - apply trail_move; rewrite ?Hs2, ?Hev; first [done|by constructor].
  - apply time_wait_trail; rewrite ?Hs2, ?Hev; try done; [by constructor|lia].
Qed.

Lemma acknowledge_or_delay_trail k t a now : trail s0 k (t, a) → (k ≤ 10)%nat → trail s0 (S k) (Machine.acknowledge_or_delay t a now).
Proof.
  intros H Hk. unfold Machine.acknowledge_or_delay. destruct (_ || _).
  - apply ack_now_trail; [by same t|lia..].
  - eapply (trail_weaken _ k); [|lia]. apply trail_timer; [auto with tcp|by same t|lia].
Qed.

Lemma syn_sent_arrival_trail t s now st :
  ev = EArrived s → trail s0 0 (t, Actions.new) → state t = SynSent → Machine.syn_sent_arrival t Actions.new s now = Done st → trail s0 6 st.
Proof.
  intros Hev Hl Hs H. unfold Machine.syn_sent_arrival in H. assert (trail s0 6 (t, Actions.new)) by (eapply trail_weaken; [done|lia]).
  destruct (Machine.bad_syn_ack _ _).
  { injection H as <-. destruct (Flags.contains _ _); [done|]. eapply (trail_weaken _ 1); [apply trail_emit; [done|lia]|lia]. }
  destruct (Flags.contains _ Flags.RST) eqn:Hr.
  { injection H as <-. case_bool_decide; [|done]. eapply (trail_weaken _ 1); [apply trail_end; rewrite ?Hs, ?Hev; [constructor; [done|by left]|done|done|lia]|lia]. }
  destruct (Flags.contains (flags s) Flags.SYN) eqn:Hsyn; cbn [negb] in H; [|by injection H as <-].
  set (t1 := match acknowledgement s with Some ack => set_snd_una (Machine.learn_peer t s) ack | None => Machine.learn_peer t s end) in H.
  assert (state t1 = SynSent) as Hs1 by (subst t1; by destruct (acknowledgement s)).
  assert (fin_queued t1 = fin_queued t) as Hq1 by (subst t1; by destruct (acknowledgement s)).
  assert (trail s0 0 (t1, Actions.new)) as H1 by (apply (trail_same _ _ t); [congruence|done|done]).
  destruct (Sequence.follows _ _).
  - apply outcome_bind_done in H as (t2 & Hf & H). cbn [fst snd] in H.
    destruct (finish_timing_trail 0 _ _ _ Actions.new _ Hf) as [H2 _].
    { apply trail_move; rewrite ?Hs1, ?Hev; first [done|by constructor]. }
    injection H as <-. eapply (trail_weaken _ 3); [|lia]. apply (send_what_we_can_trail _ 1); [|lia].
    apply arm_retransmit_trail; [|lia]. apply (ack_now_trail _ 0); [done|lia..].
  - injection H as <-. eapply (trail_weaken _ 1); [|lia]. apply arm_retransmit_trail; [|lia].
    same (set_state t1 SynReceived). apply trail_emit; [|lia]. apply trail_move; rewrite ?Hs1, ?Hev; first [done|by constructor].
Qed.
End Arrivals.

Lemma deliver_trail s k t a g d st :
  Machine.deliver t a g = Done (d, st) → trail (s, 0%nat) k (t, a) → (k ≤ 11)%nat → trail (s, Z.to_nat d) (S k) st ∧ state st.1 = state t.
Proof.
  unfold Machine.deliver. intros H Hl Hk. assert (trail (s, 0%nat) (S k) (t, a)) by (eapply trail_weaken; [done|lia]).
  destruct (_ || _); [by injection H as <- <-|]. destruct (negb _); [by injection H as <- <-|].
  destruct (_ =? 0); [by injection H as <- <-|]. apply outcome_bind_done in H as (w & _ & [= <- <-]).
  split; [|done]. same t. by apply trail_delivered.
Qed.

(** What the arrival of a segment delivers is what [deliver] took of it. *)
Lemma take_segment_trail s k t a g now st :
  ev = EArrived g → Machine.take_segment t a g now = Done st → trail (s, 0%nat) k (t, a) → (k ≤ 7)%nat → state t ≠ SynReceived →
  ∃ d st1, Machine.deliver t a g = Done (d, st1) ∧ trail (s, Z.to_nat d) (k + 4) st.
Proof.
  unfold Machine.take_segment. intros Hev H Hl Hk Hs. apply outcome_bind_done in H as ([d [t1 a1]] & Hd & H). exists d, (t1, a1). split; [done|].
  apply (deliver_trail s k) in Hd as [Hd Hs1]; [|done|lia]. simpl in Hs1.
  match type of H with (let '(_, _) := ?x in _) = _ => set (y := x) in H end.
  assert (trail (s, Z.to_nat d) (S (S k)) y) as Hy.
  { subst y. destruct (_ && negb _) eqn:Hfin.
    - apply andb_true_iff in Hfin as [Hfin _]. do 2 apply andb_true_iff in Hfin as [Hfin _]. apply (peer_closed_trail _ _ _ _ g); [done|done|by same t1|lia|]. simpl. by rewrite Hs1.
    - destruct (_ <? _); [apply acknowledge_or_delay_trail; [done|lia]|eapply trail_weaken; [done|lia]]. }
  destruct y as [t2 a2]. injection H as <-. replace (k + 4)%nat with (S (S k) + 2)%nat by lia. apply send_what_we_can_trail; [done|lia].
Qed.

Lemma synchronised_arrival_trail s t g now st :
  ev = EArrived g → trail (s, 0%nat) 0 (t, Actions.new) → state t ≠ Closed →
  Machine.synchronised_arrival t Actions.new g now = Done st → ∃ d, trail (s, d) 6 st.
Proof.
  intros Hev Hl Hc H. unfold Machine.synchronised_arrival in H. assert (trail (s, 0%nat) 6 (t, Actions.new)) by (eapply trail_weaken; [done|lia]).
  destruct (negb (Machine.acceptable t g)).
  { injection H as <-. exists 0%nat. destruct (Flags.contains _ _); [done|]. destruct (Sequence.precedes _ _); [|done].
    eapply (trail_weaken _ 1); [apply ack_now_trail; [done|lia..]|lia]. }
  destruct (Flags.contains _ Flags.RST) eqn:Hr; [injection H as <-; exists 0%nat; eapply (trail_weaken _ 1); [apply trail_end; [rewrite Hev; constructor; [done|by left]|done|done|lia]|lia]|].
  destruct (_ && negb _) eqn:Hsyn.
  { injection H as <-. exists 0%nat. apply andb_true_iff in Hsyn as [Hsyn _]. eapply (trail_weaken _ 2); [apply (abort_trail _ 0); [|done|lia|done]|lia]. intros x Hx. rewrite Hev. constructor; [done|by right]. }
  destruct (acknowledgement g) as [ack|] eqn:Hg; [|injection H as <-; by exists 0%nat]. assert (Hack : acking) by (exists g; by rewrite Hg).
  apply outcome_bind_done in H as ([c [t1 a1]] & Hp & H). apply (process_ack_trail (s, 0%nat) 0) in Hp as [Hp Hn]; [|done|done|lia]. simpl in Hp, Hn.
  destruct c; simpl in H; [|injection H as <-; exists 0%nat; eapply trail_weaken; [done|lia]].
  apply (take_segment_trail s 2) in H as (d & st1 & _ & H); [by eexists|done|done|lia|by apply Hn].
Qed.


(** ** The theorem *)

(** Only a segment delivers anything. *)
Lemma local_trail t e now st :
  ev = e → (e = EShutdown → closing = true) → (fin_queued t = true → closing = true) →
  (∀ g, e ≠ EArrived g) → (state t = Closed → e ≠ EAbort) → Machine.step t e now = Done st → trail (state t, 0%nat) 6 st.
Proof.
  intros Hev Hsh Hq Hg Hne H. pose proof (trail_start t Hq) as H0. set (s0 := (state t, 0%nat)) in *.
  assert (trail s0 6 (t, Actions.new)) as H6 by (eapply trail_weaken; [done|lia]).
  destruct e as [| | | | | |g|timer]; cbn [Machine.step] in H; try (injection H as <-); try (by destruct (Hg g)).
  - by apply open_trail.
  - by apply open_trail.
  - eapply (trail_weaken _ 2); [|lia]. apply (send_what_we_can_trail _ 0); [by same t|lia].
  - unfold Machine.reopen_window. destruct (_ && _); [|by same t]. eapply (trail_weaken _ 1); [|lia].
    apply (ack_now_trail _ 0); [by same t|lia..].
  - assert (state t = Listen ∨ state t = SynSent → trail s0 6 (set_state t Closed, Actions.push Actions.new (AClosed Aborted))) as Hend.
    { intros Hc. eapply (trail_weaken _ 1); [apply trail_end; [rewrite Hev; by constructor|done|by destruct Hc as [-> | ->]|lia]|lia]. }
    assert (trail s0 6 (Machine.send_what_we_can (set_fin_queued t true) Actions.new now)) as Hw.
    { eapply (trail_weaken _ 2); [|lia]. apply (send_what_we_can_trail _ 0); [|lia]. destruct H0 as [Hp _ Ht Hd Hl]. split; try done. intros _. by apply Hsh. }
    unfold Machine.shutdown. destruct (state t) eqn:Hs; try done; apply Hend; [by left|by right].
  - eapply (trail_weaken _ 2); [|lia]. apply (abort_trail _ 0); [|done|lia|]; [intros x Hx; rewrite Hev; by constructor|]. intros Hc. by apply (Hne Hc).
  - destruct timer; cbn [Machine.expired] in H.
    + unfold Machine.retransmit in H. case_bool_decide as Hc; cbn [orb] in H; [by injection H as <-|].
      destruct (negb _); [by injection H as <-|]. destruct (_ <=? _).
      { injection H as <-. eapply (trail_weaken _ 1); [apply trail_end; [rewrite Hev; by constructor|done|done|lia]|lia]. }
      apply outcome_bind_done in H as (r & _ & H).
      match type of H with (let '(_, _) := Machine.resend ?x _ in _) = _ => set (t1 := x) in H end.
      pose proof (resend_trail s0 0 t1 Actions.new ltac:(by same t) ltac:(lia)) as Hr.
      destruct (Machine.resend t1 Actions.new) as [t2 a2]. injection H as <-.
      eapply (trail_weaken _ 2); [|lia]. apply arm_retransmit_trail; [done|lia].
    + injection H as <-. case_bool_decide; [done|]. eapply (trail_weaken _ 1); [apply (ack_now_trail _ 0); [done|lia..]|lia].
    + injection H as <-. unfold Machine.probe. destruct (_ || _); [done|]. eapply (trail_weaken _ 1); [|lia].
      apply arm_retransmit_trail; [|lia]. apply trail_timer; [auto with tcp| |lia]. same t. apply trail_emit; [done|lia].
    + injection H as <-. case_bool_decide as Hs; [|done]. eapply (trail_weaken _ 1); [|lia]. apply trail_end; rewrite ?Hs, ?Hev; [constructor|done|done|lia].
Qed.

Lemma closed_trail t g : (fin_queued t = true → closing = true) → trail (state t, 0%nat) 6 (t, Machine.closed_arrival Actions.new g).
Proof.
  intros Hq. pose proof (trail_start t Hq) as H0. unfold Machine.closed_arrival.
  destruct (Machine.reset_for _); [eapply (trail_weaken _ 1); [apply trail_emit; [done|lia]|lia]|eapply trail_weaken; [done|lia]].
Qed.

Lemma listen_trail t g now : ev = EArrived g → (fin_queued t = true → closing = true) → state t = Listen → trail (state t, 0%nat) 6 (Machine.listen_arrival t Actions.new g now).
Proof.
  intros Hev Hq Hs. pose proof (trail_start t Hq) as H0. assert (trail (state t, 0%nat) 6 (t, Actions.new)) by (eapply trail_weaken; [done|lia]).
  unfold Machine.listen_arrival. destruct (Flags.contains _ Flags.RST); [done|]. case_bool_decide; [by apply closed_trail|].
  destruct (Flags.contains (flags g) Flags.SYN) eqn:Hsyn; cbn [negb]; [|done]. eapply (trail_weaken _ 1); [|lia]. apply arm_retransmit_trail; [|lia].
  same (set_state t SynReceived). apply trail_emit; [|lia]. apply trail_move; rewrite ?Hs, ?Hev; first [rewrite <- Hs; done|done|by constructor].
Qed.

Lemma arrived_trail t g now st : ev = EArrived g → (fin_queued t = true → closing = true) → Machine.arrived t Actions.new g now = Done st → ∃ d, trail (state t, d) 6 st.
Proof.
  intros Hev Hq H. pose proof (trail_start t Hq) as H0. unfold Machine.arrived in H. destruct (state t) eqn:Hs;
    try (eapply synchronised_arrival_trail; [exact Hev|exact H0| |exact H]; by rewrite Hs); rewrite <- Hs; exists 0%nat.
  - injection H as <-. by apply closed_trail.
  - injection H as <-. by apply listen_trail.
  - eapply syn_sent_arrival_trail; [exact Hev|by rewrite Hs|done|exact H].
Qed.
End Diagram.

(** Whether this end has asked to close, by now. *)
Definition is_shutdown (e : Event) : bool := match e with EShutdown => true | _ => false end.
Definition closing_by (t : Tcb) (e : Event) : bool := fin_queued t || is_shutdown e.

(** C31. Every step moves along the diagram of RFC 793: each change of state is an edge of
    it, taken for its cause, the event the step was given; no other step opens a
    connection, and none moves on but for the flags of the segment that arrived or for
    this end's asking to close.  And a connection that is open reports its end in exactly
    the step that closes it. *)
Theorem machine_follows_the_diagram t e now t' a :
  Machine.step t e now = Done (t', a) →
  rtc (edge (closing_by t e) e) (state t) (state t') ∧
  (state t ≠ Closed → ((∃ ended, AClosed ended ∈ Actions.iter a) ↔ state t' = Closed)).
Proof.
  intros H. assert (Habs : rtc (edge (closing_by t e) e) (state t) (state t') ∧ (state t ≠ Closed → told a = bool_decide (state t' = Closed))).
  { assert (Hq : fin_queued t = true → closing_by t e = true) by (unfold closing_by; by intros ->).
    assert ((state t = Closed ∧ e = EAbort) ∨ (state t = Closed → e ≠ EAbort)) as [[Hc ->]|Hne].
    { destruct (decide (state t = Closed)); [|by right]. destruct e; (by left) || by right. }
    - cbn [Machine.step] in H. unfold Machine.abort in H. rewrite Hc in H. injection H as <- <-. simpl. rewrite Hc. by split.
    - assert ((∃ g, e = EArrived g) ∨ ∀ g, e ≠ EArrived g) as [[g ->]|Hl] by (destruct e; (by right) || (left; by eexists)).
      + destruct (arrived_trail (closing_by t (EArrived g)) (EArrived g) _ _ _ _ eq_refl Hq H) as (d & [Hp _ Ht _ _]). by split.
      + destruct (local_trail (closing_by t e) e _ _ _ _ eq_refl ltac:(intros ->; apply orb_true_r) Hq Hl Hne H) as [Hp _ Ht _ _]. by split. }
  destruct Habs as [Hp Ht]. split; [done|]. intros Hc. specialize (Ht Hc).
  rewrite <- (bool_decide_eq_true (state t' = Closed)), <- Ht. unfold told. rewrite existsb_exists. split.
  - intros [ended Hin]. exists (AClosed ended). split; [by apply list_elem_of_In|done].
  - intros ([] & Hin & Hx); try done. eexists. by apply list_elem_of_In.
Qed.

Lemma machine_follows_the_diagram_witness : rtc (edge false (EConnect 7 4096)) Closed SynSent.
Proof. exact (proj1 (machine_follows_the_diagram (Tcb.new demo_tuple) (EConnect 7 4096) 0 _ _ eq_refl)). Defined.
