(* ===== verification/TcpSend.v ===== *)
(** * What a connection machine says

    The sending side of src/net/src/tcp/state.rs: where the numbers of a control
    block stand in sequence space, relative to its initial number, and that every
    segment it asks for is honest: a [SYN] at that number, bytes the program wrote
    at the numbers they have, a [FIN] behind the last of them.  [speaks] is the
    invariant; each operation keeps it. *)
From stdpp Require Import prelude numbers list.
From S2P Require Import Prelude Segment Tcp TcpStep TcpDiagram.
Open Scope Z_scope.
Set Warnings "-clear-no-such-hyp".

(** A control block no connection has used. *)
Definition fresh (t : Tcb) : bool :=
  bool_decide (state t = Closed) && (snd_nxt t =? 0) && bool_decide (fin_seq t = None) && negb (fin_queued t) && negb (fin_received t).

(** Streams are shorter than half the sequence space. *)
Definition LIMIT : Z := 2 ^ 31 - 2.

(** ** Positions in sequence space *)
Definition off (base x : Z) : Z := (x - base) mod 2 ^ 32.

Lemma off_range base x : 0 ≤ off base x < 2 ^ 32.
Proof. apply Z.mod_pos_bound. lia. Qed.

Lemma off_self base : off base base = 0.
Proof. unfold off. by rewrite Z.sub_diag. Qed.

Lemma off_add base x k : 0 ≤ k → off base x + k < 2 ^ 32 → off base (Sequence.wrapping_add x k) = off base x + k.
Proof.
  intros Hk Hb. pose proof (off_range base x). unfold Sequence.wrapping_add, wrapping_add, trunc, off in *.
  rewrite Zminus_mod_idemp_l. replace (x + k - base) with ((x - base) + k) by lia.
  rewrite <- Zplus_mod_idemp_l. by rewrite Z.mod_small by lia.
Qed.

Lemma sub_off base x y : off base y ≤ off base x → wrapping_sub 32 x y = off base x - off base y.
Proof.
  intros H. pose proof (off_range base x). pose proof (off_range base y). unfold wrapping_sub, trunc.
  replace (x - y) with ((x - base) - (y - base)) by lia. rewrite Zminus_mod. fold (off base x) (off base y). by rewrite Z.mod_small by lia.
Qed.

Lemma wrapping_sub_off base x y : wrapping_sub 32 x y = (off base x - off base y) mod 2 ^ 32.
Proof. unfold wrapping_sub, trunc. replace (x - y) with ((x - base) - (y - base)) by lia. by rewrite Zminus_mod. Qed.

Lemma wrapping_sub_neg base x y : off base x < off base y → wrapping_sub 32 x y = off base x - off base y + 2 ^ 32.
Proof.
  intros H. pose proof (off_range base x). pose proof (off_range base y). rewrite (wrapping_sub_off base).
  symmetry. apply (Z.mod_unique _ _ (-1)); lia.
Qed.

Lemma precedes_off base x y :
  Sequence.precedes x y = if off base x <? off base y then off base y - off base x <=? 2 ^ 31 else 2 ^ 31 <=? off base x - off base y.
Proof.
  unfold Sequence.precedes, Sequence.as_i32. pose proof (off_range base x). pose proof (off_range base y).
  destruct (Z.ltb_spec (off base x) (off base y)) as [Hlt|Hge].
  - rewrite (wrapping_sub_neg base) by done. destruct (_ <? 2 ^ 31) eqn:?; lia.
  - rewrite (sub_off base) by done. destruct (_ <? 2 ^ 31) eqn:?; lia.
Qed.

(** An acknowledgement between what is unacknowledged and what was sent. *)
Lemma ack_between base u n ack :
  off base u ≤ off base n → off base n < 2 ^ 31 → Sequence.follows ack u = true → Sequence.follows ack n = false →
  off base u < off base ack ≤ off base n.
Proof.
  unfold Sequence.follows. rewrite !(precedes_off base). intros Hun Hn. pose proof (off_range base ack). pose proof (off_range base u).
  destruct (_ <? _) eqn:?, (off base n <? _) eqn:?; lia.
Qed.

(** ** What one end says is true

    [honest base L q e]: the segment a machine with initial number [base] asks for
    is a [SYN] at that number, or names bytes among the [L] its program wrote, and
    a [FIN] only behind the last of them once the program has closed. *)
Record honest (base L : Z) (q : bool) (e : Emit) : Prop := {
  h_sequence : in_width 32 (esequence e);
  h_ack : from_option (in_width 32) True (eacknowledgement e);
  h_window : in_width 16 (ewindow e);
  h_mss : from_option (in_width 16) True (emss e);
  h_length : 0 ≤ elength e;
  h_syn : Flags.contains (eflags e) Flags.SYN = true → off base (esequence e) = 0 ∧ elength e = 0;
  h_data : 0 < elength e → 1 ≤ off base (esequence e) ∧ off base (esequence e) + elength e ≤ 1 + L;
  h_fin : Flags.contains (eflags e) Flags.FIN = true → q = true ∧ off base (esequence e) + elength e = 1 + L
}.

Lemma honest_mono base L L' q q' e :
  L ≤ L' → (q = true → L' = L) → (q = true → q' = true) → honest base L q e → honest base L' q' e.
Proof.
  intros HL Hq Hq' []. split; try done.
  - intros H. specialize (h_data0 H). lia.
  - intros H. destruct (h_fin0 H) as [H1 H2]. rewrite Hq by done. auto.
Qed.

(** Segments that carry no part of the stream. *)
Lemma quiet_honest base L q f sq ak w m :
  Flags.contains f Flags.SYN = false → Flags.contains f Flags.FIN = false →
  in_width 32 sq → from_option (in_width 32) True ak → in_width 16 w → from_option (in_width 16) True m →
  honest base L q (MkEmit f sq ak w 0 m).
Proof. intros Hs Hf. split; simpl; try done; congruence. Qed.

Definition all_honest (base L : Z) (q : bool) (a : Actions) : Prop := ∀ e, AEmit e ∈ Actions.iter a → honest base L q e.

Lemma iter_push a x y : y ∈ Actions.iter (Actions.push a x) → y = x ∨ y ∈ Actions.iter a.
Proof.
  assert (Hins : ∀ i n, y ∈ omap id (take n (<[i := Some x]> (items a))) → (n ≤ S (count a))%nat → (i < count a ∨ i = count a)%nat →
    (n ≤ count a ∨ i = count a)%nat → y = x ∨ y ∈ Actions.iter a).
  { intros i n (o & Ho & Hy)%list_elem_of_omap Hn Hi Hc. simpl in Hy. subst o.
    apply list_elem_of_lookup in Ho as [j Hj]. apply lookup_take_Some in Hj as [Hj Hjn].
    apply list_lookup_insert_Some in Hj as [(<- & [= ->] & _)|(Hne & Hj)]; [by left|]. right.
    apply list_elem_of_omap. exists (Some y). split; [|done]. apply list_elem_of_lookup. exists j.
    apply lookup_take_Some. split; [done|lia]. }
  assert (Happ : y ∈ Actions.iter (Actions.append a x) → y = x ∨ y ∈ Actions.iter a).
  { unfold Actions.append. destruct (items a !! count a); [|by right]. intros H. apply (Hins (count a) (count a + 1)%nat); [done|lia..]. }
  unfold Actions.push. destruct (timer_of x); [|done]. destruct (position _ _) as [i|] eqn:Hp; [|done].
  apply position_some in Hp as [(z & Hz & _) _]. apply lookup_take_Some in Hz as [_ Hz].
  intros H. apply (Hins i (count a)); [done|lia..].
Qed.

Lemma all_honest_push base L q a x :
  all_honest base L q a → (∀ e, x = AEmit e → honest base L q e) → all_honest base L q (Actions.push a x).
Proof. intros Ha Hx e [He|He]%iter_push; [by apply Hx|by apply Ha]. Qed.

(** ** The sending side *)
Inductive Phase : Type := PDead | PListen | PSent | PRcvd | POpen.
#[global] Instance Phase_eq_dec : EqDecision Phase.
Proof. solve_decision. Defined.
Definition phase (s : State) : Phase :=
  match s with Closed => PDead | Listen => PListen | SynSent => PSent | SynReceived => PRcvd | _ => POpen end.

Definition UNA (t : Tcb) : Z := off (iss t) (snd_una t).
Definition NXT (t : Tcb) : Z := off (iss t) (snd_nxt t).
Definition AVL (t : Tcb) : Z := off (iss t) (snd_avail t).

Definition not_closing (t : Tcb) : Prop := fin_seq t = None ∧ fin_queued t = false.

(** Where the numbers of a machine stand when its program has written [L] bytes. *)
Definition sender (L : Z) (t : Tcb) : Prop :=
  match phase (state t) with
  | PDead => True
  | PListen => L = 0 ∧ UNA t = 0 ∧ snd_nxt t = snd_una t ∧ not_closing t
  | PSent => UNA t = 0 ∧ NXT t = 1 ∧ AVL t = 1 + L ∧ not_closing t
  | PRcvd => UNA t = 0 ∧ 1 ≤ NXT t ≤ 1 + L ∧ AVL t = 1 + L ∧ not_closing t
  | POpen => 1 ≤ UNA t ≤ NXT t ∧ AVL t = 1 + L ∧
      match fin_seq t with
      | None => NXT t ≤ 1 + L
      | Some fin => off (iss t) fin = 1 + L ∧ fin_queued t = true ∧ NXT t ≤ 2 + L
      end
  end.

Record speaks (L : Z) (st : St) : Prop := {
  sp_ok : tcb_ok st.1;
  sp_sender : sender L st.1;
  sp_honest : all_honest (iss st.1) L (fin_queued st.1) st.2
}.

Section Sender.
Context (L : Z) (HL : 0 ≤ L < LIMIT).
Implicit Types (t : Tcb) (a : Actions).

(** The fields the sending side depends on. *)
Definition same_sender t t' : Prop :=
  state t' = state t ∧ iss t' = iss t ∧ snd_una t' = snd_una t ∧ snd_nxt t' = snd_nxt t ∧ snd_avail t' = snd_avail t ∧
  fin_seq t' = fin_seq t ∧ fin_queued t' = fin_queued t.

Lemma speaks_same t t' a : speaks L (t, a) → tcb_ok t' → same_sender t t' → speaks L (t', a).
Proof.
  intros [Hok Hs Hh] Hok' (E1 & E2 & E3 & E4 & E5 & E6 & E7). simpl in *. split; [done| |simpl; by rewrite E2, E7].
  simpl. unfold sender, not_closing, UNA, NXT, AVL in *. by rewrite E1, E2, E3, E4, E5, E6, E7.
Qed.

Lemma speaks_push t a x : speaks L (t, a) → (∀ e, x = AEmit e → honest (iss t) L (fin_queued t) e) → speaks L (t, Actions.push a x).
Proof. intros [Hok Hs Hh] Hx. split; [done..|]. by apply all_honest_push. Qed.

Lemma speaks_quiet t a f sq ak w m :
  speaks L (t, a) → Flags.contains f Flags.SYN = false → Flags.contains f Flags.FIN = false →
  in_width 32 sq → from_option (in_width 32) True ak → in_width 16 w → from_option (in_width 16) True m →
  speaks L (t, Actions.push a (AEmit (MkEmit f sq ak w 0 m))).
Proof. intros. apply speaks_push; [done|]. intros e [= <-]. by apply quiet_honest. Qed.

Lemma speaks_other t a x : speaks L (t, a) → (∀ e, x ≠ AEmit e) → speaks L (t, Actions.push a x).
Proof. intros H Hx. apply speaks_push; [done|]. intros e He. by destruct (Hx e). Qed.

Lemma rcv_wnd_width t : tcb_ok t → in_width 16 (rcv_wnd t).
Proof. intros []. unfold in_width in *. lia. Qed.

Lemma speaks_dead t a x : speaks L (t, a) → (∀ e, x ≠ AEmit e) → speaks L (set_state t Closed, Actions.push a x).
Proof. intros H Hx. apply (speaks_other _ _ _ H) in Hx as [Hok Hs Hh]. split; [by apply ok_set_state|done|done]. Qed.

Lemma ack_now_speaks t a : speaks L (t, a) → speaks L (Machine.acknowledge_now t a).
Proof.
  intros H. pose proof (sp_ok _ _ H) as Hok. simpl in Hok. apply speaks_other; [|done]. apply (speaks_same t); [|by apply (ack_now_ok t a)|done].
  apply speaks_quiet; try done; try apply Hok. by apply rcv_wnd_width.
Qed.

Lemma arm_retransmit_speaks t a now : speaks L (t, a) → speaks L (t, Machine.arm_retransmit t a now).
Proof. intros H. unfold Machine.arm_retransmit. destruct (Tcb.awaiting_ack t); by apply speaks_other. Qed.

Lemma unsent_off t : AVL t = 1 + L → NXT t ≤ 2 + L → Tcb.unsent t = Z.max 0 (1 + L - NXT t).
Proof.
  unfold AVL, NXT, LIMIT, Tcb.unsent, Sequence.follows in *. intros Ha Hn. rewrite (precedes_off (iss t)), Ha.
  pose proof (off_range (iss t) (snd_nxt t)). destruct (Z.ltb_spec (off (iss t) (snd_nxt t)) (1 + L)).
  - rewrite (proj2 (Z.leb_le _ _)) by lia. rewrite (sub_off (iss t)) by lia. lia.
  - rewrite (proj2 (Z.leb_gt _ _)) by lia. lia.
Qed.

(** Data starts behind the [SYN] and goes no further than the program wrote. *)
Definition flowing t : Prop := phase (state t) = PRcvd ∨ phase (state t) = POpen.

Lemma flowing_bounds t : flowing t → sender L t → AVL t = 1 + L ∧ 1 ≤ NXT t ≤ 2 + L ∧ UNA t ≤ NXT t ∧ (fin_seq t = None → NXT t ≤ 1 + L).
Proof.
  intros Hf Hs. unfold sender in Hs. destruct Hf as [Hf|Hf]; rewrite Hf in Hs.
  - destruct Hs as (? & ? & ? & ?). repeat split; lia.
  - destruct Hs as (? & ? & Hs). destruct (fin_seq t); [destruct Hs as (? & ? & ?)|]; repeat split; try lia; done.
Qed.

Lemma send_segment_speaks t a r :
  speaks L (t, a) → flowing t →
  speaks L (Machine.send_segment t a r).2 ∧ flowing (Machine.send_segment t a r).2.1 ∧
  (phase (state t) = POpen → phase (state (Machine.send_segment t a r).2.1) = POpen).
Proof.
  intros H Hf. destruct (flowing_bounds t Hf (sp_sender _ _ H)) as (Ha & Hn & Hun & Hfn). pose proof (sp_ok _ _ H) as Hok. simpl in Hok.
  pose proof (send_segment_ok t a r Hok) as Hok'. unfold Machine.send_segment in *. rewrite unsent_off in * by lia.
  set (allowed := if Sequence.follows _ _ then _ else 0) in *. set (available := Z.max 0 _) in *.
  assert (0 ≤ allowed) by (subst allowed; destruct (Sequence.follows _ _); [apply (trunc_range 32); lia|done]).
  pose proof (ok_mss _ Hok) as Hm. unfold in_width in Hm.
  set (len := if Z.min (Z.min available allowed) (mss t) <? 2 ^ 16 then _ else _) in *.
  assert (Hlen : 0 ≤ len ≤ available) by (subst len; destruct (_ <? 2 ^ 16) eqn:?; lia).
  destruct ((len =? 0) && _) eqn:Hgo; [done|]. cbn [snd fst] in *.
  assert (Hlim : L < 2 ^ 31 - 2) by (unfold LIMIT in HL; lia).
  assert (Hnxt : off (iss t) (Sequence.wrapping_add (snd_nxt t) len) = NXT t + len) by (apply off_add; unfold NXT in *; lia).
  destruct (fin_queued t && _ && (len =? available) && _) eqn:Hfin.
  - rewrite !andb_true_iff, bool_decide_eq_true in Hfin. destruct Hfin as [[[Hq Hfs] Hla%Z.eqb_eq] _]. specialize (Hfn Hfs).
    assert (available = 1 + L - NXT t) as Hav by lia.
    assert (Ho : phase (state t) = POpen).
    { destruct Hf as [Hp|]; [|done]. pose proof (sp_sender _ _ H) as Hs. unfold sender in Hs. simpl in Hs. rewrite Hp in Hs.
      destruct Hs as (_ & _ & _ & _ & Hq'). congruence. }
    pose proof (sp_sender _ _ H) as Hs. unfold sender in Hs. simpl in Hs. rewrite Ho, Hfs in Hs. destruct Hs as (Hu & _ & _).
    assert (Ho' : phase (match state t with Established | SynReceived => FinWait1 | CloseWait => LastAck | other => other end) = POpen).
    { by destruct (state t). }
    split; [|split; [right; exact Ho'|intros _; exact Ho']]. split; [exact Hok'| |].
    + unfold sender. cbn [fst Machine.advance_close_state state set_state set_snd_nxt set_fin_seq set_since_ack]. rewrite Ho'.
      unfold UNA, NXT, AVL in *. cbn. split_and!; [lia| |done|lia|done|].
      * rewrite off_add by lia. lia.
      * rewrite off_add by lia. lia.
    + apply all_honest_push; [apply H|]. intros e [= <-]. cbn. unfold NXT in *. split; cbn; try apply Hok; try done.
      * by apply rcv_wnd_width.
      * lia.
      * intros Hsyn. exfalso. revert Hsyn. by destruct (0 <? len).
      * intros Hp. lia.
      * intros _. split; [done|lia].
  - split; [|split; [exact Hf|done]]. split; [exact Hok'| |].
    + pose proof (sp_sender _ _ H) as Hs. unfold sender in *. cbn [fst] in *. unfold UNA, NXT, AVL in *. cbn.
      destruct Hf as [Hp|Hp]; cbn in Hs; rewrite Hp in *.
      * destruct Hs as (? & ? & ? & ?). split_and!; try done; lia.
      * destruct Hs as (? & ? & Hs). split_and!; try done; [lia..|]. destruct (fin_seq t) as [fin|]; [|lia].
        destruct Hs as (? & ? & ?). split_and!; try done; lia.
    + apply all_honest_push; [apply H|]. intros e [= <-]. cbn. unfold NXT in *. split; cbn; try apply Hok; try done.
      * by apply rcv_wnd_width.
      * lia.
      * intros Hsyn. exfalso. revert Hsyn. by destruct (0 <? len).
      * intros Hp. lia.
      * intros Hsyn. exfalso. revert Hsyn. by destruct (0 <? len).
Qed.

Lemma send_loop_speaks n any t a :
  speaks L (t, a) → flowing t →
  speaks L (Machine.send_loop n any t a).2 ∧ flowing (Machine.send_loop n any t a).2.1.
Proof.
  revert any t a. induction n as [|n IH]; intros any t a H Hf; [done|]. cbn [Machine.send_loop].
  destruct (send_segment_speaks t a false H Hf) as (Hs & Hf' & _).
  destruct (Machine.send_segment t a false) as [[] [t' a']]; [by apply IH|done].
Qed.

Lemma send_what_we_can_speaks t a now : in_width 64 now → speaks L (t, a) → speaks L (Machine.send_what_we_can t a now).
Proof.
  intros Hn H. unfold Machine.send_what_we_can. destruct (_ && _) eqn:Hg; [done|].
  assert (flowing t) as Hf.
  { rewrite andb_false_iff, !negb_false_iff, bool_decide_eq_true in Hg. unfold flowing. destruct Hg as [Hg| ->]; [|by left].
    right. by destruct (state t). }
  clear Hg. destruct (send_loop_speaks 2 false t a H Hf) as [Hs _]. destruct (Machine.send_loop 2 false t a) as [any [t' a']]. cbn [snd] in Hs.
  set (a2 := if _ && _ then _ else a'). assert (speaks L (t', a2)) as H2.
  { subst a2. destruct (_ && _); [by apply speaks_other|done]. }
  destruct any; [|done]. apply arm_retransmit_speaks. case_bool_decide; [|done].
  apply (speaks_same t'); [done| |done]. apply start_timing_ok; [done|apply H2].
Qed.

Lemma reopen_window_speaks t a n : in_width 32 n → speaks L (t, a) → speaks L (Machine.reopen_window t a n).
Proof.
  intros Hn H. unfold Machine.reopen_window. fold (reopened t n).
  assert (speaks L (set_rcv_wnd t (reopened t n), a)) by (apply (speaks_same t); [done|apply reopened_ok; [done|apply (sp_ok _ _ H)]|done]).
  destruct (_ && _); [by apply ack_now_speaks|done].
Qed.

Lemma abort_speaks t a : speaks L (t, a) → speaks L (Machine.abort t a).
Proof.
  intros H. unfold Machine.abort. destruct (_ || _); [by apply speaks_dead|]. apply speaks_dead; [|done].
  apply speaks_quiet; try done. apply (sp_ok _ _ H).
Qed.

Lemma shutdown_speaks t a now :
  in_width 64 now → state t ≠ SynReceived → speaks L (t, a) → speaks L (Machine.shutdown t a now).
Proof.
  intros Hn Hs H. unfold Machine.shutdown.
  assert (phase (state t) = POpen → speaks L (set_fin_queued t true, a)) as Hq.
  { intros Hp. destruct H as [Hok Hsd Hh]. split; [by apply ok_set_fin_queued| |].
    - unfold sender, UNA, NXT, AVL in *. cbn in *. rewrite Hp in *. destruct Hsd as (? & ? & Hsd). split_and!; try lia.
      destruct (fin_seq t); [|done]. by destruct Hsd as (? & ? & ?).
    - intros e He. eapply honest_mono, (Hh e He); [done|done|done]. }
  destruct (state t) eqn:Hst; try done; try (by apply speaks_dead); apply send_what_we_can_speaks; auto.
Qed.

Lemma probe_speaks t a now : speaks L (t, a) → speaks L (Machine.probe t a now).
Proof.
  intros H. unfold Machine.probe. destruct (_ || _) eqn:Hg; [done|]. rewrite !orb_false_iff, !negb_false_iff in Hg.
  destruct Hg as [[Hc _] Hu%Z.eqb_neq]. assert (phase (state t) = POpen) as Hp by (by destruct (state t)).
  assert (flowing t) as Hf by (by right). destruct (flowing_bounds t Hf (sp_sender _ _ H)) as (Ha & Hn & Hun & Hfn).
  rewrite unsent_off in Hu by lia. pose proof (sp_ok _ _ H) as Hok. simpl in Hok. unfold LIMIT in HL.
  apply arm_retransmit_speaks, speaks_other; [|done]. split.
  - apply ok_set_nxt; [apply seq_width|done].
  - pose proof (sp_sender _ _ H) as Hs. unfold sender in *. cbn in *. rewrite Hp in *. destruct Hs as (? & ? & Hs).
    unfold UNA, NXT, AVL in *. cbn. rewrite off_add by lia. split_and!; try lia. destruct (fin_seq t); [|lia]. destruct Hs as (? & ? & ?). split_and!; [done..|lia].
  - apply all_honest_push; [apply H|]. intros e [= <-]. cbn. unfold NXT in *. split; cbn; try apply Hok; try done.
    + by apply rcv_wnd_width.
    + lia.
Qed.

Lemma resend_syn_speaks t a e :
  speaks L (t, a) → phase (state t) = PSent ∨ phase (state t) = PRcvd → 
  (∃ ak, e = MkEmit Flags.SYN (snd_una t) ak (rcv_wnd t) 0 (Some (mss t)) ∧ from_option (in_width 32) True ak) →
  speaks L (set_snd_nxt t (Sequence.wrapping_add (snd_una t) 1), Actions.push a (AEmit e)).
Proof.
  intros H Hp (ak & -> & Hak). pose proof (sp_ok _ _ H) as Hok. pose proof (sp_sender _ _ H) as Hs. simpl in *.
  assert (UNA t = 0 ∧ AVL t = 1 + L ∧ not_closing t) as (Hu & Ha & Hc).
  { unfold sender in Hs. destruct Hp as [Hp|Hp]; rewrite Hp in Hs; naive_solver. }
  unfold LIMIT in HL. split.
  - apply ok_set_nxt; [apply seq_width|done].
  - unfold sender, not_closing, UNA, NXT, AVL in *. cbn. rewrite off_add by lia. destruct Hc.
    destruct Hp as [Hp|Hp]; rewrite Hp; split_and!; try done; lia.
  - apply all_honest_push; [apply H|]. intros e [= <-]. split; cbn; try apply Hok; try done. by apply rcv_wnd_width.
Qed.

Lemma resend_speaks t a :
  speaks L (t, a) → phase (state t) ≠ PDead → phase (state t) ≠ PListen → speaks L (Machine.resend t a).
Proof.
  intros H Hd Hl. pose proof (sp_ok _ _ H) as Hok. simpl in Hok. unfold Machine.resend.
  assert (phase (state t) = POpen → speaks L (let '(_, (tcb, actions)) := Machine.send_segment t a true in
    match fin_seq tcb with
    | Some fin =>
        if negb (Sequence.follows (snd_una tcb) fin) && (snd_nxt tcb =? fin)
        then (set_snd_nxt tcb (Sequence.wrapping_add fin 1),
              Actions.push actions (AEmit (MkEmit Flags.FIN fin (Some (rcv_nxt tcb)) (rcv_wnd tcb) 0 None)))
        else (tcb, actions)
    | None => (tcb, actions)
    end)) as Hopen.
  { intros Hp. destruct (send_segment_speaks t a true H ltac:(by right)) as (Hs & _ & Hp').
    specialize (Hp' Hp). destruct (Machine.send_segment t a true) as [any [t' a']]. cbn [snd fst] in *.
    destruct (fin_seq t') as [fin|] eqn:Hfin; [|done]. destruct (_ && _) eqn:Hc; [|done].
    apply andb_true_iff in Hc as [_ Hnf%Z.eqb_eq]. pose proof (sp_ok _ _ Hs) as Hok'. pose proof (sp_sender _ _ Hs) as Hsd. simpl in *.
    unfold sender in Hsd. rewrite Hp', Hfin in Hsd. destruct Hsd as (Hu & Ha & Hf & Hq & Hnx). unfold LIMIT in HL.
    assert (Hfw : in_width 32 fin) by (pose proof (ok_fin _ Hok') as Hw; by rewrite Hfin in Hw).
    split.
    - apply ok_set_nxt; [apply seq_width|done].
    - unfold sender, UNA, NXT, AVL in *. cbn. rewrite Hp', Hfin, off_add by lia. rewrite Hnf in Hu. split_and!; try done; lia.
    - apply all_honest_push; [apply Hs|]. intros e [= <-]. split; cbn; try apply Hok'; try done; try lia; try (by apply rcv_wnd_width).
      all: intros _; split; [done|lia]. }
  destruct (state t) eqn:Hst; try (by apply Hopen); try done; apply resend_syn_speaks; rewrite ?Hst; auto.
  - eexists. done.
  - eexists. split; [done|]. apply Hok.
Qed.

Lemma retransmit_speaks t a now st : speaks L (t, a) → Machine.retransmit t a now = Done st → speaks L st.
Proof.
  intros H Hr. pose proof (sp_ok _ _ H) as Hok. simpl in Hok. pose proof (retransmit_ok t a now Hok) as (st' & Hr' & Hok').
  rewrite Hr in Hr'. injection Hr' as <-. unfold Machine.retransmit in Hr.
  case_bool_decide as Hc; cbn [orb] in Hr; [by injection Hr as <-|].
  destruct (Tcb.awaiting_ack t) eqn:Haw; cbn [negb] in Hr; [|by injection Hr as <-].
  destruct (_ <=? _) eqn:Hlimit; [injection Hr as <-; by apply speaks_dead|]. apply outcome_bind_done in Hr as (r & Hadd & Hr).
  match type of Hr with (let '(_, _) := Machine.resend ?x _ in _) = _ => set (t1 := x) in Hr end.
  pose proof (sp_sender _ _ H) as Hs. cbn [fst] in Hs.
  assert (Hnl : phase (state t) ≠ PListen).
  { intros Hp. unfold sender in Hs. rewrite Hp in Hs. destruct Hs as (_ & _ & He & _).
    unfold Tcb.awaiting_ack in Haw. rewrite He, Z.eqb_refl in Haw. done. }
  assert (Hnd : phase (state t) ≠ PDead) by (by destruct (state t)).
  assert (H1 : tcb_ok t1).
  { apply ok_set_nxt; [apply Hok|]. apply ok_set_timing; [done|]. pose proof (ok_rto _ Hok) as Hrto.
    apply checked_done in Hadd as [-> Hw]. pose proof (ok_retransmits _ Hok). destruct Hok. split; simpl; try done.
    - unfold saturating_mul, MIN_RTO_US, MAX_RTO_US in *. lia.
    - unfold MAX_RETRANSMITS, MAX_SYNACK_RETRANSMITS in *. case_bool_decide; lia. }
  assert (Hsp : phase (state t) = POpen → speaks L (t1, a)).
  { intros Hp. split; [done| |apply H]. unfold sender in *. cbn in *. rewrite Hp in *. destruct Hs as (Hu & Ha & Hs).
    unfold UNA, NXT, AVL in *. cbn. split_and!; try lia. destruct (fin_seq t); [|lia]. destruct Hs as (? & ? & ?). split_and!; [done..|lia]. }
  assert (Hgo : speaks L (Machine.resend t1 a)).
  { destruct (decide (phase (state t) = POpen)) as [Hp|Hp].
    - apply resend_speaks; [by apply Hsp|done..].
    - assert (phase (state t) = PSent ∨ phase (state t) = PRcvd) as Hp' by (destruct (state t); simpl in *; auto; done).
      assert (Machine.resend t1 a = Machine.resend (set_snd_nxt t1 (snd_nxt t)) a) as ->.
      { unfold Machine.resend. change (state (set_snd_nxt t1 (snd_nxt t))) with (state t).
        change (state t1) with (state t). revert Hp'. destruct (state t); simpl; intros [?|?]; done. }
      apply resend_speaks; [|done..]. apply (speaks_same t); [done| |done].
      apply ok_set_nxt; [apply Hok|done]. }
  destruct (Machine.resend t1 a) as [t2 a2]. injection Hr as <-. by apply arm_retransmit_speaks.
Qed.

(** *** Arrivals *)
Lemma speaks_state t a s : phase s = phase (state t) → speaks L (t, a) → speaks L (set_state t s, a).
Proof.
  intros Hp [Hok Hs Hh]. split; [by apply ok_set_state| |done]. unfold sender in *. cbn in *. rewrite Hp. exact Hs.
Qed.

Lemma closed_arrival_speaks t a s : segment_ok s → speaks L (t, a) → speaks L (t, Machine.closed_arrival a s).
Proof.
  intros Hs H. unfold Machine.closed_arrival, Machine.reset_for. destruct (Flags.contains _ _); [done|].
  pose proof (so_ack _ Hs) as Ha. destruct (acknowledgement s) as [ack|]; apply speaks_quiet; try done. simpl. apply seq_width.
Qed.

Lemma speaks_learn t a s : segment_ok s → speaks L (t, a) → speaks L (Machine.learn_peer t s, a).
Proof. intros Hs H. apply (speaks_same t); [done| |done]. by apply learn_peer_ok; [|apply (sp_ok _ _ H)]. Qed.

Lemma listen_arrival_speaks t a s now :
  in_width 64 now → segment_ok s → state t = Listen → speaks L (t, a) → speaks L (Machine.listen_arrival t a s now).
Proof.
  intros Hn Hs Hst H. pose proof (listen_arrival_ok t a s now Hn Hs (sp_ok _ _ H)) as Hok. unfold Machine.listen_arrival in *.
  destruct (Flags.contains _ Flags.RST); [done|]. case_bool_decide; [by apply closed_arrival_speaks|].
  destruct (negb _); [done|]. pose proof (sp_ok _ _ (speaks_learn t a s Hs H)) as Hok1. cbn [fst] in Hok, Hok1.
  apply arm_retransmit_speaks. pose proof (sp_sender _ _ H) as Hsd. unfold sender in Hsd. cbn [fst] in Hsd. rewrite Hst in Hsd.
  destruct Hsd as (HL0 & Hu & _ & Hc). unfold LIMIT in HL. split; [exact Hok| |].
  - unfold sender. cbn [fst state Machine.start_timing set_timing set_snd_avail set_snd_nxt set_state phase].
    unfold UNA, NXT, AVL in *. cbn. rewrite off_add, off_self by (rewrite ?off_self; lia). split_and!; try done; try lia; apply Hc.
  - apply all_honest_push; [apply H|]. intros e [= <-]. split; cbn; try apply Hok1; try done.
    + by apply (rcv_wnd_width (Machine.learn_peer t s)).
    + intros _. by rewrite off_self.
Qed.

(** The acknowledgement of a [SYN] names the number behind it. *)
Lemma handshake_ack t ack :
  UNA t = 0 → 1 ≤ NXT t < 2 ^ 31 → Sequence.follows ack (iss t) = true → Sequence.follows ack (snd_nxt t) = false →
  1 ≤ off (iss t) ack ≤ NXT t.
Proof.
  intros Hu Hn Hf Hnf. unfold NXT in *. destruct (ack_between (iss t) (iss t) (snd_nxt t) ack); rewrite ?off_self in *; try done; lia.
Qed.

Lemma finish_timing_speaks t ack now a t' :
  in_width 64 now → Machine.finish_timing t ack now = Done t' → speaks L (t, a) → speaks L (t', a).
Proof.
  intros Hn Hf H. destruct (finish_timing_ok t ack now Hn (sp_ok _ _ H)) as (t2 & Hf2 & Hok). rewrite Hf in Hf2. injection Hf2 as <-.
  apply finish_timing_frame in Hf as (x & y & z & w & ->). by apply (speaks_same t).
Qed.

(** The handshake is over. *)
Lemma established_speaks t a ack :
  in_width 32 ack → speaks L (t, a) → phase (state t) = PSent ∨ phase (state t) = PRcvd →
  Sequence.follows ack (iss t) = true → Sequence.follows ack (snd_nxt t) = false →
  speaks L (set_state (set_snd_una t ack) Established, a).
Proof.
  intros Hw H Hp Hf Hnf. pose proof (sp_sender _ _ H) as Hs. cbn [fst] in Hs. unfold LIMIT in HL.
  assert (UNA t = 0 ∧ 1 ≤ NXT t ≤ 1 + L ∧ AVL t = 1 + L ∧ not_closing t) as (Hu & Hn & Ha & Hc1 & Hc2).
  { unfold sender in Hs. destruct Hp as [Hp|Hp]; rewrite Hp in Hs; [destruct Hs as (? & ? & ? & ?); split_and!; try done; lia|done]. }
  pose proof (handshake_ack t ack Hu ltac:(lia) Hf Hnf). split; [by apply ok_set_state, ok_set_una; [|apply (sp_ok _ _ H)]| |apply H].
  unfold sender. cbn [fst state set_state set_snd_una phase]. unfold UNA, NXT, AVL in *. cbn. rewrite Hc1. split_and!; lia.
Qed.

Lemma syn_sent_arrival_speaks t a s now st :
  in_width 64 now → segment_ok s → state t = SynSent → speaks L (t, a) →
  Machine.syn_sent_arrival t a s now = Done st → speaks L st.
Proof.
  intros Hn Hs Hst H Hr. pose proof (so_ack _ Hs) as Hak. unfold Machine.syn_sent_arrival in Hr.
  destruct (Machine.bad_syn_ack t (acknowledgement s)) eqn:Hbad.
  { injection Hr as <-. destruct (Flags.contains _ _); [done|]. apply speaks_quiet; try done.
    destruct (acknowledgement s); [done|]. simpl. apply zero_width. lia. }
  destruct (Flags.contains _ Flags.RST).
  { injection Hr as <-. case_bool_decide; [by apply speaks_dead|done]. }
  destruct (negb _); [by injection Hr as <-|]. pose proof (speaks_learn t a s Hs H) as H1.
  destruct (acknowledgement s) as [ack|].
  - unfold Machine.bad_syn_ack in Hbad. apply orb_false_iff in Hbad as [Hf%negb_false_iff Hnf].
    change (snd_una (set_snd_una (Machine.learn_peer t s) ack)) with ack in Hr.
    change (iss (set_snd_una (Machine.learn_peer t s) ack)) with (iss t) in Hr. rewrite Hf in Hr.
    apply outcome_bind_done in Hr as (t2 & Hft & Hr).
    assert (speaks L (set_state (set_snd_una (Machine.learn_peer t s) ack) Established, a)) as H2.
    { apply established_speaks; try done. left. cbn. by rewrite Hst. }
    apply (finish_timing_speaks _ _ _ a) in Hft; [|done|exact H2].
    apply ack_now_speaks in Hft. destruct (Machine.acknowledge_now t2 a) as [t3 a3]. injection Hr as <-.
    by apply send_what_we_can_speaks, arm_retransmit_speaks.
  - pose proof (sp_sender _ _ H) as Hsd. unfold sender in Hsd. cbn [fst] in Hsd. rewrite Hst in Hsd. destruct Hsd as (Hu & Hnx & Ha & Hc1 & Hc2).
    assert (Sequence.follows (snd_una (Machine.learn_peer t s)) (iss (Machine.learn_peer t s)) = false) as Hno.
    { cbn. unfold Sequence.follows. rewrite (precedes_off (iss t)), off_self. unfold UNA in Hu. by rewrite Hu. }
    rewrite Hno in Hr. injection Hr as <-. apply arm_retransmit_speaks. pose proof (sp_ok _ _ H1) as Hok. cbn [fst] in Hok.
    unfold LIMIT in HL. split.
    + apply ok_set_nxt; [apply seq_width|]. apply ok_set_nxt; [apply Hok|]. by apply ok_set_state.
    + unfold sender. cbn [fst state set_snd_nxt set_state phase]. unfold UNA, NXT, AVL in *. cbn.
      rewrite off_add, off_self by (rewrite ?off_self; lia). split_and!; try done; lia.
    + apply all_honest_push; [apply H|]. intros e [= <-]. split; cbn; try apply Hok; try done.
      * by apply (rcv_wnd_width (Machine.learn_peer t s)).
      * intros _. by rewrite off_self.
Qed.

Lemma enter_time_wait_speaks t a now : phase (state t) = POpen → speaks L (t, a) → speaks L (Machine.enter_time_wait t a now).
Proof. intros Hp H. apply speaks_other; [|done]. apply speaks_other; [|done]. by apply speaks_state. Qed.

Lemma advance_after_ack_speaks t a now : speaks L (t, a) → speaks L (Machine.advance_after_ack t a now).
Proof.
  intros H. unfold Machine.advance_after_ack. destruct (negb _); [done|]. destruct (state t) eqn:Hs; try done.
  - apply speaks_state; [by rewrite Hs|done].
  - apply enter_time_wait_speaks; [by rewrite Hs|done].
  - by apply speaks_dead.
Qed.

Lemma take_ack_speaks t a ack now st :
  in_width 64 now → in_width 32 ack → phase (state t) = POpen → speaks L (t, a) → Sequence.follows ack (snd_nxt t) = false →
  Machine.take_ack t a ack now = Done st → speaks L st.
Proof.
  intros Hn Hw Hp H Hnf Hr. unfold Machine.take_ack in Hr. destruct (Sequence.follows ack (snd_una t)) eqn:Hf; cbn [negb] in Hr; [|by injection Hr as <-].
  apply outcome_bind_done in Hr as (t2 & Hft & [= <-]). apply advance_after_ack_speaks, arm_retransmit_speaks.
  apply (finish_timing_speaks _ _ _ _ _ Hn Hft).
  match goal with |- speaks L (_, ?x) => set (a1 := x) end.
  assert (speaks L (t, a1)) as H1 by (subst a1; destruct (_ <? _); [by apply speaks_other|done]).
  destruct (flowing_bounds t ltac:(by right) (sp_sender _ _ H)) as (Ha & Hnx & Hun & _). unfold LIMIT in HL. unfold UNA, NXT in *.
  destruct (ack_between (iss t) (snd_una t) (snd_nxt t) ack) as [Hlo Hhi]; try done; [lia|].
  pose proof (sp_ok _ _ H) as Hok. cbn [fst] in Hok. split; [|clear Hft|apply H1].
  - apply ok_set_retransmits; [done|]. by apply ok_set_una.
  - pose proof (sp_sender _ _ H) as Hs. unfold sender in *. cbn [fst] in *. cbn. rewrite Hp in *. unfold UNA, NXT, AVL in *. cbn.
    destruct Hs as (? & ? & Hs). split_and!; try lia. destruct (fin_seq t); [|lia]. destruct Hs as (? & ? & ?). by split_and!.
Qed.

Lemma take_ack_phase t a ack now st :
  Machine.take_ack t a ack now = Done st → phase (state t) = POpen → phase (state st.1) = POpen ∨ phase (state st.1) = PDead.
Proof.
  unfold Machine.take_ack. intros H Hs. destruct (negb (Sequence.follows _ _)); [injection H as <-; by left|].
  apply outcome_bind_done in H as (t2 & (x & y & z & w & ->)%finish_timing_frame & [= <-]).
  unfold Machine.advance_after_ack. destruct (negb _); [by left|]. cbn. revert Hs.
  destruct (state t) eqn:E; cbn; rewrite ?E; auto; done.
Qed.

Lemma process_ack_speaks t a s ack now r :
  in_width 64 now → segment_ok s → in_width 32 ack → flowing t → speaks L (t, a) →
  Machine.process_ack t a s ack now = Done r →
  speaks L r.2 ∧ (r.1 = true → phase (state r.2.1) = POpen ∨ phase (state r.2.1) = PDead).
Proof.
  intros Hn Hs Hw Hf H Hr. unfold Machine.process_ack in Hr. destruct (Sequence.follows ack (snd_nxt t)) eqn:Hnf.
  { injection Hr as <-. split; [by apply ack_now_speaks|done]. }
  apply outcome_bind_done in Hr as (h & Hh & Hr). destruct h as [[t1 a1]|]; [|by injection Hr as <-].
  assert (speaks L (t1, a1) ∧ phase (state t1) = POpen ∧ Sequence.follows ack (snd_nxt t1) = false) as (H1 & Hp1 & Hnf1).
  { unfold Machine.complete_handshake in Hh. case_bool_decide as Hsr; cbn [negb] in Hh.
    - destruct (Sequence.follows ack (iss t)) eqn:Hfi; [|done]. apply outcome_bind_done in Hh as (t2 & Hft & [= <- <-]).
      assert (speaks L (set_snd_una (set_state t Established) ack, a)) as H2.
      { apply (speaks_same (set_state (set_snd_una t ack) Established)); [|by apply ok_set_una, ok_set_state; [|apply (sp_ok _ _ H)]|done].
        apply established_speaks; try done. right. by rewrite Hsr. }
      pose proof (finish_timing_speaks _ _ _ _ _ Hn Hft H2) as H3. apply finish_timing_frame in Hft as (x & y & z & w & ->).
      split_and!; [by apply arm_retransmit_speaks|done|done].
    - injection Hh as <- <-. split_and!; try done. destruct Hf as [Hf|]; [|done]. by destruct (state t). }
  apply outcome_bind_done in Hr as ([t2 a2] & Ht & [= <-]). pose proof (take_ack_phase _ _ _ _ _ Ht Hp1) as Hp2.
  apply take_ack_speaks in Ht; try done. cbn [snd fst]. split; [|done].
  assert (speaks L (set_snd_wnd t2 (window s), a2)) as H3.
  { apply (speaks_same t2); [done| |done]. apply ok_set_snd_wnd; [apply Hs|apply (sp_ok _ _ Ht)]. }
  destruct (_ && _); [by apply speaks_other|done].
Qed.

Lemma deliver_speaks t a s d st : speaks L (t, a) → Machine.deliver t a s = Done (d, st) → speaks L st ∧ state st.1 = state t.
Proof.
  intros H Hr. destruct (deliver_ok t a s (sp_ok _ _ H)) as (k & st' & Hr' & Hok & _). rewrite Hr in Hr'. injection Hr' as <- <-.
  unfold Machine.deliver in Hr. destruct (_ || _); [by injection Hr as <- <-|]. destruct (negb _); [by injection Hr as <- <-|].
  destruct (_ =? 0); [by injection Hr as <- <-|]. apply outcome_bind_done in Hr as (w & _ & [= <- <-]). split; [|done].
  apply speaks_other; [|done]. by apply (speaks_same t).
Qed.

Lemma take_segment_speaks t a s now st :
  in_width 64 now → phase (state t) = POpen ∨ phase (state t) = PDead → speaks L (t, a) →
  Machine.take_segment t a s now = Done st → speaks L st.
Proof.
  intros Hn Hp H Hr. unfold Machine.take_segment in Hr. apply outcome_bind_done in Hr as ([d [t1 a1]] & Hd & Hr).
  apply deliver_speaks in Hd as [H1 Hs1]; [|done]. cbn [fst] in Hs1.
  match type of Hr with (let '(_, _) := ?x in _) = _ => set (y := x) in Hr end.
  assert (speaks L y) as Hy.
  { subst y. pose proof (sp_ok _ _ H1) as Hok. cbn [fst] in Hok. destruct (_ && negb _).
    - assert (speaks L (set_rcv_nxt (set_fin_received t1 true) (Sequence.wrapping_add (rcv_nxt (set_fin_received t1 true)) 1), a1)) as H2.
      { apply (speaks_same t1); [done| |done]. apply ok_set_rcv_nxt; [apply seq_width|]. by apply ok_set_fin_received. }
      apply ack_now_speaks in H2. unfold Machine.peer_closed. unfold Machine.acknowledge_now in *.
      cbn [state set_since_ack set_rcv_nxt set_fin_received]. rewrite Hs1.
      assert (∀ s', phase s' = POpen → phase (state t) = POpen → phase s' = phase (state t1)) as Hph by (intros; congruence).
      destruct (state t) eqn:Hst; try exact H2.
      + destruct Hp; done.
      + apply speaks_state; [by apply Hph|exact H2].
      + apply speaks_state; [by apply Hph|exact H2].
      + apply enter_time_wait_speaks; [cbn; by rewrite Hs1|exact H2].
    - destruct (_ <? _); [|done]. pose proof (acknowledge_or_delay_ok t1 a1 now Hok) as Hok2. unfold Machine.acknowledge_or_delay in *.
      assert (speaks L (set_since_ack t1 (saturating_add 8 (since_ack t1) 1), a1)) as H2.
      { apply (speaks_same t1); [done| |done]. apply ok_set_since_ack; [|done]. pose proof (ok_since_ack _ Hok).
        unfold saturating_add, in_width in *. lia. }
      destruct (_ || _); [by apply ack_now_speaks|by apply speaks_other]. }
  destruct y as [t2 a2]. injection Hr as <-. by apply send_what_we_can_speaks.
Qed.

Lemma synchronised_arrival_speaks t a s now st :
  in_width 64 now → segment_ok s → flowing t → speaks L (t, a) →
  Machine.synchronised_arrival t a s now = Done st → speaks L st.
Proof.
  intros Hn Hs Hf H Hr. unfold Machine.synchronised_arrival in Hr. destruct (negb (Machine.acceptable t s)).
  { injection Hr as <-. destruct (Flags.contains _ _); [done|]. destruct (Sequence.precedes _ _); [by apply ack_now_speaks|done]. }
  destruct (Flags.contains _ Flags.RST); [injection Hr as <-; by apply speaks_dead|].
  destruct (_ && negb _); [injection Hr as <-; by apply abort_speaks|].
  pose proof (so_ack _ Hs) as Ha. destruct (acknowledgement s) as [ack|]; [|by injection Hr as <-].
  apply outcome_bind_done in Hr as ([c [t1 a1]] & Hp & Hr). apply process_ack_speaks in Hp as [H1 Hp1]; try done. cbn [fst snd] in *.
  destruct c; cbn [negb] in Hr; [|by injection Hr as <-]. apply take_segment_speaks in Hr; auto.
Qed.
End Sender.

(** *** Whole steps *)
Lemma said_nothing base L q : all_honest base L q Actions.new.
Proof. intros e He. by apply elem_of_nil in He. Qed.

Lemma step_speaks L t e now st :
  0 ≤ L < LIMIT → in_width 64 now → event_ok e → speaks L (t, Actions.new) →
  match e with EConnect _ _ | EListen _ _ | EWrote _ => False | EShutdown => state t ≠ SynReceived | _ => True end →
  Machine.step t e now = Done st → speaks L st.
Proof.
  intros HL Hn He H Hg Hr. destruct e as [| | |n| | |s|timer]; cbn [Machine.step event_ok] in *; try done; try injection Hr as <-.
  - by apply reopen_window_speaks.
  - by apply shutdown_speaks.
  - by apply abort_speaks.
  - unfold Machine.arrived in Hr. destruct (state t) eqn:Hs;
      try (eapply synchronised_arrival_speaks; [exact HL| | | |exact H|exact Hr]; try done; unfold flowing; rewrite Hs; auto).
    + injection Hr as <-. by apply closed_arrival_speaks.
    + injection Hr as <-. by apply listen_arrival_speaks.
    + by eapply syn_sent_arrival_speaks.
  - destruct timer; cbn [Machine.expired] in Hr; try injection Hr as <-.
    + by eapply retransmit_speaks.
    + case_bool_decide; [done|by apply ack_now_speaks].
    + by apply probe_speaks.
    + case_bool_decide; [by apply speaks_dead|done].
Qed.

Lemma wrote_speaks L n t now st :
  0 ≤ L → 0 ≤ n → L + n < LIMIT → in_width 64 now → speaks L (t, Actions.new) → fin_queued t = false →
  phase (state t) = PSent ∨ flowing t → Machine.step t (EWrote n) now = Done st → speaks (L + n) st.
Proof.
  intros HL Hn0 Hlim Hn H Hq Hp [= <-]. apply send_what_we_can_speaks; [lia|done|]. destruct H as [Hok Hs Hh]. cbn [fst snd] in *.
  split; [apply ok_set_avail; [apply seq_width|done]| |apply said_nothing]. unfold sender in *. unfold LIMIT in *.
  assert (AVL t = 1 + L → off (iss t) (Sequence.wrapping_add (snd_avail t) n) = 1 + (L + n)) as Ha.
  { unfold AVL. intros E. rewrite off_add by lia. lia. }
  unfold UNA, NXT, AVL, not_closing in *. cbn. destruct Hp as [Hp|[Hp|Hp]]; rewrite Hp in *.
  - destruct Hs as (? & ? & ? & ? & ?). split_and!; try done; lia.
  - destruct Hs as (? & ? & ? & ? & ?). split_and!; try done; lia.
  - destruct Hs as (? & ? & Hs). split_and!; try lia.
    destruct (fin_seq t); [|lia]. destruct Hs as (_ & Hq' & _). congruence.
Qed.

Lemma open_speaks t i w p now :
  in_width 32 i → in_width 16 w → in_width 64 now → tcb_ok t → fresh t = true →
  speaks 0 (Machine.open t Actions.new i w p now).
Proof.
  intros Hi Hw Hn Hok Hf. unfold fresh in Hf. rewrite !andb_true_iff, !bool_decide_eq_true, !negb_true_iff in Hf.
  destruct Hf as [[[[Hc _] Hfs] Hfq] _]. pose proof (open_ok t Actions.new i w p now Hi Hw Hn Hok) as Hok'. unfold Machine.open in *.
  rewrite bool_decide_true in * by done. cbn [negb] in *. destruct p.
  - split; [exact Hok'| |apply said_nothing]. unfold sender, UNA, not_closing. cbn. by rewrite off_self.
  - apply arm_retransmit_speaks. split; [exact Hok'| |].
    + unfold sender, UNA, NXT, AVL, not_closing. cbn. rewrite off_add, off_self by (rewrite ?off_self; lia). done.
    + apply all_honest_push; [apply said_nothing|]. intros e [= <-]. split; cbn; try done; [apply Hok|]. intros _. by rewrite off_self.
Qed.

