(* ===== verification/TcpStream.v ===== *)
(** * Streams over a network that loses, repeats and reorders

    Two connection machines and the segments each has sent.  The service around a
    machine (the [perform] of src/user/tcpd/src/main.rs) turns an [Emit] into a
    segment by reading the program's stream at the sequence number it names; the
    network may deliver any segment that was ever sent, any number of times, in any
    order, or never.  The theorem is that each program is handed a prefix of what
    the other wrote, and all of it once the other's close has been accepted. *)
From stdpp Require Import prelude numbers list.
From S2P Require Import Prelude Segment Tcp TcpStep TcpDiagram TcpSend.
Open Scope Z_scope.
Set Warnings "-clear-no-such-hyp".

(** ** Two programs, their machines and what is on the wire *)

(** One end: its machine, what its program wrote and was handed, and every
    segment it has sent. *)
Record Peer : Type := MkPeer {
  machine : Tcb;
  written : list Z;
  received : list Z;
  sent : list Segment
}.

(** The bytes an [Emit] names: byte [k] of the stream carries the sequence number
    [iss + 1 + k]. An [Emit] of no bytes reads nothing, whatever its number. *)
Definition fetch (t : Tcb) (stream : list Z) (e : Emit) : list Z :=
  let offset := wrapping_sub 32 (esequence e) (Sequence.wrapping_add (iss t) 1) in
  if elength e =? 0 then [] else take (Z.to_nat (elength e)) (drop (Z.to_nat offset) stream).

Definition emits (actions : list Action) : list Emit :=
  omap (fun x => match x with AEmit e => Some e | _ => None end) actions.
(** Performs what a step asked for. *)
Definition perform (me : Peer) (t : Tcb) (actions : list Action) (stream arrived : list Z) : Peer :=
  MkPeer t stream (received me ++ take (delivered actions) arrived)
    (sent me ++ ((fun e => segment_of e (connection t) (fetch t stream e)) <$> emits actions)).

(** What a program, a clock or the network can do to one end. *)
Inductive Op : Type :=
| OConnect (iss window : Z)
| OListen (iss window : Z)
| OWrote (bytes : list Z)
| ORead (n : Z)
| OShutdown
| OAbort
| OExpired (timer : Timer)
| OArrived (index : nat).

(** What the programs are taken to do: a control block is opened once; a program writes
    while its connection is opening or open, not while it listens and not after its own
    shutdown, and less than [LIMIT] bytes in all; and it does not shut down in
    SYN-RECEIVED.  The service does not hold programs to this, it hands every SEND and
    SHUTDOWN on to the machine (user/tcpd/src/main.rs), so this is a condition on them. *)
Definition permitted (me : Peer) (op : Op) : bool :=
  let t := machine me in
  match op with
  | OConnect i w | OListen i w =>
      fresh t && bool_decide (in_width 32 i) && bool_decide (in_width 16 w) && bool_decide (written me = []) && bool_decide (received me = [])
      && bool_decide (sent me = [])
  | OWrote bytes =>
      (can_send (state t) || bool_decide (state t = SynSent) || bool_decide (state t = SynReceived))
      && negb (fin_queued t) && (Z.of_nat (length (written me) + length bytes) <? LIMIT)
  | ORead n => bool_decide (in_width 32 n)
  | OShutdown => negb (bool_decide (state t = SynReceived))
  | _ => true
  end.

Definition act (me other : Peer) (op : Op) (now : Z) : option Peer :=
  if permitted me op && bool_decide (in_width 64 now) then
    let drive event stream arrived :=
      match Machine.step (machine me) event now with
      | Done (t, a) => Some (perform me t (Actions.iter a) stream arrived)
      | _ => None
      end in
    match op with
    | OConnect i w => drive (EConnect i w) (written me) []
    | OListen i w => drive (EListen i w) (written me) []
    | OWrote bytes => drive (EWrote (Z.of_nat (length bytes))) (written me ++ bytes) []
    | ORead n => drive (ERead n) (written me) []
    | OShutdown => drive EShutdown (written me) []
    | OAbort => drive EAbort (written me) []
    | OExpired timer => drive (EExpired timer) (written me) []
    | OArrived index =>
        match sent other !! index with
        | Some segment => drive (EArrived segment) (written me) (payload segment)
        | None => None
        end
    end
  else None.

(** A run: which end, what happens there, and when. *)
Fixpoint run (left right : Peer) (ops : list (bool * Op * Z)) : option (Peer * Peer) :=
  match ops with
  | [] => Some (left, right)
  | (true, op, now) :: ops' => left' ← act left right op now; run left' right ops'
  | (false, op, now) :: ops' => right' ← act right left op now; run left right' ops'
  end.

Definition start (c : FourTuple) : Peer := MkPeer (Tcb.new c) [] [] [].

(** The other end's close has been accepted. *)
Definition heard (s : State) : bool :=
  match s with CloseWait | Closing | LastAck | TimeWait => true | _ => false end.

(** ** The receiving side *)

(** A segment the other end, with initial number [base], sent when its program
    had written [W], having closed if [q]. *)
Record genuine (base : Z) (W : list Z) (q : bool) (s : Segment) : Prop := {
  g_ok : segment_ok s;
  g_syn : Flags.contains (flags s) Flags.SYN = true → off base (sequence s) = 0 ∧ payload s = [];
  g_data : payload s ≠ [] → 1 ≤ off base (sequence s) ∧
    payload s = take (length (payload s)) (drop (Z.to_nat (off base (sequence s) - 1)) W);
  g_fin : Flags.contains (flags s) Flags.FIN = true → q = true ∧ off base (sequence s) + Z.of_nat (length (payload s)) = 1 + Z.of_nat (length W)
}.

Lemma genuine_mono base W W' q q' s :
  W `prefix_of` W' → (q = true → W' = W) → (q = true → q' = true) → genuine base W q s → genuine base W' q' s.
Proof.
  intros [k ->] Hq Hq' []. split; try done.
  - intros Hp. destruct (g_data0 Hp) as [H1 H2]. split; [done|]. rewrite H2 at 1.
    assert (length (payload s) ≤ length (drop (Z.to_nat (off base (sequence s) - 1)) W))%nat as Hl.
    { rewrite H2 at 1. rewrite length_take. lia. }
    rewrite length_drop in Hl. destruct (payload s) as [|b l] eqn:E; [done|]. rewrite <- E in *.
    assert (0 < length (payload s))%nat by (rewrite E; simpl; lia).
    rewrite drop_app_le by lia. rewrite take_app_le by (rewrite length_drop; lia). done.
  - intros Hf. destruct (g_fin0 Hf) as [H1 H2]. rewrite Hq by done. auto.
Qed.

(** An honest [Emit], around the bytes it names, is genuine. *)
Lemma emitted_genuine t L W q e :
  honest (iss t) L q e → L = Z.of_nat (length W) → L < LIMIT → genuine (iss t) W q (segment_of e (connection t) (fetch t W e)).
Proof.
  intros [Hseq Hack Hwin Hmss Hel Hsyn Hdata Hfin] -> Hlim. unfold LIMIT in Hlim. assert (Hlen : length (fetch t W e) = Z.to_nat (elength e) ∧
    (0 < elength e → fetch t W e = take (Z.to_nat (elength e)) (drop (Z.to_nat (off (iss t) (esequence e) - 1)) W))).
  { unfold fetch. destruct (decide (0 < elength e)) as [Hp|Hz].
    - destruct (Hdata Hp) as [H1 H2]. assert (Ho : off (iss t) (Sequence.wrapping_add (iss t) 1) = 1) by (rewrite off_add, off_self; rewrite ?off_self; lia).
      replace (elength e =? 0) with false by lia. rewrite (sub_off (iss t)) by lia. rewrite Ho. split; [|done]. rewrite length_take, length_drop. lia.
    - replace (elength e) with 0 by lia. split; [done|lia]. }
  destruct Hlen as [Hlen Hf]. split; cbn.
  - by split.
  - intros Hs. destruct (Hsyn Hs) as [H1 H2]. split; [done|]. apply nil_length_inv. rewrite Hlen, H2. done.
  - intros Hp. assert (0 < elength e) as He.
    { destruct (decide (0 < elength e)); [done|]. destruct Hp. apply nil_length_inv. rewrite Hlen. lia. }
    split; [by apply Hdata|]. rewrite Hlen. by apply Hf.
  - intros Hx. destruct (Hfin Hx) as [H1 H2]. split; [done|]. rewrite Hlen. lia.
Qed.

(** What a machine has heard, when [got] has been handed to its program. *)
Definition hearing (base : Z) (W : list Z) (q : bool) (got : list Z) (t : Tcb) : Prop :=
  got `prefix_of` W ∧
  match phase (state t) with
  | PDead => True
  | PListen | PSent => got = [] ∧ fin_received t = false
  | PRcvd | POpen =>
      fin_received t = heard (state t) ∧
      off base (rcv_nxt t) = 1 + Z.of_nat (length got) + (if heard (state t) then 1 else 0) ∧
      (heard (state t) = true → got = W ∧ q = true)
  end.

(** A connection keeps its initial number, and a close is not taken back.
    Then the fields the receiving side depends on; the state moves without hearing a
    close, or the connection is over. *)
Definition synced (s : State) : bool := bool_decide (phase s = PRcvd) || bool_decide (phase s = POpen).
Definition named (t t' : Tcb) : Prop := iss t' = iss t ∧ (fin_queued t = true → fin_queued t' = true).
Definition same_hearing (t t' : Tcb) : Prop :=
  named t t' ∧ rcv_nxt t' = rcv_nxt t ∧ fin_received t' = fin_received t ∧
  (state t' = Closed ∨ state t' = state t ∨ (synced (state t) = true ∧ synced (state t') = true ∧ heard (state t') = heard (state t))).

#[global] Instance named_preorder : PreOrder named.
Proof.
  split; [done|]. intros t1 t2 t3 [E1 E2] [F1 F2]. split; [congruence|auto].
Qed.

#[global] Instance same_hearing_preorder : PreOrder same_hearing.
Proof.
  split.
  - intros t. unfold same_hearing. split_and!; auto. done.
  - intros t1 t2 t3 (E0 & E1 & E2 & E3) (F0 & F1 & F2 & F3). unfold same_hearing. split_and!; [by etransitivity|congruence..|].
    destruct F3 as [F3|[F3|(F3 & F4 & F5)]]; [by left| |].
    + destruct E3 as [E3|[E3|(E3 & E4 & E5)]]; [left; congruence|right; left; congruence|right; right; by rewrite F3].
    + destruct E3 as [E3|[E3|(E3 & E4 & E5)]]; [by rewrite E3 in F3|right; right; by rewrite <- E3|right; right; by rewrite <- E5].
Qed.

Lemma hearing_same base W q got t t' : hearing base W q got t → same_hearing t t' → hearing base W q got t'.
Proof.
  intros [Hp H] (_ & E1 & E2 & E3). split; [done|]. destruct E3 as [-> |[-> |(E3 & E4 & E5)]]; [done|by rewrite E1, E2|].
  rewrite E1, E2, E5. unfold synced in *. destruct (phase (state t)), (phase (state t')); done.
Qed.

Lemma unheard t t' : named t t' → state t' = state t → rcv_nxt t' = rcv_nxt t → fin_received t' = fin_received t → same_hearing t t'.
Proof. intros. unfold same_hearing. by split_and!; auto. Qed.

Lemma over_hearing t : same_hearing t (set_state t Closed).
Proof. unfold same_hearing, named. by split_and!; auto. Qed.

Lemma moved_hearing t s : synced (state t) = true → synced s = true → heard s = heard (state t) → same_hearing t (set_state t s).
Proof. intros. unfold same_hearing. split_and!; [done..|]. right; right. by split_and!. Qed.

Lemma advance_close_hearing t : same_hearing t (Machine.advance_close_state t).
Proof.
  unfold Machine.advance_close_state. destruct (state t) eqn:Hs; try (by apply unheard); by apply moved_hearing; rewrite ?Hs.
Qed.

Lemma send_segment_hearing t a r : same_hearing t (Machine.send_segment t a r).2.1.
Proof.
  unfold Machine.send_segment. destruct (_ && negb _); [done|]. cbn [snd fst]. destruct (fin_queued t && _ && _ && _); [|by apply unheard].
  etransitivity; [|apply advance_close_hearing]. by apply unheard.
Qed.

Lemma send_loop_hearing n any t a : same_hearing t (Machine.send_loop n any t a).2.1.
Proof.
  revert any t a. induction n as [|n IH]; intros any t a; [done|]. cbn [Machine.send_loop]. pose proof (send_segment_hearing t a false) as Hs.
  destruct (Machine.send_segment t a false) as [[] [t' a']]; [|done]. etransitivity; [exact Hs|apply IH].
Qed.

Lemma send_what_we_can_hearing t a now : same_hearing t (Machine.send_what_we_can t a now).1.
Proof.
  unfold Machine.send_what_we_can. destruct (_ && _); [done|]. pose proof (send_loop_hearing 2 false t a) as Hs.
  destruct (Machine.send_loop 2 false t a) as [any [t' a']]. destruct any; [|done]. cbn [fst]. case_bool_decide; [|done].
  etransitivity; [exact Hs|]. by apply unheard.
Qed.

Lemma resend_hearing t a : same_hearing t (Machine.resend t a).1.
Proof.
  unfold Machine.resend. pose proof (send_segment_hearing t a true) as Hs. destruct (Machine.send_segment t a true) as [any [t' a']].
  destruct (state t); try (by apply unheard);
    (destruct (fin_seq t'); [destruct (_ && _)|]; cbn [fst]; [|done..]; etransitivity; [exact Hs|by apply unheard]).
Qed.

Lemma abort_hearing t a : same_hearing t (Machine.abort t a).1.
Proof. unfold Machine.abort. destruct (_ || _); apply over_hearing. Qed.

(** No event but a segment, or opening, changes what has been heard. *)
Lemma local_hearing t e now st :
  match e with EConnect _ _ | EListen _ _ | EArrived _ => False | _ => True end →
  Machine.step t e now = Done st → same_hearing t st.1.
Proof.
  intros Hg H. destruct e as [| | |n| | | |timer]; cbn [Machine.step] in H; try done; try injection H as <-.
  - etransitivity; [|apply send_what_we_can_hearing]. by apply unheard.
  - unfold Machine.reopen_window. destruct (_ && _); by apply unheard.
  - unfold Machine.shutdown. destruct (state t); try done; try apply over_hearing;
      (etransitivity; [|apply send_what_we_can_hearing]; by apply unheard).
  - apply abort_hearing.
  - destruct timer; cbn [Machine.expired] in H; try injection H as <-.
    + unfold Machine.retransmit in H. destruct (_ || _); [by injection H as <-|]. destruct (_ <=? _); [injection H as <-; apply over_hearing|].
      apply outcome_bind_done in H as (r & _ & H).
      match type of H with (let '(_, _) := Machine.resend ?x _ in _) = _ => set (t1 := x) in H end.
      pose proof (resend_hearing t1 Actions.new) as Hr. destruct (Machine.resend t1 Actions.new) as [t2 a2]. injection H as <-.
      etransitivity; [|exact Hr]. by apply unheard.
    + case_bool_decide; [done|by apply unheard].
    + unfold Machine.probe. destruct (_ || _); by apply unheard.
    + case_bool_decide; [apply over_hearing|done].
Qed.

Lemma finish_timing_hearing t ack now t' : Machine.finish_timing t ack now = Done t' → same_hearing t t'.
Proof. intros (x & y & z & w & ->)%finish_timing_frame. by apply unheard. Qed.

Lemma take_ack_hearing t a ack now st : Machine.take_ack t a ack now = Done st → same_hearing t st.1.
Proof.
  unfold Machine.take_ack. intros H. destruct (negb (Sequence.follows _ _)); [by injection H as <-|].
  apply outcome_bind_done in H as (t2 & Hf%finish_timing_hearing & [= <-]). transitivity t2.
  { etransitivity; [|exact Hf]. by apply unheard. }
  unfold Machine.advance_after_ack. destruct (negb _); [done|]. destruct (state t2) eqn:Hs; try done; try apply over_hearing;
    apply moved_hearing; by rewrite ?Hs.
Qed.

Lemma process_ack_hearing t a s ack now r :
  Machine.process_ack t a s ack now = Done r → same_hearing t r.2.1 ∧ (r.1 = true → phase (state t) = PRcvd ∨ phase (state t) = POpen →
    phase (state r.2.1) = POpen ∨ phase (state r.2.1) = PDead).
Proof.
  unfold Machine.process_ack. intros H. destruct (Sequence.follows _ _); [injection H as <-; split; [by apply unheard|done]|].
  apply outcome_bind_done in H as (h & Hh & H). destruct h as [[t1 a1]|]; [|by injection H as <-].
  assert (same_hearing t t1 ∧ (phase (state t) = PRcvd ∨ phase (state t) = POpen → phase (state t1) = POpen)) as [H1 Hp1].
  { unfold Machine.complete_handshake in Hh. case_bool_decide as Hs; cbn [negb] in Hh.
    - destruct (Sequence.follows _ _); [|done]. apply outcome_bind_done in Hh as (t2 & Hf & [= <- <-]).
      pose proof (finish_timing_hearing _ _ _ _ Hf) as H2. apply finish_timing_frame in Hf as (x & y & z & w & ->). split; [|done].
      etransitivity; [|exact H2]. apply moved_hearing; by rewrite ?Hs.
    - injection Hh as <- <-. split; [done|]. intros [Hp|Hp]; [|done]. by destruct (state t). }
  apply outcome_bind_done in H as ([t2 a2] & Ht & [= <-]). pose proof (take_ack_hearing _ _ _ _ _ Ht) as H2. cbn [fst snd] in *.
  split; [etransitivity; [exact H1|]; etransitivity; [exact H2|by apply unheard]|].
  intros _ Hp. apply (take_ack_phase _ _ _ _ _ Ht). auto.
Qed.

(** *** Arrivals *)
Section Arrivals.
Context (base : Z) (W : list Z) (q : bool) (HW : Z.of_nat (length W) < LIMIT).
Context (s : Segment) (Hs : genuine base W q s).

(** What is taken of a segment is what comes next in the stream. *)
Lemma deliver_hearing got t a d st :
  tcb_ok t → hearing base W q got t → phase (state t) = POpen ∨ phase (state t) = PDead →
  Machine.deliver t a s = Done (d, st) →
  0 ≤ d ∧ hearing base W q (got ++ take (Z.to_nat d) (payload s)) st.1 ∧ state st.1 = state t ∧ fin_received st.1 = fin_received t.
Proof.
  intros Hok [Hp Hh] Hph H. unfold Machine.deliver in H.
  assert (Hnone : d = 0 → st = (t, a) → 0 ≤ d ∧ hearing base W q (got ++ take (Z.to_nat d) (payload s)) st.1 ∧ state st.1 = state t ∧ fin_received st.1 = fin_received t).
  { intros -> ->. rewrite app_nil_r. by split_and!. }
  destruct (negb (can_receive (state t)) || _) eqn:Hc; [injection H as <- <-; by apply Hnone|].
  rewrite orb_false_iff, negb_false_iff, bool_decide_eq_false in Hc. destruct Hc as [Hc Hne].
  destruct (sequence s =? rcv_nxt t) eqn:Hq; cbn [negb] in H; [|injection H as <- <-; by apply Hnone]. apply Z.eqb_eq in Hq.
  set (len := if Z.of_nat (length (payload s)) <? 2 ^ 16 then Z.of_nat (length (payload s)) else 2 ^ 16 - 1) in H.
  assert (0 ≤ len ≤ Z.of_nat (length (payload s))) by (subst len; destruct (_ <? _) eqn:?; lia).
  pose proof (ok_rcv_wnd _ Hok). destruct (_ =? 0) eqn:Hz; [injection H as <- <-; by apply Hnone|].
  apply outcome_bind_done in H as (w & _ & [= <- <-]). clear Hnone. set (d := Z.min len (rcv_wnd t)) in *.
  assert (phase (state t) = POpen ∧ heard (state t) = false) as [Ho Hhd] by (by destruct (state t)).
  rewrite Ho, Hhd in Hh. destruct Hh as (Hf & Ho1 & _). destruct (g_data _ _ _ _ Hs Hne) as [_ Hpay].
  rewrite Hq, Ho1 in Hpay. replace (Z.to_nat (1 + Z.of_nat (length got) + 0 - 1)) with (length got) in Hpay by lia.
  destruct Hp as [rest HWr]. rewrite HWr, drop_app_length in Hpay. rewrite HWr, length_app in HW. unfold LIMIT in HW.
  assert (Hd : take (Z.to_nat d) (payload s) = take (Z.to_nat d) rest) by (rewrite Hpay, take_take; f_equal; lia).
  assert (Hle : (length (payload s) ≤ length rest)%nat) by (rewrite Hpay, length_take; lia).
  split_and!; [lia| |done|done]. cbn [fst]. split.
  - rewrite Hd, HWr. apply prefix_app. apply prefix_take.
  - cbn. rewrite Ho, Hhd. split_and!; [by rewrite Hf| |done]. rewrite off_add by lia. rewrite Ho1, length_app, length_take. lia.
Qed.

(** A close is accepted only behind the whole stream. *)
Lemma fin_hearing got t a now :
  hearing base W q got t → phase (state t) = POpen ∨ phase (state t) = PDead → fin_received t = false →
  Flags.contains (flags s) Flags.FIN = true → Sequence.wrapping_add (sequence s) (Z.of_nat (length (payload s))) = rcv_nxt t →
  hearing base W q got (Machine.peer_closed (set_rcv_nxt (set_fin_received t true) (Sequence.wrapping_add (rcv_nxt t) 1)) a now).1.
Proof.
  intros [Hp Hh] Hph Hnf Hfin Hq. destruct (g_fin _ _ _ _ Hs Hfin) as [Hqq Hend]. unfold LIMIT in HW. split; [done|].
  unfold Machine.peer_closed. cbn [Machine.acknowledge_now state set_since_ack set_rcv_nxt set_fin_received].
  destruct Hph as [Ho|Hd]; [|destruct (state t) eqn:E; try discriminate Hd; cbn; by rewrite E].
  rewrite Ho in Hh. destruct Hh as (Hf & Ho1 & _). rewrite Hnf in Hf. rewrite <- Hf in Ho1.
  assert (Hgot : got = W).
  { destruct Hp as [rest ->]. rewrite length_app in *. destruct rest as [|x rest]; [by rewrite app_nil_r|]. simpl in *.
    rewrite <- Hq, off_add in Ho1 by lia. lia. }
  assert (Hnew : ∀ s', phase s' = POpen → heard s' = true →
    true = heard s' ∧ off base (Sequence.wrapping_add (rcv_nxt t) 1) = 1 + Z.of_nat (length got) + (if heard s' then 1 else 0) ∧
    (heard s' = true → got = W ∧ q = true)).
  { intros s' _ Hh'. rewrite Hh'. split_and!; try done. rewrite off_add by (rewrite Hgot in Ho1; lia). lia. }
  destruct (state t) eqn:Hst; try discriminate Ho; try discriminate Hf; cbn;
    [by apply (Hnew CloseWait)|by apply (Hnew Closing)|by apply (Hnew TimeWait)].
Qed.

Lemma take_segment_hearing got t a d st1 now st :
  tcb_ok t → hearing base W q got t → phase (state t) = POpen ∨ phase (state t) = PDead →
  Machine.deliver t a s = Done (d, st1) → Machine.take_segment t a s now = Done st →
  hearing base W q (got ++ take (Z.to_nat d) (payload s)) st.1.
Proof.
  intros Hok Hh Hph Hd H. unfold Machine.take_segment in H. rewrite Hd in H. cbn [mbind outcome_bind] in H.
  destruct (deliver_hearing got t a d st1 Hok Hh Hph Hd) as (Hd0 & Hh1 & Hs1 & Hf1). destruct st1 as [t1 a1]. cbn [fst] in *.
  match type of H with (let '(_, _) := ?x in _) = _ => set (y := x) in H end.
  assert (hearing base W q (got ++ take (Z.to_nat d) (payload s)) y.1) as Hy.
  { subst y. destruct (_ && negb _) eqn:Hfin.
    - rewrite !andb_true_iff, negb_true_iff in Hfin. destruct Hfin as [[[Hc Hl%Z.eqb_eq] Hq%Z.eqb_eq] Hnf]. subst d.
      change (rcv_nxt (set_fin_received t1 true)) with (rcv_nxt t1). apply fin_hearing; try done. by rewrite Hs1.
    - destruct (_ <? _); [|done]. eapply hearing_same; [exact Hh1|]. unfold Machine.acknowledge_or_delay. destruct (_ || _); by apply unheard. }
  destruct y as [t2 a2]. injection H as <-. eapply hearing_same; [exact Hy|apply send_what_we_can_hearing].
Qed.

Lemma synchronised_hearing got t now st :
  tcb_ok t → in_width 64 now → flowing t → hearing base W q got t → Machine.synchronised_arrival t Actions.new s now = Done st →
  hearing base W q (got ++ take (delivered (Actions.iter st.2)) (payload s)) st.1.
Proof.
  intros Hok Hn Hfl Hh H. pose proof (trail_start true (EArrived s) t (fun _ => eq_refl)) as H0. assert (Hc : state t ≠ Closed) by (intros E; destruct Hfl; by rewrite E in *).
  assert (Hnil : ∀ k st', trail true (EArrived s) (state t, 0%nat) k st' → same_hearing t st'.1 →
    hearing base W q (got ++ take (delivered (Actions.iter st'.2)) (payload s)) st'.1).
  { intros k st' Ht Hsm. rewrite (tr_delivered _ _ _ _ _ Ht). cbn. rewrite app_nil_r. by eapply hearing_same. }
  unfold Machine.synchronised_arrival in H. destruct (negb (Machine.acceptable t s)).
  { injection H as <-. destruct (Flags.contains _ _); [by eapply Hnil|]. destruct (Sequence.precedes _ _); [|by eapply Hnil].
    eapply Hnil; [apply (ack_now_trail _ _ _ 0); [done|lia..]|by apply unheard]. }
  destruct (Flags.contains _ Flags.RST) eqn:Hrst; [injection H as <-; eapply Hnil; [apply (trail_end _ _ _ 0); [constructor; [done|by left]|done|done|lia]|apply over_hearing]|].
  destruct (_ && negb _) eqn:Hsyn.
  { injection H as <-. apply andb_true_iff in Hsyn as [Hsyn _]. eapply Hnil; [apply (abort_trail _ _ _ 0); [intros x Hx; constructor; [done|by right]|done|lia|done]|apply abort_hearing]. }
  pose proof (so_ack _ (g_ok _ _ _ _ Hs)) as Hak. destruct (acknowledgement s) as [ack|] eqn:Hsa; [|injection H as <-; by eapply Hnil].
  assert (Hack : acking (EArrived s)) by (exists s; by rewrite Hsa).
  apply outcome_bind_done in H as ([c [t1 a1]] & Hp & H).
  destruct (process_ack_ok t Actions.new s ack now Hn (g_ok _ _ _ _ Hs) Hak Hok) as (r & Hr & Hok1). rewrite Hp in Hr. injection Hr as <-.
  pose proof (process_ack_hearing _ _ _ _ _ _ Hp) as [Hsm Hph]. apply (process_ack_trail true (EArrived s) (state t, 0%nat) 0) in Hp as [Hp Hnr]; [|done|done|lia].
  cbn [fst snd] in *. destruct c; cbn [negb] in H; [|injection H as <-; by eapply Hnil].
  destruct (take_segment_trail true (EArrived s) (state t) 2 t1 a1 s now st eq_refl H Hp ltac:(lia) (Hnr eq_refl)) as (d & st1 & Hd & Ht).
  rewrite (tr_delivered _ _ _ _ _ Ht). cbn [snd]. eapply take_segment_hearing; [exact Hok1|by eapply hearing_same| |exact Hd|exact H].
  by apply Hph.
Qed.

(** A [SYN] starts the stream. *)
Lemma learn_hearing t s' :
  hearing base W q [] t → fin_received t = false → Flags.contains (flags s) Flags.SYN = true → synced s' = true → heard s' = false →
  hearing base W q [] (set_state (Machine.learn_peer t s) s').
Proof.
  intros [Hp _] Hf Hsyn Hs1 Hs2. destruct (g_syn _ _ _ _ Hs Hsyn) as [Ho _]. split; [done|]. cbn.
  assert (fin_received t = heard s' ∧ off base (Sequence.wrapping_add (sequence s) 1) = 1 + 0 + (if heard s' then 1 else 0) ∧
    (heard s' = true → [] = W ∧ q = true)) as H.
  { rewrite Hs2, Hf. split_and!; try done. rewrite off_add by lia. lia. }
  unfold synced in Hs1. destruct (phase s'); try done; apply H.
Qed.

Lemma listen_hearing got t now :
  state t = Listen → hearing base W q got t →
  hearing base W q (got ++ take (delivered (Actions.iter (Machine.listen_arrival t Actions.new s now).2)) (payload s))
    (Machine.listen_arrival t Actions.new s now).1.
Proof.
  intros Hst Hh. rewrite (tr_delivered _ _ _ _ _ (listen_trail true (EArrived s) t s now eq_refl (fun _ => eq_refl) Hst)). cbn [snd take]. rewrite app_nil_r.
  assert (got = [] ∧ fin_received t = false) as [-> Hf] by (destruct Hh as [_ Hh]; by rewrite Hst in Hh).
  unfold Machine.listen_arrival. destruct (Flags.contains _ Flags.RST); [done|]. case_bool_decide; [done|].
  destruct (Flags.contains _ Flags.SYN) eqn:Hsyn; cbn [negb]; [|done]. cbn [fst].
  eapply hearing_same; [apply (learn_hearing t SynReceived); done|by apply unheard].
Qed.

Lemma syn_sent_hearing got t now st :
  state t = SynSent → hearing base W q got t → Machine.syn_sent_arrival t Actions.new s now = Done st →
  hearing base W q (got ++ take (delivered (Actions.iter st.2)) (payload s)) st.1.
Proof.
  intros Hst Hh H. pose proof (syn_sent_arrival_trail true (EArrived s) (state t, 0%nat) t s now st eq_refl (trail_start true (EArrived s) t (fun _ => eq_refl)) Hst H) as Ht.
  rewrite (tr_delivered _ _ _ _ _ Ht). cbn [snd take]. rewrite app_nil_r.
  assert (got = [] ∧ fin_received t = false) as [-> Hf] by (destruct Hh as [_ Hh]; by rewrite Hst in Hh).
  unfold Machine.syn_sent_arrival in H. destruct (Machine.bad_syn_ack _ _); [by injection H as <-|].
  destruct (Flags.contains _ Flags.RST).
  { injection H as <-. case_bool_decide; [|done]. eapply hearing_same; [exact Hh|apply over_hearing]. }
  destruct (Flags.contains _ Flags.SYN) eqn:Hsyn; cbn [negb] in H; [|by injection H as <-].
  set (t1 := match acknowledgement s with Some ack => set_snd_una (Machine.learn_peer t s) ack | None => Machine.learn_peer t s end) in H.
  assert (Hl : ∀ s', synced s' = true → heard s' = false → hearing base W q [] (set_state t1 s')).
  { intros s' H1 H2. eapply hearing_same; [apply (learn_hearing t s'); done|]. subst t1. by destruct (acknowledgement s); apply unheard. }
  destruct (Sequence.follows _ _).
  - apply outcome_bind_done in H as (t2 & Hft & H). cbn [Machine.acknowledge_now] in H. injection H as <-.
    eapply hearing_same; [|apply send_what_we_can_hearing]. eapply hearing_same; [|by apply (unheard t2)].
    eapply hearing_same; [|exact (finish_timing_hearing _ _ _ _ Hft)]. by apply Hl.
  - injection H as <-. cbn [fst]. eapply hearing_same; [by apply (Hl SynReceived)|by apply unheard].
Qed.

Lemma arrived_hearing got t now st :
  tcb_ok t → in_width 64 now → hearing base W q got t → Machine.step t (EArrived s) now = Done st →
  hearing base W q (got ++ take (delivered (Actions.iter st.2)) (payload s)) st.1.
Proof.
  intros Hok Hn Hh H. cbn [Machine.step] in H. unfold Machine.arrived in H. destruct (state t) eqn:Hst;
    try (eapply synchronised_hearing; [exact Hok|exact Hn| |exact Hh|exact H]; unfold flowing; rewrite Hst; auto).
  - injection H as <-. rewrite (tr_delivered _ _ _ _ _ (closed_trail true (EArrived s) t s (fun _ => eq_refl))). cbn [snd take]. by rewrite app_nil_r.
  - injection H as <-. by apply listen_hearing.
  - by eapply syn_sent_hearing.
Qed.
End Arrivals.

(** *** The initial number and the close *)
Lemma hearing_named t t' : same_hearing t t' → named t t'.
Proof. by intros []. Qed.

Lemma local_named t e now st :
  match e with EConnect _ _ | EListen _ _ | EArrived _ => False | _ => True end → Machine.step t e now = Done st → named t st.1.
Proof. intros He H. by eapply hearing_named, local_hearing. Qed.

Lemma deliver_named t a s d st : Machine.deliver t a s = Done (d, st) → named t st.1.
Proof.
  unfold Machine.deliver. intros H. destruct (_ || _); [by injection H as <- <-|]. destruct (negb _); [by injection H as <- <-|].
  destruct (_ =? 0); [by injection H as <- <-|]. by apply outcome_bind_done in H as (w & _ & [= <- <-]).
Qed.

Lemma take_segment_named t a s now st : Machine.take_segment t a s now = Done st → named t st.1.
Proof.
  unfold Machine.take_segment. intros H. apply outcome_bind_done in H as ([d [t1 a1]] & Hd%deliver_named & H). cbn [fst] in Hd.
  match type of H with (let '(_, _) := ?x in _) = _ => set (y := x) in H end.
  assert (named t1 y.1) as Hy.
  { subst y. destruct (_ && negb _).
    - unfold Machine.peer_closed. cbn. by destruct (state t1).
    - destruct (_ <? _); [|done]. unfold Machine.acknowledge_or_delay. by destruct (_ || _). }
  destruct y as [t2 a2]. injection H as <-. etransitivity; [exact Hd|]. etransitivity; [exact Hy|apply hearing_named, send_what_we_can_hearing].
Qed.

Lemma arrived_named t s now st : Machine.step t (EArrived s) now = Done st → named t st.1.
Proof.
  cbn [Machine.step]. unfold Machine.arrived. intros H.
  assert (∀ st', Machine.synchronised_arrival t Actions.new s now = Done st' → named t st'.1) as Hsyn.
  { clear. intros st H. unfold Machine.synchronised_arrival in H. destruct (negb (Machine.acceptable t s)).
    { injection H as <-. destruct (Flags.contains _ _); [done|]. by destruct (Sequence.precedes _ _). }
    destruct (Flags.contains _ Flags.RST); [by injection H as <-|].
    destruct (_ && negb _); [injection H as <-; apply hearing_named, abort_hearing|].
    destruct (acknowledgement s) as [ack|]; [|by injection H as <-].
    apply outcome_bind_done in H as ([c [t1 a1]] & Hp & H). apply process_ack_hearing in Hp as [Hp _]. cbn [fst snd] in *.
    destruct (negb c); [injection H as <-; by apply hearing_named|]. etransitivity; [by apply hearing_named|by eapply take_segment_named]. }
  destruct (state t); try (by apply Hsyn).
  - by injection H as <-.
  - injection H as <-. unfold Machine.listen_arrival. destruct (Flags.contains _ Flags.RST); [done|]. case_bool_decide; [done|]. by destruct (negb _).
  - unfold Machine.syn_sent_arrival in H. destruct (Machine.bad_syn_ack _ _); [by injection H as <-|].
    destruct (Flags.contains _ Flags.RST); [injection H as <-; by case_bool_decide|]. destruct (negb _); [by injection H as <-|].
    assert (named t (match acknowledgement s with Some ack => set_snd_una (Machine.learn_peer t s) ack | None => Machine.learn_peer t s end)) as H1
      by (by destruct (acknowledgement s)).
    destruct (Sequence.follows _ _).
    + apply outcome_bind_done in H as (t2 & Hft & H). cbn [Machine.acknowledge_now] in H. injection H as <-.
      etransitivity; [exact H1|]. etransitivity; [exact (hearing_named _ _ (finish_timing_hearing _ _ _ _ Hft))|].
      etransitivity; [|apply hearing_named, send_what_we_can_hearing]. done.
    + injection H as <-. exact H1.
Qed.

(** ** Both directions at once *)

(** What [me] says and what [other] has heard of it. *)
Record fair (me other : Peer) : Prop := {
  fr_limit : Z.of_nat (length (written me)) < LIMIT;
  fr_ok : tcb_ok (machine me);
  fr_sender : sender (Z.of_nat (length (written me))) (machine me);
  fr_sent : Forall (genuine (iss (machine me)) (written me) (fin_queued (machine me))) (sent me);
  fr_hearing : hearing (iss (machine me)) (written me) (fin_queued (machine me)) (received other) (machine other);
  fr_synced : synced (state (machine other)) = true → sent me ≠ []
}.

Lemma hearing_mono base W W' q q' got t :
  W `prefix_of` W' → (q = true → W' = W) → (q = true → q' = true) → hearing base W q got t → hearing base W' q' got t.
Proof.
  intros HW Hq Hq' [Hp H]. split; [by etransitivity|]. destruct (phase (state t)); try done;
    destruct H as (H1 & H2 & H3); split_and!; try done; intros Hh; destruct (H3 Hh) as [-> Hqt]; rewrite Hq by done; auto.
Qed.

(** What has not been heard does not depend on the initial number. *)
Lemma hearing_rebase base base' W q got t : synced (state t) = false → hearing base W q got t → hearing base' W q got t.
Proof. intros Hs [Hp H]. split; [done|]. unfold synced in Hs. by destruct (phase (state t)). Qed.

(** What a step adds to the wire. *)
Lemma emits_genuine t a W q L :
  all_honest (iss t) L q a → L = Z.of_nat (length W) → L < LIMIT →
  Forall (genuine (iss t) W q) ((fun e => segment_of e (connection t) (fetch t W e)) <$> emits (Actions.iter a)).
Proof.
  intros Ha HL Hlim. apply Forall_fmap, Forall_forall. intros e He. unfold emits in He. apply list_elem_of_omap in He as (x & Hx & He).
  destruct x; try done. injection He as ->. eapply emitted_genuine; [by apply Ha|done|done].
Qed.

(** One end steps: it stays honest and what is heard of it stays so. *)
Lemma speaker_fair me other t' a W' arrived :
  fair me other → written me `prefix_of` W' → (fin_queued (machine me) = true → W' = written me) → named (machine me) t' →
  speaks (Z.of_nat (length W')) (t', a) → Z.of_nat (length W') < LIMIT →
  fair (perform me t' (Actions.iter a) W' arrived) other.
Proof.
  intros [Hlim Hok Hs Hsent Hh Hsy] HW Hq [Hi Hqm] [Hok' Hs' Hh'] Hlim'. split; cbn [perform written machine sent]; try done.
  - apply Forall_app. split; [|by eapply emits_genuine].
    eapply Forall_impl; [exact Hsent|]. intros s Hg. rewrite Hi. by eapply genuine_mono.
  - rewrite Hi. by eapply hearing_mono.
  - intros Hsn Hnil. apply app_eq_nil in Hnil as [Hnil _]. by apply (Hsy Hsn).
Qed.

(** One end steps: what it has heard. *)
Lemma listener_fair me other t' acts W' arrived :
  fair other me →
  hearing (iss (machine other)) (written other) (fin_queued (machine other)) (received me ++ take (delivered acts) arrived) t' →
  (synced (state t') = true → sent other ≠ []) →
  fair other (perform me t' acts W' arrived).
Proof. intros [] Hh Hs. by split. Qed.

Lemma same_synced t t' : same_hearing t t' → synced (state t') = true → synced (state t) = true.
Proof. intros (_ & _ & _ & [E|[E|(E & _)]]) H; [by rewrite E in H|by rewrite <- E|done]. Qed.

Lemma start_speaks me other : fair me other → speaks (Z.of_nat (length (written me))) (machine me, Actions.new).
Proof. intros []. split; [done|done|apply said_nothing]. Qed.

Section Acts.
Context (me other : Peer) (Hme : fair me other) (Hother : fair other me) (now : Z) (Hn : in_width 64 now).

Lemma unheard_fair t' a W' :
  same_hearing (machine me) t' → fair other (perform me t' a W' []).
Proof.
  intros Hs. apply listener_fair; [done| |].
  - rewrite take_nil, app_nil_r. eapply hearing_same; [apply Hother|done].
  - intros Ht. apply (fr_synced _ _ Hother). by eapply same_synced.
Qed.

(** Everything a program or a clock does but opening and writing. *)
Lemma local_fair e t' a :
  event_ok e → match e with EConnect _ _ | EListen _ _ | EWrote _ | EArrived _ => False | EShutdown => state (machine me) ≠ SynReceived | _ => True end →
  Machine.step (machine me) e now = Done (t', a) →
  fair (perform me t' (Actions.iter a) (written me) []) other ∧ fair other (perform me t' (Actions.iter a) (written me) []).
Proof.
  intros He Hg H. assert (Hs : speaks (Z.of_nat (length (written me))) (t', a)).
  { eapply step_speaks; [|exact Hn|exact He|by eapply start_speaks| |exact H]; [split; [lia|apply Hme]|by destruct e]. }
  assert (Hh : same_hearing (machine me) t') by (apply (local_hearing _ e now (t', a)); [by destruct e|done]).
  split; [|by apply unheard_fair]. apply speaker_fair; try done; [by apply hearing_named|apply Hme].
Qed.

Lemma wrote_fair bytes t' a :
  permitted me (OWrote bytes) = true → Machine.step (machine me) (EWrote (Z.of_nat (length bytes))) now = Done (t', a) →
  fair (perform me t' (Actions.iter a) (written me ++ bytes) []) other ∧
  fair other (perform me t' (Actions.iter a) (written me ++ bytes) []).
Proof.
  intros Hp H. cbn [permitted] in Hp. rewrite !andb_true_iff, negb_true_iff in Hp. destruct Hp as [[Hp Hq] Hlim%Z.ltb_lt].
  assert (Hs : speaks (Z.of_nat (length (written me ++ bytes))) (t', a)).
  { rewrite length_app, Nat2Z.inj_add. eapply wrote_speaks; [..|exact H]; try done; try lia; [by eapply start_speaks|].
    unfold flowing. rewrite !orb_true_iff, !bool_decide_eq_true in Hp. destruct Hp as [[Hp|Hp]|Hp].
    - right; right. by destruct (state (machine me)).
    - left. by rewrite Hp.
    - right; left. by rewrite Hp. }
  assert (Hh : same_hearing (machine me) t') by (by apply (local_hearing _ (EWrote (Z.of_nat (length bytes))) now (t', a))).
  split; [|by apply unheard_fair]. apply speaker_fair; try done; [by eexists|by rewrite Hq|by apply hearing_named|].
  by rewrite length_app.
Qed.

Lemma open_fair i w p t' a :
  fresh (machine me) = true → in_width 32 i → in_width 16 w → written me = [] → received me = [] → sent me = [] →
  Machine.open (machine me) Actions.new i w p now = (t', a) →
  fair (perform me t' (Actions.iter a) (written me) []) other ∧ fair other (perform me t' (Actions.iter a) (written me) []).
Proof.
  intros Hf Hi Hw Hwr Hrc Hst H. pose proof (open_speaks _ i w p now Hi Hw Hn (fr_ok _ _ Hme) Hf) as [Hok Hs Hh]. rewrite H in *. cbn [fst snd] in *.
  unfold fresh in Hf. rewrite !andb_true_iff, !bool_decide_eq_true, !negb_true_iff in Hf. destruct Hf as [[[[Hc _] _] Hfq] Hfr].
  assert (Hk : fin_queued t' = false ∧ fin_received t' = false ∧ (phase (state t') = PListen ∨ phase (state t') = PSent)).
  { unfold Machine.open in H. rewrite bool_decide_true in H by done. cbn [negb] in H. destruct p; injection H as <- <-; cbn; auto. }
  destruct Hk as (Hk1 & Hk2 & Hk3). split.
  - split; cbn [perform written machine sent]; try (rewrite Hwr; done); try done.
    + rewrite Hst. cbn [app]. eapply emits_genuine; [exact Hh|by rewrite Hwr|done].
    + apply (hearing_rebase (iss (machine me))).
      * destruct (synced (state (machine other))) eqn:E; [|done]. by destruct (fr_synced _ _ Hme E).
      * rewrite Hk1, <- Hfq. apply Hme.
    + intros Hsy. by destruct (fr_synced _ _ Hme Hsy).
  - apply listener_fair; [done| |].
    + rewrite take_nil, app_nil_r, Hrc. split; [apply prefix_nil|]. by destruct Hk3 as [-> | ->].
    + unfold synced. destruct Hk3 as [-> | ->]; done.
Qed.

Lemma arrived_fair s t' a :
  s ∈ sent other → Machine.step (machine me) (EArrived s) now = Done (t', a) →
  fair (perform me t' (Actions.iter a) (written me) (payload s)) other ∧
  fair other (perform me t' (Actions.iter a) (written me) (payload s)).
Proof.
  intros Hin H. pose proof (proj1 (Forall_forall _ _) (fr_sent _ _ Hother) s Hin) as Hg. split.
  - apply speaker_fair; try done; [by apply (arrived_named _ s now (t', a))| |apply Hme].
    eapply step_speaks; [|exact Hn| |by eapply start_speaks| |exact H]; [split; [lia|apply Hme]|apply Hg|done].
  - apply listener_fair; [done| |intros _ E; rewrite E in Hin; by apply elem_of_nil in Hin].
    apply (arrived_hearing _ _ _ (fr_limit _ _ Hother) s Hg (received me) (machine me) now (t', a)); [apply Hme|done|apply Hother|done].
Qed.
End Acts.

Lemma act_fair me other op now me' :
  act me other op now = Some me' → fair me other → fair other me → fair me' other ∧ fair other me'.
Proof.
  intros H Hme Ho. unfold act in H. destruct (permitted me op && _) eqn:Hp; [|done]. apply andb_true_iff in Hp as [Hp Hn%bool_decide_eq_true].
  assert (Hopen : ∀ i w, permitted me (OConnect i w) = true →
    fresh (machine me) = true ∧ in_width 32 i ∧ in_width 16 w ∧ written me = [] ∧ received me = [] ∧ sent me = []).
  { intros i w Hq. cbn [permitted] in Hq. rewrite !andb_true_iff, !bool_decide_eq_true in Hq. naive_solver. }
  destruct op as [i w|i w|bytes|n| | |timer|index].
  - destruct (Hopen i w Hp) as (? & ? & ? & ? & ? & ?). cbn [Machine.step] in H.
    destruct (Machine.open (machine me) Actions.new i w false now) as [t' a] eqn:E. injection H as <-. by eapply open_fair.
  - destruct (Hopen i w Hp) as (? & ? & ? & ? & ? & ?). cbn [Machine.step] in H.
    destruct (Machine.open (machine me) Actions.new i w true now) as [t' a] eqn:E. injection H as <-. by eapply open_fair.
  - destruct (Machine.step _ _ _) as [[t' a]| |] eqn:E; [|done|done]. injection H as <-. by apply (wrote_fair me other Hme Ho now Hn).
  - destruct (Machine.step _ _ _) as [[t' a]| |] eqn:E; [|done|done]. injection H as <-.
    apply (local_fair me other Hme Ho now Hn (ERead n)); try done. cbn [permitted event_ok] in *. by apply bool_decide_eq_true in Hp.
  - destruct (Machine.step _ _ _) as [[t' a]| |] eqn:E; [|done|done]. injection H as <-.
    apply (local_fair me other Hme Ho now Hn EShutdown); try done. cbn [permitted] in Hp. by apply negb_true_iff, bool_decide_eq_false in Hp.
  - destruct (Machine.step _ _ _) as [[t' a]| |] eqn:E; [|done|done]. injection H as <-. by apply (local_fair me other Hme Ho now Hn EAbort).
  - destruct (Machine.step _ _ _) as [[t' a]| |] eqn:E; [|done|done]. injection H as <-. by apply (local_fair me other Hme Ho now Hn (EExpired timer)).
  - destruct (sent other !! index) as [s|] eqn:Hs; [|done].
    destruct (Machine.step _ _ _) as [[t' a]| |] eqn:E; [|done|done]. injection H as <-.
    apply (arrived_fair me other Hme Ho now Hn); [|done]. by eapply list_elem_of_lookup_2.
Qed.

Lemma run_fair left right ops left' right' :
  run left right ops = Some (left', right') → fair left right → fair right left → fair left' right' ∧ fair right' left'.
Proof.
  revert left right. induction ops as [|[[side op] now] ops IH]; intros left right H Hl Hr; cbn [run] in H.
  - by injection H as <- <-.
  - destruct side.
    + destruct (act left right op now) as [l|] eqn:E; [|done]. destruct (act_fair _ _ _ _ _ E Hl Hr). by eapply IH.
    + destruct (act right left op now) as [r|] eqn:E; [|done]. destruct (act_fair _ _ _ _ _ E Hr Hl). by eapply IH.
Qed.

Lemma start_fair c d : fair (start c) (start d).
Proof. split; cbn; try done; try constructor; try apply new_ok; done. Qed.

Lemma fair_prefix me other : fair me other →
  received other `prefix_of` written me ∧ (heard (state (machine other)) = true → received other = written me).
Proof.
  intros H. destruct (fr_hearing _ _ H) as [Hp Hh]. split; [done|]. intros Hd.
  destruct (state (machine other)) eqn:E; try discriminate Hd; cbn in Hh; apply Hh; done.
Qed.

(** C32. Two connections over a network that may lose, repeat and reorder segments:
    as long as each program writes less than 2^31 - 2 bytes, none while its connection
    listens or after its own shutdown, and does not shut down in SYN-RECEIVED, whatever else
    the programs, the clocks and the network do, each program has been handed a prefix of
    what the other wrote, in order and without a byte missing, changed or repeated; and
    where a connection has accepted its peer's close, its program has been handed everything
    the peer wrote. *)
Theorem streams_arrive_in_order c d ops left right :
  run (start c) (start d) ops = Some (left, right) →
  (received right `prefix_of` written left ∧ received left `prefix_of` written right) ∧
  (heard (state (machine right)) = true → received right = written left) ∧
  (heard (state (machine left)) = true → received left = written right).
Proof.
  intros H. destruct (run_fair _ _ _ _ _ H (start_fair c d) (start_fair d c)) as [Hl Hr].
  destruct (fair_prefix _ _ Hl), (fair_prefix _ _ Hr). by split_and!.
Qed.

(** A connection opened, three bytes written in two pieces, a segment lost and
    another repeated, and the close. *)
Definition demo_ops : list (bool * Op * Z) :=
  [ (false, OListen 1000 4096, 0); (true, OConnect (2 ^ 32 - 2) 4096, 0);
    (false, OArrived 0, 1); (true, OArrived 0, 2); (false, OArrived 1, 3);
    (true, OWrote [7; 8], 4); (true, OWrote [9], 5);
    (true, OShutdown, 6);
    (false, OArrived 3, 7); (false, OArrived 2, 8); (false, OArrived 2, 9); (true, OArrived 1, 10); (false, OArrived 3, 11);
    (false, OArrived 4, 12) ].
Definition demo_end : Peer * Peer :=
  default (start demo_tuple, start demo_tuple) (run (start demo_tuple) (start (reversed demo_tuple)) demo_ops).

Lemma streams_arrive_in_order_witness :
  (heard (state (machine demo_end.2)) = true ∧ received demo_end.2 = [7; 8; 9]) ∧ received demo_end.2 = written demo_end.1.
Proof.
  assert (E : run (start demo_tuple) (start (reversed demo_tuple)) demo_ops = Some (demo_end.1, demo_end.2)) by (vm_compute; reflexivity).
  split; [vm_compute; split; reflexivity|].
  exact (proj1 (proj2 (streams_arrive_in_order _ _ _ _ _ E)) ltac:(vm_compute; reflexivity)).
Defined.
