(* ===== verification/TcpDefects.v ===== *)
(** What two connections of this program do to each other on a network that only
    delays: the runs, in the world of TcpStream.v, in which a connection that
    should have gone on does not. Each is a run of the two real machines with every
    segment delivered that the text does not call late, so each is a defect of the
    machines and not of a hostile peer. *)
From stdpp Require Import prelude numbers list strings.
From S2P Require Import Prelude Bytes Segment Tcp TcpStep TcpDiagram TcpSend TcpStream.

Open Scope Z_scope.

Definition left0 : Peer := start demo_tuple.
Definition right0 : Peer := start (reversed demo_tuple).

(** The three-way handshake. *)
Definition handshake : list (bool * Op * Z) :=
  [ (false, OListen 1000 65535, 0); (true, OConnect 100 65535, 0);
    (false, OArrived 0, 1); (true, OArrived 0, 2); (false, OArrived 1, 3) ].

(** A retransmission, its arrival, and the arrival of the acknowledgement it drew. *)
Definition late_round (k : nat) : list (bool * Op * Z) :=
  let at' := 120000000000 * (Z.of_nat k + 1) in
  [ (true, OExpired Retransmit, at'); (false, OArrived (4 + 2 * k)%nat, at' + 1); (true, OArrived (2 + k)%nat, at' + 2) ].

(** Two segments of data arrive, but the acknowledgement of both comes after the
    retransmission timer has run out. *)
Definition late_ops : list (bool * Op * Z) :=
  handshake ++ [ (true, OWrote (replicate 2920 7), 4); (false, OArrived 2, 5); (false, OArrived 3, 6) ]
  ++ concat (late_round <$> seq 0 8) ++ [ (true, OExpired Retransmit, 120000000000 * 9) ].

(** Two segments of data and the close are sent and lost; the retransmission of the
    first arrives, and so does its acknowledgement. *)
Definition strand_ops : list (bool * Op * Z) :=
  handshake ++ [ (true, OWrote (replicate 2000 7), 4); (true, OShutdown, 5);
                 (true, OExpired Retransmit, 120000000000); (false, OArrived 5, 120000000001);
                 (false, OExpired DelayedAck, 120000000002); (true, OArrived 1, 120000000003) ].

Definition end_of (ops : list (bool * Op * Z)) : Peer * Peer := default (left0, right0) (run left0 right0 ops).

(** A late acknowledgement kills the connection. The retransmission timer takes
    [snd_nxt] back to the oldest unacknowledged byte and sends one segment, so that
    an acknowledgement of everything sent before is taken for one of data never
    sent: it is dropped and answered. Here nothing is lost and every byte has
    arrived in order; only the first acknowledgement comes after the timer, each
    retransmission is answered by the peer at once with the same acknowledgement,
    and after eight of them this end gives the connection up as unreachable, while
    the peer, which holds all 2920 bytes, is still established. *)
Theorem late_acknowledgement_kills :
  run left0 right0 late_ops = Some (end_of late_ops) ∧
  (state (machine (end_of late_ops).1) = Closed ∧ state (machine (end_of late_ops).2) = Established) ∧
  received (end_of late_ops).2 = written (end_of late_ops).1 ∧ length (written (end_of late_ops).1) = 2920%nat.
Proof. vm_compute. split_and!; reflexivity. Qed.

(** Closing strands data. A connection that is closed with two segments in
    flight resends only the first when both are lost, and nothing after it is
    acknowledged: its timer is cancelled, 540 of the 2000 bytes and the close have
    not arrived, and no timer that may run out afterwards, at any time, moves the
    machine or makes it send data or the close again. *)
Theorem close_strands_data :
  run left0 right0 strand_ops = Some (end_of strand_ops) ∧
  (length (written (end_of strand_ops).1) = 2000%nat ∧ length (received (end_of strand_ops).2) = 1460%nat) ∧
  state (machine (end_of strand_ops).1) = FinWait1 ∧ state (machine (end_of strand_ops).2) = Established ∧
  ∀ timer now, match Machine.step (machine (end_of strand_ops).1) (EExpired timer) now with
               | Done (t, a) => t = machine (end_of strand_ops).1 ∧
                   Forall (fun e => elength e = 0 ∧ Flags.contains (eflags e) Flags.FIN = false) (emits (Actions.iter a))
               | _ => False
               end.
Proof.
  split; [vm_compute; reflexivity|]. split; [vm_compute; split; reflexivity|]. split; [vm_compute; reflexivity|].
  split; [vm_compute; reflexivity|]. intros timer now.
  destruct timer; vm_compute; (split; [reflexivity|repeat constructor]).
Qed.
