(* ===== verification/Sched.v ===== *)
(** * Runqueues

    The scheduling policy of src/kernel/src/sched.rs: threads, one CPU's runqueue,
    the choice of the next thread ([RunQueue::pick_next]), virtual time
    ([Thread::charge], [RunQueue::advance_min_vruntime]), stealing between CPUs, and
    the operations that move threads between queues and states: [preempt], [wake],
    the two halves of [spawn_on_with], [set_domain_weight].  A lock that another CPU
    holds is an argument ([busy]); the clock is an argument ([now]).  Saved
    registers, stacks, address-space roots, the lock accounting a thread carries and
    the counters kept for reports are not part of a thread here. *)
From stdpp Require Import prelude numbers list sorting.
From S2P Require Import Prelude.
Open Scope Z_scope.
Set Warnings "-clear-no-such-hyp".

(** ** Data *)
Inductive State : Type := Ready | Running | Blocked | Finished.
Inductive RtPolicy : Type := Fifo | RoundRobin.
Inductive Policy : Type :=
| RealTime (priority : Z) (policy : RtPolicy) (utilisation : Z)
| Fair (weight : Z)
| Idle.

#[global] Instance State_eq_dec : EqDecision State.
Proof. solve_decision. Defined.
#[global] Instance RtPolicy_eq_dec : EqDecision RtPolicy.
Proof. solve_decision. Defined.
#[global] Instance Policy_eq_dec : EqDecision Policy.
Proof. solve_decision. Defined.

Definition is_schedulable (self : State) : bool := match self with Ready | Running => true | _ => false end.
Definition is_fair (p : Policy) : bool := match p with Fair _ => true | _ => false end.
Definition is_real_time (p : Policy) : bool := match p with RealTime _ _ _ => true | _ => false end.

Definition MAX_THREADS_PER_CPU : nat := 8.
Definition BASE_WEIGHT : Z := 1024.
Definition MAX_VRUNTIME_LEAD_SLICES : Z := 8.
Definition RT_UTILISATION_CAP : Z := 95.
Definition STEAL_IMBALANCE : nat := 2.
Definition NO_DOMAIN : Z := 2 ^ 32 - 1.

(** What a message carries in registers: the method, four scalars and the badge. *)
Record Message : Type := MkMessage { method : Z; args : list Z; badge : Z }.

Record Thread : Type := MkThread {
  id : Z;
  state : State;
  runs : Z;
  migrations : Z;
  pinned : bool;
  reply_to : option Z;
  woken_at : Z;
  call_refused : option Z;
  domain : Z;
  answer_lost : bool;
  dying : bool;
  mailbox : option (Message * Z);
  policy : Policy;
  vruntime : Z;
  deadline : Z;
  slice_ticks : Z;
  cycles : Z;
  last_start : Z
}.

Record RunQueue : Type := MkRunQueue {
  threads : list (option Thread);
  current : nat;
  started : bool;
  min_vruntime : Z;
  slice_deadline : Z;
  switching : bool
}.

Definition set_state (t : Thread) (s : State) : Thread :=
  MkThread (id t) s (runs t) (migrations t) (pinned t) (reply_to t) (woken_at t) (call_refused t) (domain t) (answer_lost t)
    (dying t) (mailbox t) (policy t) (vruntime t) (deadline t) (slice_ticks t) (cycles t) (last_start t).
Definition set_time (t : Thread) (v d c : Z) : Thread :=
  MkThread (id t) (state t) (runs t) (migrations t) (pinned t) (reply_to t) (woken_at t) (call_refused t) (domain t) (answer_lost t)
    (dying t) (mailbox t) (policy t) v d (slice_ticks t) c (last_start t).
Definition set_vruntime (t : Thread) (v : Z) : Thread := set_time t v (deadline t) (cycles t).
Definition set_started (t : Thread) (at' : Z) : Thread :=
  MkThread (id t) (state t) (runs t) (migrations t) (pinned t) (reply_to t) (woken_at t) (call_refused t) (domain t) (answer_lost t)
    (dying t) (mailbox t) (policy t) (vruntime t) (deadline t) (slice_ticks t) (cycles t) at'.
Definition set_counts (t : Thread) (r m w : Z) : Thread :=
  MkThread (id t) (state t) r m (pinned t) (reply_to t) w (call_refused t) (domain t) (answer_lost t)
    (dying t) (mailbox t) (policy t) (vruntime t) (deadline t) (slice_ticks t) (cycles t) (last_start t).
Definition set_class (t : Thread) (d : Z) (p : Policy) : Thread :=
  MkThread (id t) (state t) (runs t) (migrations t) (pinned t) (reply_to t) (woken_at t) (call_refused t) d (answer_lost t)
    (dying t) (mailbox t) p (vruntime t) (deadline t) (slice_ticks t) (cycles t) (last_start t).

Definition set_threads (q : RunQueue) (l : list (option Thread)) : RunQueue :=
  MkRunQueue l (current q) (started q) (min_vruntime q) (slice_deadline q) (switching q).
Definition set_current (q : RunQueue) (c : nat) : RunQueue :=
  MkRunQueue (threads q) c (started q) (min_vruntime q) (slice_deadline q) (switching q).
Definition set_min_vruntime (q : RunQueue) (v : Z) : RunQueue :=
  MkRunQueue (threads q) (current q) (started q) v (slice_deadline q) (switching q).
Definition set_slice_deadline (q : RunQueue) (v : Z) : RunQueue :=
  MkRunQueue (threads q) (current q) (started q) (min_vruntime q) v (switching q).
Definition set_switching (q : RunQueue) (b : bool) : RunQueue :=
  MkRunQueue (threads q) (current q) (started q) (min_vruntime q) (slice_deadline q) b.

(** [self.threads[slot].as_mut()] followed by [f], where there is a thread. *)
Definition on_thread (q : RunQueue) (slot : nat) (f : Thread → Thread) : RunQueue :=
  match threads q !! slot with
  | Some (Some t) => set_threads q (<[slot := Some (f t)]> (threads q))
  | _ => q
  end.

(** ** Virtual time *)
Definition saturating_mul (w x y : Z) : Z := Z.min (x * y) (2 ^ w - 1).

(** A length of real time as a thread of weight [weight] feels it. *)
Definition scaled (ticks weight : Z) : Z := saturating_mul 64 ticks BASE_WEIGHT / Z.max weight 1.

Definition charge (self : Thread) (delta : Z) : Thread :=
  let cycles' := saturating_add 64 (cycles self) delta in
  match policy self with
  | Fair weight =>
      let vruntime' := saturating_add 64 (vruntime self) (scaled delta weight) in
      set_time self vruntime' (saturating_add 64 vruntime' (scaled (slice_ticks self) weight)) cycles'
  | _ => set_time self (vruntime self) (deadline self) cycles'
  end.

Module Queue.
(** ** One runqueue *)
Definition present (self : RunQueue) : list Thread := occupied (threads self).

Definition runnable (self : RunQueue) : nat := count (fun t => is_schedulable (state t)) (present self).

Definition may_steal (self : RunQueue) (index : nat) (slot : option Thread) : bool :=
  negb (index =? current self)%nat &&
  match slot with
  | Some t => bool_decide (state t = Ready) && negb (pinned t) && negb (is_real_time (policy t))
  | None => false
  end.

Definition steal_candidate (self : RunQueue) (thief_load : nat) : option nat :=
  if switching self then None
  else if (runnable self <? thief_load + STEAL_IMBALANCE)%nat then None
  else position (fun '(index, slot) => may_steal self index slot) (imap pair (threads self)).

Definition free_slot (self : RunQueue) : option nat := position (fun slot => bool_decide (slot = None)) (threads self).

Definition is_finished (slot : option Thread) : bool :=
  match slot with Some t => bool_decide (state t = Finished) | None => false end.

Definition reap_finished (self : RunQueue) : RunQueue :=
  set_threads self (imap (fun slot entry => if negb (slot =? current self)%nat && is_finished entry then None else entry) (threads self)).

Definition slots_from (from : nat) : list nat :=
  (fun offset => (from + offset) mod MAX_THREADS_PER_CPU)%nat <$> seq 1 MAX_THREADS_PER_CPU.

Definition schedulable (self : RunQueue) (slot : nat) : option Thread :=
  match threads self !! slot with
  | Some (Some t) => if is_schedulable (state t) then Some t else None
  | _ => None
  end.

(** The two selection loops of [pick_next]: of the threads that can run and have a
    [key], the first in rotation that nothing beats. *)
Definition pick_best (self : RunQueue) (key : Thread → option Z) (better : Z → Z → bool) (from : nat) : option (Z * nat) :=
  foldl (fun best slot =>
    match schedulable self slot ≫= key with
    | Some k => if match best with None => true | Some (b, _) => better k b end then Some (k, slot) else best
    | None => best
    end) None (slots_from from).

Definition rt_key (t : Thread) : option Z := match policy t with RealTime priority _ _ => Some priority | _ => None end.
Definition fair_key (t : Thread) : option Z := if is_fair (policy t) then Some (deadline t) else None.

(** The running thread keeps the CPU against an equal priority. *)
Definition fifo_keeps (self : RunQueue) (from : nat) (priority : Z) : bool :=
  match schedulable self from with
  | Some t => match policy t with RealTime mine Fifo _ => priority <=? mine | _ => false end
  | None => false
  end.

Definition pick_next (self : RunQueue) (from : nat) : nat :=
  match pick_best self rt_key (fun k b => b <? k) from with
  | Some (priority, slot) => if fifo_keeps self from priority then from else slot
  | None =>
      match pick_best self fair_key (fun k b => k <? b) from with
      | Some (_, slot) => slot
      | None => default from (head (filter (fun slot => is_Some (schedulable self slot)) (slots_from from)))
      end
  end.

Definition min_list (l : list Z) : option Z :=
  match l with [] => None | x :: l' => Some (foldl Z.min x l') end.
Definition max_list (l : list Z) : option Z :=
  match l with [] => None | x :: l' => Some (foldl Z.max x l') end.

Definition min_fair_vruntime (self : RunQueue) : Z :=
  default 0 (min_list (vruntime <$> List.filter (fun t => is_schedulable (state t) && is_fair (policy t)) (present self))).

Definition clamp (ceiling : Z) (t : Thread) : Thread :=
  if is_fair (policy t) && (ceiling <? vruntime t) then charge (set_vruntime t ceiling) 0 else t.

Definition advance_min_vruntime (self : RunQueue) : RunQueue :=
  let self := set_min_vruntime self (Z.max (min_vruntime self) (min_fair_vruntime self)) in
  match max_list (slice_ticks <$> present self) with
  | None => self
  | Some slice =>
      let ceiling := saturating_add 64 (min_vruntime self) (saturating_mul 64 slice MAX_VRUNTIME_LEAD_SLICES) in
      set_threads self (map (option_map (clamp ceiling)) (threads self))
  end.

(** [Iterator::sum] over [u16]s: it panics past 65535. *)
Definition rt_utilisation (self : RunQueue) : outcome Z :=
  for_each (fun sum t => add_checked 16 sum (match policy t with RealTime _ _ utilisation => utilisation | _ => 0 end))
    (List.filter (fun t => negb (bool_decide (state t = Finished))) (present self)) 0.
End Queue.

(** ** The machine: the online CPUs' runqueues *)
Module Machine.
Import Queue.

(** Moves one thread out of the first of [victims] that is worth taking from.
    [busy] says which queues another CPU is holding. *)
Fixpoint steal_from (w : list RunQueue) (busy : nat → bool) (mine : RunQueue) (my_load free : nat) (victims : list nat)
    : outcome (option (list RunQueue * RunQueue)) :=
  match victims with
  | [] => Done None
  | victim :: victims' =>
      if busy victim then steal_from w busy mine my_load free victims'
      else
        theirs ← at_index w victim;
        match steal_candidate theirs my_load with
        | None => steal_from w busy mine my_load free victims'
        | Some slot =>
            taken ← at_index (threads theirs) slot;
            match taken with
            | None => steal_from w busy mine my_load free victims'
            | Some thread =>
                m ← add_checked 64 (migrations thread) 1;
                let theirs := set_threads theirs (<[slot := None]> (threads theirs)) in
                let mine := set_threads mine (<[free := Some (set_counts thread (runs thread) m (woken_at thread))]> (threads mine)) in
                Done (Some (<[victim := theirs]> w, mine))
            end
        end
  end.

(** [try_steal]: [mine] is the queue of [cpu], which the caller has locked. *)
Definition try_steal (w : list RunQueue) (busy : nat → bool) (cpu : nat) (mine : RunQueue)
    : outcome (option (list RunQueue * RunQueue * nat)) :=
  let online := length w in
  if (online <? 2)%nat then Done None
  else
    match free_slot mine with
    | None => Done None
    | Some free =>
        r ← steal_from w busy mine (runnable mine) free ((fun offset => (cpu + offset) mod online)%nat <$> seq 1 (online - 1));
        Done (match r with Some (w, mine) => Some (w, mine, free) | None => None end)
    end.

(** The running thread pays for the time since it was dispatched. *)
Definition account (q : RunQueue) (now : Z) : RunQueue :=
  advance_min_vruntime (on_thread q (current q) (fun t => set_started (charge t (saturating_sub now (last_start t))) now)).

(** An expired slice starts afresh. *)
Definition renew_slice (q : RunQueue) (now : Z) : RunQueue :=
  if slice_deadline q <=? now then
    match threads q !! current q with
    | Some (Some t) => set_slice_deadline q (saturating_add 64 now (slice_ticks t))
    | _ => q
    end
  else q.

(** Hands the CPU from the current slot to [next]. *)
Definition dispatch (q : RunQueue) (next : nat) (now : Z) : outcome RunQueue :=
  let q := on_thread q (current q) (fun t => if bool_decide (state t = Running) then set_state t Ready else t) in
  entry ← at_index (threads q) next;
  q ← (match entry with
       | Some t =>
           r ← add_checked 64 (runs t) 1;
           Done (on_thread q next (fun t => set_started (set_counts (set_state t Running) r (migrations t) 0) now))
       | None => Done q
       end);
  leaving ← at_index (threads q) (current q);
  arriving ← at_index (threads q) next;
  Done (match leaving, arriving with
        | Some _, Some t => set_switching (set_current (set_slice_deadline q (saturating_add 64 now (slice_ticks t))) next) true
        | _, _ => q
        end).

(** [preempt], once the CPU has its own queue's lock. *)
Definition preempt (w : list RunQueue) (busy : nat → bool) (cpu : nat) (now : Z) : outcome (list RunQueue) :=
  q ← at_index w cpu;
  if negb (started q) then Done w
  else
    let q := renew_slice (account q now) now in
    let next := pick_next q (current q) in
    if (next =? current q)%nat then
      r ← try_steal w busy cpu q;
      match r with
      | None => Done (<[cpu := q]> w)
      | Some (w, q, stolen) => q ← dispatch q stolen now; Done (<[cpu := q]> w)
      end
    else q ← dispatch q next now; Done (<[cpu := q]> w).

(** [finish_switch]: the outgoing context has been written. *)
Definition finish_switch (w : list RunQueue) (cpu : nat) : outcome (list RunQueue) :=
  q ← at_index w cpu; Done (<[cpu := set_switching q false]> w).

(** The first half of [spawn_on_with]: a slot, and where virtual time stands. *)
Inductive SpawnError : Type :=
| NoSuchCpu (cpu : nat)
| QueueFull (cpu : nat)
| RtOverCommitted (cpu : nat) (admitted requested : Z).

Definition spawn_reserve (w : list RunQueue) (cpu : nat) (p : Policy) : outcome (result (nat * Z) SpawnError * list RunQueue) :=
  match w !! cpu with
  | None => Done (Err (NoSuchCpu cpu), w)
  | Some q =>
      refused ← (match p with
                 | RealTime _ _ utilisation =>
                     admitted ← rt_utilisation q;
                     total ← add_checked 16 admitted utilisation;
                     Done (if RT_UTILISATION_CAP <? total then Some (RtOverCommitted cpu admitted utilisation) else None)
                 | _ => Done None
                 end);
      match refused with
      | Some e => Done (Err e, w)
      | None =>
          let q := reap_finished q in
          Done (match free_slot q with Some slot => Ok (slot, min_vruntime q) | None => Err (QueueFull cpu) end, <[cpu := q]> w)
      end
  end.

(** The second half, after the stack was allocated outside the lock. *)
Definition new_thread (tid : Z) (p : Policy) (slice : Z) (pin : bool) (dom floor : Z) : Thread :=
  MkThread tid Ready 0 0 pin None 0 None dom false false None p floor 0 slice 0 0.
Definition spawn_insert (w : list RunQueue) (cpu slot : nat) (t : Thread) : outcome (list RunQueue) :=
  q ← at_index w cpu;
  _ ← at_index (threads q) slot;
  Done (<[cpu := on_thread (set_threads q (<[slot := Some t]> (threads q))) slot (fun t => charge t 0)]> w).

(** [wake_with] where every queue's lock is waited for: the first queue that holds
    the thread, blocked. *)
Definition wakes (tid : Z) (slot : option Thread) : bool :=
  match slot with Some t => (id t =? tid) && bool_decide (state t = Blocked) | None => false end.
Definition woken (floor now : Z) (t : Thread) : Thread :=
  let t := set_counts (set_state t Ready) (runs t) (migrations t) now in
  if is_fair (policy t) then charge (set_vruntime t (Z.max (vruntime t) floor)) 0 else t.
Fixpoint wake (w : list RunQueue) (tid now : Z) : bool * list RunQueue :=
  match w with
  | [] => (false, [])
  | q :: w' =>
      match position (wakes tid) (threads q) with
      | Some slot => (true, on_thread q slot (woken (min_vruntime q) now) :: w')
      | None => let '(b, w') := wake w' tid now in (b, q :: w')
      end
  end.

(** [set_domain_weight]. *)
Definition reweigh (dom weight also : Z) (t : Thread) : Thread :=
  if ((domain t =? dom) || (id t =? also)) && is_fair (policy t) then charge (set_class t dom (Fair weight)) 0 else t.
Definition set_domain_weight (w : list RunQueue) (dom weight also : Z) : list RunQueue :=
  if dom =? NO_DOMAIN then w
  else (fun q => set_threads q (map (option_map (reweigh dom weight also)) (threads q))) <$> w.

(** [Domain::thread_weight]: a domain's share divided among its threads. *)
Definition thread_weight (cpu_shares threads : Z) : Z :=
  let threads := if threads =? 0 then 1 else threads in
  let weight := cpu_shares / threads in
  if weight =? 0 then 1 else weight.
End Machine.
