(* ===== verification/SchedPolicy.v ===== *)
(** The scheduler's choice, specified: which thread [pick_next] hands the CPU to, as
    a relation that says nothing of loops, and that the loops compute exactly that
    relation; what stealing may take and that it neither loses nor copies a thread;
    and how the virtual clock moves. *)
From stdpp Require Import prelude numbers list sorting.
From S2P Require Import Prelude Sched.
Import Queue.
Open Scope Z_scope.
Set Warnings "-clear-no-such-hyp".

(** A queue of eight slots, standing on one of them. *)
Definition queue_ok (q : RunQueue) : Prop := length (threads q) = MAX_THREADS_PER_CPU ∧ (current q < MAX_THREADS_PER_CPU)%nat.

(** ** The choice *)

(** How far round the queue from [from] a slot is; [from] itself comes last. *)
Definition rank (from slot : nat) : nat := ((slot + 7 - from) mod 8)%nat.

(** A runnable real-time thread goes before every fair thread, and a fair thread
    before the rest. Of the real-time threads, one of the highest priority: the
    running one if it is first-in-first-out, and otherwise the next in rotation. Of
    the fair threads, the next in rotation of those with the earliest deadline. *)
Inductive Choice (q : RunQueue) (from : nat) : nat → Prop :=
| ChoiceFifo t p u :
    schedulable q from = Some t → policy t = RealTime p Fifo u →
    (∀ s t' p', schedulable q s = Some t' → rt_key t' = Some p' → p' ≤ p) → Choice q from from
| ChoiceRt n t p :
    schedulable q n = Some t → rt_key t = Some p →
    (∀ s t' p', schedulable q s = Some t' → rt_key t' = Some p' → p' ≤ p ∧ (p' = p → (rank from n ≤ rank from s)%nat)) →
    (∀ t' p' u, schedulable q from = Some t' → policy t' = RealTime p' Fifo u → p' < p) → Choice q from n
| ChoiceFair n t :
    (∀ s t', schedulable q s = Some t' → rt_key t' = None) →
    schedulable q n = Some t → is_fair (policy t) = true →
    (∀ s t', schedulable q s = Some t' → is_fair (policy t') = true →
      deadline t ≤ deadline t' ∧ (deadline t' = deadline t → (rank from n ≤ rank from s)%nat)) → Choice q from n
| ChoiceIdle n t :
    (∀ s t', schedulable q s = Some t' → rt_key t' = None ∧ is_fair (policy t') = false) →
    schedulable q n = Some t → (∀ s t', schedulable q s = Some t' → (rank from n ≤ rank from s)%nat) → Choice q from n
| ChoiceNone : (∀ s, schedulable q s = None) → Choice q from from.

(** The rotation: every slot once, in the order of their ranks. *)
Lemma slots_from_rank from : (from < 8)%nat → ∀ s, (s < 8)%nat → slots_from from !! rank from s = Some s.
Proof. intros Hf s Hs. do 8 (destruct from as [|from]; [do 8 (destruct s as [|s]; [done|]); lia|]). lia. Qed.

Lemma slots_from_lookup from i s : (from < 8)%nat → slots_from from !! i = Some s → rank from s = i ∧ (s < 8)%nat.
Proof.
  intros Hf Hi. assert (Hs : (i < 8)%nat) by (apply lookup_lt_Some in Hi; exact Hi).
  do 8 (destruct from as [|from]; [do 8 (destruct i as [|i]; [injection Hi as <-; vm_compute; lia|]); lia|]). lia.
Qed.

Lemma schedulable_slot q s t : length (threads q) = 8%nat → schedulable q s = Some t → (s < 8)%nat.
Proof. intros Hl. unfold schedulable. destruct (threads q !! s) eqn:E; [|done]. apply lookup_lt_Some in E. lia. Qed.

(** A selection loop: the best key, and the first that has it. *)
Section Best.
Context (f : nat → option Z) (better : Z → Z → bool) (m : Z → Z).
Hypothesis better_m : ∀ a b, better a b = (m b <? m a).

Definition best_step (best : option (Z * nat)) (slot : nat) : option (Z * nat) :=
  match f slot with
  | Some k => if match best with None => true | Some (b, _) => better k b end then Some (k, slot) else best
  | None => best
  end.

Definition is_best (l : list nat) (r : option (Z * nat)) : Prop :=
  match r with
  | None => ∀ s, s ∈ l → f s = None
  | Some (k, s) => ∃ i, l !! i = Some s ∧ f s = Some k ∧
      ∀ j s' k', l !! j = Some s' → f s' = Some k' → m k' ≤ m k ∧ (m k' = m k → (i ≤ j)%nat)
  end.

Lemma best_step_ok l r s : is_best l r → is_best (l ++ [s]) (best_step r s).
Proof.
  intros H. unfold best_step. assert (Hlast : (l ++ [s]) !! length l = Some s) by (rewrite lookup_app_r, Nat.sub_diag by lia; done).
  assert (Hsplit : ∀ j s', (l ++ [s]) !! j = Some s' → (l !! j = Some s' ∧ (j < length l)%nat) ∨ (j = length l ∧ s' = s)).
  { intros j s' Hj. apply lookup_app_Some in Hj as [Hj|[Hge Hj]]; [left; split; [done|by eapply lookup_lt_Some]|].
    apply list_lookup_singleton_Some in Hj as [? ?]. right. split; [lia|done]. }
  destruct (f s) as [k|] eqn:Hf; [destruct r as [[b s0]|]; cbn in H|].
  - destruct H as (i & Hi & Hb & Hbest). rewrite better_m. destruct (Z.ltb_spec (m b) (m k)) as [Hlt|Hge]; cbn.
    + exists (length l). split_and!; [done|done|]. intros j s' k' [[Hj Hlj]|[-> ->]]%Hsplit Hk'; [|simplify_eq; lia].
      destruct (Hbest _ _ _ Hj Hk'). lia.
    + exists i. split_and!; [by apply lookup_app_l_Some|done|]. intros j s' k' [[Hj Hlj]|[-> ->]]%Hsplit Hk'; [by apply (Hbest j s')|].
      simplify_eq. apply lookup_lt_Some in Hi. split; [lia|]. lia.
  - cbn. exists (length l). split_and!; [done|done|]. intros j s' k' [[Hj Hlj]|[-> ->]]%Hsplit Hk'; [|simplify_eq; lia].
    rewrite (H s') in Hk'; [done|]. by eapply list_elem_of_lookup_2.
  - destruct r as [[b s0]|]; cbn in H |- *.
    + destruct H as (i & Hi & Hb & Hbest). exists i. split_and!; [by apply lookup_app_l_Some|done|].
      intros j s' k' [[Hj _]|[-> ->]]%Hsplit Hk'; [by apply (Hbest j s')|congruence].
    + intros s' [Hs'|Hs']%elem_of_app; [by apply H|]. by apply list_elem_of_singleton in Hs' as ->.
Qed.

Lemma foldl_best l l0 r : is_best l0 r → is_best (l0 ++ l) (foldl best_step r l).
Proof.
  revert l0 r. induction l as [|s l IH]; intros l0 r H; cbn; [by rewrite app_nil_r|].
  replace (l0 ++ s :: l) with ((l0 ++ [s]) ++ l) by by rewrite <- app_assoc. apply IH, best_step_ok, H.
Qed.
End Best.

Lemma pick_best_ok q key better m from : (∀ a b, better a b = (m b <? m a)) →
  is_best (fun s => schedulable q s ≫= key) m (slots_from from) (pick_best q key better from).
Proof. intros Hm. apply (foldl_best (fun s => schedulable q s ≫= key) better m Hm (slots_from from) []). cbn. intros s ?%elem_of_nil. done. Qed.

(** The same, slot by slot. *)
Lemma picked q key better m from : queue_ok q → (from < 8)%nat → (∀ a b, better a b = (m b <? m a)) →
  match pick_best q key better from with
  | Some (k, n) => (∃ t, schedulable q n = Some t ∧ key t = Some k) ∧
      ∀ s t k', schedulable q s = Some t → key t = Some k' → m k' ≤ m k ∧ (m k' = m k → (rank from n ≤ rank from s)%nat)
  | None => ∀ s t, schedulable q s = Some t → key t = None
  end.
Proof.
  intros [Hl _] Hf Hm. pose proof (pick_best_ok q key better m from Hm) as H.
  assert (Hin : ∀ s t, schedulable q s = Some t → slots_from from !! rank from s = Some s).
  { intros s t Hs. apply slots_from_rank; [done|]. by eapply schedulable_slot. }
  destruct (pick_best q key better from) as [[k n]|]; cbn in H.
  - destruct H as (i & Hi & Hk & Hbest). apply slots_from_lookup in Hi as [<- _]; [|done]. apply bind_Some in Hk as (t & Ht & Hk).
    split; [by exists t|]. intros s t' k' Hs Hk'. apply (Hbest (rank from s) s k'); [by eapply Hin|]. by rewrite Hs.
  - intros s t Hs. specialize (H s). rewrite Hs in H. apply H. eapply list_elem_of_lookup_2. by eapply Hin.
Qed.

Lemma fair_key_some t k : fair_key t = Some k ↔ is_fair (policy t) = true ∧ k = deadline t.
Proof. unfold fair_key. destruct (is_fair (policy t)); naive_solver. Qed.
Lemma fair_key_none t : fair_key t = None ↔ is_fair (policy t) = false.
Proof. unfold fair_key. destruct (is_fair (policy t)); naive_solver. Qed.

Lemma first_runnable q from : queue_ok q → (from < 8)%nat →
  match head (filter (fun slot => is_Some (schedulable q slot)) (slots_from from)) with
  | Some n => ∃ t, schedulable q n = Some t ∧ ∀ s t', schedulable q s = Some t' → (rank from n ≤ rank from s)%nat
  | None => ∀ s, schedulable q s = None
  end.
Proof.
  intros [Hl _] Hf. pose proof (fun s Hs => slots_from_rank from Hf s Hs) as Hr.
  assert (Hgen : ∀ l : list nat, match head (filter (fun slot => is_Some (schedulable q slot)) l) with
    | Some n => ∃ t i, l !! i = Some n ∧ schedulable q n = Some t ∧ ∀ j s t', l !! j = Some s → schedulable q s = Some t' → (i ≤ j)%nat
    | None => ∀ s, s ∈ l → schedulable q s = None end).
  { induction l as [|x l IH]; [cbn; by intros s ?%elem_of_nil|]. rewrite filter_cons. destruct (schedulable q x) as [t|] eqn:Hx.
    - rewrite decide_True by done. cbn. exists t, 0%nat. split_and!; [done|done|]. intros; lia.
    - rewrite decide_False by (by intros [? ?]). destruct (head _) as [n|].
      + destruct IH as (t & i & Hi & Ht & Hmin). exists t, (S i). split_and!; [done|done|]. intros [|j] s t' Hj Hs; [simplify_eq/=; congruence|].
        specialize (Hmin j s t' Hj Hs). lia.
      + intros s [-> |Hs]%elem_of_cons; [done|by apply IH]. }
  specialize (Hgen (slots_from from)). destruct (head _) as [n|].
  - destruct Hgen as (t & i & Hi & Ht & Hmin). apply slots_from_lookup in Hi as [<- _]; [|done]. exists t. split; [done|]. intros s t' Hs.
    apply (Hmin _ s t'); [|done]. apply Hr. by eapply schedulable_slot.
  - intros s. destruct (schedulable q s) as [t|] eqn:Hs; [|done]. rewrite (Hgen s) in Hs; [done|].
    eapply list_elem_of_lookup_2, Hr. by eapply schedulable_slot.
Qed.

Lemma ltb_opp a b : (a <? b) = (- b <? - a).
Proof. destruct (Z.ltb_spec a b), (Z.ltb_spec (- b) (- a)); done || lia. Qed.

Lemma pick_next_chooses q from : queue_ok q → (from < 8)%nat → Choice q from (pick_next q from).
Proof.
  intros Hq Hf. unfold pick_next.
  pose proof (picked q rt_key (fun k b => b <? k) (fun x => x) from Hq Hf (fun _ _ => eq_refl)) as Hrt.
  destruct (pick_best q rt_key _ from) as [[p n]|].
  - destruct Hrt as [(t & Ht & Hk) Hbest]. cbv beta in Hbest. destruct (fifo_keeps q from p) eqn:Hfifo.
    + unfold fifo_keeps in Hfifo. revert Hfifo. destruct (schedulable q from) as [t'|] eqn:Ht'; [|done].
      destruct (policy t') as [mine [|] u|w|] eqn:Hpol; try done. intros Hfifo. eapply ChoiceFifo; [done|done|].
      intros s t'' p' Hs Hk'. destruct (Hbest s t'' p' Hs Hk'). lia.
    + eapply ChoiceRt; [done|done|done|]. intros t' p' u Ht' Hpol. unfold fifo_keeps in Hfifo. rewrite Ht', Hpol in Hfifo. lia.
  - pose proof (picked q fair_key (fun k b => k <? b) Z.opp from Hq Hf ltb_opp) as Hfair.
    destruct (pick_best q fair_key _ from) as [[d n]|].
    + destruct Hfair as [(t & Ht & Hk) Hbest]. apply fair_key_some in Hk as [Hk ->]. eapply ChoiceFair; [done|done|done|].
      intros s t' Hs Hfa. destruct (Hbest s t' (deadline t') Hs) as [H1 H2]; [by apply fair_key_some|]. split; lia.
    + pose proof (first_runnable q from Hq Hf) as Hfirst. destruct (head _) as [n|]; cbn.
      * destruct Hfirst as (t & Ht & Hmin). eapply ChoiceIdle; [|done|done]. intros s t' Hs. split; [by eapply Hrt|]. by apply fair_key_none, (Hfair s).
      * by apply ChoiceNone.
Qed.

Lemma rank_inj from a b : (from < 8)%nat → (a < 8)%nat → (b < 8)%nat → rank from a = rank from b → a = b.
Proof. intros Hf Ha Hb H. pose proof (slots_from_rank from Hf a Ha) as H1. rewrite H, slots_from_rank in H1 by done. by simplify_eq. Qed.

Lemma rt_key_fair t p : rt_key t = Some p → is_fair (policy t) = false.
Proof. unfold rt_key, is_fair. by destruct (policy t). Qed.

(** The relation leaves no choice. *)
Lemma choice_unique q from a b : queue_ok q → (from < 8)%nat → Choice q from a → Choice q from b → a = b.
Proof.
  intros [Hl _] Hf Ha Hb. assert (Hs : ∀ s t, schedulable q s = Some t → (s < 8)%nat) by (intros; by eapply schedulable_slot).
  assert (Hk : ∀ t p pol u, policy t = RealTime p pol u → rt_key t = Some p) by (intros t p pol u E; unfold rt_key; by rewrite E).
  assert (Hinj : ∀ n m t t', schedulable q n = Some t → schedulable q m = Some t' →
    (rank from n ≤ rank from m)%nat → (rank from m ≤ rank from n)%nat → n = m).
  { intros n m t t' Hn Hm H1 H2. apply (rank_inj from); eauto. lia. }
  destruct Ha as [t p u Ht Hp Hmax|n t p Ht Hp Hmax Hno|n t Hrt Ht Hp Hmax|n t Hno Ht Hmin|Hnone];
  destruct Hb as [t' p' u' Ht' Hp' Hmax'|n' t' p' Ht' Hp' Hmax' Hno'|n' t' Hrt' Ht' Hp' Hmax'|n' t' Hno' Ht' Hmin'|Hnone'];
    try done; try congruence;
    try (pose proof (Hk _ _ _ _ Hp) as Hkt); try (pose proof (Hk _ _ _ _ Hp') as Hkt');
    try (pose proof (Hno' _ _ _ Ht Hp)); try (pose proof (Hno _ _ _ Ht' Hp'));
    try (pose proof (Hmax _ _ _ Ht' Hp')); try (pose proof (Hmax' _ _ _ Ht Hp)); try (pose proof (Hmax _ _ _ Ht' Hkt')); try (pose proof (Hmax' _ _ _ Ht Hkt));
    try (pose proof (Hmax _ _ Ht' Hp')); try (pose proof (Hmax' _ _ Ht Hp));
    try (pose proof (Hrt _ _ Ht')); try (pose proof (Hrt' _ _ Ht)); try (pose proof (Hno _ _ Ht')); try (pose proof (Hno' _ _ Ht));
    try (pose proof (Hmin _ _ Ht')); try (pose proof (Hmin' _ _ Ht)); destruct_and?; try congruence; try lia;
    try (eapply Hinj; [done|done|lia|lia]).
Qed.

(** C34. [pick_next] implements the policy: for every queue and every slot it stands
    on, the slot it answers is the one the declarative rule allows, and the only one.
    Strict priority between the classes; highest priority first, a first-in-first-out
    thread keeping the CPU against an equal; the earliest virtual deadline, ties in
    rotation; and nothing blocked or finished is ever chosen. *)
Theorem pick_next_is_the_policy q from n : queue_ok q → (from < MAX_THREADS_PER_CPU)%nat → Choice q from n ↔ n = pick_next q from.
Proof.
  intros Hq Hf. split; [|intros ->; by apply pick_next_chooses]. intros H. eapply choice_unique; [done|done|done|by apply pick_next_chooses].
Qed.

Definition demo_thread (tid : Z) (p : Policy) (s : State) : Thread := charge (set_state (Machine.new_thread tid p 3000 false NO_DOMAIN 0) s) 0.
(** An idle thread, a running fair one, and a first-in-first-out one that has just
    been woken. *)
Definition demo_queue : RunQueue :=
  MkRunQueue ([Some (demo_thread 1 Idle Ready); Some (demo_thread 2 (Fair 1024) Running); Some (demo_thread 3 (RealTime 50 Fifo 10) Ready)]
              ++ replicate 5 None) 1 true 0 0 false.

Lemma demo_queue_ok : queue_ok demo_queue.
Proof. split; vm_compute; [done|lia]. Qed.

Lemma pick_next_is_the_policy_witness : Choice demo_queue 1 2.
Proof. apply (pick_next_is_the_policy demo_queue 1 2 demo_queue_ok); [vm_compute; lia|vm_compute; reflexivity]. Defined.

(** ** Threads are neither lost nor copied *)

(** Everything of a thread but its accounting, and of its state only whether it
    sleeps or is over: switching between [Ready] and [Running] does not show. *)
Definition parked (s : State) : option State := match s with Blocked | Finished => Some s | _ => None end.
Record View : Type := MkView {
  v_id : Z; v_parked : option State; v_pinned : bool; v_reply_to : option Z; v_call_refused : option Z;
  v_domain : Z; v_answer_lost : bool; v_dying : bool; v_mailbox : option (Message * Z); v_policy : Policy
}.
Definition view (t : Thread) : View :=
  MkView (id t) (parked (state t)) (pinned t) (reply_to t) (call_refused t) (domain t) (answer_lost t) (dying t) (mailbox t) (policy t).

Definition views (q : RunQueue) : list View := view <$> present q.
Definition all_views (w : list RunQueue) : list View := concat (views <$> w).
Definition tids (q : RunQueue) : list Z := id <$> present q.
Definition all_tids (w : list RunQueue) : list Z := concat (tids <$> w).
Lemma all_tids_views w : all_tids w = v_id <$> all_views w.
Proof.
  unfold all_tids, all_views. induction w as [|q w IH]; [done|]. cbn [concat fmap list_fmap]. rewrite fmap_app, <- IH. f_equal.
  unfold tids, views. by rewrite <- list_fmap_compose.
Qed.
Definition world_ok (w : list RunQueue) : Prop := Forall queue_ok w.

Lemma present_put q slot t : threads q !! slot = Some None →
  views (set_threads q (<[slot := Some t]> (threads q))) ≡ₚ view t :: views q.
Proof.
  intros H. unfold views, present. destruct (occupied_insert _ _ _ (Some t) H) as [H1 H2]. cbn [threads set_threads]. rewrite H2, H1. done.
Qed.
Lemma present_take q slot t : threads q !! slot = Some (Some t) →
  views q ≡ₚ view t :: views (set_threads q (<[slot := None]> (threads q))).
Proof. intros H. unfold views, present. destruct (occupied_insert _ _ _ None H) as [H1 _]. cbn [threads set_threads]. by rewrite H1. Qed.

Lemma views_fmap f q : (∀ t, view (f t) = view t) → views (set_threads q (map (option_map f) (threads q))) = views q.
Proof.
  intros H. unfold views, present, occupied. cbn [threads set_threads]. induction (threads q) as [|[t|] l IH]; csimpl; [done| |done]. by rewrite H, IH.
Qed.

Lemma views_on_thread q slot f : (∀ t, threads q !! slot = Some (Some t) → view (f t) = view t) → views (on_thread q slot f) = views q.
Proof.
  intros H. unfold on_thread. destruct (threads q !! slot) as [[t|]|] eqn:E; try done. unfold views, present, occupied. cbn [threads set_threads].
  rewrite (insert_take_drop _ _ _ (lookup_lt_Some _ _ _ E)). rewrite <- (take_drop_middle _ _ _ E) at 3.
  rewrite !omap_app. csimpl. by rewrite !fmap_app, !fmap_cons, H by done.
Qed.

Lemma queue_ok_on_thread q slot f : queue_ok q → queue_ok (on_thread q slot f).
Proof. intros [H1 H2]. unfold on_thread. destruct (threads q !! slot) as [[t|]|]; split; try done. cbn. by rewrite length_insert. Qed.

Lemma view_charge t d : view (charge t d) = view t.
Proof. unfold charge, view. destruct (policy t) eqn:E; cbn; by rewrite ?E. Qed.
Lemma view_clamp c t : view (clamp c t) = view t.
Proof. unfold clamp. destruct (_ && _); [|done]. by rewrite view_charge. Qed.

Lemma advance_keeps q : views (advance_min_vruntime q) = views q ∧ current (advance_min_vruntime q) = current q ∧
  (queue_ok q → queue_ok (advance_min_vruntime q)).
Proof.
  unfold advance_min_vruntime. destruct (max_list _) as [s|]; [|done]. split_and!; [|done|].
  - rewrite views_fmap; [done|]. intros; apply view_clamp.
  - intros [H1 H2]. split; [|done]. cbn. by rewrite length_map.
Qed.

Lemma account_keeps q now : views (Machine.account q now) = views q ∧ current (Machine.account q now) = current q ∧
  (queue_ok q → queue_ok (Machine.account q now)).
Proof.
  unfold Machine.account. destruct (advance_keeps (on_thread q (current q) (fun t => set_started (charge t (saturating_sub now (last_start t))) now))) as (H1 & H2 & H3).
  rewrite H1, H2. split_and!.
  - apply views_on_thread. intros t _. apply (view_charge t).
  - unfold on_thread. by destruct (threads q !! current q) as [[t|]|].
  - intros Hq. by apply H3, queue_ok_on_thread.
Qed.

Lemma renew_keeps q now : views (Machine.renew_slice q now) = views q ∧ current (Machine.renew_slice q now) = current q ∧
  threads (Machine.renew_slice q now) = threads q ∧ (queue_ok q → queue_ok (Machine.renew_slice q now)).
Proof. unfold Machine.renew_slice. destruct (_ <=? _); [|done]. by destruct (threads q !! current q) as [[t|]|]. Qed.

Lemma dispatch_keeps q next now q' u : queue_ok q → threads q !! next = Some (Some u) → is_schedulable (state u) = true →
  Machine.dispatch q next now = Done q' → views q' = views q ∧ queue_ok q'.
Proof.
  intros Hq Hu Hsch H. unfold Machine.dispatch in H. set (f := fun t => if bool_decide (state t = Running) then set_state t Ready else t) in H.
  assert (Hf : ∀ t, view (f t) = view t ∧ (is_schedulable (state t) = true → is_schedulable (state (f t)) = true)).
  { intros t. unfold f. case_bool_decide as E; [|done]. unfold view. cbn. by rewrite E. }
  set (q1 := on_thread q (current q) f) in H. assert (Hq1 : queue_ok q1) by by apply queue_ok_on_thread.
  assert (Ht1 : views q1 = views q) by (apply views_on_thread; intros; apply Hf).
  assert (Hu1 : ∃ u', threads q1 !! next = Some (Some u') ∧ is_schedulable (state u') = true).
  { unfold q1, on_thread. destruct (threads q !! current q) as [[t|]|] eqn:Et; [|by exists u|by exists u]. cbn [threads set_threads].
    destruct (decide (next = current q)) as [->|Hne]; [|rewrite list_lookup_insert_ne by done; by exists u].
    assert (u = t) as -> by congruence. exists (f t). rewrite list_lookup_insert_eq by by eapply lookup_lt_Some. split; [done|]. by apply Hf. }
  destruct Hu1 as (u1 & Hu1 & Hs1). rewrite (at_index_ok _ _ _ Hu1) in H. cbn [mbind outcome_bind] in H.
  apply outcome_bind_done in H as (q2 & H2 & H). apply outcome_bind_done in H as (leaving & Hl & H). apply outcome_bind_done in H as (arriving & Ha & H).
  apply outcome_bind_done in H2 as (r & _ & H2). injection H2 as <-. set (q2 := on_thread q1 next _) in *.
  assert (Hq2 : queue_ok q2) by by apply queue_ok_on_thread.
  assert (Ht2 : views q2 = views q1).
  { apply views_on_thread. intros t Ht. assert (t = u1) as -> by congruence. unfold view. cbn. destruct (state u1); try done. }
  apply at_index_done in Ha. injection H as <-. destruct leaving, arriving; try (split; congruence).
  split; [|split]; [unfold views, present in *; cbn [threads set_switching set_current set_slice_deadline]; congruence|apply Hq2|]. cbn. apply lookup_lt_Some in Ha. destruct Hq2 as [<- _]. done.
Qed.

(** A switch is to a thread that can run. *)
Lemma switch_schedulable q : queue_ok q → pick_next q (current q) ≠ current q →
  ∃ u, threads q !! pick_next q (current q) = Some (Some u) ∧ is_schedulable (state u) = true.
Proof.
  intros Hq Hne. assert (H : ∃ u, schedulable q (pick_next q (current q)) = Some u).
  { destruct (pick_next_chooses q (current q) Hq (proj2 Hq)); try done; eauto. }
  destruct H as [u Hu]. exists u. unfold schedulable in Hu. destruct (threads q !! _) as [[t|]|]; try done. destruct (is_schedulable (state t)) eqn:E; [|done]. by simplify_eq.
Qed.

(** ** Stealing *)
Lemma position_imap (l : list (option Thread)) (p : nat → option Thread → bool) i :
  position (fun '(index, slot) => p index slot) (imap pair l) = Some i → ∃ e, l !! i = Some e ∧ p i e = true.
Proof.
  intros ([[j e] [Hx Hp]] & _)%position_some. rewrite list_lookup_imap in Hx. destruct (l !! i) as [e'|] eqn:E; [|done].
  injection Hx as <- <-. by exists e'.
Qed.

(** What a thief may take: a ready thread of a settled queue, that the victim is not
    standing on, that is neither pinned nor real-time, and only from a queue with
    at least two more runnable threads than the thief's. *)
Record stealable (theirs : RunQueue) (my_load slot : nat) (t : Thread) : Prop := {
  st_here : threads theirs !! slot = Some (Some t);
  st_settled : switching theirs = false;
  st_other : slot ≠ current theirs;
  st_ready : state t = Ready;
  st_pinned : pinned t = false;
  st_class : is_real_time (policy t) = false;
  st_load : (my_load + STEAL_IMBALANCE ≤ runnable theirs)%nat
}.

Lemma steal_candidate_ok theirs my_load slot : steal_candidate theirs my_load = Some slot → ∃ t, stealable theirs my_load slot t.
Proof.
  unfold steal_candidate. destruct (switching theirs) eqn:Hs; [done|]. destruct (Nat.ltb_spec (runnable theirs) (my_load + STEAL_IMBALANCE)) as [|Hge]; [done|].
  intros (e & He & Hp)%position_imap. unfold may_steal in Hp. apply andb_true_iff in Hp as [Hc Hp]. destruct e as [t|]; [|done].
  rewrite !andb_true_iff, bool_decide_eq_true, !negb_true_iff in Hp. destruct Hp as [[? ?] ?]. exists t. split; try done.
  intros ->. by rewrite Nat.eqb_refl in Hc.
Qed.

Definition without (q : RunQueue) (slot : nat) : RunQueue := set_threads q (<[slot := None]> (threads q)).
Definition with_thread (q : RunQueue) (slot : nat) (t : Thread) : RunQueue := set_threads q (<[slot := Some t]> (threads q)).
Definition moved (t : Thread) : Thread := set_counts t (runs t) (migrations t + 1) (woken_at t).

Lemma steal_from_ok w busy mine load free victims w' mine' :
  Machine.steal_from w busy mine load free victims = Done (Some (w', mine')) →
  ∃ victim theirs slot t, victim ∈ victims ∧ busy victim = false ∧ w !! victim = Some theirs ∧ stealable theirs load slot t ∧
    w' = <[victim := without theirs slot]> w ∧ mine' = with_thread mine free (moved t).
Proof.
  induction victims as [|victim victims IH]; intros H; cbn in H; [done|].
  assert (Hrest : Machine.steal_from w busy mine load free victims = Done (Some (w', mine')) →
    ∃ v theirs slot t, v ∈ victim :: victims ∧ busy v = false ∧ w !! v = Some theirs ∧ stealable theirs load slot t ∧
      w' = <[v := without theirs slot]> w ∧ mine' = with_thread mine free (moved t)).
  { intros (v & th & sl & t & Hin & Hr)%IH. exists v, th, sl, t. split; [by right|done]. }
  destruct (busy victim) eqn:Hb; [by apply Hrest|]. apply outcome_bind_done in H as (theirs & Ht & H). apply at_index_done in Ht.
  destruct (steal_candidate theirs load) as [slot|] eqn:Hc; [|by apply Hrest]. apply outcome_bind_done in H as (taken & Hk & H).
  apply at_index_done in Hk. destruct taken as [t|]; [|by apply Hrest]. apply outcome_bind_done in H as (m & Hm & H).
  unfold add_checked in Hm. apply checked_done in Hm as [-> _]. injection H as <- <-.
  destruct (steal_candidate_ok _ _ _ Hc) as (t' & Hst). assert (t' = t) as -> by (pose proof (st_here _ _ _ _ Hst); congruence).
  exists victim, theirs, slot, t. split_and!; try done. left.
Qed.

Lemma victims_other cpu online v : (cpu < online)%nat → v ∈ ((fun offset => (cpu + offset) mod online)%nat <$> seq 1 (online - 1)) → v ≠ cpu.
Proof.
  intros Hc (o & -> & [Ho1 Ho2]%elem_of_seq)%list_elem_of_fmap. destruct (decide (cpu + o < online)%nat).
  - rewrite Nat.mod_small by done. lia.
  - replace (cpu + o)%nat with (cpu + o - online + 1 * online)%nat by lia. rewrite Nat.Div0.mod_add, Nat.mod_small by lia. lia.
Qed.

(** The load figure follows a thread in and out. *)
Lemma count_perm {A} (p : A → bool) (l l' : list A) : l ≡ₚ l' → count p l = count p l'.
Proof. unfold count. intros H. induction H as [|x l l' _ IH|x y l|l l' l'' _ IH1 _ IH2]; cbn; [done| | |lia]; repeat case_match; cbn; lia. Qed.
Lemma runnable_put q slot t : threads q !! slot = Some None →
  runnable (with_thread q slot t) = (runnable q + if is_schedulable (state t) then 1 else 0)%nat.
Proof.
  intros H. destruct (occupied_insert _ _ _ (Some t) H) as [H1 H2]. unfold runnable, present, with_thread. cbn [threads set_threads].
  rewrite (count_perm _ _ _ H2), (count_perm _ _ _ H1). unfold count. cbn. destruct (is_schedulable (state t)); cbn; lia.
Qed.
Lemma runnable_take q slot t : threads q !! slot = Some (Some t) →
  runnable q = (runnable (without q slot) + if is_schedulable (state t) then 1 else 0)%nat.
Proof.
  intros H. destruct (occupied_insert _ _ _ None H) as [H1 _]. unfold runnable, present, without. cbn [threads set_threads].
  rewrite (count_perm _ _ _ H1). unfold count. cbn. destruct (is_schedulable (state t)); cbn; lia.
Qed.

(** What a CPU takes from another. When [try_steal] moves a thread, it took it
    from another CPU's queue whose lock it could have, which was not in the middle of
    a switch; the thread was ready, not the one that CPU stands on, neither pinned
    nor real-time; it went into a free slot and left the rest of both queues alone;
    and the queue it came from still has at least as many runnable threads as the
    thief's, so the two do not hand it back and forth. *)
Theorem steal_takes_only_what_it_may w busy cpu mine w' mine' free :
  (cpu < length w)%nat → Machine.try_steal w busy cpu mine = Done (Some (w', mine', free)) →
  ∃ victim theirs slot t, victim ≠ cpu ∧ busy victim = false ∧ w !! victim = Some theirs ∧ stealable theirs (runnable mine) slot t ∧
    threads mine !! free = Some None ∧ w' = <[victim := without theirs slot]> w ∧ mine' = with_thread mine free (moved t) ∧
    (runnable mine' ≤ runnable (without theirs slot))%nat.
Proof.
  intros Hc H. unfold Machine.try_steal in H. destruct (length w <? 2)%nat; [done|].
  destruct (free_slot mine) as [f|] eqn:Hf; [|done]. apply outcome_bind_done in H as ([[w1 m1]|] & Hs & H); [|done]. injection H as -> -> ->.
  destruct (steal_from_ok _ _ _ _ _ _ _ _ Hs) as (victim & theirs & slot & t & Hin & Hb & Ht & Hst & -> & ->).
  apply position_some in Hf as [(e & He & Hn) _]. apply bool_decide_eq_true in Hn as ->.
  exists victim, theirs, slot, t. split_and!; try done; [by eapply victims_other|].
  pose proof (runnable_put mine free (moved t) He). pose proof (runnable_take theirs slot t (st_here _ _ _ _ Hst)).
  pose proof (st_load _ _ _ _ Hst). pose proof (st_ready _ _ _ _ Hst) as Hr. unfold STEAL_IMBALANCE in *. cbn in *. rewrite Hr in *. cbn in *. lia.
Qed.

(** Replacing one queue. *)
Lemma all_views_insert w i q q' : w !! i = Some q → all_views (<[i := q']> w) ++ views q ≡ₚ all_views w ++ views q'.
Proof.
  intros H. unfold all_views. rewrite (insert_take_drop _ _ _ (lookup_lt_Some _ _ _ H)). rewrite <- (take_drop_middle _ _ _ H) at 3.
  rewrite !fmap_app, !fmap_cons, !concat_app. cbn [concat]. rewrite <- !app_assoc.
  apply Permutation_app_head. rewrite (Permutation_app_comm (concat _) (views q)), (Permutation_app_comm (concat _) (views q')), !app_assoc.
  apply Permutation_app_tail, Permutation_app_comm.
Qed.

Lemma insert_same_views w i q q' : w !! i = Some q → views q' ≡ₚ views q → all_views (<[i := q']> w) ≡ₚ all_views w.
Proof. intros H Ht. pose proof (all_views_insert w i q q' H) as Hp. rewrite Ht in Hp. by apply Permutation_app_inv_r in Hp. Qed.

Lemma world_insert w i q : world_ok w → queue_ok q → world_ok (<[i := q]> w).
Proof. intros. by apply Forall_insert. Qed.
Lemma queue_ok_set q slot e : queue_ok q → queue_ok (set_threads q (<[slot := e]> (threads q))).
Proof. intros [H1 H2]. split; [|done]. cbn. by rewrite length_insert. Qed.

(** A theft, put back into the world. *)
Lemma steal_keeps w busy cpu q0 mine w' mine' free :
  world_ok w → w !! cpu = Some q0 → queue_ok mine → views mine = views q0 → Machine.try_steal w busy cpu mine = Done (Some (w', mine', free)) →
  world_ok w' ∧ queue_ok mine' ∧ length w' = length w ∧
  (∃ u, threads mine' !! free = Some (Some u) ∧ is_schedulable (state u) = true) ∧ ∀ q', views q' = views mine' → all_views (<[cpu := q']> w') ≡ₚ all_views w.
Proof.
  intros Hw Hq0 Hm Ht H. pose proof H as Hst. unfold Machine.try_steal in H. destruct (length w <? 2)%nat; [done|].
  destruct (free_slot mine) as [f|] eqn:Hf; [|done]. apply outcome_bind_done in H as ([[w1 m1]|] & Hs & H); [|done]. injection H as -> -> ->.
  destruct (steal_from_ok _ _ _ _ _ _ _ _ Hs) as (victim & theirs & slot & t & Hin & Hb & Hth & Hok & -> & ->).
  apply position_some in Hf as [(e & He & Hn) _]. apply bool_decide_eq_true in Hn as ->.
  assert (Hne : victim ≠ cpu) by (eapply victims_other; [by eapply lookup_lt_Some|done]).
  pose proof (Forall_lookup_1 _ _ _ _ Hw Hth) as Hthok. split_and!.
  - by apply world_insert, queue_ok_set.
  - by apply queue_ok_set.
  - by rewrite length_insert.
  - exists (moved t). cbn. rewrite list_lookup_insert_eq by by eapply lookup_lt_Some. split; [done|]. by rewrite (st_ready _ _ _ _ Hok).
  - intros q' Hq'. pose proof (all_views_insert w victim theirs (without theirs slot) Hth) as H1.
    rewrite (present_take theirs slot t (st_here _ _ _ _ Hok)) in H1. fold (without theirs slot) in H1.
    assert (Hp1 : view t :: all_views (<[victim := without theirs slot]> w) ≡ₚ all_views w).
    { apply (Permutation_app_inv_r (views (without theirs slot))). rewrite <- H1. by rewrite <- Permutation_middle. }
    assert (Hq0' : <[victim := without theirs slot]> w !! cpu = Some q0) by by rewrite list_lookup_insert_ne.
    pose proof (all_views_insert _ cpu q0 q' Hq0') as H2. rewrite Hq' in H2. unfold with_thread in H2. rewrite (present_put _ _ _ He) in H2. rewrite Ht in H2.
    rewrite <- Hp1. apply (Permutation_app_inv_r (views q0)). rewrite H2. by rewrite <- Permutation_middle.
Qed.

Lemma preempt_keeps w busy cpu now w' :
  world_ok w → Machine.preempt w busy cpu now = Done w' → all_views w' ≡ₚ all_views w ∧ world_ok w' ∧ length w' = length w.
Proof.
  intros Hw H. unfold Machine.preempt in H. apply outcome_bind_done in H as (q & Hq & H). apply at_index_done in Hq.
  destruct (negb (started q)); [by injection H as <-|]. pose proof (Forall_lookup_1 _ _ _ _ Hw Hq) as Hqok.
  destruct (account_keeps q now) as (Ha & _ & Haok). set (q1 := Machine.account q now) in *.
  destruct (renew_keeps q1 now) as (Hr & _ & _ & Hrok). set (q2 := Machine.renew_slice q1 now) in *.
  assert (Hq2 : queue_ok q2) by auto. assert (Ht2 : views q2 = views q) by congruence.
  destruct (Nat.eqb_spec (pick_next q2 (current q2)) (current q2)) as [_|Hne].
  - apply outcome_bind_done in H as (r & Hs & H). destruct r as [[[w1 q3] stolen]|].
    + destruct (steal_keeps _ _ _ _ _ _ _ _ Hw Hq Hq2 Ht2 Hs) as (Hw1 & Hq3 & Hl & (u & Hu & Hsu) & Hall). apply outcome_bind_done in H as (q4 & Hd & H). injection H as <-.
      destruct (dispatch_keeps _ _ _ _ _ Hq3 Hu Hsu Hd) as [Ht4 Hq4]. split_and!; [by apply Hall|by apply world_insert|by rewrite length_insert].
    + injection H as <-. split_and!; [eapply insert_same_views; [done|by rewrite Ht2]|by apply world_insert|by rewrite length_insert].
  - destruct (switch_schedulable q2 Hq2 Hne) as (u & Hu & Hsu). apply outcome_bind_done in H as (q4 & Hd & H). injection H as <-.
    destruct (dispatch_keeps _ _ _ _ _ Hq2 Hu Hsu Hd) as [Ht4 Hq4].
    split_and!; [eapply insert_same_views; [done|by rewrite Ht4, Ht2]|by apply world_insert|by rewrite length_insert].
Qed.

(** C35. Preemption neither loses nor copies a thread: whatever it decides, to stay,
    to switch, or to steal from another CPU, the queues together hold exactly the
    threads they held before, each with its messages and obligations, and the same
    ones of them asleep; and every queue still stands on one of its slots. *)
Theorem preempt_keeps_every_thread w busy cpu now w' :
  world_ok w → Machine.preempt w busy cpu now = Done w' → all_views w' ≡ₚ all_views w ∧ world_ok w' ∧ length w' = length w.
Proof. apply preempt_keeps. Qed.

(** Two CPUs: the first about to idle, the second with three threads of its own. *)
Definition demo_world : list RunQueue :=
  [ MkRunQueue (Some (demo_thread 1 Idle Running) :: replicate 7 None) 0 true 0 0 false;
    MkRunQueue ([Some (demo_thread 2 (Fair 1024) Running); Some (demo_thread 3 (Fair 1024) Ready); Some (demo_thread 4 (Fair 512) Ready)]
                ++ replicate 5 None) 0 true 0 0 false ].
Lemma demo_world_ok : world_ok demo_world.
Proof. repeat constructor; vm_compute; lia. Qed.

Lemma steal_takes_only_what_it_may_witness : ∃ victim theirs slot t,
  demo_world !! victim = Some theirs ∧ victim ≠ 0%nat ∧ stealable theirs 1 slot t.
Proof.
  destruct (Machine.try_steal demo_world (fun _ => false) 0 (nth 0 demo_world demo_queue)) as [[[[w' m'] f]|]| |] eqn:E; try (vm_compute in E; discriminate E).
  destruct (steal_takes_only_what_it_may demo_world (fun _ => false) 0 (nth 0 demo_world demo_queue) w' m' f) as (victim & theirs & slot & t & Hne & _ & Hw & Hs & _);
    [vm_compute; lia|exact E|]. exists victim, theirs, slot, t. split; [exact Hw|]. split; [exact Hne|exact Hs].
Defined.

Definition after_preempt : list RunQueue :=
  match Machine.preempt demo_world (fun _ => false) 0 5000 with Done w => w | _ => [] end.
Lemma preempt_keeps_every_thread_witness : all_views after_preempt ≡ₚ all_views demo_world ∧ tids (nth 0 after_preempt demo_queue) = [1; 3].
Proof.
  split; [|vm_compute; reflexivity].
  exact (proj1 (preempt_keeps_every_thread demo_world (fun _ => false) 0 5000 after_preempt demo_world_ok ltac:(vm_compute; reflexivity))).
Defined.

(** ** Creating a thread *)

(** [spawn_on_with] on CPU 0, with a timer tick on CPU 0 between its two halves. *)
Definition spawn_race : outcome (list RunQueue) :=
  '(r, w) ← Machine.spawn_reserve demo_world 0 (Fair 1024);
  match r with
  | Ok (slot, floor) =>
      w ← Machine.preempt w (fun _ => false) 0 5000;
      w ← Machine.finish_switch w 0;
      Machine.spawn_insert w 0 slot (Machine.new_thread 9 (Fair 1024) 3000 false NO_DOMAIN floor)
  | Err _ => Panic
  end.

(** Creating a thread can destroy another. The slot [spawn_on_with] finds is not
    marked as taken when it gives the queue's lock up to allocate a stack, and
    [try_steal] looks for a free slot in the same queue: here CPU 0 steals thread 3
    into the slot in between and switches to it, and the insertion overwrites it.
    Thread 3, which CPU 0 is running, is in no queue any more, and CPU 0 stands on
    the slot of a thread that has never run. *)
Theorem spawn_can_lose_a_running_thread :
  match spawn_race with
  | Done w => 3 ∈ all_tids demo_world ∧ ¬ (3 ∈ all_tids w) ∧ (tids <$> w) = [[1; 9]; [2; 4]] ∧ (current <$> head w) = Some 1%nat
  | _ => False
  end.
Proof. vm_compute. split_and!; try reflexivity; [right; right; left|set_solver]. Qed.
