(* ===== verification/SchedFair.v ===== *)
(** Whether a runnable thread runs. On one CPU, ticked at intervals by [preempt], a
    fair thread that waits is dispatched within a bound computed from the deadlines
    of the others, provided no slice, as its thread feels it, is longer than the
    lead the virtual clock allows; and a thread light enough to break that proviso,
    as one of a domain of ten threads is, may never be dispatched at all. *)
From stdpp Require Import prelude numbers list.
From S2P Require Import Prelude Sched SchedPolicy.
Import Queue.
Open Scope Z_scope.
Set Warnings "-clear-no-such-hyp".

(** One tick of a machine with one CPU: [preempt], and the switch it chose. *)
Definition tick (q : RunQueue) (now : Z) : outcome RunQueue :=
  w ← Machine.preempt [q] (fun _ => false) 0 now;
  w ← Machine.finish_switch w 0;
  at_index w 0.

Fixpoint ticks (q : RunQueue) (times : list Z) : outcome RunQueue :=
  match times with [] => Done q | now :: times' => q ← tick q now; ticks q times' end.

(** A slice, as the thread feels it. *)
Definition share (t : Thread) : Z := match policy t with Fair weight => scaled (slice_ticks t) weight | _ => 0 end.
Definition weight_of (t : Thread) : Z := match policy t with Fair weight => weight | _ => 0 end.

Section Steady.
(** The longest slice, and the shortest time between two ticks. *)
Context (longest gap : Z).
Hypothesis longest_nonneg : 0 ≤ longest.

Definition lead_ceiling (v : Z) : Z := saturating_add 64 v (saturating_mul 64 longest MAX_VRUNTIME_LEAD_SLICES).

(** A thread whose clock is in order: its deadline is one slice past its virtual
    time, its slice is felt as at least one unit and at most the allowed lead, and
    the time between two ticks is felt as at least one unit. *)
Record timed (t : Thread) : Prop := {
  td_runs : 0 ≤ runs t;
  td_vruntime : 0 ≤ vruntime t ≤ 2 ^ 64 - 1;
  td_slice : slice_ticks t ≤ longest;
  td_deadline : is_fair (policy t) = true → deadline t = saturating_add 64 (vruntime t) (share t);
  td_share : is_fair (policy t) = true → 1 ≤ share t ≤ longest * MAX_VRUNTIME_LEAD_SLICES;
  td_gap : is_fair (policy t) = true → (0 < weight_of t ≤ gap * BASE_WEIGHT) ∧ weight_of t < 2 ^ 32
}.

(** A CPU in steady work: no real-time thread, every clock in order, nobody further
    ahead than allowed, standing on a running thread. *)
Record steady (q : RunQueue) : Prop := {
  sd_ok : queue_ok q;
  sd_started : started q = true;
  sd_no_rt : ∀ s t, schedulable q s = Some t → rt_key t = None;
  sd_timed : ∀ s t, threads q !! s = Some (Some t) → timed t;
  sd_longest : max_list (slice_ticks <$> present q) = Some longest;
  sd_clock : 0 ≤ min_vruntime q ≤ 2 ^ 64 - 1;
  sd_lead : ∀ s t, threads q !! s = Some (Some t) → is_fair (policy t) = true → vruntime t ≤ lead_ceiling (min_vruntime q);
  sd_current : ∃ t, threads q !! current q = Some (Some t) ∧ state t = Running
}.

(** The running thread, and that it was dispatched or last charged at [at']. *)
Definition charged_at (q : RunQueue) (at' : Z) : Prop := ∃ t, threads q !! current q = Some (Some t) ∧ last_start t = at'.

(** Nobody fair has an earlier deadline than the running thread, which is fair. *)
Definition leads (q : RunQueue) : Prop :=
  ∃ t, schedulable q (current q) = Some t ∧ is_fair (policy t) = true ∧
    ∀ s t', schedulable q s = Some t' → is_fair (policy t') = true → deadline t ≤ deadline t'.

Lemma ceiling_mono v v' : v ≤ v' → lead_ceiling v ≤ lead_ceiling v'.
Proof. unfold lead_ceiling, saturating_add. lia. Qed.

(** What a thread is after it has paid for [delta] ticks and the clock's ceiling
    stands at [c]. *)
Definition paid (t : Thread) (delta now c : Z) : Thread := clamp c (set_started (charge t delta) now).

Lemma scaled_pos d w : 0 < w ≤ d * BASE_WEIGHT → w < 2 ^ 32 → 1 ≤ scaled d w.
Proof. intros H Hw. unfold scaled, saturating_mul. rewrite Z.max_l by lia. apply Z.div_le_lower_bound; lia. Qed.
Lemma scaled_nonneg d w : 0 ≤ d → 0 ≤ scaled d w.
Proof. intros H. unfold scaled, saturating_mul, BASE_WEIGHT. apply Z.div_pos; lia. Qed.
Lemma scaled_mono d d' w : d ≤ d' → scaled d w ≤ scaled d' w.
Proof. intros H. unfold scaled, saturating_mul, BASE_WEIGHT. apply Z.div_le_mono; lia. Qed.
Lemma scaled_zero w : scaled 0 w = 0.
Proof. unfold scaled, saturating_mul. by rewrite Z.min_l by lia. Qed.

Lemma charge_same t d : state (charge t d) = state t ∧ policy (charge t d) = policy t.
Proof. unfold charge. destruct (policy t) eqn:E; cbn; by rewrite ?E. Qed.

(** Paying keeps everything of a thread but its clock. *)
Lemma paid_same t delta now c :
  id (paid t delta now c) = id t ∧ state (paid t delta now c) = state t ∧ runs (paid t delta now c) = runs t ∧
  policy (paid t delta now c) = policy t ∧ slice_ticks (paid t delta now c) = slice_ticks t ∧ last_start (paid t delta now c) = now.
Proof.
  unfold paid, clamp, charge. destruct (policy t) as [| |] eqn:E; cbn; rewrite ?E; cbn; try done.
  destruct (_ <? _); cbn; by rewrite ?E.
Qed.

Lemma paid_fair t delta now c : is_fair (policy t) = true → 0 ≤ c ≤ 2 ^ 64 - 1 → 0 ≤ delta → 0 ≤ vruntime t →
  vruntime (paid t delta now c) = Z.min c (saturating_add 64 (vruntime t) (scaled delta (weight_of t))) ∧
  deadline (paid t delta now c) = saturating_add 64 (vruntime (paid t delta now c)) (share t).
Proof.
  intros Hf Hc Hd Hv. unfold paid, clamp, charge, share, weight_of. destruct (policy t) as [| |] eqn:E; try done. cbn. rewrite E. cbn.
  destruct (Z.ltb_spec c (saturating_add 64 (vruntime t) (scaled delta weight))); cbn; rewrite ?E; cbn; rewrite ?scaled_zero.
  - split; [|done]. unfold saturating_add in *. lia.
  - split; [lia|done].
Qed.

Lemma share_paid t delta now c : share (paid t delta now c) = share t ∧ weight_of (paid t delta now c) = weight_of t.
Proof. unfold share, weight_of. destruct (paid_same t delta now c) as (_ & _ & _ & -> & -> & _). done. Qed.

Lemma paid_timed t delta now c : 0 ≤ c ≤ 2 ^ 64 - 1 → 0 ≤ delta → timed t → timed (paid t delta now c).
Proof.
  intros Hc Hd [H1 H2 H3 H4 H5 H6]. destruct (paid_same t delta now c) as (_ & _ & Hr & Hp & Hs & _).
  destruct (share_paid t delta now c) as [Hsh Hw]. split; rewrite ?Hr, ?Hp, ?Hs, ?Hsh, ?Hw; try done.
  - destruct (is_fair (policy t)) eqn:Hf.
    + destruct (paid_fair t delta now c Hf Hc Hd) as [-> _]; [lia|]. pose proof (scaled_nonneg delta (weight_of t) Hd). unfold saturating_add. lia.
    + unfold paid, clamp, charge. destruct (policy t) eqn:E; try done; cbn; rewrite E; cbn; done.
  - intros Hf. by apply (paid_fair t delta now c Hf Hc Hd); lia.
Qed.

(** A leading thread that has run for a while no longer leads by as much: its
    deadline has moved. *)
Lemma paid_moves t delta now c : timed t → is_fair (policy t) = true → 0 ≤ c ≤ 2 ^ 64 - 1 → gap ≤ delta → 0 ≤ delta →
  deadline t < 2 ^ 64 - 1 → (c < saturating_add 64 (vruntime t) (scaled delta (weight_of t)) → deadline t ≤ c) →
  deadline t < deadline (paid t delta now c).
Proof.
  intros [H1 H2 H3 H4 H5 H6] Hf Hc Hg Hd Hlt Hclamp. specialize (H4 Hf). specialize (H5 Hf). destruct (H6 Hf) as [H7 H8].
  destruct (paid_fair t delta now c Hf Hc Hd) as [Hv ->]; [lia|]. rewrite Hv.
  assert (1 ≤ scaled delta (weight_of t)) by (apply scaled_pos; [unfold BASE_WEIGHT in *; lia|done]).
  unfold saturating_add in *. lia.
Qed.

(** The smallest of a list. *)
Lemma min_list_le l x : x ∈ l → ∃ m, min_list l = Some m ∧ m ≤ x ∧ m ∈ l.
Proof.
  destruct l as [|y l]; intros Hx; [by apply elem_of_nil in Hx|]. cbn. exists (foldl Z.min y l). split; [done|].
  assert (H : ∀ l y, foldl Z.min y l ≤ y ∧ (∀ z, z ∈ l → foldl Z.min y l ≤ z) ∧ foldl Z.min y l ∈ y :: l).
  { clear. induction l as [|z l IH]; intros y; cbn; [split_and!; [lia|by intros ? ?%elem_of_nil|left]|].
    destruct (IH (Z.min y z)) as (H1 & H2 & H3). split_and!; [lia| |].
    - intros u [-> |Hu]%elem_of_cons; [lia|by apply H2].
    - apply elem_of_cons in H3 as [H3|H3]; [|by do 2 right]. rewrite H3. destruct (Z.min_spec y z) as [[_ ->]|[_ ->]]; [left|right; left]. }
  destruct (H l y) as (H1 & H2 & H3). split; [|done]. apply elem_of_cons in Hx as [-> |Hx]; [done|by apply H2].
Qed.

Lemma present_in q t : t ∈ present q ↔ ∃ s, threads q !! s = Some (Some t).
Proof.
  unfold present, occupied. rewrite list_elem_of_omap. split.
  - intros (e & He & ->). by apply list_elem_of_lookup in He.
  - intros [s Hs]. exists (Some t). split; [by eapply list_elem_of_lookup_2|done].
Qed.

Lemma schedulable_some q s t : schedulable q s = Some t ↔ threads q !! s = Some (Some t) ∧ is_schedulable (state t) = true.
Proof. unfold schedulable. destruct (threads q !! s) as [[t'|]|]; [destruct (is_schedulable (state t')) eqn:E|..]; naive_solver congruence. Qed.

(** Where the clock moves to: some runnable fair thread is there or behind it, and
    one of them stands where the clock has moved, if it has moved. *)
Lemma min_fair_spec q s t : schedulable q s = Some t → is_fair (policy t) = true →
  min_fair_vruntime q ≤ vruntime t ∧
  ∃ s' t', schedulable q s' = Some t' ∧ is_fair (policy t') = true ∧ min_fair_vruntime q = vruntime t'.
Proof.
  intros Hs Hf. unfold min_fair_vruntime. set (l := List.filter _ _).
  assert (Hl : ∀ t, t ∈ l ↔ ∃ s, schedulable q s = Some t ∧ is_fair (policy t) = true).
  { intros u. unfold l. rewrite list_elem_of_In, filter_In, <- list_elem_of_In, andb_true_iff, present_in.
    setoid_rewrite schedulable_some. naive_solver. }
  destruct (min_list_le (vruntime <$> l) (vruntime t)) as (m & -> & Hm & Hin).
  { apply list_elem_of_fmap_2, Hl. eauto. }
  cbn. split; [done|]. apply list_elem_of_fmap in Hin as (t' & -> & Ht'). apply Hl in Ht' as (s' & H1 & H2). eauto.
Qed.

(** The same slices, whatever happens to the clocks. *)
Lemma slices_set q slot t t' : threads q !! slot = Some (Some t) → slice_ticks t' = slice_ticks t →
  slice_ticks <$> present (set_threads q (<[slot := Some t']> (threads q))) = slice_ticks <$> present q.
Proof.
  intros H E. unfold present, occupied. cbn [threads set_threads]. rewrite (insert_take_drop _ _ _ (lookup_lt_Some _ _ _ H)).
  rewrite <- (take_drop_middle _ _ _ H) at 3. rewrite !omap_app. csimpl. by rewrite !fmap_app, !fmap_cons, E.
Qed.

(** What the accounting does to a steady queue: the running thread pays, the clock
    moves, and everybody else is left alone. *)
Lemma account_view q t now : steady q → threads q !! current q = Some (Some t) →
  let delta := saturating_sub now (last_start t) in
  let q1 := on_thread q (current q) (fun t => set_started (charge t (saturating_sub now (last_start t))) now) in
  let v := Z.max (min_vruntime q) (min_fair_vruntime q1) in
  Machine.account q now =
    MkRunQueue (<[current q := Some (paid t delta now (lead_ceiling v))]> (threads q)) (current q) (started q) v (slice_deadline q) (switching q).
Proof.
  intros Hq Ht delta q1 v. unfold Machine.account. fold q1. unfold advance_min_vruntime.
  assert (E1 : q1 = set_threads q (<[current q := Some (set_started (charge t delta) now)]> (threads q))) by (unfold q1, on_thread; by rewrite Ht).
  assert (Hm : max_list (slice_ticks <$> present (set_min_vruntime q1 (Z.max (min_vruntime q1) (min_fair_vruntime q1)))) = Some longest).
  { rewrite <- (sd_longest _ Hq). f_equal. rewrite E1. unfold present at 1. cbn [threads set_min_vruntime]. apply (slices_set q (current q) t); [done|].
    cbn. unfold charge. by destruct (policy t). }
  rewrite Hm. assert (Hv : Z.max (min_vruntime q1) (min_fair_vruntime q1) = v) by (unfold v; by rewrite E1 at 1).
  cbn [set_min_vruntime min_vruntime]. rewrite Hv. fold (lead_ceiling v). rewrite E1. unfold set_threads, set_min_vruntime. cbn [threads current started slice_deadline switching min_vruntime].
  f_equal. apply list_eq. intros s. change (map (option_map (clamp (lead_ceiling v))) ?l) with (option_map (clamp (lead_ceiling v)) <$> l).
  rewrite list_lookup_fmap. pose proof (lookup_lt_Some _ _ _ Ht) as Hlt. destruct (decide (s = current q)) as [->|Hne].
  - by rewrite !list_lookup_insert_eq by done.
  - rewrite !list_lookup_insert_ne by done. destruct (threads q !! s) as [[u|]|] eqn:Hu; [|done|done]. cbn. do 2 f_equal.
    unfold clamp. destruct (is_fair (policy u)) eqn:Hf; [|done]. cbn.
    pose proof (sd_lead _ Hq s u Hu Hf). pose proof (ceiling_mono (min_vruntime q) v ltac:(lia)). by rewrite (proj2 (Z.ltb_ge _ _)) by lia.
Qed.

Lemma min_fair_range q : (∀ s t, threads q !! s = Some (Some t) → 0 ≤ vruntime t ≤ 2 ^ 64 - 1) → 0 ≤ min_fair_vruntime q ≤ 2 ^ 64 - 1.
Proof.
  intros H. unfold min_fair_vruntime. destruct (List.filter _ _) as [|t l] eqn:E; [cbn; lia|].
  destruct (min_list_le (vruntime <$> t :: l) (vruntime t)) as (m & -> & _ & Hin); [left|]. cbn [default id].
  apply list_elem_of_fmap in Hin as (u & -> & Hu). rewrite <- E in Hu. rewrite list_elem_of_In, filter_In, <- list_elem_of_In, present_in in Hu.
  destruct Hu as [[s Hs] _]. by apply (H s).
Qed.

Lemma longest_pos q s t : steady q → threads q !! s = Some (Some t) → is_fair (policy t) = true → 1 ≤ longest.
Proof. intros Hq Ht Hf. destruct (td_share _ (sd_timed _ Hq s t Ht) Hf). unfold MAX_VRUNTIME_LEAD_SLICES in *. lia. Qed.

Lemma ceiling_range v : 0 ≤ v ≤ 2 ^ 64 - 1 → v ≤ lead_ceiling v ≤ 2 ^ 64 - 1.
Proof. unfold lead_ceiling, saturating_add, saturating_mul, MAX_VRUNTIME_LEAD_SLICES. lia. Qed.

(** The thread that leads is not held back below where it stood. *)
Lemma leader_not_clamped q t now : steady q → threads q !! current q = Some (Some t) → leads q →
  let q1 := on_thread q (current q) (fun t => set_started (charge t (saturating_sub now (last_start t))) now) in
  let c := lead_ceiling (Z.max (min_vruntime q) (min_fair_vruntime q1)) in
  c < saturating_add 64 (vruntime t) (scaled (saturating_sub now (last_start t)) (weight_of t)) → deadline t ≤ c.
Proof.
  intros Hq Ht (t0 & Hs0 & Hf & Hlead) q1 c Hc. apply schedulable_some in Hs0 as [Ht0 Hsch]. assert (t0 = t) as -> by congruence. clear Ht0.
  set (delta := saturating_sub now (last_start t)) in *. pose proof (lookup_lt_Some _ _ _ Ht) as Hlt.
  pose proof (longest_pos q _ _ Hq Ht Hf) as Hl.
  assert (E1 : threads q1 = <[current q := Some (set_started (charge t delta) now)]> (threads q)) by (unfold q1, on_thread; by rewrite Ht).
  assert (Hcur : schedulable q1 (current q) = Some (set_started (charge t delta) now)).
  { apply schedulable_some. rewrite E1, list_lookup_insert_eq by done. split; [done|]. cbn. by rewrite (proj1 (charge_same t delta)). }
  assert (Hvr : vruntime (set_started (charge t delta) now) = saturating_add 64 (vruntime t) (scaled delta (weight_of t))).
  { unfold weight_of, charge. by destruct (policy t). }
  destruct (min_fair_spec q1 _ _ Hcur) as (Hle & s' & t' & Hs' & Hf' & Hmin); [cbn; by rewrite (proj2 (charge_same t delta))|].
  apply schedulable_some in Hs' as [Ht' Hsch']. rewrite E1 in Ht'.
  destruct (decide (s' = current q)) as [->|Hne].
  - rewrite list_lookup_insert_eq in Ht' by done. injection Ht' as <-. unfold c, lead_ceiling, saturating_add, saturating_mul, MAX_VRUNTIME_LEAD_SLICES in *.
    rewrite Hvr in *. pose proof (sd_clock _ Hq). lia.
  - rewrite list_lookup_insert_ne in Ht' by done. pose proof (sd_timed _ Hq _ _ Ht') as [_ Hv' _ Hd' Hsh' _].
    assert (deadline t ≤ deadline t') as Hdl by (apply (Hlead s'); [by apply schedulable_some|done]).
    rewrite (Hd' Hf') in Hdl. specialize (Hsh' Hf'). unfold c, lead_ceiling, saturating_add, saturating_mul, MAX_VRUNTIME_LEAD_SLICES in *. lia.
Qed.

Lemma account_steady q t now : steady q → threads q !! current q = Some (Some t) → last_start t + gap ≤ now →
  let q' := Machine.account q now in
  steady q' ∧ current q' = current q ∧ (∀ s, s ≠ current q → threads q' !! s = threads q !! s) ∧
  ∃ t', threads q' !! current q = Some (Some t') ∧ (state t' = state t ∧ runs t' = runs t ∧ policy t' = policy t ∧ last_start t' = now) ∧
    (is_fair (policy t) = true → deadline t ≤ deadline t') ∧ (leads q → deadline t < 2 ^ 64 - 1 → deadline t < deadline t').
Proof.
  intros Hq Ht Hgap. cbv zeta. pose proof (leader_not_clamped q t now Hq Ht) as Hlead.
  pose proof (account_view q t now Hq Ht) as E. cbv zeta in E, Hlead. rewrite E. clear E.
  set (q1 := on_thread q (current q) (fun t => set_started (charge t (saturating_sub now (last_start t))) now)) in *.
  set (delta := saturating_sub now (last_start t)) in *. assert (Hd : gap ≤ delta ∧ 0 ≤ delta) by (unfold delta, saturating_sub; lia).
  set (v := Z.max (min_vruntime q) (min_fair_vruntime q1)) in *. pose proof (lookup_lt_Some _ _ _ Ht) as Hlt.
  pose proof (sd_timed _ Hq _ _ Ht) as Htt. pose proof (sd_clock _ Hq) as Hclk.
  assert (Hv : 0 ≤ v ≤ 2 ^ 64 - 1).
  { enough (0 ≤ min_fair_vruntime q1 ≤ 2 ^ 64 - 1) by (unfold v; lia). apply min_fair_range. intros s u Hu. unfold q1, on_thread in Hu. rewrite Ht in Hu. cbn in Hu.
    destruct (decide (s = current q)) as [->|Hne]; [rewrite list_lookup_insert_eq in Hu by done|rewrite list_lookup_insert_ne in Hu by done; by apply (sd_timed _ Hq s u)].
    injection Hu as <-. cbn. unfold charge. pose proof (td_vruntime _ Htt). destruct (policy t); cbn; try done.
    pose proof (scaled_nonneg delta weight ltac:(lia)). fold delta. unfold saturating_add. lia. }
  pose proof (ceiling_range v Hv) as Hc. pose proof (ceiling_mono (min_vruntime q) v ltac:(unfold v; lia)) as Hmono.
  set (t' := paid t delta now (lead_ceiling v)) in *. destruct (paid_same t delta now (lead_ceiling v)) as (_ & Hst & Hru & Hpo & Hsl & Hla). fold t' in Hst, Hru, Hpo, Hsl, Hla.
  assert (Hth : ∀ s u, <[current q := Some t']> (threads q) !! s = Some (Some u) →
    (s = current q ∧ u = t') ∨ (s ≠ current q ∧ threads q !! s = Some (Some u))).
  { intros s u Hu. destruct (decide (s = current q)) as [->|Hne]; [left|right; by rewrite list_lookup_insert_ne in Hu].
    rewrite list_lookup_insert_eq in Hu by done. by simplify_eq. }
  split; [split|]; cbn [threads current started min_vruntime].
  - destruct (sd_ok _ Hq) as [H1 H2]. split; [cbn; by rewrite length_insert|done].
  - apply Hq.
  - intros s u [Hu Hsc]%schedulable_some. cbn in Hu. apply Hth in Hu as [[-> ->]|[_ Hu]].
    + unfold rt_key. rewrite Hpo. apply (sd_no_rt _ Hq (current q)), schedulable_some. rewrite <- Hst. done.
    + apply (sd_no_rt _ Hq s), schedulable_some. done.
  - intros s u [[-> ->]|[_ Hu]]%Hth; [|by eapply sd_timed]. apply paid_timed; [lia|lia|done].
  - rewrite <- (sd_longest _ Hq). f_equal. exact (slices_set q (current q) t t' Ht Hsl).
  - done.
  - intros s u [[-> ->]|[_ Hu]]%Hth Hf; [|pose proof (sd_lead _ Hq s u Hu Hf); lia]. rewrite Hpo in Hf.
    unfold t'. destruct (paid_fair t delta now (lead_ceiling v) Hf) as [-> _]; [lia|lia|pose proof (td_vruntime _ Htt); lia|]. lia.
  - destruct (sd_current _ Hq) as (u & Hu & Hr). exists t'. rewrite list_lookup_insert_eq by done. split; [done|]. rewrite Hst. congruence.
  - split; [done|]. split; [intros s Hs; by rewrite list_lookup_insert_ne|]. exists t'. rewrite list_lookup_insert_eq by done. split_and!; try done.
    { intros Hf. destruct (paid_fair t delta now (lead_ceiling v) Hf) as [Hv' Hd']; [lia|lia|pose proof (td_vruntime _ Htt); lia|].
      unfold t'. rewrite Hd', Hv', (td_deadline _ Htt Hf). pose proof (sd_lead _ Hq _ _ Ht Hf). pose proof (td_vruntime _ Htt).
      pose proof (scaled_nonneg delta (weight_of t) ltac:(lia)). unfold saturating_add in *. lia. }
    intros Hl Hlt'. pose proof Hl as (u & Hu & Hf & _). apply schedulable_some in Hu as [Hu _]. assert (u = t) as -> by congruence.
    unfold t'. apply paid_moves; try done; try lia. intros Hcl. apply Hlead; done.
Qed.

(** What steadiness looks at. *)
Lemma steady_ext q q' : threads q' = threads q → current q' = current q → started q' = started q → min_vruntime q' = min_vruntime q →
  steady q → steady q'.
Proof.
  intros E1 E2 E3 E4 [H1 H2 H3 H4 H5 H6 H7 H8].
  assert (Es : ∀ s, schedulable q' s = schedulable q s) by (intros s; unfold schedulable; by rewrite E1).
  split; rewrite ?E1, ?E2, ?E3, ?E4; try done.
  - destruct H1. split; congruence.
  - intros s t Ht. rewrite Es in Ht. by eapply H3.
  - unfold present. by rewrite E1.
Qed.
Lemma schedulable_ext q q' s : threads q' = threads q → schedulable q' s = schedulable q s.
Proof. intros E. unfold schedulable. by rewrite E. Qed.

(** The deadline of the fair thread that can run from a slot. *)
Definition clock_at (q : RunQueue) (s : nat) : option Z := schedulable q s ≫= fair_key.

Lemma clock_at_some q s d : clock_at q s = Some d ↔ ∃ t, schedulable q s = Some t ∧ is_fair (policy t) = true ∧ d = deadline t.
Proof.
  unfold clock_at. split.
  - intros (t & Ht & Hk)%bind_Some. apply fair_key_some in Hk as [? ?]. eauto.
  - intros (t & -> & Hf & ->). cbn. by apply fair_key_some.
Qed.

(** Of a steady queue with a fair thread to run, the choice leads. *)
Lemma steady_choice q i d : steady q → clock_at q i = Some d →
  ∃ t, schedulable q (pick_next q (current q)) = Some t ∧ is_fair (policy t) = true ∧
    ∀ s t', schedulable q s = Some t' → is_fair (policy t') = true → deadline t ≤ deadline t'.
Proof.
  intros Hq (u & Hu & Hf & _)%clock_at_some. destruct (sd_ok _ Hq) as [Hl Hc].
  destruct (pick_next_chooses q (current q) (sd_ok _ Hq) Hc) as [t p pu Ht Hp _|n t p Ht Hk _ _|n t _ Ht Hft Hmin|n t Hno Ht _|Hnone].
  - pose proof (sd_no_rt _ Hq _ _ Ht) as Hr. unfold rt_key in Hr. by rewrite Hp in Hr.
  - pose proof (sd_no_rt _ Hq _ _ Ht). congruence.
  - exists t. split_and!; try done. intros s t' Hs Hf'. by destruct (Hmin s t' Hs Hf').
  - destruct (Hno i u Hu). congruence.
  - by rewrite Hnone in Hu.
Qed.

(** Handing the CPU over. *)
Lemma dispatch_view q n t u now : current q ≠ n → threads q !! current q = Some (Some t) → state t = Running →
  threads q !! n = Some (Some u) → 0 ≤ runs u < 2 ^ 64 - 1 →
  Machine.dispatch q n now =
    Done (MkRunQueue (<[n := Some (set_started (set_counts (set_state u Running) (runs u + 1) (migrations u) 0) now)]>
                       (<[current q := Some (set_state t Ready)]> (threads q)))
            n (started q) (min_vruntime q) (saturating_add 64 now (slice_ticks u)) true).
Proof.
  intros Hne Ht Hr Hu Hru. pose proof (lookup_lt_Some _ _ _ Ht). pose proof (lookup_lt_Some _ _ _ Hu).
  unfold Machine.dispatch. assert (E1 : on_thread q (current q) (fun t => if bool_decide (state t = Running) then set_state t Ready else t) =
    set_threads q (<[current q := Some (set_state t Ready)]> (threads q))).
  { unfold on_thread. rewrite Ht. by rewrite bool_decide_true. }
  rewrite E1. cbn [threads set_threads current].
  rewrite (at_index_ok _ _ (Some u)) by by rewrite list_lookup_insert_ne. cbn [mbind outcome_bind].
  unfold add_checked. rewrite checked_ok by (unfold in_width; lia). cbn [mbind outcome_bind].
  unfold on_thread. cbn [threads set_threads]. rewrite list_lookup_insert_ne by done. rewrite Hu. cbn [threads set_threads current].
  rewrite (at_index_ok _ (current q) (Some (set_state t Ready))).
  2: { rewrite list_lookup_insert_ne by (cbn; congruence). by rewrite list_lookup_insert_eq by done. }
  cbn [mbind outcome_bind]. erewrite at_index_ok; [|by rewrite list_lookup_insert_eq by (rewrite length_insert; done)]. done.
Qed.

(** A tick, unfolded: the accounting, then the choice. *)
Lemma tick_unfold q now : started q = true →
  tick q now =
    let q2 := Machine.renew_slice (Machine.account q now) now in
    let next := pick_next q2 (current q2) in
    if (next =? current q2)%nat then Done (set_switching q2 false)
    else q3 ← Machine.dispatch q2 next now; Done (set_switching q3 false).
Proof.
  intros Hs. unfold tick, Machine.preempt. cbn [at_index mbind outcome_bind lookup list_lookup]. rewrite Hs. cbn [negb].
  destruct (_ =? _)%nat; [done|]. by destruct (Machine.dispatch _ _ _).
Qed.

(** Handing over keeps a queue steady, and hands the lead over. *)
Lemma dispatch_steady q n u now : steady q → current q ≠ n → schedulable q n = Some u → runs u < 2 ^ 64 - 1 →
  ∃ q', Machine.dispatch q n now = Done q' ∧ steady q' ∧ current q' = n ∧ charged_at q' now ∧
    (∀ s, clock_at q' s = clock_at q s) ∧
    (∀ s, s ≠ current q → s ≠ n → threads q' !! s = threads q !! s) ∧
    (∀ s v', threads q' !! s = Some (Some v') → ∃ v, threads q !! s = Some (Some v) ∧ runs v' ≤ runs v + 1).
Proof.
  intros Hq Hne Hu Hru. destruct (sd_current _ Hq) as (t & Ht & Hr). apply schedulable_some in Hu as [Hu Hsch].
  pose proof (sd_timed _ Hq _ _ Hu) as Htu. rewrite (dispatch_view q n t u now) by (done || (destruct Htu; lia)).
  set (u' := set_started (set_counts (set_state u Running) (runs u + 1) (migrations u) 0) now). set (t' := set_state t Ready).
  set (l := <[n := Some u']> (<[current q := Some t']> (threads q))). pose proof (lookup_lt_Some _ _ _ Ht). pose proof (lookup_lt_Some _ _ _ Hu).
  assert (Hn : l !! n = Some (Some u')) by (unfold l; apply list_lookup_insert_eq; by rewrite length_insert).
  assert (Hc : l !! current q = Some (Some t')) by (unfold l; rewrite list_lookup_insert_ne by done; by apply list_lookup_insert_eq).
  assert (Ho : ∀ s, s ≠ current q → s ≠ n → l !! s = threads q !! s) by (intros s H1 H2; unfold l; by rewrite !list_lookup_insert_ne by done).
  assert (Hcase : ∀ s v', l !! s = Some (Some v') → ∃ v, threads q !! s = Some (Some v) ∧ (s ≠ current q → s ≠ n → v' = v) ∧
    policy v' = policy v ∧ vruntime v' = vruntime v ∧ deadline v' = deadline v ∧ slice_ticks v' = slice_ticks v ∧
    is_schedulable (state v') = is_schedulable (state v) ∧ runs v ≤ runs v' ≤ runs v + 1).
  { intros s v' Hv'. destruct (decide (s = n)) as [->|Hsn]; [rewrite Hn in Hv'; injection Hv' as <-; exists u; cbn; rewrite Hsch; split_and!; done || lia|].
    destruct (decide (s = current q)) as [->|Hsc]; [rewrite Hc in Hv'; injection Hv' as <-; exists t; cbn; rewrite Hr; split_and!; done || lia|].
    rewrite Ho in Hv' by done. exists v'. split_and!; done || lia. }
  assert (Hsome : ∀ s v, threads q !! s = Some (Some v) → ∃ v', l !! s = Some (Some v')).
  { intros s v Hv. destruct (decide (s = n)) as [->|]; [eauto|]. destruct (decide (s = current q)) as [->|]; [eauto|]. rewrite Ho by done. eauto. }
  eexists. split; [done|]. set (q' := MkRunQueue _ _ _ _ _ _).
  assert (Hclock : ∀ s, clock_at q' s = clock_at q s).
  { intros s. apply option_eq. intros d. rewrite !clock_at_some. setoid_rewrite schedulable_some. cbn. split.
    - intros (v' & [Hv' Hs'] & Hf & ->). destruct (Hcase s v' Hv') as (v & Hv & _ & Ep & _ & Ed & _ & Es & _). exists v. rewrite <- Es, <- Ep. done.
    - intros (v & [Hv Hs'] & Hf & ->). destruct (Hsome s v Hv) as (v' & Hv'). destruct (Hcase s v' Hv') as (v0 & Hv0 & _ & Ep & _ & Ed & _ & Es & _).
      assert (v0 = v) as -> by congruence. exists v'. rewrite Es, Ep. done. }
  split_and!; try done.
  - split; cbn [threads current started min_vruntime q'].
    + destruct (sd_ok _ Hq) as [H1 H2]. split; cbn; [unfold l; by rewrite !length_insert|]. rewrite <- H1. done.
    + apply Hq.
    + intros s v' [Hv' Hs']%schedulable_some. cbn in Hv'. destruct (Hcase s v' Hv') as (v & Hv & _ & Ep & _ & _ & _ & Es & _).
      unfold rt_key. rewrite Ep. apply (sd_no_rt _ Hq s), schedulable_some. by rewrite <- Es.
    + intros s v' Hv'. destruct (Hcase s v' Hv') as (v & Hv & _ & Ep & Ev & Ed & El & _ & Er). destruct (sd_timed _ Hq s v Hv) as [H1 H2 H3 H4 H5 H6].
      split; unfold share, weight_of in *; rewrite ?Ep, ?Ev, ?Ed, ?El; try done. lia.
    + rewrite <- (sd_longest _ Hq). f_equal. transitivity (slice_ticks <$> present (set_threads q (<[current q := Some t']> (threads q)))).
      * assert (E : <[current q := Some t']> (threads q) !! n = Some (Some u)) by by rewrite list_lookup_insert_ne.
        exact (slices_set (set_threads q (<[current q := Some t']> (threads q))) n u u' E eq_refl).
      * by apply (slices_set q (current q) t t').
    + apply Hq.
    + intros s v' Hv' Hf. destruct (Hcase s v' Hv') as (v & Hv & _ & Ep & -> & _). rewrite Ep in Hf. by apply (sd_lead _ Hq s v).
    + exists u'. done.
  - exists u'. done.
  - intros s v' Hv'. destruct (Hcase s v' Hv') as (v & Hv & _ & _ & _ & _ & _ & _ & Er). exists v. split; [done|lia].
Qed.

(** How far ahead of a deadline [d] the other threads may still get. *)
Definition ahead (d : Z) (q : RunQueue) (s : nat) : Z := match clock_at q s with Some e => Z.max 0 (d + 1 - e) | None => 0 end.
Definition total (f : nat → Z) (l : list nat) : Z := foldr (fun s n => f s + n) 0 l.
Definition others (i : nat) : list nat := filter (fun s => s ≠ i) (seq 0 MAX_THREADS_PER_CPU).
Definition patience (d : Z) (i : nat) (q : RunQueue) : Z := total (ahead d q) (others i).

Lemma ahead_nonneg d q s : 0 ≤ ahead d q s.
Proof. unfold ahead. destruct (clock_at q s); lia. Qed.
Lemma total_le f g l : (∀ s, f s ≤ g s) → total f l ≤ total g l.
Proof. intros H. unfold total. induction l as [|s l IH]; cbn; [lia|]. specialize (H s). lia. Qed.
Lemma total_lt f g l s : (∀ s, f s ≤ g s) → s ∈ l → f s < g s → total f l < total g l.
Proof.
  intros H Hs Hlt. induction l as [|x l IH]; [by apply elem_of_nil in Hs|]. pose proof (total_le f g l H). cbn. specialize (H x) as Hx.
  apply elem_of_cons in Hs as [-> |Hs]; [unfold total in *; lia|]. specialize (IH Hs). unfold total in *. lia.
Qed.
Lemma total_nonneg f l : (∀ s, 0 ≤ f s) → 0 ≤ total f l.
Proof. intros H. unfold total. induction l as [|s l IH]; cbn; [lia|]. specialize (H s). lia. Qed.

(** The queue after the accounting, as the choice sees it. *)
Lemma account_clocks q t now i d : steady q → threads q !! current q = Some (Some t) → last_start t + gap ≤ now → i ≠ current q → clock_at q i = Some d →
  let q2 := Machine.renew_slice (Machine.account q now) now in
  steady q2 ∧ current q2 = current q ∧ charged_at q2 now ∧ (∀ s, s ≠ current q → threads q2 !! s = threads q !! s) ∧
  (∀ s v', threads q2 !! s = Some (Some v') → ∃ v, threads q !! s = Some (Some v) ∧ runs v' ≤ runs v) ∧
  (∀ s, ahead d q2 s ≤ ahead d q s) ∧ (leads q → d < 2 ^ 64 - 1 → ahead d q2 (current q) < ahead d q (current q)).
Proof.
  intros Hq Ht Hgap Hi Hd. destruct (account_steady q t now Hq Ht Hgap) as (Hs1 & Hc1 & Ho1 & t' & Ht' & (Est & Eru & Epo & Ela) & Hmono & Hlead).
  destruct (renew_keeps (Machine.account q now) now) as (_ & Ec & Et & _). set (q1 := Machine.account q now) in *. set (q2 := Machine.renew_slice q1 now) in *.
  assert (Eother : started q2 = started q1 ∧ min_vruntime q2 = min_vruntime q1).
  { unfold q2, Machine.renew_slice. destruct (_ <=? _); [|done]. by destruct (threads q1 !! current q1) as [[?|]|]. }
  destruct Eother as [Es Em]. assert (Hc2 : current q2 = current q) by congruence.
  assert (Hout : ∀ s, s ≠ current q → threads q2 !! s = threads q !! s) by (intros s Hs; rewrite Et; by apply Ho1).
  assert (Hck : ∀ s, s ≠ current q → clock_at q2 s = clock_at q s) by (intros s Hs; unfold clock_at, schedulable; by rewrite Hout).
  assert (Hcur : threads q2 !! current q = Some (Some t')) by by rewrite Et.
  assert (Hcc : clock_at q (current q) = if is_schedulable (state t) && is_fair (policy t) then Some (deadline t) else None).
  { unfold clock_at, schedulable, fair_key. rewrite Ht. destruct (is_schedulable (state t)); cbn; [|done]. by destruct (is_fair (policy t)). }
  assert (Hcc' : clock_at q2 (current q) = if is_schedulable (state t) && is_fair (policy t) then Some (deadline t') else None).
  { unfold clock_at, schedulable, fair_key. rewrite Hcur, Est. destruct (is_schedulable (state t)); cbn; [|done]. rewrite Epo. by destruct (is_fair (policy t)). }
  split_and!; try done.
  - eapply steady_ext; [exact Et|exact Ec|exact Es|exact Em|exact Hs1].
  - exists t'. rewrite Hc2. done.
  - intros s v' Hv'. destruct (decide (s = current q)) as [->|Hs]; [|exists v'; rewrite <- Hout by done; split; [done|lia]].
    exists t. assert (v' = t') as -> by congruence. split; [done|lia].
  - intros s. destruct (decide (s = current q)) as [->|Hs]; [|unfold ahead; rewrite Hck by done; lia].
    unfold ahead. rewrite Hcc, Hcc'. destruct (is_fair (policy t)) eqn:Hf; rewrite ?andb_false_r; [|lia]. specialize (Hmono eq_refl).
    destruct (is_schedulable (state t)); cbn; lia.
  - intros Hl Hlt. pose proof Hl as (u & [Hu Hsch]%schedulable_some & Hf & Hall). assert (u = t) as -> by congruence.
    apply clock_at_some in Hd as (ti & Hti & Hfi & ->). pose proof (Hall i ti Hti Hfi). specialize (Hlead Hl ltac:(lia)).
    unfold ahead. rewrite Hcc, Hcc', Hsch, Hf. cbn. lia.
Qed.

(** A tick while [i] waits. *)
Lemma tick_step q prev now i d : steady q → charged_at q prev → prev + gap ≤ now → i ≠ current q → clock_at q i = Some d → d < 2 ^ 64 - 1 →
  (∀ s u, threads q !! s = Some (Some u) → runs u < 2 ^ 64 - 1) →
  ∃ q', tick q now = Done q' ∧ (steady q' ∧ leads q' ∧ charged_at q' now) ∧
    (∀ s v', threads q' !! s = Some (Some v') → ∃ v, threads q !! s = Some (Some v) ∧ runs v' ≤ runs v + 1) ∧
    clock_at q' i = Some d ∧ patience d i q' ≤ patience d i q ∧ (leads q → patience d i q' < patience d i q).
Proof.
  intros Hq (t & Ht & <-) Hgap Hi Hd Hlt Hruns. rewrite tick_unfold by apply Hq. cbv zeta.
  destruct (account_clocks q t now i d Hq Ht Hgap Hi Hd) as (Hs2 & Hc2 & Hch & Hout & Hr2 & Hle & Hldr).
  set (q2 := Machine.renew_slice (Machine.account q now) now) in *.
  assert (Hd2 : clock_at q2 i = Some d) by (unfold clock_at, schedulable in *; by rewrite Hout).
  destruct (steady_choice q2 i d Hs2 Hd2) as (u & Hu & Hf & Hmin). set (n := pick_next q2 (current q2)) in *.
  assert (Hpat : patience d i q2 ≤ patience d i q ∧ (leads q → patience d i q2 < patience d i q)).
  { split; [by apply total_le|]. intros Hl. apply (total_lt _ _ _ (current q)); [done| |by apply Hldr].
    unfold others. apply list_elem_of_filter. split; [done|]. apply elem_of_seq. destruct (sd_ok _ Hq). lia. }
  destruct (Nat.eqb_spec n (current q2)) as [E|Hne].
  - exists (set_switching q2 false). split; [done|]. split_and!; try done; try apply Hpat.
    + eapply steady_ext; [..|exact Hs2]; done.
    + exists u. cbn [current set_switching]. rewrite <- E. done.
    + intros s v' Hv'. destruct (Hr2 s v' Hv') as (v & Hv & Hr). exists v. split; [done|lia].
  - assert (Hru : runs u < 2 ^ 64 - 1).
    { pose proof Hu as [Hu' _]%schedulable_some. destruct (Hr2 _ _ Hu') as (v & Hv & Hr). specialize (Hruns _ _ Hv). lia. }
    destruct (dispatch_steady q2 n u now Hs2 ltac:(congruence) Hu Hru) as (q3 & -> & Hs3 & Hc3 & Hch3 & Hck3 & Ho3 & Hr3).
    cbn [mbind outcome_bind]. exists (set_switching q3 false). split; [done|].
    assert (Hah : ∀ s, ahead d (set_switching q3 false) s = ahead d q2 s) by (intros s; unfold ahead; by rewrite <- Hck3).
    assert (Hpe : patience d i (set_switching q3 false) = patience d i q2).
    { apply Z.le_antisymm; apply total_le; intros s; rewrite Hah; lia. }
    rewrite Hpe. split_and!; try done; try apply Hpat.
    + eapply steady_ext; [..|exact Hs3]; done.
    + assert (Hcu : clock_at q3 n = Some (deadline u)) by (rewrite Hck3; apply clock_at_some; eauto).
      apply clock_at_some in Hcu as (u' & Hu' & Hf' & Ed). exists u'. cbn [current set_switching]. rewrite Hc3. split_and!; try done.
      intros s v' Hv' Hfv. assert (Hcv : clock_at q3 s = Some (deadline v')) by (apply clock_at_some; eauto).
      rewrite Hck3 in Hcv. apply clock_at_some in Hcv as (v & Hv & Hfv' & Edv). rewrite <- Ed, Edv. by apply (Hmin s).
    + intros s v' Hv'. destruct (Hr3 s v' Hv') as (v2 & Hv2 & ?). destruct (Hr2 s v2 Hv2) as (v & Hv & ?). exists v. split; [done|lia].
    + by rewrite <- Hd2, <- Hck3.
Qed.

(** Times at least [gap] apart. *)
Fixpoint spaced (prev : Z) (times : list Z) : Prop :=
  match times with [] => True | now :: times' => prev + gap ≤ now ∧ spaced now times' end.

Definition runs_below (q : RunQueue) (n : Z) : Prop := ∀ s u, threads q !! s = Some (Some u) → runs u < n.

Lemma waits_at_most i d : d < 2 ^ 64 - 1 → ∀ times q prev, steady q → leads q → charged_at q prev → spaced prev times →
  clock_at q i = Some d → patience d i q ≤ Z.of_nat (length times) → runs_below q (2 ^ 64 - 1 - Z.of_nat (length times)) →
  ∃ k q', (k ≤ length times)%nat ∧ ticks q (take k times) = Done q' ∧ current q' = i.
Proof.
  intros Hlt. induction times as [|now times IH]; intros q prev Hq Hl Hch Hsp Hd Hp Hr.
  - exists 0%nat, q. split_and!; [lia|done|]. cbn [length] in Hp. destruct (decide (current q = i)) as [|Hne]; [done|]. exfalso.
    destruct Hl as (t & Ht & Hf & Hmin). pose proof Hd as (ti & Hti & Hfi & ->)%clock_at_some. pose proof (Hmin i ti Hti Hfi) as Hle.
    enough (0 < patience (deadline ti) i q) by lia. apply (Z.le_lt_trans _ (total (fun _ => 0) (others i))); [by apply total_nonneg|].
    apply (total_lt _ _ _ (current q)); [intros; apply ahead_nonneg| |].
    + unfold others. apply list_elem_of_filter. split; [done|]. apply elem_of_seq. destruct (sd_ok _ Hq). lia.
    + unfold ahead. assert (clock_at q (current q) = Some (deadline t)) as -> by (apply clock_at_some; eauto). lia.
  - destruct (decide (current q = i)) as [E|Hne]; [exists 0%nat, q; split_and!; [lia|done|done]|]. destruct Hsp as [Hg Hsp].
    assert (Hr0 : ∀ s u, threads q !! s = Some (Some u) → runs u < 2 ^ 64 - 1) by (intros s u Hu; specialize (Hr s u Hu); cbn [length] in Hr; lia).
    destruct (tick_step q prev now i d Hq Hch Hg ltac:(congruence) Hd Hlt Hr0) as (q1 & E1 & (Hs1 & Hl1 & Hc1) & Hr1 & Hd1 & _ & Hp1).
    specialize (Hp1 Hl). destruct (IH q1 now Hs1 Hl1 Hc1 Hsp Hd1) as (k & q' & Hk & Hq' & Hc').
    + cbn [length] in Hp. lia.
    + intros s v' Hv'. destruct (Hr1 s v' Hv') as (v & Hv & ?). specialize (Hr s v Hv). cbn [length] in Hr. lia.
    + exists (S k), q'. cbn [length take ticks]. rewrite E1. split_and!; [lia|done|done].
Qed.
End Steady.

(** C36. A fair thread that can run, runs. On a CPU in steady work, ticked again and
    again, a waiting fair thread is dispatched after at most as many ticks as the
    other threads' deadlines lie ahead of its own, and one more; whatever their
    weights and slices, as long as no slice, as its thread feels it, is longer than
    the eight longest slices the virtual clock lets a thread get ahead. *)
Theorem runnable_fair_thread_runs longest gap q prev i d times :
  0 ≤ longest → steady longest gap q → charged_at q prev → spaced gap prev times → clock_at q i = Some d → d < 2 ^ 64 - 1 →
  patience d i q + 1 ≤ Z.of_nat (length times) → runs_below q (2 ^ 64 - 1 - Z.of_nat (length times)) →
  ∃ k q', (k ≤ length times)%nat ∧ ticks q (take k times) = Done q' ∧ current q' = i.
Proof.
  intros Hl Hq Hch Hsp Hd Hlt Hp Hr. destruct (decide (current q = i)) as [E|Hne]; [exists 0%nat, q; split_and!; [lia|done|done]|].
  destruct times as [|now times]; [cbn [length] in Hp; pose proof (total_nonneg (ahead d q) (others i) (ahead_nonneg d q)); unfold patience in Hp; lia|].
  destruct Hsp as [Hgap Hsp]. assert (Hr0 : ∀ s u, threads q !! s = Some (Some u) → runs u < 2 ^ 64 - 1) by (intros s u Hu; specialize (Hr s u Hu); cbn [length] in Hr; lia).
  destruct (tick_step longest gap Hl q prev now i d Hq Hch Hgap ltac:(congruence) Hd Hlt Hr0) as (q1 & E1 & (Hs1 & Hl1 & Hc1) & Hr1 & Hd1 & Hp1 & _).
  destruct (waits_at_most longest gap Hl i d Hlt times q1 now Hs1 Hl1 Hc1 Hsp Hd1) as (k & q' & Hk & Hq' & Hc').
  - cbn [length] in Hp. lia.
  - intros s v' Hv'. destruct (Hr1 s v' Hv') as (v & Hv & ?). specialize (Hr s v Hv). cbn [length] in Hr. lia.
  - exists (S k), q'. cbn [length take ticks]. rewrite E1. split_and!; [lia|done|done].
Qed.

(** Two threads of unequal weight and one that idles, with slices of three ticks. *)
Definition quick_thread (tid : Z) (p : Policy) (s : State) : Thread := charge (set_state (Machine.new_thread tid p 3 false NO_DOMAIN 0) s) 0.
Definition fair_demo : RunQueue :=
  MkRunQueue ([Some (quick_thread 1 (Fair 1024) Running); Some (quick_thread 2 (Fair 512) Ready); Some (quick_thread 3 Idle Ready)]
              ++ replicate 5 None) 0 true 0 0 false.

Lemma fair_demo_threads s t : threads fair_demo !! s = Some (Some t) →
  t = quick_thread 1 (Fair 1024) Running ∨ t = quick_thread 2 (Fair 512) Ready ∨ t = quick_thread 3 Idle Ready.
Proof. intros H. do 8 (destruct s as [|s]; [cbn in H; naive_solver|]). done. Qed.

Lemma fair_demo_steady : steady 3 1 fair_demo.
Proof.
  split.
  - split; vm_compute; [done|lia].
  - done.
  - intros s t [Ht _]%schedulable_some. by destruct (fair_demo_threads s t Ht) as [->|[->| ->]].
  - intros s t Ht. destruct (fair_demo_threads s t Ht) as [->|[->| ->]]; split; vm_compute; intuition congruence.
  - vm_compute. done.
  - vm_compute. intuition congruence.
  - intros s t Ht _. destruct (fair_demo_threads s t Ht) as [->|[->| ->]]; vm_compute; congruence.
  - by exists (quick_thread 1 (Fair 1024) Running).
Qed.

Lemma runnable_fair_thread_runs_witness : ∃ k q', (k ≤ 5)%nat ∧ ticks fair_demo (take k [1; 2; 3; 4; 5]) = Done q' ∧ current q' = 1%nat.
Proof.
  apply (runnable_fair_thread_runs 3 1 fair_demo 0 1 6 [1; 2; 3; 4; 5]).
  - lia.
  - exact fair_demo_steady.
  - eexists. split; [vm_compute; reflexivity|reflexivity].
  - cbn. lia.
  - vm_compute. reflexivity.
  - lia.
  - vm_compute. congruence.
  - intros s t Ht. destruct (fair_demo_threads s t Ht) as [->|[->| ->]]; vm_compute; reflexivity.
Defined.

(** ** The light thread *)

(** One ordinary thread, running, and one of a domain of [n] threads. *)
Definition light_demo (n : Z) : RunQueue :=
  MkRunQueue ([Some (demo_thread 1 (Fair 1024) Running); Some (demo_thread 2 (Fair (Machine.thread_weight 1024 n)) Ready)]
              ++ replicate 6 None) 0 true 0 0 false.

(** What the ordinary thread looks like while the light one waits. *)
Record starving (q : RunQueue) (at' : Z) : Prop := {
  sv_threads : ∃ t, threads q = [Some t; Some (demo_thread 2 (Fair 102) Ready)] ++ replicate 6 None ∧
    state t = Running ∧ policy t = Fair 1024 ∧ slice_ticks t = 3000 ∧ 0 ≤ vruntime t ≤ 24000 ∧ deadline t = vruntime t + 3000 ∧ last_start t = at';
  sv_current : current q = 0%nat;
  sv_started : started q = true;
  sv_clock : min_vruntime q = 0
}.

Definition light : Thread := demo_thread 2 (Fair 102) Ready.
Definition pair_of (t : Thread) : list (option Thread) := [Some t; Some light] ++ replicate 6 None.

Lemma pair_clock q t : threads q = pair_of t → state t = Running → policy t = Fair 1024 → 0 ≤ vruntime t → min_fair_vruntime q = 0.
Proof.
  intros E Hs Hp Hv. unfold min_fair_vruntime, present. rewrite E. cbn. rewrite Hs, Hp. cbn. change (saturating_add 64 0 (scaled 0 102)) with 0. lia.
Qed.

Lemma pair_advance q t : threads q = pair_of t → state t = Running → policy t = Fair 1024 → slice_ticks t = 3000 → 0 ≤ vruntime t →
  min_vruntime q = 0 → advance_min_vruntime q = set_threads q (pair_of (clamp 24000 t)).
Proof.
  intros E Hs Hp Hsl Hv Hm. unfold advance_min_vruntime. rewrite (pair_clock q t E Hs Hp Hv), Hm.
  assert (Ep : present (set_min_vruntime q (Z.max 0 0)) = [t; light]) by (unfold present; cbn [threads set_min_vruntime]; by rewrite E).
  rewrite Ep. cbn [fmap list_fmap max_list foldl]. rewrite Hsl. cbn [threads set_min_vruntime min_vruntime]. rewrite E.
  unfold set_threads, set_min_vruntime. cbn [threads current started min_vruntime slice_deadline switching]. rewrite Hm. done.
Qed.

Lemma pair_pick q t : threads q = pair_of t → state t = Running → policy t = Fair 1024 → deadline t ≤ 27000 → pick_next q 0 = 0%nat.
Proof.
  intros E Hs Hp Hd. assert (Hq : queue_ok (set_current q 0)) by (split; [cbn; by rewrite E|cbn; unfold MAX_THREADS_PER_CPU; lia]).
  assert (H0 : schedulable q 0 = Some t) by (unfold schedulable; rewrite E; cbn; by rewrite Hs).
  assert (Hall : ∀ s u, schedulable q s = Some u → (s = 0%nat ∧ u = t) ∨ u = light).
  { intros s u [Hu _]%schedulable_some. rewrite E in Hu. do 8 (destruct s as [|s]; [cbn in Hu; naive_solver|]). done. }
  symmetry. apply (choice_unique (set_current q 0) 0 0 (pick_next q 0) Hq); [lia| |exact (pick_next_chooses (set_current q 0) 0 Hq ltac:(lia))].
  apply (ChoiceFair _ _ _ t).
  - intros s u Hu. destruct (Hall s u Hu) as [[_ ->]| ->]; [unfold rt_key; by rewrite Hp|done].
  - exact H0.
  - by rewrite Hp.
  - intros s u Hu _. destruct (Hall s u Hu) as [[-> ->]| ->]; [split; [lia|done]|]. change (deadline light) with 30117. split; lia.
Qed.

Lemma starving_tick q at' now : starving q at' → at' ≤ now < 2 ^ 50 → 0 ≤ at' → ∃ q', tick q now = Done q' ∧ starving q' now.
Proof.
  intros [(t & Ht & Hst & Hp & Hsl & Hv & Hd & Hla) Hc Hs Hm] Hnow Hat. rewrite tick_unfold by done. cbv zeta.
  set (delta := saturating_sub now (last_start t)). assert (Hdl : 0 ≤ delta < 2 ^ 50) by (unfold delta, saturating_sub; lia).
  set (t1 := set_started (charge t delta) now).
  assert (E1 : on_thread q (current q) (fun t => set_started (charge t (saturating_sub now (last_start t))) now) = set_threads q (pair_of t1)).
  { unfold on_thread. rewrite Hc, Ht. done. }
  assert (Hsc : scaled delta 1024 = delta).
  { unfold scaled, saturating_mul, BASE_WEIGHT. rewrite Z.min_l by lia. rewrite Z.max_l by lia. apply Z.div_mul. lia. }
  assert (H1 : state t1 = Running ∧ policy t1 = Fair 1024 ∧ slice_ticks t1 = 3000 ∧ vruntime t1 = vruntime t + delta ∧
    deadline t1 = vruntime t + delta + 3000 ∧ last_start t1 = now).
  { unfold t1, charge. rewrite Hp. cbn. rewrite Hst, Hp, Hsl, Hsc. unfold saturating_add. change (scaled 3000 1024) with 3000. split_and!; done || lia. }
  destruct H1 as (S1 & P1 & L1 & V1 & D1 & A1). clearbody t1.
  assert (E2 : Machine.account q now = set_threads q (pair_of (clamp 24000 t1))).
  { unfold Machine.account. rewrite E1, (pair_advance _ t1) by (done || lia). done. }
  set (t2 := clamp 24000 t1) in *.
  assert (H2 : state t2 = Running ∧ policy t2 = Fair 1024 ∧ slice_ticks t2 = 3000 ∧ 0 ≤ vruntime t2 ≤ 24000 ∧ deadline t2 = vruntime t2 + 3000 ∧ last_start t2 = now).
  { unfold t2, clamp. rewrite P1. cbn [is_fair andb]. destruct (Z.ltb_spec 24000 (vruntime t1)) as [Hcl|Hcl]; [|split_and!; done || lia].
    unfold charge. cbn. rewrite P1. cbn. rewrite S1, P1, L1. split_and!; try done; vm_compute; congruence. }
  destruct H2 as (S2 & P2 & L2 & V2 & D2 & A2). set (q2 := Machine.renew_slice (Machine.account q now) now).
  assert (Hq2 : threads q2 = pair_of t2 ∧ current q2 = 0%nat ∧ started q2 = true ∧ min_vruntime q2 = 0).
  { unfold q2, Machine.renew_slice. rewrite E2. cbn [slice_deadline set_threads]. destruct (_ <=? _); [|done]. cbn [threads current set_threads]. rewrite Hc. done. }
  destruct Hq2 as (T2 & C2 & St2 & M2). rewrite C2, (pair_pick q2 t2) by (done || lia). cbn [Nat.eqb]. eexists. split; [done|].
  split; [|done|done|done]. exists t2. done.
Qed.

(** A runnable thread may never run. Here is a CPU with one ordinary thread that
    always has work, and one thread of a domain that has ten, each of which carries
    a tenth of the domain's share. The light thread's slice is felt as ten slices,
    but the virtual clock lets nobody get more than eight ahead: the ordinary
    thread's deadline never reaches the light one's, and however often and however
    long the CPU is ticked, the light thread is not dispatched once. *)
Theorem light_thread_starves times :
  spaced 0 0 times → Forall (fun now => now < 2 ^ 50) times →
  ∃ q', ticks (light_demo 10) times = Done q' ∧ current q' = 0%nat ∧
    ∃ t, threads q' !! 1%nat = Some (Some t) ∧ state t = Ready ∧ runs t = 0 ∧ id t = 2.
Proof.
  intros Hsp Hlt. assert (H : ∀ times q at', 0 ≤ at' → spaced 0 at' times → Forall (fun now => now < 2 ^ 50) times → starving q at' →
    ∃ q' at'', ticks q times = Done q' ∧ starving q' at'').
  { clear. induction times as [|now times IH]; intros q at' Hat Hsp Hlt Hq; [by eexists _, _|]. destruct Hsp as [Hn Hsp].
    apply Forall_cons in Hlt as [Hl Hlt]. destruct (starving_tick q at' now Hq) as (q1 & E1 & Hs1); [lia|lia|].
    destruct (IH q1 now) as (q' & at'' & E & Hs); [lia|done|done|done|]. exists q', at''. cbn [ticks]. by rewrite E1. }
  destruct (H times (light_demo 10) 0 ltac:(lia) Hsp Hlt) as (q' & at'' & E & [(t & Hth & _) Hc _ _]).
  - split; [|done|done|done]. eexists. split; [vm_compute; reflexivity|]. vm_compute. intuition congruence.
  - exists q'. split_and!; [done|done|]. exists light. by rewrite Hth.
Qed.

Lemma light_thread_starves_witness : ∃ q', ticks (light_demo 10) (replicate 20 3000 ++ replicate 20 600000) = Done q' ∧ current q' = 0%nat.
Proof.
  destruct (light_thread_starves (replicate 20 3000 ++ replicate 20 600000)) as (q' & E & Hc & _).
  - cbn. lia.
  - apply (bool_decide_unpack _). vm_compute. exact I.
  - exists q'. split; [exact E|exact Hc].
Defined.
