(* ===== verification/Ipc.v ===== *)
(** * Rendezvous

    The endpoint table of src/kernel/src/ipc.rs: the two queues of an endpoint and the
    operations under the table's lock ([create], [destroy], [rendezvous_send],
    [rendezvous_recv], [cancel], [cancel_all]), and what they promise: that a sender
    and a receiver never both wait, that what is handed over is what was sent, and
    who is served.  The counters kept for reports and the trace ring are not part of
    the table. *)
From stdpp Require Import prelude numbers list.
From S2P Require Import Prelude Sched.
Open Scope Z_scope.
Set Warnings "-clear-no-such-hyp".

Definition MAX_ENDPOINTS : nat := 32.
Definition MAX_QUEUED : nat := 16.

Record PendingSend : Type := MkPendingSend { sender : Z; message : Message }.

Inductive IpcError : Type :=
| NoSuchEndpoint | Congested | Exhausted | NoSuchCaller | ServerGone | CallerDying | Refused (status : Z).

Record Endpoint : Type := MkEndpoint {
  generation : Z;
  senders : list (option PendingSend);
  receivers : list (option Z);
  live : bool
}.

Record Table : Type := MkTable { endpoints : list Endpoint; delivered : Z; replied : Z }.

(** What a rendezvous produced, for the caller to act on. *)
Inductive Rendezvous : Type :=
| Matched (partner : Z) (m : Message)
| Queued.

(** ** One endpoint *)
Module Endpoint.
Definition empty : Endpoint := MkEndpoint 0 (replicate MAX_QUEUED None) (replicate MAX_QUEUED None) false.

(** The first occupied slot, emptied. *)
Definition take_slot {A} (l : list (option A)) : option (A * list (option A)) :=
  slot ← position (fun e => negb (bool_decide (e = None))) l;
  entry ← l !! slot;
  a ← entry;
  Some (a, <[slot := None]> l).
(** The first free slot, filled. *)
Definition queue_slot {A} (l : list (option A)) (a : A) : option (list (option A)) :=
  slot ← position (fun e => bool_decide (e = None)) l;
  Some (<[slot := Some a]> l).

Definition set_senders (e : Endpoint) (l : list (option PendingSend)) : Endpoint := MkEndpoint (generation e) l (receivers e) (live e).
Definition set_receivers (e : Endpoint) (l : list (option Z)) : Endpoint := MkEndpoint (generation e) (senders e) l (live e).

Definition take_sender (self : Endpoint) : option (PendingSend * Endpoint) :=
  '(p, l) ← take_slot (senders self); Some (p, set_senders self l).
Definition take_receiver (self : Endpoint) : option (Z * Endpoint) :=
  '(r, l) ← take_slot (receivers self); Some (r, set_receivers self l).
Definition queue_sender (self : Endpoint) (pending : PendingSend) : result Endpoint IpcError :=
  match queue_slot (senders self) pending with Some l => Ok (set_senders self l) | None => Err Congested end.
Definition queue_receiver (self : Endpoint) (thread : Z) : result Endpoint IpcError :=
  match queue_slot (receivers self) thread with Some l => Ok (set_receivers self l) | None => Err Congested end.

(** Clears the entries that satisfy [p], and says how many there were. *)
Definition clear {A} (p : A → bool) (l : list (option A)) : list (option A) :=
  (fun e => match e with Some a => if p a then None else Some a | None => None end) <$> l.
Definition hits {A} (p : A → bool) (l : list (option A)) : nat := count p (occupied l).

Definition remove (self : Endpoint) (thread : Z) : Endpoint * nat :=
  (MkEndpoint (generation self) (clear (fun s => sender s =? thread) (senders self)) (clear (fun r => r =? thread) (receivers self)) (live self),
   Nat.add (hits (fun s => sender s =? thread) (senders self)) (hits (fun r => r =? thread) (receivers self))).

Definition queued (self : Endpoint) : nat * nat :=
  (hits (fun _ => true) (senders self), hits (fun _ => true) (receivers self)).
End Endpoint.

(** ** The table, under its lock *)
Module Table.
Import Endpoint.

Definition new : Table := MkTable (replicate MAX_ENDPOINTS empty) 0 0.
Definition set_endpoint (t : Table) (index : nat) (e : Endpoint) : Table := MkTable (<[index := e]> (endpoints t)) (delivered t) (replied t).
Definition count_delivery (t : Table) : outcome Table := d ← add_checked 64 (delivered t) 1; Done (MkTable (endpoints t) d (replied t)).

Definition create (t : Table) : result nat IpcError * Table :=
  match position (fun e => negb (live e)) (endpoints t) with
  | None => (Err Exhausted, t)
  | Some index =>
      match endpoints t !! index with
      | Some e => (Ok index, set_endpoint t index (MkEndpoint (generation e) (replicate MAX_QUEUED None) (replicate MAX_QUEUED None) true))
      | None => (Err Exhausted, t)
      end
  end.

(** The threads that were waiting, to be woken once the lock is released. *)
Definition destroy (t : Table) (id : nat) : list Z * Table :=
  match endpoints t !! id with
  | None => ([], t)
  | Some e =>
      if negb (live e) then ([], t)
      else (omap (fun s => sender <$> s) (senders e) ++ occupied (receivers e),
            set_endpoint t id (MkEndpoint (wrapping_add 32 (generation e) 1) (replicate MAX_QUEUED None) (replicate MAX_QUEUED None) false))
  end.

Definition rendezvous_send (t : Table) (id : nat) (pending : PendingSend) : outcome (result Rendezvous IpcError * Table) :=
  match endpoints t !! id with
  | None => Done (Err NoSuchEndpoint, t)
  | Some e =>
      if negb (live e) then Done (Err NoSuchEndpoint, t)
      else
        match take_receiver e with
        | Some (receiver, e) => t ← count_delivery (set_endpoint t id e); Done (Ok (Matched receiver (message pending)), t)
        | None =>
            match queue_sender e pending with
            | Ok e => Done (Ok Queued, set_endpoint t id e)
            | Err error => Done (Err error, t)
            end
        end
  end.

Definition rendezvous_recv (t : Table) (id : nat) (me : Z) : outcome (result Rendezvous IpcError * Table) :=
  match endpoints t !! id with
  | None => Done (Err NoSuchEndpoint, t)
  | Some e =>
      if negb (live e) then Done (Err NoSuchEndpoint, t)
      else
        match take_sender e with
        | Some (pending, e) => t ← count_delivery (set_endpoint t id e); Done (Ok (Matched (sender pending) (message pending)), t)
        | None =>
            match queue_receiver e me with
            | Ok e => Done (Ok Queued, set_endpoint t id e)
            | Err error => Done (Err error, t)
            end
        end
  end.

Definition cancel (t : Table) (id : nat) (thread : Z) : Table :=
  match endpoints t !! id with
  | Some e => if live e then set_endpoint t id (remove e thread).1 else t
  | None => t
  end.

Definition cancel_all (t : Table) (thread : Z) : nat * Table :=
  (sum_list ((fun e => if live e then (remove e thread).2 else 0%nat) <$> endpoints t),
   MkTable ((fun e => if live e then (remove e thread).1 else e) <$> endpoints t) (delivered t) (replied t)).

Definition where_queued (t : Table) (thread : Z) : option (nat * bool) :=
  head (omap (fun '(index, e) =>
    if negb (live e) then None
    else if existsb (fun s => sender s =? thread) (occupied (senders e)) then Some (index, true)
    else if existsb (fun r => r =? thread) (occupied (receivers e)) then Some (index, false)
    else None) (imap pair (endpoints t))).
End Table.

(** ** What the queues hold *)
Module Laws.
Import Endpoint.

(** Taking answers with an entry that was there, and leaves the others. *)
Lemma take_slot_some {A} (l : list (option A)) a l' : take_slot l = Some (a, l') → occupied l ≡ₚ a :: occupied l' ∧ length l' = length l.
Proof.
  unfold take_slot. destruct (position _ l) as [slot|] eqn:Hp; [|done]. cbn. apply position_some in Hp as [(e & He & Hne) _]. rewrite He. cbn.
  destruct e as [x|]; [|done]. cbn. intros [= <- <-]. destruct (occupied_insert l slot _ None He) as [H1 _]. split; [exact H1|by rewrite length_insert].
Qed.
Lemma take_slot_none {A} (l : list (option A)) : take_slot l = None ↔ occupied l = [].
Proof.
  unfold take_slot. destruct (position _ l) as [slot|] eqn:Hp; cbn.
  - apply position_some in Hp as [(e & He & Hne) _]. rewrite He. cbn. destruct e as [x|]; [|done]. cbn. split; [done|]. rewrite occupied_nil. intros H. by specialize (H slot _ He).
  - split; [|done]. intros _. apply occupied_nil. intros i e Hi. rewrite position_none in Hp. specialize (Hp i e Hi). by apply negb_false_iff, bool_decide_eq_true in Hp.
Qed.
(** Queueing adds the entry, or every slot is taken. *)
Lemma queue_slot_some {A} (l l' : list (option A)) a : queue_slot l a = Some l' → occupied l' ≡ₚ a :: occupied l ∧ length l' = length l.
Proof.
  unfold queue_slot. destruct (position _ l) as [slot|] eqn:Hp; [|done]. cbn. intros [= <-]. apply position_some in Hp as [(e & He & Hn) _].
  apply bool_decide_eq_true in Hn as ->. destruct (occupied_insert l slot None (Some a) He) as [H1 H2]. split; [by rewrite H2, H1|by rewrite length_insert].
Qed.
Lemma queue_slot_none {A} (l : list (option A)) a : queue_slot l a = None → length (occupied l) = length l.
Proof.
  unfold queue_slot. destruct (position _ l) as [slot|] eqn:Hp; [done|]. intros _. rewrite position_none in Hp. unfold occupied.
  induction l as [|e l IH]; [done|]. specialize (Hp 0%nat e eq_refl) as He. apply bool_decide_eq_false in He. destruct e as [x|]; [|done]. csimpl.
  rewrite IH; [done|]. intros i y Hy. by apply (Hp (S i)).
Qed.

Lemma clear_sub {A} (p : A → bool) l : occupied (clear p l) = filter (fun a => p a = false) (occupied l) ∧ length (clear p l) = length l.
Proof.
  unfold clear, occupied. rewrite length_fmap. split; [|done]. induction l as [|[a|] l IH]; csimpl; [done| |done]. rewrite filter_cons. case_decide as Hd; destruct (p a) eqn:E; try congruence; csimpl; by rewrite ?IH.
Qed.

(** Sixteen slots each way, never both ways at once, and nobody on a dead endpoint. *)
Record endpoint_ok (e : Endpoint) : Prop := {
  ep_senders : length (senders e) = MAX_QUEUED;
  ep_receivers : length (receivers e) = MAX_QUEUED;
  ep_one_way : occupied (senders e) = [] ∨ occupied (receivers e) = [];
  ep_dead : live e = false → occupied (senders e) = [] ∧ occupied (receivers e) = []
}.
Record table_ok (t : Table) : Prop := { tb_length : length (endpoints t) = MAX_ENDPOINTS; tb_all : Forall endpoint_ok (endpoints t) }.

Lemma occupied_replicate {A} n : occupied (replicate n (@None A)) = [].
Proof. unfold occupied. by induction n. Qed.

Lemma fresh_ok g b : endpoint_ok (MkEndpoint g (replicate MAX_QUEUED None) (replicate MAX_QUEUED None) b).
Proof. split; cbn [senders receivers live]; rewrite ?length_replicate, ?occupied_replicate; auto. Qed.

Lemma set_ok t id e : table_ok t → endpoint_ok e → table_ok (Table.set_endpoint t id e).
Proof. intros [H1 H2] He. split; cbn; [by rewrite length_insert|by apply Forall_insert]. Qed.

(** The abstract rendezvous: a bag of senders or a bag of receivers. A send finds a
    receiver and hands it the message, or joins the senders; and the other way
    round. Which of several is found is not said. *)
Definition sends (p : PendingSend) (e e' : Endpoint) (r : Rendezvous) : Prop :=
  match r with
  | Matched partner m => m = message p ∧ occupied (receivers e) ≡ₚ partner :: occupied (receivers e') ∧ senders e' = senders e
  | Queued => occupied (receivers e) = [] ∧ occupied (senders e') ≡ₚ p :: occupied (senders e) ∧ receivers e' = receivers e
  end.
Definition receives (me : Z) (e e' : Endpoint) (r : Rendezvous) : Prop :=
  match r with
  | Matched partner m => occupied (senders e) ≡ₚ MkPendingSend partner m :: occupied (senders e') ∧ receivers e' = receivers e
  | Queued => occupied (senders e) = [] ∧ occupied (receivers e') ≡ₚ me :: occupied (receivers e) ∧ senders e' = senders e
  end.

Lemma send_endpoint e p : endpoint_ok e → live e = true →
  match take_receiver e with
  | Some (r, e') => sends p e e' (Matched r (message p)) ∧ endpoint_ok e' ∧ live e' = true
  | None =>
      match queue_sender e p with
      | Ok e' => sends p e e' Queued ∧ endpoint_ok e' ∧ live e' = true
      | Err error => error = Congested ∧ length (occupied (senders e)) = MAX_QUEUED ∧ occupied (receivers e) = []
      end
  end.
Proof.
  intros [H1 H2 H3 H4] Hl. unfold take_receiver. destruct (take_slot (receivers e)) as [[r l]|] eqn:Ht; cbn.
  - destruct (take_slot_some _ _ _ Ht) as [Hp Hlen]. split; [done|]. split; [|done]. assert (occupied (senders e) = []) as Hs.
    { destruct H3 as [|E]; [done|]. rewrite E in Hp. by apply Permutation_nil_cons in Hp. }
    split; cbn [senders receivers live set_receivers]; [done|congruence|by left|congruence].
  - apply take_slot_none in Ht. unfold queue_sender. destruct (queue_slot (senders e) p) as [l|] eqn:Hq.
    + destruct (queue_slot_some _ _ _ Hq) as [Hp Hlen]. split; [done|]. split; [|done].
      split; cbn [senders receivers live set_senders]; [congruence|done|by right|congruence].
    + split_and!; [done| |done]. rewrite <- H1. by eapply queue_slot_none.
Qed.

Lemma recv_endpoint e me : endpoint_ok e → live e = true →
  match take_sender e with
  | Some (p, e') => receives me e e' (Matched (sender p) (message p)) ∧ endpoint_ok e' ∧ live e' = true
  | None =>
      match queue_receiver e me with
      | Ok e' => receives me e e' Queued ∧ endpoint_ok e' ∧ live e' = true
      | Err error => error = Congested ∧ length (occupied (receivers e)) = MAX_QUEUED ∧ occupied (senders e) = []
      end
  end.
Proof.
  intros [H1 H2 H3 H4] Hl. unfold take_sender. destruct (take_slot (senders e)) as [[p l]|] eqn:Ht; cbn.
  - destruct (take_slot_some _ _ _ Ht) as [Hp Hlen]. destruct p as [who m]. split; [done|]. split; [|done]. assert (occupied (receivers e) = []) as Hs.
    { destruct H3 as [E|]; [|done]. rewrite E in Hp. by apply Permutation_nil_cons in Hp. }
    split; cbn [senders receivers live set_senders]; [congruence|done|by right|congruence].
  - apply take_slot_none in Ht. unfold queue_receiver. destruct (queue_slot (receivers e) me) as [l|] eqn:Hq.
    + destruct (queue_slot_some _ _ _ Hq) as [Hp Hlen]. split; [done|]. split; [|done].
      split; cbn [senders receivers live set_receivers]; [done|congruence|by left|congruence].
    + split_and!; [done| |done]. rewrite <- H2. by eapply queue_slot_none.
Qed.

Lemma endpoint_remove_ok e thread : endpoint_ok e → endpoint_ok (remove e thread).1.
Proof.
  intros [H1 H2 H3 H4]. destruct (clear_sub (fun s => sender s =? thread) (senders e)) as [Es Ls]. destruct (clear_sub (fun r => r =? thread) (receivers e)) as [Er Lr].
  split; cbn [remove fst senders receivers live]; [congruence|congruence| |].
  - rewrite Es, Er. destruct H3 as [-> | ->]; [by left|by right].
  - intros Hl. rewrite Es, Er. destruct (H4 Hl) as [-> ->]. done.
Qed.

(** ** The table's operations *)
Inductive Op : Type :=
| OCreate
| ODestroy (id : nat)
| OSend (id : nat) (p : PendingSend)
| ORecv (id : nat) (me : Z)
| OCancel (id : nat) (thread : Z)
| OCancelAll (thread : Z).

Definition run_op (t : Table) (op : Op) : outcome Table :=
  match op with
  | OCreate => Done (Table.create t).2
  | ODestroy id => Done (Table.destroy t id).2
  | OSend id p => '(_, t) ← Table.rendezvous_send t id p; Done t
  | ORecv id me => '(_, t) ← Table.rendezvous_recv t id me; Done t
  | OCancel id thread => Done (Table.cancel t id thread)
  | OCancelAll thread => Done (Table.cancel_all t thread).2
  end.

Lemma count_delivery_done t t' : Table.count_delivery t = Done t' → endpoints t' = endpoints t ∧ delivered t' = delivered t + 1 ∧ replied t' = replied t.
Proof. unfold Table.count_delivery, add_checked. intros H. inv_done. done. Qed.

Lemma send_ok t id p r t' : table_ok t → Table.rendezvous_send t id p = Done (r, t') →
  table_ok t' ∧
  match r with
  | Ok x => ∃ e e', endpoints t !! id = Some e ∧ live e = true ∧ endpoints t' = <[id := e']> (endpoints t) ∧ sends p e e' x
  | Err error => t' = t ∧
      match endpoints t !! id with
      | Some e => if live e then error = Congested ∧ length (occupied (senders e)) = MAX_QUEUED else error = NoSuchEndpoint
      | None => error = NoSuchEndpoint
      end
  end.
Proof.
  intros Ht. unfold Table.rendezvous_send. destruct (endpoints t !! id) as [e|] eqn:He; [|by intros [= <- <-]].
  pose proof (Forall_lookup_1 _ _ _ _ (tb_all _ Ht) He) as Hok. destruct (live e) eqn:Hl; cbn; [|by intros [= <- <-]].
  pose proof (send_endpoint e p Hok Hl) as Hs. destruct (take_receiver e) as [[r0 e']|].
  - intros H. apply outcome_bind_done in H as (t1 & H1 & H). injection H as <- <-. apply count_delivery_done in H1 as (E1 & _ & _). destruct Hs as (Hs & Hok' & _).
    destruct (set_ok t id e' Ht Hok') as [A B]. split; [split; by rewrite E1|]. exists e, e'. by rewrite E1.
  - destruct (queue_sender e p) as [e'|error]; intros [= <- <-].
    + destruct Hs as (Hs & Hok' & _). split; [by apply set_ok|]. by exists e, e'.
    + split; [done|]. split; [done|]. by destruct Hs as (? & ? & _).
Qed.

Lemma recv_ok t id me r t' : table_ok t → Table.rendezvous_recv t id me = Done (r, t') →
  table_ok t' ∧
  match r with
  | Ok x => ∃ e e', endpoints t !! id = Some e ∧ live e = true ∧ endpoints t' = <[id := e']> (endpoints t) ∧ receives me e e' x
  | Err error => t' = t ∧
      match endpoints t !! id with
      | Some e => if live e then error = Congested ∧ length (occupied (receivers e)) = MAX_QUEUED else error = NoSuchEndpoint
      | None => error = NoSuchEndpoint
      end
  end.
Proof.
  intros Ht. unfold Table.rendezvous_recv. destruct (endpoints t !! id) as [e|] eqn:He; [|by intros [= <- <-]].
  pose proof (Forall_lookup_1 _ _ _ _ (tb_all _ Ht) He) as Hok. destruct (live e) eqn:Hl; cbn; [|by intros [= <- <-]].
  pose proof (recv_endpoint e me Hok Hl) as Hs. destruct (take_sender e) as [[p e']|].
  - intros H. apply outcome_bind_done in H as (t1 & H1 & H). injection H as <- <-. apply count_delivery_done in H1 as (E1 & _ & _). destruct Hs as (Hs & Hok' & _).
    destruct (set_ok t id e' Ht Hok') as [A B]. split; [split; by rewrite E1|]. exists e, e'. by rewrite E1.
  - destruct (queue_receiver e me) as [e'|error]; intros [= <- <-].
    + destruct Hs as (Hs & Hok' & _). split; [by apply set_ok|]. by exists e, e'.
    + split; [done|]. split; [done|]. by destruct Hs as (? & ? & _).
Qed.

Lemma run_op_ok t op t' : table_ok t → run_op t op = Done t' → table_ok t'.
Proof.
  intros Ht H. destruct op as [|id|id p|id me|id thread|thread]; cbn in H.
  - injection H as <-. unfold Table.create. destruct (position _ _) as [i|]; [|done]. destruct (endpoints t !! i); [|done]. apply set_ok; [done|apply fresh_ok].
  - injection H as <-. unfold Table.destroy. destruct (endpoints t !! id); [|done]. destruct (negb _); [done|]. apply set_ok; [done|apply fresh_ok].
  - apply outcome_bind_done in H as ([r t1] & H1 & H). injection H as <-. by destruct (send_ok _ _ _ _ _ Ht H1).
  - apply outcome_bind_done in H as ([r t1] & H1 & H). injection H as <-. by destruct (recv_ok _ _ _ _ _ Ht H1).
  - injection H as <-. unfold Table.cancel. destruct (endpoints t !! id) as [e|] eqn:He; [|done]. destruct (live e); [|done].
    apply set_ok; [done|]. apply endpoint_remove_ok. by eapply Forall_lookup_1; [apply Ht|].
  - injection H as <-. destruct Ht as [H1 H2].
    split; cbn [Table.cancel_all snd endpoints]; [by rewrite length_fmap|]. apply Forall_fmap. eapply Forall_impl; [exact H2|].
    intros e He. pose proof (endpoint_remove_ok e thread He). unfold compose. destruct (live e) eqn:El; [|done]. unfold remove in H. cbn [fst] in H. by rewrite El in H.
Qed.

Fixpoint run_ops (t : Table) (ops : list Op) : outcome Table :=
  match ops with [] => Done t | op :: ops' => t ← run_op t op; run_ops t ops' end.

Lemma table_new_ok : table_ok Table.new.
Proof. split; [done|]. apply Forall_replicate, fresh_ok. Qed.

(** C37. A sender and a receiver never both wait. Whatever endpoints are created and
    destroyed, and whoever sends, receives and gives up on them in whatever order, no
    endpoint ever has threads waiting in both directions, and none has any waiting
    once it is destroyed. *)
Theorem never_both_wait ops t : run_ops Table.new ops = Done t → ∀ id e, endpoints t !! id = Some e →
  (occupied (senders e) = [] ∨ occupied (receivers e) = []) ∧ (live e = false → occupied (senders e) = [] ∧ occupied (receivers e) = []).
Proof.
  intros H id e He. enough (Hok : table_ok t) by (destruct (Forall_lookup_1 _ _ _ _ (tb_all _ Hok) He); done).
  clear He. revert H. generalize Table.new, table_new_ok. induction ops as [|op ops IH]; intros t0 Ht0 H; cbn in H; [by injection H as <-|].
  apply outcome_bind_done in H as (t1 & H1 & H). eapply IH; [|exact H]. by eapply run_op_ok.
Qed.

Lemma count_returns t : 0 ≤ delivered t < 2 ^ 64 - 1 → ∃ t', Table.count_delivery t = Done t'.
Proof. intros H. unfold Table.count_delivery, add_checked. rewrite checked_ok by (unfold in_width; lia). by eexists. Qed.
Lemma send_returns t id p : 0 ≤ delivered t < 2 ^ 64 - 1 → ∃ r t', Table.rendezvous_send t id p = Done (r, t').
Proof.
  intros H. unfold Table.rendezvous_send. destruct (endpoints t !! id) as [e|]; [|by do 2 eexists]. destruct (live e); [|by do 2 eexists].
  destruct (take_receiver e) as [[r e']|]; [|destruct (queue_sender e p); by do 2 eexists].
  destruct (count_returns (Table.set_endpoint t id e') H) as [t' Ht]. cbn [negb]. rewrite Ht. by do 2 eexists.
Qed.
Lemma recv_returns t id me : 0 ≤ delivered t < 2 ^ 64 - 1 → ∃ r t', Table.rendezvous_recv t id me = Done (r, t').
Proof.
  intros H. unfold Table.rendezvous_recv. destruct (endpoints t !! id) as [e|]; [|by do 2 eexists]. destruct (live e); [|by do 2 eexists].
  destruct (take_sender e) as [[p e']|]; [|destruct (queue_receiver e me); by do 2 eexists].
  destruct (count_returns (Table.set_endpoint t id e') H) as [t' Ht]. cbn [negb]. rewrite Ht. by do 2 eexists.
Qed.

(** C38. A rendezvous hands over what was sent. A send either finds a waiting receiver,
    which then no longer waits, and hands it exactly this message; or, nobody waiting,
    joins the senders; a receive either takes one waiting sender's message, badge and
    all, or joins the receivers; nobody else's place is touched; and an endpoint that
    is gone, or sixteen already waiting, is an error that changes nothing.  Both
    return while the count of deliveries lasts. *)
Theorem rendezvous_hands_over t id : table_ok t → 0 ≤ delivered t < 2 ^ 64 - 1 →
  (∀ p, ∃ r t', Table.rendezvous_send t id p = Done (r, t') ∧
    match r with
    | Ok x => ∃ e e', endpoints t !! id = Some e ∧ live e = true ∧ endpoints t' = <[id := e']> (endpoints t) ∧ sends p e e' x
    | Err error => t' = t ∧ (error = NoSuchEndpoint ∨ error = Congested)
    end) ∧
  (∀ me, ∃ r t', Table.rendezvous_recv t id me = Done (r, t') ∧
    match r with
    | Ok x => ∃ e e', endpoints t !! id = Some e ∧ live e = true ∧ endpoints t' = <[id := e']> (endpoints t) ∧ receives me e e' x
    | Err error => t' = t ∧ (error = NoSuchEndpoint ∨ error = Congested)
    end).
Proof.
  intros Ht Hd. split.
  - intros p. destruct (send_returns t id p Hd) as (r & t' & H). exists r, t'. split; [done|].
    destruct (send_ok _ _ _ _ _ Ht H) as [_ Hr]. destruct r as [x|error]; [done|]. destruct Hr as [-> Hr]. split; [done|].
    destruct (endpoints t !! id) as [e|]; [destruct (live e); [right; by apply Hr|by left]|by left].
  - intros me. destruct (recv_returns t id me Hd) as (r & t' & H). exists r, t'. split; [done|].
    destruct (recv_ok _ _ _ _ _ Ht H) as [_ Hr]. destruct r as [x|error]; [done|]. destruct Hr as [-> Hr]. split; [done|].
    destruct (endpoints t !! id) as [e|]; [destruct (live e); [right; by apply Hr|by left]|by left].
Qed.
End Laws.

(** ** Who is served *)
Module Service.
Import Laws Endpoint.

(** A service that receives, and a newcomer that calls while it works, over and
    over; who was served. *)
Fixpoint serve (t : Table) (id : nat) (me : Z) (newcomers : list PendingSend) : outcome (list Z * Table) :=
  match newcomers with
  | [] => Done ([], t)
  | p :: newcomers' =>
      '(r, t) ← Table.rendezvous_recv t id me;
      '(_, t) ← Table.rendezvous_send t id p;
      '(served, t) ← serve t id me newcomers';
      Done (match r with Ok (Matched partner _) => partner :: served | _ => served end, t)
  end.

(** The longest waiter may never be served. Two callers wait, [first] and then
    [second]; the service takes one message at a time, and each time a newcomer calls
    before the service is back. It is the newcomer that is served next, because it
    takes the slot the last one left and the service takes the first slot that is
    occupied: [second] has waited longer than every newcomer and is still waiting
    after any number of them. *)
Theorem longest_waiter_starves newcomers : ∀ t id me e first second rest,
  endpoints t !! id = Some e → live e = true → senders e = Some first :: Some second :: rest → occupied (receivers e) = [] →
  0 ≤ delivered t → delivered t + Z.of_nat (length newcomers) < 2 ^ 64 →
  ∃ t' last, serve t id me newcomers = Done (take (length newcomers) (sender <$> first :: newcomers), t') ∧
    (senders <$> endpoints t' !! id) = Some (Some last :: Some second :: rest).
Proof.
  induction newcomers as [|p newcomers IH]; intros t id me e first second rest He Hl Hs Hr Hd0 Hd.
  { exists t, first. cbn [serve take length]. rewrite He. split; [done|]. cbn. by rewrite Hs. }
  pose proof (lookup_lt_Some _ _ _ He) as Hlt. cbn [serve length] in *.
  assert (H1 : Table.rendezvous_recv t id me = Done (Ok (Matched (sender first) (message first)),
    MkTable (<[id := set_senders e (None :: Some second :: rest)]> (endpoints t)) (delivered t + 1) (replied t))).
  { unfold Table.rendezvous_recv. rewrite He, Hl. cbn [negb]. unfold take_sender, take_slot. rewrite Hs. cbn.
    unfold Table.count_delivery, add_checked. cbn [delivered Table.set_endpoint]. rewrite checked_ok by (unfold in_width; lia). done. }
  rewrite H1. cbn [mbind outcome_bind]. set (e1 := set_senders e (None :: Some second :: rest)) in *.
  set (t1 := MkTable (<[id := e1]> (endpoints t)) (delivered t + 1) (replied t)) in *.
  assert (He1 : endpoints t1 !! id = Some e1) by (cbn; by apply list_lookup_insert_eq).
  assert (H2 : Table.rendezvous_send t1 id p = Done (Ok Queued, Table.set_endpoint t1 id (set_senders e1 (Some p :: Some second :: rest)))).
  { unfold Table.rendezvous_send. rewrite He1. cbn [live e1 set_senders]. rewrite Hl. cbn [negb]. unfold take_receiver. cbn [receivers e1 set_senders].
    rewrite (proj2 (take_slot_none (receivers e)) Hr). done. }
  rewrite H2. cbn [mbind outcome_bind]. set (e2 := set_senders e1 (Some p :: Some second :: rest)) in *. set (t2 := Table.set_endpoint t1 id e2) in *.
  assert (He2 : endpoints t2 !! id = Some e2) by (apply list_lookup_insert_eq; cbn; by rewrite length_insert).
  destruct (IH t2 id me e2 p second rest He2) as (t' & last & Hserve & Hend); [done|done|done|cbn; lia|cbn; lia|].
  rewrite Hserve. cbn [mbind outcome_bind fmap list_fmap take]. exists t', last. split; [done|exact Hend].
Qed.

Definition demo_message : Message := MkMessage 1 [0; 0; 0; 0] 7.
Definition demo_table : Table :=
  MkTable [MkEndpoint 0 (Some (MkPendingSend 11 demo_message) :: Some (MkPendingSend 12 demo_message) :: replicate 14 None) (replicate 16 None) true] 0 0.

Lemma longest_waiter_starves_witness :
  ∃ t', serve demo_table 0 5 ((fun k => MkPendingSend (Z.of_nat k) demo_message) <$> seq 20 50) = Done (11 :: (Z.of_nat <$> seq 20 49), t').
Proof.
  destruct (longest_waiter_starves ((fun k => MkPendingSend (Z.of_nat k) demo_message) <$> seq 20 50) demo_table 0 5
    (MkEndpoint 0 (Some (MkPendingSend 11 demo_message) :: Some (MkPendingSend 12 demo_message) :: replicate 14 None) (replicate 16 None) true)
    (MkPendingSend 11 demo_message) (MkPendingSend 12 demo_message) (replicate 14 None)) as (t' & last & H & _);
    [reflexivity|reflexivity|reflexivity|reflexivity|vm_compute; discriminate|vm_compute; reflexivity|].
  exists t'. exact H.
Defined.

Lemma never_both_wait_witness : ∃ t e, run_ops Table.new [OCreate; OSend 0 (MkPendingSend 11 demo_message); ORecv 0 5; ORecv 0 5] = Done t ∧
  endpoints t !! 0%nat = Some e ∧ occupied (receivers e) = [5] ∧ (occupied (senders e) = [] ∨ occupied (receivers e) = []).
Proof.
  destruct (run_ops Table.new [OCreate; OSend 0 (MkPendingSend 11 demo_message); ORecv 0 5; ORecv 0 5]) as [t| |] eqn:E; try (vm_compute in E; discriminate E).
  destruct (endpoints t !! 0%nat) as [e|] eqn:He; [|exfalso; vm_compute in E; injection E as <-; discriminate He].
  exists t, e. split; [reflexivity|]. split; [exact He|]. split; [vm_compute in E; injection E as <-; vm_compute in He; injection He as <-; reflexivity|].
  exact (proj1 (never_both_wait _ t E 0%nat e He)).
Defined.

Lemma rendezvous_hands_over_witness : ∃ t e e', Table.rendezvous_send (Table.create Table.new).2 0 (MkPendingSend 11 demo_message) = Done (Ok Queued, t) ∧
  endpoints (Table.create Table.new).2 !! 0%nat = Some e ∧ sends (MkPendingSend 11 demo_message) e e' Queued.
Proof.
  assert (Hok : table_ok (Table.create Table.new).2) by exact (run_op_ok Table.new OCreate _ table_new_ok eq_refl).
  destruct (proj1 (rendezvous_hands_over _ 0 Hok ltac:(vm_compute; split; congruence)) (MkPendingSend 11 demo_message)) as (r & t' & H & Hr).
  exists t'. vm_compute in H. injection H as <- <-. destruct Hr as (e & e' & He & _ & _ & Hs). exists e, e'. split; [vm_compute; reflexivity|]. split; [exact He|exact Hs].
Defined.
End Service.
