(* ===== verification/Exchange.v ===== *)
(** * Calls, receives and replies

    What threads do with the rendezvous of Ipc.v: [call], [recv_either], [reply] of
    src/kernel/src/ipc.rs, [refuse_call], [abandon_caller] and the part of [exit] that
    concerns IPC, of src/kernel/src/sched.rs, cut where they release a lock, and every
    interleaving of them, of preemption and of stray wakes.  A thread's place in the
    code is its [Pc].  The outcome of [syscall::complete_gift] and whether a bound
    notification has fired are left open.  A scan of the runqueues takes their locks
    one after another, so that a thread that is stolen meanwhile can be missed: the
    steps whose name ends in [missed].

    Shown here: a thread is never left asleep with news for it unless its waker is
    on the way; and a thread is answered by those, and as often as, who took its
    calls. *)
From stdpp Require Import prelude numbers list.
From S2P Require Import Prelude Sched SchedPolicy Ipc.
Import Queue.
Open Scope Z_scope.
Set Warnings "-clear-no-such-hyp".

(** ** One thread, under its queue's lock *)
Module Mailbox.
Definition set_ipc (t : Thread) (s : State) (r : option Z) (c : option Z) (l : bool) (m : option (Message * Z)) : Thread :=
  MkThread (id t) s (runs t) (migrations t) (pinned t) r (woken_at t) c (domain t) l (dying t) m (policy t) (vruntime t) (deadline t)
    (slice_ticks t) (cycles t) (last_start t).
Definition set_mailbox (t : Thread) (m : option (Message * Z)) : Thread := set_ipc t (state t) (reply_to t) (call_refused t) (answer_lost t) m.
Definition set_reply_to (t : Thread) (r : option Z) : Thread := set_ipc t (state t) r (call_refused t) (answer_lost t) (mailbox t).

(** What a waiting thread finds. *)
Inductive Delivery : Type :=
| DMessage (m : Message) (from : Z) | DBlocked | DAbandoned | DDying | DRevoked | DRefused (status : Z).

Definition deliver (m : Message) (from : Z) (t : Thread) : bool * Thread :=
  match mailbox t with Some _ => (false, t) | None => (true, set_mailbox t (Some (m, from))) end.
Definition set_reply_target (caller : Z) (t : Thread) : unit * Thread := (tt, set_reply_to t (Some caller)).
Definition take_reply_target (t : Thread) : option Z * Thread := (reply_to t, set_reply_to t None).
Definition refuse (status : Z) (t : Thread) : unit * Thread := (tt, set_ipc t (state t) (reply_to t) (Some status) (answer_lost t) (mailbox t)).
Definition lose_answer (t : Thread) : unit * Thread := (tt, set_ipc t (state t) (reply_to t) (call_refused t) true (mailbox t)).
Definition clear_blocked_mark (t : Thread) : bool * Thread :=
  if bool_decide (state t = Blocked) then (true, set_state t Running) else (false, t).
Definition finish (t : Thread) : unit * Thread := (tt, set_state t Finished).

(** [take_message_or_block]: everything decided under one lock; [still_waiting] is
    whether what is waited for is still there. *)
Definition take_message_or_block (still_waiting : bool) (t : Thread) : Delivery * Thread :=
  match mailbox t with
  | Some (m, from) => (DMessage m from, set_ipc t Running (reply_to t) (call_refused t) (answer_lost t) None)
  | None =>
      if answer_lost t then (DRevoked, set_ipc t Running (reply_to t) (call_refused t) false None)
      else
        match call_refused t with
        | Some status => (DRefused status, set_ipc t Running (reply_to t) None false None)
        | None =>
            if dying t then (DDying, set_state t Running)
            else if still_waiting then (DBlocked, set_state t Blocked)
            else (DAbandoned, set_state t Running)
        end
  end.
End Mailbox.

(** The scan for a thread: the first queue that holds it, and what is done to it
    there. *)
Definition is_thread (tid : Z) (slot : option Thread) : bool := match slot with Some t => id t =? tid | None => false end.
Fixpoint on_found {A} (f : Thread → A * Thread) (tid : Z) (w : list RunQueue) : option A * list RunQueue :=
  match w with
  | [] => (None, [])
  | q :: w' =>
      match position (is_thread tid) (threads q) ≫= fun slot => threads q !! slot ≫= fun e => pair slot <$> e with
      | Some (slot, t) => let '(a, t') := f t in (Some a, set_threads q (<[slot := Some t']> (threads q)) :: w')
      | None => let '(a, w'') := on_found f tid w' in (a, q :: w'')
      end
  end.

(** ** The kernel, as IPC sees it *)
Inductive Returned : Type :=
| RNothing | RReply (r : result Message IpcError) | RReceived (r : result (Message * Z) IpcError) | RNotified | RReplied (r : result unit IpcError).

(** Where a thread stands. *)
Inductive Pc : Type :=
| Outside (last : Returned)
| CallDeliver (id : nat) (partner : Z) (m : Message)
| CallWake (id : nat) (partner : Z)
| CallWait (id : nat)
| CallSleep (id : nat)
| RecvStart (id : nat)
| RecvGift (id : nat) (partner : Z) (m : Message)
| RecvRefuse (id : nat) (partner : Z) (status : Z)
| RecvRefuseWake (id : nat) (partner : Z)
| RecvOwe (partner : Z) (m : Message)
| RecvWait (id : nat)
| RecvSleep (id : nat)
| RecvUnmark (id : nat)
| RecvCancel (id : nat) (last : Returned)
| ReplyTake (caller : Z) (m : Message)
| ReplyDeliver (caller : Z) (m : Message)
| ReplyPutBack (owed : Z)
| ReplyCount (caller : Z)
| ReplyWake (caller : Z)
| ExitCancel
| ExitOwed
| ExitTell (caller : Z)
| ExitWake (caller : Z)
| ExitFinish
| Exited.

(** [taken] and [answered] are not in the code: who took whose call, and who answered
    whom, so far. *)
Record Kernel : Type := MkKernel { table : Table; cpus : list RunQueue; pc : Z → Pc; taken : list (Z * Z); answered : list (Z * Z) }.

Definition goto (k : Kernel) (me : Z) (p : Pc) : Kernel :=
  MkKernel (table k) (cpus k) (fun t => if t =? me then p else pc k t) (taken k) (answered k).
Definition set_table (k : Kernel) (t : Table) : Kernel := MkKernel t (cpus k) (pc k) (taken k) (answered k).
Definition set_cpus (k : Kernel) (w : list RunQueue) : Kernel := MkKernel (table k) w (pc k) (taken k) (answered k).
Definition log_taken (k : Kernel) (server caller : Z) : Kernel := MkKernel (table k) (cpus k) (pc k) ((server, caller) :: taken k) (answered k).
Definition log_answered (k : Kernel) (server caller : Z) : Kernel := MkKernel (table k) (cpus k) (pc k) (taken k) ((server, caller) :: answered k).

Definition live_at (k : Kernel) (id : nat) : bool := match endpoints (table k) !! id with Some e => live e | None => false end.

(** Where a rendezvous, and a look at the mailbox, lead. *)
Definition after_send (id : nat) (r : result Rendezvous IpcError) : Pc :=
  match r with
  | Ok (Matched partner m) => CallDeliver id partner m
  | Ok Queued => CallWait id
  | Err e => Outside (RReply (Err e))
  end.
Definition after_recv (id : nat) (r : result Rendezvous IpcError) : Pc :=
  match r with
  | Ok (Matched partner m) => RecvGift id partner m
  | Ok Queued => RecvWait id
  | Err e => Outside (RReceived (Err e))
  end.
Definition call_found (id : nat) (d : Mailbox.Delivery) : Pc :=
  match d with
  | Mailbox.DMessage reply _ => Outside (RReply (Ok reply))
  | Mailbox.DRevoked => Outside (RReply (Err ServerGone))
  | Mailbox.DAbandoned => Outside (RReply (Err NoSuchEndpoint))
  | Mailbox.DDying => Outside (RReply (Err CallerDying))
  | Mailbox.DRefused status => Outside (RReply (Err (Refused status)))
  | Mailbox.DBlocked => CallSleep id
  end.
Definition recv_found (id : nat) (d : Mailbox.Delivery) : Pc :=
  match d with
  | Mailbox.DMessage m from => RecvGift id from m
  | Mailbox.DBlocked => RecvSleep id
  | _ => RecvCancel id (RReceived (Err NoSuchEndpoint))
  end.

(** ** The steps *)
Inductive step (k : Kernel) : Kernel → Prop :=
(* call *)
| SCall me last id badge' method' args' r t :
    pc k me = Outside last →
    Table.rendezvous_send (table k) id (MkPendingSend me (MkMessage method' args' badge')) = Done (r, t) →
    step k (goto (set_table k t) me (after_send id r))
| SCallDeliver me id partner m b w :
    pc k me = CallDeliver id partner m → on_found (Mailbox.deliver m me) partner (cpus k) = (b, w) →
    step k (goto (set_cpus k w) me (CallWake id partner))
| SCallDeliver_missed me id partner m :
    pc k me = CallDeliver id partner m → step k (goto k me (CallWake id partner))
| SCallWake me id partner now :
    pc k me = CallWake id partner → step k (goto (set_cpus k (Machine.wake (cpus k) partner now).2) me (CallWait id))
| SCallWait me id d w :
    pc k me = CallWait id → on_found (Mailbox.take_message_or_block (live_at k id)) me (cpus k) = (Some d, w) →
    step k (goto (set_cpus k w) me (call_found id d))
| SCallWait_missed me id :
    pc k me = CallWait id → step k (goto k me (call_found id Mailbox.DAbandoned))
| SCallSleep me id : pc k me = CallSleep id → step k (goto k me (CallWait id))
(* recv_either *)
| SRecv me last id : pc k me = Outside last → step k (goto k me (RecvStart id))
| SRecvNotified me last : pc k me = Outside last → step k (goto k me (Outside RNotified))
| SRecvStart me id r t :
    pc k me = RecvStart id → Table.rendezvous_recv (table k) id me = Done (r, t) → step k (goto (set_table k t) me (after_recv id r))
| SRecvGift_ok me id partner m : pc k me = RecvGift id partner m → step k (goto k me (RecvOwe partner m))
| SRecvGift_refused me id partner m status :
    pc k me = RecvGift id partner m → step k (goto k me (RecvRefuse id partner status))
| SRecvRefuse me id partner status u w :
    pc k me = RecvRefuse id partner status → on_found (Mailbox.refuse status) partner (cpus k) = (Some u, w) →
    step k (goto (set_cpus k w) me (RecvRefuseWake id partner))
| SRecvRefuse_missed me id partner status :
    pc k me = RecvRefuse id partner status → step k (goto k me (RecvStart id))
| SRecvRefuseWake me id partner now :
    pc k me = RecvRefuseWake id partner → step k (goto (set_cpus k (Machine.wake (cpus k) partner now).2) me (RecvStart id))
| SRecvOwe me partner m u w :
    pc k me = RecvOwe partner m → on_found (Mailbox.set_reply_target partner) me (cpus k) = (Some u, w) →
    step k (goto (log_taken (set_cpus k w) me partner) me (Outside (RReceived (Ok (m, partner)))))
| SRecvOwe_missed me partner m :
    pc k me = RecvOwe partner m → step k (goto k me (Outside (RReceived (Ok (m, partner)))))
| SRecvWait me id d w :
    pc k me = RecvWait id → on_found (Mailbox.take_message_or_block (live_at k id)) me (cpus k) = (Some d, w) →
    step k (goto (set_cpus k w) me (recv_found id d))
| SRecvWait_missed me id : pc k me = RecvWait id → step k (goto k me (recv_found id Mailbox.DAbandoned))
| SRecvSleep me id : pc k me = RecvSleep id → step k (goto k me (RecvWait id))
| SRecvSleep_notified me id : pc k me = RecvSleep id → step k (goto k me (RecvUnmark id))
| SRecvUnmark me id b w :
    pc k me = RecvUnmark id → on_found Mailbox.clear_blocked_mark me (cpus k) = (b, w) → step k (goto (set_cpus k w) me (RecvCancel id RNotified))
| SRecvCancel me id last :
    pc k me = RecvCancel id last → step k (goto (set_table k (Table.cancel (table k) id me)) me (Outside last))
(* reply *)
| SReply me last caller m : pc k me = Outside last → step k (goto k me (ReplyTake caller m))
| SReplyTake me caller m owed w :
    pc k me = ReplyTake caller m → on_found Mailbox.take_reply_target me (cpus k) = (owed, w) →
    step k (goto (set_cpus k w) me
      match owed with
      | Some (Some o) => if o =? caller then ReplyDeliver caller m else ReplyPutBack o
      | _ => Outside (RReplied (Err NoSuchCaller))
      end)
| SReplyTake_missed me caller m : pc k me = ReplyTake caller m → step k (goto k me (Outside (RReplied (Err NoSuchCaller))))
| SReplyDeliver me caller m b w :
    pc k me = ReplyDeliver caller m → on_found (Mailbox.deliver m me) caller (cpus k) = (b, w) →
    step k (match b with
            | Some true => goto (log_answered (set_cpus k w) me caller) me (ReplyCount caller)
            | _ => goto (set_cpus k w) me (ReplyPutBack caller)
            end)
| SReplyDeliver_missed me caller m : pc k me = ReplyDeliver caller m → step k (goto k me (ReplyPutBack caller))
| SReplyPutBack me owed u w :
    pc k me = ReplyPutBack owed → on_found (Mailbox.set_reply_target owed) me (cpus k) = (u, w) →
    step k (goto (set_cpus k w) me (Outside (RReplied (Err NoSuchCaller))))
| SReplyPutBack_missed me owed : pc k me = ReplyPutBack owed → step k (goto k me (Outside (RReplied (Err NoSuchCaller))))
| SReplyCount me caller r :
    pc k me = ReplyCount caller → add_checked 64 (replied (table k)) 1 = Done r →
    step k (goto (set_table k (MkTable (endpoints (table k)) (delivered (table k)) r)) me (ReplyWake caller))
| SReplyWake me caller now :
    pc k me = ReplyWake caller → step k (goto (set_cpus k (Machine.wake (cpus k) caller now).2) me (Outside (RReplied (Ok tt))))
(* exit *)
| SExit me last : pc k me = Outside last → step k (goto k me ExitCancel)
| SExitCancel me : pc k me = ExitCancel → step k (goto (set_table k (Table.cancel_all (table k) me).2) me ExitOwed)
| SExitOwed me owed w :
    pc k me = ExitOwed → on_found Mailbox.take_reply_target me (cpus k) = (owed, w) →
    step k (goto (set_cpus k w) me match owed with Some (Some caller) => ExitTell caller | _ => ExitFinish end)
| SExitTell me caller u w :
    pc k me = ExitTell caller → on_found Mailbox.lose_answer caller (cpus k) = (Some u, w) → step k (goto (set_cpus k w) me (ExitWake caller))
| SExitTell_missed me caller : pc k me = ExitTell caller → step k (goto k me ExitFinish)
| SExitWake me caller now :
    pc k me = ExitWake caller → step k (goto (set_cpus k (Machine.wake (cpus k) caller now).2) me ExitFinish)
| SExitFinish me u w :
    pc k me = ExitFinish → on_found Mailbox.finish me (cpus k) = (u, w) → step k (goto (set_cpus k w) me Exited)
(* the rest of the machine *)
| SPreempt busy cpu now w : Machine.preempt (cpus k) busy cpu now = Done w → step k (set_cpus k w)
| SFinishSwitch cpu w : Machine.finish_switch (cpus k) cpu = Done w → step k (set_cpus k w)
| SStrayWake tid now : step k (set_cpus k (Machine.wake (cpus k) tid now).2)
| SCreate : step k (set_table k (Table.create (table k)).2)
| SDestroy id : step k (set_table k (Table.destroy (table k) id).2).

(** ** What a step does to the threads *)
Lemma position_thread tid q :
  match position (is_thread tid) (threads q) ≫= fun slot => threads q !! slot ≫= fun e => pair slot <$> e with
  | Some (slot, t) => threads q !! slot = Some (Some t) ∧ id t = tid
  | None => ∀ s t, threads q !! s = Some (Some t) → id t ≠ tid
  end.
Proof.
  destruct (position (is_thread tid) (threads q)) as [slot|] eqn:Hp; cbn.
  - apply position_some in Hp as [(e & He & Hid) _]. rewrite He. cbn. destruct e as [t|]; [|done]. cbn in *. split; [done|lia].
  - intros s t Ht Hid. rewrite position_none in Hp. specialize (Hp s (Some t) Ht). cbn in Hp. lia.
Qed.

(** One thread of a queue replaced. *)
Lemma views_split q slot t t' : threads q !! slot = Some (Some t) →
  ∃ l1 l2, views q = l1 ++ view t :: l2 ∧ views (set_threads q (<[slot := Some t']> (threads q))) = l1 ++ view t' :: l2.
Proof.
  intros H. exists (view <$> occupied (take slot (threads q))), (view <$> occupied (drop (S slot) (threads q))).
  assert (E : ∀ u, view <$> occupied (take slot (threads q) ++ Some u :: drop (S slot) (threads q)) =
    (view <$> occupied (take slot (threads q))) ++ view u :: (view <$> occupied (drop (S slot) (threads q)))).
  { intros u. unfold occupied. rewrite omap_app. csimpl. by rewrite fmap_app. }
  unfold views, present. cbn [threads set_threads]. rewrite (insert_take_drop _ _ _ (lookup_lt_Some _ _ _ H)), <- !E.
  by rewrite (take_drop_middle _ _ _ H).
Qed.

(** One thread replaced, the others left: what every scan that finds its thread does. *)
Definition changes (w w' : list RunQueue) (t t' : Thread) : Prop :=
  ∃ l1 l2, all_views w = l1 ++ view t :: l2 ∧ all_views w' = l1 ++ view t' :: l2.

Lemma changes_here q q' w t t' l1 l2 : views q = l1 ++ view t :: l2 → views q' = l1 ++ view t' :: l2 → changes (q :: w) (q' :: w) t t'.
Proof.
  intros H H'. exists l1, (l2 ++ all_views w). unfold all_views. cbn [fmap list_fmap concat]. rewrite H, H'.
  split; by rewrite <- app_assoc, <- app_comm_cons.
Qed.
Lemma changes_there q w w' t t' : changes w w' t t' → changes (q :: w) (q :: w') t t'.
Proof.
  intros (l1 & l2 & H & H'). exists (views q ++ l1), l2. unfold all_views in *. cbn [fmap list_fmap concat]. rewrite H, H', !app_assoc. done.
Qed.

Lemma queue_ok_put q slot e : queue_ok q → queue_ok (set_threads q (<[slot := e]> (threads q))).
Proof. intros [H1 H2]. split; [|done]. cbn. by rewrite length_insert. Qed.

Lemma on_found_spec {A} (f : Thread → A * Thread) tid w : world_ok w →
  let '(r, w') := on_found f tid w in world_ok w' ∧
  match r with
  | Some a => ∃ t, id t = tid ∧ a = (f t).1 ∧ changes w w' t (f t).2
  | None => w' = w
  end.
Proof.
  induction w as [|q w IH]; intros Hw; [done|]. apply Forall_cons in Hw as [Hq Hw]. cbn [on_found]. pose proof (position_thread tid q) as Hp.
  destruct (_ ≫= _) as [[slot t]|].
  - destruct Hp as [Ht Hid]. destruct (f t) as [a t'] eqn:Hf. split; [constructor; [by apply queue_ok_put|done]|].
    exists t. rewrite Hf. split_and!; [done|done|]. destruct (views_split q slot t t' Ht) as (l1 & l2 & H1 & H2). by eapply changes_here.
  - specialize (IH Hw). destruct (on_found f tid w) as [r w']. destruct IH as [Hw' IH]. split; [by constructor|]. destruct r as [a|]; [|by f_equal].
    destruct IH as (t & Hid & Ha & Hc). exists t. split_and!; [done|done|]. by apply changes_there.
Qed.

Lemma position_wakes tid q :
  match position (Machine.wakes tid) (threads q) with
  | Some slot => ∃ t, threads q !! slot = Some (Some t) ∧ id t = tid ∧ state t = Blocked
  | None => ∀ s t, threads q !! s = Some (Some t) → id t = tid → state t ≠ Blocked
  end.
Proof.
  destruct (position (Machine.wakes tid) (threads q)) as [slot|] eqn:Hp.
  - apply position_some in Hp as [(e & He & Hw) _]. destruct e as [t|]; [|done]. cbn in Hw. apply andb_true_iff in Hw as [H1 H2%bool_decide_eq_true].
    exists t. split_and!; [done|lia|done].
  - intros s t Ht Hid Hb. rewrite position_none in Hp. specialize (Hp s (Some t) Ht). cbn in Hp. rewrite bool_decide_true, andb_true_r in Hp by done. lia.
Qed.

Lemma view_woken floor now t : view (Machine.woken floor now t) = view (set_state t Ready).
Proof. unfold Machine.woken. cbn. destruct (is_fair (policy t)); [|done]. by rewrite view_charge. Qed.

Lemma views_in q v : v ∈ views q ↔ ∃ s t, threads q !! s = Some (Some t) ∧ v = view t.
Proof.
  unfold views, present, occupied. rewrite list_elem_of_fmap. setoid_rewrite list_elem_of_omap. split.
  - intros (t & -> & e & He & ->). apply list_elem_of_lookup in He as [s Hs]. eauto.
  - intros (s & t & Hs & ->). exists t. split; [done|]. exists (Some t). split; [by eapply list_elem_of_lookup_2|done].
Qed.

Lemma parked_blocked t : parked (state t) = Some Blocked ↔ state t = Blocked.
Proof. unfold parked. destruct (state t); naive_solver. Qed.

Lemma wake_spec tid now w : world_ok w →
  let '(b, w') := Machine.wake w tid now in world_ok w' ∧
  (if b then ∃ t, id t = tid ∧ state t = Blocked ∧ changes w w' t (set_state t Ready)
   else w' = w ∧ ∀ v, v ∈ all_views w → v_id v = tid → v_parked v ≠ Some Blocked).
Proof.
  induction w as [|q w IH]; intros Hw; [by split; [|split; [|intros v ?%elem_of_nil]]|]. apply Forall_cons in Hw as [Hq Hw]. cbn [Machine.wake].
  pose proof (position_wakes tid q) as Hp. destruct (position (Machine.wakes tid) (threads q)) as [slot|].
  - destruct Hp as (t & Ht & Hid & Hb). split; [constructor; [by apply queue_ok_on_thread|done]|]. exists t. split_and!; [done|done|].
    destruct (views_split q slot t (Machine.woken (min_vruntime q) now t) Ht) as (l1 & l2 & H1 & H2). rewrite view_woken in H2.
    eapply changes_here; [exact H1|]. unfold on_thread. by rewrite Ht.
  - specialize (IH Hw). destruct (Machine.wake w tid now) as [b w']. destruct IH as [Hw' IH]. split; [by constructor|]. destruct b.
    + destruct IH as (t & Hid & Hb & Hc). exists t. split_and!; [done|done|]. by apply changes_there.
    + destruct IH as [-> Hno]. split; [done|]. intros v Hv. unfold all_views in Hv. cbn [fmap list_fmap concat] in Hv.
      apply elem_of_app in Hv as [(s & t & Hs & ->)%views_in|Hv]; [|by apply Hno]. cbn. intros Hid. rewrite parked_blocked. by eapply Hp.
Qed.

(** ** Nobody is left asleep with news *)

(** Something has happened that a waiting thread must hear of. *)
Definition news (v : View) : Prop := v_mailbox v ≠ None ∨ v_answer_lost v = true ∨ v_call_refused v ≠ None.
Definition asleep (v : View) : Prop := v_parked v = Some Blocked.

(** The thread at [p] is about to wake [tid]. *)
Definition will_wake (p : Pc) (tid : Z) : Prop :=
  match p with
  | CallWake _ partner | RecvRefuseWake _ partner | ReplyCount partner | ReplyWake partner | ExitWake partner => partner = tid
  | _ => False
  end.

Record settled (k : Kernel) : Prop := {
  se_ok : world_ok (cpus k);
  se_ids : NoDup (v_id <$> all_views (cpus k));
  se_news : ∀ v, v ∈ all_views (cpus k) → asleep v → news v → ∃ me, will_wake (pc k me) (v_id v)
}.

Lemma pc_goto k me p t : pc (goto k me p) t = if t =? me then p else pc k t.
Proof. done. Qed.

(** Moving on without touching the threads. *)
Lemma settled_goto k k' me p : cpus k' = cpus k → pc k' = pc k → (∀ tid, will_wake (pc k me) tid → will_wake p tid) → settled k → settled (goto k' me p).
Proof.
  intros Ec Ep Hw [H1 H2 H3]. split; cbn [cpus goto set_cpus pc]; rewrite ?Ec; try done. intros v Hv Ha Hn. destruct (H3 v Hv Ha Hn) as [u Hu]. exists u.
  destruct (Z.eqb_spec u me) as [->|]; [by apply Hw|by rewrite Ep].
Qed.

(** Changing one thread on the way. *)
Lemma settled_change k k' me p w t t' : changes (cpus k) w t t' → world_ok w → pc k' = pc k →
  id t' = id t → (∀ tid, ¬ will_wake (pc k me) tid) →
  (asleep (view t') → news (view t') → (asleep (view t) ∧ news (view t)) ∨ will_wake p (id t)) → settled k → settled (goto (set_cpus k' w) me p).
Proof.
  intros (l1 & l2 & E & E') Hw Ep Hid Hno Hcase [H1 H2 H3]. split; cbn [cpus goto set_cpus pc]; [done| |].
  - rewrite E'. rewrite E in H2. rewrite fmap_app, fmap_cons in *. cbn in *. by rewrite Hid.
  - intros v Hv Ha Hn. assert (Hold : (v ∈ all_views (cpus k) ∧ asleep v ∧ news v) ∨ (v = view t' ∧ will_wake p (v_id v)) ∨
      (∃ v0, v0 ∈ all_views (cpus k) ∧ asleep v0 ∧ news v0 ∧ v_id v0 = v_id v)).
    { rewrite E' in Hv. apply elem_of_app in Hv as [Hv|[-> |Hv]%elem_of_cons].
      - left. split; [|done]. rewrite E. apply elem_of_app. by left.
      - destruct (Hcase Ha Hn) as [[Ha0 Hn0]|Hww]; [right; right|right; left; split; [done|cbn; by rewrite Hid]].
        exists (view t). split; [rewrite E; apply elem_of_app; right; left|]. split_and!; [done|done|]. cbn. by rewrite Hid.
      - left. split; [|done]. rewrite E. apply elem_of_app. right. by right. }
    assert (Hstay : ∀ v0, v0 ∈ all_views (cpus k) → asleep v0 → news v0 → v_id v0 = v_id v → ∃ u, will_wake (if u =? me then p else pc k' u) (v_id v)).
    { intros v0 Hv0 Ha0 Hn0 Eid. destruct (H3 v0 Hv0 Ha0 Hn0) as [u Hu]. exists u. rewrite Eid in Hu.
      destruct (Z.eqb_spec u me) as [->|]; [by destruct (Hno _ Hu)|by rewrite Ep]. }
    destruct Hold as [(Hv0 & _ & _)|[[-> Hww]|(v0 & Hv0 & Ha0 & Hn0 & Eid)]]; [by eapply Hstay| |by eapply Hstay].
    exists me. by rewrite Z.eqb_refl.
Qed.

(** A scan on the way. *)
Lemma settled_scan {A} (f : Thread → A * Thread) tid k k' me p r w : on_found f tid (cpus k) = (r, w) → pc k' = pc k → (∀ tid, ¬ will_wake (pc k me) tid) →
  (∀ t, id (f t).2 = id t) →
  (∀ t, id t = tid → r = Some (f t).1 → asleep (view (f t).2) → news (view (f t).2) → (asleep (view t) ∧ news (view t)) ∨ will_wake p tid) →
  settled k → settled (goto (set_cpus k' w) me p).
Proof.
  intros Hf Ep Hno Hid Hcase Hk. pose proof (on_found_spec f tid (cpus k) (se_ok _ Hk)) as Hs. rewrite Hf in Hs. destruct Hs as [Hw Hs].
  destruct r as [a|].
  - destruct Hs as (t & Ht & -> & Hc). eapply settled_change; try done. intros Ha Hn. destruct (Hcase t Ht eq_refl Ha Hn) as [|]; [by left|right; by rewrite Ht].
  - subst w. eapply settled_goto; [|exact Ep| |exact Hk]; [done|]. intros u Hu. by destruct (Hno u).
Qed.

(** After a wake nobody by that name is asleep. *)
Lemma wake_rouses k tid now : settled k → let w := (Machine.wake (cpus k) tid now).2 in
  world_ok w ∧ NoDup (v_id <$> all_views w) ∧ ∀ v, v ∈ all_views w → asleep v → v ∈ all_views (cpus k) ∧ v_id v ≠ tid.
Proof.
  intros [H1 H2 _]. pose proof (wake_spec tid now (cpus k) H1) as Hs. destruct (Machine.wake (cpus k) tid now) as [b w]. destruct Hs as [Hw Hs]. cbn [snd].
  split; [done|]. destruct b.
  - destruct Hs as (t & Hid & Hb & l1 & l2 & E & E'). rewrite E in H2. rewrite fmap_app, fmap_cons in H2. cbn in H2. rewrite E', fmap_app, fmap_cons. cbn.
    split; [done|]. intros v Hv Ha. apply NoDup_app in H2 as (_ & Hd & H2). apply NoDup_cons in H2 as [Hd' _].
    apply elem_of_app in Hv as [Hv|[-> |Hv]%elem_of_cons]; [| |].
    + split; [rewrite E; apply elem_of_app; by left|]. intros Hv'. apply (Hd (v_id v)); [by apply list_elem_of_fmap_2|]. rewrite Hv', <- Hid. left.
    + done.
    + split; [rewrite E; apply elem_of_app; right; by right|]. intros Hv'. apply Hd'. rewrite Hid, <- Hv'. by apply list_elem_of_fmap_2.
  - destruct Hs as [-> Hno]. split; [done|]. intros v Hv Ha. split; [done|]. intros Hid. by apply (Hno v Hv Hid).
Qed.

(** A wake, by the thread that owed it, and one that nobody owed. *)
Lemma settled_wake k tid now k' me p : pc k' = pc k → (∀ u, will_wake (pc k me) u → u = tid) → settled k →
  settled (goto (set_cpus k' (Machine.wake (cpus k) tid now).2) me p).
Proof.
  intros Ep Hme Hk. destruct (wake_rouses k tid now Hk) as (Hw & Hnd & Hgone). split; cbn [cpus goto set_cpus pc]; [done|done|].
  intros v Hv Ha Hn. destruct (Hgone v Hv Ha) as [Hv0 Hne]. destruct (se_news _ Hk v Hv0 Ha Hn) as [u Hu]. exists u.
  destruct (Z.eqb_spec u me) as [->|]; [|by rewrite Ep]. destruct Hne. by apply Hme.
Qed.
Lemma settled_stray k tid now : settled k → settled (set_cpus k (Machine.wake (cpus k) tid now).2).
Proof.
  intros Hk. destruct (wake_rouses k tid now Hk) as (Hw & Hnd & Hgone). split; cbn [cpus set_cpus pc]; [done|done|].
  intros v Hv Ha Hn. destruct (Hgone v Hv Ha) as [Hv0 _]. by apply (se_news _ Hk).
Qed.

(** The rest of the machine. *)
Lemma settled_machine k w : all_views w ≡ₚ all_views (cpus k) → world_ok w → settled k → settled (set_cpus k w).
Proof.
  intros E Hw [H1 H2 H3]. split; cbn [cpus goto set_cpus pc]; [done|by rewrite E|]. intros v Hv. apply H3. by rewrite <- E.
Qed.

Lemma take_or_block_awake still t : asleep (view (Mailbox.take_message_or_block still t).2) → ¬ news (view (Mailbox.take_message_or_block still t).2).
Proof.
  unfold Mailbox.take_message_or_block, asleep, news. destruct (mailbox t) as [[m from]|] eqn:Hm; [done|].
  destruct (answer_lost t) eqn:Hl; [done|]. destruct (call_refused t) as [st|] eqn:Hr; [done|]. destruct (dying t); [done|]. destruct still; [|done].
  cbn. rewrite Hm, Hl, Hr. intros _ [?|[?|?]]; done.
Qed.
Lemma take_or_block_id still t : id (Mailbox.take_message_or_block still t).2 = id t.
Proof.
  unfold Mailbox.take_message_or_block. destruct (mailbox t) as [[m from]|]; [done|]. destruct (answer_lost t); [done|].
  destruct (call_refused t); [done|]. destruct (dying t); [done|]. by destruct still.
Qed.
Lemma deliver_id m from t : id (Mailbox.deliver m from t).2 = id t.
Proof. unfold Mailbox.deliver. by destruct (mailbox t). Qed.
Lemma clear_id t : id (Mailbox.clear_blocked_mark t).2 = id t.
Proof. unfold Mailbox.clear_blocked_mark. by case_bool_decide. Qed.

Ltac quiet H := rewrite H; cbn; intros; try done; try tauto.

Lemma step_settled k k' : settled k → step k k' → settled k'.
Proof.
  intros Hk Hstep. destruct Hstep as
    [me last i b' m' a' r t Hp Hr|me i partner m b w Hp Hf|me i partner m Hp|me i partner now Hp|me i d w Hp Hf|me i Hp|me i Hp
    |me last i Hp|me last Hp|me i r t Hp Hr|me i partner m Hp|me i partner m st Hp|me i partner st u w Hp Hf|me i partner st Hp
    |me i partner now Hp|me partner m u w Hp Hf|me partner m Hp|me i d w Hp Hf|me i Hp|me i Hp|me i Hp|me i b w Hp Hf|me i last Hp
    |me last caller m Hp|me caller m owed w Hp Hf|me caller m Hp|me caller m b w Hp Hf|me caller m Hp|me owed u w Hp Hf|me owed Hp
    |me caller r Hp Hr|me caller now Hp|me last Hp|me Hp|me owed w Hp Hf|me caller u w Hp Hf|me caller Hp|me caller now Hp|me u w Hp Hf
    |busy cpu now w Hm|cpu w Hm|tid now| |i].
  (* steps that leave the threads alone *)
  all: try (apply (settled_goto k); [done|done|quiet Hp|exact Hk]).
  (* wakes *)
  all: try (apply (settled_wake k); [done|quiet Hp; congruence|exact Hk]).
  (* scans *)
  - eapply (settled_scan _ _ k k); [exact Hf|done|quiet Hp|apply deliver_id| |exact Hk]. intros; by right.
  - eapply (settled_scan _ _ k k); [exact Hf|done|quiet Hp|intros; apply take_or_block_id| |exact Hk]. intros t _ _ Ha Hn. by destruct (take_or_block_awake _ _ Ha).
  - eapply (settled_scan _ _ k k); [exact Hf|done|quiet Hp|done| |exact Hk]. intros; by right.
  - apply (settled_scan _ _ k (log_taken k me partner) me _ _ _ Hf); [done|quiet Hp|done| |exact Hk]. intros t _ _ Ha Hn. by left.
  - eapply (settled_scan _ _ k k); [exact Hf|done|quiet Hp|intros; apply take_or_block_id| |exact Hk]. intros t _ _ Ha Hn. by destruct (take_or_block_awake _ _ Ha).
  - eapply (settled_scan _ _ k k); [exact Hf|done|quiet Hp|apply clear_id| |exact Hk]. intros t _ _. unfold Mailbox.clear_blocked_mark.
    case_bool_decide; [done|by left].
  - eapply (settled_scan _ _ k k); [exact Hf|done|quiet Hp|done| |exact Hk]. intros t _ _ Ha Hn. by left.
  - destruct b as [[|]|].
    + apply (settled_scan _ _ k (log_answered k me caller) me _ _ _ Hf); [done|quiet Hp|apply deliver_id| |exact Hk]. intros; by right.
    + eapply (settled_scan _ _ k k); [exact Hf|done|quiet Hp|apply deliver_id| |exact Hk]. intros t _ E Ha Hn. unfold Mailbox.deliver in *. destruct (mailbox t); [by left|done].
    + eapply (settled_scan _ _ k k); [exact Hf|done|quiet Hp|apply deliver_id| |exact Hk]. done.
  - eapply (settled_scan _ _ k k); [exact Hf|done|quiet Hp|done| |exact Hk]. intros t _ _ Ha Hn. by left.
  - eapply (settled_scan _ _ k k); [exact Hf|done|quiet Hp|done| |exact Hk]. intros t _ _ Ha Hn. by left.
  - eapply (settled_scan _ _ k k); [exact Hf|done|quiet Hp|done| |exact Hk]. intros; by right.
  - eapply (settled_scan _ _ k k); [exact Hf|done|quiet Hp|done| |exact Hk]. done.
  (* the rest of the machine *)
  - destruct (preempt_keeps _ _ _ _ _ (se_ok _ Hk) Hm) as (Hv & Hw & _). by apply settled_machine.
  - unfold Machine.finish_switch in Hm. inv_done. apply settled_machine; [|apply world_insert; [apply Hk|]|done].
    + by eapply insert_same_views.
    + match goal with H : cpus k !! cpu = Some _ |- _ => destruct (Forall_lookup_1 _ _ _ _ (se_ok _ Hk) H); by split end.
  - by apply settled_stray.
  - by destruct Hk.
  - by destruct Hk.
Qed.

(** A kernel in which nothing has happened yet: its threads have names of their own
    and nobody has anything to hear. *)
Definition fresh (k : Kernel) : Prop :=
  world_ok (cpus k) ∧ NoDup (v_id <$> all_views (cpus k)) ∧ ∀ v, v ∈ all_views (cpus k) → ¬ news v.

(** C39. Nobody is left asleep with news. Whatever the threads of a machine call,
    receive, refuse, answer and leave, interleaved in whatever way with each other,
    with preemption on any CPU and with stray wakes, a thread that is asleep while a
    message, a refusal or the death of its server awaits it is one that another
    thread is about to wake. *)
Theorem no_thread_sleeps_on_news k k' : fresh k → rtc step k k' →
  ∀ v, v ∈ all_views (cpus k') → asleep v → news v → ∃ me, will_wake (pc k' me) (v_id v).
Proof.
  intros (H1 & H2 & H3) Hs. enough (Hk' : settled k') by apply Hk'.
  assert (Hk : settled k) by (split; [done|done|intros v Hv _ Hn; by destruct (H3 v Hv)]). clear -Hk Hs.
  induction Hs as [|k k1 k' Hstep _ IH]; [done|]. by apply IH, (step_settled k).
Qed.

(** ** Answers are answers to calls *)
Definition slot_owes (w : list RunQueue) (s c : Z) : bool := existsb (fun v => (v_id v =? s) && bool_decide (v_reply_to v = Some c)) (all_views w).
Definition hand_owes (p : Pc) (c : Z) : bool := match p with ReplyDeliver caller _ | ReplyPutBack caller => caller =? c | _ => false end.
Definition times (s c : Z) (l : list (Z * Z)) : Z := Z.of_nat (count (fun '(s', c') => (s' =? s) && (c' =? c)) l).

(** Answers given and answers owed are together no more than calls taken. *)
Definition square (k : Kernel) : Prop :=
  ∀ s c, times s c (answered k) + Z.b2z (slot_owes (cpus k) s c) + Z.b2z (hand_owes (pc k s) c) ≤ times s c (taken k).

Lemma slot_owes_spec w s c : slot_owes w s c = true ↔ ∃ v, v ∈ all_views w ∧ v_id v = s ∧ v_reply_to v = Some c.
Proof.
  unfold slot_owes. rewrite existsb_exists. setoid_rewrite andb_true_iff. setoid_rewrite bool_decide_eq_true. setoid_rewrite Z.eqb_eq.
  setoid_rewrite <- list_elem_of_In. naive_solver.
Qed.

Lemma slot_owes_perm w w' s c : all_views w' ≡ₚ all_views w → slot_owes w' s c = slot_owes w s c.
Proof. intros E. apply eq_true_iff_eq. rewrite !slot_owes_spec. by setoid_rewrite E. Qed.

(** What becomes of a debt when one thread changes. *)
Lemma slot_owes_change w w' t t' : NoDup (v_id <$> all_views w) → changes w w' t t' → id t' = id t →
  ∀ s c, slot_owes w' s c = (if s =? id t then bool_decide (reply_to t' = Some c) else slot_owes w s c) ∧
         (s = id t → slot_owes w s c = bool_decide (reply_to t = Some c)).
Proof.
  intros Hnd (l1 & l2 & E & E') Hid s c. rewrite E, fmap_app, fmap_cons in Hnd. cbn in Hnd. apply NoDup_app in Hnd as (_ & Hd1 & Hd2). apply NoDup_cons in Hd2 as [Hd2 _].
  assert (Hout : ∀ v, v ∈ l1 ∨ v ∈ l2 → v_id v ≠ id t).
  { intros v [Hv|Hv] Hv'; [apply (Hd1 (v_id v)); [by apply list_elem_of_fmap_2|rewrite Hv'; left]|apply Hd2; rewrite <- Hv'; by apply list_elem_of_fmap_2]. }
  assert (Hhere : ∀ (w0 : list RunQueue) (u : Thread), all_views w0 = l1 ++ view u :: l2 → id u = id t → slot_owes w0 (id t) c = bool_decide (reply_to u = Some c)).
  { intros w0 u E0 Hu. apply eq_true_iff_eq. rewrite slot_owes_spec, bool_decide_eq_true, E0. split.
    - intros (v & Hv & Hi & Hr). apply elem_of_app in Hv as [Hv|[-> |Hv]%elem_of_cons]; [by destruct (Hout v (or_introl Hv))|done|by destruct (Hout v (or_intror Hv))].
    - intros Hr. exists (view u). split; [apply elem_of_app; right; left|]. done. }
  split.
  - destruct (Z.eqb_spec s (id t)) as [->|Hne]; [by apply Hhere|]. apply eq_true_iff_eq. rewrite !slot_owes_spec, E, E'. split.
    + intros (v & Hv & Hi & Hr). exists v. split; [|done]. apply elem_of_app in Hv as [Hv|[-> |Hv]%elem_of_cons]; apply elem_of_app; [by left| |right; by right].
      cbn in Hi. congruence.
    + intros (v & Hv & Hi & Hr). exists v. split; [|done]. apply elem_of_app in Hv as [Hv|[-> |Hv]%elem_of_cons]; apply elem_of_app; [by left| |right; by right].
      cbn in Hi. congruence.
  - intros ->. by apply Hhere.
Qed.

(** A scan that leaves debts alone, and a wake. *)
Lemma scan_debts {A} (f : Thread → A * Thread) tid k r w : settled k → on_found f tid (cpus k) = (r, w) →
  (∀ t, id (f t).2 = id t ∧ reply_to (f t).2 = reply_to t) → ∀ s c, slot_owes w s c = slot_owes (cpus k) s c.
Proof.
  intros Hk Hf Hsame s c. pose proof (on_found_spec f tid (cpus k) (se_ok _ Hk)) as Hs. rewrite Hf in Hs. destruct Hs as [_ Hs]. destruct r as [a|]; [|by subst w].
  destruct Hs as (t & _ & _ & Hc). destruct (Hsame t) as [Hid Hr]. destruct (slot_owes_change _ _ _ _ (se_ids _ Hk) Hc Hid s c) as [-> H2].
  destruct (Z.eqb_spec s (id t)) as [E|]; [|done]. by rewrite (H2 E), Hr.
Qed.
Lemma wake_debts tid now k : settled k → ∀ s c, slot_owes (Machine.wake (cpus k) tid now).2 s c = slot_owes (cpus k) s c.
Proof.
  intros Hk s c. pose proof (wake_spec tid now (cpus k) (se_ok _ Hk)) as Hs. destruct (Machine.wake (cpus k) tid now) as [b w]. destruct Hs as [_ Hs]. cbn [snd].
  destruct b; [|by destruct Hs as [-> _]]. destruct Hs as (t & _ & _ & Hc). destruct (slot_owes_change _ _ _ _ (se_ids _ Hk) Hc eq_refl s c) as [-> H2].
  destruct (Z.eqb_spec s (id t)) as [E|]; [|done]. by rewrite (H2 E).
Qed.
(** A scan for the thread itself that sets what it owes. *)
Lemma scan_sets {A} (f : Thread → A * Thread) me k a w r : settled k → on_found f me (cpus k) = (Some a, w) →
  (∀ t, id (f t).2 = id t ∧ reply_to (f t).2 = r) →
  ∀ s c, slot_owes w s c = if s =? me then bool_decide (r = Some c) else slot_owes (cpus k) s c.
Proof.
  intros Hk Hf Hset s c. pose proof (on_found_spec f me (cpus k) (se_ok _ Hk)) as Hs. rewrite Hf in Hs. destruct Hs as (_ & t & Ht & _ & Hc).
  destruct (Hset t) as [Hid Hr]. destruct (slot_owes_change _ _ _ _ (se_ids _ Hk) Hc Hid s c) as [-> _]. by rewrite Ht, Hr.
Qed.

Lemma square_goto k k' me p : (∀ s c, slot_owes (cpus k') s c = slot_owes (cpus k) s c) → pc k' = pc k → taken k' = taken k → answered k' = answered k →
  (∀ c, hand_owes p c = true → hand_owes (pc k me) c = true) → square k → square (goto k' me p).
Proof.
  intros E1 E2 E3 E4 Hh H s c. specialize (H s c). cbn [cpus pc taken answered goto]. rewrite E1, E2, E3, E4.
  destruct (Z.eqb_spec s me) as [->|]; [|done]. specialize (Hh c). destruct (hand_owes p c), (hand_owes (pc k me) c); cbn in *; lia.
Qed.

Lemma times_cons s c s' c' l : times s c ((s', c') :: l) = times s c l + Z.b2z ((s' =? s) && (c' =? c)).
Proof. unfold times, count. cbn. destruct ((s' =? s) && (c' =? c)); cbn; lia. Qed.

Ltac same_debts Hk := intros; first [reflexivity | apply (wake_debts _ _ _ Hk) | eapply (scan_debts _ _ _ _ _ Hk); [eassumption|]].

Lemma take_or_block_debt still t : id (Mailbox.take_message_or_block still t).2 = id t ∧ reply_to (Mailbox.take_message_or_block still t).2 = reply_to t.
Proof.
  unfold Mailbox.take_message_or_block. destruct (mailbox t) as [[m from]|]; [done|]. destruct (answer_lost t); [done|].
  destruct (call_refused t); [done|]. destruct (dying t); [done|]. by destruct still.
Qed.
Lemma deliver_debt m from t : id (Mailbox.deliver m from t).2 = id t ∧ reply_to (Mailbox.deliver m from t).2 = reply_to t.
Proof. unfold Mailbox.deliver. by destruct (mailbox t). Qed.
Lemma clear_debt t : id (Mailbox.clear_blocked_mark t).2 = id t ∧ reply_to (Mailbox.clear_blocked_mark t).2 = reply_to t.
Proof. unfold Mailbox.clear_blocked_mark. by case_bool_decide. Qed.

(** Taking up an obligation, and putting one back. *)
Lemma square_owe k me partner w u p : settled k → square k → on_found (Mailbox.set_reply_target partner) me (cpus k) = (Some u, w) →
  (∀ c, hand_owes p c = false) → square (goto (log_taken (set_cpus k w) me partner) me p).
Proof.
  intros Hk H Hf Hp s c. specialize (H s c). cbn [cpus pc taken answered goto log_taken set_cpus]. rewrite times_cons.
  rewrite (scan_sets _ _ _ _ _ (Some partner) Hk Hf) by done. rewrite (Z.eqb_sym me s). destruct (Z.eqb_spec s me) as [->|]; cbn [andb]; [|cbn; lia].
  rewrite Hp. destruct (Z.eqb_spec partner c) as [->|Hne]; [rewrite bool_decide_true by done|rewrite bool_decide_false by congruence];
    destruct (slot_owes (cpus k) me c), (hand_owes (pc k me) c); cbn in *; lia.
Qed.
Lemma square_put_back k me owed w u p : settled k → square k → pc k me = ReplyPutBack owed → on_found (Mailbox.set_reply_target owed) me (cpus k) = (u, w) →
  (∀ c, hand_owes p c = false) → square (goto (set_cpus k w) me p).
Proof.
  intros Hk H Hpc Hf Hp s c. specialize (H s c). cbn [cpus pc taken answered goto set_cpus]. destruct u as [u|].
  - rewrite (scan_sets _ _ _ _ _ (Some owed) Hk Hf) by done. destruct (Z.eqb_spec s me) as [->|]; [|done]. rewrite Hp. rewrite Hpc in H. cbn in H.
    destruct (Z.eqb_spec owed c) as [->|Hne]; [rewrite bool_decide_true by done|rewrite bool_decide_false by congruence]; destruct (slot_owes (cpus k) me c); cbn in *; lia.
  - pose proof (on_found_spec (Mailbox.set_reply_target owed) me (cpus k) (se_ok _ Hk)) as Hs. rewrite Hf in Hs. destruct Hs as [_ ->].
    destruct (Z.eqb_spec s me) as [->|]; [|done]. rewrite Hp. destruct (hand_owes (pc k me) c); cbn in *; lia.
Qed.
(** Taking an obligation in hand. *)
Lemma square_take k me owed w (p : option (option Z) → Pc) : settled k → square k → on_found Mailbox.take_reply_target me (cpus k) = (owed, w) →
  (∀ c, hand_owes (pc k me) c = false) → (∀ c, hand_owes (p owed) c = true → owed = Some (Some c)) → square (goto (set_cpus k w) me (p owed)).
Proof.
  intros Hk H Hf Hno Hp s c. specialize (H s c). cbn [cpus pc taken answered goto set_cpus].
  pose proof (on_found_spec Mailbox.take_reply_target me (cpus k) (se_ok _ Hk)) as Hs. rewrite Hf in Hs. destruct Hs as [_ Hs]. destruct owed as [o|].
  - destruct Hs as (t & Ht & Ho & Hc). destruct (slot_owes_change _ _ _ _ (se_ids _ Hk) Hc eq_refl s c) as [-> Hold]. rewrite Ht in Hold |- *.
    destruct (Z.eqb_spec s me) as [E|]; [|done]. rewrite (Hold E) in H. subst s. rewrite Hno in H. cbn in Ho |- *. subst o.
    destruct (hand_owes (p (Some (reply_to t))) c) eqn:Eh; [|rewrite bool_decide_false by done; destruct (bool_decide (reply_to t = Some c)); cbn in *; lia].
    apply Hp in Eh. injection Eh as Eh. rewrite Eh in *. rewrite bool_decide_true in H by done. rewrite bool_decide_false by done. cbn in *. lia.
  - subst w. destruct (Z.eqb_spec s me) as [->|]; [|done]. destruct (hand_owes (p None) c) eqn:Eh; [by apply Hp in Eh|].
    destruct (hand_owes (pc k me) c); cbn in *; lia.
Qed.

Lemma step_square k k' : settled k → square k → step k k' → square k'.
Proof.
  intros Hk H Hstep. destruct Hstep as
    [me last i b' m' a' r t Hp Hr|me i partner m b w Hp Hf|me i partner m Hp|me i partner now Hp|me i d w Hp Hf|me i Hp|me i Hp
    |me last i Hp|me last Hp|me i r t Hp Hr|me i partner m Hp|me i partner m st Hp|me i partner st u w Hp Hf|me i partner st Hp
    |me i partner now Hp|me partner m u w Hp Hf|me partner m Hp|me i d w Hp Hf|me i Hp|me i Hp|me i Hp|me i b w Hp Hf|me i last Hp
    |me last caller m Hp|me caller m owed w Hp Hf|me caller m Hp|me caller m b w Hp Hf|me caller m Hp|me owed u w Hp Hf|me owed Hp
    |me caller r Hp Hr|me caller now Hp|me last Hp|me Hp|me owed w Hp Hf|me caller u w Hp Hf|me caller Hp|me caller now Hp|me u w Hp Hf
    |busy cpu now w Hm|cpu w Hm|tid now| |i].
  (* no debt changes hands *)
  all: try (apply (square_goto k); [done|done|done|done|rewrite Hp; intros c; unfold after_send, call_found, after_recv, recv_found; cbn; repeat case_match; cbn; done|exact H]).
  all: try (apply (square_goto k); [intros; apply (wake_debts _ _ _ Hk)|done|done|done|rewrite Hp; done|exact H]).
  all: try (apply (square_goto k); [apply (scan_debts _ _ _ _ _ Hk Hf); intros; first [done|apply deliver_debt|apply take_or_block_debt|apply clear_debt]
                                   |done|done|done|rewrite Hp; intros c; unfold after_send, call_found, after_recv, recv_found; cbn; repeat case_match; cbn; done|exact H]).
  - by apply (square_owe k me partner w u _ Hk H Hf).
  - apply (square_take k me owed w (fun o => match o with Some (Some o) => if o =? caller then ReplyDeliver caller m else ReplyPutBack o | _ => Outside (RReplied (Err NoSuchCaller)) end) Hk H Hf).
    + by rewrite Hp.
    + intros c. destruct owed as [[o|]|]; try done. destruct (Z.eqb_spec o caller) as [->|]; cbn; intros E; do 2 f_equal; lia.
  - pose proof (scan_debts _ _ _ _ _ Hk Hf (deliver_debt m me)) as Hd. destruct b as [[|]|].
    + intros s c. specialize (H s c). cbn [cpus pc taken answered goto log_answered set_cpus]. rewrite times_cons, Hd, (Z.eqb_sym me s).
      destruct (Z.eqb_spec s me) as [->|]; cbn [andb]; [|cbn; lia]. rewrite Hp in H. cbn in *. destruct (caller =? c); cbn in *; lia.
    + by apply (square_goto k); try done; rewrite Hp.
    + by apply (square_goto k); try done; rewrite Hp.
  - by apply (square_put_back k me owed w u _ Hk H Hp Hf).
  - apply (square_take k me owed w (fun o => match o with Some (Some caller) => ExitTell caller | _ => ExitFinish end) Hk H Hf); [by rewrite Hp|].
    intros c. by destruct owed as [[o|]|].
  - intros s c. specialize (H s c). cbn [cpus pc taken answered set_cpus]. destruct (preempt_keeps _ _ _ _ _ (se_ok _ Hk) Hm) as (Hv & _ & _). by rewrite (slot_owes_perm _ _ _ _ Hv).
  - intros s c. specialize (H s c). cbn [cpus pc taken answered set_cpus]. unfold Machine.finish_switch in Hm. inv_done.
    match goal with Hq : cpus k !! cpu = Some _ |- _ => rewrite (slot_owes_perm _ _ _ _ (insert_same_views _ _ _ (set_switching _ false) Hq (Permutation_refl _))) end. done.
  - intros s c. specialize (H s c). cbn [cpus pc taken answered set_cpus]. by rewrite (wake_debts _ _ _ Hk).
  - exact H.
  - exact H.
Qed.

(** C40. A thread is answered only by those who took its calls, and only once for each.
    Whatever the threads do and however they are interleaved, the answers a server has
    put into a caller's mailbox are never more than the calls it took from that caller:
    nobody answers twice, and nobody answers a thread it never heard from. *)
Theorem answers_answer_calls k k' : fresh k → square k → rtc step k k' →
  ∀ s c, times s c (answered k') ≤ times s c (taken k').
Proof.
  intros (H1 & H2 & H3) Hsq Hs s c. enough (Hk' : square k').
  { specialize (Hk' s c). destruct (slot_owes (cpus k') s c), (hand_owes (pc k' s) c); cbn in Hk'; lia. }
  assert (Hk : settled k) by (split; [done|done|intros v Hv _ Hn; by destruct (H3 v Hv)]). clear -Hk Hsq Hs.
  induction Hs as [|k k1 k' Hstep _ IH]; [done|]. apply IH; [by apply (step_square k)|by apply (step_settled k)].
Qed.

(** ** A call, taken and answered *)

(** A server 1 and its client 2 on one CPU, and one endpoint. *)
Definition demo_kernel : Kernel :=
  MkKernel (Table.create Table.new).2
    [MkRunQueue ([Some (demo_thread 1 (Fair 1024) Running); Some (demo_thread 2 (Fair 1024) Ready)] ++ replicate 6 None) 0 true 0 0 false]
    (fun _ => Outside RNothing) [] [].

Lemma demo_views : all_views (cpus demo_kernel) =
  [MkView 1 None false None None NO_DOMAIN false false None (Fair 1024); MkView 2 None false None None NO_DOMAIN false false None (Fair 1024)].
Proof. vm_compute. reflexivity. Qed.
Lemma demo_fresh : fresh demo_kernel.
Proof.
  split; [|split].
  { constructor; [split; vm_compute; [reflexivity|lia]|constructor]. }
  { rewrite demo_views. by apply (bool_decide_unpack (NoDup [1; 2])). }
  rewrite demo_views. intros v. rewrite !elem_of_cons, elem_of_nil. unfold news. naive_solver.
Qed.
Lemma demo_square : square demo_kernel.
Proof.
  intros s c. assert (slot_owes (cpus demo_kernel) s c = false) as ->; [|cbn; lia].
  unfold slot_owes. rewrite demo_views. cbn [existsb v_id v_reply_to]. rewrite bool_decide_false by done. by rewrite !andb_false_r.
Qed.

Definition question : Message := MkMessage 7 [42; 0; 0; 0] 0.
Definition answer : Message := MkMessage 0 [43; 0; 0; 0] 0.

(** One step, named, whose side conditions compute. *)
Tactic Notation "go" uconstr(c) := eapply rtc_l; [eapply c; vm_compute; reflexivity|].

(** The server waits; the client calls and has not woken it yet. *)
Lemma demo_delivered : ∃ k v, rtc step demo_kernel k ∧ pc k 2 = CallWake 0 1 ∧ v ∈ all_views (cpus k) ∧ v_id v = 1 ∧ asleep v ∧ v_mailbox v = Some (question, 2).
Proof.
  do 2 eexists. split.
  { go (SRecv _ 1 RNothing 0). go (SRecvStart _ 1 0). go (SRecvWait _ 1 0). go (SCall _ 2 RNothing 0 0 7 [42; 0; 0; 0]). go (SCallDeliver _ 2 0 1). apply rtc_refl. }
  split; [reflexivity|]. split; [vm_compute; apply list_elem_of_here|]. repeat split.
Qed.
(** And the rest of the call. *)
Lemma demo_answered : ∃ k, rtc step demo_kernel k ∧ pc k 2 = Outside (RReply (Ok answer)) ∧ pc k 1 = Outside (RReplied (Ok tt)) ∧
  taken k = [(1, 2)] ∧ answered k = [(1, 2)].
Proof.
  eexists. split.
  { go (SRecv _ 1 RNothing 0). go (SRecvStart _ 1 0). go (SRecvWait _ 1 0). go (SCall _ 2 RNothing 0 0 7 [42; 0; 0; 0]). go (SCallDeliver _ 2 0 1).
    go (SCallWake _ 2 0 1 10). go (SCallWait _ 2 0). go (SRecvSleep _ 1 0). go (SRecvWait _ 1 0). go (SRecvGift_ok _ 1 0 2). go (SRecvOwe _ 1 2).
    go (SReply _ 1 _ 2 answer). go (SReplyTake _ 1 2 answer). go (SReplyDeliver _ 1 2 answer). go (SReplyCount _ 1 2).
    go (SReplyWake _ 1 2 20). go (SCallSleep _ 2 0). go (SCallWait _ 2 0). apply rtc_refl. }
  repeat split.
Qed.

Lemma no_thread_sleeps_on_news_witness : ∃ k me, rtc step demo_kernel k ∧ will_wake (pc k me) 1.
Proof.
  destruct demo_delivered as (k & v & Hs & _ & Hv & Hid & Ha & Hn).
  destruct (no_thread_sleeps_on_news demo_kernel k demo_fresh Hs v Hv Ha ltac:(left; by rewrite Hn)) as [me Hme].
  exists k, me. split; [exact Hs|]. rewrite <- Hid. exact Hme.
Defined.
Lemma answers_answer_calls_witness : ∃ k, rtc step demo_kernel k ∧ pc k 2 = Outside (RReply (Ok answer)) ∧ times 1 2 (answered k) ≤ times 1 2 (taken k).
Proof.
  destruct demo_answered as (k & Hs & Hp & _). exists k. split; [exact Hs|]. split; [exact Hp|].
  exact (answers_answer_calls demo_kernel k demo_fresh demo_square Hs 1 2).
Defined.

(** ** Two ways to miss *)

(** A server 1 and two clients 2 and 3, and two endpoints. *)
Definition busy_kernel : Kernel :=
  MkKernel (Table.create (Table.create Table.new).2).2
    [MkRunQueue ([Some (demo_thread 1 (Fair 1024) Running); Some (demo_thread 2 (Fair 1024) Ready); Some (demo_thread 3 (Fair 1024) Ready)]
                 ++ replicate 5 None) 0 true 0 0 false]
    (fun _ => Outside RNothing) [] [].

(** A thread that nobody will ever answer: it sleeps in a call, has heard nothing,
    waits in no endpoint's queue, and no thread owes it an answer, has one in hand or
    is about to wake it. *)
Definition forsaken (k : Kernel) (c : Z) : Prop :=
  (∃ id, pc k c = CallSleep id) ∧ (∃ v, v ∈ all_views (cpus k) ∧ v_id v = c ∧ asleep v ∧ v_mailbox v = None ∧ v_answer_lost v = false ∧ v_call_refused v = None) ∧
  Table.where_queued (table k) c = None ∧ (∀ s, slot_owes (cpus k) s c = false) ∧
  ∀ s, hand_owes (pc k s) c = false ∧ ~ will_wake (pc k s) c.

(** A server that receives twice before it answers forsakes its first caller: the
    second receive writes over the only record of the first obligation, so that not
    even the server's exit, which is what tells a caller that its answer is lost,
    reaches the caller any more. *)
Theorem second_receive_forsakes_the_first_caller : ∃ k, rtc step busy_kernel k ∧ taken k = [(1, 3); (1, 2)] ∧ pc k 1 = Exited ∧
  pc k 3 = Outside (RReply (Err ServerGone)) ∧ forsaken k 2.
Proof.
  eexists. split.
  { go (SCall _ 2 RNothing 0 0 7 [42; 0; 0; 0]). go (SCallWait _ 2 0). go (SCall _ 3 RNothing 0 0 7 [42; 0; 0; 0]). go (SCallWait _ 3 0).
    go (SRecv _ 1 RNothing 0). go (SRecvStart _ 1 0). go (SRecvGift_ok _ 1 0 2). go (SRecvOwe _ 1 2).
    go (SRecv _ 1 _ 0). go (SRecvStart _ 1 0). go (SRecvGift_ok _ 1 0 3). go (SRecvOwe _ 1 3).
    go (SExit _ 1). go (SExitCancel _ 1). go (SExitOwed _ 1). go (SExitTell _ 1 3). go (SExitWake _ 1 3 10). go (SExitFinish _ 1).
    go (SCallSleep _ 3 0). go (SCallWait _ 3 0). apply rtc_refl. }
  split; [reflexivity|]. split; [reflexivity|]. split; [reflexivity|]. split; [eexists; reflexivity|]. split.
  { eexists. split; [vm_compute; apply list_elem_of_further, list_elem_of_here|]. repeat split. }
  split; [vm_compute; reflexivity|]. split.
  { intros s. unfold slot_owes. match goal with |- context [all_views ?w] => let x := eval vm_compute in (all_views w) in change (all_views w) with x end.
    cbn [existsb v_id v_reply_to]. rewrite !bool_decide_false by done. by rewrite !andb_false_r. }
  intros s. cbn [pc goto set_cpus set_table log_taken]. repeat case_match; split; cbn; try done; lia.
Qed.

(** An answer can answer another question. A caller whose endpoint is destroyed
    after its call was taken returns with an error, but the server still owes it an
    answer: what the server says then is what the caller's next call, on another
    endpoint, returns, before any server of that endpoint has seen it. *)
Theorem stale_reply_answers_another_call : ∃ k, rtc step busy_kernel k ∧ taken k = [(1, 2)] ∧ Table.where_queued (table k) 2 = Some (1%nat, true) ∧
  pc k 2 = Outside (RReply (Ok answer)).
Proof.
  eexists. split.
  { go (SCall _ 2 RNothing 0 0 7 [42; 0; 0; 0]). go (SRecv _ 1 RNothing 0). go (SRecvStart _ 1 0). go (SRecvGift_ok _ 1 0 2). go (SRecvOwe _ 1 2).
    eapply rtc_l; [apply (SDestroy _ 0)|]. go (SCallWait _ 2 0). go (SCall _ 2 _ 1 0 9 [1; 2; 3; 4]). go (SCallWait _ 2 1).
    go (SReply _ 1 _ 2 answer). go (SReplyTake _ 1 2 answer). go (SReplyDeliver _ 1 2 answer). go (SReplyCount _ 1 2). go (SReplyWake _ 1 2 20).
    go (SCallSleep _ 2 1). go (SCallWait _ 2 1). apply rtc_refl. }
  split; [reflexivity|]. split; [vm_compute; reflexivity|reflexivity].
Qed.
