(* ===== verification/Sha.v ===== *)
(** * SHA-256

    The streaming hash of src/sha256/src/lib.rs: the compression function, the
    buffering of [update], the padding loop of [finish] and the one-shot [digest],
    with FIPS 180-4 as the reference: whatever pieces a message is fed in, the
    digest is the one of the standard's padded message. *)
From stdpp Require Import prelude numbers list.
From S2P Require Import Prelude Bytes.
Open Scope Z_scope.
Set Warnings "-clear-no-such-hyp".

Definition DIGEST : nat := 32.
Definition BLOCK : nat := 64.

(** The round constants, FIPS 180-4 section 4.2.2. *)
Definition K : list Z :=
  [0x428a_2f98; 0x7137_4491; 0xb5c0_fbcf; 0xe9b5_dba5; 0x3956_c25b; 0x59f1_11f1; 0x923f_82a4; 0xab1c_5ed5;
   0xd807_aa98; 0x1283_5b01; 0x2431_85be; 0x550c_7dc3; 0x72be_5d74; 0x80de_b1fe; 0x9bdc_06a7; 0xc19b_f174;
   0xe49b_69c1; 0xefbe_4786; 0x0fc1_9dc6; 0x240c_a1cc; 0x2de9_2c6f; 0x4a74_84aa; 0x5cb0_a9dc; 0x76f9_88da;
   0x983e_5152; 0xa831_c66d; 0xb003_27c8; 0xbf59_7fc7; 0xc6e0_0bf3; 0xd5a7_9147; 0x06ca_6351; 0x1429_2967;
   0x27b7_0a85; 0x2e1b_2138; 0x4d2c_6dfc; 0x5338_0d13; 0x650a_7354; 0x766a_0abb; 0x81c2_c92e; 0x9272_2c85;
   0xa2bf_e8a1; 0xa81a_664b; 0xc24b_8b70; 0xc76c_51a3; 0xd192_e819; 0xd699_0624; 0xf40e_3585; 0x106a_a070;
   0x19a4_c116; 0x1e37_6c08; 0x2748_774c; 0x34b0_bcb5; 0x391c_0cb3; 0x4ed8_aa4a; 0x5b9c_ca4f; 0x682e_6ff3;
   0x748f_82ee; 0x78a5_636f; 0x84c8_7814; 0x8cc7_0208; 0x90be_fffa; 0xa450_6ceb; 0xbef9_a3f7; 0xc671_78f2].

(** The initial state, FIPS 180-4 section 5.3.3. *)
Definition H0 : list Z :=
  [0x6a09_e667; 0xbb67_ae85; 0x3c6e_f372; 0xa54f_f53a; 0x510e_527f; 0x9b05_688c; 0x1f83_d9ab; 0x5be0_cd19].

Record Sha256 : Type := MkSha256 {
  state : list Z;
  buffer : list Z;
  buffered : nat;
  total : Z  (* the field [length] of the source *)
}.

(** ** 32-bit words *)
Definition rotate_right (x n : Z) : Z := Z.lor (Z.shiftr x n) (Prelude.trunc 32 (Z.shiftl x (32 - n))).
Definition bit_not (x : Z) : Z := Z.lxor x 0xFFFFFFFF.
Abbreviation add32 := (wrapping_add 32).

Module Sha256.

(** *** The compression function *)

(** One word of the message schedule, filled in place. *)
Definition schedule_step (w : list Z) (index : nat) : list Z :=
  let s0 := Z.lxor (Z.lxor (rotate_right (w !!! (index - 15)%nat) 7) (rotate_right (w !!! (index - 15)%nat) 18))
                   (Z.shiftr (w !!! (index - 15)%nat) 3) in
  let s1 := Z.lxor (Z.lxor (rotate_right (w !!! (index - 2)%nat) 17) (rotate_right (w !!! (index - 2)%nat) 19))
                   (Z.shiftr (w !!! (index - 2)%nat) 10) in
  <[index := add32 (add32 (add32 (w !!! (index - 16)%nat) s0) (w !!! (index - 7)%nat)) s1]> w.

Definition schedule (block : list Z) : list Z :=
  let w := ((fun i => from_be (take 4 (drop (4 * i) block))) <$> seq 0 16) ++ replicate 48 0 in
  foldl schedule_step w (seq 16 48).

(** One round on the eight working variables. *)
Definition round (w : list Z) (v : Z * Z * Z * Z * Z * Z * Z * Z) (index : nat) : Z * Z * Z * Z * Z * Z * Z * Z :=
  let '(a, b, c, d, e, f, g, h) := v in
  let s1 := Z.lxor (Z.lxor (rotate_right e 6) (rotate_right e 11)) (rotate_right e 25) in
  let ch := Z.lxor (Z.land e f) (Z.land (bit_not e) g) in
  let temp1 := add32 (add32 (add32 (add32 h s1) ch) (K !!! index)) (w !!! index) in
  let s0 := Z.lxor (Z.lxor (rotate_right a 2) (rotate_right a 13)) (rotate_right a 22) in
  let maj := Z.lxor (Z.lxor (Z.land a b) (Z.land a c)) (Z.land b c) in
  let temp2 := add32 s0 maj in
  (add32 temp1 temp2, a, b, c, add32 d temp1, e, f, g).

Definition compress_state (st block : list Z) : list Z :=
  let w := schedule block in
  let '(a, b, c, d, e, f, g, h) :=
    foldl (round w) (st !!! 0%nat, st !!! 1%nat, st !!! 2%nat, st !!! 3%nat, st !!! 4%nat, st !!! 5%nat, st !!! 6%nat, st !!! 7%nat) (seq 0 64) in
  zip_with add32 st [a; b; c; d; e; f; g; h].

Definition compress (self : Sha256) (block : list Z) : Sha256 :=
  MkSha256 (compress_state (state self) block) (buffer self) (buffered self) (total self).

(** *** Streaming *)
Definition new : Sha256 := MkSha256 H0 (replicate BLOCK 0) 0 0.

Definition set_buffer (self : Sha256) (b : list Z) (n : nat) : Sha256 := MkSha256 (state self) b n (total self).

(** The top-up of a partial block; the flag says that [update] returns at once. *)
Definition top_up (self : Sha256) (rest : list Z) : outcome (Sha256 * list Z * bool) :=
  if (0 <? buffered self)%nat then
    if (BLOCK <? buffered self)%nat then Panic
    else
      let take' := Nat.min (length rest) (BLOCK - buffered self) in
      b ← put_at (buffer self) (buffered self) (take take' rest);
      let self := set_buffer self b (buffered self + take') in
      let rest := drop take' rest in
      let self := if (buffered self =? BLOCK)%nat then set_buffer (compress self (buffer self)) (buffer self) 0 else self in
      Done (self, rest, match rest with [] => true | _ => false end)
  else Done (self, rest, false).

(** Whole blocks straight from the input; one iteration per block. *)
Fixpoint whole_blocks (fuel : nat) (self : Sha256) (rest : list Z) : outcome (Sha256 * list Z) :=
  if (BLOCK <=? length rest)%nat then
    match fuel with
    | O => OutOfFuel
    | S fuel' => whole_blocks fuel' (compress self (take BLOCK rest)) (drop BLOCK rest)
    end
  else Done (self, rest).

Definition update (self : Sha256) (bytes : list Z) : outcome Sha256 :=
  let self := MkSha256 (state self) (buffer self) (buffered self) (wrapping_add 64 (total self) (Z.of_nat (length bytes))) in
  '(self, rest, stop) ← top_up self bytes;
  if (stop : bool) then Done self
  else
    '(self, rest) ← whole_blocks (length rest) self rest;
    b ← put_at (buffer self) 0 rest;
    Done (set_buffer self b (length rest)).

(** The zero pad: a byte at a time until eight are left of the block. *)
Fixpoint pad_loop (fuel : nat) (self : Sha256) : outcome Sha256 :=
  if (buffered self =? BLOCK - 8)%nat then Done self
  else match fuel with
       | O => OutOfFuel
       | S fuel' => self ← update self [0]; pad_loop fuel' self
       end.

Definition finish (self : Sha256) : outcome (list Z) :=
  let bit_length := Prelude.trunc 64 (total self * 8) in
  self ← update self [0x80];
  self ← pad_loop BLOCK self;
  b ← put_at (buffer self) (BLOCK - 8) (to_be 8 bit_length);
  let self := compress (set_buffer self b (buffered self)) b in
  Done (concat (to_be 4 <$> state self)).

Definition digest (bytes : list Z) : outcome (list Z) :=
  hasher ← update new bytes; finish hasher.
End Sha256.

(** ** The standard

    FIPS 180-4, read from the text: the padded message is cut into blocks, each
    block's schedule is the recurrence of section 6.2.2, and the blocks are
    compressed one after another. *)
Module Fips.
Definition Ch (x y z : Z) : Z := Z.lxor (Z.land x y) (Z.land (bit_not x) z).
Definition Maj (x y z : Z) : Z := Z.lxor (Z.lxor (Z.land x y) (Z.land x z)) (Z.land y z).
Definition Sigma0 (x : Z) : Z := Z.lxor (Z.lxor (rotate_right x 2) (rotate_right x 13)) (rotate_right x 22).
Definition Sigma1 (x : Z) : Z := Z.lxor (Z.lxor (rotate_right x 6) (rotate_right x 11)) (rotate_right x 25).
Definition sigma0 (x : Z) : Z := Z.lxor (Z.lxor (rotate_right x 7) (rotate_right x 18)) (Z.shiftr x 3).
Definition sigma1 (x : Z) : Z := Z.lxor (Z.lxor (rotate_right x 17) (rotate_right x 19)) (Z.shiftr x 10).

(** The [t]-th word of a block. *)
Definition M (block : list Z) (t : nat) : Z := from_be (take 4 (drop (4 * t) block)).

(** The first [n] words of the schedule. *)
Fixpoint W (block : list Z) (n : nat) : list Z :=
  match n with
  | O => []
  | S t =>
      let w := W block t in
      w ++ [if (t <? 16)%nat then M block t
            else Prelude.trunc 32 (sigma1 (w !!! (t - 2)%nat) + w !!! (t - 7)%nat + sigma0 (w !!! (t - 15)%nat) + w !!! (t - 16)%nat)]
  end.

(** The working variables after [t] rounds. *)
Fixpoint variables (w h : list Z) (t : nat) : list Z :=
  match t with
  | O => h
  | S t =>
      let v := variables w h t in
      let '(a, b, c, d) := (v !!! 0%nat, v !!! 1%nat, v !!! 2%nat, v !!! 3%nat) in
      let '(e, f, g, h) := (v !!! 4%nat, v !!! 5%nat, v !!! 6%nat, v !!! 7%nat) in
      let T1 := Prelude.trunc 32 (h + Sigma1 e + Ch e f g + K !!! t + w !!! t) in
      let T2 := Prelude.trunc 32 (Sigma0 a + Maj a b c) in
      [Prelude.trunc 32 (T1 + T2); a; b; c; Prelude.trunc 32 (d + T1); e; f; g]
  end.

Definition block_hash (h block : list Z) : list Z := zip_with add32 h (variables (W block 64) h 64).

(** Section 5.1.1: a one bit, the fewest zeros, and the length in bits. *)
Definition zeros (len : nat) : nat := Z.to_nat ((55 - Z.of_nat len) mod 64).
Definition pad (m : list Z) : list Z :=
  m ++ [0x80] ++ replicate (zeros (length m)) 0 ++ to_be 8 (Prelude.trunc 64 (Z.of_nat (length m) * 8)).

Fixpoint blocks (n : nat) (m : list Z) : list (list Z) :=
  match n with O => [] | S n' => take 64 m :: blocks n' (drop 64 m) end.

Definition sha256 (m : list Z) : list Z :=
  let p := pad m in
  concat (to_be 4 <$> foldl block_hash H0 (blocks (length p / 64) p)).
End Fips.

(** *** The compression function is the standard's *)
Lemma trunc_add_l w x y : 0 ≤ w → Prelude.trunc w (Prelude.trunc w x + y) = Prelude.trunc w (x + y).
Proof. intros. unfold Prelude.trunc. apply Z.add_mod_idemp_l. lia. Qed.
Lemma trunc_add_r w x y : 0 ≤ w → Prelude.trunc w (x + Prelude.trunc w y) = Prelude.trunc w (x + y).
Proof. intros. unfold Prelude.trunc. apply Z.add_mod_idemp_r. lia. Qed.

Lemma trunc_add_ll w x y z : 0 ≤ w → Prelude.trunc w (Prelude.trunc w x + y + z) = Prelude.trunc w (x + y + z).
Proof. intros. rewrite <- !Z.add_assoc. by apply trunc_add_l. Qed.
Lemma trunc_add_lll w x y z u : 0 ≤ w → Prelude.trunc w (Prelude.trunc w x + y + z + u) = Prelude.trunc w (x + y + z + u).
Proof. intros. rewrite <- !Z.add_assoc. by apply trunc_add_l. Qed.
Lemma trunc_add_llll w x y z u v : 0 ≤ w → Prelude.trunc w (Prelude.trunc w x + y + z + u + v) = Prelude.trunc w (x + y + z + u + v).
Proof. intros. rewrite <- !Z.add_assoc. by apply trunc_add_l. Qed.
(** A sum of wrapping additions wraps once. *)
Ltac flatten_wraps := unfold wrapping_add; repeat first [rewrite trunc_add_l by lia | rewrite trunc_add_ll by lia | rewrite trunc_add_lll by lia | rewrite trunc_add_llll by lia].

Lemma W_S block t : Fips.W block (S t) = Fips.W block t ++
  [if (t <? 16)%nat then Fips.M block t
   else Prelude.trunc 32 (Fips.sigma1 (Fips.W block t !!! (t - 2)%nat) + Fips.W block t !!! (t - 7)%nat +
                          Fips.sigma0 (Fips.W block t !!! (t - 15)%nat) + Fips.W block t !!! (t - 16)%nat)].
Proof. reflexivity. Qed.

Lemma length_W block n : length (Fips.W block n) = n.
Proof. induction n as [|n IH]; [done|]. cbn [Fips.W]. rewrite length_app, IH. cbn. lia. Qed.

Lemma W_prefix block n i : (i < n)%nat → Fips.W block n !! i = Fips.W block (S i) !! i.
Proof.
  induction n as [|n IH]; [lia|]. intros Hi. destruct (decide (i = n)) as [->|Hne]; [done|].
  rewrite <- IH by lia. cbn [Fips.W]. rewrite lookup_app_l; [done|]. rewrite length_W. lia.
Qed.

Lemma W_message block n : (n ≤ 16)%nat → Fips.W block n = Fips.M block <$> seq 0 n.
Proof.
  induction n as [|n IH]; intros Hn; [done|]. cbn [Fips.W]. rewrite IH, seq_S, fmap_app by lia. f_equal.
  by rewrite (proj2 (Nat.ltb_lt _ _)) by lia.
Qed.

(** The array filled up to [n] is the recurrence's first [n] words. *)
Lemma schedule_fills block n : (n ≤ 48)%nat →
  foldl Sha256.schedule_step (((fun i => from_be (take 4 (drop (4 * i) block))) <$> seq 0 16) ++ replicate 48 0) (seq 16 n)
  = Fips.W block (16 + n) ++ replicate (48 - n) 0.
Proof.
  induction n as [|n IH]; intros Hn.
  { cbn [seq foldl]. rewrite Nat.add_0_r, W_message by lia. reflexivity. }
  rewrite (seq_S n 16), foldl_app, IH by lia. cbn [foldl].
  set (w := Fips.W block (16 + n) ++ replicate (48 - n) 0).
  assert (Hw : ∀ i, (i < 16 + n)%nat → w !!! i = Fips.W block (16 + n) !!! i).
  { intros i Hi. unfold w. apply lookup_total_app_l. by rewrite length_W. }
  unfold Sha256.schedule_step. rewrite !Hw by lia.
  replace (16 + S n)%nat with (S (16 + n)) by lia.
  unfold w. rewrite insert_app_r_alt by (rewrite length_W; lia). rewrite length_W, Nat.sub_diag.
  replace (48 - n)%nat with (S (48 - S n)) by lia. cbn [replicate insert list_insert].
  rewrite W_S, <- app_assoc, (proj2 (Nat.ltb_ge (16 + n) 16)) by lia. generalize (Fips.W block (16 + n)). clear. intros w.
  cbn [app]. f_equal. f_equal. flatten_wraps. unfold Fips.sigma0, Fips.sigma1. f_equal. lia.
Qed.

Lemma schedule_is_W block : Sha256.schedule block = Fips.W block 64.
Proof. unfold Sha256.schedule. rewrite schedule_fills by lia. apply app_nil_r. Qed.

Definition as_list (v : Z * Z * Z * Z * Z * Z * Z * Z) : list Z :=
  let '(a, b, c, d, e, f, g, h) := v in [a; b; c; d; e; f; g; h].

Lemma rounds_are_variables w v n : as_list (foldl (Sha256.round w) v (seq 0 n)) = Fips.variables w (as_list v) n.
Proof.
  induction n as [|n IH]; [done|]. rewrite (seq_S n 0), foldl_app. cbn [foldl Fips.variables]. rewrite <- IH. clear IH.
  destruct (foldl _ v _) as [[[[[[[a b] c] d] e] f] g] h]. unfold Sha256.round.
  cbn [as_list lookup_total list_lookup_total]. unfold Fips.Ch, Fips.Maj, Fips.Sigma0, Fips.Sigma1. by flatten_wraps.
Qed.

(** One block through the compression function is one step of the standard. *)
Lemma compress_is_block_hash st block : length st = 8%nat → Sha256.compress_state st block = Fips.block_hash st block.
Proof.
  intros Hl. unfold Sha256.compress_state, Fips.block_hash. rewrite schedule_is_W.
  destruct st as [|a [|b [|c [|d [|e [|f [|g [|h [|]]]]]]]]]; try discriminate Hl. clear Hl.
  pose proof (rounds_are_variables (Fips.W block 64) (a, b, c, d, e, f, g, h) 64) as H. cbn [as_list] in H. rewrite <- H.
  cbn [lookup_total list_lookup_total]. destruct (foldl _ _ _) as [[[[[[[a' b'] c'] d'] e'] f'] g'] h']. done.
Qed.

Lemma length_block_hash st block : length st = 8%nat → length (Fips.block_hash st block) = 8%nat.
Proof.
  intros Hl. rewrite <- compress_is_block_hash by done. unfold Sha256.compress_state.
  destruct (foldl _ _ _) as [[[[[[[a b] c] d] e] f] g] h]. rewrite length_zip_with, Hl. done.
Qed.

(** *** Streaming *)

#[local] Opaque Sha256.compress_state Fips.block_hash.

(** A hash that has absorbed [m]: whole blocks are in the state, the rest waits. *)
Record absorbed (s : Sha256) (m : list Z) : Prop := {
  ab_split : ∃ bs tail, m = concat bs ++ tail ∧ Forall (fun b => length b = BLOCK) bs ∧ (length tail < BLOCK)%nat ∧
    state s = foldl Fips.block_hash H0 bs ∧ take (buffered s) (buffer s) = tail ∧ buffered s = length tail;
  ab_buffer : length (buffer s) = BLOCK;
  ab_total : total s = Prelude.trunc 64 (Z.of_nat (length m))
}.

Lemma length_state bs : length (foldl Fips.block_hash H0 bs) = 8%nat.
Proof.
  assert (H : ∀ h, length h = 8%nat → length (foldl Fips.block_hash h bs) = 8%nat); [|by apply H].
  induction bs as [|b bs IH]; intros h Hh; [done|]. cbn [foldl]. apply IH. by apply length_block_hash.
Qed.

Lemma absorbed_new : absorbed Sha256.new [].
Proof. split; [|done|done]. exists [], []. split_and!; try done. cbn. unfold BLOCK. lia. Qed.

Lemma whole_blocks_spec fuel : ∀ s bs rest, (length rest ≤ fuel)%nat → state s = foldl Fips.block_hash H0 bs →
  ∃ cs tail, Sha256.whole_blocks fuel s rest = Done (MkSha256 (foldl Fips.block_hash H0 (bs ++ cs)) (buffer s) (buffered s) (total s), tail) ∧
    rest = concat cs ++ tail ∧ Forall (fun b => length b = BLOCK) cs ∧ (length tail < BLOCK)%nat.
Proof.
  induction fuel as [|fuel IH]; intros s bs rest Hf Hs; cbn [Sha256.whole_blocks].
  - rewrite (proj2 (Nat.leb_gt BLOCK (length rest))) by (unfold BLOCK; lia). exists [], rest.
    rewrite app_nil_r, <- Hs. destruct s. split_and!; [done|done|done|unfold BLOCK; lia].
  - destruct (Nat.leb_spec BLOCK (length rest)) as [Hle|Hgt].
    + assert (Hst : state (Sha256.compress s (take BLOCK rest)) = foldl Fips.block_hash H0 (bs ++ [take BLOCK rest])).
      { rewrite foldl_app. cbn [Sha256.compress state foldl]. rewrite <- Hs. apply compress_is_block_hash. rewrite Hs. apply length_state. }
      destruct (IH (Sha256.compress s (take BLOCK rest)) _ (drop BLOCK rest) ltac:(rewrite length_drop; unfold BLOCK in *; lia) Hst) as (cs & tail & -> & Hr & Hcs & Ht).
      exists (take BLOCK rest :: cs), tail. rewrite <- app_assoc. cbn [Sha256.compress buffer buffered total concat]. split_and!; [done| | |done].
      * by rewrite <- app_assoc, <- Hr, take_drop.
      * constructor; [|done]. rewrite length_take. lia.
    + exists [], rest. rewrite app_nil_r, <- Hs. destruct s. split_and!; [done|done|constructor|exact Hgt].
Qed.

Lemma absorbed_mod s m : absorbed s m → buffered s = (length m mod BLOCK)%nat.
Proof.
  intros [(bs & tail & -> & Hbs & Ht & _ & _ & ->) _ _]. rewrite length_app.
  assert (Hc : length (concat bs) = (length bs * BLOCK)%nat).
  { induction Hbs as [|b bs Hb Hbs IH]; [done|]. cbn [concat length]. rewrite length_app, IH, Hb. lia. }
  rewrite Hc, Nat.add_comm, Nat.Div0.mod_add, Nat.mod_small by done. done.
Qed.

Lemma whole_ok s m bytes t : (∃ bs, m = concat bs ∧ Forall (fun b => length b = BLOCK) bs ∧ state s = foldl Fips.block_hash H0 bs) →
  length (buffer s) = BLOCK → total s = t → ∃ s',
  ('(s, rest) ← Sha256.whole_blocks (length bytes) s bytes; b ← put_at (buffer s) 0 rest; Done (Sha256.set_buffer s b (length rest))) = Done s' ∧
  length (buffer s') = BLOCK ∧ total s' = t ∧
  ∃ bs tail, m ++ bytes = concat bs ++ tail ∧ Forall (fun b => length b = BLOCK) bs ∧ (length tail < BLOCK)%nat ∧
    state s' = foldl Fips.block_hash H0 bs ∧ take (buffered s') (buffer s') = tail ∧ buffered s' = length tail.
Proof.
  intros (bs & -> & Hbs & Hs) Hb <-. destruct (whole_blocks_spec (length bytes) s bs bytes ltac:(lia) Hs) as (cs & tail & -> & -> & Hcs & Ht).
  cbn [mbind outcome_bind buffer]. rewrite put_at_ok by lia. cbn [mbind outcome_bind]. eexists. split; [done|].
  cbn [Sha256.set_buffer buffer buffered total state]. split_and!; [rewrite length_splice; lia|done|].
  exists (bs ++ cs), tail. split_and!; try done; [by rewrite concat_app, app_assoc|by apply Forall_app|].
  unfold splice. rewrite take_0, app_nil_l. by apply take_app_length'.
Qed.

Lemma total_add n k : wrapping_add 64 (Prelude.trunc 64 n) k = Prelude.trunc 64 (n + k).
Proof. unfold wrapping_add. by rewrite trunc_add_l. Qed.

(** Absorbing a piece never panics and is absorbing the longer message. *)
Lemma update_ok s m bytes : absorbed s m → ∃ s', Sha256.update s bytes = Done s' ∧ absorbed s' (m ++ bytes).
Proof.
  intros [(bs & tail & -> & Hbs & Ht & Hs & Hk & Hn) Hb Htot]. unfold Sha256.update, Sha256.top_up. cbn [buffered buffer].
  set (t := wrapping_add 64 (total s) (Z.of_nat (length bytes))).
  assert (Et : t = Prelude.trunc 64 (Z.of_nat (length ((concat bs ++ tail) ++ bytes)))).
  { unfold t. rewrite Htot, total_add, (length_app _ bytes). f_equal. lia. }
  destruct (Nat.ltb_spec 0 (buffered s)) as [Hpos|Hzero].
  - rewrite (proj2 (Nat.ltb_ge BLOCK (buffered s))) by lia. set (k := Nat.min (length bytes) (BLOCK - buffered s)).
    rewrite put_at_ok by (rewrite length_take; lia). cbn [mbind outcome_bind Sha256.set_buffer buffered].
    assert (Hbuf : take (buffered s + k) (splice (buffer s) (buffered s) (take k bytes)) = tail ++ take k bytes).
    { unfold splice. rewrite Hk, app_assoc. apply take_app_length'. rewrite length_app, length_take. lia. }
    destruct (Nat.eqb_spec (buffered s + k) BLOCK) as [Hfull|Hpart].
    + set (blk := splice (buffer s) (buffered s) (take k bytes)).
      assert (Hlen : length blk = BLOCK) by (unfold blk; rewrite length_splice by (rewrite length_take; lia); done).
      assert (Hblk : blk = tail ++ take k bytes) by (rewrite <- Hbuf, Hfull; symmetry; apply take_ge; fold blk; lia).
      cbn [Sha256.set_buffer Sha256.compress buffer state total]. fold blk.
      set (s1 := MkSha256 (Sha256.compress_state (state s) blk) blk 0 t).
      assert (Hw : ∃ cs, (concat bs ++ tail) ++ take k bytes = concat cs ∧ Forall (fun b => length b = BLOCK) cs ∧ state s1 = foldl Fips.block_hash H0 cs).
      { exists (bs ++ [blk]). rewrite foldl_app, concat_app, <- Hs. cbn [concat foldl state s1]. split_and!.
        - by rewrite Hblk, app_nil_r, app_assoc.
        - apply Forall_app. split; [done|]. by constructor.
        - apply compress_is_block_hash. rewrite Hs. apply length_state. }
      destruct (drop k bytes) as [|x rest] eqn:Hd.
      * exists s1. split; [done|]. destruct Hw as (cs & Hc & Hcs & Hst). 
        assert (Hby : take k bytes = bytes) by (pose proof (take_drop k bytes) as E; by rewrite Hd, app_nil_r in E).
        rewrite Hby in Hc. split; [|exact Hlen|exact Et].
        exists cs, []. rewrite app_nil_r. split_and!; [exact Hc|exact Hcs|unfold BLOCK; cbn [length]; lia|exact Hst|reflexivity|reflexivity].
      * destruct (whole_ok s1 _ (x :: rest) t Hw Hlen eq_refl) as (s' & Hd' & H1 & H2 & H3). exists s'. split; [exact Hd'|].
        split; [|done|by rewrite H2]. by rewrite <- app_assoc, <- Hd, take_drop in H3.
    + assert (Ek : k = length bytes) by lia. exists (MkSha256 (state s) (splice (buffer s) (buffered s) (take k bytes)) (buffered s + k) t).
      rewrite (drop_ge bytes) by lia. split; [done|]. split; cbn [state buffer buffered total]; [|by rewrite length_splice by (rewrite length_take; lia)|done].
      exists bs, (tail ++ bytes). rewrite (take_ge bytes) in Hbuf by lia. rewrite (take_ge bytes) by lia.
      split_and!; [by rewrite app_assoc|done|rewrite length_app; lia|done|done|rewrite length_app; lia].
  - assert (tail = []) as -> by (destruct tail; [done|cbn in *; lia]). rewrite app_nil_r in *. cbn [mbind outcome_bind].
    destruct (whole_ok (MkSha256 (state s) (buffer s) (buffered s) t) (concat bs) bytes t) as (s' & Hd' & H1 & H2 & H3); [by exists bs|done|done|].
    exists s'. split; [exact Hd'|]. split; [done|done|]. by rewrite H2.
Qed.

Lemma pad_loop_ok n : ∀ s m, absorbed s m → ((length m + n) mod BLOCK = BLOCK - 8)%nat → (∀ i, (i < n)%nat → ((length m + i) mod BLOCK ≠ BLOCK - 8)%nat) →
  ∀ fuel, (n ≤ fuel)%nat → ∃ s', Sha256.pad_loop fuel s = Done s' ∧ absorbed s' (m ++ replicate n 0).
Proof.
  induction n as [|n IH]; intros s m Hs He Hne fuel Hf.
  - exists s. rewrite app_nil_r. split; [|done]. rewrite Nat.add_0_r in He. rewrite <- (absorbed_mod _ _ Hs) in He.
    by destruct fuel; cbn [Sha256.pad_loop]; rewrite (proj2 (Nat.eqb_eq _ _)).
  - destruct fuel as [|fuel]; [lia|]. cbn [Sha256.pad_loop]. rewrite (proj2 (Nat.eqb_neq _ _)).
    2: { rewrite (absorbed_mod _ _ Hs). specialize (Hne 0%nat). rewrite Nat.add_0_r in Hne. apply Hne. lia. }
    destruct (update_ok s m [0] Hs) as (s1 & -> & Hs1). cbn [mbind outcome_bind].
    destruct (IH s1 (m ++ [0]) Hs1) with (fuel := fuel) as (s' & Hd & Hs'); [| |lia|].
    + rewrite length_app. cbn [length]. by replace (length m + 1 + n)%nat with (length m + S n)%nat by lia.
    + intros i Hi. rewrite length_app. cbn [length]. replace (length m + 1 + i)%nat with (length m + S i)%nat by lia. apply Hne. lia.
    + exists s'. split; [done|]. by rewrite <- app_assoc in Hs'.
Qed.

Lemma blocks_concat bs tail : Forall (fun b => length b = BLOCK) bs → (length tail < BLOCK)%nat →
  Fips.blocks (length (concat bs ++ tail) / 64) (concat bs ++ tail) = bs.
Proof.
  intros Hbs Ht. induction Hbs as [|b bs Hb Hbs IH].
  - cbn [concat app]. by rewrite Nat.div_small.
  - cbn [concat]. rewrite <- app_assoc, length_app, Hb. replace (BLOCK + length (concat bs ++ tail))%nat with (1 * 64 + length (concat bs ++ tail))%nat by (unfold BLOCK; lia).
    rewrite Nat.div_add_l by lia. cbn [Nat.add Fips.blocks]. rewrite (take_app_length' b), (drop_app_length' b) by done. by rewrite IH.
Qed.

Lemma zeros_spec len : ((len + 1 + Fips.zeros len) mod 64 = 56)%nat ∧ (∀ i, (i < Fips.zeros len)%nat → ((len + 1 + i) mod 64 ≠ 56)%nat) ∧ (Fips.zeros len < 64)%nat.
Proof.
  unfold Fips.zeros. set (k := (55 - Z.of_nat len) mod 64). assert (Hk : 0 ≤ k < 64) by (apply Z.mod_pos_bound; lia).
  assert (E : Z.of_nat len = 55 - k - 64 * ((55 - Z.of_nat len) / 64)) by (pose proof (Z.div_mod (55 - Z.of_nat len) 64); unfold k; lia).
  split_and!; [| |lia].
  - apply Nat2Z.inj. rewrite Nat2Z.inj_mod. rewrite !Nat2Z.inj_add, Z2Nat.id by lia. rewrite E.
    replace (55 - k - 64 * ((55 - Z.of_nat len) / 64) + Z.of_nat 1 + k) with (56 + (- ((55 - Z.of_nat len) / 64)) * 64) by lia. by rewrite Z.mod_add by lia.
  - intros i Hi Hc. apply (f_equal Z.of_nat) in Hc. rewrite Nat2Z.inj_mod, !Nat2Z.inj_add, E in Hc.
    replace (55 - k - 64 * ((55 - Z.of_nat len) / 64) + Z.of_nat 1 + Z.of_nat i) with (56 - k + Z.of_nat i + (- ((55 - Z.of_nat len) / 64)) * 64) in Hc by lia.
    rewrite Z.mod_add in Hc by lia. change (Z.of_nat 64) with 64 in Hc. change (Z.of_nat 56) with 56 in Hc.
    assert (56 - k + Z.of_nat i < 56) by lia. destruct (decide (0 ≤ 56 - k + Z.of_nat i)) as [Hp|Hp].
    + rewrite Z.mod_small in Hc; lia.
    + rewrite <- (Z.mod_add _ 1) in Hc by lia. rewrite Z.mod_small in Hc; lia.
Qed.

(** Closing the message is the standard's digest of what was absorbed. *)
Lemma finish_ok s m : absorbed s m → Sha256.finish s = Done (Fips.sha256 m).
Proof.
  intros Hs. unfold Sha256.finish. destruct (update_ok s m [0x80] Hs) as (s1 & -> & Hs1). cbn [mbind outcome_bind].
  destruct (zeros_spec (length m)) as (Hz1 & Hz2 & Hz3).
  destruct (pad_loop_ok (Fips.zeros (length m)) s1 (m ++ [0x80]) Hs1) with (fuel := BLOCK) as (s2 & -> & Hs2);
    [by rewrite length_app|intros i Hi; rewrite length_app; by apply Hz2|unfold BLOCK; lia|]. cbn [mbind outcome_bind].
  pose proof (absorbed_mod _ _ Hs2) as Hb. rewrite !length_app, length_replicate in Hb. cbn [length] in Hb. unfold BLOCK in Hb at 1. rewrite Hz1 in Hb.
  destruct Hs2 as [(bs & tail & Hm & Hbs & Ht & Hst & Htk & Hn) Hl _]. rewrite put_at_ok by (rewrite length_to_be, Hl; done). cbn [mbind outcome_bind].
  cbn [Sha256.compress Sha256.set_buffer state]. f_equal. unfold Fips.sha256. f_equal. f_equal.
  set (trailer := to_be 8 (Prelude.trunc 64 (total s * 8))).
  assert (Hblk : splice (buffer s2) (BLOCK - 8) trailer = tail ++ trailer).
  { unfold splice. change (BLOCK - 8)%nat with 56%nat. rewrite <- Hb, Htk, drop_ge, app_nil_r; [done|]. unfold trailer. rewrite length_to_be, Hl, Hb. unfold BLOCK. lia. }
  rewrite Hblk. assert (Hp : Fips.pad m = concat (bs ++ [tail ++ trailer]) ++ []).
  { unfold Fips.pad. rewrite concat_app. cbn [concat]. rewrite !app_nil_r. rewrite (app_assoc _ tail), <- Hm, <- !app_assoc. do 3 f_equal.
    unfold trailer. f_equal. rewrite (ab_total _ _ Hs). unfold Prelude.trunc. by rewrite Z.mul_mod_idemp_l. }
  rewrite Hp, blocks_concat; [|apply Forall_app; split; [done|]; constructor; [|done]|unfold BLOCK; cbn; lia].
  - rewrite foldl_app. cbn [foldl]. rewrite <- Hst. apply compress_is_block_hash. rewrite Hst. apply length_state.
  - unfold trailer. rewrite length_app, length_to_be, <- Hn, Hb. done.
Qed.

Lemma feed_ok pieces : ∀ s m, absorbed s m → ∃ s', for_each Sha256.update pieces s = Done s' ∧ absorbed s' (m ++ concat pieces).
Proof.
  induction pieces as [|p pieces IH]; intros s m Hs; [exists s; by rewrite app_nil_r|].
  destruct (update_ok s m p Hs) as (s1 & H1 & Hs1). cbn [for_each concat]. rewrite H1. cbn [mbind outcome_bind].
  rewrite app_assoc. by apply IH.
Qed.

Lemma digest_ok bytes : Sha256.digest bytes = Done (Fips.sha256 bytes).
Proof.
  unfold Sha256.digest. destruct (update_ok _ _ bytes absorbed_new) as (s & -> & Hs). cbn [mbind outcome_bind app] in *. by apply finish_ok.
Qed.

Lemma sha256_bytes m : Forall is_byte (Fips.sha256 m).
Proof. unfold Fips.sha256. apply Forall_concat, Forall_fmap, Forall_true. intros x. apply to_be_bytes. Qed.
Lemma length_sha256 m : length (Fips.sha256 m) = DIGEST.
Proof.
  unfold Fips.sha256. pose proof (length_state (Fips.blocks (length (Fips.pad m) / 64) (Fips.pad m))) as H. revert H. generalize (foldl Fips.block_hash H0 (Fips.blocks (length (Fips.pad m) / 64) (Fips.pad m))).
  intros l. assert (Hc : ∀ l, length (concat (to_be 4 <$> l)) = (length l * 4)%nat); [|by rewrite Hc; intros ->].
  clear. induction l as [|x l IH]; [done|]. cbn [fmap list_fmap concat]. rewrite length_app, length_to_be, IH. cbn [length]. lia.
Qed.

(** C15. In whatever pieces a message is fed to the streaming hash, empty ones included,
    no call panics, the padding loop ends, and the digest is the one FIPS 180-4 defines
    for the whole message (its length in bits taken modulo 2^64). *)
Theorem streaming_is_the_standard pieces :
  (s ← for_each Sha256.update pieces Sha256.new; Sha256.finish s) = Done (Fips.sha256 (concat pieces)).
Proof.
  destruct (feed_ok pieces _ _ absorbed_new) as (s & -> & Hs). cbn [mbind outcome_bind app] in *. by apply finish_ok.
Qed.

(** The published vector for "abc", and the standard's definition on it. *)
Example abc_vector : Sha256.digest [97; 98; 99] =
  Done [0xba; 0x78; 0x16; 0xbf; 0x8f; 0x01; 0xcf; 0xea; 0x41; 0x41; 0x40; 0xde; 0x5d; 0xae; 0x22; 0x23;
        0xb0; 0x03; 0x61; 0xa3; 0x96; 0x17; 0x7a; 0x9c; 0xb4; 0x10; 0xff; 0x61; 0xf2; 0x00; 0x15; 0xad].
Proof. vm_compute. reflexivity. Qed.
