(* ===== verification/Slh.v ===== *)
(** * SLH-DSA-SHA2-128s

    The signature of the boot set: verification (src/bootsig/src/slh_dsa.rs) and key
    generation and signing (src/bootsig/src/slh_dsa/sign.rs), over the hash of Sha.v.
    Arrays of a fixed size are lists; a slice of a caller's bytes panics out of
    range, and so does every subtraction below zero.  An array the source fills slot
    by slot, front to back, is the concatenation of what it is filled with.  The
    theorems are in SlhTrip.v. *)
From stdpp Require Import prelude numbers list.
From S2P Require Import Prelude Bytes Sha.
Open Scope Z_scope.
Set Warnings "-clear-no-such-hyp".

(** [usize::div_ceil]. *)
Definition div_ceil (a b : nat) : nat := ((a + b - 1) / b)%nat.

Module Slh.
Definition N : nat := 16.
Definition HEIGHT : nat := 63.
Definition D : nat := 7.
Definition H_PRIME : nat := 9.
Definition A : nat := 12.
Definition K : nat := 14.
Definition LG_W : nat := 4.
Definition M : nat := 30.
Definition W : Z := Z.shiftl 1 (Z.of_nat LG_W).
Definition LEN1 : nat := div_ceil (8 * N) LG_W.
Definition LEN2 : nat := 3.
Definition LEN : nat := LEN1 + LEN2.
Definition PUBLIC_KEY_BYTES : nat := 2 * N.
Definition SECRET_KEY_BYTES : nat := 4 * N.
Definition SIGNATURE_BYTES : nat := (1 + K * (1 + A) + HEIGHT + D * LEN) * N.
Definition FORS_BYTES : nat := K * (1 + A) * N.
Definition XMSS_BYTES : nat := (H_PRIME + LEN) * N.
Definition MD_BYTES : nat := div_ceil (K * A) 8.
Definition TREE_BYTES : nat := div_ceil (HEIGHT - HEIGHT / D) 8.
Definition LEAF_BYTES : nat := div_ceil (HEIGHT / D) 8.

Inductive Refusal : Type :=
| WrongLength
| ContextTooLong
| Mismatch.

#[global] Instance Refusal_eq_dec : EqDecision Refusal.
Proof. solve_decision. Defined.

Definition WOTS_HASH : Z := 0.
Definition WOTS_PK : Z := 1.
Definition TREE : Z := 2.
Definition FORS_TREE : Z := 3.
Definition FORS_ROOTS : Z := 4.
Definition WOTS_PRF : Z := 5.
Definition FORS_PRF : Z := 6.

(** ** Addresses: 22 bytes *)
Definition Adrs : Type := list Z.

Module Adrs.
Definition new : Adrs := replicate 22 0.
Definition set_layer_address (self : Adrs) (layer : Z) : Adrs := <[0%nat := layer]> self.
Definition set_tree_address (self : Adrs) (tree : Z) : Adrs := splice self 1 (to_be 8 tree).
Definition set_type_and_clear (self : Adrs) (kind : Z) : Adrs := splice (<[9%nat := kind]> self) 10 (replicate 12 0).
Definition set_key_pair_address (self : Adrs) (index : Z) : Adrs := splice self 10 (to_be 4 index).
Definition key_pair_address (self : Adrs) : Z := from_be (take 4 (drop 10 self)).
Definition set_word_2 (self : Adrs) (value : Z) : Adrs := splice self 14 (to_be 4 value).
Definition set_word_3 (self : Adrs) (value : Z) : Adrs := splice self 18 (to_be 4 value).
Definition tree_index (self : Adrs) : Z := from_be (take 4 (drop 18 self)).
End Adrs.

(** ** The tweakable hashes *)
Record Tweak : Type := MkTweak { seeded : Sha256 }.

Definition trunc (digest : list Z) : list Z := take N digest.

Module Tweak.
Definition new (pk_seed : list Z) : outcome Tweak :=
  s ← Sha256.update Sha256.new pk_seed;
  s ← Sha256.update s (replicate (64 - N) 0);
  Done (MkTweak s).

Definition hash (self : Tweak) (adrs : Adrs) (parts : list (list Z)) : outcome (list Z) :=
  sha ← Sha256.update (seeded self) adrs;
  sha ← for_each Sha256.update parts sha;
  d ← Sha256.finish sha;
  Done (trunc d).

Definition f (self : Tweak) (adrs : Adrs) (value : list Z) : outcome (list Z) := hash self adrs [value].
Definition h (self : Tweak) (adrs : Adrs) (left right : list Z) : outcome (list Z) := hash self adrs [left; right].
Definition t (self : Tweak) (adrs : Adrs) (values : list Z) : outcome (list Z) := hash self adrs [values].
End Tweak.

Definition h_msg (r pk_seed pk_root : list Z) (message : list (list Z)) : outcome (list Z) :=
  inner ← Sha256.update Sha256.new r;
  inner ← Sha256.update inner pk_seed;
  inner ← Sha256.update inner pk_root;
  inner ← for_each Sha256.update message inner;
  inner ← Sha256.finish inner;
  mgf1 ← Sha256.update Sha256.new r;
  mgf1 ← Sha256.update mgf1 pk_seed;
  mgf1 ← Sha256.update mgf1 inner;
  mgf1 ← Sha256.update mgf1 (to_be 4 0);
  block ← Sha256.finish mgf1;
  Done (take M block).

(** ** Digits *)
Definition to_int (bytes : list Z) : Z :=
  foldl (fun total byte => Z.lor (Prelude.trunc 64 (Z.shiftl total 8)) byte) 0 bytes.

(** The inner loop of [base_2b]: bytes until there are [b] bits. *)
Fixpoint fill (fuel : nat) (x : list Z) (b : Z) (input : nat) (bits total : Z) : outcome (nat * Z * Z) :=
  if bits <? b then
    match fuel with
    | O => OutOfFuel
    | S fuel' =>
        byte ← at_index x input;
        bits ← add_checked 32 bits 8;
        fill fuel' x b (S input) bits (Z.lor (Prelude.trunc 32 (Z.shiftl total 8)) byte)
    end
  else Done (input, bits, total).

Fixpoint digits_loop (out : nat) (x : list Z) (b : Z) (input : nat) (bits total : Z) : outcome (list Z) :=
  match out with
  | O => Done []
  | S out' =>
      '(input, bits, total) ← fill (Z.to_nat b) x b input bits total;
      bits ← sub_checked 32 bits b;
      let digit := Z.land (Z.shiftr total bits) (2 ^ b - 1) in
      let total := Z.land total (2 ^ bits - 1) in
      rest ← digits_loop out' x b input bits total;
      Done (digit :: rest)
  end.

Definition base_2b (out : nat) (x : list Z) (b : Z) : outcome (list Z) := digits_loop out x b 0 0 0.

(** ** WOTS+ *)

(** [chain]: the loop over [j]. *)
Fixpoint chain_loop (tweak : Tweak) (tmp : list Z) (j : Z) (n : nat) (adrs : Adrs) : outcome (list Z * Adrs) :=
  match n with
  | O => Done (tmp, adrs)
  | S n' =>
      let adrs := Adrs.set_word_3 adrs j in
      tmp ← Tweak.f tweak adrs tmp;
      chain_loop tweak tmp (j + 1) n' adrs
  end.

Definition chain (tweak : Tweak) (x : list Z) (start steps : Z) (adrs : Adrs) : outcome (list Z * Adrs) :=
  if negb (length x =? N)%nat then Panic
  else
    _ ← add_checked 32 start steps;
    chain_loop tweak x start (Z.to_nat steps) adrs.

Definition wots_digits (message : list Z) : outcome (list Z) :=
  msg ← base_2b LEN1 message (Z.of_nat LG_W);
  csum ← for_each (fun sum digit => d ← sub_checked 32 (W - 1) digit; add_checked 32 sum d) msg 0;
  let csum := Prelude.trunc 32 (Z.shiftl csum (Z.of_nat ((8 - (LEN2 * LG_W) mod 8) mod 8))) in
  checksum ← base_2b LEN2 (drop (4 - div_ceil (LEN2 * LG_W) 8) (to_be 4 csum)) (Z.of_nat LG_W);
  Done (msg ++ checksum).

(** The loop of [wots_pk_from_sig] over the digits from number [i] on. *)
Fixpoint ends_loop (tweak : Tweak) (sig : list Z) (i : nat) (digits : list Z) (adrs : Adrs) : outcome (list Z * Adrs) :=
  match digits with
  | [] => Done ([], adrs)
  | digit :: digits' =>
      let adrs := Adrs.set_word_2 adrs (Z.of_nat i) in
      part ← slice sig (i * N) ((i + 1) * N);
      steps ← sub_checked 32 (W - 1) digit;
      '(end', adrs) ← chain tweak part digit steps adrs;
      '(rest, adrs) ← ends_loop tweak sig (S i) digits' adrs;
      Done (end' ++ rest, adrs)
  end.

Definition wots_pk_from_sig (tweak : Tweak) (sig message : list Z) (adrs : Adrs) : outcome (list Z * Adrs) :=
  digits ← wots_digits message;
  '(tmp, adrs) ← ends_loop tweak sig 0 digits adrs;
  let wots_pk_adrs := Adrs.set_type_and_clear adrs WOTS_PK in
  let wots_pk_adrs := Adrs.set_key_pair_address wots_pk_adrs (Adrs.key_pair_address adrs) in
  pk ← Tweak.t tweak wots_pk_adrs tmp;
  Done (pk, adrs).

(** ** Trees *)

(** [climb] from height [k] on, [n] levels more. *)
Fixpoint climb_loop (tweak : Tweak) (node : list Z) (index : Z) (auth : list Z) (k n : nat) (adrs : Adrs) : outcome (list Z * Adrs) :=
  match n with
  | O => Done (node, adrs)
  | S n' =>
      let adrs := Adrs.set_word_2 adrs (Z.of_nat k + 1) in
      sibling ← slice auth (k * N) ((k + 1) * N);
      '(node, adrs) ←
        (if Z.land (Z.shiftr index (Z.of_nat k)) 1 =? 0 then
           let adrs := Adrs.set_word_3 adrs (Adrs.tree_index adrs / 2) in
           node ← Tweak.h tweak adrs node sibling;
           Done (node, adrs)
         else
           below ← sub_checked 32 (Adrs.tree_index adrs) 1;
           let adrs := Adrs.set_word_3 adrs (below / 2) in
           node ← Tweak.h tweak adrs sibling node;
           Done (node, adrs));
      climb_loop tweak node index auth (S k) n' adrs
  end.

Definition climb (tweak : Tweak) (node : list Z) (index : Z) (auth : list Z) (height : nat) (adrs : Adrs) : outcome (list Z * Adrs) :=
  climb_loop tweak node index auth 0 height adrs.

Definition xmss_pk_from_sig (tweak : Tweak) (idx : Z) (sig_xmss message : list Z) (adrs : Adrs) : outcome (list Z * Adrs) :=
  let adrs := Adrs.set_type_and_clear adrs WOTS_HASH in
  let adrs := Adrs.set_key_pair_address adrs idx in
  sig ← slice sig_xmss 0 (LEN * N);
  auth ← slice sig_xmss (LEN * N) (length sig_xmss);
  '(node, adrs) ← wots_pk_from_sig tweak sig message adrs;
  let adrs := Adrs.set_type_and_clear adrs TREE in
  let adrs := Adrs.set_word_3 adrs idx in
  climb tweak node idx auth H_PRIME adrs.

(** The loop of [ht_verify] over the layers from [j] on. *)
Fixpoint layers_loop (tweak : Tweak) (sig_ht : list Z) (j n : nat) (node : list Z) (tree : Z) (adrs : Adrs) : outcome (list Z) :=
  match n with
  | O => Done node
  | S n' =>
      let leaf := Z.land tree (2 ^ Z.of_nat H_PRIME - 1) in
      let tree := Z.shiftr tree (Z.of_nat H_PRIME) in
      let adrs := Adrs.set_layer_address adrs (Z.of_nat j) in
      let adrs := Adrs.set_tree_address adrs tree in
      sig ← slice sig_ht (j * XMSS_BYTES) ((j + 1) * XMSS_BYTES);
      '(node, adrs) ← xmss_pk_from_sig tweak leaf sig node adrs;
      layers_loop tweak sig_ht (S j) n' node tree adrs
  end.

Definition ht_verify (tweak : Tweak) (message sig_ht : list Z) (idx_tree idx_leaf : Z) (pk_root : list Z) : outcome bool :=
  let adrs := Adrs.set_tree_address Adrs.new idx_tree in
  sig ← slice sig_ht 0 XMSS_BYTES;
  '(node, adrs) ← xmss_pk_from_sig tweak idx_leaf sig message adrs;
  node ← layers_loop tweak sig_ht 1 (D - 1) node idx_tree adrs;
  Done (bool_decide (node = pk_root)).

(** ** FORS *)

(** The loop of [fors_pk_from_sig] over the indices from number [i] on. *)
Fixpoint roots_loop (tweak : Tweak) (sig_fors : list Z) (i : nat) (indices : list Z) (adrs : Adrs) : outcome (list Z * Adrs) :=
  match indices with
  | [] => Done ([], adrs)
  | index :: indices' =>
      tree ← slice sig_fors (i * (A + 1) * N) ((i + 1) * (A + 1) * N);
      sk ← slice tree 0 N;
      auth ← slice tree N (length tree);
      let adrs := Adrs.set_word_2 adrs 0 in
      at' ← mul_checked 32 (Z.of_nat i) (2 ^ Z.of_nat A);
      at' ← add_checked 32 at' index;
      let adrs := Adrs.set_word_3 adrs at' in
      leaf ← Tweak.f tweak adrs sk;
      '(root, adrs) ← climb tweak leaf index auth A adrs;
      '(rest, adrs) ← roots_loop tweak sig_fors (S i) indices' adrs;
      Done (root ++ rest, adrs)
  end.

Definition fors_pk_from_sig (tweak : Tweak) (sig_fors md : list Z) (adrs : Adrs) : outcome (list Z * Adrs) :=
  indices ← base_2b K md (Z.of_nat A);
  '(roots, adrs) ← roots_loop tweak sig_fors 0 indices adrs;
  let fors_pk_adrs := Adrs.set_type_and_clear adrs FORS_ROOTS in
  let fors_pk_adrs := Adrs.set_key_pair_address fors_pk_adrs (Adrs.key_pair_address adrs) in
  pk ← Tweak.t tweak fors_pk_adrs roots;
  Done (pk, adrs).

(** ** Verification *)
Definition split_digest (digest : list Z) : list Z * Z * Z :=
  let md := take MD_BYTES digest in
  let rest := drop MD_BYTES digest in
  let idx_tree := Z.land (to_int (take TREE_BYTES rest)) (2 ^ Z.of_nat (HEIGHT - HEIGHT / D) - 1) in
  let idx_leaf := Z.land (to_int (drop TREE_BYTES rest)) (2 ^ Z.of_nat (HEIGHT / D) - 1) in
  (md, idx_tree, idx_leaf).

Definition verify_internal (message : list (list Z)) (signature public_key : list Z) : outcome (result unit Refusal) :=
  if negb (length signature =? SIGNATURE_BYTES)%nat then Done (Err WrongLength)
  else
    let pk_seed := take N public_key in
    let pk_root := drop N public_key in
    tweak ← Tweak.new pk_seed;
    let r := take N signature in
    let rest := drop N signature in
    let sig_fors := take FORS_BYTES rest in
    let sig_ht := drop FORS_BYTES rest in
    digest ← h_msg r pk_seed pk_root message;
    let '(md, idx_tree, idx_leaf) := split_digest digest in
    let adrs := Adrs.set_tree_address Adrs.new idx_tree in
    let adrs := Adrs.set_type_and_clear adrs FORS_TREE in
    let adrs := Adrs.set_key_pair_address adrs idx_leaf in
    '(pk_fors, _) ← fors_pk_from_sig tweak sig_fors md adrs;
    ok ← ht_verify tweak pk_fors sig_ht idx_tree idx_leaf pk_root;
    Done (if (ok : bool) then Ok tt else Err Mismatch).

Definition verify (message signature context public_key : list Z) : outcome (result unit Refusal) :=
  if (255 <? Z.of_nat (length context)) then Done (Err ContextTooLong)
  else verify_internal [[0; Z.of_nat (length context)]; context; message] signature public_key.

(** ** Signing *)
Definition hmac_sha256 (key first : list Z) (rest : list (list Z)) : outcome (list Z) :=
  padded ←
    (if (64 <? length key)%nat then d ← Sha256.digest key; Done (d ++ replicate (64 - DIGEST) 0)
     else Done (key ++ replicate (64 - length key) 0));
  inner ← Sha256.update Sha256.new ((fun byte => Z.lxor byte 0x36) <$> padded);
  inner ← Sha256.update inner first;
  inner ← for_each Sha256.update rest inner;
  inner ← Sha256.finish inner;
  outer ← Sha256.update Sha256.new ((fun byte => Z.lxor byte 0x5c) <$> padded);
  outer ← Sha256.update outer inner;
  Sha256.finish outer.

Definition prf (tweak : Tweak) (sk_seed : list Z) (adrs : Adrs) : outcome (list Z) := Tweak.hash tweak adrs [sk_seed].

Definition prf_msg (sk_prf opt_rand : list Z) (message : list (list Z)) : outcome (list Z) :=
  d ← hmac_sha256 sk_prf opt_rand message;
  Done (trunc d).

(** The loop of [wots_pk_gen] and [wots_sign]: chain number [i] runs as many steps as
    the digit says. *)
Fixpoint chains_loop (tweak : Tweak) (sk_seed : list Z) (i : nat) (steps : list Z) (sk_adrs adrs : Adrs) : outcome (list Z * Adrs) :=
  match steps with
  | [] => Done ([], adrs)
  | n :: steps' =>
      let sk_adrs := Adrs.set_word_2 sk_adrs (Z.of_nat i) in
      sk ← prf tweak sk_seed sk_adrs;
      let adrs := Adrs.set_word_2 adrs (Z.of_nat i) in
      '(value, adrs) ← chain tweak sk 0 n adrs;
      '(rest, adrs) ← chains_loop tweak sk_seed (S i) steps' sk_adrs adrs;
      Done (value ++ rest, adrs)
  end.

Definition wots_sk_adrs (adrs : Adrs) : Adrs :=
  Adrs.set_key_pair_address (Adrs.set_type_and_clear adrs WOTS_PRF) (Adrs.key_pair_address adrs).

Definition wots_pk_gen (tweak : Tweak) (sk_seed : list Z) (adrs : Adrs) : outcome (list Z) :=
  '(tmp, adrs) ← chains_loop tweak sk_seed 0 (replicate LEN (W - 1)) (wots_sk_adrs adrs) adrs;
  let wots_pk_adrs := Adrs.set_type_and_clear adrs WOTS_PK in
  let wots_pk_adrs := Adrs.set_key_pair_address wots_pk_adrs (Adrs.key_pair_address adrs) in
  Tweak.t tweak wots_pk_adrs tmp.

Definition wots_sign (tweak : Tweak) (message sk_seed : list Z) (adrs : Adrs) : outcome (list Z) :=
  digits ← wots_digits message;
  '(sig, _) ← chains_loop tweak sk_seed 0 digits (wots_sk_adrs adrs) adrs;
  Done sig.

Fixpoint xmss_node (tweak : Tweak) (sk_seed : list Z) (i : Z) (z : nat) (adrs : Adrs) : outcome (list Z) :=
  match z with
  | O =>
      let adrs := Adrs.set_type_and_clear adrs WOTS_HASH in
      let adrs := Adrs.set_key_pair_address adrs i in
      wots_pk_gen tweak sk_seed adrs
  | S z' =>
      i2 ← mul_checked 32 2 i;
      left ← xmss_node tweak sk_seed i2 z' adrs;
      i3 ← add_checked 32 i2 1;
      right ← xmss_node tweak sk_seed i3 z' adrs;
      let adrs := Adrs.set_type_and_clear adrs TREE in
      let adrs := Adrs.set_word_2 adrs (Z.of_nat z) in
      let adrs := Adrs.set_word_3 adrs i in
      Tweak.h tweak adrs left right
  end.

(** The authentication path of [xmss_sign], from height [j] on. *)
Fixpoint xmss_path (tweak : Tweak) (sk_seed : list Z) (idx : Z) (j n : nat) (adrs : Adrs) : outcome (list Z) :=
  match n with
  | O => Done []
  | S n' =>
      node ← xmss_node tweak sk_seed (Z.lxor (Z.shiftr idx (Z.of_nat j)) 1) j adrs;
      rest ← xmss_path tweak sk_seed idx (S j) n' adrs;
      Done (node ++ rest)
  end.

Definition xmss_sign (tweak : Tweak) (message sk_seed : list Z) (idx : Z) (adrs : Adrs) : outcome (list Z) :=
  auth ← xmss_path tweak sk_seed idx 0 H_PRIME adrs;
  let adrs := Adrs.set_type_and_clear adrs WOTS_HASH in
  let adrs := Adrs.set_key_pair_address adrs idx in
  sig ← wots_sign tweak message sk_seed adrs;
  Done (sig ++ auth).

(** The loop of [ht_sign] over the layers from [j] on. *)
Fixpoint ht_sign_loop (tweak : Tweak) (sk_seed : list Z) (j n : nat) (root : list Z) (tree : Z) (adrs : Adrs) : outcome (list Z) :=
  match n with
  | O => Done []
  | S n' =>
      let leaf := Z.land tree (2 ^ Z.of_nat H_PRIME - 1) in
      let tree := Z.shiftr tree (Z.of_nat H_PRIME) in
      let adrs := Adrs.set_layer_address adrs (Z.of_nat j) in
      let adrs := Adrs.set_tree_address adrs tree in
      sig_tmp ← xmss_sign tweak root sk_seed leaf adrs;
      root ← (if (j <? D - 1)%nat then '(root, _) ← xmss_pk_from_sig tweak leaf sig_tmp root adrs; Done root else Done root);
      rest ← ht_sign_loop tweak sk_seed (S j) n' root tree adrs;
      Done (sig_tmp ++ rest)
  end.

Definition ht_sign (tweak : Tweak) (message sk_seed : list Z) (idx_tree idx_leaf : Z) : outcome (list Z) :=
  let adrs := Adrs.set_tree_address Adrs.new idx_tree in
  sig_tmp ← xmss_sign tweak message sk_seed idx_leaf adrs;
  '(root, _) ← xmss_pk_from_sig tweak idx_leaf sig_tmp message adrs;
  rest ← ht_sign_loop tweak sk_seed 1 (D - 1) root idx_tree adrs;
  Done (sig_tmp ++ rest).

Definition fors_sk_gen (tweak : Tweak) (sk_seed : list Z) (adrs : Adrs) (idx : Z) : outcome (list Z) :=
  let sk_adrs := Adrs.set_type_and_clear adrs FORS_PRF in
  let sk_adrs := Adrs.set_key_pair_address sk_adrs (Adrs.key_pair_address adrs) in
  let sk_adrs := Adrs.set_word_3 sk_adrs idx in
  prf tweak sk_seed sk_adrs.

Fixpoint fors_node (tweak : Tweak) (sk_seed : list Z) (i : Z) (z : nat) (adrs : Adrs) : outcome (list Z) :=
  match z with
  | O =>
      sk ← fors_sk_gen tweak sk_seed adrs i;
      let adrs := Adrs.set_word_2 adrs 0 in
      let adrs := Adrs.set_word_3 adrs i in
      Tweak.f tweak adrs sk
  | S z' =>
      i2 ← mul_checked 32 2 i;
      left ← fors_node tweak sk_seed i2 z' adrs;
      i3 ← add_checked 32 i2 1;
      right ← fors_node tweak sk_seed i3 z' adrs;
      let adrs := Adrs.set_word_2 adrs (Z.of_nat z) in
      let adrs := Adrs.set_word_3 adrs i in
      Tweak.h tweak adrs left right
  end.

(** The authentication path of tree [tree] in [fors_sign], from height [j] on. *)
Fixpoint fors_path (tweak : Tweak) (sk_seed : list Z) (tree index : Z) (j n : nat) (adrs : Adrs) : outcome (list Z) :=
  match n with
  | O => Done []
  | S n' =>
      let s := Z.lxor (Z.shiftr index (Z.of_nat j)) 1 in
      at' ← add_checked 32 (Prelude.trunc 32 (Z.shiftl tree (Z.of_nat (A - j)))) s;
      node ← fors_node tweak sk_seed at' j adrs;
      rest ← fors_path tweak sk_seed tree index (S j) n' adrs;
      Done (node ++ rest)
  end.

Fixpoint fors_sign_loop (tweak : Tweak) (sk_seed : list Z) (i : nat) (indices : list Z) (adrs : Adrs) : outcome (list Z) :=
  match indices with
  | [] => Done []
  | index :: indices' =>
      at' ← add_checked 32 (Prelude.trunc 32 (Z.shiftl (Z.of_nat i) (Z.of_nat A))) index;
      sk ← fors_sk_gen tweak sk_seed adrs at';
      auth ← fors_path tweak sk_seed (Z.of_nat i) index 0 A adrs;
      rest ← fors_sign_loop tweak sk_seed (S i) indices' adrs;
      Done (sk ++ auth ++ rest)
  end.

Definition fors_sign (tweak : Tweak) (md sk_seed : list Z) (adrs : Adrs) : outcome (list Z) :=
  indices ← base_2b K md (Z.of_nat A);
  fors_sign_loop tweak sk_seed 0 indices adrs.

Definition keygen_internal (sk_seed sk_prf pk_seed : list Z) : outcome (list Z * list Z) :=
  tweak ← Tweak.new pk_seed;
  let adrs := Adrs.set_layer_address Adrs.new (Z.of_nat D - 1) in
  pk_root ← xmss_node tweak sk_seed 0 H_PRIME adrs;
  let sk := sk_seed ++ sk_prf ++ pk_seed ++ pk_root in
  Done (sk, drop (2 * N) sk).

Definition sign_internal (message : list (list Z)) (sk : list Z) (addrnd : option (list Z)) : outcome (list Z) :=
  let sk_seed := take N sk in
  let rest := drop N sk in
  let sk_prf := take N rest in
  let pk := drop N rest in
  let pk_seed := take N pk in
  let pk_root := drop N pk in
  tweak ← Tweak.new pk_seed;
  let opt_rand := match addrnd with Some addrnd => addrnd | None => pk_seed end in
  r ← prf_msg sk_prf opt_rand message;
  digest ← h_msg r pk_seed pk_root message;
  let '(md, idx_tree, idx_leaf) := split_digest digest in
  let adrs := Adrs.set_tree_address Adrs.new idx_tree in
  let adrs := Adrs.set_type_and_clear adrs FORS_TREE in
  let adrs := Adrs.set_key_pair_address adrs idx_leaf in
  sig_fors ← fors_sign tweak md sk_seed adrs;
  '(pk_fors, _) ← fors_pk_from_sig tweak sig_fors md adrs;
  sig_ht ← ht_sign tweak pk_fors sk_seed idx_tree idx_leaf;
  Done (r ++ sig_fors ++ sig_ht).

Definition sign (message context sk : list Z) (addrnd : option (list Z)) : outcome (result (list Z) Refusal) :=
  if (255 <? Z.of_nat (length context)) then Done (Err ContextTooLong)
  else
    sig ← sign_internal [[0; Z.of_nat (length context)]; context; message] sk addrnd;
    Done (Ok sig).
End Slh.
