(* ===== verification/SlhTrip.v ===== *)
(** * What is signed verifies

    The theorem about Slh.v: under a key pair [keygen_internal] made, [verify] accepts
    what [sign] signed.  The pieces: addresses in a normal form, the chains of WOTS+
    that add up, and climbing an authentication path as climbing a tree whose nodes
    the signer computed, for the hypertree and for FORS alike. *)
From stdpp Require Import prelude numbers list.
From S2P Require Import Prelude Bytes Sha Slh.
Open Scope Z_scope.
Set Warnings "-clear-no-such-hyp".
Import Slh.
#[local] Abbreviation trunc := Slh.trunc.

(** ** Addresses in normal form *)
Definition adr (layer tree kind a b c : Z) : Adrs := layer :: to_be 8 tree ++ [kind] ++ to_be 4 a ++ to_be 4 b ++ to_be 4 c.

Lemma adr_new : Adrs.new = adr 0 0 0 0 0 0.
Proof. reflexivity. Qed.
Lemma adr_layer l t k a b c v : Adrs.set_layer_address (adr l t k a b c) v = adr v t k a b c.
Proof. reflexivity. Qed.
Lemma adr_tree l t k a b c v : Adrs.set_tree_address (adr l t k a b c) v = adr l v k a b c.
Proof. reflexivity. Qed.
Lemma adr_clear l t k a b c v : Adrs.set_type_and_clear (adr l t k a b c) v = adr l t v 0 0 0.
Proof. reflexivity. Qed.
Lemma adr_key_pair l t k a b c v : Adrs.set_key_pair_address (adr l t k a b c) v = adr l t k v b c.
Proof. reflexivity. Qed.
Lemma adr_word_2 l t k a b c v : Adrs.set_word_2 (adr l t k a b c) v = adr l t k a v c.
Proof. reflexivity. Qed.
Lemma adr_word_3 l t k a b c v : Adrs.set_word_3 (adr l t k a b c) v = adr l t k a b v.
Proof. reflexivity. Qed.
Lemma adr_get_key_pair l t k a b c : in_width 32 a → Adrs.key_pair_address (adr l t k a b c) = a.
Proof. intros Ha. transitivity (from_be (to_be 4 a)); [reflexivity|]. by apply from_to_be. Qed.
Lemma adr_get_index l t k a b c : in_width 32 c → Adrs.tree_index (adr l t k a b c) = c.
Proof. intros Hc. transitivity (from_be (to_be 4 c)); [reflexivity|]. by apply from_to_be. Qed.

Create Rewrite HintDb adrs.
#[export] Hint Rewrite adr_new adr_layer adr_tree adr_clear adr_key_pair adr_word_2 adr_word_3 : adrs.
#[local] Opaque adr Adrs.set_layer_address Adrs.set_tree_address Adrs.set_type_and_clear Adrs.set_key_pair_address Adrs.set_word_2 Adrs.set_word_3.
#[local] Opaque Adrs.key_pair_address Adrs.tree_index Fips.sha256 Sha256.finish Sha256.update.
Ltac norm := autorewrite with adrs; cbn [mbind outcome_bind].
(** Puts the value of a computation that is known to answer in its place. *)
Ltac run H := rewrite H; cbn [mbind outcome_bind].

(** ** Slices of equal blocks *)
Definition all_len (n : nat) (bs : list (list Z)) : Prop := Forall (fun b => length b = n) bs.

Lemma length_concat_len n bs : all_len n bs → length (concat bs) = (length bs * n)%nat.
Proof. induction 1 as [|b bs Hb Hbs IH]; [done|]. cbn [concat length]. rewrite length_app, IH, Hb. lia. Qed.

Lemma slice_block n bs i b : all_len n bs → bs !! i = Some b → slice (concat bs) (i * n) ((i + 1) * n) = Done b.
Proof.
  intros Hbs. revert i. induction Hbs as [|x bs Hx Hbs IH]; intros i Hi; [done|]. destruct i as [|i].
  - injection Hi as ->. cbn [concat]. rewrite slice_ok by (rewrite ?length_app; lia). f_equal.
    replace ((0 + 1) * n - 0 * n)%nat with n by lia. cbn [Nat.mul drop]. by apply take_app_length'.
  - specialize (IH i Hi). unfold slice in *. case_decide as H1; [|done]. injection IH as IH. cbn [concat].
    rewrite decide_True by (rewrite length_app; lia). f_equal. rewrite <- IH.
    replace ((S i + 1) * n - S i * n)%nat with ((i + 1) * n - i * n)%nat by lia. f_equal.
    replace (S i * n)%nat with (length x + i * n)%nat by lia. rewrite <- drop_drop. by rewrite drop_app_length.
Qed.

Lemma slice_head (a b : list Z) n : length a = n → slice (a ++ b) 0 n = Done a.
Proof. intros <-. rewrite slice_ok by (rewrite ?length_app; lia). f_equal. rewrite Nat.sub_0_r, drop_0. apply take_app_length. Qed.
Lemma slice_tail (a b : list Z) n : length a = n → slice (a ++ b) n (length (a ++ b)) = Done b.
Proof. intros <-. rewrite slice_ok by (rewrite ?length_app; lia). f_equal. rewrite length_app, drop_app_length. apply take_ge. lia. Qed.

(** ** Digits *)
Lemma land_ones_range x n : 0 ≤ n → 0 ≤ Z.land x (2 ^ n - 1) < 2 ^ n.
Proof. intros Hn. rewrite Z.sub_1_r, <- Z.ones_equiv, Z.land_ones by done. by apply Z.mod_pos_bound, Z.pow_pos_nonneg. Qed.

Lemma fill_ok fuel : ∀ x b input bits total, 0 ≤ b ≤ 32 → 0 ≤ bits → bits < b + 8 → b - bits ≤ 8 * Z.of_nat fuel →
  8 * Z.of_nat input + (b - bits) ≤ 8 * Z.of_nat (length x) →
  ∃ input' bits' total', fill fuel x b input bits total = Done (input', bits', total') ∧
    b ≤ bits' < b + 8 ∧ 8 * Z.of_nat input' - bits' = 8 * Z.of_nat input - bits.
Proof.
  induction fuel as [|fuel IH]; intros x b input bits total Hb Hbits Hup Hf Hx; cbn [fill].
  - rewrite (proj2 (Z.ltb_ge _ _)) by lia. eexists _, _, _. split; [done|]. lia.
  - destruct (Z.ltb_spec bits b) as [Hlt|Hge].
    + destruct (lookup_lt_is_Some_2 x input) as [byte Hbyte]; [lia|]. run (at_index_ok _ _ _ Hbyte).
      unfold add_checked. rewrite checked_ok by (unfold in_width; lia). cbn [mbind outcome_bind].
      destruct (IH x b (S input) (bits + 8) (Z.lor (Prelude.trunc 32 (Z.shiftl total 8)) byte)) as (i' & b' & t' & -> & H1 & H2); try lia.
      eexists _, _, _. split; [done|]. lia.
    + eexists _, _, _. split; [done|]. lia.
Qed.

Lemma digits_ok out : ∀ x b input bits total, 0 ≤ b ≤ 32 → 0 ≤ bits < 8 →
  8 * Z.of_nat input - bits + b * Z.of_nat out ≤ 8 * Z.of_nat (length x) →
  ∃ ds, digits_loop out x b input bits total = Done ds ∧ length ds = out ∧ Forall (fun d => 0 ≤ d < 2 ^ b) ds.
Proof.
  induction out as [|out IH]; intros x b input bits total Hb Hbits Hx; cbn [digits_loop]; [by exists []|].
  destruct (fill_ok (Z.to_nat b) x b input bits total) as (i' & b' & t' & -> & H1 & H2); try nia. cbn [mbind outcome_bind].
  unfold sub_checked. rewrite checked_ok by (unfold in_width; lia). cbn [mbind outcome_bind].
  destruct (IH x b i' (b' - b) (Z.land t' (2 ^ (b' - b) - 1))) as (ds & -> & Hl & Hds); [lia|lia|nia|]. cbn [mbind outcome_bind].
  eexists. split; [done|]. cbn [length]. rewrite Hl. split; [done|]. constructor; [|done]. apply land_ones_range. lia.
Qed.

(** [base_2b] answers with that many digits, each below the base, when there are
    bits enough. *)
Lemma base_2b_ok out x b : 0 ≤ b ≤ 32 → b * Z.of_nat out ≤ 8 * Z.of_nat (length x) →
  ∃ ds, base_2b out x b = Done ds ∧ length ds = out ∧ Forall (fun d => 0 ≤ d < 2 ^ b) ds.
Proof. intros Hb Hx. apply digits_ok; lia. Qed.

Lemma csum_ok ds : ∀ s, Forall (fun d => 0 ≤ d < 16) ds → 0 ≤ s → s + 15 * Z.of_nat (length ds) < 2 ^ 32 →
  ∃ c, for_each (fun sum digit => d ← sub_checked 32 (W - 1) digit; add_checked 32 sum d) ds s = Done c.
Proof.
  induction ds as [|d ds IH]; intros s Hds Hs Hb; [by exists s|]. apply Forall_cons in Hds as [Hd Hds]. cbn [for_each length] in *.
  unfold sub_checked, add_checked. change (W - 1) with 15. rewrite checked_ok by (unfold in_width; lia). cbn [mbind outcome_bind].
  rewrite checked_ok by (unfold in_width; lia). cbn [mbind outcome_bind]. apply IH; [done|lia|lia].
Qed.

Lemma wots_digits_ok message : length message = N →
  ∃ ds, wots_digits message = Done ds ∧ length ds = LEN ∧ Forall (fun d => 0 ≤ d < 16) ds.
Proof.
  intros Hm. unfold wots_digits. destruct (base_2b_ok LEN1 message (Z.of_nat LG_W)) as (ds & -> & Hl & Hds); [by vm_compute|by rewrite Hm|].
  cbn [mbind outcome_bind]. destruct (csum_ok ds 0 Hds) as (c & ->); [done|by rewrite Hl|]. cbn [mbind outcome_bind].
  match goal with |- context [base_2b LEN2 ?x _] =>
    destruct (base_2b_ok LEN2 x (Z.of_nat LG_W)) as (cs & -> & Hl' & Hcs); [by vm_compute|by rewrite length_drop, length_to_be|] end.
  cbn [mbind outcome_bind]. eexists. split; [done|]. rewrite length_app, Hl, Hl'. split; [done|]. by apply Forall_app.
Qed.

(** ** The signer's values, as functions *)
Section Trip.
Context (t : Tweak) (sk_seed : list Z) (H : Adrs → list Z → list Z).
Hypothesis hash_is : ∀ adrs parts, Tweak.hash t adrs parts = Done (H adrs (concat parts)).
Hypothesis hash_len : ∀ adrs x, length (H adrs x) = N.

Lemma f_is adrs x : Tweak.f t adrs x = Done (H adrs x).
Proof. unfold Tweak.f. rewrite hash_is. cbn [concat]. by rewrite app_nil_r. Qed.
Lemma t_is adrs x : Tweak.t t adrs x = Done (H adrs x).
Proof. apply f_is. Qed.
Lemma prf_is adrs : prf t sk_seed adrs = Done (H adrs sk_seed).
Proof. apply (f_is adrs sk_seed). Qed.
Lemma h_is adrs x y : Tweak.h t adrs x y = Done (H adrs (x ++ y)).
Proof. unfold Tweak.h. rewrite hash_is. cbn [concat]. by rewrite app_nil_r. Qed.

(** *** Chains *)
Fixpoint iter (g : Z → list Z → list Z) (j : Z) (n : nat) (x : list Z) : list Z :=
  match n with O => x | S n' => iter g (j + 1) n' (g j x) end.

Lemma iter_add g n m : ∀ j x, iter g j (n + m) x = iter g (j + Z.of_nat n) m (iter g j n x).
Proof.
  induction n as [|n IH]; intros j x; [by rewrite Z.add_0_r|]. cbn [Nat.add iter]. rewrite IH. f_equal. lia.
Qed.

(** Chain number [i] of key pair [kp], as a function of the position. *)
Definition link (l tr kp i : Z) (j : Z) (x : list Z) : list Z := H (adr l tr WOTS_HASH kp i j) x.

Lemma length_iter l tr kp i n : ∀ j x, length x = N → length (iter (link l tr kp i) j n x) = N.
Proof. induction n as [|n IH]; intros j x Hx; [done|]. cbn [iter]. apply IH. apply hash_len. Qed.

Lemma chain_loop_is l tr kp i n : ∀ x j c, ∃ c',
  chain_loop t x j n (adr l tr WOTS_HASH kp i c) = Done (iter (link l tr kp i) j n x, adr l tr WOTS_HASH kp i c').
Proof.
  induction n as [|n IH]; intros x j c; cbn [chain_loop iter]; [by exists c|]. norm. run (f_is (adr l tr WOTS_HASH kp i j) x). apply IH.
Qed.

Lemma chain_is l tr kp i x j n c : length x = N → 0 ≤ j → 0 ≤ n → j + n < 2 ^ 32 → ∃ c',
  chain t x j n (adr l tr WOTS_HASH kp i c) = Done (iter (link l tr kp i) j (Z.to_nat n) x, adr l tr WOTS_HASH kp i c').
Proof.
  intros Hx Hj Hn Hs. unfold chain, add_checked. rewrite Hx, checked_ok by (unfold in_width; lia). cbn [Nat.eqb N negb mbind outcome_bind]. apply chain_loop_is.
Qed.

(** The secret start of chain [i] and its end. *)
Definition start (l tr kp i : Z) : list Z := H (adr l tr WOTS_PRF kp i 0) sk_seed.
Definition chain_at (l tr kp : Z) (i : nat) (n : Z) : list Z :=
  iter (link l tr kp (Z.of_nat i)) 0 (Z.to_nat n) (start l tr kp (Z.of_nat i)).

Lemma length_chain_at l tr kp i n : length (chain_at l tr kp i n) = N.
Proof. apply length_iter, hash_len. Qed.

Lemma chains_loop_is l tr kp ns : ∀ i b b' c, Forall (fun n => 0 ≤ n < 16) ns → ∃ b'' c'',
  chains_loop t sk_seed i ns (adr l tr WOTS_PRF kp b 0) (adr l tr WOTS_HASH kp b' c) =
  Done (concat (imap (fun k n => chain_at l tr kp (i + k) n) ns), adr l tr WOTS_HASH kp b'' c'').
Proof.
  induction ns as [|n ns IH]; intros i b b' c Hns; cbn [chains_loop]; [by exists b', c|]. apply Forall_cons in Hns as [Hn Hns]. norm.
  run (prf_is (adr l tr WOTS_PRF kp (Z.of_nat i) 0)). fold (start l tr kp (Z.of_nat i)).
  destruct (chain_is l tr kp (Z.of_nat i) (start l tr kp (Z.of_nat i)) 0 n c) as (c1 & Hc); [apply hash_len|lia..|]. run Hc.
  destruct (IH (S i) (Z.of_nat i) (Z.of_nat i) c1 Hns) as (b2 & c2 & He). run He. exists b2, c2.
  cbn [imap concat]. rewrite Nat.add_0_r. do 3 f_equal. f_equal. apply imap_ext. intros k x _. cbn. f_equal. lia.
Qed.

(** *** WOTS+ *)

(** The public key of key pair [kp]: the ends of its chains, hashed. *)
Definition wots_pk (l tr kp : Z) : list Z := H (adr l tr WOTS_PK kp 0 0) (concat ((fun i => chain_at l tr kp i 15) <$> seq 0 LEN)).
Definition wots_sig (l tr kp : Z) (ds : list Z) : list (list Z) := imap (fun i d => chain_at l tr kp i d) ds.

Lemma wots_pk_gen_is l tr kp b c : in_width 32 kp → wots_pk_gen t sk_seed (adr l tr WOTS_HASH kp b c) = Done (wots_pk l tr kp).
Proof.
  intros Hkp. unfold wots_pk_gen, wots_sk_adrs. rewrite adr_get_key_pair by done. norm.
  destruct (chains_loop_is l tr kp (replicate LEN (W - 1)) 0 0 b c) as (b2 & c2 & He); [by apply Forall_replicate|]. run He.
  rewrite adr_get_key_pair by done. norm. run t_is. unfold wots_pk. do 3 f_equal.
Qed.

Lemma wots_sign_is l tr kp b c message : in_width 32 kp → length message = N →
  ∃ ds, wots_digits message = Done ds ∧ length ds = LEN ∧ Forall (fun d => 0 ≤ d < 16) ds ∧
    wots_sign t message sk_seed (adr l tr WOTS_HASH kp b c) = Done (concat (wots_sig l tr kp ds)).
Proof.
  intros Hkp Hm. destruct (wots_digits_ok message Hm) as (ds & Hd & Hl & Hr). exists ds. split_and!; try done.
  unfold wots_sign, wots_sk_adrs. run Hd. rewrite adr_get_key_pair by done. norm.
  destruct (chains_loop_is l tr kp ds 0 0 b c Hr) as (b2 & c2 & He). by run He.
Qed.

Lemma wots_sig_len l tr kp ds : all_len N (wots_sig l tr kp ds).
Proof. apply Forall_lookup. intros i x. unfold wots_sig. rewrite list_lookup_imap. intros (d & _ & ->)%fmap_Some. apply length_chain_at. Qed.

(** Continuing each chain of a signature gives the ends of the key's chains. *)
Lemma ends_loop_is l tr kp sig ds : ∀ i b c, all_len N sig → Forall (fun d => 0 ≤ d < 16) ds →
  (∀ k d, ds !! k = Some d → sig !! (i + k)%nat = Some (chain_at l tr kp (i + k) d)) → ∃ b' c',
  ends_loop t (concat sig) i ds (adr l tr WOTS_HASH kp b c) =
  Done (concat ((fun k => chain_at l tr kp k 15) <$> seq i (length ds)), adr l tr WOTS_HASH kp b' c').
Proof.
  induction ds as [|d ds IH]; intros i b c Hs Hds Hk; cbn [ends_loop]; [by exists b, c|]. apply Forall_cons in Hds as [Hd Hds]. norm.
  pose proof (Hk 0%nat d eq_refl) as H0. rewrite Nat.add_0_r in H0. run (slice_block N sig i _ Hs H0).
  unfold sub_checked. change (W - 1) with 15. rewrite checked_ok by (unfold in_width; lia). cbn [mbind outcome_bind].
  destruct (chain_is l tr kp (Z.of_nat i) (chain_at l tr kp i d) d (15 - d) c) as (c1 & Hc); [apply length_chain_at|lia..|]. run Hc.
  destruct (IH (S i) (Z.of_nat i) c1 Hs Hds) as (b2 & c2 & He).
  { intros k x Hx. replace (S i + k)%nat with (i + S k)%nat by lia. by apply Hk. }
  run He. exists b2, c2. cbn [length seq fmap list_fmap concat]. do 3 f_equal. unfold chain_at.
  replace (Z.to_nat 15) with (Z.to_nat d + Z.to_nat (15 - d))%nat by lia. rewrite iter_add. f_equal. lia.
Qed.

Lemma wots_pk_from_sig_is l tr kp b c message ds : in_width 32 kp → wots_digits message = Done ds → length ds = LEN → Forall (fun d => 0 ≤ d < 16) ds →
  ∃ b' c', wots_pk_from_sig t (concat (wots_sig l tr kp ds)) message (adr l tr WOTS_HASH kp b c) = Done (wots_pk l tr kp, adr l tr WOTS_HASH kp b' c').
Proof.
  intros Hkp Hd Hl Hr. unfold wots_pk_from_sig. run Hd.
  destruct (ends_loop_is l tr kp (wots_sig l tr kp ds) ds 0 b c (wots_sig_len _ _ _ _) Hr) as (b' & c' & He).
  { intros k d Hk. cbn [Nat.add]. unfold wots_sig. by rewrite list_lookup_imap, Hk. }
  run He. rewrite adr_get_key_pair by done. norm. run t_is. exists b', c'. unfold wots_pk. by rewrite Hl.
Qed.

(** *** Climbing a tree

    [node z i] is node number [i] at height [z] of a tree; a path from a node up with
    the siblings the signer gives is a path of that tree. *)
Lemma lxor_1 x : 0 ≤ x → Z.lxor x 1 = if x mod 2 =? 0 then x + 1 else x - 1.
Proof. intros Hx. rewrite Zmod_even. destruct x as [|[p|p|]|p]; [done|done|done|done|lia]. Qed.

Lemma climb_loop_is (node : nat → Z → list Z) l tr kind kp index auths :
  (∀ z i, node (S z) i = H (adr l tr kind kp (Z.of_nat z + 1) i) (node z (2 * i) ++ node z (2 * i + 1))) → all_len N auths →
  ∀ n k ti b, in_width 32 ti →
  (∀ m, (m < n)%nat → auths !! (k + m)%nat = Some (node (k + m)%nat (Z.lxor (ti / 2 ^ Z.of_nat m) 1))) →
  (∀ m, (m < n)%nat → Z.land (Z.shiftr index (Z.of_nat (k + m))) 1 = (ti / 2 ^ Z.of_nat m) mod 2) →
  ∃ b' c', climb_loop t (node k ti) index (concat auths) k n (adr l tr kind kp b ti) =
    Done (node (k + n)%nat (ti / 2 ^ Z.of_nat n), adr l tr kind kp b' c').
Proof.
  intros Hnode Ha. induction n as [|n IH]; intros k ti b Hti Hsib Hbit; cbn [climb_loop].
  { rewrite Nat.add_0_r. cbn. rewrite Z.div_1_r. by eexists _, _. }
  pose proof (Hsib 0%nat ltac:(lia)) as Hs0. pose proof (Hbit 0%nat ltac:(lia)) as Hb0. rewrite !Nat.add_0_r in *. change (2 ^ Z.of_nat 0) with 1 in *. rewrite Z.div_1_r in *.
  norm. run (slice_block N auths k _ Ha Hs0). rewrite adr_get_index by done.
  assert (Hup : ∀ m, ti / 2 ^ Z.of_nat (S m) = ti / 2 / 2 ^ Z.of_nat m).
  { intros m. rewrite Nat2Z.inj_succ, Z.pow_succ_r by lia. symmetry. apply Z.div_div; lia. }
  destruct (IH (S k) (ti / 2) (Z.of_nat k + 1)) as (b' & c' & He).
  { unfold in_width in *. split; [apply Z.div_pos; lia|]. apply Z.div_lt_upper_bound; lia. }
  { intros m Hm. rewrite <- Hup. replace (S k + m)%nat with (k + S m)%nat by lia. apply Hsib. lia. }
  { intros m Hm. rewrite <- Hup. replace (S k + m)%nat with (k + S m)%nat by lia. apply Hbit. lia. }
  rewrite Hb0, lxor_1 by apply Hti. pose proof (Z.div_mod ti 2 ltac:(lia)) as Ed. pose proof (Z.mod_pos_bound ti 2 ltac:(lia)).
  exists b', c'. replace (k + S n)%nat with (S k + n)%nat by lia. rewrite Hup, <- He.
  destruct (Z.eqb_spec (ti mod 2) 0) as [E0|E1].
  - norm. run h_is. rewrite Hnode. do 5 f_equal; lia.
  - unfold sub_checked. rewrite checked_ok by (unfold in_width in *; lia). cbn [mbind outcome_bind]. norm. run h_is.
    replace ((ti - 1) / 2) with (ti / 2) by (rewrite Ed at 2; replace (2 * (ti / 2) + ti mod 2 - 1) with (ti / 2 * 2) by lia; by rewrite Z.div_mul by lia).
    rewrite Hnode. do 5 f_equal; lia.
Qed.

(** *** The trees of the hypertree *)
Fixpoint xnode (l tr : Z) (z : nat) (i : Z) : list Z :=
  match z with
  | O => wots_pk l tr i
  | S z' => H (adr l tr TREE 0 (Z.of_nat z' + 1) i) (xnode l tr z' (2 * i) ++ xnode l tr z' (2 * i + 1))
  end.

Lemma length_xnode l tr z i : length (xnode l tr z i) = N.
Proof. destruct z; apply hash_len. Qed.

Lemma xmss_node_is l tr z : ∀ i k a b c, 0 ≤ i → (i + 1) * 2 ^ Z.of_nat z ≤ 2 ^ 31 →
  xmss_node t sk_seed i z (adr l tr k a b c) = Done (xnode l tr z i).
Proof.
  induction z as [|z IH]; intros i k a b c Hi Hb; cbn [xmss_node xnode].
  { norm. apply wots_pk_gen_is. unfold in_width. cbn in Hb. lia. }
  rewrite Nat2Z.inj_succ, Z.pow_succ_r in Hb by lia. pose proof (Z.pow_pos_nonneg 2 (Z.of_nat z) ltac:(lia) ltac:(lia)).
  unfold mul_checked, add_checked. rewrite checked_ok by (unfold in_width; nia). cbn [mbind outcome_bind]. rewrite IH by nia. cbn [mbind outcome_bind].
  rewrite checked_ok by (unfold in_width; nia). cbn [mbind outcome_bind]. rewrite IH by nia. norm. run h_is. by rewrite Nat2Z.inj_succ, <- Z.add_1_r.
Qed.

Definition xauth (l tr idx : Z) (j : nat) : list Z := xnode l tr j (Z.lxor (idx / 2 ^ Z.of_nat j) 1).

Lemma lxor_1_bound x n : 0 ≤ x < 2 * n → 0 ≤ Z.lxor x 1 < 2 * n.
Proof. intros Hx. rewrite lxor_1 by lia. pose proof (Z.div_mod x 2). pose proof (Z.mod_pos_bound x 2 ltac:(lia)). destruct (Z.eqb_spec (x mod 2) 0); lia. Qed.

(** Siblings below the root of a tree of height [h]. *)
Lemma sibling_bound idx h j : 0 ≤ idx < 2 ^ Z.of_nat h → (j < h)%nat →
  0 ≤ Z.lxor (idx / 2 ^ Z.of_nat j) 1 ∧ (Z.lxor (idx / 2 ^ Z.of_nat j) 1 + 1) * 2 ^ Z.of_nat j ≤ 2 ^ Z.of_nat h.
Proof.
  intros Hi Hj. assert (E : 2 ^ Z.of_nat h = 2 * 2 ^ Z.of_nat (h - S j) * 2 ^ Z.of_nat j).
  { rewrite <- Z.pow_succ_r, <- Z.pow_add_r by lia. f_equal. lia. }
  assert (0 ≤ Z.lxor (idx / 2 ^ Z.of_nat j) 1 < 2 * 2 ^ Z.of_nat (h - S j)).
  { apply lxor_1_bound. split; [apply Z.div_pos; lia|]. apply Z.div_lt_upper_bound; lia. }
  rewrite E. nia.
Qed.

Lemma xmss_path_is l tr idx k a b c n : ∀ j, 0 ≤ idx < 2 ^ Z.of_nat H_PRIME → (j + n ≤ H_PRIME)%nat →
  xmss_path t sk_seed idx j n (adr l tr k a b c) = Done (concat (xauth l tr idx <$> seq j n)).
Proof.
  induction n as [|n IH]; intros j Hi Hj; cbn [xmss_path]; [done|]. rewrite Z.shiftr_div_pow2 by lia.
  destruct (sibling_bound idx H_PRIME j Hi ltac:(lia)) as [H1 H2].
  rewrite xmss_node_is; [|done|transitivity (2 ^ Z.of_nat H_PRIME); [done|by vm_compute]]. cbn [mbind outcome_bind]. rewrite IH by lia. done.
Qed.

Lemma bit_is_mod idx j : Z.land (Z.shiftr idx (Z.of_nat j)) 1 = (idx / 2 ^ Z.of_nat j) mod 2.
Proof. rewrite Z.shiftr_div_pow2 by lia. change 1 with (Z.ones 1). by rewrite Z.land_ones by lia. Qed.

Lemma xauth_len l tr idx js : all_len N (xauth l tr idx <$> js).
Proof. apply Forall_fmap, Forall_true. intros j. apply length_xnode. Qed.

(** A signature of one tree leads to that tree's root, whatever was signed. *)
Lemma xmss_trip l tr idx message k a b c k' a' b' c' : 0 ≤ idx < 2 ^ Z.of_nat H_PRIME → length message = N →
  ∃ sig b2 c2, xmss_sign t message sk_seed idx (adr l tr k a b c) = Done sig ∧ length sig = XMSS_BYTES ∧
    xmss_pk_from_sig t idx sig message (adr l tr k' a' b' c') = Done (xnode l tr H_PRIME 0, adr l tr TREE 0 b2 c2).
Proof.
  intros Hi Hm. assert (Hw : in_width 32 idx) by (unfold in_width; change (2 ^ Z.of_nat H_PRIME) with 512 in Hi; lia).
  unfold xmss_sign, xmss_pk_from_sig. rewrite xmss_path_is by done. norm.
  destruct (wots_sign_is l tr idx 0 0 message Hw Hm) as (ds & Hd & Hl & Hr & Hs). run Hs.
  assert (Hlen : length (concat (wots_sig l tr idx ds)) = (LEN * N)%nat).
  { rewrite (length_concat_len N) by apply wots_sig_len. unfold wots_sig. by rewrite length_imap, Hl. }
  assert (Hauth : length (concat (xauth l tr idx <$> seq 0 H_PRIME)) = (H_PRIME * N)%nat) by (rewrite (length_concat_len N) by apply xauth_len; done).
  destruct (wots_pk_from_sig_is l tr idx 0 0 message ds Hw Hd Hl Hr) as (b1 & c1 & Hp).
  destruct (climb_loop_is (xnode l tr) l tr TREE 0 idx (xauth l tr idx <$> seq 0 H_PRIME)) with (n := H_PRIME) (k := 0%nat) (ti := idx) (b := 0) as (b2 & c2 & Hc);
    [done|apply xauth_len|done| | |].
  - intros m Hm'. cbn [Nat.add]. by rewrite list_lookup_fmap, lookup_seq_lt by done.
  - intros m Hm'. apply bit_is_mod.
  - eexists _, b2, c2. split_and!; [done|rewrite length_app, Hlen, Hauth; done|]. rewrite slice_head, slice_tail by done. cbn [mbind outcome_bind].
    run Hp. norm. unfold climb. cbn [xnode] in Hc. rewrite Hc. by rewrite Z.div_small.
Qed.

(** *** The hypertree *)
Lemma leaf_bound tree : 0 ≤ Z.land tree (2 ^ Z.of_nat H_PRIME - 1) < 2 ^ Z.of_nat H_PRIME.
Proof. apply land_ones_range. lia. Qed.

(** The root a layer's tree has; [tree] is the address of the tree below. *)
Definition layer_root (j : nat) (tree : Z) : list Z := xnode (Z.of_nat j) tree H_PRIME 0.

Lemma ht_loop_trip n : ∀ j tree root a a' b' c' pre k', (j + n = D)%nat → (0 < j)%nat → length root = N → length pre = j → all_len XMSS_BYTES pre →
  ∃ sigs, ht_sign_loop t sk_seed j n root tree (adr a tree 0 0 0 0) = Done (concat sigs) ∧ length sigs = n ∧ all_len XMSS_BYTES sigs ∧
    layers_loop t (concat (pre ++ sigs)) j n root tree (adr a' tree k' 0 b' c') =
      Done (match n with O => root | _ => layer_root (D - 1) (Z.shiftr tree (Z.of_nat (n * H_PRIME))) end).
Proof.
  induction n as [|n IH]; intros j tree root a a' b' c' pre k' Hj Hpos Hr Hp Hpre; cbn [ht_sign_loop layers_loop].
  { exists []. split_and!; [done|done|constructor|done]. }
  norm.
  set (leaf := Z.land tree (2 ^ Z.of_nat H_PRIME - 1)). set (up := Z.shiftr tree (Z.of_nat H_PRIME)).
  destruct (xmss_trip (Z.of_nat j) up leaf root 0 0 0 0 k' 0 b' c' (leaf_bound tree) Hr) as (sig & b2 & c2 & Hs & Hl & Hv).
  destruct (xmss_trip (Z.of_nat j) up leaf root 0 0 0 0 0 0 0 0 (leaf_bound tree) Hr) as (sig' & b3 & c3 & Hs' & _ & Hv').
  rewrite Hs in Hs'. injection Hs' as <-. run Hs.
  assert (Hroot : ∃ next, (if (j <? D - 1)%nat then '(root, _) ← xmss_pk_from_sig t leaf sig root (adr (Z.of_nat j) up 0 0 0 0); Done root else Done root) = Done next ∧
    length next = N ∧ (n ≠ 0%nat → next = layer_root j up)).
  { destruct (Nat.ltb_spec j (D - 1)) as [Hlt|Hge].
    - run Hv'. eexists. split_and!; [done|apply length_xnode|done].
    - exists root. split_and!; [done|done|]. intros Hn. unfold D in *. lia. }
  destruct Hroot as (next & Hn & Hnl & Hne). run Hn.
  destruct n as [|n'].
  - exists [sig]. cbn [ht_sign_loop mbind outcome_bind concat]. split_and!; [done|done|by constructor|].
    rewrite (slice_block XMSS_BYTES _ j sig); [|by apply Forall_app; split; [|constructor]|by rewrite lookup_app_r, Hp, Nat.sub_diag by lia].
    cbn [mbind outcome_bind]. run Hv. cbn [layers_loop]. unfold layer_root. replace (D - 1)%nat with j by (unfold D in *; lia). done.
  - destruct (IH (S j) up next (Z.of_nat j) (Z.of_nat j) b2 c2 (pre ++ [sig]) TREE) as (sigs & Hsg & Hsl & Hsa & Hsv);
      [lia|lia|done|rewrite length_app, Hp; cbn; lia|apply Forall_app; split; [done|by constructor]|].
    run Hsg. exists (sig :: sigs). cbn [concat length]. split_and!; [done|by rewrite Hsl|by constructor|].
    rewrite <- app_assoc in Hsv. cbn [app] in Hsv.
    rewrite (slice_block XMSS_BYTES _ j sig); [|apply Forall_app; split; [done|by constructor]|by rewrite lookup_app_r, Hp, Nat.sub_diag by lia].
    cbn [mbind outcome_bind]. run Hv. fold (layer_root j up). rewrite <- (Hne ltac:(lia)), Hsv. do 2 f_equal.
    unfold up. rewrite Z.shiftr_shiftr by lia. f_equal. lia.
Qed.

Lemma ht_trip message idx_tree idx_leaf : length message = N → 0 ≤ idx_leaf < 2 ^ Z.of_nat H_PRIME → 0 ≤ idx_tree < 2 ^ Z.of_nat (HEIGHT - HEIGHT / D) →
  ∃ sig, ht_sign t message sk_seed idx_tree idx_leaf = Done sig ∧ length sig = (D * XMSS_BYTES)%nat ∧
    ht_verify t message sig idx_tree idx_leaf (xnode (Z.of_nat D - 1) 0 H_PRIME 0) = Done true.
Proof.
  intros Hm Hleaf Htree. unfold ht_sign, ht_verify. norm.
  destruct (xmss_trip 0 idx_tree idx_leaf message 0 0 0 0 0 0 0 0 Hleaf Hm) as (sig & b2 & c2 & Hs & Hl & Hv). run Hs. run Hv.
  destruct (ht_loop_trip (D - 1) 1 idx_tree (xnode 0 idx_tree H_PRIME 0) 0 0 b2 c2 [sig] TREE) as (sigs & Hsg & Hsl & Hsa & Hsv);
    [done|lia|apply length_xnode|done|by constructor|]. run Hsg. exists (sig ++ concat sigs). split_and!; [done| |].
  - rewrite length_app, Hl, (length_concat_len _ _ Hsa), Hsl. done.
  - rewrite slice_head by done. cbn [mbind outcome_bind]. run Hv. cbn [concat app] in Hsv. run Hsv. f_equal. apply bool_decide_eq_true.
    cbn [D Nat.sub]. unfold layer_root. rewrite Z.shiftr_div_pow2 by lia. rewrite Z.div_small; [done|exact Htree].
Qed.

(** *** FORS *)
Section Fors.
Context (l tr kp : Z) (kp_width : in_width 32 kp).

Definition fsk (i : Z) : list Z := H (adr l tr FORS_PRF kp 0 i) sk_seed.
Fixpoint fnode (z : nat) (i : Z) : list Z :=
  match z with
  | O => H (adr l tr FORS_TREE kp 0 i) (fsk i)
  | S z' => H (adr l tr FORS_TREE kp (Z.of_nat z' + 1) i) (fnode z' (2 * i) ++ fnode z' (2 * i + 1))
  end.
(** The leaf a digit names in tree [i], its siblings, and what is signed for it. *)
Definition fleaf (i : nat) (index : Z) : Z := Z.of_nat i * 2 ^ Z.of_nat A + index.
Definition fauth (ti : Z) (j : nat) : list Z := fnode j (Z.lxor (ti / 2 ^ Z.of_nat j) 1).
Definition fpart (i : nat) (index : Z) : list Z := fsk (fleaf i index) ++ concat (fauth (fleaf i index) <$> seq 0 A).
Definition froot (i : nat) : list Z := fnode A (Z.of_nat i).

Lemma length_fnode z i : length (fnode z i) = N.
Proof. destruct z; apply hash_len. Qed.
Lemma fauth_len ti js : all_len N (fauth ti <$> js).
Proof. apply Forall_fmap, Forall_true. intros j. apply length_fnode. Qed.
Lemma length_fpart i index : length (fpart i index) = ((A + 1) * N)%nat.
Proof. unfold fpart. rewrite length_app, (length_concat_len N) by apply fauth_len. unfold fsk. rewrite hash_len. done. Qed.

Lemma fors_sk_gen_is b c i : fors_sk_gen t sk_seed (adr l tr FORS_TREE kp b c) i = Done (fsk i).
Proof. unfold fors_sk_gen. rewrite adr_get_key_pair by done. norm. apply prf_is. Qed.

Lemma fors_node_is z : ∀ i b c, 0 ≤ i → (i + 1) * 2 ^ Z.of_nat z ≤ 2 ^ 31 → fors_node t sk_seed i z (adr l tr FORS_TREE kp b c) = Done (fnode z i).
Proof.
  induction z as [|z IH]; intros i b c Hi Hb; cbn [fors_node fnode].
  { rewrite fors_sk_gen_is. norm. apply f_is. }
  rewrite Nat2Z.inj_succ, Z.pow_succ_r in Hb by lia. pose proof (Z.pow_pos_nonneg 2 (Z.of_nat z) ltac:(lia) ltac:(lia)).
  unfold mul_checked, add_checked. rewrite checked_ok by (unfold in_width; nia). cbn [mbind outcome_bind]. rewrite IH by nia. cbn [mbind outcome_bind].
  rewrite checked_ok by (unfold in_width; nia). cbn [mbind outcome_bind]. rewrite IH by nia. norm. run h_is. by rewrite Nat2Z.inj_succ, <- Z.add_1_r.
Qed.

(** The signer's number of a sibling is the sibling's number in the forest. *)
Lemma leaf_up i index j : 0 ≤ index < 2 ^ Z.of_nat A → (j < A)%nat →
  fleaf i index / 2 ^ Z.of_nat j = 2 * (Z.of_nat i * 2 ^ Z.of_nat (A - S j)) + index / 2 ^ Z.of_nat j.
Proof.
  intros Hi Hj. unfold fleaf. replace (2 ^ Z.of_nat A) with (2 * 2 ^ Z.of_nat (A - S j) * 2 ^ Z.of_nat j)
    by (rewrite <- Z.pow_succ_r, <- Z.pow_add_r by lia; f_equal; unfold A in *; lia).
  rewrite Z.mul_assoc, Z.div_add_l by lia. lia.
Qed.

Lemma mod_2_up i index j : 0 ≤ index < 2 ^ Z.of_nat A → (j < A)%nat → (fleaf i index / 2 ^ Z.of_nat j) mod 2 = (index / 2 ^ Z.of_nat j) mod 2.
Proof. intros Hi Hj. rewrite leaf_up by done. rewrite Z.add_comm, Z.mul_comm. apply Z.mod_add. lia. Qed.

Lemma sibling_number i index j : (i < K)%nat → 0 ≤ index < 2 ^ Z.of_nat A → (j < A)%nat →
  Prelude.trunc 32 (Z.shiftl (Z.of_nat i) (Z.of_nat (A - j))) + Z.lxor (Z.shiftr index (Z.of_nat j)) 1 = Z.lxor (fleaf i index / 2 ^ Z.of_nat j) 1.
Proof.
  intros Hk Hi Hj. rewrite Z.shiftl_mul_pow2, Z.shiftr_div_pow2 by lia.
  assert (E : 2 ^ Z.of_nat (A - j) = 2 * 2 ^ Z.of_nat (A - S j)) by (rewrite <- Z.pow_succ_r by lia; f_equal; unfold A in *; lia).
  assert (Hp : 0 < 2 ^ Z.of_nat (A - S j) ≤ 2 ^ 12) by (split; [lia|apply Z.pow_le_mono_r; unfold A in *; lia]).
  rewrite trunc_small by (unfold in_width, K in *; rewrite E; nia).
  pose proof (Z.div_pos index (2 ^ Z.of_nat j) ltac:(lia) ltac:(lia)). pose proof (mod_2_up i index j Hi Hj) as Hm.
  rewrite !lxor_1; [|rewrite leaf_up by done; nia|done]. rewrite Hm. rewrite leaf_up by done. destruct (_ =? 0); lia.
Qed.

Lemma leaf_width i index : (i < K)%nat → 0 ≤ index < 2 ^ Z.of_nat A → 0 ≤ fleaf i index < 2 ^ Z.of_nat 16.
Proof. intros Hk Hi. unfold fleaf, K in *. change (2 ^ Z.of_nat A) with 4096 in *. change (2 ^ Z.of_nat 16) with 65536. lia. Qed.

Lemma fors_path_is i index b c n : ∀ j, (i < K)%nat → 0 ≤ index < 2 ^ Z.of_nat A → (j + n ≤ A)%nat →
  fors_path t sk_seed (Z.of_nat i) index j n (adr l tr FORS_TREE kp b c) = Done (concat (fauth (fleaf i index) <$> seq j n)).
Proof.
  induction n as [|n IH]; intros j Hk Hi Hj; cbn [fors_path]; [done|]. unfold add_checked. rewrite sibling_number by (done || lia).
  destruct (sibling_bound (fleaf i index) 16 j (leaf_width _ _ Hk Hi)) as [H1 H2]; [unfold A in *; lia|].
  pose proof (Z.pow_pos_nonneg 2 (Z.of_nat j) ltac:(lia) ltac:(lia)). change (2 ^ Z.of_nat 16) with 65536 in H2.
  rewrite checked_ok by (unfold in_width; nia). cbn [mbind outcome_bind]. rewrite fors_node_is by lia. cbn [mbind outcome_bind]. rewrite IH by (done || lia). done.
Qed.

Lemma fors_sign_loop_is ds : ∀ i b c, Forall (fun d => 0 ≤ d < 2 ^ Z.of_nat A) ds → (i + length ds ≤ K)%nat →
  fors_sign_loop t sk_seed i ds (adr l tr FORS_TREE kp b c) = Done (concat (imap (fun k d => fpart (i + k) d) ds)).
Proof.
  induction ds as [|d ds IH]; intros i b c Hds Hi; cbn [fors_sign_loop length] in *; [done|]. apply Forall_cons in Hds as [Hd Hds].
  pose proof (leaf_width i d ltac:(lia) Hd) as Hw. change (2 ^ Z.of_nat 16) with 65536 in Hw. rewrite Z.shiftl_mul_pow2 by lia.
  rewrite trunc_small by (unfold in_width, fleaf, K in *; change (2 ^ Z.of_nat A) with 4096 in *; lia).
  unfold add_checked. fold (fleaf i d). rewrite checked_ok by (unfold in_width; lia). cbn [mbind outcome_bind].
  rewrite fors_sk_gen_is. cbn [mbind outcome_bind]. rewrite fors_path_is by (done || lia). cbn [mbind outcome_bind].
  rewrite IH by (done || lia). cbn [mbind outcome_bind imap concat]. rewrite Nat.add_0_r. unfold fpart at 2. rewrite <- app_assoc. do 4 f_equal.
  apply imap_ext. intros k x _. cbn. f_equal. lia.
Qed.

Lemma roots_loop_is sig ds : ∀ i b c, all_len ((A + 1) * N) sig → Forall (fun d => 0 ≤ d < 2 ^ Z.of_nat A) ds → (i + length ds ≤ K)%nat →
  (∀ k d, ds !! k = Some d → sig !! (i + k)%nat = Some (fpart (i + k) d)) → ∃ b' c',
  roots_loop t (concat sig) i ds (adr l tr FORS_TREE kp b c) = Done (concat (froot <$> seq i (length ds)), adr l tr FORS_TREE kp b' c').
Proof.
  induction ds as [|d ds IH]; intros i b c Hs Hds Hi Hk; cbn [roots_loop length] in *; [by exists b, c|]. apply Forall_cons in Hds as [Hd Hds].
  pose proof (Hk 0%nat d eq_refl) as H0. rewrite Nat.add_0_r in H0. rewrite <- !Nat.mul_assoc. run (slice_block _ sig i _ Hs H0).
  assert (Hsk : length (fsk (fleaf i d)) = N) by apply hash_len. unfold fpart. rewrite slice_head, slice_tail by done. cbn [mbind outcome_bind]. norm.
  pose proof (leaf_width i d ltac:(lia) Hd) as Hw. change (2 ^ Z.of_nat 16) with 65536 in Hw.
  unfold mul_checked, add_checked. rewrite checked_ok by (unfold in_width, fleaf, K in *; change (2 ^ Z.of_nat A) with 4096 in *; lia). cbn [mbind outcome_bind].
  fold (fleaf i d). rewrite checked_ok by (unfold in_width; lia). cbn [mbind outcome_bind]. norm. run f_is. unfold climb.
  destruct (climb_loop_is fnode l tr FORS_TREE kp d (fauth (fleaf i d) <$> seq 0 A)) with (n := A) (k := 0%nat) (ti := fleaf i d) (b := 0) as (b1 & c1 & Hc);
    [done|apply fauth_len|unfold in_width; lia| | |].
  { intros m Hm. cbn [Nat.add]. by rewrite list_lookup_fmap, lookup_seq_lt by done. }
  { intros m Hm. cbn [Nat.add]. rewrite mod_2_up by done. apply bit_is_mod. }
  cbn [fnode] in Hc. run Hc. destruct (IH (S i) b1 c1 Hs Hds ltac:(lia)) as (b2 & c2 & He).
  { intros k x Hx. replace (S i + k)%nat with (i + S k)%nat by lia. by apply Hk. }
  run He. exists b2, c2. cbn [seq fmap list_fmap concat]. do 4 f_equal. unfold froot. cbn [Nat.add]. f_equal.
  unfold fleaf. rewrite Z.div_add_l by lia. rewrite Z.div_small by done. lia.
Qed.

(** A FORS signature leads to the key of its forest. *)
Lemma fors_trip md b c b' c' : length md = MD_BYTES → ∃ sig adrs,
  fors_sign t md sk_seed (adr l tr FORS_TREE kp b c) = Done sig ∧ length sig = FORS_BYTES ∧
  fors_pk_from_sig t sig md (adr l tr FORS_TREE kp b' c') = Done (H (adr l tr FORS_ROOTS kp 0 0) (concat (froot <$> seq 0 K)), adrs).
Proof.
  intros Hm. unfold fors_sign, fors_pk_from_sig. destruct (base_2b_ok K md (Z.of_nat A)) as (ds & -> & Hl & Hds); [by vm_compute|by rewrite Hm|].
  cbn [mbind outcome_bind]. rewrite fors_sign_loop_is by (done || (rewrite Hl; done)). set (sig := imap (fun k d => fpart (0 + k) d) ds).
  assert (Hsig : all_len ((A + 1) * N) sig).
  { apply Forall_lookup. intros i x. unfold sig. rewrite list_lookup_imap. intros (d & _ & ->)%fmap_Some. apply length_fpart. }
  destruct (roots_loop_is sig ds 0 b' c' Hsig Hds) as (b2 & c2 & He); [by rewrite Hl|intros k d Hk; cbn [Nat.add]; unfold sig; by rewrite list_lookup_imap, Hk|].
  eexists _, _. split_and!; [done|rewrite (length_concat_len _ _ Hsig); unfold sig; by rewrite length_imap, Hl|].
  run He. rewrite adr_get_key_pair by done. norm. run t_is. by rewrite Hl.
Qed.
End Fors.
End Trip.

(** ** The hashes answer *)
Lemma absorb_run {A} s m bytes (k : Sha256 → outcome A) (r : outcome A) : absorbed s m →
  (∀ s', absorbed s' (m ++ bytes) → k s' = r) → (s' ← Sha256.update s bytes; k s') = r.
Proof. intros Hs Hk. destruct (update_ok s m bytes Hs) as (s' & -> & Hs'). by apply Hk. Qed.
Lemma absorb_parts_run {A} s m parts (k : Sha256 → outcome A) (r : outcome A) : absorbed s m →
  (∀ s', absorbed s' (m ++ concat parts) → k s' = r) → (s' ← for_each Sha256.update parts s; k s') = r.
Proof. intros Hs Hk. destruct (feed_ok parts s m Hs) as (s' & -> & Hs'). by apply Hk. Qed.
Lemma finish_run {A} s m (k : list Z → outcome A) (r : outcome A) : absorbed s m → k (Fips.sha256 m) = r → (d ← Sha256.finish s; k d) = r.
Proof. intros Hs Hk. by rewrite (finish_ok s m Hs). Qed.
Ltac absorb := repeat first
  [ eapply absorb_run; [first [eassumption | apply absorbed_new]|intros ? ?]
  | eapply absorb_parts_run; [eassumption|intros ? ?]
  | eapply finish_run; [eassumption|] ].

(** The tweakable hash under a public seed, as the standard writes it. *)
Definition tweakable (pk_seed adrs x : list Z) : list Z := take N (Fips.sha256 (((pk_seed ++ replicate (64 - N) 0) ++ adrs) ++ x)).

Lemma length_tweakable seed adrs x : length (tweakable seed adrs x) = N.
Proof. unfold tweakable. by rewrite length_take, length_sha256. Qed.

Lemma tweak_new_is pk_seed : ∃ t, Tweak.new pk_seed = Done t ∧
  ∀ adrs parts, Tweak.hash t adrs parts = Done (tweakable pk_seed adrs (concat parts)).
Proof.
  unfold Tweak.new. destruct (update_ok _ _ pk_seed absorbed_new) as (s1 & -> & H1). cbn [mbind outcome_bind app] in *.
  destruct (update_ok _ _ (replicate (64 - N) 0) H1) as (s2 & -> & H2). cbn [mbind outcome_bind]. eexists. split; [done|].
  intros adrs parts. unfold Tweak.hash. cbn [seeded]. absorb. done.
Qed.

Lemma h_msg_is r pk_seed pk_root message : ∃ d, h_msg r pk_seed pk_root message = Done d ∧ length d = M.
Proof.
  eexists. split; [unfold h_msg; absorb; reflexivity|]. by rewrite length_take, length_sha256.
Qed.

Lemma prf_msg_is sk_prf opt_rand message : length sk_prf = N → ∃ r, prf_msg sk_prf opt_rand message = Done r ∧ length r = N.
Proof.
  intros Hl. assert (Hh : ∃ d, hmac_sha256 sk_prf opt_rand message = Done d ∧ length d = DIGEST).
  { eexists. split; [unfold hmac_sha256; rewrite Hl; cbn [Nat.ltb Nat.leb N mbind outcome_bind]; absorb; by apply finish_ok|]. apply length_sha256. }
  destruct Hh as (d & Hd & Hdl). unfold prf_msg. run Hd. eexists. split; [done|]. unfold Slh.trunc. by rewrite length_take, Hdl.
Qed.

(** ** The theorem *)
Lemma sign_verify_internal sk_seed sk_prf pk_seed message addrnd :
  length sk_seed = N → length sk_prf = N → length pk_seed = N → ∃ sk pk sig,
    keygen_internal sk_seed sk_prf pk_seed = Done (sk, pk) ∧ length pk = PUBLIC_KEY_BYTES ∧ sign_internal message sk addrnd = Done sig ∧
    length sig = SIGNATURE_BYTES ∧ verify_internal message sig pk = Done (Ok tt).
Proof.
  intros Hs Hp Hk. destruct (tweak_new_is pk_seed) as (t & Ht & Hhash). pose proof (length_tweakable pk_seed) as Hlen.
  set (root := xnode sk_seed (tweakable pk_seed) (Z.of_nat D - 1) 0 H_PRIME 0).
  assert (Hroot : length root = N) by (by apply length_xnode).
  assert (Hgen : keygen_internal sk_seed sk_prf pk_seed = Done (sk_seed ++ sk_prf ++ pk_seed ++ root, pk_seed ++ root)).
  { unfold keygen_internal. run Ht. norm. rewrite (xmss_node_is t sk_seed _ Hhash Hlen) by (vm_compute; congruence). cbn [mbind outcome_bind]. fold root.
    do 2 f_equal. rewrite app_assoc. apply drop_app_length'. by rewrite length_app, Hs, Hp. }
  exists (sk_seed ++ sk_prf ++ pk_seed ++ root), (pk_seed ++ root). unfold sign_internal, verify_internal.
  rewrite !(take_app_length' sk_seed), !(drop_app_length' sk_seed), !(take_app_length' sk_prf), !(drop_app_length' sk_prf), !(take_app_length' pk_seed), !(drop_app_length' pk_seed) by done.
  run Ht. destruct (prf_msg_is sk_prf (match addrnd with Some a => a | None => pk_seed end) message Hp) as (r & Hr & Hrl). run Hr.
  destruct (h_msg_is r pk_seed root message) as (d & Hd & Hdl). run Hd. unfold split_digest.
  set (idx_tree := Z.land (to_int (take TREE_BYTES (drop MD_BYTES d))) (2 ^ Z.of_nat (HEIGHT - HEIGHT / D) - 1)).
  set (idx_leaf := Z.land (to_int (drop TREE_BYTES (drop MD_BYTES d))) (2 ^ Z.of_nat (HEIGHT / D) - 1)).
  assert (Htree : 0 ≤ idx_tree < 2 ^ Z.of_nat (HEIGHT - HEIGHT / D)) by (apply land_ones_range; lia).
  assert (Hleaf : 0 ≤ idx_leaf < 2 ^ Z.of_nat H_PRIME) by (apply (land_ones_range _ (Z.of_nat (HEIGHT / D))); lia). norm.
  assert (Hw : in_width 32 idx_leaf) by (unfold in_width; change (2 ^ Z.of_nat H_PRIME) with 512 in Hleaf; lia).
  destruct (fors_trip t sk_seed (tweakable pk_seed) Hhash Hlen 0 idx_tree idx_leaf Hw (take MD_BYTES d) 0 0 0 0) as (sf & adrs & Hf & Hfl & Hfv); [rewrite length_take, Hdl; done|].
  run Hf. run Hfv. set (pk_fors := tweakable pk_seed _ _) in *.
  destruct (ht_trip t sk_seed (tweakable pk_seed) Hhash Hlen pk_fors idx_tree idx_leaf) as (sh & Hh & Hhl & Hhv); [apply Hlen|done|done|]. run Hh.
  exists (r ++ sf ++ sh). assert (Hsl : length (r ++ sf ++ sh) = SIGNATURE_BYTES) by (rewrite !length_app, Hrl, Hfl, Hhl; done).
  split_and!; [done|by rewrite length_app, Hk, Hroot|done|done|]. rewrite Hsl, Nat.eqb_refl. cbn [negb].
  rewrite (take_app_length' r), (drop_app_length' r), (take_app_length' sf), (drop_app_length' sf) by done.
  run Hd. fold idx_tree idx_leaf. norm. run Hfv. fold pk_fors. fold root in Hhv. by run Hhv.
Qed.

(** With the empty context the tool and the loader use. *)
Lemma sign_verify_empty sk_seed sk_prf pk_seed message random : length sk_seed = N → length sk_prf = N → length pk_seed = N → ∃ sk pk sig,
    keygen_internal sk_seed sk_prf pk_seed = Done (sk, pk) ∧ pk = drop (2 * N) sk ∧ length pk = PUBLIC_KEY_BYTES ∧
    sign message [] sk (Some random) = Done (Ok sig) ∧ length sig = SIGNATURE_BYTES ∧ verify message sig [] pk = Done (Ok tt).
Proof.
  intros Hs Hp Hk. destruct (sign_verify_internal sk_seed sk_prf pk_seed [[0; 0]; []; message] (Some random) Hs Hp Hk) as (sk & pk & sig & H1 & H0 & H2 & H3 & H4).
  exists sk, pk, sig. split; [done|]. split.
  { unfold keygen_internal in H1. destruct (Tweak.new pk_seed) as [t| |]; try done. cbn [mbind outcome_bind] in H1. destruct (xmss_node _ _ _ _ _); try done. cbn [mbind outcome_bind] in H1. congruence. }
  unfold sign, verify. rewrite !(proj2 (Z.ltb_ge 255 _)) by (cbn; lia). cbn [length]. change (Z.of_nat 0) with 0. run H2. by split_and!.
Qed.

(** A seed: [n] bytes in the standard's notation. *)
Definition is_seed (s : list Z) : Prop := length s = N.

(** C13. What is signed verifies: for a key pair made from any three seeds, [sign] answers
    for every message, every context of at most 255 bytes and with or without fresh
    randomness, its signature has the stated length, and [verify] accepts it under the
    public key; neither side panics. *)
Theorem signed_messages_verify sk_seed sk_prf pk_seed message context addrnd :
  is_seed sk_seed → is_seed sk_prf → is_seed pk_seed → (length context ≤ 255)%nat →
  ∃ sk pk sig, keygen_internal sk_seed sk_prf pk_seed = Done (sk, pk) ∧ sign message context sk addrnd = Done (Ok sig) ∧
    length sig = SIGNATURE_BYTES ∧ verify message sig context pk = Done (Ok tt).
Proof.
  intros Hs Hp Hk Hc. destruct (sign_verify_internal sk_seed sk_prf pk_seed [[0; Z.of_nat (length context)]; context; message] addrnd Hs Hp Hk) as (sk & pk & sig & H1 & _ & H2 & H3 & H4).
  exists sk, pk, sig. unfold sign, verify. rewrite (proj2 (Z.ltb_ge _ _)) by lia. run H2. by split_and!.
Qed.

Lemma signed_messages_verify_witness : ∃ sk pk sig, keygen_internal (replicate 16 1) (replicate 16 2) (replicate 16 3) = Done (sk, pk) ∧
  sign [104; 105] [] sk None = Done (Ok sig) ∧ verify [104; 105] sig [] pk = Done (Ok tt).
Proof.
  destruct (signed_messages_verify (replicate 16 1) (replicate 16 2) (replicate 16 3) [104; 105] [] None) as (sk & pk & sig & H1 & H2 & _ & H3);
    [exact eq_refl|exact eq_refl|exact eq_refl|cbn; lia|]. exists sk, pk, sig. split; [exact H1|]. split; [exact H2|exact H3].
Defined.
