(* ===== verification/SlhTotal.v ===== *)
(** * Verification answers every file

    The loader runs [verify] of Slh.v on bytes anyone may have written.  Here: whatever
    the signature, the message and the key hold, it answers; no slice is out of range,
    no subtraction goes below zero, no loop runs on. *)
From stdpp Require Import prelude numbers list.
From S2P Require Import Prelude Bytes Sha Slh SlhTrip.
Open Scope Z_scope.
Set Warnings "-clear-no-such-hyp".
Import Slh.
#[local] Opaque adr Adrs.set_layer_address Adrs.set_tree_address Adrs.set_type_and_clear Adrs.set_key_pair_address Adrs.set_word_2 Adrs.set_word_3.
#[local] Opaque Adrs.key_pair_address Adrs.tree_index Fips.sha256 Sha256.finish Sha256.update.

Lemma slice_some (bytes : list Z) from to : (from ≤ to)%nat → (to ≤ length bytes)%nat →
  ∃ v, slice bytes from to = Done v ∧ length v = (to - from)%nat.
Proof. intros. rewrite slice_ok by done. eexists. split; [done|]. rewrite length_take, length_drop. lia. Qed.

Section Total.
Context (t : Tweak) (H : Adrs → list Z → list Z).
Hypothesis hash_is : ∀ adrs parts, Tweak.hash t adrs parts = Done (H adrs (concat parts)).
Hypothesis hash_len : ∀ adrs x, length (H adrs x) = N.

Lemma ends_total l tr kp sig ds : ∀ i b c, Forall (fun d => 0 ≤ d < 16) ds → ((i + length ds) * N ≤ length sig)%nat → ∃ tmp b' c',
  ends_loop t sig i ds (adr l tr WOTS_HASH kp b c) = Done (tmp, adr l tr WOTS_HASH kp b' c').
Proof.
  induction ds as [|d ds IH]; intros i b c Hds Hl; cbn [ends_loop length] in *; [by exists [], b, c|]. apply Forall_cons in Hds as [Hd Hds]. norm.
  destruct (slice_some sig (i * N) ((i + 1) * N)) as (x & -> & Hx); [nia|nia|]. cbn [mbind outcome_bind].
  unfold sub_checked. change (W - 1) with 15. rewrite checked_ok by (unfold in_width; lia). cbn [mbind outcome_bind].
  destruct (chain_is t H hash_is l tr kp (Z.of_nat i) x d (15 - d) c) as (c1 & Hc); [unfold N in *; lia|lia..|]. run Hc.
  destruct (IH (S i) (Z.of_nat i) c1 Hds) as (tmp & b2 & c2 & He); [unfold N in *; lia|]. run He. by eexists _, b2, c2.
Qed.

Lemma wots_total l tr kp sig message b c : in_width 32 kp → length message = N → length sig = (LEN * N)%nat → ∃ x b' c',
  wots_pk_from_sig t sig message (adr l tr WOTS_HASH kp b c) = Done (x, adr l tr WOTS_HASH kp b' c') ∧ length x = N.
Proof.
  intros Hkp Hm Hs. unfold wots_pk_from_sig. destruct (wots_digits_ok message Hm) as (ds & -> & Hl & Hr). cbn [mbind outcome_bind].
  destruct (ends_total l tr kp sig ds 0 b c Hr) as (tmp & b' & c' & He); [rewrite Hl, Hs; done|]. run He. rewrite adr_get_key_pair by done. norm.
  run (t_is t H hash_is). eexists _, b', c'. split; [done|apply hash_len].
Qed.

(** The index kept in the address is odd exactly where the code subtracts one. *)
Lemma climb_total l tr kind kp index auth n : ∀ k node ti b, in_width 32 ti → length node = N → ((k + n) * N ≤ length auth)%nat →
  (∀ m, (m < n)%nat → Z.land (Z.shiftr index (Z.of_nat (k + m))) 1 = (ti / 2 ^ Z.of_nat m) mod 2) →
  ∃ x b' c', climb_loop t node index auth k n (adr l tr kind kp b ti) = Done (x, adr l tr kind kp b' c') ∧ length x = N.
Proof.
  induction n as [|n IH]; intros k node ti b Hti Hn Ha Hbit; cbn [climb_loop]; [by eexists _, _, _|].
  pose proof (Hbit 0%nat ltac:(lia)) as Hb0. rewrite Nat.add_0_r in Hb0. change (2 ^ Z.of_nat 0) with 1 in Hb0. rewrite Z.div_1_r in Hb0. norm.
  destruct (slice_some auth (k * N) ((k + 1) * N)) as (s & -> & Hs); [nia|nia|]. cbn [mbind outcome_bind]. rewrite adr_get_index, Hb0 by done.
  assert (Hnext : ∀ x, length x = N → ∃ y b' c', climb_loop t x index auth (S k) n (adr l tr kind kp (Z.of_nat k + 1) (ti / 2)) = Done (y, adr l tr kind kp b' c') ∧ length y = N).
  { intros x Hx. apply IH; [|done|nia|].
    - unfold in_width in *. split; [apply Z.div_pos; lia|]. apply Z.div_lt_upper_bound; lia.
    - intros m Hm. replace (S k + m)%nat with (k + S m)%nat by lia. rewrite Hbit, Nat2Z.inj_succ, Z.pow_succ_r by lia. by rewrite Z.div_div by lia. }
  pose proof (Z.div_mod ti 2 ltac:(lia)) as Ed. pose proof (Z.mod_pos_bound ti 2 ltac:(lia)). destruct (Z.eqb_spec (ti mod 2) 0) as [E0|E1].
  - norm. run (h_is t H hash_is). apply Hnext, hash_len.
  - unfold sub_checked. rewrite checked_ok by (unfold in_width in *; lia). norm. run (h_is t H hash_is).
    replace ((ti - 1) / 2) with (ti / 2) by (rewrite Ed at 2; replace (2 * (ti / 2) + ti mod 2 - 1) with (ti / 2 * 2) by lia; by rewrite Z.div_mul by lia).
    apply Hnext, hash_len.
Qed.

Lemma xmss_total l tr idx sig message k a b c : 0 ≤ idx < 2 ^ Z.of_nat H_PRIME → length message = N → length sig = XMSS_BYTES → ∃ x b' c',
  xmss_pk_from_sig t idx sig message (adr l tr k a b c) = Done (x, adr l tr TREE 0 b' c') ∧ length x = N.
Proof.
  intros Hi Hm Hs. assert (Hw : in_width 32 idx) by (unfold in_width; change (2 ^ Z.of_nat H_PRIME) with 512 in Hi; lia).
  unfold xmss_pk_from_sig. norm. destruct (slice_some sig 0 (LEN * N)) as (s & -> & Hsl); [lia|rewrite Hs; vm_compute; lia|].
  destruct (slice_some sig (LEN * N) (length sig)) as (au & -> & Hal); [rewrite Hs; vm_compute; lia|lia|]. cbn [mbind outcome_bind].
  destruct (wots_total l tr idx s message 0 0 Hw Hm ltac:(lia)) as (x & b1 & c1 & Hx & Hxl). run Hx. norm. unfold climb.
  apply climb_total; [done|done|rewrite Hal, Hs; done|]. intros m _. apply bit_is_mod.
Qed.

Lemma layers_total sig_ht n : ∀ j node l tree k a b c, length node = N → ((j + n) * XMSS_BYTES ≤ length sig_ht)%nat →
  ∃ x, layers_loop t sig_ht j n node tree (adr l tree k a b c) = Done x.
Proof.
  induction n as [|n IH]; intros j node l tree k a b c Hn Hl; cbn [layers_loop]; [by eexists|]. norm.
  destruct (slice_some sig_ht (j * XMSS_BYTES) ((j + 1) * XMSS_BYTES)) as (s & -> & Hs); [nia|nia|]. cbn [mbind outcome_bind].
  destruct (xmss_total (Z.of_nat j) (Z.shiftr tree (Z.of_nat H_PRIME)) (Z.land tree (2 ^ Z.of_nat H_PRIME - 1)) s node k a b c (leaf_bound tree) Hn) as (x & b' & c' & Hx & Hxl); [lia|].
  run Hx. apply IH; [done|]. replace (S j + n)%nat with (j + S n)%nat by lia. done.
Qed.

Lemma roots_total l tr kp sig ds : ∀ i b c, Forall (fun d => 0 ≤ d < 2 ^ Z.of_nat A) ds → (i + length ds ≤ K)%nat → ((i + length ds) * ((A + 1) * N) ≤ length sig)%nat → ∃ x b' c',
  roots_loop t sig i ds (adr l tr FORS_TREE kp b c) = Done (x, adr l tr FORS_TREE kp b' c').
Proof.
  induction ds as [|d ds IH]; intros i b c Hds Hi Hl; cbn [roots_loop length] in *; [by eexists _, _, _|]. apply Forall_cons in Hds as [Hd Hds].
  rewrite <- !Nat.mul_assoc. destruct (slice_some sig (i * ((A + 1) * N)) ((i + 1) * ((A + 1) * N))) as (tree & -> & Ht); [nia|nia|]. cbn [mbind outcome_bind].
  assert (Htl : length tree = (13 * 16)%nat) by (unfold A, N in *; lia).
  destruct (slice_some tree 0 N) as (sk & -> & _); [lia|rewrite Htl; unfold N; lia|].
  destruct (slice_some tree N (length tree)) as (au & -> & Hal); [rewrite Htl; unfold N; lia|lia|]. cbn [mbind outcome_bind]. norm.
  pose proof (leaf_width i d ltac:(lia) Hd) as Hw. change (2 ^ Z.of_nat 16) with 65536 in Hw.
  unfold mul_checked, add_checked. rewrite checked_ok by (unfold in_width, fleaf, K in *; change (2 ^ Z.of_nat A) with 4096 in *; lia). cbn [mbind outcome_bind].
  fold (fleaf i d). rewrite checked_ok by (unfold in_width; lia). cbn [mbind outcome_bind]. norm. run (f_is t H hash_is). unfold climb.
  match goal with |- context [climb_loop t ?x] =>
    destruct (climb_total l tr FORS_TREE kp d au A 0 x (fleaf i d) 0) as (y & b1 & c1 & Hy & _) end;
    [unfold in_width; lia|apply hash_len|rewrite Hal, Htl; vm_compute; lia|intros m Hm; cbn [Nat.add]; rewrite mod_2_up by done; apply bit_is_mod|].
  run Hy. destruct (IH (S i) b1 c1 Hds) as (z & b2 & c2 & Hz); [lia|unfold A, N in *; lia|]. run Hz. by eexists _, b2, c2.
Qed.
End Total.

Lemma verify_answers_all message signature context public_key : length public_key = PUBLIC_KEY_BYTES →
  ∃ r, verify message signature context public_key = Done r.
Proof.
  intros Hpk. unfold verify. destruct (255 <? _); [by eexists|]. unfold verify_internal. destruct (Nat.eqb_spec (length signature) SIGNATURE_BYTES) as [Hs|]; [|by eexists].
  cbn [negb]. destruct (tweak_new_is (take N public_key)) as (t & Ht & Hhash). pose proof (length_tweakable (take N public_key)) as Hlen. run Ht.
  match goal with |- context [h_msg ?r ?s ?o ?m] => destruct (h_msg_is r s o m) as (d & Hd & Hdl) end. run Hd. unfold split_digest.
  set (idx_tree := Z.land (to_int (take TREE_BYTES (drop MD_BYTES d))) (2 ^ Z.of_nat (HEIGHT - HEIGHT / D) - 1)).
  set (idx_leaf := Z.land (to_int (drop TREE_BYTES (drop MD_BYTES d))) (2 ^ Z.of_nat (HEIGHT / D) - 1)).
  assert (Hleaf : 0 ≤ idx_leaf < 2 ^ Z.of_nat H_PRIME) by (apply (land_ones_range _ (Z.of_nat (HEIGHT / D))); lia). norm.
  assert (Hw : in_width 32 idx_leaf) by (unfold in_width; change (2 ^ Z.of_nat H_PRIME) with 512 in Hleaf; lia).
  unfold fors_pk_from_sig. destruct (base_2b_ok K (take MD_BYTES d) (Z.of_nat A)) as (ds & -> & Hl & Hds); [by vm_compute|rewrite length_take, Hdl; by vm_compute|].
  cbn [mbind outcome_bind]. assert (Hrest : length (drop N signature) = (SIGNATURE_BYTES - N)%nat) by (rewrite length_drop, Hs; done).
  destruct (roots_total t (tweakable (take N public_key)) Hhash Hlen 0 idx_tree idx_leaf (take FORS_BYTES (drop N signature)) ds 0 0 0 Hds) as (x & b1 & c1 & Hx);
    [rewrite Hl; done|rewrite Hl, length_take, Hrest; vm_compute; lia|]. run Hx. rewrite adr_get_key_pair by done. norm.
  run (t_is t _ Hhash). unfold ht_verify. norm. assert (Hht : length (drop FORS_BYTES (drop N signature)) = (D * XMSS_BYTES)%nat) by (rewrite length_drop, Hrest; done).
  destruct (slice_some (drop FORS_BYTES (drop N signature)) 0 XMSS_BYTES) as (s & -> & Hsl); [lia|rewrite Hht; vm_compute; lia|]. cbn [mbind outcome_bind].
  match goal with |- context [xmss_pk_from_sig t idx_leaf s ?m _] =>
    destruct (xmss_total t _ Hhash Hlen 0 idx_tree idx_leaf s m 0 0 0 0 Hleaf) as (y & b2 & c2 & Hy & Hyl) end; [apply Hlen|lia|]. run Hy.
  destruct (layers_total t _ Hhash Hlen (drop FORS_BYTES (drop N signature)) (D - 1) 1 y 0 idx_tree TREE 0 b2 c2 Hyl) as (z & Hz); [rewrite Hht; done|]. run Hz. by eexists.
Qed.

(** Verification is total: on any message, signature, context and key of the right
    size, whatever bytes they hold, it accepts or refuses and never panics. *)
Theorem verify_answers message signature context public_key : length public_key = PUBLIC_KEY_BYTES →
  ∃ r, verify message signature context public_key = Done r.
Proof. apply verify_answers_all. Qed.

Lemma verify_answers_witness : ∃ r, verify [1] (replicate SIGNATURE_BYTES 7) [] (replicate 32 9) = Done r.
Proof. apply verify_answers. reflexivity. Defined.
