(* ===== verification/BootSig.v ===== *)
(** * boot.sig

    The statement that names a boot set and its check (src/bootsig/src/statement.rs),
    and the making of the file by the signing tool (src/bootsig/src/bin/bootsign.rs),
    over the signature of Slh.v: what the check accepts, that it answers whatever the
    file holds, and that it accepts what the tool made. *)
From stdpp Require Import prelude numbers list.
From S2P Require Import Prelude Bytes Sha Slh SlhTrip SlhTotal.
Open Scope Z_scope.
Set Warnings "-clear-no-such-hyp".

Module BootSig.
Definition STATEMENT_BYTES : nat := 128.
Definition BOOT_SIG_BYTES : nat := STATEMENT_BYTES + Slh.SIGNATURE_BYTES.
(** [*b"bhaskix boot v1\0"]. *)
Definition MAGIC : list Z := [0x62; 0x68; 0x61; 0x73; 0x6b; 0x69; 0x78; 0x20; 0x62; 0x6f; 0x6f; 0x74; 0x20; 0x76; 0x31; 0].
Definition ALGORITHM : Z := 1.

Definition key_id (public_key : list Z) : outcome (list Z) := d ← Sha256.digest public_key; Done (take 8 d).

Record Digests : Type := MkDigests {
  kernel : list Z;
  initrd : list Z;
  boot_conf : list Z
}.

Inductive Refusal : Type :=
| WrongSize
| NotAStatement
| UnknownAlgorithm (algorithm : Z)
| RolledBack (version floor : Z)
| KernelDiffers
| InitrdDiffers
| BootConfDiffers
| UnknownKey (id : list Z)
| BadSignature.

Record BootSig : Type := MkBootSig {
  statement : list Z;
  signature : list Z
}.

Definition word (self : BootSig) (at' : nat) : outcome Z := w ← slice (statement self) at' (at' + 4); Done (from_le w).
Definition digest_at (self : BootSig) (at' : nat) : outcome (list Z) := slice (statement self) at' (at' + DIGEST).
Definition security_version (self : BootSig) : outcome Z := word self 20.
Definition named_key (self : BootSig) : outcome (list Z) := slice (statement self) 24 32.  (* [BootSig::key_id] *)

Definition parse (bytes : list Z) : outcome (result BootSig Refusal) :=
  if negb (length bytes =? BOOT_SIG_BYTES)%nat then Done (Err WrongSize)
  else
    let sig := MkBootSig (take STATEMENT_BYTES bytes) (drop STATEMENT_BYTES bytes) in
    magic ← slice (statement sig) 0 16;
    if negb (bool_decide (magic = MAGIC)) then Done (Err NotAStatement)
    else
      algorithm ← word sig 16;
      Done (if algorithm =? ALGORITHM then Ok sig else Err (UnknownAlgorithm algorithm)).

(** The function [statement]. *)
Definition make_statement (id : list Z) (digests : Digests) (version : Z) : outcome (list Z) :=
  bytes ← put_at (replicate STATEMENT_BYTES 0) 0 MAGIC;
  bytes ← put_at bytes 16 (to_le 4 ALGORITHM);
  bytes ← put_at bytes 20 (to_le 4 version);
  bytes ← put_at bytes 24 id;
  bytes ← put_at bytes 32 (kernel digests);
  bytes ← put_at bytes 64 (initrd digests);
  put_at bytes 96 (boot_conf digests).

Record Verified : Type := MkVerified { vkey_id : list Z; vversion : Z }.

(** [keys.iter().find(|key| key_id(key) == named)]. *)
Fixpoint find_key (keys : list (list Z)) (named : list Z) : outcome (option (list Z)) :=
  match keys with
  | [] => Done None
  | key :: keys' =>
      id ← key_id key;
      if bool_decide (id = named) then Done (Some key) else find_key keys' named
  end.

Definition check (boot_sig : list Z) (keys : list (list Z)) (held : Digests) (floor : Z) : outcome (result Verified Refusal) :=
  r ← parse boot_sig;
  match r with
  | Err refusal => Done (Err refusal)
  | Ok sig =>
      d ← digest_at sig 32;
      if negb (bool_decide (d = kernel held)) then Done (Err KernelDiffers)
      else
        d ← digest_at sig 64;
        if negb (bool_decide (d = initrd held)) then Done (Err InitrdDiffers)
        else
          d ← digest_at sig 96;
          if negb (bool_decide (d = boot_conf held)) then Done (Err BootConfDiffers)
          else
            named ← named_key sig;
            k ← find_key keys named;
            match k with
            | None => Done (Err (UnknownKey named))
            | Some key =>
                v ← Slh.verify (statement sig) (signature sig) [] key;
                match v with
                | Err _ => Done (Err BadSignature)
                | Ok _ =>
                    version ← security_version sig;
                    Done (if version <? floor then Err (RolledBack version floor) else Ok (MkVerified named version))
                end
            end
  end.

(** The tool: the statement and its signature, checked before it is written; [None] is
    its refusal. *)
Definition bootsign (sk : list Z) (digests : Digests) (version : Z) (random : list Z) : outcome (option (list Z)) :=
  let pk := drop (2 * Slh.N) sk in
  id ← key_id pk;
  stmt ← make_statement id digests version;
  s ← Slh.sign stmt [] sk (Some random);
  match s with
  | Err _ => Done None
  | Ok signature =>
      let file := stmt ++ signature in
      c ← check file [pk] digests 0;
      Done (match c with Ok _ => Some file | Err _ => None end)
  end.
End BootSig.
Import BootSig.
#[local] Opaque Slh.verify Slh.sign Sha256.digest.

(** ** What the check accepts *)
Lemma key_id_is key : key_id key = Done (take 8 (Fips.sha256 key)).
Proof. unfold key_id. by rewrite digest_ok. Qed.

(** The fields of a file, by their offsets. *)
Definition field (bytes : list Z) (at' n : nat) : list Z := take n (drop at' bytes).

(** The key the check takes: the first with the name. *)
Inductive first_key (named : list Z) : list (list Z) → list Z → Prop :=
| first_here key keys : take 8 (Fips.sha256 key) = named → first_key named (key :: keys) key
| first_later key keys found : take 8 (Fips.sha256 key) ≠ named → first_key named keys found → first_key named (key :: keys) found.

Lemma find_key_is keys named : ∃ k, find_key keys named = Done k ∧
  match k with Some key => first_key named keys key | None => ∀ key, ¬ first_key named keys key end.
Proof.
  induction keys as [|key keys (k & Hk & Hs)]; cbn [find_key]; [exists None; split; [done|]; by inversion 1|]. rewrite key_id_is. cbn [mbind outcome_bind].
  destruct (bool_decide_reflect (take 8 (Fips.sha256 key) = named)) as [E|E]; [exists (Some key); split; [done|by constructor]|]. exists k. split; [done|].
  destruct k as [key'|]; [by constructor|]. intros key'. inversion 1; subst; [done|by eapply Hs].
Qed.

Lemma first_key_unique named keys k k' : first_key named keys k → first_key named keys k' → k = k'.
Proof. induction 1; inversion 1; subst; try done. auto. Qed.

Lemma first_key_in named keys k : first_key named keys k → k ∈ keys.
Proof. induction 1; [left|right; done]. Qed.

(** A file the check accepts: its size, magic and algorithm, the three digests held, and
    a signature of its first 128 bytes under the key it names, with a version that is not
    below the floor. *)
Record acceptable (bytes : list Z) (keys : list (list Z)) (held : Digests) (floor : Z) (key : list Z) : Prop := {
  ac_size : length bytes = BOOT_SIG_BYTES;
  ac_magic : field bytes 0 16 = MAGIC;
  ac_algorithm : from_le (field bytes 16 4) = ALGORITHM;
  ac_kernel : field bytes 32 32 = kernel held;
  ac_initrd : field bytes 64 32 = initrd held;
  ac_conf : field bytes 96 32 = boot_conf held;
  ac_key : first_key (field bytes 24 8) keys key;
  ac_signature : Slh.verify (field bytes 0 128) (drop 128 bytes) [] key = Done (Ok tt);
  ac_version : floor ≤ from_le (field bytes 20 4)
}.

Lemma statement_field bytes a n : length bytes = BOOT_SIG_BYTES → (a + n ≤ 128)%nat →
  slice (take STATEMENT_BYTES bytes) a (a + n) = Done (field bytes a n).
Proof.
  intros Hl Ha. unfold STATEMENT_BYTES, BOOT_SIG_BYTES in *. rewrite slice_ok; [|lia|rewrite length_take; unfold STATEMENT_BYTES in Hl; lia]. unfold field. f_equal.
  replace (a + n - a)%nat with n by lia. rewrite !take_drop_commute, take_take, Nat.min_l by lia. done.
Qed.

(** A refusal: the answer is no acceptance, and nothing acceptable fails the check at
    hand. *)
Ltac refused := eexists; split; [done|]; intros ?; split; [done|]; intros (key & [] & _).

Lemma check_is bytes keys held floor : Forall (fun key => length key = Slh.PUBLIC_KEY_BYTES) keys →
  ∃ r, check bytes keys held floor = Done r ∧
    ∀ v, r = Ok v ↔ ∃ key, acceptable bytes keys held floor key ∧ v = MkVerified (field bytes 24 8) (from_le (field bytes 20 4)).
Proof.
  intros Hkeys. unfold check, parse. destruct (Nat.eqb_spec (length bytes) BOOT_SIG_BYTES) as [Hl|Hl]; cbn [negb mbind outcome_bind].
  2: by refused.
  unfold word, digest_at, named_key, security_version, word, DIGEST. cbn [statement signature].
  assert (Hf : ∀ a b, (a ≤ b)%nat → (b ≤ 128)%nat → slice (take STATEMENT_BYTES bytes) a b = Done (field bytes a (b - a))).
  { intros a b Hab Hb. replace b with (a + (b - a))%nat at 1 by lia. apply statement_field; [done|lia]. }
  rewrite (Hf 0%nat 16%nat) by lia. cbn [mbind outcome_bind Nat.sub].
  destruct (bool_decide_reflect (field bytes 0 16 = MAGIC)) as [Hm|Hm]; cbn [negb mbind outcome_bind].
  2: by refused.
  rewrite (Hf 16%nat (16 + 4)%nat) by lia. cbn [mbind outcome_bind Nat.sub Nat.add].
  destruct (Z.eqb_spec (from_le (field bytes 16 4)) ALGORITHM) as [Ha|Ha].
  2: by refused.
  cbn [statement]. rewrite !Hf by lia. cbn [mbind outcome_bind Nat.sub Nat.add].
  destruct (bool_decide_reflect (field bytes 32 32 = kernel held)) as [Hk|Hk]; cbn [negb].
  2: by refused.
  destruct (bool_decide_reflect (field bytes 64 32 = initrd held)) as [Hi|Hi]; cbn [negb].
  2: by refused.
  destruct (bool_decide_reflect (field bytes 96 32 = boot_conf held)) as [Hc|Hc]; cbn [negb].
  2: by refused.
  destruct (find_key_is keys (field bytes 24 8)) as (k & -> & Hfk). cbn [mbind outcome_bind]. destruct k as [key|].
  2: { refused. by destruct (Hfk key). }
  destruct (verify_answers_all (take STATEMENT_BYTES bytes) (drop STATEMENT_BYTES bytes) [] key) as (w & Hw); [rewrite Forall_forall in Hkeys; apply Hkeys; by eapply first_key_in|].
  cbn [signature]. rewrite Hw. cbn [mbind outcome_bind]. destruct w as [[]|e].
  2: { eexists. split; [done|]. intros v. split; [done|]. intros (key' & [] & _). unfold field in *. rewrite drop_0 in *. assert (key' = key) as -> by (by eapply first_key_unique). change STATEMENT_BYTES with 128%nat in Hw. congruence. }
  destruct (Z.ltb_spec (from_le (field bytes 20 4)) floor) as [Hv|Hv]; eexists; (split; [done|]); intros v; split; try done.
  - intros (key' & [] & _). lia.
  - intros [= <-]. exists key. split; [|done]. by split.
  - by intros (key' & _ & ->).
Qed.

(** C14. The check of boot.sig is total and exact: whatever the file holds it answers, and it
    accepts exactly the files of the right size, magic and algorithm that name the three
    digests held, whose signature verifies under the first key held with the id they name,
    and whose version is not below the floor; what it then reports is the id and version of
    the signed statement. *)
Theorem check_exact bytes keys held floor : Forall (fun key => length key = Slh.PUBLIC_KEY_BYTES) keys →
  ∃ r, check bytes keys held floor = Done r ∧
    ∀ v, r = Ok v ↔ ∃ key, acceptable bytes keys held floor key ∧ v = MkVerified (field bytes 24 8) (from_le (field bytes 20 4)).
Proof. apply check_is. Qed.

Lemma check_exact_witness : ∃ r, check (replicate 100 0) [replicate 32 7] (MkDigests [] [] []) 3 = Done r ∧ ¬ ∃ v, r = Ok v.
Proof.
  destruct (check_exact (replicate 100 0) [replicate 32 7] (MkDigests [] [] []) 3) as (r & Hr & Hx); [by repeat constructor|].
  exists r. split; [exact Hr|]. intros (v & E). apply Hx in E as (key & Ha & _). pose proof (ac_size _ _ _ _ _ Ha) as E. vm_compute in E. discriminate E.
Defined.

(** ** What the tool makes *)
Record digests_ok (d : Digests) : Prop := {
  dg_kernel : length (kernel d) = DIGEST;
  dg_initrd : length (initrd d) = DIGEST;
  dg_conf : length (boot_conf d) = DIGEST
}.

Lemma statement_is id d v : length id = 8%nat → digests_ok d →
  make_statement id d v = Done (MAGIC ++ to_le 4 ALGORITHM ++ to_le 4 v ++ id ++ kernel d ++ initrd d ++ boot_conf d).
Proof.
  intros Hi [Hk Hn Hc]. unfold make_statement, DIGEST in *.
  destruct id as [|i0 [|i1 [|i2 [|i3 [|i4 [|i5 [|i6 [|i7 [|]]]]]]]]]; try discriminate Hi. clear Hi.
  rewrite put_at_ok by (by vm_compute; lia). cbn [mbind outcome_bind]. rewrite put_at_ok by (vm_compute; lia). cbn [mbind outcome_bind].
  rewrite put_at_ok by (vm_compute; lia). cbn [mbind outcome_bind]. rewrite put_at_ok by (vm_compute; lia). cbn [mbind outcome_bind].
  set (pre := MAGIC ++ to_le 4 ALGORITHM ++ to_le 4 v ++ [i0; i1; i2; i3; i4; i5; i6; i7]).
  match goal with |- context [put_at ?x 32 _] => replace x with (pre ++ replicate 96 0) by reflexivity end.
  assert (Hpre : length pre = 32%nat) by reflexivity.
  rewrite put_at_ok by (rewrite length_app, length_replicate, Hpre, Hk; lia). cbn [mbind outcome_bind].
  assert (E1 : splice (pre ++ replicate 96 0) 32 (kernel d) = pre ++ kernel d ++ replicate 64 0).
  { unfold splice. rewrite take_app_length' by done. do 2 f_equal. rewrite Hk. rewrite drop_app_ge by (rewrite Hpre; lia). rewrite Hpre, drop_replicate. done. }
  rewrite E1. rewrite put_at_ok by (rewrite !length_app, length_replicate, Hpre, Hk, Hn; lia). cbn [mbind outcome_bind].
  assert (E2 : splice (pre ++ kernel d ++ replicate 64 0) 64 (initrd d) = pre ++ kernel d ++ initrd d ++ replicate 32 0).
  { unfold splice. rewrite (app_assoc pre). rewrite (take_app_length' (pre ++ kernel d)) by (by rewrite length_app, Hpre, Hk). rewrite <- app_assoc. do 3 f_equal. rewrite Hn.
    rewrite drop_app_ge by (rewrite length_app, Hpre, Hk; lia). rewrite length_app, Hpre, Hk, drop_replicate. done. }
  rewrite E2. rewrite put_at_ok by (rewrite !length_app, length_replicate, Hpre, Hk, Hn, Hc; lia). f_equal.
  unfold splice. rewrite (app_assoc pre), (app_assoc (pre ++ kernel d)).
  rewrite (take_app_length' ((pre ++ kernel d) ++ initrd d)) by (by rewrite !length_app, Hpre, Hk, Hn).
  rewrite drop_ge by (rewrite !length_app, length_replicate, Hpre, Hk, Hn, Hc; lia). rewrite app_nil_r. unfold pre. by rewrite <- !app_assoc.
Qed.

(** The file the tool makes is accepted wherever its key is found and its version
    reaches the floor. *)
Lemma bootsign_accepted sk_seed sk_prf pk_seed d v random pk sk :
  length sk_seed = Slh.N → length sk_prf = Slh.N → length pk_seed = Slh.N → digests_ok d → in_width 32 v →
  Slh.keygen_internal sk_seed sk_prf pk_seed = Done (sk, pk) →
  length pk = Slh.PUBLIC_KEY_BYTES ∧ ∃ file, bootsign sk d v random = Done (Some file) ∧ length file = BOOT_SIG_BYTES ∧
    ∀ keys floor, Forall (fun key => length key = Slh.PUBLIC_KEY_BYTES) keys → first_key (take 8 (Fips.sha256 pk)) keys pk → floor ≤ v →
      check file keys d floor = Done (Ok (MkVerified (take 8 (Fips.sha256 pk)) v)).
Proof.
  intros H1 H2 H3 Hd Hv Hgen. set (id := take 8 (Fips.sha256 pk)) in *.
  assert (Hid : length id = 8%nat) by (unfold id; rewrite length_take, length_sha256; done). destruct Hd as [Hk Hn Hc].
  set (stmt := MAGIC ++ to_le 4 ALGORITHM ++ to_le 4 v ++ id ++ kernel d ++ initrd d ++ boot_conf d).
  assert (Hpk : pk = drop (2 * Slh.N) sk ∧ length pk = Slh.PUBLIC_KEY_BYTES ∧ ∃ sig, Slh.sign stmt [] sk (Some random) = Done (Ok sig) ∧ length sig = Slh.SIGNATURE_BYTES ∧ Slh.verify stmt sig [] pk = Done (Ok tt)).
  { destruct (sign_verify_empty sk_seed sk_prf pk_seed stmt random H1 H2 H3) as (sk' & pk' & sig & Hg & Hp & Hl & Hs & Hsl & Hver). 
    rewrite Hgen in Hg. injection Hg as <- <-. split_and!; [done|done|]. by exists sig. }
  destruct Hpk as (Epk & Hpkl & sig & Hsign & Hsl & Hver). unfold bootsign. rewrite <- Epk, key_id_is. cbn [mbind outcome_bind]. fold id.
  rewrite statement_is by done. cbn [mbind outcome_bind]. fold stmt. rewrite Hsign. cbn [mbind outcome_bind].
  assert (Hlen : length stmt = 128%nat) by (unfold stmt; rewrite !length_app, !length_to_le, Hid, Hk, Hn, Hc; done).
  assert (Hacc : ∀ ks f, Forall (fun key => length key = Slh.PUBLIC_KEY_BYTES) ks → first_key id ks pk → f ≤ v → check (stmt ++ sig) ks d f = Done (Ok (MkVerified id v))).
  { intros ks f Hks Hfk Hf. destruct (check_is (stmt ++ sig) ks d f Hks) as (r & -> & Hr). f_equal. unfold id.
    assert (Hfield : ∀ a n pre mid post, stmt = pre ++ mid ++ post → length pre = a → length mid = n → field (stmt ++ sig) a n = mid).
    { intros a n pre mid post -> <- <-. unfold field. rewrite <- !app_assoc, drop_app_length. apply take_app_length. }
    assert (F24 : field (stmt ++ sig) 24 8 = id) by (eapply (Hfield _ _ (MAGIC ++ to_le 4 ALGORITHM ++ to_le 4 v)); [unfold stmt; by rewrite <- !app_assoc|done|done]).
    assert (F20 : field (stmt ++ sig) 20 4 = to_le 4 v) by (eapply (Hfield _ _ (MAGIC ++ to_le 4 ALGORITHM)); [unfold stmt; by rewrite <- !app_assoc|done|apply length_to_le]).
    assert (Ev : from_le (to_le 4 v) = v) by (apply from_to_le; exact Hv).
    apply Hr. exists pk. rewrite F24, F20, Ev. split; [|done]. split.
    - rewrite length_app, Hlen, Hsl. done.
    - by apply (Hfield _ _ []  _ (to_le 4 ALGORITHM ++ to_le 4 v ++ id ++ kernel d ++ initrd d ++ boot_conf d)).
    - rewrite (Hfield 16%nat 4%nat MAGIC (to_le 4 ALGORITHM) (to_le 4 v ++ id ++ kernel d ++ initrd d ++ boot_conf d)); [by vm_compute|done|done|done].
    - eapply (Hfield _ _ (MAGIC ++ to_le 4 ALGORITHM ++ to_le 4 v ++ id)); [unfold stmt; by rewrite <- !app_assoc|by rewrite !length_app, !length_to_le, Hid|done].
    - eapply (Hfield _ _ (MAGIC ++ to_le 4 ALGORITHM ++ to_le 4 v ++ id ++ kernel d)); [unfold stmt; by rewrite <- !app_assoc|by rewrite !length_app, !length_to_le, Hid, Hk|done].
    - eapply (Hfield _ _ (MAGIC ++ to_le 4 ALGORITHM ++ to_le 4 v ++ id ++ kernel d ++ initrd d) _ []); [unfold stmt; by rewrite app_nil_r, <- !app_assoc|by rewrite !length_app, !length_to_le, Hid, Hk, Hn|done].
    - by rewrite F24.
    - unfold field. rewrite drop_0, take_app_length', drop_app_length' by done. exact Hver.
    - by rewrite F20, Ev. }
  rewrite (Hacc [pk] 0); [|by repeat constructor|by constructor|unfold in_width in Hv; lia]. cbn [mbind outcome_bind]. split; [exact Hpkl|]. eexists. split_and!; [done|rewrite length_app, Hlen, Hsl; done|exact Hacc].
Qed.

(** What the signing tool makes, the loader accepts: for a key pair from any three
    seeds, three digests and a version, [bootsign] writes a file, and the check accepts it
    under any list of keys in which the tool's comes first of its id, for every floor the
    version reaches. *)
Theorem signed_sets_are_accepted sk_seed sk_prf pk_seed d v random keys pk sk floor :
  length sk_seed = Slh.N → length sk_prf = Slh.N → length pk_seed = Slh.N → digests_ok d → in_width 32 v →
  Slh.keygen_internal sk_seed sk_prf pk_seed = Done (sk, pk) →
  Forall (fun key => length key = Slh.PUBLIC_KEY_BYTES) keys → first_key (take 8 (Fips.sha256 pk)) keys pk → floor ≤ v →
  ∃ file, bootsign sk d v random = Done (Some file) ∧ check file keys d floor = Done (Ok (MkVerified (take 8 (Fips.sha256 pk)) v)).
Proof.
  intros H1 H2 H3 Hd Hv Hgen Hkeys Hfirst Hfloor. destruct (bootsign_accepted _ _ _ d v random _ _ H1 H2 H3 Hd Hv Hgen) as (_ & file & Hf & _ & Hc).
  exists file. split; [exact Hf|]. by apply Hc.
Qed.

Lemma signed_sets_are_accepted_witness : ∃ sk pk file, Slh.keygen_internal (replicate 16 1) (replicate 16 2) (replicate 16 3) = Done (sk, pk) ∧
  bootsign sk (MkDigests (replicate 32 4) (replicate 32 5) (replicate 32 6)) 9 (replicate 16 8) = Done (Some file) ∧
  check file [pk] (MkDigests (replicate 32 4) (replicate 32 5) (replicate 32 6)) 7 = Done (Ok (MkVerified (take 8 (Fips.sha256 pk)) 9)).
Proof.
  destruct (sign_verify_empty (replicate 16 1) (replicate 16 2) (replicate 16 3) [] []) as (sk & pk & sig & Hg & _ & Hl & _); [reflexivity|reflexivity|reflexivity|].
  destruct (signed_sets_are_accepted (replicate 16 1) (replicate 16 2) (replicate 16 3) (MkDigests (replicate 32 4) (replicate 32 5) (replicate 32 6)) 9 (replicate 16 8) [pk] pk sk 7)
    as (file & Hf & Hc); [reflexivity|reflexivity|reflexivity|split; reflexivity|vm_compute; split; congruence|exact Hg|constructor; [exact Hl|constructor]|constructor; reflexivity|lia|].
  exists sk, pk, file. split; [exact Hg|]. split; [exact Hf|exact Hc].
Defined.
