(* ===== verification/Slots.v ===== *)
(** * The slot disk

    A GPT disk with a record and two slots, each slot a boot set (src/slotdisk/src/lib.rs):
    the checksum, the parsers of the partition table, the record and the slot header, and
    the decision which slot to boot; and the reads the loader makes of it
    (src/boot/bhaskixboot/src/slots.rs) through the firmware's Block I/O, which is a
    parameter with its documented behaviour as laws.  The theorems are in SlotsLaws.v. *)
From stdpp Require Import prelude numbers list gmap.
From S2P Require Import Prelude Bytes Sha Slh.
Open Scope Z_scope.
Set Warnings "-clear-no-such-hyp".

Abbreviation Guid := (list Z) (only parsing).
Definition RECORD_TYPE : Guid := [0xe0; 0xac; 0x9c; 0x96; 0x9f; 0x87; 0xd7; 0x45; 0x83; 0x93; 0x08; 0xb4; 0xce; 0x7c; 0xbf; 0x36].
Definition SLOT_A_TYPE : Guid := [0x16; 0x69; 0x2f; 0xce; 0xfe; 0xf0; 0xc5; 0x4d; 0x96; 0x83; 0xce; 0x83; 0x9d; 0x80; 0x0a; 0x72].
Definition SLOT_B_TYPE : Guid := [0x91; 0x64; 0x9e; 0x66; 0x24; 0xb8; 0x83; 0x49; 0xaf; 0x23; 0xa7; 0xc5; 0xd7; 0xf6; 0x94; 0x82].

(** [div_ceil] of wide integers. *)
Definition zdiv_ceil (a b : Z) : Z := (a + b - 1) / b.

Module Slots.
Definition BLOCK : nat := 512.
Definition MAX_ENTRIES : Z := 128.

(** ** CRC-32 *)
Definition crc_bit (crc : Z) : Z :=
  let mask := Prelude.trunc 32 (- Z.land crc 1) in
  Z.lxor (Z.shiftr crc 1) (Z.land 0xEDB88320 mask).
Definition crc_byte (crc byte : Z) : Z := Nat.iter 8 crc_bit (Z.lxor crc byte).
Definition crc32 (bytes : list Z) : Z := bit_not (foldl crc_byte 0xFFFFFFFF bytes).

Definition word32 (bytes : list Z) (at' : nat) : outcome Z := w ← slice bytes at' (at' + 4); Done (from_le w).
Definition word64 (bytes : list Z) (at' : nat) : outcome Z := w ← slice bytes at' (at' + 8); Done (from_le w).

Inductive Refusal : Type :=
| Short
| NotGpt
| Shape
| HeaderCrc
| EntriesCrc
| Missing
| Range
| RecordBad  (* [Refusal::Record] *)
| SetHeaderBad  (* [Refusal::SetHeader] *).

#[global] Instance Refusal_eq_dec : EqDecision Refusal.
Proof. solve_decision. Defined.

(** ** The partition table *)
Record Header : Type := MkHeader {
  first_usable : Z;
  last_usable : Z;
  entries_at : Z;
  entries : Z;
  entry_size : Z;
  entries_crc : Z
}.

Definition EFI_PART : list Z := [0x45; 0x46; 0x49; 0x20; 0x50; 0x41; 0x52; 0x54].

Module Header.
Definition parse (block : list Z) : outcome (result Header Refusal) :=
  if (length block <? BLOCK)%nat then Done (Err Short)
  else
    magic ← slice block 0 8;
    if negb (bool_decide (magic = EFI_PART)) then Done (Err NotGpt)
    else
      size ← word32 block 12;
      if negb ((92 <=? size) && (size <=? 512)) then Done (Err Shape)
      else
        copy ← slice block 0 (Z.to_nat size);
        let copy := splice copy 16 [0; 0; 0; 0] in
        crc ← word32 block 16;
        if negb (crc32 copy =? crc) then Done (Err HeaderCrc)
        else
          first ← word64 block 40;
          last ← word64 block 48;
          at' ← word64 block 72;
          n ← word32 block 80;
          es ← word32 block 84;
          ec ← word32 block 88;
          my_lba ← word64 block 24;
          if negb (my_lba =? 1) || (n =? 0) || (MAX_ENTRIES <? n) || (es <? 128) || (512 <? es) || negb (es mod 8 =? 0) || (last <? first)
          then Done (Err Shape)
          else Done (Ok (MkHeader first last at' n es ec)).

Definition entries_bytes (self : Header) : outcome Z := mul_checked 64 (entries self) (entry_size self).
Definition entries_blocks (self : Header) : outcome Z :=
  bytes ← entries_bytes self; Done (zdiv_ceil bytes 512).
End Header.

Record Partition : Type := MkPartition { first : Z; last : Z }.

Module Partition.
(** In the loader's build, whose profile has no overflow checks. *)
Definition bytes (self : Partition) : Z :=
  Prelude.trunc 64 (wrapping_add 64 (wrapping_sub 64 (last self) (first self)) 1 * 512).
End Partition.

Inductive Slot : Type := A | B.
#[global] Instance Slot_eq_dec : EqDecision Slot.
Proof. solve_decision. Defined.
#[global] Instance Partition_eq_dec : EqDecision Partition.
Proof. solve_decision. Defined.

Record Layout : Type := MkLayout { record : Partition; slot_a : Partition; slot_b : Partition }.
#[global] Instance Layout_eq_dec : EqDecision Layout.
Proof. solve_decision. Defined.

(** [chunks] of [size] bytes. *)
Fixpoint chunks (fuel size : nat) (bytes : list Z) : list (list Z) :=
  match fuel, bytes with
  | S fuel', _ :: _ => take size bytes :: chunks fuel' size (drop size bytes)
  | _, _ => []
  end.

Module Layout.
Definition which (kind : Guid) : option nat :=
  if bool_decide (kind = RECORD_TYPE) then Some 0%nat
  else if bool_decide (kind = SLOT_A_TYPE) then Some 1%nat
  else if bool_decide (kind = SLOT_B_TYPE) then Some 2%nat
  else None.

Fixpoint scan (header : Header) (es : list (list Z)) (found : list (option Partition)) : outcome (result (list (option Partition)) Refusal) :=
  match es with
  | [] => Done (Ok found)
  | entry :: es' =>
      kind ← slice entry 0 16;
      match which kind with
      | None => scan header es' found
      | Some w =>
          match found !!! w with
          | Some _ => Done (Err Missing)
          | None =>
              first ← word64 entry 32;
              last ← word64 entry 40;
              if (last <? first) || (first <? first_usable header) || (last_usable header <? last) then Done (Err Range)
              else scan header es' (<[w := Some (MkPartition first last)]> found)
          end
      end
  end.

Definition find (header : Header) (array : list Z) : outcome (result Layout Refusal) :=
  bytes ← Header.entries_bytes header;
  if (Z.of_nat (length array) <? bytes) then Done (Err Short)
  else
    array ← slice array 0 (Z.to_nat bytes);
    if negb (crc32 array =? entries_crc header) then Done (Err EntriesCrc)
    else
      if (entry_size header =? 0) then Panic
      else
        r ← scan header (chunks (length array) (Z.to_nat (entry_size header)) array) [None; None; None];
        Done (found ←? r;
              match found with
              | [Some record; Some a; Some b] => Ok (MkLayout record a b)
              | _ => Err Missing
              end).

Definition slot (self : Layout) (s : Slot) : Partition := match s with A => slot_a self | B => slot_b self end.
End Layout.

Module Slot.
Definition other (self : Slot) : Slot := match self with A => B | B => A end.
Definition byte (self : Slot) : Z := match self with A => 0x41 | B => 0x42 end.
Definition from_byte (byte : Z) : option Slot := if byte =? 0x41 then Some A else if byte =? 0x42 then Some B else None.
End Slot.

(** ** The record *)
Definition RECORD_MAGIC : list Z := [0x42; 0x48; 0x58; 0x53; 0x4c; 0x4f; 0x54; 0x31].

Record Record : Type := MkRecord {
  active : Slot;
  trial : option (Slot * Z);
  writes : Z
}.
#[global] Instance Record_eq_dec : EqDecision Record.
Proof. solve_decision. Defined.

Module Record.
Definition to_block (self : Record) : outcome (list Z) :=
  block ← put_at (replicate BLOCK 0) 0 RECORD_MAGIC;
  block ← put_at block 8 [Slot.byte (active self)];
  block ← match trial self with
          | Some (slot, tries) => block ← put_at block 9 [Slot.byte slot]; put_at block 10 [tries]
          | None => Done block
          end;
  block ← put_at block 16 (to_le 8 (writes self));
  head ← slice block 0 24;
  put_at block 24 (to_le 4 (crc32 head)).

Definition parse (block : list Z) : outcome (result Record Refusal) :=
  if (length block <? 28)%nat then Done (Err Short)
  else
    magic ← slice block 0 8;
    head ← slice block 0 24;
    crc ← word32 block 24;
    if negb (bool_decide (magic = RECORD_MAGIC)) || negb (crc32 head =? crc) then Done (Err RecordBad)
    else
      b8 ← at_index block 8;
      b9 ← at_index block 9;
      b10 ← at_index block 10;
      w ← word64 block 16;
      Done (active ←? ok_or (Slot.from_byte b8) RecordBad;
            trial ←? (if b9 =? 0 then Ok None else slot ←? ok_or (Slot.from_byte b9) RecordBad; Ok (Some (slot, b10)));
            Ok (MkRecord active trial w)).
End Record.

(** ** The decision *)
Inductive Why : Type :=
| NoRecord
| Active
| Trial (left : Z)
| TrialOver.

Record Plan : Type := MkPlan {
  pfirst : Slot;  (* [first] *)
  pthen : Slot;  (* [then] *)
  write : option Record;
  why : Why
}.

Definition plan (record : option Record) : Plan :=
  match record with
  | None => MkPlan A B None NoRecord
  | Some r =>
      match trial r with
      | Some (slot, tries) =>
          if 0 <? tries then
            MkPlan slot (active r) (Some (MkRecord (active r) (Some (slot, tries - 1)) (wrapping_add 64 (writes r) 1))) (Trial (tries - 1))
          else
            MkPlan (active r) (Slot.other (active r)) (Some (MkRecord (active r) None (wrapping_add 64 (writes r) 1))) TrialOver
      | None => MkPlan (active r) (Slot.other (active r)) None Active
      end
  end.

(** ** A slot's header *)
Definition SET_MAGIC : list Z := [0x42; 0x48; 0x58; 0x53; 0x45; 0x54; 0x30; 0x31].

Inductive File : Type := Kernel | Initrd | Conf | Sig.
Definition file_index (f : File) : nat := match f with Kernel => 0 | Initrd => 1 | Conf => 2 | Sig => 3 end.

Record SetHeader : Type := MkSetHeader { files : list (Z * Z) }.

Module SetHeader.
Fixpoint put_files (block : list Z) (index : nat) (fs : list (Z * Z)) : outcome (list Z) :=
  match fs with
  | [] => Done block
  | (offset, length') :: fs' =>
      block ← put_at block (8 + index * 16) (to_le 8 offset);
      block ← put_at block (16 + index * 16) (to_le 8 length');
      put_files block (S index) fs'
  end.

Definition to_block (self : SetHeader) : outcome (list Z) :=
  block ← put_at (replicate BLOCK 0) 0 SET_MAGIC;
  put_files block 0 (files self).

(** The loop over the four files, from number [index] on. *)
Fixpoint get_files (block : list Z) (slot_bytes : Z) (index n : nat) : outcome (result (list (Z * Z)) Refusal) :=
  match n with
  | O => Done (Ok [])
  | S n' =>
      offset ← word64 block (8 + index * 16);
      length' ← word64 block (16 + index * 16);
      if negb (offset + length' <? 2 ^ 64) then Done (Err SetHeaderBad)
      else if (offset <? 512) || negb (offset mod 512 =? 0) || (slot_bytes <? offset + length') then Done (Err SetHeaderBad)
      else
        rest ← get_files block slot_bytes (S index) n';
        Done (rest ←? rest; Ok ((offset, length') :: rest))
  end.

Definition parse (block : list Z) (slot_bytes : Z) : outcome (result SetHeader Refusal) :=
  if (length block <? 72)%nat then Done (Err Short)
  else
    magic ← slice block 0 8;
    if negb (bool_decide (magic = SET_MAGIC)) then Done (Err SetHeaderBad)
    else
      fs ← get_files block slot_bytes 0 4;
      Done (fs ←? fs; Ok (MkSetHeader fs)).

Definition locate (self : SetHeader) (file : File) : Z * Z :=
  let '(offset, length') := files self !!! file_index file in
  (offset / 512, length').
End SetHeader.
End Slots.

(** ** The firmware's Block I/O

    What the loader calls of a disk, and what the UEFI specification says of it: a
    successful read fills the buffer with bytes, and adjacent reads join; reads and writes of other blocks do
    not disturb one another; what was written and flushed is read back. *)
Class BlockIo (Disk : Type) : Type := {
  last_block : Disk → Z;
  read_blocks : Disk → Z → nat → result (list Z) Z;
  write_blocks : Disk → Z → list Z → result unit Z * Disk;
  flush_blocks : Disk → result unit Z * Disk
}.

Class BlockIoLaws (Disk : Type) `{BlockIo Disk} : Prop := {
  read_joins : ∀ d lba n m x y, n mod 512 = 0 → 0 ≤ n → 0 ≤ m → read_blocks d lba (Z.to_nat n) = Ok x →
    read_blocks d (lba + n / 512) (Z.to_nat m) = Ok y → read_blocks d lba (Z.to_nat (n + m)) = Ok (x ++ y);
  read_fills : ∀ d lba n bytes, read_blocks d lba n = Ok bytes → length bytes = n ∧ Forall is_byte bytes;
  write_reads_back : ∀ d lba block d' d'', Forall is_byte block → write_blocks d lba block = (Ok tt, d') → flush_blocks d' = (Ok tt, d'') →
    read_blocks d'' lba (length block) = Ok block;
  write_keeps : ∀ d lba block r d' lba' n, write_blocks d lba block = (r, d') → (lba' * 512 + Z.of_nat n ≤ lba * 512 ∨ lba * 512 + Z.of_nat (length block) ≤ lba' * 512) →
    read_blocks d' lba' n = read_blocks d lba' n;
  flush_keeps : ∀ d r d' lba n, flush_blocks d = (r, d') → read_blocks d' lba n = read_blocks d lba n;
  write_keeps_last : ∀ d lba block r d', write_blocks d lba block = (r, d') → last_block d' = last_block d;
  flush_keeps_last : ∀ d r d', flush_blocks d = (r, d') → last_block d' = last_block d
}.

(** ** The slot disk from the loader's side *)
Module SlotDisk.
Section Firmware.
Context {Disk : Type} `{BlockIo Disk}.
Import Slots.

(** [Disk::write_and_flush]. *)
Definition write_and_flush (d : Disk) (lba : Z) (block : list Z) : result unit Z * Disk :=
  match write_blocks d lba block with
  | (Err status, d) => (Err status, d)
  | (Ok _, d) => flush_blocks d
  end.

Definition SCRATCH_PAGES : nat := 5.
Definition scratch_len : Z := Z.of_nat SCRATCH_PAGES * 4096.

Record SlotDisk : Type := MkSlotDisk {
  disk : Disk;
  layout : Layout;
  drecord : result Record Refusal  (* [record] *)
}.

(** The closure of [find]: whether a disk is a slot disk. *)
Definition try_disk (d : Disk) : outcome (option Layout) :=
  match read_blocks d 1 BLOCK with
  | Err _ => Done None
  | Ok block =>
      r ← Header.parse block;
      match r with
      | Err _ => Done None
      | Ok header =>
          bytes ← Header.entries_bytes header;
          if scratch_len <? bytes then Done None
          else
            blocks ← Header.entries_blocks header;
            if scratch_len <? blocks * 512 then Panic
            else
              match read_blocks d (entries_at header) (Z.to_nat (blocks * 512)) with
              | Err _ => Done None
              | Ok array =>
                  r ← Layout.find header (take (Z.to_nat bytes) array);
                  match r with
                  | Ok layout => Done (if last (slot_b layout) <=? last_block d then Some layout else None)
                  | Err _ => Done None
                  end
              end
      end
  end.

Fixpoint find (disks : list Disk) : outcome (option SlotDisk) :=
  match disks with
  | [] => Done None
  | d :: disks' =>
      l ← try_disk d;
      match l with
      | None => find disks'
      | Some layout =>
          r ← match read_blocks d (first (record layout)) BLOCK with
              | Err _ => Done (Err Short)
              | Ok block => Record.parse block
              end;
          Done (Some (MkSlotDisk d layout r))
      end
  end.

Definition write_record (self : SlotDisk) (r : Record) : outcome (result unit Z * SlotDisk) :=
  block ← Record.to_block r;
  let '(res, d) := write_and_flush (disk self) (first (record (layout self))) block in
  Done (res, MkSlotDisk d (layout self) (drecord self)).

Definition header (self : SlotDisk) (slot : Partition) : outcome (result SetHeader Refusal) :=
  match read_blocks (disk self) (first slot) BLOCK with
  | Err _ => Done (Err Short)
  | Ok block => SetHeader.parse block (Partition.bytes slot)
  end.

Inductive Unread : Type :=
| Firmware (status : Z)
| TooLarge.

(** The loop of [read]: [got] is what the buffer holds so far. *)
Fixpoint read_loop (fuel : nat) (self : SlotDisk) (direct : bool) (start first' whole length' buffer_len step done' : Z) (got : list Z) : outcome (result (list Z) Unread) :=
  if done' <? whole then
    match fuel with
    | O => OutOfFuel
    | S fuel' =>
        let take' := Z.min (whole - done') step in
        let lba := wrapping_add 64 (wrapping_add 64 start first') (done' / 512) in
        if direct && (buffer_len <? done' + take') then Panic
        else match read_blocks (disk self) lba (Z.to_nat take') with
        | Err status => Done (Err (Firmware status))
        | Ok bytes =>
            kept ← (if direct then Done bytes
                    else
                      let keep := Z.min take' (wrapping_sub 64 length' done') in
                      if buffer_len <? done' + keep then Panic else Done (take (Z.to_nat keep) bytes));
            read_loop fuel' self direct start first' whole length' buffer_len step (done' + take') (got ++ kept)
        end
    end
  else Done (Ok got).

(** [read]: [aligned] says whether the buffer begins on a page. *)
Definition read (self : SlotDisk) (slot : Partition) (header : SetHeader) (file : File) (buffer_len : Z) (aligned : bool) : outcome (result (list Z) Unread) :=
  let '(first', length') := SetHeader.locate header file in
  if buffer_len <? length' then Done (Err TooLarge)
  else
    let whole := zdiv_ceil length' 512 * 512 in
    let direct := aligned && (whole <=? buffer_len) in
    let step := if direct then 2 ^ 20 else scratch_len in
    r ← read_loop (Z.to_nat (whole / 512)) self direct (first slot) first' whole length' buffer_len step 0 [];
    Done (bytes ←? r; Ok (take (Z.to_nat length') bytes)).
End Firmware.
Arguments SlotDisk : clear implicits.
Arguments MkSlotDisk {Disk}.
End SlotDisk.
