(* ===== verification/SlotsLaws.v ===== *)
(** * The slot disk: its laws

    Theorems about Slots.v: the checksum catches every change of one byte, the record
    reads back as written and a damaged one is refused, what the parsers accept lies
    inside the disk's partitions, and the loader's reads of a slot stay in it. *)
From stdpp Require Import prelude numbers list gmap.
From S2P Require Import Prelude Bytes Sha Slh SlhTrip Slots.
Open Scope Z_scope.
Set Warnings "-clear-no-such-hyp".
Import Slots.

(** ** The checksum *)
Definition POLY : Z := 0xEDB88320.

Lemma crc_bit_cases c : 0 ≤ c → crc_bit c = if c mod 2 =? 0 then c / 2 else Z.lxor (c / 2) POLY.
Proof.
  intros Hc. unfold crc_bit. replace (Z.land c 1) with (c mod 2) by (change 1 with (Z.ones 1); by rewrite Z.land_ones). rewrite Z.shiftr_div_pow2 by lia. change (2 ^ 1) with 2.
  pose proof (Z.mod_pos_bound c 2 ltac:(lia)). assert (c mod 2 = 0 ∨ c mod 2 = 1) as [-> | ->] by lia.
  - cbn [Z.eqb]. change (Prelude.trunc 32 (- 0)) with 0. by rewrite Z.land_0_r, Z.lxor_0_r.
  - reflexivity.
Qed.

Lemma lxor_width w x y : 0 ≤ w → in_width w x → in_width w y → in_width w (Z.lxor x y).
Proof.
  unfold in_width. intros Hw Hx Hy. assert (H0 : 0 ≤ Z.lxor x y) by (apply Z.lxor_nonneg; lia). split; [done|].
  destruct (decide (Z.lxor x y = 0)) as [->|Hn]; [lia|]. destruct (decide (w = 0)) as [->|Hw0]; [assert (x = 0 ∧ y = 0) as [-> ->] by (cbn in *; lia); done|].
  apply Z.log2_lt_pow2; [lia|]. eapply Z.le_lt_trans; [apply Z.log2_lxor; lia|].
  assert (Hl : ∀ v, 0 ≤ v < 2 ^ w → Z.log2 v < w).
  { intros v Hv. destruct (decide (v = 0)) as [->|]; [cbn; lia|]. apply Z.log2_lt_pow2; lia. }
  apply Z.max_lub_lt; by apply Hl.
Qed.

Lemma crc_bit_width c : in_width 32 c → in_width 32 (crc_bit c).
Proof.
  intros Hc. rewrite crc_bit_cases by apply Hc.
  assert (Hh : in_width 32 (c / 2)) by (unfold in_width in *; split; [apply Z.div_pos; lia|apply Z.div_lt_upper_bound; lia]).
  destruct (_ =? 0); [done|]. apply lxor_width; [lia|done|done].
Qed.

(** The way back: the polynomial's top bit says which way the step went. *)
Definition crc_unbit (y : Z) : Z := if Z.testbit y 31 then 2 * Z.lxor y POLY + 1 else 2 * y.
Lemma crc_unbit_bit c : in_width 32 c → crc_unbit (crc_bit c) = c.
Proof.
  intros Hc. rewrite crc_bit_cases by apply Hc. pose proof (Z.div_mod c 2 ltac:(lia)) as E. pose proof (Z.mod_pos_bound c 2 ltac:(lia)).
  assert (Hb : Z.testbit (c / 2) 31 = false).
  { apply Z.bits_above_log2; [apply Z.div_pos; unfold in_width in Hc; lia|]. assert (c / 2 < 2 ^ 31) by (apply Z.div_lt_upper_bound; unfold in_width in Hc; lia).
    destruct (decide (c / 2 = 0)) as [->|]; [done|]. apply Z.log2_lt_pow2; [|done]. unfold in_width in Hc. pose proof (Z.div_pos c 2). lia. }
  unfold crc_unbit. destruct (Z.eqb_spec (c mod 2) 0).
  - rewrite Hb. lia.
  - rewrite Z.lxor_spec, Hb. change (Z.testbit POLY 31) with true. cbn [xorb]. rewrite Z.lxor_assoc, Z.lxor_nilpotent, Z.lxor_0_r. lia.
Qed.

#[local] Opaque crc_bit.

Lemma crc_bits_width n c : in_width 32 c → in_width 32 (Nat.iter n crc_bit c).
Proof. intros Hc. induction n as [|n IH]; [done|]. cbn [Nat.iter nat_rect]. by apply crc_bit_width. Qed.
Lemma crc_bits_inj n c d : in_width 32 c → in_width 32 d → Nat.iter n crc_bit c = Nat.iter n crc_bit d → c = d.
Proof.
  intros Hc Hd. induction n as [|n IH]; [done|]. cbn [Nat.iter nat_rect]. intros E. apply IH. apply (f_equal crc_unbit) in E.
  by rewrite !crc_unbit_bit in E by (by apply crc_bits_width).
Qed.

Lemma byte_width b : is_byte b → in_width 32 b.
Proof. unfold is_byte, in_width. lia. Qed.
Lemma crc_byte_width c b : in_width 32 c → is_byte b → in_width 32 (crc_byte c b).
Proof. intros. apply crc_bits_width, lxor_width; [lia|done|by apply byte_width]. Qed.

Lemma lxor_inj_l x y z : Z.lxor x y = Z.lxor x z → y = z.
Proof. intros E. apply (f_equal (Z.lxor x)) in E. by rewrite <- !Z.lxor_assoc, !Z.lxor_nilpotent, !Z.lxor_0_l in E. Qed.
Lemma crc_byte_inj_r c b b' : in_width 32 c → is_byte b → is_byte b' → crc_byte c b = crc_byte c b' → b = b'.
Proof.
  unfold crc_byte. intros Hc Hb Hb' E. apply (crc_bits_inj 8) in E; [|apply lxor_width; [lia|done|by apply byte_width]..]. by apply lxor_inj_l in E.
Qed.
Lemma crc_byte_inj_l c c' b : in_width 32 c → in_width 32 c' → is_byte b → crc_byte c b = crc_byte c' b → c = c'.
Proof.
  unfold crc_byte. intros Hc Hc' Hb E. apply (crc_bits_inj 8) in E; [|apply lxor_width; [lia|done|by apply byte_width]..].
  rewrite !(Z.lxor_comm _ b) in E. by apply lxor_inj_l in E.
Qed.

Lemma crc_bytes_width bytes : ∀ c, in_width 32 c → Forall is_byte bytes → in_width 32 (foldl crc_byte c bytes).
Proof. induction bytes as [|b bytes IH]; intros c Hc Hb; [done|]. apply Forall_cons in Hb as [Hb Hbs]. cbn [foldl]. apply IH; [by apply crc_byte_width|done]. Qed.
Lemma crc_bytes_inj bytes : ∀ c c', in_width 32 c → in_width 32 c' → Forall is_byte bytes → foldl crc_byte c bytes = foldl crc_byte c' bytes → c = c'.
Proof.
  induction bytes as [|b bytes IH]; intros c c' Hc Hc' Hb E; [done|]. apply Forall_cons in Hb as [Hb Hbs]. cbn [foldl] in E.
  eapply crc_byte_inj_l; [done|done|exact Hb|]. eapply IH; [by apply crc_byte_width..|done|done].
Qed.

(** Changing one byte changes the checksum. *)
Lemma crc32_one_byte pre b b' post : Forall is_byte (pre ++ b :: post) → is_byte b' →
  crc32 (pre ++ b :: post) = crc32 (pre ++ b' :: post) → b = b'.
Proof.
  intros Hb Hb' E. apply Forall_app in Hb as [Hpre [Hbb Hpost]%Forall_cons]. unfold crc32, bit_not in E.
  rewrite !(Z.lxor_comm _ 0xFFFFFFFF) in E. apply lxor_inj_l in E. rewrite !foldl_app in E. cbn [foldl] in E.
  assert (Hw : in_width 32 (foldl crc_byte 0xFFFFFFFF pre)) by (apply crc_bytes_width; [by vm_compute|done]).
  apply crc_bytes_inj in E; [by eapply crc_byte_inj_r|by apply crc_byte_width|by apply crc_byte_width|done].
Qed.

Example crc_check_value : crc32 [49; 50; 51; 52; 53; 54; 55; 56; 57] = 0xCBF43926.
Proof. reflexivity. Qed.

Lemma crc32_width bytes : Forall is_byte bytes → in_width 32 (crc32 bytes).
Proof. intros Hb. unfold crc32, bit_not. apply lxor_width; [lia|apply crc_bytes_width; [by vm_compute|done]|by vm_compute]. Qed.

Lemma crc32_insert bytes i b' : Forall is_byte bytes → is_byte b' → (i < length bytes)%nat → crc32 (<[i := b']> bytes) = crc32 bytes → bytes !! i = Some b'.
Proof.
  intros Hb Hb' Hi E. destruct (lookup_lt_is_Some_2 bytes i Hi) as [b Hl]. rewrite insert_take_drop in E by done. rewrite Hl. f_equal.
  assert (Em : take i bytes ++ b :: drop (S i) bytes = bytes) by (by apply take_drop_middle). rewrite <- Em in E at 3.
  symmetry in E. eapply crc32_one_byte; [rewrite Em; exact Hb|exact Hb'|exact E].
Qed.

Lemma from_le_inj l : ∀ l', Forall is_byte l → Forall is_byte l' → length l = length l' → from_le l = from_le l' → l = l'.
Proof.
  induction l as [|b l IH]; intros [|b' l'] Hl Hl' Hn E; try done. apply Forall_cons in Hl as [Hb Hl]. apply Forall_cons in Hl' as [Hb' Hl'].
  cbn [from_le] in E. unfold is_byte in Hb, Hb'. assert (b = b' ∧ from_le l = from_le l') as [-> E'] by lia. f_equal. apply IH; [done|done|cbn in Hn; lia|done].
Qed.

#[local] Opaque crc32.

(** ** The record *)
Record record_wf (r : Record) : Prop := {
  rw_tries : ∀ s n, trial r = Some (s, n) → is_byte n;
  rw_writes : in_width 64 (writes r)
}.

Definition record_head (r : Record) : list Z :=
  RECORD_MAGIC ++ [Slot.byte (active r); match trial r with Some (s, _) => Slot.byte s | None => 0 end; match trial r with Some (_, n) => n | None => 0 end; 0; 0; 0; 0; 0] ++ to_le 8 (writes r).
Definition record_block (r : Record) : list Z := record_head r ++ to_le 4 (crc32 (record_head r)) ++ replicate 484 0.

Lemma to_block_is r : Record.to_block r = Done (record_block r).
Proof. unfold record_block, record_head. destruct r as [a [[s n]|] w]; reflexivity. Qed.

Lemma record_head_bytes r : record_wf r → Forall is_byte (record_head r).
Proof.
  intros [Ht Hw]. unfold record_head. rewrite !Forall_app. split_and!; [by repeat constructor| |apply to_le_bytes].
  destruct r as [a [[s n]|] w]; cbn [active trial] in *; repeat constructor; try done; try (destruct a; done); try (destruct s; done); by apply (Ht s n).
Qed.

(** What the parser reads of a record's block, whatever its checksum. *)
Lemma record_fields r crc : let block := record_head r ++ to_le 4 crc ++ replicate 484 0 in
  slice block 0 8 = Done RECORD_MAGIC ∧ slice block 0 24 = Done (record_head r) ∧ word32 block 24 = Done (from_le (to_le 4 crc)) ∧
  word64 block 16 = Done (from_le (to_le 8 (writes r))) ∧ at_index block 8 = Done (Slot.byte (active r)) ∧
  at_index block 9 = Done (match trial r with Some (s, _) => Slot.byte s | None => 0 end) ∧
  at_index block 10 = Done (match trial r with Some (_, n) => n | None => 0 end) ∧ (length block <? 28)%nat = false.
Proof. destruct r as [a [[s n]|] w]; split_and!; reflexivity. Qed.

Lemma parse_steps block magic head crc b8 b9 b10 w : (length block <? 28)%nat = false → slice block 0 8 = Done magic → slice block 0 24 = Done head →
  word32 block 24 = Done crc → at_index block 8 = Done b8 → at_index block 9 = Done b9 → at_index block 10 = Done b10 → word64 block 16 = Done w →
  magic = RECORD_MAGIC → crc32 head = crc → Record.parse block =
    Done (active ←? ok_or (Slot.from_byte b8) RecordBad;
          trial ←? (if b9 =? 0 then Ok None else slot ←? ok_or (Slot.from_byte b9) RecordBad; Ok (Some (slot, b10)));
          Ok (MkRecord active trial w)).
Proof.
  intros H1 H2 H3 H4 H5 H6 H7 H8 -> <-. unfold Record.parse. rewrite H1. run H2. run H3. run H4. rewrite bool_decide_eq_true_2, Z.eqb_refl by done.
  cbn [negb orb]. run H5. run H6. run H7. by run H8.
Qed.

Lemma record_parses r : record_wf r → Record.parse (record_block r) = Done (Ok r).
Proof.
  intros Hr. pose proof (crc32_width _ (record_head_bytes r Hr)) as Hc.
  destruct (record_fields r (crc32 (record_head r))) as (H1 & H2 & H3 & H4 & H5 & H6 & H7 & H8). rewrite from_to_le in H3 by exact Hc. rewrite from_to_le in H4 by apply Hr.
  etransitivity; [exact (parse_steps _ _ _ _ _ _ _ _ H8 H1 H2 H3 H5 H6 H7 H4 eq_refl eq_refl)|]. clear. by destruct r as [[] [[[] n]|] w].
Qed.

Lemma record_parse_head block r : Record.parse block = Done (Ok r) → (28 ≤ length block)%nat ∧ crc32 (take 24 block) = from_le (take 4 (drop 24 block)).
Proof.
  unfold Record.parse. destruct (Nat.ltb_spec (length block) 28) as [|Hl]; [done|]. unfold word32. rewrite !slice_ok by lia. cbn [mbind outcome_bind].
  change (24 + 4 - 24)%nat with 4%nat. rewrite drop_0. destruct (bool_decide _); [|done]. cbn [negb orb].
  destruct (Z.eqb_spec (crc32 (take (24 - 0) block)) (from_le (take 4 (drop 24 block)))); [|done]. done.
Qed.

(** C16. The slot record reads back as written, and a damaged one is not believed: when a
    block reads as a record, the block with any one of its first 28 bytes changed to any
    other value is refused, whatever the byte meant. *)
Theorem record_roundtrip_and_damage r block : record_wf r → Forall is_byte block → Record.parse block = Done (Ok r) →
  (b ← Record.to_block r; Record.parse b) = Done (Ok r) ∧
  ∀ i b', (i < 28)%nat → is_byte b' → block !! i ≠ Some b' → Record.parse (<[i := b']> block) = Done (Err RecordBad).
Proof.
  intros Hr Hb Hp. split; [rewrite to_block_is; cbn [mbind outcome_bind]; by apply record_parses|]. intros i b' Hi Hb' Hne.
  destruct (record_parse_head _ _ Hp) as [Hl Hcrc]. unfold Record.parse. rewrite length_insert, (proj2 (Nat.ltb_ge _ _)) by done.
  unfold word32. rewrite !slice_ok by (rewrite ?length_insert; lia). cbn [mbind outcome_bind]. change (24 + 4 - 24)%nat with 4%nat. change (24 - 0)%nat with 24%nat. rewrite !drop_0.
  assert (Hneq : crc32 (take 24 (<[i := b']> block)) ≠ from_le (take 4 (drop 24 (<[i := b']> block)))).
  { destruct (decide (i < 24)%nat) as [Hlt|Hge].
    - rewrite take_insert_lt, drop_insert_lt, <- Hcrc by lia. intros E. apply crc32_insert in E; [|by apply Forall_take|done|rewrite length_take; lia].
      rewrite lookup_take_lt in E by done. done.
    - rewrite take_insert_ge, drop_insert_ge, Hcrc by lia. intros E.
      apply from_le_inj in E; [|by apply Forall_take, Forall_drop|by apply Forall_take, Forall_insert; [apply Forall_drop|]|by rewrite !length_take, length_insert].
      apply (f_equal (fun l => l !! (i - 24)%nat)) in E. rewrite !lookup_take_lt, list_lookup_insert_eq, lookup_drop in E by (rewrite ?length_drop; lia).
      apply Hne. rewrite <- E. f_equal. lia. }
  rewrite (proj2 (Z.eqb_neq _ _) Hneq). cbn [negb]. by rewrite orb_true_r.
Qed.

Definition demo_record : Record := MkRecord A (Some (B, 2)) 7.
Lemma demo_record_wf : record_wf demo_record.
Proof. split; [intros s n [= <- <-]; by vm_compute|by vm_compute]. Qed.
Lemma demo_block_bytes : Forall is_byte (record_block demo_record).
Proof. unfold record_block. rewrite !Forall_app. split_and!; [apply record_head_bytes, demo_record_wf|apply to_le_bytes|by apply Forall_replicate]. Qed.

Lemma record_roundtrip_and_damage_witness : Record.parse (<[9%nat := 0x41]> (record_block demo_record)) = Done (Err RecordBad).
Proof.
  apply (record_roundtrip_and_damage demo_record (record_block demo_record) demo_record_wf demo_block_bytes (record_parses _ demo_record_wf)); [lia|by vm_compute|].
  vm_compute. discriminate.
Defined.

(** ** What the parsers accept *)
Lemma word64_done bytes a v : Forall is_byte bytes → word64 bytes a = Done v → in_width 64 v.
Proof.
  unfold word64, slice. intros Hb. case_decide; [|done]. cbn [mbind outcome_bind]. intros [= <-].
  pose proof (from_le_range (take (a + 8 - a) (drop a bytes)) ltac:(by apply Forall_take, Forall_drop)) as Hr.
  rewrite length_take, length_drop in Hr. replace ((a + 8 - a) `min` (length bytes - a))%nat with 8%nat in Hr by lia. exact Hr.
Qed.

Definition file_inside (slot_bytes : Z) (f : Z * Z) : Prop := 512 ≤ f.1 ∧ f.1 mod 512 = 0 ∧ 0 ≤ f.2 ∧ f.1 + f.2 ≤ slot_bytes.

Lemma get_files_inside block sb n : ∀ i, Forall is_byte block → (8 + (i + n) * 16 ≤ length block)%nat →
  ∃ r, SetHeader.get_files block sb i n = Done r ∧ match r with Ok fs => length fs = n ∧ Forall (file_inside sb) fs | Err e => e = SetHeaderBad end.
Proof.
  induction n as [|n IH]; intros i Hb Hl; cbn [SetHeader.get_files]; [eexists; by split_and!|].
  assert (Hw : ∀ a, (a + 8 ≤ length block)%nat → ∃ v, word64 block a = Done v ∧ in_width 64 v).
  { intros a Ha. unfold word64. rewrite slice_ok by lia. eexists. split; [done|]. eapply (word64_done block a); [done|]. unfold word64. by rewrite slice_ok by lia. }
  destruct (Hw (8 + i * 16)%nat ltac:(lia)) as (o & -> & Ho). cbn [mbind outcome_bind]. destruct (Hw (16 + i * 16)%nat ltac:(lia)) as (l & -> & Hlen). cbn [mbind outcome_bind].
  destruct (Z.ltb_spec (o + l) (2 ^ 64)); cbn [negb]; [|by eexists]. destruct (Z.ltb_spec o 512); cbn [orb]; [by eexists|].
  destruct (Z.eqb_spec (o mod 512) 0); cbn [negb orb]; [|by eexists]. destruct (Z.ltb_spec sb (o + l)); [by eexists|].
  destruct (IH (S i) Hb ltac:(lia)) as (r & -> & Hr). cbn [mbind outcome_bind]. eexists. split; [done|]. destruct r as [fs|er]; cbn [rbind]; [|done].
  destruct Hr as [Hfl Hfs]. split; [cbn; lia|]. constructor; [|done]. unfold file_inside, in_width in *. cbn. lia.
Qed.

Lemma set_header_answers block sb : Forall is_byte block → ∃ r, SetHeader.parse block sb = Done r ∧
  match r with Ok h => length (files h) = 4%nat ∧ Forall (file_inside sb) (files h) | Err _ => True end.
Proof.
  intros Hb. unfold SetHeader.parse. destruct (Nat.ltb_spec (length block) 72); [by eexists|]. rewrite slice_ok by lia. cbn [mbind outcome_bind].
  destruct (bool_decide _); cbn [negb]; [|by eexists]. destruct (get_files_inside block sb 4 0 Hb ltac:(lia)) as (r & -> & Hr). cbn [mbind outcome_bind].
  eexists. split; [done|]. by destruct r.
Qed.

(** ** Reading a slot *)
Section Reading.
Context {Disk : Type} `{BlockIoLaws Disk}.
Implicit Types s : SlotDisk.SlotDisk Disk.

Record partition_ok (p : Partition) : Prop := {
  po_first : 0 ≤ first p;
  po_order : first p ≤ last p;
  po_last : last p < 2 ^ 64
}.

(** A read of blocks that lie in the partition. *)
Definition within (p : Partition) (lba n : Z) : Prop := first p ≤ lba ∧ 0 ≤ n ∧ lba * 512 + n ≤ (last p + 1) * 512.

(** The size of a partition, if it wraps, is less than it should be. *)
Lemma partition_bytes p : partition_ok p → 0 ≤ Partition.bytes p < 2 ^ 64 ∧ Partition.bytes p ≤ (last p - first p + 1) * 512.
Proof.
  intros []. unfold Partition.bytes, wrapping_add, wrapping_sub, Prelude.trunc. rewrite (Z.mod_small (last p - first p)) by lia.
  pose proof (Z.mod_le (last p - first p + 1) (2 ^ 64) ltac:(lia) ltac:(lia)). pose proof (Z.mod_pos_bound (last p - first p + 1) (2 ^ 64) ltac:(lia)).
  pose proof (Z.mod_le ((last p - first p + 1) mod 2 ^ 64 * 512) (2 ^ 64) ltac:(lia) ltac:(lia)). pose proof (Z.mod_pos_bound ((last p - first p + 1) mod 2 ^ 64 * 512) (2 ^ 64) ltac:(lia)). lia.
Qed.

Lemma header_answers s p : ∃ r, SlotDisk.header s p = Done r ∧
  match r with Ok h => length (files h) = 4%nat ∧ Forall (file_inside (Partition.bytes p)) (files h) | Err _ => True end.
Proof.
  unfold SlotDisk.header. destruct (read_blocks _ _ _) as [block|] eqn:E; [|by eexists]. apply set_header_answers. by apply read_fills in E as [_ ?].
Qed.

Lemma ceil_spec l : 0 ≤ l → l ≤ zdiv_ceil l 512 * 512 ∧ zdiv_ceil l 512 * 512 < l + 512 ∧ 0 ≤ zdiv_ceil l 512.
Proof.
  intros Hl. unfold zdiv_ceil. pose proof (Z.div_mod (l + 512 - 1) 512 ltac:(lia)). pose proof (Z.mod_pos_bound (l + 512 - 1) 512 ltac:(lia)).
  pose proof (Z.div_pos (l + 512 - 1) 512 ltac:(lia) ltac:(lia)). lia.
Qed.

Section Loop.
Context (p : Partition) (direct : bool) (first' L buffer_len step : Z).
Context (Hp : partition_ok p) (Hf : 0 ≤ first') (HL : 0 ≤ L) (Hstep : 0 < step) (Hstep' : step mod 512 = 0).
Context (Hin : (first p + first') * 512 + zdiv_ceil L 512 * 512 ≤ (last p + 1) * 512).
Context (HL' : L < 2 ^ 64) (Hbuf : L ≤ buffer_len) (Hdirect : direct = true → zdiv_ceil L 512 * 512 ≤ buffer_len).
Let whole : Z := zdiv_ceil L 512 * 512.

(** What has been read so far: all of it is in the buffer while there is more to come. *)
Definition so_far s (done' : Z) (got : list Z) : Prop :=
  ∃ full, (done' = 0 ∧ full = [] ∨ read_blocks (SlotDisk.disk s) (first p + first') (Z.to_nat done') = Ok full) ∧ Z.of_nat (length full) = done' ∧
    (done' < whole → got = full) ∧ take (Z.to_nat L) got = take (Z.to_nat L) full.

Lemma read_loop_step s done' got : 0 ≤ done' < whole → done' mod 512 = 0 → so_far s done' got →
  let take' := Z.min (whole - done') step in let lba := first p + first' + done' / 512 in
  within p lba take' ∧ 0 < take' ≤ whole - done' ∧ (done' + take') mod 512 = 0 ∧ 0 ≤ lba < 2 ^ 64 ∧ 0 ≤ L - done' < 2 ^ 64 ∧
  ∀ bytes, read_blocks (SlotDisk.disk s) lba (Z.to_nat take') = Ok bytes →
    so_far s (done' + take') (got ++ (if direct then bytes else take (Z.to_nat (Z.min take' (L - done'))) bytes)).
Proof.
  intros Hd Hm Hs take' lba. destruct Hp as [Hp1 Hp2 Hp3]. pose proof (ceil_spec L HL) as (C1 & C2 & C3). fold whole in C1, C2.
  pose proof (Z.div_mod done' 512 ltac:(lia)) as Ed. rewrite Hm, Z.add_0_r in Ed. pose proof (Z.div_mod step 512 ltac:(lia)) as Es. rewrite Hstep', Z.add_0_r in Es.
  assert (Em : (done' + take') mod 512 = 0).
  { unfold take'. destruct (Z.min_spec (whole - done') step) as [[_ ->]|[_ ->]].
    - replace (done' + (whole - done')) with (zdiv_ceil L 512 * 512) by (unfold whole; lia). apply Z.mod_mul. lia.
    - rewrite Ed, Es, <- Z.mul_add_distr_l, Z.mul_comm. apply Z.mod_mul. lia. }
  assert (Hlt : done' < L).
  { assert (done' / 512 < zdiv_ceil L 512) by (unfold whole in *; lia). unfold whole in *. lia. }
  assert (Ht : 0 < take' ≤ whole - done') by (unfold take'; lia).
  split; [unfold within, lba, whole in *; lia|]. split; [lia|]. split; [exact Em|]. split; [unfold lba, whole in *; lia|]. split; [unfold whole in *; lia|].
  intros bytes Hb. destruct Hs as (full & Hread & Hlen & Hgot & _). rewrite (Hgot ltac:(lia)). pose proof (read_fills _ _ _ _ Hb) as [Hbl _].
  exists (full ++ bytes). rewrite length_app, Hbl. split_and!; [|lia| |].
  - right. destruct Hread as [[-> ->]|Hread].
    + rewrite Z.add_0_l. cbn [app]. unfold lba in Hb. change (0 / 512) with 0 in Hb. by rewrite Z.add_0_r in Hb.
    + eapply read_joins; [done|lia|lia|exact Hread|exact Hb].
  - intros Hmore. f_equal. destruct direct; [done|]. apply take_ge. rewrite Hbl.
    assert (done' + take' < L); [|lia]. pose proof (Z.div_mod (done' + take') 512 ltac:(lia)). unfold whole in *. lia.
  - destruct direct; [done|]. rewrite !take_app, take_take. f_equal. destruct (decide (L - done' ≤ take')).
    + f_equal. lia.
    + by rewrite !take_ge by lia.
Qed.

Lemma slot_loop_spec fuel : ∀ s done' got, whole - done' ≤ 512 * Z.of_nat fuel → 0 ≤ done' ≤ whole → done' mod 512 = 0 → so_far s done' got →
  ∃ r, SlotDisk.read_loop fuel s direct (first p) first' whole L buffer_len step done' got = Done r ∧
    (∀ s', (∀ lba n, within p lba n → read_blocks (SlotDisk.disk s') lba (Z.to_nat n) = read_blocks (SlotDisk.disk s) lba (Z.to_nat n)) →
      SlotDisk.read_loop fuel s' direct (first p) first' whole L buffer_len step done' got = Done r) ∧
    match r with
    | Ok bytes => so_far s whole bytes
    | Err (SlotDisk.Firmware e) => ∃ lba n, within p lba n ∧ read_blocks (SlotDisk.disk s) lba (Z.to_nat n) = Err e
    | Err SlotDisk.TooLarge => False
    end.
Proof.
  induction fuel as [|fuel IH]; intros s done' got Hfuel Hd Hm Hs; cbn [SlotDisk.read_loop]; (destruct (Z.ltb_spec done' whole) as [Hlt|Hge];
    [|assert (done' = whole) as -> by lia; eexists; split_and!; [done|done|done]]); [lia|].
  destruct (read_loop_step s done' got ltac:(lia) Hm Hs) as (Hw & Hpos & Hm' & Hlba & Hleft & Hnext).
  set (take' := Z.min (whole - done') step) in *. assert (Hbase : in_width 64 (first p + first')).
  { destruct Hp. unfold in_width. pose proof (Z.div_pos done' 512 ltac:(lia) ltac:(lia)). lia. }
  unfold wrapping_add, wrapping_sub, Prelude.trunc. rewrite (Z.mod_small (first p + first')) by exact Hbase. rewrite (Z.mod_small (_ + _ / 512)), (Z.mod_small (L - done')) by assumption.
  assert (Ed : direct && (buffer_len <? done' + take') = false) by (destruct direct; cbn [andb]; [apply Z.ltb_ge; specialize (Hdirect eq_refl); unfold whole in *; lia|done]). rewrite Ed.
  assert (Ek : (buffer_len <? done' + Z.min take' (L - done')) = false) by (apply Z.ltb_ge; lia). rewrite Ek.
  destruct (read_blocks (SlotDisk.disk s) _ (Z.to_nat take')) as [bytes|e] eqn:E.
  - assert (Hk : (if direct then Done bytes else Done (take (Z.to_nat (Z.min take' (L - done'))) bytes)) =
      Done (if direct then bytes else take (Z.to_nat (Z.min take' (L - done'))) bytes)) by (by destruct direct).
    rewrite Hk. cbn [mbind outcome_bind].
    destruct (IH s (done' + take') (got ++ (if direct then bytes else take (Z.to_nat (Z.min take' (L - done'))) bytes))) as (r & Hr & Hsame & Hpost); [|unfold take'; lia|done|by apply Hnext|].
    { pose proof (Z.div_mod (done' + take') 512 ltac:(lia)). pose proof (Z.div_mod done' 512 ltac:(lia)). lia. }
    exists r. split_and!; [exact Hr| |exact Hpost]. intros s' Hs'. rewrite Hs' by done. rewrite E. rewrite Hk. cbn [mbind outcome_bind]. by apply Hsame.
  - exists (Err (SlotDisk.Firmware e)). split_and!; [done| |by exists (first p + first' + done' / 512), take']. intros s' Hs'. rewrite Hs' by done. by rewrite E.
Qed.
End Loop.

Lemma locate_inside p h file : length (files h) = 4%nat → Forall (file_inside (Partition.bytes p)) (files h) → partition_ok p →
  let '(first', L) := SetHeader.locate h file in 0 < first' ∧ 0 ≤ L < 2 ^ 64 ∧ (first p + first') * 512 + zdiv_ceil L 512 * 512 ≤ (last p + 1) * 512.
Proof.
  intros Hl Hf Hp. pose proof (partition_bytes p Hp) as [Hpb Hpb']. destruct Hp. unfold SetHeader.locate. destruct (files h !!! file_index file) as [o l] eqn:E.
  assert (Hi : files h !! file_index file = Some (o, l)) by (rewrite <- E; apply list_lookup_lookup_total_lt; rewrite Hl; destruct file; cbn; lia).
  destruct (Forall_lookup_1 _ _ _ _ Hf Hi) as (F1 & F2 & F3 & F4). cbn [fst snd] in *. pose proof (Z.div_mod o 512 ltac:(lia)) as Eo. rewrite F2, Z.add_0_r in Eo.
  pose proof (ceil_spec l F3) as (C1 & C2 & C3). split_and!; lia.
Qed.

(** C17. Once a slot's header has been accepted, reading any of its files, into any buffer,
    answers; every block it reads lies in the slot's partition (no other block can change
    the answer); what it answers is the file's bytes as they lie on the disk, a refusal for
    a file longer than the buffer, or the status the disk gave for a block of the slot. *)
Theorem slot_reads_stay_inside s p h file buffer_len aligned : partition_ok p → SlotDisk.header s p = Done (Ok h) →
  ∃ r, SlotDisk.read s p h file buffer_len aligned = Done r ∧
    (∀ s', (∀ lba n, within p lba n → read_blocks (SlotDisk.disk s') lba (Z.to_nat n) = read_blocks (SlotDisk.disk s) lba (Z.to_nat n)) →
      SlotDisk.read s' p h file buffer_len aligned = Done r) ∧
    let '(first', L) := SetHeader.locate h file in
    match r with
    | Ok bytes => Z.of_nat (length bytes) = L ∧ L ≤ buffer_len ∧
        (0 < L → ∃ full, read_blocks (SlotDisk.disk s) (first p + first') (Z.to_nat (zdiv_ceil L 512 * 512)) = Ok full ∧ bytes = take (Z.to_nat L) full)
    | Err SlotDisk.TooLarge => buffer_len < L
    | Err (SlotDisk.Firmware e) => ∃ lba n, within p lba n ∧ read_blocks (SlotDisk.disk s) lba (Z.to_nat n) = Err e
    end.
Proof.
  intros Hp Hh. destruct (header_answers s p) as (r & Hr & Hfiles). rewrite Hr in Hh. injection Hh as ->. destruct Hfiles as [Hl Hf].
  unfold SlotDisk.read. pose proof (locate_inside p h file Hl Hf Hp) as Hi. destruct (SetHeader.locate h file) as [first' L]. destruct Hi as (Hfirst & HL & Hin).
  destruct (Z.ltb_spec buffer_len L) as [Hlt|Hge]; [by eexists|]. set (direct := aligned && _). set (step := if direct then 2 ^ 20 else SlotDisk.scratch_len).
  assert (Hstep : 0 < step) by (unfold step; destruct direct; by vm_compute). assert (Hstep' : step mod 512 = 0) by (unfold step; destruct direct; by vm_compute).
  pose proof (ceil_spec L (proj1 HL)) as (C1 & C2 & C3). assert (Hdirect : direct = true → zdiv_ceil L 512 * 512 ≤ buffer_len) by (unfold direct; intros [_ Hd]%andb_true_iff; lia).
  destruct (slot_loop_spec p direct first' L buffer_len step Hp ltac:(lia) (proj1 HL) Hstep Hstep' Hin (proj2 HL) Hge Hdirect (Z.to_nat (zdiv_ceil L 512 * 512 / 512)) s 0 []) as (r & Hr' & Hsame & Hpost);
    [rewrite Z.div_mul by lia; lia|lia|done|exists []; split_and!; [by left|done|done|done]|].
  rewrite Hr'. cbn [mbind outcome_bind]. eexists. split; [done|]. split; [intros s' Hs'; by rewrite (Hsame s' Hs')|]. destruct r as [bytes|e]; cbn [rbind]; [|by destruct e].
  destruct Hpost as (full & Hread & Hlen & _ & Htake). split_and!; [rewrite Htake, length_take; lia|lia|]. intros Hpos.
  destruct Hread as [[E _]|Hread]; [lia|]. exists full. by split.
Qed.
End Reading.

(** ** A disk in memory: the laws can be met *)
Record MemDisk : Type := MkMemDisk { mem_last : Z; content : Z → Z }.

Definition mem_read (d : MemDisk) (lba : Z) (n : nat) : list Z := (fun i => content d (lba * 512 + Z.of_nat i) mod 256) <$> seq 0 n.
Definition mem_write (d : MemDisk) (lba : Z) (block : list Z) : MemDisk :=
  MkMemDisk (mem_last d) (fun a => let i := a - lba * 512 in if (0 <=? i) && (i <? Z.of_nat (length block)) then block !!! Z.to_nat i else content d a).

#[global] Instance mem_io : BlockIo MemDisk := {
  last_block := mem_last;
  read_blocks d lba n := Ok (mem_read d lba n);
  write_blocks d lba block := (Ok tt, mem_write d lba block);
  flush_blocks d := (Ok tt, d)
}.

Lemma mem_read_lookup d lba n i : (i < n)%nat → mem_read d lba n !! i = Some (content d (lba * 512 + Z.of_nat i) mod 256).
Proof. intros Hi. unfold mem_read. by rewrite list_lookup_fmap, lookup_seq_lt by done. Qed.

#[global] Instance mem_io_laws : BlockIoLaws MemDisk.
Proof.
  split; cbn [read_blocks write_blocks flush_blocks mem_io].
  - intros d lba n m x y Hm Hn Hm' [= <-] [= <-]. f_equal. unfold mem_read. rewrite Z2Nat.inj_add, seq_app, fmap_app, Nat.add_0_l by done. f_equal.
    rewrite <- (Nat.add_0_r (Z.to_nat n)) at 1. rewrite <- fmap_add_seq, <- list_fmap_compose. apply list_fmap_ext. intros i a _. cbn [compose]. do 2 f_equal.
    pose proof (Z.div_mod n 512 ltac:(lia)). lia.
  - intros d lba n bytes [= <-]. split; [unfold mem_read; by rewrite length_fmap, length_seq|]. apply Forall_lookup. intros i b Hi. unfold mem_read in Hi.
    apply list_lookup_fmap_Some in Hi as (? & -> & _). unfold is_byte. apply Z.mod_pos_bound. lia.
  - intros d lba block d' d'' Hb [= <-] [= <-]. f_equal. apply list_eq. intros i. destruct (decide (i < length block)%nat) as [Hi|Hi].
    + rewrite mem_read_lookup by done. cbn [content mem_write]. replace (lba * 512 + Z.of_nat i - lba * 512) with (Z.of_nat i) by lia.
      rewrite (proj2 (Z.leb_le _ _)), (proj2 (Z.ltb_lt _ _)), Nat2Z.id by lia. cbn [andb]. destruct (lookup_lt_is_Some_2 block i Hi) as [b E].
      rewrite (list_lookup_total_correct _ _ _ E), E. f_equal. apply Z.mod_small. eapply Forall_lookup_1 in E; [|exact Hb]. exact E.
    + rewrite !lookup_ge_None_2; [done|lia|]. unfold mem_read. rewrite length_fmap, length_seq. lia.
  - intros d lba block r d' lba' n [= <- <-] Hd. f_equal. unfold mem_read. apply list_fmap_ext. intros i a Ha. apply lookup_seq in Ha as [-> Ha]. cbn [content mem_write].
    assert (E : (0 <=? lba' * 512 + Z.of_nat i - lba * 512) && (lba' * 512 + Z.of_nat i - lba * 512 <? Z.of_nat (length block)) = false).
    { destruct (Z.leb_spec 0 (lba' * 512 + Z.of_nat i - lba * 512)), (Z.ltb_spec (lba' * 512 + Z.of_nat i - lba * 512) (Z.of_nat (length block))); cbn [andb]; lia. }
    by rewrite Nat.add_0_l, E.
  - by intros d r d' lba n [= <- <-].
  - by intros d lba block r d' [= <- <-].
  - by intros d r d' [= <- <-].
Qed.

(** A slot at block 40: a header, and four files of one block each after it. *)
Definition demo_slot_header : SetHeader := MkSetHeader [(512, 5); (1024, 6); (1536, 7); (2048, 0)].
Definition demo_slot_disk : SlotDisk.SlotDisk MemDisk :=
  let header := match SetHeader.to_block demo_slot_header with Done b => b | _ => [] end in
  SlotDisk.MkSlotDisk (mem_write (MkMemDisk 63 (fun a => a)) 40 header) (MkLayout (MkPartition 34 34) (MkPartition 40 47) (MkPartition 48 55)) (Err Short).

Lemma slot_reads_stay_inside_witness :
  ∃ full, read_blocks (SlotDisk.disk demo_slot_disk) 42 512 = Ok full ∧
    SlotDisk.read demo_slot_disk (MkPartition 40 47) demo_slot_header Initrd 16 false = Done (Ok (take 6 full)).
Proof.
  destruct (slot_reads_stay_inside demo_slot_disk (MkPartition 40 47) demo_slot_header Initrd 16 false) as (r & Hr & _ & Hp); [by split|by vm_compute|].
  rewrite Hr. cbn [SetHeader.locate] in Hp. destruct r as [bytes|[e|]].
  - destruct Hp as (_ & _ & Hp). destruct (Hp ltac:(lia)) as (full & Hf & ->). exists full. split; [exact Hf|reflexivity].
  - destruct Hp as (lba & n & _ & [=]).
  - change (16 < 6) in Hp. lia.
Defined.
