(* ===== verification/Rollback.v ===== *)
(** * The rollback counter

    One TPM NV index of 64 bits that can only be set (src/rollback/src/lib.rs: the
    commands as bytes, the parsers of the responses, the arithmetic of the floor) and
    the loader's use of it (src/boot/bhaskixboot/src/counter.rs).  The TPM is a
    parameter: a class of what the loader sends it, and as laws what the TPM
    specification says of those six commands on one NV index. *)
From stdpp Require Import prelude numbers list.
From S2P Require Import Prelude Bytes.
Open Scope Z_scope.
Set Warnings "-clear-no-such-hyp".

Module Rollback.
Definition INDEX : Z := 0x01844858.
Definition TPM_ST_NO_SESSIONS : Z := 0x8001.
Definition TPM_ST_SESSIONS : Z := 0x8002.
Definition TPM_CC_NV_DEFINE_SPACE : Z := 0x12A.
Definition TPM_CC_NV_SET_BITS : Z := 0x135.
Definition TPM_CC_NV_WRITE_LOCK : Z := 0x138.
Definition TPM_CC_NV_READ : Z := 0x14E.
Definition TPM_CC_NV_READ_PUBLIC : Z := 0x169.
Definition TPM_CC_GET_CAPABILITY : Z := 0x17A.
Definition TPM_RH_OWNER : Z := 0x40000001.
Definition TPM_ALG_SHA256 : Z := 0x000B.
Definition TPM_CAP_TPM_PROPERTIES : Z := 6.
Definition TPM_PT_PERMANENT : Z := 0x200.
Definition OWNER_AUTH_SET : Z := 1.
Definition TPM_RC_SUCCESS : Z := 0.
Definition TPM_RC_HANDLE : Z := 0x08B.
Definition TPM_RC_NV_LOCKED : Z := 0x148.
Definition TPM_RC_NV_DEFINED : Z := 0x14C.
Definition AUTHWRITE : Z := Z.shiftl 1 2.
Definition BITS : Z := Z.shiftl 2 4.
Definition WRITELOCKED : Z := Z.shiftl 1 11.
Definition WRITE_STCLEAR : Z := Z.shiftl 1 14.
Definition AUTHREAD : Z := Z.shiftl 1 18.
Definition NO_DA : Z := Z.shiftl 1 25.
Definition WRITTEN : Z := Z.shiftl 1 29.
Definition ATTRIBUTES : Z := Z.lor (Z.lor (Z.lor (Z.lor AUTHWRITE BITS) WRITE_STCLEAR) AUTHREAD) NO_DA.
Definition STATE : Z := Z.lor WRITTEN WRITELOCKED.
Definition DATA_SIZE : Z := 8.
Definition MAX_VERSION : Z := 64.
Definition HEADER : nat := 10.
Definition PASSWORD_SESSION : list Z := [0x40; 0; 0; 0x09; 0; 0; 0; 0; 0].

(** ** Commands: the header, whose size is the whole command's, and its fields. *)
Definition Command_new (n : nat) (tag code : Z) : list Z := to_be 2 tag ++ to_be 4 (Z.of_nat n) ++ to_be 4 code.
Definition on_the_index : list Z :=
  to_be 4 INDEX ++ to_be 4 INDEX ++ to_be 4 (Z.of_nat (length PASSWORD_SESSION)) ++ PASSWORD_SESSION.

Definition READ_PUBLIC_COMMAND : nat := HEADER + 4.
Definition DEFINE_COMMAND : nat := HEADER + 4 + 4 + length PASSWORD_SESSION + 2 + 2 + 14.
Definition READ_COMMAND : nat := HEADER + 4 + 4 + 4 + length PASSWORD_SESSION + 2 + 2.
Definition SET_BITS_COMMAND : nat := HEADER + 4 + 4 + 4 + length PASSWORD_SESSION + 8.
Definition WRITE_LOCK_COMMAND : nat := HEADER + 4 + 4 + 4 + length PASSWORD_SESSION.
Definition GET_PERMANENT_COMMAND : nat := HEADER + 4 + 4 + 4.

Definition read_public : list Z := Command_new READ_PUBLIC_COMMAND TPM_ST_NO_SESSIONS TPM_CC_NV_READ_PUBLIC ++ to_be 4 INDEX.
Definition define : list Z :=
  Command_new DEFINE_COMMAND TPM_ST_SESSIONS TPM_CC_NV_DEFINE_SPACE ++
  to_be 4 TPM_RH_OWNER ++ to_be 4 (Z.of_nat (length PASSWORD_SESSION)) ++ PASSWORD_SESSION ++ to_be 2 0 ++ to_be 2 14 ++
  to_be 4 INDEX ++ to_be 2 TPM_ALG_SHA256 ++ to_be 4 ATTRIBUTES ++ to_be 2 0 ++ to_be 2 DATA_SIZE.
Definition read : list Z := Command_new READ_COMMAND TPM_ST_SESSIONS TPM_CC_NV_READ ++ on_the_index ++ to_be 2 DATA_SIZE ++ to_be 2 0.
Definition set_bits (bits : Z) : list Z := Command_new SET_BITS_COMMAND TPM_ST_SESSIONS TPM_CC_NV_SET_BITS ++ on_the_index ++ to_be 8 bits.
Definition write_lock : list Z := Command_new WRITE_LOCK_COMMAND TPM_ST_SESSIONS TPM_CC_NV_WRITE_LOCK ++ on_the_index.
Definition get_permanent : list Z :=
  Command_new GET_PERMANENT_COMMAND TPM_ST_NO_SESSIONS TPM_CC_GET_CAPABILITY ++ to_be 4 TPM_CAP_TPM_PROPERTIES ++ to_be 4 TPM_PT_PERMANENT ++ to_be 4 1.

(** ** Responses *)
Inductive ResponseError : Type :=
| Truncated
| Size (size : Z)
| Tag (tag : Z)
| Code (code : Z)
| RShape  (* [Shape] *).

Definition base_code (code : Z) : Z := if negb (Z.land code 0x80 =? 0) then Z.land code 0xBF else code.
Definition u16_at (bytes : list Z) (at' : nat) : result Z ResponseError := ok_or (from_be <$> get bytes at' 2) Truncated.
Definition u32_at (bytes : list Z) (at' : nat) : result Z ResponseError := ok_or (from_be <$> get bytes at' 4) Truncated.

Definition answered (bytes : list Z) (tag : Z) : result (list Z) ResponseError :=
  size ←? u32_at bytes 2;
  if (size <? Z.of_nat HEADER) || (Z.of_nat (length bytes) <? size) then Err (Size size)
  else
    let bytes := take (Z.to_nat size) bytes in
    code ←? u32_at bytes 6;
    if negb (code =? TPM_RC_SUCCESS) then Err (Code code)
    else
      found ←? u16_at bytes 0;
      if found =? tag then Ok bytes else Err (Tag found).

Definition parse_status (bytes : list Z) : result unit ResponseError := _ ←? answered bytes TPM_ST_SESSIONS; Ok tt.

Record Public : Type := MkPublic {
  index : Z;
  name_alg : Z;
  attributes : Z;
  policy_len : Z;
  data_size : Z
}.

Definition is_ours (self : Public) : bool :=
  (index self =? INDEX) && (name_alg self =? TPM_ALG_SHA256) && (policy_len self =? 0) && (data_size self =? DATA_SIZE) &&
  (Z.ldiff (attributes self) STATE =? ATTRIBUTES).
Definition written (self : Public) : bool := negb (Z.land (attributes self) WRITTEN =? 0).
Definition locked (self : Public) : bool := negb (Z.land (attributes self) WRITELOCKED =? 0).

Definition parse_read_public (bytes : list Z) : result (option Public) ResponseError :=
  match answered bytes TPM_ST_NO_SESSIONS with
  | Err (Code code) => if base_code code =? TPM_RC_HANDLE then Ok None else Err (Code code)
  | Err other => Err other
  | Ok bytes =>
      size ←? u16_at bytes HEADER;
      let start := (HEADER + 2)%nat in
      policy_len ←? u16_at bytes (start + 10);
      if negb (size =? 4 + 2 + 4 + 2 + policy_len + 2) then Err RShape
      else
        index ←? u32_at bytes start;
        name_alg ←? u16_at bytes (start + 4);
        attributes ←? u32_at bytes (start + 6);
        data_size ←? u16_at bytes (start + 12 + Z.to_nat policy_len);
        Ok (Some (MkPublic index name_alg attributes policy_len data_size))
  end.

Definition parse_read (bytes : list Z) : result Z ResponseError :=
  bytes ←? answered bytes TPM_ST_SESSIONS;
  size ←? u16_at bytes (HEADER + 4);
  if negb (size =? DATA_SIZE) then Err RShape
  else
    data ←? ok_or (get bytes (HEADER + 6) 8) Truncated;
    Ok (from_be data).

Definition parse_permanent (bytes : list Z) : result Z ResponseError :=
  bytes ←? answered bytes TPM_ST_NO_SESSIONS;
  cap ←? u32_at bytes (HEADER + 1);
  if negb (cap =? TPM_CAP_TPM_PROPERTIES) then Err RShape
  else
    count ←? u32_at bytes (HEADER + 5);
    if count =? 0 then Err RShape
    else
      property ←? u32_at bytes (HEADER + 9);
      if negb (property =? TPM_PT_PERMANENT) then Err RShape
      else u32_at bytes (HEADER + 13).

(** ** The floor *)

(** [64 - bits.leading_zeros()]. *)
Definition floor (bits : Z) : Z := if bits =? 0 then 0 else Z.log2 bits + 1.
Definition bit_for (version : Z) : option Z :=
  if (version =? 0) || (MAX_VERSION <? version) then None else Some (Z.shiftl 1 (version - 1)).

Record Booted : Type := MkBooted { version : Z; verified : bool; marked_good : bool }.

Definition advance (floor : Z) (booted : Booted) : option Z :=
  if negb (verified booted) || negb (marked_good booted) || (version booted <=? floor) then None
  else bit_for (version booted).
End Rollback.

(** ** The TPM

    [Nv] is an NV index as the TPM keeps it, [TpmState] what matters of the TPM here:
    the index at the loader's handle and whether the owner has a password. *)
Record Nv : Type := MkNv {
  nv_alg : Z;
  nv_attributes : Z;  (* as created *)
  nv_policy : list Z;
  nv_size : Z;
  nv_bits : Z;
  nv_written : bool;
  nv_locked : bool
}.
Record TpmState : Type := MkTpm { nv : option Nv; owner_password : bool }.

Inductive Command : Type :=
| CReadPublic
| CDefine
| CRead
| CSetBits (bits : Z)
| CWriteLock
| CGetPermanent.

Definition encode (c : Command) : list Z :=
  match c with
  | CReadPublic => Rollback.read_public
  | CDefine => Rollback.define
  | CRead => Rollback.read
  | CSetBits bits => Rollback.set_bits bits
  | CWriteLock => Rollback.write_lock
  | CGetPermanent => Rollback.get_permanent
  end.

(** The specification's answers.  A success with a session carries the parameters'
    size, the parameters and the session's answer; an error carries only its code. *)
Definition response (tag code : Z) (body : list Z) : list Z := to_be 2 tag ++ to_be 4 (Z.of_nat (10 + length body)) ++ to_be 4 code ++ body.
Definition tpm_error (code : Z) : list Z := response Rollback.TPM_ST_NO_SESSIONS code [].
Definition session_answer : list Z := [0; 0; 1; 0; 0].
Definition tpm_ok (parameters : list Z) : list Z :=
  response Rollback.TPM_ST_SESSIONS 0 (to_be 4 (Z.of_nat (length parameters)) ++ parameters ++ session_answer).

Definition TPM_RC_NV_UNINITIALIZED : Z := 0x14A.
Definition TPM_RC_BAD_AUTH : Z := 0x9A2.

(** The attributes as read: those of creation and the two the TPM keeps. *)
Definition nv_shown (n : Nv) : Z :=
  Z.lor (nv_attributes n) (Z.lor (if nv_written n then Rollback.WRITTEN else 0) (if nv_locked n then Rollback.WRITELOCKED else 0)).
(** TPM2B_NV_PUBLIC, and the name, which nobody here reads. *)
Definition nv_public (n : Nv) : list Z :=
  to_be 2 (14 + Z.of_nat (length (nv_policy n))) ++ to_be 4 Rollback.INDEX ++ to_be 2 (nv_alg n) ++ to_be 4 (nv_shown n) ++
  to_be 2 (Z.of_nat (length (nv_policy n))) ++ nv_policy n ++ to_be 2 (nv_size n) ++ to_be 2 34 ++ replicate 34 0.

Definition with_nv (t : TpmState) (n : Nv) : TpmState := MkTpm (Some n) (owner_password t).
Definition nv_set (n : Nv) (bits : Z) (w l : bool) : Nv := MkNv (nv_alg n) (nv_attributes n) (nv_policy n) (nv_size n) bits w l.
Definition fresh_nv : Nv := MkNv Rollback.TPM_ALG_SHA256 Rollback.ATTRIBUTES [] Rollback.DATA_SIZE 0 false false.

Definition respond (t : TpmState) (c : Command) : list Z * TpmState :=
  match c, nv t with
  | CReadPublic, None => (tpm_error 0x18B, t)
  | CReadPublic, Some n => (response Rollback.TPM_ST_NO_SESSIONS 0 (nv_public n), t)
  | CDefine, Some _ => (tpm_error Rollback.TPM_RC_NV_DEFINED, t)
  | CDefine, None => if owner_password t then (tpm_error TPM_RC_BAD_AUTH, t) else (tpm_ok [], with_nv t fresh_nv)
  | CGetPermanent, _ =>
      (response Rollback.TPM_ST_NO_SESSIONS 0 ([0] ++ to_be 4 6 ++ to_be 4 1 ++ to_be 4 0x200 ++ to_be 4 (if owner_password t then 1 else 0)), t)
  | _, None => (tpm_error 0x18B, t)
  | CRead, Some n => if nv_written n then (tpm_ok (to_be 2 8 ++ to_be 8 (nv_bits n)), t) else (tpm_error TPM_RC_NV_UNINITIALIZED, t)
  | CSetBits bits, Some n =>
      if nv_locked n then (tpm_error Rollback.TPM_RC_NV_LOCKED, t)
      else (tpm_ok [], with_nv t (nv_set n (Z.lor (nv_bits n) bits) true false))
  | CWriteLock, Some n => (tpm_ok [], with_nv t (nv_set n (nv_bits n) (nv_written n) true))
  end.

(** Restarting the TPM releases a lock that was to last until then. *)
Definition restart (t : TpmState) : TpmState :=
  match nv t with Some n => with_nv t (nv_set n (nv_bits n) (nv_written n) false) | None => t end.

(** What the firmware's TCG2 protocol gives the loader: a command is answered, or the
    firmware returns a status. *)
Class Tcg2 (T : Type) : Type := {
  submit_command : T → list Z → result (list Z) Z * T;
  power_cycle : T → T
}.
Record nv_wf (n : Nv) : Prop := {
  nw_alg : in_width 16 (nv_alg n);
  nw_attributes : in_width 32 (nv_attributes n);
  nw_policy : (length (nv_policy n) ≤ 64)%nat;
  nw_size : in_width 16 (nv_size n);
  nw_bits : in_width 64 (nv_bits n);
  nw_unwritten : nv_written n = false → nv_bits n = 0
}.
Definition command_wf (c : Command) : Prop := match c with CSetBits bits => in_width 64 bits | _ => True end.
Definition tpm_wf (t : TpmState) : Prop := match nv t with Some n => nv_wf n | None => True end.

(** That behind it is a TPM.  Whatever the protocol answers, an error included, the
    command was carried out or it was not.  While it is [healthy] it answers as the
    specification says; between two restarts it may also fail any of the commands. *)
Class Tcg2Laws (T : Type) `{Tcg2 T} : Type := {
  tpm_state : T → TpmState;
  healthy : T → Prop;
  cycle_restarts : ∀ t, tpm_state (power_cycle t) = restart (tpm_state t);
  submit_moves : ∀ t c, tpm_wf (tpm_state t) → command_wf c →
    let t' := (submit_command t (encode c)).2 in tpm_state t' = tpm_state t ∨ tpm_state t' = (respond (tpm_state t) c).2;
  (* The response is at the front of the buffer of 256 bytes the loader gives. *)
  submit_answers : ∀ t c, healthy t → tpm_wf (tpm_state t) → command_wf c → ∃ t' tail,
    submit_command t (encode c) = (Ok ((respond (tpm_state t) c).1 ++ tail), t') ∧ healthy t' ∧
    length ((respond (tpm_state t) c).1 ++ tail) = 256%nat ∧ tpm_state t' = (respond (tpm_state t) c).2
}.

(** ** The loader's counter *)
Module Counter.
Section Loader.
Context {T : Type} `{Tcg2 T}.
Import Rollback.

Inductive Counter : Type :=
| Here (bits : Z)
| Absent.

Definition floor (self : Counter) : Z := match self with Here bits => Rollback.floor bits | Absent => 0 end.

Definition code_of (error : ResponseError) : Z :=
  match error with Code code => code | Size size => size | Tag tag => tag | Truncated | RShape => 0 end.

(** [submit], then a parser, as the loader writes it. *)
Definition ask {A} (t : T) (command : list Z) (parse : list Z → result A ResponseError) : result A Z * T :=
  match submit_command t command with
  | (Err status, t) => (Err status, t)
  | (Ok bytes, t) => (match parse bytes with Ok a => Ok a | Err error => Err (code_of error) end, t)
  end.

(** [open]: [tcg2] is the protocol if the firmware has it.  [report_owner] only asks
    and prints. *)
Definition open (tcg2 : option T) (slot_disk : bool) : Counter * option T :=
  match tcg2 with
  | None => (Absent, None)
  | Some t =>
      match ask t read_public parse_read_public with
      | (Err _, t) => (Absent, Some t)
      | (Ok public, t) =>
          let '(_, t) := ask t get_permanent parse_permanent in
          match public with
          | Some public =>
              if negb (is_ours public) then (Absent, Some t)
              else if written public then
                match ask t read parse_read with
                | (Ok bits, t) => (Here bits, Some t)
                | (Err _, t) => (Absent, Some t)
                end
              else (Here 0, Some t)
          | None =>
              if negb slot_disk then (Absent, Some t)
              else
                match ask t define parse_status with
                | (Err _, t) => (Absent, Some t)
                | (Ok _, t) => (Here 0, Some t)
                end
          end
      end
  end.

Definition advance_and_lock (counter : Counter) (booted : Booted) (tcg2 : option T) : option T :=
  match counter, tcg2 with
  | Here bits, Some t =>
      let t := match advance (Rollback.floor bits) booted with
               | Some bit => (ask t (set_bits bit) parse_status).2
               | None => t
               end in
      let '(locked, t) := ask t write_lock parse_status in
      match locked with
      | Err _ => Some t
      | Ok _ => Some (ask t (set_bits 0) parse_status).2
      end
  | _, _ => tcg2
  end.
End Loader.
End Counter.
