(* ===== verification/RollbackLaws.v ===== *)
(** * The rollback counter: its laws

    Theorems about Rollback.v: the floor of the bits is the highest version recorded,
    the loader's parsers read a TPM's answers as what they say, and so opening the
    counter finds the index's bits and closing it records and locks. *)
From stdpp Require Import prelude numbers list.
From S2P Require Import Prelude Bytes Rollback.
Open Scope Z_scope.
Set Warnings "-clear-no-such-hyp".
Import Rollback.

(** ** The floor *)
Lemma floor_le bits v : 0 ≤ bits → 0 ≤ v → Rollback.floor bits ≤ v ↔ bits < 2 ^ v.
Proof.
  intros Hb Hv. unfold Rollback.floor. destruct (Z.eqb_spec bits 0) as [->|Hn].
  - split; [intros _; by apply Z.pow_pos_nonneg|done].
  - rewrite Z.log2_lt_pow2 by lia. lia.
Qed.

Lemma floor_nonneg bits : 0 ≤ Rollback.floor bits.
Proof. unfold Rollback.floor. destruct (_ =? 0); [lia|]. pose proof (Z.log2_nonneg bits). lia. Qed.

Lemma floor_range bits : in_width 64 bits → 0 ≤ Rollback.floor bits ≤ 64.
Proof.
  unfold in_width. intros Hb. split; [|apply floor_le; lia]. unfold Rollback.floor. destruct (Z.eqb_spec bits 0); [lia|]. pose proof (Z.log2_nonneg bits). lia.
Qed.

Lemma lor_width w x y : 0 ≤ w → in_width w x → in_width w y → in_width w (Z.lor x y).
Proof.
  unfold in_width. intros Hw Hx Hy. split; [apply Z.lor_nonneg; lia|]. destruct (decide (Z.lor x y = 0)) as [->|Hn]; [lia|].
  assert (0 ≤ Z.lor x y) by (apply Z.lor_nonneg; lia). apply Z.log2_lt_pow2; [lia|]. rewrite Z.log2_lor by lia.
  assert (Hl : ∀ v, 0 ≤ v < 2 ^ w → v ≠ 0 → Z.log2 v < w) by (intros v Hv Hv0; apply Z.log2_lt_pow2; lia).
  destruct (decide (x = 0)) as [->|]; [|destruct (decide (y = 0)) as [->|]].
  - rewrite Z.lor_0_l in Hn. change (Z.log2 0) with 0. rewrite Z.max_r by apply Z.log2_nonneg. by apply Hl.
  - change (Z.log2 0) with 0. rewrite Z.max_l by apply Z.log2_nonneg. by apply Hl.
  - apply Z.max_lub_lt; by apply Hl.
Qed.

(** Setting bits never lowers the floor; recording a version raises it to that version. *)
Lemma floor_mono bits more : in_width 64 bits → in_width 64 more → Rollback.floor bits ≤ Rollback.floor (Z.lor bits more).
Proof.
  intros Hb Hm. unfold in_width in *. assert (H0 : 0 ≤ Z.lor bits more) by (apply Z.lor_nonneg; lia). unfold Rollback.floor at 1. destruct (Z.eqb_spec bits 0) as [->|Hn].
  { unfold Rollback.floor. destruct (_ =? 0); [lia|]. pose proof (Z.log2_nonneg (Z.lor 0 more)). lia. }
  assert (Z.lor bits more ≠ 0) by (intros E; apply Z.lor_eq_0_iff in E; lia).
  unfold Rollback.floor. rewrite (proj2 (Z.eqb_neq _ _)) by done. rewrite Z.log2_lor by lia. lia.
Qed.

Lemma floor_recorded bits v bit : in_width 64 bits → bit_for v = Some bit → 0 ≤ v → in_width 64 bit ∧ v ≤ Rollback.floor (Z.lor bits bit).
Proof.
  unfold bit_for, MAX_VERSION. intros Hb. destruct (Z.eqb_spec v 0) as [|Hv]; cbn [orb]; [done|]. destruct (Z.ltb_spec 64 v) as [|Hv']; [done|]. intros [= <-] Hp.
  rewrite Z.shiftl_1_l. assert (Hw : in_width 64 (2 ^ (v - 1))) by (unfold in_width; split; [lia|apply Z.pow_lt_mono_r; lia]). split; [done|].
  rewrite Z.lor_comm. etransitivity; [|by apply floor_mono]. unfold Rollback.floor. rewrite (proj2 (Z.eqb_neq _ _)) by lia. rewrite Z.log2_pow2 by lia. lia.
Qed.

(** What [advance] sets is a version's bit, and the version is then recorded. *)
Lemma advance_bit bits booted bit : advance (Rollback.floor bits) booted = Some bit → in_width 64 bit.
Proof.
  unfold advance. destruct (verified booted); cbn [negb orb]; [|done]. destruct (marked_good booted); cbn [negb orb]; [|done].
  destruct (Z.leb_spec (version booted) (Rollback.floor bits)); [done|]. intros Ha. pose proof (floor_nonneg bits). eapply (floor_recorded 0); [by vm_compute|exact Ha|lia].
Qed.

Lemma advance_records bits booted : in_width 64 bits → verified booted = true → marked_good booted = true → version booted ≤ 64 →
  version booted ≤ Rollback.floor (match advance (Rollback.floor bits) booted with Some bit => Z.lor bits bit | None => bits end).
Proof.
  intros Hb Hv Hg H64. unfold advance. rewrite Hv, Hg. cbn [negb orb]. destruct (Z.leb_spec (version booted) (Rollback.floor bits)) as [|Hlt]; [done|]. pose proof (floor_range bits Hb).
  destruct (bit_for (version booted)) as [bit|] eqn:E; [eapply floor_recorded; [exact Hb|exact E|lia]|]. unfold bit_for, MAX_VERSION in E.
  rewrite (proj2 (Z.eqb_neq _ _)), (proj2 (Z.ltb_ge _ _)) in E by lia. done.
Qed.

Lemma advance_never_lowers bits booted : in_width 64 bits → Rollback.floor bits ≤ Rollback.floor (match advance (Rollback.floor bits) booted with Some bit => Z.lor bits bit | None => bits end).
Proof. intros Hb. destruct (advance _ booted) as [bit|] eqn:E; [|done]. apply floor_mono; [done|by eapply advance_bit]. Qed.

(** ** Reading a TPM's answers *)
Lemma response_length tag code body : length (response tag code body) = (10 + length body)%nat.
Proof. unfold response. rewrite !length_app, !length_to_be. lia. Qed.

Lemma answered_is tag code body tail want : in_width 16 tag → in_width 32 code → length (response tag code body ++ tail) = 256%nat →
  answered (response tag code body ++ tail) want =
    if negb (code =? 0) then Err (Code code) else if tag =? want then Ok (response tag code body) else Err (Tag tag).
Proof.
  intros Ht Hc Hl. assert (Hbody : (length body ≤ 246)%nat) by (rewrite length_app, response_length in Hl; lia).
  assert (Hsize : in_width 32 (Z.of_nat (10 + length body))) by (unfold in_width; lia).
  assert (Hg : ∀ a n, (a + n ≤ 10)%nat → ∀ x, (10 ≤ length x)%nat → get x a n = Some (take n (drop a x))) by (intros; unfold get; by rewrite decide_True by lia).
  unfold answered, Rollback.u32_at, Rollback.u16_at. rewrite (Hg 2%nat 4%nat ltac:(lia)) by lia.
  assert (E1 : take 4 (drop 2 (response tag code body ++ tail)) = to_be 4 (Z.of_nat (10 + length body))) by reflexivity. rewrite E1.
  cbn [fmap option_fmap option_map ok_or rbind]. rewrite from_to_be by exact Hsize. rewrite (proj2 (Z.ltb_ge _ _)) by (unfold HEADER; lia). rewrite (proj2 (Z.ltb_ge _ _)) by (rewrite Hl; lia). cbn [orb].
  rewrite Nat2Z.id. rewrite (take_app_length' (response tag code body)) by (by rewrite response_length).
  rewrite (Hg 6%nat 4%nat ltac:(lia)) by (rewrite response_length; lia). assert (E2 : take 4 (drop 6 (response tag code body)) = to_be 4 code) by reflexivity. rewrite E2.
  cbn [fmap option_fmap option_map ok_or rbind]. rewrite from_to_be by exact Hc. change TPM_RC_SUCCESS with 0. destruct (negb (code =? 0)); [done|].
  rewrite (Hg 0%nat 2%nat ltac:(lia)) by (rewrite response_length; lia). assert (E3 : take 2 (drop 0 (response tag code body)) = to_be 2 tag) by reflexivity. rewrite E3.
  cbn [fmap option_fmap option_map ok_or rbind]. by rewrite from_to_be by exact Ht.
Qed.

Lemma error_status code tail : in_width 32 code → code ≠ 0 → length (tpm_error code ++ tail) = 256%nat → parse_status (tpm_error code ++ tail) = Err (Code code).
Proof. intros Hc Hn Hl. unfold parse_status, tpm_error in *. rewrite answered_is by done. by rewrite (proj2 (Z.eqb_neq _ _) Hn). Qed.

Lemma ok_status parameters tail : length (tpm_ok parameters ++ tail) = 256%nat → parse_status (tpm_ok parameters ++ tail) = Ok tt.
Proof. intros Hl. unfold parse_status, tpm_ok in *. by rewrite answered_is by done. Qed.

Lemma read_is bits tail : in_width 64 bits → length (tpm_ok (to_be 2 8 ++ to_be 8 bits) ++ tail) = 256%nat →
  parse_read (tpm_ok (to_be 2 8 ++ to_be 8 bits) ++ tail) = Ok bits.
Proof.
  intros Hb Hl. unfold parse_read, tpm_ok in *. rewrite answered_is by done. cbn [Z.eqb negb]. rewrite Z.eqb_refl. cbn [rbind].
  transitivity (Ok (E := ResponseError) (from_be (to_be 8 bits))); [reflexivity|]. by rewrite from_to_be by exact Hb.
Qed.

Lemma no_index tail : length (tpm_error 0x18B ++ tail) = 256%nat → parse_read_public (tpm_error 0x18B ++ tail) = Ok None.
Proof. intros Hl. unfold parse_read_public, tpm_error in *. rewrite answered_is by done. reflexivity. Qed.

Lemma shown_width n : nv_wf n → in_width 32 (nv_shown n).
Proof.
  intros []. unfold nv_shown. apply lor_width; [lia|done|]. apply lor_width; [lia| |]; [destruct (nv_written n)|destruct (nv_locked n)]; by vm_compute.
Qed.

Lemma public_is n tail : nv_wf n → length (response TPM_ST_NO_SESSIONS 0 (nv_public n) ++ tail) = 256%nat →
  parse_read_public (response TPM_ST_NO_SESSIONS 0 (nv_public n) ++ tail) =
    Ok (Some (MkPublic INDEX (nv_alg n) (nv_shown n) (Z.of_nat (length (nv_policy n))) (nv_size n))).
Proof.
  intros Hn Hl. pose proof (shown_width n Hn) as Hs. destruct Hn as [Ha _ Hp Hz _ _]. unfold parse_read_public. rewrite answered_is by done. cbn [Z.eqb negb]. rewrite Z.eqb_refl.
  set (x := response TPM_ST_NO_SESSIONS 0 (nv_public n)).
  assert (Hx : (length x = 62 + length (nv_policy n))%nat) by (unfold x; rewrite response_length; unfold nv_public; rewrite !length_app, !length_to_be, length_replicate; lia).
  assert (Hg : ∀ a k, (a + k ≤ length x)%nat → get x a k = Some (take k (drop a x))) by (intros; unfold get; by rewrite decide_True by lia).
  assert (Hpol : in_width 16 (Z.of_nat (length (nv_policy n)))) by (unfold in_width; lia).
  assert (Hsz : in_width 16 (14 + Z.of_nat (length (nv_policy n)))) by (unfold in_width; lia).
  unfold Rollback.u16_at, Rollback.u32_at. unfold HEADER. cbn [Nat.add]. rewrite (Hg 10%nat), (Hg 22%nat) by lia.
  assert (E1 : take 2 (drop 10 x) = to_be 2 (14 + Z.of_nat (length (nv_policy n)))) by reflexivity. assert (E2 : take 2 (drop 22 x) = to_be 2 (Z.of_nat (length (nv_policy n)))) by reflexivity.
  assert (E3 : take 4 (drop 12 x) = to_be 4 INDEX) by reflexivity. assert (E4 : take 2 (drop 16 x) = to_be 2 (nv_alg n)) by reflexivity. assert (E5 : take 4 (drop 18 x) = to_be 4 (nv_shown n)) by reflexivity.
  rewrite E1, E2. cbn [fmap option_fmap option_map ok_or rbind]. rewrite !from_to_be by assumption.
  rewrite (proj2 (Z.eqb_eq _ _)) by lia. cbn [negb]. rewrite (Hg 12%nat), (Hg 16%nat), (Hg 18%nat), E3, E4, E5 by lia.
  cbn [fmap option_fmap option_map ok_or rbind]. rewrite !from_to_be by (assumption || by vm_compute). rewrite Nat2Z.id.
  assert (E6 : take 2 (drop (24 + length (nv_policy n)) x) = to_be 2 (nv_size n)).
  { rewrite <- drop_drop. assert (E : drop 24 x = nv_policy n ++ to_be 2 (nv_size n) ++ to_be 2 34 ++ replicate 34 0) by reflexivity. rewrite E, drop_app_length. by apply take_app_length'; rewrite length_to_be. }
  match goal with |- context [get x ?a 2] => change (get x a 2) with (get x (24 + length (nv_policy n)) 2) end. rewrite Hg, E6 by lia. cbn [fmap option_fmap option_map ok_or rbind]. by rewrite from_to_be by exact Hz.
Qed.

(** ** The counter in the TPM *)

(** The index [define] makes, whatever has been set in it since. *)
Record ours (n : Nv) : Prop := {
  ou_alg : nv_alg n = TPM_ALG_SHA256;
  ou_attributes : nv_attributes n = ATTRIBUTES;
  ou_policy : nv_policy n = [];
  ou_size : nv_size n = DATA_SIZE;
  ou_bits : in_width 64 (nv_bits n);
  ou_unwritten : nv_written n = false → nv_bits n = 0
}.

Lemma ours_wf n : ours n → nv_wf n.
Proof. intros []. split; [congruence || (rewrite ou_alg0; by vm_compute)|rewrite ou_attributes0; by vm_compute|rewrite ou_policy0; cbn; lia|rewrite ou_size0; by vm_compute|done|done]. Qed.
Lemma fresh_ours : ours fresh_nv.
Proof. by split. Qed.
Lemma ours_set n bits w l : ours n → in_width 64 bits → (w = false → bits = 0) → ours (nv_set n bits w l).
Proof. intros [] Hb Hw. by split. Qed.

Definition shown_public (n : Nv) : Public := MkPublic INDEX (nv_alg n) (nv_shown n) (Z.of_nat (length (nv_policy n))) (nv_size n).
Lemma ours_shown n : ours n → is_ours (shown_public n) = true ∧ written (shown_public n) = nv_written n.
Proof.
  intros [E1 E2 E3 E4 _ _]. unfold shown_public, is_ours, written, nv_shown. cbn [index name_alg attributes policy_len data_size]. rewrite E1, E2, E3, E4.
  destruct (nv_written n), (nv_locked n); by vm_compute.
Qed.

Section Tpm.
Context {T : Type} `{Tcg2Laws T}.
Implicit Types t : T.

Lemma ask_is {A} t c (parse : list Z → result A ResponseError) r : healthy t → tpm_wf (tpm_state t) → command_wf c →
  (∀ tail, length ((respond (tpm_state t) c).1 ++ tail) = 256%nat → parse ((respond (tpm_state t) c).1 ++ tail) = r) →
  ∃ t', Counter.ask t (encode c) parse = (match r with Ok a => Ok a | Err error => Err (Counter.code_of error) end, t') ∧ healthy t' ∧ tpm_state t' = (respond (tpm_state t) c).2.
Proof.
  intros Hh Hw Hc Hp. destruct (submit_answers t c Hh Hw Hc) as (t' & tail & Hs & Hh' & Hl & Ht). exists t'. unfold Counter.ask. rewrite Hs, Hp by done. done.
Qed.

(** An answer whose content does not matter. *)
Lemma ask_any {A} t c (parse : list Z → result A ResponseError) : healthy t → tpm_wf (tpm_state t) → command_wf c →
  ∃ r t', Counter.ask t (encode c) parse = (r, t') ∧ healthy t' ∧ tpm_state t' = (respond (tpm_state t) c).2.
Proof.
  intros Hh Hw Hc. destruct (submit_answers t c Hh Hw Hc) as (t' & tail & Hs & Hh' & Hl & Ht). unfold Counter.ask. rewrite Hs. by eexists _, t'.
Qed.

(** Opening finds the bits of an index that is the loader's, and makes one where there
    is none, a slot disk was found and the owner has no password. *)
Lemma open_is t slot_disk : healthy t → tpm_wf (tpm_state t) → ∃ c t', Counter.open (Some t) slot_disk = (c, Some t') ∧ healthy t' ∧
  match nv (tpm_state t) with
  | Some n => tpm_state t' = tpm_state t ∧ (ours n → c = Counter.Here (nv_bits n))
  | None =>
      if slot_disk && negb (owner_password (tpm_state t)) then c = Counter.Here 0 ∧ tpm_state t' = with_nv (tpm_state t) fresh_nv
      else c = Counter.Absent ∧ tpm_state t' = tpm_state t
  end.
Proof.
  intros Hh Hw. unfold Counter.open. change read_public with (encode CReadPublic). change get_permanent with (encode CGetPermanent).
  change Rollback.read with (encode CRead). change define with (encode CDefine). unfold tpm_wf in Hw. destruct (nv (tpm_state t)) as [n|] eqn:En.
  - destruct (ask_is t CReadPublic parse_read_public (Ok (Some (shown_public n)))) as (t1 & -> & Ht1 & E1); [done|by unfold tpm_wf; rewrite En|done|cbn [respond]; rewrite En; intros tail Hl; by apply public_is|].
    cbn [respond] in E1. rewrite En in E1. cbn [snd] in E1.
    destruct (ask_any t1 CGetPermanent parse_permanent) as (r & t2 & -> & Ht2 & E2); [done|by unfold tpm_wf; rewrite E1, En|done|]. cbn [respond snd] in E2. rewrite E1 in E2.
    destruct (is_ours (shown_public n)) eqn:Eo; cbn [negb]; [|eexists _, t2; split_and!; [done|done|done|intros Ho; by rewrite (proj1 (ours_shown n Ho)) in Eo]].
    destruct (written (shown_public n)) eqn:Ewr.
    + destruct (ask_any t2 CRead parse_read) as (r3 & t3 & E3 & Ht3 & E3'); [done|by unfold tpm_wf; rewrite E2, En|done|].
      cbn [respond] in E3'. rewrite E2, En in E3'. assert (E4 : tpm_state t3 = tpm_state t) by (rewrite E3'; by destruct (nv_written n)).
      destruct r3 as [bits|e]; rewrite E3; (eexists _, t3; split_and!; [done|done|done|]); intros Ho; destruct (ours_shown n Ho) as [_ Hwr]; rewrite Hwr in Ewr;
      (destruct (ask_is t2 CRead parse_read (Ok (nv_bits n))) as (t4 & E5 & _ & _); [done|by unfold tpm_wf; rewrite E2, En|done|cbn [respond]; rewrite E2, En, Ewr; intros tail Hl; apply read_is; [apply Ho|done]|]);
      rewrite E3 in E5; congruence.
    + eexists _, t2. split_and!; [done|done|done|]. intros Ho. destruct (ours_shown n Ho) as [_ Hwr]. rewrite Hwr in Ewr. by rewrite (ou_unwritten n Ho Ewr).
  - destruct (ask_is t CReadPublic parse_read_public (Ok None)) as (t1 & -> & Ht1 & E1); [done|by unfold tpm_wf; rewrite En|done|cbn [respond]; rewrite En; intros tail Hl; by apply no_index|].
    cbn [respond] in E1. rewrite En in E1. cbn [snd] in E1.
    destruct (ask_any t1 CGetPermanent parse_permanent) as (r & t2 & -> & Ht2 & E2); [done|by unfold tpm_wf; rewrite E1, En|done|]. cbn [respond snd] in E2. rewrite E1 in E2.
    destruct slot_disk; cbn [negb andb]; [|by eexists _, t2]. destruct (owner_password (tpm_state t)) eqn:Ep; cbn [negb].
    + destruct (ask_is t2 CDefine parse_status (Err (Code TPM_RC_BAD_AUTH))) as (t3 & -> & Ht3 & E3); [done|by unfold tpm_wf; rewrite E2, En|done|cbn [respond]; rewrite E2, En, Ep; intros tail Hl; by apply error_status|].
      eexists _, t3. split_and!; [done|done|done|]. cbn [respond] in E3. rewrite E2, En, Ep in E3. exact E3.
    + destruct (ask_is t2 CDefine parse_status (Ok tt)) as (t3 & -> & Ht3 & E3); [done|by unfold tpm_wf; rewrite E2, En|done|cbn [respond]; rewrite E2, En, Ep; intros tail Hl; by apply ok_status|].
      eexists _, t3. split_and!; [done|done|done|]. cbn [respond] in E3. rewrite E2, En, Ep in E3. exact E3.
Qed.

(** Closing records a good set's version, never loses a recorded one, and leaves the
    index locked. *)
Lemma advance_and_lock_is t n booted : healthy t → nv (tpm_state t) = Some n → ours n → nv_locked n = false →
  ∃ t' n', Counter.advance_and_lock (Counter.Here (nv_bits n)) booted (Some t) = Some t' ∧ healthy t' ∧ tpm_state t' = with_nv (tpm_state t) n' ∧ ours n' ∧ nv_locked n' = true ∧
    (nv_bits n' = match advance (Rollback.floor (nv_bits n)) booted with Some bit => Z.lor (nv_bits n) bit | None => nv_bits n end).
Proof.
  intros Hh En Ho Hu. unfold Counter.advance_and_lock. change write_lock with (encode CWriteLock). change (set_bits 0) with (encode (CSetBits 0)).
  assert (Hset : ∃ t1 n1, (match advance (Rollback.floor (nv_bits n)) booted with Some bit => (Counter.ask t (set_bits bit) parse_status).2 | None => t end) = t1 ∧ healthy t1 ∧
    tpm_state t1 = with_nv (tpm_state t) n1 ∧ ours n1 ∧ nv_locked n1 = false ∧
    nv_bits n1 = match advance (Rollback.floor (nv_bits n)) booted with Some bit => Z.lor (nv_bits n) bit | None => nv_bits n end).
  { destruct (advance _ booted) as [bit|] eqn:Ea.
    - assert (Hbit : in_width 64 bit).
      { eapply advance_bit; exact Ea. }
      destruct (ask_any t (CSetBits bit) parse_status) as (r & t1 & E1 & Ht1 & Es); [done|unfold tpm_wf; rewrite En; by apply ours_wf|done|].
      cbn [encode] in E1. rewrite E1. cbn [snd]. cbn [respond] in Es. rewrite En, Hu in Es. cbn [snd] in Es. eexists t1, _. split_and!; [done|done|exact Es| |done|done].
      apply ours_set; [done|by apply lor_width; [lia|apply Ho|]|done].
    - exists t, n. split_and!; try done. destruct (tpm_state t) as [x p]. cbn in *. by subst. }
  destruct Hset as (t1 & n1 & -> & Hh1 & Es1 & Ho1 & Hu1 & Hb1).
  destruct (ask_is t1 CWriteLock parse_status (Ok tt)) as (t2 & -> & Ht2 & E2); [done|unfold tpm_wf; rewrite Es1; by apply ours_wf|done|cbn [respond]; rewrite Es1; intros tail Hl; by apply ok_status|].
  cbn [respond] in E2. rewrite Es1 in E2. cbn [with_nv nv snd owner_password] in E2. set (n2 := nv_set n1 (nv_bits n1) (nv_written n1) true) in *.
  assert (Ho2 : ours n2) by (apply ours_set; [done|apply Ho1|apply Ho1]).
  destruct (ask_any t2 (CSetBits 0) parse_status) as (r & t3 & E3 & Ht3 & Es3); [done|unfold tpm_wf; rewrite E2; by apply ours_wf|done|].
  rewrite E3. cbn [respond] in Es3. rewrite E2 in Es3. cbn in Es3. exists t3, n2. split_and!; [done|done|exact Es3|done|done|by rewrite <- Hb1].
Qed.
End Tpm.

(** ** A TPM in software

    The specification's answers behind the protocol: the laws can be met. *)
Definition set_bits_head : list Z := take 31 (set_bits 0).
Definition decode (command : list Z) : option Command :=
  if bool_decide (command = read_public) then Some CReadPublic
  else if bool_decide (command = define) then Some CDefine
  else if bool_decide (command = Rollback.read) then Some CRead
  else if bool_decide (command = write_lock) then Some CWriteLock
  else if bool_decide (command = get_permanent) then Some CGetPermanent
  else if bool_decide (take 31 command = set_bits_head) then Some (CSetBits (from_be (drop 31 command)))
  else None.

Lemma decode_encode c : command_wf c → decode (encode c) = Some c.
Proof.
  destruct c as [| | |bits| |]; [by vm_compute|by vm_compute|by vm_compute| |by vm_compute|by vm_compute]. intros Hb. unfold decode. cbn [encode].
  rewrite !(bool_decide_eq_false_2 (set_bits bits = _)) by (intros [=]). rewrite bool_decide_eq_true_2 by reflexivity.
  change (drop 31 (set_bits bits)) with (to_be 8 bits). by rewrite from_to_be by exact Hb.
Qed.

#[global] Instance soft_tpm : Tcg2 TpmState := {
  submit_command t command := match decode command with
                              | Some c => let '(bytes, t') := respond t c in (Ok (bytes ++ replicate (256 - length bytes) 0), t')
                              | None => (Err 0, t)
                              end;
  power_cycle := restart
}.

Lemma respond_length t c : tpm_wf t → (length (respond t c).1 ≤ 256)%nat.
Proof.
  unfold tpm_wf. intros Hw. destruct c, (nv t) as [n|] eqn:En; cbn [respond]; rewrite ?En; unfold tpm_ok, tpm_error; repeat case_match; cbn [fst];
    rewrite ?response_length, ?length_app, ?length_to_be; cbn [length session_answer]; try lia.
  unfold nv_public. rewrite !length_app, !length_to_be, length_replicate. destruct Hw. lia.
Qed.

#[global] Instance soft_tpm_laws : Tcg2Laws TpmState.
Proof.
  refine {| tpm_state := fun t => t; healthy := fun _ => True |}; [done| |].
  { intros t c Hw Hc. cbn [submit_command soft_tpm]. rewrite (decode_encode c Hc). destruct (respond t c). by right. }
  intros t c _ Hw Hc. exists (respond t c).2, (replicate (256 - length (respond t c).1) 0).
  cbn [submit_command soft_tpm]. rewrite (decode_encode c Hc). pose proof (respond_length t c Hw). destruct (respond t c) as [bytes t']. cbn [fst snd] in *.
  split_and!; [done|done| |done]. rewrite length_app, length_replicate. lia.
Defined.
