(* ===== verification/Loader.v ===== *)
(** * The loader's choice of a boot set

    The part of src/boot/bhaskixboot/src/main.rs that decides what is booted: the plan
    over the slot disk, the reading of a set from a slot or from the boot volume, its
    check against the rollback counter's floor, the fall back to the other slot, the
    advance and the lock of the counter, and the policy under Secure Boot.  It composes
    Slots.v, Rollback.v and BootSig.v.  The firmware's file reads are a parameter; what
    is only measured, timed or printed is left out.  The theorems are in SecureBoot.v. *)
From stdpp Require Import prelude numbers list.
From S2P Require Import Prelude Bytes Sha BootSig Slots Rollback.
Open Scope Z_scope.
Set Warnings "-clear-no-such-hyp".

Module Loader.
Definition KERNEL_BUFFER_PAGES : Z := 4096.
Definition INITRD_BUFFER_PAGES : Z := 4096.
(** [efi::NOT_FOUND]. *)
Definition NOT_FOUND : Z := 2 ^ 63 + 14.

Inductive SecureBoot : Type :=
| On
| Off
| NoVariable  (* [Absent] *)
| Unreadable (status : Z).

Definition is_on (s : SecureBoot) : bool := match s with On => true | _ => false end.

(** Why a set was not verified (src/boot/handoff/src/lib.rs). *)
Inductive Unverified : Type :=
| Missing
| Unread  (* [Unreadable] *)
| Refused (refusal : BootSig.Refusal).

Inductive Signature : Type :=
| Verified (key_id : list Z) (secure_boot : bool)
| NotVerified (why : Unverified).

(** A boot set as read: the lengths in the source are those of the bytes here. *)
Record SetRead : Type := MkSetRead {
  kernel : list Z;
  initrd : list Z;
  conf : list Z;
  conf_unreadable : bool;
  sig_read : result (list Z) Unverified
}.

(** What the firmware answers for the four files of the boot volume. *)
Record Esp : Type := MkEsp {
  esp_kernel : result (list Z) SlotDisk.Unread;
  esp_initrd : result (list Z) SlotDisk.Unread;
  esp_conf : result (list Z) SlotDisk.Unread;
  esp_sig : result (list Z) SlotDisk.Unread
}.

(** [None] is a kernel or an initrd that refuses the boot in place. *)
Definition read_esp_set (esp : Esp) : option SetRead :=
  match esp_kernel esp, esp_initrd esp with
  | Ok k, Ok i =>
      let '(c, unreadable) := match esp_conf esp with
                              | Ok c => (c, false)
                              | Err (SlotDisk.Firmware status) => ([], negb (status =? NOT_FOUND))
                              | Err SlotDisk.TooLarge => ([], true)
                              end in
      let s := match esp_sig esp with
               | Ok s => Ok s
               | Err (SlotDisk.Firmware status) => Err (if status =? NOT_FOUND then Missing else Unread)
               | Err SlotDisk.TooLarge => Err Unread
               end in
      Some (MkSetRead k i c unreadable s)
  | _, _ => None
  end.

Section Firmware.
Context {Disk T : Type} `{BlockIo Disk, Tcg2 T}.

(** [read_slot_set]: [None] is an answer the caller falls back from.  The kernel's and
    the initrd's buffers are whole pages; where the two on the stack lie is left open. *)
Definition read_slot_set (disk : SlotDisk.SlotDisk Disk) (slot : Slots.Slot) (aligned : bool * bool) : outcome (option SetRead) :=
  let partition := Slots.Layout.slot (SlotDisk.layout disk) slot in
  h ← SlotDisk.header disk partition;
  match h with
  | Err _ => Done None
  | Ok header =>
      k ← SlotDisk.read disk partition header Slots.Kernel (KERNEL_BUFFER_PAGES * 4096) true;
      match k with
      | Err _ => Done None
      | Ok k =>
          i ← SlotDisk.read disk partition header Slots.Initrd (INITRD_BUFFER_PAGES * 4096) true;
          match i with
          | Err _ => Done None
          | Ok i =>
              c ← SlotDisk.read disk partition header Slots.Conf 4096 aligned.1;
              match c with
              | Err _ => Done None
              | Ok c =>
                  s ← SlotDisk.read disk partition header Slots.Sig 8192 aligned.2;
                  Done (Some (MkSetRead k i c false (match s with Ok s => Ok s | Err _ => Err Unread end)))
              end
          end
      end
  end.

(** [plan_slots]. *)
Definition plan_slots (disk : SlotDisk.SlotDisk Disk) : outcome (Slots.Plan * SlotDisk.SlotDisk Disk) :=
  let record := match SlotDisk.drecord disk with Ok r => Some r | Err _ => None end in
  let plan := Slots.plan record in
  match Slots.write plan with
  | None => Done (plan, disk)
  | Some w =>
      '(r, disk) ← SlotDisk.write_record disk w;
      match r with
      | Ok _ => Done (plan, disk)
      | Err _ =>
          let active := match record with Some record => Slots.active record | None => Slots.A end in
          Done (Slots.MkPlan active (Slots.Slot.other active) None Slots.Active, disk)
      end
  end.

(** The check of a set, with its version once a signature covers it. *)
Definition judge (set : SetRead) (keys : list (list Z)) (floor : Z) (secure_boot : SecureBoot) : outcome (Signature * option Z) :=
  match sig_read set with
  | Err why => Done (NotVerified why, None)
  | Ok sig =>
      if conf_unreadable set then Done (NotVerified Unread, None)
      else
        k ← Sha256.digest (kernel set);
        i ← Sha256.digest (initrd set);
        c ← Sha256.digest (conf set);
        r ← BootSig.check sig keys (BootSig.MkDigests k i c) floor;
        Done (match r with
              | Ok v => (Verified (BootSig.vkey_id v) (is_on secure_boot), Some (BootSig.vversion v))
              | Err refusal => (NotVerified (Refused refusal), None)
              end)
  end.

Definition is_verified (s : Signature) : bool := match s with Verified _ _ => true | NotVerified _ => false end.

(** A machine as a boot finds it. *)
Record Machine : Type := MkMachine {
  disks : list Disk;
  esp : Esp;
  secure_boot : SecureBoot;
  keys : list (list Z);
  stack_aligned : bool * bool
}.

(** The loop over the sources, from [attempt] on; [None] is the refusal that parks. *)
Fixpoint attempts_loop (fuel : nat) (m : Machine) (slot_disk : option (SlotDisk.SlotDisk Disk)) (attempts : list (option Slots.Slot)) (floor : Z) (attempt : nat)
    : outcome (option (SetRead * Signature * option Z * option Slots.Slot)) :=
  match fuel with
  | O => OutOfFuel
  | S fuel' =>
      slot ← at_index attempts attempt;
      set ← match slot, slot_disk with
            | Some s, Some disk => set ← read_slot_set disk s (stack_aligned m); Done (match set with Some set => inl set | None => inr true end)
            | _, _ => Done (match read_esp_set (esp m) with Some set => inl set | None => inr false end)
            end;
      match set with
      | inr false => Done None
      | inr true => if (attempt =? 0)%nat then attempts_loop fuel' m slot_disk attempts floor 1 else Done None
      | inl set =>
          '(signature, version) ← judge set (keys m) floor (secure_boot m);
          let done' := Some (set, signature, version, slot) in
          match slot with
          | None => Done done'
          | Some _ =>
              if is_verified signature || (attempt =? 2)%nat then Done done'
              else if (attempt =? 0)%nat then attempts_loop fuel' m slot_disk attempts floor 1
              else if is_on (secure_boot m) then Done done'
              else attempts_loop fuel' m slot_disk attempts floor 2
          end
      end
  end.

(** How a boot ends: a set handed over, the refusal that goes back to the boot manager,
    or a loader that stopped. *)
Inductive Ending : Type :=
| Booted (set : SetRead) (signature : Signature) (version : option Z) (slot : option Slots.Slot) (marked_good : bool)
| SecurityViolation
| Parked
| Panicked.

(** The slot disk and the plan, before the counter is opened. *)
Definition find_and_plan (m : Machine) : outcome (option (Slots.Plan * SlotDisk.SlotDisk Disk)) :=
  found ← SlotDisk.find (disks m);
  match found with
  | None => Done None
  | Some disk => x ← plan_slots disk; Done (Some x)
  end.

(** [efi_main], from the search for a slot disk to the policy.  A panic stops the machine
    with the TPM as it was left. *)
Definition efi_main (m : Machine) (tcg2 : option T) : Ending * option T :=
  match find_and_plan m with
  | Done found =>
      let slot_disk := snd <$> found in
      let attempts := match found with
                      | None => [None; None; None]
                      | Some (plan, _) => [Some (Slots.pfirst plan); Some (Slots.pthen plan); Some (Slots.pfirst plan)]
                      end in
      let '(counter, tcg2) := Counter.open tcg2 (match slot_disk with Some _ => true | None => false end) in
      match attempts_loop 3 m slot_disk attempts (Counter.floor counter) 0 with
      | Done None => (Parked, tcg2)
      | Done (Some (set, signature, version, slot)) =>
          let marked_good := match slot, slot_disk with
                             | Some slot, Some disk => match SlotDisk.drecord disk with Ok record => bool_decide (Slots.active record = slot) | Err _ => false end
                             | _, _ => false
                             end in
          let booted := Rollback.MkBooted (default 0 version) (match version with Some _ => true | None => false end) marked_good in
          let tcg2 := Counter.advance_and_lock counter booted tcg2 in
          if is_on (secure_boot m) && negb (is_verified signature) then (SecurityViolation, tcg2)
          else (Booted set signature version slot marked_good, tcg2)
      | Panic | OutOfFuel => (Panicked, tcg2)
      end
  | Panic | OutOfFuel => (Panicked, tcg2)
  end.
End Firmware.
Arguments Machine : clear implicits.
End Loader.
