(* ===== verification/SecureBoot.v ===== *)
(** * What boots

    Theorems about Loader.v: under Secure Boot a set that boots is signed under a key the
    loader holds and not below the floor; the counter only rises, and what a running
    system sends the TPM cannot take it back; so over any sequence of boots, from disks
    anyone may rewrite in between, a set that was marked good is not followed by an
    older one where the TPM is there and answers.  And a slot on trial is taken first by
    as many boots as its record allows. *)
From stdpp Require Import prelude numbers list.
From S2P Require Import Prelude Bytes Sha Slh SlhTrip BootSig Slots SlotsLaws Rollback RollbackLaws Loader.
Open Scope Z_scope.
Set Warnings "-clear-no-such-hyp".
Import Loader.
#[local] Opaque BootSig.check Sha256.digest.

(** ** The check of a set *)

(** A set signed at version [v] under one of [keys], not below [floor]. *)
Definition signed_set (set : SetRead) (keys : list (list Z)) (floor v : Z) : Prop :=
  ∃ sig key, sig_read set = Ok sig ∧ v = from_le (field sig 20 4) ∧
    acceptable sig keys (BootSig.MkDigests (Fips.sha256 (kernel set)) (Fips.sha256 (initrd set)) (Fips.sha256 (conf set))) floor key.

Lemma signed_floor set keys floor v : signed_set set keys floor v → floor ≤ v.
Proof. intros (sig & key & _ & -> & Ha). apply Ha. Qed.

Definition keys_ok (keys : list (list Z)) : Prop := Forall (fun key => length key = Slh.PUBLIC_KEY_BYTES) keys.

Lemma judge_is set keys floor sb : keys_ok keys → ∃ s v, judge set keys floor sb = Done (s, v) ∧
  if is_verified s then ∃ w, v = Some w ∧ signed_set set keys floor w else v = None.
Proof.
  intros Hk. unfold judge. destruct (sig_read set) as [sig|why] eqn:Es; [|by eexists _, _]. destruct (conf_unreadable set); [by eexists _, _|].
  rewrite !digest_ok. cbn [mbind outcome_bind].
  destruct (check_is sig keys (BootSig.MkDigests (Fips.sha256 (kernel set)) (Fips.sha256 (initrd set)) (Fips.sha256 (conf set))) floor Hk) as (r & -> & Hr).
  cbn [mbind outcome_bind]. destruct r as [v|e]; eexists _, _; (split; [done|]); cbn [is_verified]; [|done].
  destruct (proj1 (Hr v) eq_refl) as (key & Ha & ->). cbn [BootSig.vversion]. eexists. split; [done|]. by exists sig, key.
Qed.

Section Boot.
Context {Disk T : Type} `{BlockIo Disk, Tcg2 T}.
Implicit Types m : Machine Disk.

Lemma loop_judged fuel m sd attempts floor : ∀ attempt set s v slot, keys_ok (keys m) → attempts_loop fuel m sd attempts floor attempt = Done (Some (set, s, v, slot)) →
  if is_verified s then ∃ w, v = Some w ∧ signed_set set (keys m) floor w else v = None.
Proof.
  induction fuel as [|fuel IH]; intros attempt set s v slot Hk; cbn [attempts_loop]; [done|].
  destruct (at_index attempts attempt) as [sl| |]; try done. cbn [mbind outcome_bind].
  match goal with |- context [?x ≫= _] => destruct x as [[st|[]]| |] end; try done; cbn [mbind outcome_bind].
  - destruct (judge_is st (keys m) floor (secure_boot m) Hk) as (s' & v' & -> & Hs'). cbn [mbind outcome_bind].
    destruct sl; [|by intros [= <- <- <- <-]]. destruct (is_verified s' || _); [by intros [= <- <- <- <-]|].
    destruct (attempt =? 0)%nat; [by apply IH|]. destruct (is_on _); [by intros [= <- <- <- <-]|by apply IH].
  - destruct (attempt =? 0)%nat; [by apply IH|done].
Qed.

(** The counter as a boot opens it, and the floor it holds sets against: what the TPM said,
    and nothing where there is no TPM or it did not answer. *)
Definition has_slots m : bool := match find_and_plan m with Done (Some _) => true | _ => false end.
Definition opened m (tcg2 : option T) : Counter.Counter * option T := Counter.open tcg2 (has_slots m).
Definition held_floor m (tcg2 : option T) : Z := Counter.floor (opened m tcg2).1.

(** How a boot ends, and what it leaves of the TPM. *)
Lemma efi_main_ends m (tcg2 : option T) e tcg2' : keys_ok (keys m) → efi_main m tcg2 = (e, tcg2') →
  match e with
  | Booted set s v slot good =>
      (if is_verified s then ∃ w, v = Some w ∧ signed_set set (keys m) (held_floor m tcg2) w else v = None) ∧ (is_on (secure_boot m) = true → is_verified s = true) ∧
      (good = true → has_slots m = true) ∧ tcg2' = Counter.advance_and_lock (opened m tcg2).1 (Rollback.MkBooted (default 0 v) (match v with Some _ => true | None => false end) good) (opened m tcg2).2
  | SecurityViolation => ∃ booted, tcg2' = Counter.advance_and_lock (opened m tcg2).1 booted (opened m tcg2).2
  | _ => tcg2' = tcg2 ∨ tcg2' = (opened m tcg2).2
  end.
Proof.
  intros Hk. unfold efi_main, held_floor, opened, has_slots. destruct (find_and_plan m) as [found| |]; [|intros [= <- <-]; by left..].
  assert (E : (match snd <$> found with Some _ => true | None => false end) = match found with Some _ => true | None => false end) by by destruct found.
  rewrite E. destruct (Counter.open tcg2 _) as [c t1]. cbn [fst snd].
  match goal with |- context [attempts_loop 3 m ?sd ?a ?f 0] => destruct (attempts_loop 3 m sd a f 0) as [[[[[set s] v] slot]|]| |] eqn:El end; [|intros [= <- <-]; by right..].
  pose proof (loop_judged _ _ _ _ _ _ _ _ _ _ Hk El) as Hj. destruct (is_on (secure_boot m)) eqn:Eon; destruct (is_verified s) eqn:Ev; cbn [andb negb]; intros [= <- <-]; rewrite ?Ev; [|by eexists|..].
  all: split_and!; [done|done|intros Hg; destruct found; [done|by destruct slot]|done].
Qed.

(** C11. Under Secure Boot only signed sets boot: whatever the disks and the boot volume
    hold, with a TPM or without one and whatever it answers, a set that is handed over
    verified under a key the loader holds, over the kernel, initrd and configuration handed
    over, at a version not below the floor the counter gave. *)
Theorem only_signed_sets_boot m (tcg2 : option T) set s v slot good tcg2' : keys_ok (keys m) → is_on (secure_boot m) = true →
  efi_main m tcg2 = (Booted set s v slot good, tcg2') → is_verified s = true ∧ ∃ w, v = Some w ∧ signed_set set (keys m) (held_floor m tcg2) w.
Proof. intros Hk Hon E. destruct (efi_main_ends _ _ _ _ Hk E) as (Hj & Hv & _). specialize (Hv Hon). rewrite Hv in Hj. by split. Qed.
End Boot.

(** ** The TPM over a boot *)

(** The counter is in the TPM, or nothing keeps the loader from making it. *)
Definition tpm_inv (s : TpmState) : Prop := match nv s with Some n => ours n | None => owner_password s = false end.
Definition floor_of (s : TpmState) : Z := match nv s with Some n => Rollback.floor (nv_bits n) | None => 0 end.
Definition unlocked (s : TpmState) : Prop := match nv s with Some n => nv_locked n = false | None => True end.

Lemma tpm_inv_wf s : tpm_inv s → tpm_wf s.
Proof. unfold tpm_inv, tpm_wf. destruct (nv s); [by apply ours_wf|done]. Qed.

Lemma restart_inv s : tpm_inv s → tpm_inv (restart s) ∧ unlocked (restart s) ∧ floor_of (restart s) = floor_of s.
Proof.
  unfold tpm_inv, unlocked, floor_of, restart. destruct (nv s) as [n|] eqn:En; cbn; [|by rewrite En]. intros Ho. split_and!; [|done|done]. apply ours_set; [done|apply Ho|apply Ho].
Qed.

Lemma respond_keeps s c : tpm_inv s → command_wf c → tpm_inv (respond s c).2 ∧ floor_of s ≤ floor_of (respond s c).2 ∧
  ∀ n, nv s = Some n → nv_locked n = true → nv (respond s c).2 = Some n.
Proof.
  unfold tpm_inv, floor_of. intros Hi Hc. destruct (nv s) as [n|] eqn:En; destruct c; cbn [respond]; rewrite ?En; cbn [snd]; rewrite ?En; try by split_and!.
  - destruct (nv_written n); cbn [snd]; rewrite En; by split_and!.
  - destruct (nv_locked n) eqn:El; cbn [snd with_nv nv]; rewrite ?En; [by split_and!|]. cbn [nv_bits nv_set]. split_and!; [|apply floor_mono; [apply Hi|done]|intros ? [= <-]; congruence].
    apply ours_set; [done|by apply lor_width; [lia|apply Hi|]|done].
  - cbn [with_nv nv nv_bits nv_set]. split_and!; [apply ours_set; [done|apply Hi|apply Hi]|done|]. intros ? [= <-] El. f_equal. destruct n. cbn in *. by subst.
  - rewrite Hi. cbn [snd with_nv nv fresh_nv nv_bits]. split_and!; [apply fresh_ours|done|done].
Qed.

Section Life.
Context {Disk T : Type} `{BlockIo Disk} `{Tcg2Laws T}.
Implicit Types (m : Machine Disk) (t : T).

(** What a TPM comes to by commands, answered or not: the counter stays, and does not
    fall, and a lock holds. *)
Definition kept t t' : Prop := tpm_inv (tpm_state t) → tpm_inv (tpm_state t') ∧ floor_of (tpm_state t) ≤ floor_of (tpm_state t') ∧
  ∀ n, nv (tpm_state t) = Some n → nv_locked n = true → nv (tpm_state t') = Some n.
Lemma kept_refl t : kept t t.
Proof. intros Hi. by split_and!. Qed.
Lemma kept_trans t1 t2 t3 : kept t1 t2 → kept t2 t3 → kept t1 t3.
Proof. intros H12 H23 Hi. destruct (H12 Hi) as (Hi2 & Hf2 & Hl2). destruct (H23 Hi2) as (Hi3 & Hf3 & Hl3). split_and!; [done|lia|]. intros n En El. by apply Hl3; [apply Hl2|]. Qed.

Lemma submit_keeps t c : command_wf c → kept t (submit_command t (encode c)).2.
Proof.
  intros Hc Hi. destruct (submit_moves t c (tpm_inv_wf _ Hi) Hc) as [E|E]; rewrite E; [by split_and!|]. by apply respond_keeps.
Qed.
Lemma ask_keeps {A} t c (parse : list Z → result A Rollback.ResponseError) r t' : command_wf c → Counter.ask t (encode c) parse = (r, t') → kept t t'.
Proof. intros Hc. unfold Counter.ask. pose proof (submit_keeps t c Hc) as Hk. destruct (submit_command t (encode c)) as [[|] t1]; by intros [= <- <-]. Qed.

Lemma open_keeps t sd c tcg2 : Counter.open (Some t) sd = (c, tcg2) → ∃ t', tcg2 = Some t' ∧ kept t t'.
Proof.
  unfold Counter.open. change Rollback.read_public with (encode CReadPublic). change Rollback.get_permanent with (encode CGetPermanent).
  change Rollback.read with (encode CRead). change Rollback.define with (encode CDefine).
  destruct (Counter.ask t _ _) as [[public|e] t1] eqn:E1; apply ask_keeps in E1; [|done|intros [= <- <-]; by exists t1|done].
  destruct (Counter.ask t1 _ _) as [r t2] eqn:E2. apply ask_keeps in E2; [|done]. pose proof (kept_trans _ _ _ E1 E2) as E12. destruct public as [public|].
  - destruct (negb _); [intros [= <- <-]; by exists t2|]. destruct (Rollback.written public); [|intros [= <- <-]; by exists t2].
    destruct (Counter.ask t2 _ _) as [[bits|e] t3] eqn:E3; apply ask_keeps in E3; [|done|by intros [= <- <-]; eexists; split; [|by eapply kept_trans]|done]. intros [= <- <-]. eexists. split; [done|by eapply kept_trans].
  - destruct (negb _); [intros [= <- <-]; by exists t2|].
    destruct (Counter.ask t2 _ _) as [[bits|e] t3] eqn:E3; apply ask_keeps in E3; [|done|by intros [= <- <-]; eexists; split; [|by eapply kept_trans]|done]. intros [= <- <-]. eexists. split; [done|by eapply kept_trans].
Qed.

Lemma counter_kept t c booted : ∃ t', Counter.advance_and_lock c booted (Some t) = Some t' ∧ kept t t'.
Proof.
  destruct c as [bits|]; [|exists t; split; [done|apply kept_refl]]. unfold Counter.advance_and_lock. change Rollback.write_lock with (encode CWriteLock). change (Rollback.set_bits 0) with (encode (CSetBits 0)).
  assert (Hm1 : kept t (match Rollback.advance (Rollback.floor bits) booted with Some bit => (Counter.ask t (Rollback.set_bits bit) Rollback.parse_status).2 | None => t end)).
  { destruct (Rollback.advance _ booted) as [bit|] eqn:Ea; [|apply kept_refl]. change (Rollback.set_bits bit) with (encode (CSetBits bit)).
    destruct (Counter.ask t _ _) as [r t1] eqn:E. apply ask_keeps in E; [done|]. by eapply advance_bit. }
  set (t1 := match Rollback.advance _ _ with Some _ => _ | None => _ end) in *. destruct (Counter.ask t1 _ _) as [[[]|e] t2] eqn:E2; apply ask_keeps in E2; try done; pose proof (kept_trans _ _ _ Hm1 E2) as E12.
  - destruct (Counter.ask t2 _ _) as [r t3] eqn:E3. apply ask_keeps in E3; [|by vm_compute]. exists t3. split; [done|]. by eapply kept_trans.
  - by exists t2.
Qed.

(** A boot, with a TPM that may fail any of its commands. *)
Lemma boot_keeps m t e tcg2 : keys_ok (keys m) → efi_main m (Some t) = (e, tcg2) → ∃ t', tcg2 = Some t' ∧ kept t t'.
Proof.
  intros Hk E. pose proof (efi_main_ends _ _ _ _ Hk E) as He. destruct (opened m (Some t)) as [c tcg21] eqn:Eo. destruct (open_keeps _ _ _ _ Eo) as (t1 & -> & Hm1). cbn [fst snd] in He.
  assert (Ha : ∀ b, ∃ t', Counter.advance_and_lock c b (Some t1) = Some t' ∧ kept t t') by (intros b; destruct (counter_kept t1 c b) as (t2 & -> & Hm2); exists t2; split; [done|by eapply kept_trans]).
  destruct e; [destruct He as (_ & _ & _ & ->); apply Ha|destruct He as [b ->]; apply Ha|..]; (destruct He as [-> | ->]; [by exists t; split; [|apply kept_refl]|by exists t1]).
Qed.

(** The counter as a healthy TPM opens it: there, with the bits of the index, whenever
    there is an index, and there whenever a slot disk was found. *)
Lemma open_counter t sd : healthy t → tpm_inv (tpm_state t) → unlocked (tpm_state t) → ∃ c t1, Counter.open (Some t) sd = (c, Some t1) ∧ healthy t1 ∧
  Counter.floor c = floor_of (tpm_state t) ∧ floor_of (tpm_state t1) = floor_of (tpm_state t) ∧
  match c with Counter.Here bits => ∃ n, nv (tpm_state t1) = Some n ∧ ours n ∧ nv_locked n = false ∧ bits = nv_bits n | Counter.Absent => sd = false ∧ nv (tpm_state t1) = None end.
Proof.
  intros Hh Hi Hu. destruct (open_is t sd Hh (tpm_inv_wf _ Hi)) as (c & t1 & -> & Hh1 & Hc). exists c, t1. split; [done|]. split; [done|].
  unfold tpm_inv, unlocked, floor_of in *. destruct (nv (tpm_state t)) as [n|] eqn:En.
  - destruct Hc as [Es Hc]. rewrite Es, En. rewrite (Hc Hi). split_and!; try done. by exists n.
  - rewrite Hi in Hc. cbn [negb] in Hc. rewrite andb_true_r in Hc. destruct sd; destruct Hc as [-> Es]; rewrite Es; cbn [with_nv nv].
    + split_and!; [done|done|]. by exists fresh_nv.
    + rewrite En. by split_and!.
Qed.

(** A boot with a healthy TPM: a good set's version is recorded; what is signed is not
    below the floor; and once a set is handed over, an index is locked. *)
Lemma healthy_boot m t set s v slot good tcg2 : keys_ok (keys m) → healthy t → tpm_inv (tpm_state t) → unlocked (tpm_state t) → efi_main m (Some t) = (Booted set s v slot good, tcg2) →
  ∃ t1, tcg2 = Some t1 ∧ (∀ w, v = Some w → good = true → w ≤ 64 → w ≤ floor_of (tpm_state t1)) ∧
    (is_on (secure_boot m) = true → ∃ w, v = Some w ∧ signed_set set (keys m) (floor_of (tpm_state t)) w) ∧ (∀ n, nv (tpm_state t1) = Some n → nv_locked n = true).
Proof.
  intros Hk Hh Hi Hu E. destruct (efi_main_ends _ _ _ _ Hk E) as (Hj & Hv & Hg & ->). destruct (open_counter t (has_slots m) Hh Hi Hu) as (c & t1 & Eo & Hh1 & Hfc & Hf1 & Hc).
  unfold held_floor, opened in *. rewrite Eo in *. cbn [fst snd] in *. rewrite Hfc in Hj. set (booted := Rollback.MkBooted _ _ good).
  assert (Hadv : ∃ t2, Counter.advance_and_lock c booted (Some t1) = Some t2 ∧ (∀ n, nv (tpm_state t2) = Some n → nv_locked n = true) ∧ (∀ w, v = Some w → good = true → w ≤ 64 → w ≤ floor_of (tpm_state t2))).
  { destruct c as [bits|].
    - destruct Hc as (n & En & Ho & Hl & ->). destruct (advance_and_lock_is t1 n booted Hh1 En Ho Hl) as (t2 & n2 & -> & _ & Es & Ho2 & Hl2 & Hb2). exists t2. split; [done|].
      unfold floor_of. rewrite Es. cbn [with_nv nv]. rewrite Hb2. split; [by intros n' [= <-]|]. intros w -> Hg' Hw. apply (advance_records (nv_bits n) booted); [apply Ho|done|done|cbn; lia].
    - destruct Hc as [Hsd En]. exists t1. split; [done|]. split; [by rewrite En|]. intros w _ Hg'. rewrite (Hg Hg') in Hsd. done. }
  destruct Hadv as (t2 & -> & Hl2 & Hr2). exists t2. split_and!; [done|done| |done]. intros Hon. rewrite (Hv Hon) in Hj. exact Hj.
Qed.

(** ** What a running system can do *)

(** The commands a system sends between two boots. *)
Fixpoint sends (t : T) (cs : list Command) : T := match cs with [] => t | c :: cs' => sends (submit_command t (encode c)).2 cs' end.

Lemma sends_keep cs : ∀ t, Forall command_wf cs → kept t (sends t cs).
Proof. induction cs as [|c cs IH]; intros t Hcs; cbn [sends]; [apply kept_refl|]. apply Forall_cons in Hcs as [Hc Hcs]. eapply kept_trans; [by apply submit_keeps|by apply IH]. Qed.

(** ** A machine's life: boots, and what is sent to the TPM between them *)

(** [protocol]: whether the firmware gives this boot the TPM. *)
Record Epoch : Type := MkEpoch { emachine : Machine Disk; protocol : bool; sent : list Command }.
Definition epoch_ok (e : Epoch) : Prop := keys_ok (keys (emachine e)) ∧ Forall command_wf (sent e).

(** Each boot: the TPM as it found it, and how it ended. *)
Fixpoint history (t : T) (es : list Epoch) : list (T * Ending) :=
  match es with
  | [] => []
  | e :: es' =>
      let t := power_cycle t in
      let '(ending, t') := efi_main (emachine e) (if protocol e then Some t else None) in
      (t, ending) :: history (sends (default t t') (sent e)) es'
  end.

(** One epoch: the TPM restarted, the boot, and what was sent after. *)
Lemma epoch_step e t : epoch_ok e → tpm_inv (tpm_state t) → ∃ ending t2, (∀ es, history t (e :: es) = (power_cycle t, ending) :: history t2 es) ∧
  tpm_inv (tpm_state t2) ∧ floor_of (tpm_state t) ≤ floor_of (tpm_state t2) ∧
  match ending with
  | Booted set s v slot good => protocol e = true → healthy (power_cycle t) →
      (∀ w, v = Some w → good = true → w ≤ 64 → w ≤ floor_of (tpm_state t2)) ∧
      (is_on (secure_boot (emachine e)) = true → ∃ w, v = Some w ∧ signed_set set (keys (emachine e)) (floor_of (tpm_state t)) w)
  | _ => True
  end.
Proof.
  intros [Hk Hcs] Hi. destruct (restart_inv _ Hi) as (Hi0 & Hu0 & Hf0). rewrite <- cycle_restarts in Hi0, Hu0, Hf0. cbn [history].
  destruct (efi_main (emachine e) (if protocol e then Some (power_cycle t) else None)) as [ending t'] eqn:E. set (t1 := default (power_cycle t) t'). exists ending, (sends t1 (sent e)). split; [done|].
  assert (Hk1 : kept (power_cycle t) t1).
  { unfold t1. destruct (protocol e); [destruct (boot_keeps _ _ _ _ Hk E) as (t2 & -> & Hm2); exact Hm2|]. destruct t' as [t2|]; [|apply kept_refl]. exfalso.
    pose proof (efi_main_ends _ _ _ _ Hk E) as He. unfold opened, Counter.open in He. cbn [fst snd Counter.advance_and_lock] in He.
    destruct ending; [by destruct He as (_ & _ & _ & ?)|by destruct He|by destruct He..]. }
  destruct (Hk1 Hi0) as (Hi1 & Hf1 & _). destruct (sends_keep (sent e) t1 Hcs Hi1) as (Hi2 & Hf2 & _). split_and!; [done|lia|]. destruct ending as [set s v slot good| | |]; try done.
  intros Ep Hh. rewrite Ep in E. destruct (healthy_boot _ _ _ _ _ _ _ _ Hk Hh Hi0 Hu0 E) as (t3 & Et & Hr & Hs & _). subst t'. rewrite Hf0 in Hs. split; [|done].
  intros w Hw Hg H64. specialize (Hr w Hw Hg H64). change t1 with t3 in Hf2 |- *. lia.
Qed.

(** Whatever boots under Secure Boot later, with a TPM that answers, is signed at no less
    than the floor now. *)
Lemma later_boots es : ∀ t j e tj set s v slot good, Forall epoch_ok es → tpm_inv (tpm_state t) → es !! j = Some e → is_on (secure_boot (emachine e)) = true → protocol e = true →
  history t es !! j = Some (tj, Booted set s v slot good) → healthy tj →
  ∃ w floor, v = Some w ∧ floor_of (tpm_state t) ≤ floor ∧ signed_set set (keys (emachine e)) floor w.
Proof.
  induction es as [|e0 es IH]; intros t j e tj set s v slot good Hes Hi Hj Hon Hp; [done|]. apply Forall_cons in Hes as [He0 Hes].
  destruct (epoch_step e0 t He0 Hi) as (ending & t2 & -> & Hi2 & Hf2 & He). destruct j as [|j]; cbn [lookup list_lookup] in *.
  - injection Hj as ->. intros [= <- ->] Hh. destruct (He Hp Hh) as (_ & Hs). destruct (Hs Hon) as (w & -> & Hw). exists w, (floor_of (tpm_state t)). split_and!; [done|lia|done].
  - intros Hb Hh. destruct (IH _ _ _ _ _ _ _ _ _ Hes Hi2 Hj Hon Hp Hb Hh) as (w & floor & -> & Hf & Hs). exists w, floor. split_and!; [done|lia|done].
Qed.

(** C10. No rollback: take any life of a machine, a sequence of boots from whatever disks
    and boot volume it then has, with any of the counter's commands sent to the TPM in
    between by what was booted; the TPM, whose index is the loader's or free to be made, may
    fail commands, and firmware may not show it.  If a verified set of a version [v] of at
    most 64 has booted from a slot marked good, with the TPM there and answering, then every
    set booted later under Secure Boot with the TPM there and answering carries a signature,
    under a key the loader then holds, over these very bytes and a version no lower
    than [v]. *)
Theorem no_rollback es t i j ei ej ti tj set s v slot set' s' v' slot' good' : Forall epoch_ok es → tpm_inv (tpm_state t) →
  es !! i = Some ei → protocol ei = true → history t es !! i = Some (ti, Booted set s (Some v) slot true) → healthy ti → v ≤ 64 → (i < j)%nat →
  es !! j = Some ej → protocol ej = true → history t es !! j = Some (tj, Booted set' s' v' slot' good') → healthy tj → is_on (secure_boot (emachine ej)) = true →
  ∃ w, v' = Some w ∧ v ≤ w ∧ signed_set set' (keys (emachine ej)) v w.
Proof.
  revert t i j. induction es as [|e0 es IH]; intros t i j Hes Hi; [done|]. apply Forall_cons in Hes as [He0 Hes].
  destruct (epoch_step e0 t He0 Hi) as (ending & t2 & -> & Hi2 & Hf2 & He). intros Hei Hpi Hb Hhi H64 Hij Hj Hpj Hb' Hhj Hon. destruct j as [|j]; [lia|].
  destruct i as [|i]; cbn [lookup list_lookup] in *.
  - injection Hei as ->. injection Hb as <- ->. destruct (He Hpi Hhi) as (Hr & _). destruct (later_boots _ _ _ _ _ _ _ _ _ _ Hes Hi2 Hj Hon Hpj Hb' Hhj) as (w & floor & -> & Hf & Hs). exists w.
    specialize (Hr v eq_refl eq_refl H64). pose proof (signed_floor _ _ _ _ Hs). split_and!; [done|lia|]. destruct Hs as (sig & key & Hs1 & Hs2 & Ha).
    exists sig, key. split_and!; [done|done|]. destruct Ha. split; try done. lia.
  - eapply (IH _ i j); eauto with lia.
Qed.

(** The running system cannot move the counter: after the loader has handed a set over
    with a TPM that answers, no sequence of the counter's commands changes the index the
    loader left, until the TPM restarts. *)
Theorem running_system_cannot_move_the_counter m t set s v slot good t' cs n : keys_ok (keys m) → tpm_inv (tpm_state t) → healthy (power_cycle t) → Forall command_wf cs →
  efi_main m (Some (power_cycle t)) = (Booted set s v slot good, Some t') → nv (tpm_state t') = Some n → nv (tpm_state (sends t' cs)) = Some n.
Proof.
  intros Hk Hi Hh Hcs E En. destruct (restart_inv _ Hi) as (Hi0 & Hu0 & _). rewrite <- cycle_restarts in Hi0, Hu0.
  destruct (healthy_boot _ _ _ _ _ _ _ _ Hk Hh Hi0 Hu0 E) as (t1 & [= <-] & _ & _ & Hl). destruct (boot_keeps _ _ _ _ Hk E) as (t2 & [= <-] & Hm2). destruct (Hm2 Hi0) as (Hi1 & _ & _).
  destruct (sends_keep cs t' Hcs Hi1) as (_ & _ & Hs). apply Hs; [done|by apply Hl].
Qed.
End Life.

(** ** A trial *)
Section Trial.
Context {Disk : Type} `{BlockIoLaws Disk}.
Implicit Types (d : Disk) (sd : SlotDisk.SlotDisk Disk).

Lemma record_block_length r : length (record_block r) = Slots.BLOCK.
Proof. unfold record_block, record_head. rewrite !length_app, !length_to_le, length_replicate. reflexivity. Qed.

Lemma record_block_bytes r : record_wf r → Forall is_byte (record_block r).
Proof. intros Hr. unfold record_block. rewrite !Forall_app. split_and!; [by apply record_head_bytes|apply to_le_bytes|by apply Forall_replicate]. Qed.

(** The partition table of a disk lies apart from a block: the header in block 1, and the
    array where the header says it is. *)
Definition table_apart d (lba : Z) : Prop := 2 ≤ lba ∧ ∀ block h blocks, read_blocks d 1 Slots.BLOCK = Ok block → Slots.Header.parse block = Done (Ok h) →
  Slots.Header.entries_blocks h = Done blocks → Slots.entries_at h + blocks ≤ lba ∨ lba < Slots.entries_at h.

(** Two disks that read alike but for one block. *)
Definition same_but d d' (lba : Z) : Prop := last_block d' = last_block d ∧
  ∀ lba' n, lba' * 512 + Z.of_nat n ≤ lba * 512 ∨ (lba + 1) * 512 ≤ lba' * 512 → read_blocks d' lba' n = read_blocks d lba' n.

Lemma same_table d d' lba : table_apart d lba → same_but d d' lba → SlotDisk.try_disk d' = SlotDisk.try_disk d ∧ table_apart d' lba.
Proof.
  intros [H2 Ha] [Hl Hs]. assert (E1 : read_blocks d' 1 Slots.BLOCK = read_blocks d 1 Slots.BLOCK) by (apply Hs; unfold Slots.BLOCK; lia).
  split; [|split; [done|]; rewrite E1; exact Ha]. unfold SlotDisk.try_disk. rewrite E1. destruct (read_blocks d 1 Slots.BLOCK) as [block|] eqn:Eb; [|done].
  destruct (Slots.Header.parse block) as [[h|]| |] eqn:Eh; try done. cbn [mbind outcome_bind]. destruct (Slots.Header.entries_bytes h) as [bytes| |]; try done. cbn [mbind outcome_bind].
  destruct (SlotDisk.scratch_len <? bytes); [done|]. destruct (Slots.Header.entries_blocks h) as [blocks| |] eqn:Ec; try done. cbn [mbind outcome_bind].
  destruct (SlotDisk.scratch_len <? blocks * 512); [done|]. rewrite Hs, Hl; [done|]. destruct (Ha _ _ _ eq_refl Eh Ec); lia.
Qed.

Lemma write_leaves d lba block r d' : length block = Slots.BLOCK → SlotDisk.write_and_flush d lba block = (r, d') → same_but d d' lba.
Proof.
  intros Hlen. unfold SlotDisk.write_and_flush. destruct (write_blocks d lba block) as [[[]|e] d1] eqn:E1; pose proof (write_keeps_last _ _ _ _ _ E1) as Hl1.
  all: assert (Hw : ∀ lba' n, lba' * 512 + Z.of_nat n ≤ lba * 512 ∨ (lba + 1) * 512 ≤ lba' * 512 → read_blocks d1 lba' n = read_blocks d lba' n)
    by (intros lba' n Hd; apply (write_keeps _ _ _ _ _ _ _ E1); rewrite Hlen; unfold Slots.BLOCK; lia).
  - intros E2. split; [rewrite (flush_keeps_last _ _ _ E2); done|]. intros lba' n Hd. rewrite (flush_keeps _ _ _ _ _ E2). by apply Hw.
  - intros [= <- <-]. by split.
Qed.

(** The disk after some blocks were written at [lba], and a disk that takes any such
    write, however many went before. *)
Definition rewritten (lba : Z) d d' : Prop := ∃ block, length block = Slots.BLOCK ∧ (SlotDisk.write_and_flush d lba block).2 = d'.
Definition takes_writes (lba : Z) d : Prop := ∀ d' block, rtc (rewritten lba) d d' → length block = Slots.BLOCK → (SlotDisk.write_and_flush d' lba block).1 = Ok tt.

(** What is found on a disk after the loader wrote a record to it, among disks that hold
    no slots. *)
Lemma find_among before d after found : SlotDisk.find before = Done None → SlotDisk.find [d] = Done (Some found) → SlotDisk.find (before ++ d :: after) = Done (Some found).
Proof.
  intros Hb. induction before as [|b before IH]; cbn [app SlotDisk.find] in *.
  - by destruct (SlotDisk.try_disk d) as [[l|]| |].
  - destruct (SlotDisk.try_disk b) as [[l|]| |]; try done; cbn [mbind outcome_bind] in *; [|by apply IH].
    by destruct (match read_blocks b _ _ with Ok _ => _ | Err _ => _ end).
Qed.

Lemma find_one d sd : SlotDisk.find [d] = Done (Some sd) → SlotDisk.disk sd = d ∧ SlotDisk.try_disk d = Done (Some (SlotDisk.layout sd)) ∧
  ∀ r, SlotDisk.drecord sd = Ok r → ∃ block, read_blocks d (Slots.first (Slots.record (SlotDisk.layout sd))) Slots.BLOCK = Ok block ∧ Slots.Record.parse block = Done (Ok r).
Proof.
  cbn [SlotDisk.find]. destruct (SlotDisk.try_disk d) as [[l|]| |]; try done. cbn [mbind outcome_bind].
  destruct (read_blocks d (Slots.first (Slots.record l)) Slots.BLOCK) as [block|e] eqn:E; cbn [mbind outcome_bind].
  - destruct (Slots.Record.parse block) as [r| |] eqn:Er; try done. cbn [mbind outcome_bind]. intros [= <-]. cbn. split_and!; [done|done|]. intros r' ->. by exists block.
  - intros [= <-]. cbn. by split_and!.
Qed.

Lemma found_again d sd w block r d' : SlotDisk.find [d] = Done (Some sd) → block = record_block w → record_wf w → table_apart d (Slots.first (Slots.record (SlotDisk.layout sd))) →
  SlotDisk.write_and_flush d (Slots.first (Slots.record (SlotDisk.layout sd))) block = (r, d') →
  table_apart d' (Slots.first (Slots.record (SlotDisk.layout sd))) ∧ (r = Ok tt → SlotDisk.find [d'] = Done (Some (SlotDisk.MkSlotDisk d' (SlotDisk.layout sd) (Ok w)))).
Proof.
  intros Hf -> Hw Ha E. destruct (find_one _ _ Hf) as (_ & Ht & _). destruct (same_table _ _ _ Ha (write_leaves _ _ _ _ _ (record_block_length w) E)) as [Et Ha']. split; [done|]. intros ->.
  cbn [SlotDisk.find]. rewrite Et, Ht. cbn [mbind outcome_bind]. revert E. unfold SlotDisk.write_and_flush. destruct (write_blocks d _ _) as [[[]|e] d1] eqn:E1; [|done]. intros E2.
  rewrite <- (record_block_length w), (write_reads_back _ _ _ _ _ (record_block_bytes w Hw) E1 E2), record_parses by done. done.
Qed.

(** A boot: what [find_and_plan] takes first, and the disk it leaves. *)
Context (before after : list Disk) (machine : Machine Disk).
Definition booting d : Machine Disk := MkMachine (before ++ d :: after) (esp machine) (secure_boot machine) (keys machine) (stack_aligned machine).

(** The slots that [n] boots in a row take first, with no write but the loader's. *)
Fixpoint firsts (n : nat) d : outcome (option (list Slots.Slot)) :=
  match n with
  | O => Done (Some [])
  | S n' =>
      found ← find_and_plan (booting d);
      match found with
      | None => Done None
      | Some (pl, sd) => rest ← firsts n' (SlotDisk.disk sd); Done (option_map (cons (Slots.pfirst pl)) rest)
      end
  end.

Context (no_slots_before : SlotDisk.find before = Done None).

(** With no trial nothing is written, and the active slot boots every time. *)
Lemma firsts_active n d sd r : SlotDisk.find [d] = Done (Some sd) → SlotDisk.drecord sd = Ok r → Slots.trial r = None → firsts n d = Done (Some (replicate n (Slots.active r))).
Proof.
  intros Hf Hr Ht. induction n as [|n IH]; [done|]. cbn [firsts replicate]. unfold find_and_plan, booting. cbn [disks]. rewrite (find_among _ _ _ _ no_slots_before Hf). cbn [mbind outcome_bind].
  unfold plan_slots, Slots.plan. rewrite Hr, Ht. cbn [Slots.write mbind outcome_bind]. destruct (find_one _ _ Hf) as (-> & _ & _). by rewrite IH.
Qed.

(** A boot with a trial: the plan's record is on the disk, as the next boot finds it, before
    the plan is followed. *)
Lemma trial_boot d sd r w : SlotDisk.find [d] = Done (Some sd) → SlotDisk.drecord sd = Ok r → table_apart d (Slots.first (Slots.record (SlotDisk.layout sd))) →
  Slots.write (Slots.plan (Some r)) = Some w → record_wf w →
  (SlotDisk.write_and_flush d (Slots.first (Slots.record (SlotDisk.layout sd))) (record_block w)).1 = Ok tt →
  ∃ d', find_and_plan (booting d) = Done (Some (Slots.plan (Some r), SlotDisk.MkSlotDisk d' (SlotDisk.layout sd) (SlotDisk.drecord sd))) ∧
    SlotDisk.find [d'] = Done (Some (SlotDisk.MkSlotDisk d' (SlotDisk.layout sd) (Ok w))) ∧ table_apart d' (Slots.first (Slots.record (SlotDisk.layout sd))) ∧ rewritten (Slots.first (Slots.record (SlotDisk.layout sd))) d d'.
Proof.
  intros Hf Hr Ha Hw Hwf Hok. unfold find_and_plan, booting. cbn [disks]. rewrite (find_among _ _ _ _ no_slots_before Hf). cbn [mbind outcome_bind]. destruct (find_one _ _ Hf) as (Ed & _ & _).
  unfold plan_slots, SlotDisk.write_record. rewrite Hr, Hw, Ed, to_block_is. cbn [mbind outcome_bind]. destruct (SlotDisk.write_and_flush d _ (record_block w)) as [res d'] eqn:E. cbn [fst] in Hok. subst res.
  destruct (found_again _ _ _ _ _ _ Hf eq_refl Hwf Ha E) as [Ha' Hf']. exists d'. split_and!; [done|by apply Hf'|done|]. exists (record_block w). split; [apply record_block_length|]. by rewrite E.
Qed.

Lemma parsed_wf block r : Forall is_byte block → Slots.Record.parse block = Done (Ok r) → record_wf r.
Proof.
  intros Hb. unfold Slots.Record.parse. destruct (length block <? 28)%nat; [done|]. intros E. inv_done. destruct (negb _ || negb _); [done|]. inv_done. revert E.
  destruct (Slots.Slot.from_byte _) as [active|]; [|done]. cbn [ok_or rbind].
  match goal with Hw : Slots.word64 block 16 = Done _ |- _ => pose proof (word64_done _ _ _ Hb Hw) as Hwr end.
  destruct (_ =? 0); [intros [= <-]; by split|]. destruct (Slots.Slot.from_byte _) as [slot|]; [|done]. cbn [ok_or rbind]. intros [= <-]. split; [|done].
  intros s n [= <- <-]. eapply Forall_lookup_1; [exact Hb|eassumption].
Qed.

Lemma tries_loop tries : ∀ n d sd r slot, SlotDisk.find [d] = Done (Some sd) → SlotDisk.drecord sd = Ok r → record_wf r → Slots.trial r = Some (slot, Z.of_nat tries) →
  let at' := Slots.first (Slots.record (SlotDisk.layout sd)) in table_apart d at' → takes_writes at' d →
  firsts n d = Done (Some (replicate (n `min` tries) slot ++ replicate (n - tries) (Slots.active r))).
Proof.
  induction tries as [|tries IH]; intros n d sd r slot Hf Hr [Hwt Hww] Ht at' Ha Hok; (destruct n as [|n]; [done|]); cbn [firsts].
  - destruct (trial_boot d sd r _ Hf Hr Ha ltac:(unfold Slots.plan; by rewrite Ht)) as (d' & -> & Hf' & _); [by split; [|apply trunc_range]|by apply Hok; [|apply record_block_length]|].
    cbn [mbind outcome_bind SlotDisk.disk]. erewrite firsts_active; [|exact Hf'|reflexivity|reflexivity]. unfold Slots.plan. by rewrite Ht.
  - specialize (Hwt _ _ Ht). assert (Hb : is_byte (Z.of_nat (S tries) - 1)) by (unfold is_byte in *; lia).
    destruct (trial_boot d sd r _ Hf Hr Ha ltac:(unfold Slots.plan; by rewrite Ht)) as (d' & -> & Hf' & Ha' & Hd');
      [split; [by intros ? ? [= <- <-]|by apply trunc_range]|by apply Hok; [|apply record_block_length]|].
    cbn [mbind outcome_bind SlotDisk.disk]. erewrite IH; [|exact Hf'|reflexivity|split; [by intros ? ? [= <- <-]|by apply trunc_range]|cbn; do 3 f_equal; lia|done|].
    2:{ intros d2 block H2. apply Hok. by eapply rtc_l. }
    unfold Slots.plan. by rewrite Ht.
Qed.

(** C12. A trial gets its tries and no more: take a machine with a slot disk among others,
    whose record [find] reads as putting [slot] on trial for [tries] boots, whose record lies
    apart from its partition table, and which takes the blocks written there.
    With nothing marking the trial good, the first [tries] boots take [slot] first and every
    boot after them the active slot; each boot is the loader's own search, its plan and its
    write of the record, and finds what the one before it left. *)
Theorem trial_gets_its_tries n d sd r slot tries : SlotDisk.find [d] = Done (Some sd) → SlotDisk.drecord sd = Ok r → Slots.trial r = Some (slot, tries) →
  let at' := Slots.first (Slots.record (SlotDisk.layout sd)) in table_apart d at' → takes_writes at' d →
  firsts n d = Done (Some (replicate (n `min` Z.to_nat tries) slot ++ replicate (n - Z.to_nat tries) (Slots.active r))).
Proof.
  intros Hf Hr Ht at' Ha Hok. destruct (find_one _ _ Hf) as (_ & _ & Hp). destruct (Hp r Hr) as (block & Hread & Hparse).
  pose proof (parsed_wf block r (proj2 (read_fills _ _ _ _ Hread)) Hparse) as Hwf. pose proof (rw_tries _ Hwf _ _ Ht) as Hb.
  eapply tries_loop; try done. rewrite Ht. do 2 f_equal. unfold is_byte in Hb. lia.
Qed.
End Trial.

Definition gpt_entry (kind : list Z) (first last : Z) : list Z := kind ++ replicate 16 1 ++ to_le 8 first ++ to_le 8 last ++ replicate 80 0.
Definition gpt_array (a_last : Z) : list Z := gpt_entry RECORD_TYPE 34 34 ++ gpt_entry SLOT_A_TYPE 40 a_last ++ gpt_entry SLOT_B_TYPE 80 119.
Definition gpt_header (a_last : Z) : list Z :=
  let fields crc := Slots.EFI_PART ++ to_le 4 0x10000 ++ to_le 4 92 ++ to_le 4 crc ++ to_le 4 0 ++ to_le 8 1 ++ to_le 8 127 ++ to_le 8 34 ++ to_le 8 (Z.max 126 a_last) ++
    replicate 16 9 ++ to_le 8 2 ++ to_le 4 3 ++ to_le 4 128 ++ to_le 4 (Slots.crc32 (gpt_array a_last)) in
  fields (Slots.crc32 (fields 0)) ++ replicate 420 0.

(** A disk in memory with such a table, and a record that puts slot B on trial twice. *)
Definition trial_disk : MemDisk := mem_write (mem_write (mem_write (MkMemDisk 127 (fun _ => 0)) 1 (gpt_header 79)) 2 (gpt_array 79)) 34 (record_block demo_record).
Definition blank_disk : MemDisk := MkMemDisk 127 (fun _ => 0).
Definition trial_machine : Machine MemDisk := MkMachine [] (MkEsp (Err SlotDisk.TooLarge) (Err SlotDisk.TooLarge) (Err SlotDisk.TooLarge) (Err SlotDisk.TooLarge)) Off [] (true, true).

Definition demo_layout : Slots.Layout := Slots.MkLayout (Slots.MkPartition 34 34) (Slots.MkPartition 40 79) (Slots.MkPartition 80 119).
Lemma trial_disk_found : SlotDisk.find [trial_disk] = Done (Some (SlotDisk.MkSlotDisk trial_disk demo_layout (Ok demo_record))).
Proof.
  assert (Ht : SlotDisk.try_disk trial_disk = Done (Some demo_layout)) by (vm_compute; reflexivity).
  assert (Hp : Slots.Record.parse (mem_read trial_disk 34 512) = Done (Ok demo_record)) by (vm_compute; reflexivity).
  cbn [SlotDisk.find]. rewrite Ht. cbn [mbind outcome_bind]. change (read_blocks trial_disk _ _) with (@Ok (list Z) Z (mem_read trial_disk 34 512)). cbv beta iota. rewrite Hp. reflexivity.
Qed.

Lemma trial_table_apart : table_apart trial_disk 34.
Proof.
  split; [lia|]. intros block h blocks [= <-] Hh Hb. left.
  assert (E : Slots.Header.parse (mem_read trial_disk 1 512) = Done (Ok (Slots.MkHeader 34 126 2 3 128 (Slots.crc32 (gpt_array 79))))) by (vm_compute; reflexivity).
  unfold Slots.BLOCK in Hh. rewrite E in Hh. injection Hh as <-. vm_compute in Hb. injection Hb as <-. vm_compute. congruence.
Qed.

Lemma trial_gets_its_tries_witness : firsts [blank_disk] [blank_disk] trial_machine 4 trial_disk = Done (Some [Slots.B; Slots.B; Slots.A; Slots.A]).
Proof.
  assert (Hb : SlotDisk.find [blank_disk] = Done None) by (vm_compute; reflexivity). set (sd := SlotDisk.MkSlotDisk trial_disk demo_layout (Ok demo_record)).
  refine (trial_gets_its_tries [blank_disk] [blank_disk] trial_machine Hb 4 trial_disk sd demo_record Slots.B 2 trial_disk_found eq_refl eq_refl trial_table_apart _).
  intros d block _ _. reflexivity.
Defined.

(** ** A machine

    A slot disk kept as extents, with a set in slot A under a signature made by the
    signing tool; a TPM without an index yet; Secure Boot on. *)
Definition Extents : Type := list (Z * list Z).
Fixpoint extent (d : Extents) (lba : Z) : option (list Z) :=
  match d with
  | [] => None
  | (at', bytes) :: d' => if at' =? lba then Some bytes else extent d' lba
  end.
#[global] Instance extents_io : BlockIo Extents := {
  last_block _ := 127;
  read_blocks d lba n := match extent d lba with Some bytes => Ok (take n bytes) | None => Err 7 end;
  write_blocks d lba block := (Ok tt, (lba, block) :: d);
  flush_blocks d := (Ok tt, d)
}.

Definition demo_kernel : list Z := [1; 2; 3; 4; 5].
Definition demo_initrd : list Z := [6; 7; 8].
Definition demo_conf : list Z := [9; 10].
Definition demo_digests : BootSig.Digests := BootSig.MkDigests (Fips.sha256 demo_kernel) (Fips.sha256 demo_initrd) (Fips.sha256 demo_conf).
Definition block_of (bytes : list Z) : list Z := bytes ++ replicate (512 - length bytes) 0.
Definition set_header : list Z :=
  match Slots.SetHeader.to_block (Slots.MkSetHeader [(512, 5); (1024, 3); (1536, 2); (2048, 7984)]) with Done b => b | _ => [] end.

Definition demo_disk (file : list Z) : Extents :=
  [(1, gpt_header 79); (2, gpt_array 79 ++ replicate 128 0); (34, record_block (Slots.MkRecord Slots.A None 7)); (40, set_header);
   (41, block_of demo_kernel); (42, block_of demo_initrd); (43, block_of demo_conf); (44, file ++ replicate 208 0)].
Definition no_esp : Esp := MkEsp (Err SlotDisk.TooLarge) (Err SlotDisk.TooLarge) (Err SlotDisk.TooLarge) (Err SlotDisk.TooLarge).
Definition demo_machine (pk file : list Z) : Machine Extents := MkMachine [demo_disk file] no_esp On [pk] (true, true).
Definition new_tpm : TpmState := MkTpm None false.

Definition demo_found (file : list Z) : SlotDisk.SlotDisk Extents := SlotDisk.MkSlotDisk (demo_disk file) demo_layout (Ok (Slots.MkRecord Slots.A None 7)).

Lemma demo_finds pk file : find_and_plan (demo_machine pk file) = Done (Some (Slots.MkPlan Slots.A Slots.B None Slots.Active, demo_found file)).
Proof. vm_compute. reflexivity. Qed.

Definition demo_files : Slots.SetHeader := Slots.MkSetHeader [(512, 5); (1024, 3); (1536, 2); (2048, 7984)].

Lemma read_once (sd : SlotDisk.SlotDisk Extents) fuel start first' whole L buffer_len step bytes : 0 < whole ≤ step → whole ≤ buffer_len → in_width 64 (start + first') →
  read_blocks (SlotDisk.disk sd) (start + first') (Z.to_nat whole) = Ok bytes → SlotDisk.read_loop (S fuel) sd true start first' whole L buffer_len step 0 [] = Done (Ok bytes).
Proof.
  intros Hw Hbuf Hb Hr. cbn [SlotDisk.read_loop]. rewrite (proj2 (Z.ltb_lt _ _)), Z.sub_0_r, Z.min_l by lia. unfold wrapping_add, Prelude.trunc. rewrite (Z.mod_small (start + first')) by exact Hb.
  change (0 / 512) with 0. rewrite Z.add_0_r, Z.mod_small by exact Hb. rewrite (proj2 (Z.ltb_ge _ _)) by lia. cbn [andb]. rewrite Hr. cbn [mbind outcome_bind app].
  destruct fuel; cbn [SlotDisk.read_loop]; by rewrite Z.add_0_l, Z.ltb_irrefl.
Qed.

Lemma demo_sig file : length file = BootSig.BOOT_SIG_BYTES →
  SlotDisk.read (demo_found file) (Slots.slot_a demo_layout) demo_files Slots.Sig 8192 true = Done (Ok file).
Proof.
  intros Hl. assert (Hsig : read_blocks (SlotDisk.disk (demo_found file)) 44 (Z.to_nat 8192) = Ok (file ++ replicate 208 0)).
  { cbn [SlotDisk.disk demo_found read_blocks extents_io extent demo_disk Z.eqb Pos.eqb]. rewrite take_ge; [done|]. rewrite length_app, Hl, length_replicate.
    apply Nat.leb_le. vm_compute. reflexivity. }
  transitivity (r ← SlotDisk.read_loop 16 (demo_found file) true 40 4 8192 7984 8192 (2 ^ 20) 0 []; Done (bytes ←? r; Ok (take (Z.to_nat 7984) bytes))); [reflexivity|].
  rewrite (read_once _ 15 40 4 8192 7984 8192 (2 ^ 20) _ ltac:(lia) ltac:(lia) ltac:(unfold in_width; lia) Hsig). cbn [mbind outcome_bind rbind]. by rewrite take_app_length'.
Qed.

Lemma demo_reads file : length file = BootSig.BOOT_SIG_BYTES →
  read_slot_set (demo_found file) Slots.A (true, true) = Done (Some (MkSetRead demo_kernel demo_initrd demo_conf false (Ok file))).
Proof.
  intros Hl. unfold read_slot_set. change (Slots.Layout.slot (SlotDisk.layout (demo_found file)) Slots.A) with (Slots.slot_a demo_layout). cbn [fst snd].
  assert (Hh : SlotDisk.header (demo_found file) (Slots.slot_a demo_layout) = Done (Ok demo_files)) by (vm_compute; reflexivity).
  assert (Hk : SlotDisk.read (demo_found file) (Slots.slot_a demo_layout) demo_files Slots.Kernel (KERNEL_BUFFER_PAGES * 4096) true = Done (Ok demo_kernel)) by (vm_compute; reflexivity).
  assert (Hi : SlotDisk.read (demo_found file) (Slots.slot_a demo_layout) demo_files Slots.Initrd (INITRD_BUFFER_PAGES * 4096) true = Done (Ok demo_initrd)) by (vm_compute; reflexivity).
  assert (Hc : SlotDisk.read (demo_found file) (Slots.slot_a demo_layout) demo_files Slots.Conf 4096 true = Done (Ok demo_conf)) by (vm_compute; reflexivity).
  run Hh. run Hk. run Hi. run Hc. by run (demo_sig file Hl).
Qed.

(** A set the tool signed at version 9, and what a loop over the slots makes of it. *)
Definition demo_set (file : list Z) : SetRead := MkSetRead demo_kernel demo_initrd demo_conf false (Ok file).
Definition demo_accepted (pk file : list Z) : Prop := length file = BootSig.BOOT_SIG_BYTES ∧
  ∀ floor, floor ≤ 9 → BootSig.check file [pk] demo_digests floor = Done (Ok (BootSig.MkVerified (take 8 (Fips.sha256 pk)) 9)).

Lemma demo_signed : ∃ pk file, length pk = Slh.PUBLIC_KEY_BYTES ∧ demo_accepted pk file.
Proof.
  destruct (sign_verify_empty (replicate 16 1) (replicate 16 2) (replicate 16 3) [] []) as (sk & pk & _ & Hg & _); [reflexivity..|].
  destruct (bootsign_accepted (replicate 16 1) (replicate 16 2) (replicate 16 3) demo_digests 9 (replicate 16 8) pk sk) as (Hpk & file & _ & Hl & Hc);
    [reflexivity|reflexivity|reflexivity|split; apply length_sha256|vm_compute; split; congruence|exact Hg|].
  exists pk, file. split; [exact Hpk|]. split; [exact Hl|]. intros floor Hf. apply Hc; [by repeat constructor|by constructor|exact Hf].
Qed.

Lemma loop_first fuel (m : Machine Extents) sd slot rest floor set s v : read_slot_set sd slot (stack_aligned m) = Done (Some set) →
  judge set (keys m) floor (secure_boot m) = Done (s, v) → is_verified s = true →
  attempts_loop (S fuel) m (Some sd) (Some slot :: rest) floor 0 = Done (Some (set, s, v, Some slot)).
Proof.
  intros Hr Hj Hv. cbn [attempts_loop]. change (at_index (Some slot :: rest) 0) with (Done (Some slot)). cbn [mbind outcome_bind]. run Hr. run Hj. by rewrite Hv.
Qed.

Lemma demo_loop pk file floor : demo_accepted pk file → floor ≤ 9 →
  attempts_loop 3 (demo_machine pk file) (Some (demo_found file)) [Some Slots.A; Some Slots.B; Some Slots.A] floor 0 =
    Done (Some (demo_set file, Verified (take 8 (Fips.sha256 pk)) true, Some 9, Some Slots.A)).
Proof.
  intros [Hl Hc] Hf. apply loop_first; [by apply demo_reads| |done]. unfold judge. cbn [sig_read conf_unreadable kernel initrd conf demo_set]. rewrite !digest_ok. cbn [mbind outcome_bind].
  specialize (Hc floor Hf). unfold demo_digests in Hc. cbn [keys demo_machine]. rewrite Hc. reflexivity.
Qed.

(** The boot of that machine with a new TPM, and with the TPM it leaves. *)
Definition demo_booted (pk file : list Z) : Ending := Booted (demo_set file) (Verified (take 8 (Fips.sha256 pk)) true) (Some 9) (Some Slots.A) true.
Definition recorded_tpm : TpmState := MkTpm (Some (nv_set fresh_nv 256 true true)) false.

Lemma efi_main_boots (m : Machine Extents) (t : TpmState) pl sd c t1 set s v slot r t2 : find_and_plan m = Done (Some (pl, sd)) → Counter.open (Some t) true = (c, Some t1) →
  attempts_loop 3 m (Some sd) [Some (Slots.pfirst pl); Some (Slots.pthen pl); Some (Slots.pfirst pl)] (Counter.floor c) 0 = Done (Some (set, s, Some v, Some slot)) →
  SlotDisk.drecord sd = Ok r → Slots.active r = slot → is_verified s = true → Counter.advance_and_lock c (Rollback.MkBooted v true true) (Some t1) = t2 →
  efi_main m (Some t) = (Booted set s (Some v) (Some slot) true, t2).
Proof.
  intros Hp Ho Hl Hr Ha Hv He. unfold efi_main. rewrite Hp. cbn [fmap option_fmap option_map snd]. rewrite Ho, Hl, Hr, bool_decide_eq_true_2 by done.
  change (default 0 (Some v)) with v. rewrite He, Hv. by rewrite andb_false_r.
Qed.

Lemma demo_boots pk file t : demo_accepted pk file → t = new_tpm ∨ t = restart recorded_tpm → efi_main (demo_machine pk file) (Some t) = (demo_booted pk file, Some recorded_tpm).
Proof.
  intros Ha [-> | ->]; (eapply efi_main_boots; [apply demo_finds|vm_compute; reflexivity|apply demo_loop; [exact Ha|vm_compute; congruence]|reflexivity|reflexivity|reflexivity|vm_compute; reflexivity]).
Qed.

Definition demo_epoch (pk file : list Z) : Epoch := MkEpoch (demo_machine pk file) true [CSetBits 1; CRead].

Definition demo_history (pk file : list Z) : list (TpmState * Ending) := [(new_tpm, demo_booted pk file); (restart recorded_tpm, demo_booted pk file)].

Lemma demo_history_is pk file : demo_accepted pk file → history new_tpm [demo_epoch pk file; demo_epoch pk file] = demo_history pk file.
Proof.
  intros Ha. cbn [history emachine protocol demo_epoch sent power_cycle soft_tpm]. change (restart new_tpm) with new_tpm. rewrite demo_boots by auto.
  change (sends (default new_tpm (Some recorded_tpm)) _) with recorded_tpm. rewrite demo_boots by auto. reflexivity.
Qed.

Lemma no_rollback_witness : ∃ pk file w, history new_tpm [demo_epoch pk file; demo_epoch pk file] = demo_history pk file ∧ Some 9 = Some w ∧ 9 ≤ w ∧ signed_set (demo_set file) [pk] 9 w.
Proof.
  destruct demo_signed as (pk & file & Hpk & Ha). pose proof (demo_history_is pk file Ha) as Hh.
  destruct (no_rollback [demo_epoch pk file; demo_epoch pk file] new_tpm 0 1 (demo_epoch pk file) (demo_epoch pk file) new_tpm (restart recorded_tpm)
    (demo_set file) (Verified (take 8 (Fips.sha256 pk)) true) 9 (Some Slots.A)
    (demo_set file) (Verified (take 8 (Fips.sha256 pk)) true) (Some 9) (Some Slots.A) true) as (w & Hw);
    [|reflexivity|reflexivity|reflexivity|rewrite Hh; reflexivity|exact I|lia|lia|reflexivity|reflexivity|rewrite Hh; reflexivity|exact I|reflexivity|].
  - assert (He : epoch_ok (demo_epoch pk file)); [|by repeat constructor].
    split; [constructor; [exact Hpk|constructor]|]. constructor; [vm_compute; split; congruence|]. constructor; [exact I|constructor].
  - exists pk, file, w. split; [exact Hh|exact Hw].
Defined.

(** The same machine without a TPM. *)
Lemma demo_boots_without_tpm pk file : demo_accepted pk file → efi_main (T:=TpmState) (demo_machine pk file) None = (demo_booted pk file, None).
Proof.
  intros Ha. unfold efi_main. rewrite demo_finds. cbn [fmap option_fmap option_map snd Counter.open Counter.floor Slots.pfirst Slots.pthen]. rewrite demo_loop by (done || lia). reflexivity.
Qed.

Lemma only_signed_sets_boot_witness : ∃ pk file w, efi_main (T:=TpmState) (demo_machine pk file) None = (demo_booted pk file, None) ∧ Some 9 = Some w ∧ signed_set (demo_set file) [pk] 0 w.
Proof.
  destruct demo_signed as (pk & file & Hpk & Ha). pose proof (demo_boots_without_tpm pk file Ha) as E.
  destruct (only_signed_sets_boot (T:=TpmState) (demo_machine pk file) None _ _ _ _ _ _ ltac:(constructor; [exact Hpk|constructor]) eq_refl E) as (_ & w & Hw). exists pk, file, w. split; [exact E|exact Hw].
Defined.

Lemma running_system_cannot_move_the_counter_witness : ∃ pk file, efi_main (demo_machine pk file) (Some (power_cycle new_tpm)) = (demo_booted pk file, Some recorded_tpm) ∧
  nv (tpm_state (sends recorded_tpm [CSetBits (2 ^ 63); CWriteLock; CSetBits 1])) = nv recorded_tpm.
Proof.
  destruct demo_signed as (pk & file & Hpk & Ha). assert (E : efi_main (demo_machine pk file) (Some (power_cycle new_tpm)) = (demo_booted pk file, Some recorded_tpm)).
  { change (power_cycle new_tpm) with new_tpm. apply demo_boots; auto. }
  exists pk, file. split; [exact E|]. apply (running_system_cannot_move_the_counter (demo_machine pk file) new_tpm _ _ _ _ _ _ _ _ ltac:(constructor; [exact Hpk|constructor]) eq_refl I) with (2 := E); [|reflexivity].
  constructor; [vm_compute; split; congruence|]. constructor; [exact I|]. constructor; [vm_compute; split; congruence|constructor].
Defined.

(** ** Where the loader differs from what it says *)

(** Finding: the comment on the sources says the first slot is booted unverified when
    neither verified and Secure Boot is off; but when the first slot's set reads and does not
    verify and the other slot's cannot be read at all, the loader refuses and parks. *)
Theorem unread_other_slot_parks pk : ∃ t, efi_main (MkMachine [demo_disk (replicate BootSig.BOOT_SIG_BYTES 0)] no_esp Off [pk] (true, true)) (Some new_tpm) = (Parked, t).
Proof. eexists. vm_compute. reflexivity. Qed.

(** Finding: [then] is said to be the slot to fall back to, but a record may put the active
    slot itself on trial, and is then accepted: both attempts are of one slot. *)
Theorem active_slot_on_trial : ∃ r, Slots.Record.parse (record_block r) = Done (Ok r) ∧ Slots.pthen (Slots.plan (Some r)) = Slots.pfirst (Slots.plan (Some r)).
Proof. exists (Slots.MkRecord Slots.A (Some (Slots.A, 3)) 1). split; vm_compute; reflexivity. Qed.

(** Finding: of the three partitions only slot B's end is held against the disk's; a slot A
    that ends far beyond it is taken for part of a slot disk, and its size then wraps. *)
Theorem slot_a_beyond_the_disk : let d : Extents := [(1, gpt_header (39 + 2 ^ 55)); (2, gpt_array (39 + 2 ^ 55) ++ replicate 128 0)] in
  ∃ sd, SlotDisk.find [d] = Done (Some sd) ∧ last_block d < Slots.last (Slots.slot_a (SlotDisk.layout sd)) ∧ Slots.Partition.bytes (Slots.slot_a (SlotDisk.layout sd)) = 0.
Proof. eexists. split; [vm_compute; reflexivity|]. split; vm_compute; reflexivity. Qed.
