(* ===== verification/Elf.v ===== *)
(** * ELF images

    The parser of executables that the kernel and the boot loader share
    (src/elf/src/lib.rs): the checks of the headers and the segments, and the walk of a
    relocatable image's relocations.  The theorems are in ElfLaws.v. *)
From stdpp Require Import prelude numbers list.
From S2P Require Import Prelude Bytes.
Open Scope Z_scope.
Set Warnings "-clear-no-such-hyp".

(** A step that may stop the machine or refuse the file. *)
Notation "x ←- m ; k" := (m ≫= fun r => match r with Ok x => k | Err e => Done (Err e) end)
  (at level 20, m at level 100, k at level 200, right associativity) : bhaskix_scope.

Module Elf.
Definition PAGE_SIZE : Z := 4096.

Inductive Protection : Type := ReadOnly | ReadWrite | ReadExecute.

Definition MAGIC : list Z := [0x7f; 0x45; 0x4c; 0x46].
Definition CLASS_64 : Z := 2.
Definition DATA_LSB : Z := 1.
Definition TYPE_EXEC : Z := 2.
Definition TYPE_DYN : Z := 3.
Definition PT_DYNAMIC : Z := 2.
Definition DT_RELA : Z := 7.
Definition DT_RELASZ : Z := 8.
Definition DT_RELAENT : Z := 9.
Definition R_RELATIVE : Z := 8.
Definition MACHINE_X86_64 : Z := 0x3e.
Definition PT_LOAD : Z := 1.
Definition EXEC : Z := Z.shiftl 1 0.
Definition WRITE : Z := Z.shiftl 1 1.
Definition KERNEL_HALF : Z := 0xffff_8000_0000_0000.

Inductive AddressHalf : Type := User | Kernel.

Definition MAX_SEGMENTS : nat := 16.

Inductive ElfError : Type :=
| Truncated
| NotElf
| WrongMachine
| NotExecutable
| BadProgramHeaders
| SegmentOutsideFile
| SegmentOutsideUserSpace
| WriteAndExecute
| TooManySegments
| SegmentsOverlap
| EntryOutsideImage
| UnsupportedRelocation
| MappingFailed.

Record Segment : Type := MkSegment {
  address : Z;
  memory_size : Z;
  file_offset : Z;
  file_size : Z;
  protection : Protection;
  flags : Z
}.

Record Image : Type := MkImage {
  entry : Z;
  slots : list (option Segment);  (* the array [segments] *)
  count : nat;
  dynamic : option (Z * Z)
}.

(** [Image::segments]. *)
Definition segments (self : Image) : list Segment := omap id (slots self).

(** [u16_at], [u32_at] and [u64_at]: an offset too near the top has no field. *)
Definition uint_at (n : nat) (bytes : list Z) (offset : Z) : option Z :=
  if offset + Z.of_nat n <? 2 ^ 64 then from_le <$> get bytes (Z.to_nat offset) n else None.
Definition u16_at (bytes : list Z) (offset : Z) : option Z := uint_at 2 bytes offset.
Definition u32_at (bytes : list Z) (offset : Z) : option Z := uint_at 4 bytes offset.
Definition u64_at (bytes : list Z) (offset : Z) : option Z := uint_at 8 bytes offset.

(** [checked_add] and [checked_next_multiple_of] on [u64]. *)
Definition checked64 (x : Z) : option Z := if x <? 2 ^ 64 then Some x else None.
Definition next_multiple (x n : Z) : Z := (x + n - 1) / n * n.

Definition page_span (segment : Segment) : option (Z * Z) :=
  let start := Z.ldiff (address segment) (PAGE_SIZE - 1) in
  end' ← checked64 (address segment + Z.max (memory_size segment) 1);
  end' ← checked64 (next_multiple end' PAGE_SIZE);
  Some (start, end').

(** One iteration of the loop over the program headers. *)
Definition header_step (bytes : list Z) (file_len : Z) (half : AddressHalf) (phoff phentsize : Z)
    (index : nat) (image : list (option Segment) * nat * option (Z * Z)) : outcome (result (list (option Segment) * nat * option (Z * Z)) ElfError) :=
  let '(segments, count, dynamic) := image in
  let try {A} (o : option A) : outcome (result A ElfError) := Done (ok_or o BadProgramHeaders) in
  at' ← mul_checked 64 (Z.of_nat index) phentsize;
  header ← add_checked 64 phoff at';
  p_type ←- try (u32_at bytes header);
  if p_type =? PT_DYNAMIC then
    at' ← add_checked 64 header 8;
    offset ←- try (u64_at bytes at');
    at' ← add_checked 64 header 32;
    filesz ←- try (u64_at bytes at');
    end' ←- try (checked64 (offset + filesz));
    if Z.of_nat (length bytes) <? end' then Done (Err BadProgramHeaders)
    else Done (Ok (segments, count, Some (offset, filesz)))
  else if negb (p_type =? PT_LOAD) then Done (Ok image)
  else
    at' ← add_checked 64 header 4;
    permissions ←- try (u32_at bytes at');
    at' ← add_checked 64 header 8;
    offset ←- try (u64_at bytes at');
    at' ← add_checked 64 header 16;
    vaddr ←- try (u64_at bytes at');
    at' ← add_checked 64 header 32;
    filesz ←- try (u64_at bytes at');
    at' ← add_checked 64 header 40;
    memsz ←- try (u64_at bytes at');
    end' ←- Done (ok_or (checked64 (offset + filesz)) SegmentOutsideFile);
    if file_len <? end' then Done (Err SegmentOutsideFile)
    else if memsz <? filesz then Done (Err SegmentOutsideFile)
    else
      last ←- Done (ok_or (checked64 (vaddr + (Z.max memsz 1 - 1))) SegmentOutsideUserSpace);
      if (match half with
          | User => (KERNEL_HALF <=? vaddr) || (KERNEL_HALF <=? last)
          | Kernel => vaddr <? KERNEL_HALF
          end) then Done (Err SegmentOutsideUserSpace)
      else
        let writable := negb (Z.land permissions WRITE =? 0) in
        let executable := negb (Z.land permissions EXEC =? 0) in
        if writable && executable then Done (Err WriteAndExecute)
        else
          let protection := match writable, executable with
                            | true, false => ReadWrite
                            | false, true => ReadExecute
                            | _, _ => ReadOnly
                            end in
          if (MAX_SEGMENTS <=? count)%nat then Done (Err TooManySegments)
          else Done (Ok (<[count := Some (MkSegment vaddr memsz offset filesz protection permissions)]> segments, S count, dynamic)).

Fixpoint headers_loop (bytes : list Z) (file_len : Z) (half : AddressHalf) (phoff phentsize : Z) (index n : nat)
    (image : list (option Segment) * nat * option (Z * Z)) : outcome (result (list (option Segment) * nat * option (Z * Z)) ElfError) :=
  match n with
  | O => Done (Ok image)
  | S n' =>
      image ←- header_step bytes file_len half phoff phentsize index image;
      headers_loop bytes file_len half phoff phentsize (S index) n' image
  end.

(** The two loops of the page check. *)
Fixpoint others_loop (start end' : Z) (others : list Segment) : result unit ElfError :=
  match others with
  | [] => Ok tt
  | other :: others' =>
      span ←? ok_or (page_span other) SegmentOutsideUserSpace;
      if (start <? span.2) && (span.1 <? end') then Err SegmentsOverlap else others_loop start end' others'
  end.
Fixpoint overlap_loop (segs : list Segment) : result unit ElfError :=
  match segs with
  | [] => Ok tt
  | segment :: segs' =>
      span ←? ok_or (page_span segment) SegmentOutsideUserSpace;
      _ ←? others_loop span.1 span.2 segs';
      overlap_loop segs'
  end.

Definition covers (entry : Z) (segment : Segment) : bool :=
  (address segment <=? entry) && (entry <? Z.min (address segment + memory_size segment) (2 ^ 64 - 1)).

Definition type_allowed (half : AddressHalf) (e_type : Z) : bool :=
  match half with
  | User => e_type =? TYPE_EXEC
  | Kernel => (e_type =? TYPE_EXEC) || (e_type =? TYPE_DYN)
  end.

Definition parse_head (bytes : list Z) (file_len : Z) (half : AddressHalf) : outcome (result Image ElfError) :=
  let try {A} (o : option A) : outcome (result A ElfError) := Done (ok_or o Truncated) in
  if (length bytes <? 64)%nat then Done (Err Truncated)
  else if file_len <? Z.of_nat (length bytes) then Done (Err Truncated)
  else if negb (bool_decide (get bytes 0 4 = Some MAGIC)) then Done (Err NotElf)
  else if negb (bool_decide (bytes !! 4%nat = Some CLASS_64)) || negb (bool_decide (bytes !! 5%nat = Some DATA_LSB)) then Done (Err WrongMachine)
  else
    e_type ←- try (u16_at bytes 16);
    if negb (type_allowed half e_type) then Done (Err NotExecutable)
    else if negb (bool_decide (u16_at bytes 18 = Some MACHINE_X86_64)) then Done (Err WrongMachine)
    else
      entry ←- try (u64_at bytes 24);
      phoff ←- try (u64_at bytes 32);
      phentsize ←- try (u16_at bytes 54);
      phnum ←- try (u16_at bytes 56);
      if phentsize <? 56 then Done (Err BadProgramHeaders)
      else
        table_size ←- Done (ok_or (checked64 (phentsize * phnum)) BadProgramHeaders);
        table_end ←- Done (ok_or (checked64 (phoff + table_size)) BadProgramHeaders);
        if Z.of_nat (length bytes) <? table_end then Done (Err BadProgramHeaders)
        else
          image ←- headers_loop bytes file_len half phoff phentsize 0 (Z.to_nat phnum) (replicate MAX_SEGMENTS None, 0%nat, None);
          let '(segs, count, dynamic) := image in
          if (count =? 0)%nat then Done (Err NotExecutable)
          else
            Done (_ ←? overlap_loop (omap id segs);
                  if negb (existsb (covers entry) (omap id segs)) then Err EntryOutsideImage
                  else Ok (MkImage entry segs count dynamic)).

Definition parse_in (bytes : list Z) (half : AddressHalf) : outcome (result Image ElfError) := parse_head bytes (Z.of_nat (length bytes)) half.
Definition parse (bytes : list Z) : outcome (result Image ElfError) := parse_in bytes User.

(** ** Relocations *)
Fixpoint offset_loop (segs : list Segment) (address' length' : Z) : outcome (option Z) :=
  match segs with
  | [] => Done None
  | segment :: segs' =>
      match checked64 (address segment + file_size segment) with
      | None => Done None
      | Some end' =>
          if address segment <=? address' then
            match checked64 (address' + length') with
            | None => Done None
            | Some e =>
                if e <=? end' then
                  at' ← sub_checked 64 address' (address segment);
                  at' ← add_checked 64 (file_offset segment) at';
                  Done (Some at')
                else offset_loop segs' address' length'
            end
          else offset_loop segs' address' length'
      end
  end.
Definition file_offset_of (image : Image) (address' length' : Z) : outcome (option Z) := offset_loop (segments image) address' length'.

(** The dynamic table, from [at'] on: what has been found of the three entries. *)
Record Rela : Type := MkRela { rela_address : option Z; rela_size : option Z; rela_entry : option Z }.
Fixpoint dynamic_loop (fuel : nat) (bytes : list Z) (dyn_offset dyn_size at' : Z) (found : Rela) : outcome (result Rela ElfError) :=
  next ← add_checked 64 at' 16;
  if next <=? dyn_size then
    match fuel with
    | O => OutOfFuel
    | S fuel' =>
        here ← add_checked 64 dyn_offset at';
        tag ←- Done (ok_or (u64_at bytes here) UnsupportedRelocation);
        here ← add_checked 64 here 8;
        value ←- Done (ok_or (u64_at bytes here) UnsupportedRelocation);
        if tag =? 0 then Done (Ok found)
        else
          dynamic_loop fuel' bytes dyn_offset dyn_size next
            (if tag =? DT_RELA then MkRela (Some value) (rela_size found) (rela_entry found)
             else if tag =? DT_RELASZ then MkRela (rela_address found) (Some value) (rela_entry found)
             else if tag =? DT_RELAENT then MkRela (rela_address found) (rela_size found) (Some value)
             else found)
    end
  else Done (Ok found).

Definition inside (r_offset : Z) (segment : Segment) : bool :=
  (address segment <=? r_offset) &&
  match checked64 (r_offset + 8) with
  | Some end' => end' <=? Z.min (address segment + memory_size segment) (2 ^ 64 - 1)
  | None => false
  end.

(** [as i64]. *)
Definition as_i64 (x : Z) : Z := if x <? 2 ^ 63 then x else x - 2 ^ 64.

(** The loop over the relocations; [done'] is what [apply] has been called with, and is
    part of every answer. *)
Fixpoint relocation_loop (bytes : list Z) (segs : list Segment) (table : Z) (index n : nat) (done' : list (Z * Z)) : outcome (result unit ElfError * list (Z * Z)) :=
  match n with
  | O => Done (Ok tt, done')
  | S n' =>
      at' ← mul_checked 64 (Z.of_nat index) 24;
      entry ← add_checked 64 table at';
      fields ← (r_offset ←- Done (ok_or (u64_at bytes entry) UnsupportedRelocation);
                here ← add_checked 64 entry 8;
                r_info ←- Done (ok_or (u64_at bytes here) UnsupportedRelocation);
                here ← add_checked 64 entry 16;
                r_addend ←- Done (ok_or (u64_at bytes here) UnsupportedRelocation);
                Done (Ok (r_offset, r_info, r_addend)));
      match fields with
      | Err e => Done (Err e, done')
      | Ok (r_offset, r_info, r_addend) =>
          if negb (Z.land r_info 0xffff_ffff =? R_RELATIVE) then Done (Err UnsupportedRelocation, done')
          else if negb (existsb (inside r_offset) segs) then Done (Err UnsupportedRelocation, done')
          else relocation_loop bytes segs table (S index) n' (done' ++ [(r_offset, as_i64 r_addend)])
      end
  end.

(** The answer, and the calls of [apply]. *)
Definition for_each_relative_relocation (bytes : list Z) (image : Image) : outcome (result Z ElfError * list (Z * Z)) :=
  match dynamic image with
  | None => Done (Ok 0, [])
  | Some (dyn_offset, dyn_size) =>
      r ← dynamic_loop (Z.to_nat (dyn_size / 16)) bytes dyn_offset dyn_size 0 (MkRela None None None);
      match r with
      | Err e => Done (Err e, [])
      | Ok found =>
          match rela_address found, rela_size found with
          | Some address', Some size =>
              if negb (default 24 (rela_entry found) =? 24) then Done (Err UnsupportedRelocation, [])
              else if negb (size mod 24 =? 0) then Done (Err UnsupportedRelocation, [])
              else
                table ← file_offset_of image address' size;
                match table with
                | None => Done (Err UnsupportedRelocation, [])
                | Some table =>
                    '(r, applied) ← relocation_loop bytes (segments image) table 0 (Z.to_nat (size / 24)) [];
                    Done (match r with Ok _ => Ok (size / 24) | Err e => Err e end, applied)
                end
          | _, _ => Done (Ok 0, [])
          end
      end
  end.
End Elf.
