(* ===== verification/ElfLaws.v ===== *)
(** * ELF images: their laws

    Theorems about Elf.v: what the parser accepts, exactly, and that it answers on any
    bytes; that the relocations of an accepted image are applied inside it. *)
From stdpp Require Import prelude numbers list.
From S2P Require Import Prelude Bytes Elf.
Open Scope Z_scope.
Set Warnings "-clear-no-such-hyp".
Import Elf.

(** ** Fields *)

(** The little-endian field of [n] bytes at [off]. *)
Definition fld (n : nat) (bytes : list Z) (off : Z) : Z := from_le (take n (drop (Z.to_nat off) bytes)).

(** A slice of bytes: Rust bounds its length by [isize::MAX]. *)
Definition is_file (bytes : list Z) : Prop := Forall is_byte bytes ∧ Z.of_nat (length bytes) < 2 ^ 63.

Lemma fld_range n bytes off : Forall is_byte bytes → 0 ≤ fld n bytes off < 256 ^ Z.of_nat n.
Proof.
  intros Hb. unfold fld. pose proof (from_le_range (take n (drop (Z.to_nat off) bytes)) ltac:(by apply Forall_take, Forall_drop)) as Hr.
  split; [apply Hr|]. eapply Z.lt_le_trans; [apply Hr|]. apply Z.pow_le_mono_r; [lia|]. rewrite length_take. lia.
Qed.
Lemma fld8_range bytes off : Forall is_byte bytes → 0 ≤ fld 8 bytes off < 2 ^ 64.
Proof. intros Hb. pose proof (fld_range 8 bytes off Hb). change (256 ^ Z.of_nat 8) with (2 ^ 64) in *. done. Qed.
Lemma fld2_range bytes off : Forall is_byte bytes → 0 ≤ fld 2 bytes off < 2 ^ 16.
Proof. intros Hb. pose proof (fld_range 2 bytes off Hb). change (256 ^ Z.of_nat 2) with (2 ^ 16) in *. done. Qed.

Lemma uint_at_is n bytes off : is_file bytes → 0 ≤ off → (n ≤ 8)%nat → off + Z.of_nat n ≤ Z.of_nat (length bytes) → uint_at n bytes off = Some (fld n bytes off).
Proof.
  intros [_ Hl] Ho Hn Hf. unfold uint_at. rewrite (proj2 (Z.ltb_lt _ _)) by lia. unfold get. rewrite decide_True by lia. done.
Qed.

Lemma checked64_is x : checked64 x = if decide (x < 2 ^ 64) then Some x else None.
Proof. unfold checked64. destruct (Z.ltb_spec x (2 ^ 64)); case_decide; done || lia. Qed.

(** ** Program headers *)
Record Phdr : Type := MkPhdr { p_type : Z; p_flags : Z; p_offset : Z; p_vaddr : Z; p_filesz : Z; p_memsz : Z }.
Definition phdr (bytes : list Z) (base : Z) : Phdr :=
  MkPhdr (fld 4 bytes base) (fld 4 bytes (base + 4)) (fld 8 bytes (base + 8)) (fld 8 bytes (base + 16)) (fld 8 bytes (base + 32)) (fld 8 bytes (base + 40)).

Definition writable (p : Phdr) : bool := negb (Z.land (p_flags p) WRITE =? 0).
Definition executable (p : Phdr) : bool := negb (Z.land (p_flags p) EXEC =? 0).

(** A segment that may be loaded: its contents in the file and no more than its memory,
    its memory in its half, and not both writable and executable. *)
Record load_ok (file_len : Z) (half : AddressHalf) (p : Phdr) : Prop := {
  lo_file : p_offset p + p_filesz p ≤ file_len;
  lo_fits : p_filesz p ≤ p_memsz p;
  lo_half : match half with User => p_vaddr p + Z.max (p_memsz p) 1 ≤ KERNEL_HALF | Kernel => KERNEL_HALF ≤ p_vaddr p end;
  lo_top : p_vaddr p + Z.max (p_memsz p) 1 ≤ 2 ^ 64;
  lo_wx : writable p && executable p = false
}.

Definition header_ok (bytes : list Z) (file_len : Z) (half : AddressHalf) (p : Phdr) : Prop :=
  (p_type p = PT_LOAD → load_ok file_len half p) ∧ (p_type p = PT_DYNAMIC → p_offset p + p_filesz p ≤ Z.of_nat (length bytes)).

Definition segment_of (p : Phdr) : Segment :=
  MkSegment (p_vaddr p) (p_memsz p) (p_offset p) (p_filesz p)
    (if writable p then ReadWrite else if executable p then ReadExecute else ReadOnly) (p_flags p).

Definition loads (ps : list Phdr) : list Segment := segment_of <$> filter (fun p => p_type p = PT_LOAD) ps.
Definition last_dynamic (d : option (Z * Z)) (ps : list Phdr) : option (Z * Z) :=
  foldl (fun d p => if decide (p_type p = PT_DYNAMIC) then Some (p_offset p, p_filesz p) else d) d ps.

(** The array with the segments found so far. *)
Definition in_array (l : list Segment) : list (option Segment) := (Some <$> l) ++ replicate (MAX_SEGMENTS - length l) None.
Definition state_of (l : list Segment) (d : option (Z * Z)) : list (option Segment) * nat * option (Z * Z) := (in_array l, length l, d).

Lemma in_array_snoc l s : (length l < MAX_SEGMENTS)%nat → <[length l := Some s]> (in_array l) = in_array (l ++ [s]).
Proof.
  intros Hl. unfold in_array. rewrite insert_app_r_alt by (rewrite length_fmap; lia). rewrite length_fmap, Nat.sub_diag.
  replace (MAX_SEGMENTS - length l)%nat with (S (MAX_SEGMENTS - length (l ++ [s]))) by (rewrite length_app; cbn [length]; lia). cbn [replicate insert list_insert].
  rewrite fmap_app. cbn. by rewrite <- app_assoc.
Qed.
Lemma in_array_segments l : omap id (in_array l) = l.
Proof.
  unfold in_array. rewrite omap_app. assert (E : omap id (replicate (MAX_SEGMENTS - length l) (None : option Segment)) = []) by (induction (MAX_SEGMENTS - length l)%nat; [done|exact IHn]).
  rewrite E, app_nil_r. clear E. induction l as [|s l IH]; [done|]. cbn. f_equal. exact IH.
Qed.

Section Parse.
Context (bytes : list Z) (file_len : Z) (half : AddressHalf).
Context (Hfile : is_file bytes) (Hlen : in_width 64 file_len).

(** What one program header does to what was found. *)
Inductive header_does (p : Phdr) (l : list Segment) (d : option (Z * Z)) : list Segment → option (Z * Z) → Prop :=
| does_dynamic : p_type p = PT_DYNAMIC → p_offset p + p_filesz p ≤ Z.of_nat (length bytes) → header_does p l d l (Some (p_offset p, p_filesz p))
| does_skip : p_type p ≠ PT_DYNAMIC → p_type p ≠ PT_LOAD → header_does p l d l d
| does_load : p_type p = PT_LOAD → load_ok file_len half p → (length l < MAX_SEGMENTS)%nat → header_does p l d (l ++ [segment_of p]) d.

Lemma header_does_one p l d l1 d1 l2 d2 : header_does p l d l1 d1 → header_does p l d l2 d2 → state_of l1 d1 = state_of l2 d2.
Proof. intros [] []; unfold PT_DYNAMIC, PT_LOAD in *; done || lia. Qed.

(** An answer, as what it says of every state. *)
Definition step_says p l d (r : result (list (option Segment) * nat * option (Z * Z)) ElfError) : Prop :=
  ∀ s, r = Ok s ↔ ∃ l' d', header_does p l d l' d' ∧ s = state_of l' d'.
Lemma says_ok p l d l' d' : header_does p l d l' d' → step_says p l d (Ok (state_of l' d')).
Proof. intros Hd s. split; [intros [= <-]; by eexists _, _|]. intros (l2 & d2 & H2 & ->). f_equal. by eapply header_does_one. Qed.
Lemma says_err p l d e : (∀ l' d', ¬ header_does p l d l' d') → step_says p l d (Err e).
Proof. intros Hn s. split; [done|]. intros (l' & d' & Hd & _). by destruct (Hn l' d'). Qed.

Ltac step H := rewrite H; cbn [mbind outcome_bind].
Ltac fields p := subst p; cbn [p_type p_flags p_offset p_vaddr p_filesz p_memsz phdr] in *.
Ltac refuse_header p := eexists; split; [done|]; apply says_err; intros ? ? [Hty ?|Hty ?|Hty [? ? Hhalf ? ?] ?]; unfold PT_DYNAMIC, PT_LOAD in *; fields p; try match goal with E : half = _ |- _ => rewrite E in Hhalf end; lia || congruence.

Lemma header_step_is phoff phentsize index l d : 0 ≤ phoff → 56 ≤ phentsize → phoff + (Z.of_nat index + 1) * phentsize ≤ Z.of_nat (length bytes) → (length l ≤ MAX_SEGMENTS)%nat →
  ∃ r, header_step bytes file_len half phoff phentsize index (state_of l d) = Done r ∧
    step_says (phdr bytes (phoff + Z.of_nat index * phentsize)) l d r.
Proof.
  intros Hp He Ht Hl. unfold header_step, state_of. set (base := phoff + Z.of_nat index * phentsize). set (p := phdr bytes base). destruct Hfile as [Hb Hl64].
  assert (Hbase : 0 ≤ base ∧ base + 56 ≤ Z.of_nat (length bytes)) by (unfold base; nia).
  assert (Hm : mul_checked 64 (Z.of_nat index) phentsize = Done (Z.of_nat index * phentsize)) by (apply checked_ok; unfold in_width; nia).
  assert (Ha : ∀ k, 0 ≤ k ≤ 56 → add_checked 64 base k = Done (base + k)) by (intros k Hk; apply checked_ok; unfold in_width; lia).
  assert (Hh : add_checked 64 phoff (Z.of_nat index * phentsize) = Done base) by (apply checked_ok; unfold in_width; fold base; lia).
  assert (H4 : ∀ k, 0 ≤ k ≤ 52 → u32_at bytes (base + k) = Some (fld 4 bytes (base + k))) by (intros k Hk; apply uint_at_is; [done|lia|lia|lia]).
  assert (H8 : ∀ k, 0 ≤ k ≤ 48 → u64_at bytes (base + k) = Some (fld 8 bytes (base + k))) by (intros k Hk; apply uint_at_is; [done|lia|lia|lia]).
  assert (H0 : u32_at bytes base = Some (p_type p)) by (apply uint_at_is; [done|lia|lia|lia]).
  pose proof (fld8_range bytes (base + 8) Hb) as R8. pose proof (fld8_range bytes (base + 16) Hb) as R16. pose proof (fld8_range bytes (base + 32) Hb) as R32. pose proof (fld8_range bytes (base + 40) Hb) as R40.
  unfold in_width in Hlen. step Hm. step Hh. rewrite H0. cbn [ok_or mbind outcome_bind]. destruct (Z.eqb_spec (p_type p) PT_DYNAMIC) as [Hd|Hd].
  { step (Ha 8 ltac:(lia)). rewrite (H8 8) by lia. cbn [ok_or mbind outcome_bind]. step (Ha 32 ltac:(lia)). rewrite (H8 32) by lia. cbn [ok_or mbind outcome_bind].
    rewrite checked64_is. case_decide; cbn [ok_or mbind outcome_bind]; [|refuse_header p]. destruct (Z.ltb_spec (Z.of_nat (length bytes)) (fld 8 bytes (base + 8) + fld 8 bytes (base + 32))); [refuse_header p|].
    eexists. split; [done|]. apply (says_ok p l d l). by apply does_dynamic. }
  destruct (Z.eqb_spec (p_type p) PT_LOAD) as [Hload|Hload]; cbn [negb]; [|eexists; split; [done|]; apply says_ok; by apply does_skip].
  step (Ha 4 ltac:(lia)). rewrite (H4 4) by lia. cbn [ok_or mbind outcome_bind]. step (Ha 8 ltac:(lia)). rewrite (H8 8) by lia. cbn [ok_or mbind outcome_bind].
  step (Ha 16 ltac:(lia)). rewrite (H8 16) by lia. cbn [ok_or mbind outcome_bind]. step (Ha 32 ltac:(lia)). rewrite (H8 32) by lia. cbn [ok_or mbind outcome_bind].
  step (Ha 40 ltac:(lia)). rewrite (H8 40) by lia. cbn [ok_or mbind outcome_bind].
  rewrite checked64_is. case_decide; cbn [ok_or mbind outcome_bind]; [|refuse_header p].
  destruct (Z.ltb_spec file_len (fld 8 bytes (base + 8) + fld 8 bytes (base + 32))); [refuse_header p|]. destruct (Z.ltb_spec (fld 8 bytes (base + 40)) (fld 8 bytes (base + 32))); [refuse_header p|].
  rewrite checked64_is. case_decide; cbn [ok_or mbind outcome_bind]; [|refuse_header p].
  match goal with |- context [if ?c then Done (Err SegmentOutsideUserSpace) else _] => destruct c eqn:Eh end.
  { destruct half eqn:Ehalf; [apply orb_true_iff in Eh as [Eh|Eh]|]; [apply Z.leb_le in Eh|apply Z.leb_le in Eh|apply Z.ltb_lt in Eh]; refuse_header p. }
  change (negb (Z.land (fld 4 bytes (base + 4)) WRITE =? 0)) with (writable p). change (negb (Z.land (fld 4 bytes (base + 4)) EXEC =? 0)) with (executable p).
  destruct (writable p && executable p) eqn:Ewx; [refuse_header p|]. destruct (Nat.leb_spec MAX_SEGMENTS (length l)); [refuse_header p|].
  assert (Hdoes : header_does p l d (l ++ [segment_of p]) d).
  { apply does_load; [done| |done]. split; [fields p; lia|fields p; lia| |fields p; lia|done]. fields p. destruct half; [apply orb_false_iff in Eh as [E1%Z.leb_gt E2%Z.leb_gt]; lia|by apply Z.ltb_ge in Eh]. }
  eexists. split; [done|]. pose proof (says_ok _ _ _ _ _ Hdoes) as Hs. unfold state_of in Hs. rewrite <- in_array_snoc, length_app, Nat.add_1_r in Hs by done.
  unfold segment_of in Hs. cbn in Hs. by destruct (writable p), (executable p).
Qed.

(** ** The table *)
Definition headers (phoff phentsize : Z) (index n : nat) : list Phdr := (fun k => phdr bytes (phoff + Z.of_nat k * phentsize)) <$> seq index n.

Lemma headers_loop_is phoff phentsize n : 0 ≤ phoff → 56 ≤ phentsize → ∀ index l d, phoff + Z.of_nat (index + n) * phentsize ≤ Z.of_nat (length bytes) → (length l ≤ MAX_SEGMENTS)%nat →
  ∃ r, headers_loop bytes file_len half phoff phentsize index n (state_of l d) = Done r ∧
    ∀ s, r = Ok s ↔ let ps := headers phoff phentsize index n in
      Forall (header_ok bytes file_len half) ps ∧ (length l + length (loads ps) ≤ MAX_SEGMENTS)%nat ∧ s = state_of (l ++ loads ps) (last_dynamic d ps).
Proof.
  intros Hp He. induction n as [|n IH]; intros index l d Ht Hl; cbn [headers_loop].
  { eexists. split; [done|]. intros s. cbn. rewrite app_nil_r. split; [intros [= <-]; split_and!; [constructor|lia|done]|by intros (_ & _ & ->)]. }
  destruct (header_step_is phoff phentsize index l d Hp He ltac:(nia) Hl) as (r & -> & Hr). cbn [mbind outcome_bind]. cbn [headers seq fmap list_fmap]. fold (headers phoff phentsize (S index) n).
  set (p := phdr bytes (phoff + Z.of_nat index * phentsize)) in *. set (ps := headers phoff phentsize (S index) n). destruct r as [s1|e].
  - destruct (proj1 (Hr s1) eq_refl) as (l' & d' & Hd & ->).
    assert (Hl' : (length l' ≤ MAX_SEGMENTS)%nat) by (destruct Hd; rewrite ?length_app; cbn [length]; lia).
    destruct (IH (S index) l' d' ltac:(rewrite Nat.add_succ_l, <- Nat.add_succ_r; exact Ht) Hl') as (r & -> & Hs). exists r. split; [done|]. intros s. rewrite Hs. cbn zeta. fold ps. rewrite Forall_cons. cbn [loads last_dynamic foldl].
    assert (Hcase : header_ok bytes file_len half p ∧ l' ++ loads ps = l ++ loads (p :: ps) ∧ last_dynamic d' ps = last_dynamic d (p :: ps)).
    { unfold header_ok, loads, last_dynamic. rewrite filter_cons. cbn [foldl]. destruct Hd as [Hty Hin|Hty Hty'|Hty Hok Hlt]; unfold PT_LOAD, PT_DYNAMIC in *.
      - repeat case_decide; try lia. split_and!; [lia|done|done|done].
      - repeat case_decide; try lia. split_and!; [lia|lia|done|done].
      - repeat case_decide; try lia. split_and!; [done|lia|by rewrite <- app_assoc|done]. }
    destruct Hcase as (Hok & El & ->). apply (f_equal length) in El as En. rewrite !length_app in En. rewrite El, En. naive_solver.
  - exists (Err e). split; [done|]. intros s. split; [done|]. intros (Hok & Hc & _). exfalso. apply Forall_cons in Hok as [[Hok1 Hok2] _].
    assert (Hn : ∀ l' d', ¬ header_does p l d l' d') by (intros l' d' Hd; by specialize (proj2 (Hr _) (ex_intro _ l' (ex_intro _ d' (conj Hd eq_refl))))).
    destruct (decide (p_type p = PT_DYNAMIC)) as [Hty|Hty]; [eapply Hn, does_dynamic; [done|by apply Hok2]|]. destruct (decide (p_type p = PT_LOAD)) as [Hty'|Hty'].
    + eapply Hn, does_load; [done|by apply Hok1|]. unfold loads in Hc. rewrite filter_cons, decide_True in Hc by done. cbn in Hc. lia.
    + by eapply Hn, does_skip.
Qed.
End Parse.

(** ** Pages *)
Definition on_page (s : Segment) (k : Z) : Prop := address s / PAGE_SIZE ≤ k ≤ (address s + Z.max (memory_size s) 1 - 1) / PAGE_SIZE.
Definition spans (s : Segment) : Prop := address s + Z.max (memory_size s) 1 ≤ 2 ^ 64 - PAGE_SIZE.
Definition apart (s t : Segment) : Prop := ∀ k, ¬ (on_page s k ∧ on_page t k).

Definition span_of (s : Segment) : Z * Z := (address s / PAGE_SIZE * PAGE_SIZE, ((address s + Z.max (memory_size s) 1 - 1) / PAGE_SIZE + 1) * PAGE_SIZE).

Lemma ldiff_page a : 0 ≤ a → Z.ldiff a (PAGE_SIZE - 1) = a / PAGE_SIZE * PAGE_SIZE.
Proof.
  intros Ha. change (PAGE_SIZE - 1) with (Z.ones 12). rewrite Z.ldiff_ones_r, Z.shiftl_mul_pow2, Z.shiftr_div_pow2 by lia. done.
Qed.

Lemma page_span_is s : 0 ≤ address s → page_span s = if decide (spans s) then Some (span_of s) else None.
Proof.
  intros Ha. unfold page_span, spans, span_of. rewrite ldiff_page, !checked64_is by done. set (e := address s + Z.max (memory_size s) 1).
  assert (E : next_multiple e PAGE_SIZE = ((e - 1) / PAGE_SIZE + 1) * PAGE_SIZE).
  { unfold next_multiple. replace (e + PAGE_SIZE - 1) with (e - 1 + 1 * PAGE_SIZE) by lia. by rewrite Z.div_add by (unfold PAGE_SIZE; lia). }
  pose proof (Z.div_mod (e - 1) PAGE_SIZE ltac:(unfold PAGE_SIZE; lia)). pose proof (Z.mod_pos_bound (e - 1) PAGE_SIZE ltac:(unfold PAGE_SIZE; lia)). unfold PAGE_SIZE in *.
  assert (e - 1 ≤ 2 ^ 64 - 4096 - 1 ↔ (e - 1) / 4096 < 2 ^ 52 - 1) by (change (2 ^ 64) with (2 ^ 52 * 4096); split; intros; nia).
  case_decide; cbn [mbind option_bind]; [|rewrite decide_False by lia; done]. rewrite checked64_is, E. do 2 case_decide; cbn [mbind option_bind]; try done; change (2 ^ 64) with (2 ^ 52 * 4096) in *; nia.
Qed.

Lemma spans_apart s t : apart s t ↔ (span_of t).2 ≤ (span_of s).1 ∨ (span_of s).2 ≤ (span_of t).1.
Proof.
  unfold apart, on_page, span_of. cbn [fst snd]. set (a := address s / PAGE_SIZE). set (b := (address s + _ - 1) / PAGE_SIZE). set (c := address t / PAGE_SIZE). set (d := (address t + _ - 1) / PAGE_SIZE).
  assert (Hab : a ≤ b) by (apply Z.div_le_mono; unfold PAGE_SIZE; lia). assert (Hcd : c ≤ d) by (apply Z.div_le_mono; unfold PAGE_SIZE; lia). unfold PAGE_SIZE. split.
  - intros Hn. specialize (Hn (Z.max a c)). lia.
  - intros Hd k. lia.
Qed.

Lemma others_loop_is s ts : Forall (fun t => 0 ≤ address t) ts → others_loop (span_of s).1 (span_of s).2 ts = Ok tt ↔ Forall (fun t => spans t ∧ apart s t) ts.
Proof.
  induction ts as [|t ts IH]; intros Ha; cbn [others_loop]; [done|]. apply Forall_cons in Ha as [Ha Has]. rewrite page_span_is, Forall_cons by done.
  rewrite spans_apart. case_decide as Hs; cbn [ok_or rbind]; [|naive_solver].
  destruct (Z.ltb_spec (span_of s).1 (span_of t).2), (Z.ltb_spec (span_of t).1 (span_of s).2); cbn [andb]; [split; [done|lia]|rewrite (IH Has); intuition lia..].
Qed.

(** All segments fit below the top and no page is on two of them. *)
Definition pages_ok (segs : list Segment) : Prop := Forall spans segs ∧ ForallOrdPairs apart segs.

Lemma overlap_loop_is segs : Forall (fun t => 0 ≤ address t) segs → overlap_loop segs = Ok tt ↔ pages_ok segs.
Proof.
  unfold pages_ok. induction segs as [|s segs IH]; intros Ha; cbn [overlap_loop]; [by repeat constructor|]. apply Forall_cons in Ha as [Ha Has]. rewrite page_span_is, Forall_cons by done.
  case_decide as Hs; cbn [ok_or rbind]; [|naive_solver]. pose proof (others_loop_is s segs Has) as Ho. rewrite Forall_and in Ho.
  destruct (others_loop _ _ segs) as [[]|e]; cbn [rbind].
  - destruct (proj1 Ho eq_refl) as [H1 H2]. rewrite (IH Has). split; [intros [_ Hp]; by repeat constructor|]. intros [_ Hp]. split; [done|by inversion Hp].
  - split; [done|]. intros [[_ H1] Hp]. inversion Hp as [|? ? H2 _]; subst. by rewrite (proj2 Ho (conj H1 H2)).
Qed.

(** ** What is accepted *)
Definition phoff_of (bytes : list Z) : Z := fld 8 bytes 32.
Definition phentsize_of (bytes : list Z) : Z := fld 2 bytes 54.
Definition phnum_of (bytes : list Z) : Z := fld 2 bytes 56.
Definition phdrs (bytes : list Z) : list Phdr := headers bytes (phoff_of bytes) (phentsize_of bytes) 0 (Z.to_nat (phnum_of bytes)).
Definition contains (s : Segment) (a : Z) : Prop := address s ≤ a < address s + memory_size s.

(** A file that may be loaded, and the image it is. *)
Record accepted (bytes : list Z) (file_len : Z) (half : AddressHalf) (image : Image) : Prop := {
  ac_length : 64 ≤ Z.of_nat (length bytes) ≤ file_len;
  ac_magic : take 4 bytes = MAGIC;
  ac_class : bytes !! 4%nat = Some CLASS_64 ∧ bytes !! 5%nat = Some DATA_LSB;
  ac_type : fld 2 bytes 16 = TYPE_EXEC ∨ half = Kernel ∧ fld 2 bytes 16 = TYPE_DYN;
  ac_machine : fld 2 bytes 18 = MACHINE_X86_64;
  ac_table : 56 ≤ phentsize_of bytes ∧ phoff_of bytes + phentsize_of bytes * phnum_of bytes ≤ Z.of_nat (length bytes);
  ac_headers : Forall (header_ok bytes file_len half) (phdrs bytes);
  ac_count : (1 ≤ length (loads (phdrs bytes)) ≤ MAX_SEGMENTS)%nat;
  ac_pages : pages_ok (loads (phdrs bytes));
  ac_entry : Exists (fun s => contains s (fld 8 bytes 24)) (loads (phdrs bytes));
  ac_image : image = MkImage (fld 8 bytes 24) (in_array (loads (phdrs bytes))) (length (loads (phdrs bytes))) (last_dynamic None (phdrs bytes))
}.

Lemma loads_address bytes phoff es i n : Forall is_byte bytes → Forall (fun s => 0 ≤ address s ∧ 0 ≤ memory_size s ∧ 0 ≤ file_offset s ∧ 0 ≤ file_size s) (loads (headers bytes phoff es i n)).
Proof.
  intros Hb. unfold loads, headers. apply Forall_fmap, Forall_forall. intros p Hp. apply list_elem_of_filter in Hp as [_ Hp]. apply list_elem_of_fmap in Hp as (k & -> & _).
  pose proof (fld8_range bytes) as R. cbn. split_and!; by apply R.
Qed.

Lemma covers_is e segs : Forall spans segs → existsb (covers e) segs = true ↔ Exists (fun s => contains s e) segs.
Proof.
  induction 1 as [|s segs Hs Hss IH]; cbn [existsb]; [by rewrite Exists_nil|]. rewrite orb_true_iff, Exists_cons, IH. unfold covers, contains. rewrite andb_true_iff, Z.leb_le, Z.ltb_lt.
  unfold spans, PAGE_SIZE in Hs. rewrite Z.min_l by lia. done.
Qed.

Lemma type_allowed_is half t : type_allowed half t = true ↔ t = TYPE_EXEC ∨ half = Kernel ∧ t = TYPE_DYN.
Proof. destruct half; unfold type_allowed; rewrite ?orb_true_iff, !Z.eqb_eq; intuition congruence. Qed.

Lemma lookup_head bytes : (64 ≤ length bytes)%nat → get bytes 0 4 = Some (take 4 bytes).
Proof. intros Hl. unfold get. by rewrite decide_True by lia. Qed.

(** A refusal: nothing accepted fails the check at hand. *)
Ltac refuse_file := eexists; split; [done|]; intros ?; split; [done|]; intros [].

Lemma parse_head_is bytes file_len half : is_file bytes → in_width 64 file_len →
  ∃ r, parse_head bytes file_len half = Done r ∧ ∀ image, r = Ok image ↔ accepted bytes file_len half image.
Proof.
  intros Hf Hlen. assert (H2 : ∀ o, 0 ≤ o ≤ 62 → 64 ≤ Z.of_nat (length bytes) → u16_at bytes o = Some (fld 2 bytes o)) by (intros o Ho Hl; apply uint_at_is; [done|lia|lia|lia]).
  assert (H8 : ∀ o, 0 ≤ o ≤ 56 → 64 ≤ Z.of_nat (length bytes) → u64_at bytes o = Some (fld 8 bytes o)) by (intros o Ho Hl; apply uint_at_is; [done|lia|lia|lia]).
  destruct Hf as [Hb Hl64] eqn:EF; clear EF. unfold parse_head. destruct (Nat.ltb_spec (length bytes) 64); [refuse_file; lia|].
  destruct (Z.ltb_spec file_len (Z.of_nat (length bytes))); [refuse_file; lia|]. rewrite lookup_head by done.
  destruct (bool_decide_reflect (Some (take 4 bytes) = Some MAGIC)) as [Hm|Hm]; cbn [negb]; [|refuse_file; congruence].
  destruct (bool_decide_reflect (bytes !! 4%nat = Some CLASS_64)) as [H4|H4]; cbn [negb orb]; [|refuse_file; naive_solver].
  destruct (bool_decide_reflect (bytes !! 5%nat = Some DATA_LSB)) as [H5|H5]; cbn [negb orb]; [|refuse_file; naive_solver].
  rewrite !H2, !H8 by lia. cbn [ok_or mbind outcome_bind]. pose proof (type_allowed_is half (fld 2 bytes 16)) as Hty. destruct (type_allowed half (fld 2 bytes 16)) eqn:Et; cbn [negb]; [|refuse_file; naive_solver].
  destruct (bool_decide_reflect (Some (fld 2 bytes 18) = Some MACHINE_X86_64)) as [Hmach|Hmach]; cbn [negb]; [|refuse_file; congruence].
  fold (phoff_of bytes) (phentsize_of bytes) (phnum_of bytes). destruct (Z.ltb_spec (phentsize_of bytes) 56); [refuse_file; lia|].
  pose proof (fld2_range bytes 54 Hb) as R54. pose proof (fld2_range bytes 56 Hb) as R56. pose proof (fld8_range bytes 32 Hb) as R32. fold (phoff_of bytes) (phentsize_of bytes) (phnum_of bytes) in R54, R56, R32.
  rewrite checked64_is, decide_True by nia. cbn [ok_or mbind outcome_bind]. rewrite checked64_is. case_decide; cbn [ok_or mbind outcome_bind]; [|refuse_file; lia].
  destruct (Z.ltb_spec (Z.of_nat (length bytes)) (phoff_of bytes + phentsize_of bytes * phnum_of bytes)); [refuse_file; lia|].
  destruct (headers_loop_is bytes file_len half Hf Hlen (phoff_of bytes) (phentsize_of bytes) (Z.to_nat (phnum_of bytes)) ltac:(lia) ltac:(lia) 0%nat [] None) as (r & Hr & Hloop); [nia|cbn; lia|].
  change (replicate MAX_SEGMENTS None, 0%nat, None) with (state_of [] None). rewrite Hr. cbn [mbind outcome_bind]. fold (phdrs bytes) in Hloop. cbn [length app Nat.add] in Hloop.
  destruct r as [st|e]; [|refuse_file; discriminate (proj2 (Hloop _) (conj ac_headers0 (conj (proj2 ac_count0) eq_refl)))].
  destruct (proj1 (Hloop st) eq_refl) as (Hok & Hcount & ->). unfold state_of. destruct (Nat.eqb_spec (length (loads (phdrs bytes))) 0); [refuse_file; lia|].
  rewrite !in_array_segments. pose proof (overlap_loop_is (loads (phdrs bytes))) as Hov. pose proof (loads_address bytes (phoff_of bytes) (phentsize_of bytes) 0 (Z.to_nat (phnum_of bytes)) Hb) as Haddr. fold (phdrs bytes) in Haddr.
  specialize (Hov ltac:(eapply Forall_impl; [exact Haddr|cbn; tauto])). destruct (overlap_loop _) as [[]|e] eqn:Eo; cbn [rbind]; [|refuse_file; naive_solver].
  destruct (proj1 Hov eq_refl) as [Hs Hp]. pose proof (covers_is (fld 8 bytes 24) _ Hs) as Hcov. destruct (existsb _ _) eqn:Ec; cbn [negb]; [|refuse_file; naive_solver].
  eexists. split; [done|]. intros image. split; [intros [= <-]|by intros []; subst].
  split; try done; [lia|congruence|naive_solver|congruence|lia|by apply Hcov].
Qed.

(** C21. The ELF parser is total and exact: on any bytes, claimed to be the front of a file
    of any length, it answers, and it accepts exactly the files of which the header, the
    table and every program header are right: the contents of each segment inside the file,
    its memory inside its half of the address space and not both writable and executable,
    at most sixteen segments with no page on two of them, and the entry point in one; the
    image it answers is the one the headers describe. *)
Theorem parse_head_exact bytes file_len half : is_file bytes → in_width 64 file_len →
  ∃ r, parse_head bytes file_len half = Done r ∧ ∀ image, r = Ok image ↔ accepted bytes file_len half image.
Proof. apply parse_head_is. Qed.

Lemma all_bytes l : forallb (fun b => (0 <=? b) && (b <? 256)) l = true → Forall is_byte l.
Proof. rewrite forallb_forall. intros H. apply Forall_forall. intros b Hb. specialize (H b ltac:(by apply list_elem_of_In)). unfold is_byte. lia. Qed.

(** A file of one segment, all of it, readable and executable. *)
Definition demo_elf : list Z :=
  MAGIC ++ [CLASS_64; DATA_LSB] ++ replicate 10 0 ++ to_le 2 TYPE_EXEC ++ to_le 2 MACHINE_X86_64 ++ to_le 4 1 ++ to_le 8 0x400078 ++ to_le 8 64 ++
  replicate 14 0 ++ to_le 2 56 ++ to_le 2 1 ++ replicate 6 0 ++
  to_le 4 PT_LOAD ++ to_le 4 5 ++ to_le 8 0 ++ to_le 8 0x400000 ++ to_le 8 0 ++ to_le 8 128 ++ to_le 8 5000 ++ to_le 8 4096 ++ replicate 8 0x90.

Lemma demo_elf_file : is_file demo_elf.
Proof. split; [|vm_compute; reflexivity]. apply all_bytes. vm_compute. reflexivity. Qed.

Lemma parse_head_exact_witness : ∃ image, accepted demo_elf 128 User image ∧ segments image = [MkSegment 0x400000 5000 0 128 ReadExecute 5].
Proof.
  destruct (parse_head_exact demo_elf 128 User demo_elf_file ltac:(vm_compute; split; congruence)) as (r & Hr & Hx).
  assert (E : ∃ image, parse_head demo_elf 128 User = Done (Ok image) ∧ segments image = [MkSegment 0x400000 5000 0 128 ReadExecute 5]) by (eexists; split; [vm_compute; reflexivity|vm_compute; reflexivity]).
  destruct E as (image & E & Es). exists image. split; [|exact Es]. apply Hx. rewrite E in Hr. congruence.
Defined.

(** ** Relocations *)

(** What an accepted image promises of its parts. *)
Record image_ok (bytes : list Z) (image : Image) : Prop := {
  io_segments : Forall (fun s => 0 ≤ address s ∧ 0 ≤ file_offset s ∧ 0 ≤ file_size s ≤ memory_size s ∧ file_offset s + file_size s ≤ Z.of_nat (length bytes) ∧ spans s) (segments image);
  io_dynamic : match dynamic image with Some (o, n) => 0 ≤ o ∧ 0 ≤ n ∧ o + n ≤ Z.of_nat (length bytes) | None => True end
}.

Lemma last_dynamic_in d ps : last_dynamic d ps = d ∨ ∃ p, p ∈ ps ∧ p_type p = PT_DYNAMIC ∧ last_dynamic d ps = Some (p_offset p, p_filesz p).
Proof.
  revert d. induction ps as [|p ps IH]; intros d; [by left|]. unfold last_dynamic. cbn [foldl].
  destruct (IH (if decide (p_type p = PT_DYNAMIC) then Some (p_offset p, p_filesz p) else d)) as [E|(q & Hq & Ht & E)]; unfold last_dynamic in E; rewrite E.
  - case_decide; [|by left]. right. exists p. split_and!; [by left|done|done].
  - right. exists q. split_and!; [by right|done|done].
Qed.

Lemma accepted_ok bytes half image : is_file bytes → accepted bytes (Z.of_nat (length bytes)) half image → image_ok bytes image.
Proof.
  intros [Hb _] []. subst image. split; unfold segments; cbn [slots dynamic].
  - rewrite in_array_segments. pose proof (loads_address bytes (phoff_of bytes) (phentsize_of bytes) 0 (Z.to_nat (phnum_of bytes)) Hb) as Haddr. destruct ac_pages0 as [Hs _].
    apply Forall_forall. intros s Hin. rewrite Forall_forall in Haddr, Hs. specialize (Haddr s Hin). specialize (Hs s Hin). apply list_elem_of_fmap in Hin as (p & -> & Hin).
    apply list_elem_of_filter in Hin as [Hty Hin]. rewrite Forall_forall in ac_headers0. destruct (ac_headers0 p Hin) as [Hl _]. destruct (Hl Hty) as [Hl1 Hl2 _ _ _].
    cbn [address memory_size file_offset file_size segment_of] in *. split_and!; try done; lia.
  - destruct (last_dynamic_in None (phdrs bytes)) as [-> |(p & Hin & Hty & ->)]; [done|]. rewrite Forall_forall in ac_headers0. destruct (ac_headers0 p Hin) as [_ Hd]. specialize (Hd Hty).
    apply list_elem_of_fmap in Hin as (k & -> & _). cbn in *. pose proof (fld8_range bytes) as R. split_and!; [by apply R|by apply R|done].
Qed.

Section Relocate.
Context (bytes : list Z) (Hfile : is_file bytes).

Lemma u64_in off : 0 ≤ off → off + 8 ≤ Z.of_nat (length bytes) → u64_at bytes off = Some (fld 8 bytes off).
Proof. intros. apply uint_at_is; [done|lia|lia|lia]. Qed.

Definition found_ok (f : Rela) : Prop := ∀ v, rela_address f = Some v ∨ rela_size f = Some v → 0 ≤ v < 2 ^ 64.

Lemma dynamic_loop_is fuel o n : 0 ≤ o → o + n ≤ Z.of_nat (length bytes) → ∀ at' f, 0 ≤ at' ≤ n → n - at' < 16 * Z.of_nat (S fuel) → found_ok f →
  ∃ f', dynamic_loop fuel bytes o n at' f = Done (Ok f') ∧ found_ok f'.
Proof.
  destruct Hfile as [Hb Hl]. intros Ho Hn. induction fuel as [|fuel IH]; intros at' f Ha Hf Hok; cbn [dynamic_loop]; unfold add_checked; rewrite (checked_ok 64 (at' + 16)) by (unfold in_width; lia); cbn [mbind outcome_bind];
    (destruct (Z.leb_spec (at' + 16) n); [|exists f; split; [reflexivity|exact Hok]]); [lia|].
  rewrite checked_ok by (unfold in_width; lia). cbn [mbind outcome_bind]. rewrite u64_in by lia. cbn [ok_or mbind outcome_bind]. rewrite checked_ok by (unfold in_width; lia). cbn [mbind outcome_bind].
  rewrite u64_in by lia. cbn [ok_or mbind outcome_bind]. pose proof (fld8_range bytes (o + at' + 8) Hb) as R. destruct (_ =? 0); [by exists f|]. apply IH; [lia|lia|].
  repeat case_match; intros v; cbn [rela_address rela_size]; (intros [E|E]; [try (injection E as <-; exact R); apply Hok; by left|try (injection E as <-; exact R); apply Hok; by right]).
Qed.

Lemma offset_loop_is segs a n : 0 ≤ a → 0 ≤ n →
  Forall (fun s => 0 ≤ address s ∧ 0 ≤ file_offset s ∧ 0 ≤ file_size s ≤ memory_size s ∧ file_offset s + file_size s ≤ Z.of_nat (length bytes) ∧ spans s) segs →
  ∃ r, offset_loop segs a n = Done r ∧ match r with Some t => 0 ≤ t ∧ t + n ≤ Z.of_nat (length bytes) | None => True end.
Proof.
  destruct Hfile as [_ Hl]. intros Ha Hn. induction 1 as [|s segs (Hs1 & Hs2 & Hs3 & Hs4 & Hs5) _ IH]; cbn [offset_loop]; [by eexists|]. unfold spans, PAGE_SIZE in Hs5.
  rewrite !checked64_is. case_decide; [|by eexists]. destruct (Z.leb_spec (address s) a); [|exact IH]. case_decide; [|by eexists]. destruct (Z.leb_spec (a + n) (address s + file_size s)); [|exact IH].
  unfold sub_checked, add_checked. rewrite checked_ok by (unfold in_width; lia). cbn [mbind outcome_bind]. rewrite checked_ok by (unfold in_width; lia). cbn [mbind outcome_bind]. eexists. split; [done|]. cbn beta iota. lia.
Qed.

(** A relocation of the table at [t], and where it may point. *)
Definition relocation (t : Z) (k : nat) : Z * Z := (fld 8 bytes (t + Z.of_nat k * 24), as_i64 (fld 8 bytes (t + Z.of_nat k * 24 + 16))).
Definition is_relative (t : Z) (k : nat) : Prop := Z.land (fld 8 bytes (t + Z.of_nat k * 24 + 8)) 0xffff_ffff = R_RELATIVE.
Definition in_memory (segs : list Segment) (a : Z) : Prop := Exists (fun s => address s ≤ a ∧ a + 8 ≤ address s + memory_size s) segs.

Lemma inside_is segs a : Forall spans segs → existsb (inside a) segs = true → in_memory segs a.
Proof.
  induction 1 as [|s segs Hs Hss IH]; cbn [existsb]; [done|]. rewrite orb_true_iff. intros [E|E]; [left|right; by apply IH]. unfold inside in E. rewrite andb_true_iff, Z.leb_le, checked64_is in E.
  destruct E as [E1 E2]. unfold spans, PAGE_SIZE in Hs. case_decide; [|done]. rewrite Z.leb_le in E2. lia.
Qed.

Lemma relocation_loop_is segs t n : 0 ≤ t → Forall spans segs → ∀ index done', t + Z.of_nat (index + n) * 24 ≤ Z.of_nat (length bytes) →
  ∃ r m, relocation_loop bytes segs t index n done' = Done (r, done' ++ (relocation t <$> seq index m)) ∧ (m ≤ n)%nat ∧ Forall (fun k => is_relative t k ∧ in_memory segs (relocation t k).1) (seq index m) ∧
    match r with Ok _ => m = n | Err e => e = UnsupportedRelocation end.
Proof.
  destruct Hfile as [_ Hl]. intros Ht Hs. induction n as [|n IH]; intros index done' Hin; cbn [relocation_loop]; [exists (Ok tt), 0%nat; cbn; by rewrite app_nil_r|].
  unfold mul_checked, add_checked. do 2 (rewrite checked_ok by (unfold in_width; lia); cbn [mbind outcome_bind]). rewrite u64_in by lia. cbn [ok_or mbind outcome_bind].
  rewrite checked_ok by (unfold in_width; lia). cbn [mbind outcome_bind]. rewrite u64_in by lia. cbn [ok_or mbind outcome_bind]. rewrite checked_ok by (unfold in_width; lia). cbn [mbind outcome_bind]. rewrite u64_in by lia. cbn [ok_or mbind outcome_bind].
  assert (Hstop : ∃ r m, Done (Err UnsupportedRelocation : result unit ElfError, done') = Done (r, done' ++ (relocation t <$> seq index m)) ∧ (m ≤ S n)%nat ∧
    Forall (fun k => is_relative t k ∧ in_memory segs (relocation t k).1) (seq index m) ∧ match r with Ok _ => m = S n | Err e => e = UnsupportedRelocation end).
  { exists (Err UnsupportedRelocation), 0%nat. cbn. rewrite app_nil_r. split_and!; [done|lia|constructor|done]. }
  destruct (Z.eqb_spec (Z.land (fld 8 bytes (t + Z.of_nat index * 24 + 8)) 0xffff_ffff) R_RELATIVE) as [Hrel|]; cbn [negb]; [|exact Hstop].
  destruct (existsb _ segs) eqn:E; cbn [negb]; [|exact Hstop]. apply (inside_is _ _ Hs) in E.
  destruct (IH (S index) (done' ++ [relocation t index]) ltac:(lia)) as (r & m & Hr & Hm & Hall & Hend). exists r, (S m). cbn [seq fmap list_fmap]. fold (relocation t index). rewrite Hr, <- app_assoc.
  split_and!; [done|lia|by constructor|]. destruct r; [lia|done].
Qed.
End Relocate.

(** C22. Relocating an accepted image stays inside it: the walk answers, whatever the
    dynamic table says; every address it hands to the loader to write has its eight bytes
    in the memory of a segment; it hands over the entries of one table, in order, each of
    the one supported kind; all of them when it answers a number, and only a prefix when
    it refuses. *)
Theorem relocations_stay_inside bytes half image : is_file bytes → parse_in bytes half = Done (Ok image) →
  ∃ r t n m, for_each_relative_relocation bytes image = Done (r, relocation bytes t <$> seq 0 m) ∧ (m ≤ n)%nat ∧
    Forall (fun k => is_relative bytes t k ∧ in_memory (segments image) (relocation bytes t k).1) (seq 0 m) ∧
    match r with Ok k => m = n ∧ k = Z.of_nat n | Err e => e = UnsupportedRelocation end.
Proof.
  intros Hf Hp. assert (Hok : image_ok bytes image).
  { apply (accepted_ok _ half _ Hf). destruct (parse_head_is bytes (Z.of_nat (length bytes)) half Hf) as (r & Hr & Hx); [destruct Hf; unfold in_width; lia|]. apply Hx. unfold parse_in in Hp. congruence. }
  destruct Hok as [Hsegs Hdyn]. unfold for_each_relative_relocation. destruct (dynamic image) as [[o n]|]; [|exists (Ok 0), 0, 0%nat, 0%nat; by split_and!].
  destruct (dynamic_loop_is bytes Hf (Z.to_nat (n / 16)) o n ltac:(lia) ltac:(lia) 0 (MkRela None None None)) as (f & -> & Hfound); [lia| |by intros v [[=]|[=]]|].
  { pose proof (Z.div_mod n 16 ltac:(lia)). pose proof (Z.mod_pos_bound n 16 ltac:(lia)). pose proof (Z.div_pos n 16 ltac:(lia) ltac:(lia)). lia. }
  cbn [mbind outcome_bind]. destruct (rela_address f) as [a|] eqn:Ea; [|exists (Ok 0), 0, 0%nat, 0%nat; by split_and!]. destruct (rela_size f) as [size|] eqn:Es; [|exists (Ok 0), 0, 0%nat, 0%nat; by split_and!].
  assert (Hno : ∃ r t n m, Done (Err UnsupportedRelocation : result Z ElfError, []) = Done (r, relocation bytes t <$> seq 0 m) ∧ (m ≤ n)%nat ∧
    Forall (fun k => is_relative bytes t k ∧ in_memory (segments image) (relocation bytes t k).1) (seq 0 m) ∧ match r with Ok k => m = n ∧ k = Z.of_nat n | Err e => e = UnsupportedRelocation end)
    by (exists (Err UnsupportedRelocation), 0, 0%nat, 0%nat; by split_and!).
  destruct (negb (default _ _ =? 24)); [exact Hno|]. destruct (Z.eqb_spec (size mod 24) 0); cbn [negb]; [|exact Hno].
  pose proof (Hfound a (or_introl Ea)) as Ra. pose proof (Hfound size (or_intror Es)) as Rs.
  destruct (offset_loop_is bytes Hf (segments image) a size ltac:(lia) ltac:(lia) Hsegs) as (t & Ht & Hin). unfold file_offset_of. rewrite Ht. cbn [mbind outcome_bind]. destruct t as [t|]; [|exact Hno].
  pose proof (Z.div_mod size 24 ltac:(lia)) as Ed. pose proof (Z.div_pos size 24 ltac:(lia) ltac:(lia)).
  destruct (relocation_loop_is bytes Hf (segments image) t (Z.to_nat (size / 24)) ltac:(lia)) with (index := 0%nat) (done' := @nil (Z * Z)) as (r & m & -> & Hm & Hall & Hend);
    [eapply Forall_impl; [exact Hsegs|cbn; tauto]|lia|]. cbn [mbind outcome_bind app].
  eexists _, t, (Z.to_nat (size / 24)), m. split; [done|]. split_and!; [done|done|]. destruct r; [lia|done].
Qed.

(** A relocatable kernel: one segment, a dynamic table that names a table of relocations,
    one of each of the kinds given. *)
Definition demo_kernel (kinds : list Z) : list Z :=
  let base := 0xffff_ffff_8000_0000 in
  let total := 240 + 24 * Z.of_nat (length kinds) in
  MAGIC ++ [CLASS_64; DATA_LSB] ++ replicate 10 0 ++ to_le 2 TYPE_DYN ++ to_le 2 MACHINE_X86_64 ++ to_le 4 1 ++ to_le 8 base ++ to_le 8 64 ++
  replicate 14 0 ++ to_le 2 56 ++ to_le 2 2 ++ replicate 6 0 ++
  to_le 4 PT_LOAD ++ to_le 4 5 ++ to_le 8 0 ++ to_le 8 base ++ to_le 8 0 ++ to_le 8 total ++ to_le 8 total ++ to_le 8 4096 ++
  to_le 4 PT_DYNAMIC ++ to_le 4 4 ++ to_le 8 176 ++ to_le 8 (base + 176) ++ to_le 8 0 ++ to_le 8 64 ++ to_le 8 64 ++ to_le 8 8 ++
  to_le 8 DT_RELA ++ to_le 8 (base + 240) ++ to_le 8 DT_RELASZ ++ to_le 8 (24 * Z.of_nat (length kinds)) ++ to_le 8 DT_RELAENT ++ to_le 8 24 ++ to_le 8 0 ++ to_le 8 0 ++
  mjoin ((fun k => to_le 8 (base + 16) ++ to_le 8 k ++ to_le 8 7) <$> kinds).

Lemma relocations_stay_inside_witness : ∃ image, parse_in (demo_kernel [8; 8]) Kernel = Done (Ok image) ∧
  for_each_relative_relocation (demo_kernel [8; 8]) image = Done (Ok 2, [(0xffff_ffff_8000_0010, 7); (0xffff_ffff_8000_0010, 7)]) ∧
  in_memory (segments image) 0xffff_ffff_8000_0010.
Proof.
  assert (E : ∃ image, parse_in (demo_kernel [8; 8]) Kernel = Done (Ok image) ∧
    for_each_relative_relocation (demo_kernel [8; 8]) image = Done (Ok 2, [(0xffff_ffff_8000_0010, 7); (0xffff_ffff_8000_0010, 7)])) by (eexists; split; [vm_compute; reflexivity|vm_compute; reflexivity]).
  destruct E as (image & Hp & Hr). exists image. split; [exact Hp|]. split; [exact Hr|].
  destruct (relocations_stay_inside (demo_kernel [8; 8]) Kernel image) as (r & t & n & m & Hr' & _ & Hall & _); [split; [apply all_bytes; vm_compute; reflexivity|vm_compute; reflexivity]|exact Hp|].
  rewrite Hr in Hr'. injection Hr' as _ Hm. destruct m as [|m]; [discriminate Hm|]. cbn [seq fmap list_fmap] in Hm, Hall. injection Hm as Hm _ _. apply Forall_cons in Hall as [[_ Hin] _]. cbn [relocation fst] in Hin. rewrite <- Hm in Hin. exact Hin.
Defined.

(** Finding: a relocation that cannot be expressed is said to refuse the image whole "rather
    than partially applied"; the relocations before it have been applied by then. *)
Theorem refused_image_is_partly_relocated : ∃ image, parse_in (demo_kernel [8; 1]) Kernel = Done (Ok image) ∧
  for_each_relative_relocation (demo_kernel [8; 1]) image = Done (Err UnsupportedRelocation, [(0xffff_ffff_8000_0010, 7)]).
Proof. eexists. split; [vm_compute; reflexivity|vm_compute; reflexivity]. Qed.
