(* ===== verification/AuditLog.v ===== *)
(** * The audit log

    Operations that move authority are recorded before they count as done.  The records
    and the ledger that decides what is written where (src/telemetry/src/audit.rs), the
    arithmetic of the ring (src/telemetry/src/ring.rs), the kernel's side that holds the
    one and stores into the other (src/kernel/src/audit.rs), and the chain of hashes in
    which the log is kept and checked (src/auditlog/src/lib.rs), and the program that
    drains the ring into a file (src/user/auditd/src/main.rs).  The theorems are in
    AuditLaws.v, AuditLedger.v and AuditKeeper.v. *)
From stdpp Require Import prelude numbers list.
From S2P Require Import Prelude Bytes Sha.
Open Scope Z_scope.
Set Warnings "-clear-no-such-hyp".

(** ** The ring's arithmetic *)
Module TelemetryRing.
Definition EVENT_BYTES : Z := 64.
Definition HEADER_BYTES : Z := 128.

Record Layout : Type := MkLayout { slots : Z }.

Definition for_region (length' : Z) : option Layout :=
  if length' <? HEADER_BYTES + EVENT_BYTES then None
  else
    let fitting := (length' - HEADER_BYTES) / EVENT_BYTES in
    Some (MkLayout (Z.shiftl 1 (Z.log2 fitting))).

Definition slot_offset (self : Layout) (sequence : Z) : Z := HEADER_BYTES + Z.land sequence (slots self - 1) * EVENT_BYTES.

Definition clamp_tail (head claim slots : Z) : Z :=
  if head <? claim then head
  else if slots <? head - claim then head - slots
  else claim.

Definition readable (head tail slots : Z) : Z :=
  if head <? tail then 0
  else
    let pending := head - tail in
    if slots <? pending then slots else pending.
End TelemetryRing.

(** ** Records *)
Inductive Kind : Type := Attach | Gap | Grant | Derive | Revoke | DomainCreated | DomainEnded.

Module Kind.
Definition LIMIT : nat := 8.
(** [as u8]. *)
Definition code (k : Kind) : Z :=
  match k with Attach => 1 | Gap => 2 | Grant => 3 | Derive => 4 | Revoke => 5 | DomainCreated => 6 | DomainEnded => 7 end.
Definition from_u8 (value : Z) : option Kind :=
  if value =? 1 then Some Attach
  else if value =? 2 then Some Gap
  else if value =? 3 then Some Grant
  else if value =? 4 then Some Derive
  else if value =? 5 then Some Revoke
  else if value =? 6 then Some DomainCreated
  else if value =? 7 then Some DomainEnded
  else None.
End Kind.

Record Name : Type := MkName { domain : Z; generation : Z }.

Record Record : Type := MkRecord {
  sequence : Z;
  timestamp : Z;
  kind : Z;
  object_kind : Z;
  rights : Z;
  actor : Name;
  target : Name;
  count : Z;
  subject : Z;
  source : Z;
  object : Z
}.

Definition RECORD_BYTES : nat := 64.

Module Record.
(** [Record::default]. *)
Definition default : Record := MkRecord 0 0 0 0 0 (MkName 0 0) (MkName 0 0) 0 0 0 0.

Definition to_bytes (self : Record) : list Z :=
  let bytes := replicate RECORD_BYTES 0 in
  let bytes := splice bytes 0 (to_le 8 (sequence self)) in
  let bytes := splice bytes 8 (to_le 8 (timestamp self)) in
  let bytes := splice bytes 16 [kind self] in
  let bytes := splice bytes 17 [object_kind self] in
  let bytes := splice bytes 18 [rights self] in
  let bytes := splice bytes 20 (to_le 4 (domain (actor self))) in
  let bytes := splice bytes 24 (to_le 4 (generation (actor self))) in
  let bytes := splice bytes 28 (to_le 4 (domain (target self))) in
  let bytes := splice bytes 32 (to_le 4 (generation (target self))) in
  let bytes := splice bytes 36 (to_le 4 (count self)) in
  let bytes := splice bytes 40 (to_le 8 (subject self)) in
  let bytes := splice bytes 48 (to_le 8 (source self)) in
  splice bytes 56 (to_le 8 (object self)).

Definition from_bytes (bytes : list Z) : Record :=
  let word64 at' := from_le (take 8 (drop at' bytes)) in
  let word32 at' := from_le (take 4 (drop at' bytes)) in
  MkRecord (word64 0%nat) (word64 8%nat) (bytes !!! 16%nat) (bytes !!! 17%nat) (bytes !!! 18%nat)
    (MkName (word32 20%nat) (word32 24%nat)) (MkName (word32 28%nat) (word32 32%nat)) (word32 36%nat)
    (word64 40%nat) (word64 48%nat) (word64 56%nat).
End Record.

(** ** The ledger *)
Inductive Admission : Type := Refusable | Unrefusable.

Inductive Verdict : Type :=
| VRecord (gap_first : bool)
| VRefuse
| VGap.

Definition verdict (admission : Admission) (used slots headroom : Z) (gap_pending : bool) : Verdict :=
  let free := Z.max 0 (slots - used) in
  let need := if gap_pending then 2 else 1 in
  match admission with
  | Refusable => if Z.min (2 ^ 64 - 1) (need + headroom) <=? free then VRecord gap_pending else VRefuse
  | Unrefusable => if need <=? free then VRecord gap_pending else VGap
  end.

Inductive Ticket : Type :=
| TInactive
| TSlots (gap : Z)
| TGap.

Record Ledger : Type := MkLedger {
  slots : Z;
  headroom : Z;
  active : bool;
  head : Z;
  reserved : Z;
  pending_gaps : Z;
  gaps : Z;
  refused : Z;
  before : list Z
}.

(** At most a gap record and the record itself. *)
Definition Writes : Type := (option Record * option Record)%type.
Definition records (w : Writes) : list Record := option_list w.1 ++ option_list w.2.

Module Ledger.
Definition new (slots headroom : Z) : Ledger := MkLedger slots headroom false 0 0 0 0 0 (replicate Kind.LIMIT 0).

Definition reserve (self : Ledger) (admission : Admission) (tail_claim : Z) : outcome (result Ticket unit * Ledger) :=
  if negb (active self) then Done (Ok TInactive, self)
  else
    let tail := TelemetryRing.clamp_tail (head self) tail_claim (slots self) in
    used ← sub_checked 64 (head self) tail;
    let used := Z.min (2 ^ 64 - 1) (used + reserved self) in
    match verdict admission used (slots self) (headroom self) (0 <? pending_gaps self) with
    | VRecord gap_first =>
        let gap := if gap_first then pending_gaps self else 0 in
        let pending := if gap_first then 0 else pending_gaps self in
        r ← add_checked 64 (reserved self) (if gap_first then 2 else 1);
        Done (Ok (TSlots gap), MkLedger (slots self) (headroom self) (active self) (head self) r pending (gaps self) (refused self) (before self))
    | VRefuse =>
        n ← add_checked 64 (refused self) 1;
        Done (Err tt, MkLedger (slots self) (headroom self) (active self) (head self) (reserved self) (pending_gaps self) (gaps self) n (before self))
    | VGap => Done (Ok TGap, self)
    end.

(** [u32::try_from(n).unwrap_or(u32::MAX)]. *)
Definition as_count (n : Z) : Z := if n <? 2 ^ 32 then n else 2 ^ 32 - 1.
Definition stamped (record : Record) (n : Z) : Record :=
  MkRecord n (timestamp record) (kind record) (object_kind record) (rights record) (actor record) (target record) (count record) (subject record) (source record) (object record).
Definition gap_record (n time gap : Z) : Record :=
  MkRecord n time (Kind.code Gap) 0 0 (MkName 0 0) (MkName 0 0) (as_count gap) 0 0 0.

Definition with_head (self : Ledger) (head reserved : Z) : Ledger :=
  MkLedger (slots self) (headroom self) (active self) head reserved (pending_gaps self) (gaps self) (refused self) (before self).

Definition commit (self : Ledger) (ticket : Ticket) (record : Record) : outcome (Writes * Ledger) :=
  match ticket with
  | TInactive =>
      match before self !! Z.to_nat (kind record) with
      | Some n =>
          n ← add_checked 64 n 1;
          Done ((None, None), MkLedger (slots self) (headroom self) (active self) (head self) (reserved self) (pending_gaps self) (gaps self) (refused self)
                                (<[Z.to_nat (kind record) := n]> (before self)))
      | None => Done ((None, None), self)
      end
  | TGap =>
      p ← add_checked 64 (pending_gaps self) 1;
      g ← add_checked 64 (gaps self) 1;
      Done ((None, None), MkLedger (slots self) (headroom self) (active self) (head self) (reserved self) p g (refused self) (before self))
  | TSlots gap =>
      '(first, self) ← (if 0 <? gap then
                          h ← add_checked 64 (head self) 1;
                          Done (Some (gap_record (head self) (timestamp record) gap), with_head self h (Z.max 0 (reserved self - 1)))
                        else Done (None, self));
      h ← add_checked 64 (head self) 1;
      Done ((first, Some (stamped record (head self))), with_head self h (Z.max 0 (reserved self - 1)))
  end.

Definition cancel (self : Ledger) (ticket : Ticket) : outcome Ledger :=
  match ticket with
  | TSlots gap =>
      p ← add_checked 64 (pending_gaps self) gap;
      Done (MkLedger (slots self) (headroom self) (active self) (head self) (Z.max 0 (reserved self - (if 0 <? gap then 2 else 1))) p (gaps self) (refused self) (before self))
  | _ => Done self
  end.

(** [iter().sum()]. *)
Fixpoint sum (l : list Z) : outcome Z :=
  match l with
  | [] => Done 0
  | x :: l' => s ← sum l'; add_checked 64 x s
  end.

Definition attach (self : Ledger) (boot : Z * Z) (time : Z) : outcome (option Writes * Ledger) :=
  if active self || (slots self =? 0) then Done (None, self)
  else
    n ← sum (before self);
    let record := MkRecord (head self) time (Kind.code Attach) 0 0 (MkName 0 0) (MkName 0 0) (as_count n) boot.1 boot.2 0 in
    h ← add_checked 64 (head self) 1;
    Done (Some (None, Some record), MkLedger (slots self) (headroom self) true h (reserved self) (pending_gaps self) (gaps self) (refused self) (before self)).
End Ledger.

(** ** The kernel's side *)
Definition HEAD_OFFSET : Z := 64.
Definition SLOTS_OFFSET : Z := 8.
Definition REFUSED_OFFSET : Z := 16.
Definition GAPS_OFFSET : Z := 24.
Definition MARKER_OFFSET : Z := 0.
(** The bytes of BHXAUD01. *)
Definition MARKER : Z := from_le [0x42; 0x48; 0x58; 0x41; 0x55; 0x44; 0x30; 0x31].

(** The region's bytes by their offset in it: where a frame of it lies is [ring_address]'s
    concern, and no word straddles two. *)
Definition Memory : Type := Z → Z.
Definition mem_put (mem : Memory) (at' : Z) (bytes : list Z) : Memory :=
  fun a => if (at' <=? a) && (a <? at' + Z.of_nat (length bytes)) then bytes !!! Z.to_nat (a - at') else mem a.
Definition mem_get (mem : Memory) (at' : Z) (n : nat) : list Z := (fun i => mem (at' + Z.of_nat i)) <$> seq 0 n.

Module Kernel.
Definition RING_PAGES : Z := 9.
Definition RING_BYTES : Z := RING_PAGES * 4096.
Definition SLOTS : Z := match TelemetryRing.for_region RING_BYTES with Some layout => TelemetryRing.slots layout | None => 0 end.
Definition HEADROOM : Z := 64.

(** [LEDGER], and the ring's frames: none until [init]. *)
Record State : Type := MkState { ledger : Ledger; ring : option Memory }.
Definition boot : State := MkState (Ledger.new SLOTS HEADROOM) None.

Definition set_header_word (ring : option Memory) (offset value : Z) : option Memory := (fun mem => mem_put mem offset (to_le 8 value)) <$> ring.

Definition store_record (layout : TelemetryRing.Layout) (mem : Memory) (r : Record) : Memory := mem_put mem (TelemetryRing.slot_offset layout (sequence r)) (Record.to_bytes r).
Definition store (ledger : Ledger) (writes : Writes) (ring : option Memory) : option Memory :=
  match ring, TelemetryRing.for_region RING_BYTES with
  | Some mem, Some layout =>
      let ring := Some (foldl (store_record layout) mem (records writes)) in
      let ring := match records writes with [] => ring | _ => set_header_word ring HEAD_OFFSET (head ledger) end in
      set_header_word ring GAPS_OFFSET (gaps ledger)
  | _, _ => ring
  end.

(** Once the frames are there: [frames] is what they hold. *)
Definition init (self : State) (frames : Memory) : State :=
  let ring := set_header_word (Some frames) SLOTS_OFFSET SLOTS in
  let ring := set_header_word ring REFUSED_OFFSET 0 in
  let ring := set_header_word ring GAPS_OFFSET 0 in
  let ring := set_header_word ring HEAD_OFFSET 0 in
  MkState (ledger self) (set_header_word ring MARKER_OFFSET MARKER).

Definition reserve (self : State) (tail_claim : Z) : outcome (result Ticket unit * State) :=
  '(ticket, l) ← Ledger.reserve (ledger self) Refusable tail_claim;
  Done (ticket, MkState l (match ticket with Err _ => set_header_word (ring self) REFUSED_OFFSET (refused l) | Ok _ => ring self end)).

Definition must (self : State) (tail_claim : Z) : outcome (Ticket * State) :=
  '(ticket, l) ← Ledger.reserve (ledger self) Unrefusable tail_claim;
  Done (match ticket with Ok t => t | Err _ => TGap end, MkState l (ring self)).

(** [Reservation::commit], with the time the processor's counter shows. *)
Definition at_time (record : Record) (time : Z) : Record :=
  MkRecord (sequence record) time (kind record) (object_kind record) (rights record) (actor record) (target record) (count record) (subject record) (source record) (object record).
Definition commit (self : State) (ticket : Ticket) (record : Record) (time : Z) : outcome (Writes * State) :=
  '(writes, l) ← Ledger.commit (ledger self) ticket (at_time record time);
  Done (writes, MkState l (store l writes (ring self))).

(** [Reservation::drop]. *)
Definition drop (self : State) (ticket : Ticket) : outcome State :=
  l ← Ledger.cancel (ledger self) ticket;
  Done (MkState l (ring self)).

Definition attach (self : State) (boot : Z * Z) (time : Z) : outcome (option Writes * State) :=
  match ring self with
  | None => Done (None, self)
  | Some _ =>
      '(writes, l) ← Ledger.attach (ledger self) boot time;
      Done (writes, MkState l (match writes with Some w => store l w (ring self) | None => ring self end))
  end.

Definition record_at (ring : option Memory) (n : Z) : option Record :=
  mem ← ring;
  layout ← TelemetryRing.for_region RING_BYTES;
  let record := Record.from_bytes (mem_get mem (TelemetryRing.slot_offset layout n) RECORD_BYTES) in
  if sequence record =? n then Some record else None.
End Kernel.

(** ** The kept log *)
Definition LINK_BYTES : nat := 32.
Definition ENTRY_BYTES : nat := RECORD_BYTES + 2 * LINK_BYTES.
Definition GENESIS : list Z := replicate LINK_BYTES 0.
(** The bytes of BHXAUDIT. *)
Definition LABEL : list Z := [0x42; 0x48; 0x58; 0x41; 0x55; 0x44; 0x49; 0x54].

Definition link (previous record : list Z) : outcome (list Z) :=
  h ← Sha256.update Sha256.new LABEL;
  h ← Sha256.update h previous;
  h ← Sha256.update h record;
  Sha256.finish h.

Record Entry : Type := MkEntry { erecord : list Z; previous : list Z; elink : list Z }.

Module Entry.
Definition to_bytes (self : Entry) : list Z := erecord self ++ previous self ++ elink self.
Definition from_bytes (bytes : list Z) : Entry :=
  MkEntry (take RECORD_BYTES bytes) (take LINK_BYTES (drop RECORD_BYTES bytes)) (drop (RECORD_BYTES + LINK_BYTES) bytes).
End Entry.

Record Chain : Type := MkChain { chead : list Z; crecords : Z }.

Module Chain.
Definition new : Chain := MkChain GENESIS 0.
Definition append (self : Chain) (record : list Z) : outcome (Entry * Chain) :=
  l ← link (chead self) record;
  n ← add_checked 64 (crecords self) 1;
  Done (MkEntry record (chead self) l, MkChain l n).
End Chain.

Inductive Break : Type :=
| Torn (bytes : Z)
| BPrevious (index : Z)
| BLink (index : Z)
| BSequence (index found : Z)
| NoAttach.

Record Verified : Type := MkVerified { vrecords : Z; vhead : list Z; boot : Z * Z; vgaps : Z; vbefore : Z }.

(** The loop of [verify]: one iteration per whole entry, which is what [as_chunks] leaves. *)
Fixpoint verify_loop (n : nat) (bytes : list Z) (index : Z) (chain : Chain) (verified : Verified) : outcome (result (Chain * Verified) Break) :=
  match n with
  | O => Done (Ok (chain, verified))
  | S n' =>
      let entry := Entry.from_bytes (take ENTRY_BYTES bytes) in
      if negb (bool_decide (previous entry = chead chain)) then Done (Err (BPrevious index))
      else
        l ← link (previous entry) (erecord entry);
        if negb (bool_decide (l = elink entry)) then Done (Err (BLink index))
        else
          let record := Record.from_bytes (erecord entry) in
          if negb (sequence record =? index) then Done (Err (BSequence index (sequence record)))
          else if (index =? 0) && negb (kind record =? Kind.code Attach) then Done (Err NoAttach)
          else
            verified ← (if index =? 0 then Done (MkVerified (vrecords verified) (vhead verified) (subject record, source record) (vgaps verified) (count record))
                        else if kind record =? Kind.code Gap then
                          g ← add_checked 64 (vgaps verified) (count record);
                          Done (MkVerified (vrecords verified) (vhead verified) (boot verified) g (vbefore verified))
                        else Done verified);
            '(_, chain) ← Chain.append chain (erecord entry);
            verify_loop n' (drop ENTRY_BYTES bytes) (index + 1) chain verified
  end.

Definition verify (bytes : list Z) : outcome (result Verified Break) :=
  let torn := (length bytes mod ENTRY_BYTES)%nat in
  r ← verify_loop (length bytes / ENTRY_BYTES) bytes 0 Chain.new (MkVerified 0 GENESIS (0, 0) 0 0);
  Done (match r with
        | Err b => Err b
        | Ok (chain, verified) =>
            if negb (torn =? 0)%nat then Err (Torn (Z.of_nat torn))
            else Ok (MkVerified (crecords chain) (chead chain) (boot verified) (vgaps verified) (vbefore verified))
        end).

(** ** The keeper

    [bin/auditd] reads the ring and the one word it writes, its tail.  What it asks of the
    file system is answered by the caller of these definitions. *)
Module Auditd.
Definition BLOCK : Z := 4096.
Definition PER_BLOCK : Z := BLOCK / Z.of_nat ENTRY_BYTES.

(** [longest], a measurement, is left out. *)
Record Kept : Type := MkKept { entries : Z; kstate : Z; flushed : Z; kwritten : Z }.

(** The variables of [auditd_main], its transfer page, and the boot's file. *)
Record State : Type := MkState {
  tail : Z;
  chain : Chain;
  kept : option Kept;
  agaps : Z;
  out_of_order : Z;
  page : list Z;
  file : list Z
}.
Definition start : State := MkState 0 Chain.new None 0 0 (replicate (Z.to_nat BLOCK) 0) [].

(** The answer to [WRITE_FROM]: accepted, or refused and the file as that left it. *)
Inductive Answer : Type :=
| Wrote
| Failed (remains : list Z).

Definition create (created : bool) : Kept := MkKept 0 (if created then 1 else 2) 0 0.

Definition write (self : Kept) (page file : list Z) (count : Z) (answer : Answer) : outcome (Kept * list Z) :=
  last ← sub_checked 64 (entries self) 1;
  let start := last / PER_BLOCK * PER_BLOCK in
  length' ← mul_checked 64 count (Z.of_nat ENTRY_BYTES);
  offset ← mul_checked 64 start (Z.of_nat ENTRY_BYTES);
  match answer with
  | Failed remains => Done (MkKept (entries self) 3 (flushed self) (kwritten self), remains)
  | Wrote =>
      reached ← add_checked 64 start count;
      Done (MkKept (entries self) (kstate self) (flushed self) (Z.max (kwritten self) reached),
            take (Z.to_nat offset) file ++ take (Z.to_nat length') page ++ drop (Z.to_nat (offset + length')) file)
  end.

Definition push (self : Kept) (page file bytes : list Z) (answer : Answer) : outcome (Kept * list Z * list Z) :=
  if negb (kstate self =? 1) then Done (self, page, file)
  else
    let at' := entries self mod PER_BLOCK * Z.of_nat ENTRY_BYTES in
    let page := splice page (Z.to_nat at') bytes in
    n ← add_checked 64 (entries self) 1;
    let self := MkKept n (kstate self) (flushed self) (kwritten self) in
    if n mod PER_BLOCK =? 0 then
      '(self, file) ← write self page file PER_BLOCK answer;
      Done (self, page, file)
    else Done (self, page, file).

Definition flush_kept (self : Kept) (page file : list Z) (answer : Answer) : outcome (Kept * list Z) :=
  let partial := entries self mod PER_BLOCK in
  if (kstate self =? 1) && negb (partial =? 0) && negb (entries self =? flushed self) then
    '(self, file) ← write self page file partial answer;
    Done (MkKept (entries self) (kstate self) (entries self) (kwritten self), file)
  else Done (self, file).

(** One turn of the loop over the records the ring publishes, if there is one: [created]
    is whether the boot's file could be created, when the turn creates it. *)
Definition take_record (persist : bool) (self : State) (mem : Memory) (layout : TelemetryRing.Layout) (created : bool) (answer : Answer) : outcome State :=
  let head := from_le (mem_get mem HEAD_OFFSET 8) in
  if TelemetryRing.readable head (tail self) (TelemetryRing.slots layout) =? 0 then Done self
  else
    let sequence' := tail self in
    let bytes := mem_get mem (TelemetryRing.slot_offset layout sequence') RECORD_BYTES in
    let record := Record.from_bytes bytes in
    late ← (if negb (sequence record =? crecords (chain self)) then add_checked 64 (out_of_order self) 1 else Done (out_of_order self));
    let kept := if (kind record =? Kind.code Attach) && persist && negb (bool_decide (is_Some (kept self))) then Some (create created) else kept self in
    gaps ← (if negb (kind record =? Kind.code Attach) && (kind record =? Kind.code Gap) then add_checked 64 (agaps self) (count record) else Done (agaps self));
    '(entry, chain) ← Chain.append (chain self) bytes;
    tail ← add_checked 64 sequence' 1;
    match kept with
    | None => Done (MkState tail chain None gaps late (page self) (file self))
    | Some k =>
        '(k, page, file) ← push k (page self) (file self) (Entry.to_bytes entry) answer;
        Done (MkState tail chain (Some k) gaps late page file)
    end.

Definition flush (self : State) (answer : Answer) : outcome State :=
  match kept self with
  | None => Done self
  | Some k =>
      '(k, file) ← flush_kept k (page self) (file self) answer;
      Done (MkState (tail self) (chain self) (Some k) (agaps self) (out_of_order self) (page self) file)
  end.
End Auditd.
