(* ===== verification/AuditLaws.v ===== *)
(** * The audit log: its laws

    Theorems about the chain of AuditLog.v: what [verify] accepts is exactly a log the chain
    wrote, and two logs with one head are one log or show a collision of the hash. *)
From stdpp Require Import prelude numbers list.
From S2P Require Import Prelude Bytes Sha AuditLog.
Open Scope Z_scope.
Set Warnings "-clear-no-such-hyp".
#[local] Opaque Sha256.update Sha256.finish Fips.sha256.

(** ** The chain *)
Definition the_link (previous record : list Z) : list Z := Fips.sha256 (LABEL ++ previous ++ record).

Lemma link_is p r : link p r = Done (the_link p r).
Proof.
  unfold link, the_link. destruct (update_ok _ _ LABEL absorbed_new) as (h1 & -> & H1). cbn [mbind outcome_bind]. destruct (update_ok _ _ p H1) as (h2 & -> & H2). cbn [mbind outcome_bind].
  destruct (update_ok _ _ r H2) as (h3 & -> & H3). cbn [mbind outcome_bind]. rewrite (finish_ok _ _ H3). cbn [app]. by rewrite <- app_assoc.
Qed.
Lemma length_link p r : length (the_link p r) = LINK_BYTES.
Proof. apply length_sha256. Qed.

(** The bytes kept for records that follow the link [h], and the link after them. *)
Fixpoint kept (h : list Z) (rs : list (list Z)) : list Z :=
  match rs with
  | [] => []
  | r :: rs' => Entry.to_bytes (MkEntry r h (the_link h r)) ++ kept (the_link h r) rs'
  end.
Definition head_after (h : list Z) (rs : list (list Z)) : list Z := foldl the_link h rs.

Definition is_record (r : list Z) : Prop := length r = RECORD_BYTES ∧ Forall is_byte r.

(** Sequence numbers from [index] on, and the first record an attach record. *)
Fixpoint in_order (index : Z) (rs : list (list Z)) : Prop :=
  match rs with
  | [] => True
  | r :: rs' => sequence (Record.from_bytes r) = index ∧ (index = 0 → kind (Record.from_bytes r) = Kind.code Attach) ∧ in_order (index + 1) rs'
  end.

(** What a reader sums up. *)
Definition tally_one (index : Z) (v : Verified) (r : list Z) : Verified :=
  let record := Record.from_bytes r in
  if index =? 0 then MkVerified (vrecords v) (vhead v) (subject record, source record) (vgaps v) (count record)
  else if kind record =? Kind.code Gap then MkVerified (vrecords v) (vhead v) (boot v) (vgaps v + count record) (vbefore v)
  else v.
Fixpoint tally (index : Z) (v : Verified) (rs : list (list Z)) : Verified :=
  match rs with [] => v | r :: rs' => tally (index + 1) (tally_one index v r) rs' end.

Lemma take_kept_cons h r rs : length h = LINK_BYTES → length r = RECORD_BYTES → take ENTRY_BYTES (kept h (r :: rs)) = Entry.to_bytes (MkEntry r h (the_link h r)) ∧ drop ENTRY_BYTES (kept h (r :: rs)) = kept (the_link h r) rs.
Proof.
  intros Hh Hr. cbn [kept]. assert (E : length (Entry.to_bytes (MkEntry r h (the_link h r))) = ENTRY_BYTES) by (unfold Entry.to_bytes; cbn; rewrite !length_app, Hr, Hh, length_link; done).
  by rewrite take_app_length', drop_app_length' by done.
Qed.

Lemma log_entry_roundtrip e : length (erecord e) = RECORD_BYTES → length (previous e) = LINK_BYTES → Entry.from_bytes (Entry.to_bytes e) = e.
Proof.
  intros H1 H2. unfold Entry.from_bytes, Entry.to_bytes. rewrite take_app_length', drop_app_length' by done. rewrite take_app_length' by done.
  rewrite app_assoc, drop_app_length' by (rewrite length_app; lia). by destruct e.
Qed.
Lemma entry_parts bytes : length bytes = ENTRY_BYTES → Entry.to_bytes (Entry.from_bytes bytes) = bytes ∧ length (erecord (Entry.from_bytes bytes)) = RECORD_BYTES ∧ length (previous (Entry.from_bytes bytes)) = LINK_BYTES.
Proof.
  intros Hl. unfold Entry.to_bytes, Entry.from_bytes, ENTRY_BYTES in *. cbn [erecord previous elink]. rewrite !length_take, length_drop. split_and!; [|lia|lia].
  rewrite <- drop_drop. by rewrite !take_drop.
Qed.

Lemma count_range r : is_record r → 0 ≤ count (Record.from_bytes r) < 2 ^ 32.
Proof.
  intros [_ Hb]. unfold Record.from_bytes. cbn [count]. pose proof (from_le_range (take 4 (drop 36 r)) ltac:(by apply Forall_take, Forall_drop)) as R.
  split; [apply R|]. eapply Z.lt_le_trans; [apply R|]. change (2 ^ 32) with (256 ^ 4). apply Z.pow_le_mono_r; [lia|]. rewrite length_take. lia.
Qed.

(** A refused entry: no log the chain wrote has it. *)
Ltac refuse_entry H := eexists; split; [done|]; intros ? ?; split; [done|]; intros (? & Hl & Hrs & Ek & Ho & _); exfalso; destruct (H _ Hl Hrs Ek) as (? & -> & _ & _ & Hpv & Hlk & _); destruct Ho as (Ho1 & Ho2 & _).

Lemma verify_loop_is n : ∀ bytes index chain v, (n * ENTRY_BYTES ≤ length bytes)%nat → Forall is_byte bytes → 0 ≤ index → length (chead chain) = LINK_BYTES →
  0 ≤ crecords chain → crecords chain + Z.of_nat n < 2 ^ 64 → 0 ≤ vgaps v → vgaps v + Z.of_nat n * 2 ^ 32 < 2 ^ 64 →
  ∃ r, verify_loop n bytes index chain v = Done r ∧
    ∀ c' v', r = Ok (c', v') ↔ ∃ rs, length rs = n ∧ Forall is_record rs ∧ take (n * ENTRY_BYTES) bytes = kept (chead chain) rs ∧ in_order index rs ∧
      c' = MkChain (head_after (chead chain) rs) (crecords chain + Z.of_nat n) ∧ v' = tally index v rs.
Proof.
  induction n as [|n IH]; intros bytes index chain v Hlen Hb Hi Hh Hc0 Hc Hg0 Hg; cbn [verify_loop].
  { eexists. split; [done|]. intros c' v'. split.
    - intros [= <- <-]. exists []. cbn. rewrite Z.add_0_r. split_and!; try done. by destruct chain.
    - intros ([|] & Hl & _ & _ & _ & -> & ->); [|done]. cbn. rewrite Z.add_0_r. by destruct chain. }
  set (bs := take ENTRY_BYTES bytes). assert (Hbs : length bs = ENTRY_BYTES) by (unfold bs; rewrite length_take; lia). destruct (entry_parts bs Hbs) as (Eb & Hr & Hp). set (e := Entry.from_bytes bs) in *.
  assert (Hbytes : Forall is_byte (Entry.to_bytes e)) by (rewrite Eb; by apply Forall_take). unfold Entry.to_bytes in Hbytes. apply Forall_app in Hbytes as [Hrb _].
  assert (Hsplit : ∀ rs, length rs = S n → Forall is_record rs → take (S n * ENTRY_BYTES) bytes = kept (chead chain) rs →
    ∃ rs', rs = erecord e :: rs' ∧ length rs' = n ∧ Forall is_record rs' ∧ previous e = chead chain ∧ elink e = the_link (chead chain) (erecord e) ∧ take (n * ENTRY_BYTES) (drop ENTRY_BYTES bytes) = kept (the_link (chead chain) (erecord e)) rs').
  { intros [|r rs'] Hl Hrs Ek; [done|]. apply Forall_cons in Hrs as [[Hr1 Hr2] Hrs]. destruct (take_kept_cons (chead chain) r rs' Hh Hr1) as [E1 E2]. rewrite <- Ek in E1, E2.
    rewrite take_take, Nat.min_l in E1 by lia. fold bs in E1. assert (Ee : e = MkEntry r (chead chain) (the_link (chead chain) r)) by (unfold e; rewrite E1; by apply log_entry_roundtrip).
    exists rs'. rewrite Ee. cbn. split_and!; try done; [by injection Hl|]. rewrite take_drop_commute. exact E2. }
  destruct (bool_decide_reflect (previous e = chead chain)) as [Hprev|Hprev]; cbn [negb]; [|refuse_entry Hsplit; done].
  rewrite link_is. cbn [mbind outcome_bind]. rewrite Hprev.
  destruct (bool_decide_reflect (the_link (chead chain) (erecord e) = elink e)) as [Hlink|Hlink]; cbn [negb]; [|refuse_entry Hsplit; congruence].
  destruct (Z.eqb_spec (sequence (Record.from_bytes (erecord e))) index) as [Hseq|Hseq]; cbn [negb]; [|refuse_entry Hsplit; done].
  destruct ((index =? 0) && negb (kind (Record.from_bytes (erecord e)) =? Kind.code Attach)) eqn:Eat.
  { apply andb_true_iff in Eat as [E0%Z.eqb_eq E1%negb_true_iff%Z.eqb_neq]. refuse_entry Hsplit. by apply E1, Ho2. }
  assert (Hat : index = 0 → kind (Record.from_bytes (erecord e)) = Kind.code Attach) by (intros ->; cbn [Z.eqb andb] in Eat; by apply negb_false_iff, Z.eqb_eq in Eat).
  pose proof (count_range (erecord e) (conj Hr Hrb)) as Hcount.
  assert (Htally : (if index =? 0 then Done (MkVerified (vrecords v) (vhead v) (subject (Record.from_bytes (erecord e)), source (Record.from_bytes (erecord e))) (vgaps v) (count (Record.from_bytes (erecord e))))
     else if kind (Record.from_bytes (erecord e)) =? Kind.code Gap then g ← add_checked 64 (vgaps v) (count (Record.from_bytes (erecord e))); Done (MkVerified (vrecords v) (vhead v) (boot v) g (vbefore v)) else Done v) = Done (tally_one index v (erecord e))).
  { unfold tally_one. destruct (index =? 0); [done|]. destruct (_ =? Kind.code Gap); [|done]. unfold add_checked. by rewrite checked_ok by (unfold in_width; lia). }
  rewrite Htally. cbn [mbind outcome_bind]. unfold Chain.append. rewrite link_is. cbn [mbind outcome_bind]. unfold add_checked. rewrite checked_ok by (unfold in_width; lia). cbn [mbind outcome_bind].
  destruct (IH (drop ENTRY_BYTES bytes) (index + 1) (MkChain (the_link (chead chain) (erecord e)) (crecords chain + 1)) (tally_one index v (erecord e))) as (r & Hr' & Hx);
    [rewrite length_drop; lia|by apply Forall_drop|lia|apply length_link|cbn [crecords]; lia|cbn [crecords]; lia|unfold tally_one; repeat case_match; cbn [vgaps]; lia|unfold tally_one; repeat case_match; cbn [vgaps]; lia|].
  exists r. split; [exact Hr'|]. intros c' v'. rewrite Hx. cbn [chead crecords]. split.
  - intros (rs & Hl & Hrs & Ek & Ho & -> & ->). exists (erecord e :: rs). split_and!; [cbn; lia|by constructor| |done|cbn; f_equal; lia|done].
    cbn [kept]. rewrite <- Ek, take_drop_commute. rewrite <- (take_drop ENTRY_BYTES (take (S n * ENTRY_BYTES) bytes)) at 1. rewrite take_take, Nat.min_l by lia. fold bs. f_equal.
    rewrite <- Eb. f_equal. rewrite Hlink, <- Hprev. by destruct e.
  - intros (rs & Hl & Hrs & Ek & Ho & -> & ->). destruct (Hsplit rs Hl Hrs Ek) as (rs' & -> & Hl' & Hrs' & _ & _ & Ek'). destruct Ho as (_ & _ & Ho). exists rs'. split_and!; try done. cbn. f_equal. lia.
Qed.

(** What an unbroken log of these records says. *)
Definition summary (rs : list (list Z)) : Verified :=
  let t := tally 0 (MkVerified 0 GENESIS (0, 0) 0 0) rs in
  MkVerified (Z.of_nat (length rs)) (head_after GENESIS rs) (boot t) (vgaps t) (vbefore t).

Lemma length_kept rs : ∀ h, length h = LINK_BYTES → Forall is_record rs → length (kept h rs) = (length rs * ENTRY_BYTES)%nat.
Proof.
  induction rs as [|r rs IH]; intros h Hh Hrs; [done|]. apply Forall_cons in Hrs as [[Hr _] Hrs]. cbn [kept length]. rewrite length_app, IH by (done || apply length_link).
  unfold Entry.to_bytes. cbn [erecord previous elink]. rewrite !length_app, Hr, Hh, length_link. unfold ENTRY_BYTES. lia.
Qed.

Lemma verify_is bytes : Forall is_byte bytes → Z.of_nat (length bytes) < 2 ^ 38 →
  ∃ r, verify bytes = Done r ∧ ∀ v, r = Ok v ↔ ∃ rs, Forall is_record rs ∧ in_order 0 rs ∧ bytes = kept GENESIS rs ∧ v = summary rs.
Proof.
  intros Hb Hl. unfold verify. set (n := (length bytes / ENTRY_BYTES)%nat). pose proof (Nat.div_mod_eq (length bytes) ENTRY_BYTES) as Ed. fold n in Ed.
  assert (HE : ENTRY_BYTES = 128%nat) by reflexivity. pose proof (Nat.mod_upper_bound (length bytes) ENTRY_BYTES ltac:(lia)) as Hm.
  destruct (verify_loop_is n bytes 0 Chain.new (MkVerified 0 GENESIS (0, 0) 0 0)) as (r & -> & Hx); [lia|done|lia|done|done|cbn [crecords Chain.new]; lia|done|cbn [vgaps]; lia|].
  cbn [mbind outcome_bind]. eexists. split; [done|]. intros v. destruct r as [[c t]|b].
  - destruct (proj1 (Hx c t) eq_refl) as (rs & Hn & Hrs & Ek & Ho & -> & ->). destruct (Nat.eqb_spec (length bytes mod ENTRY_BYTES) 0) as [Ht|Ht]; cbn [negb].
    + rewrite take_ge in Ek by lia. split.
      * intros [= <-]. exists rs. split_and!; try done. unfold summary. cbn [chead crecords Chain.new]. by rewrite Hn.
      * intros (rs' & Hrs' & Ho' & Ek' & ->). assert (Hn' : length rs' = n) by (apply (f_equal length) in Ek'; rewrite length_kept in Ek' by done; lia).
        assert (H := proj2 (Hx (MkChain (head_after GENESIS rs') (0 + Z.of_nat n)) (tally 0 (MkVerified 0 GENESIS (0, 0) 0 0) rs')) ltac:(exists rs'; split_and!; try done; by rewrite take_ge by lia)).
        injection H as H1 H2. unfold summary. rewrite Hn'. cbn [chead crecords Chain.new]. rewrite H1, H2. done.
    + split; [done|]. intros (rs' & Hrs' & _ & Ek' & _). apply (f_equal length) in Ek'. rewrite length_kept in Ek' by done. destruct Ht. rewrite Ek'. apply Nat.Div0.mod_mul.
  - split; [done|]. intros (rs' & Hrs' & Ho' & Ek' & ->). assert (Hn' : length rs' = n) by (apply (f_equal length) in Ek' as El; rewrite length_kept in El by done; unfold n; rewrite El; rewrite Nat.div_mul; lia).
    assert (H : Err b = Ok (MkChain (head_after GENESIS rs') (0 + Z.of_nat n), tally 0 (MkVerified 0 GENESIS (0, 0) 0 0) rs')); [|done]. apply Hx. exists rs'. split_and!; try done.
    rewrite take_ge; [done|]. rewrite Ek', length_kept by done. lia.
Qed.

(** Checking a kept log is total and exact: on any bytes it answers, and it accepts
    exactly the bytes the chain writes for some records whose sequence numbers are their
    places and of which the first is an attach record; it then reports the last link, the
    boot the first record names and the sum of the gaps. *)
Theorem verify_exact bytes : Forall is_byte bytes → Z.of_nat (length bytes) < 2 ^ 38 →
  ∃ r, verify bytes = Done r ∧ ∀ v, r = Ok v ↔ ∃ rs, Forall is_record rs ∧ in_order 0 rs ∧ bytes = kept GENESIS rs ∧ v = summary rs.
Proof. apply verify_is. Qed.

(** ** Tampering *)
(** The entry at a place of a file, and what its link is the hash of. *)
Definition entry_at (bytes : list Z) (i : nat) : Entry := Entry.from_bytes (take ENTRY_BYTES (drop (i * ENTRY_BYTES) bytes)).
Definition hashed (e : Entry) : list Z := LABEL ++ previous e ++ erecord e.

(** A collision of SHA-256 in two files: an entry of each, hashed over different bytes to
    one hash. *)
Definition collide (bytes bytes' : list Z) : Prop := ∃ i i', ((i + 1) * ENTRY_BYTES ≤ length bytes)%nat ∧ ((i' + 1) * ENTRY_BYTES ≤ length bytes')%nat ∧
  hashed (entry_at bytes i) ≠ hashed (entry_at bytes' i') ∧ Fips.sha256 (hashed (entry_at bytes i)) = Fips.sha256 (hashed (entry_at bytes' i')).

Lemma link_inj h h' r r' : length h = LINK_BYTES → length h' = LINK_BYTES → the_link h r = the_link h' r' →
  h = h' ∧ r = r' ∨ LABEL ++ h ++ r ≠ LABEL ++ h' ++ r' ∧ Fips.sha256 (LABEL ++ h ++ r) = Fips.sha256 (LABEL ++ h' ++ r').
Proof.
  intros Hh Hh' E. destruct (decide (LABEL ++ h ++ r = LABEL ++ h' ++ r')) as [Eq|Hne]; [left|by right]. apply app_inv_head in Eq. by apply app_inj_1 in Eq; [|lia].
Qed.

Lemma length_head_after rs : length (head_after GENESIS rs) = LINK_BYTES.
Proof. destruct rs as [|r rs _] using rev_ind; [done|]. unfold head_after. rewrite foldl_app. apply length_link. Qed.

Lemma entry_kept rs r t : ∀ h, length h = LINK_BYTES → Forall is_record rs → length r = RECORD_BYTES → entry_at (kept h (rs ++ r :: t)) (length rs) = MkEntry r (head_after h rs) (the_link (head_after h rs) r).
Proof.
  induction rs as [|r0 rs IH]; intros h Hh Hrs Hr.
  - unfold entry_at. cbn [app length head_after foldl Nat.mul]. rewrite drop_0, (proj1 (take_kept_cons h r t Hh Hr)). by apply log_entry_roundtrip.
  - apply Forall_cons in Hrs as [[Hr0 _] Hrs]. unfold entry_at. cbn [app length]. destruct (take_kept_cons h r0 (rs ++ r :: t) Hh Hr0) as [_ Hd].
    change (S (length rs) * ENTRY_BYTES)%nat with (ENTRY_BYTES + length rs * ENTRY_BYTES)%nat. rewrite <- drop_drop, Hd. apply (IH (the_link h r0) (length_link _ _) Hrs Hr).
Qed.

(** One link, of one entry or of two that collide. *)
Lemma one_link rs r t rs' r' t' : Forall is_record (rs ++ r :: t) → Forall is_record (rs' ++ r' :: t') → the_link (head_after GENESIS rs) r = the_link (head_after GENESIS rs') r' →
  head_after GENESIS rs = head_after GENESIS rs' ∧ r = r' ∨ collide (kept GENESIS (rs ++ r :: t)) (kept GENESIS (rs' ++ r' :: t')).
Proof.
  intros Hrs Hrs' E. destruct (link_inj _ _ _ _ (length_head_after rs) (length_head_after rs') E) as [|[Hne Hs]]; [by left|]. right.
  exists (length rs), (length rs'). rewrite !length_kept, !length_app by done. cbn [length]. apply Forall_app in Hrs as [Ha Hb], Hrs' as [Ha' Hb']. apply Forall_cons in Hb as [[Hr _] _], Hb' as [[Hr' _] _].
  rewrite !entry_kept by done. split_and!; [lia|lia|done|done].
Qed.

Lemma same_length_one_log rs : ∀ rs' t t', Forall is_record (rs ++ t) → Forall is_record (rs' ++ t') → length rs = length rs' → head_after GENESIS rs = head_after GENESIS rs' →
  rs = rs' ∨ collide (kept GENESIS (rs ++ t)) (kept GENESIS (rs' ++ t')).
Proof.
  induction rs as [|r rs IH] using rev_ind; intros rs' t t' Hrs Hrs' Hl E; [destruct rs'; [by left|done]|].
  destruct rs' as [|r' rs' _] using rev_ind; [rewrite length_app in Hl; cbn in Hl; lia|]. rewrite !length_app in Hl. cbn in Hl. unfold head_after in E. rewrite !foldl_app in E. cbn [foldl] in E. rewrite <- !app_assoc in *. cbn [app] in *.
  destruct (one_link _ _ _ _ _ _ Hrs Hrs' E) as [[Eh ->]|]; [|by right]. destruct (IH rs' _ _ Hrs Hrs' ltac:(lia) Eh) as [-> |]; [by left|by right].
Qed.

Lemma in_order_last index rs r : in_order index (rs ++ [r]) → sequence (Record.from_bytes r) = index + Z.of_nat (length rs).
Proof. revert index. induction rs as [|r0 rs IH]; intros index; cbn [app in_order length]; [intros [-> _]; lia|]. intros (_ & _ & Ho). rewrite (IH _ Ho). lia. Qed.

(** Logs of any lengths with one head end in one record. *)
Lemma last_of_head rs rs' r r' : Forall is_record (rs ++ [r]) → Forall is_record (rs' ++ [r']) → head_after GENESIS (rs ++ [r]) = head_after GENESIS (rs' ++ [r']) →
  r = r' ∨ collide (kept GENESIS (rs ++ [r])) (kept GENESIS (rs' ++ [r'])).
Proof.
  unfold head_after. rewrite !foldl_app. cbn [foldl]. intros Hrs Hrs' E. destruct (one_link _ _ _ _ _ _ Hrs Hrs' E) as [[_ ->]|]; [by left|by right].
Qed.

(** C20. A log cannot be edited under its head: two logs that both verify and report the
    same last link are the same bytes, whatever was changed, removed, inserted or moved and
    whatever their lengths, or else there are an entry of the one and an entry of the other
    that are hashed over different bytes to the same hash. *)
Theorem one_head_one_log bytes bytes' v v' : Forall is_byte bytes → Forall is_byte bytes' → Z.of_nat (length bytes) < 2 ^ 38 → Z.of_nat (length bytes') < 2 ^ 38 → bytes ≠ [] → bytes' ≠ [] →
  verify bytes = Done (Ok v) → verify bytes' = Done (Ok v') → vhead v = vhead v' → bytes = bytes' ∨ collide bytes bytes'.
Proof.
  intros Hb Hb' Hl Hl' Hn Hn' Hv Hv' Eh. destruct (verify_is bytes Hb Hl) as (r & Er & Hx). rewrite Hv in Er. injection Er as <-. destruct (proj1 (Hx v) eq_refl) as (rs & Hrs & Ho & -> & ->).
  destruct (verify_is bytes' Hb' Hl') as (r & Er & Hx'). rewrite Hv' in Er. injection Er as <-. destruct (proj1 (Hx' v') eq_refl) as (rs' & Hrs' & Ho' & -> & ->). cbn [vhead summary] in Eh.
  destruct rs as [|r rs _] using rev_ind; [done|]. destruct rs' as [|r' rs' _] using rev_ind; [done|].
  assert (Hlast : r = r' ∨ collide (kept GENESIS (rs ++ [r])) (kept GENESIS (rs' ++ [r']))) by by apply last_of_head.
  destruct Hlast as [-> |]; [|by right]. apply in_order_last in Ho, Ho'.
  destruct (same_length_one_log (rs ++ [r']) (rs' ++ [r']) [] []) as [-> |Hc]; [by rewrite app_nil_r..|rewrite !length_app; cbn; lia|done|by left|]. right. by rewrite !app_nil_r in Hc.
Qed.

Definition demo_first : Record := MkRecord 0 5 (Kind.code Attach) 0 0 (MkName 0 0) (MkName 0 0) 40 7 8 0.
Definition demo_second : Record := MkRecord 1 6 (Kind.code Gap) 0 0 (MkName 0 0) (MkName 0 0) 3 0 0 0.
Definition demo_records : list (list Z) := [Record.to_bytes demo_first; Record.to_bytes demo_second].
Lemma demo_records_ok : Forall is_record demo_records ∧ in_order 0 demo_records.
Proof. split; [|split; [reflexivity|split; [reflexivity|split; [reflexivity|split; [done|exact I]]]]]. repeat constructor; by vm_compute. Qed.

Lemma kept_bytes rs : ∀ h, Forall is_byte h → Forall is_record rs → Forall is_byte (kept h rs).
Proof.
  induction rs as [|r rs IH]; intros h Hh Hrs; cbn [kept]; [constructor|]. apply Forall_cons in Hrs as [[_ Hr] Hrs]. unfold Entry.to_bytes. cbn [erecord previous elink].
  rewrite !Forall_app. split_and!; [done|done|apply sha256_bytes|apply IH; [apply sha256_bytes|done]].
Qed.

Lemma verify_exact_witness : ∃ v, verify (kept GENESIS demo_records) = Done (Ok v) ∧ vrecords v = 2 ∧ vgaps v = 3 ∧ vbefore v = 40 ∧ boot v = (7, 8).
Proof.
  destruct demo_records_ok as [Hrs Ho].
  destruct (verify_exact (kept GENESIS demo_records)) as (r & Hr & Hx); [apply kept_bytes; [by vm_compute; repeat constructor|exact Hrs]|rewrite length_kept by done; vm_compute; reflexivity|].
  exists (summary demo_records). split; [|vm_compute; split_and!; reflexivity]. rewrite Hr. f_equal. apply Hx. exists demo_records. split; [exact Hrs|]. split; [exact Ho|]. split; reflexivity.
Defined.

Lemma one_head_one_log_witness : ∃ v, verify (kept GENESIS demo_records) = Done (Ok v) ∧ (kept GENESIS demo_records = kept GENESIS demo_records ∨ collide (kept GENESIS demo_records) (kept GENESIS demo_records)).
Proof.
  destruct demo_records_ok as [Hrs Ho]. assert (Hb : Forall is_byte (kept GENESIS demo_records)) by (apply kept_bytes; [by vm_compute; repeat constructor|exact Hrs]).
  assert (Hl : Z.of_nat (length (kept GENESIS demo_records)) < 2 ^ 38) by (rewrite length_kept by done; vm_compute; reflexivity).
  destruct (verify_is (kept GENESIS demo_records) Hb Hl) as (r & Hr & Hx). exists (summary demo_records).
  assert (E : verify (kept GENESIS demo_records) = Done (Ok (summary demo_records))) by (rewrite Hr; f_equal; apply Hx; exists demo_records; split; [exact Hrs|]; split; [exact Ho|]; split; reflexivity).
  split; [exact E|]. apply (one_head_one_log _ _ (summary demo_records) (summary demo_records) Hb Hb Hl Hl); [discriminate|discriminate|exact E|exact E|reflexivity].
Defined.
