(* ===== verification/AuditLedger.v ===== *)
(** * The audit ledger over a run

    Theorems about the ledger and the ring of AuditLog.v: over any interleaving of
    reservations, commits, cancellations and the attaching of the reader, and whatever tail
    the reader claims, every operation is recorded or counted, the log that is kept of the
    records verifies and says so, and a record stays in the ring until the reader has
    claimed to have read it. *)
From stdpp Require Import prelude numbers list.
From S2P Require Import Prelude Bytes Sha AuditLog AuditLaws.
Open Scope Z_scope.
Set Warnings "-clear-no-such-hyp".

(** ** Records as bytes *)
Record record_ok (r : Record) : Prop := {
  ro_sequence : in_width 64 (sequence r);
  ro_timestamp : in_width 64 (timestamp r);
  ro_bytes : is_byte (kind r) ∧ is_byte (object_kind r) ∧ is_byte (rights r);
  ro_actor : in_width 32 (domain (actor r)) ∧ in_width 32 (generation (actor r));
  ro_target : in_width 32 (domain (target r)) ∧ in_width 32 (generation (target r));
  ro_count : in_width 32 (count r);
  ro_words : in_width 64 (subject r) ∧ in_width 64 (source r) ∧ in_width 64 (object r)
}.

Lemma to_bytes_is r : Record.to_bytes r =
  to_le 8 (sequence r) ++ to_le 8 (timestamp r) ++ [kind r; object_kind r; rights r; 0] ++ to_le 4 (domain (actor r)) ++ to_le 4 (generation (actor r)) ++
  to_le 4 (domain (target r)) ++ to_le 4 (generation (target r)) ++ to_le 4 (count r) ++ to_le 8 (subject r) ++ to_le 8 (source r) ++ to_le 8 (object r).
Proof. reflexivity. Qed.

Lemma record_roundtrip r : record_ok r → Record.from_bytes (Record.to_bytes r) = r.
Proof.
  intros []. destruct ro_actor0, ro_target0, ro_words0 as (? & ? & ?).
  transitivity (MkRecord (from_le (to_le 8 (sequence r))) (from_le (to_le 8 (timestamp r))) (kind r) (object_kind r) (rights r) (MkName (from_le (to_le 4 (domain (actor r)))) (from_le (to_le 4 (generation (actor r)))))
    (MkName (from_le (to_le 4 (domain (target r)))) (from_le (to_le 4 (generation (target r))))) (from_le (to_le 4 (count r))) (from_le (to_le 8 (subject r))) (from_le (to_le 8 (source r))) (from_le (to_le 8 (object r)))); [reflexivity|].
  rewrite !from_to_le by assumption. by destruct r as [? ? ? ? ? [] [] ? ? ? ?].
Qed.

Lemma to_bytes_record r : record_ok r → is_record (Record.to_bytes r).
Proof.
  intros []. split; [reflexivity|]. destruct ro_bytes0 as (? & ? & ?). rewrite to_bytes_is. rewrite !Forall_app. split_and!; try apply to_le_bytes. repeat (apply Forall_cons; split; [done|]). apply Forall_nil_2.
Qed.

(** ** The ring's slots *)
Definition layout : TelemetryRing.Layout := TelemetryRing.MkLayout 512.
Lemma for_region_is : TelemetryRing.for_region Kernel.RING_BYTES = Some layout.
Proof. reflexivity. Qed.

Lemma slot_offset_is q : 0 ≤ q → TelemetryRing.slot_offset layout q = 128 + q mod 512 * 64.
Proof. intros Hq. unfold TelemetryRing.slot_offset, layout. cbn [TelemetryRing.slots]. change (512 - 1) with (Z.ones 9). by rewrite Z.land_ones by lia. Qed.

(** The slots of two records less than a round apart do not meet. *)
Lemma slots_apart q p : 0 ≤ q < p → p < q + 512 → TelemetryRing.slot_offset layout q + 64 ≤ TelemetryRing.slot_offset layout p ∨ TelemetryRing.slot_offset layout p + 64 ≤ TelemetryRing.slot_offset layout q.
Proof. intros Hq Hp. rewrite !slot_offset_is by lia. assert (q mod 512 ≠ p mod 512) by (intros E; Z.to_euclidean_division_equations; lia). lia. Qed.

Lemma put_get mem at' bytes : mem_get (mem_put mem at' bytes) at' (length bytes) = bytes.
Proof.
  unfold mem_get, mem_put. apply list_eq. intros i. rewrite list_lookup_fmap. destruct (decide (i < length bytes)%nat) as [Hi|Hi].
  - rewrite lookup_seq_lt by done. cbn [fmap option_fmap option_map]. rewrite (proj2 (Z.leb_le _ _)), (proj2 (Z.ltb_lt _ _)) by lia. cbn [andb]. replace (Z.to_nat _) with i by lia.
    symmetry. by apply list_lookup_lookup_total_lt.
  - rewrite !lookup_ge_None_2; [done|lia|rewrite length_seq; lia].
Qed.
Lemma put_get_other mem at' bytes a n : a + Z.of_nat n ≤ at' ∨ at' + Z.of_nat (length bytes) ≤ a → mem_get (mem_put mem at' bytes) a n = mem_get mem a n.
Proof.
  intros Hd. unfold mem_get, mem_put. apply list_fmap_ext. intros i x Hx. apply lookup_seq in Hx as [-> Hx].
  destruct (Z.leb_spec at' (a + Z.of_nat (0 + i))), (Z.ltb_spec (a + Z.of_nat (0 + i)) (at' + Z.of_nat (length bytes))); cbn [andb]; [lia|done..].
Qed.

(** What a reader of the ring finds: the records of [rs] from the place [q] on, and the
    counts the header publishes. *)
Record published (mem : Memory) (q : Z) (rs : list Record) (l : Ledger) : Prop := {
  pu_records : ∀ i r, rs !! i = Some r → q ≤ Z.of_nat i → mem_get mem (TelemetryRing.slot_offset layout (Z.of_nat i)) RECORD_BYTES = Record.to_bytes r;
  pu_head : mem_get mem HEAD_OFFSET 8 = to_le 8 (Z.of_nat (length rs));
  pu_gaps : mem_get mem GAPS_OFFSET 8 = to_le 8 (gaps l)
}.

(** A word of the header overwrites neither a record nor another word. *)
Lemma header_apart i : 0 ≤ i → 128 ≤ TelemetryRing.slot_offset layout i.
Proof. intros Hi. rewrite slot_offset_is by done. Z.to_euclidean_division_equations. lia. Qed.
Ltac words := first [rewrite put_get_other by (rewrite length_to_le; unfold HEAD_OFFSET, GAPS_OFFSET, REFUSED_OFFSET; lia) | rewrite (put_get _ _ (to_le 8 _))].

Lemma store_records_keep writes : ∀ mem q rs, (∀ i r, writes !! i = Some r → sequence r = Z.of_nat (length rs + i)) → 0 ≤ q →
  Z.of_nat (length rs + length writes) ≤ q + 512 →
  (∀ i r, rs !! i = Some r → q ≤ Z.of_nat i → mem_get mem (TelemetryRing.slot_offset layout (Z.of_nat i)) RECORD_BYTES = Record.to_bytes r) →
  let mem' := foldl (Kernel.store_record layout) mem writes in
  (∀ i r, (rs ++ writes) !! i = Some r → q ≤ Z.of_nat i → mem_get mem' (TelemetryRing.slot_offset layout (Z.of_nat i)) RECORD_BYTES = Record.to_bytes r) ∧
  mem_get mem' HEAD_OFFSET 8 = mem_get mem HEAD_OFFSET 8 ∧ mem_get mem' GAPS_OFFSET 8 = mem_get mem GAPS_OFFSET 8.
Proof.
  induction writes as [|w writes IH]; intros mem q rs Hs Hq Hroom Hk; cbn [foldl]; [rewrite app_nil_r; done|].
  assert (Hw : sequence w = Z.of_nat (length rs)) by (rewrite (Hs 0%nat w eq_refl); f_equal; lia).
  destruct (IH (Kernel.store_record layout mem w) q (rs ++ [w])) as (H1 & H2 & H3).
  - intros i r Hr. rewrite (Hs (S i) r Hr), length_app. f_equal. cbn. lia.
  - done.
  - rewrite length_app. cbn in *. lia.
  - intros i r Hr Hi. unfold Kernel.store_record. rewrite Hw. apply lookup_app_Some in Hr as [Hr|[Hl Hr]].
    + rewrite put_get_other; [by apply Hk|]. apply lookup_lt_Some in Hr. cbn in Hroom. destruct (slots_apart (Z.of_nat i) (Z.of_nat (length rs))); [lia|lia| |]; [left|right]; change (length (Record.to_bytes w)) with 64%nat; unfold RECORD_BYTES; lia.
    + apply list_lookup_singleton_Some in Hr as [E <-]. replace (Z.of_nat i) with (Z.of_nat (length rs)) by lia. apply (put_get mem _ (Record.to_bytes w)).
  - cbn zeta. rewrite <- app_assoc in H1. split; [exact H1|]. rewrite H2, H3. unfold Kernel.store_record. pose proof (header_apart (sequence w) ltac:(lia)).
    by rewrite !put_get_other by (left; unfold HEAD_OFFSET, GAPS_OFFSET; lia).
Qed.

(** Storing what a commit or an attach produced publishes it. *)
Lemma store_publishes mem q rs l l' writes : published mem q rs l → (∀ i r, records writes !! i = Some r → sequence r = Z.of_nat (length rs + i)) → 0 ≤ q →
  Z.of_nat (length rs + length (records writes)) ≤ q + 512 → head l' = Z.of_nat (length rs + length (records writes)) →
  ∃ mem', Kernel.store l' writes (Some mem) = Some mem' ∧ published mem' q (rs ++ records writes) l'.
Proof.
  intros [Hr Hh Hg] Hs Hq Hroom Hl. unfold Kernel.store. rewrite for_region_is. destruct (store_records_keep (records writes) mem q rs Hs Hq Hroom Hr) as (H1 & H2 & _).
  set (mem' := foldl _ _ _) in *. unfold Kernel.set_header_word. destruct (records writes) as [|w ws] eqn:Ew; eexists; (split; [cbn [fmap option_fmap option_map]; reflexivity|]); split.
  - intros i r Hi Hqi. pose proof (header_apart (Z.of_nat i) ltac:(lia)). words. by apply H1.
  - words. rewrite H2, Hh, app_nil_r. done.
  - by words.
  - intros i r Hi Hqi. pose proof (header_apart (Z.of_nat i) ltac:(lia)). words. words. by apply H1.
  - words. words. by rewrite Hl, length_app.
  - by words.
Qed.

(** ** A run *)

(** The kernel's state, with the reservations in flight; and, to say what happened, the
    records written so far, the furthest tail claimed so far, the number of operations that
    happened, all of them, and of those the number that happened under a reservation made
    since the reader attached.  [crossing] is how many reservations were in flight when the
    reader attached, and [across] how many operations have happened under one of them
    since. *)
Record World : Type := MkWorld {
  state : Kernel.State;
  flight : list Ticket;
  written : list Record;
  claimed : Z;
  happened : Z;
  since : Z;
  across : Z;
  crossing : Z
}.

Inductive Event : Type :=
| EInit (frames : Memory)
| EReserve (claim : Z)
| EMust (claim : Z)
| ECommit (i : nat) (record : Record) (time : Z)
| EDrop (i : nat)
| EAttach (boot : Z * Z) (time : Z).

Definition is_active_ticket (t : Ticket) : bool := match t with TInactive => false | _ => true end.
Definition the_ledger (w : World) : Ledger := Kernel.ledger (state w).
Definition believe (w : World) (claim : Z) : Z := if active (the_ledger w) then Z.max (claimed w) (Z.min claim (head (the_ledger w))) else claimed w.

(** [init] is called once, at boot. *)
Definition step (w : World) (e : Event) : outcome World :=
  match e with
  | EInit frames => Done (match Kernel.ring (state w) with Some _ => w | None => MkWorld (Kernel.init (state w) frames) (flight w) (written w) (claimed w) (happened w) (since w) (across w) (crossing w) end)
  | EReserve claim =>
      '(t, s) ← Kernel.reserve (state w) claim;
      Done (MkWorld s (match t with Ok t => flight w ++ [t] | Err _ => flight w end) (written w) (believe w claim) (happened w) (since w) (across w) (crossing w))
  | EMust claim =>
      '(t, s) ← Kernel.must (state w) claim;
      Done (MkWorld s (flight w ++ [t]) (written w) (believe w claim) (happened w) (since w) (across w) (crossing w))
  | ECommit i record time =>
      match flight w !! i with
      | None => Done w
      | Some t =>
          '(writes, s) ← Kernel.commit (state w) t record time;
          Done (MkWorld s (delete i (flight w)) (written w ++ records writes) (claimed w) (happened w + 1) (since w + (if is_active_ticket t then 1 else 0))
                  (across w + (if is_active_ticket t || negb (active (the_ledger w)) then 0 else 1)) (crossing w))
      end
  | EDrop i =>
      match flight w !! i with
      | None => Done w
      | Some t => s ← Kernel.drop (state w) t; Done (MkWorld s (delete i (flight w)) (written w) (claimed w) (happened w) (since w) (across w) (crossing w))
      end
  | EAttach b time =>
      '(writes, s) ← Kernel.attach (state w) b time;
      Done (MkWorld s (flight w) (written w ++ match writes with Some writes => records writes | None => [] end) (claimed w) (happened w) (since w) (across w)
              (match writes with Some _ => Z.of_nat (length (flight w)) | None => crossing w end))
  end.

Fixpoint run (w : World) (es : list Event) : outcome World := match es with [] => Done w | e :: es' => w ← step w e; run w es' end.
Definition start : World := MkWorld Kernel.boot [] [] 0 0 0 0 0.

(** What callers pass: an operation's record, not an attach or a gap record. *)
Definition event_ok (e : Event) : Prop :=
  match e with
  | EInit _ | EDrop _ => True
  | EReserve claim | EMust claim => in_width 64 claim
  | ECommit _ r time => record_ok r ∧ 3 ≤ kind r ≤ 7 ∧ in_width 64 time
  | EAttach b time => in_width 64 b.1 ∧ in_width 64 b.2 ∧ in_width 64 time
  end.

(** ** The invariant *)
Fixpoint total {A} (f : A → Z) (l : list A) : Z := match l with [] => 0 | x :: l' => f x + total f l' end.
Definition need (t : Ticket) : Z := match t with TSlots gap => if 0 <? gap then 2 else 1 | _ => 0 end.
Definition owed (t : Ticket) : Z := match t with TSlots gap => gap | _ => 0 end.
Definition is_operation (r : Record) : Z := if 3 <=? kind r then 1 else 0.
Definition stated (r : Record) : Z := if kind r =? Kind.code Gap then count r else 0.

Lemma total_app {A} (f : A → Z) l l' : total f (l ++ l') = total f l + total f l'.
Proof. induction l as [|x l IH]; cbn; lia. Qed.
Lemma total_delete {A} (f : A → Z) l i x : l !! i = Some x → total f l = f x + total f (delete i l).
Proof. revert i. induction l as [|y l IH]; intros [|i] Hi; [done|done|by injection Hi as ->|]. change (delete (S i) (y :: l)) with (y :: delete i l). cbn [total]. rewrite (IH i Hi). lia. Qed.
Lemma total_not_negative {A} (f : A → Z) l : Forall (fun x => 0 ≤ f x) l → 0 ≤ total f l.
Proof. induction 1; cbn; lia. Qed.
Lemma total_insert (l : list Z) i x y : l !! i = Some x → total id (<[i := y]> l) = total id l - x + y.
Proof. revert i. induction l as [|z l IH]; intros [|i] Hi; [done|done|injection Hi as ->; cbn; unfold id; lia|]. change (<[S i := y]> (z :: l)) with (z :: <[i := y]> l). cbn [total]. rewrite (IH i Hi). lia. Qed.
Lemma need_nonneg l : 0 ≤ total need l.
Proof. apply total_not_negative, Forall_forall. intros t _. unfold need. repeat case_match; lia. Qed.

(** What holds of the ledger alone, [n] steps into a run. *)
Record ledger_ok (n : Z) (l : Ledger) (flight : list Ticket) (written : list Record) (claimed since : Z) : Prop := {
  lo_const : slots l = 512 ∧ headroom l = 64;
  lo_head : head l = Z.of_nat (length written);
  lo_reserved : reserved l = total need flight;
  lo_free : 0 ≤ claimed ≤ head l ∧ head l + reserved l ≤ claimed + 512;
  lo_tickets : Forall (fun t => 0 ≤ owed t) flight;
  lo_pending : 0 ≤ pending_gaps l ∧ pending_gaps l + total owed flight ≤ n;
  lo_bounds : head l + reserved l ≤ 2 * n ∧ 0 ≤ gaps l ≤ n ∧ 0 ≤ refused l ≤ n;
  lo_before : length (before l) = 8%nat ∧ Forall (fun x => 0 ≤ x) (before l) ∧ total id (before l) ≤ n;
  lo_inactive : active l = false → written = [] ∧ Forall (fun t => t = TInactive) flight ∧ pending_gaps l = 0 ∧ gaps l = 0;
  lo_records : ∀ i r, written !! i = Some r → sequence r = Z.of_nat i ∧ record_ok r ∧ (i = 0%nat ↔ kind r = Kind.code Attach) ∧ 1 ≤ kind r ≤ 7;
  lo_active : active l = true → written ≠ [];
  lo_since : since = total is_operation written + gaps l;
  lo_gaps : n < 2 ^ 32 → gaps l = total stated written + pending_gaps l + total owed flight
}.

Definition inv (n : Z) (w : World) : Prop :=
  ledger_ok n (the_ledger w) (flight w) (written w) (claimed w) (since w) ∧
  match Kernel.ring (state w) with Some mem => published mem (claimed w) (written w) (the_ledger w) | None => active (the_ledger w) = false end.

Lemma ledger_ok_mono n m l f ws c h : n ≤ m → ledger_ok n l f ws c h → ledger_ok m l f ws c h.
Proof. intros Hn []. split; try done; try lia. destruct lo_before0 as (? & ? & ?). split_and!; [done|done|lia]. Qed.

Lemma published_claim mem q q' rs l l' : published mem q rs l → q ≤ q' → gaps l' = gaps l → published mem q' rs l'.
Proof. intros [H1 H2 H3] Hq Hg. split; [|done|by rewrite Hg]. intros i r Hr Hi. apply H1; [done|lia]. Qed.

Lemma clamp_range h claim c : 0 ≤ h → 0 ≤ claim → h ≤ c + 512 → 0 ≤ TelemetryRing.clamp_tail h claim 512 ≤ h ∧ TelemetryRing.clamp_tail h claim 512 ≤ Z.max c (Z.min claim h).
Proof. intros Hh Hc Hr. unfold TelemetryRing.clamp_tail. destruct (Z.ltb_spec h claim); [lia|]. destruct (Z.ltb_spec 512 (h - claim)); lia. Qed.

Lemma verdict_is adm used pending : 0 ≤ used →
  match verdict adm used 512 64 pending with
  | VRecord g => g = pending ∧ used + (if pending then 2 else 1) ≤ 512
  | VRefuse => adm = Refusable
  | VGap => True
  end.
Proof.
  intros Hu. unfold verdict. destruct adm.
  - destruct (Z.leb_spec (Z.min (2 ^ 64 - 1) ((if pending then 2 else 1) + 64)) (Z.max 0 (512 - used))); [|done]. split; [done|]. destruct pending; lia.
  - destruct (Z.leb_spec (if pending then 2 else 1) (Z.max 0 (512 - used))); [|done]. split; [done|]. destruct pending; lia.
Qed.

Ltac fields := cbn [slots headroom active head reserved pending_gaps gaps refused before].

Lemma reserve_ok n l f ws c h adm claim : 0 ≤ n < 2 ^ 62 → ledger_ok n l f ws c h → in_width 64 claim →
  ∃ t l', Ledger.reserve l adm claim = Done (t, l') ∧ (adm = Unrefusable → ∃ t', t = Ok t') ∧ gaps l' = gaps l ∧ active l' = active l ∧
    ledger_ok (n + 1) l' (match t with Ok t => f ++ [t] | Err _ => f end) ws (if active l then Z.max c (Z.min claim (head l)) else c) h.
Proof.
  intros Hn Hi [Hc _]. pose proof (lo_bounds _ _ _ _ _ _ Hi) as Hb0. apply (ledger_ok_mono n (n + 1)) in Hi; [|lia]. destruct Hi as [[Is Ih] I1 I2 [I3 I3'] I4 I5 I6 I7 I8 I9 I9' I10 I11]. unfold Ledger.reserve.
  destruct (active l) eqn:Ea; cbn [negb].
  2: { eexists _, _. split; [done|]. split; [by eexists|]. split; [done|]. split; [done|]. split; rewrite ?total_app; cbn [total need owed]; rewrite ?Z.add_0_r; try done.
    - apply Forall_app. split; [done|]. by repeat constructor.
    - intros E. destruct (I8 eq_refl) as (? & ? & ? & ?). split_and!; try done. apply Forall_app. split; [done|]. by repeat constructor.
    - by rewrite Ea. }
  assert (Hres : 0 ≤ reserved l) by (rewrite I2; apply need_nonneg). destruct (clamp_range (head l) claim c ltac:(lia) Hc ltac:(lia)) as [Ht Ht']. rewrite Is, Ih. set (tail := TelemetryRing.clamp_tail _ _ _) in *.
  unfold sub_checked. rewrite checked_ok by (unfold in_width; lia). cbn [mbind outcome_bind]. rewrite Z.min_r by lia.
  pose proof (verdict_is adm (head l - tail + reserved l) (0 <? pending_gaps l) ltac:(lia)) as Hv. destruct (verdict _ _ _ _ _) as [g| |].
  - destruct Hv as [-> Hv]. unfold add_checked. rewrite checked_ok by (unfold in_width; destruct (0 <? _); lia). cbn [mbind outcome_bind]. eexists _, _. split; [done|]. split; [by eexists|]. split; [done|]. split; [done|].
    assert (Hneed : need (TSlots (if 0 <? pending_gaps l then pending_gaps l else 0)) = if 0 <? pending_gaps l then 2 else 1).
    { unfold need. destruct (0 <? pending_gaps l) eqn:Ep; [by rewrite Ep|done]. }
    split; fields; rewrite ?total_app; cbn [total]; rewrite ?Hneed; cbn [owed]; rewrite ?Z.add_0_r; try done.
    + lia.
    + destruct (0 <? _); lia.
    + apply Forall_app. split; [done|]. repeat constructor. cbn. destruct (Z.ltb_spec 0 (pending_gaps l)); lia.
    + destruct (Z.ltb_spec 0 (pending_gaps l)); lia.
    + destruct (0 <? _); lia.
    + intros Hb. rewrite (I11 Hb). destruct (Z.ltb_spec 0 (pending_gaps l)); lia.
  - subst adm. unfold add_checked. rewrite checked_ok by (unfold in_width; lia). cbn [mbind outcome_bind]. eexists _, _. split; [done|]. split; [done|]. split; [done|]. split; [done|]. split; fields; try done; lia.
  - eexists _, _. split; [done|]. split; [by eexists|]. split; [done|]. split; [done|]. split; rewrite ?total_app; cbn [total need owed]; rewrite ?Z.add_0_r, ?Ea; try done; [lia|].
    apply Forall_app. split; [done|]. by repeat constructor.
Qed.

Lemma gap_record_ok q time gap : 0 ≤ q < 2 ^ 64 → in_width 64 time → 0 ≤ gap → record_ok (Ledger.gap_record q time gap).
Proof.
  intros Hq Ht Hg. unfold Ledger.gap_record, Ledger.as_count.
  split; cbn [sequence timestamp kind object_kind rights actor target count subject source object domain generation]; unfold in_width, is_byte in *; try done; try (destruct (Z.ltb_spec gap (2 ^ 32)); lia).
Qed.
Lemma stamped_ok q r : 0 ≤ q < 2 ^ 64 → record_ok r → record_ok (Ledger.stamped r q).
Proof. intros Hq []. by split. Qed.

(** The records a commit adds keep [lo_records]. *)
Lemma records_snoc ws q r : (∀ i r, ws !! i = Some r → sequence r = Z.of_nat i ∧ record_ok r ∧ (i = 0%nat ↔ kind r = Kind.code Attach) ∧ 1 ≤ kind r ≤ 7) →
  q = Z.of_nat (length ws) → sequence r = q → record_ok r → (ws = [] ↔ kind r = Kind.code Attach) → 1 ≤ kind r ≤ 7 →
  ∀ i r', (ws ++ [r]) !! i = Some r' → sequence r' = Z.of_nat i ∧ record_ok r' ∧ (i = 0%nat ↔ kind r' = Kind.code Attach) ∧ 1 ≤ kind r' ≤ 7.
Proof.
  intros Hw -> Hs Hr Ha Hk i r' Hi. apply lookup_app_Some in Hi as [Hi|[Hl Hi]]; [by apply Hw|]. apply list_lookup_singleton_Some in Hi as [E <-].
  split; [lia|]. split; [done|]. split; [|done]. rewrite <- Ha. split; [intros ->; apply length_zero_iff_nil; lia|intros ->; cbn in *; lia].
Qed.

Lemma commit_slots_ok n l f ws c h i gap r : 0 ≤ n < 2 ^ 62 → ledger_ok n l f ws c h → f !! i = Some (TSlots gap) → record_ok r → 3 ≤ kind r ≤ 7 →
  ∃ writes l', Ledger.commit l (TSlots gap) r = Done (writes, l') ∧ active l' = active l ∧ ledger_ok n l' (delete i f) (ws ++ records writes) c (h + 1).
Proof.
  intros Hn [[Is Ih] I1 I2 [I3 I3'] I4 I5 I6 I7 I8 I9 I9' I10 I11] Hf Hr Hk. pose proof (total_delete need f i _ Hf) as Hneed. pose proof (total_delete owed f i _ Hf) as Howed. cbn [owed] in Howed.
  pose proof (need_nonneg (delete i f)) as Hnn. assert (Hgap : 0 ≤ gap) by (by apply (Forall_lookup_1 _ _ _ _ I4 Hf)).
  assert (Hot : 0 ≤ total owed (delete i f)) by (by apply total_not_negative, Forall_delete). assert (Hact : active l = true) by (destruct (active l) eqn:E; [done|]; destruct (I8 eq_refl) as (_ & Ht & _); by apply (Forall_lookup_1 _ _ _ _ Ht) in Hf).
  pose proof (I9' Hact) as Hne. assert (Hop : ∀ q, is_operation (Ledger.stamped r q) = 1) by (intros q; unfold is_operation; cbn [kind Ledger.stamped]; by rewrite (proj2 (Z.leb_le _ _)) by lia).
  assert (Hst : ∀ q, stated (Ledger.stamped r q) = 0) by (intros q; unfold stated; cbn [kind Ledger.stamped Kind.code]; by rewrite (proj2 (Z.eqb_neq _ _)) by lia).
  unfold Ledger.commit, add_checked. cbn [need] in Hneed. destruct (0 <? gap) eqn:Eg; rewrite ?Eg in Hneed.
  - rewrite checked_ok by (unfold in_width; lia). cbn [mbind outcome_bind]. unfold Ledger.with_head. fields. rewrite checked_ok by (unfold in_width; lia). cbn [mbind outcome_bind]. eexists _, _. split; [done|]. split; [done|].
    apply Z.ltb_lt in Eg. set (g := Ledger.gap_record _ _ _).
    assert (Hg : record_ok g) by (apply gap_record_ok; [lia|by destruct Hr|lia]). change (records _) with ([g] ++ [Ledger.stamped r (head l + 1)]). rewrite app_assoc.
    split; fields; rewrite ?total_app; cbn [total]; rewrite ?Hop, ?Hst, ?Z.add_0_r; try done; try lia.
    + rewrite !length_app. cbn. lia.
    + by apply Forall_delete.
    + by rewrite Hact.
    + assert (Hq : ∀ i r', (ws ++ [g]) !! i = Some r' → sequence r' = Z.of_nat i ∧ record_ok r' ∧ (i = 0%nat ↔ kind r' = Kind.code Attach) ∧ 1 ≤ kind r' ≤ 7) by (apply (records_snoc ws (head l)); done).
      apply (records_snoc _ (head l + 1) _ Hq); [rewrite length_app; cbn; lia|done|apply stamped_ok; [lia|done]| |cbn [kind Ledger.stamped]; lia].
      split; [by destruct ws|]. cbn [kind Ledger.stamped Kind.code]. lia.
    + by destruct ws.
    + intros Hb. rewrite (I11 Hb). change (stated g) with (Ledger.as_count gap). unfold Ledger.as_count. rewrite (proj2 (Z.ltb_lt _ _)) by lia. lia.
  - cbn [mbind outcome_bind]. rewrite checked_ok by (unfold in_width; lia). cbn [mbind outcome_bind]. unfold Ledger.with_head. eexists _, _. split; [done|]. split; [done|]. apply Z.ltb_ge in Eg. change (records _) with [Ledger.stamped r (head l)].
    split; fields; rewrite ?total_app; cbn [total]; rewrite ?Hop, ?Hst, ?Z.add_0_r; try done; try lia.
    + rewrite !length_app. cbn. lia.
    + by apply Forall_delete.
    + by rewrite Hact.
    + apply (records_snoc _ (head l) _ I9 I1); [done|apply stamped_ok; [lia|done]| |cbn [kind Ledger.stamped]; lia]. split; [by destruct ws|]. cbn [kind Ledger.stamped Kind.code]. lia.
    + by destruct ws.
Qed.

Lemma commit_inactive_ok n l f ws c h i r : 0 ≤ n < 2 ^ 62 → ledger_ok n l f ws c h → f !! i = Some TInactive →
  ∃ l', Ledger.commit l TInactive r = Done ((None, None), l') ∧ active l' = active l ∧ ledger_ok (n + 1) l' (delete i f) ws c h.
Proof.
  intros Hn Hi Hf. apply (ledger_ok_mono n (n + 1)) in Hi as Hi'; [|lia]. pose proof (lo_before _ _ _ _ _ _ Hi) as (Hb1 & Hb2 & Hb3).
  destruct Hi' as [[Is Ih] I1 I2 [I3 I3'] I4 I5 I6 I7 I8 I9 I9' I10 I11]. pose proof (total_delete need f i _ Hf) as Hneed. pose proof (total_delete owed f i _ Hf) as Howed. cbn [need owed] in *.
  assert (Hrest : ∀ b, length b = 8%nat ∧ Forall (fun x => 0 ≤ x) b ∧ total id b ≤ n + 1 →
    ledger_ok (n + 1) (MkLedger (slots l) (headroom l) (active l) (head l) (reserved l) (pending_gaps l) (gaps l) (refused l) b) (delete i f) ws c h).
  { intros b Hb. split; fields; try done; try lia; [by apply Forall_delete|]. intros E. destruct (I8 E) as (? & ? & ? & ?). split_and!; try done. by apply Forall_delete. }
  unfold Ledger.commit. destruct (before l !! Z.to_nat (kind r)) as [x|] eqn:Ex.
  - assert (Hx : 0 ≤ x) by apply (Forall_lookup_1 _ _ _ _ Hb2 Ex). pose proof (total_insert _ _ _ 0 Ex) as H0.
    assert (0 ≤ total id (<[Z.to_nat (kind r) := 0]> (before l))) by (apply total_not_negative; by apply Forall_insert). unfold add_checked. rewrite checked_ok by (unfold in_width; lia). cbn [mbind outcome_bind].
    eexists. split; [done|]. split; [done|]. apply Hrest. rewrite length_insert. split_and!; [done|apply Forall_insert; [done|lia]|rewrite (total_insert _ _ _ _ Ex); lia].
  - eexists. split; [done|]. split; [done|]. specialize (Hrest (before l) I7). by destruct l.
Qed.

Lemma commit_gap_ok n l f ws c h i r : 0 ≤ n < 2 ^ 62 → ledger_ok n l f ws c h → f !! i = Some TGap →
  ∃ l', Ledger.commit l TGap r = Done ((None, None), l') ∧ active l' = active l ∧ ledger_ok (n + 1) l' (delete i f) ws c (h + 1).
Proof.
  intros Hn Hi Hf. apply (ledger_ok_mono n (n + 1)) in Hi as Hi'; [|lia]. pose proof (lo_bounds _ _ _ _ _ _ Hi) as Hb. pose proof (lo_pending _ _ _ _ _ _ Hi) as Hp.
  destruct Hi' as [[Is Ih] I1 I2 [I3 I3'] I4 I5 I6 I7 I8 I9 I9' I10 I11]. pose proof (total_delete need f i _ Hf) as Hneed. pose proof (total_delete owed f i _ Hf) as Howed. cbn [need owed] in *.
  assert (Hot : 0 ≤ total owed (delete i f)) by (by apply total_not_negative, Forall_delete).
  unfold Ledger.commit, add_checked. rewrite checked_ok by (unfold in_width; lia). cbn [mbind outcome_bind]. rewrite checked_ok by (unfold in_width; lia). cbn [mbind outcome_bind]. eexists. split; [done|]. split; [done|].
  split; fields; try done; try lia; [by apply Forall_delete|]. intros E. destruct (I8 E) as (_ & Ht & _). by apply (Forall_lookup_1 _ _ _ _ Ht) in Hf.
Qed.

Lemma commit_ok n l f ws c h i t r : 0 ≤ n < 2 ^ 62 → ledger_ok n l f ws c h → f !! i = Some t → record_ok r → 3 ≤ kind r ≤ 7 →
  ∃ writes l', Ledger.commit l t r = Done (writes, l') ∧ active l' = active l ∧
    ledger_ok (n + 1) l' (delete i f) (ws ++ records writes) c (h + if is_active_ticket t then 1 else 0).
Proof.
  intros Hn Hi Hf Hr Hk. destruct t; cbn [is_active_ticket].
  - destruct (commit_inactive_ok n l f ws c h i r Hn Hi Hf) as (l' & -> & Ha & Hl). eexists _, l'. split; [done|]. split; [done|]. cbn [records option_list fst snd app]. by rewrite app_nil_r, Z.add_0_r.
  - destruct (commit_slots_ok n l f ws c h i gap r Hn Hi Hf Hr Hk) as (w & l' & -> & Ha & Hl). exists w, l'. split; [done|]. split; [done|]. apply (ledger_ok_mono n); [lia|done].
  - destruct (commit_gap_ok n l f ws c h i r Hn Hi Hf) as (l' & -> & Ha & Hl). eexists _, l'. split; [done|]. split; [done|]. cbn [records option_list fst snd app]. by rewrite app_nil_r.
Qed.

Lemma cancel_ok n l f ws c h i t : 0 ≤ n < 2 ^ 62 → ledger_ok n l f ws c h → f !! i = Some t →
  ∃ l', Ledger.cancel l t = Done l' ∧ active l' = active l ∧ gaps l' = gaps l ∧ ledger_ok n l' (delete i f) ws c h.
Proof.
  intros Hn [[Is Ih] I1 I2 [I3 I3'] I4 I5 I6 I7 I8 I9 I9' I10 I11] Hf. pose proof (total_delete need f i _ Hf) as Hneed. pose proof (total_delete owed f i _ Hf) as Howed.
  pose proof (need_nonneg (delete i f)) as Hnn. assert (Hot : 0 ≤ total owed (delete i f)) by (by apply total_not_negative, Forall_delete). pose proof (Forall_lookup_1 _ _ _ _ I4 Hf) as Hto.
  assert (Hrest : ∀ r p, r = reserved l - need t → p = pending_gaps l + owed t → (active l = false → p = 0) →
    ledger_ok n (MkLedger (slots l) (headroom l) (active l) (head l) r p (gaps l) (refused l) (before l)) (delete i f) ws c h).
  { intros r p -> -> Hz. cbn beta in Hto. assert (0 ≤ need t) by (unfold need; repeat case_match; lia). split; fields; try done; try lia; [by apply Forall_delete|]. intros E. destruct (I8 E) as (? & ? & ? & ?). split_and!; try done; [by apply Forall_delete|by apply Hz]. }
  unfold Ledger.cancel. destruct t as [|gap|]; cbn [need owed] in *.
  - exists l. split_and!; try done. assert (H := Hrest (reserved l) (pending_gaps l) ltac:(lia) ltac:(lia) ltac:(tauto)). by destruct l.
  - unfold add_checked. rewrite checked_ok by (unfold in_width; lia). cbn [mbind outcome_bind]. eexists. split_and!; try done. apply Hrest; [destruct (0 <? gap); lia|done|].
    intros E. destruct (I8 E) as (_ & Ht & _). by apply (Forall_lookup_1 _ _ _ _ Ht) in Hf.
  - exists l. split_and!; try done. assert (H := Hrest (reserved l) (pending_gaps l) ltac:(lia) ltac:(lia) ltac:(tauto)). by destruct l.
Qed.

Lemma sum_is l : Forall (fun x => 0 ≤ x) l → total id l < 2 ^ 64 → Ledger.sum l = Done (total id l).
Proof.
  induction 1 as [|x l Hx Hl IH]; intros Hb; cbn [Ledger.sum total] in *; [done|]. pose proof (total_not_negative id l Hl) as Hp. unfold id at 1 in Hb. rewrite IH by lia. cbn [mbind outcome_bind].
  unfold add_checked. by rewrite checked_ok by (unfold in_width; lia).
Qed.

Lemma inactive_totals f : Forall (fun t => t = TInactive) f → total need f = 0 ∧ total owed f = 0.
Proof. induction 1 as [|t f -> Hf [IH1 IH2]]; [done|]. cbn [total need owed]. lia. Qed.

Lemma attach_ok n l f ws c h b time : 0 ≤ n < 2 ^ 62 → ledger_ok n l f ws c h → in_width 64 b.1 → in_width 64 b.2 → in_width 64 time →
  ∃ writes l', Ledger.attach l b time = Done (writes, l') ∧ gaps l' = gaps l ∧ (writes = None → l' = l) ∧
    ledger_ok (n + 1) l' f (ws ++ match writes with Some writes => records writes | None => [] end) c h.
Proof.
  intros Hn Hi Hb1 Hb2 Ht. pose proof (lo_bounds _ _ _ _ _ _ Hi) as Hb. apply (ledger_ok_mono n (n + 1)) in Hi as Hi'; [|lia]. unfold Ledger.attach. destruct (active l || (slots l =? 0)) eqn:Ea.
  { exists None, l. rewrite app_nil_r. done. }
  apply orb_false_iff in Ea as [Ea _]. destruct Hi as [[Is Ih] I1 I2 [I3 I3'] I4 I5 I6 (I7 & I7' & I7'') I8 I9 I9' I10 I11]. destruct (I8 Ea) as (-> & Hf & Hp & Hg). destruct (inactive_totals f Hf) as [Hn0 Ho0].
  cbn [length] in I1. pose proof (total_not_negative id _ I7') as Hs. rewrite (sum_is _ I7') by lia. cbn [mbind outcome_bind]. unfold add_checked. rewrite checked_ok by (unfold in_width; lia). cbn [mbind outcome_bind]. eexists _, _. split; [done|]. split; [done|]. split; [done|].
  cbn [app]. set (r := MkRecord _ _ _ _ _ _ _ _ _ _ _). change (records _) with [r].
  assert (Hr : record_ok r). { split; cbn; unfold in_width, is_byte in *; try done; try lia. unfold Ledger.as_count. destruct (Z.ltb_spec (total id (before l)) (2 ^ 32)); lia. }
  split; fields; cbn [total length]; rewrite ?Hn0, ?Ho0; try done; try lia.
  - split_and!; [done|done|lia].
  - apply (records_snoc [] (head l) r); try done.
  - intros _. rewrite Hg, Hp. done.
Qed.

(** ** Steps *)
Lemma init_publishes frames c l : gaps l = 0 → ∃ mem, Kernel.ring (Kernel.init (Kernel.MkState l None) frames) = Some mem ∧ published mem c [] l.
Proof. intros Hg. eexists. split; [reflexivity|]. split; [done|..]; rewrite ?Hg; unfold MARKER_OFFSET; repeat words; reflexivity. Qed.

(** Storing after the ledger moved from [l] to [l'], with or without a ring. *)
Lemma store_ok n l l' f ws c h writes ring : match ring with Some mem => published mem c ws l | None => active l = false end → active l' = active l ∨ ring ≠ None →
  ledger_ok n l' f (ws ++ records writes) c h →
  match Kernel.store l' writes ring with Some mem => published mem c (ws ++ records writes) l' | None => active l' = false end.
Proof.
  intros Hr Ha Hl. destruct ring as [mem|]; [|destruct Ha as [-> | ]; done].
  destruct (store_publishes mem c ws l l' writes Hr) as (mem' & -> & Hp); [| | | |exact Hp].
  - intros i r Hi. apply (lo_records _ _ _ _ _ _ Hl). rewrite lookup_app_r by lia. by replace (length ws + i - length ws)%nat with i by lia.
  - apply (lo_free _ _ _ _ _ _ Hl).
  - rewrite <- length_app, <- (lo_head _ _ _ _ _ _ Hl). pose proof (lo_free _ _ _ _ _ _ Hl). rewrite (lo_reserved _ _ _ _ _ _ Hl) in *. pose proof (need_nonneg f). lia.
  - by rewrite (lo_head _ _ _ _ _ _ Hl), length_app.
Qed.

(** A reservation moves neither the records nor the count of gaps. *)
Lemma reserved_ring n w adm claim t l' : Ledger.reserve (the_ledger w) adm claim = Done (t, l') → inv n w → gaps l' = gaps (the_ledger w) → active l' = active (the_ledger w) →
  match Kernel.ring (state w) with Some mem => published mem (believe w claim) (written w) l' | None => active l' = false end.
Proof.
  intros _ [_ Hp] Hg Ha. destruct (Kernel.ring (state w)); [|by rewrite Ha]. eapply published_claim; [exact Hp| |done]. unfold believe. destruct (active (the_ledger w)); lia.
Qed.

Lemma refused_published mem q ws l n : published mem q ws l → published (mem_put mem REFUSED_OFFSET (to_le 8 n)) q ws l.
Proof.
  intros [H1 H2 H3]. split; [|words; exact H2|words; exact H3]. intros i r Hr Hi. pose proof (header_apart (Z.of_nat i) ltac:(lia)). words. by apply H1.
Qed.

Lemma step_inv n w e : 0 ≤ n < 2 ^ 62 → inv n w → event_ok e → ∃ w', step w e = Done w' ∧ inv (n + 1) w'.
Proof.
  intros Hn Hi He. pose proof Hi as [Hl Hp]. assert (Hi1 : inv (n + 1) w) by (split; [apply (ledger_ok_mono n); [lia|done]|done]). destruct e as [frames|claim|claim|i r time|i|b time]; cbn [step event_ok] in *.
  - eexists. split; [done|]. destruct w as [[l [mem|]] f ws c a h x y]; [done|]. unfold the_ledger in *. cbn [Kernel.ring state Kernel.ledger flight written claimed since] in *.
    destruct (lo_inactive _ _ _ _ _ _ Hl Hp) as (-> & _ & _ & Hg). destruct (init_publishes frames c l Hg) as (mem & E & Hm). split; [apply (ledger_ok_mono n); [lia|done]|]. cbn [state]. by rewrite E.
  - destruct (reserve_ok n _ _ _ _ _ Refusable claim Hn Hl He) as (t & l' & E & _ & Hg & Ha & Hl'). pose proof (reserved_ring n w _ _ _ _ E Hi Hg Ha) as Hr. unfold Kernel.reserve, the_ledger in *. rewrite E. cbn [mbind outcome_bind].
    eexists. split; [done|]. split; [exact Hl'|]. unfold the_ledger. cbn [state Kernel.ring Kernel.ledger claimed written]. destruct t; [exact Hr|]. destruct (Kernel.ring (state w)); cbn [Kernel.set_header_word fmap option_fmap option_map]; [by apply refused_published|exact Hr].
  - destruct (reserve_ok n _ _ _ _ _ Unrefusable claim Hn Hl He) as (t & l' & E & Ht & Hg & Ha & Hl'). pose proof (reserved_ring n w _ _ _ _ E Hi Hg Ha) as Hr. destruct (Ht eq_refl) as [t' ->]. unfold Kernel.must, the_ledger in *. rewrite E. cbn [mbind outcome_bind].
    eexists. split; [done|]. split; [exact Hl'|exact Hr].
  - destruct (flight w !! i) as [t|] eqn:Ef; [|by exists w]. destruct He as (Hr & Hk & Ht).
    destruct (commit_ok n _ _ _ _ _ i t (Kernel.at_time r time) Hn Hl Ef) as (ws & l' & E & Ha & Hl'); [by destruct Hr|done|]. unfold Kernel.commit, the_ledger in *. rewrite E. cbn [mbind outcome_bind].
    eexists. split; [done|]. split; [exact Hl'|]. eapply store_ok; [exact Hp|by left|exact Hl'].
  - destruct (flight w !! i) as [t|] eqn:Ef; [|by exists w]. destruct (cancel_ok n _ _ _ _ _ i t Hn Hl Ef) as (l' & E & Ha & Hg & Hl'). unfold Kernel.drop, the_ledger in *. rewrite E. cbn [mbind outcome_bind].
    eexists. split; [done|]. split; [apply (ledger_ok_mono n); [lia|exact Hl']|]. unfold the_ledger. cbn [state Kernel.ring Kernel.ledger claimed written]. destruct (Kernel.ring (state w)); [by eapply published_claim|by rewrite Ha].
  - unfold Kernel.attach. destruct (Kernel.ring (state w)) as [mem|] eqn:Er.
    2: { cbn [mbind outcome_bind]. eexists. split; [done|]. rewrite app_nil_r. by destruct w. }
    destruct He as (Hb1 & Hb2 & Ht). destruct (attach_ok n _ _ _ _ _ b time Hn Hl Hb1 Hb2 Ht) as (ws & l' & E & Hg & Hno & Hl'). unfold the_ledger in *. rewrite E. cbn [mbind outcome_bind].
    eexists. split; [done|]. split; [exact Hl'|]. unfold the_ledger. cbn [state Kernel.ring Kernel.ledger claimed written]. destruct ws as [ws|].
    + eapply store_ok; [exact Hp|by right|exact Hl'].
    + rewrite app_nil_r. rewrite (Hno eq_refl). exact Hp.
Qed.

Lemma start_inv : inv 0 start.
Proof. split; [|done]. unfold start, the_ledger. split; cbn; try done; try lia; try (split_and!; done || lia). split_and!; [done|repeat constructor; lia|done]. Qed.

Lemma run_inv es : ∀ n w, 0 ≤ n → n + Z.of_nat (length es) < 2 ^ 62 → inv n w → Forall event_ok es → ∃ w', run w es = Done w' ∧ inv (n + Z.of_nat (length es)) w'.
Proof.
  induction es as [|e es IH]; intros n w Hn Hb Hi He; cbn [run length] in *; [exists w; by rewrite Z.add_0_r|]. apply Forall_cons in He as [He Hes].
  destruct (step_inv n w e ltac:(lia) Hi He) as (w1 & -> & H1). cbn [mbind outcome_bind]. destruct (IH (n + 1) w1 ltac:(lia) ltac:(lia) H1 Hes) as (w' & Hr & Hw'). exists w'. split; [done|].
  by replace (n + Z.of_nat (S (length es))) with (n + 1 + Z.of_nat (length es)) by lia.
Qed.

(** ** What the reader is not told *)
Definition inactive (t : Ticket) : Z := if is_active_ticket t then 0 else 1.

(** Every operation is counted before the attach, or recorded, or a gap; what the attach
    record counts leaves out only what happened under the reservations then in flight. *)
Record accounts (w : World) : Prop := {
  ac_happened : happened w = total id (before (the_ledger w)) + since w;
  ac_before : active (the_ledger w) = false → across w = 0 ∧ crossing w = 0;
  ac_after : active (the_ledger w) = true → 0 ≤ across w ∧ across w + total inactive (flight w) ≤ crossing w ∧
    ∃ r rest, written w = r :: rest ∧ count r + across w = total id (before (the_ledger w))
}.

Lemma reserve_counts l adm claim t l' : Ledger.reserve l adm claim = Done (t, l') → before l' = before l ∧ active l' = active l ∧ (active l = true → t ≠ Ok TInactive).
Proof.
  unfold Ledger.reserve. destruct (active l) eqn:Ea; cbn [negb]; [|intros [= <- <-]; by rewrite Ea]. intros E. inv_done. destruct (verdict _ _ _ _ _) eqn:Ev; inv_done; by simplify_eq.
Qed.
Lemma commit_counts l t r w' l' : Ledger.commit l t r = Done (w', l') → length (before l) = 8%nat → 3 ≤ kind r ≤ 7 →
  active l' = active l ∧ total id (before l') = total id (before l) + inactive t.
Proof.
  unfold Ledger.commit, inactive. intros E Hb Hk. destruct t as [|gap|]; cbn [is_active_ticket].
  - destruct (lookup_lt_is_Some_2 (before l) (Z.to_nat (kind r))) as [x Ex]; [lia|]. rewrite Ex in E. inv_done. simplify_eq. split; [done|]. cbn [before]. rewrite (total_insert _ _ _ _ Ex). lia.
  - rewrite Z.add_0_r. apply outcome_bind_done in E as ([first l1] & E1 & E). assert (Hl : active l1 = active l ∧ before l1 = before l) by (destruct (0 <? gap); inv_done; by simplify_eq).
    destruct Hl as [<- <-]. inv_done. by simplify_eq.
  - inv_done. simplify_eq. by rewrite Z.add_0_r.
Qed.
Lemma cancel_counts l t l' : Ledger.cancel l t = Done l' → before l' = before l ∧ active l' = active l.
Proof. unfold Ledger.cancel. destruct t; intros E; inv_done; by simplify_eq. Qed.
Lemma attach_counts l b time writes l' : Ledger.attach l b time = Done (writes, l') → Forall (fun x => 0 ≤ x) (before l) → total id (before l) < 2 ^ 32 →
  match writes with
  | None => l' = l
  | Some writes => active l = false ∧ active l' = true ∧ before l' = before l ∧ ∃ r, records writes = [r] ∧ count r = total id (before l)
  end.
Proof.
  unfold Ledger.attach. destruct (active l) eqn:Ea; cbn [orb]; [by intros [= <- <-]|]. destruct (slots l =? 0); [by intros [= <- <-]|]. intros E Hb Ht. rewrite sum_is in E by (done || lia). inv_done. simplify_eq.
  split_and!; try done. eexists. split; [done|]. cbn [count]. unfold Ledger.as_count. by rewrite (proj2 (Z.ltb_lt _ _)) by lia.
Qed.

Lemma total_length {A} (f : A → Z) l : Forall (fun x => f x = 1) l → total f l = Z.of_nat (length l).
Proof. induction 1 as [|x l Hx Hl IH]; cbn [total length]; lia. Qed.

(** A reservation, made or given up: the counts stay, and none in flight is inactive that
    was not. *)
Lemma accounts_keep w l' ring f c : accounts w → before l' = before (the_ledger w) → active l' = active (the_ledger w) → (active (the_ledger w) = true → total inactive f ≤ total inactive (flight w)) →
  accounts (MkWorld (Kernel.MkState l' ring) f (written w) c (happened w) (since w) (across w) (crossing w)).
Proof.
  intros [A1 A2 A3] Hb Ha Hf. split; unfold the_ledger in *; cbn [state Kernel.ledger happened since across crossing flight written]; rewrite ?Hb, ?Ha; try done.
  intros Hact. destruct (A3 Hact) as (H1 & H2 & H3). specialize (Hf Hact). split_and!; [done|lia|done].
Qed.
Lemma inactive_snoc f t : t ≠ TInactive → total inactive (f ++ [t]) ≤ total inactive f.
Proof. intros Ht. rewrite total_app. cbn [total]. destruct t; [done|cbn; lia..]. Qed.

Lemma commit_accounts w i t r ring ws l' : accounts w → length (before (the_ledger w)) = 8%nat → 3 ≤ kind r ≤ 7 → flight w !! i = Some t → Ledger.commit (the_ledger w) t r = Done (ws, l') →
  accounts (MkWorld (Kernel.MkState l' ring) (delete i (flight w)) (written w ++ records ws) (claimed w) (happened w + 1) (since w + (if is_active_ticket t then 1 else 0))
    (across w + (if is_active_ticket t || negb (active (the_ledger w)) then 0 else 1)) (crossing w)).
Proof.
  intros [A1 A2 A3] Hb Hk Hf E. destruct (commit_counts _ _ _ _ _ E Hb Hk) as [Ha Ht]. pose proof (total_delete inactive _ _ _ Hf) as Hd. unfold inactive at 2 in Hd. unfold inactive in Ht.
  split; unfold the_ledger in *; cbn [state Kernel.ledger happened since across crossing flight written]; rewrite ?Ha, ?Ht.
  - destruct (is_active_ticket t); lia.
  - intros Hact. destruct (A2 Hact) as [-> ->]. rewrite Hact, orb_true_r. done.
  - intros Hact. destruct (A3 Hact) as (H1 & H2 & q & rest & -> & Hq). rewrite Hact, orb_false_r. split_and!; [destruct (is_active_ticket t); lia..|]. exists q, (rest ++ records ws). split; [done|]. destruct (is_active_ticket t); lia.
Qed.

Lemma step_accounts n w e w' : 0 ≤ n < 2 ^ 32 → inv n w → event_ok e → step w e = Done w' → accounts w → accounts w'.
Proof.
  intros Hn [Hl Hp] He E HA. pose proof (lo_before _ _ _ _ _ _ Hl) as (Hb1 & Hb2 & Hb3). destruct e as [frames|claim|claim|i r time|i|b time]; cbn [step event_ok] in *.
  - injection E as <-. destruct (Kernel.ring (state w)); [done|]. destruct HA as [A1 A2 A3]. by split.
  - unfold Kernel.reserve in E. destruct (Ledger.reserve _ Refusable claim) as [[t l']| |] eqn:Er; try done. destruct (reserve_counts _ _ _ _ _ Er) as (Hb & Ha & Ht). injection E as <-.
    apply accounts_keep; try done. intros Hact. destruct t as [t|]; [|done]. apply inactive_snoc. intros ->. by apply Ht.
  - unfold Kernel.must in E. destruct (Ledger.reserve _ Unrefusable claim) as [[t l']| |] eqn:Er; try done. destruct (reserve_counts _ _ _ _ _ Er) as (Hb & Ha & Ht). injection E as <-.
    apply accounts_keep; try done. intros Hact. apply inactive_snoc. destruct t as [t|]; [|done]. intros ->. by apply Ht.
  - destruct (flight w !! i) as [t|] eqn:Ef; [|by injection E as <-]. unfold Kernel.commit in E. destruct (Ledger.commit _ t _) as [[ws l']| |] eqn:Ec; try done. injection E as <-. eapply commit_accounts; try done. apply He.
  - destruct (flight w !! i) as [t|] eqn:Ef; [|by injection E as <-]. unfold Kernel.drop in E. destruct (Ledger.cancel _ t) as [l'| |] eqn:Ec; try done. destruct (cancel_counts _ _ _ Ec) as [Hb Ha]. injection E as <-.
    apply accounts_keep; try done. intros _. rewrite (total_delete inactive _ _ _ Ef). unfold inactive at 2. destruct (is_active_ticket t); lia.
  - unfold Kernel.attach in E. destruct (Kernel.ring (state w)) as [mem|] eqn:Er; [|injection E as <-; rewrite app_nil_r; by destruct w]. destruct (Ledger.attach _ b time) as [[ws l']| |] eqn:Ea; try done.
    pose proof (attach_counts _ _ _ _ _ Ea Hb2 ltac:(unfold the_ledger in Hb3; lia)) as Hc. injection E as <-. destruct ws as [ws|]; [|rewrite app_nil_r; subst l'; by apply accounts_keep]. destruct Hc as (H1 & H2 & H3 & r & Hr & Hcount).
    destruct HA as [A1 A2 A3]. destruct (A2 H1) as [E1 _]. destruct (lo_inactive _ _ _ _ _ _ Hl H1) as (Ew & Hf & _).
    split; unfold the_ledger in *; cbn [state Kernel.ledger happened since across crossing flight written]; rewrite ?H2, ?H3; [done|done|]. intros _. rewrite E1, Ew, Hr. split_and!; [done| |exists r, []; split; [done|lia]].
    rewrite total_length; [lia|]. eapply Forall_impl; [exact Hf|]. by intros ? ->.
Qed.

Lemma start_accounts : accounts start.
Proof. by split. Qed.
Lemma run_accounts es : ∀ n w w', 0 ≤ n → n + Z.of_nat (length es) < 2 ^ 32 → inv n w → Forall event_ok es → run w es = Done w' → accounts w → accounts w'.
Proof.
  induction es as [|e es IH]; intros n w w' Hn Hb Hi He Hr Ha; cbn [run length] in *; [by injection Hr as <-|]. apply Forall_cons in He as [He Hes].
  destruct (step_inv n w e ltac:(lia) Hi He) as (w1 & E & H1). rewrite E in Hr. cbn [mbind outcome_bind] in Hr. apply (IH (n + 1) w1 w' ltac:(lia) ltac:(lia) H1 Hes Hr). by apply (step_accounts n w e w1 ltac:(lia)).
Qed.

(** ** The kept log *)

(** The keeper's loop: each record appended to the chain, its entry to the file. *)
Fixpoint keep (chain : Chain) (rs : list (list Z)) : outcome (list Z * Chain) :=
  match rs with
  | [] => Done ([], chain)
  | r :: rs' =>
      '(entry, chain) ← Chain.append chain r;
      '(bytes, chain) ← keep chain rs';
      Done (Entry.to_bytes entry ++ bytes, chain)
  end.

Lemma keep_is rs : ∀ c, 0 ≤ crecords c → crecords c + Z.of_nat (length rs) < 2 ^ 64 → keep c rs = Done (kept (chead c) rs, MkChain (head_after (chead c) rs) (crecords c + Z.of_nat (length rs))).
Proof.
  induction rs as [|r rs IH]; intros c H0 Hc; cbn [keep kept length] in *; [rewrite Z.add_0_r; by destruct c|]. unfold Chain.append. rewrite link_is. cbn [mbind outcome_bind]. unfold add_checked. rewrite checked_ok by (unfold in_width; lia). cbn [mbind outcome_bind].
  rewrite IH by (cbn [crecords]; lia). cbn [mbind outcome_bind chead crecords]. by replace (crecords c + 1 + Z.of_nat (length rs)) with (crecords c + Z.of_nat (S (length rs))) by lia.
Qed.

Lemma in_order_written ws : ∀ q, 0 ≤ q → (∀ i r, ws !! i = Some r → sequence r = q + Z.of_nat i ∧ record_ok r ∧ (q + Z.of_nat i = 0 → kind r = Kind.code Attach)) →
  Forall is_record (Record.to_bytes <$> ws) ∧ in_order q (Record.to_bytes <$> ws).
Proof.
  induction ws as [|r ws IH]; intros q Hq Hw; [by repeat constructor|]. rewrite fmap_cons. destruct (Hw 0%nat r eq_refl) as (Hs & Hr & Ha). rewrite Z.add_0_r in Hs, Ha.
  destruct (IH (q + 1) ltac:(lia)) as [H1 H2].
  { intros i r' Hi. destruct (Hw (S i) r' Hi) as (Hs' & Hr' & Ha'). split_and!; [lia|done|]. intros E. apply Ha'. lia. }
  split; [constructor; [by apply to_bytes_record|done]|]. cbn [in_order]. by rewrite record_roundtrip.
Qed.

Lemma tally_written ws : ∀ q v, 0 < q → Forall record_ok ws → vgaps (tally q v (Record.to_bytes <$> ws)) = vgaps v + total stated ws.
Proof.
  induction ws as [|r ws IH]; intros q v Hq Hw; cbn [fmap list_fmap tally total]; [lia|]. apply Forall_cons in Hw as [Hr Hw]. rewrite IH by (done || lia).
  unfold tally_one, stated at 2. rewrite record_roundtrip by done. rewrite (proj2 (Z.eqb_neq q 0)) by lia. destruct (_ =? Kind.code Gap); cbn [vgaps]; lia.
Qed.

Lemma tally_before rs : ∀ q v, 0 < q → vbefore (tally q v rs) = vbefore v.
Proof.
  induction rs as [|r rs IH]; intros q v Hq; cbn [tally]; [done|]. rewrite IH by lia. unfold tally_one. rewrite (proj2 (Z.eqb_neq q 0)) by lia. by destruct (_ =? Kind.code Gap).
Qed.

(** A log kept of records numbered from zero, the first an attach record, verifies. *)
Lemma log_verifies ws : (∀ i r, ws !! i = Some r → sequence r = Z.of_nat i ∧ record_ok r ∧ (i = 0%nat ↔ kind r = Kind.code Attach)) → Z.of_nat (length ws) < 2 ^ 31 →
  let rs := Record.to_bytes <$> ws in
  verify (AuditLaws.kept GENESIS rs) = Done (Ok (summary rs)) ∧ vrecords (summary rs) = Z.of_nat (length ws) ∧ vgaps (summary rs) = total stated ws ∧ ∀ r rest, ws = r :: rest → vbefore (summary rs) = count r.
Proof.
  intros Hrec Hlen rs. assert (Hl : length rs = length ws) by apply length_fmap.
  destruct (in_order_written ws 0 ltac:(lia)) as [Hrs Ho]; [intros i r Hi; destruct (Hrec i r Hi) as (H1 & H2 & H3); split_and!; [done|done|intros E; apply H3; lia]|]. fold rs in Hrs, Ho.
  assert (Hbytes : Forall is_byte (kept GENESIS rs)) by (apply kept_bytes; [by repeat constructor|done]).
  assert (Hsize : Z.of_nat (length (kept GENESIS rs)) < 2 ^ 38) by (rewrite length_kept by done; change ENTRY_BYTES with 128%nat; lia).
  destruct (verify_is _ Hbytes Hsize) as (r & Hv & Hx). split; [rewrite Hv; f_equal; apply Hx; by exists rs|]. cbn [summary vrecords vgaps]. split; [lia|].
  assert (Hall : Forall record_ok ws) by (apply Forall_lookup_2; intros i r' Hi; apply (Hrec i r' Hi)).
  destruct ws as [|r0 ws']; [done|]. apply Forall_cons in Hall as [Hr0 Hall]. unfold rs. split; [|intros r1 rest [= <- <-]]; cbn [summary vbefore fmap list_fmap tally total].
  - rewrite tally_written by (lia || done). unfold tally_one. cbn [Z.eqb vgaps]. unfold stated at 2. rewrite (proj1 (proj2 (proj2 (Hrec 0%nat r0 eq_refl))) eq_refl). done.
  - rewrite tally_before by lia. unfold tally_one. cbn [Z.eqb vbefore]. by rewrite record_roundtrip.
Qed.

(** What the records of a run look like once kept. *)
Lemma written_verifies n w : n < 2 ^ 30 → inv n w →
  ∃ log chain v, keep Chain.new (Record.to_bytes <$> written w) = Done (log, chain) ∧ verify log = Done (Ok v) ∧ vrecords v = head (the_ledger w) ∧ vhead v = chead chain ∧ vgaps v = total stated (written w) ∧
    ∀ r rest, written w = r :: rest → vbefore v = count r.
Proof.
  intros Hn [Hl _]. pose proof (lo_bounds _ _ _ _ _ _ Hl) as Hb. pose proof (lo_head _ _ _ _ _ _ Hl) as Hh. rewrite (lo_reserved _ _ _ _ _ _ Hl) in Hb. pose proof (need_nonneg (flight w)).
  destruct (log_verifies (written w)) as (Hv & Hr & Hg & Hbe); [|lia|].
  { intros i r Hi. destruct (lo_records _ _ _ _ _ _ Hl i r Hi) as (H1 & H2 & H3 & _). done. }
  set (rs := Record.to_bytes <$> written w) in *. assert (Hlen : length rs = length (written w)) by apply length_fmap.
  exists (kept GENESIS rs), (MkChain (head_after GENESIS rs) (0 + Z.of_nat (length rs))), (summary rs). split; [apply (keep_is rs Chain.new); cbn [crecords Chain.new]; lia|]. split_and!; [done|lia|done|done|done].
Qed.

(** The account: what happened, as the attach record, the operations recorded, the gaps and
    what waits to be stated tell it, but for what happened across the attach. *)
Lemma accounts_total n w : n < 2 ^ 32 → inv n w → accounts w → active (the_ledger w) = true → ∃ r rest, written w = r :: rest ∧ 0 ≤ across w ≤ crossing w ∧
  happened w = count r + across w + total is_operation (written w) + total stated (written w) + pending_gaps (the_ledger w) + total owed (flight w).
Proof.
  intros Hn [Hl _] [A1 _ A3] Ha. destruct (A3 Ha) as (H1 & H2 & r & rest & Hw & Hc). exists r, rest. split; [done|].
  assert (0 ≤ total inactive (flight w)) by (apply total_not_negative, Forall_forall; intros t _; unfold inactive; destruct (is_active_ticket t); lia).
  split; [lia|]. pose proof (lo_since _ _ _ _ _ _ Hl). pose proof (lo_gaps _ _ _ _ _ _ Hl Hn). lia.
Qed.

(** No operation escapes the log: from the kernel's start, over any interleaving of under
    2^30 reservations, commits, dropped reservations, the ring's creation and the reader's
    attaching, and whatever tail the reader claims, nothing panics; and once the reader has
    attached, the log kept of the records verifies, has every record the ledger counts, and
    the operations that happened are those the attach record counts, those recorded, those
    the gap records state, those still waiting for a gap record, and those that happened
    since the attach under a reservation that was in flight at it. *)
Theorem no_operation_escapes_the_log es : Forall event_ok es → Z.of_nat (length es) < 2 ^ 30 →
  ∃ w, run start es = Done w ∧
    (active (the_ledger w) = true →
     ∃ log chain v, keep Chain.new (Record.to_bytes <$> written w) = Done (log, chain) ∧ verify log = Done (Ok v) ∧ vrecords v = head (the_ledger w) ∧ vhead v = chead chain ∧
       0 ≤ across w ≤ crossing w ∧
       happened w = vbefore v + across w + total is_operation (written w) + vgaps v + pending_gaps (the_ledger w) + total owed (flight w)).
Proof.
  intros He Hn. destruct (run_inv es 0 start ltac:(lia) ltac:(lia) start_inv He) as (w & Hr & Hi). exists w. split; [done|]. intros Ha.
  destruct (written_verifies (0 + Z.of_nat (length es)) w ltac:(lia) Hi) as (log & chain & v & H1 & H2 & H3 & H4 & H5 & H6). exists log, chain, v.
  pose proof (run_accounts es 0 start w ltac:(lia) ltac:(lia) start_inv He Hr start_accounts) as HA. destruct (accounts_total (0 + Z.of_nat (length es)) w ltac:(lia) Hi HA Ha) as (r & rest & Hw & Hc & Hh).
  split_and!; try done; try lia. rewrite Hh, H5, (H6 r rest Hw). lia.
Qed.

(** ** Unread records *)
Definition claims_at_most (q : Z) (e : Event) : Prop := match e with EReserve claim | EMust claim => claim ≤ q | _ => True end.

Lemma step_claimed w e w' q : step w e = Done w' → claims_at_most q e → claimed w ≤ q → claimed w' ≤ q.
Proof.
  intros Hs Hc Hw. destruct e; cbn [step claims_at_most] in *.
  - injection Hs as <-. by destruct (Kernel.ring (state w)).
  - destruct (Kernel.reserve (state w) claim) as [[t s]| |]; [|done..]. injection Hs as <-. cbn [claimed]. unfold believe. destruct (active (the_ledger w)); lia.
  - destruct (Kernel.must (state w) claim) as [[t s]| |]; [|done..]. injection Hs as <-. cbn [claimed]. unfold believe. destruct (active (the_ledger w)); lia.
  - destruct (flight w !! i); [|by injection Hs as <-]. destruct (Kernel.commit _ _ _ _) as [[? s]| |]; [|done..]. by injection Hs as <-.
  - destruct (flight w !! i); [|by injection Hs as <-]. destruct (Kernel.drop _ _) as [s| |]; [|done..]. by injection Hs as <-.
  - destruct (Kernel.attach _ _ _) as [[? s]| |]; [|done..]. by injection Hs as <-.
Qed.

Lemma run_claimed es : ∀ w w' q, run w es = Done w' → Forall (claims_at_most q) es → claimed w ≤ q → claimed w' ≤ q.
Proof.
  induction es as [|e es IH]; intros w w' q Hr Hc Hw; cbn [run] in Hr; [by injection Hr as <-|]. apply Forall_cons in Hc as [Hc Hcs]. destruct (step w e) as [w1| |] eqn:E; [|done..].
  cbn [mbind outcome_bind] in Hr. apply (IH w1 w' q Hr Hcs). by eapply step_claimed.
Qed.

(** C19. What has not been read is still there: if the reader never claimed to be past the
    record numbered [q], then the header publishes the number of records written, and every
    one of them from [q] on is read back from the ring as it was written, however many
    operations wanted room. *)
Theorem unread_records_survive es q : Forall event_ok es → Z.of_nat (length es) < 2 ^ 30 → Forall (claims_at_most q) es → 0 ≤ q →
  ∃ w, run start es = Done w ∧ ∀ mem, Kernel.ring (state w) = Some mem →
    from_le (mem_get mem HEAD_OFFSET 8) = Z.of_nat (length (written w)) ∧
    ∀ i r, written w !! i = Some r → q ≤ Z.of_nat i → Kernel.record_at (Some mem) (Z.of_nat i) = Some r.
Proof.
  intros He Hn Hc Hq. destruct (run_inv es 0 start ltac:(lia) ltac:(lia) start_inv He) as (w & Hr & Hl & Hp). exists w. split; [done|]. intros mem Em. rewrite Em in Hp. destruct Hp as [H1 H2 _].
  pose proof (lo_bounds _ _ _ _ _ _ Hl) as Hb. rewrite (lo_reserved _ _ _ _ _ _ Hl) in Hb. pose proof (need_nonneg (flight w)). pose proof (lo_head _ _ _ _ _ _ Hl). split; [rewrite H2; apply from_to_le; lia|].
  intros i r Hi Hqi. pose proof (run_claimed es start w q Hr Hc Hq) as Hcl. destruct (lo_records _ _ _ _ _ _ Hl i r Hi) as (Hs & Hrok & _). unfold Kernel.record_at. rewrite for_region_is.
  cbn [mbind option_bind]. rewrite (H1 i r Hi) by lia. rewrite record_roundtrip by done. by rewrite Hs, Z.eqb_refl.
Qed.

(** ** On a run *)
Definition demo_record : Record := MkRecord 0 0 (Kind.code Grant) 1 3 (MkName 1 2) (MkName 3 4) 1 5 6 7.
Definition demo_events : list Event :=
  [EInit (fun _ => 0); EMust 0; ECommit 0 demo_record 4; EAttach (7, 8) 5; EReserve 0; EReserve 0; ECommit 1 demo_record 6; EDrop 0; EMust 0; ECommit 0 demo_record 9].
Lemma demo_events_ok : Forall event_ok demo_events ∧ Forall (claims_at_most 0) demo_events.
Proof. split; repeat constructor; cbn; unfold in_width, is_byte; lia. Qed.

(** What of a world can be compared. *)
Definition view (o : outcome World) : option (Z * nat * bool * Z * Z * Z * bool) :=
  match o with
  | Done w => Some (happened w, length (written w), active (the_ledger w), total is_operation (written w), pending_gaps (the_ledger w), total owed (flight w), bool_decide (is_Some (Kernel.ring (state w))))
  | _ => None
  end.
Lemma demo_view : view (run start demo_events) = Some (3, 3%nat, true, 2, 0, 0, true).
Proof. vm_compute. reflexivity. Qed.

Lemma no_operation_escapes_the_log_witness : ∃ w log chain v, run start demo_events = Done w ∧ happened w = 3 ∧ length (written w) = 3%nat ∧
  keep Chain.new (Record.to_bytes <$> written w) = Done (log, chain) ∧ verify log = Done (Ok v) ∧ vhead v = chead chain ∧ vbefore v + across w + vgaps v = 1.
Proof.
  destruct demo_events_ok as [Hok _]. destruct (no_operation_escapes_the_log demo_events Hok ltac:(vm_compute; reflexivity)) as (w & Hr & Hw).
  pose proof demo_view as E. rewrite Hr in E. injection E as E1 E2 E3 E4 E5 E6 _. destruct (Hw E3) as (log & chain & v & H1 & H2 & H3 & H4 & H5 & H6).
  exists w, log, chain, v. split_and!; [exact Hr|exact E1|exact E2|exact H1|exact H2|exact H4|lia].
Defined.

Lemma unread_records_survive_witness : ∃ w mem r, run start demo_events = Done w ∧ Kernel.ring (state w) = Some mem ∧ from_le (mem_get mem HEAD_OFFSET 8) = 3 ∧
  written w !! 1%nat = Some r ∧ Kernel.record_at (Some mem) 1 = Some r.
Proof.
  destruct demo_events_ok as [Hok Hc]. destruct (unread_records_survive demo_events 0 Hok ltac:(vm_compute; reflexivity) Hc ltac:(lia)) as (w & Hr & Hw).
  pose proof demo_view as E. rewrite Hr in E. injection E as _ E2 _ _ _ _ E7. apply bool_decide_eq_true in E7 as [mem Em]. destruct (Hw mem Em) as [H1 H2].
  destruct (lookup_lt_is_Some_2 (written w) 1) as [r Hr1]; [lia|]. exists w, mem, r. split_and!; [exact Hr|exact Em|by rewrite H1, E2|exact Hr1|]. apply (H2 1%nat r Hr1). lia.
Defined.

(** ** Two gaps *)

(** An operation whose reservation was made before the reader attached and which happens
    after: the attach record has been written without it, and it is neither recorded nor
    counted as a gap. *)
Theorem operation_across_the_attach_is_lost : ∃ w r, run start [EInit (fun _ => 0); EMust 0; EAttach (7, 8) 5; ECommit 0 demo_record 6] = Done w ∧ active (the_ledger w) = true ∧
  written w = [r] ∧ kind r = Kind.code Attach ∧ count r = 0 ∧ gaps (the_ledger w) = 0 ∧ pending_gaps (the_ledger w) = 0 ∧ flight w = [].
Proof. eexists _, _. split; [reflexivity|]. repeat split. Qed.

(** A ring with no slot free refuses a grant; the same ring under a tail the reader claims
    to be far ahead looks empty, and the record admitted then has the slot of the oldest
    record, which nothing has read. *)
Theorem lying_tail_empties_the_ring :
  let l := MkLedger Kernel.SLOTS Kernel.HEADROOM true 512 0 0 0 0 (replicate 8 0) in
  (∃ l', Ledger.reserve l Refusable 0 = Done (Err tt, l')) ∧
  (∃ l' writes l'' r, Ledger.reserve l Refusable (2 ^ 64 - 1) = Done (Ok (TSlots 0), l') ∧ Ledger.commit l' (TSlots 0) demo_record = Done (writes, l'') ∧ records writes = [r] ∧
     TelemetryRing.slot_offset layout (sequence r) = TelemetryRing.slot_offset layout 0).
Proof. split; [by eexists|]. eexists _, _, _, _. split; [reflexivity|]. split; [reflexivity|]. split; reflexivity. Qed.
