(* ===== verification/AuditKeeper.v ===== *)
(** * The audit log from operation to file

    The whole path of AuditLog.v composed: operations are reserved and committed in the kernel,
    the records cross the ring, and the keeper chains them and writes them to a file, the
    two sides interleaved in any order.  While its writes succeed the file
    verifies, and it accounts for every operation that happened but for those under a
    reservation made before the keeper attached and used after. *)
From stdpp Require Import prelude numbers list.
From S2P Require Import Prelude Bytes Sha AuditLog AuditLaws AuditLedger.
Open Scope Z_scope.
Set Warnings "-clear-no-such-hyp".
#[local] Opaque Sha256.update Sha256.finish Fips.sha256.

Import Auditd.

(** ** The file *)

(** What the keeper has of the entries [log], [m] of them, while no write has failed. *)
Record in_file (log : list Z) (m : nat) (k : Kept) (page file : list Z) : Prop := {
  if_log : length log = (m * 128)%nat;
  if_entries : entries k = Z.of_nat m;
  if_page : length page = 4096%nat ∧ take (m mod 32 * 128) page = drop (m / 32 * 32 * 128) log;
  if_file : ∃ f, kwritten k = Z.of_nat f ∧ (m / 32 * 32 ≤ f ≤ m)%nat ∧ file = take (f * 128) log
}.

Lemma blocks m : (m / 32 * 32 + m mod 32 = m ∧ m mod 32 < 32)%nat.
Proof. pose proof (Nat.div_mod_eq m 32). pose proof (Nat.mod_upper_bound m 32). lia. Qed.

Lemma blocks_full m : (m mod 32 = 31)%nat → (S m / 32 * 32 = S m ∧ S m mod 32 = 0)%nat.
Proof. intros H. destruct (blocks m) as [E _]. replace (S m) with ((m / 32 + 1) * 32)%nat by lia. rewrite Nat.div_mul by lia. split; [lia|apply Nat.Div0.mod_mul]. Qed.
Lemma blocks_more m : (m mod 32 < 31)%nat → (S m / 32 * 32 = m / 32 * 32 ∧ S m mod 32 = m mod 32 + 1)%nat.
Proof.
  intros H. destruct (blocks m) as [E _]. replace (S m) with (m mod 32 + 1 + m / 32 * 32)%nat by lia. rewrite Nat.div_add, Nat.Div0.mod_add by lia. rewrite (Nat.div_small (m mod 32 + 1)), (Nat.mod_small (m mod 32 + 1)) by lia. lia.
Qed.

(** A block written from its first entry, the [c] entries of the page being all there are. *)
Lemma write_ok (log : list Z) (m c : nat) (k : Kept) (page file : list Z) (f : nat) answer :
  let start := ((m - 1) / 32 * 32)%nat in
  length log = (m * 128)%nat → Z.of_nat m < 2 ^ 40 → (0 < m)%nat → (start + c = m)%nat → entries k = Z.of_nat m → kwritten k = Z.of_nat f → (start ≤ f ≤ m)%nat →
  take (c * 128) page = drop (start * 128) log → file = take (f * 128) log →
  write k page file (Z.of_nat c) answer =
    Done (match answer with
          | Wrote => (MkKept (entries k) (kstate k) (flushed k) (Z.of_nat m), log)
          | Failed remains => (MkKept (entries k) 3 (flushed k) (kwritten k), remains)
          end).
Proof.
  intros start Hlog Hm Hm0 Hc He Hf Hr Hp ->. unfold write, sub_checked, mul_checked, add_checked. rewrite He, (checked_ok 64 (Z.of_nat m - 1)) by (unfold in_width; lia). cbn [mbind outcome_bind]. change PER_BLOCK with 32. change (Z.of_nat ENTRY_BYTES) with 128.
  assert (Es : (Z.of_nat m - 1) / 32 * 32 = Z.of_nat start) by (unfold start; rewrite Nat2Z.inj_mul, Nat2Z.inj_div, Nat2Z.inj_sub by lia; reflexivity). rewrite Es.
  rewrite (checked_ok 64 (Z.of_nat c * 128)) by (unfold in_width; lia). cbn [mbind outcome_bind]. rewrite (checked_ok 64 (Z.of_nat start * 128)) by (unfold in_width; lia). cbn [mbind outcome_bind]. destruct answer; [|done].
  rewrite checked_ok by (unfold in_width; lia). cbn [mbind outcome_bind]. f_equal. f_equal; [f_equal; lia|].
  replace (Z.to_nat (Z.of_nat start * 128)) with (start * 128)%nat by lia. replace (Z.to_nat (Z.of_nat c * 128)) with (c * 128)%nat by lia. rewrite Hp, take_take, Nat.min_l by lia.
  rewrite (drop_ge (take _ _)) by (rewrite length_take; lia). by rewrite app_nil_r, take_drop.
Qed.

Lemma push_entry_ok log m k page file bytes answer : in_file log m k page file → kstate k = 1 → length bytes = 128%nat → Z.of_nat m + 1 < 2 ^ 40 →
  ∃ k' page' file', push k page file bytes answer = Done (k', page', file') ∧ (kstate k' = 1 → in_file (log ++ bytes) (S m) k' page' file').
Proof.
  intros [Hlog He [Hpl Hp] (f & Hf & Hr & ->)] Hk Hb Hm. unfold push. rewrite Hk. cbn [Z.eqb negb Pos.eqb]. destruct (blocks m) as [Hm1 Hm2]. change PER_BLOCK with 32. change (Z.of_nat ENTRY_BYTES) with 128. rewrite He.
  unfold add_checked. rewrite checked_ok by (unfold in_width; lia). cbn [mbind outcome_bind].
  replace (Z.to_nat (Z.of_nat m mod 32 * 128)) with (m mod 32 * 128)%nat by (change 32 with (Z.of_nat 32) at 1; rewrite <- Nat2Z.inj_mod; lia).
  set (page' := splice page _ bytes). assert (Hpl' : length page' = 4096%nat) by (unfold page'; rewrite length_splice; lia).
  assert (Hp' : take ((m mod 32 + 1) * 128) page' = drop (m / 32 * 32 * 128) (log ++ bytes)).
  { unfold page', splice. rewrite take_app_ge by (rewrite length_take; lia). rewrite length_take, Nat.min_l by lia. rewrite take_app_le by lia. rewrite (take_ge bytes) by lia. rewrite Hp. by rewrite drop_app_le by lia. }
  assert (Hlog' : length (log ++ bytes) = (S m * 128)%nat) by (rewrite length_app; lia).
  assert (Hfile : take (f * 128) log = take (f * 128) (log ++ bytes)) by (by rewrite take_app_le by lia).
  destruct (Z.eqb_spec ((Z.of_nat m + 1) mod 32) 0) as [E|E].
  - assert (Hfull : (m mod 32 = 31)%nat) by (apply Nat2Z.inj; rewrite Nat2Z.inj_mod; Z.to_euclidean_division_equations; lia).
    rewrite (write_ok (log ++ bytes) (S m) 32 _ _ _ f); cbn [entries kwritten kstate flushed]; try (rewrite ?Nat.sub_succ, ?Nat.sub_0_r; lia || done).
    + cbn [mbind outcome_bind]. destruct answer; eexists _, _, _; (split; [done|]); cbn [kstate]; [|done]. intros _. assert (Hd : (S m / 32 * 32 = S m ∧ S m mod 32 = 0)%nat) by (by apply blocks_full).
      destruct Hd as [Hd1 Hd2]. split; cbn [entries kwritten]; [done|lia|rewrite Hd1, Hd2; split; [done|]|].
      * rewrite drop_ge by lia. done.
      * exists (S m). split; [done|]. split; [lia|]. by rewrite take_ge by lia.
    + rewrite Nat.sub_succ, Nat.sub_0_r. by replace 32%nat with (m mod 32 + 1)%nat at 1 by lia.
  - eexists _, _, _. split; [done|]. intros _. assert (Hd : (S m / 32 * 32 = m / 32 * 32 ∧ S m mod 32 = m mod 32 + 1)%nat).
    { apply blocks_more. apply Nat2Z.inj_lt. rewrite Nat2Z.inj_mod. Z.to_euclidean_division_equations. lia. }
    destruct Hd as [Hd1 Hd2]. split; cbn [entries kwritten]; [done|lia|by rewrite Hd1, Hd2|]. exists f. split; [done|]. rewrite Hd1. split; [lia|done].
Qed.

Lemma flush_ok log m k page file answer : in_file log m k page file → kstate k = 1 → Z.of_nat m < 2 ^ 40 →
  ∃ k' file', flush_kept k page file answer = Done (k', file') ∧ (kstate k' = 1 → in_file log m k' page file').
Proof.
  intros [Hlog He [Hpl Hp] (f & Hf & Hr & ->)] Hk Hm. unfold flush_kept. destruct (blocks m) as [Hm1 Hm2]. change PER_BLOCK with 32. rewrite Hk, He. cbn [Z.eqb Pos.eqb andb].
  assert (Ep : Z.of_nat m mod 32 = Z.of_nat (m mod 32)) by (by rewrite Nat2Z.inj_mod). rewrite Ep.
  destruct (negb (Z.of_nat (m mod 32) =? 0) && negb (Z.of_nat m =? flushed k)) eqn:E.
  2: { eexists _, _. split; [done|]. intros _. split; [done|done|done|]. by exists f. }
  apply andb_true_iff in E as [E%negb_true_iff%Z.eqb_neq _]. assert (Hs : ((m - 1) / 32 * 32 = m / 32 * 32)%nat).
  { replace (m - 1)%nat with (m mod 32 - 1 + m / 32 * 32)%nat by lia. rewrite Nat.div_add by lia. rewrite (Nat.div_small (_ - 1)) by lia. lia. }
  rewrite (write_ok log m (m mod 32) k page _ f); try (rewrite ?Hs; done || lia). cbn [mbind outcome_bind]. destruct answer; eexists _, _; (split; [done|]); cbn [kstate]; [|done]. intros _.
  split; cbn [entries kwritten]; try done. exists m. split; [done|]. split; [lia|]. by rewrite take_ge by lia.
Qed.

(** ** The keeper over a run *)
Section Keeper.
Context (persist : bool).

(** The kernel and the keeper.  A reservation reads the tail as the keeper wrote it, now or
    a while ago. *)
Inductive Turn : Type :=
| Reserve (lag : Z)
| Must (lag : Z)
| Other (e : Event)
| Take (created : bool) (answer : Answer)
| Flush (answer : Answer).

Definition as_seen (a : Auditd.State) (lag : Z) : Z := Z.max 0 (tail a - lag).

Definition turn (wa : World * Auditd.State) (t : Turn) : outcome (World * Auditd.State) :=
  let '(w, a) := wa in
  match t with
  | Reserve lag => w' ← step w (EReserve (as_seen a lag)); Done (w', a)
  | Must lag => w' ← step w (EMust (as_seen a lag)); Done (w', a)
  | Other e => w' ← step w e; Done (w', a)
  | Take created answer =>
      match Kernel.ring (AuditLedger.state w) with
      | None => Done (w, a)
      | Some mem => a' ← take_record persist a mem layout created answer; Done (w, a')
      end
  | Flush answer => a' ← Auditd.flush a answer; Done (w, a')
  end.
Fixpoint turns (wa : World * Auditd.State) (ts : list Turn) : outcome (World * Auditd.State) :=
  match ts with [] => Done wa | t :: ts' => wa ← turn wa t; turns wa ts' end.

Definition turn_ok (t : Turn) : Prop :=
  match t with
  | Reserve lag | Must lag => 0 ≤ lag
  | Other e => event_ok e ∧ match e with EReserve _ | EMust _ => False | _ => True end
  | _ => True
  end.

Definition drained (w : World) (a : Auditd.State) : list (list Z) := Record.to_bytes <$> take (Z.to_nat (tail a)) (written w).

Record keeping (w : World) (a : Auditd.State) : Prop := {
  ke_tail : claimed w ≤ tail a ≤ Z.of_nat (length (written w));
  ke_chain : chain a = MkChain (head_after GENESIS (drained w a)) (tail a);
  ke_order : out_of_order a = 0;
  ke_gaps : agaps a = total stated (take (Z.to_nat (tail a)) (written w));
  ke_kept : match kept a with
            | None => persist = true → tail a = 0
            | Some k => kstate k = 1 → in_file (AuditLaws.kept GENESIS (drained w a)) (Z.to_nat (tail a)) k (page a) (file a)
            end;
  ke_page : kept a = None → length (page a) = 4096%nat ∧ file a = [];
  ke_some : kept a ≠ None → 0 < tail a
}.

(** The kernel's steps leave what has been drained. *)
Lemma step_extends w e w' : step w e = Done w' → ∃ more, written w' = written w ++ more.
Proof.
  intros Hs. destruct e; cbn [step] in Hs.
  - injection Hs as <-. exists []. rewrite app_nil_r. by destruct (Kernel.ring (AuditLedger.state w)).
  - destruct (Kernel.reserve _ claim) as [[t s]| |]; [|done..]. injection Hs as <-. exists []. by rewrite app_nil_r.
  - destruct (Kernel.must _ claim) as [[t s]| |]; [|done..]. injection Hs as <-. exists []. by rewrite app_nil_r.
  - destruct (flight w !! i); [|injection Hs as <-; exists []; by rewrite app_nil_r]. destruct (Kernel.commit _ _ _ _) as [[? s]| |]; [|done..]. injection Hs as <-. by eexists.
  - destruct (flight w !! i); [|injection Hs as <-; exists []; by rewrite app_nil_r]. destruct (Kernel.drop _ _) as [s| |]; [|done..]. injection Hs as <-. exists []. by rewrite app_nil_r.
  - destruct (Kernel.attach _ _ _) as [[? s]| |]; [|done..]. injection Hs as <-. by eexists.
Qed.

Lemma step_keeping w e w' a : step w e = Done w' → claims_at_most (tail a) e → 0 ≤ tail a → keeping w a → keeping w' a.
Proof.
  intros Hs Hc Ht [K1 K2 K3 K4 K5 K6 K7]. destruct (step_extends w e w' Hs) as [more E]. pose proof (step_claimed w e w' (tail a) Hs Hc ltac:(lia)) as Hcl.
  assert (Et : take (Z.to_nat (tail a)) (written w') = take (Z.to_nat (tail a)) (written w)) by (rewrite E; apply take_app_le; lia).
  split; unfold drained in *; rewrite ?Et; try done. split; [done|]. rewrite E, length_app. lia.
Qed.

Lemma kept_snoc rs r : ∀ h, AuditLaws.kept h (rs ++ [r]) = AuditLaws.kept h rs ++ Entry.to_bytes (MkEntry r (head_after h rs) (the_link (head_after h rs) r)).
Proof. induction rs as [|x rs IH]; intros h; cbn [app AuditLaws.kept]; [by rewrite app_nil_r|]. rewrite IH, app_assoc. done. Qed.

Lemma stated_nonneg r : record_ok r → 0 ≤ stated r.
Proof. intros []. unfold stated. destruct (_ =? _); [apply ro_count|lia]. Qed.
Lemma stated_take ws q : Forall record_ok ws → total stated (take q ws) ≤ total stated ws.
Proof.
  intros Hw. rewrite <- (take_drop q ws) at 2. rewrite total_app. assert (0 ≤ total stated (drop q ws)); [|lia]. apply total_not_negative. apply Forall_drop. eapply Forall_impl; [exact Hw|]. apply stated_nonneg.
Qed.

Lemma entry_length r h : length r = RECORD_BYTES → length h = LINK_BYTES → length (Entry.to_bytes (MkEntry r h (the_link h r))) = 128%nat.
Proof. intros Hr Hh. unfold Entry.to_bytes. cbn [erecord previous elink]. by rewrite !length_app, Hr, Hh, length_link. Qed.

(** The file after one more entry, the file being created for the first. *)
Lemma kept_step (tail' : Z) (was : option Kept) (attach created : bool) (page file log bytes : list Z) answer :
  0 ≤ tail' < 2 ^ 39 → (attach = true ↔ tail' = 0) → length bytes = 128%nat → (tail' = 0 → log = []) →
  match was with None => persist = true → tail' = 0 | Some k => kstate k = 1 → in_file log (Z.to_nat tail') k page file end →
  (was = None → length page = 4096%nat ∧ file = []) →
  match (if attach && persist && negb (bool_decide (is_Some was)) then Some (create created) else was) with
  | None => persist = false ∧ was = None
  | Some k => ∃ k' page' file', push k page file bytes answer = Done (k', page', file') ∧ (kstate k' = 1 → in_file (log ++ bytes) (S (Z.to_nat tail')) k' page' file')
  end.
Proof.
  intros Ht Ha Hb Hl Hk Hp.
  assert (Hpush : ∀ k, (kstate k = 1 → in_file log (Z.to_nat tail') k page file) → ∃ k' page' file', push k page file bytes answer = Done (k', page', file') ∧ (kstate k' = 1 → in_file (log ++ bytes) (S (Z.to_nat tail')) k' page' file')).
  { intros k Hin. destruct (decide (kstate k = 1)) as [E|E]; [apply push_entry_ok; [by apply Hin|done|done|lia]|]. unfold push. rewrite (proj2 (Z.eqb_neq _ _) E). cbn [negb]. eexists _, _, _. split; [done|]. done. }
  destruct was as [k|]; cbn [negb]; [rewrite bool_decide_true by done; cbn [negb]; rewrite andb_false_r; by apply Hpush|]. rewrite bool_decide_false by (by intros [? ?]). cbn [negb]. rewrite andb_true_r.
  destruct persist eqn:Eper; [|by rewrite andb_false_r]. specialize (Hk eq_refl). rewrite (proj2 Ha Hk). cbn [andb]. apply Hpush. intros _. destruct (Hp eq_refl) as [Hpl ->]. rewrite (Hl Hk), Hk.
  split; [done|done|split; [done|done]|]. exists 0%nat. done.
Qed.

Lemma take_keeping n w a mem created answer : n < 2 ^ 30 → inv n w → Kernel.ring (AuditLedger.state w) = Some mem → keeping w a → 0 ≤ tail a →
  ∃ a', take_record persist a mem layout created answer = Done a' ∧ 0 ≤ tail a' ∧ keeping w a'.
Proof.
  intros Hn [Hl Hp] Em [K1 K2 K3 K4 K5 K6 K7] Ht. rewrite Em in Hp. destruct Hp as [P1 P2 _]. pose proof (lo_head _ _ _ _ _ _ Hl) as Hh. pose proof (lo_free _ _ _ _ _ _ Hl) as Hf. pose proof (lo_bounds _ _ _ _ _ _ Hl) as Hb.
  rewrite (lo_reserved _ _ _ _ _ _ Hl) in Hb, Hf. pose proof (need_nonneg (flight w)) as Hnn. unfold take_record. rewrite P2, from_to_le by lia. cbn zeta. unfold TelemetryRing.readable. cbn [layout TelemetryRing.slots].
  rewrite (proj2 (Z.ltb_ge _ (tail a))) by lia. rewrite (proj2 (Z.ltb_ge 512 _)) by lia. destruct (Z.eqb_spec (Z.of_nat (length (written w)) - tail a) 0) as [E|E]; [by exists a|].
  destruct (lookup_lt_is_Some_2 (written w) (Z.to_nat (tail a))) as [r Hr]; [lia|]. destruct (lo_records _ _ _ _ _ _ Hl _ r Hr) as (Hs & Hrok & Hat & Hkind). rewrite Z2Nat.id in Hs by lia.
  assert (Hbytes : mem_get mem (TelemetryRing.slot_offset layout (tail a)) RECORD_BYTES = Record.to_bytes r) by (rewrite <- (P1 _ r Hr) by lia; by rewrite Z2Nat.id by lia).
  change (TelemetryRing.MkLayout 512) with layout. rewrite Hbytes, record_roundtrip by done. rewrite K2. cbn [crecords]. rewrite Hs, Z.eqb_refl. cbn [negb mbind outcome_bind].
  assert (Etake : take (Z.to_nat (tail a + 1)) (written w) = take (Z.to_nat (tail a)) (written w) ++ [r]) by (replace (Z.to_nat (tail a + 1)) with (S (Z.to_nat (tail a))) by lia; by apply take_S_r).
  assert (Hall : Forall record_ok (written w)) by (apply Forall_lookup_2; intros i r' Hi; apply (lo_records _ _ _ _ _ _ Hl i r' Hi)).
  assert (Hst : agaps a + stated r ≤ gaps (the_ledger w)).
  { pose proof (stated_take (written w) (Z.to_nat (tail a + 1)) Hall) as H. rewrite Etake, total_app in H. cbn [total] in H. pose proof (lo_gaps _ _ _ _ _ _ Hl ltac:(lia)) as Hg.
    pose proof (lo_pending _ _ _ _ _ _ Hl). pose proof (total_not_negative owed _ (lo_tickets _ _ _ _ _ _ Hl)). lia. }
  assert (Hag : 0 ≤ agaps a) by (rewrite K4; apply total_not_negative, Forall_take; eapply Forall_impl; [exact Hall|]; apply stated_nonneg). pose proof (stated_nonneg r Hrok) as Hsr.
  assert (Hgaps : (if negb (kind r =? Kind.code Attach) && (kind r =? Kind.code Gap) then add_checked 64 (agaps a) (count r) else Done (agaps a)) = Done (agaps a + stated r)).
  { unfold stated in *. destruct (Z.eqb_spec (kind r) (Kind.code Gap)) as [Eg|Eg]; [|by rewrite andb_false_r, Z.add_0_r]. rewrite Eg. cbn [Kind.code Z.eqb Pos.eqb negb andb]. unfold add_checked. by rewrite checked_ok by (unfold in_width; lia). }
  rewrite Hgaps. cbn [mbind outcome_bind]. unfold Chain.append. rewrite link_is. cbn [mbind outcome_bind chead crecords]. unfold add_checked. rewrite checked_ok by (unfold in_width; lia). cbn [mbind outcome_bind].
  assert (Hd : ∀ c k g l p f, drained w (MkState (tail a + 1) c k g l p f) = drained w a ++ [Record.to_bytes r]) by (intros; unfold drained; cbn [tail]; by rewrite Etake, fmap_app).
  pose proof (kept_step (tail a) (kept a) (kind r =? Kind.code Attach) created (page a) (file a) (AuditLaws.kept GENESIS (drained w a)) _ answer ltac:(lia)
    ltac:(rewrite Z.eqb_eq, <- Hat; lia) (entry_length (Record.to_bytes r) (head_after GENESIS (drained w a)) eq_refl (length_head_after _)) ltac:(intros E0; unfold drained; by rewrite E0) K5 K6) as Hk.
  assert (Hchain : ∀ c k g l p f, c = MkChain (the_link (head_after GENESIS (drained w a)) (Record.to_bytes r)) (tail a + 1) → c = MkChain (head_after GENESIS (drained w (MkState (tail a + 1) c k g l p f))) (tail a + 1))
    by (intros c k g l p f Ec; rewrite Hd; unfold head_after at 1; rewrite foldl_app; exact Ec).
  revert Hk. destruct (if (kind r =? Kind.code Attach) && persist && negb (bool_decide (is_Some (kept a))) then Some (create created) else kept a) as [k|]; intros Hk.
  - destruct Hk as (k' & page' & file' & -> & Hin). cbn [mbind outcome_bind]. eexists. split; [done|]. split; [cbn; lia|].
    split; cbn [tail chain out_of_order agaps kept page file]; [lia|by apply Hchain|done|rewrite Etake, total_app; cbn [total]; lia| |done|lia]. intros E1. rewrite Hd, kept_snoc. replace (Z.to_nat (tail a + 1)) with (S (Z.to_nat (tail a))) by lia. by apply Hin.
  - destruct Hk as [Hper Hnone]. eexists. split; [done|]. split; [cbn; lia|].
    split; cbn [tail chain out_of_order agaps kept page file]; [lia|by apply Hchain|done|rewrite Etake, total_app; cbn [total]; lia|by rewrite Hper|by intros _; apply K6|done].
Qed.

Lemma flush_keeping w a answer : Z.of_nat (length (written w)) < 2 ^ 39 → keeping w a → 0 ≤ tail a → ∃ a', Auditd.flush a answer = Done a' ∧ tail a' = tail a ∧ keeping w a'.
Proof.
  intros Hn [K1 K2 K3 K4 K5 K6 K7] Ht. unfold Auditd.flush. destruct (kept a) as [k|] eqn:Ek; [|exists a; split; [done|]; split; [done|]; split; rewrite ?Ek; done].
  assert (Hf : ∃ k' file', flush_kept k (page a) (file a) answer = Done (k', file') ∧ (kstate k' = 1 → in_file (AuditLaws.kept GENESIS (drained w a)) (Z.to_nat (tail a)) k' (page a) file')).
  { destruct (decide (kstate k = 1)) as [E|E]; [apply flush_ok; [by apply K5|done|lia]|]. unfold flush_kept. rewrite (proj2 (Z.eqb_neq _ _) E). cbn [andb]. by eexists _, _. }
  destruct Hf as (k' & file' & -> & Hin). cbn [mbind outcome_bind]. eexists. split; [done|]. split; [done|]. split; try done. intros _. by apply K7.
Qed.

Lemma turn_inv n wa t : 0 ≤ n < 2 ^ 30 - 1 → inv n wa.1 → 0 ≤ tail wa.2 → keeping wa.1 wa.2 → accounts wa.1 → turn_ok t →
  ∃ wa', turn wa t = Done wa' ∧ inv (n + 1) wa'.1 ∧ 0 ≤ tail wa'.2 ∧ keeping wa'.1 wa'.2 ∧ accounts wa'.1.
Proof.
  destruct wa as [w a]. cbn [fst snd]. intros Hn Hi Ht Hk Hacc Hok. assert (Hi1 : inv (n + 1) w) by (destruct Hi as [Hl Hp]; split; [apply (ledger_ok_mono n); [lia|done]|done]).
  assert (Hlen : Z.of_nat (length (written w)) ≤ 2 * n).
  { destruct Hi as [Hl _]. pose proof (lo_bounds _ _ _ _ _ _ Hl) as Hb. pose proof (lo_head _ _ _ _ _ _ Hl). rewrite (lo_reserved _ _ _ _ _ _ Hl) in Hb. pose proof (need_nonneg (flight w)). lia. }
  assert (Hev : ∀ e, event_ok e → claims_at_most (tail a) e → ∃ wa', (w' ← step w e; Done (w', a)) = Done wa' ∧ inv (n + 1) wa'.1 ∧ 0 ≤ tail wa'.2 ∧ keeping wa'.1 wa'.2 ∧ accounts wa'.1).
  { intros e He Hc. destruct (step_inv n w e ltac:(lia) Hi He) as (w' & Hs & Hi'). rewrite Hs. exists (w', a). split; [done|]. split; [done|]. split; [done|]. split; [by apply (step_keeping w e)|by apply (step_accounts n w e w' ltac:(lia))]. }
  pose proof (ke_tail _ _ Hk) as Htl. destruct t as [lag|lag|e|created answer|answer]; cbn [turn turn_ok] in *.
  - apply Hev; cbn [event_ok claims_at_most]; unfold as_seen, in_width; lia.
  - apply Hev; cbn [event_ok claims_at_most]; unfold as_seen, in_width; lia.
  - destruct Hok as [He Hr]. apply Hev; [done|]. by destruct e.
  - destruct (Kernel.ring (AuditLedger.state w)) as [mem|] eqn:Em; [|by exists (w, a)]. destruct (take_keeping n w a mem created answer ltac:(lia) Hi Em Hk Ht) as (a' & -> & Ht' & Hk'). by exists (w, a').
  - destruct (flush_keeping w a answer ltac:(lia) Hk Ht) as (a' & -> & Et & Hk'). exists (w, a'). split; [done|]. cbn [fst snd]. by rewrite Et.
Qed.

Lemma turns_inv ts : ∀ n wa, 0 ≤ n → n + Z.of_nat (length ts) < 2 ^ 30 → inv n wa.1 → 0 ≤ tail wa.2 → keeping wa.1 wa.2 → accounts wa.1 → Forall turn_ok ts →
  ∃ wa', turns wa ts = Done wa' ∧ inv (n + Z.of_nat (length ts)) wa'.1 ∧ 0 ≤ tail wa'.2 ∧ keeping wa'.1 wa'.2 ∧ accounts wa'.1.
Proof.
  induction ts as [|t ts IH]; intros n wa Hn Hb Hi Ht Hk Hacc Hok; cbn [turns length] in *; [exists wa; by rewrite Z.add_0_r|]. apply Forall_cons in Hok as [Hok Hoks].
  destruct (turn_inv n wa t ltac:(lia) Hi Ht Hk Hacc Hok) as (wa1 & -> & Hi1 & Ht1 & Hk1 & Hacc1). cbn [mbind outcome_bind]. destruct (IH (n + 1) wa1 ltac:(lia) ltac:(lia) Hi1 Ht1 Hk1 Hacc1 Hoks) as (wa' & Hr & Hw').
  exists wa'. split; [done|]. by replace (n + Z.of_nat (S (length ts))) with (n + 1 + Z.of_nat (length ts)) by lia.
Qed.

Lemma start_keeping : keeping AuditLedger.start Auditd.start.
Proof. split; try done. Qed.

Lemma take_kept f : ∀ rs h, length h = LINK_BYTES → Forall is_record rs → take (f * 128) (AuditLaws.kept h rs) = AuditLaws.kept h (take f rs).
Proof.
  induction f as [|f IH]; intros [|r rs] h Hh Hrs; [done|done|by rewrite take_nil|]. apply Forall_cons in Hrs as [[Hr _] Hrs]. cbn [take AuditLaws.kept]. pose proof (entry_length r h Hr Hh) as El.
  rewrite take_app_ge by lia. f_equal. rewrite El. replace (S f * 128 - 128)%nat with (f * 128)%nat by lia. apply IH; [apply length_link|done].
Qed.
End Keeper.

(** C18. The audit log from operation to file: with the kernel's operations and the keeper's
    turns, under 2^30 of them, interleaved in any order from the start, the keeper never sees
    a record out of order, and while no write of the file has failed, the file holds exactly
    the entries of the first records written and verifies; once it holds all of them, the
    operations that happened, from the kernel's start, are those the attach record counts,
    those the file records, those its gaps state, those still waiting to be stated, and
    those that happened since the attach under a reservation made before it, which are no
    more than the reservations then in flight. *)
Theorem the_file_tells_what_happened persist ts : Forall turn_ok ts → Z.of_nat (length ts) < 2 ^ 30 →
  ∃ w a, turns persist (AuditLedger.start, Auditd.start) ts = Done (w, a) ∧ out_of_order a = 0 ∧
    ∀ k, kept a = Some k → kstate k = 1 →
      ∃ f v, kwritten k = Z.of_nat f ∧ (f ≤ length (written w))%nat ∧ file a = AuditLaws.kept GENESIS (Record.to_bytes <$> take f (written w)) ∧
        verify (file a) = Done (Ok v) ∧ vrecords v = Z.of_nat f ∧
        (f = length (written w) → 0 ≤ across w ≤ crossing w ∧
          happened w = vbefore v + across w + total is_operation (written w) + vgaps v + pending_gaps (the_ledger w) + total owed (flight w)).
Proof.
  intros Hok Hn. destruct (turns_inv persist ts 0 (AuditLedger.start, Auditd.start) ltac:(lia) ltac:(lia) start_inv ltac:(done) (start_keeping persist) start_accounts Hok) as ([w a] & Hr & Hi & Ht & Hk & Hacc). cbn [fst snd] in *.
  exists w, a. split; [done|]. destruct Hk as [K1 K2 K3 K4 K5 K6 K7]. split; [done|]. intros k Ek Es. rewrite Ek in K5. destruct (K5 Es) as [_ _ _ (f & Hf & Hfr & Efile)]. pose proof Hi as [Hl _]. specialize (K7 ltac:(by rewrite Ek)).
  pose proof (lo_bounds _ _ _ _ _ _ Hl) as Hb. pose proof (lo_head _ _ _ _ _ _ Hl) as Hh. rewrite (lo_reserved _ _ _ _ _ _ Hl) in Hb. pose proof (need_nonneg (flight w)).
  assert (Hall : Forall is_record (drained w a)) by (unfold drained; apply Forall_fmap, Forall_take, Forall_lookup_2; intros i r Hri; apply to_bytes_record, (lo_records _ _ _ _ _ _ Hl i r Hri)).
  assert (Ef : file a = AuditLaws.kept GENESIS (Record.to_bytes <$> take f (written w))).
  { rewrite Efile, take_kept by done. unfold drained. rewrite <- fmap_take, take_take. by rewrite Nat.min_l by lia. }
  destruct (log_verifies (take f (written w))) as (Hv & Hr1 & Hg & Hbe).
  { intros i r Hri. apply lookup_take_Some in Hri as [Hri _]. destruct (lo_records _ _ _ _ _ _ Hl i r Hri) as (H1 & H2 & H3 & _). done. }
  { rewrite length_take. lia. }
  exists f, (summary (Record.to_bytes <$> take f (written w))). rewrite Ef. split_and!; [done|lia|done|done|rewrite Hr1, length_take; lia|].
  intros Efull. assert (Ha : active (the_ledger w) = true) by (destruct (active (the_ledger w)) eqn:E; [done|]; destruct (lo_inactive _ _ _ _ _ _ Hl E) as (Ew & _); rewrite Ew in K1; cbn in K1; lia).
  destruct (accounts_total (0 + Z.of_nat (length ts)) w ltac:(lia) Hi Hacc Ha) as (r & rest & Hw & Hc & Hhap). split; [done|]. rewrite Hhap, Hg, (Hbe r rest), Efull, take_ge by (lia || by rewrite Efull, take_ge by lia). lia.
Qed.

Definition demo_turns : list Turn :=
  [Other (EInit (fun _ => 0)); Must 0; Other (ECommit 0 demo_record 4); Other (EAttach (7, 8) 5); Take true Wrote; Reserve 0; Reserve 1; Other (ECommit 1 demo_record 6);
   Other (EDrop 0); Must 0; Take true Wrote; Flush Wrote; Other (ECommit 0 demo_record 9); Take true Wrote; Flush Wrote].
Definition keeper_view (o : outcome (World * Auditd.State)) : option (Z * nat * option (Z * Z) * nat) :=
  match o with
  | Done (w, a) => Some (happened w, length (written w), (fun k => (kstate k, kwritten k)) <$> kept a, length (flight w))
  | _ => None
  end.
Transparent Sha256.update Sha256.finish Fips.sha256.
Lemma demo_keeper_view : keeper_view (turns true (AuditLedger.start, Auditd.start) demo_turns) = Some (3, 3%nat, Some (1, 3), 0%nat).
Proof. vm_compute. reflexivity. Qed.

Lemma the_file_tells_what_happened_witness : ∃ w a v, turns true (AuditLedger.start, Auditd.start) demo_turns = Done (w, a) ∧ happened w = 3 ∧ verify (file a) = Done (Ok v) ∧ vrecords v = 3.
Proof.
  destruct (the_file_tells_what_happened true demo_turns) as (w & a & Hr & _ & Hk); [repeat constructor; cbn; unfold in_width, is_byte; lia|vm_compute; reflexivity|].
  pose proof demo_keeper_view as E. rewrite Hr in E. unfold keeper_view in E. destruct (kept a) as [k|] eqn:Ek; [|done]. injection E as E1 E2 E3 E4 E5. destruct (Hk k eq_refl E3) as (f & v & H1 & H2 & H3 & H4 & H5 & H6).
  exists w, a, v. split_and!; [exact Hr|exact E1|exact H4|lia].
Defined.
